(* ===== verification/_CoqProject ===== *)
-Q . S2P
Prelude.v
StateMonad.v
Rbt.v
RbtTree.v
RbtMem.v
RbtFind.v
RbtIns.v
RbtDel.v
RbtSet.v
RbtOps.v
RbtProps.v
Circq.v
Timeout.v
TimeoutWheel.v
TimeoutInv.v
TimeoutOps.v
TimeoutScan.v
TimeoutAdjust.v
TimeoutRun.v
TimeoutSys.v
TimeoutLoop.v
TimeoutProps.v
Bitmap.v
Clist.v
RangeAllocator.v
Extent.v
ExtentList.v
Bpf.v
Clock.v
Rwlock.v
Rrwlock.v
RwObj.v
Quad.v
Libkern.v
Blist.v
Lockf.v
LockfMem.v
LockfSpec.v
LockfSystem.v
Art.v
ArtTable.v
ArtMem.v
ArtInv.v
ArtOps.v
ArtIter.v
ArtSystem.v
ArtProps.v
WgAip.v
