(* ===== verification/Prelude.v ===== *)
(** * A verification library for the MBSD kernel

    The repository is an OpenBSD kernel tree (everything under src/sys) with a
    driver and documents of its own.  This library models the kernel's
    machine-independent core routines that carry an algorithm of their own,
    translates them from C function by function, and proves what they promise.

    ** The parts, and where each stands

    - [Prelude]: what the files share.  Kernel code that can stop is a value of
      [outcome]: [Ret], or [Fault] with a reason: a [panic] or a failed
      [KASSERT] (with the name of the function), an access outside an array, a
      NULL pointer, an arithmetic operation C leaves undefined, and the model's
      own [OutOfFuel].  Integers are [Z], brought to their width by [u8],
      [u32], [u64], [int_], [quad_]...: the unsigned types wrap, the signed ones
      fault where C has no meaning.
    - [Bitmap] and [Clist]: the macros [setbit]/[clrbit]/[isset] (sys/param.h)
      and the ring buffers of the terminal layer (kern/tty_subr.c).  [clist] has
      the fields of [struct clist]; pointers into the buffer are offsets.
    - [RangeAllocator]: a class, what an allocator of ranges promises its
      clients, and the safety of any client of any such allocator.  [Extent] and
      [Blist] are the two instances.
    - [Extent]: maps of allocated address ranges (kern/subr_extent.c).  The
      sorted linked list of regions is a list; sleeping until space is freed is
      an explicit [Blocked] result with the point where the call resumes.
      [ExtentList] has the list of all extents and what creating and destroying
      do to it.
    - [Blist]: the allocator of swap blocks, a bitmap radix tree in one array
      (kern/subr_blist.c).
    - [Bpf]: the packet filter machine and its validator (net/bpf_filter.c).
    - [Clock]: seconds and calendar dates (kern/clock_subr.c).
    - [Rwlock]: sleeping reader/writer locks (kern/kern_rwlock.c) as a step
      relation over any number of threads, one step per atomic access; a
      thread's program counter names the point in the C function it is at, and
      sleep and wakeup act on a shared queue as sleep_setup(9) says.  [Rrwlock]
      puts the recursive locks of the same file on top: a second program counter
      for [rrw_enter] and [rrw_exit], whose calls of [rw_enter] and [rw_exit]
      are runs of [Rwlock]'s steps.  [RwObj] has the reference-counted lock
      objects, again one step per atomic access.
    - [Quad] and [Libkern]: lib/libkern, the 64-bit arithmetic of 32-bit
      machines and the string, memory and bit-search routines.
    - [Lockf], [LockfMem], [LockfSpec], [LockfSystem]: advisory record locks
      (kern/vfs_lockf.c).  [Lockf] has the code: the lock objects stand in a heap
      and are named by pointers, because one lock is at once in the file's list
      and in the list of what it blocks; the functions run in a state monad over
      that memory; a call that sleeps returns [Sleeps], and [lf_setlock_resume]
      and [lf_purgelocks_resume] go on from there.  [LockfMem] has the invariant
      of the memory and what single statements do to it, [LockfSpec] the loops
      that clear and add a range, [LockfSystem] the calls and the events.
    - [Rbt] and the files [Rbt...]: the red-black trees (kern/subr_tree.c).
      [Rbt] has the code on a memory of [struct rb_entry]s by address.  [RbtTree]
      has pure trees and their contexts, where the two mirror images of the code
      are one; [RbtMem] says when entries represent a tree and what each statement
      and a rotation do to it; [RbtFind] searches and walks, [RbtIns] insertion,
      [RbtDel] removal; [RbtSet] the specification on sorted lists, [RbtOps] each
      call against it, [RbtProps] the properties.
    - [Circq] and the files [Timeout...]: the timeouts (kern/kern_timeout.c).  [Circq]
      has the macros of the circular queues on typed pointers and what they do to the
      lists the queues stand for; [Timeout] every function, cut where timeout_mutex is
      released to call out.  [TimeoutWheel] is the arithmetic of the two wheels, when
      a bucket is emptied next and where a time goes; [TimeoutInv] the invariant and
      its steps; [TimeoutOps] the calls of clients, [TimeoutScan] the clock interrupt,
      [TimeoutAdjust] the jump of the ticks, [TimeoutRun] softclock and the threads;
      [TimeoutSys] all of it as one system, [TimeoutLoop] whole runs of softclock,
      [TimeoutProps] the properties.  [int] sums wrap there, as the kernel is built
      with -fwrapv and the code's comment on wrapping ints relies on.
    - [StateMonad]: the state and error monad in which [Lockf], [Art], [Rbt] and
      [Timeout] are written, with the rule of each statement for [runs], total correctness.
    - [Art] and the files [Art...]: the allotment routing table (net/art.c,
      net/art.h).  [Art] has the code on a memory of tables, heaps and nodes named
      by addresses; an entry is a tagged word as in C.  [ArtTable] is about one
      table (bit strings and indices, the best route of an index), [ArtMem]
      about the words of the heaps and the goto machine of [art_allot],
      [ArtInv] has the invariant of the whole memory, [ArtOps] the lookups,
      insertion and deletion, [ArtIter] iteration, [ArtSystem] the clients and
      the collectors as one system, [ArtProps] what it promises.
    - [WgAip]: a client of the routing table, the allowed IPs of a WireGuard
      interface (net/if_wg.c): the two tables, the structures around their nodes
      and the list of each peer.

    The parts do not call each other except as the files require each other:
    [Clist] uses [Bitmap], [Extent] and [Blist] discharge [RangeAllocator], the steps of
    [Rrwlock] are steps of [Rwlock], and [WgAip] calls [Art] and is proved from
    what [ArtSystem] promises ([WgAip.table_get] and the lemmas after it).

    ** What the theorems show

    - [Clist.clist_refines_queue]: any sequence of calls behaves as on a bounded
      queue of characters; [catq], [firstc]/[nextc] against the same queue;
      [Bitmap.clrbits_is_loop]: the optimised clearing is the loop of [clrbit].
    - [Extent]: each allocation and free, on every branch, against the set of
      allocated addresses and the well-formed region list; a client that only
      frees what it holds and asks within the rules never sees overlap or a panic.
    - [Blist]: the tree with its hints, counts and stale subtrees represents a set
      of free blocks ([blist_ok]); allocation is first fit among the runs of
      that set within a leaf of 64 blocks; free,
      fill of up to 64 blocks, create, resize and gapfind are what they say on that set; the same
      client theorem.
    - [Bpf]: an accepted program never leaves itself or its memory and always
      terminates; the loads succeed exactly within the packet.
    - [Clock]: the two round trips between seconds and dates.
    - [Rwlock]: mutual exclusion and the absence of panics in every reachable
      state, [rw_status], and that in runs without signals a sleeper beside a free
      lock always has a thread pledged to wake it or to take the lock ([pledged]);
      [rw_intr_loses_wakeup] shows why that condition is needed; what each assertion of [rw_assert_...] means.
    - [Rrwlock.rrwlock_nesting]: exits match enters, the lock within is only used by
      its rules, the KASSERT never fires; [RwObj.rw_obj_refcount]: the reference
      counts are exact and the last free gives the object back.
    - [Quad]: algorithm D divides exactly; the multiplication, the divisions, the
      shifts, the comparisons and the word operations are the arithmetic they name.
    - [Libkern]: every routine against a description of its effect on the byte
      array; [bcopy] and [memmove] are the same copy.
    - [LockfSystem]: over every sequence of calls, sleeps, wakeups and signals on a
      file, two locks in force that share a byte are shared locks of different
      owners; every call returns without a fault, the sum for SEEK_END apart, and so
      does the purge of a file and what goes on during it; a sleeper waits for a lock it
      conflicts with or has a wakeup on its way; and each F_SETLK, F_UNLCK and
      F_GETLK, in terms of who holds which byte with which type.
    - [ArtProps]: any sequence of calls of the clients is a run of a finite map
      from prefixes to nodes ([art_refines_map]), no call panics, and a failed
      insertion changes no answer; longest-prefix match; walks and iterators see
      every route once while others insert and delete; the memory is well typed
      and the collectors leave no garbage; the jumps of [art_allot] are a recursion
      ([art_allot_is_recursion]; the one in its comment only where no child hangs, see
      [allot_comment_differs]), [art_bindex] and [art_node_check] are what they say on
      bit strings.
    - [WgAip.wg_aip_refines_map]: the allowed IPs are a map from prefixes to peers
      with lookup by longest prefix, on every outcome of adding and removing;
      [wg_peer_leaves_nothing]: what is dropped with a peer.
    - [RbtProps]: any sequence of calls is one on a sorted list of objects, under the
      laws of a comparison function ([RbtSet.CompareLaws]); the tree in memory stays
      red-black with its parent pointers right, so its height and the comparisons
      of a search are logarithmic; an insertion is undone by a removal, and no call
      touches the entries of other objects.
    - [TimeoutProps]: no call on timeouts faults in any reachable state, and the flag
      TIMEOUT_ONQUEUE, the queues and the count agree ([timeouts_safe]); no timeout
      is late or early on softclock while clock interrupts are less than two seconds
      apart ([timeouts_on_time]); the order in which softclock runs them, and that it
      ends whatever calls on timeouts the functions make ([softclock_ends], from the
      class [TimeoutLoop.Handlers] that [TimeoutLoop.functions] discharges); the
      intervals in units round up ([timeout_add_units]).
    - [ExtentList]: every extent is on the list once, and a panic meets the one who
      creates a second extent in the same storage.

    Each theorem with hypotheses is followed by a witness, its instance at a
    concrete state.  Some theorems are about what the code does against its
    intention.  [Extent.conflictok_inside_frees], [Rwlock.rw_intr_loses_wakeup],
    [TimeoutProps.timeout_readd_runs_now] and [TimeoutProps.hardclock_lap_skips]
    say in which states it happens; [Extent.alloc_subregion_wraps],
    [Extent.boundary_unaligned], [Clist.ndqb_quote_off_by_one],
    [Bpf.validate_accepts_wide_shift], [Blist.blist_checks_amiss],
    [ArtProps.art_amiss], [ArtProps.allot_comment_differs],
    [WgAip.wg_aip_add_null] and
    [LockfSystem.lockf_amiss] are runs of the definitions.

    ** Bounds and fuel

    Loops that walk a list or count down are structural.  Where a loop is not,
    a definition takes fuel and sets it from a measure of the C loop: the
    program length (each BPF jump goes forward), the number of regions, the
    size of the memory (each turn moves a pointer up), the 7 levels of a blist
    of at most BLIST_MAXBLKS blocks and at most 33 turns over the 32 children of
    a node, the 32 halvings of a word, the length of a lock list, the levels of a
    routing table, 16 turns per entry above the fringe in [art_allot] and 10000
    per table in [art_iter_next] ([ArtIter.all_length] needs 1025), the length of
    a peer's list in [WgAip], the number of entries in memory in [Rbt], whose loops
    go up or down in a tree ([RbtMem.runs_turns]), the 256 buckets of a level and the
    number of timeouts in [Timeout].  The theorems
    conclude [Ret] or the C fault, never [OutOfFuel], so they include that the
    fuel is enough.
    [KASSERT], [KDASSERT] and the checks under DIAGNOSTIC are modelled as if
    compiled in.  What lies outside the sources is a parameter: [arc4random] in
    [Bpf], the memory [malloc] returns in [Blist], the addresses the pools give in
    [Art], the comparison and augmentation functions of the client in [Rbt], the
    functions of the timeouts, the uptime and hz in [Timeout], the thread scheduler
    in [Rwlock].

    ** Not modelled

    - Of the files above: printing and debugger functions; setting up pools;
      WITNESS and tracing; the memory order below interleaving in [Rwlock]; a
      nesting of 2^32 enters or a count of 2^32 references, which the callers'
      rules ([may_rrw], [room]) exclude; in [Art] the SMR sections of
      readers (a lookup is one step, so it does not overlap a writer), the
      mutexes of the garbage lists and [art_boot]; of if_wg.c everything but the
      allowed IPs, and [sc_aip_lock] around them is taken as held; of sys/tree.h
      the macros that generate splay and red-black trees for each user.  What an
      augmentation function computes is not specified: it changes only the
      client's data; of kern_timeout.c the start of the threads, KCOV and the sysctl
      copy, and the sleep of a barrier, which is between two steps.
    - libkern's softfloat (third-party), console input, random and profiling.
    - The rest of the kernel: scheduling, signals, tasks, the virtual file
      system and the file systems, the network stack, mbufs, sockets, virtual
      memory, cryptography, wireless, drivers, DRM, the debugger, the boot
      loaders and machine-dependent code.  These are either hardware access and
      assembly, third-party code, or large object graphs whose algorithms are
      spread over interrupts and callbacks.

    Next: the routing messages of net/rtable.c as another client of the
    routing table, and the pool allocator. *)

From stdpp Require Export base tactics list list_numbers numbers gmap strings.
From Stdlib Require Export ZArith Lia Zquot.

#[global] Open Scope Z_scope.

(** ** Outcomes of kernel code *)

(** Why a C function stops without returning.  [Panic] carries the name of
    the function that calls [panic] (or whose [KASSERT] fails); the other
    constructors are undefined behaviour of C, and [OutOfFuel] is the model's
    own: a loop ran longer than the fuel it was given. *)
Inductive fault : Type :=
| Panic (fn : string)
| OutOfBounds
| NullDeref
| ShiftTooWide
| Misaligned
| DivByZero
| IntOverflow
| OutOfFuel.

Inductive outcome (A : Type) : Type :=
| Ret (a : A)
| Fault (f : fault).
Arguments Ret {A} a.
Arguments Fault {A} f.

#[global] Instance outcome_ret : MRet outcome := @Ret.
#[global] Instance outcome_bind : MBind outcome := λ A B k m,
  match m with Ret a => k a | Fault f => Fault f end.
#[global] Instance outcome_fmap : FMap outcome := λ A B g m,
  match m with Ret a => Ret (g a) | Fault f => Fault f end.

#[global] Instance fault_eq_dec : EqDecision fault.
Proof. solve_decision. Defined.
#[global] Instance outcome_eq_dec `{EqDecision A} : EqDecision (outcome A).
Proof. solve_decision. Defined.

(** [KASSERT(b)] in function [fn]. *)
Definition kassert (fn : string) (b : bool) : outcome () :=
  if b then Ret () else Fault (Panic fn).

(** Dereferencing a pointer that may be NULL. *)
Definition deref {A} (p : option A) : outcome A :=
  match p with Some a => Ret a | None => Fault NullDeref end.

(** Array accesses: C defines them only within the object. *)
Definition load {A} (l : list A) (i : Z) : outcome A :=
  if bool_decide (0 ≤ i) then
    match l !! Z.to_nat i with Some a => Ret a | None => Fault OutOfBounds end
  else Fault OutOfBounds.

Definition store {A} (l : list A) (i : Z) (a : A) : outcome (list A) :=
  if bool_decide (0 ≤ i < Z.of_nat (length l)) then Ret (<[Z.to_nat i := a]> l)
  else Fault OutOfBounds.

(** ** Machine integers *)

Abbreviation M8 := 256 (only parsing).
Abbreviation M32 := 4294967296 (only parsing).
Abbreviation M64 := 18446744073709551616 (only parsing).

Definition u8 (x : Z) : Z := x mod M8.
Definition u32 (x : Z) : Z := x mod M32.
Definition u64 (x : Z) : Z := x mod M64.

Definition is_u8 (x : Z) : Prop := 0 ≤ x < M8.
Definition is_u32 (x : Z) : Prop := 0 ≤ x < M32.
Definition is_u64 (x : Z) : Prop := 0 ≤ x < M64.

(** Conversion to [int], and [int] arithmetic, where overflow is undefined. *)
Definition i32 (x : Z) : Z := (x + 2147483648) mod M32 - 2147483648.
Definition is_i32 (x : Z) : Prop := -2147483648 ≤ x < 2147483648.
#[global] Instance is_i32_dec x : Decision (is_i32 x).
Proof. unfold is_i32. apply _. Defined.
Definition int_ (x : Z) : outcome Z :=
  if bool_decide (is_i32 x) then Ret x else Fault IntOverflow.

(** Conversion to a 64-bit signed integer, and 64-bit signed arithmetic. *)
Definition i64 (x : Z) : Z := (x + 9223372036854775808) mod M64 - 9223372036854775808.
Definition is_i64 (x : Z) : Prop := -9223372036854775808 ≤ x < 9223372036854775808.
#[global] Instance is_i64_dec x : Decision (is_i64 x).
Proof. unfold is_i64. apply _. Defined.
Definition quad_ (x : Z) : outcome Z :=
  if bool_decide (is_i64 x) then Ret x else Fault IntOverflow.

(** [~x] on an unsigned 8-bit or 64-bit operand. *)
Definition not8 (x : Z) : Z := 255 - x.
Definition not64 (x : Z) : Z := 18446744073709551615 - x.

Create HintDb kern.

(** Arithmetic modulo a power of two: expose the quotients, then [lia]. *)
Ltac zmod := Z.div_mod_to_equations; lia.
Ltac wrap_lia :=
  unfold u8, u32, u64, is_u8, is_u32, is_u64 in *; zmod.

Lemma u64_small x : is_u64 x → u64 x = x.
Proof. unfold u64, is_u64. apply Z.mod_small. Qed.
Lemma u32_small x : is_u32 x → u32 x = x.
Proof. unfold u32, is_u32. apply Z.mod_small. Qed.
Lemma u8_small x : is_u8 x → u8 x = x.
Proof. unfold u8, is_u8. apply Z.mod_small. Qed.
Lemma i32_small x : is_i32 x → i32 x = x.
Proof. unfold i32, is_i32. intros Hx. rewrite Z.mod_small; lia. Qed.
Lemma int_Ret x : is_i32 x → int_ x = Ret x.
Proof. intros Hx. unfold int_. by rewrite bool_decide_true. Qed.
Lemma u64_range x : is_u64 (u64 x).
Proof. apply Z.mod_pos_bound. lia. Qed.
Lemma u32_range x : is_u32 (u32 x).
Proof. apply Z.mod_pos_bound. lia. Qed.
Lemma u8_range x : is_u8 (u8 x).
Proof. apply Z.mod_pos_bound. lia. Qed.
#[export] Hint Resolve u64_range u32_range u8_range : kern.

(** *** Flags *)

(** [flags & bit] as a condition; [ISSET(flags, bit)]. *)
Definition has (flags bit : Z) : bool := negb (Z.land flags bit =? 0).

Lemma has_clear flags bit bit' :
  Z.land bit' bit = 0 → has (Z.land flags (Z.lnot bit')) bit = has flags bit.
Proof.
  intros Hb. unfold has. do 2 f_equal. apply Z.bits_inj'. intros i Hi.
  assert (Z.testbit (Z.land bit' bit) i = false) as Ht by (by rewrite Hb, Z.bits_0).
  rewrite !Z.land_spec, Z.lnot_spec in * by done.
  destruct (Z.testbit flags i), (Z.testbit bit' i), (Z.testbit bit i); done.
Qed.

Lemma has_set flags bit bit' :
  Z.land bit' bit = 0 → has (Z.lor flags bit') bit = has flags bit.
Proof. intros Hb. unfold has. by rewrite Z.land_lor_distr_l, Hb, Z.lor_0_r. Qed.

Lemma has_cleared flags bit : has (Z.land flags (Z.lnot bit)) bit = false.
Proof.
  unfold has. replace (Z.land (Z.land flags (Z.lnot bit)) bit) with 0; [done|].
  apply Z.bits_inj'. intros i Hi. rewrite !Z.land_spec, Z.lnot_spec, Z.bits_0 by done.
  by destruct (Z.testbit flags i), (Z.testbit bit i).
Qed.

(** ** Inverting successful computations *)

Lemma bind_Ret {A B} (m : outcome A) (k : A → outcome B) b :
  (m ≫= k) = Ret b ↔ ∃ a, m = Ret a ∧ k a = Ret b.
Proof. destruct m; cbn; naive_solver. Qed.

Lemma bind_Ret_l {A B} (a : A) (k : A → outcome B) : (Ret a ≫= k) = k a.
Proof. done. Qed.

Lemma bind_Fault_l {A B} f (k : A → outcome B) : (Fault f ≫= k) = Fault f.
Proof. done. Qed.

Lemma load_Ret {A} (l : list A) i a :
  load l i = Ret a ↔ 0 ≤ i ∧ l !! Z.to_nat i = Some a.
Proof. unfold load. case_bool_decide; [|naive_solver lia]. destruct (l !! _); naive_solver. Qed.

Lemma load_in {A} (l : list A) i :
  0 ≤ i < Z.of_nat (length l) → ∃ a, load l i = Ret a ∧ l !! Z.to_nat i = Some a.
Proof.
  intros Hi. destruct (lookup_lt_is_Some_2 l (Z.to_nat i)) as [a Ha]; [lia|].
  exists a. split; [|done]. apply load_Ret. split; [lia|done].
Qed.

Lemma store_in {A} (l : list A) i a :
  0 ≤ i < Z.of_nat (length l) → store l i a = Ret (<[Z.to_nat i := a]> l).
Proof. intros Hi. unfold store. by rewrite bool_decide_true. Qed.

Lemma store_Ret {A} (l l' : list A) i a :
  store l i a = Ret l' ↔ 0 ≤ i < Z.of_nat (length l) ∧ l' = <[Z.to_nat i := a]> l.
Proof. unfold store. case_bool_decide; naive_solver. Qed.

(** Reading a list of integers at a [Z] index, 0 outside (specifications only). *)
Definition zth (l : list Z) (i : Z) : Z := nth (Z.to_nat i) l 0.

Lemma load_zth (l : list Z) i :
  0 ≤ i < Z.of_nat (length l) → load l i = Ret (zth l i).
Proof.
  intros Hi. destruct (load_in l i Hi) as (a & -> & Ha). f_equal.
  unfold zth. by rewrite (nth_lookup_Some _ _ _ _ Ha).
Qed.

Lemma zth_insert_eq (l : list Z) i a :
  0 ≤ i < Z.of_nat (length l) → zth (<[Z.to_nat i := a]> l) i = a.
Proof.
  intros Hi. unfold zth. apply nth_lookup_Some.
  apply list_lookup_insert_eq. lia.
Qed.

Lemma zth_insert_ne (l : list Z) i j a :
  0 ≤ i → 0 ≤ j → i ≠ j → zth (<[Z.to_nat i := a]> l) j = zth l j.
Proof.
  intros Hi Hj Hne. unfold zth. rewrite !nth_lookup, list_lookup_insert_ne by lia. done.
Qed.

Lemma zth_Forall (P : Z → Prop) l i : P 0 → Forall P l → P (zth l i).
Proof.
  intros H0 Hl. unfold zth. rewrite nth_lookup.
  destruct (l !! _) eqn:E; cbn; [|done]. by eapply Forall_lookup_1.
Qed.

(** ** Bits of machine words *)

Lemma testbit_above w x i : 0 ≤ x < 2 ^ w → w ≤ i → Z.testbit x i = false.
Proof.
  intros Hx Hi. destruct (decide (0 ≤ w)) as [Hw|Hw].
  - rewrite <-(Z.mod_small x (2 ^ w)) by done. by apply Z.mod_pow2_bits_high.
  - rewrite Z.pow_neg_r in Hx by lia. lia.
Qed.

Lemma testbit_pow2m1 n i : 0 ≤ n → 0 ≤ i → Z.testbit (2 ^ n - 1) i = bool_decide (i < n).
Proof.
  intros Hn Hi. replace (2 ^ n - 1) with (Z.ones n) by (rewrite Z.ones_equiv; lia).
  rewrite Z.testbit_ones_nonneg by lia.
  case_bool_decide; [apply Z.ltb_lt|apply Z.ltb_ge]; lia.
Qed.

Lemma not64_testbit x i :
  is_u64 x → 0 ≤ i < 64 → Z.testbit (not64 x) i = negb (Z.testbit x i).
Proof.
  intros Hx Hi. unfold not64. replace (18446744073709551615 - x) with (Z.lnot x mod 2 ^ 64).
  - rewrite Z.mod_pow2_bits_low, Z.lnot_spec by lia. done.
  - unfold Z.lnot, is_u64 in *. change (2 ^ 64) with 18446744073709551616. zmod.
Qed.

Lemma word_eq w x y :
  0 ≤ x < 2 ^ w → 0 ≤ y < 2 ^ w →
  (∀ i, 0 ≤ i < w → Z.testbit x i = Z.testbit y i) → x = y.
Proof.
  intros Hx Hy H. apply Z.bits_inj'. intros i Hi. destruct (decide (i < w)); [by apply H|].
  by rewrite !(testbit_above w) by lia.
Qed.

(** A test succeeds somewhere on an interval, or nowhere. *)
Lemma some_or_none (P : Z → bool) lo n :
  (∃ z, lo ≤ z < lo + n ∧ P z = true) ∨ ∀ z, lo ≤ z < lo + n → P z = false.
Proof.
  destruct (decide (Exists (λ z, P z = true) (seqZ lo n))) as [He|He].
  - left. apply Exists_exists in He as (z & Hz & HP). apply elem_of_seqZ in Hz. eauto.
  - right. intros z Hz. apply not_true_is_false. intros HP. apply He, Exists_exists. exists z.
    split; [by apply elem_of_seqZ|done].
Qed.

(** The least index at which a test succeeds. *)
Lemma least_Z (P : Z → bool) lo y :
  lo ≤ y → P y = true → ∃ l, lo ≤ l ≤ y ∧ P l = true ∧ ∀ z, lo ≤ z < l → P z = false.
Proof.
  intros Hy. remember (Z.to_nat (y - lo)) as n eqn:Hn. revert y Hy Hn.
  induction (Wf_nat.lt_wf n) as [n _ IH]. intros y Hy -> HP.
  destruct (some_or_none P lo (y - lo)) as [(z & Hz & HPz)|He].
  - destruct (IH (Z.to_nat (z - lo)) ltac:(lia) z ltac:(lia) eq_refl HPz) as (l & ? & ? & ?).
    exists l. split; [lia|done].
  - exists y. split; [lia|]. split; [done|]. intros z Hz. apply He. lia.
Qed.

(** Tests of a field of ones in a word. *)
Lemma land_ones_zero x r n :
  0 ≤ r → 0 ≤ n →
  Z.land (Z.shiftr x r) (Z.ones n) = 0 ↔ ∀ i, r ≤ i < r + n → Z.testbit x i = false.
Proof.
  intros Hr Hn. split.
  - intros H i Hi. pose proof (f_equal (λ z, Z.testbit z (i - r)) H) as Hb. cbn beta in Hb.
    rewrite Z.land_spec, Z.shiftr_spec, Z.ones_spec_low, Z.bits_0, andb_true_r in Hb by lia.
    by replace (i - r + r) with i in Hb by lia.
  - intros H. apply Z.bits_inj'. intros i Hi. rewrite Z.land_spec, Z.shiftr_spec, Z.bits_0 by done.
    destruct (decide (i < n)); [by rewrite H by lia|]. by rewrite Z.ones_spec_high, andb_false_r by lia.
Qed.

Lemma land_ones_full x j n :
  0 ≤ j → 0 ≤ n →
  Z.land x (Z.shiftl (Z.ones n) j) = Z.shiftl (Z.ones n) j ↔
  ∀ i, j ≤ i < j + n → Z.testbit x i = true.
Proof.
  intros Hj Hn. split.
  - intros H i Hi. pose proof (f_equal (λ z, Z.testbit z i) H) as Hb. cbn beta in Hb.
    rewrite Z.land_spec, Z.shiftl_spec, Z.ones_spec_low, andb_true_r in Hb by lia. done.
  - intros H. apply Z.bits_inj'. intros i Hi. rewrite Z.land_spec, Z.shiftl_spec by done.
    destruct (decide (j ≤ i < j + n)); [by rewrite H by lia|].
    destruct (decide (i < j)); [by rewrite (Z.testbit_neg_r (Z.ones n)), andb_false_r by lia|].
    by rewrite Z.ones_spec_high, andb_false_r by lia.
Qed.

Lemma bits_bounded w x :
  0 ≤ w → (∀ i, w ≤ i → Z.testbit x i = false) → 0 ≤ x < 2 ^ w.
Proof.
  intros Hw Hx. assert (x = x mod 2 ^ w) as ->.
  { apply Z.bits_inj'. intros n Hn. destruct (decide (n < w)).
    - by rewrite Z.mod_pow2_bits_low by lia.
    - rewrite Z.mod_pow2_bits_high, Hx by lia. done. }
  apply Z.mod_pos_bound. by apply Z.pow_pos_nonneg.
Qed.

(** The bitwise operations on [w]-bit words give [w]-bit words. *)
Lemma land_bound w x y : 0 ≤ w → 0 ≤ x < 2 ^ w → 0 ≤ Z.land x y < 2 ^ w.
Proof.
  intros Hw Hx. apply bits_bounded; [done|]. intros i Hi.
  by rewrite Z.land_spec, (testbit_above w x) by done.
Qed.
Lemma lor_bound w x y : 0 ≤ w → 0 ≤ x < 2 ^ w → 0 ≤ y < 2 ^ w → 0 ≤ Z.lor x y < 2 ^ w.
Proof.
  intros Hw Hx Hy. apply bits_bounded; [done|]. intros i Hi.
  by rewrite Z.lor_spec, (testbit_above w x), (testbit_above w y) by done.
Qed.
Lemma lxor_bound w x y : 0 ≤ w → 0 ≤ x < 2 ^ w → 0 ≤ y < 2 ^ w → 0 ≤ Z.lxor x y < 2 ^ w.
Proof.
  intros Hw Hx Hy. apply bits_bounded; [done|]. intros i Hi.
  by rewrite Z.lxor_spec, (testbit_above w x), (testbit_above w y) by done.
Qed.
Lemma shiftr_bound w x n : 0 ≤ n → 0 ≤ x < 2 ^ w → 0 ≤ Z.shiftr x n < 2 ^ w.
Proof.
  intros Hn Hx. rewrite Z.shiftr_div_pow2 by done.
  assert (0 < 2 ^ n) by (by apply Z.pow_pos_nonneg).
  split; [apply Z.div_pos; lia|]. apply Z.div_lt_upper_bound; nia.
Qed.

Lemma land_255 x : Z.land x 255 = u8 x.
Proof. exact (Z.land_ones x 8 ltac:(lia)). Qed.

(** Disjoint bit fields: [lor] is addition. *)
Lemma lor_shiftl_add a b n : 0 ≤ n → 0 ≤ a < 2 ^ n → Z.lor (Z.shiftl b n) a = a + b * 2 ^ n.
Proof.
  intros Hn Ha. rewrite Z.shiftl_mul_pow2 by done.
  rewrite <-Z.lxor_lor, <-Z.add_nocarry_lxor; [lia| |].
  all: apply Z.bits_inj'; intros i Hi; rewrite Z.land_spec, Z.bits_0, <-Z.shiftl_mul_pow2 by done.
  all: destruct (decide (i < n)); [rewrite Z.shiftl_spec_low by lia; done|].
  all: by rewrite (testbit_above n a), andb_false_r by lia.
Qed.

Lemma land_field x n : 0 ≤ n → Z.land x (Z.shiftl 255 n) = Z.shiftl (u8 (Z.shiftr x n)) n.
Proof.
  intros Hn. rewrite <-land_255, Z.shiftl_land, <-Z.ldiff_ones_r by done.
  apply Z.bits_inj'. intros i Hi. rewrite !Z.land_spec, Z.ldiff_spec.
  destruct (decide (i < n)).
  - by rewrite Z.shiftl_spec_low, !andb_false_r by lia.
  - rewrite Z.ones_spec_high by lia. by rewrite andb_true_r.
Qed.

(** ** Block copies *)

(** [memcpy] out of an object: bytes [off .. off + n - 1] of [l]. *)
Definition mem_read (l : list Z) (off n : Z) : outcome (list Z) :=
  if bool_decide (0 ≤ off ∧ 0 ≤ n ∧ off + n ≤ Z.of_nat (length l))
  then Ret (take (Z.to_nat n) (drop (Z.to_nat off) l))
  else Fault OutOfBounds.

(** [memcpy] or [memset] into an object: the bytes [d] at offset [off]. *)
Definition mem_write (l : list Z) (off : Z) (d : list Z) : outcome (list Z) :=
  if bool_decide (0 ≤ off ∧ off + Z.of_nat (length d) ≤ Z.of_nat (length l))
  then Ret (take (Z.to_nat off) l ++ d ++ drop (Z.to_nat off + length d) l)
  else Fault OutOfBounds.

Lemma zth_app l1 l2 i :
  0 ≤ i →
  zth (l1 ++ l2) i =
    if bool_decide (i < Z.of_nat (length l1)) then zth l1 i
    else zth l2 (i - Z.of_nat (length l1)).
Proof.
  intros Hi. unfold zth. case_bool_decide.
  - by rewrite app_nth1 by lia.
  - rewrite app_nth2 by lia. f_equal. lia.
Qed.

Lemma zth_take l n i : 0 ≤ i < Z.of_nat n → zth (take n l) i = zth l i.
Proof. intros Hi. unfold zth. rewrite !nth_lookup, lookup_take_lt by lia. done. Qed.

Lemma zth_drop l n i : 0 ≤ i → zth (drop n l) i = zth l (Z.of_nat n + i).
Proof.
  intros Hi. unfold zth. rewrite !nth_lookup, lookup_drop.
  do 2 f_equal. lia.
Qed.

Lemma zth_seqZ (f : Z → Z) a n i :
  0 ≤ i < n → zth (f <$> seqZ a n) i = f (a + i).
Proof.
  intros Hi. apply nth_lookup_Some.
  rewrite list_lookup_fmap, lookup_seqZ_lt by lia. cbn. do 2 f_equal. lia.
Qed.

Lemma zth_list_eq l1 l2 :
  length l1 = length l2 →
  (∀ i, 0 ≤ i < Z.of_nat (length l1) → zth l1 i = zth l2 i) → l1 = l2.
Proof.
  intros Hl Hz. apply (nth_ext l1 l2 0 0); [done|]. intros n Hn.
  specialize (Hz (Z.of_nat n)). unfold zth in Hz. rewrite Nat2Z.id in Hz. apply Hz. lia.
Qed.

Lemma mem_read_spec l off n :
  0 ≤ off → 0 ≤ n → off + n ≤ Z.of_nat (length l) →
  mem_read l off n = Ret (zth l <$> seqZ off n).
Proof.
  intros Ho Hn Hl. unfold mem_read. rewrite bool_decide_true by lia. f_equal.
  apply zth_list_eq; [rewrite length_take, length_drop, length_fmap, length_seqZ; lia|].
  intros i Hi. rewrite length_take, length_drop in Hi.
  rewrite zth_take, zth_drop, zth_seqZ by lia. f_equal. lia.
Qed.

Lemma mem_write_spec l off d :
  0 ≤ off → off + Z.of_nat (length d) ≤ Z.of_nat (length l) →
  ∃ l', mem_write l off d = Ret l' ∧ length l' = length l ∧
    ∀ i, 0 ≤ i → zth l' i =
      if bool_decide (off ≤ i < off + Z.of_nat (length d)) then zth d (i - off) else zth l i.
Proof.
  intros Ho Hl. unfold mem_write. rewrite bool_decide_true by lia.
  eexists. split; [done|]. split.
  { rewrite !length_app, length_take, length_drop. lia. }
  intros i Hi. rewrite zth_app, length_take by lia.
  destruct (decide (i < off)).
  { rewrite bool_decide_true, bool_decide_false, zth_take by lia. done. }
  rewrite bool_decide_false, zth_app by lia.
  destruct (decide (i < off + Z.of_nat (length d))).
  - rewrite !bool_decide_true by lia. f_equal. lia.
  - rewrite !bool_decide_false, zth_drop by lia. f_equal. lia.
Qed.

Lemma Forall_zth (P : Z → Prop) l :
  (∀ i, 0 ≤ i < Z.of_nat (length l) → P (zth l i)) → Forall P l.
Proof.
  intros H. apply Forall_lookup. intros i x Hx.
  pose proof (lookup_lt_Some _ _ _ Hx). specialize (H (Z.of_nat i)).
  unfold zth in H. rewrite Nat2Z.id, (nth_lookup_Some _ _ _ _ Hx) in H. apply H. lia.
Qed.

Lemma length_replicateZ n x : 0 ≤ n → Z.of_nat (length (replicate (Z.to_nat n) (x : Z))) = n.
Proof. intros. rewrite length_replicate. lia. Qed.

Lemma zth_replicate n i : zth (replicate n 0) i = 0.
Proof. apply zth_Forall; [done|]. by apply Forall_replicate. Qed.

#[global] Arguments Z.land : simpl never.
#[global] Arguments Z.lor : simpl never.
#[global] Arguments Z.lxor : simpl never.
#[global] Arguments Z.shiftl : simpl never.
#[global] Arguments Z.shiftr : simpl never.
#[global] Arguments Z.lnot : simpl never.
#[global] Arguments Z.testbit : simpl never.
#[global] Arguments Z.modulo : simpl never.
#[global] Arguments Z.div : simpl never.
#[global] Arguments Z.quot : simpl never.
#[global] Arguments Z.rem : simpl never.
#[global] Arguments load : simpl never.
#[global] Arguments store : simpl never.
#[global] Arguments mem_read : simpl never.
#[global] Arguments mem_write : simpl never.
#[global] Arguments zth : simpl never.
