(* ===== verification/StateMonad.v ===== *)
(** Stateful kernel code as functions from a state to an outcome: a state and
    error monad over the outcomes of [Prelude], the total-correctness predicate
    [runs] on its computations, one rule for each combinator, and the tactic
    that applies the rule for the next statement.  The components with a heap
    of objects ([Lockf], [Art], [Rbt], [Timeout]) are written in it. *)

From S2P Require Import Prelude.

(** ** The monad *)

Definition ST (S A : Type) : Type := S → outcome (A * S).

#[export] Instance ST_ret S : MRet (ST S) := λ A a s, Ret (a, s).
#[export] Instance ST_bind S : MBind (ST S) := λ A B k m s,
  match m s with Ret (a, s) => k a s | Fault f => Fault f end.

Section combinators.
Context {S : Type}.

Definition fault {A} (f : fault) : ST S A := λ _, Fault f.
Definition gets {A} (g : S → A) : ST S A := λ s, Ret (g s, s).
Definition modify (g : S → S) : ST S () := λ s, Ret (tt, g s).
Definition lift {A} (o : outcome A) : ST S A := λ s,
  match o with Ret a => Ret (a, s) | Fault f => Fault f end.

(** The result of a run, without the state it leaves. *)
Definition result {A} (o : outcome (A * S)) : outcome A :=
  match o with Ret (a, _) => Ret a | Fault f => Fault f end.

(** ** Running *)

(** [m] from [s] returns, with a value and a state that satisfy [Q]. *)
Definition runs {A} (m : ST S A) (s : S) (Q : A → S → Prop) : Prop :=
  ∃ a s', m s = Ret (a, s') ∧ Q a s'.

Lemma runs_ret {A} (a : A) s (Q : A → S → Prop) : Q a s → runs (mret a) s Q.
Proof. intros H. by exists a, s. Qed.
Lemma runs_bind {A B} (m : ST S A) (k : A → ST S B) s Q :
  runs m s (λ a s', runs (k a) s' Q) → runs (m ≫= k) s Q.
Proof.
  intros (a & s1 & Hm & (b & s2 & Hk & HQ)). exists b, s2. split; [|done].
  unfold mbind, ST_bind. by rewrite Hm.
Qed.
Lemma runs_mono {A} (m : ST S A) s (Q Q' : A → S → Prop) :
  runs m s Q → (∀ a s', Q a s' → Q' a s') → runs m s Q'.
Proof. intros (a & s' & Hm & HQ) H. exists a, s'. auto. Qed.
Lemma runs_assoc {A} (m n : ST S ()) (k : ST S A) s Q :
  runs (m;; n) s (λ _ s', runs k s' Q) → runs (m;; n;; k) s Q.
Proof.
  intros (a & s1 & Hm & (b & s2 & Hk & HQ)). exists b, s2. split; [|done].
  unfold mbind, ST_bind in *. destruct (m s) as [[u s3]|]; [|done]. by rewrite Hm.
Qed.
Lemma runs_gets {A} (g : S → A) s Q : Q (g s) s → runs (gets g) s Q.
Proof. intros H. by exists (g s), s. Qed.
Lemma runs_modify g s Q : Q tt (g s) → runs (modify g) s Q.
Proof. intros H. by exists tt, (g s). Qed.
Lemma runs_lift {A} (o : outcome A) a s Q : o = Ret a → Q a s → runs (lift o) s Q.
Proof. intros -> H. by exists a, s. Qed.

(** A run has one result: what it satisfies and what it computes agree. *)
Lemma runs_det {A} (m : ST S A) s a s' Q : m s = Ret (a, s') → runs m s Q → Q a s'.
Proof. intros Hm (b & s2 & Hm' & HQ). rewrite Hm in Hm'. by simplify_eq. Qed.
End combinators.

(** The rule for the next statement, where it is one of the combinators. *)
Ltac run_step :=
  lazymatch goal with
  | |- runs (_ ≫= _) _ _ => apply runs_bind
  | |- runs (mret _) _ _ => apply runs_ret
  | |- runs (gets _) _ _ => apply runs_gets
  | |- runs (modify _) _ _ => apply runs_modify
  | |- runs (lift (Ret _)) _ _ => eapply runs_lift; [reflexivity|]
  | |- runs (lift (kassert _ _)) _ _ => eapply runs_lift
  end.
