(* ===== verification/Rbt.v ===== *)
(** Red-black trees: sys/kern/subr_tree.c and the part of sys/sys/tree.h it
    serves.  The tree is in the [struct rb_entry]s that the client's objects
    contain; the code runs in a state monad over the memory of these entries. *)

From S2P Require Import Prelude StateMonad.

Definition RB_BLACK : Z := 0.
Definition RB_RED : Z := 1.

(** ** State *)

Record rb_entry : Type := RbEntry {
  rbt_parent : Z;
  rbt_left : Z;
  rbt_right : Z;
  rbt_color : Z;
}.

(** The tree head, the entries in memory by address, and the client's own data
    ([D] is its type), which only the augmentation function changes. *)
Record rbmem (D : Type) : Type := RbMem {
  rbt_root : Z;
  entries : gmap Z rb_entry;
  aug : D;
}.
Arguments RbMem {D} _ _ _.
Arguments rbt_root {D} _.
Arguments entries {D} _.
Arguments aug {D} _.

(** The functions of the client: [t_compare] on two objects, [t_augment] on an
    object, which may look at the entries. *)
Record rb_type (D : Type) : Type := RbType {
  t_compare : Z → Z → Z;
  t_augment : option (Z → gmap Z rb_entry → D → D);
  t_offset : Z;
}.
Arguments RbType {D} _ _ _.
Arguments t_compare {D} _.
Arguments t_augment {D} _.
Arguments t_offset {D} _.

Section code.
Context {D : Type} (t : rb_type D).

Abbreviation RM := (ST (rbmem D)).

Definition rb_n2e (node : Z) : Z := u64 (node + t_offset t).
Definition rb_e2n (rbe : Z) : Z := u64 (rbe - t_offset t).

(** [rbe == NULL ? NULL : rb_e2n(t, rbe)] *)
Definition e2n_or_null (rbe : Z) : Z := if rbe =? 0 then 0 else rb_e2n rbe.

(** ** Fields *)

Definition set_entries (m : gmap Z rb_entry) (s : rbmem D) : rbmem D := RbMem (rbt_root s) m (aug s).

(** An access through a pointer to an entry. *)
Definition entry (rbe : Z) : RM rb_entry := λ s,
  match entries s !! rbe with Some e => Ret (e, s) | None => Fault NullDeref end.
Definition upd (rbe : Z) (f : rb_entry → rb_entry) : RM () :=
  e ← entry rbe; modify (λ s, set_entries (<[rbe := f e]> (entries s)) s).

Definition RBE_LEFT (rbe : Z) : RM Z := e ← entry rbe; mret (rbt_left e).
Definition RBE_RIGHT (rbe : Z) : RM Z := e ← entry rbe; mret (rbt_right e).
Definition RBE_PARENT (rbe : Z) : RM Z := e ← entry rbe; mret (rbt_parent e).
Definition RBE_COLOR (rbe : Z) : RM Z := e ← entry rbe; mret (rbt_color e).
Definition RBH_ROOT : RM Z := gets rbt_root.

Definition set_left (rbe v : Z) : RM () :=
  upd rbe (λ e, RbEntry (rbt_parent e) v (rbt_right e) (rbt_color e)).
Definition set_right (rbe v : Z) : RM () :=
  upd rbe (λ e, RbEntry (rbt_parent e) (rbt_left e) v (rbt_color e)).
Definition set_parent (rbe v : Z) : RM () :=
  upd rbe (λ e, RbEntry v (rbt_left e) (rbt_right e) (rbt_color e)).
Definition set_color (rbe v : Z) : RM () :=
  upd rbe (λ e, RbEntry (rbt_parent e) (rbt_left e) (rbt_right e) v).
Definition set_root (v : Z) : RM () := modify (λ s, RbMem v (entries s) (aug s)).

(** ** The helpers *)

Definition rbe_set (rbe parent : Z) : RM () :=
  set_parent rbe parent;; set_right rbe 0;; set_left rbe 0;; set_color rbe RB_RED.

Definition rbe_set_blackred (black red : Z) : RM () :=
  set_color black RB_BLACK;; set_color red RB_RED.

Definition rbe_augment (rbe : Z) : RM () :=
  match t_augment t with
  | None => fault NullDeref
  | Some f => modify (λ s, RbMem (rbt_root s) (entries s) (f (rb_e2n rbe) (entries s) (aug s)))
  end.
Definition has_augment : bool := match t_augment t with Some _ => true | None => false end.
Definition rbe_if_augment (rbe : Z) : RM () := if has_augment then rbe_augment rbe else mret tt.

(** [if (rbe == RBE_LEFT(parent)) RBE_LEFT(parent) = v; else RBE_RIGHT(parent) = v;] *)
Definition replace_child (parent rbe v : Z) : RM () :=
  l ← RBE_LEFT parent;
  if rbe =? l then set_left parent v else set_right parent v.

Definition augment_rotated (rbe tmp : Z) : RM () :=
  if has_augment then
    rbe_augment rbe;; rbe_augment tmp;;
    parent ← RBE_PARENT tmp;
    if negb (parent =? 0) then rbe_augment parent else mret tt
  else mret tt.

Definition rbe_rotate_left (rbe : Z) : RM () :=
  tmp ← RBE_RIGHT rbe;
  tl ← RBE_LEFT tmp;
  set_right rbe tl;;
  r ← RBE_RIGHT rbe;
  (if negb (r =? 0) then tl ← RBE_LEFT tmp; set_parent tl rbe else mret tt);;
  parent ← RBE_PARENT rbe;
  set_parent tmp parent;;
  (if negb (parent =? 0) then replace_child parent rbe tmp else set_root tmp);;
  set_left tmp rbe;;
  set_parent rbe tmp;;
  augment_rotated rbe tmp.

Definition rbe_rotate_right (rbe : Z) : RM () :=
  tmp ← RBE_LEFT rbe;
  tr ← RBE_RIGHT tmp;
  set_left rbe tr;;
  l ← RBE_LEFT rbe;
  (if negb (l =? 0) then tr ← RBE_RIGHT tmp; set_parent tr rbe else mret tt);;
  parent ← RBE_PARENT rbe;
  set_parent tmp parent;;
  (if negb (parent =? 0) then replace_child parent rbe tmp else set_root tmp);;
  set_right tmp rbe;;
  set_parent rbe tmp;;
  augment_rotated rbe tmp.

(** [tmp != NULL && RBE_COLOR(tmp) == RB_RED] *)
Definition is_red (tmp : Z) : RM bool :=
  if negb (tmp =? 0) then c ← RBE_COLOR tmp; mret (c =? RB_RED) else mret false.
(** [tmp == NULL || RBE_COLOR(tmp) == RB_BLACK] *)
Definition is_black (tmp : Z) : RM bool :=
  if tmp =? 0 then mret true else c ← RBE_COLOR tmp; mret (c =? RB_BLACK).

(** ** Insertion *)

Fixpoint insert_loop (fuel : nat) (rbe : Z) : RM () :=
  match fuel with
  | O => fault OutOfFuel
  | S fuel =>
      parent ← RBE_PARENT rbe;
      red ← is_red parent;
      if negb red then mret tt
      else
        gparent ← RBE_PARENT parent;
        gl ← RBE_LEFT gparent;
        if parent =? gl then
          tmp ← RBE_RIGHT gparent;
          tred ← is_red tmp;
          if (tred : bool) then
            set_color tmp RB_BLACK;;
            rbe_set_blackred parent gparent;;
            insert_loop fuel gparent
          else
            pr ← RBE_RIGHT parent;
            '(parent, rbe) ← (if pr =? rbe then rbe_rotate_left parent;; mret (rbe, parent)
                              else mret (parent, rbe));
            rbe_set_blackred parent gparent;;
            rbe_rotate_right gparent;;
            insert_loop fuel rbe
        else
          tmp ← RBE_LEFT gparent;
          tred ← is_red tmp;
          if (tred : bool) then
            set_color tmp RB_BLACK;;
            rbe_set_blackred parent gparent;;
            insert_loop fuel gparent
          else
            pl ← RBE_LEFT parent;
            '(parent, rbe) ← (if pl =? rbe then rbe_rotate_right parent;; mret (rbe, parent)
                              else mret (parent, rbe));
            rbe_set_blackred parent gparent;;
            rbe_rotate_left gparent;;
            insert_loop fuel rbe
  end.

(** Each turn goes up in the tree: as many as there are entries are enough. *)
Definition turns : RM nat := gets (λ s, S (size (entries s))).

Definition rbe_insert_color (rbe : Z) : RM () :=
  n ← turns;
  insert_loop n rbe;;
  root ← RBH_ROOT;
  set_color root RB_BLACK.

(** The search of [_rb_insert]: the object found, or the last entry and comparison. *)
Fixpoint insert_search (fuel : nat) (elm parent tmp comp : Z) : RM (Z + (Z * Z)) :=
  match fuel with
  | O => fault OutOfFuel
  | S fuel =>
      if tmp =? 0 then mret (inr (parent, comp))
      else
        let parent := tmp in
        let node := rb_e2n tmp in
        let comp := t_compare t elm node in
        if comp <? 0 then l ← RBE_LEFT tmp; insert_search fuel elm parent l comp
        else if 0 <? comp then r ← RBE_RIGHT tmp; insert_search fuel elm parent r comp
        else mret (inl node)
  end.

Definition _rb_insert (elm : Z) : RM Z :=
  let rbe := rb_n2e elm in
  tmp ← RBH_ROOT;
  n ← turns;
  found ← insert_search n elm 0 tmp 0;
  match found with
  | inl node => mret node
  | inr (parent, comp) =>
      rbe_set rbe parent;;
      (if negb (parent =? 0) then
         (if comp <? 0 then set_left parent rbe else set_right parent rbe);;
         rbe_if_augment parent
       else set_root rbe);;
      rbe_insert_color rbe;;
      mret 0
  end.

(** ** Removal *)

Fixpoint remove_loop (fuel : nat) (parent rbe : Z) : RM Z :=
  match fuel with
  | O => fault OutOfFuel
  | S fuel =>
      black ← is_black rbe;
      root ← RBH_ROOT;
      if negb ((black : bool) && negb (rbe =? root)) then mret rbe
      else
        pl ← RBE_LEFT parent;
        if pl =? rbe then
          tmp ← RBE_RIGHT parent;
          c ← RBE_COLOR tmp;
          tmp ← (if c =? RB_RED then
                   rbe_set_blackred tmp parent;;
                   rbe_rotate_left parent;;
                   RBE_RIGHT parent
                 else mret tmp);
          l ← RBE_LEFT tmp; lb ← is_black l;
          r ← RBE_RIGHT tmp; rb ← is_black r;
          if (lb : bool) && (rb : bool) then
            set_color tmp RB_RED;;
            let rbe := parent in
            parent ← RBE_PARENT rbe;
            remove_loop fuel parent rbe
          else
            tmp ← (if (rb : bool) then
                     oleft ← RBE_LEFT tmp;
                     (if negb (oleft =? 0) then set_color oleft RB_BLACK else mret tt);;
                     set_color tmp RB_RED;;
                     rbe_rotate_right tmp;;
                     RBE_RIGHT parent
                   else mret tmp);
            c ← RBE_COLOR parent;
            set_color tmp c;;
            set_color parent RB_BLACK;;
            r ← RBE_RIGHT tmp;
            (if negb (r =? 0) then set_color r RB_BLACK else mret tt);;
            rbe_rotate_left parent;;
            RBH_ROOT
        else
          tmp ← RBE_LEFT parent;
          c ← RBE_COLOR tmp;
          tmp ← (if c =? RB_RED then
                   rbe_set_blackred tmp parent;;
                   rbe_rotate_right parent;;
                   RBE_LEFT parent
                 else mret tmp);
          l ← RBE_LEFT tmp; lb ← is_black l;
          r ← RBE_RIGHT tmp; rb ← is_black r;
          if (lb : bool) && (rb : bool) then
            set_color tmp RB_RED;;
            let rbe := parent in
            parent ← RBE_PARENT rbe;
            remove_loop fuel parent rbe
          else
            tmp ← (if (lb : bool) then
                     oright ← RBE_RIGHT tmp;
                     (if negb (oright =? 0) then set_color oright RB_BLACK else mret tt);;
                     set_color tmp RB_RED;;
                     rbe_rotate_left tmp;;
                     RBE_LEFT parent
                   else mret tmp);
            c ← RBE_COLOR parent;
            set_color tmp c;;
            set_color parent RB_BLACK;;
            l ← RBE_LEFT tmp;
            (if negb (l =? 0) then set_color l RB_BLACK else mret tt);;
            rbe_rotate_right parent;;
            RBH_ROOT
  end.

Definition rbe_remove_color (parent rbe : Z) : RM () :=
  n ← turns;
  rbe ← remove_loop n parent rbe;
  if negb (rbe =? 0) then set_color rbe RB_BLACK else mret tt.

(** [while ((tmp = RBE_LEFT(rbe)) != NULL) rbe = tmp;] and its mirror image. *)
Fixpoint leftmost (fuel : nat) (rbe : Z) : RM Z :=
  match fuel with
  | O => fault OutOfFuel
  | S fuel => tmp ← RBE_LEFT rbe; if negb (tmp =? 0) then leftmost fuel tmp else mret rbe
  end.
Fixpoint rightmost (fuel : nat) (rbe : Z) : RM Z :=
  match fuel with
  | O => fault OutOfFuel
  | S fuel => tmp ← RBE_RIGHT rbe; if negb (tmp =? 0) then rightmost fuel tmp else mret rbe
  end.

(** [do { rbe_augment(t, tmp); tmp = RBE_PARENT(tmp); } while (tmp != NULL);] *)
Fixpoint augment_up (fuel : nat) (tmp : Z) : RM () :=
  match fuel with
  | O => fault OutOfFuel
  | S fuel =>
      rbe_augment tmp;;
      tmp ← RBE_PARENT tmp;
      if negb (tmp =? 0) then augment_up fuel tmp else mret tt
  end.

(** [if (parent != NULL) ... else RBH_ROOT(rbt) = v;] around the link from above. *)
Definition relink (parent rbe v : Z) : RM () :=
  if negb (parent =? 0) then
    (l ← RBE_LEFT parent; if l =? rbe then set_left parent v else set_right parent v);;
    rbe_if_augment parent
  else set_root v.

(** The label color. *)
Definition remove_color_if (color parent child : Z) : RM () :=
  if color =? RB_BLACK then rbe_remove_color parent child else mret tt.

(** Taking out an entry with one child at most. *)
Definition remove_single (rbe child : Z) : RM () :=
  parent ← RBE_PARENT rbe;
  color ← RBE_COLOR rbe;
  (if negb (child =? 0) then set_parent child parent else mret tt);;
  relink parent rbe child;;
  remove_color_if color parent child.

(** Taking out an entry with two children: its successor takes its place. *)
Definition remove_double (old : Z) : RM () :=
  rbe ← RBE_RIGHT old;
  n ← turns;
  rbe ← leftmost n rbe;
  child ← RBE_RIGHT rbe;
  parent ← RBE_PARENT rbe;
  color ← RBE_COLOR rbe;
  (if negb (child =? 0) then set_parent child parent else mret tt);;
  relink parent rbe child;;
  p ← RBE_PARENT rbe;
  let parent := if p =? old then rbe else parent in
  e ← entry old;
  upd rbe (λ _, e);;
  tmp ← RBE_PARENT old;
  relink tmp old rbe;;
  l ← RBE_LEFT old;
  set_parent l rbe;;
  r ← RBE_RIGHT old;
  (if negb (r =? 0) then set_parent r rbe else mret tt);;
  (if has_augment && negb (parent =? 0) then augment_up n parent else mret tt);;
  remove_color_if color parent child.

Definition rbe_remove (rbe : Z) : RM Z :=
  let old := rbe in
  l ← RBE_LEFT rbe;
  (if l =? 0 then child ← RBE_RIGHT rbe; remove_single rbe child
   else
     r ← RBE_RIGHT rbe;
     if r =? 0 then child ← RBE_LEFT rbe; remove_single rbe child
     else remove_double rbe);;
  mret old.

Definition _rb_remove (elm : Z) : RM Z :=
  let rbe := rb_n2e elm in
  old ← rbe_remove rbe;
  mret (e2n_or_null old).

(** ** Searching *)

Fixpoint find_loop (fuel : nat) (key tmp : Z) : RM Z :=
  match fuel with
  | O => fault OutOfFuel
  | S fuel =>
      if tmp =? 0 then mret 0
      else
        let node := rb_e2n tmp in
        let comp := t_compare t key node in
        if comp <? 0 then l ← RBE_LEFT tmp; find_loop fuel key l
        else if 0 <? comp then r ← RBE_RIGHT tmp; find_loop fuel key r
        else mret node
  end.
Definition _rb_find (key : Z) : RM Z := tmp ← RBH_ROOT; n ← turns; find_loop n key tmp.

Fixpoint nfind_loop (fuel : nat) (key res tmp : Z) : RM Z :=
  match fuel with
  | O => fault OutOfFuel
  | S fuel =>
      if tmp =? 0 then mret res
      else
        let node := rb_e2n tmp in
        let comp := t_compare t key node in
        if comp <? 0 then l ← RBE_LEFT tmp; nfind_loop fuel key node l
        else if 0 <? comp then r ← RBE_RIGHT tmp; nfind_loop fuel key res r
        else mret node
  end.
Definition _rb_nfind (key : Z) : RM Z := tmp ← RBH_ROOT; n ← turns; nfind_loop n key 0 tmp.

(** ** Walking *)

(** [while (RBE_PARENT(rbe) && rbe == RBE_RIGHT(RBE_PARENT(rbe))) rbe = RBE_PARENT(rbe);] *)
Fixpoint climb_right (fuel : nat) (rbe : Z) : RM Z :=
  match fuel with
  | O => fault OutOfFuel
  | S fuel =>
      p ← RBE_PARENT rbe;
      if p =? 0 then mret rbe
      else r ← RBE_RIGHT p; if rbe =? r then climb_right fuel p else mret rbe
  end.
Fixpoint climb_left (fuel : nat) (rbe : Z) : RM Z :=
  match fuel with
  | O => fault OutOfFuel
  | S fuel =>
      p ← RBE_PARENT rbe;
      if p =? 0 then mret rbe
      else l ← RBE_LEFT p; if rbe =? l then climb_left fuel p else mret rbe
  end.

Definition _rb_next (elm : Z) : RM Z :=
  let rbe := rb_n2e elm in
  n ← turns;
  r ← RBE_RIGHT rbe;
  rbe ← (if negb (r =? 0) then leftmost n r
         else
           p ← RBE_PARENT rbe;
           l ← (if negb (p =? 0) then l ← RBE_LEFT p; mret (rbe =? l) else mret false);
           if (l : bool) then mret p
           else rbe ← climb_right n rbe; RBE_PARENT rbe);
  mret (e2n_or_null rbe).

Definition _rb_prev (elm : Z) : RM Z :=
  let rbe := rb_n2e elm in
  n ← turns;
  l ← RBE_LEFT rbe;
  rbe ← (if negb (l =? 0) then rightmost n l
         else
           p ← RBE_PARENT rbe;
           r ← (if negb (p =? 0) then r ← RBE_RIGHT p; mret (rbe =? r) else mret false);
           if (r : bool) then mret p
           else rbe ← climb_left n rbe; RBE_PARENT rbe);
  mret (e2n_or_null rbe).

Definition _rb_root : RM Z := rbe ← RBH_ROOT; mret (e2n_or_null rbe).

(** The loops of [_rb_min] and [_rb_max]. *)
Fixpoint min_loop (fuel : nat) (parent rbe : Z) : RM Z :=
  match fuel with
  | O => fault OutOfFuel
  | S fuel => if rbe =? 0 then mret parent else l ← RBE_LEFT rbe; min_loop fuel rbe l
  end.
Fixpoint max_loop (fuel : nat) (parent rbe : Z) : RM Z :=
  match fuel with
  | O => fault OutOfFuel
  | S fuel => if rbe =? 0 then mret parent else r ← RBE_RIGHT rbe; max_loop fuel rbe r
  end.
Definition _rb_min : RM Z :=
  rbe ← RBH_ROOT; n ← turns; parent ← min_loop n 0 rbe; mret (e2n_or_null parent).
Definition _rb_max : RM Z :=
  rbe ← RBH_ROOT; n ← turns; parent ← max_loop n 0 rbe; mret (e2n_or_null parent).

Definition _rb_left (node : Z) : RM Z := rbe ← RBE_LEFT (rb_n2e node); mret (e2n_or_null rbe).
Definition _rb_right (node : Z) : RM Z := rbe ← RBE_RIGHT (rb_n2e node); mret (e2n_or_null rbe).
Definition _rb_parent (node : Z) : RM Z := rbe ← RBE_PARENT (rb_n2e node); mret (e2n_or_null rbe).

Definition n2e_or_null (node : Z) : Z := if node =? 0 then 0 else rb_n2e node.
Definition _rb_set_left (node left : Z) : RM () := set_left (rb_n2e node) (n2e_or_null left).
Definition _rb_set_right (node right : Z) : RM () := set_right (rb_n2e node) (n2e_or_null right).
Definition _rb_set_parent (node parent : Z) : RM () := set_parent (rb_n2e node) (n2e_or_null parent).

Definition _rb_poison (node poison : Z) : RM () :=
  let rbe := rb_n2e node in
  set_right rbe poison;; set_left rbe poison;; set_parent rbe poison.
Definition _rb_check (node poison : Z) : RM bool :=
  let rbe := rb_n2e node in
  p ← RBE_PARENT rbe;
  if negb (p =? poison) then mret false
  else
    l ← RBE_LEFT rbe;
    if negb (l =? poison) then mret false else r ← RBE_RIGHT rbe; mret (r =? poison).

Definition _rb_init : RM () := set_root 0.
Definition _rb_empty : RM bool := root ← RBH_ROOT; mret (root =? 0).

End code.
