(* ===== verification/RbtTree.v ===== *)
(** Trees with colours, and the places in them: the pure side of [Rbt].  A place is
    a context, the frames from it up to the root.  The two mirror images of the
    code are one here, by the side ([L] or [R]) on which a subtree stands. *)

From S2P Require Import Prelude.

(** ** Trees *)

Inductive color : Type := Red | Black.

Inductive tree : Type :=
| Leaf
| Node (c : color) (l : tree) (a : Z) (r : tree).

Inductive side : Type := L | R.

#[export] Instance color_eq_dec : EqDecision color.
Proof. solve_decision. Defined.
#[export] Instance side_eq_dec : EqDecision side.
Proof. solve_decision. Defined.

Definition flip (d : side) : side := match d with L => R | R => L end.

(** A node with [x] on the side [d] and [y] on the other. *)
Definition node (d : side) (c : color) (x : tree) (a : Z) (y : tree) : tree :=
  match d with L => Node c x a y | R => Node c y a x end.

Definition ptr (t : tree) : Z := match t with Leaf => 0 | Node _ _ a _ => a end.

Definition tcol (t : tree) : color := match t with Leaf => Black | Node c _ _ _ => c end.
Definition paint (c : color) (t : tree) : tree :=
  match t with Leaf => Leaf | Node _ l a r => Node c l a r end.

(** In order, and the height. *)
Fixpoint elems (t : tree) : list Z :=
  match t with Leaf => [] | Node _ l a r => elems l ++ a :: elems r end.
Fixpoint height (t : tree) : nat :=
  match t with Leaf => O | Node _ l _ r => S (max (height l) (height r)) end.

Lemma node_flip d c x a y : node (flip d) c x a y = node d c y a x.
Proof. by destruct d. Qed.
Lemma ptr_at_node d c x a y : ptr (node d c x a y) = a.
Proof. by destruct d. Qed.
Lemma tcol_node d c x a y : tcol (node d c x a y) = c.
Proof. by destruct d. Qed.
Lemma paint_node c' d c x a y : paint c' (node d c x a y) = node d c' x a y.
Proof. by destruct d. Qed.
Lemma elems_paint c t : elems (paint c t) = elems t.
Proof. by destruct t. Qed.
Lemma tcol_paint t : tcol (paint Black t) = Black.
Proof. by destruct t. Qed.
Lemma paint_same t : paint (tcol t) t = t.
Proof. by destruct t. Qed.

(** The elements of a node, whatever their order. *)
Lemma elems_node d c x a y : elems (node d c x a y) ≡ₚ a :: elems x ++ elems y.
Proof. destruct d; cbn; [by rewrite Permutation_middle|]. rewrite (Permutation_app_comm (elems x)). by rewrite Permutation_middle. Qed.

(** Two trees with the same elements in order, the sides being known. *)
Ltac in_order := cbn; repeat (rewrite <-?app_assoc; cbn); done.

(** A rotation keeps the order. *)
Lemma elems_rotate d c x a c' y b z :
  elems (node d c x a (node d c' y b z)) = elems (node d c' (node d c x a y) b z).
Proof. destruct d; in_order. Qed.

(** ** Contexts *)

Record frame : Type := Fr {
  f_side : side;      (* of the hole *)
  f_color : color;
  f_entry : Z;
  f_sib : tree;
}.
Abbreviation ctx := (list frame).

Definition fill (f : frame) (t : tree) : tree := node (f_side f) (f_color f) t (f_entry f) (f_sib f).
Fixpoint plug (k : ctx) (t : tree) : tree :=
  match k with [] => t | f :: k => plug k (fill f t) end.

Definition cpar (k : ctx) : Z := match k with [] => 0 | f :: _ => f_entry f end.

(** The colour of the parent; above the root all is black. *)
Definition ccol (k : ctx) : color := match k with [] => Black | f :: _ => f_color f end.

Fixpoint before (k : ctx) : list Z :=
  match k with
  | [] => []
  | Fr L _ _ _ :: k => before k
  | Fr R _ a s :: k => before k ++ elems s ++ [a]
  end.
Fixpoint after (k : ctx) : list Z :=
  match k with
  | [] => []
  | Fr L _ a s :: k => a :: elems s ++ after k
  | Fr R _ _ _ :: k => after k
  end.
Definition celems (k : ctx) : list Z := before k ++ after k.

Lemma plug_app k1 k2 t : plug (k1 ++ k2) t = plug k2 (plug k1 t).
Proof. revert t. induction k1 as [|f k1 IH]; intros t; [done|]. cbn. apply IH. Qed.

(** The hole on the far side of a node. *)
Lemma plug_far k d c a x y : plug (Fr (flip d) c a x :: k) y = plug k (node d c x a y).
Proof. cbn. unfold fill. cbn. by rewrite node_flip. Qed.

Lemma elems_plug k t : elems (plug k t) = before k ++ elems t ++ after k.
Proof.
  revert t. induction k as [|[[] c a s] k IH]; intros t; cbn; [by rewrite app_nil_r| |]; rewrite IH; cbn;
    rewrite <-!app_assoc; done.
Qed.

Lemma celems_cons d c a s k : celems (Fr d c a s :: k) ≡ₚ a :: elems s ++ celems k.
Proof.
  unfold celems. destruct d; cbn.
  - rewrite <-Permutation_middle. apply perm_skip. rewrite !app_assoc. apply Permutation_app_tail, Permutation_app_comm.
  - rewrite <-!app_assoc. cbn. rewrite app_assoc. rewrite <-Permutation_middle. apply perm_skip.
    rewrite !app_assoc. apply Permutation_app_tail, Permutation_app_comm.
Qed.

Lemma elems_plug_perm k t : elems (plug k t) ≡ₚ elems t ++ celems k.
Proof.
  rewrite elems_plug. unfold celems. rewrite !app_assoc. apply Permutation_app_tail, Permutation_app_comm.
Qed.

(** Both subtrees may change as long as their elements do not. *)
Lemma elems_plug_same k t t' : elems t = elems t' → elems (plug k t) = elems (plug k t').
Proof. intros E. by rewrite !elems_plug, E. Qed.

Lemma height_elems t : (height t ≤ length (elems t))%nat.
Proof. induction t as [|c l IHl a r IHr]; cbn; [done|]. rewrite length_app. cbn. lia. Qed.

Lemma length_ctx k : (length k ≤ length (celems k))%nat.
Proof.
  induction k as [|[d c a s] k IH]; [cbn; lia|]. rewrite (celems_cons d c a s k). cbn. rewrite length_app. lia.
Qed.

(** ** Red-black trees *)

(** Every path to a leaf has [n] black nodes. *)
Fixpoint bal (t : tree) (n : nat) : Prop :=
  match t, n with
  | Leaf, O => True
  | Leaf, S _ => False
  | Node Red l _ r, n => bal l n ∧ bal r n
  | Node Black l _ r, O => False
  | Node Black l _ r, S n => bal l n ∧ bal r n
  end.

(** No red node has a red child. *)
Fixpoint nored (t : tree) : Prop :=
  match t with
  | Leaf => True
  | Node c l _ r => (c = Red → tcol l = Black ∧ tcol r = Black) ∧ nored l ∧ nored r
  end.

Definition rb (t : tree) : Prop := tcol t = Black ∧ nored t ∧ ∃ n, bal t n.

(** The same for contexts: the hole has black height [n], its root the colour [c]. *)
Definition up (c : color) (n : nat) : nat := match c with Red => n | Black => S n end.
Fixpoint cbal (k : ctx) (n : nat) : Prop :=
  match k with [] => True | f :: k => bal (f_sib f) n ∧ cbal k (up (f_color f) n) end.
Fixpoint cnored (k : ctx) (c : color) : Prop :=
  match k with
  | [] => True
  | f :: k => (f_color f = Red → c = Black ∧ tcol (f_sib f) = Black) ∧ nored (f_sib f) ∧ cnored k (f_color f)
  end.
(** The root is black. *)
Fixpoint croot (k : ctx) (c : color) : Prop :=
  match k with [] => c = Black | f :: k => croot k (f_color f) end.

Lemma bal_node d c x a y n : bal (node d c x a y) (up c n) ↔ bal x n ∧ bal y n.
Proof. destruct d, c; cbn; tauto. Qed.
Lemma bal_node_inv d c x a y n : bal (node d c x a y) n → ∃ m, n = up c m ∧ bal x m ∧ bal y m.
Proof.
  intros Hb. destruct c; [exists n; split; [done|]; by apply (bal_node d Red x a y n)|].
  destruct n as [|n]; [by destruct d|]. exists n. split; [done|]. by apply (bal_node d Black x a y n).
Qed.
Lemma nored_node d c x a y :
  nored (node d c x a y) ↔ (c = Red → tcol x = Black ∧ tcol y = Black) ∧ nored x ∧ nored y.
Proof. destruct d; cbn; tauto. Qed.

Lemma bal_plug k t : (∃ n, bal (plug k t) n) ↔ ∃ n, bal t n ∧ cbal k n.
Proof.
  revert t. induction k as [|[d c a s] k IH]; intros t; cbn; [naive_solver|]. rewrite IH. unfold fill. cbn. split.
  - intros (n & Hb & Hk). apply bal_node_inv in Hb as (m & -> & Ht & Hs). by exists m.
  - intros (n & Ht & Hs & Hk). exists (up c n). split; [|done]. by apply bal_node.
Qed.
Lemma nored_plug k t : nored (plug k t) ↔ nored t ∧ cnored k (tcol t).
Proof.
  revert t. induction k as [|[d c a s] k IH]; intros t; cbn; [tauto|].
  rewrite IH. unfold fill. cbn. rewrite nored_node, tcol_node. tauto.
Qed.
Lemma tcol_plug k t : tcol (plug k t) = Black ↔ croot k (tcol t).
Proof.
  revert t. induction k as [|[d c a s] k IH]; intros t; cbn; [done|]. rewrite IH. unfold fill. cbn. by rewrite tcol_node.
Qed.

Lemma rb_plug k t :
  rb (plug k t) ↔ croot k (tcol t) ∧ nored t ∧ cnored k (tcol t) ∧ ∃ n, bal t n ∧ cbal k n.
Proof. unfold rb. rewrite bal_plug, nored_plug, tcol_plug. tauto. Qed.

Lemma cnored_black k c : cnored k c → cnored k Black.
Proof. destruct k as [|f k]; cbn; tauto. Qed.
Lemma croot_black k c : croot k c → croot k Black.
Proof. by destruct k. Qed.

Lemma nored_paint t : nored t → nored (paint Black t).
Proof. destruct t as [|c l a r]; cbn; [done|]. by intros (_ & ? & ?). Qed.
Lemma bal_paint t n : bal t n → ∃ m, bal (paint Black t) m.
Proof. destruct t as [|[] l a r]; cbn; [by exists n|by exists (S n)|by exists n]. Qed.
(** Painting the root black makes a red-black tree of one that has a red root. *)
Lemma rb_paint t n : nored t → bal t n → rb (paint Black t).
Proof. intros Hn Hb. split; [by apply tcol_paint|]. split; [by apply nored_paint|by eapply bal_paint]. Qed.

(** The height of a red-black tree is at most twice the black height, and a tree of
    black height [n] has at least 2^n - 1 elements. *)
Lemma bal_height t n : nored t → bal t n → (height t ≤ 2 * n + match tcol t with Red => 1 | Black => 0 end)%nat.
Proof.
  revert n. induction t as [|c l IHl a r IHr]; intros n; cbn; [lia|].
  intros (Hc & Hl & Hr) Hb. destruct c; [destruct Hb as [Hbl Hbr]|destruct n as [|n]; [done|destruct Hb as [Hbl Hbr]]].
  - destruct (Hc eq_refl) as [El Er]. specialize (IHl n Hl Hbl). specialize (IHr n Hr Hbr). rewrite El in IHl. rewrite Er in IHr. lia.
  - specialize (IHl n Hl Hbl). specialize (IHr n Hr Hbr). destruct (tcol l), (tcol r); lia.
Qed.
Lemma bal_size t n : bal t n → (2 ^ n ≤ S (length (elems t)))%nat.
Proof.
  revert n. induction t as [|c l IHl a r IHr]; intros n; cbn.
  - destruct n; [cbn; lia|done].
  - rewrite length_app. cbn. destruct c; [intros [Hl _]; specialize (IHl n Hl); lia|].
    destruct n as [|n]; [done|]. intros [Hl Hr]. specialize (IHl n Hl). specialize (IHr n Hr). cbn. lia.
Qed.
Lemma rb_height t : rb t → (height t ≤ 2 * Nat.log2 (S (length (elems t))))%nat.
Proof.
  intros (Hc & Hn & n & Hb). pose proof (bal_height t n Hn Hb) as Hh. rewrite Hc in Hh.
  pose proof (Nat.log2_le_pow2 (S (length (elems t))) n ltac:(lia)) as [Hlog _]. pose proof (bal_size t n Hb). lia.
Qed.

(** An element is at some node. *)
Lemma tree_split a t : a ∈ elems t → ∃ k c l r, t = plug k (Node c l a r).
Proof.
  induction t as [|c l IHl b r IHr]; cbn; [by intros ?%elem_of_nil|].
  intros [Hin|[->|Hin]%elem_of_cons]%elem_of_app; [| by exists [], c, l, r|].
  - destruct (IHl Hin) as (k & c' & l' & r' & ->). exists (k ++ [Fr L c b r]), c', l', r'. by rewrite plug_app.
  - destruct (IHr Hin) as (k & c' & l' & r' & ->). exists (k ++ [Fr R c b l]), c', l', r'. by rewrite plug_app.
Qed.

(** The leftmost node of a tree, with the frames from it to the root. *)
Definition is_left (f : frame) : Prop := f_side f = L.

Lemma leftmost_split t : t ≠ Leaf → ∃ k c b y, t = plug k (Node c Leaf b y) ∧ Forall is_left k.
Proof.
  induction t as [|c l IHl a r _]; [done|]. intros _. destruct l as [|c' l' a' r']; [by exists [], c, a, r|].
  destruct IHl as (k & c1 & b & y & E & Hk); [done|]. exists (k ++ [Fr L c a r]), c1, b, y. split.
  - rewrite plug_app, <-E. done.
  - apply Forall_app. split; [done|]. by repeat constructor.
Qed.

Lemma before_left k : Forall is_left k → before k = [].
Proof. induction 1 as [|[d c a s] k Hd _ IH]; [done|]. unfold is_left in Hd. cbn in Hd |- *. by subst d. Qed.
Lemma elems_plug_left k t : Forall is_left k → elems (plug k t) = elems t ++ after k.
Proof. intros Hk. by rewrite elems_plug, before_left. Qed.

(** The addresses play no part in the colours. *)
Lemma cbal_addr k2 d c a b s k n : cbal (k2 ++ Fr d c a s :: k) n → cbal (k2 ++ Fr d c b s :: k) n.
Proof. revert n. induction k2 as [|f k2 IH]; intros n; cbn; [done|]. intros [? ?]. split; [done|]. by apply IH. Qed.
Lemma cnored_addr k2 d c a b s k c' : cnored (k2 ++ Fr d c a s :: k) c' → cnored (k2 ++ Fr d c b s :: k) c'.
Proof. revert c'. induction k2 as [|f k2 IH]; intros c'; cbn; [done|]. intros (? & ? & ?). split_and!; [done..|]. by apply IH. Qed.
Lemma croot_addr k2 d c a b s k c' : croot (k2 ++ Fr d c a s :: k) c' → croot (k2 ++ Fr d c b s :: k) c'.
Proof. revert c'. induction k2 as [|f k2 IH]; intros c'; cbn; [done|]. apply IH. Qed.
