(* ===== verification/RbtMem.v ===== *)
(** Trees in memory: when the entries represent a tree ([holds]), and what the
    statements of [Rbt] do to it, read as changes of the tree. *)

From S2P Require Import Prelude StateMonad Rbt RbtTree.

(** ** Representation *)

Definition ccode (c : color) : Z := match c with Black => RB_BLACK | Red => RB_RED end.

(** The entry of a node that has [p] on the side [d] and [q] on the other. *)
Definition mk (d : side) (par p q : Z) (c : color) : rb_entry :=
  match d with L => RbEntry par p q (ccode c) | R => RbEntry par q p (ccode c) end.

Fixpoint rep (m : gmap Z rb_entry) (par : Z) (t : tree) : Prop :=
  match t with
  | Leaf => True
  | Node c l a r => a ≠ 0 ∧ m !! a = Some (RbEntry par (ptr l) (ptr r) (ccode c)) ∧ rep m a l ∧ rep m a r
  end.

(** The frames around a hole where the pointer [p] stands. *)
Fixpoint crep (m : gmap Z rb_entry) (p : Z) (k : ctx) : Prop :=
  match k with
  | [] => True
  | Fr d c a s :: k => a ≠ 0 ∧ m !! a = Some (mk d (cpar k) p (ptr s) c) ∧ rep m a s ∧ crep m a k
  end.

Lemma rep_node m par d c x a y :
  rep m par (node d c x a y) ↔ a ≠ 0 ∧ m !! a = Some (mk d par (ptr x) (ptr y) c) ∧ rep m a x ∧ rep m a y.
Proof. destruct d; cbn; tauto. Qed.

Lemma rep_plug m k t : rep m 0 (plug k t) ↔ rep m (cpar k) t ∧ crep m (ptr t) k.
Proof.
  revert t. induction k as [|[d c a s] k IH]; intros t; cbn; [tauto|].
  rewrite IH. unfold fill. cbn. rewrite rep_node, ptr_at_node. tauto.
Qed.

Lemma rep_same m m' par t : (∀ q, q ∈ elems t → m' !! q = m !! q) → rep m par t → rep m' par t.
Proof.
  revert par. induction t as [|c l IHl a r IHr]; intros par Hm; cbn; [done|]. intros (Ha & He & Hl & Hr).
  split_and!; [done| | |].
  - rewrite Hm; [done|]. cbn. set_solver.
  - apply IHl; [|done]. intros q Hq. apply Hm. cbn. set_solver.
  - apply IHr; [|done]. intros q Hq. apply Hm. cbn. set_solver.
Qed.
Lemma crep_same m m' p k : (∀ q, q ∈ celems k → m' !! q = m !! q) → crep m p k → crep m' p k.
Proof.
  revert p. induction k as [|[d c a s] k IH]; intros p Hm; cbn; [done|]. intros (Ha & He & Hs & Hk).
  assert (∀ q, q = a ∨ q ∈ elems s ∨ q ∈ celems k → m' !! q = m !! q) as Hm'.
  { intros q Hq. apply Hm. rewrite (celems_cons d c a s k). set_solver. }
  split_and!; [done| | |].
  - rewrite Hm'; [done|]. by left.
  - eapply rep_same; [|done]. intros q Hq. apply Hm'. auto.
  - apply IH; [|done]. intros q Hq. apply Hm'. auto.
Qed.

Lemma rep_dom m par t q : rep m par t → q ∈ elems t → is_Some (m !! q) ∧ q ≠ 0.
Proof.
  revert par. induction t as [|c l IHl a r IHr]; intros par; cbn; [by intros _ ?%elem_of_nil|].
  intros (Ha & He & Hl & Hr) [Hq|[->|Hq]%elem_of_cons]%elem_of_app; [by eapply IHl|by eauto|by eapply IHr].
Qed.

Lemma rep_ptr m par t : rep m par t → t ≠ Leaf → ptr t ≠ 0.
Proof. destruct t as [|c l a r]; [done|]. by intros (Ha & _). Qed.

(** ** Changes of the memory *)

Definition with_parent (v : Z) (e : rb_entry) : rb_entry :=
  RbEntry v (rbt_left e) (rbt_right e) (rbt_color e).
Definition with_near (d : side) (v : Z) (e : rb_entry) : rb_entry :=
  match d with
  | L => RbEntry (rbt_parent e) v (rbt_right e) (rbt_color e)
  | R => RbEntry (rbt_parent e) (rbt_left e) v (rbt_color e)
  end.

(** The root of [t] gets another parent; the hole of [k] another pointer. *)
Definition reparent (t : tree) (v : Z) (m : gmap Z rb_entry) : gmap Z rb_entry :=
  match t with Leaf => m | Node _ _ a _ => alter (with_parent v) a m end.
Definition link (k : ctx) (v : Z) (m : gmap Z rb_entry) : gmap Z rb_entry :=
  match k with [] => m | Fr d _ a _ :: _ => alter (with_near d v) a m end.
Definition link_root (k : ctx) (v root : Z) : Z := match k with [] => v | _ => root end.

Lemma lookup_reparent_ne t v m q : q ∉ elems t → reparent t v m !! q = m !! q.
Proof. destruct t as [|c l a r]; [done|]. cbn. intros Hq. rewrite lookup_alter_ne; [done|]. set_solver. Qed.
Lemma lookup_link_ne k v m q : q ∉ celems k → link k v m !! q = m !! q.
Proof.
  destruct k as [|[d c a s] k]; [done|]. rewrite (celems_cons d c a s k). cbn. intros Hq.
  rewrite lookup_alter_ne; [done|]. set_solver.
Qed.

Lemma rep_reparent m par t v : NoDup (elems t) → rep m par t → rep (reparent t v m) v t.
Proof.
  destruct t as [|c l a r]; [done|]. cbn. intros Hnd (Ha & He & Hl & Hr).
  apply NoDup_app in Hnd as (_ & Hlr & Hnd). apply NoDup_cons in Hnd as [Har _].
  split_and!; [done| | |].
  - rewrite lookup_alter_eq, He. done.
  - eapply rep_same; [|done]. intros q Hq. rewrite lookup_alter_ne; [done|]. intros <-. by apply (Hlr _ Hq); left.
  - eapply rep_same; [|done]. intros q Hq. rewrite lookup_alter_ne; [done|]. by intros <-.
Qed.

Lemma crep_link m p k v : NoDup (celems k) → crep m p k → crep (link k v m) v k.
Proof.
  destruct k as [|[d c a s] k]; [done|]. rewrite (celems_cons d c a s k). cbn. intros Hnd (Ha & He & Hs & Hk).
  apply NoDup_cons in Hnd as [Hnot _]. split_and!; [done| | |].
  - rewrite lookup_alter_eq, He. by destruct d.
  - eapply rep_same; [|done]. intros q Hq. rewrite lookup_alter_ne; [done|]. set_solver.
  - eapply crep_same; [|done]. intros q Hq. rewrite lookup_alter_ne; [done|]. set_solver.
Qed.

(** A goal about the memory at addresses apart from those that changed. *)
Ltac apart :=
  repeat match goal with
  | H : NoDup (_ :: _) |- _ => apply NoDup_cons in H as [? ?]
  | H : NoDup (_ ++ _) |- _ => apply NoDup_app in H as (? & ? & ?)
  end; set_solver.
Ltac same_entry :=
  repeat first
    [ rewrite lookup_alter_ne by apart
    | rewrite lookup_link_ne by apart
    | rewrite lookup_reparent_ne by apart ]; try done.
Ltac same := let q := fresh "q" in let Hq := fresh "Hq" in intros q Hq; same_entry.

(** ** Statements *)

Section mem.
Context {D : Type} (t : rb_type D).
Abbreviation RM := (ST (rbmem D)).
Implicit Type (s : rbmem D).

Lemma runs_entry s a e (Q : rb_entry → rbmem D → Prop) : entries s !! a = Some e → Q e s → runs (entry a) s Q.
Proof. intros He HQ. exists e, s. unfold entry. by rewrite He. Qed.

Lemma runs_field {A} (f : rb_entry → A) s a e (Q : A → rbmem D → Prop) :
  entries s !! a = Some e → Q (f e) s → runs (e ← entry a; mret (f e)) s Q.
Proof. intros He HQ. eapply runs_bind, runs_entry; [done|]. by apply runs_ret. Qed.

Lemma runs_upd_entry s a f (Q : () → rbmem D → Prop) :
  is_Some (entries s !! a) → Q tt (set_entries (alter f a (entries s)) s) → runs (upd a f) s Q.
Proof.
  intros [e He] HQ. unfold upd. eapply runs_bind, runs_entry; [done|]. apply runs_modify.
  replace (<[a := f e]> (entries s)) with (alter f a (entries s)); [done|].
  apply map_eq. intros q. destruct (decide (q = a)) as [->|].
  - by rewrite lookup_alter_eq, lookup_insert_eq, He.
  - by rewrite lookup_alter_ne, lookup_insert_ne.
Qed.

(** Statements by side. *)
Definition RBE_CHILD (d : side) (a : Z) : RM Z := match d with L => RBE_LEFT a | R => RBE_RIGHT a end.
Definition set_child (d : side) (a v : Z) : RM () := match d with L => set_left a v | R => set_right a v end.
Definition rotate (d : side) (a : Z) : RM () :=
  match d with L => rbe_rotate_left t a | R => rbe_rotate_right t a end.

Lemma runs_set_child s d a v (Q : () → rbmem D → Prop) :
  is_Some (entries s !! a) → Q tt (set_entries (alter (with_near d v) a (entries s)) s) → runs (set_child d a v) s Q.
Proof. intros Ha HQ. destruct d; by apply runs_upd_entry. Qed.

Definition child_of (d : side) (e : rb_entry) : Z := match d with L => rbt_left e | R => rbt_right e end.
Lemma runs_child d s a e (Q : Z → rbmem D → Prop) :
  entries s !! a = Some e → Q (child_of d e) s → runs (RBE_CHILD d a) s Q.
Proof. intros He HQ. destruct d; by apply (runs_field _ s a e). Qed.

Lemma child_mk d par p q c : child_of d (mk d par p q c) = p.
Proof. by destruct d. Qed.
Lemma child_mk_flip d par p q c : child_of (flip d) (mk d par p q c) = q.
Proof. by destruct d. Qed.
Lemma parent_mk d par p q c : rbt_parent (mk d par p q c) = par.
Proof. by destruct d. Qed.
Lemma color_mk d par p q c : rbt_color (mk d par p q c) = ccode c.
Proof. by destruct d. Qed.

(** The callback changes nothing that the tree is made of. *)
Definition same_tree s s' : Prop := rbt_root s' = rbt_root s ∧ entries s' = entries s.

Lemma runs_if_augment s a (Q : () → rbmem D → Prop) :
  (∀ s', same_tree s s' → Q tt s') → runs (rbe_if_augment t a) s Q.
Proof.
  intros HQ. unfold rbe_if_augment, has_augment, rbe_augment. destruct (t_augment t) as [f|].
  - apply runs_modify, HQ. done.
  - by apply runs_ret, HQ.
Qed.
Lemma runs_augment s a (Q : () → rbmem D → Prop) :
  has_augment t = true → (∀ s', same_tree s s' → Q tt s') → runs (rbe_augment t a) s Q.
Proof.
  intros Ha HQ. unfold has_augment, rbe_augment in *. destruct (t_augment t) as [f|]; [|done]. apply runs_modify, HQ. done.
Qed.

Lemma runs_augment_rotated s a b e (Q : () → rbmem D → Prop) :
  entries s !! b = Some e → (∀ s', same_tree s s' → Q tt s') → runs (augment_rotated t a b) s Q.
Proof.
  intros Hb HQ. unfold augment_rotated. destruct (has_augment t) eqn:Ha; [|by apply runs_ret, HQ].
  apply runs_bind, runs_augment; [done|]. intros s1 [Hr1 He1].
  apply runs_bind, runs_augment; [done|]. intros s2 [Hr2 He2].
  apply runs_bind, (runs_field _ _ b e); [by rewrite He2, He1|].
  destruct (negb (rbt_parent e =? 0)).
  - apply runs_augment; [done|]. intros s3 [Hr3 He3]. apply HQ. split; congruence.
  - apply runs_ret, HQ. split; congruence.
Qed.

(** The link from above: the pointer that stands in the hole is found on its side. *)
Lemma crep_side m d c g sib k p :
  crep m p (Fr d c g sib :: k) → p ≠ 0 → p ∉ elems sib →
  ∃ e, m !! g = Some e ∧ g ≠ 0 ∧ (rbt_left e =? p) = bool_decide (d = L).
Proof.
  intros (Hg & He & _) Hp Hsib. eexists. split; [done|]. split; [done|]. destruct d; cbn; [apply Z.eqb_refl|].
  apply Z.eqb_neq. intros <-. destruct sib as [|c' l a r]; [done|]. apply Hsib. cbn. set_solver.
Qed.

Lemma runs_set_side s d c g sib k p v (Q : () → rbmem D → Prop) :
  crep (entries s) p (Fr d c g sib :: k) →
  Q tt (set_entries (link (Fr d c g sib :: k) v (entries s)) s) →
  runs (if bool_decide (d = L) then set_left g v else set_right g v) s Q.
Proof. intros (_ & He & _) HQ. destruct d; by apply runs_upd_entry; [eexists|]. Qed.

(** [if (parent != NULL) ... else RBH_ROOT(rbt) = v] *)
Lemma runs_set_link s k p v (Q : () → rbmem D → Prop) :
  crep (entries s) p k → p ≠ 0 → p ∉ celems k →
  Q tt (RbMem (link_root k v (rbt_root s)) (link k v (entries s)) (aug s)) →
  runs (if negb (cpar k =? 0) then replace_child (cpar k) p v else set_root v) s Q.
Proof.
  intros Hk Hp Hnot HQ. destruct k as [|[d c g sib] k]; [by apply runs_modify|].
  rewrite (celems_cons d c g sib k) in Hnot.
  destruct (crep_side _ _ _ _ _ _ _ Hk Hp ltac:(set_solver)) as (e & He & Hg & Hside).
  cbn [cpar f_entry]. rewrite (proj2 (Z.eqb_neq g 0) Hg). cbn [negb]. unfold replace_child.
  apply runs_bind, (runs_field rbt_left s g e _ He). rewrite Z.eqb_sym, Hside. by eapply runs_set_side.
Qed.

Lemma runs_splice_link s k p v (Q : () → rbmem D → Prop) :
  crep (entries s) p k → p ≠ 0 → p ∉ celems k →
  (∀ g, Q tt (RbMem (link_root k v (rbt_root s)) (link k v (entries s)) g)) →
  runs (relink t (cpar k) p v) s Q.
Proof.
  intros Hk Hp Hnot HQ. unfold relink. destruct k as [|[d c g sib] k]; [apply runs_modify, HQ|].
  rewrite (celems_cons d c g sib k) in Hnot.
  destruct (crep_side _ _ _ _ _ _ _ Hk Hp ltac:(set_solver)) as (e & He & Hg & Hside).
  cbn [cpar f_entry]. rewrite (proj2 (Z.eqb_neq g 0) Hg). cbn [negb].
  apply runs_bind, runs_bind, (runs_field rbt_left s g e _ He). rewrite Hside. eapply runs_set_side; [done|].
  apply runs_if_augment. intros [r m x] [Hr He']. cbn in Hr, He'. subst. apply HQ.
Qed.

(** [if (p != NULL) RBE_PARENT(p) = v], with [p] the root of a tree. *)
Lemma runs_reparent s par x v (Q : () → rbmem D → Prop) :
  rep (entries s) par x → Q tt (set_entries (reparent x v (entries s)) s) →
  runs (if negb (ptr x =? 0) then set_parent (ptr x) v else mret tt) s Q.
Proof.
  intros Hx HQ. destruct x as [|c l a r]; cbn.
  - apply runs_ret. by destruct s.
  - destruct Hx as (Ha & He & _). rewrite (proj2 (Z.eqb_neq a 0) Ha). by apply runs_upd_entry; [eexists|].
Qed.

(** ** Rotation *)

(** The two rotations, by side. *)
Lemma rotate_sided d a :
  rotate d a =
    (tmp ← RBE_CHILD (flip d) a;
     tl ← RBE_CHILD d tmp;
     set_child (flip d) a tl;;
     r ← RBE_CHILD (flip d) a;
     (if negb (r =? 0) then tl ← RBE_CHILD d tmp; set_parent tl a else mret tt);;
     parent ← RBE_PARENT a;
     set_parent tmp parent;;
     (if negb (parent =? 0) then replace_child parent a tmp else set_root tmp);;
     set_child d tmp a;;
     set_parent a tmp;;
     augment_rotated t a tmp).
Proof. by destruct d. Qed.

(** The memory after a rotation at [a] with [b] below. *)
Definition rotated (d : side) (k : ctx) (a b : Z) (y : tree) (m : gmap Z rb_entry) : gmap Z rb_entry :=
  alter (with_parent b) a (alter (with_near d a) b (link k b
    (alter (with_parent (cpar k)) b (reparent y a (alter (with_near (flip d) (ptr y)) a m))))).

Lemma rotated_rep m d k c x a c' y b z :
  NoDup (elems (plug k (node d c x a (node d c' y b z)))) →
  rep m (cpar k) (node d c x a (node d c' y b z)) → crep m a k →
  rep (rotated d k a b y m) (cpar k) (node d c' (node d c x a y) b z) ∧ crep (rotated d k a b y m) b k ∧
  ∀ q, q ∉ elems (plug k (node d c x a (node d c' y b z))) → rotated d k a b y m !! q = m !! q.
Proof.
  intros Hnd Hrep Hk.
  rewrite (elems_plug_perm k _), (elems_node d c x a _), (elems_node d c' y b z) in Hnd.
  apply rep_node in Hrep as (Ha & Hea & Hx & Hb). apply rep_node in Hb as (Hb & Heb & Hy & Hz).
  rewrite ptr_at_node in Hea. unfold rotated.
  assert (NoDup (elems y) ∧ NoDup (celems k) ∧ a ≠ b) as (Hndy & Hndk & Hab) by apart.
  split; [|split].
  - apply rep_node. rewrite ptr_at_node. split; [done|]. split; [|split].
    + rewrite lookup_alter_ne by done. rewrite lookup_alter_eq, lookup_link_ne by apart.
      rewrite lookup_alter_eq, lookup_reparent_ne, lookup_alter_ne by apart. rewrite Heb. by destruct d.
    + apply rep_node. split; [done|]. split; [|split].
      * rewrite lookup_alter_eq, lookup_alter_ne, lookup_link_ne, lookup_alter_ne, lookup_reparent_ne, lookup_alter_eq by apart.
        rewrite Hea. by destruct d.
      * eapply rep_same; [|exact Hx]. same.
      * apply (rep_same (reparent y a (alter (with_near (flip d) (ptr y)) a m))).
        -- intros q Hq. rewrite !lookup_alter_ne, lookup_link_ne, lookup_alter_ne by apart. reflexivity.
        -- apply (rep_reparent _ b y a Hndy). eapply rep_same; [|exact Hy]. same.
    + eapply rep_same; [|exact Hz]. same.
  - set (m1 := alter (with_parent (cpar k)) b _). apply (crep_same (link k b m1)).
    + intros q Hq. rewrite !lookup_alter_ne by apart. reflexivity.
    + apply (crep_link _ a k b Hndk). eapply crep_same; [|exact Hk]. subst m1. same.
  - intros q Hq. rewrite (elems_plug_perm k _), (elems_node d c x a _), (elems_node d c' y b z) in Hq. same_entry.
Qed.
(** ** The tree in memory *)

(** The head and the entries represent [T]; entries outside it are those of [m0]. *)
Record holds (m0 : gmap Z rb_entry) s (T : tree) : Prop := {
  h_root : rbt_root s = ptr T;
  h_rep : rep (entries s) 0 T;
  h_nodup : NoDup (elems T);
  h_out q : q ∉ elems T → entries s !! q = m0 !! q;
}.

Lemma holds_same m0 s s' T : same_tree s s' → holds m0 s T → holds m0 s' T.
Proof. intros [Hr He] []. split; rewrite ?Hr, ?He; done. Qed.

Lemma holds_out m0 m1 s T : (∀ q, q ∉ elems T → m0 !! q = m1 !! q) → holds m0 s T → holds m1 s T.
Proof. intros Hm [Hr Hrep Hnd Hout]. split; [done..|]. intros q Hq. rewrite <-Hm by done. by apply Hout. Qed.

(** The memory of the entries only changes in value. *)
Lemma holds_dom m0 s T : (∀ q, q ∈ elems T → is_Some (m0 !! q)) → holds m0 s T → dom (entries s) = dom m0.
Proof.
  intros Hm [_ Hrep _ Hout]. apply set_eq. intros q. rewrite !elem_of_dom.
  destruct (decide (q ∈ elems T)) as [Hin|Hout']; [|by rewrite Hout].
  split; intros _; [by apply Hm|]. by destruct (rep_dom _ _ _ _ Hrep Hin).
Qed.
Lemma holds_self m0 s T : holds m0 s T → holds (entries s) s T.
Proof. intros []. by split. Qed.

(** What the statements read. *)
Record at_node s (k : ctx) (d : side) (c : color) (x : tree) (a : Z) (y : tree) : Prop := {
  an_entry : entries s !! a = Some (mk d (cpar k) (ptr x) (ptr y) c);
  an_near : rep (entries s) a x;
  an_far : rep (entries s) a y;
  an_ctx : crep (entries s) a k;
  an_nz : a ≠ 0;
  an_apart : NoDup ((a :: elems x ++ elems y) ++ celems k);
}.

Lemma holds_node m0 s k d c x a y : holds m0 s (plug k (node d c x a y)) → at_node s k d c x a y.
Proof.
  intros [Hr Hrep Hnd _]. apply rep_plug in Hrep as [Hn Hk]. rewrite ptr_at_node in Hk.
  apply rep_node in Hn as (Ha & He & Hx & Hy). rewrite (elems_plug_perm k _), (elems_node d c x a y) in Hnd.
  by split.
Qed.

Lemma plug_ptr k p q : (k = [] → ptr p = ptr q) → ptr (plug k p) = ptr (plug k q).
Proof.
  revert p q. induction k as [|[d c a x] k IH]; intros p q Hpq; cbn; [by apply Hpq|].
  apply IH. intros _. unfold fill. by rewrite !ptr_at_node.
Qed.
Lemma link_root_plug k p q : link_root k (ptr q) (ptr (plug k p)) = ptr (plug k q).
Proof. destruct k as [|f k]; [done|]. apply plug_ptr. done. Qed.

(** The first half of a rotation: the inner subtree [y] of [b] goes to [a]. *)
Lemma runs_shift {A} s d a b par p c c' y q (K : RM A) (Q : A → rbmem D → Prop) :
  entries s !! a = Some (mk d par p b c) → entries s !! b = Some (mk d a (ptr y) q c') → a ≠ b →
  rep (entries s) b y → a ∉ elems y →
  runs K (set_entries (reparent y a (alter (with_near (flip d) (ptr y)) a (entries s))) s) Q →
  runs (tl ← RBE_CHILD d b;
        set_child (flip d) a tl;;
        r ← RBE_CHILD (flip d) a;
        (if negb (r =? 0) then tl ← RBE_CHILD d b; set_parent tl a else mret tt);; K) s Q.
Proof.
  intros Ea Eb Hab Hy Hay HK.
  apply runs_bind. eapply runs_child; [exact Eb|]. rewrite child_mk.
  apply runs_bind, runs_set_child; [by eexists|].
  set (m1 := alter (with_near (flip d) (ptr y)) a (entries s)) in *.
  assert (m1 !! a = Some (mk d par p (ptr y) c)) as Ea1 by (subst m1; rewrite lookup_alter_eq, Ea; by destruct d).
  assert (m1 !! b = Some (mk d a (ptr y) q c')) as Eb1 by (subst m1; by rewrite lookup_alter_ne).
  assert (rep m1 b y) as Hy1 by (eapply rep_same; [|exact Hy]; subst m1; same).
  apply runs_bind. eapply runs_child; [exact Ea1|]. rewrite child_mk_flip.
  apply runs_bind. pose proof (runs_reparent (set_entries m1 s) b y a (λ _ s', runs K s' Q) Hy1 HK) as Hp.
  destruct (negb (ptr y =? 0)); [|exact Hp]. apply runs_bind. eapply runs_child; [exact Eb1|]. by rewrite child_mk.
Qed.

Lemma runs_rotate m0 s k d c x a c' y b z (Q : () → rbmem D → Prop) :
  holds m0 s (plug k (node d c x a (node d c' y b z))) →
  (∀ s', holds m0 s' (plug k (node d c' (node d c x a y) b z)) → Q tt s') → runs (rotate d a) s Q.
Proof.
  intros H HQ. pose proof (holds_node _ _ _ _ _ _ _ _ H) as [Ea Hx Hb Hk Ha Hnd]. rewrite ptr_at_node in Ea.
  apply rep_node in Hb as (Hb0 & Eb & Hy & Hz). rewrite (elems_node d c' y b z) in Hnd.
  destruct H as [Hr Hrep Hnd0 Hout]. pose proof Hrep as Hrep0. apply rep_plug in Hrep as [Hn _].
  destruct (rotated_rep _ _ _ _ _ _ _ _ _ _ Hnd0 Hn Hk) as (Hrep' & Hk' & Hsame).
  assert (a ≠ b) as Hab by apart.
  rewrite rotate_sided.
  apply runs_bind. eapply runs_child; [exact Ea|]. rewrite child_mk_flip.
  apply (runs_shift s d a b (cpar k) (ptr x) c c' y (ptr z)); [exact Ea|exact Eb|done|exact Hy|apart|].
  set (m1 := alter (with_near (flip d) (ptr y)) a (entries s)).
  assert (m1 !! a = Some (mk d (cpar k) (ptr x) (ptr y) c)) as Ea1
    by (subst m1; rewrite lookup_alter_eq, Ea; by destruct d).
  set (m2 := reparent y a m1).
  assert (m2 !! a = Some (mk d (cpar k) (ptr x) (ptr y) c)) as Ea2
    by (subst m2; rewrite lookup_reparent_ne; [done|apart]).
  apply runs_bind, (runs_field rbt_parent (set_entries m2 s) a _ _ Ea2). rewrite parent_mk.
  apply runs_bind, runs_upd_entry.
  { exists (mk d a (ptr y) (ptr z) c'). cbn. subst m2 m1. rewrite lookup_reparent_ne, lookup_alter_ne by apart. exact Eb. }
  cbn [entries set_entries]. set (m3 := alter (with_parent (cpar k)) b m2).
  apply runs_bind, (runs_set_link _ k a b); [|done|apart|].
  { eapply crep_same; [|exact Hk]. subst m3 m2 m1. cbn. same. }
  cbn. set (m4 := link k b m3).
  assert (is_Some (m4 !! b)) as Hb4.
  { subst m4 m3 m2 m1. rewrite lookup_link_ne by apart. rewrite lookup_alter_eq, lookup_reparent_ne, lookup_alter_ne by apart.
    rewrite Eb. by eexists. }
  apply runs_bind, runs_set_child; [done|]. cbn. set (m5 := alter (with_near d a) b m4).
  assert (is_Some (m5 !! a)) as Ha5.
  { subst m5 m4 m3. rewrite lookup_alter_ne by done. rewrite lookup_link_ne, lookup_alter_ne by apart. rewrite Ea2. by eexists. }
  apply runs_bind, runs_upd_entry; [done|]. cbn.
  change (alter (with_parent b) a m5) with (rotated d k a b y (entries s)).
  assert (rep (rotated d k a b y (entries s)) 0 (plug k (node d c' (node d c x a y) b z))) as Hfin.
  { apply rep_plug. by rewrite ptr_at_node. }
  destruct (rep_dom _ 0 _ b Hfin) as [[eb Hebf] _].
  { rewrite (elems_plug_perm k _), (elems_node d c' _ b z). set_solver. }
  eapply runs_augment_rotated; [exact Hebf|]. intros s' Hs'. apply HQ. eapply holds_same; [exact Hs'|].
  split; cbn.
  - rewrite Hr. rewrite <-(link_root_plug k (node d c x a (node d c' y b z)) (node d c' (node d c x a y) b z)).
    by rewrite ptr_at_node.
  - done.
  - by rewrite <-(elems_plug_same k _ _ (elems_rotate d c x a c' y b z)).
  - intros q Hq. rewrite Hsame; [|by rewrite (elems_plug_same k _ _ (elems_rotate d c x a c' y b z))].
    apply Hout. by rewrite (elems_plug_same k _ _ (elems_rotate d c x a c' y b z)).
Qed.

(** ** Colours *)

Lemma runs_paint m0 s k d c c' x a y (Q : () → rbmem D → Prop) :
  holds m0 s (plug k (node d c x a y)) → (∀ s', holds m0 s' (plug k (node d c' x a y)) → Q tt s') →
  runs (set_color a (ccode c')) s Q.
Proof.
  intros H HQ. pose proof (holds_node _ _ _ _ _ _ _ _ H) as [Ea Hx Hy Hk Ha Hnd]. destruct H as [Hr Hrep Hnd0 Hout].
  apply runs_upd_entry; [by eexists|]. apply HQ.
  assert (elems (plug k (node d c' x a y)) = elems (plug k (node d c x a y))) as E by (apply elems_plug_same; by destruct d).
  split; cbn; rewrite ?E.
  - rewrite Hr. apply plug_ptr. by rewrite !ptr_at_node.
  - apply rep_plug. rewrite ptr_at_node. split.
    + apply rep_node. split; [done|]. split.
      * rewrite lookup_alter_eq, Ea. by destruct d.
      * split; (eapply rep_same; [|done]); same.
    + eapply crep_same; [|exact Hk]. same.
  - done.
  - intros q Hq. rewrite lookup_alter_ne; [by apply Hout|]. intros <-. apply Hq.
    rewrite (elems_plug_perm k _), (elems_node d c x a y). set_solver.
Qed.


Lemma runs_color_of m0 s k d c x a y (Q : Z → rbmem D → Prop) :
  holds m0 s (plug k (node d c x a y)) → Q (ccode c) s → runs (RBE_COLOR a) s Q.
Proof.
  intros H HQ. pose proof (an_entry _ _ _ _ _ _ _ (holds_node _ _ _ _ _ _ _ _ H)) as Ea.
  apply (runs_field rbt_color s a _ _ Ea). by rewrite color_mk.
Qed.
Lemma runs_near m0 s k d c x a y (Q : Z → rbmem D → Prop) :
  holds m0 s (plug k (node d c x a y)) → Q (ptr x) s → runs (RBE_CHILD d a) s Q.
Proof.
  intros H HQ. pose proof (an_entry _ _ _ _ _ _ _ (holds_node _ _ _ _ _ _ _ _ H)) as Ea.
  eapply runs_child; [exact Ea|]. by rewrite child_mk.
Qed.
Lemma runs_far m0 s k d c x a y (Q : Z → rbmem D → Prop) :
  holds m0 s (plug k (node d c x a y)) → Q (ptr y) s → runs (RBE_CHILD (flip d) a) s Q.
Proof.
  intros H HQ. pose proof (an_entry _ _ _ _ _ _ _ (holds_node _ _ _ _ _ _ _ _ H)) as Ea.
  eapply runs_child; [exact Ea|]. by rewrite child_mk_flip.
Qed.
Lemma runs_parent m0 s k d c x a y (Q : Z → rbmem D → Prop) :
  holds m0 s (plug k (node d c x a y)) → Q (cpar k) s → runs (RBE_PARENT a) s Q.
Proof.
  intros H HQ. pose proof (an_entry _ _ _ _ _ _ _ (holds_node _ _ _ _ _ _ _ _ H)) as Ea.
  apply (runs_field rbt_parent s a _ _ Ea). by rewrite parent_mk.
Qed.

(** The tests of a colour, on the root of a subtree. *)
Lemma runs_is_red m0 s k p (Q : bool → rbmem D → Prop) :
  holds m0 s (plug k p) → Q (bool_decide (tcol p = Red)) s → runs (is_red (ptr p)) s Q.
Proof.
  intros H HQ. unfold is_red. destruct p as [|c l a r]; [by apply runs_ret|].
  pose proof (an_nz _ _ _ _ _ _ _ (holds_node m0 s k L c l a r H)) as Ha.
  cbn. rewrite (proj2 (Z.eqb_neq a 0) Ha). cbn.
  apply runs_bind, (runs_color_of m0 s k L c l a r); [done|]. apply runs_ret. by destruct c.
Qed.
Lemma runs_is_black m0 s k p (Q : bool → rbmem D → Prop) :
  holds m0 s (plug k p) → Q (bool_decide (tcol p = Black)) s → runs (is_black (ptr p)) s Q.
Proof.
  intros H HQ. unfold is_black. destruct p as [|c l a r]; [by apply runs_ret|].
  pose proof (an_nz _ _ _ _ _ _ _ (holds_node m0 s k L c l a r H)) as Ha.
  cbn. rewrite (proj2 (Z.eqb_neq a 0) Ha).
  apply runs_bind, (runs_color_of m0 s k L c l a r); [done|]. apply runs_ret. by destruct c.
Qed.
Lemma runs_is_red_node m0 s k d c x a y (Q : bool → rbmem D → Prop) :
  holds m0 s (plug k (node d c x a y)) → Q (bool_decide (c = Red)) s → runs (is_red a) s Q.
Proof.
  intros H HQ. pose proof (runs_is_red m0 s k (node d c x a y) Q H) as Hr. rewrite ptr_at_node, tcol_node in Hr. auto.
Qed.

(** [rbe_set_blackred] on a node and its parent, whatever their colours were. *)
Lemma runs_blackred m0 s k d1 c1 d2 c2 x a y g u (Q : () → rbmem D → Prop) :
  holds m0 s (plug k (node d2 c2 (node d1 c1 x a y) g u)) →
  (∀ s', holds m0 s' (plug k (node d2 Red (node d1 Black x a y) g u)) → Q tt s') →
  runs (rbe_set_blackred a g) s Q.
Proof.
  intros H HQ. apply runs_bind, (runs_paint m0 s (Fr d2 c2 g u :: k) d1 c1 Black x a y); [done|].
  intros s1 H1. by apply (runs_paint m0 s1 k d2 c2 Red (node d1 Black x a y) g u).
Qed.

(** [if (p != NULL) RBE_COLOR(p) = RB_BLACK] *)
Lemma runs_paint_black m0 s k p (Q : () → rbmem D → Prop) :
  holds m0 s (plug k p) → (∀ s', holds m0 s' (plug k (paint Black p)) → Q tt s') →
  runs (if negb (ptr p =? 0) then set_color (ptr p) RB_BLACK else mret tt) s Q.
Proof.
  intros H HQ. destruct p as [|c l a r]; [by apply runs_ret, HQ|].
  pose proof (an_nz _ _ _ _ _ _ _ (holds_node m0 s k L c l a r H)) as Ha.
  cbn [ptr]. rewrite (proj2 (Z.eqb_neq a 0) Ha). by apply (runs_paint m0 s k L c Black l a r).
Qed.

(** The address of a subtree is not that of another. *)
Lemma holds_ne m0 s k d c x a y : holds m0 s (plug k (node d c x a y)) → x ≠ Leaf → ptr y ≠ ptr x.
Proof.
  intros H Hx. pose proof (holds_node _ _ _ _ _ _ _ _ H) as [_ Hnx _ _ _ Hnd].
  destruct x as [|c' l b r]; [done|]. destruct Hnx as (Hb & _). cbn. destruct y as [|c'' l' b' r']; [by intros <-|].
  cbn in *. apart.
Qed.

(** Nor that of the root above it. *)
Lemma ptr_plug_in k y : y ≠ Leaf → ptr (plug k y) ∈ ptr y :: celems k.
Proof.
  revert y. induction k as [|[d c a x] k IH]; intros y Hy; cbn [plug]; [by left|].
  specialize (IH (fill (Fr d c a x) y)). rewrite (celems_cons d c a x k). unfold fill in *. cbn [f_side f_color f_entry f_sib] in *.
  rewrite ptr_at_node in IH. pose proof (IH ltac:(by destruct d)) as [->|Hin]%elem_of_cons; set_solver.
Qed.
Lemma holds_root_ne m0 s f k x : holds m0 s (plug (f :: k) x) → ptr x ≠ ptr (plug (f :: k) x).
Proof.
  intros H. destruct f as [d c a sib]. cbn [plug].
  pose proof (ptr_plug_in k (fill (Fr d c a sib) x) ltac:(by destruct d)) as Hin.
  destruct (rep_dom _ _ _ (ptr (plug k (fill (Fr d c a sib) x))) (h_rep _ _ _ H)) as [_ Hnz].
  { cbn [plug]. rewrite (elems_plug_perm k _). unfold fill in *. cbn in *. rewrite ptr_at_node in Hin.
    rewrite (elems_node d c x a sib). set_solver. }
  unfold fill in *. cbn in *. rewrite ptr_at_node in Hin. apply holds_node in H as [_ _ _ _ _ Hnd].
  destruct x as [|c' l b r]; [done|]. cbn in *. intros E. rewrite <-E in Hin. apart.
Qed.

(** The head's colour and the fuel of the loops. *)
Lemma holds_size m0 s T : holds m0 s T → (length (elems T) ≤ size (entries s))%nat.
Proof.
  intros [_ Hrep Hnd _]. rewrite <-size_dom, <-(size_list_to_set (C:=gset Z) (elems T) Hnd).
  apply subseteq_size. intros q Hq%elem_of_list_to_set. apply elem_of_dom. by destruct (rep_dom _ _ _ _ Hrep Hq).
Qed.
Lemma runs_turns m0 s k x (Q : nat → rbmem D → Prop) :
  holds m0 s (plug k x) → (∀ n, (length k < n)%nat → (height x < n)%nat → (length (elems (plug k x)) < n)%nat → Q n s) →
  runs turns s Q.
Proof.
  intros H HQ. pose proof (holds_size _ _ _ H) as Hsz.
  pose proof (Permutation_length (elems_plug_perm k x)) as Hlen. rewrite length_app in Hlen.
  pose proof (length_ctx k). pose proof (height_elems x). apply runs_gets, HQ; lia.
Qed.
End mem.
