(* ===== verification/RbtFind.v ===== *)
(** Searching and walking: the loops of [_rb_find], [_rb_nfind] and [_rb_insert] go
    down the same path, which [locate] takes in a tree; [_rb_next] and [_rb_prev] go
    to the neighbour in order.  What an ordered tree gives is read off the path. *)

From S2P Require Import Prelude StateMonad Rbt RbtTree RbtMem.

(** ** The path *)

(** The place where a search with the comparison [cmp] ends. *)
Fixpoint locate (cmp : Z → Z) (k : ctx) (x : tree) : ctx * tree :=
  match x with
  | Leaf => (k, Leaf)
  | Node c l a r =>
      if cmp a <? 0 then locate cmp (Fr L c a r :: k) l
      else if 0 <? cmp a then locate cmp (Fr R c a l :: k) r
      else (k, x)
  end.

Lemma plug_locate cmp k x : plug (locate cmp k x).1 (locate cmp k x).2 = plug k x.
Proof.
  revert k. induction x as [|c l IHl a r IHr]; intros k; cbn; [done|].
  destruct (cmp a <? 0); [by rewrite IHl|]. destruct (0 <? cmp a); [by rewrite IHr|done].
Qed.

(** The list is in the order of the comparison: greater ones are before the key. *)
Definition cuts (cmp : Z → Z) (l1 m l2 : list Z) : Prop :=
  Forall (λ b, 0 < cmp b) l1 ∧ Forall (λ b, cmp b = 0) m ∧ Forall (λ b, cmp b < 0) l2.

(** A comparison with a key falls along the list. *)
Definition falls (cmp : Z → Z) (l : list Z) : Prop :=
  ∀ l1 a l2, l = l1 ++ a :: l2 →
    (0 ≤ cmp a → Forall (λ b, 0 < cmp b) l1) ∧ (cmp a ≤ 0 → Forall (λ b, cmp b < 0) l2).

(** Where the path ends, all that is before is greater and all that is after less. *)
Lemma locate_cuts cmp k x :
  falls cmp (elems (plug k x)) → Forall (λ b, 0 < cmp b) (before k) → Forall (λ b, cmp b < 0) (after k) →
  let '(k', x') := locate cmp k x in
  match x' with
  | Leaf => cuts cmp (before k') [] (after k')
  | Node _ l a r => cuts cmp (before k' ++ elems l) [a] (elems r ++ after k')
  end.
Proof.
  revert k. induction x as [|c l IHl a r IHr]; intros k Hf Hb Ha; cbn; [by repeat split|].
  destruct (Hf (before k ++ elems l) a (elems r ++ after k)) as [Hge Hle].
  { rewrite elems_plug. cbn. by rewrite <-!app_assoc. }
  destruct (Z.ltb_spec (cmp a) 0) as [Hlt|Hnlt].
  - apply IHl; [done|done|]. cbn. constructor; [done|]. apply Hle. lia.
  - destruct (Z.ltb_spec 0 (cmp a)) as [Hgt|Hngt].
    + apply IHr; [done| |done]. cbn. rewrite app_assoc. apply Forall_app. split; [apply Hge; lia|]. by repeat constructor.
    + split; [apply Hge; lia|]. split; [repeat constructor; lia|apply Hle; lia].
Qed.

(** ** The loops *)

Section find.
Context {D : Type} (t : rb_type D).
Abbreviation RM := (ST (rbmem D)).
Implicit Type (s : rbmem D).

(** The comparison of [key] with the object of an entry. *)
Definition against (key b : Z) : Z := t_compare t key (rb_e2n t b).

Definition first_obj (l : list Z) : Z := match l with [] => 0 | a :: _ => rb_e2n t a end.

(** The side of the last comparison. *)
Definition on_side (k : ctx) (comp : Z) : Prop :=
  match k with Fr L _ _ _ :: _ => comp < 0 | Fr R _ _ _ :: _ => 0 < comp | [] => True end.

Lemma step_down s par c l a r :
  rep (entries s) par (Node c l a r) →
  a ≠ 0 ∧ entries s !! a = Some (RbEntry par (ptr l) (ptr r) (ccode c)) ∧ rep (entries s) a l ∧ rep (entries s) a r.
Proof. done. Qed.

Lemma runs_insert_search s fuel elm par comp k x (Q : Z + (Z * Z) → rbmem D → Prop) :
  rep (entries s) par x → (height x < fuel)%nat →
  (∀ comp', let '(k', x') := locate (against elm) k x in
     on_side k' comp' →
     Q (match x' with Leaf => inr (cpar k', comp') | Node _ _ a _ => inl (rb_e2n t a) end) s) →
  on_side k comp →
  runs (insert_search t fuel elm (cpar k) (ptr x) comp) s Q.
Proof.
  revert fuel par comp k. induction x as [|c l IHl a r IHr]; intros fuel par comp k Hx Hf HQ Hc;
    (destruct fuel as [|fuel]; [cbn in Hf; lia|]); cbn [insert_search ptr].
  - apply runs_ret. by apply (HQ comp).
  - apply step_down in Hx as (Ha & Ea & Hl & Hr). rewrite (proj2 (Z.eqb_neq a 0) Ha).
    cbn in Hf, HQ. change (t_compare t elm (rb_e2n t a)) with (against elm a). destruct (Z.ltb_spec (against elm a) 0) as [Hlt|Hnlt].
    + apply runs_bind, (runs_field rbt_left s a _ _ Ea). cbn [rbt_left]. apply (IHl fuel a _ (Fr L c a r :: k)); [done|lia|done|done].
    + destruct (Z.ltb_spec 0 (against elm a)) as [Hgt|Hngt].
      * apply runs_bind, (runs_field rbt_right s a _ _ Ea). cbn [rbt_right]. apply (IHr fuel a _ (Fr R c a l :: k)); [done|lia|done|done].
      * apply runs_ret. by apply (HQ comp).
Qed.

Lemma runs_find_loop s fuel key par k x (Q : Z → rbmem D → Prop) :
  rep (entries s) par x → (height x < fuel)%nat →
  Q (match (locate (against key) k x).2 with Leaf => 0 | Node _ _ a _ => rb_e2n t a end) s →
  runs (find_loop t fuel key (ptr x)) s Q.
Proof.
  revert fuel par k. induction x as [|c l IHl a r IHr]; intros fuel par k Hx Hf HQ;
    (destruct fuel as [|fuel]; [cbn in Hf; lia|]); cbn [find_loop ptr].
  - by apply runs_ret.
  - apply step_down in Hx as (Ha & Ea & Hl & Hr). rewrite (proj2 (Z.eqb_neq a 0) Ha).
    cbn in Hf, HQ. change (t_compare t key (rb_e2n t a)) with (against key a). destruct (against key a <? 0).
    + apply runs_bind, (runs_field rbt_left s a _ _ Ea). eapply IHl; [done|lia|done].
    + destruct (0 <? against key a); [|by apply runs_ret].
      apply runs_bind, (runs_field rbt_right s a _ _ Ea). eapply IHr; [done|lia|done].
Qed.

Lemma runs_nfind_loop s fuel key par k x (Q : Z → rbmem D → Prop) :
  rep (entries s) par x → (height x < fuel)%nat →
  (let '(k', x') := locate (against key) k x in
   Q (match x' with Leaf => first_obj (after k') | Node _ _ a _ => rb_e2n t a end) s) →
  runs (nfind_loop t fuel key (first_obj (after k)) (ptr x)) s Q.
Proof.
  revert fuel par k. induction x as [|c l IHl a r IHr]; intros fuel par k Hx Hf HQ;
    (destruct fuel as [|fuel]; [cbn in Hf; lia|]); cbn [nfind_loop ptr].
  - by apply runs_ret.
  - apply step_down in Hx as (Ha & Ea & Hl & Hr). rewrite (proj2 (Z.eqb_neq a 0) Ha).
    cbn in Hf, HQ. change (t_compare t key (rb_e2n t a)) with (against key a). destruct (against key a <? 0).
    + apply runs_bind, (runs_field rbt_left s a _ _ Ea). apply (IHl fuel a (Fr L c a r :: k)); [done|lia|done].
    + destruct (0 <? against key a); [|by apply runs_ret].
      apply runs_bind, (runs_field rbt_right s a _ _ Ea). apply (IHr fuel a (Fr R c a l :: k)); [done|lia|done].
Qed.

(** ** Walking *)

(** The two directions of the code, by side. *)
Definition climb (d : side) (fuel : nat) (rbe : Z) : RM Z :=
  match d with L => climb_left fuel rbe | R => climb_right fuel rbe end.
Definition extreme (d : side) (fuel : nat) (rbe : Z) : RM Z :=
  match d with L => leftmost fuel rbe | R => rightmost fuel rbe end.
Definition end_loop (d : side) (fuel : nat) (parent rbe : Z) : RM Z :=
  match d with L => min_loop fuel parent rbe | R => max_loop fuel parent rbe end.
Definition walk (d : side) (elm : Z) : RM Z := match d with L => _rb_prev t elm | R => _rb_next t elm end.

Lemma climb_S d fuel rbe :
  climb d (S fuel) rbe =
    (p ← RBE_PARENT rbe;
     if p =? 0 then mret rbe
     else r ← RBE_CHILD d p; if rbe =? r then climb d fuel p else mret rbe).
Proof. by destruct d. Qed.
Lemma extreme_S d fuel rbe :
  extreme d (S fuel) rbe = (tmp ← RBE_CHILD d rbe; if negb (tmp =? 0) then extreme d fuel tmp else mret rbe).
Proof. by destruct d. Qed.
Lemma end_loop_S d fuel parent rbe :
  end_loop d (S fuel) parent rbe =
    (if rbe =? 0 then mret parent else l ← RBE_CHILD d rbe; end_loop d fuel rbe l).
Proof. by destruct d. Qed.
Lemma walk_sided d elm :
  walk d elm =
    (n ← turns;
     r ← RBE_CHILD d (rb_n2e t elm);
     rbe ← (if negb (r =? 0) then extreme (flip d) n r
            else
              p ← RBE_PARENT (rb_n2e t elm);
              l ← (if negb (p =? 0) then l ← RBE_CHILD (flip d) p; mret (rb_n2e t elm =? l) else mret false);
              if (l : bool) then mret p
              else rbe ← climb d n (rb_n2e t elm); RBE_PARENT rbe);
     mret (e2n_or_null t rbe)).
Proof. by destruct d. Qed.

(** The end of a list towards a side, and the part of a tree beyond a node, where [y]
    is the subtree of the node on that side. *)
Definition first_of (d : side) (l : list Z) : option Z := match d with L => head l | R => last l end.
Definition beyond (d : side) (k : ctx) (y : tree) : list Z :=
  match d with L => before k ++ elems y | R => elems y ++ after k end.

Lemma first_of_node d c u b v : first_of d (elems (node d c u b v)) = match first_of d (elems u) with Some x => Some x | None => Some b end.
Proof.
  destruct d; cbn.
  - by destruct (elems u).
  - rewrite last_app_cons, last_cons. done.
Qed.
Lemma first_of_beyond d k y : y ≠ Leaf → first_of (flip d) (beyond d k y) = first_of (flip d) (elems y).
Proof.
  destruct y as [|c l a r]; [done|]. intros _. destruct d; cbn.
  - rewrite last_app, !last_app_cons. by destruct (last (a :: elems r)) eqn:E; [|apply last_None in E].
  - by destruct (elems l).
Qed.
Lemma first_of_climb d d' c g sib k :
  first_of (flip d) (beyond d (Fr d' c g sib :: k) Leaf) =
    if decide (d' = d) then first_of (flip d) (beyond d k Leaf) else Some g.
Proof. destruct d, d'; cbn; try done. rewrite app_nil_r, app_assoc. by rewrite last_snoc. Qed.

Lemma runs_extreme d s fuel par x (Q : Z → rbmem D → Prop) :
  rep (entries s) par x → x ≠ Leaf → (height x ≤ fuel)%nat →
  (∀ b, first_of d (elems x) = Some b → Q b s) → runs (extreme d fuel (ptr x)) s Q.
Proof.
  revert fuel par. induction x as [|c l IHl a r IHr]; intros fuel par Hx Hne Hf HQ; [done|]. clear Hne.
  destruct fuel as [|fuel]; [cbn in Hf; lia|]. rewrite extreme_S. destruct Hx as (Ha & Ea & Hl & Hr). cbn in Hf.
  apply runs_bind, (runs_child d s a _ _ Ea).
  assert (∀ u v, Node c l a r = node d c u a v → rep (entries s) a u →
    (u ≠ Leaf → (∀ b, first_of d (elems u) = Some b → Q b s) → runs (extreme d fuel (ptr u)) s Q) →
    runs (if negb (ptr u =? 0) then extreme d fuel (ptr u) else mret a) s Q) as Hgen.
  { intros u v E Hu IH. rewrite E, first_of_node in HQ. destruct (decide (ptr u = 0)) as [E0|E0].
    - rewrite E0. apply runs_ret, HQ. assert (u = Leaf) as -> by (destruct u; [done|by destruct Hu]). by destruct d.
    - rewrite (proj2 (Z.eqb_neq _ 0) E0). apply IH; [by intros ->|]. intros b Hb. apply HQ. by rewrite Hb. }
  destruct d; cbn [child_of rbt_left rbt_right].
  - apply (Hgen l r); [done..|]. intros Hne HQ'. apply (IHl fuel a); [done|done|lia|done].
  - apply (Hgen r l); [done..|]. intros Hne HQ'. apply (IHr fuel a); [done|done|lia|done].
Qed.

Lemma runs_end_loop d s fuel par parent x (Q : Z → rbmem D → Prop) :
  rep (entries s) par x → (height x < fuel)%nat →
  Q (default parent (first_of d (elems x))) s → runs (end_loop d fuel parent (ptr x)) s Q.
Proof.
  revert fuel par parent. induction x as [|c l IHl a r IHr]; intros fuel par parent Hx Hf HQ;
    (destruct fuel as [|fuel]; [cbn in Hf; lia|]); rewrite end_loop_S.
  - apply runs_ret. by destruct d.
  - destruct Hx as (Ha & Ea & Hl & Hr). cbn [ptr]. rewrite (proj2 (Z.eqb_neq a 0) Ha). cbn [height] in Hf.
    apply runs_bind, (runs_child d s a _ _ Ea). destruct d; cbn [child_of rbt_left rbt_right].
    + apply (IHl fuel a); [done|lia|]. change (Node c l a r) with (node L c l a r) in HQ. rewrite first_of_node in HQ.
      by destruct (first_of L (elems l)).
    + apply (IHr fuel a); [done|lia|]. change (Node c l a r) with (node R c r a l) in HQ. rewrite first_of_node in HQ.
      by destruct (first_of R (elems r)).
Qed.

(** From the root of a subtree, climbing ends at the next entry above. *)
Lemma runs_climb m0 s d fuel k x (Q : Z → rbmem D → Prop) :
  holds m0 s (plug k x) → x ≠ Leaf → (length k < fuel)%nat →
  Q (default 0 (first_of (flip d) (beyond d k Leaf))) s →
  runs (rbe ← climb d fuel (ptr x); RBE_PARENT rbe) s Q.
Proof.
  revert fuel x. induction k as [|[d' c g sib] k IH]; intros fuel x H Hx Hf HQ;
    (destruct fuel as [|fuel]; [cbn in Hf; lia|]); (destruct x as [|cx l a r]; [done|]); rewrite climb_S; cbn [ptr].
  - apply runs_bind, runs_bind, (runs_parent m0 s [] L cx l a r); [done|]. cbn. apply runs_ret.
    apply (runs_parent m0 s [] L cx l a r); [done|]. by destruct d.
  - assert (g ≠ 0) as Hg by exact (an_nz _ _ _ _ _ _ _ (holds_node m0 s k d' c (Node cx l a r) g sib H)).
    apply runs_bind, runs_bind, (runs_parent m0 s (Fr d' c g sib :: k) L cx l a r); [done|]. cbn [cpar f_entry].
    rewrite (proj2 (Z.eqb_neq g 0) Hg). rewrite first_of_climb in HQ. destruct (decide (d' = d)) as [->|Hd].
    + apply runs_bind, (runs_near m0 s k d c (Node cx l a r) g sib); [done|]. cbn [ptr]. rewrite Z.eqb_refl.
      cbn in Hf. pose proof (IH fuel (fill (Fr d c g sib) (Node cx l a r)) H ltac:(by destruct d) ltac:(lia) HQ) as Hr.
      unfold fill in Hr. cbn [f_side f_color f_entry f_sib] in Hr. rewrite ptr_at_node in Hr.
      destruct Hr as (b & s' & Hb & HQb). unfold mbind, ST_bind in Hb.
      destruct (climb d fuel g s) as [[e s1]|] eqn:Ec; [|done]. exists e, s1. split; [done|]. by exists b, s'.
    + assert (d = flip d') as -> by (by destruct d, d').
      apply runs_bind, (runs_far m0 s k d' c (Node cx l a r) g sib); [done|].
      rewrite (proj2 (Z.eqb_neq a (ptr sib))); [|apply not_eq_sym, (holds_ne m0 s k d' c (Node cx l a r) g sib); done].
      apply runs_ret, (runs_parent m0 s (Fr d' c g sib :: k) L cx l a r); [done|]. done.
Qed.

(** The object of an entry, where there is one. *)
Definition obj (o : option Z) : Z := match o with Some b => rb_e2n t b | None => 0 end.

Lemma e2n_default l d m0 s T : holds m0 s T → (∀ b, b ∈ l → b ∈ elems T) →
  e2n_or_null t (default 0 (first_of d l)) = obj (first_of d l).
Proof.
  intros H Hin. destruct (first_of d l) as [b|] eqn:E; [|done]. cbn. unfold e2n_or_null.
  assert (b ∈ l) as Hb by (destruct d; cbn in E; [by apply head_Some_elem_of|by apply last_Some_elem_of]).
  destruct (rep_dom _ _ _ _ (h_rep _ _ _ H) (Hin _ Hb)) as [_ Hnz]. by rewrite (proj2 (Z.eqb_neq b 0) Hnz).
Qed.

Lemma beyond_elems d k c y a x b : b ∈ beyond d k y → b ∈ elems (plug k (node d c y a x)).
Proof. rewrite elems_plug. destruct d; cbn; set_solver. Qed.

Lemma runs_neighbour m0 s k d c y a x elm (Q : Z → rbmem D → Prop) :
  holds m0 s (plug k (node d c y a x)) → rb_n2e t elm = a →
  Q (obj (first_of (flip d) (beyond d k y))) s → runs (walk d elm) s Q.
Proof.
  intros H Hn HQ. rewrite walk_sided, Hn. pose proof (holds_node _ _ _ _ _ _ _ _ H) as [_ Hy _ _ Ha _].
  rewrite <-(e2n_default _ _ m0 s _ H (λ b, beyond_elems d k c y a x b)) in HQ.
  apply runs_bind, (runs_turns m0 s k (node d c y a x)); [done|]. intros n Hk _ Hlen.
  apply runs_bind, (runs_near m0 s k d c y a x); [done|].
  apply runs_bind, (runs_mono _ _ (λ b s', s' = s ∧ b = default 0 (first_of (flip d) (beyond d k y))));
    [|intros b s' [-> ->]; by apply runs_ret].
  destruct (Z.eqb_spec (ptr y) 0) as [E|E]; cbn [negb].
  - assert (y = Leaf) as -> by (destruct y; [done|by destruct Hy]). clear E.
    apply runs_bind, (runs_parent m0 s k d c Leaf a x); [done|]. destruct k as [|[d' c' g sib] k].
    + apply runs_bind, runs_ret. rewrite <-(ptr_at_node d c Leaf a x). apply (runs_climb m0 s d n []); [done|by destruct d|done|done].
    + assert (g ≠ 0) as Hg by exact (an_nz _ _ _ _ _ _ _ (holds_node m0 s k d' c' (node d c Leaf a x) g sib H)).
      cbn [cpar f_entry]. rewrite (proj2 (Z.eqb_neq g 0) Hg). cbn [negb]. destruct (decide (d' = d)) as [->|Hd].
      * apply runs_bind, runs_bind, (runs_far m0 s k d c' (node d c Leaf a x) g sib); [done|].
        pose proof (holds_ne m0 s k d c' (node d c Leaf a x) g sib H ltac:(by destruct d)) as Hne. rewrite ptr_at_node in Hne.
        apply runs_ret. rewrite (proj2 (Z.eqb_neq a (ptr sib)) (not_eq_sym Hne)).
        rewrite <-(ptr_at_node d c Leaf a x). apply (runs_climb m0 s d n (Fr d c' g sib :: k)); [done|by destruct d|done|done].
      * assert (d' = flip d) as -> by (by destruct d, d'). rewrite first_of_climb.
        apply runs_bind, runs_bind, (runs_near m0 s k (flip d) c' (node d c Leaf a x) g sib); [done|].
        rewrite ptr_at_node, Z.eqb_refl. apply runs_ret, runs_ret. by destruct d.
  - assert (y ≠ Leaf) as Hne by (by intros ->).
    rewrite (first_of_beyond d k y Hne). apply (runs_extreme _ s n a y); [done|done| |intros b ->; done].
    pose proof (height_elems y) as Hh. rewrite (elems_plug_perm k _), (elems_node d c y a x) in Hlen. cbn in Hlen.
    rewrite !length_app in Hlen. lia.
Qed.
End find.
