(* ===== verification/RbtIns.v ===== *)
(** Insertion: the loop that removes a red node under a red node, and the whole of
    [_rb_insert], on the trees that the entries represent. *)

From S2P Require Import Prelude StateMonad Rbt RbtTree RbtMem RbtFind.

Section insert.
Context {D : Type} (t : rb_type D).
Abbreviation RM := (ST (rbmem D)).
Implicit Type (s : rbmem D).

(** ** The loop *)

(** One turn, by the side of the parent under the grandparent. *)
Definition insert_turn (d : side) (fuel : nat) (rbe parent gparent : Z) : RM () :=
  tmp ← RBE_CHILD (flip d) gparent;
  tred ← is_red tmp;
  if (tred : bool) then
    set_color tmp RB_BLACK;;
    rbe_set_blackred parent gparent;;
    insert_loop t fuel gparent
  else
    pr ← RBE_CHILD (flip d) parent;
    '(parent, rbe) ← (if pr =? rbe then rotate t d parent;; mret (rbe, parent) else mret (parent, rbe));
    rbe_set_blackred parent gparent;;
    rotate t (flip d) gparent;;
    insert_loop t fuel rbe.

Lemma insert_loop_S fuel rbe :
  insert_loop t (S fuel) rbe =
    (parent ← RBE_PARENT rbe;
     red ← is_red parent;
     if negb red then mret tt
     else
       gparent ← RBE_PARENT parent;
       gl ← RBE_LEFT gparent;
       if parent =? gl then insert_turn L fuel rbe parent gparent else insert_turn R fuel rbe parent gparent).
Proof. done. Qed.

(** The node at the hole is red, and so may its parent be: nothing else is wrong. *)
Record ins_inv (k : ctx) (x : tree) : Prop := {
  ii_red : tcol x = Red;
  ii_tree : nored x;
  ii_ctx : cnored k Black;
  ii_root : croot k Black;
  ii_bal : ∃ n, bal x n ∧ cbal k n;
}.

(** What the loop leaves: a red-black tree but for the colour of the root. *)
Record ins_done (T T' : tree) : Prop := {
  id_nored : nored T';
  id_bal : ∃ n, bal T' n;
  id_elems : elems T' = elems T;
}.

(** The parent is black or there is none: the loop ends. *)
Lemma insert_loop_stop m0 s fuel k d c x a y (Q : () → rbmem D → Prop) :
  (fuel ≠ 0)%nat → holds m0 s (plug k (node d c x a y)) →
  ccol k = Black → Q tt s → runs (insert_loop t fuel a) s Q.
Proof.
  intros Hf H Hk HQ. destruct fuel as [|fuel]; [done|]. rewrite insert_loop_S.
  apply runs_bind, (runs_parent m0 s k d c x a y); [done|]. apply runs_bind.
  destruct k as [|[d1 c1 p sib] k]; [by apply runs_ret, runs_ret|].
  apply (runs_is_red_node m0 s k d1 c1 (node d c x a y) p sib); [done|]. cbn in Hk. subst c1. by apply runs_ret.
Qed.

(** The two rotations end with a black node over two red ones. *)
Lemma insert_rotate m0 s fuel k d d1 x a y p z g u (Q : () → rbmem D → Prop) :
  (fuel ≠ 0)%nat →
  holds m0 s (plug k (node d Black (node d Red (node d1 Red x a y) p z) g u)) →
  (∀ s', holds m0 s' (plug k (node d Black (node d1 Red x a y) p (node d Red z g u))) → Q tt s') →
  runs (rbe_set_blackred p g;; rotate t (flip d) g;; insert_loop t fuel a) s Q.
Proof.
  intros Hf H HQ. apply runs_bind, (runs_blackred m0 s k d Red d Black (node d1 Red x a y) p z g u); [done|].
  intros s1 H1.
  apply runs_bind, (runs_rotate t m0 s1 k (flip d) Red u g Black z p (node d1 Red x a y)); [by rewrite !node_flip|].
  intros s2 H2. rewrite !node_flip in H2.
  apply (insert_loop_stop m0 s2 fuel (Fr d Black p (node d Red z g u) :: k) d1 Red x a y); [done..|]. by apply HQ.
Qed.
(** The uncle is black: one rotation or two. *)
Lemma insert_black m0 s fuel k d1 d2 x p sib g u (Q : () → rbmem D → Prop) :
  (fuel ≠ 0)%nat → ins_inv (Fr d1 Red p sib :: Fr d2 Black g u :: k) x → tcol u = Black →
  holds m0 s (plug (Fr d1 Red p sib :: Fr d2 Black g u :: k) x) →
  (∀ s' T, holds m0 s' T → ins_done (plug (Fr d1 Red p sib :: Fr d2 Black g u :: k) x) T → Q tt s') →
  runs (insert_turn d2 fuel (ptr x) p g) s Q.
Proof.
  intros Hf [Hred Hx Hk Hroot (n & Hb & Hkb)] Hu H HQ. cbn in Hk, Hroot, Hkb.
  destruct Hkb as (Hbs & Hbu & Hkb), Hk as (Hs & Hns & _ & Hnu & Hk). destruct (Hs eq_refl) as [_ Hsb].
  assert (∃ c l a r, x = Node c l a r) as (c & l & a & r & ->) by (destruct x; [done|eauto]). cbn in Hred. subst c.
  unfold insert_turn. apply runs_bind.
  apply (runs_far m0 s k d2 Black (node d1 Red (Node Red l a r) p sib) g u); [done|].
  apply runs_bind, (runs_is_red m0 s (Fr (flip d2) Black g (node d1 Red (Node Red l a r) p sib) :: k) u).
  { by rewrite plug_far. }
  rewrite Hu. cbn [bool_decide decide]. rewrite bool_decide_eq_false_2 by done.
  destruct (decide (d1 = d2)) as [->|Hd].
  - apply runs_bind, (runs_far m0 s (Fr d2 Black g u :: k) d2 Red (Node Red l a r) p sib); [done|].
    rewrite (proj2 (Z.eqb_neq (ptr sib) (ptr (Node Red l a r)))); [|by apply (holds_ne m0 s (Fr d2 Black g u :: k) d2 Red (Node Red l a r) p sib)].
    apply runs_bind, runs_ret.
    apply (insert_rotate m0 s fuel k d2 L l a r p sib g u); [done..|]. intros s' H'. eapply HQ; [exact H'|]. split.
    + apply nored_plug. rewrite !nored_node, !tcol_node. naive_solver.
    + apply bal_plug. exists (S n). split; [|done]. apply (bal_node d2 Black _ _ _ n). split; [done|].
      by apply (bal_node d2 Red _ _ _ n).
    + apply (elems_plug_same k). unfold fill. destruct d2; in_order.
  - assert (d1 = flip d2) as -> by (by destruct d1, d2). clear Hd.
    assert (∃ xl xr, Node Red l a r = node d2 Red xl a xr) as (xl & xr & E) by (destruct d2; [by exists l, r|by exists r, l]).
    rewrite E in *. clear E l r.
    apply runs_bind, (runs_near m0 s (Fr d2 Black g u :: k) (flip d2) Red (node d2 Red xl a xr) p sib); [done|].
    rewrite ptr_at_node, Z.eqb_refl. apply runs_bind, runs_bind.
    apply (runs_rotate t m0 s (Fr d2 Black g u :: k) d2 Red sib p Red xl a xr); [by rewrite <-(node_flip d2 Red _ p sib)|].
    intros s1 H1. apply runs_ret.
    apply (insert_rotate m0 s1 fuel k d2 d2 sib p xl a xr g u); [done..|]. intros s' H'. eapply HQ; [exact H'|].
    apply nored_node in Hx as (Hc & Hnl & Hnr). apply (bal_node d2 Red _ _ _ n) in Hb as [Hbl Hbr].
    destruct (Hc eq_refl) as [Hcl Hcr]. split.
    + apply nored_plug. rewrite !nored_node, !tcol_node. naive_solver.
    + apply bal_plug. exists (S n). split; [|done]. apply (bal_node d2 Black _ _ _ n).
      by split; apply (bal_node d2 Red _ _ _ n).
    + apply (elems_plug_same k). unfold fill. destruct d2; in_order.
Qed.

(** The uncle is red: the colours change and the loop goes on at the grandparent. *)
Lemma ins_inv_recolour k d1 d2 x p sib g u :
  ins_inv (Fr d1 Red p sib :: Fr d2 Black g u :: k) x → tcol u = Red →
  ins_inv k (node d2 Red (node d1 Black x p sib) g (paint Black u)).
Proof.
  intros [Hred Hx Hk Hroot (n & Hb & Hkb)] Hu. cbn in Hk, Hroot, Hkb.
  destruct Hkb as (Hbs & Hbu & Hkb), Hk as (Hs & Hns & _ & Hnu & Hk). split; [by rewrite tcol_node| |done|done|].
  - rewrite !nored_node, tcol_node, tcol_paint. split; [done|]. split; [naive_solver|]. by apply nored_paint.
  - exists (S n). split; [|done]. apply (bal_node d2 Red _ _ _ (S n)). split; [by apply (bal_node d1 Black _ _ _ n)|].
    destruct u as [|[] l a r]; [done| |done]. done.
Qed.

Lemma runs_insert_loop m0 s fuel k x (Q : () → rbmem D → Prop) :
  (length k < fuel)%nat → ins_inv k x → holds m0 s (plug k x) →
  (∀ s' T, holds m0 s' T → ins_done (plug k x) T → Q tt s') → runs (insert_loop t fuel (ptr x)) s Q.
Proof.
  revert s k x. induction fuel as [|fuel IH]; intros s k x Hf Hinv H HQ; [lia|].
  assert (∃ l a r, x = node L Red l a r) as (l & a & r & Ex).
  { destruct Hinv as [Hred _ _ _ _]. destruct x as [|[] l a r]; try done. by exists l, a, r. }
  destruct (decide (ccol k = Black)) as [Hstop|Hgo].
  { subst x. rewrite ptr_at_node. apply (insert_loop_stop m0 s (S fuel) k L Red l a r); [done..|].
    eapply HQ; [exact H|]. destruct Hinv as [_ Hx Hk _ Hb]. split; [|by apply bal_plug|done].
    apply nored_plug. split; [done|]. destruct k as [|[d c p sib] k]; [done|]. cbn in Hstop. subst c. cbn in Hk |- *. naive_solver. }
  destruct k as [|[d1 [] p sib] k]; [done| |done]. clear Hgo.
  pose proof Hinv as [_ _ Hk Hroot _]. cbn in Hk, Hroot. destruct k as [|[d2 c2 g u] k]; [done|].
  assert (c2 = Black) as -> by (destruct c2; naive_solver).
  rewrite insert_loop_S. rewrite Ex at 1. rewrite ptr_at_node.
  apply runs_bind, (runs_parent m0 s (Fr d1 Red p sib :: Fr d2 Black g u :: k) L Red l a r); [by rewrite <-Ex|].
  apply runs_bind, (runs_is_red_node m0 s (Fr d2 Black g u :: k) d1 Red x p sib); [done|]. cbn [negb bool_decide decide].
  apply runs_bind, (runs_parent m0 s (Fr d2 Black g u :: k) d1 Red x p sib); [done|]. cbn [cpar f_entry].
  assert (runs (insert_turn d2 fuel (ptr x) p g) s Q) as Hturn.
  { cbn in Hf. destruct (tcol u) eqn:Hu; [|eapply insert_black; eauto; lia].
    pose proof (ins_inv_recolour _ _ _ _ _ _ _ _ Hinv Hu) as Hinv'.
    destruct u as [|[] ul ua ur]; try done. unfold insert_turn.
    apply runs_bind, (runs_far m0 s k d2 Black (node d1 Red x p sib) g (Node Red ul ua ur)); [done|].
    cbn [ptr]. apply runs_bind, (runs_is_red_node m0 s (Fr (flip d2) Black g (node d1 Red x p sib) :: k) L Red ul ua ur).
    { rewrite plug_far. done. }
    cbn. apply runs_bind, (runs_paint m0 s (Fr (flip d2) Black g (node d1 Red x p sib) :: k) L Red Black ul ua ur).
    { rewrite plug_far. done. }
    intros s1 H1. rewrite plug_far in H1.
    apply runs_bind, (runs_blackred m0 s1 k d1 Red d2 Black x p sib g (Node Black ul ua ur)); [done|]. intros s2 H2.
    rewrite <-(ptr_at_node d2 Red (node d1 Black x p sib) g (paint Black (Node Red ul ua ur))).
    apply (IH s2 k); [lia|done|done|]. intros s' T' H' [Hn Hb He]. eapply HQ; [exact H'|]. split; [done..|].
    rewrite He. apply (elems_plug_same k). unfold fill. destruct d1, d2; in_order. }
  apply runs_bind. destruct d2.
  - apply (runs_near m0 s k L Black (node d1 Red x p sib) g u); [done|]. rewrite ptr_at_node, Z.eqb_refl. done.
  - apply (runs_far m0 s k R Black (node d1 Red x p sib) g u); [done|].
    rewrite (proj2 (Z.eqb_neq p (ptr u))); [done|]. rewrite <-(ptr_at_node d1 Red x p sib). apply not_eq_sym.
    apply (holds_ne m0 s k R Black (node d1 Red x p sib) g u); [done|by destruct d1].
Qed.

(** ** The entry joins the tree *)

Lemma runs_insert_color m0 s k x (Q : () → rbmem D → Prop) :
  ins_inv k x → holds m0 s (plug k x) →
  (∀ s' T, holds m0 s' T → rb T → elems T = elems (plug k x) → Q tt s') →
  runs (rbe_insert_color t (ptr x)) s Q.
Proof.
  intros Hinv H HQ. apply runs_bind, (runs_turns m0 s k x); [done|]. intros n Hn _ _.
  apply runs_bind, (runs_insert_loop m0 s n k x); [done..|]. intros s1 T H1 [Hn1 [nb Hb1] He].
  apply runs_bind, runs_gets. rewrite (h_root _ _ _ H1).
  assert (∃ c l a r, T = node L c l a r) as (c & l & a & r & ->).
  { destruct T as [|c l a r]; [|by exists c, l, a, r]. destruct Hinv as [Hred _ _ _ _]. exfalso.
    apply (f_equal length) in He. rewrite (elems_plug_perm k x), length_app in He. destruct x as [|c l a r]; [done|].
    cbn in He. rewrite length_app in He. cbn in He. lia. }
  rewrite ptr_at_node. apply (runs_paint m0 s1 [] L c Black l a r); [done|]. intros s2 H2. apply (HQ s2 _ H2).
  - by apply (rb_paint (node L c l a r) nb).
  - by rewrite <-He.
Qed.

Lemma runs_rbe_set s a p (Q : () → rbmem D → Prop) :
  is_Some (entries s !! a) → Q tt (set_entries (<[a := RbEntry p 0 0 RB_RED]> (entries s)) s) → runs (rbe_set a p) s Q.
Proof.
  intros Ha HQ. apply runs_bind, runs_upd_entry; [done|].
  apply runs_bind, runs_upd_entry; [cbn; by rewrite lookup_alter_eq, fmap_is_Some|].
  apply runs_bind, runs_upd_entry; [cbn; by rewrite !lookup_alter_eq, !fmap_is_Some|].
  apply runs_upd_entry; [cbn; by rewrite !lookup_alter_eq, !fmap_is_Some|].
  replace (set_entries (alter _ a _) _) with (set_entries (<[a := RbEntry p 0 0 RB_RED]> (entries s)) s); [done|].
  unfold set_entries. cbn. f_equal. destruct Ha as [e He]. apply map_eq. intros q. destruct (decide (q = a)) as [->|Hq].
  - by rewrite !lookup_alter_eq, lookup_insert_eq, He.
  - by rewrite !lookup_alter_ne, lookup_insert_ne.
Qed.

(** The links of a new leaf. *)
Lemma runs_attach {A} m0 s k a comp (K : RM A) (Q : A → rbmem D → Prop) :
  holds m0 s (plug k Leaf) → a ≠ 0 → is_Some (entries s !! a) → a ∉ celems k → on_side k comp →
  (∀ s', holds m0 s' (plug k (Node Red Leaf a Leaf)) → runs K s' Q) →
  runs (rbe_set a (cpar k);;
        (if negb (cpar k =? 0) then
           (if comp <? 0 then set_left (cpar k) a else set_right (cpar k) a);;
           rbe_if_augment t (cpar k)
         else set_root a);; K) s Q.
Proof.
  intros [Hr Hrep Hnd Hout] Ha Has Hnot Hc HK. apply rep_plug in Hrep as [_ Hk]. rewrite (elems_plug_perm k Leaf) in Hnd. cbn in Hk, Hnd.
  apply runs_bind, runs_rbe_set; [done|]. set (m1 := <[a := _]> (entries s)).
  assert (crep m1 0 k) as Hk1.
  { eapply crep_same; [|exact Hk]. intros q Hq. subst m1. rewrite lookup_insert_ne; [done|]. by intros ->. }
  assert (∀ g : D, holds m0 (RbMem (link_root k a (rbt_root s)) (link k a m1) g) (plug k (Node Red Leaf a Leaf))) as Hfin.
  { intros g. split; cbn.
    - rewrite Hr. apply (link_root_plug k Leaf (Node Red Leaf a Leaf)).
    - apply rep_plug. cbn. split; [|by apply (crep_link _ 0)]. split_and!; try done.
      rewrite lookup_link_ne by done. subst m1. by rewrite lookup_insert_eq.
    - rewrite (elems_plug_perm k _). cbn. by constructor.
    - intros q Hq. rewrite (elems_plug_perm k _) in Hq. cbn in Hq. rewrite lookup_link_ne by set_solver. subst m1.
      rewrite lookup_insert_ne by set_solver. apply Hout. rewrite (elems_plug_perm k Leaf). cbn. set_solver. }
  apply runs_bind. destruct k as [|[d c g sib] k]; [by apply runs_modify, HK, Hfin|].
  pose proof Hk1 as (Hg & Eg & _). cbn [cpar f_entry]. rewrite (proj2 (Z.eqb_neq g 0) Hg). cbn [negb].
  assert ((if comp <? 0 then set_left g a else set_right g a) = set_child d g a) as ->.
  { cbn in Hc. destruct d; [by rewrite (proj2 (Z.ltb_lt comp 0) Hc)|]. by rewrite (proj2 (Z.ltb_ge comp 0)) by lia. }
  apply runs_bind, runs_set_child; [by eexists|]. apply runs_if_augment. intros [r m x] [Hr' Hm]. cbn in Hr', Hm. subst r m.
  apply HK, (Hfin x).
Qed.

(** The root has black above it; a new red leaf fits in a red-black tree. *)
Lemma ins_inv_leaf k a : rb (plug k Leaf) → ins_inv k (Node Red Leaf a Leaf).
Proof.
  intros (Hroot & _ & Hk & n & Hb & Hkb)%rb_plug. split; [done|done|done|done|]. exists n. split; [|done]. by destruct n.
Qed.

Lemma runs_rb_insert m0 s T elm (Q : Z → rbmem D → Prop) :
  holds m0 s T → rb T → rb_n2e t elm ≠ 0 → is_Some (entries s !! rb_n2e t elm) →
  (let '(k, x) := locate (against t elm) [] T in
   match x with
   | Leaf => rb_n2e t elm ∉ celems k ∧
       ∀ s' T', holds m0 s' T' → rb T' → elems T' = before k ++ rb_n2e t elm :: after k → Q 0 s'
   | Node _ _ b _ => Q (rb_e2n t b) s
   end) → runs (_rb_insert t elm) s Q.
Proof.
  intros H Hrb Ha Has HQ. unfold _rb_insert. apply runs_bind, runs_gets. rewrite (h_root _ _ _ H).
  apply runs_bind, (runs_turns m0 s [] T); [done|]. intros n _ Hn _. apply runs_bind.
  apply (runs_insert_search t s n elm 0 0 [] T); [by apply h_rep in H|done| |done]. intros comp.
  pose proof (plug_locate (against t elm) [] T) as Hplug. destruct (locate (against t elm) [] T) as [k x]. cbn in Hplug. intros Hc.
  destruct x as [|c l b r]; [|by apply runs_ret]. destruct HQ as [Hnot HQ]. rewrite <-Hplug in H, Hrb. cbn [plug] in H, Hrb.
  apply (runs_attach m0 s k (rb_n2e t elm) comp); [done..|]. intros s1 H1.
  apply runs_bind, (runs_insert_color m0 s1 k (Node Red Leaf (rb_n2e t elm) Leaf)); [by apply ins_inv_leaf|done|].
  intros s2 T2 H2 Hrb2 He2. apply runs_ret, (HQ s2 T2 H2 Hrb2). by rewrite He2, elems_plug.
Qed.
End insert.
