(* ===== verification/RbtDel.v ===== *)
(** Removal: the loop that restores the black heights, and the whole of [rbe_remove],
    on the trees that the entries represent. *)

From S2P Require Import Prelude StateMonad Rbt RbtTree RbtMem RbtFind.

Section remove.
Context {D : Type} (t : rb_type D).
Abbreviation RM := (ST (rbmem D)).
Implicit Type (s : rbmem D).

(** ** The loop *)

(** The last case: the far nephew of the hole is red. *)
Definition remove_last (d : side) (parent tmp : Z) : RM Z :=
  c ← RBE_COLOR parent;
  set_color tmp c;;
  set_color parent RB_BLACK;;
  far ← RBE_CHILD (flip d) tmp;
  (if negb (far =? 0) then set_color far RB_BLACK else mret tt);;
  rotate t d parent;;
  RBH_ROOT.

(** One turn once the sibling is black. *)
Definition remove_black (d : side) (fuel : nat) (parent tmp : Z) : RM Z :=
  l ← RBE_LEFT tmp; lb ← is_black l;
  r ← RBE_RIGHT tmp; rb ← is_black r;
  if (lb : bool) && (rb : bool) then
    set_color tmp RB_RED;;
    let rbe := parent in
    parent ← RBE_PARENT rbe;
    remove_loop t fuel parent rbe
  else
    tmp ← (if (match d with L => rb | R => lb end : bool) then
             near ← RBE_CHILD d tmp;
             (if negb (near =? 0) then set_color near RB_BLACK else mret tt);;
             set_color tmp RB_RED;;
             rotate t (flip d) tmp;;
             RBE_CHILD (flip d) parent
           else mret tmp);
    remove_last d parent tmp.

(** One turn, by the side of the hole. *)
Definition remove_turn (d : side) (fuel : nat) (parent : Z) : RM Z :=
  tmp ← RBE_CHILD (flip d) parent;
  c ← RBE_COLOR tmp;
  tmp ← (if c =? RB_RED then
           rbe_set_blackred tmp parent;;
           rotate t d parent;;
           RBE_CHILD (flip d) parent
         else mret tmp);
  remove_black d fuel parent tmp.

Lemma remove_loop_S fuel parent rbe :
  remove_loop t (S fuel) parent rbe =
    (black ← is_black rbe;
     root ← RBH_ROOT;
     if negb ((black : bool) && negb (rbe =? root)) then mret rbe
     else
       pl ← RBE_LEFT parent;
       if pl =? rbe then remove_turn L fuel parent else remove_turn R fuel parent).
Proof. done. Qed.

(** The subtree at the hole is one black node short. *)
Record rem_inv (k : ctx) (x : tree) : Prop := {
  ri_tree : nored (paint Black x);
  ri_ctx : cnored k Black;
  ri_root : croot k Black;
  ri_bal : ∃ n, bal x n ∧ cbal k (S n);
}.

(** What the loop leaves: painting the entry it returns makes all well. *)
Record rem_done (T : tree) (k : ctx) (x : tree) : Prop := {
  rd_rb : rb (plug k (paint Black x));
  rd_elems : elems (plug k x) = elems T;
}.

(** The entry at the hole is red, or the root: the loop ends. *)
Lemma remove_loop_stop m0 s fuel k x par (Q : Z → rbmem D → Prop) :
  (fuel ≠ 0)%nat → holds m0 s (plug k x) → tcol x = Red ∨ k = [] → Q (ptr x) s → runs (remove_loop t fuel par (ptr x)) s Q.
Proof.
  intros Hf H Hx HQ. destruct fuel as [|fuel]; [done|]. rewrite remove_loop_S.
  apply runs_bind, (runs_is_black m0 s k x); [done|]. apply runs_bind, runs_gets. rewrite (h_root _ _ _ H).
  destruct Hx as [-> | ->]; [by apply runs_ret|]. cbn [plug]. rewrite Z.eqb_refl, andb_false_r. by apply runs_ret.
Qed.

Lemma rem_inv_done k x : rem_inv k x → tcol x = Red ∨ k = [] → rem_done (plug k x) k x.
Proof.
  intros [Ht Hk Hroot (n & Hb & Hkb)] Hx. split; [|done]. apply rb_plug. rewrite tcol_paint. split_and!; [done..|].
  destruct Hx as [Hx | ->]; [|by eapply bal_paint in Hb as [m Hm]; exists m].
  exists (S n). split; [|done]. by destruct x as [|[]].
Qed.

Lemma runs_nephews {A} m0 s k d c u b v (K : bool → bool → RM A) (Q : A → rbmem D → Prop) :
  holds m0 s (plug k (node d c u b v)) →
  runs (match d with
        | L => K (bool_decide (tcol u = Black)) (bool_decide (tcol v = Black))
        | R => K (bool_decide (tcol v = Black)) (bool_decide (tcol u = Black))
        end) s Q →
  runs (l ← RBE_LEFT b; lb ← is_black l; r ← RBE_RIGHT b; rb ← is_black r; K lb rb) s Q.
Proof.
  intros H HK. destruct d.
  - apply runs_bind, (runs_near m0 s k L c u b v); [done|]. apply runs_bind, (runs_is_black m0 s (Fr L c b v :: k) u); [done|].
    apply runs_bind, (runs_far m0 s k L c u b v); [done|]. by apply runs_bind, (runs_is_black m0 s (Fr R c b u :: k) v).
  - apply runs_bind, (runs_far m0 s k R c u b v); [done|]. apply runs_bind, (runs_is_black m0 s (Fr L c b u :: k) v); [done|].
    apply runs_bind, (runs_near m0 s k R c u b v); [done|]. by apply runs_bind, (runs_is_black m0 s (Fr R c b v :: k) u).
Qed.

(** [rem_inv], with the sibling in view. *)
Lemma rem_inv_cons d c p sib k x :
  rem_inv (Fr d c p sib :: k) x ↔
  nored (paint Black x) ∧ (c = Red → tcol sib = Black) ∧ nored sib ∧ cnored k c ∧ croot k c ∧
  ∃ n, bal x n ∧ bal sib (S n) ∧ cbal k (up c (S n)).
Proof. split; [intros [H1 H2 H3 H4]|intros H; split]; cbn in *; naive_solver. Qed.

Lemma runs_remove_last m0 s k d c x p u b v (Q : Z → rbmem D → Prop) :
  rem_inv (Fr d c p (node d Black u b v) :: k) x → tcol x = Black → tcol v = Red →
  holds m0 s (plug k (node d c x p (node d Black u b v))) →
  (∀ s' k' x', holds m0 s' (plug k' x') → rem_done (plug k (node d c x p (node d Black u b v))) k' x' → Q (ptr x') s') →
  runs (remove_last d p b) s Q.
Proof.
  intros (Hx & _ & Hs & Hk & Hroot & n & Hb & Hbs & Hkb)%rem_inv_cons Hcx Hc2 H HQ.
  apply nored_node in Hs as (_ & Hs1 & Hs2). apply (bal_node d Black _ _ _ n) in Hbs as [Hb1 Hb2].
  apply runs_bind, (runs_color_of m0 s k d c x p (node d Black u b v)); [done|].
  apply runs_bind, (runs_paint m0 s (Fr (flip d) c p x :: k) d Black c u b v); [by rewrite plug_far|].
  intros s3 H3. rewrite plug_far in H3.
  apply runs_bind, (runs_paint m0 s3 k d c Black x p (node d c u b v)); [done|]. intros s4 H4.
  apply runs_bind, (runs_far m0 s4 (Fr (flip d) Black p x :: k) d c u b v); [by rewrite plug_far|].
  apply runs_bind, (runs_paint_black m0 s4 (Fr (flip d) c b u :: Fr (flip d) Black p x :: k) v).
  { by rewrite !plug_far. }
  intros s5 H5. rewrite !plug_far in H5.
  apply runs_bind, (runs_rotate t m0 s5 k d Black x p c u b (paint Black v)); [done|].
  intros s6 H6. apply runs_gets. rewrite (h_root _ _ _ H6). apply (HQ s6 []); [done|].
  assert (nored x) as Hnx by (by rewrite <-(paint_same x), Hcx). split.
  - cbn [plug]. replace (paint Black _) with (plug k (node d c (node d Black x p u) b (paint Black v))).
    + apply rb_plug. rewrite !nored_node, !tcol_node, tcol_paint. pose proof (nored_paint v Hs2). split_and!; try done.
      exists (up c (S n)). split; [|done]. apply bal_node. split; [by apply (bal_node d Black _ _ _ n)|].
      by destruct v as [|[]].
    + symmetry. rewrite <-paint_same. f_equal. symmetry. apply tcol_plug. by rewrite tcol_node.
  - apply (elems_plug_same k). destruct d, v; in_order.
Qed.
(** The near nephew is red: a rotation at the sibling leads to the last case. *)
Lemma rem_inv_near d c p e1 e e2 b v k x :
  rem_inv (Fr d c p (node d Black (node d Red e1 e e2) b v) :: k) x → tcol v = Black →
  rem_inv (Fr d c p (node d Black e1 e (node d Red e2 b v)) :: k) x.
Proof.
  intros (Hx & _ & Hs & Hk & Hroot & n & Hb & Hbs & Hkb)%rem_inv_cons Hv. apply rem_inv_cons.
  rewrite !nored_node in Hs. rewrite !nored_node, !tcol_node. split_and!; try naive_solver.
  exists n. split_and!; [done| |done]. apply (bal_node d Black _ _ _ n) in Hbs as [H1 H2].
  apply (bal_node d Red _ _ _ n) in H1 as [H0 H1]. apply (bal_node d Black _ _ _ n). split; [done|]. by apply (bal_node d Red _ _ _ n).
Qed.

(** Both nephews are black: the sibling turns red and the hole moves up. *)
Lemma rem_inv_up d c p u b v k x :
  rem_inv (Fr d c p (node d Black u b v) :: k) x → tcol x = Black → tcol u = Black → tcol v = Black →
  rem_inv k (node d c x p (node d Red u b v)).
Proof.
  intros (Hx & _ & Hs & Hk & Hroot & n & Hb & Hbs & Hkb)%rem_inv_cons Hcx Hu Hv.
  rewrite nored_node in Hs. apply (bal_node d Black _ _ _ n) in Hbs. split.
  - rewrite paint_node, !nored_node. assert (nored x) by (by rewrite <-(paint_same x), Hcx). naive_solver.
  - by eapply cnored_black.
  - by eapply croot_black.
  - exists (up c n). split; [|by destruct c]. apply bal_node. split; [done|]. by apply (bal_node d Red _ _ _ n).
Qed.

(** From any place, the rest of the loop. *)
Definition rem_goal m0 (T : tree) (Q : Z → rbmem D → Prop) : Prop :=
  ∀ s k x, holds m0 s (plug k x) → rem_done T k x → Q (ptr x) s.

Lemma rem_goal_elems m0 T T' Q : elems T' = elems T → rem_goal m0 T Q → rem_goal m0 T' Q.
Proof. intros E HQ s k x H [Hrb He]. apply (HQ s k); [done|]. split; [done|]. by rewrite He. Qed.

Lemma runs_remove_black m0 s fuel k d c x p sib (Q : Z → rbmem D → Prop) :
  rem_inv (Fr d c p sib :: k) x → tcol x = Black → tcol sib = Black →
  holds m0 s (plug (Fr d c p sib :: k) x) → rem_goal m0 (plug (Fr d c p sib :: k) x) Q →
  (∀ s' y, c = tcol y → ptr y = p → rem_inv k y → holds m0 s' (plug k y) →
    elems (plug k y) = elems (plug (Fr d c p sib :: k) x) → runs (remove_loop t fuel (cpar k) p) s' Q) →
  runs (remove_black d fuel p (ptr sib)) s Q.
Proof.
  intros Hinv Hcx Hcs H HQ Hup. pose proof Hinv as (_ & _ & _ & _ & _ & n & _ & Hbs & _)%rem_inv_cons.
  assert (∃ u b v, sib = node d Black u b v) as (u & b & v & ->).
  { destruct sib as [|[] l b r]; [done|done|]. destruct d; [by exists l, b, r|by exists r, b, l]. }
  rewrite ptr_at_node. unfold remove_black. apply (runs_nephews m0 s (Fr (flip d) c p x :: k) d Black u b v); [by rewrite plug_far|].
  destruct (decide (tcol u = Black ∧ tcol v = Black)) as [[Hu Hv]|Hnot].
  - rewrite Hu, Hv. assert (runs (set_color b RB_RED;; parent ← RBE_PARENT p; remove_loop t fuel parent p) s Q) as Hrun.
    { apply runs_bind, (runs_paint m0 s (Fr (flip d) c p x :: k) d Black Red u b v); [by rewrite plug_far|]. intros s1 H1.
      rewrite plug_far in H1. apply runs_bind, (runs_parent m0 s1 k d c x p (node d Red u b v)); [done|].
      apply (Hup s1 (node d c x p (node d Red u b v))); [by rewrite tcol_node|by rewrite ptr_at_node|by apply rem_inv_up|done|].
      apply (elems_plug_same k). destruct d; in_order. }
    by destruct d.
  - assert (runs (tmp ← (if bool_decide (tcol v = Black) then
             near ← RBE_CHILD d b;
             (if negb (near =? 0) then set_color near RB_BLACK else mret tt);;
             set_color b RB_RED;;
             rotate t (flip d) b;;
             RBE_CHILD (flip d) p
           else mret b);
      remove_last d p tmp) s Q) as Hrun.
    { destruct (decide (tcol v = Black)) as [Hv|Hv].
      - rewrite bool_decide_eq_true_2 by done.
        assert (∃ e1 e e2, u = node d Red e1 e e2) as (e1 & e & e2 & ->).
        { destruct u as [|[] l e r]; [naive_solver| |naive_solver]. destruct d; [by exists l, e, r|by exists r, e, l]. }
        apply runs_bind, runs_bind, (runs_near m0 s (Fr (flip d) c p x :: k) d Black (node d Red e1 e e2) b v); [by rewrite plug_far|].
        apply runs_bind, (runs_paint_black m0 s (Fr d Black b v :: Fr (flip d) c p x :: k)).
        { change (holds m0 s (plug (Fr (flip d) c p x :: k) (node d Black (node d Red e1 e e2) b v))). by rewrite plug_far. }
        rewrite paint_node. intros s1 H1.
        apply runs_bind, (runs_paint m0 s1 (Fr (flip d) c p x :: k) d Black Red (node d Black e1 e e2) b v); [done|]. intros s3 H3.
        apply runs_bind, (runs_rotate t m0 s3 (Fr (flip d) c p x :: k) (flip d) Red v b Black e2 e e1).
        { by rewrite !node_flip. }
        intros s4 H4. rewrite !node_flip, plug_far in H4.
        apply (runs_far m0 s4 k d c x p (node d Black e1 e (node d Red e2 b v))); [done|]. rewrite ptr_at_node.
        apply (runs_remove_last m0 s4 k d c x p e1 e (node d Red e2 b v)); [by apply rem_inv_near|done|by rewrite tcol_node|done|].
        apply (rem_goal_elems m0 (plug (Fr d c p (node d Black (node d Red e1 e e2) b v) :: k) x)); [|done].
        apply (elems_plug_same k). destruct d; in_order.
      - rewrite bool_decide_eq_false_2 by done. apply runs_bind, runs_ret.
        apply (runs_remove_last m0 s k d c x p u b v); [done|done|by destruct (tcol v)|done|done]. }
    destruct (tcol u), (tcol v), d; try done; naive_solver.
Qed.
(** The sibling is red: a rotation at the parent gives the hole a black one. *)
Lemma rem_inv_red d c p u b v k x :
  rem_inv (Fr d c p (node d Red u b v) :: k) x →
  c = Black ∧ tcol u = Black ∧ rem_inv (Fr d Red p u :: Fr d Black b v :: k) x.
Proof.
  intros (Hx & Hc & Hs & Hk & Hroot & n & Hb & Hbs & Hkb)%rem_inv_cons. rewrite tcol_node in Hc.
  assert (c = Black) as -> by (destruct c; naive_solver). apply nored_node in Hs as (Huv & Hu & Hv).
  destruct (Huv eq_refl) as [Hcu Hcv]. split; [done|]. split; [done|]. apply rem_inv_cons. cbn.
  apply (bal_node d Red _ _ _ (S n)) in Hbs as [H1 H2]. split_and!; try naive_solver.
Qed.

Lemma runs_remove_turn m0 s fuel k d c x p sib (Q : Z → rbmem D → Prop) :
  rem_inv (Fr d c p sib :: k) x → tcol x = Black →
  holds m0 s (plug (Fr d c p sib :: k) x) → rem_goal m0 (plug (Fr d c p sib :: k) x) Q →
  (∀ s' k' y, tcol y = Red ∨ k' = k → ptr y = p → rem_inv k' y → holds m0 s' (plug k' y) →
    elems (plug k' y) = elems (plug (Fr d c p sib :: k) x) → runs (remove_loop t fuel (cpar k') p) s' Q) →
  runs (remove_turn d fuel p) s Q.
Proof.
  intros Hinv Hcx H HQ Hup. unfold remove_turn.
  apply runs_bind, (runs_far m0 s k d c x p sib); [done|].
  pose proof Hinv as (_ & _ & _ & _ & _ & n & _ & Hbs & _)%rem_inv_cons.
  assert (∃ u b v, sib = node d (tcol sib) u b v) as (u & b & v & E).
  { destruct sib as [|c' l b r]; [done|]. destruct d; [by exists l, b, r|by exists r, b, l]. }
  assert (ptr sib = b) as Hp by (rewrite E; apply ptr_at_node). rewrite Hp.
  apply runs_bind, (runs_color_of m0 s (Fr (flip d) c p x :: k) d (tcol sib) u b v); [by rewrite plug_far, <-E|].
  apply runs_bind. destruct (tcol sib) eqn:Hc; cbn.
  - subst sib. destruct (rem_inv_red _ _ _ _ _ _ _ _ Hinv) as (-> & Hu & Hinv').
    apply runs_bind, (runs_blackred m0 s k d Red (flip d) Black u b v p x); [by rewrite node_flip|].
    rewrite node_flip. intros s1 H1. apply runs_bind, (runs_rotate t m0 s1 k d Red x p Black u b v); [done|]. intros s2 H2.
    apply (runs_far m0 s2 (Fr d Black b v :: k) d Red x p u); [done|].
    assert (elems (plug (Fr d Red p u :: Fr d Black b v :: k) x) = elems (plug (Fr d Black p (node d Red u b v) :: k) x)) as He.
    { apply (elems_plug_same k). destruct d; in_order. }
    eapply runs_remove_black; [done|done|done|exact H2|by eapply rem_goal_elems|].
    intros s3 y Hcy Hpy Hy H3 Hel. apply (Hup s3 (Fr d Black b v :: k) y); [by left|done..|by rewrite Hel].
  - apply runs_ret. rewrite <-Hp.
    eapply runs_remove_black; [done|done|done|exact H|done|].
    intros s3 y Hcy Hpy Hy H3 Hel. apply (Hup s3 k y); [by right|done..].
Qed.

Lemma runs_remove_loop m0 s fuel k x (Q : Z → rbmem D → Prop) :
  (length k < fuel)%nat → rem_inv k x → holds m0 s (plug k x) → rem_goal m0 (plug k x) Q →
  runs (remove_loop t fuel (cpar k) (ptr x)) s Q.
Proof.
  revert s k x. induction fuel as [|fuel IH]; intros s k x Hf Hinv H HQ; [lia|].
  assert (tcol x = Red ∨ k = [] → runs (remove_loop t (S fuel) (cpar k) (ptr x)) s Q) as Hstop.
  { intros Hx. apply (remove_loop_stop m0 s (S fuel) k x); [done..|]. apply (HQ s k); [done|]. by apply rem_inv_done. }
  destruct (tcol x) eqn:Hcx; [by apply Hstop; left|]. destruct k as [|[d c p sib] k]; [by apply Hstop; right|]. clear Hstop.
  cbn in Hf. cbn [cpar f_entry]. rewrite remove_loop_S.
  apply runs_bind, (runs_is_black m0 s (Fr d c p sib :: k) x); [done|]. apply runs_bind, runs_gets. rewrite (h_root _ _ _ H), Hcx.
  rewrite (proj2 (Z.eqb_neq _ _) (holds_root_ne m0 s _ _ _ H)). cbn [bool_decide decide negb andb].
  assert (runs (remove_turn d fuel p) s Q) as Hturn.
  { eapply runs_remove_turn; [done|done|exact H|done|]. intros s1 k' y Hor <- Hy H1 Hel.
    assert (rem_goal m0 (plug k' y) Q) as HQ' by (by eapply rem_goal_elems).
    destruct (decide (tcol y = Red)) as [Hcy|Hcy].
    - apply (remove_loop_stop m0 s1 fuel k' y); [lia|done|by left|]. apply (HQ' s1 k'); [done|]. by apply rem_inv_done; [|left].
    - destruct Hor as [?| ->]; [done|]. apply (IH s1 k y); [lia|done..]. }
  apply runs_bind. destruct d.
  - apply (runs_near m0 s k L c x p sib); [done|]. rewrite Z.eqb_refl. done.
  - apply (runs_far m0 s k R c x p sib); [done|].
    rewrite (proj2 (Z.eqb_neq (ptr sib) (ptr x))); [done|]. apply not_eq_sym.
    apply (holds_ne m0 s k L c sib p x); [done|].
    apply rem_inv_cons in Hinv as (_ & _ & _ & _ & _ & n & _ & Hbs & _). by destruct sib.
Qed.

(** ** The entry leaves the tree *)

Lemma runs_remove_color m0 s k x (Q : () → rbmem D → Prop) :
  rem_inv k x → holds m0 s (plug k x) →
  (∀ s' T, holds m0 s' T → rb T → elems T = elems (plug k x) → Q tt s') →
  runs (rbe_remove_color t (cpar k) (ptr x)) s Q.
Proof.
  intros Hinv H HQ. apply runs_bind, (runs_turns m0 s k x); [done|]. intros n Hn _ _.
  apply runs_bind, (runs_remove_loop m0 s n k x); [done..|]. intros s1 k1 x1 H1 [Hrb He].
  apply (runs_paint_black m0 s1 k1 x1); [done|]. intros s2 H2. apply (HQ s2 _ H2 Hrb). rewrite <-He.
  apply elems_plug_same, elems_paint.
Qed.

(** What is left where a node with one child was: nothing is wrong if the node was
    red, one black node is missing if it was black. *)
Record spliced (k : ctx) (c : color) (y : tree) : Prop := {
  sp_tree : nored (paint Black y);
  sp_ctx : cnored k Black;
  sp_root : croot k Black;
  sp_bal : ∃ n, bal y n ∧ cbal k (up c n);
  sp_red : c = Red → y = Leaf;
}.

Lemma rb_spliced k d c y a : rb (plug k (node d c y a Leaf)) → spliced k c y.
Proof.
  intros (Hroot & Hn & Hk & m & Hb & Hkb)%rb_plug. rewrite tcol_node in Hroot, Hk. apply nored_node in Hn as (Hc & Hy & _).
  apply bal_node_inv in Hb as (n & -> & Hby & Hbl). destruct n as [|n]; [|done].
  split; [by apply nored_paint|by eapply cnored_black|by eapply croot_black|by exists O|].
  intros ->. destruct (Hc eq_refl) as [Hcy _]. destruct y as [|[] l b r]; done.
Qed.
Lemma spliced_addr k2 d c a b sib k c' y :
  spliced (k2 ++ Fr d c a sib :: k) c' y → spliced (k2 ++ Fr d c b sib :: k) c' y.
Proof.
  intros [Ht Hk Hroot (n & Hb & Hkb) Hred]. split; [done|by eapply cnored_addr|by eapply croot_addr| |done].
  exists n. split; [done|]. by eapply cbal_addr.
Qed.

(** The label color. *)
Lemma runs_remove_color_if m0 s k c y (Q : () → rbmem D → Prop) :
  spliced k c y → holds m0 s (plug k y) →
  (∀ s' T, holds m0 s' T → rb T → elems T = elems (plug k y) → Q tt s') →
  runs (remove_color_if t (ccode c) (cpar k) (ptr y)) s Q.
Proof.
  intros [Ht Hk Hroot Hb Hred] H HQ. unfold remove_color_if. destruct c; cbn.
  - apply runs_ret, (HQ s (plug k y)); [done| |done]. rewrite (Hred eq_refl) in *. apply rb_plug. by split_and!.
  - by eapply runs_remove_color.
Qed.

(** [y], the only child, comes in the place of its parent. *)
Lemma runs_splice m0 s k d c y a (Q : () → rbmem D → Prop) :
  holds m0 s (plug k (node d c y a Leaf)) →
  (∀ s', holds (<[a := mk d (cpar k) (ptr y) 0 c]> m0) s' (plug k y) → Q tt s') →
  runs ((if negb (ptr y =? 0) then set_parent (ptr y) (cpar k) else mret tt);; relink t (cpar k) a (ptr y)) s Q.
Proof.
  intros H HQ. pose proof (holds_node _ _ _ _ _ _ _ _ H) as [Ea Hy _ Hk Ha Hnd]. cbn in Hnd. rewrite app_nil_r in Hnd.
  destruct H as [Hr _ _ Hout]. assert (NoDup (elems y)) as Hndy by apart.
  apply runs_bind, (runs_reparent s a y); [done|].
  apply (runs_splice_link t _ k a (ptr y)); [cbn; eapply crep_same; [|exact Hk]; same|done|apart|].
  intros g. apply HQ. split; cbn.
  - rewrite Hr. apply link_root_plug.
  - apply rep_plug. split.
    + eapply rep_same; [|by apply (rep_reparent (entries s) a y (cpar k))]. intros q Hq. apply lookup_link_ne. apart.
    + eapply (crep_link _ a); [apart|]. eapply crep_same; [|exact Hk]. same.
  - rewrite (elems_plug_perm k y). by apply NoDup_cons in Hnd as [_ ?].
  - intros q Hq. rewrite (elems_plug_perm k y) in Hq. rewrite lookup_link_ne, lookup_reparent_ne by set_solver.
    destruct (decide (q = a)) as [->|Hqa]; [by rewrite lookup_insert_eq|]. rewrite lookup_insert_ne by done.
    apply Hout. rewrite (elems_plug_perm k _), (elems_node d c y a Leaf). set_solver.
Qed.

(** [b], outside of the tree, comes in the place of [a]. *)
Lemma runs_replace {A} m0 s k c l a r b (K : RM A) (Q : A → rbmem D → Prop) :
  holds m0 s (plug k (Node c l a r)) → l ≠ Leaf → b ≠ 0 → b ∉ elems (plug k (Node c l a r)) → is_Some (entries s !! b) →
  (∀ s', holds (<[a := RbEntry (cpar k) (ptr l) (ptr r) (ccode c)]> m0) s' (plug k (Node c l b r)) → runs K s' Q) →
  runs (e ← entry a;
        upd b (λ _, e);;
        tmp ← RBE_PARENT a;
        relink t tmp a b;;
        l ← RBE_LEFT a;
        set_parent l b;;
        r ← RBE_RIGHT a;
        (if negb (r =? 0) then set_parent r b else mret tt);; K) s Q.
Proof.
  intros H Hl Hb Hnot Hbs HK. pose proof (holds_node _ _ _ L _ _ _ _ H) as [Ea Hrl Hrr Hk Ha Hnd].
  destruct H as [Hr _ Hnd0 Hout]. rewrite (elems_plug_perm k _), (elems_node L c l a r) in Hnot. cbn [mk] in Ea.
  assert (NoDup (elems l) ∧ NoDup (elems r) ∧ NoDup (celems k) ∧ a ≠ b) as (Hndl & Hndr & Hndk & Hab) by apart.
  apply runs_bind, (runs_entry s a _ _ Ea), runs_bind, runs_upd_entry; [done|].
  set (e := RbEntry _ _ _ _) in *. set (m1 := alter (λ _, e) b (entries s)).
  assert (m1 !! a = Some e) as Ea1 by (subst m1; by rewrite lookup_alter_ne).
  apply runs_bind, (runs_field rbt_parent (set_entries m1 s) a _ _ Ea1). cbn [rbt_parent e].
  apply runs_bind, (runs_splice_link t (set_entries m1 s) k a b); [cbn; eapply crep_same; [|exact Hk]; subst m1; same|done|apart|].
  intros g. cbn [entries set_entries]. set (s2 := RbMem _ _ _).
  assert (entries s2 !! a = Some e) as Ea2 by (subst s2; cbn; rewrite lookup_link_ne; [done|apart]).
  assert (rep (entries s2) a l) as Hl2 by (eapply rep_same; [|exact Hrl]; subst s2 m1; cbn; same).
  apply runs_bind, (runs_field rbt_left s2 a _ _ Ea2). cbn [rbt_left e].
  pose proof (runs_reparent s2 a l b (λ _ s', s' = set_entries (reparent l b (entries s2)) s2) Hl2 eq_refl) as Hset.
  rewrite (proj2 (Z.eqb_neq (ptr l) 0) (rep_ptr _ _ _ Hl2 Hl)) in Hset.
  apply runs_bind. eapply runs_mono; [exact Hset|]. intros [] ? ->. set (m3 := reparent l b (entries s2)).
  assert (m3 !! a = Some e) as Ea3 by (subst m3; rewrite lookup_reparent_ne; [done|apart]).
  apply runs_bind, (runs_field rbt_right (set_entries m3 s2) a _ _ Ea3). cbn [rbt_right e].
  apply runs_bind, (runs_reparent (set_entries m3 s2) a r b); [cbn; eapply rep_same; [|exact Hrr]; subst m3 s2 m1; cbn; same|].
  apply HK. subst m3 s2. cbn. split; cbn.
  - rewrite Hr. rewrite <-(link_root_plug k (Node c l a r) (Node c l b r)). done.
  - apply rep_plug. cbn. split_and!; [done| | | |].
    + rewrite lookup_reparent_ne, lookup_reparent_ne, lookup_link_ne by apart. subst m1. rewrite lookup_alter_eq.
      destruct Hbs as [eb ->]. done.
    + eapply rep_same; [|apply (rep_reparent _ a l b Hndl Hl2)]. intros q Hq. apply lookup_reparent_ne. apart.
    + apply (rep_reparent _ a r b Hndr). eapply rep_same; [|exact Hrr]. subst m1. same.
    + eapply crep_same; [|eapply (crep_link m1 a k b Hndk)]; [|eapply crep_same; [|exact Hk]; subst m1; same].
      intros q Hq. rewrite !lookup_reparent_ne by apart. done.
  - rewrite (elems_plug_perm k _), (elems_node L c l b r). cbn. apply NoDup_cons in Hnd as [_ Hnd].
    apply NoDup_cons. split; [set_solver|done].
  - intros q Hq. rewrite (elems_plug_perm k _), (elems_node L c l b r) in Hq. subst m1.
    rewrite !lookup_reparent_ne, lookup_link_ne, lookup_alter_ne by set_solver.
    destruct (decide (q = a)) as [->|Hqa]; [by rewrite lookup_insert_eq|]. rewrite lookup_insert_ne by done.
    apply Hout. rewrite (elems_plug_perm k _), (elems_node L c l a r). set_solver.
Qed.

Lemma runs_remove_single m0 s k d c y a (Q : () → rbmem D → Prop) :
  rb (plug k (node d c y a Leaf)) → holds m0 s (plug k (node d c y a Leaf)) →
  (∀ s' T e, holds (<[a := e]> m0) s' T → rb T → elems T = before k ++ elems y ++ after k → Q tt s') →
  runs (remove_single t a (ptr y)) s Q.
Proof.
  intros Hrb H HQ. apply runs_bind, (runs_parent m0 s k d c y a Leaf); [done|].
  apply runs_bind, (runs_color_of m0 s k d c y a Leaf); [done|].
  apply runs_assoc, (runs_splice m0 s k d c y a); [done|]. intros s1 H1.
  eapply runs_remove_color_if; [by eapply rb_spliced|done|]. intros s2 T H2 HT He. apply (HQ s2 T _ H2 HT).
  by rewrite He, elems_plug.
Qed.

Lemma runs_augment_up s fuel f k p (Q : () → rbmem D → Prop) :
  has_augment t = true → crep (entries s) p (f :: k) → (length k < fuel)%nat →
  (∀ s', same_tree s s' → Q tt s') → runs (augment_up t fuel (f_entry f)) s Q.
Proof.
  intros Ha. revert s f k p. induction fuel as [|fuel IH]; intros s f k p Hk Hf HQ; [lia|]. cbn.
  apply runs_bind, runs_augment; [done|]. intros s1 [Hr1 He1]. destruct f as [d c a sib].
  pose proof Hk as (_ & Ea & _ & Hk'). rewrite <-He1 in Ea, Hk'. cbn [f_entry].
  apply runs_bind, (runs_field rbt_parent s1 a _ _ Ea). rewrite parent_mk.
  destruct k as [|f k]; cbn [cpar]; [by apply runs_ret, HQ|].
  assert (f_entry f ≠ 0) as Hnz by (destruct f; by destruct Hk' as (? & _)).
  rewrite (proj2 (Z.eqb_neq _ 0) Hnz). cbn in Hf. apply (IH s1 f k a); [done|lia|]. intros s2 [Hr2 He2]. apply HQ.
  split; congruence.
Qed.

(** The successor [b] of [a] has been spliced out; it comes in the place of [a]. *)
Lemma runs_successor m0 s n k2 k c c2 l a b y (Q : () → rbmem D → Prop) :
  let K := k2 ++ Fr R c a l :: k in
  let K' := k2 ++ Fr R c b l :: k in
  holds m0 s (plug K y) → l ≠ Leaf → b ≠ 0 → b ∉ elems (plug K y) → is_Some (entries s !! b) →
  rbt_parent <$> entries s !! b = Some (cpar K) → (length K < n)%nat →
  (∀ s', holds (<[a := RbEntry (cpar k) (ptr l) (ptr (plug k2 y)) (ccode c)]> m0) s' (plug K' y) →
    runs (remove_color_if t c2 (cpar K') (ptr y)) s' Q) →
  runs (p ← RBE_PARENT b;
        let parent := if p =? a then b else cpar K in
        e ← entry a;
        upd b (λ _, e);;
        tmp ← RBE_PARENT a;
        relink t tmp a b;;
        l ← RBE_LEFT a;
        set_parent l b;;
        r ← RBE_RIGHT a;
        (if negb (r =? 0) then set_parent r b else mret tt);;
        (if has_augment t && negb (parent =? 0) then augment_up t n parent else mret tt);;
        remove_color_if t c2 parent (ptr y)) s Q.
Proof.
  intros K K' H Hl Hb Hnot Hbs Hpb Hn HQ. subst K K'. rewrite plug_app in H, Hnot. cbn in H, Hnot. unfold fill in H, Hnot. cbn in H, Hnot.
  destruct Hbs as [eb Eb]. rewrite Eb in Hpb. injection Hpb as Hpb.
  apply runs_bind, (runs_field rbt_parent s b eb _ Eb). rewrite Hpb.
  assert ((if cpar (k2 ++ Fr R c a l :: k) =? a then b else cpar (k2 ++ Fr R c a l :: k)) = cpar (k2 ++ Fr R c b l :: k)) as ->.
  { destruct k2 as [|[d' c' a' x'] k2]; cbn; [by rewrite Z.eqb_refl|]. rewrite (proj2 (Z.eqb_neq a' a)); [done|].
    pose proof (an_apart _ _ _ _ _ _ _ (holds_node m0 s k L c l a (plug (Fr d' c' a' x' :: k2) y) H)) as Hnd.
    rewrite (elems_plug_perm _ y), (celems_cons d' c' a' x' k2) in Hnd. apart. }
  apply (runs_replace m0 s k c l a (plug k2 y) b); [done|done|done|done|by eexists|]. intros s1 H1.
  assert (plug (k2 ++ Fr R c b l :: k) y = plug k (Node c l b (plug k2 y))) as E by (by rewrite plug_app). rewrite <-E in H1.
  assert (∀ s2, same_tree s1 s2 → runs (remove_color_if t c2 (cpar (k2 ++ Fr R c b l :: k)) (ptr y)) s2 Q) as Hfin.
  { intros s2 Hs. apply HQ. by eapply holds_same. }
  apply runs_bind. destruct (has_augment t) eqn:Ha; cbn [andb]; [|by apply runs_ret, Hfin].
  pose proof (h_rep _ _ _ H1) as Hrep. apply rep_plug in Hrep as [_ Hk]. rewrite length_app in Hn. cbn in Hn.
  destruct (k2 ++ Fr R c b l :: k) as [|f K] eqn:EK; [by destruct k2|].
  assert (length (f :: K) = (length k2 + S (length k))%nat) as HlenK by (rewrite <-EK, length_app; done). cbn in HlenK.
  cbn [cpar]. assert (f_entry f ≠ 0) as Hnz by (destruct f; by destruct Hk as (? & _)).
  rewrite (proj2 (Z.eqb_neq _ 0) Hnz). apply (runs_augment_up s1 n f K (ptr y)); [done|done|lia|done].
Qed.

Lemma runs_remove_double m0 s k c l a r (Q : () → rbmem D → Prop) :
  rb (plug k (Node c l a r)) → holds m0 s (plug k (Node c l a r)) → l ≠ Leaf → r ≠ Leaf →
  (∀ s' T e, holds (<[a := e]> m0) s' T → rb T → elems T = before k ++ elems l ++ elems r ++ after k → Q tt s') →
  runs (remove_double t a) s Q.
Proof.
  intros Hrb H Hl Hr HQ. destruct (leftmost_split r Hr) as (k2 & c2 & b & y & -> & Hk2). clear Hr.
  assert (plug (k2 ++ Fr R c a l :: k) (node R c2 y b Leaf) = plug k (Node c l a (plug k2 (Node c2 Leaf b y)))) as E
    by (by rewrite plug_app).
  apply runs_bind, (runs_far m0 s k L c l a (plug k2 (Node c2 Leaf b y))); [done|].
  set (K := k2 ++ Fr R c a l :: k) in *.
  apply runs_bind, (runs_turns m0 s K (node R c2 y b Leaf)); [by rewrite E|]. intros n Hn _ Hlen.
  apply runs_bind, (runs_extreme L s n a (plug k2 (Node c2 Leaf b y))).
  { exact (an_far _ _ _ _ _ _ _ (holds_node m0 s k L c l a _ H)). }
  { intros E0%(f_equal elems). by rewrite elems_plug_left in E0. }
  { rewrite E, (elems_plug_perm k _), (elems_node L c l a _) in Hlen. cbn [length app] in Hlen. rewrite !length_app in Hlen.
    pose proof (height_elems (plug k2 (Node c2 Leaf b y))). lia. }
  rewrite (elems_plug_left k2) by done. intros ? [= <-]. rewrite <-E in H, Hrb.
  apply runs_bind, (runs_near m0 s K R c2 y b Leaf); [done|].
  apply runs_bind, (runs_parent m0 s K R c2 y b Leaf); [done|].
  apply runs_bind, (runs_color_of m0 s K R c2 y b Leaf); [done|].
  pose proof (holds_node _ _ _ _ _ _ _ _ H) as [_ _ _ _ Hb Hnd]. cbn in Hnd. rewrite app_nil_r in Hnd.
  apply NoDup_cons in Hnd as [Hnot _].
  apply runs_assoc, (runs_splice m0 s K R c2 y b); [done|]. intros s1 H1.
  rewrite <-(elems_plug_perm K y) in Hnot.
  assert (entries s1 !! b = Some (mk R (cpar K) (ptr y) 0 c2)) as Eb.
  { rewrite (h_out _ _ _ H1 b Hnot). apply lookup_insert_eq. }
  apply (runs_successor (<[b := mk R (cpar K) (ptr y) 0 c2]> m0) s1 n k2 k c (ccode c2) l a b y); [exact H1|done|done|done|by eexists|by rewrite Eb|done|].
  intros s2 H2. eapply runs_remove_color_if; [by eapply spliced_addr, rb_spliced|exact H2|]. intros s3 T H3 HT He.
  assert (elems T = before k ++ elems l ++ elems (plug k2 (Node c2 Leaf b y)) ++ after k) as HeT.
  { rewrite He, plug_app, elems_plug, !(elems_plug_left k2) by done. in_order. }
  eapply HQ; [|done|done]. eapply holds_out; [|exact H3]. intros q Hq. cbn.
  destruct (decide (q = a)) as [->|Hqa]; [by rewrite !lookup_insert_eq|]. rewrite !(lookup_insert_ne _ a q) by done.
  rewrite lookup_insert_ne; [done|]. intros <-. apply Hq. rewrite HeT, elems_plug_left by done. cbn. set_solver.
Qed.

Lemma runs_rbe_remove m0 s k c l a r (Q : Z → rbmem D → Prop) :
  rb (plug k (Node c l a r)) → holds m0 s (plug k (Node c l a r)) →
  (∀ s' T e, holds (<[a := e]> m0) s' T → rb T → elems T = before k ++ elems l ++ elems r ++ after k → Q a s') →
  runs (rbe_remove t a) s Q.
Proof.
  intros Hrb H HQ.
  pose proof (holds_node m0 s k L c l a r H) as [_ Hrl Hrr _ _ _].
  apply runs_bind, (runs_near m0 s k L c l a r); [done|].
  apply runs_bind. destruct (Z.eqb_spec (ptr l) 0) as [El|El].
  - assert (l = Leaf) as -> by (destruct l; [done|by destruct Hrl as (? & _)]).
    apply runs_bind, (runs_far m0 s k L c Leaf a r); [done|].
    apply (runs_remove_single m0 s k R c r a); [done|done|]. intros s' T e HT HrbT He. by apply runs_ret, (HQ s' T e).
  - apply runs_bind, (runs_far m0 s k L c l a r); [done|]. destruct (Z.eqb_spec (ptr r) 0) as [Er|Er].
    + assert (r = Leaf) as -> by (destruct r; [done|by destruct Hrr as (? & _)]).
      apply runs_bind, (runs_near m0 s k L c l a Leaf); [done|].
      apply (runs_remove_single m0 s k L c l a); [done|done|]. intros s' T e HT HrbT He. by apply runs_ret, (HQ s' T e).
    + apply (runs_remove_double m0 s k c l a r); [done|done|by intros ->|by intros ->|].
      intros s' T e HT HrbT He. by apply runs_ret, (HQ s' T e).
Qed.
End remove.
