(* ===== verification/RbtSet.v ===== *)
(** Red-black trees as ordered sets of objects: what each call promises, as a
    function on the sorted list of the objects in the tree, and that the calls of
    subr_tree.c do it, one by one and in any sequence. *)

From Stdlib Require Import Sorted.
From S2P Require Import Prelude StateMonad Rbt RbtTree RbtMem RbtFind RbtIns RbtDel.

(** ** The comparison *)

(** What the code relies on: [t_compare] orders the objects. *)
Class CompareLaws (cmp : Z → Z → Z) : Prop := {
  cmp_antisym a b : Z.sgn (cmp b a) = - Z.sgn (cmp a b);
  cmp_trans a b c : cmp a b ≤ 0 → cmp b c ≤ 0 → cmp a c ≤ 0;
}.

(** Comparing a number kept with each object, the usual comparison function. *)
Definition by_number (num : Z → Z) (a b : Z) : Z :=
  if num a <? num b then -1 else if num b <? num a then 1 else 0.
#[export] Instance by_number_laws num : CompareLaws (by_number num).
Proof. split; unfold by_number; intros; repeat case_match; lia. Qed.

(** ** Specification *)

Section spec.
Context (cmp : Z → Z → Z).

Definition below (key : Z) (os : list Z) : list Z := filter (λ b, 0 < cmp key b) os.
Definition equal (key : Z) (os : list Z) : list Z := filter (λ b, cmp key b = 0) os.
Definition above (key : Z) (os : list Z) : list Z := filter (λ b, cmp key b < 0) os.

Definition first_or_null (os : list Z) : Z := default 0 (head os).
Definition last_or_null (os : list Z) : Z := default 0 (last os).

Inductive rb_op : Type :=
| OInsert (elm : Z)
| ORemove (elm : Z)
| OFind (key : Z)
| ONfind (key : Z)
| ONext (elm : Z)
| OPrev (elm : Z)
| OMin
| OMax
| OEmpty.

(** The value returned and the set left. *)
Definition spec (op : rb_op) (os : list Z) : Z * list Z :=
  match op with
  | OInsert elm =>
      match equal elm os with
      | b :: _ => (b, os)
      | [] => (0, below elm os ++ elm :: above elm os)
      end
  | ORemove elm => (elm, filter (λ b, b ≠ elm) os)
  | OFind key => (first_or_null (equal key os), os)
  | ONfind key => (first_or_null (filter (λ b, cmp key b ≤ 0) os), os)
  | ONext elm => (first_or_null (above elm os), os)
  | OPrev elm => (last_or_null (below elm os), os)
  | OMin => (first_or_null os, os)
  | OMax => (last_or_null os, os)
  | OEmpty => (if decide (os = []) then 1 else 0, os)
  end.

Fixpoint spec_all (ops : list rb_op) (os : list Z) : list Z * list Z :=
  match ops with
  | [] => ([], os)
  | op :: ops => let '(r, os1) := spec op os in let '(rs, os2) := spec_all ops os1 in (r :: rs, os2)
  end.
End spec.

(** ** Sorted lists of objects *)

Section order.
Context (cmp : Z → Z → Z) `{!CompareLaws cmp}.

Definition sorted (os : list Z) : Prop := StronglySorted (λ a b, cmp a b < 0) os.

Lemma cmp_flip a b : (cmp a b < 0 ↔ 0 < cmp b a) ∧ (cmp a b = 0 ↔ cmp b a = 0) ∧ (0 < cmp a b ↔ cmp b a < 0).
Proof. pose proof (cmp_antisym a b). lia. Qed.
Lemma cmp_refl a : cmp a a = 0.
Proof. pose proof (cmp_antisym a a). lia. Qed.
Lemma cmp_lt_l a b c : cmp a b < 0 → cmp b c ≤ 0 → cmp a c < 0.
Proof.
  intros H1 H2. destruct (Z.ltb_spec (cmp a c) 0) as [|Hn]; [done|].
  pose proof (cmp_antisym a c). pose proof (cmp_antisym a b). pose proof (cmp_trans b c a H2). lia.
Qed.
Lemma cmp_lt_r a b c : cmp a b ≤ 0 → cmp b c < 0 → cmp a c < 0.
Proof.
  intros H1 H2. destruct (Z.ltb_spec (cmp a c) 0) as [|Hn]; [done|].
  pose proof (cmp_antisym a c). pose proof (cmp_antisym b c). pose proof (cmp_trans c a b). lia.
Qed.

Lemma sorted_app l1 l2 : sorted (l1 ++ l2) ↔ sorted l1 ∧ sorted l2 ∧ ∀ a b, a ∈ l1 → b ∈ l2 → cmp a b < 0.
Proof.
  unfold sorted. induction l1 as [|a l1 IH]; cbn.
  - split; [intros H; split_and!; [constructor|done|set_solver]|tauto].
  - split.
    + intros [Hs Ha]%StronglySorted_inv. apply IH in Hs as (H1 & H2 & H3). apply Forall_app in Ha as [Ha1 Ha2].
      split_and!; [by constructor|done|]. intros a' b [->|Hin]%elem_of_cons Hb; [|by apply H3].
      by apply (proj1 (Forall_forall _ _) Ha2).
    + intros ([Hs Ha]%StronglySorted_inv & H2 & H3). constructor; [apply IH; split_and!; [done..|set_solver]|].
      apply Forall_app. split; [done|]. apply Forall_forall. intros b Hb. apply H3; [by left|done].
Qed.

Lemma sorted_remove l1 a l2 : sorted (l1 ++ a :: l2) → sorted (l1 ++ l2).
Proof.
  intros (H1 & [H2 _]%StronglySorted_inv & H3)%sorted_app. apply sorted_app. split_and!; [done..|].
  intros x y Hx Hy. apply H3; [done|]. by right.
Qed.
Lemma sorted_insert l1 a l2 :
  sorted (l1 ++ l2) → Forall (λ b, 0 < cmp a b) l1 → Forall (λ b, cmp a b < 0) l2 → sorted (l1 ++ a :: l2).
Proof.
  intros (H1 & H2 & H3)%sorted_app Hb Ha. apply sorted_app. split_and!; [done|by constructor|].
  intros x y Hx [->|Hy]%elem_of_cons; [|by apply H3]. apply cmp_flip. by apply (proj1 (Forall_forall _ _) Hb).
Qed.

(** A key falls along a sorted list. *)
Lemma sorted_falls key l1 a l2 : sorted (l1 ++ a :: l2) →
  (0 ≤ cmp key a → Forall (λ b, 0 < cmp key b) l1) ∧ (cmp key a ≤ 0 → Forall (λ b, cmp key b < 0) l2).
Proof.
  intros (H1 & [_ H2]%StronglySorted_inv & H3)%sorted_app. split; intros Hk; apply Forall_forall; intros b Hb.
  - specialize (H3 b a Hb ltac:(left)). apply cmp_flip. apply (cmp_lt_l b a key); [done|]. pose proof (cmp_antisym key a). lia.
  - rewrite Forall_forall in H2. eapply cmp_lt_r; [done|]. by apply H2.
Qed.

Lemma filter_all (P : Z → Prop) `{!∀ x, Decision (P x)} l : Forall P l → filter P l = l.
Proof. induction 1 as [|x l Hx _ IH]; [done|]. by rewrite filter_cons_True, IH. Qed.
Lemma filter_no (P : Z → Prop) `{!∀ x, Decision (P x)} l : Forall (λ x, ¬ P x) l → filter P l = [].
Proof. induction 1 as [|x l Hx _ IH]; [done|]. by rewrite filter_cons_False. Qed.

(** A list that a key cuts in three is what the filters of the specification cut. *)
Lemma cuts_filters key l1 m l2 :
  cuts (cmp key) l1 m l2 →
  below cmp key (l1 ++ m ++ l2) = l1 ∧ equal cmp key (l1 ++ m ++ l2) = m ∧ above cmp key (l1 ++ m ++ l2) = l2 ∧
  filter (λ b, cmp key b ≤ 0) (l1 ++ m ++ l2) = m ++ l2.
Proof.
  intros (H1 & Hm & H2). unfold below, equal, above. rewrite !filter_app. split_and!.
  - rewrite filter_all, filter_no, filter_no, !app_nil_r; [done|..]; (eapply Forall_impl; [eassumption|]; cbn; intros; lia).
  - rewrite filter_no, filter_all, filter_no, app_nil_r; [done|..]; (eapply Forall_impl; [eassumption|]; cbn; intros; lia).
  - rewrite filter_no, filter_no, filter_all; [done|..]; (eapply Forall_impl; [eassumption|]; cbn; intros; lia).
  - rewrite filter_no, filter_all, filter_all; [done|..]; (eapply Forall_impl; [eassumption|]; cbn; intros; lia).
Qed.
End order.

(** ** The set in memory *)

Section state.
Context {D : Type} (t : rb_type D) `{!CompareLaws (t_compare t)}.
Abbreviation RM := (ST (rbmem D)).
Abbreviation cmp := (t_compare t).
Implicit Type (s : rbmem D).

Lemma n2e_e2n a : is_u64 a → rb_n2e t (rb_e2n t a) = a.
Proof.
  intros Ha. unfold rb_n2e, rb_e2n, u64. rewrite Z.add_mod_idemp_l by done.
  replace (a - t_offset t + t_offset t) with a by lia. by apply u64_small.
Qed.
Lemma e2n_n2e o : is_u64 o → rb_e2n t (rb_n2e t o) = o.
Proof.
  intros Ho. unfold rb_n2e, rb_e2n, u64. rewrite Zminus_mod_idemp_l.
  replace (o + t_offset t - t_offset t) with o by lia. by apply u64_small.
Qed.

(** An object whose entry may be in a tree: neither pointer is [NULL]. *)
Definition object (o : Z) : Prop := is_u64 o ∧ o ≠ 0 ∧ rb_n2e t o ≠ 0.

Abbreviation objs := (map (rb_e2n t)).

Record tree_set (m0 : gmap Z rb_entry) s (os : list Z) (T : tree) : Prop := {
  ts_holds : holds m0 s T;
  ts_rb : rb T;
  ts_objs : os = objs (elems T);
  ts_sorted : sorted cmp os;
  ts_entries : Forall is_u64 (elems T);
  ts_nonnull : Forall (λ o, o ≠ 0) os;
}.

(** The objects in the tree are those of [os]. *)
Definition rbt_state s (os : list Z) : Prop := ∃ T, tree_set (entries s) s os T.

Lemma cuts_objs key l1 m l2 : cuts (against t key) l1 m l2 → cuts (cmp key) (objs l1) (objs m) (objs l2).
Proof. intros (H1 & Hm & H2). by repeat split; apply Forall_map. Qed.

Lemma falls_elems m0 s os T key : tree_set m0 s os T → falls (against t key) (elems T).
Proof.
  intros [_ _ Hos Hs _ _] l1 a l2 E. rewrite E, map_app in Hos. cbn in Hos. subst os.
  destruct (sorted_falls cmp key _ _ _ Hs) as [Hge Hle]. split; intros Hk.
  - specialize (Hge Hk). by rewrite Forall_map in Hge.
  - specialize (Hle Hk). by rewrite Forall_map in Hle.
Qed.

(** Where the search for a key ends. *)
Lemma locate_set m0 s os T key :
  tree_set m0 s os T →
  let '(k, x) := locate (against t key) [] T in
  match x with
  | Leaf => below cmp key os = objs (before k) ∧ equal cmp key os = [] ∧ above cmp key os = objs (after k) ∧
      filter (λ b, cmp key b ≤ 0) os = objs (after k)
  | Node _ l a r => equal cmp key os = [rb_e2n t a] ∧
      filter (λ b, cmp key b ≤ 0) os = rb_e2n t a :: objs (elems r ++ after k)
  end.
Proof.
  intros H. pose proof (locate_cuts (against t key) [] T (falls_elems _ _ _ _ key H) ltac:(constructor) ltac:(constructor)) as Hc.
  pose proof (plug_locate (against t key) [] T) as Hp. destruct (locate (against t key) [] T) as [k x]. cbn in Hp.
  destruct x as [|c l a r]; pose proof (cuts_filters cmp key _ _ _ (cuts_objs key _ _ _ Hc)) as (H1 & H2 & H3 & H4);
    rewrite <-!map_app in *; cbn [map app] in *.
  - replace os with (objs (before k ++ after k)); [done|]. rewrite (ts_objs _ _ _ _ H), <-Hp, elems_plug. done.
  - replace os with (objs ((before k ++ elems l) ++ a :: elems r ++ after k)); [done|].
    rewrite (ts_objs _ _ _ _ H), <-Hp, elems_plug. cbn. by rewrite <-!app_assoc.
Qed.

(** Where no member compares equal, the key cuts the set in two. *)
Lemma fresh_cut s os key : rbt_state s os → equal cmp key os = [] →
  os = below cmp key os ++ above cmp key os ∧ Forall (λ b, b ≠ key) os.
Proof.
  intros [T H] He. pose proof (locate_set _ _ _ _ key H) as Hl. pose proof (plug_locate (against t key) [] T) as Hp.
  destruct (locate (against t key) [] T) as [k [|c l a r]]; cbn in Hp; [|by destruct Hl as (E & _); rewrite He in E].
  destruct Hl as (Hb & _ & Ha & _). split.
  - rewrite Hb, Ha, <-map_app, (ts_objs _ _ _ _ H), <-Hp, elems_plug. done.
  - apply Forall_forall. intros b Hin ->. assert (key ∈ equal cmp key os) as Hk; [|by rewrite He in Hk; apply elem_of_nil in Hk].
    apply list_elem_of_filter. split; [by apply cmp_refl|done].
Qed.

(** A member, at its node, has the smaller ones before and the greater ones after. *)
Lemma member_set m0 s os T elm :
  tree_set m0 s os T → elm ∈ os →
  ∃ k c l r, T = plug k (Node c l (rb_n2e t elm) r) ∧ is_u64 elm ∧
    below cmp elm os = objs (before k ++ elems l) ∧ above cmp elm os = objs (elems r ++ after k) ∧
    os = below cmp elm os ++ elm :: above cmp elm os.
Proof.
  intros H Hin. pose proof (ts_objs _ _ _ _ H) as Hos. rewrite Hos in Hin.
  apply list_elem_of_fmap in Hin as (a & -> & Ha). pose proof (ts_entries _ _ _ _ H) as Hu. rewrite Forall_forall in Hu.
  specialize (Hu a Ha). rewrite n2e_e2n by done. destruct (tree_split a T Ha) as (k & c & l & r & ->). exists k, c, l, r.
  split; [done|]. split; [unfold rb_e2n; auto with kern|].
  assert (os = objs (before k ++ elems l) ++ [rb_e2n t a] ++ objs (elems r ++ after k)) as Ecut.
  { rewrite Hos, elems_plug. cbn [elems]. rewrite !map_app. cbn. by rewrite <-!app_assoc. }
  pose proof (ts_sorted _ _ _ _ H) as Hs. rewrite Ecut in Hs.
  destruct (sorted_falls cmp (rb_e2n t a) _ _ _ Hs) as [Hge Hle].
  destruct (cuts_filters cmp (rb_e2n t a) (objs (before k ++ elems l)) [rb_e2n t a] (objs (elems r ++ after k))) as (H1 & _ & H3 & _).
  { pose proof (cmp_refl cmp (rb_e2n t a)). split; [apply Hge; lia|]. split; [by repeat constructor|]. apply Hle. lia. }
  rewrite Ecut, H1, H3. done.
Qed.
End state.
