(* ===== verification/RbtOps.v ===== *)
(** Each call of subr_tree.c does what the specification of [RbtSet] says, on the
    set of objects in memory. *)

From Stdlib Require Import Sorted.
From S2P Require Import Prelude StateMonad Rbt RbtTree RbtMem RbtFind RbtIns RbtDel RbtSet.

Section ops.
Context {D : Type} (t : rb_type D) `{!CompareLaws (t_compare t)}.
Abbreviation RM := (ST (rbmem D)).
Abbreviation cmp := (t_compare t).
Abbreviation objs := (map (rb_e2n t)).
Implicit Type (s : rbmem D).

(** The call of an operation; [_rb_empty]'s answer as a number. *)
Definition exec (op : rb_op) : RM Z :=
  match op with
  | OInsert elm => _rb_insert t elm
  | ORemove elm => _rb_remove t elm
  | OFind key => _rb_find t key
  | ONfind key => _rb_nfind t key
  | ONext elm => _rb_next t elm
  | OPrev elm => _rb_prev t elm
  | OMin => _rb_min t
  | OMax => _rb_max t
  | OEmpty => b ← _rb_empty; mret (if (b : bool) then 1 else 0)
  end.

(** What the caller has to see to: an object to insert is in memory, one to remove or
    to start from is in the tree. *)
Definition allowed (mem : gset Z) (os : list Z) (op : rb_op) : Prop :=
  match op with
  | OInsert elm => object t elm ∧ rb_n2e t elm ∈ mem
  | ORemove elm | ONext elm | OPrev elm => elm ∈ os
  | _ => True
  end.

(** The entries a call may write: those of the members and of a new object; a search
    writes none. *)
Definition footprint (os : list Z) (op : rb_op) : list Z :=
  match op with
  | OInsert elm => rb_n2e t elm :: map (rb_n2e t) os
  | ORemove _ => map (rb_n2e t) os
  | _ => []
  end.

Record outcome_of (op : rb_op) (os : list Z) s (r : Z) s' : Prop := {
  oo_result : r = (spec cmp op os).1;
  oo_state : rbt_state t s' (spec cmp op os).2;
  oo_dom : dom (entries s') = dom (entries s);
  oo_frame q : q ∉ footprint os op → entries s' !! q = entries s !! q;
}.

(** A call that only reads. *)
Lemma outcome_read op os s r : rbt_state t s os → (spec cmp op os) = (r, os) → outcome_of op os s r s.
Proof. intros H E. split; rewrite ?E; done. Qed.

(** The entries of the members. *)
Lemma elems_n2e m0 s os T : tree_set t m0 s os T → elems T = map (rb_n2e t) os.
Proof.
  intros H. rewrite (ts_objs _ _ _ _ _ H), map_map. pose proof (ts_entries _ _ _ _ _ H) as Hu.
  induction Hu as [|a l Ha _ IH]; cbn; [done|]. by rewrite n2e_e2n, <-IH.
Qed.

Lemma first_or_null_head l : first_or_null (objs l) = obj t (first_of L l).
Proof. by destruct l. Qed.
Lemma last_or_null_last l : last_or_null (objs l) = obj t (first_of R l).
Proof.
  destruct l as [|a l _] using rev_ind; [done|]. unfold last_or_null. rewrite map_app. cbn. by rewrite !last_snoc.
Qed.

Lemma outcome_find key os s : rbt_state t s os → runs (_rb_find t key) s (outcome_of (OFind key) os s).
Proof.
  intros [T H]. pose proof (locate_set t _ _ _ _ key H) as Hl. pose proof (ts_holds _ _ _ _ _ H) as Hh.
  apply runs_bind, runs_gets, runs_bind, (runs_turns (entries s) s [] T); [done|]. intros n _ Hn _. rewrite (h_root _ _ _ Hh).
  eapply (runs_find_loop t s n key 0 []); [by apply h_rep in Hh|done|]. apply outcome_read; [by exists T|]. cbn.
  destruct (locate (against t key) [] T) as [k [|c l a r]]; cbn; [by destruct Hl as (_ & -> & _)|by destruct Hl as (-> & _)].
Qed.

Lemma outcome_nfind key os s : rbt_state t s os → runs (_rb_nfind t key) s (outcome_of (ONfind key) os s).
Proof.
  intros [T H]. pose proof (locate_set t _ _ _ _ key H) as Hl. pose proof (ts_holds _ _ _ _ _ H) as Hh.
  apply runs_bind, runs_gets, runs_bind, (runs_turns (entries s) s [] T); [done|]. intros n _ Hn _. rewrite (h_root _ _ _ Hh).
  eapply (runs_nfind_loop t s n key 0 []); [by apply h_rep in Hh|done|].
  destruct (locate (against t key) [] T) as [k x]. apply outcome_read; [by exists T|]. cbn.
  destruct x as [|c l a r]; [|by destruct Hl as (_ & ->)]. destruct Hl as (_ & _ & _ & ->). by destruct (after k).
Qed.

Lemma outcome_next elm os s :
  rbt_state t s os → elm ∈ os → runs (_rb_next t elm) s (outcome_of (ONext elm) os s).
Proof.
  intros [T H] Hin. destruct (member_set t _ _ _ _ elm H Hin) as (k & c & l & r & -> & _ & _ & Ha & _).
  apply (runs_neighbour t (entries s) s k R c r (rb_n2e t elm) l elm); [by apply ts_holds in H|done|].
  apply outcome_read; [by eexists|]. cbn [spec]. by rewrite Ha, first_or_null_head.
Qed.
Lemma outcome_prev elm os s :
  rbt_state t s os → elm ∈ os → runs (_rb_prev t elm) s (outcome_of (OPrev elm) os s).
Proof.
  intros [T H] Hin. destruct (member_set t _ _ _ _ elm H Hin) as (k & c & l & r & -> & _ & Hb & _ & _).
  apply (runs_neighbour t (entries s) s k L c l (rb_n2e t elm) r elm); [by apply ts_holds in H|done|].
  apply outcome_read; [by eexists|]. cbn [spec]. by rewrite Hb, last_or_null_last.
Qed.

(** The loop of [_rb_min] or [_rb_max]. *)
Lemma runs_end d s os (Q : Z → rbmem D → Prop) :
  rbt_state t s os → (∀ T, os = objs (elems T) → Q (obj t (first_of d (elems T))) s) →
  runs (rbe ← RBH_ROOT; n ← turns; parent ← end_loop d n 0 rbe; mret (e2n_or_null t parent)) s Q.
Proof.
  intros [T H] HQ. pose proof (ts_holds _ _ _ _ _ H) as Hh.
  apply runs_bind, runs_gets, runs_bind, (runs_turns (entries s) s [] T); [done|]. intros n _ Hn _. rewrite (h_root _ _ _ Hh).
  apply runs_bind, (runs_end_loop d s n 0); [by apply h_rep in Hh|done|]. apply runs_ret.
  rewrite (e2n_default t (elems T) d _ _ _ Hh (λ b Hb, Hb)). apply HQ. by apply ts_objs in H.
Qed.
Lemma outcome_min os s : rbt_state t s os → runs (_rb_min t) s (outcome_of OMin os s).
Proof.
  intros H. apply (runs_end L s os); [done|]. intros T Hos. apply outcome_read; [done|]. cbn [spec].
  by rewrite <-first_or_null_head, <-Hos.
Qed.
Lemma outcome_max os s : rbt_state t s os → runs (_rb_max t) s (outcome_of OMax os s).
Proof.
  intros H. apply (runs_end R s os); [done|]. intros T Hos. apply outcome_read; [done|]. cbn [spec].
  by rewrite <-last_or_null_last, <-Hos.
Qed.
Lemma outcome_empty os s : rbt_state t s os → runs (exec OEmpty) s (outcome_of OEmpty os s).
Proof.
  intros H. pose proof H as [T HT]. apply runs_bind, runs_bind, runs_gets, runs_ret, runs_ret. apply outcome_read; [done|].
  cbn [spec]. f_equal. rewrite (h_root _ _ _ (ts_holds _ _ _ _ _ HT)), (ts_objs _ _ _ _ _ HT).
  destruct T as [|c l a r]; [done|]. pose proof (h_rep _ _ _ (ts_holds _ _ _ _ _ HT)) as (Ha & _). cbn [ptr].
  rewrite (proj2 (Z.eqb_neq a 0) Ha), decide_False; [done|]. cbn. by destruct (elems l).
Qed.

(** ** Insertion and removal *)

(** The set after a call that leaves the tree [T']. *)
Lemma outcome_write op os s r s' m0 T' :
  r = (spec cmp op os).1 → holds m0 s' T' → rb T' → (spec cmp op os).2 = objs (elems T') →
  sorted cmp (spec cmp op os).2 → Forall is_u64 (elems T') → Forall (λ o, o ≠ 0) (spec cmp op os).2 →
  dom m0 = dom (entries s) → (∀ q, q ∈ elems T' → is_Some (m0 !! q)) →
  (∀ q, q ∉ footprint os op → q ∉ elems T' ∧ m0 !! q = entries s !! q) → outcome_of op os s r s'.
Proof.
  intros Hr H Hrb Hos Hs Hu Hn Hdom Hin Hframe. split; [done| | |].
  - exists T'. split; [by eapply holds_self|done..].
  - by rewrite (holds_dom _ _ _ Hin H).
  - intros q Hq. destruct (Hframe q Hq) as [Hq' <-]. by apply (h_out _ _ _ H).
Qed.

Lemma outcome_insert elm os s :
  rbt_state t s os → object t elm → is_Some (entries s !! rb_n2e t elm) →
  runs (_rb_insert t elm) s (outcome_of (OInsert elm) os s).
Proof.
  intros [T H] (Hu & Hnz & Ha) Hmem. pose proof (locate_set t _ _ _ _ elm H) as Hl. pose proof (ts_holds _ _ _ _ _ H) as Hh.
  pose proof (plug_locate (against t elm) [] T) as Hp.
  apply (runs_rb_insert t (entries s) s T elm); [done|by apply ts_rb in H|done|done|].
  destruct (locate (against t elm) [] T) as [k [|c l b r]]; cbn in Hp.
  2: { apply outcome_read; [by exists T|]. cbn [spec]. by destruct Hl as (-> & _). }
  destruct Hl as (Hb & He & Hab & _). pose proof (elems_n2e _ _ _ _ H) as Hels. pose proof Hels as Hels'.
  rewrite <-Hp, elems_plug in Hels'. cbn in Hels'.
  assert (rb_n2e t elm ∉ elems T) as Hnot.
  { intros Hin. assert (elm ∈ equal cmp elm os) as Hel; [|by rewrite He in Hel; apply elem_of_nil in Hel].
    apply list_elem_of_filter. split; [by apply cmp_refl|]. rewrite (ts_objs _ _ _ _ _ H), <-(e2n_n2e t elm Hu).
    by apply list_elem_of_fmap_2. }
  split; [by rewrite <-Hp, (elems_plug_perm k Leaf) in Hnot|]. intros s' T' HT' Hrb' HeT'.
  assert (os = objs (before k) ++ objs (after k)) as Hos.
  { rewrite (ts_objs _ _ _ _ _ H), <-Hp, elems_plug. cbn. by rewrite map_app. }
  assert (spec cmp (OInsert elm) os = (0, objs (before k) ++ elm :: objs (after k))) as Espec
    by (cbn [spec]; by rewrite He, Hb, Hab).
  assert (∀ q, q ∈ elems T' ↔ q = rb_n2e t elm ∨ q ∈ elems T) as Hin.
  { intros q. rewrite HeT', <-Hp, elems_plug. cbn. set_solver. }
  eapply (outcome_write _ os s 0 s' (entries s) T'); rewrite ?Espec; cbn [fst snd]; try done.
  - rewrite HeT', map_app. cbn. by rewrite e2n_n2e.
  - apply sorted_insert; [done|by rewrite <-Hos; apply ts_sorted in H| |]; [rewrite <-Hb|rewrite <-Hab];
      apply Forall_forall; intros x Hx; by apply list_elem_of_filter in Hx as [? _].
  - apply Forall_forall. intros q [->|Hq]%Hin; [unfold rb_n2e; auto with kern|].
    by apply (proj1 (Forall_forall _ _) (ts_entries _ _ _ _ _ H)).
  - pose proof (ts_nonnull _ _ _ _ _ H) as Hn. rewrite Hos in Hn. apply Forall_app in Hn as [Hn1 Hn2].
    apply Forall_app. split; [done|]. by constructor.
  - intros q [->|Hq]%Hin; [done|]. by destruct (rep_dom _ _ _ _ (h_rep _ _ _ Hh) Hq).
  - intros q Hq. split; [|done]. rewrite Hin, Hels. cbn in Hq. by rewrite elem_of_cons in Hq.
Qed.

Lemma outcome_remove elm os s :
  rbt_state t s os → elm ∈ os → runs (_rb_remove t elm) s (outcome_of (ORemove elm) os s).
Proof.
  intros [T H] Hin. destruct (member_set t _ _ _ _ elm H Hin) as (k & c & l & r & -> & Hu & Hb & Hab & Hos).
  pose proof (ts_holds _ _ _ _ _ H) as Hh. pose proof (elems_n2e _ _ _ _ H) as Hels.
  pose proof (an_nz _ _ _ _ _ _ _ (holds_node (entries s) s k L c l (rb_n2e t elm) r Hh)) as Ha.
  apply runs_bind, (runs_rbe_remove t (entries s) s k c l (rb_n2e t elm) r); [by apply ts_rb in H|done|].
  intros s' T' e HT' Hrb' HeT'. apply runs_ret. unfold e2n_or_null. rewrite (proj2 (Z.eqb_neq _ 0) Ha), e2n_n2e by done.
  pose proof (ts_sorted _ _ _ _ _ H) as Hs. pose proof Hs as Hs'. rewrite Hos in Hs'.
  destruct (sorted_falls cmp elm _ _ _ Hs') as [Hge Hle]. pose proof (cmp_refl cmp elm) as Hrefl.
  assert ((spec cmp (ORemove elm) os).2 = below cmp elm os ++ above cmp elm os) as Espec.
  { cbn [spec snd]. rewrite Hos at 1. rewrite filter_app, filter_cons_False by naive_solver. f_equal; apply filter_all.
    - eapply Forall_impl; [apply Hge; lia|]. cbn. intros x Hx ->. lia.
    - eapply Forall_impl; [apply Hle; lia|]. cbn. intros x Hx ->. lia. }
  assert (∀ q, q ∈ elems T' → q ∈ elems (plug k (Node c l (rb_n2e t elm) r))) as Hsub.
  { intros q. rewrite HeT', elems_plug. cbn. set_solver. }
  assert (∀ q, q ∈ elems (plug k (Node c l (rb_n2e t elm) r)) → is_Some (entries s !! q)) as Hsome.
  { intros q Hq. by destruct (rep_dom _ _ _ _ (h_rep _ _ _ Hh) Hq). }
  assert (rb_n2e t elm ∈ elems (plug k (Node c l (rb_n2e t elm) r))) as Hain by (rewrite elems_plug; cbn; set_solver).
  eapply (outcome_write _ os s elm s' (<[rb_n2e t elm := e]> (entries s)) T'); rewrite ?Espec; try done.
  - rewrite HeT', Hb, Hab, !map_app. by rewrite <-!app_assoc.
  - by eapply sorted_remove.
  - apply Forall_forall. intros q Hq%Hsub. by apply (proj1 (Forall_forall _ _) (ts_entries _ _ _ _ _ H)).
  - pose proof (ts_nonnull _ _ _ _ _ H) as Hn. rewrite Hos in Hn. apply Forall_app in Hn as [Hn1 Hn2].
    apply Forall_app. split; [done|]. by apply Forall_cons in Hn2 as [_ ?].
  - rewrite dom_insert_lookup_L; [done|]. by apply Hsome.
  - intros q Hq%Hsub%Hsome. by apply lookup_insert_is_Some'; right.
  - intros q Hq. cbn in Hq. rewrite <-Hels in Hq. split; [by intros ?%Hsub|]. rewrite lookup_insert_ne; [done|]. by intros <-.
Qed.

(** ** Any call, and any sequence of calls *)

Lemma outcome_exec op os s :
  rbt_state t s os → allowed (dom (entries s)) os op → runs (exec op) s (outcome_of op os s).
Proof.
  intros H Hok. destruct op; cbn in Hok.
  - destruct Hok as [Ho Hm%elem_of_dom]. by apply outcome_insert.
  - by apply outcome_remove.
  - by apply outcome_find.
  - by apply outcome_nfind.
  - by apply outcome_next.
  - by apply outcome_prev.
  - by apply outcome_min.
  - by apply outcome_max.
  - by apply outcome_empty.
Qed.

Fixpoint exec_all (ops : list rb_op) : RM (list Z) :=
  match ops with
  | [] => mret []
  | op :: ops => r ← exec op; rs ← exec_all ops; mret (r :: rs)
  end.
Fixpoint allowed_all (mem : gset Z) (os : list Z) (ops : list rb_op) : Prop :=
  match ops with
  | [] => True
  | op :: ops => allowed mem os op ∧ allowed_all mem (spec cmp op os).2 ops
  end.

Lemma init_state s : runs (_rb_init (D:=D)) s (λ _ s', rbt_state t s' [] ∧ entries s' = entries s).
Proof.
  apply runs_modify. split; [|done]. exists Leaf. repeat split; cbn; try constructor; try done. by exists O.
Qed.

Lemma exec_all_refines ops os s :
  rbt_state t s os → allowed_all (dom (entries s)) os ops →
  runs (exec_all ops) s (λ rs s', rs = (spec_all cmp ops os).1 ∧ rbt_state t s' (spec_all cmp ops os).2).
Proof.
  revert os s. induction ops as [|op ops IH]; intros os s H Hok; [by apply runs_ret|]. destruct Hok as [Hop Hops].
  apply runs_bind. eapply runs_mono; [by apply outcome_exec|]. intros r s1 [Hr H1 Hdom _]. rewrite <-Hdom in Hops.
  apply runs_bind. eapply runs_mono; [by apply IH|]. intros rs s2 [Hrs H2]. apply runs_ret. cbn.
  destruct (spec cmp op os) as [r' os1]. cbn in *. destruct (spec_all cmp ops os1) as [rs' os2]. cbn in *. by subst.
Qed.
End ops.

#[export] Instance object_dec {D} (t : rb_type D) o : Decision (object t o).
Proof. unfold object, is_u64. apply _. Defined.
#[export] Instance allowed_dec {D} (t : rb_type D) mem os op : Decision (allowed t mem os op).
Proof. destruct op; cbn; apply _. Defined.
#[export] Instance allowed_all_dec {D} (t : rb_type D) mem os ops : Decision (allowed_all t mem os ops).
Proof. revert os. induction ops as [|op ops IH]; intros os; cbn; apply _. Defined.
