(* ===== verification/RbtProps.v ===== *)
(** The properties of the red-black trees of subr_tree.c, with a small memory on
    which their witnesses run. *)

From S2P Require Import Prelude StateMonad Rbt RbtTree RbtMem RbtFind RbtIns RbtDel RbtSet RbtOps.

(** ** A small memory *)

(** Objects that are compared by address, with the entry 8 bytes into them; the
    augmentation function counts its calls. *)
Definition sample_type : rb_type Z := RbType (by_number (λ o, o)) (Some (λ _ _ n, n + 1)) 8.

Definition sample_objects : list Z := [100; 200; 300; 400; 500; 600; 700].
Definition sample_memory : gmap Z rb_entry :=
  list_to_map ((λ o, (rb_n2e sample_type o, RbEntry 0 0 0 RB_BLACK)) <$> sample_objects).
Definition sample_start : rbmem Z := RbMem 0 sample_memory 0.

Definition sample_ops : list rb_op :=
  [OInsert 400; OInsert 300; OInsert 200; OInsert 100; OInsert 500; OInsert 600; OInsert 700; OInsert 300;
   ONext 400; OPrev 100; OFind 250; ONfind 250; ORemove 400; OMin; ORemove 100; ORemove 600; ONext 300; OMax;
   ORemove 200; ORemove 300; ORemove 500; OEmpty; ORemove 700; OEmpty].

Example sample_run :
  result ((_rb_init;; exec_all sample_type sample_ops) sample_start) =
    Ret [0; 0; 0; 0; 0; 0; 0; 300; 500; 0; 0; 300; 400; 100; 100; 600; 500; 700; 200; 300; 500; 0; 700; 1].
Proof. vm_compute. reflexivity. Qed.

(** Three objects in a tree. *)
Definition sample_tree : tree :=
  Node Black (Node Red Leaf 108 Leaf) 308 (Node Red Leaf 508 Leaf).
Definition sample_entries : gmap Z rb_entry :=
  <[308 := RbEntry 0 108 508 RB_BLACK]> (<[108 := RbEntry 308 0 0 RB_RED]> (<[508 := RbEntry 308 0 0 RB_RED]> sample_memory)).
Definition sample_state : rbmem Z := RbMem 308 sample_entries 0.

Lemma sample_ok : rbt_state sample_type sample_state [100; 300; 500].
Proof.
  exists sample_tree. split.
  - split; [done| | |done].
    + cbn. split_and!; try done; vm_compute; reflexivity.
    + by apply (bool_decide_unpack _).
  - split; [done|]. split; [cbn; naive_solver|]. exists 1%nat. cbn. done.
  - vm_compute. reflexivity.
  - repeat constructor.
  - repeat constructor; done.
  - repeat constructor; done.
Qed.

(** ** Properties *)

(** C15: the calls refine an ordered set.  From an empty tree, any sequence of
    insertions, removals, searches (exact, and for the first object not less than a
    key) and steps to the next or previous object runs to its end without a fault, each
    call returns what the specification on the sorted list of the objects says, and
    the tree holds that list at the end. *)
Theorem rbt_refines_set {D} (t : rb_type D) (Hcmp : CompareLaws (t_compare t)) ops s :
  allowed_all t (dom (entries s)) [] ops →
  runs (_rb_init;; exec_all t ops) s (λ rs s',
    rs = (spec_all (t_compare t) ops []).1 ∧ rbt_state t s' (spec_all (t_compare t) ops []).2).
Proof.
  intros Hok. apply runs_bind. eapply runs_mono; [by apply (init_state t)|]. intros [] s1 [H1 He]. rewrite <-He in Hok.
  by apply exec_all_refines.
Qed.

Lemma rbt_refines_set_witness :
  runs (_rb_init;; exec_all sample_type sample_ops) sample_start (λ rs s',
    rs = [0; 0; 0; 0; 0; 0; 0; 300; 500; 0; 0; 300; 400; 100; 100; 600; 500; 700; 200; 300; 500; 0; 700; 1] ∧
    rbt_state sample_type s' []).
Proof.
  apply (rbt_refines_set sample_type (by_number_laws _) sample_ops sample_start).
  apply (bool_decide_unpack _). vm_compute. exact I.
Defined.

(** C16: the trees stay balanced.  After any sequence of calls from an empty tree the
    entries form a tree whose parent pointers are right, whose root is black, where no
    red node has a red child and every path to a leaf has as many black nodes, so that
    its height is at most twice the logarithm of the number of objects plus one. *)
Theorem rbt_stays_balanced {D} (t : rb_type D) (Hcmp : CompareLaws (t_compare t)) ops s :
  allowed_all t (dom (entries s)) [] ops →
  runs (_rb_init;; exec_all t ops) s (λ _ s', ∃ T,
    rbt_root s' = ptr T ∧ rep (entries s') 0 T ∧ tcol T = Black ∧ nored T ∧ (∃ n, bal T n) ∧
    (height T ≤ 2 * Nat.log2 (S (length (spec_all (t_compare t) ops []).2)))%nat).
Proof.
  intros Hok. apply runs_bind. eapply runs_mono; [by apply (init_state t)|]. intros [] s1 [H1 He]. rewrite <-He in Hok.
  eapply runs_mono; [by apply exec_all_refines|]. intros rs s2 [_ [T [[Hr Hrep _ _] Hrb Hos _ _ _]]]. exists T.
  pose proof (rb_height T Hrb) as Hh. rewrite Hos, length_map. by destruct Hrb as (? & ? & ?).
Qed.

Lemma rbt_stays_balanced_witness :
  runs (_rb_init;; exec_all sample_type (take 8 sample_ops)) sample_start (λ _ s', ∃ T,
    rbt_root s' = ptr T ∧ rep (entries s') 0 T ∧ tcol T = Black ∧ nored T ∧ (∃ n, bal T n) ∧ (height T ≤ 6)%nat).
Proof.
  apply (rbt_stays_balanced sample_type (by_number_laws _) (take 8 sample_ops) sample_start).
  apply (bool_decide_unpack _). vm_compute. exact I.
Defined.

(** a search looks at 2 log2 (n + 1) objects at most, where the tree has [n]: the
    loop of [_rb_find] ends within one turn more and returns the object that compares
    equal to the key, or [NULL] where there is none. *)
Theorem rbt_search_bound {D} (t : rb_type D) (Hcmp : CompareLaws (t_compare t)) s os key :
  rbt_state t s os →
  find_loop t (S (2 * Nat.log2 (S (length os)))) key (rbt_root s) s = Ret (first_or_null (equal (t_compare t) key os), s).
Proof.
  intros [T H]. pose proof (locate_set t _ _ _ _ key H) as Hl. pose proof (ts_holds _ _ _ _ _ H) as Hh.
  pose proof (rb_height T (ts_rb _ _ _ _ _ H)) as Hb. rewrite (h_root _ _ _ Hh).
  assert (length os = length (elems T)) as -> by (by rewrite (ts_objs _ _ _ _ _ H), length_map).
  destruct (runs_find_loop t s (S (2 * Nat.log2 (S (length (elems T))))) key 0 [] T
              (λ r s', r = first_or_null (equal (t_compare t) key os) ∧ s' = s)) as (r & s' & -> & -> & ->); [| | |done].
  - by apply h_rep in Hh.
  - lia.
  - split; [|done].
    destruct (locate (against t key) [] T) as [k [|c l a r]]; cbn; [by destruct Hl as (_ & -> & _)|by destruct Hl as (-> & _)].
Qed.

Lemma rbt_search_bound_witness :
  find_loop sample_type 5 500 308 sample_state = Ret (500, sample_state).
Proof. exact (rbt_search_bound sample_type (by_number_laws _) sample_state [100; 300; 500] 500 sample_ok). Defined.

(** inserting an object that compares equal to none in the tree and removing it
    again gives back the object and the set as it was. *)
Theorem rbt_insert_remove {D} (t : rb_type D) (Hcmp : CompareLaws (t_compare t)) s os elm :
  rbt_state t s os → object t elm → is_Some (entries s !! rb_n2e t elm) → equal (t_compare t) elm os = [] →
  runs (r ← _rb_insert t elm; elm' ← _rb_remove t elm; mret (r, elm')) s (λ r s', r = (0, elm) ∧ rbt_state t s' os).
Proof.
  intros H Ho Hm He. apply runs_bind. eapply runs_mono; [by apply (outcome_insert t elm os s)|].
  intros r s1 [Hr H1 _ _]. cbn [spec] in Hr, H1. rewrite He in Hr, H1. cbn in Hr, H1.
  apply runs_bind. eapply runs_mono; [apply (outcome_remove t elm _ s1 H1); set_solver|].
  intros elm' s2 [Hr2 H2 _ _]. cbn in Hr2, H2. apply runs_ret. subst. split; [done|].
  rewrite filter_app, filter_cons_False in H2 by naive_solver.
  destruct (fresh_cut t s os elm H He) as [Hcut Hne]. rewrite <-filter_app, <-Hcut, filter_all in H2 by done. done.
Qed.

Lemma rbt_insert_remove_witness :
  runs (r ← _rb_insert sample_type 200; elm' ← _rb_remove sample_type 200; mret (r, elm')) sample_state
    (λ r s', r = (0, 200) ∧ rbt_state sample_type s' [100; 300; 500]).
Proof.
  apply (rbt_insert_remove sample_type (by_number_laws _) sample_state [100; 300; 500] 200 sample_ok).
  - by apply (bool_decide_unpack _).
  - vm_compute. by eexists.
  - reflexivity.
Defined.

(** a call touches no entry of an object that is neither in the tree nor its
    argument, and the searches write nothing at all. *)
Theorem rbt_call_frame {D} (t : rb_type D) (Hcmp : CompareLaws (t_compare t)) s os op :
  rbt_state t s os → allowed t (dom (entries s)) os op →
  runs (exec t op) s (λ _ s', dom (entries s') = dom (entries s) ∧
    (∀ q, q ∉ footprint t os op → entries s' !! q = entries s !! q)).
Proof. intros H Hok. eapply runs_mono; [by apply (outcome_exec t op os)|]. intros r s' [_ _ Hd Hf]. done. Qed.

Lemma rbt_call_frame_witness :
  runs (exec sample_type (ORemove 300)) sample_state (λ _ s', dom (entries s') = dom (entries sample_state) ∧
    (∀ q, q ∉ [108; 308; 508] → entries s' !! q = entries sample_state !! q)).
Proof.
  apply (rbt_call_frame sample_type (by_number_laws _) sample_state [100; 300; 500] (ORemove 300) sample_ok).
  by apply (bool_decide_unpack _).
Defined.
