(* ===== verification/Circq.v ===== *)
(** The circular queues of kern/kern_timeout.c: the macros on the two pointers of
    each [struct circq], and what they do to the lists the queues stand for. *)

From S2P Require Import Prelude StateMonad.

(** ** Memory *)

(** The queue heads of the file, static variables. *)
Inductive queue : Type :=
| timeout_new
| timeout_todo
| timeout_proc
| timeout_proc_mp
| timeout_wheel (b : Z)
| timeout_wheel_kc (b : Z).

(** A pointer to a [struct circq]: [NULL], the value that _Q_INVALIDATE leaves, a
    queue head, or the [to_list] of a timeout, which is named by its address. *)
Inductive ptr : Type :=
| Null
| Invalid
| Head (q : queue)
| Elem (a : Z).

#[export] Instance queue_eq_dec : EqDecision queue.
Proof. solve_decision. Defined.
#[export] Instance ptr_eq_dec : EqDecision ptr.
Proof. solve_decision. Defined.

#[export] Instance Elem_inj : Inj (=) (=) Elem.
Proof. by intros a b [= ->]. Qed.
#[export] Instance Head_inj : Inj (=) (=) Head.
Proof. by intros a b [= ->]. Qed.

Definition queue_code (q : queue) : Z * Z :=
  match q with
  | timeout_new => (0, 0)
  | timeout_todo => (1, 0)
  | timeout_proc => (2, 0)
  | timeout_proc_mp => (3, 0)
  | timeout_wheel b => (4, b)
  | timeout_wheel_kc b => (5, b)
  end.
Definition queue_decode (c : Z * Z) : option queue :=
  match c with
  | (0, _) => Some timeout_new
  | (1, _) => Some timeout_todo
  | (2, _) => Some timeout_proc
  | (3, _) => Some timeout_proc_mp
  | (4, b) => Some (timeout_wheel b)
  | (5, b) => Some (timeout_wheel_kc b)
  | _ => None
  end.
#[export] Program Instance queue_countable : Countable queue :=
  inj_countable queue_code queue_decode _.
Next Obligation. by intros []. Qed.

Definition ptr_code (p : ptr) : bool + (queue + Z) :=
  match p with
  | Null => inl false
  | Invalid => inl true
  | Head q => inr (inl q)
  | Elem a => inr (inr a)
  end.
Definition ptr_decode (c : bool + (queue + Z)) : option ptr :=
  Some match c with
  | inl false => Null
  | inl true => Invalid
  | inr (inl q) => Head q
  | inr (inr a) => Elem a
  end.
#[export] Program Instance ptr_countable : Countable ptr := inj_countable ptr_code ptr_decode _.
Next Obligation. by intros []. Qed.

Record circq : Type := Circq { next : ptr; prev : ptr }.

(** The memory of the queues, with [tostat.tos_pending], which the macros count. *)
Record circqs : Type := Circqs {
  c_mem : gmap ptr circq;
  tos_pending : Z;
}.

(** ** The macros *)

Abbreviation CM := (ST circqs).

Definition get_next (p : ptr) : CM ptr := λ s,
  match c_mem s !! p with Some c => Ret (next c, s) | None => Fault NullDeref end.
Definition get_prev (p : ptr) : CM ptr := λ s,
  match c_mem s !! p with Some c => Ret (prev c, s) | None => Fault NullDeref end.
Definition set_next (p v : ptr) : CM () := λ s,
  match c_mem s !! p with
  | Some c => Ret (tt, Circqs (<[p := Circq v (prev c)]> (c_mem s)) (tos_pending s))
  | None => Fault NullDeref
  end.
Definition set_prev (p v : ptr) : CM () := λ s,
  match c_mem s !! p with
  | Some c => Ret (tt, Circqs (<[p := Circq (next c) v]> (c_mem s)) (tos_pending s))
  | None => Fault NullDeref
  end.
Definition add_pending (n : Z) : CM () := modify (λ s, Circqs (c_mem s) (u64 (tos_pending s + n))).

Definition CIRCQ_INIT (elem : ptr) : CM () := set_next elem elem;; set_prev elem elem.

Definition CIRCQ_INSERT_HEAD (list elem : ptr) : CM () :=
  n ← get_next list; set_next elem n;;
  n ← get_next list; set_prev n elem;;
  set_next list elem;;
  set_prev elem list;;
  add_pending 1.

Definition CIRCQ_INSERT_TAIL (list elem : ptr) : CM () :=
  p ← get_prev list; set_prev elem p;;
  set_next elem list;;
  p ← get_prev list; set_next p elem;;
  set_prev list elem;;
  add_pending 1.

Definition CIRCQ_FIRST (elem : ptr) : CM ptr := get_next elem.
Definition CIRCQ_EMPTY (elem : ptr) : CM bool := n ← CIRCQ_FIRST elem; mret (bool_decide (n = elem)).

Definition CIRCQ_CONCAT (fst snd : ptr) : CM () :=
  e ← CIRCQ_EMPTY snd;
  if (e : bool) then mret tt
  else
    p ← get_prev fst; n ← get_next snd; set_next p n;;
    n ← get_next snd; p ← get_prev fst; set_prev n p;;
    p ← get_prev snd; set_next p fst;;
    p ← get_prev snd; set_prev fst p;;
    CIRCQ_INIT snd.

Definition CIRCQ_REMOVE (elem : ptr) : CM () :=
  n ← get_next elem; p ← get_prev elem; set_prev n p;;
  p ← get_prev elem; n ← get_next elem; set_next p n;;
  set_prev elem Invalid;;
  set_next elem Invalid;;
  add_pending (-1).

(** ** Lists in memory *)

(** Both pointers between two neighbours. *)
Definition edge (m : gmap ptr circq) (x y : ptr) : Prop :=
  next <$> m !! x = Some y ∧ prev <$> m !! y = Some x.

Fixpoint linked (m : gmap ptr circq) (l : list ptr) : Prop :=
  match l with
  | x :: (y :: _) as l => edge m x y ∧ linked m l
  | _ => True
  end.

(** A queue stands for the list of the timeouts on it. *)
Definition circular (m : gmap ptr circq) (q : queue) (l : list Z) : Prop :=
  linked m (Head q :: (Elem <$> l) ++ [Head q]).

Lemma linked_app m k x l : linked m (k ++ x :: l) ↔ linked m (k ++ [x]) ∧ linked m (x :: l).
Proof.
  induction k as [|y k IH]; [cbn; tauto|]. destruct k as [|z k]; cbn in *; [tauto|]. rewrite IH. tauto.
Qed.

(** What keeps a piece of a queue as it is: the next pointers of all but the last, the
    previous pointers of all but the first. *)
Lemma linked_frame m m' x l :
  (∀ y, y ∈ removelast (x :: l) → next <$> m' !! y = next <$> m !! y) →
  (∀ y, y ∈ l → prev <$> m' !! y = prev <$> m !! y) →
  linked m (x :: l) → linked m' (x :: l).
Proof.
  revert x. induction l as [|y l IH]; intros x Hn Hp; [done|]. intros [[Hx Hy] Hl]. split; [split|].
  - rewrite Hn; [done|]. cbn. left.
  - rewrite Hp; [done|]. left.
  - apply IH; [|set_solver|done]. intros z Hz. apply Hn. cbn in *. by right.
Qed.

(** ** Writes *)

Definition wn (p v : ptr) (m : gmap ptr circq) : gmap ptr circq := alter (λ c, Circq v (prev c)) p m.
Definition wp (p v : ptr) (m : gmap ptr circq) : gmap ptr circq := alter (λ c, Circq (next c) v) p m.

#[global] Arguments wn : simpl never.
#[global] Arguments wp : simpl never.

Lemma next_wn_eq m p v : is_Some (m !! p) → next <$> wn p v m !! p = Some v.
Proof. intros [c E]. unfold wn. by rewrite lookup_alter_eq, E. Qed.
Lemma prev_wp_eq m p v : is_Some (m !! p) → prev <$> wp p v m !! p = Some v.
Proof. intros [c E]. unfold wp. by rewrite lookup_alter_eq, E. Qed.
Lemma next_wn_ne m p v y : y ≠ p → next <$> wn p v m !! y = next <$> m !! y.
Proof. intros H. unfold wn. by rewrite lookup_alter_ne. Qed.
Lemma prev_wp_ne m p v y : y ≠ p → prev <$> wp p v m !! y = prev <$> m !! y.
Proof. intros H. unfold wp. by rewrite lookup_alter_ne. Qed.
Lemma next_wp m p v y : next <$> wp p v m !! y = next <$> m !! y.
Proof. unfold wp. destruct (decide (p = y)) as [->|H]; [|by rewrite lookup_alter_ne]. rewrite lookup_alter_eq. by destruct (m !! y). Qed.
Lemma prev_wn m p v y : prev <$> wn p v m !! y = prev <$> m !! y.
Proof. unfold wn. destruct (decide (p = y)) as [->|H]; [|by rewrite lookup_alter_ne]. rewrite lookup_alter_eq. by destruct (m !! y). Qed.
Lemma lookup_wn_ne m p v y : y ≠ p → wn p v m !! y = m !! y.
Proof. intros H. unfold wn. by rewrite lookup_alter_ne. Qed.
Lemma lookup_wp_ne m p v y : y ≠ p → wp p v m !! y = m !! y.
Proof. intros H. unfold wp. by rewrite lookup_alter_ne. Qed.
Lemma some_wn m p v y : is_Some (wn p v m !! y) ↔ is_Some (m !! y).
Proof. unfold wn. by rewrite lookup_alter_is_Some. Qed.
Lemma some_wp m p v y : is_Some (wp p v m !! y) ↔ is_Some (m !! y).
Proof. unfold wp. by rewrite lookup_alter_is_Some. Qed.
Lemma dom_wn m p v : dom (wn p v m) = dom m.
Proof. apply dom_alter_L. Qed.
Lemma dom_wp m p v : dom (wp p v m) = dom m.
Proof. apply dom_alter_L. Qed.

Lemma runs_get_next s p v (R : ptr → circqs → Prop) : next <$> c_mem s !! p = Some v → R v s → runs (get_next p) s R.
Proof. intros E HR. exists v, s. unfold get_next. destruct (c_mem s !! p); [|done]. by injection E as <-. Qed.
Lemma runs_get_prev s p v (R : ptr → circqs → Prop) : prev <$> c_mem s !! p = Some v → R v s → runs (get_prev p) s R.
Proof. intros E HR. exists v, s. unfold get_prev. destruct (c_mem s !! p); [|done]. by injection E as <-. Qed.
Lemma insert_alter (m : gmap ptr circq) p c f : m !! p = Some c → <[p := f c]> m = alter f p m.
Proof.
  intros E. apply map_eq. intros y. destruct (decide (y = p)) as [->|Hy].
  - by rewrite lookup_insert_eq, lookup_alter_eq, E.
  - by rewrite lookup_insert_ne, lookup_alter_ne.
Qed.
Lemma runs_set_next s p v (R : () → circqs → Prop) :
  is_Some (c_mem s !! p) → R tt (Circqs (wn p v (c_mem s)) (tos_pending s)) → runs (set_next p v) s R.
Proof.
  intros [c E] HR. eexists tt, _. split; [unfold set_next; by rewrite E|].
  by rewrite (insert_alter _ p c (λ c, Circq v (prev c)) E).
Qed.
Lemma runs_set_prev s p v (R : () → circqs → Prop) :
  is_Some (c_mem s !! p) → R tt (Circqs (wp p v (c_mem s)) (tos_pending s)) → runs (set_prev p v) s R.
Proof.
  intros [c E] HR. eexists tt, _. split; [unfold set_prev; by rewrite E|].
  by rewrite (insert_alter _ p c (λ c, Circq (next c) v) E).
Qed.

(** Rewriting the fields of a memory after writes elsewhere. *)
Ltac field :=
  repeat first
    [ rewrite next_wp | rewrite prev_wn
    | rewrite next_wn_eq by (repeat first [rewrite some_wn | rewrite some_wp]; done)
    | rewrite prev_wp_eq by (repeat first [rewrite some_wn | rewrite some_wp]; done)
    | rewrite next_wn_ne by done | rewrite prev_wp_ne by done ].
(** Where a memory cell is known to be there after writes. *)
Ltac there := cbn [c_mem]; repeat first [rewrite some_wn | rewrite some_wp]; done.

(** ** All the queues *)

Definition valid_queue (q : queue) : Prop :=
  match q with timeout_wheel b | timeout_wheel_kc b => 0 ≤ b < 1024 | _ => True end.

#[export] Instance valid_queue_dec q : Decision (valid_queue q).
Proof. destruct q; cbn; apply _. Defined.

Abbreviation lists := (queue → list Z).
Definition put (q : queue) (l : list Z) (Q : lists) : lists := λ q', if decide (q' = q) then l else Q q'.

Definition nodes (q : queue) (l : list Z) : list ptr := Head q :: (Elem <$> l).

Record queues (Q : lists) (m : gmap ptr circq) : Prop := {
  qs_linked q : valid_queue q → circular m q (Q q);
  qs_nodup q : NoDup (Q q);
  qs_apart q q' a : a ∈ Q q → a ∈ Q q' → q = q';
  qs_valid q : ¬ valid_queue q → Q q = [];
}.

Lemma put_eq q l Q : put q l Q q = l.
Proof. unfold put. by rewrite decide_True. Qed.
Lemma put_ne q l Q q' : q' ≠ q → put q l Q q' = Q q'.
Proof. intros H. unfold put. by rewrite decide_False. Qed.

Lemma elem_nodes a q l : Elem a ∈ nodes q l ↔ a ∈ l.
Proof.
  unfold nodes. rewrite elem_of_cons, list_elem_of_fmap. split; [intros [?|(b & [= ->] & ?)]; done|].
  intros H. right. by exists a.
Qed.
Lemma head_nodes q' q l : Head q' ∈ nodes q l ↔ q' = q.
Proof.
  unfold nodes. rewrite elem_of_cons, list_elem_of_fmap. split; [intros [[= ->]|(b & ? & ?)]; done|]. intros ->. by left.
Qed.
Lemma NoDup_nodes q l : NoDup l → NoDup (nodes q l).
Proof.
  intros H. apply NoDup_cons. split; [|by apply NoDup_fmap_2; [intros ? ? [=]|]].
  rewrite list_elem_of_fmap. by intros (b & ? & ?).
Qed.
Lemma nodes_apart Q m q q' p : queues Q m → q ≠ q' → p ∈ nodes q (Q q) → p ∉ nodes q' (Q q').
Proof.
  intros H Hq Hp Hp'. destruct p as [| |q0|a].
  - unfold nodes in Hp. apply elem_of_cons in Hp as [?|(b & ? & ?)%list_elem_of_fmap]; done.
  - unfold nodes in Hp. apply elem_of_cons in Hp as [?|(b & ? & ?)%list_elem_of_fmap]; done.
  - apply head_nodes in Hp as ->. by apply head_nodes in Hp'.
  - apply elem_nodes in Hp, Hp'. by apply Hq, (qs_apart _ _ H q q' a).
Qed.

Lemma circular_frame m m' q l : (∀ y, y ∈ nodes q l → m' !! y = m !! y) → circular m q l → circular m' q l.
Proof.
  intros Hm. unfold circular. apply linked_frame; intros y Hy; rewrite Hm; try done.
  - rewrite app_comm_cons, removelast_last in Hy. exact Hy.
  - unfold nodes. apply elem_of_app in Hy as [Hy|Hy%list_elem_of_singleton]; [by right|]. subst. left.
Qed.

(** The last node before the head again. *)
Lemma last_node q l : ∃ k p, nodes q l = k ++ [p].
Proof. destruct (exists_last (l := nodes q l)) as (k & p & E); [done|]. by exists k, p. Qed.

Lemma circular_last m q l k p :
  nodes q l = k ++ [p] → circular m q l ↔ linked m (nodes q l) ∧ edge m p (Head q).
Proof.
  intros E. unfold circular. change (Head q :: (Elem <$> l) ++ [Head q]) with (nodes q l ++ [Head q]).
  rewrite E, <-app_assoc. cbn. rewrite linked_app. cbn. tauto.
Qed.

Lemma edge_some m x y : edge m x y → is_Some (m !! x) ∧ is_Some (m !! y).
Proof. intros [Hx Hy]. by destruct (m !! x), (m !! y). Qed.

(** The linked part of a queue is not touched by writes at its ends. *)
Lemma linked_ends m m' q l k p :
  NoDup l → nodes q l = k ++ [p] →
  (∀ y, y ∈ nodes q l → y ≠ p → next <$> m' !! y = next <$> m !! y) →
  (∀ a, a ∈ l → prev <$> m' !! Elem a = prev <$> m !! Elem a) →
  linked m (nodes q l) → linked m' (nodes q l).
Proof.
  intros Hnd E Hn Hp. apply (linked_frame m m' (Head q) (Elem <$> l)).
  - change (Head q :: (Elem <$> l)) with (nodes q l). pose proof (NoDup_nodes q l Hnd) as Hnd'. rewrite E in Hnd' |- *.
    rewrite removelast_last. intros y Hy. apply Hn; [rewrite E; set_solver|]. intros ->.
    apply NoDup_app in Hnd' as (_ & Hnd' & _). apply (Hnd' p Hy). by left.
  - intros y (a & -> & Ha)%list_elem_of_fmap. by apply Hp.
Qed.

(** A change of the lists of some queues, where the memory of the others is untouched. *)
Lemma queues_change Q Q' m m' :
  queues Q m →
  (∀ q, valid_queue q → (Q' q = Q q ∧ ∀ y, y ∈ nodes q (Q q) → m' !! y = m !! y) ∨ circular m' q (Q' q)) →
  (∀ q, NoDup (Q' q)) → (∀ q q' a, a ∈ Q' q → a ∈ Q' q' → q = q') → (∀ q, ¬ valid_queue q → Q' q = []) → queues Q' m'.
Proof.
  intros H Hch Hnd Hap Hv. split; [|done..]. intros q Hq. destruct (Hch q Hq) as [[-> Hm]|Hc]; [|done].
  by apply (circular_frame m), (qs_linked _ _ H).
Qed.

(** One queue changes. *)
Lemma queues_put Q m m' q l :
  queues Q m → valid_queue q → circular m' q l → NoDup l → (∀ a q', a ∈ l → a ∈ Q q' → q' = q) →
  (∀ y, y ∉ nodes q (Q q) → y ∉ nodes q l → m' !! y = m !! y) → queues (put q l Q) m'.
Proof.
  intros H Hq Hc Hnd Hap Hm. apply (queues_change Q _ m); [done|..].
  - intros q' Hq'. destruct (decide (q' = q)) as [->|Hne]; [right; by rewrite put_eq|]. left. rewrite put_ne by done. split; [done|].
    intros y Hy. apply Hm; [by eapply (nodes_apart Q m q' q)|]. intros Hyl. destruct y as [| |q0|a].
    + unfold nodes in Hy. apply elem_of_cons in Hy as [?|(b & ? & ?)%list_elem_of_fmap]; done.
    + unfold nodes in Hy. apply elem_of_cons in Hy as [?|(b & ? & ?)%list_elem_of_fmap]; done.
    + apply head_nodes in Hy, Hyl. by subst.
    + apply elem_nodes in Hy, Hyl. by apply Hne, (Hap a).
  - intros q'. destruct (decide (q' = q)) as [->|Hne]; [by rewrite put_eq|]. rewrite put_ne by done. by apply (qs_nodup _ _ H).
  - intros q1 q2 a. destruct (decide (q1 = q)) as [->|H1], (decide (q2 = q)) as [->|H2]; rewrite ?put_eq, ?put_ne by done; try done.
    + intros Ha1 Ha2. symmetry. by apply (Hap a).
    + intros Ha1 Ha2. by apply (Hap a).
    + by apply (qs_apart _ _ H).
  - intros q' Hv. rewrite put_ne; [by apply (qs_valid _ _ H)|]. by intros ->.
Qed.

(** ** What the macros do *)

Section macros.
Implicit Types (s : circqs) (R : () → circqs → Prop).

(** A memory after a macro: what it stands for, its cells and the count. *)
Record after_macro (Q' : lists) (n : Z) s s' : Prop := {
  am_queues : queues Q' (c_mem s');
  am_dom : dom (c_mem s') = dom (c_mem s);
  am_pending : tos_pending s' = u64 (tos_pending s + n);
}.

Lemma runs_cq_first q l s (R : ptr → circqs → Prop) :
  circular (c_mem s) q l → R (match l with [] => Head q | a :: _ => Elem a end) s → runs (CIRCQ_FIRST (Head q)) s R.
Proof. intros H HR. apply (runs_get_next _ _ (match l with [] => Head q | a :: _ => Elem a end)); [|done]. by destruct l; destruct H as [[H _] _]. Qed.

Lemma runs_empty q l s (R : bool → circqs → Prop) :
  circular (c_mem s) q l → R (bool_decide (l = [])) s → runs (CIRCQ_EMPTY (Head q)) s R.
Proof.
  intros H HR. apply runs_bind, (runs_cq_first q l); [done|]. apply runs_ret.
  destruct l as [|a l]; [by rewrite bool_decide_eq_true_2|]. by rewrite bool_decide_eq_false_2.
Qed.

Lemma runs_insert_tail Q s q e R :
  queues Q (c_mem s) → valid_queue q → is_Some (c_mem s !! Elem e) → (∀ q', e ∉ Q q') →
  (∀ s', after_macro (put q (Q q ++ [e]) Q) 1 s s' → R tt s') →
  runs (CIRCQ_INSERT_TAIL (Head q) (Elem e)) s R.
Proof.
  intros H Hq He Hnot HR. pose proof (qs_linked _ _ H q Hq) as Hc. pose proof (qs_nodup _ _ H q) as Hnd.
  destruct (last_node q (Q q)) as (k & p & E). apply (circular_last _ _ _ k p E) in Hc as [Hl Hpq].
  destruct (edge_some _ _ _ Hpq) as [Hps Hhs]. destruct s as [m n]. cbn [c_mem tos_pending] in *.
  assert (p ∈ nodes q (Q q)) as Hp by (rewrite E; set_solver).
  assert (p ≠ Elem e) as Hpe by (intros ->; by apply elem_nodes, Hnot in Hp).
  apply runs_bind, (runs_get_prev _ _ p); [apply Hpq|]. apply runs_bind, runs_set_prev; [done|].
  apply runs_bind, runs_set_next; [there|].
  apply runs_bind, (runs_get_prev _ _ p); [cbn; field; apply Hpq|].
  apply runs_bind, runs_set_next; [there|]. apply runs_bind, runs_set_prev; [there|]. apply runs_modify. cbn [c_mem tos_pending].
  set (m' := wp (Head q) (Elem e) _). apply HR. split; cbn; [|subst m'; by rewrite ?dom_wp, ?dom_wn, ?dom_wp, ?dom_wn|done].
  apply (queues_put Q m); [done|done| | |intros a q' [Ha|Ha%list_elem_of_singleton]%elem_of_app Ha'|].
  - apply (circular_last _ _ _ (nodes q (Q q)) (Elem e)).
    { unfold nodes. by rewrite fmap_app, app_comm_cons. }
    assert (nodes q (Q q ++ [e]) = k ++ [p; Elem e]) as -> by (unfold nodes in *; by rewrite fmap_app, app_comm_cons, E, <-app_assoc).
    rewrite linked_app, <-E. cbn. split; [split|].
    + apply (linked_ends m _ q (Q q) k p); [done|done| | |done]; intros; subst m'; field; try done.
      * assert (y ≠ Elem e) by (intros ->; by apply (Hnot q), (proj1 (elem_nodes e q (Q q)))). by field.
      * assert (Elem a ≠ Elem e) by (intros [= ->]; by apply (Hnot q)). by field.
    + split; [|done]. split; subst m'; by field.
    + split; subst m'; by field.
  - apply NoDup_app. split; [done|]. split; [|apply NoDup_singleton]. intros a Ha Ha'%list_elem_of_singleton. subst. by apply (Hnot q).
  - by apply (qs_apart _ _ H q' q a).
  - subst. by apply Hnot in Ha'.
  - intros y Hy Hy'. assert (y ≠ p) by (by intros ->). assert (y ≠ Head q) by (intros ->; apply Hy; by left).
    assert (y ≠ Elem e) by (intros ->; apply Hy', elem_nodes; set_solver).
    subst m'. by rewrite lookup_wp_ne, lookup_wn_ne, lookup_wn_ne, lookup_wp_ne.
Qed.

(** The first node after the head, itself when the queue is empty. *)
Lemma circular_first m q l x r : (Elem <$> l) ++ [Head q] = x :: r → circular m q l ↔ edge m (Head q) x ∧ linked m (x :: r).
Proof. intros E. unfold circular. rewrite E. done. Qed.

Lemma removelast_elem (x : ptr) l y : x ∈ removelast (l ++ [y]) ↔ x ∈ l.
Proof. by rewrite removelast_last. Qed.

Lemma runs_insert_head Q s q e R :
  queues Q (c_mem s) → valid_queue q → is_Some (c_mem s !! Elem e) → (∀ q', e ∉ Q q') →
  (∀ s', after_macro (put q (e :: Q q) Q) 1 s s' → R tt s') →
  runs (CIRCQ_INSERT_HEAD (Head q) (Elem e)) s R.
Proof.
  intros H Hq He Hnot HR. pose proof (qs_linked _ _ H q Hq) as Hc. pose proof (qs_nodup _ _ H q) as Hnd.
  destruct ((Elem <$> Q q) ++ [Head q]) as [|x r] eqn:E; [by destruct (Elem <$> Q q)|].
  apply (circular_first _ _ _ x r E) in Hc as [Hqx Hl]. destruct (edge_some _ _ _ Hqx) as [Hhs Hxs].
  destruct s as [m n]. cbn [c_mem tos_pending] in *.
  assert (x ∈ nodes q (Q q)) as Hx.
  { assert (x ∈ (Elem <$> Q q) ++ [Head q]) as Hin by (rewrite E; left).
    apply elem_of_app in Hin as [Hin|Hin%list_elem_of_singleton]; [by right|]. subst x. left. }
  assert (x ≠ Elem e) as Hxe by (intros ->; by apply elem_nodes, Hnot in Hx).
  apply runs_bind, (runs_get_next _ _ x); [apply Hqx|]. apply runs_bind, runs_set_next; [done|].
  apply runs_bind, (runs_get_next _ _ x); [cbn; field; apply Hqx|].
  apply runs_bind, runs_set_prev; [there|]. apply runs_bind, runs_set_next; [there|].
  apply runs_bind, runs_set_prev; [there|]. apply runs_modify. cbn [c_mem tos_pending].
  set (m' := wp (Elem e) (Head q) _). apply HR. split; cbn; [|subst m'; by rewrite ?dom_wp, ?dom_wn, ?dom_wp, ?dom_wn|done].
  apply (queues_put Q m); [done|done| | |intros a q' [->|Ha]%elem_of_cons Ha'|].
  - apply (circular_first _ _ _ (Elem e) (x :: r)); [by rewrite fmap_cons, <-E|]. split; [split; subst m'; by field|].
    split; [split; subst m'; by field|]. pose proof (NoDup_nodes q (Q q) Hnd) as Hnd'.
    apply (linked_frame m); [| |done].
    + rewrite <-E. intros y (a & -> & Ha)%removelast_elem%list_elem_of_fmap.
      assert (Elem a ≠ Elem e) by (intros [= ->]; by apply (Hnot q)). subst m'. by field.
    + intros y Hy. assert (y ∈ nodes q (Q q) ∧ y ≠ x) as [Hyq Hyx].
      { assert (NoDup ((Elem <$> Q q) ++ [Head q])) as Hnd2 by (by rewrite <-Permutation_cons_append).
        split; [|rewrite E in Hnd2; apply NoDup_cons in Hnd2 as [Hnd2 _]; by intros ->].
        assert (y ∈ (Elem <$> Q q) ++ [Head q]) as Hin by (rewrite E; by right).
        unfold nodes. set_solver. }
      assert (y ≠ Elem e) by (intros ->; by apply (Hnot q), (proj1 (elem_nodes e q (Q q)))). subst m'. by field.
  - apply NoDup_cons. split; [exact (Hnot q)|done].
  - by apply Hnot in Ha'.
  - by apply (qs_apart _ _ H q' q a).
  - intros y Hy Hy'. assert (y ≠ x) by (by intros ->). assert (y ≠ Head q) by (intros ->; apply Hy; by left).
    assert (y ≠ Elem e) by (intros ->; apply Hy', elem_nodes; set_solver).
    subst m'. by rewrite lookup_wp_ne, lookup_wn_ne, lookup_wp_ne, lookup_wn_ne.
Qed.

(** The neighbours of an element. *)
Lemma split_at q l1 e l2 : ∃ k p x r,
  nodes q l1 = k ++ [p] ∧ (Elem <$> l2) ++ [Head q] = x :: r ∧
  Head q :: (Elem <$> l1 ++ e :: l2) ++ [Head q] = k ++ p :: Elem e :: x :: r ∧
  Head q :: (Elem <$> l1 ++ l2) ++ [Head q] = k ++ p :: x :: r.
Proof.
  destruct (last_node q l1) as (k & p & E). destruct ((Elem <$> l2) ++ [Head q]) as [|x r] eqn:E2; [by destruct (Elem <$> l2)|].
  exists k, p, x, r. split; [done|]. split; [done|]. rewrite !fmap_app, fmap_cons, <-!app_assoc. cbn. rewrite E2.
  change (Head q :: (Elem <$> l1) ++ Elem e :: x :: r) with (nodes q l1 ++ Elem e :: x :: r).
  change (Head q :: (Elem <$> l1) ++ x :: r) with (nodes q l1 ++ x :: r). by rewrite E, <-!app_assoc.
Qed.

Lemma runs_remove Q s q l1 e l2 R :
  queues Q (c_mem s) → Q q = l1 ++ e :: l2 →
  (∀ s', after_macro (put q (l1 ++ l2) Q) (-1) s s' → R tt s') → runs (CIRCQ_REMOVE (Elem e)) s R.
Proof.
  intros H E HR. assert (valid_queue q) as Hq.
  { destruct (decide (valid_queue q)) as [|Hb]; [done|]. rewrite (qs_valid _ _ H _ Hb) in E. by destruct l1. }
  pose proof (qs_linked _ _ H q Hq) as Hc. pose proof (qs_nodup _ _ H q) as Hnd. pose proof (NoDup_nodes q _ Hnd) as Hndn.
  rewrite E in Hc, Hnd, Hndn. unfold circular in Hc. destruct (split_at q l1 e l2) as (k & p & x & r & E1 & E2 & Ec & Ec').
  rewrite Ec, linked_app in Hc. destruct Hc as [Hk [Hpe [Hex Hr]]].
  destruct (edge_some _ _ _ Hpe) as [Hps Hes]. destruct (edge_some _ _ _ Hex) as [_ Hxs].
  destruct s as [m n]. cbn [c_mem tos_pending] in *.
  assert (NoDup (nodes q l1 ++ Elem e :: (Elem <$> l2))) as Hnd1.
  { unfold nodes in *. by rewrite fmap_app, fmap_cons in Hndn. }
  assert (p ∈ nodes q l1) as Hp by (rewrite E1; set_solver).
  assert (x ∈ Head q :: (Elem <$> l2)) as Hx by (assert (x ∈ (Elem <$> l2) ++ [Head q]) by (rewrite E2; left); set_solver).
  assert (Head q ∈ nodes q l1) as Hh by left.
  apply NoDup_app in Hnd1 as (Hnd1 & Hap & [Hel2 Hnd2]%NoDup_cons).
  assert (Head q ≠ Elem e) by done.
  assert (p ≠ Elem e) as Hpne by (intros ->; apply (Hap (Elem e) Hp); by left).
  assert (x ≠ Elem e) as Hxne by (intros ->; apply elem_of_cons in Hx as [?|?]; done).
  apply runs_bind, (runs_get_next _ _ x); [apply Hex|]. apply runs_bind, (runs_get_prev _ _ p); [apply Hpe|].
  apply runs_bind, runs_set_prev; [done|].
  apply runs_bind, (runs_get_prev _ _ p); [cbn; field; apply Hpe|]. apply runs_bind, (runs_get_next _ _ x); [cbn; field; apply Hex|].
  apply runs_bind, runs_set_next; [there|]. apply runs_bind, runs_set_prev; [there|]. apply runs_bind, runs_set_next; [there|].
  apply runs_modify. cbn [c_mem tos_pending]. set (m' := wn (Elem e) Invalid _). apply HR.
  split; cbn; [|subst m'; by rewrite ?dom_wn, ?dom_wp, ?dom_wn, ?dom_wp|done].
  apply (queues_put Q m); [done|done| | |intros a q' Ha Ha'|].
  - unfold circular. rewrite Ec'. apply linked_app. rewrite E1 in Hnd1. split; [|split; [split; subst m'; by field|]].
    + rewrite <-E1. rewrite <-E1 in Hk. apply (linked_ends m _ q l1 k p); [|done| | |done].
      * rewrite <-E1 in Hnd1. apply NoDup_cons in Hnd1 as [_ Hnd1]. by eapply NoDup_fmap_1.
      * intros y Hy Hyp. assert (y ≠ Elem e) by (intros ->; apply (Hap (Elem e)); [done|by left]). subst m'. by field.
      * intros a Ha. apply (elem_nodes a q) in Ha. assert (Elem a ≠ Elem e) by (intros Eq; apply (Hap (Elem a)); [done|rewrite Eq; left]).
        assert (Elem a ≠ x) by (intros <-; apply elem_of_cons in Hx as [Hx|Hx]; [done|]; apply (Hap (Elem a)); [done|by right]).
        subst m'. by field.
    + rewrite <-E1 in Hnd1. assert (∀ y, y ∈ Elem <$> l2 → y ≠ p) as Hl2p by (intros y Hy ->; apply (Hap p); [done|by right]).
      apply (linked_frame m); [| |done].
      * rewrite <-E2. intros y Hy%removelast_elem. assert (y ≠ Elem e) by (by intros ->). pose proof (Hl2p y Hy). subst m'. by field.
      * assert (NoDup (x :: r)) as [Hxr Hndr]%NoDup_cons.
        { rewrite <-E2, <-Permutation_cons_append. apply NoDup_cons. split; [|done]. intros Hin. apply (Hap (Head q)); [done|by right]. }
        intros y Hy. assert (y ≠ x) by (by intros ->).
        assert (y ≠ Elem e) by (intros ->; assert (Elem e ∈ (Elem <$> l2) ++ [Head q]) by (rewrite E2; by right); set_solver).
        subst m'. by field.
  - apply NoDup_app in Hnd as (Hn1 & Hap' & [Hel Hn2]%NoDup_cons). apply NoDup_app. split; [done|]. split; [|done].
    intros a Ha Ha'. apply (Hap' a Ha). by right.
  - apply (qs_apart _ _ H q' q a); [done|]. rewrite E. set_solver.
  - rewrite E. intros y Hy _. assert (y ≠ Elem e) by (intros ->; apply Hy, elem_nodes; set_solver).
    assert (y ≠ p) by (intros ->; apply Hy; unfold nodes in *; rewrite fmap_app; set_solver).
    assert (y ≠ x) by (intros ->; apply Hy; unfold nodes in *; rewrite fmap_app, fmap_cons; set_solver).
    subst m'. by rewrite lookup_wn_ne, lookup_wp_ne, lookup_wn_ne, lookup_wp_ne.
Qed.

Lemma queues_ext Q Q' m : (∀ q, Q' q = Q q) → queues Q m → queues Q' m.
Proof.
  intros E H. split; intros q; rewrite !E.
  - apply (qs_linked _ _ H).
  - apply (qs_nodup _ _ H).
  - intros q' a. rewrite E. apply (qs_apart _ _ H).
  - apply (qs_valid _ _ H).
Qed.

Definition concat (q1 q2 : queue) (Q : lists) : lists := put q1 (Q q1 ++ Q q2) (put q2 [] Q).

(** The lists after a concatenation are as apart as they were. *)
Lemma concat_apart Q m q1 q2 : queues Q m → q1 ≠ q2 → valid_queue q1 →
  (∀ q, NoDup (concat q1 q2 Q q)) ∧ (∀ q q' a, a ∈ concat q1 q2 Q q → a ∈ concat q1 q2 Q q' → q = q') ∧
  (∀ q, ¬ valid_queue q → concat q1 q2 Q q = []).
Proof.
  intros H Hne Hq1. unfold concat.
  assert (∀ q a, a ∈ put q1 (Q q1 ++ Q q2) (put q2 [] Q) q ↔ (q = q1 ∧ (a ∈ Q q1 ∨ a ∈ Q q2)) ∨ (q ≠ q1 ∧ q ≠ q2 ∧ a ∈ Q q)) as Hin.
  { intros q a. destruct (decide (q = q1)) as [->|Hn1]; [rewrite put_eq, elem_of_app; tauto|]. rewrite put_ne by done.
    destruct (decide (q = q2)) as [->|Hn2]; [rewrite put_eq, elem_of_nil; tauto|]. rewrite put_ne by done. tauto. }
  split_and!.
  - intros q. destruct (decide (q = q1)) as [->|Hn1].
    + rewrite put_eq. apply NoDup_app. split; [apply (qs_nodup _ _ H)|]. split; [|apply (qs_nodup _ _ H)].
      intros a Ha Ha'. by apply Hne, (qs_apart _ _ H q1 q2 a).
    + rewrite put_ne by done. destruct (decide (q = q2)) as [->|Hn2]; [rewrite put_eq; constructor|].
      rewrite put_ne by done. apply (qs_nodup _ _ H).
  - intros q q' a H1%Hin H2%Hin. pose proof (qs_apart _ _ H) as Hap. naive_solver.
  - intros q Hv. rewrite put_ne by (by intros ->). destruct (decide (q = q2)) as [->|Hn2]; [by rewrite put_eq|].
    rewrite put_ne by done. by apply (qs_valid _ _ H).
Qed.

(** The pieces of two queues put together. *)
Lemma linked_concat m q1 l1 a l2 k1 p1 k2 p2 :
  nodes q1 l1 = k1 ++ [p1] → Elem <$> (a :: l2) = k2 ++ [p2] →
  linked m (nodes q1 l1) → edge m p1 (Elem a) → linked m (Elem <$> (a :: l2)) → edge m p2 (Head q1) →
  circular m q1 (l1 ++ a :: l2).
Proof.
  intros E1 E2 H1 He1 H2 He2. unfold circular. rewrite fmap_app, <-app_assoc.
  change (Head q1 :: (Elem <$> l1) ++ (Elem <$> a :: l2) ++ [Head q1]) with (nodes q1 l1 ++ (Elem <$> a :: l2) ++ [Head q1]).
  assert (linked m ((Elem <$> a :: l2) ++ [Head q1])) as H3.
  { rewrite E2, <-app_assoc. cbn [app]. rewrite linked_app, <-E2. split; [done|]. by split. }
  rewrite E1, <-app_assoc. cbn [app]. rewrite linked_app, <-E1. split; [done|]. rewrite fmap_cons in H3 |- *. by split.
Qed.

Lemma runs_concat Q s q1 q2 R :
  queues Q (c_mem s) → valid_queue q1 → valid_queue q2 → q1 ≠ q2 →
  (∀ s', queues (concat q1 q2 Q) (c_mem s') → dom (c_mem s') = dom (c_mem s) → tos_pending s' = tos_pending s → R tt s') →
  runs (CIRCQ_CONCAT (Head q1) (Head q2)) s R.
Proof.
  intros H Hq1 Hq2 Hne HR. pose proof (qs_linked _ _ H q1 Hq1) as Hc1. pose proof (qs_linked _ _ H q2 Hq2) as Hc2.
  apply runs_bind, (runs_empty q2 (Q q2)); [done|]. destruct (concat_apart Q (c_mem s) q1 q2 H Hne Hq1) as (Hnd' & Hap' & Hv').
  destruct (Q q2) as [|a l2] eqn:E2.
  { apply runs_ret, HR; [|done|done]. apply (queues_ext Q); [|done]. intros q. unfold concat. rewrite E2, app_nil_r.
    destruct (decide (q = q1)) as [->|]; [by rewrite put_eq|]. rewrite put_ne by done.
    destruct (decide (q = q2)) as [->|]; [by rewrite put_eq|]. by rewrite put_ne. }
  rewrite bool_decide_eq_false_2 by done. destruct s as [m n]. cbn [c_mem tos_pending] in *.
  destruct (last_node q1 (Q q1)) as (k1 & p1 & E1). apply (circular_last _ _ _ k1 p1 E1) in Hc1 as [Hl1 Hp1].
  destruct (exists_last (l := Elem <$> a :: l2)) as (k2 & p2 & Ek2); [done|].
  assert (nodes q2 (a :: l2) = (Head q2 :: k2) ++ [p2]) as En2 by (unfold nodes; by rewrite Ek2).
  apply (circular_last _ _ _ _ _ En2) in Hc2 as [Hl2 Hp2]. destruct Hl2 as [Hh2 Hl2].
  destruct (edge_some _ _ _ Hp1) as [Hp1s Hh1s]. destruct (edge_some _ _ _ Hp2) as [Hp2s Hh2s]. destruct (edge_some _ _ _ Hh2) as [_ Has].
  assert (p1 ∈ nodes q1 (Q q1)) as Hin1 by (rewrite E1; set_solver).
  assert (p2 ∈ Elem <$> (a :: l2)) as Hin2 by (rewrite Ek2; set_solver).
  assert (∀ y, y ∈ nodes q1 (Q q1) → y ∉ nodes q2 (Q q2)) as Hap by (intros y; by apply (nodes_apart Q m)).
  rewrite E2 in Hap. assert (Elem a ∈ nodes q2 (a :: l2)) as Hin by (right; left).
  assert (p2 ∈ nodes q2 (a :: l2)) as Hin2' by (by right).
  assert (p1 ≠ p2) by (intros ->; by apply (Hap p2)). assert (p1 ≠ Head q2) by (intros ->; apply (Hap (Head q2)); [done|left]).
  assert (Elem a ≠ p1) by (intros <-; by apply (Hap (Elem a))).
  assert (p2 ≠ Head q2) by (by intros ->; apply list_elem_of_fmap in Hin2 as (? & ? & ?)).
  assert (Head q1 ≠ Head q2) by congruence. assert (Head q2 ≠ Head q1) by congruence.
  assert (p2 ≠ p1) by done. assert (Head q2 ≠ p1) by done. assert (Head q2 ≠ p2) by done. assert (p1 ≠ Elem a) by done.
  apply runs_bind, (runs_get_prev _ _ p1); [apply Hp1|]. apply runs_bind, (runs_get_next _ _ (Elem a)); [apply Hh2|].
  apply runs_bind, runs_set_next; [done|].
  apply runs_bind, (runs_get_next _ _ (Elem a)); [cbn; field; apply Hh2|].
  apply runs_bind, (runs_get_prev _ _ p1); [cbn; field; apply Hp1|]. apply runs_bind, runs_set_prev; [there|].
  apply runs_bind, (runs_get_prev _ _ p2); [cbn; field; apply Hp2|]. apply runs_bind, runs_set_next; [there|].
  apply runs_bind, (runs_get_prev _ _ p2); [cbn; field; apply Hp2|]. apply runs_bind, runs_set_prev; [there|].
  apply runs_bind, runs_set_next; [there|]. apply runs_set_prev; [there|]. cbn [c_mem tos_pending].
  set (m' := wp (Head q2) (Head q2) _). apply HR; cbn; [|subst m'; by rewrite ?dom_wp, ?dom_wn, ?dom_wp, ?dom_wn, ?dom_wp, ?dom_wn|done].
  apply (queues_change Q _ m); [done| |done..]. intros q Hq. unfold concat. rewrite E2.
  destruct (decide (q = q1)) as [->|Hn1]; [right; rewrite put_eq|rewrite put_ne by done; destruct (decide (q = q2)) as [->|Hn2]].
  - pose proof (qs_nodup _ _ H q2) as Hnd2. rewrite E2 in Hnd2. apply (NoDup_fmap_2 Elem) in Hnd2.
    apply (linked_concat m' q1 (Q q1) a l2 k1 p1 k2 p2 E1 Ek2); [|split; subst m'; by field| |split; subst m'; by field].
    + apply (linked_ends m _ q1 (Q q1) k1 p1); [apply (qs_nodup _ _ H)|done| | |done].
      * intros y Hy Hyp. pose proof (Hap y Hy) as Hy2. assert (y ≠ p2) by (by intros ->).
        assert (y ≠ Head q2) by (intros ->; apply Hy2; left). subst m'. by field.
      * intros b Hb. apply (elem_nodes b q1) in Hb. pose proof (Hap _ Hb) as Hb2. assert (Elem b ≠ Elem a) by (intros E; by rewrite E in Hb2).
        subst m'. by field.
    + rewrite fmap_cons in Hl2 |- *. apply (linked_frame m m' (Elem a) (Elem <$> l2)); [| |done].
      * rewrite <-fmap_cons, Ek2, removelast_last. rewrite Ek2 in Hnd2. apply NoDup_app in Hnd2 as (_ & Hnd2 & _).
        intros y Hy. assert (y ≠ p2) by (intros ->; apply (Hnd2 p2 Hy); left).
        assert (y ∈ Elem <$> a :: l2) as Hye by (rewrite Ek2; set_solver).
        assert (y ≠ Head q2) by (by intros ->; apply list_elem_of_fmap in Hye as (? & ? & ?)).
        assert (y ≠ p1) by (intros ->; apply (Hap p1 Hin1); by right). subst m'. by field.
      * rewrite fmap_cons in Hnd2. apply NoDup_cons in Hnd2 as [Hna _]. intros y Hy. assert (y ≠ Elem a) by (by intros ->).
        assert (y ≠ Head q2 ∧ y ≠ Head q1) as [? ?] by (apply list_elem_of_fmap in Hy as (? & -> & ?); done).
        subst m'. by field.
  - right. rewrite put_eq. split; [|done]. split; subst m'; by field.
  - left. rewrite put_ne by done. split; [done|]. intros y Hy.
    pose proof (nodes_apart Q m q q1 y H Hn1 Hy) as Ha1. pose proof (nodes_apart Q m q q2 y H Hn2 Hy) as Ha2. rewrite E2 in Ha2.
    assert (y ≠ p1) by (by intros ->). assert (y ≠ p2) by (by intros ->). assert (y ≠ Elem a) by (by intros ->).
    assert (y ≠ Head q1) by (intros ->; apply Ha1; left). assert (y ≠ Head q2) by (intros ->; apply Ha2; left).
    subst m'. by rewrite lookup_wp_ne, lookup_wn_ne, lookup_wp_ne, lookup_wn_ne, lookup_wp_ne, lookup_wn_ne.
Qed.
End macros.
