(* ===== verification/Timeout.v ===== *)
(** Timeouts: sys/kern/kern_timeout.c.  The code runs over the queues of [Circq], the
    timeouts by address and the file's variables.  timeout_mutex is held for each
    piece between two releases of it: a function that calls out in the middle is
    given in the pieces before and after. *)

From S2P Require Import Prelude StateMonad Circq.

(** ** Data *)

Definition SET (flags f : Z) : Z := Z.lor flags f.
Definition CLR (flags f : Z) : Z := Z.land flags (Z.lnot f).
Definition ISSET (flags f : Z) : bool := has flags f.

Definition TIMEOUT_PROC : Z := 1.
Definition TIMEOUT_ONQUEUE : Z := 2.
Definition TIMEOUT_INITIALIZED : Z := 4.
Definition TIMEOUT_TRIGGERED : Z := 8.
Definition TIMEOUT_MPSAFE : Z := 16.
Definition KCLOCK_NONE : Z := -1.
Definition KCLOCK_UPTIME : Z := 0.
Definition KCLOCK_MAX : Z := 1.
Definition INT_MAX : Z := 2147483647.
Definition UINT64_MAX : Z := 18446744073709551615.

Record timespec : Type := Timespec { tv_sec : Z; tv_nsec : Z }.

Definition timespec_lt (t u : timespec) : bool :=
  if tv_sec t =? tv_sec u then tv_nsec t <? tv_nsec u else tv_sec t <? tv_sec u.
Definition timespec_le (t u : timespec) : bool :=
  if tv_sec t =? tv_sec u then tv_nsec t <=? tv_nsec u else tv_sec t <=? tv_sec u.
Definition timespecadd (t u : timespec) : timespec :=
  let sec := i64 (tv_sec t + tv_sec u) in
  let nsec := i64 (tv_nsec t + tv_nsec u) in
  if 1000000000 <=? nsec then Timespec (i64 (sec + 1)) (nsec - 1000000000) else Timespec sec nsec.
Definition timespecsub (t u : timespec) : timespec :=
  let sec := i64 (tv_sec t - tv_sec u) in
  let nsec := i64 (tv_nsec t - tv_nsec u) in
  if nsec <? 0 then Timespec (i64 (sec - 1)) (nsec + 1000000000) else Timespec sec nsec.

(** [struct timeout], but for [to_list], which [Circq] has. *)
Record timeout : Type := Timeout {
  to_abstime : timespec;
  to_func : Z;
  to_arg : Z;
  to_time : Z;
  to_flags : Z;
  to_kclock : Z;
}.

(** The counters, without [tos_pending]. *)
Record timeoutstat : Type := Stat {
  tos_added : Z;
  tos_cancelled : Z;
  tos_deleted : Z;
  tos_late : Z;
  tos_readded : Z;
  tos_rescheduled : Z;
  tos_run_softclock : Z;
  tos_run_thread : Z;
  tos_scheduled : Z;
  tos_softclocks : Z;
  tos_thread_wakeups : Z;
}.

Record kclock : Type := Kclock {
  kc_lastscan : timespec;
  kc_late : timespec;
  kc_offset : timespec;
}.

(** The contexts that run timeouts; [tctx_running] of each is in the state. *)
Inductive timeout_ctx : Type := timeout_ctx_si | timeout_ctx_proc | timeout_ctx_proc_mp.
#[export] Instance timeout_ctx_eq_dec : EqDecision timeout_ctx.
Proof. solve_decision. Defined.
Definition tctx_todo (c : timeout_ctx) : queue :=
  match c with
  | timeout_ctx_si => timeout_todo
  | timeout_ctx_proc => timeout_proc
  | timeout_ctx_proc_mp => timeout_proc_mp
  end.

Record kstate : Type := Kstate {
  circ : circqs;
  timeouts : gmap Z timeout;
  ticks : Z;
  timeout_kclock : kclock;
  tctx_running : timeout_ctx → Z;
  tostat : timeoutstat;
}.

Abbreviation KM := (ST kstate).

(** ** Access *)

Definition on_queues {A} (m : CM A) : KM A := λ s,
  match m (circ s) with
  | Ret (a, c) => Ret (a, Kstate c (timeouts s) (ticks s) (timeout_kclock s) (tctx_running s) (tostat s))
  | Fault f => Fault f
  end.
Definition get_to (to : Z) : KM timeout := λ s,
  match timeouts s !! to with Some t => Ret (t, s) | None => Fault NullDeref end.
Definition put_to (to : Z) (t : timeout) : KM () :=
  modify (λ s, Kstate (circ s) (<[to := t]> (timeouts s)) (ticks s) (timeout_kclock s) (tctx_running s) (tostat s)).
Definition upd_to (to : Z) (f : timeout → timeout) : KM () := t ← get_to to; put_to to (f t).
Definition set_time (v : Z) (t : timeout) : timeout :=
  Timeout (to_abstime t) (to_func t) (to_arg t) v (to_flags t) (to_kclock t).
Definition set_abstime (v : timespec) (t : timeout) : timeout :=
  Timeout v (to_func t) (to_arg t) (to_time t) (to_flags t) (to_kclock t).
Definition set_flags (v : Z) (t : timeout) : timeout :=
  Timeout (to_abstime t) (to_func t) (to_arg t) (to_time t) v (to_kclock t).
Definition set_kclock (kc : kclock) : KM () :=
  modify (λ s, Kstate (circ s) (timeouts s) (ticks s) kc (tctx_running s) (tostat s)).
Definition set_ticks (v : Z) : KM () :=
  modify (λ s, Kstate (circ s) (timeouts s) v (timeout_kclock s) (tctx_running s) (tostat s)).
Definition set_running (c : timeout_ctx) (to : Z) : KM () :=
  modify (λ s, Kstate (circ s) (timeouts s) (ticks s) (timeout_kclock s) (λ c', if decide (c' = c) then to else tctx_running s c') (tostat s)).
Definition count (f : timeoutstat → timeoutstat) : KM () :=
  modify (λ s, Kstate (circ s) (timeouts s) (ticks s) (timeout_kclock s) (tctx_running s) (f (tostat s))).

Definition inc (x : Z) : Z := u64 (x + 1).
Definition added (t : timeoutstat) : timeoutstat :=
  Stat (inc (tos_added t)) (tos_cancelled t) (tos_deleted t) (tos_late t) (tos_readded t) (tos_rescheduled t)
       (tos_run_softclock t) (tos_run_thread t) (tos_scheduled t) (tos_softclocks t) (tos_thread_wakeups t).
Definition cancelled (t : timeoutstat) : timeoutstat :=
  Stat (tos_added t) (inc (tos_cancelled t)) (tos_deleted t) (tos_late t) (tos_readded t) (tos_rescheduled t)
       (tos_run_softclock t) (tos_run_thread t) (tos_scheduled t) (tos_softclocks t) (tos_thread_wakeups t).
Definition deleted (t : timeoutstat) : timeoutstat :=
  Stat (tos_added t) (tos_cancelled t) (inc (tos_deleted t)) (tos_late t) (tos_readded t) (tos_rescheduled t)
       (tos_run_softclock t) (tos_run_thread t) (tos_scheduled t) (tos_softclocks t) (tos_thread_wakeups t).
Definition late (t : timeoutstat) : timeoutstat :=
  Stat (tos_added t) (tos_cancelled t) (tos_deleted t) (inc (tos_late t)) (tos_readded t) (tos_rescheduled t)
       (tos_run_softclock t) (tos_run_thread t) (tos_scheduled t) (tos_softclocks t) (tos_thread_wakeups t).
Definition readded (t : timeoutstat) : timeoutstat :=
  Stat (tos_added t) (tos_cancelled t) (tos_deleted t) (tos_late t) (inc (tos_readded t)) (tos_rescheduled t)
       (tos_run_softclock t) (tos_run_thread t) (tos_scheduled t) (tos_softclocks t) (tos_thread_wakeups t).
Definition rescheduled (t : timeoutstat) : timeoutstat :=
  Stat (tos_added t) (tos_cancelled t) (tos_deleted t) (tos_late t) (tos_readded t) (inc (tos_rescheduled t))
       (tos_run_softclock t) (tos_run_thread t) (tos_scheduled t) (tos_softclocks t) (tos_thread_wakeups t).
Definition run_softclock (t : timeoutstat) : timeoutstat :=
  Stat (tos_added t) (tos_cancelled t) (tos_deleted t) (tos_late t) (tos_readded t) (tos_rescheduled t)
       (inc (tos_run_softclock t)) (tos_run_thread t) (tos_scheduled t) (tos_softclocks t) (tos_thread_wakeups t).
Definition run_thread (t : timeoutstat) : timeoutstat :=
  Stat (tos_added t) (tos_cancelled t) (tos_deleted t) (tos_late t) (tos_readded t) (tos_rescheduled t)
       (tos_run_softclock t) (inc (tos_run_thread t)) (tos_scheduled t) (tos_softclocks t) (tos_thread_wakeups t).
Definition scheduled (t : timeoutstat) : timeoutstat :=
  Stat (tos_added t) (tos_cancelled t) (tos_deleted t) (tos_late t) (tos_readded t) (tos_rescheduled t)
       (tos_run_softclock t) (tos_run_thread t) (inc (tos_scheduled t)) (tos_softclocks t) (tos_thread_wakeups t).
Definition softclocks (t : timeoutstat) : timeoutstat :=
  Stat (tos_added t) (tos_cancelled t) (tos_deleted t) (tos_late t) (tos_readded t) (tos_rescheduled t)
       (tos_run_softclock t) (tos_run_thread t) (tos_scheduled t) (inc (tos_softclocks t)) (tos_thread_wakeups t).
Definition thread_wakeups (t : timeoutstat) : timeoutstat :=
  Stat (tos_added t) (tos_cancelled t) (tos_deleted t) (tos_late t) (tos_readded t) (tos_rescheduled t)
       (tos_run_softclock t) (tos_run_thread t) (tos_scheduled t) (tos_softclocks t) (inc (tos_thread_wakeups t)).

(** The cast back; a queue head is no timeout. *)
Definition timeout_from_circq (p : ptr) : KM Z :=
  match p with Elem a => mret a | _ => fault Misaligned end.

(** ** The wheel *)

Definition WHEELCOUNT : Z := 4.
Definition WHEELSIZE : Z := 256.
Definition WHEELMASK : Z := 255.
Definition WHEELBITS : Z := 8.
Definition BUCKETS : Z := WHEELCOUNT * WHEELSIZE.

Definition MASKWHEEL (wheel time : Z) : Z := Z.land (Z.shiftr time (wheel * WHEELBITS)) WHEELMASK.
Definition BUCKET (rel abs : Z) : Z :=
  if rel <=? Z.shiftl 1 (2 * WHEELBITS) then
    if rel <=? Z.shiftl 1 WHEELBITS then MASKWHEEL 0 abs else MASKWHEEL 1 abs + WHEELSIZE
  else
    if rel <=? Z.shiftl 1 (3 * WHEELBITS) then MASKWHEEL 2 abs + 2 * WHEELSIZE
    else MASKWHEEL 3 abs + 3 * WHEELSIZE.
Definition MOVEBUCKET (wheel time : Z) : KM () :=
  on_queues (CIRCQ_CONCAT (Head timeout_todo) (Head (timeout_wheel (MASKWHEEL wheel time + wheel * WHEELSIZE)))).

Definition timeout_level_width (level : Z) : Z := Z.shiftl 2 (level * WHEELBITS).

Definition timeout_maskwheel (level : Z) (abstime : timespec) : Z :=
  let hi := u32 (Z.shiftl (tv_sec abstime) 7) in
  let lo := u32 (Z.quot (tv_nsec abstime) 7812500) in
  Z.land (Z.shiftr (Z.lor hi lo) (level * WHEELBITS)) WHEELMASK.

(** The loop of [timeout_bucket]: the first level that is wide enough, or the last. *)
Definition bucket_level (diff : timespec) : Z :=
  if tv_sec diff <? timeout_level_width 0 then 0
  else if tv_sec diff <? timeout_level_width 1 then 1
  else if tv_sec diff <? timeout_level_width 2 then 2
  else 3.

Definition timeout_bucket (to : Z) : KM Z :=
  t ← get_to to;
  lift (kassert "timeout_bucket" (to_kclock t =? KCLOCK_UPTIME));;
  kc ← gets timeout_kclock;
  lift (kassert "timeout_bucket" (timespec_lt (kc_lastscan kc) (to_abstime t)));;
  let diff := timespecsub (to_abstime t) (kc_lastscan kc) in
  let level := bucket_level diff in
  let shifted_abstime := timespecadd (to_abstime t) (kc_offset kc) in
  mret (level * WHEELSIZE + timeout_maskwheel level shifted_abstime).

(** ** Setting up *)

Fixpoint init_buckets (wheel : Z → queue) (n : nat) (b : Z) : KM () :=
  match n with
  | O => mret tt
  | S n => on_queues (CIRCQ_INIT (Head (wheel b)));; init_buckets wheel n (b + 1)
  end.

Definition timeout_startup : KM () :=
  on_queues (CIRCQ_INIT (Head timeout_new));;
  on_queues (CIRCQ_INIT (Head timeout_todo));;
  on_queues (CIRCQ_INIT (Head timeout_proc));;
  on_queues (CIRCQ_INIT (Head timeout_proc_mp));;
  init_buckets timeout_wheel (Z.to_nat BUCKETS) 0;;
  init_buckets timeout_wheel_kc (Z.to_nat BUCKETS) 0.

Definition timeout_set_flags (to fn arg kclock flags : Z) : KM () :=
  lift (kassert "timeout_set_flags" (negb (ISSET flags (Z.lnot (Z.lor TIMEOUT_PROC TIMEOUT_MPSAFE)))));;
  lift (kassert "timeout_set_flags" ((KCLOCK_NONE <=? kclock) && (kclock <? KCLOCK_MAX)));;
  upd_to to (λ t, Timeout (to_abstime t) fn arg (to_time t) (Z.lor flags TIMEOUT_INITIALIZED) kclock);;
  t ← get_to to;
  if ISSET (to_flags t) TIMEOUT_MPSAFE then
    lift (kassert "timeout_set_flags" (ISSET (to_flags t) TIMEOUT_PROC))
  else mret tt.
Definition timeout_set (new fn arg : Z) : KM () := timeout_set_flags new fn arg KCLOCK_NONE 0.
Definition timeout_set_proc (new fn arg : Z) : KM () := timeout_set_flags new fn arg KCLOCK_NONE TIMEOUT_PROC.

(** ** Adding and removing *)

(** What [timeout_add] and [timeout_abs_ts] do to the queues: [earlier] is the test on
    a timeout that is pending. *)
Definition enqueue (new : Z) (earlier : bool) : KM Z :=
  t ← get_to new;
  ret ← (if ISSET (to_flags t) TIMEOUT_ONQUEUE then
           (if earlier then
              on_queues (CIRCQ_REMOVE (Elem new));;
              on_queues (CIRCQ_INSERT_TAIL (Head timeout_new) (Elem new))
            else mret tt);;
           count readded;;
           mret 0
         else
           upd_to new (λ t, set_flags (SET (to_flags t) TIMEOUT_ONQUEUE) t);;
           on_queues (CIRCQ_INSERT_TAIL (Head timeout_new) (Elem new));;
           mret 1);
  count added;;
  mret ret.

Definition timeout_add (new to_ticks : Z) : KM Z :=
  t ← get_to new;
  lift (kassert "timeout_add" (ISSET (to_flags t) TIMEOUT_INITIALIZED));;
  lift (kassert "timeout_add" (to_kclock t =? KCLOCK_NONE));;
  lift (kassert "timeout_add" (0 <=? to_ticks));;
  now ← gets ticks;
  let old_time := to_time t in
  let new_time := i32 (to_ticks + now) in
  upd_to new (set_time new_time);;
  upd_to new (λ t, set_flags (CLR (to_flags t) TIMEOUT_TRIGGERED) t);;
  enqueue new (i32 (new_time - now) <? i32 (old_time - now)).

Definition timeout_abs_ts (to : Z) (abstime : timespec) : KM Z :=
  t ← get_to to;
  lift (kassert "timeout_abs_ts" (ISSET (to_flags t) TIMEOUT_INITIALIZED));;
  lift (kassert "timeout_abs_ts" (to_kclock t =? KCLOCK_UPTIME));;
  let old_abstime := to_abstime t in
  upd_to to (set_abstime abstime);;
  upd_to to (λ t, set_flags (CLR (to_flags t) TIMEOUT_TRIGGERED) t);;
  enqueue to (timespec_lt abstime old_abstime).

Definition timeout_del (to : Z) : KM Z :=
  t ← get_to to;
  ret ← (if ISSET (to_flags t) TIMEOUT_ONQUEUE then
           on_queues (CIRCQ_REMOVE (Elem to));;
           upd_to to (λ t, set_flags (CLR (to_flags t) TIMEOUT_ONQUEUE) t);;
           count cancelled;;
           mret 1
         else mret 0);
  upd_to to (λ t, set_flags (CLR (to_flags t) TIMEOUT_TRIGGERED) t);;
  count deleted;;
  mret ret.

Section intervals.
(** The clock's variables: ticks per second, microseconds and nanoseconds per tick. *)
Context (hz tick tick_nsec : Z).

Definition timeout_add_ticks (to to_ticks : Z) : KM Z :=
  let to_ticks := if INT_MAX <=? to_ticks then INT_MAX else to_ticks + 1 in
  timeout_add to to_ticks.
Definition timeout_add_sec (to secs : Z) : KM Z :=
  lift (kassert "timeout_add_sec" (0 <=? secs));;
  timeout_add_ticks to (u64 (u64 hz * u64 secs)).
Definition timeout_add_usec (to usecs : Z) : KM Z :=
  if u64 (UINT64_MAX - tick) <=? usecs then timeout_add to INT_MAX
  else timeout_add_ticks to (u64 (usecs + u64 (tick - 1)) `div` u64 tick).
Definition timeout_add_msec (to msecs : Z) : KM Z :=
  if UINT64_MAX `div` 1000 <=? msecs then timeout_add to INT_MAX
  else timeout_add_usec to (u64 (msecs * 1000)).
Definition timeout_add_nsec (to nsecs : Z) : KM Z :=
  if u64 (UINT64_MAX - tick_nsec) <=? nsecs then timeout_add to INT_MAX
  else timeout_add_ticks to (u64 (nsecs + u64 (tick_nsec - 1)) `div` u64 tick_nsec).
End intervals.

(** The part of [timeout_barrier] before [cond_wait]; [barrier] is its own timeout on the
    stack.  True when it has to wait. *)
Definition timeout_barrier (cond_signal_handler to barrier c : Z) : KM bool :=
  t ← get_to to;
  let flags := Z.land (to_flags t) (Z.lor TIMEOUT_PROC TIMEOUT_MPSAFE) in
  timeout_set_flags barrier cond_signal_handler c KCLOCK_NONE flags;;
  let tctx := if ISSET flags TIMEOUT_PROC then
                if ISSET flags TIMEOUT_MPSAFE then timeout_ctx_proc_mp else timeout_ctx_proc
              else timeout_ctx_si in
  running ← gets (λ s, tctx_running s tctx);
  if negb (running =? to) then mret false
  else
    now ← gets ticks;
    upd_to barrier (set_time now);;
    upd_to barrier (λ t, set_flags (SET (to_flags t) TIMEOUT_ONQUEUE) t);;
    on_queues (CIRCQ_INSERT_HEAD (Head (tctx_todo tctx)) (Elem barrier));;
    mret true.
Definition timeout_del_barrier (cond_signal_handler to barrier c : Z) : KM (Z * bool) :=
  removed ← timeout_del to;
  wait ← timeout_barrier cond_signal_handler to barrier c;
  mret (removed, wait).

(** ** The clock interrupt *)

(** The buckets from [first] to [last], around the end of the level. *)
Fixpoint dump_buckets (fuel : nat) (off b last : Z) : KM () :=
  match fuel with
  | O => fault OutOfFuel
  | S fuel =>
      on_queues (CIRCQ_CONCAT (Head timeout_todo) (Head (timeout_wheel_kc (off + b))));;
      if b =? last then mret tt else dump_buckets fuel off ((b + 1) `mod` WHEELSIZE) last
  end.

Fixpoint dump_levels (n : nat) (level : Z) (lastscan now elapsed : timespec) : KM () :=
  match n with
  | O => mret tt
  | S n =>
      let first := timeout_maskwheel level lastscan in
      let '(last, done) :=
        if timeout_level_width level <=? tv_sec elapsed then
          (if first =? 0 then WHEELSIZE - 1 else first - 1, false)
        else let last := timeout_maskwheel level now in (last, first <=? last) in
      dump_buckets (Z.to_nat WHEELSIZE) (level * WHEELSIZE) first last;;
      if (done : bool) then mret tt else dump_levels n (level + 1) lastscan now elapsed
  end.

(** Returns whether softclock is to be scheduled; [nanouptime] gave [now]. *)
Definition timeout_hardclock_update (tick_ts now : timespec) : KM bool :=
  ticks ← gets ticks;
  MOVEBUCKET 0 ticks;;
  (if MASKWHEEL 0 ticks =? 0 then
     MOVEBUCKET 1 ticks;;
     if MASKWHEEL 1 ticks =? 0 then
       MOVEBUCKET 2 ticks;;
       if MASKWHEEL 2 ticks =? 0 then MOVEBUCKET 3 ticks else mret tt
     else mret tt
   else mret tt);;
  kc ← gets timeout_kclock;
  let lastscan := kc_lastscan kc in
  let elapsed := timespecsub now lastscan in
  dump_levels (Z.to_nat WHEELCOUNT) 0 lastscan now elapsed;;
  kc ← gets timeout_kclock;
  let lastscan := timespecadd now (kc_offset kc) in
  set_kclock (Kclock lastscan (timespecsub lastscan tick_ts) (kc_offset kc));;
  e ← on_queues (CIRCQ_EMPTY (Head timeout_new));
  if negb e then mret true
  else e ← on_queues (CIRCQ_EMPTY (Head timeout_todo)); mret (negb e).

(** [hardclock] as far as timeouts go. *)
Definition hardclock (tick_ts now : timespec) : KM bool :=
  t ← gets ticks; set_ticks (i32 (t + 1));; timeout_hardclock_update tick_ts now.

(** ** Running timeouts *)

(** [timeout_run] up to the call of the function, and after it. *)
Definition timeout_run_enter (tctx : timeout_ctx) (to : Z) : KM (Z * Z) :=
  upd_to to (λ t, set_flags (CLR (to_flags t) TIMEOUT_ONQUEUE) t);;
  upd_to to (λ t, set_flags (SET (to_flags t) TIMEOUT_TRIGGERED) t);;
  t ← get_to to;
  set_running tctx to;;
  mret (to_func t, to_arg t).
Definition timeout_run_leave (tctx : timeout_ctx) : KM () := set_running tctx 0.

(** A timeout that is due goes to a thread, or runs now: true in that case, with
    [timeout_run] entered. *)
Definition due_timeout (to : Z) (t : timeout) : KM bool :=
  if ISSET (to_flags t) TIMEOUT_PROC then
    (if ISSET (to_flags t) TIMEOUT_MPSAFE then
       on_queues (CIRCQ_INSERT_TAIL (Head timeout_proc_mp) (Elem to))
     else on_queues (CIRCQ_INSERT_TAIL (Head timeout_proc) (Elem to)));;
    mret false
  else timeout_run_enter timeout_ctx_si to;; mret true.

Definition softclock_process_kclock_timeout (to : Z) (new : bool) : KM bool :=
  t ← get_to to;
  kc ← gets timeout_kclock;
  if timespec_lt (kc_lastscan kc) (to_abstime t) then
    count scheduled;;
    (if negb new then count rescheduled else mret tt);;
    b ← timeout_bucket to;
    on_queues (CIRCQ_INSERT_TAIL (Head (timeout_wheel_kc b)) (Elem to));;
    mret false
  else
    (if negb new && timespec_le (to_abstime t) (kc_late kc) then count late else mret tt);;
    due_timeout to t.

Definition softclock_process_tick_timeout (to : Z) (new : bool) : KM bool :=
  t ← get_to to;
  now ← gets ticks;
  let delta := i32 (to_time t - now) in
  if 0 <? delta then
    count scheduled;;
    (if negb new then count rescheduled else mret tt);;
    on_queues (CIRCQ_INSERT_TAIL (Head (timeout_wheel (BUCKET delta (to_time t)))) (Elem to));;
    mret false
  else
    (if negb new && (delta <? 0) then count late else mret tt);;
    due_timeout to t.

(** [softclock] up to its loop: [first_new], or [NULL]. *)
Definition softclock_begin : KM Z :=
  e ← on_queues (CIRCQ_EMPTY (Head timeout_new));
  first_new ← (if negb e then p ← on_queues (CIRCQ_FIRST (Head timeout_new)); timeout_from_circq p else mret 0);
  on_queues (CIRCQ_CONCAT (Head timeout_todo) (Head timeout_new));;
  mret first_new.

(** A turn of the loop: [None] when it ends; otherwise [new], and the timeout whose
    function is called now. *)
Definition softclock_turn (first_new : Z) (new : bool) : KM (option (bool * option Z)) :=
  e ← on_queues (CIRCQ_EMPTY (Head timeout_todo));
  if (e : bool) then mret None
  else
    p ← on_queues (CIRCQ_FIRST (Head timeout_todo));
    to ← timeout_from_circq p;
    on_queues (CIRCQ_REMOVE (Elem to));;
    let new := if to =? first_new then true else new in
    t ← get_to to;
    ran ← (if to_kclock t =? KCLOCK_NONE then softclock_process_tick_timeout to new
           else if to_kclock t =? KCLOCK_UPTIME then softclock_process_kclock_timeout to new
           else fault (Panic "softclock"));
    mret (Some (new, if (ran : bool) then Some to else None)).

(** After the function has returned. *)
Definition softclock_ran : KM () := timeout_run_leave timeout_ctx_si;; count run_softclock.

(** After the loop: which threads are woken. *)
Definition softclock_end : KM (bool * bool) :=
  count softclocks;;
  e ← on_queues (CIRCQ_EMPTY (Head timeout_proc));
  e' ← on_queues (CIRCQ_EMPTY (Head timeout_proc_mp));
  mret (negb e, negb e').

(** All of it, with the functions of the timeouts as [call], which runs without the
    mutex; the result also has the timeouts that ran, in their order. *)
Section softclock.
Context (call : Z → Z → KM ()).

Fixpoint softclock_loop (fuel : nat) (first_new : Z) (new : bool) (ran : list Z) : KM (list Z) :=
  match fuel with
  | O => fault OutOfFuel
  | S fuel =>
      r ← softclock_turn first_new new;
      match r with
      | None => mret ran
      | Some (new, None) => softclock_loop fuel first_new new ran
      | Some (new, Some to) =>
          t ← get_to to;
          call (to_func t) (to_arg t);;
          softclock_ran;;
          softclock_loop fuel first_new new (ran ++ [to])
      end
  end.

Definition softclock (fuel : nat) : KM (list Z * (bool * bool)) :=
  first_new ← softclock_begin;
  ran ← softclock_loop fuel first_new false [];
  wake ← softclock_end;
  mret (ran, wake).
End softclock.

(** [softclock_thread_run] after it wakes, a turn of its loop ([None] when it ends), and
    after the function has returned. *)
Definition thread_begin : KM () := count thread_wakeups.
Definition thread_turn (tctx : timeout_ctx) : KM (option Z) :=
  e ← on_queues (CIRCQ_EMPTY (Head (tctx_todo tctx)));
  if (e : bool) then mret None
  else
    p ← on_queues (CIRCQ_FIRST (Head (tctx_todo tctx)));
    to ← timeout_from_circq p;
    on_queues (CIRCQ_REMOVE (Elem to));;
    timeout_run_enter tctx to;;
    mret (Some to).
Definition thread_ran (tctx : timeout_ctx) : KM () := timeout_run_leave tctx;; count run_thread.

(** ** Moving the clock *)

(** The loop over one bucket: [p] goes on before the element leaves the queue. *)
Fixpoint adjust_bucket (fuel : nat) (q : queue) (p : ptr) (adj new_ticks : Z) : KM () :=
  match fuel with
  | O => fault OutOfFuel
  | S fuel =>
      if bool_decide (p = Head q) then mret tt
      else
        to ← timeout_from_circq p;
        p ← on_queues (CIRCQ_FIRST p);
        t ← get_to to;
        now ← gets ticks;
        (if i32 (to_time t - now) <? adj then upd_to to (set_time new_ticks) else mret tt);;
        on_queues (CIRCQ_REMOVE (Elem to));;
        on_queues (CIRCQ_INSERT_TAIL (Head timeout_todo) (Elem to));;
        adjust_bucket fuel q p adj new_ticks
  end.

Fixpoint adjust_buckets (n : nat) (b : Z) (adj new_ticks : Z) : KM () :=
  match n with
  | O => mret tt
  | S n =>
      p ← on_queues (CIRCQ_FIRST (Head (timeout_wheel b)));
      fuel ← gets (λ s, S (size (timeouts s)));
      adjust_bucket fuel (timeout_wheel b) p adj new_ticks;;
      adjust_buckets n (b + 1) adj new_ticks
  end.

Definition timeout_adjust_ticks (adj : Z) : KM () :=
  if adj <=? 0 then mret tt
  else
    now ← gets ticks;
    let new_ticks := i32 (now + adj) in
    adjust_buckets (Z.to_nat BUCKETS) 0 adj new_ticks;;
    set_ticks new_ticks.
