(* ===== verification/TimeoutWheel.v ===== *)
(** The arithmetic of the timing wheels: when a bucket is emptied next, and that a
    timeout goes into a bucket that is emptied in time. *)

From S2P Require Import Prelude Circq Timeout.

Lemma mask_mod x l : 0 ≤ l → Z.land (Z.shiftr x (l * 8)) 255 = (x / 2 ^ (8 * l)) mod 256.
Proof.
  intros Hl. change 255 with (Z.ones 8). rewrite Z.land_ones, Z.shiftr_div_pow2 by lia.
  by replace (l * 8) with (8 * l) by lia.
Qed.

(** ** Ticks *)

(** How many ticks from [t] on it takes until the clock interrupt empties bucket [b]:
    level [b / 256], slot [b mod 256]. *)
Definition next_dump (b t : Z) : Z :=
  let W := 2 ^ (8 * (b / 256)) in (b mod 256 * W - t - 1) mod (256 * W) + 1.

(** The interrupt at tick [t] empties bucket [b]. *)
Definition dumped (b t : Z) : Prop :=
  b = MASKWHEEL 0 t ∨
  (MASKWHEEL 0 t = 0 ∧ b = MASKWHEEL 1 t + 256) ∨
  (MASKWHEEL 0 t = 0 ∧ MASKWHEEL 1 t = 0 ∧ b = MASKWHEEL 2 t + 512) ∨
  (MASKWHEEL 0 t = 0 ∧ MASKWHEEL 1 t = 0 ∧ MASKWHEEL 2 t = 0 ∧ b = MASKWHEEL 3 t + 768).

Lemma MASKWHEEL_0 t : MASKWHEEL 0 t = t mod 256.
Proof. unfold MASKWHEEL. change (0 * WHEELBITS) with (0 * 8). unfold WHEELMASK. rewrite mask_mod by lia. f_equal. change (2 ^ (8 * 0)) with 1. apply Z.div_1_r. Qed.
Lemma MASKWHEEL_1 t : MASKWHEEL 1 t = (t / 256) mod 256.
Proof. apply (mask_mod t 1). lia. Qed.
Lemma MASKWHEEL_2 t : MASKWHEEL 2 t = (t / 65536) mod 256.
Proof. apply (mask_mod t 2). lia. Qed.
Lemma MASKWHEEL_3 t : MASKWHEEL 3 t = (t / 16777216) mod 256.
Proof. apply (mask_mod t 3). lia. Qed.
Ltac maskwheel := rewrite ?MASKWHEEL_0, ?MASKWHEEL_1, ?MASKWHEEL_2, ?MASKWHEEL_3 in *.

(** The four levels of [next_dump]. *)
Lemma next_dump_0 b t : 0 ≤ b < 256 → next_dump b t = (b - t - 1) mod 256 + 1.
Proof.
  intros Hb. unfold next_dump. rewrite (Z.div_small b) by lia. rewrite (Z.mod_small b) by lia.
  change (2 ^ (8 * 0)) with 1. by rewrite Z.mul_1_r.
Qed.
Lemma next_dump_level l i t : 0 ≤ i < 256 → 0 ≤ l →
  next_dump (i + l * 256) t = (i * 2 ^ (8 * l) - t - 1) mod (256 * 2 ^ (8 * l)) + 1.
Proof.
  intros Hi Hl. unfold next_dump. rewrite Z.div_add, Z.mod_add by lia. by rewrite (Z.div_small i), (Z.mod_small i) by lia.
Qed.
Lemma next_dump_1 i t : 0 ≤ i < 256 → next_dump (i + 256) t = (i * 256 - t - 1) mod 65536 + 1.
Proof. intros Hi. by apply (next_dump_level 1). Qed.
Lemma next_dump_2 i t : 0 ≤ i < 256 → next_dump (i + 512) t = (i * 65536 - t - 1) mod 16777216 + 1.
Proof. intros Hi. by apply (next_dump_level 2). Qed.
Lemma next_dump_3 i t : 0 ≤ i < 256 → next_dump (i + 768) t = (i * 16777216 - t - 1) mod 4294967296 + 1.
Proof. intros Hi. by apply (next_dump_level 3). Qed.

Lemma next_dump_pos b t : 0 ≤ b → 1 ≤ next_dump b t.
Proof.
  intros Hb. unfold next_dump. pose proof (Z.pow_pos_nonneg 2 (8 * (b / 256)) ltac:(lia)) as Hw.
  pose proof (Z.div_pos b 256 Hb ltac:(lia)). specialize (Hw ltac:(lia)).
  pose proof (Z.mod_pos_bound (b mod 256 * 2 ^ (8 * (b / 256)) - t - 1) (256 * 2 ^ (8 * (b / 256))) ltac:(lia)). lia.
Qed.

(** A bucket of the wheel is one of the four levels. *)
Lemma bucket_levels b : 0 ≤ b < 1024 →
  0 ≤ b < 256 ∨ (∃ i, 0 ≤ i < 256 ∧ b = i + 256) ∨ (∃ i, 0 ≤ i < 256 ∧ b = i + 512) ∨ (∃ i, 0 ≤ i < 256 ∧ b = i + 768).
Proof.
  intros Hb. destruct (decide (b < 256)); [left; lia|right]. destruct (decide (b < 512)); [left; exists (b - 256); lia|right].
  destruct (decide (b < 768)); [left; exists (b - 512); lia|right; exists (b - 768); lia].
Qed.

Lemma mod_pred_add x m : 0 < m → x mod m ≠ 0 → (x - 1) mod m = x mod m - 1.
Proof. intros Hm Hx. symmetry. apply (Z.mod_unique_pos _ _ (x / m)); pose proof (Z.div_mod x m); pose proof (Z.mod_pos_bound x m); lia. Qed.

(** Time goes by: a bucket that is not emptied at the next tick is one tick nearer. *)
Lemma next_dump_tick b t : 0 ≤ b < 1024 → is_i32 t → next_dump b t ≠ 1 → next_dump b (i32 (t + 1)) = next_dump b t - 1.
Proof.
  intros Hb Ht Hn. assert (∃ c, i32 (t + 1) = t + 1 + c * 4294967296) as [c ->].
  { unfold i32. exists (- ((t + 1 + 2147483648) / 4294967296)). pose proof (Z.div_mod (t + 1 + 2147483648) 4294967296). lia. }
  destruct (bucket_levels b Hb) as [H|[(i & H & ->)|[(i & H & ->)|(i & H & ->)]]].
  - rewrite !next_dump_0 in * by lia. replace (b - (t + 1 + c * 4294967296) - 1) with (b - t - 1 - 1 + (- c * 16777216) * 256) by lia.
    rewrite Z.mod_add, mod_pred_add by lia. lia.
  - rewrite !next_dump_1 in * by lia.
    replace (i * 256 - (t + 1 + c * 4294967296) - 1) with (i * 256 - t - 1 - 1 + (- c * 65536) * 65536) by lia.
    rewrite Z.mod_add, mod_pred_add by lia. lia.
  - rewrite !next_dump_2 in * by lia.
    replace (i * 65536 - (t + 1 + c * 4294967296) - 1) with (i * 65536 - t - 1 - 1 + (- c * 256) * 16777216) by lia.
    rewrite Z.mod_add, mod_pred_add by lia. lia.
  - rewrite !next_dump_3 in * by lia.
    replace (i * 16777216 - (t + 1 + c * 4294967296) - 1) with (i * 16777216 - t - 1 - 1 + (- c) * 4294967296) by lia.
    rewrite Z.mod_add, mod_pred_add by lia. lia.
Qed.

Lemma next_dump_now b t : 0 ≤ b < 1024 → is_i32 t → next_dump b t = 1 → dumped b (i32 (t + 1)).
Proof.
  unfold dumped. intros Hb Ht. maskwheel. unfold i32, is_i32 in *.
  destruct (bucket_levels b Hb) as [H|[(i & H & ->)|[(i & H & ->)|(i & H & ->)]]].
  - rewrite next_dump_0 by lia. intros Hn. left. zmod.
  - rewrite next_dump_1 by lia. intros Hn. right; left. split; zmod.
  - rewrite next_dump_2 by lia. intros Hn. right; right; left. split_and!; zmod.
  - rewrite next_dump_3 by lia. intros Hn. right; right; right. split_and!; zmod.
Qed.

Lemma BUCKET_eq rel abs :
  BUCKET rel abs =
    if rel <=? 65536 then (if rel <=? 256 then abs mod 256 else (abs / 256) mod 256 + 256)
    else (if rel <=? 16777216 then (abs / 65536) mod 256 + 512 else (abs / 16777216) mod 256 + 768).
Proof. unfold BUCKET. maskwheel. done. Qed.

Lemma BUCKET_range rel abs : 0 ≤ BUCKET rel abs < 1024.
Proof. rewrite BUCKET_eq. repeat case_match; zmod. Qed.

(** A timeout goes into a bucket that is emptied at its time at the latest. *)
Lemma BUCKET_in_time t abs : is_i32 t → is_i32 abs → 0 < i32 (abs - t) →
  next_dump (BUCKET (i32 (abs - t)) abs) t ≤ i32 (abs - t).
Proof.
  rewrite BUCKET_eq. set (rel := i32 (abs - t)). intros Ht Ha Hrel.
  assert (∃ c, abs = t + rel + c * 4294967296 ∧ rel < 2147483648) as (c & Eabs & Hmax).
  { unfold rel, i32. exists ((abs - t + 2147483648) / 4294967296). zmod. }
  destruct (Z.leb_spec rel 65536); [destruct (Z.leb_spec rel 256)|destruct (Z.leb_spec rel 16777216)].
  - rewrite next_dump_0 by (apply Z.mod_pos_bound; lia). clear - Hrel Eabs H0. zmod.
  - rewrite next_dump_1 by (apply Z.mod_pos_bound; lia). clear - Hrel Eabs H0 H. zmod.
  - rewrite next_dump_2 by (apply Z.mod_pos_bound; lia). clear - Hrel Eabs H0 H. zmod.
  - rewrite next_dump_3 by (apply Z.mod_pos_bound; lia). clear - Hrel Eabs H0 H Hmax. zmod.
Qed.

(** The time left goes down with the ticks. *)
Lemma delta_tick abs t : is_i32 abs → is_i32 t → 0 < i32 (abs - t) → i32 (abs - i32 (t + 1)) = i32 (abs - t) - 1.
Proof. unfold i32, is_i32. intros Ha Ht. zmod. Qed.

(** ** Clock time *)

(** A time since boot that the kernel can have: no overflow in sums and differences. *)
Definition good_ts (t : timespec) : Prop := 0 ≤ tv_sec t < 2 ^ 62 ∧ 0 ≤ tv_nsec t < 1000000000.

Definition nsecs (t : timespec) : Z := tv_sec t * 1000000000 + tv_nsec t.
(** The unit of the wheel: 1/128 second. *)
Definition hash (t : timespec) : Z := tv_sec t * 128 + tv_nsec t / 7812500.

Lemma hash_nsecs t : good_ts t → hash t = nsecs t / 7812500.
Proof. intros [_ H]. unfold hash, nsecs. zmod. Qed.

Lemma timespec_lt_nsecs t u : good_ts t → good_ts u → timespec_lt t u = true ↔ nsecs t < nsecs u.
Proof. unfold timespec_lt, nsecs, good_ts. intros Ht Hu. case_match; lia. Qed.

Lemma timespecsub_sec t u : good_ts t → good_ts u → nsecs u ≤ nsecs t →
  tv_sec (timespecsub t u) = (nsecs t - nsecs u) / 1000000000.
Proof.
  unfold good_ts, nsecs, timespecsub. intros Ht Hu Hle.
  assert (∀ x, - 2 ^ 62 ≤ x < 2 ^ 62 → i64 x = x) as Hi by (intros x Hx; unfold i64; rewrite Z.mod_small; lia).
  rewrite !(Hi (tv_nsec t - tv_nsec u)), (Hi (tv_sec t - tv_sec u)) by lia. destruct (Z.ltb_spec (tv_nsec t - tv_nsec u) 0); cbn [tv_sec].
  - rewrite Hi by lia. apply (Z.div_unique_pos _ _ _ (tv_nsec t - tv_nsec u + 1000000000)); lia.
  - apply (Z.div_unique_pos _ _ _ (tv_nsec t - tv_nsec u)); lia.
Qed.

Lemma timespecadd_0 t : good_ts t → timespecadd t (Timespec 0 0) = t.
Proof.
  unfold good_ts, timespecadd. cbn. rewrite !Z.add_0_r. intros Ht.
  assert (∀ x, - 2 ^ 62 ≤ x < 2 ^ 62 → i64 x = x) as Hi by (intros x Hx; unfold i64; rewrite Z.mod_small; lia).
  destruct Ht as [Hs Hn]. rewrite (Hi (tv_nsec t)), (Hi (tv_sec t)) by lia. destruct (Z.leb_spec 1000000000 (tv_nsec t)) as [Hge|Hlt]; [|by destruct t].
  exfalso. clear - Hn Hge. lia.
Qed.

Lemma maskwheel_hash l t : good_ts t → 0 ≤ l < 4 → timeout_maskwheel l t = (hash t / 2 ^ (8 * l)) mod 256.
Proof.
  intros [Hs Hn] Hl. unfold timeout_maskwheel. rewrite Z.quot_div_nonneg by lia.
  assert (0 ≤ tv_nsec t / 7812500 < 128) as Hlo by zmod.
  rewrite (u32_small (tv_nsec t / 7812500)) by (unfold is_u32; lia).
  assert (Z.lor (u32 (Z.shiftl (tv_sec t) 7)) (tv_nsec t / 7812500) = u32 (hash t)) as ->.
  { rewrite Z.shiftl_mul_pow2 by lia. change (2 ^ 7) with 128.
    replace (u32 (tv_sec t * 128)) with (Z.shiftl (tv_sec t mod 33554432) 7).
    - rewrite lor_shiftl_add by lia. change (2 ^ 7) with 128. unfold hash, u32. zmod.
    - rewrite Z.shiftl_mul_pow2 by lia. change (2 ^ 7) with 128. unfold u32. zmod. }
  change (l * WHEELBITS) with (l * 8). unfold WHEELMASK. rewrite mask_mod by lia. unfold u32.
  assert (l = 0 ∨ l = 1 ∨ l = 2 ∨ l = 3) as [->|[->|[->| ->]]] by lia.
  - change (2 ^ (8 * 0)) with 1. zmod.
  - change (2 ^ (8 * 1)) with 256. zmod.
  - change (2 ^ (8 * 2)) with 65536. zmod.
  - change (2 ^ (8 * 3)) with 16777216. zmod.
Qed.

(** A timeout for the time [A] is rightly in bucket [b] after a scan at [last]: the time is
    yet to come, and on the upper levels the scans have not got to its slot. *)
Record kc_waits (last : timespec) (b : Z) (A : timespec) : Prop := {
  kw_good : good_ts A;
  kw_later : nsecs last < nsecs A;
  kw_slot : b mod 256 = (hash A / 2 ^ (8 * (b / 256))) mod 256;
  kw_ahead : 256 ≤ b → hash last / 2 ^ (8 * (b / 256)) < hash A / 2 ^ (8 * (b / 256));
}.

Lemma hash_mono t u : good_ts t → good_ts u → nsecs t ≤ nsecs u → hash t ≤ hash u.
Proof. intros Ht Hu Hle. rewrite !hash_nsecs by done. by apply Z.div_le_mono. Qed.

(** Where [timeout_bucket] puts it. *)
Lemma kc_waits_new last A :
  good_ts last → good_ts A → nsecs last < nsecs A →
  let l := bucket_level (timespecsub A last) in
  0 ≤ l < 4 ∧ kc_waits last (l * 256 + timeout_maskwheel l A) A.
Proof.
  intros Hl HA Hlt l. pose proof (timespecsub_sec A last HA Hl ltac:(lia)) as Hsec.
  assert (0 ≤ l < 4 ∧ (1 ≤ l → 2 * 256 ^ (l - 1) ≤ tv_sec (timespecsub A last))) as [Hl4 Hwide].
  { subst l. unfold bucket_level, timeout_level_width, WHEELBITS. rewrite !Z.shiftl_mul_pow2 by lia.
    destruct (Z.ltb_spec (tv_sec (timespecsub A last)) (2 * 2 ^ (0 * 8))); [lia|].
    destruct (Z.ltb_spec (tv_sec (timespecsub A last)) (2 * 2 ^ (1 * 8))); [cbn in *; lia|].
    destruct (Z.ltb_spec (tv_sec (timespecsub A last)) (2 * 2 ^ (2 * 8))); cbn in *; lia. }
  split; [done|]. rewrite maskwheel_hash by done. clearbody l.
  pose proof (Z.mod_pos_bound (hash A / 2 ^ (8 * l)) 256 ltac:(lia)) as Hm.
  assert ((l * 256 + (hash A / 2 ^ (8 * l)) mod 256) / 256 = l) as Ediv by zmod.
  split; [done|done| |]; rewrite Ediv; [zmod|]. intros Hb.
  assert (1 ≤ l) as Hl1 by lia. specialize (Hwide Hl1). rewrite Hsec in Hwide. rewrite !hash_nsecs by done.
  assert (l = 1 ∨ l = 2 ∨ l = 3) as [->|[->| ->]] by lia.
  - change (2 ^ (8 * 1)) with 256. change (256 ^ (1 - 1)) with 1 in *. zmod.
  - change (2 ^ (8 * 2)) with 65536. change (256 ^ (2 - 1)) with 256 in *. zmod.
  - change (2 ^ (8 * 3)) with 16777216. change (256 ^ (3 - 1)) with 65536 in *. zmod.
Qed.

(** The slots a scan of level [l] empties: from that of [last] to that of [now]. *)
Definition swept (first last i : Z) : Prop := ∃ j, 0 ≤ j ≤ (last - first) mod 256 ∧ i = (first + j) mod 256.

Section scan.
Context (last now : timespec) (Hlast : good_ts last) (Hnow : good_ts now).
Context (Hle : nsecs last ≤ nsecs now) (Hgap : hash now - hash last < 256).

Lemma gap_level l : 0 ≤ l → 0 ≤ hash now / 2 ^ (8 * l) - hash last / 2 ^ (8 * l) < 256.
Proof.
  intros Hl. pose proof (hash_mono _ _ Hlast Hnow Hle) as Hm. pose proof (Z.pow_pos_nonneg 2 (8 * l) ltac:(lia) ltac:(lia)) as Hw.
  split; [pose proof (Z.div_le_mono _ _ (2 ^ (8 * l)) Hw Hm); lia|].
  pose proof (Z.div_mod (hash now) (2 ^ (8 * l)) ltac:(lia)). pose proof (Z.div_mod (hash last) (2 ^ (8 * l)) ltac:(lia)).
  pose proof (Z.mod_pos_bound (hash now) (2 ^ (8 * l)) Hw). pose proof (Z.mod_pos_bound (hash last) (2 ^ (8 * l)) Hw). nia.
Qed.

(** The scan is less than two seconds after the last: no level is emptied whole. *)
Lemma gap_narrow l : 0 ≤ l → tv_sec (timespecsub now last) < timeout_level_width l.
Proof.
  intros Hl. rewrite timespecsub_sec by done. unfold timeout_level_width, WHEELBITS. rewrite Z.shiftl_mul_pow2 by lia.
  pose proof (Z.pow_pos_nonneg 2 (l * 8) ltac:(lia) ltac:(lia)) as Hw.
  assert ((nsecs now - nsecs last) / 1000000000 < 2); [|lia]. rewrite !hash_nsecs in Hgap by done. zmod.
Qed.

(** A timeout in a slot that is not swept goes on waiting. *)
Lemma not_swept b A : 0 ≤ b → kc_waits last b A →
  ¬ swept (timeout_maskwheel (b / 256) last) (timeout_maskwheel (b / 256) now) (b mod 256) → b < 1024 → kc_waits now b A.
Proof.
  intros Hb [HA Hlt Hslot Hahead] Hns Hb4. set (l := b / 256) in *. assert (0 ≤ l < 4) as Hl by (subst l; zmod).
  rewrite !maskwheel_hash in Hns by (done || lia). pose proof (gap_level l ltac:(lia)) as Hg.
  set (F := hash last / 2 ^ (8 * l)) in *. set (N := hash now / 2 ^ (8 * l)) in *. set (a := hash A / 2 ^ (8 * l)) in *.
  assert (F ≤ a) as HFa.
  { subst F a. apply Z.div_le_mono; [apply Z.pow_pos_nonneg; lia|]. apply hash_mono; [done|done|lia]. }
  assert (N < a) as HNa.
  { destruct (Z.lt_ge_cases N a) as [|Hge]; [done|]. destruct Hns. exists (a - F). rewrite Hslot. clearbody F N a. clear - Hg HFa Hge. split; zmod. }
  split; [done| |done|by intros _].
  destruct (Z.le_gt_cases (nsecs A) (nsecs now)) as [Hc|]; [|lia]. pose proof (hash_mono _ _ HA Hnow Hc) as Hm.
  pose proof (Z.div_le_mono _ _ (2 ^ (8 * l)) (Z.pow_pos_nonneg 2 (8 * l) ltac:(lia) ltac:(lia)) Hm). lia.
Qed.

(** Where the scan of a level does not go around its end, the levels above wait. *)
Lemma not_around l b A : 0 ≤ l < 4 → timeout_maskwheel l last ≤ timeout_maskwheel l now →
  l < b / 256 → b < 1024 → kc_waits last b A → kc_waits now b A.
Proof.
  intros Hl Hfl Hlb Hb4 [HA Hlt Hslot Hahead]. rewrite !maskwheel_hash in Hfl by done. pose proof (gap_level l ltac:(lia)) as Hg.
  set (l' := b / 256) in *. assert (l' < 4) as Hl4 by (subst l'; zmod).
  assert (hash now / 2 ^ (8 * l') = hash last / 2 ^ (8 * l')) as Esame.
  { replace (2 ^ (8 * l')) with (2 ^ (8 * l) * 2 ^ (8 * (l' - l))) by (rewrite <-Z.pow_add_r by lia; f_equal; lia).
    rewrite <-!Z.div_div by (apply Z.pow_nonzero || apply Z.pow_pos_nonneg; lia).
    set (F := hash last / 2 ^ (8 * l)) in *. set (N := hash now / 2 ^ (8 * l)) in *. clearbody F N.
    assert (N / 256 = F / 256) as E by (clear - Hg Hfl; zmod).
    replace (8 * (l' - l)) with (8 + 8 * (l' - l - 1)) by lia. rewrite Z.pow_add_r by lia. change (2 ^ 8) with 256.
    rewrite <-!Z.div_div by (try apply Z.pow_pos_nonneg; lia). by rewrite E. }
  assert (256 ≤ b) as Hb by (subst l'; clear - Hl Hlb; zmod). specialize (Hahead Hb).
  split; [done| |done|intros _; fold l'; lia].
  destruct (Z.le_gt_cases (nsecs A) (nsecs now)) as [Hc|]; [|lia]. pose proof (hash_mono _ _ HA Hnow Hc) as Hm.
  pose proof (Z.div_le_mono _ _ (2 ^ (8 * l')) (Z.pow_pos_nonneg 2 (8 * l') ltac:(lia) ltac:(lia)) Hm). lia.
Qed.
End scan.
