(* ===== verification/TimeoutInv.v ===== *)
(** The invariant of the timeouts and how the pieces of the code keep it. *)

From S2P Require Import Prelude StateMonad Circq Timeout TimeoutWheel.

(** ** The invariant *)

Definition lastscan (s : kstate) : timespec := kc_lastscan (timeout_kclock s).
Definition with_circ (c : circqs) (s : kstate) : kstate :=
  Kstate c (timeouts s) (ticks s) (timeout_kclock s) (tctx_running s) (tostat s).
Definition with_to (a : Z) (t : timeout) (s : kstate) : kstate :=
  Kstate (circ s) (<[a := t]> (timeouts s)) (ticks s) (timeout_kclock s) (tctx_running s) (tostat s).

(** What every timeout is that has been set, and one that is pending. *)
Record well (t : timeout) : Prop := {
  w_init : ISSET (to_flags t) TIMEOUT_INITIALIZED = true;
  w_clock : to_kclock t = KCLOCK_NONE ∨ to_kclock t = KCLOCK_UPTIME;
  w_time : is_i32 (to_time t);
  w_mpsafe : ISSET (to_flags t) TIMEOUT_MPSAFE = true → ISSET (to_flags t) TIMEOUT_PROC = true;
}.
Definition waiting (t : timeout) : Prop := to_kclock t = KCLOCK_UPTIME → good_ts (to_abstime t).

(** A timeout is rightly on a queue: on the wheels it is before its time, and the bucket
    is emptied in time.  The clock's wheel keeps that promise only when the scans are less
    than a lap of its first level apart: [strict]. *)
Definition placed (strict : bool) (now : Z) (last : timespec) (t : timeout) (q : queue) : Prop :=
  waiting t ∧
  match q with
  | timeout_new | timeout_todo => True
  | timeout_proc => ISSET (to_flags t) TIMEOUT_PROC = true ∧ ISSET (to_flags t) TIMEOUT_MPSAFE = false
  | timeout_proc_mp => ISSET (to_flags t) TIMEOUT_PROC = true ∧ ISSET (to_flags t) TIMEOUT_MPSAFE = true
  | timeout_wheel b => to_kclock t = KCLOCK_NONE ∧ next_dump b now ≤ i32 (to_time t - now)
  | timeout_wheel_kc b =>
      to_kclock t = KCLOCK_UPTIME ∧ (strict = true → ∃ A, kc_waits last b A ∧ nsecs A ≤ nsecs (to_abstime t))
  end.

(** [P] are the pending timeouts; the timeout [x] is being worked on. *)
Record ok (strict : bool) (x : option Z) (P : gset Z) (Q : lists) (s : kstate) : Prop := {
  ok_queues : queues Q (c_mem (circ s));
  ok_cells a : is_Some (timeouts s !! a) → is_Some (c_mem (circ s) !! Elem a);
  ok_ticks : is_i32 (ticks s);
  ok_scan : good_ts (lastscan s);
  ok_offset : kc_offset (timeout_kclock s) = Timespec 0 0;
  ok_pending : tos_pending (circ s) = u64 (Z.of_nat (size P));
  ok_on a : a ∈ P ↔ ∃ q, a ∈ Q q;
  ok_well a t : timeouts s !! a = Some t → well t;
  ok_flag a t : timeouts s !! a = Some t → x ≠ Some a → ISSET (to_flags t) TIMEOUT_ONQUEUE = true ↔ a ∈ P;
  ok_placed q a : a ∈ Q q →
    ∃ t, timeouts s !! a = Some t ∧ (x ≠ Some a → placed strict (ticks s) (lastscan s) t q);
}.

(** No other timeout is being worked on. *)
Definition only (x : option Z) (a : Z) : Prop := x = None ∨ x = Some a.

Lemma only_none a : only None a.
Proof. by left. Qed.
Lemma only_same a : only (Some a) a.
Proof. by right. Qed.
#[export] Hint Resolve only_none only_same : core.

Lemma only_ne x a b : only x a → Some a ≠ Some b → x ≠ Some b.
Proof. intros [-> | ->]; congruence. Qed.

(** Only these parts of the state matter. *)
Lemma ok_same strict x P Q s s' :
  circ s' = circ s → timeouts s' = timeouts s → ticks s' = ticks s → timeout_kclock s' = timeout_kclock s →
  ok strict x P Q s → ok strict x P Q s'.
Proof.
  destruct s, s'; cbn. intros -> -> -> -> []. by constructor.
Qed.

(** ** Access *)

Lemma runs_on_queues {A} (m : CM A) s (R : A → kstate → Prop) :
  runs m (circ s) (λ a c, R a (with_circ c s)) → runs (on_queues m) s R.
Proof. intros (a & c & Hm & HR). exists a, (with_circ c s). unfold on_queues. by rewrite Hm. Qed.
Lemma runs_get_to s a t (R : timeout → kstate → Prop) : timeouts s !! a = Some t → R t s → runs (get_to a) s R.
Proof. intros E HR. exists t, s. unfold get_to. by rewrite E. Qed.
Lemma runs_upd_to s a t f (R : () → kstate → Prop) :
  timeouts s !! a = Some t → R tt (with_to a (f t) s) → runs (upd_to a f) s R.
Proof. intros E HR. apply runs_bind, (runs_get_to _ _ t); [done|]. by apply runs_modify. Qed.
Lemma with_to_twice a t t' s : with_to a t' (with_to a t s) = with_to a t' s.
Proof. unfold with_to; cbn. by rewrite insert_insert_eq. Qed.
Lemma lookup_with_to a t s : timeouts (with_to a t s) !! a = Some t.
Proof. apply lookup_insert_eq. Qed.

(** ** Flags *)

Ltac flag := unfold ISSET, SET, CLR; first [rewrite has_clear by done | rewrite has_set by done]; done.

Lemma has_set_same f b : b ≠ 0 → has (Z.lor f b) b = true.
Proof.
  intros Hb. unfold has. rewrite (Z.land_comm _ b), Z.land_lor_distr_r, Z.land_diag.
  destruct (Z.eqb_spec (Z.lor (Z.land b f) b) 0) as [E|]; [|done]. by apply Z.lor_eq_0_iff in E as [_ ?].
Qed.
Lemma onqueue_set f : ISSET (SET f TIMEOUT_ONQUEUE) TIMEOUT_ONQUEUE = true.
Proof. by apply has_set_same. Qed.
Lemma onqueue_cleared f : ISSET (CLR f TIMEOUT_ONQUEUE) TIMEOUT_ONQUEUE = false.
Proof. apply has_cleared. Qed.

(** A timeout that is edited otherwise stays well formed. *)
Lemma well_edit t t' :
  well t → to_kclock t' = to_kclock t → is_i32 (to_time t') →
  (∀ b, b = TIMEOUT_INITIALIZED ∨ b = TIMEOUT_PROC ∨ b = TIMEOUT_MPSAFE → ISSET (to_flags t') b = ISSET (to_flags t) b) →
  well t'.
Proof. intros [H1 H2 H3 H4] Hk Ht Hf. split; rewrite ?Hf, ?Hk; auto. Qed.

(** ** Steps of the invariant *)

(** The queues without a timeout. *)
Definition without (a : Z) (Q : lists) : lists := λ q, filter (λ b, b ≠ a) (Q q).

Lemma filter_notin (l : list Z) a : a ∉ l → filter (λ b, b ≠ a) l = l.
Proof.
  induction l as [|b l IH]; intros Ha; [done|]. rewrite filter_cons_True by set_solver. f_equal. apply IH. set_solver.
Qed.
Lemma in_without a Q q b : b ∈ without a Q q ↔ b ∈ Q q ∧ b ≠ a.
Proof. unfold without. rewrite list_elem_of_filter. tauto. Qed.
Lemma length_without a Q q : (length (without a Q q) ≤ length (Q q))%nat.
Proof. apply length_filter. Qed.
Lemma without_notin a Q : (∀ q, a ∉ Q q) → ∀ q, without a Q q = Q q.
Proof. intros H q. by apply filter_notin. Qed.
Lemma without_put Q m q l1 a l2 q' : queues Q m → Q q = l1 ++ a :: l2 → without a Q q' = put q (l1 ++ l2) Q q'.
Proof.
  intros H E. pose proof (qs_nodup _ _ H q) as Hnd. rewrite E in Hnd.
  apply NoDup_app in Hnd as (_ & Hap & [Hna _]%NoDup_cons). unfold without.
  destruct (decide (q' = q)) as [->|Hne].
  - rewrite put_eq, E, filter_app, filter_cons_False by tauto. rewrite !filter_notin; [done|done|].
    intros Ha. apply (Hap a Ha). left.
  - rewrite put_ne by done. apply filter_notin. intros Ha. apply Hne, (qs_apart _ _ H q' q a); [done|]. rewrite E. set_solver.
Qed.
Lemma without_first Q m q a l : queues Q m → Q q = a :: l → without a Q q = l.
Proof. intros H E. rewrite (without_put Q m q [] a l) by done. apply put_eq. Qed.

Lemma in_insert Q q a q' b : b ∈ put q (Q q ++ [a]) Q q' ↔ b ∈ Q q' ∨ (b = a ∧ q' = q).
Proof.
  destruct (decide (q' = q)) as [->|Hne]; [rewrite put_eq|rewrite put_ne by done]; set_solver.
Qed.
Lemma in_insert_head Q q a q' b : b ∈ put q (a :: Q q) Q q' ↔ b ∈ Q q' ∨ (b = a ∧ q' = q).
Proof.
  destruct (decide (q' = q)) as [->|Hne]; [rewrite put_eq|rewrite put_ne by done]; set_solver.
Qed.

Section steps.
Context (strict : bool).
Implicit Types (P : gset Z) (Q : lists) (s : kstate) (R : () → kstate → Prop).

(** A timeout is written, and is being worked on from then. *)
Lemma ok_upd x P Q s a t t' : only x a → ok strict x P Q s → timeouts s !! a = Some t → well t' →
  ok strict (Some a) P Q (with_to a t' s).
Proof.
  intros Hx H Ea Hw. split; try apply H; cbn.
  - intros b. destruct (decide (b = a)) as [->|Hb]; [intros _; apply (ok_cells _ _ _ _ _ H); by rewrite Ea|].
    rewrite lookup_insert_ne by done. apply (ok_cells _ _ _ _ _ H).
  - intros b u. destruct (decide (b = a)) as [->|Hb]; [rewrite lookup_insert_eq; by intros [= <-]|].
    rewrite lookup_insert_ne by done. apply (ok_well _ _ _ _ _ H).
  - intros b u E Hb. rewrite lookup_insert_ne in E by congruence. apply (ok_flag _ _ _ _ _ H); [done|by eapply only_ne].
  - intros q b Hb. destruct (ok_placed _ _ _ _ _ H q b Hb) as (u & Eu & Hu). destruct (decide (b = a)) as [->|Hba].
    + exists t'. split; [apply lookup_insert_eq|done].
    + exists u. rewrite lookup_insert_ne by done. split; [done|]. intros Hne. apply Hu. by eapply only_ne.
Qed.

(** The work on it is done. *)
Lemma ok_close P Q s a t : ok strict (Some a) P Q s → timeouts s !! a = Some t →
  (ISSET (to_flags t) TIMEOUT_ONQUEUE = true ↔ a ∈ P) →
  (∀ q, a ∈ Q q → placed strict (ticks s) (lastscan s) t q) → ok strict None P Q s.
Proof.
  intros H Ea Hf Hp. split; try apply H.
  - intros b u E _. destruct (decide (b = a)) as [->|Hb]; [by simplify_eq|]. apply (ok_flag _ _ _ _ _ H); [done|congruence].
  - intros q b Hb. destruct (ok_placed _ _ _ _ _ H q b Hb) as (u & Eu & Hu). exists u. split; [done|]. intros _.
    destruct (decide (b = a)) as [->|Hne]; [simplify_eq; by apply Hp|]. apply Hu. congruence.
Qed.

Lemma runs_ok_remove x P Q s a R : only x a → ok strict x P Q s → a ∈ P →
  (∀ c, ok strict (Some a) (P ∖ {[a]}) (without a Q) (with_circ c s) → R tt (with_circ c s)) →
  runs (on_queues (CIRCQ_REMOVE (Elem a))) s R.
Proof.
  intros Hx H HaP HR. destruct (proj1 (ok_on _ _ _ _ _ H a) HaP) as [q (l1 & l2 & E)%list_elem_of_split].
  apply runs_on_queues, (runs_remove Q _ q l1 a l2); [apply H|done|]. intros c [Hq Hd Hp]. apply HR. split; try apply H; cbn.
  - eapply queues_ext; [|exact Hq]. intros q'. eapply without_put; [apply H|done].
  - intros b Hb. apply elem_of_dom. rewrite Hd. apply elem_of_dom. by apply (ok_cells _ _ _ _ _ H).
  - rewrite Hp, (ok_pending _ _ _ _ _ H), size_difference, size_singleton by set_solver.
    assert (1 ≤ size P)%nat by (rewrite <-(size_singleton (C := gset Z) a); apply subseteq_size; set_solver).
    rewrite Nat2Z.inj_sub by done. unfold u64. rewrite Zplus_mod_idemp_l. f_equal; lia.
  - intros b. rewrite elem_of_difference, not_elem_of_singleton, (ok_on _ _ _ _ _ H). setoid_rewrite in_without. naive_solver.
  - intros b t Eb Hb. rewrite (ok_flag _ _ _ _ _ H b t Eb) by (by eapply only_ne). set_solver.
  - intros q' b [Hb Hne]%in_without. destruct (ok_placed _ _ _ _ _ H q' b Hb) as (t & Et & Ht). exists t. split; [done|].
    intros _. apply Ht. apply (only_ne _ a); [done|congruence].
Qed.

(** What an insertion does, at either end. *)
Lemma ok_inserted x P Q Q' s c a t q : only x a → ok strict x P Q s → timeouts s !! a = Some t → a ∉ P →
  ISSET (to_flags t) TIMEOUT_ONQUEUE = true → placed strict (ticks s) (lastscan s) t q →
  (∀ q' b, b ∈ Q' q' ↔ b ∈ Q q' ∨ (b = a ∧ q' = q)) → after_macro Q' 1 (circ s) c →
  ok strict None (P ∪ {[a]}) Q' (with_circ c s).
Proof.
  intros Hx H Et Ha Hf Hpl Hin [Hq Hd Hp]. split; try apply H; cbn.
  - done.
  - intros b Hb. apply elem_of_dom. rewrite Hd. apply elem_of_dom. by apply (ok_cells _ _ _ _ _ H).
  - rewrite Hp, (ok_pending _ _ _ _ _ H), size_union, size_singleton by set_solver.
    rewrite Nat2Z.inj_add. unfold u64. by rewrite Zplus_mod_idemp_l.
  - intros b. rewrite elem_of_union, elem_of_singleton, (ok_on _ _ _ _ _ H). setoid_rewrite Hin. naive_solver.
  - intros b u Eb _. destruct (decide (b = a)) as [->|Hne]; [simplify_eq; set_solver|].
    rewrite (ok_flag _ _ _ _ _ H b u Eb) by (eapply only_ne; [done|congruence]). set_solver.
  - intros q' b [Hb|[-> ->]]%Hin.
    + assert (b ∈ P) by (apply (ok_on _ _ _ _ _ H); by exists q').
      destruct (ok_placed _ _ _ _ _ H q' b Hb) as (u & Eu & Hu). exists u. split; [done|]. intros _. apply Hu.
      apply (only_ne _ a); [done|set_solver].
    + exists t. done.
Qed.

Lemma not_pending x P Q s a : ok strict x P Q s → a ∉ P → ∀ q, a ∉ Q q.
Proof. intros H Ha q Hq. apply Ha, (ok_on _ _ _ _ _ H). by exists q. Qed.

Lemma runs_ok_insert x P Q s a t q R : only x a → ok strict x P Q s → timeouts s !! a = Some t → a ∉ P → valid_queue q →
  ISSET (to_flags t) TIMEOUT_ONQUEUE = true → placed strict (ticks s) (lastscan s) t q →
  (∀ c, ok strict None (P ∪ {[a]}) (put q (Q q ++ [a]) Q) (with_circ c s) → R tt (with_circ c s)) →
  runs (on_queues (CIRCQ_INSERT_TAIL (Head q) (Elem a))) s R.
Proof.
  intros Hx H Et Ha Hv Hf Hpl HR. apply runs_on_queues, (runs_insert_tail Q); [apply H|done| |by eapply not_pending|].
  - apply (ok_cells _ _ _ _ _ H). by rewrite Et.
  - intros c Hc. apply HR. apply (ok_inserted x P Q _ s c a t q); try done. intros q' b. apply in_insert.
Qed.

Lemma runs_ok_insert_head x P Q s a t q R : only x a → ok strict x P Q s → timeouts s !! a = Some t → a ∉ P → valid_queue q →
  ISSET (to_flags t) TIMEOUT_ONQUEUE = true → placed strict (ticks s) (lastscan s) t q →
  (∀ c, ok strict None (P ∪ {[a]}) (put q (a :: Q q) Q) (with_circ c s) → R tt (with_circ c s)) →
  runs (on_queues (CIRCQ_INSERT_HEAD (Head q) (Elem a))) s R.
Proof.
  intros Hx H Et Ha Hv Hf Hpl HR. apply runs_on_queues, (runs_insert_head Q); [apply H|done| |by eapply not_pending|].
  - apply (ok_cells _ _ _ _ _ H). by rewrite Et.
  - intros c Hc. apply HR. apply (ok_inserted x P Q _ s c a t q); try done. intros q' b. apply in_insert_head.
Qed.
End steps.
