(* ===== verification/TimeoutOps.v ===== *)
(** What the calls of the clients of timeouts do: set, add, delete, barrier. *)

From S2P Require Import Prelude StateMonad Circq Timeout TimeoutWheel TimeoutInv.

(** ** Flags *)

Lemma onqueue_bit f : ISSET f TIMEOUT_ONQUEUE = Z.testbit f 1.
Proof.
  unfold ISSET, has. change TIMEOUT_ONQUEUE with (2 ^ 1). destruct (Z.testbit f 1) eqn:E.
  - apply negb_true_iff, Z.eqb_neq. intros H. apply (f_equal (λ x, Z.testbit x 1)) in H.
    rewrite Z.land_spec, E in H. done.
  - apply negb_false_iff, Z.eqb_eq, Z.bits_inj'. intros i Hi. rewrite Z.land_spec, Z.pow2_bits_eqb, Z.bits_0 by lia.
    destruct (Z.eqb_spec 1 i) as [<-|]; [by rewrite E|apply andb_false_r].
Qed.
Lemma set_onqueue f : ISSET f TIMEOUT_ONQUEUE = true → SET f TIMEOUT_ONQUEUE = f.
Proof.
  rewrite onqueue_bit. intros E. apply Z.bits_inj'. intros i Hi. unfold SET. change TIMEOUT_ONQUEUE with (2 ^ 1).
  rewrite Z.lor_spec, Z.pow2_bits_eqb by lia. destruct (Z.eqb_spec 1 i) as [<-|]; [by rewrite E|apply orb_false_r].
Qed.
Lemma set_flags_same t : set_flags (to_flags t) t = t.
Proof. by destruct t. Qed.

(** ** Putting a timeout on timeout_new *)

(** The timeout [a] is [t'] now and the clock is as it was. *)
Record edited (a : Z) (t' : timeout) (s s' : kstate) : Prop := {
  ed_timeouts : timeouts s' = <[a := t']> (timeouts s);
  ed_ticks : ticks s' = ticks s;
  ed_kclock : timeout_kclock s' = timeout_kclock s;
  ed_running : tctx_running s' = tctx_running s;
}.

(** To the end of the new timeouts, unless it is pending and not moved earlier. *)
Definition requeue (a : Z) (stays : bool) (Q : lists) : lists :=
  if stays then Q else put timeout_new (without a Q timeout_new ++ [a]) (without a Q).

Lemma todo_requeue a stays Q : (length (requeue a stays Q timeout_todo) ≤ length (Q timeout_todo))%nat.
Proof. destruct stays; cbn; [done|]. apply length_without. Qed.

Lemma ok_ext strict x P Q Q' s : (∀ q, Q' q = Q q) → ok strict x P Q s → ok strict x P Q' s.
Proof.
  intros E H. split; try apply H.
  - eapply queues_ext; [exact E|apply H].
  - intros a. setoid_rewrite E. apply H.
  - intros q a. rewrite E. apply H.
Qed.

Lemma put_ext q l Q Q' : (∀ q, Q' q = Q q) → ∀ q', put q l Q' q' = put q l Q q'.
Proof. intros E q'. unfold put. by case_decide. Qed.

Section calls.
Context (strict : bool).
Implicit Types (P : gset Z) (Q : lists) (s : kstate).

Lemma runs_enqueue P Q s a t earlier (R : Z → kstate → Prop) :
  ok strict (Some a) P Q s → timeouts s !! a = Some t → (ISSET (to_flags t) TIMEOUT_ONQUEUE = true ↔ a ∈ P) → waiting t →
  (earlier = false → ∀ q, a ∈ Q q → placed strict (ticks s) (lastscan s) t q) →
  (∀ s', ok strict None (P ∪ {[a]}) (requeue a (bool_decide (a ∈ P) && negb earlier) Q) s' →
    edited a (set_flags (SET (to_flags t) TIMEOUT_ONQUEUE) t) s s' → R (if decide (a ∈ P) then 0 else 1) s') →
  runs (enqueue a earlier) s R.
Proof.
  intros H Et Hf Hw Hst HR. apply runs_bind, (runs_get_to _ _ t); [done|]. apply runs_bind.
  destruct (ISSET (to_flags t) TIMEOUT_ONQUEUE) eqn:Eon.
  - assert (a ∈ P) as Ha by (by apply Hf). rewrite bool_decide_eq_true_2 in HR by done. rewrite decide_True in HR by done.
    rewrite set_onqueue, set_flags_same in HR by done. destruct earlier; cbn [andb negb requeue] in HR.
    + apply runs_bind, runs_bind, (runs_ok_remove strict (Some a) P Q); [done..|]. intros c Hc.
      apply (runs_ok_insert strict (Some a) (P ∖ {[a]}) (without a Q) _ a t); [done|done|done|set_solver|done|done|by split|]. intros c' Hc'.
      apply runs_bind, runs_modify, runs_ret, runs_bind, runs_modify, runs_ret. apply HR.
      * replace (P ∪ {[a]}) with (P ∖ {[a]} ∪ {[a]}) by (apply set_eq; intros b; destruct (decide (b = a)); set_solver).
        by eapply ok_same; [..|exact Hc'].
      * split; [|done..]. cbn. by rewrite insert_id.
    + apply runs_bind, runs_ret, runs_bind, runs_modify, runs_ret, runs_bind, runs_modify, runs_ret. apply HR.
      * replace (P ∪ {[a]}) with P by set_solver. apply (ok_same strict None P Q s); [done..|]. apply (ok_close strict P Q s a t); [done|done|rewrite Eon; exact Hf|exact (Hst eq_refl)].
      * split; [|done..]. cbn. by rewrite insert_id.
  - assert (a ∉ P) as Ha by (intros Ha; by apply Hf in Ha). rewrite bool_decide_eq_false_2 in HR by done. rewrite decide_False in HR by done.
    cbn [andb requeue] in HR. apply runs_bind, (runs_upd_to _ _ t); [done|]. set (t' := set_flags _ t) in *.
    pose proof (ok_well _ _ _ _ _ H a t Et) as Hwt.
    assert (well t') as Hwt' by (apply (well_edit t); [done|done|apply Hwt|]; intros b [-> |[-> | ->]]; cbn [t' to_flags set_flags]; flag).
    pose proof (ok_upd strict (Some a) P Q s a t t' ltac:(auto) H Et Hwt') as H'.
    apply runs_bind, (runs_ok_insert strict (Some a) P Q _ a t');
      [done|done|by rewrite lookup_with_to|done|done|apply onqueue_set|by split|]. intros c Hc.
    apply runs_ret, runs_bind, runs_modify, runs_ret. apply HR; [|done].
    eapply ok_ext; [|eapply ok_same; [..|exact Hc]; done]. intros q.
    rewrite (put_ext _ _ Q) by (apply without_notin; by eapply not_pending).
    by rewrite (without_notin a Q) by (by eapply not_pending).
Qed.

(** ** Adding *)

(** What stays of the flags. *)
Lemma untriggered_init f b : b = TIMEOUT_INITIALIZED ∨ b = TIMEOUT_ONQUEUE ∨ b = TIMEOUT_PROC ∨ b = TIMEOUT_MPSAFE →
  ISSET (CLR f TIMEOUT_TRIGGERED) b = ISSET f b.
Proof. intros [-> |[-> |[-> | ->]]]; flag. Qed.

(** A timeout that is moved to a later time stays where it is. *)
Lemma placed_later t v q now last :
  placed strict now last t q → i32 (to_time t - now) ≤ i32 (v - now) →
  placed strict now last (set_flags (CLR (to_flags t) TIMEOUT_TRIGGERED) (set_time v t)) q.
Proof.
  intros [Hw Hq] Hle. split; [done|]. destruct q; cbn [to_flags set_flags set_time to_time to_kclock to_abstime] in *; try done.
  1,2: rewrite !untriggered_init by auto; done.
  split; [apply Hq|lia].
Qed.
Lemma placed_later_ts t A q now last :
  placed strict now last t q → to_kclock t = KCLOCK_UPTIME → good_ts A → nsecs (to_abstime t) ≤ nsecs A →
  placed strict now last (set_flags (CLR (to_flags t) TIMEOUT_TRIGGERED) (set_abstime A t)) q.
Proof.
  intros [Hw Hq] Hk HA Hle. split; [by intros _|]. destruct q; cbn [to_flags set_flags set_abstime to_time to_kclock to_abstime] in *; try done.
  1,2: rewrite !untriggered_init by auto; done.
  split; [done|]. intros Hs. destruct (proj2 Hq Hs) as (B & HB & HBle). exists B. split; [done|lia].
Qed.

Lemma i32_range x : is_i32 (i32 x).
Proof. unfold i32, is_i32. zmod. Qed.
Lemma i32_sub_add n t : is_i32 n → i32 (i32 (n + t) - t) = n.
Proof. unfold i32, is_i32. intros Hn. zmod. Qed.

Definition added_at (v : Z) (t : timeout) : timeout :=
  set_flags (SET (CLR (to_flags t) TIMEOUT_TRIGGERED) TIMEOUT_ONQUEUE) (set_time v t).
Definition added_ts (A : timespec) (t : timeout) : timeout :=
  set_flags (SET (CLR (to_flags t) TIMEOUT_TRIGGERED) TIMEOUT_ONQUEUE) (set_abstime A t).

Lemma runs_timeout_add P Q s a t n (R : Z → kstate → Prop) :
  ok strict None P Q s → timeouts s !! a = Some t → to_kclock t = KCLOCK_NONE → 0 ≤ n ≤ INT_MAX →
  (∀ s', ok strict None (P ∪ {[a]}) (requeue a (bool_decide (a ∈ P) && (i32 (to_time t - ticks s) <=? n)) Q) s' →
    edited a (added_at (i32 (n + ticks s)) t) s s' → R (if decide (a ∈ P) then 0 else 1) s') →
  runs (timeout_add a n) s R.
Proof.
  intros H Et Hk Hn HR. pose proof (ok_well _ _ _ _ _ H a t Et) as Hwt. pose proof (w_init _ Hwt) as Hi. unfold INT_MAX in Hn.
  apply runs_bind, (runs_get_to _ _ t); [done|]. rewrite Hi, Hk. cbn [kassert].
  do 2 (apply runs_bind; eapply runs_lift; [reflexivity|]). apply runs_bind. eapply runs_lift; [by rewrite (proj2 (Z.leb_le 0 n)) by lia|].
  apply runs_bind, runs_gets. cbn zeta. apply runs_bind, (runs_upd_to _ _ t); [done|].
  apply runs_bind, (runs_upd_to _ _ (set_time (i32 (n + ticks s)) t)); [by rewrite lookup_with_to|]. rewrite with_to_twice.
  set (t' := set_flags _ _). assert (to_flags t' = CLR (to_flags t) TIMEOUT_TRIGGERED) as Ef by done.
  assert (is_i32 n) as Hn32 by (unfold is_i32; lia).
  rewrite i32_sub_add by done. apply (runs_enqueue P Q _ a t').
  - apply (ok_upd strict None P Q s a t t'); [done..|]. apply (well_edit t); [done|done|apply i32_range|]. intros b Hb. rewrite Ef, untriggered_init; tauto.
  - by rewrite lookup_with_to.
  - rewrite Ef, untriggered_init by auto. by apply (ok_flag _ _ _ _ _ H).
  - unfold waiting. cbn. by rewrite Hk.
  - intros Hlater q Hq. destruct (ok_placed _ _ _ _ _ H q a Hq) as (u & Eu & Hu). simplify_eq.
    apply (placed_later t _ q (ticks s) (lastscan s)); [by apply Hu|]. rewrite i32_sub_add by done. lia.
  - intros s' Hok [E1 E2 E3 E4]. rewrite Z.ltb_antisym, negb_involutive in Hok. apply HR; [done|]. split; [|done..].
    rewrite E1. cbn. by rewrite insert_insert_eq.
Qed.

Lemma runs_timeout_abs_ts P Q s a t A (R : Z → kstate → Prop) :
  ok strict None P Q s → timeouts s !! a = Some t → to_kclock t = KCLOCK_UPTIME → good_ts A →
  (∀ s', ok strict None (P ∪ {[a]}) (requeue a (bool_decide (a ∈ P) && negb (timespec_lt A (to_abstime t))) Q) s' →
    edited a (added_ts A t) s s' → R (if decide (a ∈ P) then 0 else 1) s') →
  runs (timeout_abs_ts a A) s R.
Proof.
  intros H Et Hk HA HR. pose proof (ok_well _ _ _ _ _ H a t Et) as Hwt. pose proof (w_init _ Hwt) as Hi.
  apply runs_bind, (runs_get_to _ _ t); [done|]. rewrite Hi, Hk. cbn [kassert].
  do 2 (apply runs_bind; eapply runs_lift; [reflexivity|]). cbn zeta. apply runs_bind, (runs_upd_to _ _ t); [done|].
  apply runs_bind, (runs_upd_to _ _ (set_abstime A t)); [by rewrite lookup_with_to|]. rewrite with_to_twice.
  set (t' := set_flags _ _). assert (to_flags t' = CLR (to_flags t) TIMEOUT_TRIGGERED) as Ef by done.
  apply (runs_enqueue P Q _ a t').
  - apply (ok_upd strict None P Q s a t t'); [done..|]. apply (well_edit t); [done|done|apply Hwt|]. intros b Hb. rewrite Ef, untriggered_init; tauto.
  - by rewrite lookup_with_to.
  - rewrite Ef, untriggered_init by auto. by apply (ok_flag _ _ _ _ _ H).
  - by intros _.
  - intros Hlater q Hq. destruct (ok_placed _ _ _ _ _ H q a Hq) as (u & Eu & Hu). simplify_eq. specialize (Hu ltac:(done)).
    apply (placed_later_ts t A q (ticks s) (lastscan s)); [done|done|done|]. pose proof (proj1 Hu Hk) as Hold.
    pose proof (timespec_lt_nsecs A (to_abstime t) HA Hold) as Hlt. destruct (timespec_lt A (to_abstime t)); [done|].
    destruct (Z.le_gt_cases (nsecs (to_abstime t)) (nsecs A)); [done|]. by assert (false = true) by (by apply Hlt).
  - intros s' Hok [E1 E2 E3 E4]. apply HR; [done|]. split; [|done..]. rewrite E1. cbn. by rewrite insert_insert_eq.
Qed.

(** ** Deleting *)

Definition deleted_to (t : timeout) : timeout :=
  set_flags (CLR (CLR (to_flags t) TIMEOUT_ONQUEUE) TIMEOUT_TRIGGERED) t.

Lemma clr_onqueue f : ISSET f TIMEOUT_ONQUEUE = false → CLR f TIMEOUT_ONQUEUE = f.
Proof.
  rewrite onqueue_bit. intros E. apply Z.bits_inj'. intros i Hi. unfold CLR. change TIMEOUT_ONQUEUE with (2 ^ 1).
  rewrite Z.land_spec, Z.lnot_spec, Z.pow2_bits_eqb by lia. destruct (Z.eqb_spec 1 i) as [<-|]; [by rewrite E|apply andb_true_r].
Qed.

Lemma runs_timeout_del P Q s a t (R : Z → kstate → Prop) :
  ok strict None P Q s → timeouts s !! a = Some t →
  (∀ s', ok strict None (P ∖ {[a]}) (without a Q) s' → edited a (deleted_to t) s s' → R (if decide (a ∈ P) then 1 else 0) s') →
  runs (timeout_del a) s R.
Proof.
  intros H Et HR. pose proof (ok_well _ _ _ _ _ H a t Et) as Hwt. pose proof (w_init _ Hwt) as Hi. pose proof (ok_flag _ _ _ _ _ H a t Et ltac:(done)) as Hf.
  assert (well (deleted_to t)) as Hw.
  { apply (well_edit t); [done|done|apply Hwt|]. intros b Hb. unfold deleted_to. cbn [to_flags set_flags].
    rewrite untriggered_init by tauto. destruct Hb as [-> |[-> | ->]]; flag. }
  assert (ISSET (to_flags (deleted_to t)) TIMEOUT_ONQUEUE = false) as Hoff.
  { unfold deleted_to. cbn [to_flags set_flags]. rewrite untriggered_init by auto. apply onqueue_cleared. }
  apply runs_bind, (runs_get_to _ _ t); [done|]. apply runs_bind. destruct (ISSET (to_flags t) TIMEOUT_ONQUEUE) eqn:Eon.
  - assert (a ∈ P) as Ha by (by apply Hf). rewrite decide_True in HR by done.
    apply runs_bind, (runs_ok_remove strict None P Q); [done..|]. intros c Hc'.
    apply runs_bind, (runs_upd_to _ _ t); [done|]. apply runs_bind, runs_modify, runs_ret.
    apply runs_bind. eapply (runs_upd_to _ _ _); [apply lookup_with_to|]. apply runs_bind, runs_modify, runs_ret. apply HR.
    + apply (ok_same strict None _ _ (with_to a (deleted_to t) (with_circ c s))); [done|cbn; by rewrite insert_insert_eq|done|done|].
      apply (ok_close strict _ _ _ a (deleted_to t)); [|apply lookup_with_to| |].
      * by apply (ok_upd strict (Some a) _ _ _ a t).
      * rewrite Hoff. set_solver.
      * intros q [_ ?]%in_without. done.
    + split; [|done..]. cbn. by rewrite insert_insert_eq.
  - assert (a ∉ P) as Ha by (intros Ha; by apply Hf in Ha). rewrite decide_False in HR by done.
    apply runs_ret, runs_bind, (runs_upd_to _ _ t); [done|]. apply runs_bind, runs_modify, runs_ret.
    assert (set_flags (CLR (to_flags t) TIMEOUT_TRIGGERED) t = deleted_to t) as E by (unfold deleted_to; by rewrite clr_onqueue). apply HR.
    + apply (ok_ext strict None _ Q); [apply without_notin; by eapply not_pending|].
      replace (P ∖ {[a]}) with P by set_solver. rewrite E.
      apply (ok_same strict None _ _ (with_to a (deleted_to t) s)); [done..|].
      apply (ok_close strict _ _ _ a (deleted_to t)); [|apply lookup_with_to| |].
      * by apply (ok_upd strict None _ _ _ a t).
      * rewrite Hoff. done.
      * intros q Hq. exfalso. eapply not_pending; done.
    + rewrite E. split; done.
Qed.

(** ** Setting *)

(** The memory of a timeout: a static variable or a piece of the heap or the stack, with
    what was there before. *)
Definition with_new (a : Z) (c : circq) (t : timeout) (s : kstate) : kstate :=
  Kstate (Circqs (<[Elem a := c]> (c_mem (circ s))) (tos_pending (circ s))) (<[a := t]> (timeouts s)) (ticks s)
    (timeout_kclock s) (tctx_running s) (tostat s).
Definition alloc (a : Z) (c : circq) (g : timeout) : KM () := modify (with_new a c g).

Lemma queues_new Q m a c : queues Q m → (∀ q, a ∉ Q q) → queues Q (<[Elem a := c]> m).
Proof.
  intros H Ha. apply (queues_change Q Q m); [done| |apply H..]. intros q Hq. left. split; [done|]. intros y Hy.
  rewrite lookup_insert_ne; [done|]. intros <-. by apply (Ha q), (elem_nodes a q).
Qed.

Lemma ok_new P Q s a c t : ok strict None P Q s → a ∉ P → well t → ISSET (to_flags t) TIMEOUT_ONQUEUE = false →
  ok strict None P Q (with_new a c t s).
Proof.
  intros H Ha Hw Hf. split; try apply H; cbn.
  - apply queues_new; [apply H|by eapply not_pending].
  - intros b Hb. destruct (decide (b = a)) as [->|Hne]; [rewrite lookup_insert_eq; done|].
    rewrite lookup_insert_ne in Hb by congruence. rewrite lookup_insert_ne by congruence. by apply (ok_cells _ _ _ _ _ H).
  - intros b u. destruct (decide (b = a)) as [->|Hne]; [rewrite lookup_insert_eq; by intros [= <-]|].
    rewrite lookup_insert_ne by done. apply (ok_well _ _ _ _ _ H).
  - intros b u. destruct (decide (b = a)) as [->|Hne]; [rewrite lookup_insert_eq; intros [= <-] _; by rewrite Hf|].
    rewrite lookup_insert_ne by done. apply (ok_flag _ _ _ _ _ H).
  - intros q b Hb. assert (b ≠ a) by (intros ->; eapply not_pending; done). rewrite lookup_insert_ne by done. by apply (ok_placed _ _ _ _ _ H).
Qed.

Definition set_as (fn arg kclock flags : Z) (g : timeout) : timeout :=
  Timeout (to_abstime g) fn arg (to_time g) (Z.lor flags TIMEOUT_INITIALIZED) kclock.
Definition valid_flags (flags : Z) : Prop :=
  flags = 0 ∨ flags = TIMEOUT_PROC ∨ flags = Z.lor TIMEOUT_PROC TIMEOUT_MPSAFE.
Definition valid_kclock (kclock : Z) : Prop := kclock = KCLOCK_NONE ∨ kclock = KCLOCK_UPTIME.

Lemma set_as_well fn arg kclock flags g : valid_flags flags → valid_kclock kclock → is_i32 (to_time g) →
  well (set_as fn arg kclock flags g) ∧ ISSET (to_flags (set_as fn arg kclock flags g)) TIMEOUT_ONQUEUE = false.
Proof. intros [-> |[-> | ->]] Hk Ht; (split; [by split|done]). Qed.

Lemma runs_set_flags P Q s a c g fn arg kclock flags (R : () → kstate → Prop) :
  ok strict None P Q s → a ∉ P → valid_flags flags → valid_kclock kclock → is_i32 (to_time g) →
  (ok strict None P Q (with_new a c (set_as fn arg kclock flags g) s) → R tt (with_new a c (set_as fn arg kclock flags g) s)) →
  runs (timeout_set_flags a fn arg kclock flags) (with_new a c g s) R.
Proof.
  intros H Ha Hf Hk Hg HR.
  apply runs_bind. eapply runs_lift; [by destruct Hf as [-> |[-> | ->]]|].
  apply runs_bind. eapply runs_lift; [by destruct Hk as [-> | ->]|].
  apply runs_bind, (runs_upd_to _ _ g); [apply lookup_insert_eq|].
  apply runs_bind, (runs_get_to _ _ (set_as fn arg kclock flags g)); [apply lookup_with_to|].
  replace (with_to a (Timeout (to_abstime g) fn arg (to_time g) (Z.lor flags TIMEOUT_INITIALIZED) kclock) (with_new a c g s))
    with (with_new a c (set_as fn arg kclock flags g) s)
    by (unfold with_to, with_new; cbn; by rewrite insert_insert_eq).
  destruct (set_as_well fn arg kclock flags g Hf Hk Hg) as [Hw Hoff]. pose proof (HR (ok_new P Q s a c _ H Ha Hw Hoff)) as HR'.
  destruct Hf as [-> |[-> | ->]]; cbn; [by apply runs_ret..|]. eapply runs_lift; [reflexivity|done].
Qed.

(** ** The barrier *)

Lemma barrier_flags t : well t → valid_flags (Z.land (to_flags t) (Z.lor TIMEOUT_PROC TIMEOUT_MPSAFE)).
Proof.
  intros Hw. pose proof (w_mpsafe _ Hw) as Hm. unfold valid_flags, ISSET, has in *. rewrite Z.land_lor_distr_r.
  assert (∀ f k, 0 ≤ k → Z.land f (2 ^ k) = if Z.testbit f k then 2 ^ k else 0) as Hbit.
  { intros f k Hk. apply Z.bits_inj'. intros i Hi. rewrite Z.land_spec, Z.pow2_bits_eqb by done.
    destruct (Z.eqb_spec k i) as [<-|].
    - destruct (Z.testbit f k); [by rewrite Z.pow2_bits_true|by rewrite Z.bits_0].
    - rewrite andb_false_r. destruct (Z.testbit f k); [by rewrite Z.pow2_bits_false by lia|by rewrite Z.bits_0]. }
  change TIMEOUT_PROC with (2 ^ 0) in *. change TIMEOUT_MPSAFE with (2 ^ 4) in *. rewrite !Hbit in Hm |- * by done.
  destruct (Z.testbit (to_flags t) 0), (Z.testbit (to_flags t) 4); cbn in *; auto. by discriminate Hm.
Qed.

Definition barrier_ctx (t : timeout) : timeout_ctx :=
  if ISSET (to_flags t) TIMEOUT_PROC then
    if ISSET (to_flags t) TIMEOUT_MPSAFE then timeout_ctx_proc_mp else timeout_ctx_proc
  else timeout_ctx_si.

Lemma barrier_isset t b : b = TIMEOUT_PROC ∨ b = TIMEOUT_MPSAFE →
  ISSET (Z.land (to_flags t) (Z.lor TIMEOUT_PROC TIMEOUT_MPSAFE)) b = ISSET (to_flags t) b.
Proof. intros Hb. unfold ISSET, has. rewrite <-Z.land_assoc. by destruct Hb as [-> | ->]. Qed.

Definition barrier_to (handler arg now : Z) (t g : timeout) : timeout :=
  set_flags (SET (Z.lor (Z.land (to_flags t) (Z.lor TIMEOUT_PROC TIMEOUT_MPSAFE)) TIMEOUT_INITIALIZED) TIMEOUT_ONQUEUE)
    (set_time now (set_as handler arg KCLOCK_NONE 0 g)).

Lemma valid_ctx ctx : valid_queue (tctx_todo ctx).
Proof. by destruct ctx. Qed.

(** The barrier goes to the front of the queue whose context runs the timeout now. *)
Lemma runs_timeout_barrier P Q s a t b c g handler arg (R : bool → kstate → Prop) :
  ok strict None P Q s → timeouts s !! a = Some t → b ∉ P → b ≠ a → is_i32 (to_time g) →
  let ctx := barrier_ctx t in
  (tctx_running s ctx ≠ a → ∀ s', ok strict None P Q s' → R false s') →
  (tctx_running s ctx = a → ∀ s', ok strict None (P ∪ {[b]}) (put (tctx_todo ctx) (b :: Q (tctx_todo ctx)) Q) s' →
    timeouts s' !! b = Some (barrier_to handler arg (ticks s) t g) → R true s') →
  runs (alloc b c g;; timeout_barrier handler a b arg) s R.
Proof.
  intros H Et Hb Hne Hg ctx HR0 HR1. pose proof (ok_well _ _ _ _ _ H a t Et) as Hwt. apply runs_bind, runs_modify.
  apply runs_bind, (runs_get_to _ _ t); [cbn; by rewrite lookup_insert_ne|]. cbn zeta.
  apply runs_bind, (runs_set_flags P Q); [done|done|by apply barrier_flags|by left|done|]. intros Hok.
  rewrite !barrier_isset by auto. change (if ISSET (to_flags t) TIMEOUT_PROC then _ else timeout_ctx_si) with (barrier_ctx t). fold ctx.
  apply runs_bind, runs_gets. change (tctx_running (with_new _ _ _ s) ctx) with (tctx_running s ctx).
  destruct (Z.eqb_spec (tctx_running s ctx) a) as [Er|Er]; cbn [negb]; [|apply runs_ret; by apply HR0].
  apply runs_bind, runs_gets. set (g' := set_as _ _ _ _ g) in *. change (ticks (with_new b c g' s)) with (ticks s).
  apply runs_bind, (runs_upd_to _ _ g'); [apply lookup_insert_eq|].
  apply runs_bind, (runs_upd_to _ _ (set_time (ticks s) g')); [apply lookup_with_to|]. rewrite with_to_twice.
  set (t' := set_flags _ _). assert (t' = barrier_to handler arg (ticks s) t g) as Et' by done.
  assert (well t') as Hw'.
  { apply (well_edit g'); [apply (ok_well _ _ _ _ _ Hok b); apply lookup_insert_eq|done|apply (ok_ticks _ _ _ _ _ H)|].
    intros f [-> |[-> | ->]]; cbn [t' to_flags set_flags]; flag. }
  apply runs_bind, (runs_ok_insert_head strict (Some b) P Q _ b t').
  - auto.
  - apply (ok_upd strict None P Q _ b g'); [done|done|apply lookup_insert_eq|done].
  - apply lookup_with_to.
  - done.
  - apply valid_ctx.
  - apply onqueue_set.
  - split; [by intros E; rewrite Et' in E|].
    assert (∀ f, f = TIMEOUT_PROC ∨ f = TIMEOUT_MPSAFE → ISSET (to_flags t') f = ISSET (to_flags t) f) as Hf.
    { intros f Hf. rewrite <-(barrier_isset t f Hf). destruct Hf as [-> | ->]; cbn [t' to_flags set_flags set_time g' set_as];
        unfold ISSET, SET; by rewrite !has_set. }
    unfold ctx, barrier_ctx. destruct (ISSET (to_flags t) TIMEOUT_PROC) eqn:E1; [|done].
    destruct (ISSET (to_flags t) TIMEOUT_MPSAFE) eqn:E2; cbn [tctx_todo]; rewrite !Hf by auto; done.
  - intros c' Hc'. apply runs_ret, HR1; [done|done|]. rewrite <-Et'. apply lookup_insert_eq.
Qed.
End calls.
