(* ===== verification/TimeoutScan.v ===== *)
(** The clock interrupt: buckets of the wheels go to timeout_todo, and no timeout stays in a
    wheel that is due. *)

From S2P Require Import Prelude StateMonad Circq Timeout TimeoutWheel TimeoutInv TimeoutOps.

(** ** Queues that move to timeout_todo *)

(** What matters of the lists after the queues [D] went to timeout_todo. *)
Record moved (D : queue → Prop) (Q Q' : lists) : Prop := {
  mv_from q a : a ∈ Q' q → (q = timeout_todo ∧ ∃ q', a ∈ Q q') ∨ (¬ D q ∧ a ∈ Q q);
  mv_kept q a : a ∈ Q q → ∃ q', a ∈ Q' q';
  mv_stays q : ¬ D q → q ≠ timeout_todo → Q' q = Q q;
}.

(** Nothing else of the memory changes but the links. *)
Record dumps (D : queue → Prop) (Q : lists) (c : circqs) (Q' : lists) (c' : circqs) : Prop := {
  du_queues : queues Q' (c_mem c');
  du_dom : dom (c_mem c') = dom (c_mem c);
  du_pending : tos_pending c' = tos_pending c;
  du_moved : moved D Q Q';
}.

Lemma dumps_none Q c : queues Q (c_mem c) → dumps (λ _, False) Q c Q c.
Proof. intros H. split; [done..|]. split; [tauto|intros q a Ha; by exists q|done]. Qed.

Lemma dumps_trans D1 D2 Q1 c1 Q2 c2 Q3 c3 :
  dumps D1 Q1 c1 Q2 c2 → dumps D2 Q2 c2 Q3 c3 → dumps (λ q, D1 q ∨ D2 q) Q1 c1 Q3 c3.
Proof.
  intros [H1 Hd1 Hp1 [Hf1 Hk1 Hs1]] [H2 Hd2 Hp2 [Hf2 Hk2 Hs2]]. split; [done|congruence|congruence|]. split.
  - intros q a [[-> [q' Hq']]|[Hn Hq]]%Hf2.
    + left. split; [done|]. apply Hf1 in Hq' as [[_ ?]|[_ ?]]; [done|by exists q'].
    + apply Hf1 in Hq as [[-> ?]|[Hn1 Hq]]; [by left|right]. tauto.
  - intros q a [q' Hq']%Hk1. by apply Hk2 in Hq'.
  - intros q Hn Ht. rewrite Hs2, Hs1 by tauto. done.
Qed.

Lemma dumps_iff D D' Q c Q' c' : (∀ q, D q ↔ D' q) → dumps D Q c Q' c' → dumps D' Q c Q' c'.
Proof.
  intros HD [H Hd Hp [Hf Hk Hs]]. split; [done..|]. split; [|done|].
  - intros q a [?|[Hn ?]]%Hf; [by left|right]. by rewrite <-HD.
  - intros q Hn. apply Hs. by rewrite HD.
Qed.

Lemma runs_dump Q c q (R : () → circqs → Prop) : queues Q (c_mem c) → valid_queue q → q ≠ timeout_todo →
  (∀ Q' c', dumps (λ q', q' = q) Q c Q' c' → R tt c') →
  runs (CIRCQ_CONCAT (Head timeout_todo) (Head q)) c R.
Proof.
  intros H Hv Hne HR. apply (runs_concat Q); [done..|]. intros c' Hc' Hd Hp. apply (HR (concat timeout_todo q Q)).
  split; [done..|]. unfold concat. split.
  - intros q' a. destruct (decide (q' = timeout_todo)) as [->|Ht].
    + rewrite put_eq, elem_of_app. intros [Ha|Ha]; left; (split; [done|]); eauto.
    + rewrite put_ne by done. destruct (decide (q' = q)) as [->|Hq]; [rewrite put_eq; by intros ?%elem_of_nil|].
      rewrite put_ne by done. by right.
  - intros q' a Ha. destruct (decide (q' = timeout_todo)) as [->|Ht]; [exists timeout_todo; rewrite put_eq; set_solver|].
    destruct (decide (q' = q)) as [->|Hq]; [exists timeout_todo; rewrite put_eq; set_solver|].
    exists q'. by rewrite !put_ne.
  - intros q' Hn Ht. by rewrite !put_ne.
Qed.

Lemma with_circ_same s : with_circ (circ s) s = s.
Proof. by destruct s. Qed.

(** The same in the state of the timeouts. *)
Lemma runs_dump_k Q s q (R : () → kstate → Prop) : queues Q (c_mem (circ s)) → valid_queue q → q ≠ timeout_todo →
  (∀ Q' c', dumps (λ q', q' = q) Q (circ s) Q' c' → R tt (with_circ c' s)) →
  runs (on_queues (CIRCQ_CONCAT (Head timeout_todo) (Head q))) s R.
Proof. intros H Hv Hne HR. apply runs_on_queues, (runs_dump Q); [done..|]. intros Q' c' Hd. by apply (HR Q'). Qed.

(** ** Ticks *)

Lemma MASKWHEEL_range w t : 0 ≤ w < 4 → 0 ≤ MASKWHEEL w t < 256.
Proof. intros Hw. unfold MASKWHEEL, WHEELMASK. change 255 with (Z.ones 8). rewrite Z.land_ones by lia. apply Z.mod_pos_bound. lia. Qed.

Definition dump_ticks (now : Z) : KM () :=
  MOVEBUCKET 0 now;;
  (if MASKWHEEL 0 now =? 0 then
     MOVEBUCKET 1 now;;
     if MASKWHEEL 1 now =? 0 then
       MOVEBUCKET 2 now;;
       if MASKWHEEL 2 now =? 0 then MOVEBUCKET 3 now else mret tt
     else mret tt
   else mret tt).

(** The buckets it empties, in the order of the code. *)
Definition level_of (w now : Z) : queue := timeout_wheel (MASKWHEEL w now + w * WHEELSIZE).
Definition tick_dumped (now : Z) (q : queue) : Prop :=
  q = level_of 0 now ∨
  (MASKWHEEL 0 now = 0 ∧
     (q = level_of 1 now ∨
      (MASKWHEEL 1 now = 0 ∧ (q = level_of 2 now ∨ (MASKWHEEL 2 now = 0 ∧ q = level_of 3 now))))).

Lemma tick_dumped_dumped now b : dumped b now → tick_dumped now (timeout_wheel b).
Proof.
  unfold dumped, tick_dumped, level_of, WHEELSIZE.
  intros [E|[[E0 E]|[(E0 & E1 & E)|(E0 & E1 & E2 & E)]]]; subst b.
  - left. f_equal. lia.
  - right; split; [done|]. left. done.
  - right; split; [done|]. right; split; [done|]. left. done.
  - right; split; [done|]. right; split; [done|]. right; split; [done|]. done.
Qed.

Lemma runs_movebucket Q s w t (R : () → kstate → Prop) : queues Q (c_mem (circ s)) → 0 ≤ w < 4 →
  (∀ Q' c', dumps (λ q, q = level_of w t) Q (circ s) Q' c' → R tt (with_circ c' s)) →
  runs (MOVEBUCKET w t) s R.
Proof.
  intros H Hw HR. pose proof (MASKWHEEL_range w t Hw). apply (runs_dump_k Q); [done|cbn; unfold WHEELSIZE; lia|done|done].
Qed.

Lemma runs_dump_ticks Q s now (R : () → kstate → Prop) : queues Q (c_mem (circ s)) →
  (∀ Q' c', dumps (tick_dumped now) Q (circ s) Q' c' → R tt (with_circ c' s)) →
  runs (dump_ticks now) s R.
Proof.
  intros H HR. apply runs_bind, (runs_movebucket Q); [done|lia|]. intros Q0 c0 H0.
  destruct (Z.eqb_spec (MASKWHEEL 0 now) 0) as [E0|E0].
  - apply runs_bind, (runs_movebucket Q0); [apply H0|lia|]. intros Q1 c1 H1. pose proof (dumps_trans _ _ _ _ _ _ _ _ H0 H1) as H01.
    destruct (Z.eqb_spec (MASKWHEEL 1 now) 0) as [E1|E1].
    + apply runs_bind, (runs_movebucket Q1); [apply H1|lia|]. intros Q2 c2 H2. pose proof (dumps_trans _ _ _ _ _ _ _ _ H01 H2) as H02.
      destruct (Z.eqb_spec (MASKWHEEL 2 now) 0) as [E2|E2].
      * apply (runs_movebucket Q2); [apply H2|lia|]. intros Q3 c3 H3. pose proof (dumps_trans _ _ _ _ _ _ _ _ H02 H3) as H03.
        apply (HR Q3). eapply dumps_iff; [|exact H03]. intros q. unfold tick_dumped. tauto.
      * apply runs_ret, (HR Q2). eapply dumps_iff; [|exact H02]. intros q. unfold tick_dumped. tauto.
    + apply runs_ret, (HR Q1). eapply dumps_iff; [|exact H01]. intros q. unfold tick_dumped. tauto.
  - apply runs_ret, (HR Q0). eapply dumps_iff; [|exact H0]. intros q. unfold tick_dumped. tauto.
Qed.

(** ** The clock's wheel *)

Definition kc_swept (off first last : Z) (q : queue) : Prop :=
  ∃ j, 0 ≤ j ≤ (last - first) mod 256 ∧ q = timeout_wheel_kc (off + (first + j) mod 256).

(** One turn more of the sweep. *)
Lemma kc_swept_last off b q : 0 ≤ b < 256 → kc_swept off b b q ↔ q = timeout_wheel_kc (off + b).
Proof.
  intros Hb. unfold kc_swept. rewrite Z.sub_diag. split.
  - intros (j & Hj & ->). do 2 f_equal. change (0 mod 256) with 0 in Hj. zmod.
  - intros ->. exists 0. split; [done|]. do 2 f_equal. zmod.
Qed.
Lemma mod_succ_sub b last : 0 ≤ b < 256 → 0 ≤ last < 256 → b ≠ last → (last - (b + 1) mod 256) mod 256 = (last - b) mod 256 - 1.
Proof. intros. zmod. Qed.
Lemma kc_swept_step off b last q : 0 ≤ b < 256 → 0 ≤ last < 256 → b ≠ last →
  q = timeout_wheel_kc (off + b) ∨ kc_swept off ((b + 1) mod 256) last q ↔ kc_swept off b last q.
Proof.
  intros Hb Hl Hne. unfold kc_swept. rewrite mod_succ_sub by done.
  assert (0 < (last - b) mod 256) as Hpos by zmod. split.
  - intros [-> |(j & Hj & ->)].
    + exists 0. split; [lia|]. do 2 f_equal. zmod.
    + exists (j + 1). split; [lia|]. do 2 f_equal. rewrite Zplus_mod_idemp_l. f_equal. lia.
  - intros (j & Hj & ->). destruct (decide (j = 0)) as [->|Hj0].
    + left. do 2 f_equal. zmod.
    + right. exists (j - 1). split; [lia|]. do 2 f_equal. rewrite Zplus_mod_idemp_l. f_equal. lia.
Qed.

Lemma runs_dump_buckets fuel off b last Q s (R : () → kstate → Prop) :
  queues Q (c_mem (circ s)) → 0 ≤ off ≤ 768 → 0 ≤ b < 256 → 0 ≤ last < 256 → (last - b) mod 256 < Z.of_nat fuel →
  (∀ Q' c', dumps (kc_swept off b last) Q (circ s) Q' c' → R tt (with_circ c' s)) →
  runs (dump_buckets fuel off b last) s R.
Proof.
  revert b Q s R. induction fuel as [|fuel IH]; intros b Q s R H Hoff Hb Hl Hf HR.
  { pose proof (Z.mod_pos_bound (last - b) 256). lia. }
  apply runs_bind, (runs_dump_k Q); [done|cbn; lia|done|]. intros Q1 c1 H1. destruct (Z.eqb_spec b last) as [->|Hne].
  - apply runs_ret, (HR Q1). eapply dumps_iff; [|exact H1]. intros q. symmetry. by apply kc_swept_last.
  - change WHEELSIZE with 256. apply (IH _ Q1); [apply H1|done|apply Z.mod_pos_bound; lia|done|rewrite (mod_succ_sub b last) by done; lia|].
    intros Q2 c2 H2. apply (HR Q2). eapply dumps_iff; [|exact (dumps_trans _ _ _ _ _ _ _ _ H1 H2)].
    intros q. by apply kc_swept_step.
Qed.

Lemma maskwheel_range l t : 0 ≤ timeout_maskwheel l t < 256.
Proof.
  unfold timeout_maskwheel, WHEELMASK. change 255 with (Z.ones 8). rewrite Z.land_ones by lia. apply Z.mod_pos_bound. lia.
Qed.

(** Every bucket of the clock's wheel from level [l] on was emptied, or waits rightly. *)
Definition kc_scanned (D : queue → Prop) (l : Z) (last now : timespec) : Prop :=
  ∀ b A, l * 256 ≤ b < 1024 → kc_waits last b A → ¬ D (timeout_wheel_kc b) → kc_waits now b A.

Lemma runs_dump_levels n l last now Q s (R : () → kstate → Prop) :
  queues Q (c_mem (circ s)) → 0 ≤ l → l + Z.of_nat n = 4 →
  (∀ D Q' c', dumps D Q (circ s) Q' c' → (∀ q, D q → ∃ b, q = timeout_wheel_kc b) →
    (good_ts last → good_ts now → nsecs last ≤ nsecs now → hash now - hash last < 256 → kc_scanned D l last now) →
    (tv_sec (timespecsub now last) < timeout_level_width l → timeout_maskwheel l last = timeout_maskwheel l now →
     (0 < n)%nat → ∀ q, D q → q = timeout_wheel_kc (l * 256 + timeout_maskwheel l last)) →
    R tt (with_circ c' s)) →
  runs (dump_levels n l last now (timespecsub now last)) s R.
Proof.
  revert l Q s R. induction n as [|n IH]; intros l Q s R H Hl Hn HR.
  { apply runs_ret. rewrite <-(with_circ_same s). apply (HR (λ _, False) Q (circ s)); [by apply dumps_none|done| |lia]. intros _ _ _ _ b A Hb. lia. }
  cbn [dump_levels]. pose proof (maskwheel_range l last) as Hfirst. pose proof (maskwheel_range l now) as Hnow.
  destruct (Z.leb_spec (timeout_level_width l) (tv_sec (timespecsub now last))) as [Hwide|Hnarrow].
  - (* the whole level, and the next *)
    apply runs_bind, (runs_dump_buckets _ _ _ _ Q); [done|unfold WHEELSIZE; lia|done|unfold WHEELSIZE; case_match; lia| |].
    { change (Z.of_nat (Z.to_nat WHEELSIZE)) with 256. apply Z.mod_pos_bound. lia. }
    intros Q1 c1 H1. apply (IH (l + 1) Q1); [apply H1|lia|lia|]. intros D Q2 c2 H2 HD Hs _.
    apply (HR _ Q2 c2 (dumps_trans _ _ _ _ _ _ _ _ H1 H2)).
    + intros q [(j & _ & ->)|Hq]; [eauto|by apply HD].
    + intros Hg1 Hg2 Hle Hgap. pose proof (gap_narrow last now Hg1 Hg2 Hle Hgap l ltac:(lia)). lia.
    + lia.
  - (* from slot to slot, and the next level when that goes around the end *)
    apply runs_bind, (runs_dump_buckets _ _ _ _ Q); [done|unfold WHEELSIZE; lia|done|done| |].
    { change (Z.of_nat (Z.to_nat WHEELSIZE)) with 256. apply Z.mod_pos_bound. lia. }
    intros Q1 c1 H1. change (l * WHEELSIZE) with (l * 256) in H1.
    assert (∀ b A, good_ts last → good_ts now → nsecs last ≤ nsecs now → hash now - hash last < 256 → b / 256 = l → 0 ≤ b < 1024 →
      kc_waits last b A → ¬ kc_swept (l * 256) (timeout_maskwheel l last) (timeout_maskwheel l now) (timeout_wheel_kc b) →
      kc_waits now b A) as Hlevel.
    { intros b A Hg1 Hg2 Hle Hgap Eb Hb Hw Hns. apply (not_swept last now Hg1 Hg2 Hle Hgap b A); [lia|done| |lia].
      rewrite Eb. intros (j & Hj & E). apply Hns. exists j. split; [done|]. f_equal. rewrite <-E. pose proof (Z.div_mod b 256). lia. }
    destruct (Z.leb_spec (timeout_maskwheel l last) (timeout_maskwheel l now)) as [Hin|Hround].
    + apply runs_ret, (HR _ Q1 c1 H1); [intros q (j & _ & ->); eauto| |].
      2: { intros _ E _ q. rewrite <-E, kc_swept_last by done. done. }
      intros Hg1 Hg2 Hle Hgap b A Hb Hw Hns.
      destruct (decide (b / 256 = l)) as [Eb|Hbl]; [by apply Hlevel; try done; lia|].
      apply (not_around last now Hg1 Hg2 Hle Hgap l b A); [lia|done| |lia|done].
      assert (l ≤ b / 256) by (apply Z.div_le_lower_bound; lia). lia.
    + apply (IH (l + 1) Q1); [apply H1|lia|lia|]. intros D Q2 c2 H2 HD Hs _.
      apply (HR _ Q2 c2 (dumps_trans _ _ _ _ _ _ _ _ H1 H2)); [intros q [(j & _ & ->)|Hq]; [eauto|by apply HD]| |lia].
      intros Hg1 Hg2 Hle Hgap b A Hb Hw Hns. destruct (decide (b / 256 = l)) as [Eb|Hbl]; [apply Hlevel; try done; [lia|tauto]|].
      apply Hs; try done; [|tauto]. assert (l ≤ b / 256) by (apply Z.div_le_lower_bound; lia).
      pose proof (Z.mul_div_le b 256). lia.
Qed.

(** ** The interrupt *)

Lemma in_valid Q m q a : queues Q m → a ∈ Q q → valid_queue q.
Proof.
  intros H Ha. destruct (decide (valid_queue q)) as [|Hb]; [done|]. rewrite (qs_valid _ _ H q Hb) in Ha. by apply elem_of_nil in Ha.
Qed.

(** Queues went to timeout_todo and the clock moved. *)
Lemma ok_moved strict P Q Q' s s' D :
  ok strict None P Q s → dumps D Q (circ s) Q' (circ s') → timeouts s' = timeouts s →
  is_i32 (ticks s') → good_ts (lastscan s') → kc_offset (timeout_kclock s') = Timespec 0 0 →
  (∀ q t, ¬ D q → valid_queue q → well t → placed strict (ticks s) (lastscan s) t q → placed strict (ticks s') (lastscan s') t q) →
  ok strict None P Q' s'.
Proof.
  intros H [Hq Hd Hp [Hf Hk _]] Et Hti Hsc Hof Hpl. split; try done.
  - intros a Ha. rewrite Et in Ha. apply elem_of_dom. rewrite Hd. apply elem_of_dom. by apply (ok_cells _ _ _ _ _ H).
  - rewrite Hp. apply H.
  - intros a. rewrite (ok_on _ _ _ _ _ H). split; [intros [q Ha]; by eapply Hk|].
    intros [q [[_ ?]|[_ ?]]%Hf]; [done|by exists q].
  - intros a t. rewrite Et. apply (ok_well _ _ _ _ _ H).
  - intros a t. rewrite Et. apply (ok_flag _ _ _ _ _ H).
  - intros q a [[-> [q' Ha]]|[Hn Ha]]%Hf; destruct (ok_placed _ _ _ _ _ H _ a Ha) as (t & E & Ht); exists t; rewrite Et.
    + split; [done|]. intros _. split; [apply (Ht ltac:(done))|done].
    + split; [done|]. intros _. apply Hpl; [done|eapply in_valid; [apply H|done]|by eapply ok_well|by apply Ht].
Qed.

(** A tick later, and with the clock read again, what was not dumped is in its place. *)
Lemma placed_hardclock strict t q now last D1 D2 last' :
  is_i32 now → valid_queue q → well t → placed strict now last t q →
  ¬ (tick_dumped (i32 (now + 1)) q ∨ D2 q) → D1 = tick_dumped (i32 (now + 1)) → (strict = true → kc_scanned D2 0 last last') →
  placed strict (i32 (now + 1)) last' t q.
Proof.
  intros Hnow Hv Hw [Hwait Hq] Hnot _ Hsc. split; [done|]. destruct q as [| | | |b|b]; try done.
  - destruct Hq as [Hk Hle]. split; [done|]. cbn in Hv.
    assert (next_dump b now ≠ 1) as Hn1.
    { intros E. apply Hnot. left. by apply tick_dumped_dumped, next_dump_now. }
    pose proof (next_dump_pos b now ltac:(lia)). rewrite next_dump_tick by done. rewrite delta_tick; [lia|apply Hw|done|lia].
  - destruct Hq as [Hk Hs]. split; [done|]. intros E. destruct (Hs E) as (A & HA & Hle). exists A. split; [|done].
    apply (Hsc E b A); [exact Hv|done|tauto].
Qed.

Lemma runs_hardclock strict P Q s tick_ts now (R : bool → kstate → Prop) :
  ok strict None P Q s → good_ts now → nsecs (lastscan s) ≤ nsecs now →
  (strict = true → hash now - hash (lastscan s) < 256) →
  (∀ Q' s', ok strict None P Q' s' → timeouts s' = timeouts s → ticks s' = i32 (ticks s + 1) → lastscan s' = now →
    (tv_sec (timespecsub now (lastscan s)) < 2 → timeout_maskwheel 0 (lastscan s) = timeout_maskwheel 0 now →
     ∀ b, b ≠ timeout_maskwheel 0 (lastscan s) → Q' (timeout_wheel_kc b) = Q (timeout_wheel_kc b)) →
    R (negb (bool_decide (Q' timeout_new = [])) || negb (bool_decide (Q' timeout_todo = []))) s') →
  runs (hardclock tick_ts now) s R.
Proof.
  intros H Hg Hle Hgap HR. pose proof (ok_ticks _ _ _ _ _ H) as Ht. pose proof (ok_scan _ _ _ _ _ H) as Hls.
  apply runs_bind, runs_gets, runs_bind, runs_modify. unfold timeout_hardclock_update. apply runs_bind, runs_gets.
  change (ticks (Kstate _ _ ?t _ _ _)) with t. apply runs_assoc, (runs_dump_ticks Q); [apply H|]. intros Q1 c1 H1.
  apply runs_bind, runs_gets. cbn zeta. apply runs_bind, (runs_dump_levels _ _ _ _ Q1); [apply H1|lia|done|].
  intros D Q2 c2 H2 HD Hsc Hlap. pose proof (dumps_trans _ _ _ _ _ _ _ _ H1 H2) as H12.
  apply runs_bind, runs_gets. cbn zeta. apply runs_bind, runs_modify. cbn [circ timeout_kclock with_circ].
  rewrite (ok_offset _ _ _ _ _ H), timespecadd_0 by done.
  set (s' := Kstate _ _ _ _ _ _).
  assert (ok strict None P Q2 s') as Hok.
  { apply (ok_moved strict P Q Q2 s s' _ H H12); [done|apply i32_range|done|done|].
    intros q t Hn Hv Hw Hp. eapply placed_hardclock; [done|done|done|done|exact Hn|done|]. intros E. apply Hsc; try done. by apply Hgap. }
  pose proof (ok_queues _ _ _ _ _ Hok) as Hqs.
  apply runs_bind, runs_on_queues, (runs_empty timeout_new (Q2 timeout_new)); [by apply (qs_linked _ _ Hqs)|].
  assert (tv_sec (timespecsub now (lastscan s)) < 2 → timeout_maskwheel 0 (lastscan s) = timeout_maskwheel 0 now →
    ∀ b, b ≠ timeout_maskwheel 0 (lastscan s) → Q2 (timeout_wheel_kc b) = Q (timeout_wheel_kc b)) as Hstay.
  { intros Hsec Hsame b Hb. apply (mv_stays _ _ _ (du_moved _ _ _ _ _ H12)); [|done]. intros [Htd|HDb].
    - unfold tick_dumped, level_of in Htd. naive_solver.
    - assert (0 < Z.to_nat WHEELCOUNT)%nat as Hn4 by (vm_compute; lia).
      specialize (Hlap Hsec Hsame Hn4 _ HDb). by injection Hlap as ->. }
  pose proof (HR Q2 s' Hok ltac:(done) ltac:(done) ltac:(done) Hstay) as HRet.
  destruct (bool_decide (Q2 timeout_new = [])); cbn [negb orb] in *.
  - apply runs_bind, runs_on_queues, (runs_empty timeout_todo (Q2 timeout_todo)); [by apply (qs_linked _ _ Hqs)|]. by apply runs_ret.
  - by apply runs_ret.
Qed.

(** ** Moving the ticks *)
