(* ===== verification/TimeoutAdjust.v ===== *)
(** timeout_adjust_ticks: the ticks jump, and every timeout on their wheel goes to
    timeout_todo. *)

From S2P Require Import Prelude StateMonad Circq Timeout TimeoutWheel TimeoutInv TimeoutOps TimeoutScan.

(** The next of an element. *)
Lemma runs_next Q s q l1 a l2 (R : ptr → circqs → Prop) : queues Q (c_mem s) → Q q = l1 ++ a :: l2 →
  R (match l2 with [] => Head q | b :: _ => Elem b end) s → runs (CIRCQ_FIRST (Elem a)) s R.
Proof.
  intros H E HR. assert (valid_queue q) as Hv by (eapply (in_valid Q _ q a); [done|rewrite E; set_solver]).
  pose proof (qs_linked _ _ H q Hv) as Hc. unfold circular in Hc. rewrite E in Hc.
  destruct (split_at q l1 a l2) as (k & p & x & r & _ & E2 & Ec & _). rewrite Ec, linked_app in Hc.
  destruct Hc as (_ & _ & [Hn _] & _). apply (runs_get_next _ _ x); [done|].
  destruct l2; cbn in E2; by injection E2 as <- _.
Qed.

(** What stays while the elements of a wheel move. *)
Record adjusting (s s' : kstate) : Prop := {
  aj_dom : dom (timeouts s') = dom (timeouts s);
  aj_ticks : ticks s' = ticks s;
  aj_kclock : timeout_kclock s' = timeout_kclock s;
}.
Lemma adjusting_trans s1 s2 s3 : adjusting s1 s2 → adjusting s2 s3 → adjusting s1 s3.
Proof. intros [] []. split; congruence. Qed.

Section adjust.
Context (strict : bool) (adj new_ticks : Z) (Hnew : is_i32 new_ticks).
Implicit Types (P : gset Z) (Q : lists).

(** An element goes to the end of timeout_todo. *)
Definition to_todo (a : Z) (Q : lists) : lists := put timeout_todo (without a Q timeout_todo ++ [a]) (without a Q).

Lemma to_todo_put Q m b a l q : queues Q m → Q (timeout_wheel b) = a :: l →
  to_todo a Q q = if decide (q = timeout_todo) then Q timeout_todo ++ [a] else if decide (q = timeout_wheel b) then l else Q q.
Proof.
  intros H E. unfold to_todo.
  assert (∀ q', without a Q q' = put (timeout_wheel b) l Q q') as Hw by (intros q'; by apply (without_put Q m _ [] a l)).
  destruct (decide (q = timeout_todo)) as [->|Hn].
  - by rewrite put_eq, Hw, put_ne.
  - rewrite put_ne, Hw by done. destruct (decide (q = timeout_wheel b)) as [->|]; [by rewrite put_eq|by rewrite put_ne].
Qed.

(** A turn of the loop. *)
Lemma runs_adjust_one P Q s a (R : () → kstate → Prop) : ok strict None P Q s → a ∈ P →
  (∀ s', ok strict None P (to_todo a Q) s' → adjusting s s' → R tt s') →
  runs (t ← get_to a; now ← gets ticks;
        (if i32 (to_time t - now) <? adj then upd_to a (set_time new_ticks) else mret tt);;
        on_queues (CIRCQ_REMOVE (Elem a));; on_queues (CIRCQ_INSERT_TAIL (Head timeout_todo) (Elem a))) s R.
Proof.
  intros H Ha HR. pose proof (ok_on _ _ _ _ _ H a) as Hon. apply Hon in Ha as Hq. destruct Hq as [q Hq].
  destruct (ok_placed _ _ _ _ _ H q a Hq) as (t & Et & Hpl). specialize (Hpl ltac:(done)). destruct Hpl as [Hwait _].
  pose proof (ok_well _ _ _ _ _ H a t Et) as Hwt. assert (ISSET (to_flags t) TIMEOUT_ONQUEUE = true) as Hf by (by apply (ok_flag _ _ _ _ _ H a t Et)).
  apply runs_bind, (runs_get_to _ _ t); [done|]. apply runs_bind, runs_gets.
  assert (∀ t', well t' → waiting t' → to_flags t' = to_flags t →
    runs (on_queues (CIRCQ_REMOVE (Elem a));; on_queues (CIRCQ_INSERT_TAIL (Head timeout_todo) (Elem a))) (with_to a t' s) R) as Hrest.
  { intros t' Hw' Hwait' Ef. pose proof (ok_upd strict None P Q s a t t' ltac:(auto) H Et Hw') as H'.
    apply runs_bind, (runs_ok_remove strict (Some a) P Q); [done..|]. intros c Hc.
    apply (runs_ok_insert strict (Some a) (P ∖ {[a]}) (without a Q) _ a t');
      [done|done|apply lookup_with_to|set_solver|done|by rewrite Ef|by split|]. intros c' Hc'. apply HR.
    - replace P with (P ∖ {[a]} ∪ {[a]}) by (apply set_eq; intros b; destruct (decide (b = a)); set_solver). exact Hc'.
    - split; [|done..]. cbn. rewrite dom_insert_L. assert (a ∈ dom (timeouts s)) by (by apply elem_of_dom_2 in Et). set_solver. }
  apply runs_bind. destruct (i32 (to_time t - ticks s) <? adj).
  - apply (runs_upd_to _ _ t); [done|]. apply Hrest; [|done|done]. apply (well_edit t); [done|done|exact Hnew|done].
  - apply runs_ret. assert (s = with_to a t s) as Es by (unfold with_to; rewrite insert_id by done; by destruct s). rewrite Es.
    by apply Hrest.
Qed.

Lemma runs_adjust_bucket fuel P Q s b l (R : () → kstate → Prop) :
  ok strict None P Q s → Q (timeout_wheel b) = l → (length l < fuel)%nat →
  (∀ Q' s', ok strict None P Q' s' → adjusting s s' → Q' (timeout_wheel b) = [] →
    (∀ b', Q (timeout_wheel b') = [] → Q' (timeout_wheel b') = []) → R tt s') →
  runs (adjust_bucket fuel (timeout_wheel b) (match l with [] => Head (timeout_wheel b) | a :: _ => Elem a end) adj new_ticks) s R.
Proof.
  revert Q s l R. induction fuel as [|fuel IH]; intros Q s l R H El Hf HR; [lia|]. cbn [adjust_bucket]. destruct l as [|a l].
  - rewrite bool_decide_eq_true_2 by done. apply runs_ret, (HR Q); done.
  - rewrite bool_decide_eq_false_2 by done. apply runs_bind, runs_ret.
    apply runs_bind, runs_on_queues, (runs_next Q _ (timeout_wheel b) [] a l); [apply H|done|].
    rewrite with_circ_same.
    assert (a ∈ P) as Ha by (apply (ok_on _ _ _ _ _ H); exists (timeout_wheel b); rewrite El; left).
    pose proof (runs_adjust_one P Q s a (λ _ s', runs (adjust_bucket fuel (timeout_wheel b)
      (match l with [] => Head (timeout_wheel b) | a :: _ => Elem a end) adj new_ticks) s' R) H Ha) as Hone.
    assert (∀ q, to_todo a Q q = _) as Eq by (intros q; apply (to_todo_put Q (c_mem (circ s)) b a l); [apply H|done]).
    destruct Hone as (u & s1 & E1 & Hk).
    + intros s' Hok Haj. apply (IH (to_todo a Q)); [done|by rewrite Eq, decide_False, decide_True|cbn in Hf; lia|].
      intros Q2 s2 H2 Haj2 Eb Hother. apply (HR Q2); [done|by eapply adjusting_trans|done|].
      intros b' Eb'. apply Hother. rewrite Eq. rewrite decide_False by done. case_decide as Hbb; [injection Hbb as ->; congruence|done].
    + destruct Hk as (v & s2 & E2 & HR'). exists v, s2. split; [|done].
      unfold mbind, ST_bind in *. repeat case_match; simplify_eq; try done; congruence.
Qed.

(** A bucket holds no more timeouts than there are. *)
Lemma length_bucket P Q s q : ok strict None P Q s → (length (Q q) ≤ size (timeouts s))%nat.
Proof.
  intros H. rewrite <-(size_dom (D := gset Z)).
  rewrite <-(size_list_to_set (C := gset Z) (Q q)) by apply (qs_nodup _ _ (ok_queues _ _ _ _ _ H)).
  apply subseteq_size. intros a Ha%elem_of_list_to_set. destruct (ok_placed _ _ _ _ _ H q a Ha) as (t & E & _).
  by apply elem_of_dom_2 in E.
Qed.

Lemma runs_adjust_buckets n b P Q s (R : () → kstate → Prop) :
  ok strict None P Q s → 0 ≤ b → b + Z.of_nat n ≤ 1024 →
  (∀ Q' s', ok strict None P Q' s' → adjusting s s' → (∀ b', b ≤ b' < b + Z.of_nat n → Q' (timeout_wheel b') = []) →
    (∀ b', Q (timeout_wheel b') = [] → Q' (timeout_wheel b') = []) → R tt s') →
  runs (adjust_buckets n b adj new_ticks) s R.
Proof.
  revert b Q s R. induction n as [|n IH]; intros b Q s R H Hb Hn HR.
  { apply runs_ret, (HR Q); [done|done|lia|done]. }
  apply runs_bind, runs_on_queues, (runs_cq_first (timeout_wheel b) (Q (timeout_wheel b))); [apply H; cbn; lia|].
  rewrite with_circ_same. apply runs_bind, runs_gets.
  apply runs_bind, (runs_adjust_bucket _ P Q s b (Q (timeout_wheel b))); [done|done|pose proof (length_bucket P Q s (timeout_wheel b) H); lia|].
  intros Q1 s1 H1 Haj1 Eb1 Hother1. apply (IH (b + 1) Q1); [done|lia|lia|]. intros Q2 s2 H2 Haj2 Ein Hother2.
  apply (HR Q2); [done|by eapply adjusting_trans| |intros b' Eb'; by apply Hother2, Hother1].
  intros b' Hb'. destruct (decide (b' = b)) as [->|Hne]; [by apply Hother2|apply Ein; lia].
Qed.
End adjust.

Lemma runs_adjust_ticks strict P Q s adj (R : () → kstate → Prop) :
  ok strict None P Q s →
  (∀ Q' s', ok strict None P Q' s' → dom (timeouts s') = dom (timeouts s) → timeout_kclock s' = timeout_kclock s → R tt s') →
  runs (timeout_adjust_ticks adj) s R.
Proof.
  intros H HR. unfold timeout_adjust_ticks. destruct (Z.leb_spec adj 0); [apply runs_ret; by apply (HR Q)|].
  apply runs_bind, runs_gets. cbn zeta. apply runs_bind, (runs_adjust_buckets strict adj _ (i32_range _) _ _ P Q); [done|lia|by vm_compute|].
  intros Q' s' H' [Hd Ht Hk] Hempty _. apply runs_modify.
  apply (HR Q'); [|done|done]. set (s2 := Kstate _ _ _ _ _ _).
  assert (∀ b, Q' (timeout_wheel b) = []) as Hnil.
  { intros b. destruct (decide (0 ≤ b < 1024)) as [Hb|Hb]; [by apply Hempty|]. by apply (qs_valid _ _ (ok_queues _ _ _ _ _ H')). }
  apply (ok_moved strict P Q' Q' s' s2 (λ q, ∃ b, q = timeout_wheel b)); [done| |done|apply i32_range|apply H'|apply H'|].
  - split; [apply H'|done|done|]. split; [|intros q a Ha; by exists q|done].
    intros q a Ha. right. split; [|done]. intros [b ->]. rewrite Hnil in Ha. by apply elem_of_nil in Ha.
  - intros q t Hn _ _ [Hw Hq]. split; [done|]. destruct q; try done. exfalso. by apply Hn; eexists.
Qed.
