(* ===== verification/TimeoutRun.v ===== *)
(** softclock and the threads: where each timeout of timeout_todo goes, and what runs. *)

From S2P Require Import Prelude StateMonad Circq Timeout TimeoutWheel TimeoutInv TimeoutOps TimeoutScan.

(** ** Where a timeout goes *)

Definition thread_queue (t : timeout) : queue :=
  if ISSET (to_flags t) TIMEOUT_MPSAFE then timeout_proc_mp else timeout_proc.
Definition kc_bucket (last A : timespec) : Z :=
  let l := bucket_level (timespecsub A last) in l * 256 + timeout_maskwheel l A.

(** A timeout is due. *)
Definition due (now : Z) (last : timespec) (t : timeout) : bool :=
  if to_kclock t =? KCLOCK_NONE then i32 (to_time t - now) <=? 0 else negb (timespec_lt last (to_abstime t)).

(** The queue a timeout of timeout_todo goes to; [None] when its function runs at once. *)
Definition destination (now : Z) (last : timespec) (t : timeout) : option queue :=
  if due now last t then
    if ISSET (to_flags t) TIMEOUT_PROC then Some (thread_queue t) else None
  else if to_kclock t =? KCLOCK_NONE then Some (timeout_wheel (BUCKET (i32 (to_time t - now)) (to_time t)))
  else Some (timeout_wheel_kc (kc_bucket last (to_abstime t))).

(** A timeout whose function is called. *)
Definition triggered (t : timeout) : timeout :=
  set_flags (SET (CLR (to_flags t) TIMEOUT_ONQUEUE) TIMEOUT_TRIGGERED) t.

Definition append (q : queue) (a : Z) (Q : lists) : lists := put q (Q q ++ [a]) Q.

(** The clock has not moved. *)
Record same_clock (s s' : kstate) : Prop := {
  sc_ticks : ticks s' = ticks s;
  sc_kclock : timeout_kclock s' = timeout_kclock s;
}.

Section run.
Context (strict : bool).
Implicit Types (P : gset Z) (Q : lists) (s : kstate).

Lemma triggered_well t : well t → well (triggered t).
Proof.
  intros Hw. apply (well_edit t); [done|done|apply Hw|]. intros b Hb. unfold triggered, ISSET, SET, CLR. cbn [to_flags set_flags].
  destruct Hb as [-> |[-> | ->]]; by rewrite has_set, has_clear.
Qed.
Lemma triggered_off t : ISSET (to_flags (triggered t)) TIMEOUT_ONQUEUE = false.
Proof. unfold triggered, ISSET, SET. cbn [to_flags set_flags]. rewrite has_set by done. apply onqueue_cleared. Qed.

Lemma runs_run_enter P Q s ctx a t (R : Z * Z → kstate → Prop) :
  ok strict (Some a) P Q s → timeouts s !! a = Some t → a ∉ P →
  (∀ s', ok strict None P Q s' → timeouts s' = <[a := triggered t]> (timeouts s) → same_clock s s' →
    tctx_running s' ctx = a → R (to_func t, to_arg t) s') →
  runs (timeout_run_enter ctx a) s R.
Proof.
  intros H Et Ha HR. pose proof (ok_well _ _ _ _ _ H a t Et) as Hw.
  apply runs_bind, (runs_upd_to _ _ t); [done|]. apply runs_bind. eapply runs_upd_to; [apply lookup_with_to|].
  rewrite with_to_twice. apply runs_bind, (runs_get_to _ _ (triggered t)); [apply lookup_with_to|].
  apply runs_bind, runs_modify, runs_ret. apply HR; [|done|done|cbn; by rewrite decide_True].
  apply (ok_same strict None P Q (with_to a (triggered t) s)); [done..|].
  apply (ok_close strict P Q _ a (triggered t)); [|apply lookup_with_to|by rewrite triggered_off|].
  - apply (ok_upd strict (Some a) P Q s a t); [auto|done|done|by apply triggered_well].
  - intros q Hq. exfalso. eapply not_pending; done.
Qed.

(** ** One timeout *)

(** What happens to the timeout that has been taken from timeout_todo. *)
Definition handled (P : gset Z) (Q : lists) (s : kstate) (a : Z) (t : timeout) (dest : option queue) (ran : bool) (s' : kstate) : Prop :=
  same_clock s s' ∧
  match dest with
  | Some q => ran = false ∧ ok strict None (P ∪ {[a]}) (append q a Q) s' ∧ timeouts s' = timeouts s
  | None => ran = true ∧ ok strict None P Q s' ∧ timeouts s' = <[a := triggered t]> (timeouts s) ∧
            tctx_running s' timeout_ctx_si = a
  end.

Lemma runs_handled_insert P Q s a t q (R : () → kstate → Prop) :
  ok strict (Some a) P Q s → timeouts s !! a = Some t → a ∉ P → ISSET (to_flags t) TIMEOUT_ONQUEUE = true →
  valid_queue q → placed strict (ticks s) (lastscan s) t q →
  (∀ s', handled P Q s a t (Some q) false s' → R tt s') →
  runs (on_queues (CIRCQ_INSERT_TAIL (Head q) (Elem a))) s R.
Proof.
  intros H Et Ha Hf Hv Hp HR. apply (runs_ok_insert strict (Some a) P Q s a t); [auto|done..|].
  intros c Hc. apply HR. split; [done|]. by split_and!.
Qed.

Lemma runs_due_timeout P Q s a t (R : bool → kstate → Prop) :
  ok strict (Some a) P Q s → timeouts s !! a = Some t → a ∉ P → ISSET (to_flags t) TIMEOUT_ONQUEUE = true → waiting t →
  (∀ r s', handled P Q s a t (if ISSET (to_flags t) TIMEOUT_PROC then Some (thread_queue t) else None) r s' → R r s') →
  runs (due_timeout a t) s R.
Proof.
  intros H Et Ha Hf Hw HR. unfold due_timeout, thread_queue in *. destruct (ISSET (to_flags t) TIMEOUT_PROC) eqn:Ep.
  - apply runs_bind. destruct (ISSET (to_flags t) TIMEOUT_MPSAFE) eqn:Em;
      (eapply runs_handled_insert; [done|done|done|done|done|by split|]); intros s' Hs'; apply runs_ret; by apply HR.
  - apply runs_bind, (runs_run_enter P Q _ _ _ t); [done..|]. intros s' Hok Ht Hc Hr. apply runs_ret, HR. by split_and!.
Qed.

(** Only the counters change. *)
Definition counted (s s' : kstate) : Prop :=
  ∃ f, s' = Kstate (circ s) (timeouts s) (ticks s) (timeout_kclock s) (tctx_running s) f.

Lemma runs_maybe_count (b : bool) f s (R : () → kstate → Prop) :
  (∀ s', counted s s' → R tt s') → runs (if b then count f else mret tt) s R.
Proof.
  intros HR. destruct b; [apply runs_modify|apply runs_ret]; apply HR; [by eexists|].
  exists (tostat s). by destruct s.
Qed.
Lemma counted_trans s1 s2 s3 : counted s1 s2 → counted s2 s3 → counted s1 s3.
Proof. intros [f ->] [g ->]. by exists g. Qed.
Lemma counted_ok x P Q s s' : counted s s' → ok strict x P Q s → ok strict x P Q s'.
Proof. intros [f ->]. by apply ok_same. Qed.
Lemma counted_handled P Q s s1 a t dest r s' : counted s s1 → handled P Q s1 a t dest r s' → handled P Q s a t dest r s'.
Proof. intros [f ->] [[] H]. by split. Qed.

Lemma destination_bucket P Q s a t : ok strict (Some a) P Q s → to_kclock t = KCLOCK_UPTIME → waiting t →
  timespec_lt (lastscan s) (to_abstime t) = true →
  valid_queue (timeout_wheel_kc (kc_bucket (lastscan s) (to_abstime t))) ∧
  placed strict (ticks s) (lastscan s) t (timeout_wheel_kc (kc_bucket (lastscan s) (to_abstime t))).
Proof.
  intros H Hk Hw Hlt. pose proof (ok_scan _ _ _ _ _ H) as Hls. pose proof (Hw Hk) as HA.
  apply timespec_lt_nsecs in Hlt; [|done|done]. destruct (kc_waits_new _ _ Hls HA Hlt) as [Hl Hkw].
  split; [|split; [done|]].
  - cbn. unfold kc_bucket. pose proof (maskwheel_range (bucket_level (timespecsub (to_abstime t) (lastscan s))) (to_abstime t)). lia.
  - split; [done|]. intros _. by exists (to_abstime t).
Qed.

Lemma runs_timeout_bucket P Q s a t (R : Z → kstate → Prop) :
  ok strict (Some a) P Q s → timeouts s !! a = Some t → to_kclock t = KCLOCK_UPTIME → waiting t →
  timespec_lt (lastscan s) (to_abstime t) = true →
  R (kc_bucket (lastscan s) (to_abstime t)) s → runs (timeout_bucket a) s R.
Proof.
  intros H Et Hk Hw Hlt HR. apply runs_bind, (runs_get_to _ _ t); [done|]. rewrite Hk. apply runs_bind. eapply runs_lift; [reflexivity|].
  apply runs_bind, runs_gets. apply runs_bind. eapply runs_lift; [unfold lastscan in Hlt; by rewrite Hlt|]. cbn zeta. apply runs_ret.
  rewrite (ok_offset _ _ _ _ _ H), timespecadd_0 by (by apply Hw). exact HR.
Qed.

Lemma runs_process_kclock P Q s a t new (R : bool → kstate → Prop) :
  ok strict (Some a) P Q s → timeouts s !! a = Some t → a ∉ P → ISSET (to_flags t) TIMEOUT_ONQUEUE = true → waiting t →
  to_kclock t = KCLOCK_UPTIME →
  (∀ r s', handled P Q s a t (destination (ticks s) (lastscan s) t) r s' → R r s') →
  runs (softclock_process_kclock_timeout a new) s R.
Proof.
  intros H Et Ha Hf Hw Hk HR. apply runs_bind, (runs_get_to _ _ t); [done|]. apply runs_bind, runs_gets.
  change (kc_lastscan (timeout_kclock s)) with (lastscan s).
  unfold destination, due in HR. rewrite Hk in HR. change (KCLOCK_UPTIME =? KCLOCK_NONE) with false in HR. cbn [negb] in HR.
  destruct (timespec_lt (lastscan s) (to_abstime t)) eqn:Hlt; cbn [negb] in HR.
  - apply runs_bind, (runs_maybe_count true). intros s1 H1. apply runs_bind, runs_maybe_count. intros s2 H2.
    pose proof (counted_trans _ _ _ H1 H2) as H12. pose proof (counted_ok _ _ _ _ _ H12 H) as Hok.
    destruct (destination_bucket P Q s a t H Hk Hw Hlt) as [Hv Hp]. clear H1 H2.
    assert (lastscan s2 = lastscan s ∧ timeouts s2 = timeouts s ∧ ticks s2 = ticks s) as (El & Eto & Eti) by (by destruct H12 as [f ->]).
    apply runs_bind, (runs_timeout_bucket P Q _ a t); [done|by rewrite Eto|done|done|by rewrite El|]. rewrite El.
    apply runs_bind, (runs_handled_insert P Q _ a t); [done|by rewrite Eto|done|done|done|by rewrite Eti, El|].
    intros s' Hs'. apply runs_ret, HR. by eapply counted_handled.
  - apply runs_bind, runs_maybe_count. intros s1 H1.
    apply (runs_due_timeout P Q); [by eapply counted_ok|by destruct H1 as [f ->]|done..|].
    intros r s' Hs'. apply HR. by eapply counted_handled.
Qed.

Lemma runs_process_tick P Q s a t new (R : bool → kstate → Prop) :
  ok strict (Some a) P Q s → timeouts s !! a = Some t → a ∉ P → ISSET (to_flags t) TIMEOUT_ONQUEUE = true → waiting t →
  to_kclock t = KCLOCK_NONE →
  (∀ r s', handled P Q s a t (destination (ticks s) (lastscan s) t) r s' → R r s') →
  runs (softclock_process_tick_timeout a new) s R.
Proof.
  intros H Et Ha Hf Hw Hk HR. apply runs_bind, (runs_get_to _ _ t); [done|]. apply runs_bind, runs_gets. cbn zeta.
  unfold destination, due in HR. rewrite Hk, Z.eqb_refl, Z.leb_antisym in HR.
  destruct (Z.ltb_spec 0 (i32 (to_time t - ticks s))) as [Hd|Hd]; cbn [negb] in HR.
  - apply runs_bind, (runs_maybe_count true). intros s1 H1. apply runs_bind, runs_maybe_count. intros s2 H2.
    pose proof (counted_trans _ _ _ H1 H2) as H12. pose proof (counted_ok _ _ _ _ _ H12 H) as Hok. clear H1 H2.
    assert (timeouts s2 = timeouts s ∧ ticks s2 = ticks s) as (Eto & Eti) by (by destruct H12 as [f ->]).
    apply runs_bind, (runs_handled_insert P Q _ a t); [done|by rewrite Eto|done|done|apply BUCKET_range| |].
    + split; [done|]. split; [done|]. rewrite Eti.
      apply BUCKET_in_time; [apply (ok_ticks _ _ _ _ _ H)|apply (ok_well _ _ _ _ _ H a t Et)|done].
    + intros s' Hs'. apply runs_ret, HR. by eapply counted_handled.
  - apply runs_bind, runs_maybe_count. intros s1 H1.
    apply (runs_due_timeout P Q); [by eapply counted_ok|by destruct H1 as [f ->]|done..|].
    intros r s' Hs'. apply HR. by eapply counted_handled.
Qed.

(** ** The loop *)

Lemma runs_softclock_begin P Q s (R : Z → kstate → Prop) : ok strict None P Q s →
  (∀ Q' s', ok strict None P Q' s' → (∀ q, Q' q = concat timeout_todo timeout_new Q q) →
    timeouts s' = timeouts s → same_clock s s' → R (match Q timeout_new with [] => 0 | a :: _ => a end) s') →
  runs softclock_begin s R.
Proof.
  intros H HR. pose proof (ok_queues _ _ _ _ _ H) as Hq. pose proof (qs_linked _ _ Hq timeout_new I) as Hc.
  apply runs_bind, runs_on_queues, (runs_empty timeout_new (Q timeout_new)); [done|]. rewrite with_circ_same. apply runs_bind.
  assert (∀ v, v = match Q timeout_new with [] => 0 | a :: _ => a end →
    runs (on_queues (CIRCQ_CONCAT (Head timeout_todo) (Head timeout_new));; mret v) s R) as Hrest.
  { intros v ->. apply runs_bind, runs_on_queues, (runs_concat Q); [done..|]. intros c' Hc' Hd Hp. apply runs_ret, (HR (concat timeout_todo timeout_new Q)); [|done..].
    apply (ok_moved strict P Q _ s _ (λ q, q = timeout_new)); [done| |done|apply H|apply H|apply H|done].
    split; [done..|]. unfold concat. split.
    - intros q a. destruct (decide (q = timeout_todo)) as [->|Ht].
      + rewrite put_eq, elem_of_app. intros [Ha|Ha]; left; (split; [done|]); eauto.
      + rewrite put_ne by done. destruct (decide (q = timeout_new)) as [->|Hn]; [rewrite put_eq; by intros ?%elem_of_nil|].
        rewrite put_ne by done. by right.
    - intros q a Ha. destruct (decide (q = timeout_todo)) as [->|Ht]; [exists timeout_todo; rewrite put_eq; set_solver|].
      destruct (decide (q = timeout_new)) as [->|Hn]; [exists timeout_todo; rewrite put_eq; set_solver|].
      exists q. by rewrite !put_ne.
    - intros q Hn Ht. by rewrite !put_ne. }
  destruct (Q timeout_new) as [|a l] eqn:E; cbn.
  - apply runs_ret. by apply Hrest.
  - apply runs_bind, runs_on_queues, (runs_cq_first timeout_new (a :: l)); [done|]. rewrite with_circ_same. apply runs_ret. by apply Hrest.
Qed.

(** A turn of the loop of softclock. *)
Lemma runs_softclock_turn P Q s first new (R : option (bool * option Z) → kstate → Prop) : ok strict None P Q s →
  (Q timeout_todo = [] → R None s) →
  (∀ a l t r s', Q timeout_todo = a :: l → timeouts s !! a = Some t →
    handled (P ∖ {[a]}) (without a Q) s a t (destination (ticks s) (lastscan s) t) r s' →
    R (Some (if a =? first then true else new, if r then Some a else None)) s') →
  runs (softclock_turn first new) s R.
Proof.
  intros H HR0 HR. pose proof (ok_queues _ _ _ _ _ H) as Hq. pose proof (qs_linked _ _ Hq timeout_todo I) as Hc.
  apply runs_bind, runs_on_queues, (runs_empty timeout_todo (Q timeout_todo)); [done|]. rewrite with_circ_same.
  destruct (Q timeout_todo) as [|a l] eqn:E; cbn; [apply runs_ret; by apply HR0|].
  apply runs_bind, runs_on_queues, (runs_cq_first timeout_todo (a :: l)); [done|]. rewrite with_circ_same. apply runs_bind, runs_ret.
  assert (a ∈ Q timeout_todo) as Hin by (rewrite E; left).
  assert (a ∈ P) as Ha by (apply (ok_on _ _ _ _ _ H); by exists timeout_todo).
  destruct (ok_placed _ _ _ _ _ H _ a Hin) as (t & Et & Hp). destruct (Hp ltac:(done)) as [Hw _].
  assert (ISSET (to_flags t) TIMEOUT_ONQUEUE = true) as Hf by (by apply (ok_flag _ _ _ _ _ H a t Et)).
  apply runs_bind, (runs_ok_remove strict None P Q); [done..|]. intros c Hok. cbn zeta.
  apply runs_bind, (runs_get_to _ _ t); [done|]. apply runs_bind.
  assert (∀ r s', handled (P ∖ {[a]}) (without a Q) (with_circ c s) a t (destination (ticks s) (lastscan s) t) r s' →
    runs (mret (Some (if a =? first then true else new, if r then Some a else None))) s' R) as Hret.
  { intros r s' [[] Hs']. apply runs_ret. eapply HR; [done..|]. by split. }
  destruct (w_clock _ (ok_well _ _ _ _ _ H a t Et)) as [Hk|Hk]; rewrite Hk; cbn [Z.eqb].
  - apply (runs_process_tick (P ∖ {[a]}) (without a Q) _ a t); [done|done|set_solver|done..].
  - change (KCLOCK_UPTIME =? KCLOCK_NONE) with false. cbn.
    apply (runs_process_kclock (P ∖ {[a]}) (without a Q) _ a t); [done|done|set_solver|done..].
Qed.

Lemma runs_ran P Q s ctx f (R : () → kstate → Prop) : ok strict None P Q s →
  (∀ s', ok strict None P Q s' → timeouts s' = timeouts s → same_clock s s' → R tt s') →
  runs (timeout_run_leave ctx;; count f) s R.
Proof.
  intros H HR. apply runs_bind, runs_modify, runs_modify. apply HR; [|done|done]. by apply (ok_same strict None P Q s).
Qed.

Lemma runs_softclock_end P Q s (R : bool * bool → kstate → Prop) : ok strict None P Q s →
  (∀ s', ok strict None P Q s' → timeouts s' = timeouts s → same_clock s s' →
    R (negb (bool_decide (Q timeout_proc = [])), negb (bool_decide (Q timeout_proc_mp = []))) s') →
  runs softclock_end s R.
Proof.
  intros H HR. pose proof (ok_queues _ _ _ _ _ H) as Hq. apply runs_bind, runs_modify.
  apply runs_bind, runs_on_queues, (runs_empty timeout_proc (Q timeout_proc)); [by apply (qs_linked _ _ Hq)|].
  apply runs_bind, runs_on_queues, (runs_empty timeout_proc_mp (Q timeout_proc_mp)); [by apply (qs_linked _ _ Hq)|].
  apply runs_ret, HR; [|done|done]. by apply (ok_same strict None P Q s).
Qed.

(** A turn of the loop of a thread: the first timeout runs, due or not. *)
Lemma runs_thread_turn P Q s ctx (R : option Z → kstate → Prop) : ok strict None P Q s →
  (Q (tctx_todo ctx) = [] → R None s) →
  (∀ a l t s', Q (tctx_todo ctx) = a :: l → timeouts s !! a = Some t → ok strict None (P ∖ {[a]}) (without a Q) s' →
    timeouts s' = <[a := triggered t]> (timeouts s) → same_clock s s' → tctx_running s' ctx = a → R (Some a) s') →
  runs (thread_turn ctx) s R.
Proof.
  intros H HR0 HR. pose proof (ok_queues _ _ _ _ _ H) as Hq. pose proof (qs_linked _ _ Hq (tctx_todo ctx) (valid_ctx ctx)) as Hc.
  apply runs_bind, runs_on_queues, (runs_empty (tctx_todo ctx) (Q (tctx_todo ctx))); [done|]. rewrite with_circ_same.
  destruct (Q (tctx_todo ctx)) as [|a l] eqn:E; cbn; [apply runs_ret; by apply HR0|].
  apply runs_bind, runs_on_queues, (runs_cq_first (tctx_todo ctx) (a :: l)); [done|]. rewrite with_circ_same. apply runs_bind, runs_ret.
  assert (a ∈ Q (tctx_todo ctx)) as Hin by (rewrite E; left).
  assert (a ∈ P) as Ha by (apply (ok_on _ _ _ _ _ H); by eexists).
  destruct (ok_placed _ _ _ _ _ H _ a Hin) as (t & Et & Hp).
  apply runs_bind, (runs_ok_remove strict None P Q); [done..|]. intros c Hok.
  apply runs_bind, (runs_run_enter (P ∖ {[a]}) (without a Q) _ ctx a t); [done|done|set_solver|].
  intros s' Hs' Hto [Hc1 Hc2] Hr. apply runs_ret. eapply HR; done.
Qed.
End run.
