(* ===== verification/TimeoutSys.v ===== *)
(** The timeouts as a system: from timeout_startup, any calls of any clients, clock
    interrupts, runs of softclock and of the threads, each piece between two releases
    of timeout_mutex a step. *)

From S2P Require Import Prelude StateMonad Circq Timeout TimeoutWheel TimeoutInv TimeoutOps TimeoutScan TimeoutAdjust TimeoutRun.

(** ** Boot *)

(** The queue heads, in zeroed memory. *)
Definition buckets : list Z := seqZ 0 1024.
Definition all_queues : list queue :=
  [timeout_new; timeout_todo; timeout_proc; timeout_proc_mp] ++ (timeout_wheel <$> buckets) ++ (timeout_wheel_kc <$> buckets).
Definition bss : gmap ptr circq := list_to_map ((λ q, (Head q, Circq Null Null)) <$> all_queues).
Definition zero_ts : timespec := Timespec 0 0.
Definition boot (t0 : Z) : kstate :=
  Kstate (Circqs bss 0) ∅ t0 (Kclock zero_ts zero_ts zero_ts) (λ _, 0) (Stat 0 0 0 0 0 0 0 0 0 0 0).

Lemma all_queues_valid q : valid_queue q → q ∈ all_queues.
Proof.
  unfold all_queues, buckets. intros H. rewrite !elem_of_app, !list_elem_of_fmap. destruct q as [| | | |b|b]; cbn in H; [left; set_solver..| |].
  - right; left. exists b. split; [done|]. by apply elem_of_seqZ.
  - right; right. exists b. split; [done|]. by apply elem_of_seqZ.
Qed.
Lemma bss_heads q : valid_queue q → is_Some (bss !! Head q).
Proof.
  intros H%all_queues_valid. apply not_eq_None_Some. intros E. apply not_elem_of_list_to_map_2 in E. apply E.
  apply list_elem_of_fmap. exists (Head q, Circq Null Null). split; [done|]. apply list_elem_of_fmap. by exists q.
Qed.

(** A head that points to itself. *)
Definition inited (m : gmap ptr circq) (q : queue) : Prop := m !! Head q = Some (Circq (Head q) (Head q)).

(** What the setting up keeps: the cells, the heads set up so far, and all the rest. *)
Record setup (s s' : kstate) : Prop := {
  su_dom : dom (c_mem (circ s')) = dom (c_mem (circ s));
  su_kept q : inited (c_mem (circ s)) q → inited (c_mem (circ s')) q;
  su_rest : s' = with_circ (Circqs (c_mem (circ s')) (tos_pending (circ s))) s;
}.

Lemma setup_trans s1 s2 s3 : setup s1 s2 → setup s2 s3 → setup s1 s3.
Proof.
  intros [H1 H2 H3] [H4 H5 H6]. split; [congruence|auto|]. rewrite H6. unfold with_circ; cbn. rewrite H3. done.
Qed.

Lemma runs_init s q (R : () → kstate → Prop) : is_Some (c_mem (circ s) !! Head q) →
  (∀ s', setup s s' → inited (c_mem (circ s')) q → R tt s') → runs (on_queues (CIRCQ_INIT (Head q))) s R.
Proof.
  intros [c E] HR. apply runs_on_queues.
  exists tt, (Circqs (<[Head q := Circq (Head q) (Head q)]> (c_mem (circ s))) (tos_pending (circ s))).
  split.
  - unfold CIRCQ_INIT, set_next, set_prev, mbind, ST_bind. rewrite E. cbn. rewrite lookup_insert_eq. cbn. by rewrite insert_insert_eq.
  - apply HR; [|apply lookup_insert_eq]. split; [cbn; rewrite dom_insert_L; apply elem_of_dom_2 in E; set_solver| |done].
    intros q' Hq'. unfold inited in *. cbn. destruct (decide (q' = q)) as [->|Hne]; [apply lookup_insert_eq|].
    by rewrite lookup_insert_ne by congruence.
Qed.

Lemma runs_init_buckets wheel n b s (R : () → kstate → Prop) :
  (∀ i, b ≤ i < b + Z.of_nat n → is_Some (c_mem (circ s) !! Head (wheel i))) →
  (∀ s', setup s s' → (∀ i, b ≤ i < b + Z.of_nat n → inited (c_mem (circ s')) (wheel i)) → R tt s') →
  runs (init_buckets wheel n b) s R.
Proof.
  revert b s. induction n as [|n IH]; intros b s Hs HR.
  { apply runs_ret, HR; [|lia]. split; [done..|]. by destruct s as [[]]. }
  apply runs_bind, runs_init; [apply Hs; lia|]. intros s1 H1 Hi. apply IH.
  - intros i Hin. apply elem_of_dom. rewrite (su_dom _ _ H1). apply elem_of_dom, Hs. lia.
  - intros s2 H2 Hin. apply HR; [by eapply setup_trans|]. intros i Hb. destruct (decide (i = b)) as [->|]; [by apply (su_kept _ _ H2)|].
    apply Hin. lia.
Qed.

(** The queues of the wheels are valid up to [BUCKETS]. *)
Lemma runs_startup strict t0 (R : () → kstate → Prop) : is_i32 t0 →
  (∀ s, ok strict None ∅ (λ _, []) s → timeouts s = ∅ → R tt s) → runs timeout_startup (boot t0) R.
Proof.
  intros Ht HR. assert (∀ s q, setup (boot t0) s → valid_queue q → is_Some (c_mem (circ s) !! Head q)) as Hcell.
  { intros s q Hs Hv. apply elem_of_dom. rewrite (su_dom _ _ Hs). by apply elem_of_dom, bss_heads. }
  apply runs_bind, runs_init; [by apply bss_heads|]. intros s1 H1 I1.
  apply runs_bind, runs_init; [by apply Hcell|]. intros s2 H2 I2. pose proof (setup_trans _ _ _ H1 H2) as H12.
  apply runs_bind, runs_init; [by apply Hcell|]. intros s3 H3 I3. pose proof (setup_trans _ _ _ H12 H3) as H13.
  apply runs_bind, runs_init; [by apply Hcell|]. intros s4 H4 I4. pose proof (setup_trans _ _ _ H13 H4) as H14.
  apply runs_bind, runs_init_buckets; [intros i Hi; by apply Hcell|]. intros s5 H5 I5. pose proof (setup_trans _ _ _ H14 H5) as H15.
  apply runs_init_buckets; [intros i Hi; by apply Hcell|]. intros s6 H6 I6. pose proof (setup_trans _ _ _ H15 H6) as H16.
  pose proof (setup_trans _ _ _ H2 H3) as H23. pose proof (setup_trans _ _ _ H3 H4) as H34. pose proof (setup_trans _ _ _ H5 H6) as H56.
  assert (∀ q, valid_queue q → inited (c_mem (circ s6)) q) as Hall.
  { intros [| | | |b|b] Hv; cbn in Hv.
    - by apply (su_kept _ _ H6), (su_kept _ _ H5), (su_kept _ _ H34), (su_kept _ _ H2).
    - by apply (su_kept _ _ H6), (su_kept _ _ H5), (su_kept _ _ H34).
    - by apply (su_kept _ _ H6), (su_kept _ _ H5), (su_kept _ _ H4).
    - by apply (su_kept _ _ H6), (su_kept _ _ H5).
    - by apply (su_kept _ _ H6), I5.
    - by apply I6. }
  apply HR; [|by rewrite (su_rest _ _ H16)]. rewrite (su_rest _ _ H16). split; cbn; try done.
  - split; [|intros q; apply NoDup_nil_2|by intros q q' a ?%elem_of_nil|done]. intros q Hv. split; [|done]. split; by rewrite (Hall q Hv).
  - intros a. rewrite lookup_empty. by intros [? ?].
  - intros a. split; [set_solver|]. by intros [q ?%elem_of_nil].
  - by intros q a ?%elem_of_nil.
Qed.

(** ** Intervals *)

Definition div_up (x y : Z) : Z := (x + (y - 1)) `div` y.

Lemma add_ticks_eq a x : 0 ≤ x → timeout_add_ticks a x = timeout_add a (Z.min INT_MAX (x + 1)).
Proof. intros Hx. unfold timeout_add_ticks, INT_MAX. destruct (Z.leb_spec 2147483647 x); cbn zeta; f_equal; lia. Qed.

Lemma add_sec_eq hz a secs : 0 < hz ≤ INT_MAX → 0 ≤ secs ≤ INT_MAX →
  timeout_add_sec hz a secs = (lift (kassert "timeout_add_sec" true);; timeout_add a (Z.min INT_MAX (hz * secs + 1))).
Proof.
  unfold INT_MAX. intros Hh Hs. unfold timeout_add_sec. rewrite (proj2 (Z.leb_le 0 secs)) by lia.
  rewrite (u64_small hz), (u64_small secs), u64_small by (unfold is_u64; nia). by rewrite add_ticks_eq by lia.
Qed.

(** The same computation for microseconds and for nanoseconds. *)
Lemma add_rounded tick a x : 0 < tick ≤ INT_MAX → 0 ≤ x ≤ UINT64_MAX →
  (if u64 (UINT64_MAX - tick) <=? x then timeout_add a INT_MAX
   else timeout_add_ticks a (u64 (x + u64 (tick - 1)) `div` u64 tick)) =
  timeout_add a (Z.min INT_MAX (div_up x tick + 1)).
Proof.
  unfold UINT64_MAX, INT_MAX, div_up. intros Ht Hx.
  rewrite (u64_small (tick - 1)), (u64_small tick), (u64_small (18446744073709551615 - tick)) by (unfold is_u64; lia).
  destruct (Z.leb_spec (18446744073709551615 - tick) x) as [Hbig|Hfit].
  - f_equal. assert (2147483647 ≤ (x + (tick - 1)) / tick) by (apply Z.div_le_lower_bound; lia). lia.
  - rewrite u64_small by (unfold is_u64; lia). apply add_ticks_eq, Z.div_pos; lia.
Qed.

Lemma add_usec_eq tick a x : 0 < tick ≤ INT_MAX → 0 ≤ x ≤ UINT64_MAX →
  timeout_add_usec tick a x = timeout_add a (Z.min INT_MAX (div_up x tick + 1)).
Proof. apply add_rounded. Qed.
Lemma add_nsec_eq tick_nsec a x : 0 < tick_nsec ≤ INT_MAX → 0 ≤ x ≤ UINT64_MAX →
  timeout_add_nsec tick_nsec a x = timeout_add a (Z.min INT_MAX (div_up x tick_nsec + 1)).
Proof. apply add_rounded. Qed.

Lemma add_msec_eq tick a x : 0 < tick ≤ INT_MAX → 0 ≤ x ≤ UINT64_MAX →
  timeout_add_msec tick a x = timeout_add a (Z.min INT_MAX (div_up (x * 1000) tick + 1)).
Proof.
  intros Ht Hx. unfold timeout_add_msec, UINT64_MAX in *. change (18446744073709551615 `div` 1000) with 18446744073709551.
  destruct (Z.leb_spec 18446744073709551 x) as [Hbig|Hfit].
  - f_equal. unfold INT_MAX, div_up in *. assert (2147483647 ≤ (x * 1000 + (tick - 1)) / tick) by (apply Z.div_le_lower_bound; lia). lia.
  - rewrite u64_small by (unfold is_u64; lia). apply add_usec_eq; unfold UINT64_MAX; lia.
Qed.

Lemma div_up_pos x y : 0 ≤ x → 0 < y → 0 ≤ Z.min INT_MAX (div_up x y + 1) ≤ INT_MAX.
Proof. intros Hx Hy. unfold div_up. pose proof (Z.div_pos (x + (y - 1)) y). unfold INT_MAX. lia. Qed.

(** ** Steps *)

(** timeout_set and timeout_set_proc are [Set_flags] with KCLOCK_NONE; timeout_del_barrier is
    [Del] and then [Barrier], which has memory of its own, on the stack. *)
Inductive op : Type :=
| Set_flags (a : Z) (c : circq) (g : timeout) (fn arg kclock flags : Z)
| Add (a n : Z)
| Add_sec (a secs : Z)
| Add_msec (a msecs : Z)
| Add_usec (a usecs : Z)
| Add_nsec (a nsecs : Z)
| Abs_ts (a : Z) (A : timespec)
| Del (a : Z)
| Barrier (b : Z) (c : circq) (g : timeout) (handler a arg : Z)
| Hardclock (tick_ts now : timespec)
| Softclock_begin
| Softclock_turn (first : Z) (new : bool)
| Softclock_ran
| Softclock_end
| Thread_begin
| Thread_turn (ctx : timeout_ctx)
| Thread_ran (ctx : timeout_ctx)
| Adjust_ticks (adj : Z).

Section system.
Context (hz tick tick_nsec : Z).
Context (Hhz : 0 < hz ≤ INT_MAX) (Htick : 0 < tick ≤ INT_MAX) (Hnsec : 0 < tick_nsec ≤ INT_MAX).
Context (strict : bool).

Definition run_op (o : op) : KM () :=
  match o with
  | Set_flags a c g fn arg kclock flags => alloc a c g;; timeout_set_flags a fn arg kclock flags
  | Add a n => timeout_add a n;; mret tt
  | Add_sec a secs => timeout_add_sec hz a secs;; mret tt
  | Add_msec a msecs => timeout_add_msec tick a msecs;; mret tt
  | Add_usec a usecs => timeout_add_usec tick a usecs;; mret tt
  | Add_nsec a nsecs => timeout_add_nsec tick_nsec a nsecs;; mret tt
  | Abs_ts a A => timeout_abs_ts a A;; mret tt
  | Del a => timeout_del a;; mret tt
  | Barrier b c g handler a arg => (alloc b c g;; timeout_barrier handler a b arg);; mret tt
  | Hardclock tick_ts now => hardclock tick_ts now;; mret tt
  | Softclock_begin => softclock_begin;; mret tt
  | Softclock_turn first new => softclock_turn first new;; mret tt
  | Softclock_ran => softclock_ran
  | Softclock_end => softclock_end;; mret tt
  | Thread_begin => thread_begin
  | Thread_turn ctx => thread_turn ctx;; mret tt
  | Thread_ran ctx => thread_ran ctx
  | Adjust_ticks adj => timeout_adjust_ticks adj
  end.

Definition is_set (s : kstate) (a kclock : Z) : Prop := ∃ t, timeouts s !! a = Some t ∧ to_kclock t = kclock.
Definition idle (s : kstate) (a : Z) : Prop := ∀ t, timeouts s !! a = Some t → ISSET (to_flags t) TIMEOUT_ONQUEUE = false.

(** What a client owes: a timeout is set before it is used and not while it is pending, and
    times are in range.  The uptime does not go back, and [strict] asks of the clock that
    its interrupts come less than a lap of the wheel's first level apart. *)
Definition allowed (o : op) (s : kstate) : Prop :=
  match o with
  | Set_flags a c g fn arg kclock flags => idle s a ∧ valid_flags flags ∧ valid_kclock kclock ∧ is_i32 (to_time g)
  | Add a n | Add_sec a n => is_set s a KCLOCK_NONE ∧ 0 ≤ n ≤ INT_MAX
  | Add_msec a n | Add_usec a n | Add_nsec a n => is_set s a KCLOCK_NONE ∧ 0 ≤ n ≤ UINT64_MAX
  | Abs_ts a A => is_set s a KCLOCK_UPTIME ∧ good_ts A
  | Del a => is_Some (timeouts s !! a)
  | Barrier b c g handler a arg => is_Some (timeouts s !! a) ∧ idle s b ∧ b ≠ a ∧ is_i32 (to_time g)
  | Hardclock tick_ts now =>
      good_ts now ∧ nsecs (lastscan s) ≤ nsecs now ∧ (strict = true → hash now - hash (lastscan s) < 256)
  | _ => True
  end.

(** What a function that is called may do itself. *)
Definition client_call (o : op) : bool :=
  match o with
  | Set_flags _ _ _ _ _ _ _ | Add _ _ | Add_sec _ _ | Add_msec _ _ | Add_usec _ _ | Add_nsec _ _ | Abs_ts _ _ | Del _ => true
  | _ => false
  end.

Inductive reach : kstate → Prop :=
| reach_startup t0 s : is_i32 t0 → timeout_startup (boot t0) = Ret (tt, s) → reach s
| reach_op o s s' : reach s → allowed o s → run_op o s = Ret (tt, s') → reach s'.

Lemma idle_not_pending P Q s a : ok strict None P Q s → idle s a → a ∉ P.
Proof.
  intros H Hi Ha. destruct (proj1 (ok_on _ _ _ _ _ H a) Ha) as [q Hq]. destruct (ok_placed _ _ _ _ _ H q a Hq) as (t & E & _).
  pose proof (proj2 (ok_flag _ _ _ _ _ H a t E ltac:(done)) Ha) as Hf. by rewrite (Hi t E) in Hf.
Qed.

(** The invariant holds in some way. *)
Definition fine (s : kstate) : Prop := ∃ P Q, ok strict None P Q s.

Lemma runs_unit {A} (m : KM A) s : runs m s (λ _ s', fine s') → runs (m;; mret tt) s (λ _ s', fine s').
Proof. intros H. apply runs_bind. eapply runs_mono; [done|]. intros a s' Hs. by apply runs_ret. Qed.

Lemma runs_add_fine s a n : fine s → is_set s a KCLOCK_NONE → 0 ≤ n ≤ INT_MAX → runs (timeout_add a n) s (λ _ s', fine s').
Proof.
  intros (P & Q & H) (t & Et & Hk) Hn. apply (runs_timeout_add strict P Q s a t); [done..|].
  intros s' Hs' _. by eexists _, _.
Qed.

(** The calls of clients put nothing on timeout_todo. *)
Definition no_more (Q : lists) (s' : kstate) : Prop :=
  ∃ P' Q', ok strict None P' Q' s' ∧ (length (Q' timeout_todo) ≤ length (Q timeout_todo))%nat.

Lemma runs_unit_more {A} (m : KM A) Q s : runs m s (λ _ s', no_more Q s') → runs (m;; mret tt) s (λ _ s', no_more Q s').
Proof. intros H. apply runs_bind. eapply runs_mono; [done|]. intros a s' Hs. by apply runs_ret. Qed.

Lemma runs_add_no_more P Q s a n : ok strict None P Q s → is_set s a KCLOCK_NONE → 0 ≤ n ≤ INT_MAX →
  runs (timeout_add a n) s (λ _ s', no_more Q s').
Proof.
  intros H (t & Et & Hk) Hn. apply (runs_timeout_add strict P Q s a t); [done..|].
  intros s' Hs' _. eexists _, _. split; [done|]. apply todo_requeue.
Qed.

Lemma runs_client_call o P Q s : ok strict None P Q s → client_call o = true → allowed o s → runs (run_op o) s (λ _ s', no_more Q s').
Proof.
  intros H Hc. destruct o; try done; cbn [allowed run_op].
  - intros (Hi & Hfl & Hk & Hg). apply runs_bind, runs_modify, (runs_set_flags strict P Q); [done|by eapply idle_not_pending|done..|].
    intros Hok. by exists P, Q.
  - intros [Hs Hn]. by eapply runs_unit_more, runs_add_no_more.
  - intros [Hs Hn]. apply runs_unit_more. rewrite add_sec_eq by done. apply runs_bind. eapply runs_lift; [reflexivity|].
    eapply runs_add_no_more; [done..|]. unfold INT_MAX in *. nia.
  - intros [Hs Hn]. apply runs_unit_more. rewrite add_msec_eq by done. eapply runs_add_no_more; [done..|]. apply div_up_pos; lia.
  - intros [Hs Hn]. apply runs_unit_more. rewrite add_usec_eq by done. eapply runs_add_no_more; [done..|]. apply div_up_pos; lia.
  - intros [Hs Hn]. apply runs_unit_more. rewrite add_nsec_eq by done. eapply runs_add_no_more; [done..|]. apply div_up_pos; lia.
  - intros [(t & Et & Hk) HA]. apply runs_unit_more, (runs_timeout_abs_ts strict P Q s a t); [done..|]. intros s' Hs' _.
    eexists _, _. split; [done|]. apply todo_requeue.
  - intros [t Et]. apply runs_unit_more, (runs_timeout_del strict P Q s a t); [done..|]. intros s' Hs' _.
    eexists _, _. split; [done|]. apply length_without.
Qed.

Lemma handled_fine P Q s a t dest r s' : handled strict P Q s a t dest r s' → fine s'.
Proof. intros [_ H]. destruct dest; destruct H as (_ & H & _); by eexists _, _. Qed.

Lemma runs_op_fine o s : fine s → allowed o s → runs (run_op o) s (λ _ s', fine s').
Proof.
  intros Hf. pose proof Hf as (P & Q & H). destruct o; cbn [allowed run_op].
  - intros (Hi & Hfl & Hk & Hg). apply runs_bind, runs_modify, (runs_set_flags strict P Q); [done|by eapply idle_not_pending|done..|].
    intros Hok. by eexists _, _.
  - intros [Hs Hn]. by apply runs_unit, runs_add_fine.
  - intros [Hs Hn]. apply runs_unit. rewrite add_sec_eq by done. apply runs_bind. eapply runs_lift; [reflexivity|].
    apply runs_add_fine; [done..|]. unfold INT_MAX in *. nia.
  - intros [Hs Hn]. apply runs_unit. rewrite add_msec_eq by done. apply runs_add_fine; [done..|]. apply div_up_pos; lia.
  - intros [Hs Hn]. apply runs_unit. rewrite add_usec_eq by done. apply runs_add_fine; [done..|]. apply div_up_pos; lia.
  - intros [Hs Hn]. apply runs_unit. rewrite add_nsec_eq by done. apply runs_add_fine; [done..|]. apply div_up_pos; lia.
  - intros [(t & Et & Hk) HA]. apply runs_unit, (runs_timeout_abs_ts strict P Q s a t); [done..|]. intros s' Hs' _. by eexists _, _.
  - intros [t Et]. apply runs_unit, (runs_timeout_del strict P Q s a t); [done..|]. intros s' Hs' _. by eexists _, _.
  - intros ([t Et] & Hi & Hne & Hg). apply runs_unit.
    apply (runs_timeout_barrier strict P Q s a t); [done|done|by eapply idle_not_pending|done|done| |]; intros; by eexists _, _.
  - intros (Hg & Hle & Hgap). apply runs_unit, (runs_hardclock strict P Q); [done..|]. intros Q' s' Hs' _ _ _ _. by eexists _, _.
  - intros _. apply runs_unit, (runs_softclock_begin strict P Q); [done|]. intros Q' s' Hs' _ _ _. by eexists _, _.
  - intros _. apply runs_unit, (runs_softclock_turn strict P Q); [done|by intros _|]. intros a l t r s' _ _ Hh. by eapply handled_fine.
  - intros _. apply (runs_ran strict P Q); [done|]. intros s' Hs' _ _. by eexists _, _.
  - intros _. apply runs_unit, (runs_softclock_end strict P Q); [done|]. intros s' Hs' _ _. by eexists _, _.
  - intros _. apply runs_modify. exists P, Q. by apply (ok_same strict None P Q s).
  - intros _. apply runs_unit, (runs_thread_turn strict P Q); [done|by intros _|]. intros a l t s' _ _ Hs' _ _ _. by eexists _, _.
  - intros _. apply (runs_ran strict P Q); [done|]. intros s' Hs' _ _. by eexists _, _.
  - intros _. apply (runs_adjust_ticks strict P Q); [done|]. intros Q' s' Hs' _ _. by eexists _, _.
Qed.

Lemma reach_fine s : reach s → fine s.
Proof.
  induction 1 as [t0 s Ht E|o s s' Hr IH Ha E].
  - apply (runs_det _ _ tt s (λ _ s, fine s) E). apply (runs_startup strict); [done|]. intros s1 Hok _. by eexists _, _.
  - apply (runs_det _ _ tt s' (λ _ s, fine s) E). by apply runs_op_fine.
Qed.
End system.
