(* ===== verification/TimeoutLoop.v ===== *)
(** All of softclock: what a run does when the functions leave the timeouts alone, and
    that it ends whatever calls on timeouts the functions make. *)

From S2P Require Import Prelude StateMonad Circq Timeout TimeoutWheel TimeoutInv TimeoutOps TimeoutScan TimeoutAdjust TimeoutRun TimeoutSys.

(** ** A queue stands for one list *)

Lemma linked_unique m q x l1 l2 :
  linked m (x :: (Elem <$> l1) ++ [Head q]) → linked m (x :: (Elem <$> l2) ++ [Head q]) → l1 = l2.
Proof.
  revert x l2. induction l1 as [|a l1 IH]; intros x [|b l2] [[H1 _] Hl1] [[H2 _] Hl2]; cbn in *; try done.
  - rewrite H1 in H2. done.
  - rewrite H1 in H2. done.
  - rewrite H1 in H2. injection H2 as ->. f_equal. by apply (IH (Elem b)).
Qed.

Lemma queues_unique Q Q' m : queues Q m → queues Q' m → ∀ q, Q q = Q' q.
Proof.
  intros H H' q. destruct (decide (valid_queue q)) as [Hv|Hv].
  - by apply (linked_unique m q (Head q)); [apply (qs_linked _ _ H)|apply (qs_linked _ _ H')].
  - by rewrite (qs_valid _ _ H), (qs_valid _ _ H').
Qed.

Lemma filter_ext_in (p p' : Z → Prop) `{!∀ x, Decision (p x), !∀ x, Decision (p' x)} (l : list Z) :
  (∀ x, x ∈ l → p x ↔ p' x) → filter p l = filter p' l.
Proof.
  induction l as [|x l IH]; intros Hp; [done|]. rewrite !filter_cons, IH by (intros y Hy; apply Hp; by right).
  assert (p x ↔ p' x) by (apply Hp; left). repeat case_decide; tauto.
Qed.

(** ** Where the timeouts of a state go *)

Definition dest (s : kstate) (a : Z) : option (option queue) := destination (ticks s) (lastscan s) <$> timeouts s !! a.

Lemma destination_work now last t q : destination now last t = Some q → q ≠ timeout_todo ∧ q ≠ timeout_new.
Proof. unfold destination, thread_queue. intros H. repeat case_match; simplify_eq; done. Qed.

Lemma no_work s l q : q = timeout_todo ∨ q = timeout_new → filter (λ a, dest s a = Some (Some q)) l = [].
Proof.
  intros Hq. induction l as [|a l IH]; [done|]. rewrite filter_cons_False; [done|]. unfold dest.
  intros (t & _ & Ht)%fmap_Some. symmetry in Ht. apply destination_work in Ht. naive_solver.
Qed.

(** Functions that do nothing to the timeouts. *)
Definition quiet (fn arg : Z) : KM () := mret tt.

(** The queues and the timeouts after a list of timeouts has been gone through. *)
Definition went (s : kstate) (work : list Z) (Q Q' : lists) : Prop :=
  ∀ q, Q' q = if decide (q = timeout_todo) then [] else Q q ++ filter (λ a, dest s a = Some (Some q)) work.
Definition ran (s : kstate) (work : list Z) (s' : kstate) : Prop :=
  ∀ a, timeouts s' !! a =
    if decide (a ∈ work ∧ dest s a = Some None) then triggered <$> timeouts s !! a else timeouts s !! a.

(** The first timeout and then the rest: [s1] is the state in between. *)
Section first.
Context (s s1 : kstate) (a : Z) (l : list Z) (d : option queue).
Context (Hd : dest s a = Some d) (Hal : a ∉ l) (Hrest : ∀ b, b ∈ l → dest s1 b = dest s b).

Lemma went_first Q Q1 Q' :
  (∀ q, q ≠ timeout_todo → Q1 q = Q q ++ (if decide (d = Some q) then [a] else [])) → went s1 l Q1 Q' → went s (a :: l) Q Q'.
Proof.
  intros HQ1 Hw q. rewrite Hw. case_decide as Hq; [done|].
  rewrite HQ1, (filter_ext_in _ (λ a, dest s a = Some (Some q))) by (done || intros b Hb; by rewrite Hrest).
  rewrite filter_cons, Hd, <-app_assoc. f_equal. repeat case_decide; congruence || done.
Qed.

Lemma ran_first s' :
  (∀ b, b ≠ a → timeouts s1 !! b = timeouts s !! b) →
  timeouts s1 !! a = (if decide (d = None) then triggered <$> timeouts s !! a else timeouts s !! a) →
  ran s1 l s' → ran s (a :: l) s'.
Proof.
  intros Hother Ha Hr b. rewrite Hr. destruct (decide (b = a)) as [->|Hne].
  - rewrite decide_False by (by intros [? _]). rewrite Ha. apply decide_ext. rewrite Hd.
    split; [intros ->; split; [left|done]|intros [_ [=]]; done].
  - rewrite Hother by done. apply decide_ext. rewrite elem_of_cons. split; [intros [Hb Hdb]; rewrite Hrest in Hdb by done; tauto|].
    intros [[?|Hb] Hdb]; [done|]. by rewrite Hrest.
Qed.

Lemma filter_first : filter (λ b, dest s b = Some None) (a :: l) =
  (if decide (d = None) then [a] else []) ++ filter (λ b, dest s1 b = Some None) l.
Proof.
  rewrite (filter_ext_in (λ b, dest s1 b = Some None) (λ b, dest s b = Some None) l) by (intros b Hb; by rewrite Hrest).
  rewrite filter_cons, Hd. repeat case_decide; congruence || done.
Qed.
End first.

Lemma dest_same s s1 a (l : list Z) : same_clock s s1 → (∀ b, b ≠ a → timeouts s1 !! b = timeouts s !! b) → a ∉ l →
  ∀ b, b ∈ l → dest s1 b = dest s b.
Proof. intros [H1 H2] H3 Ha b Hb. unfold dest, lastscan. rewrite H1, H2, H3; [done|]. by intros ->. Qed.

Lemma same_clock_trans s1 s2 s3 : same_clock s1 s2 → same_clock s2 s3 → same_clock s1 s3.
Proof. intros [] []. split; congruence. Qed.

Section quiet.
Context (strict : bool).

Lemma runs_loop_quiet fuel P Q s first new done_ work (R : list Z → kstate → Prop) :
  ok strict None P Q s → Q timeout_todo = work → (length work < fuel)%nat →
  (∀ P' Q' s', ok strict None P' Q' s' → went s work Q Q' → ran s work s' → same_clock s s' →
    R (done_ ++ filter (λ a, dest s a = Some None) work) s') →
  runs (softclock_loop quiet fuel first new done_) s R.
Proof.
  revert P Q s new done_ work R. induction fuel as [|fuel IH]; intros P Q s new done_ work R H Ew Hf HR; [lia|].
  apply runs_bind, (runs_softclock_turn strict P Q); [done| |].
  - intros E. rewrite <-Ew, E in HR. apply runs_ret. rewrite <-(app_nil_r done_).
    apply (HR P Q); [done| | |done].
    + intros q. case_decide; [by subst|by rewrite app_nil_r].
    + intros a. rewrite decide_False; [done|]. by intros [?%elem_of_nil _].
  - intros a l t r s1 E Et [Hclock Hh]. assert (work = a :: l) as -> by congruence. cbn [length] in Hf.
    pose proof (qs_nodup _ _ (ok_queues _ _ _ _ _ H) timeout_todo) as Hnd. rewrite E in Hnd. apply NoDup_cons in Hnd as [Hal _].
    assert (∀ q, without a Q q = if decide (q = timeout_todo) then l else Q q) as Ewi.
    { intros q. rewrite (without_put Q _ timeout_todo [] a l q (ok_queues _ _ _ _ _ H) E). reflexivity. }
    assert (dest s a = Some (destination (ticks s) (lastscan s) t)) as Ed by (unfold dest; by rewrite Et).
    destruct (destination (ticks s) (lastscan s) t) as [q0|] eqn:Edest.
    + destruct Hh as (-> & Hok & Eto). pose proof (destination_work _ _ _ _ Edest) as [Hq0 _].
      assert (∀ b, b ≠ a → timeouts s1 !! b = timeouts s !! b) as Hother by (intros; by rewrite Eto).
      pose proof (dest_same _ _ _ _ Hclock Hother Hal) as Hd.
      apply (IH _ _ s1 _ _ l _ Hok); [unfold append; rewrite put_ne, Ewi, decide_True by done; done|lia|].
      intros P' Q' s' Hok' Hwent Hran Hc. pose proof (filter_first s s1 a l _ Ed Hd) as Efl.
      rewrite decide_False in Efl by done. cbn [app] in Efl. rewrite <-Efl.
      apply (HR P' Q'); [done| | |by eapply same_clock_trans].
      * eapply went_first; [done|exact Hd| |exact Hwent]. intros q Hq. unfold append. destruct (decide (q = q0)) as [->|Hne].
        -- by rewrite put_eq, Ewi, decide_False, decide_True by done.
        -- rewrite put_ne, Ewi, !decide_False by congruence. by rewrite app_nil_r.
      * eapply ran_first; [done|exact Hal|exact Hd|done|by rewrite Eto|done].
    + destruct Hh as (-> & Hok & Eto & _).
      apply runs_bind, (runs_get_to _ _ (triggered t)); [rewrite Eto; apply lookup_insert_eq|].
      apply runs_bind, runs_ret, runs_bind, (runs_ran strict (P ∖ {[a]}) (without a Q)); [done|]. intros s2 Hok2 Eto2 Hc2.
      pose proof (same_clock_trans _ _ _ Hclock Hc2) as Hclock2.
      assert (∀ b, b ≠ a → timeouts s2 !! b = timeouts s !! b) as Hother by (intros; by rewrite Eto2, Eto, lookup_insert_ne).
      pose proof (dest_same _ _ _ _ Hclock2 Hother Hal) as Hd.
      apply (IH _ _ s2 _ _ l _ Hok2); [by rewrite Ewi, decide_True|lia|].
      intros P' Q' s' Hok' Hwent Hran Hc. pose proof (filter_first s s2 a l _ Ed Hd) as Efl.
      rewrite decide_True in Efl by done. rewrite <-app_assoc, <-Efl.
      apply (HR P' Q'); [done| | |by eapply same_clock_trans].
      * eapply went_first; [done|exact Hd| |exact Hwent]. intros q Hq. rewrite Ewi, !decide_False by done. by rewrite app_nil_r.
      * eapply ran_first; [done|exact Hal|exact Hd|done| |done]. rewrite decide_True by done. by rewrite Eto2, Eto, lookup_insert_eq, Et.
Qed.

(** A whole run. *)
Lemma runs_softclock_quiet fuel P Q s (R : list Z * (bool * bool) → kstate → Prop) :
  let work := Q timeout_todo ++ Q timeout_new in
  ok strict None P Q s → (length work < fuel)%nat →
  (∀ P' Q' s', ok strict None P' Q' s' →
    (∀ q, Q' q = if decide (q = timeout_todo ∨ q = timeout_new) then [] else Q q ++ filter (λ a, dest s a = Some (Some q)) work) →
    ran s work s' → same_clock s s' →
    R (filter (λ a, dest s a = Some None) work, (negb (bool_decide (Q' timeout_proc = [])), negb (bool_decide (Q' timeout_proc_mp = [])))) s') →
  runs (softclock quiet fuel) s R.
Proof.
  intros work H Hf HR. apply runs_bind, (runs_softclock_begin strict P Q); [done|]. intros Q1 s1 H1 EQ1 Eto Hc.
  assert (dest s1 = dest s) as Ed by (unfold dest, lastscan; destruct Hc as [-> ->]; by rewrite Eto).
  apply runs_bind, (runs_loop_quiet fuel P Q1 s1 _ _ _ work); [done|by rewrite EQ1; unfold concat; rewrite put_eq|done|].
  intros P2 Q2 s2 H2 Hwent Hran Hc2. unfold went, ran in *. rewrite Ed, Eto in *.
  apply runs_bind, (runs_softclock_end strict P2 Q2); [done|]. intros s3 H3 Eto3 Hc3. apply runs_ret, (HR P2 Q2).
  - done.
  - intros q. rewrite Hwent, EQ1. unfold concat. destruct (decide (q = timeout_todo)) as [->|Ht]; [by rewrite decide_True by auto|].
    rewrite put_ne by done. destruct (decide (q = timeout_new)) as [->|Hn].
    + rewrite put_eq, decide_True by auto. apply no_work. auto.
    + by rewrite put_ne, decide_False by tauto.
  - intros a. rewrite Eto3. apply Hran.
  - eapply same_clock_trans; [exact Hc|]. by eapply same_clock_trans.
Qed.
End quiet.

(** ** Functions that use timeouts *)

(** What the loop relies on: a function returns, keeps the invariant and puts nothing on
    timeout_todo; the calls on timeouts do that, but for timeout_barrier, which is made by
    other threads. *)
Class Handlers (strict : bool) (call : Z → Z → KM ()) : Prop :=
  handler_keeps fn arg P Q s : ok strict None P Q s →
    runs (call fn arg) s (λ _ s', ∃ P' Q', ok strict None P' Q' s' ∧
      (length (Q' timeout_todo) ≤ length (Q timeout_todo))%nat).

#[export] Instance quiet_handlers strict : Handlers strict quiet.
Proof. intros fn arg P Q s H. apply runs_ret. by exists P, Q. Qed.

#[export] Instance is_set_dec s a k : Decision (is_set s a k).
Proof.
  unfold is_set. destruct (timeouts s !! a) as [t|] eqn:E.
  - destruct (decide (to_kclock t = k)) as [H|H]; [left; by exists t|right]. intros (u & [= <-] & ?). done.
  - right. by intros (u & ? & _).
Defined.
#[export] Instance idle_dec s a : Decision (idle s a).
Proof.
  unfold idle. destruct (timeouts s !! a) as [t|] eqn:E.
  - destruct (decide (ISSET (to_flags t) TIMEOUT_ONQUEUE = false)) as [H|H]; [left; by intros u [= <-]|right].
    intros Hu. by apply H, Hu.
  - left. by intros u.
Defined.
#[export] Instance good_ts_dec t : Decision (good_ts t).
Proof. unfold good_ts. apply _. Defined.
#[export] Instance valid_flags_dec f : Decision (valid_flags f).
Proof. unfold valid_flags. apply _. Defined.
#[export] Instance valid_kclock_dec k : Decision (valid_kclock k).
Proof. unfold valid_kclock. apply _. Defined.
#[export] Instance allowed_dec strict o s : Decision (allowed strict o s).
Proof. destruct o; cbn [allowed]; apply _. Defined.

(** Functions that make any calls on timeouts that the rules of [allowed] permit, each
    decided from the state it is made in; a call against the rules is left out. *)
Section functions.
Context (hz tick tick_nsec : Z).
Context (Hhz : 0 < hz ≤ INT_MAX) (Htick : 0 < tick ≤ INT_MAX) (Hnsec : 0 < tick_nsec ≤ INT_MAX).
Context (strict : bool).

Fixpoint script (l : list (kstate → op)) : KM () :=
  match l with
  | [] => mret tt
  | f :: l =>
      o ← gets f;
      ok ← gets (λ s, client_call o && bool_decide (allowed strict o s));
      (if (ok : bool) then run_op hz tick tick_nsec o else mret tt);;
      script l
  end.
Definition functions (prog : Z → Z → list (kstate → op)) (fn arg : Z) : KM () := script (prog fn arg).

Lemma runs_script l P Q s : ok strict None P Q s → runs (script l) s (λ _ s', no_more strict Q s').
Proof using Hhz Htick Hnsec.
  revert P Q s. induction l as [|f l IH]; intros P Q s H; cbn [script]; [apply runs_ret; by exists P, Q|].
  apply runs_bind, runs_gets, runs_bind, runs_gets. apply runs_bind.
  destruct (client_call (f s) && bool_decide (allowed strict (f s) s)) eqn:E; [|apply runs_ret; by eapply IH].
  apply andb_prop in E as [Ec Ea%bool_decide_eq_true]. eapply runs_mono; [by eapply runs_client_call|].
  intros u s1 (P1 & Q1 & H1 & Hl1). eapply runs_mono; [by eapply IH|]. intros u' s2 (P2 & Q2 & H2 & Hl2).
  exists P2, Q2. split; [done|]. lia.
Qed.

Lemma functions_handlers prog : Handlers strict (functions prog).
Proof using Hhz Htick Hnsec. intros fn arg P Q s H. by eapply runs_script. Qed.
End functions.

Section handlers.
Context (strict : bool) (call : Z → Z → KM ()) `{!Handlers strict call}.

(** Every turn takes a timeout off, and nothing puts one on. *)
Lemma runs_loop_ends fuel P Q s first new done_ : ok strict None P Q s → (length (Q timeout_todo) < fuel)%nat →
  runs (softclock_loop call fuel first new done_) s (λ _ s', ∃ P' Q', ok strict None P' Q' s' ∧ Q' timeout_todo = []).
Proof.
  revert P Q s new done_. induction fuel as [|fuel IH]; intros P Q s new done_ H Hf; [lia|].
  apply runs_bind, (runs_softclock_turn strict P Q); [done|intros E; apply runs_ret; by exists P, Q|].
  intros a l t r s1 E Et [_ Hh]. rewrite E in Hf. cbn [length] in Hf.
  assert (without a Q timeout_todo = l) as Ew by (eapply without_first; [apply H|done]).
  destruct (destination (ticks s) (lastscan s) t) as [q0|] eqn:Ed.
  - destruct Hh as (-> & Hok & _). apply (IH _ _ s1 _ _ Hok). unfold append.
    rewrite put_ne by (apply not_eq_sym; by eapply destination_work). rewrite Ew. lia.
  - destruct Hh as (-> & Hok & Eto & _).
    apply runs_bind, (runs_get_to _ _ (triggered t)); [rewrite Eto; apply lookup_insert_eq|].
    apply runs_bind. eapply runs_mono; [by apply (handler_keeps _ _ _ _ _ Hok)|]. intros u s2 (P2 & Q2 & H2 & Hlen).
    apply runs_bind, (runs_ran strict P2 Q2); [done|]. intros s3 H3 _ _. apply (IH P2 Q2); [done|]. rewrite Ew in Hlen. lia.
Qed.

Lemma length_work P Q s : ok strict None P Q s → (length (Q timeout_todo ++ Q timeout_new) ≤ size (timeouts s))%nat.
Proof.
  intros H. pose proof (runs_softclock_begin strict P Q s
    (λ _ _, (length (Q timeout_todo ++ Q timeout_new) ≤ size (timeouts s))%nat) H) as (u & s' & _ & Hr); [|exact Hr].
  intros Q' s1 H1 E Eto _. rewrite <-Eto. etrans; [|by apply (length_bucket strict P Q' s1 timeout_todo)].
  rewrite E. unfold concat. by rewrite put_eq.
Qed.

Lemma runs_softclock_ends P Q s : ok strict None P Q s →
  runs (softclock call (S (size (timeouts s)))) s (λ _ s', ∃ P' Q', ok strict None P' Q' s' ∧ Q' timeout_todo = []).
Proof.
  intros H. pose proof (length_work P Q s H) as Hlen.
  apply runs_bind, (runs_softclock_begin strict P Q); [done|]. intros Q1 s1 H1 EQ1 Eto Hc.
  apply runs_bind. eapply runs_mono; [apply (runs_loop_ends _ P Q1 s1); [done|]|].
  - rewrite EQ1. unfold concat. rewrite put_eq. lia.
  - intros l s2 (P2 & Q2 & H2 & E2). apply runs_bind, (runs_softclock_end strict P2 Q2); [done|]. intros s3 H3 _ _. apply runs_ret. by exists P2, Q2.
Qed.
End handlers.

(** ** Due timeouts *)

(** In a wheel no timeout is due. *)
Lemma wheel_not_due P Q s q a t : ok true None P Q s → a ∈ Q q → timeouts s !! a = Some t → due (ticks s) (lastscan s) t = true →
  q = timeout_new ∨ q = timeout_todo ∨ (ISSET (to_flags t) TIMEOUT_PROC = true ∧ q = thread_queue t).
Proof.
  intros H Hq Et Hdue. destruct (ok_placed _ _ _ _ _ H q a Hq) as (u & Eu & Hp). simplify_eq.
  pose proof (in_valid _ _ _ _ (ok_queues _ _ _ _ _ H) Hq) as Hv. destruct (Hp ltac:(done)) as [Hw Hpl]. unfold thread_queue.
  destruct q as [| | | |b|b]; cbn in Hv; [by left|by right; left| | | |]; right; right.
  - destruct Hpl as [-> ->]. done.
  - destruct Hpl as [-> ->]. done.
  - destruct Hpl as [Hk Hle]. pose proof (next_dump_pos b (ticks s) ltac:(lia)). unfold due in Hdue. rewrite Hk, Z.eqb_refl in Hdue.
    apply Z.leb_le in Hdue. lia.
  - destruct Hpl as [Hk Hs]. destruct (Hs eq_refl) as (A & HA & Hle). unfold due in Hdue. rewrite Hk in Hdue.
    change (KCLOCK_UPTIME =? KCLOCK_NONE) with false in Hdue. cbn in Hdue. apply negb_true_iff in Hdue.
    pose proof (timespec_lt_nsecs (lastscan s) (to_abstime t) (ok_scan _ _ _ _ _ H) (Hw Hk)) as Hlt. rewrite Hdue in Hlt.
    assert (false = true) by (apply Hlt; pose proof (kw_later _ _ _ HA); lia). done.
Qed.

Lemma due_destination s a t : timeouts s !! a = Some t → due (ticks s) (lastscan s) t = true →
  dest s a = Some (if ISSET (to_flags t) TIMEOUT_PROC then Some (thread_queue t) else None).
Proof. intros E Hd. unfold dest, destination. rewrite E. cbn. by rewrite Hd. Qed.

(** What runs at once is due. *)
Lemma dest_now s a t : timeouts s !! a = Some t → dest s a = Some None → due (ticks s) (lastscan s) t = true ∧ ISSET (to_flags t) TIMEOUT_PROC = false.
Proof.
  intros E. unfold dest, destination. rewrite E. cbn. intros [= Hd]. destruct (due _ _ t); [|by case_match].
  destruct (ISSET (to_flags t) TIMEOUT_PROC); done.
Qed.
