(* ===== verification/TimeoutProps.v ===== *)
(** The properties of the timeouts. *)

From S2P Require Import Prelude StateMonad Circq Timeout TimeoutWheel TimeoutInv TimeoutOps TimeoutScan TimeoutAdjust TimeoutRun.
From S2P Require Import TimeoutSys TimeoutLoop.

(** ** Concrete runs *)

Section demo.
Context (strict : bool).

(** 100 ticks per second. *)
Definition demo_op : op → KM () := run_op 100 10000 10000000.
Definition demo_reach : kstate → Prop := reach 100 10000 10000000 strict.

Fixpoint steps (l : list op) (s : kstate) : option kstate :=
  match l with
  | [] => Some s
  | o :: l =>
      if decide (allowed strict o s) then
        match demo_op o s with Ret (_, s') => steps l s' | Fault _ => None end
      else None
  end.

Lemma steps_reach l s s' : demo_reach s → steps l s = Some s' → demo_reach s'.
Proof.
  revert s. induction l as [|o l IH]; intros s H E; cbn in E; [by simplify_eq|]. case_decide as Ha; [|done].
  destruct (demo_op o s) as [[[] s1]|f] eqn:Eo; [|done]. apply (IH s1); [|done]. by apply (reach_op _ _ _ _ o s).
Qed.

Definition demo_run (l : list op) : option kstate :=
  match timeout_startup (boot 0) with Ret (_, s) => steps l s | Fault _ => None end.
Definition demo (l : list op) : kstate := default (boot 0) (demo_run l).

Lemma demo_reached l : (if demo_run l then true else false) = true → demo_reach (demo l).
Proof.
  unfold demo. destruct (demo_run l) as [s|] eqn:E; [|done]. intros _. cbn. unfold demo_run in E.
  destruct (timeout_startup (boot 0)) as [[[] s0]|f] eqn:E0; [|done]. assert (is_i32 0) as H0 by (unfold is_i32; lia).
  exact (steps_reach l s0 s (reach_startup 100 10000 10000000 strict 0 s0 H0 E0) E).
Qed.
End demo.

(** Memory with nothing in it. *)
Definition cell0 : circq := Circq Null Null.
Definition timeout0 : timeout := Timeout zero_ts 0 0 0 0 0.
Definition ms (n : Z) : timespec := Timespec (n / 1000) (n mod 1000 * 1000000).

(** A timeout of a thread is handed to it ... *)
Definition readd_wait : list op :=
  [Set_flags 1 cell0 timeout0 7 1 KCLOCK_NONE TIMEOUT_PROC; Add 1 1; Hardclock (ms 10) (ms 10); Softclock_begin;
   Softclock_turn 1 false; Softclock_end].
(** ... and then added again for later. *)
Definition readd_demo : list op := readd_wait ++ [Add 1 1000].
(** A timeout on the uptime, with 1.993 seconds from one scan to the next. *)
Definition gap_demo : list op :=
  [Hardclock (ms 10) (ms 7); Set_flags 2 cell0 timeout0 8 2 KCLOCK_UPTIME 0; Abs_ts 2 (ms 1000); Softclock_begin;
   Softclock_turn 2 false; Softclock_end].
Definition mixed_demo : list op :=
  [Set_flags 1 cell0 timeout0 7 1 KCLOCK_NONE TIMEOUT_PROC; Set_flags 2 cell0 timeout0 8 2 KCLOCK_UPTIME 0;
   Set_flags 3 cell0 timeout0 9 3 KCLOCK_NONE 0; Add 1 1; Abs_ts 2 (ms 15); Add_msec 3 25; Softclock_begin;
   Softclock_turn 1 false; Softclock_turn 1 true; Softclock_turn 1 true; Softclock_end].

Lemma readd_wait_reached : demo_reach true (demo true readd_wait).
Proof. apply demo_reached. by vm_compute. Qed.
Lemma readd_demo_reached : demo_reach true (demo true readd_demo).
Proof. apply demo_reached. by vm_compute. Qed.
Lemma gap_demo_reached : demo_reach false (demo false gap_demo).
Proof. apply demo_reached. by vm_compute. Qed.
Lemma mixed_demo_reached : demo_reach true (demo true mixed_demo).
Proof. apply demo_reached. by vm_compute. Qed.

(** ** The timeouts of a state *)

Definition pending (s : kstate) (a : Z) : Prop := ∃ t, timeouts s !! a = Some t ∧ ISSET (to_flags t) TIMEOUT_ONQUEUE = true.
Definition count_pending (s : kstate) : nat :=
  size (filter (λ p, ISSET (to_flags p.2) TIMEOUT_ONQUEUE = true) (timeouts s)).

Lemma ok_count strict P Q s : ok strict None P Q s → count_pending s = size P.
Proof.
  intros H. unfold count_pending. rewrite <-(size_dom (D := gset Z)). f_equal. apply set_eq. intros a. rewrite elem_of_dom. split.
  - intros [t [E Hf]%map_lookup_filter_Some]. by apply (ok_flag _ _ _ _ _ H a t E).
  - intros Ha. destruct (proj1 (ok_on _ _ _ _ _ H a) Ha) as [q Hq]. destruct (ok_placed _ _ _ _ _ H q a Hq) as (t & E & _).
    exists t. apply map_lookup_filter_Some. split; [done|]. by apply (ok_flag _ _ _ _ _ H a t E).
Qed.

Lemma ok_pending_iff strict P Q s a : ok strict None P Q s → pending s a ↔ ∃ q, a ∈ Q q.
Proof.
  intros H. rewrite <-(ok_on _ _ _ _ _ H). split; [intros (t & E & Hf); by apply (ok_flag _ _ _ _ _ H a t E)|].
  intros Ha. destruct (proj1 (ok_on _ _ _ _ _ H a) Ha) as [q Hq]. destruct (ok_placed _ _ _ _ _ H q a Hq) as (t & E & _).
  exists t. split; [done|]. by apply (ok_flag _ _ _ _ _ H a t E).
Qed.

Section props.
Context (hz tick tick_nsec : Z).
Context (Hhz : 0 < hz ≤ INT_MAX) (Htick : 0 < tick ≤ INT_MAX) (Hnsec : 0 < tick_nsec ≤ INT_MAX).
Context (strict : bool).

(** C17: from timeout_startup on, whatever calls clients make that set a timeout before they
    use it and not while it is pending, in any order with the interrupts of the clock, the
    turns of softclock and of its threads, no call faults or fails an assertion, the queues
    are circular lists with right links, every pending timeout is on exactly one of them
    and no other is on any, and tos_pending is their number. *)
Theorem timeouts_safe s : reach hz tick tick_nsec strict s →
  (∃ Q, queues Q (c_mem (circ s)) ∧ (∀ a, pending s a ↔ ∃ q, a ∈ Q q)) ∧
  tos_pending (circ s) = u64 (Z.of_nat (count_pending s)) ∧
  (∀ o, allowed strict o s → ∃ s', run_op hz tick tick_nsec o s = Ret (tt, s')).
Proof.
  intros Hr. pose proof (reach_fine hz tick tick_nsec Hhz Htick Hnsec strict s Hr) as Hf. destruct Hf as (P & Q & H).
  split_and!.
  - exists Q. split; [apply H|]. intros a. by apply (ok_pending_iff strict P Q).
  - rewrite (ok_count strict P Q s H). apply H.
  - intros o Ha. destruct (runs_op_fine hz tick tick_nsec Hhz Htick Hnsec strict o s) as ([] & s' & E & _); [by exists P, Q|done|].
    by exists s'.
Qed.

(** C18: no timeout is early on softclock and none is late: when the interrupts of the clock
    come less than two seconds apart, the interrupt at a tick followed by a run of softclock
    with functions that leave the timeouts alone calls the function of a pending timeout
    only if it is due, and of every one that is due, unless that needs a process: then the
    timeout is on the queue of the right thread, which is woken.  The interrupt asks for
    softclock when any pending timeout is due, one that needs a process included, unless
    the timeout is on the queue of its thread already. *)
Theorem timeouts_on_time s tick_ts now : reach hz tick tick_nsec true s → allowed true (Hardclock tick_ts now) s →
  ∃ need s1 l wake s2, hardclock tick_ts now s = Ret (need, s1) ∧
    softclock quiet (S (size (timeouts s1))) s1 = Ret ((l, wake), s2) ∧
    (∀ a t, timeouts s1 !! a = Some t → ISSET (to_flags t) TIMEOUT_ONQUEUE = true → due (ticks s1) now t = true →
       need = true ∨
       ISSET (to_flags t) TIMEOUT_PROC = true ∧ ∃ Q, queues Q (c_mem (circ s1)) ∧ a ∈ Q (thread_queue t)) ∧
    ∀ a t, timeouts s1 !! a = Some t → ISSET (to_flags t) TIMEOUT_ONQUEUE = true →
      if ISSET (to_flags t) TIMEOUT_PROC then
        a ∉ l ∧ (due (ticks s1) now t = true →
          (∃ Q, queues Q (c_mem (circ s2)) ∧ a ∈ Q (thread_queue t)) ∧
          (if ISSET (to_flags t) TIMEOUT_MPSAFE then wake.2 else wake.1) = true)
      else a ∈ l ↔ due (ticks s1) now t = true.
Proof.
  intros Hr (Hg & Hle & Hgap). destruct (reach_fine hz tick tick_nsec Hhz Htick Hnsec true s Hr) as (P & Q & H).
  destruct (runs_hardclock true P Q s tick_ts now (λ need s1, lastscan s1 = now ∧ ∃ Q1, ok true None P Q1 s1 ∧
    need = negb (bool_decide (Q1 timeout_new = [])) || negb (bool_decide (Q1 timeout_todo = []))))
    as (need & s1 & E1 & Els & Q1 & H1 & ->); [done..|intros; split; [done|eexists; by split]|].
  destruct (runs_softclock_quiet true (S (size (timeouts s1))) P Q1 s1 (λ r s2, ∃ P2 Q2, ok true None P2 Q2 s2 ∧
    r = (filter (λ a, dest s1 a = Some None) (Q1 timeout_todo ++ Q1 timeout_new),
         (negb (bool_decide (Q2 timeout_proc = [])), negb (bool_decide (Q2 timeout_proc_mp = [])))) ∧
    ∀ q, Q2 q = if decide (q = timeout_todo ∨ q = timeout_new) then []
                else Q1 q ++ filter (λ a, dest s1 a = Some (Some q)) (Q1 timeout_todo ++ Q1 timeout_new)))
    as (r & s2 & E2 & P2 & Q2 & H2 & -> & EQ2); [done|pose proof (length_work true P Q1 s1 H1); lia|by intros; eexists _, _|].
  set (work := Q1 timeout_todo ++ Q1 timeout_new) in *.
  eexists _, s1, _, _, s2. split; [exact E1|]. split; [exact E2|]. split.
  { rewrite <-Els. intros a t Et Hf Hdue. destruct (proj1 (ok_pending_iff true P Q1 s1 a H1)) as [q Hq]; [by exists t|].
    destruct (wheel_not_due P Q1 s1 q a t H1 Hq Et Hdue) as [-> |[-> |[Hp ->]]].
    - left. by destruct (Q1 timeout_new); [apply elem_of_nil in Hq|].
    - left. destruct (Q1 timeout_todo); [by apply elem_of_nil in Hq|]. apply orb_true_r.
    - right. split; [done|]. exists Q1. split; [apply H1|done]. }
  rewrite <-Els. intros a t Et Hf. destruct (proj1 (ok_pending_iff true P Q1 s1 a H1)) as [q Hq]; [by exists t|].
  pose proof (wheel_not_due P Q1 s1 q a t H1 Hq Et) as Hnot. pose proof (due_destination s1 a t Et) as Hdd.
  destruct (ISSET (to_flags t) TIMEOUT_PROC) eqn:Ep.
  - split; [intros [Hd _]%list_elem_of_filter; apply (dest_now s1 a t Et) in Hd; destruct Hd; congruence|]. intros Hdue. specialize (Hdd Hdue).
    assert (a ∈ Q2 (thread_queue t)) as Hin.
    { rewrite EQ2, decide_False by (unfold thread_queue; case_match; naive_solver). apply elem_of_app.
      destruct (Hnot Hdue) as [-> |[-> |[_ ->]]]; [right|right|by left]; apply list_elem_of_filter; (split; [done|]); set_solver. }
    split; [exists Q2; split; [apply H2|done]|]. unfold thread_queue in Hin.
    destruct (ISSET (to_flags t) TIMEOUT_MPSAFE); cbn; apply negb_true_iff, bool_decide_eq_false_2; intros E; rewrite E in Hin; by apply elem_of_nil in Hin.
  - rewrite list_elem_of_filter. split; [intros [Hd _]; by apply (dest_now s1 a t Et) in Hd as [? _]|]. intros Hdue. split; [by apply Hdd|].
    destruct (Hnot Hdue) as [-> |[-> |[? _]]]; [set_solver..|done].
Qed.

(** C19: a run of softclock with functions that leave the timeouts alone goes through the
    timeouts of timeout_todo and then the new ones, in their order: it calls the functions
    of those that are due and need no process, adds the due ones that need one to the end
    of their thread's queue and the others to the end of the bucket of their wheel, and
    says which threads to wake.  The timeouts that ran are marked triggered and not pending,
    the others are as they were. *)
Theorem softclock_in_order s Q : reach hz tick tick_nsec strict s → queues Q (c_mem (circ s)) →
  let work := Q timeout_todo ++ Q timeout_new in
  ∃ Q' s', softclock quiet (S (size (timeouts s))) s =
      Ret ((filter (λ a, dest s a = Some None) work,
            (negb (bool_decide (Q' timeout_proc = [])), negb (bool_decide (Q' timeout_proc_mp = [])))), s') ∧
    queues Q' (c_mem (circ s')) ∧
    (∀ q, Q' q = if decide (q = timeout_todo ∨ q = timeout_new) then []
                 else Q q ++ filter (λ a, dest s a = Some (Some q)) work) ∧
    (∀ a, timeouts s' !! a = if decide (a ∈ work ∧ dest s a = Some None) then triggered <$> timeouts s !! a
                             else timeouts s !! a).
Proof.
  intros Hr HQ work. destruct (reach_fine hz tick tick_nsec Hhz Htick Hnsec strict s Hr) as (P & Q0 & H0).
  assert (ok strict None P Q s) as H by (apply (ok_ext strict None P Q0); [by apply (queues_unique _ _ _ HQ), H0|done]).
  destruct (runs_softclock_quiet strict (S (size (timeouts s))) P Q s (λ r s', ∃ P' Q', ok strict None P' Q' s' ∧
    r = (filter (λ a, dest s a = Some None) work,
         (negb (bool_decide (Q' timeout_proc = [])), negb (bool_decide (Q' timeout_proc_mp = [])))) ∧
    (∀ q, Q' q = if decide (q = timeout_todo ∨ q = timeout_new) then [] else Q q ++ filter (λ a, dest s a = Some (Some q)) work) ∧
    ran s work s'))
    as (r & s' & E & P' & Q' & H' & -> & EQ' & Hran); [done|pose proof (length_work strict P Q s H); lia|by intros; eexists _, _|].
  exists Q', s'. split; [exact E|]. split; [apply H'|]. done.
Qed.

(** C20: a run of softclock ends whatever calls on timeouts the functions make: [prog] says
    for each function and argument which calls it makes, any number of settings, additions
    (of its own timeout too, and for no time at all) and deletions, each decided from the
    state it is made in, and made if the rules for clients permit it.  At most as many turns
    are made as there were timeouts, and then timeout_todo is empty; no turn faults.  Other
    steps of the kernel do not come in between. *)
Theorem softclock_ends prog s : reach hz tick tick_nsec strict s →
  ∃ r s' Q', softclock (functions hz tick tick_nsec strict prog) (S (size (timeouts s))) s = Ret (r, s') ∧
    queues Q' (c_mem (circ s')) ∧ Q' timeout_todo = [].
Proof.
  intros Hr. destruct (reach_fine hz tick tick_nsec Hhz Htick Hnsec strict s Hr) as (P & Q & H).
  pose proof (functions_handlers hz tick tick_nsec Hhz Htick Hnsec strict prog) as Hh.
  destruct (runs_softclock_ends strict _ P Q s H) as (r & s' & E & P' & Q' & H' & E').
  exists r, s', Q'. split; [done|]. split; [apply H'|done].
Qed.

(** C21: a timeout that waits on the queue of its thread is not moved when it is added again
    for a later time: whatever the number of ticks, once it is first on the queue its
    function is called in the next turn of the thread, all of those ticks too early. *)
Theorem timeout_readd_runs_now s ctx Q a l t n :
  reach hz tick tick_nsec strict s → queues Q (c_mem (circ s)) → Q (tctx_todo ctx) = a :: l →
  timeouts s !! a = Some t → to_kclock t = KCLOCK_NONE → 0 ≤ n ≤ INT_MAX → i32 (to_time t - ticks s) ≤ n →
  ∃ s1 s2 t2, timeout_add a n s = Ret (0, s1) ∧ thread_turn ctx s1 = Ret (Some a, s2) ∧
    timeouts s2 !! a = Some t2 ∧ i32 (to_time t2 - ticks s2) = n.
Proof.
  intros Hr HQ Ea Et Hk Hn Hle. destruct (reach_fine hz tick tick_nsec Hhz Htick Hnsec strict s Hr) as (P & Q0 & H0).
  assert (ok strict None P Q s) as H by (apply (ok_ext strict None P Q0); [by apply (queues_unique _ _ _ HQ), H0|done]).
  assert (a ∈ P) as Ha by (apply (ok_on _ _ _ _ _ H); exists (tctx_todo ctx); rewrite Ea; left).
  destruct (runs_timeout_add strict P Q s a t n (λ r s1, r = 0 ∧ ok strict None (P ∪ {[a]}) Q s1 ∧
    edited a (added_at (i32 (n + ticks s)) t) s s1)) as (r & s1 & E1 & -> & H1 & [Eto Eti _ _]); [done..| |].
  { intros s1 Hok Hed. rewrite decide_True by done. split; [done|]. split; [|done].
    rewrite bool_decide_eq_true_2, (proj2 (Z.leb_le _ _) Hle) in Hok by done. exact Hok. }
  destruct (runs_thread_turn strict (P ∪ {[a]}) Q s1 ctx (λ r s2, r = Some a ∧
    timeouts s2 !! a = Some (triggered (added_at (i32 (n + ticks s)) t)) ∧ ticks s2 = ticks s1))
    as (r & s2 & E2 & -> & Et2 & Eti2); [done|by rewrite Ea| |].
  { intros b l' u s2 Eb Eu _ Eto2 [Hti _] _. rewrite Ea in Eb. injection Eb as <- <-.
    rewrite Eto, lookup_insert_eq in Eu. injection Eu as <-. split; [done|]. by rewrite Eto2, lookup_insert_eq. }
  exists s1, s2, (triggered (added_at (i32 (n + ticks s)) t)). split_and!; [done..|].
  rewrite Eti2, Eti. cbn. apply i32_sub_add. unfold is_i32, INT_MAX in *. lia.
Qed.
End props.

(** the calls that take an interval in seconds, milliseconds, microseconds or nanoseconds
    all wait at least that long: whole ticks, rounded up, and one more for the tick that has
    begun, or INT_MAX ticks when that is more, with no overflow on the way. *)
Theorem timeout_add_units hz tick tick_nsec a x :
  0 < hz ≤ INT_MAX → 0 < tick ≤ INT_MAX → 0 < tick_nsec ≤ INT_MAX → 0 ≤ x ≤ UINT64_MAX →
  timeout_add_nsec tick_nsec a x = timeout_add a (Z.min INT_MAX (div_up x tick_nsec + 1)) ∧
  timeout_add_usec tick a x = timeout_add a (Z.min INT_MAX (div_up x tick + 1)) ∧
  timeout_add_msec tick a x = timeout_add a (Z.min INT_MAX (div_up (x * 1000) tick + 1)) ∧
  (x ≤ INT_MAX → ∀ s, timeout_add_sec hz a x s = timeout_add a (Z.min INT_MAX (hz * x + 1)) s).
Proof.
  intros Hh Ht Hn Hx. split_and!; [by apply add_nsec_eq|by apply add_usec_eq|by apply add_msec_eq|].
  intros Hi s. rewrite add_sec_eq by lia. reflexivity.
Qed.

(** C22: when the clock is read a whole lap of slots after it was last read, but less than two
    seconds after, the interrupt takes the lap for nothing: it empties one bucket of the
    clock's wheel, and every timeout in the other buckets stays where it is, pending, also
    if it is due. *)
Theorem hardclock_lap_skips hz tick tick_nsec s tick_ts now Q :
  0 < hz ≤ INT_MAX → 0 < tick ≤ INT_MAX → 0 < tick_nsec ≤ INT_MAX →
  reach hz tick tick_nsec false s → allowed false (Hardclock tick_ts now) s → queues Q (c_mem (circ s)) →
  hash now = hash (lastscan s) + 256 → tv_sec (timespecsub now (lastscan s)) < 2 →
  let first := timeout_maskwheel 0 (lastscan s) in
  ∃ need s1 Q1, hardclock tick_ts now s = Ret (need, s1) ∧ queues Q1 (c_mem (circ s1)) ∧ lastscan s1 = now ∧
    ∀ b, b ≠ first → Q1 (timeout_wheel_kc b) = Q (timeout_wheel_kc b) ∧
      ∀ a, a ∈ Q (timeout_wheel_kc b) → ∃ t, timeouts s1 !! a = Some t ∧
        ISSET (to_flags t) TIMEOUT_ONQUEUE = true ∧
        due (ticks s1) (lastscan s1) t = negb (timespec_lt now (to_abstime t)).
Proof.
  intros Hhz Htick Hnsec Hr (Hg & Hle & _) HQ Hhash Hsec first.
  destruct (reach_fine hz tick tick_nsec Hhz Htick Hnsec false s Hr) as (P & Q0 & H0).
  assert (ok false None P Q s) as H by (apply (ok_ext false None P Q0); [by apply (queues_unique _ _ _ HQ), H0|done]).
  assert (timeout_maskwheel 0 (lastscan s) = timeout_maskwheel 0 now) as Hsame.
  { rewrite !maskwheel_hash by (done || lia || apply H). change (2 ^ (8 * 0)) with 1. rewrite !Z.div_1_r, Hhash. zmod. }
  destruct (runs_hardclock false P Q s tick_ts now (λ _ s1, ∃ Q1, ok false None P Q1 s1 ∧ timeouts s1 = timeouts s ∧ lastscan s1 = now ∧
    ∀ b, b ≠ first → Q1 (timeout_wheel_kc b) = Q (timeout_wheel_kc b))) as (need & s1 & E & Q1 & H1 & Eto & Els & Hstay); [done..| |].
  { intros Q1 s1 H1 Eto _ Els Hstay. exists Q1. split_and!; [done..|]. by apply Hstay. }
  exists need, s1, Q1. split; [done|]. split; [apply H1|]. split; [done|]. intros b Hb. split; [by apply Hstay|].
  intros a Ha. rewrite <-(Hstay b Hb) in Ha. destruct (ok_placed _ _ _ _ _ H1 _ a Ha) as (t & Et & Hp). exists t.
  split; [done|]. split; [by apply (ok_flag _ _ _ _ _ H1 a t Et); [|apply (ok_on _ _ _ _ _ H1); eexists]|].
  destruct (Hp ltac:(done)) as [_ [Hk _]]. unfold due. rewrite Hk, Els. done.
Qed.

(** ** The theorems at work *)

(** Kernels with 100 ticks per second. *)
Lemma demo_clock : 0 < 100 ≤ INT_MAX ∧ 0 < 10000 ≤ INT_MAX ∧ 0 < 10000000 ≤ INT_MAX.
Proof. unfold INT_MAX. lia. Qed.

Lemma timeouts_safe_witness :
  demo_reach true (demo true readd_demo) ∧
  ∃ s', run_op 100 10000 10000000 (Thread_turn timeout_ctx_proc) (demo true readd_demo) = Ret (tt, s').
Proof.
  split; [exact readd_demo_reached|].
  exact (proj2 (proj2 (timeouts_safe 100 10000 10000000 (proj1 demo_clock) (proj1 (proj2 demo_clock)) (proj2 (proj2 demo_clock))
    true (demo true readd_demo) readd_demo_reached)) (Thread_turn timeout_ctx_proc) I).
Defined.

Lemma mixed_demo_allowed : allowed true (Hardclock (ms 10) (ms 20)) (demo true mixed_demo).
Proof. apply (bool_decide_unpack (dec := allowed_dec _ _ _) _). by vm_compute. Qed.

(** A timeout for the thread and one on the uptime are due, one in milliseconds is not. *)
Lemma timeouts_on_time_witness :
  demo_reach true (demo true mixed_demo) ∧ allowed true (Hardclock (ms 10) (ms 20)) (demo true mixed_demo) ∧
  ∃ need s1 l wake s2, hardclock (ms 10) (ms 20) (demo true mixed_demo) = Ret (need, s1) ∧
    softclock quiet (S (size (timeouts s1))) s1 = Ret ((l, wake), s2).
Proof.
  split; [exact mixed_demo_reached|]. split; [exact mixed_demo_allowed|].
  destruct (timeouts_on_time 100 10000 10000000 (proj1 demo_clock) (proj1 (proj2 demo_clock)) (proj2 (proj2 demo_clock))
    (demo true mixed_demo) (ms 10) (ms 20) mixed_demo_reached mixed_demo_allowed) as (need & s1 & l & wake & s2 & E1 & E2 & _).
  exists need, s1, l, wake, s2. exact (conj E1 E2).
Defined.

Lemma softclock_in_order_witness :
  ∃ Q, queues Q (c_mem (circ (demo true readd_demo))) ∧
  ∃ Q' r s', softclock quiet (S (size (timeouts (demo true readd_demo)))) (demo true readd_demo) = Ret (r, s') ∧
    queues Q' (c_mem (circ s')) ∧ Q' timeout_todo = [].
Proof.
  destruct (reach_fine 100 10000 10000000 (proj1 demo_clock) (proj1 (proj2 demo_clock)) (proj2 (proj2 demo_clock))
    true (demo true readd_demo) readd_demo_reached) as (P & Q & H).
  exists Q. split; [apply H|].
  destruct (softclock_in_order 100 10000 10000000 (proj1 demo_clock) (proj1 (proj2 demo_clock)) (proj2 (proj2 demo_clock))
    true (demo true readd_demo) Q readd_demo_reached (ok_queues _ _ _ _ _ H)) as (Q' & s' & E & HQ' & EQ' & _).
  exists Q', (filter (λ a, dest (demo true readd_demo) a = Some None) (Q timeout_todo ++ Q timeout_new),
    (negb (bool_decide (Q' timeout_proc = [])), negb (bool_decide (Q' timeout_proc_mp = [])))), s'.
  split; [exact E|]. split; [exact HQ'|]. by rewrite EQ', decide_True by auto.
Defined.

(** The functions add their own timeouts again, for no time, and delete another. *)
Definition demo_prog (fn arg : Z) : list (kstate → op) := [λ _, Add arg 0; λ _, Del 2].

Lemma softclock_ends_witness :
  ∃ r s' Q', softclock (functions 100 10000 10000000 true demo_prog) (S (size (timeouts (demo true mixed_demo))))
      (demo true mixed_demo) = Ret (r, s') ∧
    queues Q' (c_mem (circ s')) ∧ Q' timeout_todo = [].
Proof.
  exact (softclock_ends 100 10000 10000000 (proj1 demo_clock) (proj1 (proj2 demo_clock)) (proj2 (proj2 demo_clock))
    true demo_prog (demo true mixed_demo) mixed_demo_reached).
Defined.

(** The lists of queues in a state, as far as their links go. *)
Lemma first_of_queue Q m q a : queues Q m → next <$> m !! Head q = Some (Elem a) → valid_queue q → ∃ l, Q q = a :: l.
Proof.
  intros H E Hv. pose proof (qs_linked _ _ H q Hv) as Hl. destruct (Q q) as [|b l]; cbn in Hl.
  - destruct Hl as [[Hn _] _]. congruence.
  - destruct Hl as [[Hn _] _]. exists l. congruence.
Qed.

Lemma readd_demo_queue : ∃ Q, queues Q (c_mem (circ (demo true readd_wait))) ∧ ∃ l, Q timeout_proc = 1 :: l.
Proof.
  destruct (reach_fine 100 10000 10000000 (proj1 demo_clock) (proj1 (proj2 demo_clock)) (proj2 (proj2 demo_clock))
    true (demo true readd_wait) readd_wait_reached) as (P & Q & H).
  exists Q. split; [apply H|]. apply (first_of_queue Q _ _ 1 (ok_queues _ _ _ _ _ H)); [by vm_compute|done].
Qed.

Lemma timeout_readd_runs_now_witness :
  ∃ s1 s2 t2, timeout_add 1 1000 (demo true readd_wait) = Ret (0, s1) ∧
    thread_turn timeout_ctx_proc s1 = Ret (Some 1, s2) ∧
    timeouts s2 !! 1 = Some t2 ∧ i32 (to_time t2 - ticks s2) = 1000.
Proof.
  destruct readd_demo_queue as (Q & HQ & l & El).
  destruct (timeouts (demo true readd_wait) !! 1) as [t|] eqn:Et; [|exfalso; vm_compute in Et; discriminate].
  refine (timeout_readd_runs_now 100 10000 10000000 (proj1 demo_clock) (proj1 (proj2 demo_clock)) (proj2 (proj2 demo_clock))
    true (demo true readd_wait) timeout_ctx_proc Q 1 l t 1000 readd_wait_reached HQ El Et _ _ _).
  - vm_compute in Et. injection Et as <-. reflexivity.
  - unfold INT_MAX. lia.
  - vm_compute in Et. injection Et as <-. by vm_compute.
Defined.

(** A timeout for the first second of uptime, with 1.993 seconds between the scans. *)
Lemma gap_demo_allowed : allowed false (Hardclock (ms 10) (ms 2000)) (demo false gap_demo).
Proof. apply (bool_decide_unpack (dec := allowed_dec _ _ _) _). by vm_compute. Qed.

Lemma hardclock_lap_skips_witness :
  ∃ need s1 Q1, hardclock (ms 10) (ms 2000) (demo false gap_demo) = Ret (need, s1) ∧
    queues Q1 (c_mem (circ s1)) ∧ 2 ∈ Q1 (timeout_wheel_kc 128).
Proof.
  destruct (reach_fine 100 10000 10000000 (proj1 demo_clock) (proj1 (proj2 demo_clock)) (proj2 (proj2 demo_clock))
    false (demo false gap_demo) gap_demo_reached) as (P & Q & H).
  destruct (first_of_queue Q _ (timeout_wheel_kc 128) 2 (ok_queues _ _ _ _ _ H)) as [l El]; [by vm_compute|done|].
  destruct (hardclock_lap_skips 100 10000 10000000 (demo false gap_demo) (ms 10) (ms 2000) Q
    (proj1 demo_clock) (proj1 (proj2 demo_clock)) (proj2 (proj2 demo_clock)) gap_demo_reached gap_demo_allowed
    (ok_queues _ _ _ _ _ H)) as (need & s1 & Q1 & E & HQ1 & _ & Hb); [by vm_compute|by vm_compute|].
  exists need, s1, Q1. split; [exact E|]. split; [exact HQ1|].
  destruct (Hb 128) as [-> _]; [by vm_compute|]. rewrite El. left.
Defined.
