(* ===== verification/Bitmap.v ===== *)
(** Bit arrays of sys/sys/param.h ([setbit], [clrbit], [isset]) and the
    [clrbits] routine of sys/kern/tty_subr.c, over byte arrays. *)

From S2P Require Import Prelude.

(** ** The macros *)

Definition NBBY : Z := 8.

Definition isset (a : list Z) (i : Z) : outcome bool :=
  b ← load a (Z.shiftr i 3);
  Ret (negb (Z.land b (Z.shiftl 1 (Z.land i (NBBY - 1))) =? 0)).

Definition setbit (a : list Z) (i : Z) : outcome (list Z) :=
  b ← load a (Z.shiftr i 3);
  store a (Z.shiftr i 3) (u8 (Z.lor b (Z.shiftl 1 (Z.land i (NBBY - 1))))).

Definition clrbit (a : list Z) (i : Z) : outcome (list Z) :=
  b ← load a (Z.shiftr i 3);
  store a (Z.shiftr i 3) (u8 (Z.land b (Z.lnot (Z.shiftl 1 (Z.land i (NBBY - 1)))))).

(** [for (i = sby; i < eby; i++) cp[i] = 0x00;] with [n = eby - sby]. *)
Fixpoint zero_bytes (cp : list Z) (i : Z) (n : nat) : outcome (list Z) :=
  match n with
  | O => Ret cp
  | S n => cp ← store cp i 0; zero_bytes cp (i + 1) n
  end.

Definition clrbits (cp : list Z) (off len : Z) : outcome (list Z) :=
  if len =? 1 then clrbit cp off
  else
    let sby := Z.quot off NBBY in
    let sbi := Z.rem off NBBY in
    let eby := Z.quot (off + len) NBBY in
    let ebi := Z.rem (off + len) NBBY in
    if sby =? eby then
      let mask := u8 (Z.shiftl (Z.shiftl 1 (ebi - sbi) - 1) sbi) in
      b ← load cp sby;
      store cp sby (u8 (Z.land b (Z.lnot mask)))
    else
      let mask := u8 (Z.shiftl 1 sbi - 1) in
      b ← load cp sby;
      cp ← store cp sby (u8 (Z.land b mask));
      let sby := sby + 1 in
      cp ← zero_bytes cp sby (Z.to_nat (eby - sby));
      let mask := u8 (Z.shiftl 1 ebi - 1) in
      if negb (mask =? 0) then
        b ← load cp eby;
        store cp eby (u8 (Z.land b (Z.lnot mask)))
      else Ret cp.

(** The loop the comment of [clrbits] says it optimises:
    [for (i = 0; i < len; i++) clrbit(cp, off + i);] *)
Fixpoint clrbit_loop (cp : list Z) (off : Z) (len : nat) : outcome (list Z) :=
  match len with
  | O => Ret cp
  | S len => cp ← clrbit cp off; clrbit_loop cp (off + 1) len
  end.

(** ** Specification: a byte array as a function from indices to bits *)

Definition bit_get (q : list Z) (i : Z) : bool := Z.testbit (zth q (i / 8)) (i mod 8).
Definition bits (q : list Z) : Z := 8 * Z.of_nat (length q).
Definition bytes_ok (q : list Z) : Prop := Forall is_u8 q.

Lemma zth_u8 q i : bytes_ok q → is_u8 (zth q i).
Proof. intros Hq. apply zth_Forall; [unfold is_u8; lia|done]. Qed.
#[export] Hint Resolve zth_u8 : kern.

Lemma shiftr3 i : Z.shiftr i 3 = i / 8.
Proof. by rewrite Z.shiftr_div_pow2. Qed.
Lemma land7 i : Z.land i (NBBY - 1) = i mod 8.
Proof. exact (Z.land_ones i 3 ltac:(lia)). Qed.

Lemma testbit_u8 x k : 0 ≤ k → Z.testbit (u8 x) k = bool_decide (k < 8) && Z.testbit x k.
Proof.
  intros Hk. unfold u8. change M8 with (2 ^ 8).
  case_bool_decide; cbn.
  - by rewrite Z.mod_pow2_bits_low by lia.
  - by rewrite Z.mod_pow2_bits_high by lia.
Qed.

Lemma testbit_shl1 m k : 0 ≤ m → 0 ≤ k → Z.testbit (Z.shiftl 1 m) k = bool_decide (k = m).
Proof.
  intros Hm Hk. rewrite Z.shiftl_1_l.
  case_bool_decide; subst; [by apply Z.pow2_bits_true|by apply Z.pow2_bits_false].
Qed.

Lemma testbit_u8_range x k : is_u8 x → 8 ≤ k → Z.testbit x k = false.
Proof. intros Hx Hk. by apply (testbit_above 8). Qed.

Ltac bit_simpl :=
  repeat first
    [ rewrite testbit_u8 by zmod | rewrite Z.lor_spec | rewrite Z.land_spec
    | rewrite Z.lnot_spec by zmod | rewrite testbit_shl1 by zmod
    | rewrite testbit_pow2m1 by zmod | rewrite Z.shiftl_spec by zmod ].

Lemma u8_eq x y : is_u8 x → is_u8 y → (∀ k, 0 ≤ k < 8 → Z.testbit x k = Z.testbit y k) → x = y.
Proof.
  intros Hx Hy Hxy. apply Z.bits_inj'. intros k Hk. destruct (decide (k < 8)).
  - apply Hxy. lia.
  - by rewrite !testbit_u8_range by (done || lia).
Qed.

(** Decide every range test of the goal, closing the impossible cases. *)
Ltac range_cases :=
  unfold bit_get; repeat case_bool_decide; cbn;
  rewrite ?andb_true_r, ?andb_false_r, ?orb_true_r, ?orb_false_r;
  first [done | exfalso; zmod].

(** Writing one byte changes the eight bits of that byte. *)
Lemma bit_get_insert q k b j :
  0 ≤ k < Z.of_nat (length q) → 0 ≤ j →
  bit_get (<[Z.to_nat k := b]> q) j =
    if bool_decide (j / 8 = k) then Z.testbit b (j mod 8) else bit_get q j.
Proof.
  intros Hk Hj. unfold bit_get. case_bool_decide; [subst|].
  - by rewrite zth_insert_eq.
  - rewrite zth_insert_ne; [done|lia|zmod|done].
Qed.

(** Two byte arrays with the same bits are equal. *)
Lemma bitmap_eq q q' :
  bytes_ok q → bytes_ok q' → length q = length q' →
  (∀ j, 0 ≤ j < bits q → bit_get q j = bit_get q' j) → q = q'.
Proof.
  intros Hq Hq' Hl Hb. apply (list_eq_same_length _ _ (length q)); [lia|done|].
  intros i x y Hi Hx Hy.
  pose proof (nth_lookup_Some _ _ 0 _ Hx) as Ex. pose proof (nth_lookup_Some _ _ 0 _ Hy) as Ey.
  assert (is_u8 x) by (by eapply Forall_lookup_1 in Hx).
  assert (is_u8 y) by (by eapply Forall_lookup_1 in Hy).
  apply u8_eq; [done..|]. intros k Hk.
  specialize (Hb (8 * Z.of_nat i + k)). unfold bit_get, zth, bits in Hb.
  replace ((8 * Z.of_nat i + k) / 8) with (Z.of_nat i) in Hb by zmod.
  replace ((8 * Z.of_nat i + k) mod 8) with k in Hb by zmod.
  rewrite Nat2Z.id, Ex, Ey in Hb. apply Hb. lia.
Qed.

(** What an operation on the array promises: same size, still bytes, and the
    bits given by [g]. *)
Definition bits_are (q q' : list Z) (g : Z → bool) : Prop :=
  length q' = length q ∧ bytes_ok q' ∧ ∀ j, 0 ≤ j → bit_get q' j = g j.

Lemma isset_spec q i : 0 ≤ i < bits q → isset q i = Ret (bit_get q i).
Proof.
  intros Hi. unfold isset, bits in *. rewrite shiftr3, land7, load_zth by zmod.
  rewrite bind_Ret_l. f_equal. unfold bit_get. set (b := zth _ _).
  destruct (Z.land b (Z.shiftl 1 (i mod 8)) =? 0) eqn:E; cbn.
  - apply Z.eqb_eq in E. apply (f_equal (λ x, Z.testbit x (i mod 8))) in E.
    rewrite Z.land_spec, testbit_shl1, Z.bits_0, bool_decide_true in E by (done || zmod).
    by rewrite andb_true_r in E.
  - apply Z.eqb_neq in E. destruct (Z.testbit b (i mod 8)) eqn:Eb; [done|].
    destruct E. apply Z.bits_inj'. intros k Hk.
    rewrite Z.land_spec, testbit_shl1, Z.bits_0 by zmod.
    case_bool_decide; subst; [by rewrite Eb|apply andb_false_r].
Qed.

(** Read-modify-write of one byte. *)
Lemma update_byte q k b (g : Z → bool) :
  bytes_ok q → 0 ≤ k < Z.of_nat (length q) →
  (∀ j, 0 ≤ j → j / 8 = k → Z.testbit (u8 b) (j mod 8) = g j) →
  (∀ j, 0 ≤ j → j / 8 ≠ k → bit_get q j = g j) →
  ∃ q', store q k (u8 b) = Ret q' ∧ bits_are q q' g.
Proof.
  intros Hq Hk Hin Hout. exists (<[Z.to_nat k := u8 b]> q).
  split; [by apply store_in|]. split; [by rewrite length_insert|]. split.
  - apply Forall_insert; [done|apply u8_range].
  - intros j Hj. rewrite bit_get_insert by done. case_bool_decide; auto.
Qed.

Lemma setbit_spec q i :
  bytes_ok q → 0 ≤ i < bits q →
  ∃ q', setbit q i = Ret q' ∧ bits_are q q' (λ j, bool_decide (j = i) || bit_get q j).
Proof.
  intros Hq Hi. unfold setbit, bits in *. rewrite shiftr3, land7, load_zth by zmod.
  rewrite bind_Ret_l. apply update_byte; [done|zmod| |].
  - intros j Hj E. bit_simpl. rewrite <-E. range_cases.
  - intros j Hj E. rewrite bool_decide_false by (intros ->; done). done.
Qed.

Lemma clrbit_spec q i :
  bytes_ok q → 0 ≤ i < bits q →
  ∃ q', clrbit q i = Ret q' ∧ bits_are q q' (λ j, bool_decide (j ≠ i) && bit_get q j).
Proof.
  intros Hq Hi. unfold clrbit, bits in *. rewrite shiftr3, land7, load_zth by zmod.
  rewrite bind_Ret_l. apply update_byte; [done|zmod| |].
  - intros j Hj E. bit_simpl. rewrite <-E. range_cases.
  - intros j Hj E. rewrite bool_decide_true by (intros ->; done). done.
Qed.

Lemma zero_bytes_spec n : ∀ q i,
  bytes_ok q → 0 ≤ i → i + Z.of_nat n ≤ Z.of_nat (length q) →
  ∃ q', zero_bytes q i n = Ret q' ∧
    bits_are q q' (λ j, negb (bool_decide (i ≤ j / 8 < i + Z.of_nat n)) && bit_get q j).
Proof.
  induction n as [|n IH]; intros q i Hq Hi Hn; cbn.
  - exists q. repeat split; [done|]. intros j Hj. by rewrite bool_decide_false by lia.
  - destruct (update_byte q i 0 (λ j, negb (bool_decide (j / 8 = i)) && bit_get q j))
      as (q1 & E1 & L1 & B1 & G1); [done|lia| | |].
    + intros j Hj E. bit_simpl.
      by rewrite Z.bits_0, andb_false_r, bool_decide_true by done.
    + intros j Hj E. by rewrite bool_decide_false by done.
    + change (u8 0) with 0 in E1. rewrite E1, bind_Ret_l.
      destruct (IH q1 (i + 1)) as (q2 & E2 & L2 & B2 & G2); [done|lia|lia|].
      exists q2. repeat split; [done|congruence|done|].
      intros j Hj. rewrite G2, G1 by done. range_cases.
Qed.

Lemma mask_testbit n m k :
  0 ≤ n → 0 ≤ m → 0 ≤ k →
  Z.testbit (Z.shiftl (Z.shiftl 1 n - 1) m) k = bool_decide (m ≤ k < m + n).
Proof.
  intros Hn Hm Hk. rewrite Z.shiftl_spec by done. rewrite Z.shiftl_1_l.
  destruct (decide (m ≤ k)).
  - rewrite testbit_pow2m1 by lia. apply bool_decide_ext. lia.
  - rewrite Z.testbit_neg_r, bool_decide_false by lia. done.
Qed.

Lemma mask0_testbit n k :
  0 ≤ n → 0 ≤ k → Z.testbit (Z.shiftl 1 n - 1) k = bool_decide (k < n).
Proof. intros. rewrite Z.shiftl_1_l. by apply testbit_pow2m1. Qed.

Lemma u8_low_mask n : 0 ≤ n < 8 → (u8 (Z.shiftl 1 n - 1) =? 0) = bool_decide (n = 0).
Proof.
  intros Hn. rewrite Z.shiftl_1_l.
  assert (n = 0 ∨ n = 1 ∨ n = 2 ∨ n = 3 ∨ n = 4 ∨ n = 5 ∨ n = 6 ∨ n = 7) as E by lia.
  by repeat destruct E as [->|E]; [..|subst].
Qed.

(** [clrbits] clears exactly the bits [off .. off + len - 1]. *)
Lemma clrbits_spec q off len :
  bytes_ok q → 0 ≤ off → 0 < len → off + len ≤ bits q →
  ∃ q', clrbits q off len = Ret q' ∧
    bits_are q q' (λ j, negb (bool_decide (off ≤ j < off + len)) && bit_get q j).
Proof.
  intros Hq Ho Hl Hb. unfold clrbits, NBBY, bits in *.
  rewrite !Z.quot_div_nonneg, !Z.rem_mod_nonneg by lia.
  destruct (len =? 1) eqn:E1; [apply Z.eqb_eq in E1 as ->|apply Z.eqb_neq in E1].
  { destruct (clrbit_spec q off) as (q' & E & L & B & G); [done|unfold bits; lia|].
    exists q'. repeat split; [done..|]. intros j Hj. rewrite G by done. range_cases. }
  destruct (off / 8 =? (off + len) / 8) eqn:E2;
    [apply Z.eqb_eq in E2|apply Z.eqb_neq in E2].
  { rewrite load_zth by zmod. rewrite bind_Ret_l.
    apply update_byte; [done|zmod| |].
    - intros j Hj E. rewrite testbit_u8, Z.land_spec, Z.lnot_spec, testbit_u8 by zmod.
      rewrite mask_testbit, <-E by zmod. range_cases.
    - intros j Hj E. rewrite bool_decide_false by zmod. done. }
  rewrite load_zth by zmod. rewrite bind_Ret_l.
  edestruct (update_byte q (off / 8)
    (Z.land (zth q (off / 8)) (u8 (Z.shiftl 1 (off mod 8) - 1)))
    (λ j, negb (bool_decide (off ≤ j < off / 8 * 8 + 8)) && bit_get q j))
    as (q1 & S1 & L1 & B1 & G1); [done|zmod| | |].
  { intros j Hj E. rewrite testbit_u8, Z.land_spec, testbit_u8, mask0_testbit by zmod. rewrite <-E. range_cases. }
  { intros j Hj E. rewrite bool_decide_false by zmod. done. }
  rewrite S1, bind_Ret_l.
  destruct (zero_bytes_spec (Z.to_nat ((off + len) / 8 - (off / 8 + 1))) q1 (off / 8 + 1))
    as (q2 & S2 & L2 & B2 & G2); [done|zmod|zmod|].
  rewrite S2, bind_Ret_l, u8_low_mask by zmod.
  destruct (decide ((off + len) mod 8 = 0)) as [Eb|Eb].
  { rewrite bool_decide_true by done. cbn. exists q2.
    repeat split; [congruence|done|]. intros j Hj. rewrite G2, G1 by done. range_cases. }
  rewrite bool_decide_false by done. cbn [negb]. rewrite load_zth by zmod. rewrite bind_Ret_l.
  edestruct (update_byte q2 ((off + len) / 8)
    (Z.land (zth q2 ((off + len) / 8)) (Z.lnot (u8 (Z.shiftl 1 ((off + len) mod 8) - 1))))
    (λ j, negb (bool_decide ((off + len) / 8 * 8 ≤ j < off + len)) && bit_get q2 j))
    as (q3 & S3 & L3 & B3 & G3); [done|zmod| | |].
  { intros j Hj E.
    rewrite testbit_u8, Z.land_spec, Z.lnot_spec, testbit_u8, mask0_testbit by zmod. rewrite <-E. range_cases. }
  { intros j Hj E. rewrite bool_decide_false by zmod. done. }
  exists q3. repeat split; [done|congruence|done|]. intros j Hj.
  rewrite G3, G2, G1 by done. range_cases.
Qed.

Lemma clrbit_loop_spec n : ∀ q off,
  bytes_ok q → 0 ≤ off → off + Z.of_nat n ≤ bits q →
  ∃ q', clrbit_loop q off n = Ret q' ∧
    bits_are q q' (λ j, negb (bool_decide (off ≤ j < off + Z.of_nat n)) && bit_get q j).
Proof.
  induction n as [|n IH]; intros q off Hq Ho Hb; cbn.
  - exists q. repeat split; [done|]. intros j Hj. by rewrite bool_decide_false by lia.
  - destruct (clrbit_spec q off) as (q1 & E1 & L1 & B1 & G1); [done|lia|].
    rewrite E1, bind_Ret_l.
    destruct (IH q1 (off + 1)) as (q2 & E2 & L2 & B2 & G2); [done|lia|unfold bits in *; lia|].
    exists q2. repeat split; [done|congruence|done|].
    intros j Hj. rewrite G2, G1 by done. range_cases.
Qed.

(** [clrbits] is what its comment says: an optimised version of the loop
    that clears the bits one at a time; on every range inside the array both
    return, with the same array. *)
Theorem clrbits_is_loop (q : list Z) (off len : Z) :
  bytes_ok q → 0 ≤ off → 0 < len → off + len ≤ bits q →
  clrbits q off len = clrbit_loop q off (Z.to_nat len) ∧
  ∃ q', clrbits q off len = Ret q'.
Proof.
  intros Hq Ho Hl Hb.
  destruct (clrbits_spec q off len) as (q1 & -> & L1 & B1 & G1); [done..|].
  destruct (clrbit_loop_spec (Z.to_nat len) q off) as (q2 & -> & L2 & B2 & G2); [done|done|lia|].
  split; [|by eexists]. f_equal. apply bitmap_eq; [done|done|congruence|].
  intros j Hj. rewrite G1, G2 by lia. by rewrite Z2Nat.id by lia.
Qed.

Lemma clrbits_is_loop_witness :
  clrbits [255; 255; 255] 5 14 = clrbit_loop [255; 255; 255] 5 14 ∧
  ∃ q', clrbits [255; 255; 255] 5 14 = Ret q'.
Proof.
  apply (clrbits_is_loop [255; 255; 255] 5 14); [|lia|lia|vm_compute; discriminate].
  repeat constructor; unfold is_u8; lia.
Defined.
