(* ===== verification/Clist.v ===== *)
(** Character lists of the tty layer: sys/kern/tty_subr.c, [struct clist] of
    sys/sys/tty.h.  A clist is a ring buffer with an optional bitmap of
    quoting bits; its operations are proved to implement a bounded queue of
    characters. *)

From S2P Require Import Prelude Bitmap.

(** ** Data *)

(** A pointer into the ring buffer is its offset from [c_cs], [None] is NULL.
    [c_cs] and [c_cq] carry the memory they point to. *)
Record clist : Type := Clist {
  c_cc : Z;                 (* count of characters in queue *)
  c_cn : Z;                 (* total ring buffer length *)
  c_cf : option Z;          (* points to first character *)
  c_cl : option Z;          (* points to next open character *)
  c_cs : option (list Z);   (* start of ring buffer *)
  c_ce : Z;                 (* c_cs + c_cn *)
  c_cq : option (list Z);   (* one bit per character *)
}.

Definition TTY_QUOTE : Z := 0x100.
Definition QMEM (n : Z) : Z := Z.quot (n - 1) NBBY + 1.

(** ** Operations *)

Definition clalloc (size : Z) (quot : bool) : clist :=
  {| c_cs := Some (replicate (Z.to_nat size) 0);
     c_cq := if quot then Some (replicate (Z.to_nat (QMEM size)) 0) else None;
     c_cf := None; c_cl := None;
     c_ce := 0 + size;
     c_cn := size;
     c_cc := 0 |}.

Definition clfree (clp : clist) : clist :=
  {| c_cs := None; c_cq := None;
     c_cf := c_cf clp; c_cl := c_cl clp; c_ce := c_ce clp;
     c_cn := c_cn clp; c_cc := c_cc clp |}.

(** The quoting bit of the character at offset [i] is moved into [c]. *)
Definition take_quote (cq : option (list Z)) (i c : Z) : outcome (Z * option (list Z)) :=
  match cq with
  | Some q =>
      s ← isset q i;
      q ← clrbit q i;
      Ret (if (s : bool) then Z.lor c TTY_QUOTE else c, Some q)
  | None => Ret (c, None)
  end.

Definition getc (clp : clist) : outcome (Z * clist) :=
  if c_cc clp =? 0 then Ret (-1, clp) else
  cf ← deref (c_cf clp);
  cs ← deref (c_cs clp);
  b ← load cs cf;
  let c := Z.land b 0xff in
  cs ← store cs cf 0;
  '(c, cq) ← take_quote (c_cq clp) cf c;
  let cf := if cf + 1 =? c_ce clp then 0 else cf + 1 in
  let cc := c_cc clp - 1 in
  let mk cf cl := {| c_cs := Some cs; c_cq := cq; c_cf := cf; c_cl := cl;
                      c_ce := c_ce clp; c_cn := c_cn clp; c_cc := cc |} in
  Ret (c, if cc =? 0 then mk None None else mk (Some cf) (c_cl clp)).

(** [if (clp->c_cq) clrbits(clp->c_cq, i, cc);] *)
Definition clear_quotes (cq : option (list Z)) (i cc : Z) : outcome (option (list Z)) :=
  match cq with
  | Some q => Some <$> clrbits q i cc
  | None => Ret None
  end.

(** The body of the loop of [q_to_b], which also returns the bytes copied. *)
Fixpoint q_to_b_loop (fuel : nat) (clp : clist) (p : list Z) (count : Z) :
    outcome (list Z * clist) :=
  if (0 <? count) && (0 <? c_cc clp) then
    match fuel with
    | O => Fault OutOfFuel
    | S fuel =>
        cf ← deref (c_cf clp);
        cl ← deref (c_cl clp);
        cs ← deref (c_cs clp);
        let cc := cl - cf in
        let cc := if cl <=? cf then c_ce clp - cf else cc in
        let cc := if count <? cc then count else cc in
        d ← mem_read cs cf cc;
        cs ← mem_write cs cf (replicate (Z.to_nat cc) 0);
        cq ← clear_quotes (c_cq clp) cf cc;
        let cf := if cf + cc =? c_ce clp then 0 else cf + cc in
        q_to_b_loop fuel
          {| c_cs := Some cs; c_cq := cq; c_cf := Some cf; c_cl := Some cl;
             c_ce := c_ce clp; c_cn := c_cn clp; c_cc := c_cc clp - cc |}
          (p ++ d) (count - cc)
    end
  else Ret (p, clp).

(** [if (clp->c_cc == 0) clp->c_cf = clp->c_cl = NULL;] *)
Definition reset_if_empty (clp : clist) : clist :=
  if c_cc clp =? 0 then
    {| c_cs := c_cs clp; c_cq := c_cq clp; c_cf := None; c_cl := None;
       c_ce := c_ce clp; c_cn := c_cn clp; c_cc := c_cc clp |}
  else clp.

(** The result is the bytes stored at [cp]; [p - cp] is their number. *)
Definition q_to_b (clp : clist) (count : Z) : outcome (list Z * clist) :=
  '(p, clp) ← q_to_b_loop (Z.to_nat count) clp [] count;
  Ret (p, reset_if_empty clp).

(** [while (cc-- > 0 && !(stop at i)) { count++; if (i == cn) break; }] for the
    two tests of [ndqb]; [i] is the index before the [i++] of the test. *)
Fixpoint ndqb_loop (stop : Z → outcome bool) (cn i count : Z) (cc : nat) : outcome Z :=
  match cc with
  | O => Ret count
  | S cc =>
      s ← stop i;
      if (s : bool) then Ret count
      else if i + 1 =? cn then Ret (count + 1)
      else ndqb_loop stop cn (i + 1) (count + 1) cc
  end.

Definition ndqb (clp : clist) (flag : Z) : outcome Z :=
  if c_cc clp =? 0 then Ret 0 else
  cf ← deref (c_cf clp);
  if flag =? 0 then
    cl ← deref (c_cl clp);
    let count := cl - cf in
    Ret (if count <=? 0 then c_ce clp - cf else count)
  else
    cs ← deref (c_cs clp);
    if negb (Z.land flag TTY_QUOTE =? 0) then
      ndqb_loop (λ i,
          b ← load cs i;
          if negb (Z.land b (Z.land flag (Z.lnot TTY_QUOTE)) =? 0) then Ret true
          else q ← deref (c_cq clp); isset q (i + 1))
        (c_cn clp) cf 0 (Z.to_nat (c_cc clp))
    else
      ndqb_loop (λ i, b ← load cs i; Ret (negb (Z.land b flag =? 0)))
        (c_cn clp) cf 0 (Z.to_nat (c_cc clp)).

Fixpoint ndflush_loop (fuel : nat) (clp : clist) (count : Z) : outcome clist :=
  if (0 <? count) && (0 <? c_cc clp) then
    match fuel with
    | O => Fault OutOfFuel
    | S fuel =>
        cf ← deref (c_cf clp);
        cl ← deref (c_cl clp);
        let cc := cl - cf in
        let cc := if cl <=? cf then c_ce clp - cf else cc in
        let cc := if count <? cc then count else cc in
        let cf := if cf + cc =? c_ce clp then 0 else cf + cc in
        ndflush_loop fuel
          {| c_cs := c_cs clp; c_cq := c_cq clp; c_cf := Some cf; c_cl := Some cl;
             c_ce := c_ce clp; c_cn := c_cn clp; c_cc := c_cc clp - cc |}
          (count - cc)
    end
  else Ret clp.

Definition ndflush (clp : clist) (count : Z) : outcome clist :=
  if count =? c_cc clp then
    Ret {| c_cs := c_cs clp; c_cq := c_cq clp; c_cf := None; c_cl := None;
           c_ce := c_ce clp; c_cn := c_cn clp; c_cc := 0 |}
  else reset_if_empty <$> ndflush_loop (Z.to_nat count) clp count.

Definition putc (c : Z) (clp : clist) : outcome (Z * clist) :=
  if c_cc clp =? c_cn clp then Ret (-1, clp) else
  '(cf, cl) ← (if c_cc clp =? 0 then
                 match c_cs clp with
                 | None => Fault (Panic "putc")
                 | Some _ => Ret (Some 0, Some 0)
                 end
               else Ret (c_cf clp, c_cl clp));
  cl ← deref cl;
  cs ← deref (c_cs clp);
  cs ← store cs cl (Z.land c 0xff);
  let i := cl in
  cq ← match c_cq clp with
    | Some q => Some <$> (if negb (Z.land c TTY_QUOTE =? 0) then setbit q i else clrbit q i)
    | None => Ret None
    end;
  let cl := if cl + 1 =? c_ce clp then 0 else cl + 1 in
  Ret (0, {| c_cs := Some cs; c_cq := cq; c_cf := cf; c_cl := Some cl;
             c_ce := c_ce clp; c_cn := c_cn clp; c_cc := c_cc clp + 1 |}).

(** [p] is what is left of the caller's buffer. *)
Fixpoint b_to_q_loop (fuel : nat) (p : list Z) (count : Z) (clp : clist) :
    outcome (Z * clist) :=
  if (0 <? count) && (c_cc clp <? c_cn clp) then
    match fuel with
    | O => Fault OutOfFuel
    | S fuel =>
        cl ← deref (c_cl clp);
        cf ← deref (c_cf clp);
        let cc := c_ce clp - cl in
        let cc := if cl <? cf then cf - cl else cc in
        let cc := if count <? cc then count else cc in
        cs ← deref (c_cs clp);
        d ← mem_read p 0 cc;
        cs ← mem_write cs cl d;
        cq ← clear_quotes (c_cq clp) cl cc;
        let cl := if cl + cc =? c_ce clp then 0 else cl + cc in
        b_to_q_loop fuel (drop (Z.to_nat cc) p) (count - cc)
          {| c_cs := Some cs; c_cq := cq; c_cf := Some cf; c_cl := Some cl;
             c_ce := c_ce clp; c_cn := c_cn clp; c_cc := c_cc clp + cc |}
    end
  else Ret (count, clp).

Definition b_to_q (cp : list Z) (count : Z) (clp : clist) : outcome (Z * clist) :=
  if count <=? 0 then Ret (0, clp) else
  if c_cc clp =? c_cn clp then Ret (count, clp) else
  '(cf, cl) ← (if c_cc clp =? 0 then
                 match c_cs clp with
                 | None => Fault (Panic "b_to_q")
                 | Some _ => Ret (Some 0, Some 0)
                 end
               else Ret (c_cf clp, c_cl clp));
  b_to_q_loop (Z.to_nat count) cp count
    {| c_cs := c_cs clp; c_cq := c_cq clp; c_cf := cf; c_cl := cl;
       c_ce := c_ce clp; c_cn := c_cn clp; c_cc := c_cc clp |}.

(** The character at offset [cp], with its quoting bit. *)
Definition peek (clp : clist) (cp : Z) : outcome Z :=
  cs ← deref (c_cs clp);
  b ← load cs cp;
  let c := Z.land b 0xff in
  match c_cq clp with
  | Some q => s ← isset q cp; Ret (if (s : bool) then Z.lor c TTY_QUOTE else c)
  | None => Ret c
  end.

(** [nextc] and [firstc] return the pointer and the new values of [*c] and
    [*ccp]. *)
Definition nextc (clp : clist) (cp : option Z) (c ccp : Z) : outcome (option Z * Z * Z) :=
  let ccp := if bool_decide (c_cf clp = cp) then c_cc clp else ccp in
  match cp with
  | None => Ret (None, c, ccp)
  | Some p =>
      if ccp =? 0 then Ret (None, c, ccp) else
      let ccp := ccp - 1 in
      if ccp =? 0 then Ret (None, c, ccp) else
      let p := if p + 1 =? c_ce clp then 0 else p + 1 in
      c ← peek clp p;
      Ret (Some p, c, ccp)
  end.

Definition firstc (clp : clist) (c : Z) : outcome (option Z * Z * Z) :=
  let ccp := c_cc clp in
  if ccp =? 0 then Ret (None, c, ccp) else
  cp ← deref (c_cf clp);
  c ← peek clp cp;
  Ret (c_cf clp, c, ccp).

Definition unputc (clp : clist) : outcome (Z * clist) :=
  if c_cc clp =? 0 then Ret (-1, clp) else
  cl ← deref (c_cl clp);
  let cl := if cl =? 0 then c_ce clp - 1 else cl - 1 in
  let cc := c_cc clp - 1 in
  cs ← deref (c_cs clp);
  b ← load cs cl;
  let c := Z.land b 0xff in
  cs ← store cs cl 0;
  '(c, cq) ← take_quote (c_cq clp) cl c;
  let mk cf cl := {| c_cs := Some cs; c_cq := cq; c_cf := cf; c_cl := cl;
                      c_ce := c_ce clp; c_cn := c_cn clp; c_cc := cc |} in
  Ret (c, if cc =? 0 then mk None None else mk (c_cf clp) (Some cl)).

(** [while ((c = getc(from)) != -1) putc(c, to);] *)
Fixpoint catq_loop (fuel : nat) (from to : clist) : outcome (clist * clist) :=
  match fuel with
  | O => Fault OutOfFuel
  | S fuel =>
      '(c, from) ← getc from;
      if c =? -1 then Ret (from, to)
      else '(_, to) ← putc c to; catq_loop fuel from to
  end.

Definition catq (from to : clist) : outcome (clist * clist) :=
  if c_cc from =? 0 then Ret (from, to)
  else if (c_cc to =? 0) && (c_cn from =? c_cn to) then Ret (to, from)
  else catq_loop (S (Z.to_nat (c_cc from))) from to.

(** [for (cp = firstc(q, &c, &cc); cp; cp = nextc(q, cp, &c, &cc)) ttyecho(c);]
    as in [ttyretype]: the characters echoed, in order. *)
Fixpoint echo_from (fuel : nat) (clp : clist) (cp : option Z) (c ccp : Z) : outcome (list Z) :=
  match cp with
  | None => Ret []
  | Some _ =>
      match fuel with
      | O => Fault OutOfFuel
      | S fuel =>
          '(cp, c', ccp) ← nextc clp cp c ccp;
          cons c <$> echo_from fuel clp cp c' ccp
      end
  end.

Definition echo_all (clp : clist) (c : Z) : outcome (list Z) :=
  '(cp, c, ccp) ← firstc clp c;
  echo_from (Z.to_nat (c_cc clp)) clp cp c ccp.

(** Smoke test: wrap around the end of a 4-byte buffer. *)
Example clist_smoke :
  ('(_, q) ← b_to_q [65; 66; 67] 3 (clalloc 4 true);
   '(a, q) ← getc q; '(b, q) ← getc q;
   '(_, q) ← putc (Z.lor 68 TTY_QUOTE) q;
   '(r, q) ← b_to_q [69; 70] 2 q;
   '(z, q) ← unputc q;
   '(d, q) ← q_to_b q 9;
   Ret (a, b, r, z, d, c_cf q)) = Ret (65, 66, 0, 70, [67; 68; 69], None).
Proof. reflexivity. Qed.

(** ** Rings: [k] consecutive positions of a buffer of [n], from [f] on *)

Definition ring (n f k : Z) (g : Z → Z) : list Z :=
  (λ i, g ((f + i) mod n)) <$> seqZ 0 k.

Lemma mod_cases x n :
  0 ≤ x < 2 * n → (x < n ∧ x mod n = x) ∨ (n ≤ x ∧ x mod n = x - n).
Proof.
  intros Hx. destruct (decide (x < n)).
  - left. split; [done|]. apply Z.mod_small. lia.
  - right. split; [lia|]. replace x with ((x - n) + 1 * n) at 1 by lia.
    rewrite Z_mod_plus_full. apply Z.mod_small. lia.
Qed.

(** Replace every [x mod n] with [0 <= x < 2 n] by its value. *)
Ltac ring_mod :=
  repeat match goal with
  | |- context [?x mod ?n] =>
      destruct (mod_cases x n) as [[? ->]|[? ->]]; [lia|try lia..]
  end.

Lemma length_ring n f k g : length (ring n f k g) = Z.to_nat k.
Proof. unfold ring. by rewrite length_fmap, length_seqZ. Qed.

Lemma ring_nil n f k g : k ≤ 0 → ring n f k g = [].
Proof. intros. unfold ring. by rewrite seqZ_nil. Qed.

Lemma ring_ext n f k g h :
  (∀ i, 0 ≤ i < k → g ((f + i) mod n) = h ((f + i) mod n)) → ring n f k g = ring n f k h.
Proof.
  intros Hgh. unfold ring. apply list_fmap_ext. intros i x Hx.
  apply lookup_seqZ in Hx as [-> Hi]. apply Hgh. lia.
Qed.

Lemma ring_app n f a b g :
  0 < n → 0 ≤ a → 0 ≤ b → ring n f (a + b) g = ring n f a g ++ ring n ((f + a) mod n) b g.
Proof.
  intros Hn Ha Hb. unfold ring. rewrite seqZ_app, fmap_app by done. f_equal.
  apply (list_eq_same_length _ _ (Z.to_nat b));
    [by rewrite length_fmap, length_seqZ..|].
  intros i x y Hi Hx Hy. rewrite list_lookup_fmap, lookup_seqZ_lt in Hx, Hy by lia.
  cbn in *. simplify_eq. f_equal. rewrite Z.add_mod_idemp_l by lia. f_equal. lia.
Qed.

Lemma ring_flat n f k g : 0 ≤ f → f + k ≤ n → ring n f k g = g <$> seqZ f k.
Proof.
  intros Hf Hk. destruct (decide (0 ≤ k)).
  - unfold ring. apply zth_list_eq; [by rewrite !length_fmap, !length_seqZ|].
    intros i Hi. rewrite length_fmap, length_seqZ in Hi.
    rewrite (zth_seqZ (λ i, g ((f + i) mod n))), zth_seqZ by lia.
    f_equal. apply Z.mod_small. lia.
  - by rewrite ring_nil, seqZ_nil by lia.
Qed.

Lemma ring_1 n f g : 0 ≤ f < n → ring n f 1 g = [g f].
Proof. intros. rewrite ring_flat by lia. done. Qed.

Lemma ring_cons n f k g :
  0 ≤ f < n → 0 < k → ring n f k g = g f :: ring n ((f + 1) mod n) (k - 1) g.
Proof.
  intros Hf Hk. replace k with (1 + (k - 1)) at 1 by lia.
  rewrite ring_app, ring_1 by lia. done.
Qed.

Lemma ring_snoc n f k g :
  0 < n → 0 < k → ring n f k g = ring n f (k - 1) g ++ [g ((f + (k - 1)) mod n)].
Proof.
  intros Hn Hk. replace k with ((k - 1) + 1) at 1 by lia.
  rewrite ring_app, ring_1 by (try apply Z.mod_pos_bound; lia). done.
Qed.

Lemma drop_ring n f k m g :
  0 < n → 0 ≤ m ≤ k → drop (Z.to_nat m) (ring n f k g) = ring n ((f + m) mod n) (k - m) g.
Proof.
  intros Hn Hm. replace k with (m + (k - m)) at 1 by lia.
  rewrite ring_app by lia. rewrite drop_app_length'; [done|]. by rewrite length_ring.
Qed.

Lemma take_ring n f k m g :
  0 < n → 0 ≤ m ≤ k → take (Z.to_nat m) (ring n f k g) = ring n f m g.
Proof.
  intros Hn Hm. replace k with (m + (k - m)) at 1 by lia.
  rewrite ring_app by lia. rewrite take_app_length'; [done|]. by rewrite length_ring.
Qed.

(** ** The queue a clist stands for *)

(** The character at a position: its byte, plus [TTY_QUOTE] if it is quoted. *)
Definition char_at (buf : list Z) (cq : option (list Z)) (i : Z) : Z :=
  zth buf i + (match cq with
               | Some q => if bit_get q i then TTY_QUOTE else 0
               | None => 0
               end).

(** A buffer of [n] bytes, with a quoting bitmap when [quot]. *)
Definition mem_ok (n : Z) (quot : bool) (buf : list Z) (cq : option (list Z)) : Prop :=
  0 < n ∧ Z.of_nat (length buf) = n ∧ bytes_ok buf ∧
  match cq with
  | Some q => quot = true ∧ n ≤ bits q ∧ bytes_ok q
  | None => quot = false
  end.

(** [clist_rep n quot clp l]: [clp] holds the characters [l], in order, in a
    buffer of [n]; an empty clist has NULL pointers. *)
Inductive clist_rep (n : Z) (quot : bool) : clist → list Z → Prop :=
| rep_empty buf cq :
    mem_ok n quot buf cq →
    clist_rep n quot (Clist 0 n None None (Some buf) n cq) []
| rep_some buf cq f k :
    mem_ok n quot buf cq → 0 ≤ f < n → 0 < k ≤ n →
    clist_rep n quot (Clist k n (Some f) (Some ((f + k) mod n)) (Some buf) n cq)
      (ring n f k (char_at buf cq)).

(** The code's wrap-around test computes the remainder. *)
Lemma wrap_mod n f c :
  0 < n → 0 ≤ f → 0 ≤ c → f + c ≤ n →
  (if f + c =? n then 0 else f + c) = (f + c) mod n.
Proof. intros. destruct (Z.eqb_spec (f + c) n); ring_mod. Qed.

(** The state an operation that removed characters leaves. *)
Lemma rep_reset n quot buf cq f k cl :
  mem_ok n quot buf cq → 0 ≤ f < n → 0 ≤ k ≤ n → cl = (f + k) mod n →
  clist_rep n quot (reset_if_empty (Clist k n (Some f) (Some cl) (Some buf) n cq))
    (ring n f k (char_at buf cq)).
Proof.
  intros Hm Hf Hk ->. unfold reset_if_empty. cbn. destruct (Z.eqb_spec k 0) as [->|].
  - rewrite ring_nil by done. by constructor.
  - constructor; [done..|lia].
Qed.

Lemma land_quote b : is_u8 b → Z.land b TTY_QUOTE = 0.
Proof.
  intros Hb. apply Z.bits_inj'. intros k Hk. rewrite Z.land_spec, Z.bits_0.
  change TTY_QUOTE with (2 ^ 8).
  destruct (decide (k = 8)) as [->|]; [by rewrite testbit_u8_range|].
  by rewrite Z.pow2_bits_false, andb_false_r by done.
Qed.

Lemma lor_quote b : is_u8 b → Z.lor (Z.land b 255) TTY_QUOTE = b + TTY_QUOTE.
Proof.
  intros Hb. rewrite land_255, (u8_small b) by done.
  symmetry. by apply Z.add_nocarry_lor, land_quote.
Qed.

(** Reading and erasing one position, as [getc] and [unputc] do. *)
Lemma take_char n quot buf cq i :
  mem_ok n quot buf cq → 0 ≤ i < n →
  load buf i = Ret (zth buf i) ∧
  store buf i 0 = Ret (<[Z.to_nat i := 0]> buf) ∧
  ∃ cq', take_quote cq i (Z.land (zth buf i) 0xff) = Ret (char_at buf cq i, cq') ∧
    mem_ok n quot (<[Z.to_nat i := 0]> buf) cq' ∧
    ∀ j, 0 ≤ j < n → j ≠ i → char_at (<[Z.to_nat i := 0]> buf) cq' j = char_at buf cq j.
Proof.
  intros (Hn & Hl & Hb & Hq) Hi. rewrite load_zth, store_in by lia.
  split; [done|]. split; [done|].
  assert (bytes_ok (<[Z.to_nat i := 0]> buf)) as Hb'
    by (apply Forall_insert; [done|unfold is_u8; lia]).
  pose proof (zth_u8 buf i Hb) as Hu. unfold take_quote, char_at.
  destruct cq as [q|].
  - destruct Hq as (-> & Hlq & Hq).
    rewrite isset_spec, bind_Ret_l by lia.
    destruct (clrbit_spec q i Hq ltac:(lia)) as (q' & -> & Lq & Bq & Gq).
    rewrite bind_Ret_l. exists (Some q'). split; [|split].
    + do 2 f_equal. destruct (bit_get q i); [by apply lor_quote|].
      rewrite land_255, u8_small by done. lia.
    + split_and!; [done|by rewrite length_insert|done|done|unfold bits in *; lia|done].
    + intros j Hj Hji. rewrite zth_insert_ne, Gq, bool_decide_true by (done || lia). done.
  - subst quot. exists None. split; [|split].
    + do 2 f_equal. rewrite land_255, u8_small by done. lia.
    + split_and!; [done|by rewrite length_insert|done|done].
    + intros j Hj Hji. rewrite zth_insert_ne by lia. done.
Qed.

(** [getc] takes the first character: on a clist that holds [l] it returns
    the head of [l] with its quoting bit, or -1 when [l] is empty, and leaves
    the tail; it never reads outside the buffer. *)
Lemma getc_dequeues (n : Z) (quot : bool) (q : clist) (l : list Z) :
  clist_rep n quot q l →
  ∃ q', getc q = Ret (match l with [] => -1 | c :: _ => c end, q') ∧
    clist_rep n quot q' (tail l).
Proof.
  intros Hr. destruct Hr as [buf cq Hm|buf cq f k Hm Hf Hk].
  { eexists. split; [done|]. by constructor. }
  unfold getc. cbn. rewrite (proj2 (Z.eqb_neq k 0)) by lia.
  destruct (take_char n quot buf cq f Hm Hf) as (E1 & E2 & cq' & E3 & Hm' & Hc).
  rewrite E1. cbn. rewrite E2. cbn. rewrite E3. cbn.
  rewrite ring_cons, wrap_mod by lia.
  exists (reset_if_empty (Clist (k - 1) n (Some ((f + 1) mod n)) (Some ((f + k) mod n))
            (Some (<[Z.to_nat f := 0]> buf)) n cq')).
  split; [unfold reset_if_empty; cbn; by destruct (k - 1 =? 0)|]. cbn.
  erewrite ring_ext.
  - apply rep_reset; [done|apply Z.mod_pos_bound; lia|lia|].
    rewrite Z.add_mod_idemp_l by lia. f_equal. lia.
  - intros i Hi. symmetry. apply Hc; [apply Z.mod_pos_bound; lia|]. ring_mod.
Qed.

(** Writing unquoted bytes over a run of positions, as [b_to_q] (the caller's
    bytes) and [q_to_b] (zeros) do. *)
Lemma write_chunk n quot buf cq i d :
  mem_ok n quot buf cq → bytes_ok d → 0 ≤ i → 0 < Z.of_nat (length d) →
  i + Z.of_nat (length d) ≤ n →
  ∃ buf' cq', mem_write buf i d = Ret buf' ∧
    clear_quotes cq i (Z.of_nat (length d)) = Ret cq' ∧ mem_ok n quot buf' cq' ∧
    ∀ j, 0 ≤ j < n → char_at buf' cq' j =
      if bool_decide (i ≤ j < i + Z.of_nat (length d)) then zth d (j - i)
      else char_at buf cq j.
Proof.
  intros (Hn & Hl & Hb & Hq) Hd Hi Hd0 Hin.
  destruct (mem_write_spec buf i d) as (buf' & Hw & Lb & Gb); [lia..|].
  assert (bytes_ok buf') as Hb'.
  { apply Forall_zth. intros j Hj. rewrite Gb by lia. case_bool_decide; auto with kern. }
  exists buf'. destruct cq as [q|]; cbn.
  - destruct Hq as (-> & Hlq & Hq).
    destruct (clrbits_spec q i (Z.of_nat (length d))) as (q' & -> & Lq & Bq & Gq); [done|lia..|].
    exists (Some q'). split_and!; [done|done| |].
    + split_and!; [done|lia|done|done|unfold bits in *; lia|done].
    + intros j Hj. unfold char_at. rewrite Gb, Gq by lia. case_bool_decide; cbn; [lia|done].
  - subst quot. exists None. split_and!; [done|done| |].
    + split_and!; [done|lia|done|done].
    + intros j Hj. unfold char_at. rewrite Gb by lia. case_bool_decide; [lia|done].
Qed.

(** The character a queue keeps of the [int] given to [putc]. *)
Definition stored_char (quot : bool) (c : Z) : Z :=
  u8 c + (if quot && negb (Z.land c TTY_QUOTE =? 0) then TTY_QUOTE else 0).

Lemma put_char n quot buf cq i c :
  mem_ok n quot buf cq → 0 ≤ i < n →
  ∃ cq', match cq with
         | Some q => Some <$> (if negb (Z.land c TTY_QUOTE =? 0) then setbit q i else clrbit q i)
         | None => Ret None
         end = Ret cq' ∧
    store buf i (Z.land c 0xff) = Ret (<[Z.to_nat i := Z.land c 0xff]> buf) ∧
    mem_ok n quot (<[Z.to_nat i := Z.land c 0xff]> buf) cq' ∧
    char_at (<[Z.to_nat i := Z.land c 0xff]> buf) cq' i = stored_char quot c ∧
    ∀ j, 0 ≤ j < n → j ≠ i →
      char_at (<[Z.to_nat i := Z.land c 0xff]> buf) cq' j = char_at buf cq j.
Proof.
  intros (Hn & Hl & Hb & Hq) Hi. rewrite store_in by lia.
  assert (bytes_ok (<[Z.to_nat i := Z.land c 0xff]> buf)) as Hb'.
  { apply Forall_insert; [done|]. rewrite land_255. apply u8_range. }
  unfold char_at, stored_char. rewrite land_255 in *. destruct cq as [q|].
  - destruct Hq as (-> & Hlq & Hq).
    assert (∃ q', (if negb (Z.land c TTY_QUOTE =? 0) then setbit q i else clrbit q i) = Ret q' ∧
      bits_are q q' (λ j, if bool_decide (j = i) then negb (Z.land c TTY_QUOTE =? 0)
                          else bit_get q j)) as (q' & -> & Lq & Bq & Gq).
    { destruct (negb _).
      - destruct (setbit_spec q i Hq ltac:(lia)) as (q' & -> & Lq & Bq & Gq).
        exists q'. repeat split; [done..|]. intros j Hj. rewrite Gq by done.
        by case_bool_decide.
      - destruct (clrbit_spec q i Hq ltac:(lia)) as (q' & -> & Lq & Bq & Gq).
        exists q'. repeat split; [done..|]. intros j Hj. rewrite Gq by done. range_cases. }
    exists (Some q'). split_and!; [done|done|split_and!| |].
    all: try done; try (unfold bits in *; rewrite ?length_insert; lia).
    + rewrite Gq, bool_decide_true, zth_insert_eq by lia. done.
    + intros j Hj Hji. rewrite Gq, bool_decide_false, zth_insert_ne by lia. done.
  - subst quot. exists None. split_and!; [done|done|split_and!| |].
    all: try done; try (rewrite ?length_insert; lia).
    + rewrite zth_insert_eq by lia. cbn. lia.
    + intros j Hj Hji. rewrite zth_insert_ne by lia. done.
Qed.

Lemma rep_length n quot q l :
  clist_rep n quot q l → c_cc q = Z.of_nat (length l) ∧ 0 < n ∧ c_cn q = n ∧ c_cc q ≤ n.
Proof.
  intros [buf cq Hm|buf cq f k Hm Hf Hk]; cbn.
  - destruct Hm as (Hn & _). lia.
  - rewrite length_ring. lia.
Qed.

(** [putc] appends one character: on a full clist it returns -1 and changes
    nothing, otherwise it returns 0 and the clist holds one more character, the
    low byte of [c] with its quoting bit if the clist keeps quoting bits. *)
Lemma putc_enqueues (n : Z) (quot : bool) (q : clist) (l : list Z) (c : Z) :
  clist_rep n quot q l →
  if Z.of_nat (length l) =? n then putc c q = Ret (-1, q)
  else ∃ q', putc c q = Ret (0, q') ∧ clist_rep n quot q' (l ++ [stored_char quot c]).
Proof.
  intros Hr. destruct (rep_length _ _ _ _ Hr) as (Hlen & Hn & Hcn & Hle).
  unfold putc. rewrite Hcn, <-Hlen. destruct (Z.eqb_spec (c_cc q) n) as [|Hfull]; [done|].
  destruct Hr as [buf cq Hm|buf cq f k Hm Hf Hk]; cbn.
  - destruct (put_char n quot buf cq 0 c Hm) as (cq' & E1 & E2 & Hm' & Hc & Ho); [lia|].
    rewrite E2. cbn. rewrite E1. cbn. eexists. split; [done|].
    change (if _ =? n then 0 else _) with (if 0 + 1 =? n then 0 else 0 + 1).
    change 1 with (0 + 1) at 1.
    rewrite wrap_mod, <-Hc, <-(ring_1 n 0 (char_at _ cq')) by lia. constructor; [done|lia..].
  - cbn in Hfull. rewrite (proj2 (Z.eqb_neq k 0)) by lia. cbn.
    assert (0 ≤ (f + k) mod n < n) by (apply Z.mod_pos_bound; lia).
    destruct (put_char n quot buf cq ((f + k) mod n) c Hm) as (cq' & E1 & E2 & Hm' & Hc & Ho);
      [done|].
    rewrite E2. cbn. rewrite E1. cbn. eexists. split; [done|].
    rewrite wrap_mod, Z.add_mod_idemp_l by lia.
    rewrite <-Hc, (ring_ext _ _ _ _ (char_at (<[Z.to_nat ((f + k) mod n) := Z.land c 255]> buf) cq')).
    + rewrite <-(ring_1 n _ (char_at _ cq')), <-ring_app by lia.
      replace (f + k + 1) with (f + (k + 1)) by lia. constructor; [done|lia..].
    + intros i Hi. symmetry. apply Ho; [apply Z.mod_pos_bound; lia|].
      ring_mod.
Qed.

(** [unputc] takes the last character back: it returns the last character
    of the queue, or -1 if there is none, and leaves the others. *)
Lemma unputc_retracts (n : Z) (quot : bool) (q : clist) (l : list Z) :
  clist_rep n quot q l →
  ∃ q', unputc q = Ret (List.last l (-1), q') ∧ clist_rep n quot q' (removelast l).
Proof.
  intros Hr. destruct Hr as [buf cq Hm|buf cq f k Hm Hf Hk].
  { eexists. split; [done|]. by constructor. }
  unfold unputc. cbn. rewrite (proj2 (Z.eqb_neq k 0)) by lia.
  replace (if _ =? 0 then n - 1 else _) with ((f + (k - 1)) mod n)
    by (destruct (Z.eqb_spec ((f + k) mod n) 0) as [E|E]; revert E; ring_mod).
  assert (0 ≤ (f + (k - 1)) mod n < n) as Hp by (apply Z.mod_pos_bound; lia).
  destruct (take_char n quot buf cq _ Hm Hp) as (E1 & E2 & cq' & E3 & Hm' & Hc).
  rewrite E1. cbn. rewrite E2. cbn. rewrite E3. cbn.
  rewrite ring_snoc, List.last_last, removelast_last by lia.
  exists (reset_if_empty (Clist (k - 1) n (Some f) (Some ((f + (k - 1)) mod n))
            (Some (<[Z.to_nat ((f + (k - 1)) mod n) := 0]> buf)) n cq')).
  split; [unfold reset_if_empty; cbn; by destruct (k - 1 =? 0)|].
  erewrite ring_ext.
  - apply rep_reset; [done..|lia|done].
  - intros i Hi. symmetry. apply Hc; [apply Z.mod_pos_bound; lia|]. ring_mod.
Qed.

(** ** Block transfers *)

(** The number of characters the loops of [q_to_b] and [ndflush] take in one
    turn: the run from [c_cf] to [c_cl] or to the end of the buffer. *)
Definition run_out (n f cl count : Z) : Z :=
  let cc := if cl <=? f then n - f else cl - f in if count <? cc then count else cc.

Lemma run_out_bounds n f k count :
  0 ≤ f < n → 0 < k ≤ n → 0 < count →
  0 < run_out n f ((f + k) mod n) count ≤ k ∧
  run_out n f ((f + k) mod n) count ≤ count ∧ f + run_out n f ((f + k) mod n) count ≤ n.
Proof.
  intros Hf Hk Hc. unfold run_out.
  destruct (Z.leb_spec ((f + k) mod n) f) as [H|H]; revert H; ring_mod; intros;
    destruct (Z.ltb_spec count (n - f)); destruct (Z.ltb_spec count (f + k - f)); lia.
Qed.

Definition bytes_of (l : list Z) : list Z := u8 <$> l.

Lemma u8_char_at n quot buf cq i : mem_ok n quot buf cq → u8 (char_at buf cq i) = zth buf i.
Proof.
  intros (_ & _ & Hb & _). pose proof (zth_u8 buf i Hb). unfold char_at, TTY_QUOTE.
  destruct cq as [q|]; [destruct (bit_get q i)|]; wrap_lia.
Qed.

(** Copying out and erasing one run. *)
Lemma take_chunk n quot buf cq f c :
  mem_ok n quot buf cq → 0 ≤ f → 0 < c → f + c ≤ n →
  mem_read buf f c = Ret (bytes_of (ring n f c (char_at buf cq))) ∧
  ∃ buf' cq', mem_write buf f (replicate (Z.to_nat c) 0) = Ret buf' ∧
    clear_quotes cq f c = Ret cq' ∧ mem_ok n quot buf' cq' ∧
    ∀ j, 0 ≤ j < n → ¬ (f ≤ j < f + c) → char_at buf' cq' j = char_at buf cq j.
Proof.
  intros Hm Hf Hc Hn. pose proof Hm as (_ & Hl & _). split.
  - rewrite mem_read_spec, ring_flat by lia. f_equal. unfold bytes_of.
    rewrite <-list_fmap_compose. apply list_fmap_ext. intros i x _. cbn.
    by rewrite (u8_char_at n quot).
  - destruct (write_chunk n quot buf cq f (replicate (Z.to_nat c) 0) Hm)
      as (buf' & cq' & E1 & E2 & Hm' & Hc').
    + apply Forall_replicate. unfold is_u8. lia.
    + done.
    + rewrite length_replicateZ by lia. done.
    + rewrite length_replicateZ by lia. done.
    + rewrite length_replicateZ in * by lia. exists buf', cq'. split_and!; [done..|].
      intros j Hj Hout. by rewrite Hc', bool_decide_false by done.
Qed.

Lemma q_to_b_loop_spec n quot fuel : ∀ buf cq f k cl p count,
  mem_ok n quot buf cq → 0 ≤ f < n → 0 ≤ k ≤ n → cl = (f + k) mod n → count ≤ Z.of_nat fuel →
  let m := Z.max 0 (Z.min count k) in
  ∃ buf' cq', q_to_b_loop fuel (Clist k n (Some f) (Some cl) (Some buf) n cq) p count =
    Ret (p ++ bytes_of (ring n f m (char_at buf cq)),
         Clist (k - m) n (Some ((f + m) mod n)) (Some cl) (Some buf') n cq') ∧
    mem_ok n quot buf' cq' ∧
    ring n ((f + m) mod n) (k - m) (char_at buf' cq') =
      ring n ((f + m) mod n) (k - m) (char_at buf cq).
Proof.
  induction fuel as [|fuel IH]; intros buf cq f k cl p count Hm Hf Hk Hcl Hfuel m; cbn.
  all: destruct (Z.ltb_spec 0 count); cbn; [destruct (Z.ltb_spec 0 k); cbn|]; try lia.
  all: try (exists buf, cq; replace m with 0 by lia;
    rewrite ring_nil, app_nil_r, Z.sub_0_r, Z.add_0_r, (Z.mod_small f) by lia; done).
  fold (run_out n f cl count).
  destruct (run_out_bounds n f k count) as (Hc0 & Hc1 & Hc2); [lia..|].
  rewrite <-Hcl in Hc0, Hc1, Hc2. set (c := run_out n f cl count) in *.
  destruct (take_chunk n quot buf cq f c Hm) as (-> & buf1 & cq1 & E1 & E2 & Hm1 & Ho); [lia..|].
  cbn. rewrite E1. cbn. rewrite E2. cbn. rewrite wrap_mod by lia.
  destruct (IH buf1 cq1 ((f + c) mod n) (k - c) cl
    (p ++ bytes_of (ring n f c (char_at buf cq))) (count - c) Hm1)
    as (buf2 & cq2 & E & Hm2 & Hr);
    [apply Z.mod_pos_bound; lia|lia|rewrite Z.add_mod_idemp_l, Hcl by lia; f_equal; lia|lia|].
  replace (Z.max 0 (Z.min (count - c) (k - c))) with (m - c) in * by lia.
  exists buf2, cq2. rewrite E. clear E. rewrite !Z.add_mod_idemp_l in * by lia.
  replace (f + c + (m - c)) with (f + m) in * by lia.
  replace (k - c - (m - c)) with (k - m) in * by lia.
  assert (∀ i, c ≤ i < k → char_at buf1 cq1 ((f + i) mod n) = char_at buf cq ((f + i) mod n)) as Hsame.
  { intros i Hi. apply Ho; [apply Z.mod_pos_bound; lia|]. ring_mod. }
  split_and!; [|done|].
  - do 2 f_equal. rewrite <-app_assoc. f_equal. unfold bytes_of. rewrite <-fmap_app. f_equal.
    replace m with (c + (m - c)) at 2 by lia. rewrite ring_app by lia. f_equal.
    apply ring_ext. intros i Hi. rewrite Z.add_mod_idemp_l by lia.
    replace (f + c + i) with (f + (c + i)) by lia. apply Hsame. lia.
  - rewrite Hr. apply ring_ext. intros i Hi. rewrite Z.add_mod_idemp_l by lia.
    replace (f + m + i) with (f + (m + i)) by lia. apply Hsame. lia.
Qed.

(** The first [count] characters of a queue, for any [int] count. *)
Definition ztake {A} (count : Z) (l : list A) : list A := take (Z.to_nat count) l.
Definition zdrop {A} (count : Z) (l : list A) : list A := drop (Z.to_nat count) l.

Lemma ztake_ring n f k count g :
  0 < n → 0 ≤ k → ztake count (ring n f k g) = ring n f (Z.max 0 (Z.min count k)) g.
Proof.
  intros Hn Hk. unfold ztake. destruct (decide (count ≤ k)).
  - rewrite <-(take_ring n f k (Z.max 0 (Z.min count k))) by lia. f_equal. lia.
  - rewrite take_ge by (rewrite length_ring; lia). f_equal. lia.
Qed.

Lemma zdrop_ring n f k count g :
  0 < n → 0 ≤ k → zdrop count (ring n f k g) =
    ring n ((f + Z.max 0 (Z.min count k)) mod n) (k - Z.max 0 (Z.min count k)) g.
Proof.
  intros Hn Hk. unfold zdrop. destruct (decide (count ≤ k)).
  - rewrite <-(drop_ring n f k (Z.max 0 (Z.min count k))) by lia. f_equal. lia.
  - rewrite drop_ge by (rewrite length_ring; lia). rewrite ring_nil by lia. done.
Qed.

(** [q_to_b] moves up to [count] characters out of the queue: it copies the
    low bytes of the first [count] characters (all of them when there are
    fewer), removes them and stops; its loop runs at most [count] times. *)
Lemma q_to_b_moves (n : Z) (quot : bool) (q : clist) (l : list Z) (count : Z) :
  clist_rep n quot q l →
  ∃ q', q_to_b q count = Ret (bytes_of (ztake count l), q') ∧
    clist_rep n quot q' (zdrop count l).
Proof.
  intros [buf cq Hm|buf cq f k Hm Hf Hk]; unfold q_to_b.
  - exists (Clist 0 n None None (Some buf) n cq).
    unfold ztake, zdrop. rewrite take_nil, drop_nil.
    split; [|by constructor].
    destruct (Z.to_nat count); cbn; rewrite andb_false_r; done.
  - destruct (q_to_b_loop_spec n quot (Z.to_nat count) buf cq f k ((f + k) mod n) [] count Hm Hf)
      as (buf' & cq' & -> & Hm' & Hr); [lia..|].
    eexists. split; [cbn; rewrite ztake_ring by lia; done|].
    rewrite zdrop_ring, <-Hr by lia.
    apply rep_reset; [done|apply Z.mod_pos_bound; lia|lia|].
    rewrite Z.add_mod_idemp_l by lia. f_equal. lia.
Qed.

Lemma ndflush_loop_spec n cs cq cl fuel : ∀ f k count,
  0 ≤ f < n → 0 ≤ k ≤ n → cl = (f + k) mod n → count ≤ Z.of_nat fuel →
  let m := Z.max 0 (Z.min count k) in
  ndflush_loop fuel (Clist k n (Some f) (Some cl) cs n cq) count =
    Ret (Clist (k - m) n (Some ((f + m) mod n)) (Some cl) cs n cq).
Proof.
  induction fuel as [|fuel IH]; intros f k count Hf Hk Hcl Hfuel m; cbn.
  all: destruct (Z.ltb_spec 0 count); cbn; [destruct (Z.ltb_spec 0 k); cbn|]; try lia.
  all: try (replace m with 0 by lia; rewrite Z.sub_0_r, Z.add_0_r, (Z.mod_small f) by lia; done).
  fold (run_out n f cl count).
  destruct (run_out_bounds n f k count) as (Hc0 & Hc1 & Hc2); [lia..|].
  rewrite <-Hcl in Hc0, Hc1, Hc2. set (c := run_out n f cl count) in *.
  rewrite wrap_mod, IH by (try apply Z.mod_pos_bound; rewrite ?Z.add_mod_idemp_l, ?Hcl by lia;
                           first [lia | f_equal; lia]).
  rewrite Z.add_mod_idemp_l by lia. do 2 f_equal; [lia|]. do 2 f_equal. lia.
Qed.

(** [ndflush] drops the first [count] characters of the queue (all of them
    when there are fewer) and keeps the others, whether or not the flushed run
    wraps around the end of the buffer. *)
Lemma ndflush_drops (n : Z) (quot : bool) (q : clist) (l : list Z) (count : Z) :
  clist_rep n quot q l →
  ∃ q', ndflush q count = Ret q' ∧ clist_rep n quot q' (zdrop count l).
Proof.
  intros Hr. unfold ndflush.
  destruct (Z.eqb_spec count (c_cc q)) as [->|Hne].
  - destruct (rep_length _ _ _ _ Hr) as (-> & _).
    unfold zdrop. rewrite Nat2Z.id, drop_all. destruct Hr; eexists; (split; [done|]);
      cbn; by constructor.
  - destruct Hr as [buf cq Hm|buf cq f k Hm Hf Hk].
    + eexists. unfold zdrop. rewrite drop_nil. split; [|by constructor].
      destruct (Z.to_nat count); cbn; rewrite andb_false_r; done.
    + rewrite ndflush_loop_spec by (done || lia).
      eexists. split; [done|]. rewrite zdrop_ring by lia.
      apply rep_reset; [done|apply Z.mod_pos_bound; lia|lia|].
      rewrite Z.add_mod_idemp_l by lia. f_equal. lia.
Qed.

(** The number of characters [b_to_q] stores in one turn. *)
Definition run_in (n f cl count : Z) : Z :=
  let cc := if cl <? f then f - cl else n - cl in if count <? cc then count else cc.

Lemma run_in_bounds n f k count :
  0 ≤ f < n → 0 ≤ k < n → 0 < count →
  0 < run_in n f ((f + k) mod n) count ≤ n - k ∧
  run_in n f ((f + k) mod n) count ≤ count ∧
  (f + k) mod n + run_in n f ((f + k) mod n) count ≤ n.
Proof.
  intros Hf Hk Hc. unfold run_in.
  destruct (Z.ltb_spec ((f + k) mod n) f) as [H|H]; revert H; ring_mod; intros;
    match goal with |- context [if ?a <? ?b then _ else _] => destruct (Z.ltb_spec a b) end; lia.
Qed.

Lemma bytes_ok_take m p : bytes_ok p → bytes_ok (take m p).
Proof. apply Forall_take. Qed.
Lemma bytes_ok_drop m p : bytes_ok p → bytes_ok (drop m p).
Proof. apply Forall_drop. Qed.

Lemma mem_read_0 p c :
  0 ≤ c ≤ Z.of_nat (length p) → mem_read p 0 c = Ret (take (Z.to_nat c) p).
Proof. intros Hc. unfold mem_read. by rewrite bool_decide_true by lia. Qed.

Lemma b_to_q_loop_spec n quot f fuel : ∀ buf cq k cl p count,
  mem_ok n quot buf cq → 0 ≤ f < n → 0 ≤ k ≤ n → cl = (f + k) mod n →
  bytes_ok p → count ≤ Z.of_nat (length p) → count ≤ Z.of_nat fuel →
  let m := Z.max 0 (Z.min count (n - k)) in
  ∃ buf' cq', b_to_q_loop fuel p count (Clist k n (Some f) (Some cl) (Some buf) n cq) =
    Ret (count - m, Clist (k + m) n (Some f) (Some ((f + (k + m)) mod n)) (Some buf') n cq') ∧
    mem_ok n quot buf' cq' ∧
    ring n f (k + m) (char_at buf' cq') = ring n f k (char_at buf cq) ++ take (Z.to_nat m) p.
Proof.
  induction fuel as [|fuel IH];
    intros buf cq k cl p count Hm Hf Hk Hcl Hp Hlen Hfuel m; cbn.
  all: destruct (Z.ltb_spec 0 count); cbn; [destruct (Z.ltb_spec k n); cbn|]; try lia.
  all: try (exists buf, cq; replace m with 0 by lia;
    rewrite take_0, app_nil_r, Z.sub_0_r, Z.add_0_r, <-Hcl; done).
  fold (run_in n f cl count).
  destruct (run_in_bounds n f k count) as (Hc0 & Hc1 & Hc2); [lia..|].
  rewrite <-Hcl in Hc0, Hc1, Hc2. set (c := run_in n f cl count) in *.
  rewrite mem_read_0 by lia. cbn.
  assert (0 ≤ cl < n) as Hcl' by (subst cl; apply Z.mod_pos_bound; lia).
  assert (Z.of_nat (length (take (Z.to_nat c) p)) = c) as Hd by (rewrite length_take; lia).
  destruct (write_chunk n quot buf cq cl (take (Z.to_nat c) p) Hm)
    as (buf1 & cq1 & E1 & E2 & Hm1 & Hc); [by apply bytes_ok_take|lia..|].
  rewrite Hd in *. rewrite E1. cbn. rewrite E2. cbn. rewrite wrap_mod by lia.
  destruct (IH buf1 cq1 (k + c) ((cl + c) mod n) (drop (Z.to_nat c) p) (count - c) Hm1)
    as (buf2 & cq2 & E & Hm2 & Hr);
    [lia|lia|subst cl; rewrite Z.add_mod_idemp_l by lia; f_equal; lia
    |by apply bytes_ok_drop|rewrite length_drop; lia|lia|].
  replace (Z.max 0 (Z.min (count - c) (n - (k + c)))) with (m - c) in * by lia.
  exists buf2, cq2. rewrite E. clear E.
  replace (k + c + (m - c)) with (k + m) in * by lia.
  split_and!; [do 2 f_equal; lia|done|]. rewrite Hr.
  rewrite ring_app by lia. rewrite <-Hcl, <-app_assoc. f_equal.
  - apply ring_ext. intros i Hi. rewrite Hc by (apply Z.mod_pos_bound; lia).
    rewrite bool_decide_false; [done|]. subst cl. revert Hc2. ring_mod.
  - rewrite ring_flat by lia. replace (Z.to_nat m) with (Z.to_nat c + Z.to_nat (m - c))%nat by lia.
    rewrite <-take_take_drop. f_equal. apply zth_list_eq; [rewrite length_fmap, length_seqZ; lia|].
    intros i Hi. rewrite length_fmap, length_seqZ in Hi.
    rewrite (zth_seqZ (char_at buf1 cq1)), Hc, bool_decide_true by lia. f_equal. lia.
Qed.

(** [b_to_q] appends as many of the [count] bytes at [cp] as there is room
    for, unquoted and in order, and returns the number it did not transfer. *)
Lemma b_to_q_appends (n : Z) (quot : bool) (q : clist) (l cp : list Z) (count : Z) :
  clist_rep n quot q l → bytes_ok cp → count ≤ Z.of_nat (length cp) →
  let room := n - Z.of_nat (length l) in
  ∃ q', b_to_q cp count q = Ret (Z.max 0 count - Z.max 0 (Z.min count room), q') ∧
    clist_rep n quot q' (l ++ ztake (Z.min count room) cp).
Proof.
  intros Hr Hcp Hlen room. destruct (rep_length _ _ _ _ Hr) as (Hcc & Hn & Hcn & Hle).
  unfold b_to_q, ztake. rewrite Hcn.
  destruct (Z.leb_spec count 0).
  { exists q. split; [do 2 f_equal; lia|].
    by replace (Z.to_nat (Z.min count room)) with O by lia; rewrite take_0, app_nil_r. }
  destruct (Z.eqb_spec (c_cc q) n) as [|Hfull].
  { exists q. split; [do 2 f_equal; lia|].
    by replace (Z.to_nat (Z.min count room)) with O by lia; rewrite take_0, app_nil_r. }
  assert (∃ buf cq f k, q = Clist k n (if k =? 0 then None else Some f)
      (if k =? 0 then None else Some ((f + k) mod n)) (Some buf) n cq ∧
    mem_ok n quot buf cq ∧ 0 ≤ f < n ∧ 0 ≤ k < n ∧ l = ring n f k (char_at buf cq) ∧
    (k = 0 → f = 0)) as (buf & cq & f & k & -> & Hm & Hf & Hk & -> & Hf0).
  { destruct Hr as [buf cq Hm|buf cq f k Hm Hf Hk]; cbn in *.
    - exists buf, cq, 0, 0. rewrite ring_nil by done. split_and!; done || lia.
    - exists buf, cq, f, k. rewrite (proj2 (Z.eqb_neq k 0)) by lia. split_and!; done || lia. }
  destruct (b_to_q_loop_spec n quot f (Z.to_nat count) buf cq k ((f + k) mod n) cp count Hm)
    as (buf' & cq' & E & Hm' & Hring); [lia|lia|done|done|done|lia|].
  assert (room = n - k) as Hroom by (unfold room; rewrite length_ring; lia).
  clearbody room. subst room. cbn.
  eexists. split.
  - match goal with |- ?L = _ => assert (L = b_to_q_loop (Z.to_nat count) cp count
      (Clist k n (Some f) (Some ((f + k) mod n)) (Some buf) n cq)) as -> end.
    { destruct (Z.eqb_spec k 0) as [Hk0|]; [|done].
      by rewrite (Hf0 Hk0), Hk0, Z.mod_0_l by lia. }
    rewrite E, (Z.max_r 0 count) by lia. done.
  - rewrite Z.max_r in Hring by lia. rewrite <-Hring, Z.max_r by lia. constructor; done || lia.
Qed.

(** ** Walking a queue and concatenating queues *)

#[global] Arguments peek : simpl never.

Lemma peek_char n quot buf cq clp i :
  mem_ok n quot buf cq → c_cs clp = Some buf → c_cq clp = cq → 0 ≤ i < n →
  peek clp i = Ret (char_at buf cq i).
Proof.
  intros (Hn & Hl & Hb & Hq) Ecs Ecq Hi. unfold peek, char_at. rewrite Ecs, Ecq. cbn.
  rewrite load_zth by lia. cbn. pose proof (zth_u8 buf i Hb) as Hu. destruct cq as [q|].
  - destruct Hq as (_ & Hlq & _). rewrite isset_spec by lia. cbn. f_equal.
    destruct (bit_get q i); [by apply lor_quote|]. rewrite land_255, u8_small by done. lia.
  - rewrite land_255, u8_small by done. f_equal. lia.
Qed.

Lemma echo_from_spec n quot buf cq f k cl fuel : ∀ i,
  mem_ok n quot buf cq → 0 ≤ f < n → 0 ≤ i < k → k ≤ n → k - i ≤ Z.of_nat fuel →
  echo_from fuel (Clist k n (Some f) cl (Some buf) n cq)
    (Some ((f + i) mod n)) (char_at buf cq ((f + i) mod n)) (k - i) =
  Ret (ring n ((f + i) mod n) (k - i) (char_at buf cq)).
Proof.
  induction fuel as [|fuel IH]; intros i Hm Hf Hi Hk Hfuel; [lia|]. cbn [echo_from].
  assert (0 ≤ (f + i) mod n < n) as Hp by (apply Z.mod_pos_bound; lia).
  unfold nextc. cbn -[Z.sub].
  assert ((if bool_decide (Some f = Some ((f + i) mod n)) then k else k - i) = k - i) as ->.
  { case_bool_decide as E; [|done]. revert E. ring_mod; intros [=]; lia. }
  rewrite (proj2 (Z.eqb_neq (k - i) 0)) by lia. rewrite ring_cons by lia.
  destruct (Z.eqb_spec (k - i - 1) 0) as [E|E].
  { rewrite E, ring_nil by done. destruct fuel; done. }
  rewrite wrap_mod, Z.add_mod_idemp_l by lia.
  rewrite (peek_char n quot buf cq) by (done || (apply Z.mod_pos_bound; lia)). cbn -[Z.sub].
  replace (f + i + 1) with (f + (i + 1)) by lia. replace (k - i - 1) with (k - (i + 1)) by lia.
  rewrite IH by (done || lia). done.
Qed.

(** walking a queue with [firstc] and [nextc], as [ttyretype] does, visits
    every character of the queue once, in order, and then stops. *)
Theorem firstc_nextc_walk (n : Z) (quot : bool) (q : clist) (l : list Z) (c : Z) :
  clist_rep n quot q l → echo_all q c = Ret l.
Proof.
  intros [buf cq Hm|buf cq f k Hm Hf Hk]; unfold echo_all, firstc; [done|].
  cbn. rewrite (proj2 (Z.eqb_neq k 0)) by lia. cbn.
  rewrite (peek_char n quot buf cq) by (done || lia). cbn.
  pose proof (echo_from_spec n quot buf cq f k (Some ((f + k) mod n)) (Z.to_nat k) 0) as H.
  rewrite Z.add_0_r, (Z.mod_small f n), Z.sub_0_r in H by lia. apply H; done || lia.
Qed.

(** The characters a queue can hold. *)
Definition queue_char (quot : bool) (c : Z) : Prop := 0 ≤ c ∧ stored_char quot c = c.

Lemma char_at_queue_char n quot buf cq i : mem_ok n quot buf cq → queue_char quot (char_at buf cq i).
Proof.
  intros (_ & _ & Hb & Hq). pose proof (zth_u8 buf i Hb) as Hu. set (b := zth buf i) in *.
  assert (queue_char quot b) as Hplain.
  { unfold queue_char, stored_char. rewrite u8_small, land_quote, andb_false_r by done.
    unfold is_u8 in Hu. lia. }
  unfold char_at. fold b. destruct cq as [q|]; [destruct Hq as (-> & _)|]; cbn.
  2: by rewrite Z.add_0_r.
  destruct (bit_get q i); [|by rewrite Z.add_0_r].
  unfold queue_char, stored_char. split; [unfold is_u8, TTY_QUOTE in *; lia|].
  assert (Z.land (b + TTY_QUOTE) TTY_QUOTE = TTY_QUOTE) as ->.
  { rewrite <-lor_quote, land_255, u8_small, Z.land_lor_distr_l by done.
    by rewrite land_quote, Z.land_diag, Z.lor_0_l. }
  cbn. unfold TTY_QUOTE. wrap_lia.
Qed.

Lemma rep_queue_chars n quot q l : clist_rep n quot q l → Forall (queue_char quot) l.
Proof.
  intros [buf cq Hm|buf cq f k Hm Hf Hk]; [constructor|].
  apply Forall_fmap, Forall_forall. intros i _. by eapply char_at_queue_char.
Qed.

Lemma catq_loop_spec n1 n2 quot fuel : ∀ from to l1 l2,
  clist_rep n1 quot from l1 → clist_rep n2 quot to l2 → (length l1 < fuel)%nat →
  ∃ from' to', catq_loop fuel from to = Ret (from', to') ∧
    clist_rep n1 quot from' [] ∧ clist_rep n2 quot to' (ztake n2 (l2 ++ l1)).
Proof.
  induction fuel as [|fuel IH]; intros from to l1 l2 H1 H2 Hfuel; [lia|]. cbn [catq_loop].
  destruct (getc_dequeues _ _ _ _ H1) as (from' & -> & H1'). cbn.
  destruct (rep_length _ _ _ _ H2) as (Hcc & Hn2 & _ & Hle). rewrite Hcc in Hle.
  destruct l1 as [|c l1].
  { exists from', to. rewrite app_nil_r. split_and!; [done|done|].
    unfold ztake. by rewrite take_ge by lia. }
  pose proof (rep_queue_chars _ _ _ _ H1) as Hc. apply Forall_cons in Hc as [[Hc Hs] _].
  rewrite (proj2 (Z.eqb_neq c (-1))) by lia. cbn in *.
  pose proof (putc_enqueues n2 quot to l2 c H2) as Hp.
  destruct (Z.eqb_spec (Z.of_nat (length l2)) n2) as [E|E].
  - rewrite Hp. cbn. destruct (IH from' to l1 l2 H1' H2) as (f & t & -> & Hf & Ht); [lia|].
    exists f, t. split_and!; [done|done|]. unfold ztake in *.
    rewrite take_app_le in * by lia. done.
  - destruct Hp as (to' & -> & H2'). cbn. rewrite Hs in H2'.
    destruct (IH from' to' l1 _ H1' H2') as (f & t & -> & Hf & Ht); [lia|].
    exists f, t. split_and!; [done|done|]. by rewrite <-app_assoc in Ht.
Qed.

(** [catq] empties [from] into [to]: afterwards [from] is empty and [to]
    holds its own characters followed by those of [from], cut at the size of its
    buffer (the characters that do not fit are lost). *)
Theorem catq_concatenates (n1 n2 : Z) (quot : bool) (from to : clist) (l1 l2 : list Z) :
  clist_rep n1 quot from l1 → clist_rep n2 quot to l2 →
  ∃ from' to', catq from to = Ret (from', to') ∧
    clist_rep n1 quot from' [] ∧ clist_rep n2 quot to' (ztake n2 (l2 ++ l1)).
Proof.
  intros H1 H2. destruct (rep_length _ _ _ _ H1) as (Hc1 & Hn1 & Hcn1 & Hle1).
  destruct (rep_length _ _ _ _ H2) as (Hc2 & Hn2 & Hcn2 & Hle2).
  unfold catq, ztake. rewrite Hcn1, Hcn2. destruct (Z.eqb_spec (c_cc from) 0) as [E|E].
  { destruct l1; [|cbn in Hc1; lia]. exists from, to.
    split_and!; [done|done|]. by rewrite app_nil_r, take_ge by lia. }
  destruct (Z.eqb_spec (c_cc to) 0) as [E2|E2]; [destruct (Z.eqb_spec n1 n2) as [->|Hne]|];
    cbn [andb].
  - destruct l2; [|cbn in Hc2; lia]. exists to, from. split_and!; [done|done|].
    by rewrite app_nil_l, take_ge by lia.
  - apply (catq_loop_spec n1 n2 quot); [done|done|lia].
  - apply (catq_loop_spec n1 n2 quot); [done|done|lia].
Qed.

Lemma clalloc_rep n quot : 0 < n → clist_rep n quot (clalloc n quot) [].
Proof.
  intros Hn. unfold clalloc. constructor. split_and!; [done|by apply length_replicateZ; lia| |].
  - apply Forall_replicate. unfold is_u8. lia.
  - destruct quot; [|done]. split_and!; [done| |apply Forall_replicate; unfold is_u8; lia].
    unfold bits, QMEM, NBBY. rewrite Z.quot_div_nonneg by lia.
    rewrite length_replicateZ by zmod. zmod.
Qed.

(** ** [ndqb] *)

(** with flag 0, [ndqb] returns the length of the run of characters that can
    be read without wrapping: all of them if they do not reach the end of the
    buffer, and a non-empty prefix otherwise; it returns 0 only on an empty queue. *)
Lemma ndqb_contiguous (n : Z) (quot : bool) (q : clist) (l : list Z) :
  clist_rep n quot q l →
  ∃ m, ndqb q 0 = Ret m ∧ 0 ≤ m ≤ Z.of_nat (length l) ∧ (m = 0 ↔ l = []) ∧
    ∀ cf cs, c_cf q = Some cf → c_cs q = Some cs →
      mem_read cs cf m = Ret (bytes_of (ztake m l)).
Proof.
  intros [buf cq Hm|buf cq f k Hm Hf Hk]; unfold ndqb; cbn.
  { exists 0. split_and!; done || lia. }
  rewrite (proj2 (Z.eqb_neq k 0)) by lia. cbn.
  destruct (run_out_bounds n f k k) as (H1 & _ & H3); [lia..|].
  assert ((if (f + k) mod n - f <=? 0 then n - f else (f + k) mod n - f) =
    run_out n f ((f + k) mod n) k) as ->.
  { unfold run_out. destruct (Z.leb_spec ((f + k) mod n) f) as [H|H]; revert H; ring_mod; intros;
      repeat match goal with
      | |- context [?a <=? ?b] => destruct (Z.leb_spec a b)
      | |- context [?a <? ?b] => destruct (Z.ltb_spec a b)
      end; lia. }
  set (m := run_out n f ((f + k) mod n) k) in *.
  exists m. rewrite length_ring. split; [done|]. split; [lia|]. split.
  - rewrite ring_cons by lia. split; [lia|done].
  - intros ? ? [= <-] [= <-]. rewrite ztake_ring, Z.max_r, Z.min_l by lia.
    apply (take_chunk n quot buf cq f m Hm); lia.
Qed.

(** ** The contract: a bounded queue *)

(** One call of the interface of a clist. *)
Inductive clist_op : Type :=
| Getc
| Putc (c : Z)
| Unputc
| Q_to_b (count : Z)
| B_to_q (cp : list Z) (count : Z)
| Ndflush (count : Z).

(** What a call gives its caller: a number, or the bytes moved. *)
Inductive clist_result : Type :=
| RInt (r : Z)
| RBytes (p : list Z)
| RVoid.

Definition clist_call (op : clist_op) (q : clist) : outcome (clist_result * clist) :=
  match op with
  | Getc => '(c, q) ← getc q; Ret (RInt c, q)
  | Putc c => '(r, q) ← putc c q; Ret (RInt r, q)
  | Unputc => '(c, q) ← unputc q; Ret (RInt c, q)
  | Q_to_b count => '(p, q) ← q_to_b q count; Ret (RBytes p, q)
  | B_to_q cp count => '(r, q) ← b_to_q cp count q; Ret (RInt r, q)
  | Ndflush count => q ← ndflush q count; Ret (RVoid, q)
  end.

(** The same call on a queue of at most [n] characters. *)
Definition queue_call (n : Z) (quot : bool) (op : clist_op) (l : list Z) :
    clist_result * list Z :=
  let room := n - Z.of_nat (length l) in
  match op with
  | Getc => (RInt (match l with [] => -1 | c :: _ => c end), tail l)
  | Putc c => if room =? 0 then (RInt (-1), l) else (RInt 0, l ++ [stored_char quot c])
  | Unputc => (RInt (List.last l (-1)), removelast l)
  | Q_to_b count => (RBytes (bytes_of (ztake count l)), zdrop count l)
  | B_to_q cp count =>
      (RInt (Z.max 0 count - Z.max 0 (Z.min count room)), l ++ ztake (Z.min count room) cp)
  | Ndflush count => (RVoid, zdrop count l)
  end.

(** The caller's part: [b_to_q] is given at least [count] bytes. *)
Definition op_ok (op : clist_op) : Prop :=
  match op with
  | B_to_q cp count => bytes_ok cp ∧ count ≤ Z.of_nat (length cp)
  | _ => True
  end.

Fixpoint clist_run (ops : list clist_op) (q : clist) : outcome (list clist_result * clist) :=
  match ops with
  | [] => Ret ([], q)
  | op :: ops =>
      '(r, q) ← clist_call op q;
      '(rs, q) ← clist_run ops q;
      Ret (r :: rs, q)
  end.

Fixpoint queue_run (n : Z) (quot : bool) (ops : list clist_op) (l : list Z) :
    list clist_result * list Z :=
  match ops with
  | [] => ([], l)
  | op :: ops =>
      let '(r, l) := queue_call n quot op l in
      let '(rs, l) := queue_run n quot ops l in
      (r :: rs, l)
  end.

Lemma clist_call_refines n quot op q l :
  clist_rep n quot q l → op_ok op →
  ∃ q', clist_call op q = Ret ((queue_call n quot op l).1, q') ∧
    clist_rep n quot q' (queue_call n quot op l).2.
Proof.
  intros Hr Hop. destruct op as [|c| |count|cp count|count]; cbn.
  - destruct (getc_dequeues _ _ _ _ Hr) as (q' & -> & H). eauto.
  - pose proof (putc_enqueues n quot q l c Hr) as Hp.
    destruct (Z.eqb_spec (n - Z.of_nat (length l)) 0); destruct (Z.eqb_spec (Z.of_nat (length l)) n);
      try lia.
    + rewrite Hp. eauto.
    + destruct Hp as (q' & -> & Hp). eauto.
  - destruct (unputc_retracts _ _ _ _ Hr) as (q' & -> & H). eauto.
  - destruct (q_to_b_moves _ _ _ _ count Hr) as (q' & -> & H). eauto.
  - destruct Hop as [Hcp Hcount].
    destruct (b_to_q_appends n quot q l cp count Hr Hcp Hcount) as (q' & -> & Hq'). eauto.
  - destruct (ndflush_drops _ _ _ _ count Hr) as (q' & -> & H). eauto.
Qed.

Lemma clist_run_refines n quot ops : ∀ q l,
  clist_rep n quot q l → Forall op_ok ops →
  ∃ q', clist_run ops q = Ret ((queue_run n quot ops l).1, q') ∧
    clist_rep n quot q' (queue_run n quot ops l).2.
Proof.
  induction ops as [|op ops IH]; intros q l Hr Hops; [by exists q|].
  apply Forall_cons in Hops as [Hop Hops].
  destruct (clist_call_refines n quot op q l Hr Hop) as (q1 & E1 & Hr1).
  destruct (IH q1 _ Hr1 Hops) as (q2 & E2 & Hr2).
  exists q2. cbn. rewrite E1. cbn. rewrite E2. cbn.
  destruct (queue_call n quot op l) as [r l1]. cbn in *.
  by destruct (queue_run n quot ops l1).
Qed.

(** C33: a clist is a bounded queue.  Whatever sequence of [getc], [putc],
    [unputc], [q_to_b], [b_to_q] and [ndflush] calls is made on a clist fresh from
    [clalloc], every call returns (no access outside the ring or the quoting
    bitmap, no loop that runs on), each result is the one a queue of at most
    [size] characters gives, and the clist left holds that queue's characters. *)
Theorem clist_refines_queue (size : Z) (quot : bool) (ops : list clist_op) :
  0 < size → Forall op_ok ops →
  ∃ q', clist_run ops (clalloc size quot) = Ret ((queue_run size quot ops []).1, q') ∧
    clist_rep size quot q' (queue_run size quot ops []).2.
Proof. intros Hs Hops. apply clist_run_refines; [by apply clalloc_rep|done]. Qed.

Lemma clist_refines_queue_witness :
  ∃ q', clist_run [B_to_q [65; 66; 67] 3; Getc; Putc 0x144; B_to_q [70; 71] 2; Q_to_b 3]
      (clalloc 4 true) =
    Ret ([RInt 0; RInt 65; RInt 0; RInt 1; RBytes [66; 67; 68]], q') ∧
    clist_rep 4 true q' [70].
Proof.
  apply (clist_refines_queue 4 true
    [B_to_q [65; 66; 67] 3; Getc; Putc 0x144; B_to_q [70; 71] 2; Q_to_b 3]); [lia|].
  repeat constructor; cbn; unfold is_u8; lia.
Defined.

(** A clist of 4 whose two characters, the second one quoted, wrap around. *)
Definition sample_clist : clist :=
  Clist 2 4 (Some 3) (Some 1) (Some [66; 0; 0; 65]) 4 (Some [1]).

Lemma sample_clist_rep : clist_rep 4 true sample_clist [65; 322].
Proof.
  apply (rep_some 4 true [66; 0; 0; 65] (Some [1]) 3 2); [|lia|lia].
  split_and!; try done; repeat constructor; unfold is_u8; lia.
Qed.

Lemma firstc_nextc_walk_witness : echo_all sample_clist 7 = Ret [65; 322].
Proof. apply (firstc_nextc_walk 4 true), sample_clist_rep. Defined.

Lemma catq_concatenates_witness :
  ∃ from' to', catq sample_clist sample_clist = Ret (from', to') ∧
    clist_rep 4 true from' [] ∧ clist_rep 4 true to' [65; 322; 65; 322].
Proof.
  apply (catq_concatenates 4 4 true sample_clist sample_clist [65; 322] [65; 322]);
    apply sample_clist_rep.
Defined.

(** asked to stop at quoted characters (flag [TTY_QUOTE]), [ndqb] tests the
    quoting bit of the character after the one it counts: a quoted first character
    is counted, a quoted second one stops the count before the first, and when the
    run reaches the last position of a buffer whose size is a multiple of 8 the
    bit tested lies outside the bitmap. *)
Theorem ndqb_quote_off_by_one :
  let quoted c := Z.lor c TTY_QUOTE in
  ('(_, q) ← clist_run [Putc (quoted 65); Putc 66] (clalloc 8 true); ndqb q TTY_QUOTE) = Ret 2 ∧
  ('(_, q) ← clist_run [Putc 65; Putc (quoted 66)] (clalloc 8 true); ndqb q TTY_QUOTE) = Ret 0 ∧
  ('(_, q) ← clist_run [B_to_q (replicate 8 65) 8] (clalloc 8 true); ndqb q TTY_QUOTE) =
    Fault OutOfBounds.
Proof. split_and!; reflexivity. Qed.
