(* ===== verification/RangeAllocator.v ===== *)
(** The interface of an allocator of ranges of integers, and what its clients
    get from it: the kernel's drivers ask [extent_alloc_subregion] and
    [extent_alloc_region] (sys/kern/subr_extent.c) for ranges, keep what they
    are given, and hand it back to [extent_free]; the swap code asks
    [blist_alloc] (sys/kern/subr_blist.c) for blocks and hands them back to
    [blist_free]. *)

From S2P Require Import Prelude.

(** A range: its first address and its size. *)
Definition range : Type := Z * Z.
Definition in_range (g : range) (a : Z) : Prop := g.1 ≤ a < g.1 + g.2.
Definition disjoint_ranges (g h : range) : Prop := ∀ a, ¬ (in_range g a ∧ in_range h a).

(** [alloc s r] serves the request [r] and gives the range granted, if any;
    [free s g] takes a range back and tells whether it did.  [inv] holds of the
    states that occur, [ok] of the requests allowed, [owned] of the addresses
    that are handed out. *)
Class RangeAllocator {S R : Type} (alloc : S → R → outcome (S * option range))
    (free : S → range → outcome (S * bool))
    (inv : S → Prop) (ok : R → Prop) (owned : S → Z → Prop) : Prop := {
  ra_alloc s r : inv s → ok r →
    ∃ s' og, alloc s r = Ret (s', og) ∧ inv s' ∧
      match og with
      | Some g => 1 ≤ g.2 ∧ (∀ a, in_range g a → ¬ owned s a) ∧
          ∀ a, owned s' a ↔ owned s a ∨ in_range g a
      | None => ∀ a, owned s' a ↔ owned s a
      end;
  ra_free s g : inv s → 1 ≤ g.2 → (∀ a, in_range g a → owned s a) →
    ∃ s' b, free s g = Ret (s', b) ∧ inv s' ∧
      if (b : bool) then ∀ a, owned s' a ↔ owned s a ∧ ¬ in_range g a
      else ∀ a, owned s' a ↔ owned s a;
}.

(** ** A client *)

(** A client asks for ranges and gives back the [i]th of those it holds. *)
Inductive client_op (R : Type) : Type :=
| Ask (r : R)
| GiveBack (i : nat).
Arguments Ask {R} r.
Arguments GiveBack {R} i.

Section Client.
Context {S R : Type} (alloc : S → R → outcome (S * option range)).
Context (free : S → range → outcome (S * bool)).

Definition client_step (st : S * list range) (op : client_op R) : outcome (S * list range) :=
  let '(s, held) := st in
  match op with
  | Ask r =>
      '(s, og) ← alloc s r;
      Ret (s, match og with Some g => g :: held | None => held end)
  | GiveBack i =>
      match held !! i with
      | None => Ret (s, held)
      | Some g => '(s, b) ← free s g; Ret (s, if (b : bool) then delete i held else held)
      end
  end.

Fixpoint client_run (st : S * list range) (ops : list (client_op R)) : outcome (S * list range) :=
  match ops with
  | [] => Ret st
  | op :: ops => st ← client_step st op; client_run st ops
  end.

Context (inv : S → Prop) (ok : R → Prop) (owned : S → Z → Prop).
Context `{!RangeAllocator alloc free inv ok owned}.

(** The ranges held are not empty, do not overlap, and are what is handed out. *)
Fixpoint apart (held : list range) : Prop :=
  match held with
  | [] => True
  | g :: held => 1 ≤ g.2 ∧ Forall (disjoint_ranges g) held ∧ apart held
  end.

Definition client_ok (st : S * list range) : Prop :=
  inv st.1 ∧ apart st.2 ∧ ∀ a, owned st.1 a ↔ Exists (λ g, in_range g a) st.2.

Definition op_ok (op : client_op R) : Prop :=
  match op with Ask r => ok r | GiveBack _ => True end.

Lemma apart_lookup held i g : apart held → held !! i = Some g → 1 ≤ g.2.
Proof using Type.
  revert i. induction held as [|h held IH]; intros [|i] Ha Hi; cbn in *; try done;
    [by simplify_eq; apply Ha|]. by eapply IH; [apply Ha|].
Qed.

(** Giving one range back leaves the others. *)
Lemma apart_delete held i g :
  apart held → held !! i = Some g →
  apart (delete i held) ∧ ∀ a, Exists (λ h, in_range h a) (delete i held) ↔
    Exists (λ h, in_range h a) held ∧ ¬ in_range g a.
Proof using Type.
  revert i. induction held as [|h held IH]; intros i Ha Hi; [done|].
  destruct Ha as (Hn & Hd & Ha). destruct i as [|i]; cbn in *.
  - simplify_eq. split; [done|]. intros a. rewrite Exists_cons.
    rewrite Forall_forall in Hd. rewrite !Exists_exists. split; [|naive_solver].
    intros (h & Hin & Hh). split; [eauto|]. intros Hg. by apply (Hd h Hin a).
  - destruct (IH i Ha Hi) as [Ha' Hex]. split.
    + split_and!; [done|by apply Forall_delete|done].
    + intros a. rewrite !Exists_cons, Hex. split; [|naive_solver].
      intros [Hh|Hh]; [|naive_solver]. split; [by left|]. intros Hg.
      rewrite Forall_forall in Hd. refine (Hd g _ a (conj Hh Hg)). by eapply list_elem_of_lookup_2.
Qed.

Lemma client_step_ok st op :
  client_ok st → op_ok op → ∃ st', client_step st op = Ret st' ∧ client_ok st'.
Proof using All.
  destruct st as [s held]. intros (Hinv & Hap & Hown) Hop. cbn in Hinv, Hap, Hown.
  destruct op as [r|i]; cbn.
  - destruct (ra_alloc s r Hinv Hop) as (s' & og & -> & Hinv' & Hog). cbn.
    eexists. split; [done|]. split; [done|]. destruct og as [g|]; cbn.
    + destruct Hog as (Hn & Hfree & Hown'). split.
      * split_and!; [done| |done]. apply Forall_forall. intros h Hh a [Hg Hha].
        apply (Hfree a Hg), Hown, Exists_exists. eauto.
      * intros a. rewrite Hown', Exists_cons, Hown. tauto.
    + split; [done|]. intros a. by rewrite Hog.
  - destruct (held !! i) as [g|] eqn:Hi; [|by eexists].
    destruct (ra_free s g Hinv) as (s' & b & -> & Hinv' & Hb).
    { by eapply apart_lookup. }
    { intros a Ha. apply Hown, Exists_exists. exists g. split; [by eapply list_elem_of_lookup_2|done]. }
    cbn. eexists. split; [done|]. split; [done|]. destruct b; cbn.
    + destruct (apart_delete held i g Hap Hi) as [Hap' Hex]. split; [done|].
      intros a. by rewrite Hb, Hex, Hown.
    + split; [done|]. intros a. by rewrite Hb.
Qed.

Lemma client_run_ok st ops :
  client_ok st → Forall op_ok ops → ∃ st', client_run st ops = Ret st' ∧ client_ok st'.
Proof using All.
  intros Hst Hops. revert st Hst. induction Hops as [|op ops Hop _ IH]; intros st Hst; cbn.
  { by exists st. }
  destruct (client_step_ok st op Hst Hop) as (st' & -> & Hst'). by apply IH.
Qed.
End Client.

(** A client of any range allocator, through any sequence of requests and
    of ranges given back, never makes the allocator fail, and at every moment
    holds non-empty ranges that do not overlap and are together exactly what the
    allocator has handed out. *)
Lemma range_client {S R : Type} (alloc : S → R → outcome (S * option range))
    (free : S → range → outcome (S * bool)) (inv : S → Prop) (ok : R → Prop) (owned : S → Z → Prop)
    `{!RangeAllocator alloc free inv ok owned} s ops :
  inv s → (∀ a, ¬ owned s a) → Forall (op_ok ok) ops →
  ∃ s' held, client_run alloc free (s, []) ops = Ret (s', held) ∧ inv s' ∧ apart held ∧
    ∀ a, owned s' a ↔ Exists (λ g, in_range g a) held.
Proof.
  intros Hinv Hown Hops.
  destruct (client_run_ok alloc free inv ok owned (s, []) ops) as ([s' held] & Hrun & Hinv' & Hap & H);
    [|done|by eexists _, _].
  split; [done|]. split; [done|]. intros a. rewrite Exists_nil. by split; [intros ?%Hown|].
Qed.
