(* ===== verification/Extent.v ===== *)
(** Extent maps: sys/kern/subr_extent.c and sys/sys/extent.h, the allocator of
    ranges of addresses (bus space, DVMA, interrupt numbers). *)

From S2P Require Import Prelude RangeAllocator.
From Stdlib Require Import Sorted.

(** ** Data *)

Definition EAGAIN : Z := 35.
Definition ENOMEM : Z := 12.

Definition ER_ALLOC : Z := 0x01.
Definition ER_DISCARD : Z := 0x02.

Definition EXF_FIXED : Z := 0x01.
Definition EXF_NOCOALESCE : Z := 0x02.
Definition EXF_WANTED : Z := 0x04.
Definition EXF_FLWANTED : Z := 0x08.

Definition EX_NOWAIT : Z := 0x0000.
Definition EX_WAITOK : Z := 0x0001.
Definition EX_FAST : Z := 0x0002.
Definition EX_CATCH : Z := 0x0004.
Definition EX_NOCOALESCE : Z := 0x0008.
Definition EX_MALLOCOK : Z := 0x0010.
Definition EX_WAITSPACE : Z := 0x0020.
Definition EX_BOUNDZERO : Z := 0x0040.
Definition EX_CONFLICTOK : Z := 0x0080.
Definition EX_FILLED : Z := 0x0100.

Record extent_region : Type := Region {
  er_start : Z;
  er_end : Z;
  er_flags : Z;
}.

(** What is slept on. *)
Inductive wchan : Type := ChanExtent | ChanFreelist.

(** [struct extent] with the freelist of [struct extent_fixed].  A descriptor
    that is not in the region list is its [er_flags]; [ex_wakeups] records the
    calls of [wakeup], latest first. *)
Record extent : Type := Extent {
  ex_name : string;
  ex_regions : list extent_region;
  ex_start : Z;
  ex_end : Z;
  ex_mtype : Z;
  ex_flags : Z;
  fex_freelist : list Z;
  ex_wakeups : list wchan;
}.

Definition set_regions (ex : extent) (rs : list extent_region) : extent :=
  Extent (ex_name ex) rs (ex_start ex) (ex_end ex) (ex_mtype ex) (ex_flags ex)
    (fex_freelist ex) (ex_wakeups ex).
Definition set_flags (ex : extent) (fl : Z) : extent :=
  Extent (ex_name ex) (ex_regions ex) (ex_start ex) (ex_end ex) (ex_mtype ex) fl
    (fex_freelist ex) (ex_wakeups ex).
Definition set_freelist (ex : extent) (l : list Z) : extent :=
  Extent (ex_name ex) (ex_regions ex) (ex_start ex) (ex_end ex) (ex_mtype ex) (ex_flags ex)
    l (ex_wakeups ex).
Definition wakeup (ex : extent) (c : wchan) : extent :=
  Extent (ex_name ex) (ex_regions ex) (ex_start ex) (ex_end ex) (ex_mtype ex) (ex_flags ex)
    (fex_freelist ex) (c :: ex_wakeups ex).

(** How an operation ends: it returns an error number (0 is success), or it is
    asleep in [tsleep_nsec], on the extent with its descriptor, or on the
    freelist. *)
Inductive ext_result : Type :=
| Errno (e : Z)
| SleepSpace (rp : Z)
| SleepFreelist.

(** ** Region descriptors *)

Definition extent_align (start align skew : Z) : Z :=
  u64 (Z.land (u64 (u64 (start - skew) + u64 (align - 1))) (u64 (- align)) + skew).

Inductive descr_result : Type :=
| Descr (rp : Z)
| NoDescr
| DescrSleeps.

(** [pool] tells whether [pool_get] finds memory without sleeping. *)
Definition extent_alloc_region_descriptor (pool : bool) (ex : extent) (flags : Z) :
    extent * descr_result :=
  let alloc :=
    if has flags EX_WAITOK || pool then (ex, Descr ER_ALLOC) else (ex, NoDescr) in
  if has (ex_flags ex) EXF_FIXED then
    match fex_freelist ex with
    | [] =>
        if has flags EX_MALLOCOK then alloc
        else if negb (has flags EX_WAITOK) then (ex, NoDescr)
        else (set_flags ex (Z.lor (ex_flags ex) EXF_FLWANTED), DescrSleeps)
    | rp :: l => (set_freelist ex l, Descr rp)
    end
  else alloc.

Definition extent_free_region_descriptor (ex : extent) (rp : Z) : extent :=
  if has rp ER_DISCARD then ex
  else if has (ex_flags ex) EXF_FIXED then
    let wake_em_up ex :=
      wakeup (set_flags ex (Z.land (ex_flags ex) (Z.lnot EXF_FLWANTED))) ChanFreelist in
    let wanted ex := if has (ex_flags ex) EXF_FLWANTED then wake_em_up ex else ex in
    if has rp ER_ALLOC then
      if has (ex_flags ex) EXF_FLWANTED
      then wake_em_up (set_freelist ex (ER_ALLOC :: fex_freelist ex))
      else wanted ex
    else wanted (set_freelist ex (0 :: fex_freelist ex))
  else ex.

(** ** Creation *)

(** The sizes [ALIGN] gives for the two structures on an LP64 machine. *)
Definition ALIGN_sizeof_extent_fixed : Z := 80.
Definition ALIGN_sizeof_extent_region : Z := 40.

(** [while (sz >= ALIGN(sizeof(struct extent_region)))] pushes a zeroed
    descriptor on the freelist. *)
Definition carve_descriptors (sz : Z) : list Z :=
  replicate (Z.to_nat (sz / ALIGN_sizeof_extent_region)) 0.

(** [storage] is whether the caller gives storage; [mem] whether
    [malloc(M_NOWAIT)] succeeds.  The extent, if one is made. *)
Definition extent_create (mem pool : bool) (name : option string) (start end_ mtype : Z)
    (storage : bool) (storagesize flags : Z) : outcome (option extent) :=
  n ← match name with None => Fault (Panic "extent_create") | Some n => Ret n end;
  kassert "extent_create" (negb (end_ <? start)) ;;
  kassert "extent_create" (negb (storage && (storagesize <? 80))) ;;
  kassert "extent_create" (negb (negb storage && negb (storagesize =? 0))) ;;
  if negb storage && negb (has flags EX_WAITOK || mem) then Ret None
  else
    let freelist :=
      if storage then carve_descriptors (storagesize - ALIGN_sizeof_extent_fixed) else [] in
    let exf := Z.lor (if storage then EXF_FIXED else 0)
                 (if has flags EX_NOCOALESCE then EXF_NOCOALESCE else 0) in
    let ex := Extent n [] start end_ mtype exf freelist [] in
    if has flags EX_FILLED then
      match extent_alloc_region_descriptor pool ex flags with
      | (ex, Descr rp) => Ret (Some (set_regions ex [Region start end_ rp]))
      | (_, _) => Ret None
      end
    else Ret (Some ex).

(** The state left when every descriptor has been returned. *)
Definition extent_destroy (ex : extent) : extent :=
  foldl (λ ex rp, extent_free_region_descriptor (set_regions ex (tail (ex_regions ex))) (er_flags rp))
    ex (ex_regions ex).

(** ** Insertion *)

Definition set_start (r : extent_region) (s : Z) : extent_region := Region s (er_end r) (er_flags r).
Definition set_end (r : extent_region) (e : Z) : extent_region := Region (er_start r) e (er_flags r).

Definition LIST_INSERT_AFTER {A} (l : list A) (i : nat) (x : A) : list A :=
  take (S i) l ++ x :: drop (S i) l.

(** [after] is the index of the entry in [ex_regions], [rp] the descriptor. *)
Definition extent_insert_and_optimize (ex : extent) (start size : Z) (after : option nat)
    (rp : Z) : outcome extent :=
  let rs := ex_regions ex in
  let new := Region start (u64 (start + u64 (size - 1))) rp in
  let coalesce := negb (has (ex_flags ex) EXF_NOCOALESCE) in
  match after with
  | None =>
      match rs with
      | r0 :: rest =>
          if coalesce && (u64 (start + size) =? er_start r0)
          then Ret (extent_free_region_descriptor (set_regions ex (set_start r0 start :: rest)) rp)
          else Ret (set_regions ex (new :: rs))
      | [] => Ret (set_regions ex [new])
      end
  | Some i =>
      a ← deref (rs !! i);
      let cant_coalesce := Ret (set_regions ex (LIST_INSERT_AFTER rs i new)) in
      if negb coalesce then cant_coalesce
      else
        let appended := u64 (er_end a + 1) =? start in
        let a := if appended then set_end a (u64 (start + u64 (size - 1))) else a in
        let ex1 := set_regions ex (<[i := a]> rs) in
        let no_next :=
          if appended then Ret (extent_free_region_descriptor ex1 rp) else cant_coalesce in
        match rs !! S i with
        | Some nextr =>
            if u64 (start + size) =? er_start nextr then
              let ex2 :=
                if appended
                then extent_free_region_descriptor
                       (set_regions ex1 (delete (S i) (<[i := set_end a (er_end nextr)]> rs)))
                       (er_flags nextr)
                else set_regions ex1 (<[S i := set_start nextr start]> (<[i := a]> rs)) in
              Ret (extent_free_region_descriptor ex2 rp)
            else no_next
        | None => no_next
        end
  end.

(** ** Allocation of a given region *)

(** [LIST_FOREACH]: the last region that ends before [start], or the first
    region in conflict with [start .. end_], with its index. *)
Fixpoint conflict_scan (rs : list extent_region) (i : nat) (last : option nat) (start end_ : Z) :
    option nat + (nat * extent_region) :=
  match rs with
  | [] => inl last
  | rp :: rs =>
      if end_ <? er_start rp then inl last
      else if start <=? er_end rp then inr (i, rp)
      else conflict_scan rs (S i) (Some i) start end_
  end.

(** From [alloc_start]; one unit of fuel per [goto alloc_start]. *)
Fixpoint alloc_region_start (fuel : nat) (ex : extent) (start size end_ flags rp : Z) :
    outcome (extent * ext_result) :=
  match fuel with
  | O => Fault OutOfFuel
  | S fuel =>
      match conflict_scan (ex_regions ex) 0 None start end_ with
      | inl last =>
          ex ← extent_insert_and_optimize ex start size last rp; Ret (ex, Errno 0)
      | inr (i, c) =>
          if has flags EX_WAITSPACE
          then Ret (set_flags ex (Z.lor (ex_flags ex) EXF_WANTED), SleepSpace rp)
          else if has flags EX_CONFLICTOK then
            if er_start c <=? start then
              if er_end c <? ex_end ex then
                let start := u64 (er_end c + 1) in
                alloc_region_start fuel ex start (u64 (end_ - start + 1)) end_ flags rp
              else Ret (ex, Errno 0)
            else if er_end c <? end_ then
              let ex := set_regions ex (delete i (ex_regions ex)) in
              let ex := extent_free_region_descriptor ex (er_flags c) in
              alloc_region_start fuel ex start size end_ flags rp
            else if er_start c <? end_ then
              if ex_start ex <? er_start c then
                let end_ := u64 (er_start c - 1) in
                alloc_region_start fuel ex start (u64 (end_ - start + 1)) end_ flags rp
              else Ret (ex, Errno 0)
            else Ret (ex, Errno 0)
          else Ret (extent_free_region_descriptor ex rp, Errno EAGAIN)
      end
  end.

(** Each region causes at most one [goto alloc_start]. *)
Definition extent_do_alloc_region (ex : extent) (start size flags rp : Z) :
    outcome (extent * ext_result) :=
  let end_ := u64 (start + u64 (size - 1)) in
  kassert "extent_do_alloc_region" (negb (size <? 1)) ;;
  kassert "extent_do_alloc_region" (negb (end_ <? start)) ;;
  kassert "extent_do_alloc_region" (negb (has flags EX_CONFLICTOK && has flags EX_WAITSPACE)) ;;
  kassert "extent_do_alloc_region" (negb ((start <? ex_start ex) || (ex_end ex <? end_))) ;;
  alloc_region_start (S (length (ex_regions ex))) ex start size end_ flags rp.

(** What a thread asleep in [extent_do_alloc_region] does when [tsleep_nsec]
    returns [error], the extent being then [ex]. *)
Definition alloc_region_wakeup (ex : extent) (error start size flags rp : Z) :
    outcome (extent * ext_result) :=
  if negb (error =? 0) then Ret (ex, Errno error)
  else alloc_region_start (S (length (ex_regions ex))) ex start size
         (u64 (start + u64 (size - 1))) flags rp.

Definition extent_alloc_region (pool : bool) (ex : extent) (start size flags : Z) :
    outcome (extent * ext_result) :=
  match extent_alloc_region_descriptor pool ex flags with
  | (ex, Descr rp) => extent_do_alloc_region ex start size flags rp
  | (ex, NoDescr) => Ret (ex, Errno ENOMEM)
  | (ex, DescrSleeps) => Ret (ex, SleepFreelist)
  end.

Definition extent_alloc_region_with_descr (ex : extent) (start size flags : Z) :
    outcome (extent * ext_result) :=
  kassert "extent_alloc_region_with_descr" (has (ex_flags ex) EXF_NOCOALESCE) ;;
  extent_do_alloc_region ex start size flags ER_DISCARD.

(** ** Allocation within a subregion *)

(** (x + y) <= z, failing on overflow. *)
Definition LE_OV (x y z : Z) : bool := (x <=? u64 (x + y)) && (u64 (x + y) <=? z).

(** The best gap so far: its overhead (0 when there is none), the address and
    the region it follows. *)
Record best_gap : Type := Best {
  bestovh : Z;
  beststart : Z;
  bestlast : option nat;
}.

Inductive boundary_result : Type :=
| BoundaryOk (newstart : Z)
| BoundarySkip
| BoundaryFail.

(** The boundary check, the same text before a region and at the end of the
    subregion; [fits] is the test made again after the leading part is thrown
    away. *)
Definition boundary_check (ex : extent) (flags boundary size newstart : Z) (fits : Z → bool) :
    boundary_result :=
  if boundary =? 0 then BoundaryOk newstart
  else
    let newend := u64 (newstart + u64 (size - 1)) in
    let dontcross :=
      u64 (extent_align (u64 (newstart + 1)) boundary
             (if has flags EX_BOUNDZERO then 0 else ex_start ex) - 1) in
    let finish newstart dontcross :=
      if (ex_end ex <? u64 (newstart + size - 1)) || (dontcross <? newstart)
      then BoundaryFail else BoundaryOk newstart in
    if dontcross <? ex_start ex then finish newstart (ex_end ex)
    else if dontcross <? newend then
      let newstart := u64 (dontcross + 1) in
      let dontcross := u64 (dontcross + boundary) in
      if fits newstart then finish newstart dontcross else BoundarySkip
    else finish newstart dontcross.

Inductive scan_result : Type :=
| Found (newstart : Z) (last : option nat)
| Failed (best : best_gap)
| AtEnd (newstart : Z) (last : option nat) (best : best_gap) (exend : Z).

(** The first [LIST_FOREACH]: the regions that begin before [newstart] are
    passed over.  The rest of the list, the index of its head, and [last]. *)
Fixpoint skip_before (rs : list extent_region) (i : nat) (last : option nat) (newstart : Z) :
    list extent_region * nat * option nat :=
  match rs with
  | [] => ([], i, last)
  | rp :: rs' =>
      if newstart <=? er_start rp then (rs, i, last) else skip_before rs' (S i) (Some i) newstart
  end.

Section DoAlloc.
Context (ex : extent) (substart subend size alignment skew boundary flags : Z).

(** An address with this overhead: taken at once, or compared to the best. *)
Definition better (best : best_gap) (ovh newstart : Z) (last : option nat) : best_gap :=
  if (bestovh best =? 0) || (ovh <? bestovh best) then Best ovh newstart last else best.

(** The gaps before the regions of the list. *)
Fixpoint alloc_scan (rs : list extent_region) (i : nat) (last : option nat) (newstart : Z)
    (best : best_gap) : scan_result :=
  match rs with
  | [] => AtEnd newstart last best (ex_end ex)
  | rp :: rs =>
      if subend <? er_start rp then AtEnd newstart last best (er_start rp)
      else
        let skip best :=
          let newstart := extent_align (u64 (er_end rp + 1)) alignment skew in
          if newstart <? er_end rp then Failed best
          else alloc_scan rs (S i) (Some i) newstart best in
        if LE_OV newstart size (er_start rp) then
          match boundary_check ex flags boundary size newstart
                  (λ s, LE_OV s size (er_start rp)) with
          | BoundarySkip => skip best
          | BoundaryFail => Failed best
          | BoundaryOk newstart =>
              let ovh := u64 (er_start rp - newstart - size) in
              if has flags EX_FAST || (ovh =? 0) then Found newstart last
              else skip (better best ovh newstart last)
          end
        else skip best
  end.

(** The gap after the last region looked at. *)
Definition final_check (newstart : Z) (last : option nat) (best : best_gap) (exend : Z) :
    scan_result :=
  if LE_OV newstart (u64 (size - 1)) subend then
    match boundary_check ex flags boundary size newstart
            (λ s, LE_OV s (u64 (size - 1)) subend) with
    | BoundarySkip | BoundaryFail => Failed best
    | BoundaryOk newstart =>
        let ovh := u64 (exend - newstart - u64 (size - 1)) in
        if has flags EX_FAST || (ovh =? 0) then Found newstart last
        else Failed (better best ovh newstart last)
    end
  else Failed best.

(** From [alloc_start] to [found] or to the end of [fail]: the address and
    the region it follows, if one is found. *)
Definition find_space (newstart : Z) : option (Z * option nat) :=
  let '(rs, i, last) := skip_before (ex_regions ex) 0 None newstart in
  let newstart :=
    match last with
    | Some l =>
        match ex_regions ex !! l with
        | Some r =>
            if newstart <=? er_end r then extent_align (u64 (er_end r + 1)) alignment skew
            else newstart
        | None => newstart
        end
    | None => newstart
    end in
  let res :=
    match alloc_scan rs i last newstart (Best 0 0 None) with
    | AtEnd newstart last best exend => final_check newstart last best exend
    | res => res
    end in
  match res with
  | Found newstart last => Some (newstart, last)
  | Failed best | AtEnd _ _ best _ =>
      if negb (has flags EX_FAST) && negb (bestovh best =? 0)
      then Some (beststart best, bestlast best) else None
  end.
End DoAlloc.

(** [*result], when it is set, with the state and the result. *)
Definition do_alloc_start (ex : extent)
    (substart subend size alignment skew boundary flags rp : Z) :
    outcome (extent * ext_result * option Z) :=
  let newstart := extent_align substart alignment skew in
  kassert "extent_do_alloc" (negb (newstart <? ex_start ex)) ;;
  match find_space ex subend size alignment skew boundary flags newstart with
  | Some (newstart, last) =>
      ex ← extent_insert_and_optimize ex newstart size last rp;
      Ret (ex, Errno 0, Some newstart)
  | None =>
      if has flags EX_WAITSPACE
      then Ret (set_flags ex (Z.lor (ex_flags ex) EXF_WANTED), SleepSpace rp, None)
      else Ret (extent_free_region_descriptor ex rp, Errno EAGAIN, None)
  end.

Definition extent_do_alloc (ex : extent)
    (substart subend size alignment skew boundary flags rp : Z) :
    outcome (extent * ext_result * option Z) :=
  kassert "extent_do_alloc"
    (negb ((substart <? ex_start ex) || (ex_end ex <? substart) || (ex_end ex <? subend)
           || (subend <? ex_start ex))) ;;
  kassert "extent_do_alloc" (negb ((size <? 1) || (u64 (subend - substart) <? u64 (size - 1)))) ;;
  kassert "extent_do_alloc" (negb (alignment =? 0)) ;;
  kassert "extent_do_alloc" (negb (negb (boundary =? 0) && (boundary <? size))) ;;
  do_alloc_start ex substart subend size alignment skew boundary flags rp.

(** [tsleep_nsec] returns [error] to a thread asleep in [extent_do_alloc]. *)
Definition do_alloc_wakeup (ex : extent) (error : Z)
    (substart subend size alignment skew boundary flags rp : Z) :
    outcome (extent * ext_result * option Z) :=
  if negb (error =? 0) then Ret (ex, Errno error, None)
  else do_alloc_start ex substart subend size alignment skew boundary flags rp.

Definition extent_alloc_subregion (pool : bool) (ex : extent)
    (substart subend size alignment skew boundary flags : Z) :
    outcome (extent * ext_result * option Z) :=
  match extent_alloc_region_descriptor pool ex flags with
  | (ex, Descr rp) => extent_do_alloc ex substart subend size alignment skew boundary flags rp
  | (ex, NoDescr) => Ret (ex, Errno ENOMEM, None)
  | (ex, DescrSleeps) => Ret (ex, SleepFreelist, None)
  end.

Definition extent_alloc_subregion_with_descr (ex : extent)
    (substart subend size alignment skew boundary flags : Z) :
    outcome (extent * ext_result * option Z) :=
  kassert "extent_alloc_subregion_with_descr" (has (ex_flags ex) EXF_NOCOALESCE) ;;
  extent_do_alloc ex substart subend size alignment skew boundary flags ER_DISCARD.

(** [extent_alloc] of sys/sys/extent.h. *)
Definition extent_alloc (pool : bool) (ex : extent) (size alignment skew boundary flags : Z) :
    outcome (extent * ext_result * option Z) :=
  extent_alloc_subregion pool ex (ex_start ex) (ex_end ex) size alignment skew boundary flags.

(** ** Freeing *)

(** [LIST_FOREACH_SAFE]: [rs] is the rest of the list and [i] the index of its
    head.  The descriptor not used, and whether the loop ended in [goto done]. *)
Fixpoint free_scan (rs : list extent_region) (i : nat) (ex : extent) (start end_ flags : Z)
    (nrp : option Z) : outcome (extent * option Z * bool) :=
  match rs with
  | [] => Ret (ex, nrp, false)
  | rp :: rs =>
      if er_end rp <? start then free_scan rs (S i) ex start end_ flags nrp
      else if end_ <? er_start rp then Ret (ex, nrp, false)
      else
        let remove ex :=
          extent_free_region_descriptor (set_regions ex (delete i (ex_regions ex))) (er_flags rp) in
        let update r ex := set_regions ex (<[i := r]> (ex_regions ex)) in
        if (start =? er_start rp) && (end_ =? er_end rp) then Ret (remove ex, nrp, true)
        else if has (ex_flags ex) EXF_NOCOALESCE then free_scan rs (S i) ex start end_ flags nrp
        else if (start =? er_start rp) && (end_ <? er_end rp) then
          Ret (update (set_start rp (u64 (end_ + 1))) ex, nrp, true)
        else if (er_start rp <? start) && (end_ =? er_end rp) then
          Ret (update (set_end rp (u64 (start - 1))) ex, nrp, true)
        else if (er_start rp <? start) && (end_ <? er_end rp) then
          fl ← deref nrp;
          let new := Region (u64 (end_ + 1)) (er_end rp) fl in
          let ex := update (set_end rp (u64 (start - 1))) ex in
          Ret (set_regions ex (LIST_INSERT_AFTER (ex_regions ex) i new), None, true)
        else if negb (has flags EX_CONFLICTOK) then free_scan rs (S i) ex start end_ flags nrp
        else if (start <=? er_start rp) && (er_end rp <=? end_) then
          free_scan rs i (remove ex) start end_ flags nrp
        else
          let rp := if (start <=? er_start rp) && (er_start rp <=? end_)
                    then set_start rp (u64 (end_ + 1)) else rp in
          let rp := if (start <=? er_end rp) && (er_end rp <=? end_)
                    then set_end rp (u64 (start - 1)) else rp in
          free_scan rs (S i) (update rp ex) start end_ flags nrp
  end.

(** The end of [extent_free]: the descriptor is returned and the sleepers woken. *)
Definition free_return (ex : extent) (nrp : option Z) : extent :=
  let ex := match nrp with Some rp => extent_free_region_descriptor ex rp | None => ex end in
  if has (ex_flags ex) EXF_WANTED
  then wakeup (set_flags ex (Z.land (ex_flags ex) (Z.lnot EXF_WANTED))) ChanExtent
  else ex.

Definition extent_free (pool : bool) (ex : extent) (start size flags : Z) :
    outcome (extent * ext_result) :=
  let end_ := u64 (start + u64 (size - 1)) in
  kassert "extent_free" (negb ((start <? ex_start ex) || (ex_end ex <? end_))) ;;
  kassert "extent_free" (negb (end_ <? start)) ;;
  let work ex nrp :=
    '(ex, nrp, done) ← free_scan (ex_regions ex) 0 ex start end_ flags nrp;
    kassert "extent_free" (done || has flags EX_CONFLICTOK) ;;
    Ret (free_return ex nrp, Errno 0) in
  if has (ex_flags ex) EXF_NOCOALESCE then work ex None
  else
    match extent_alloc_region_descriptor pool ex flags with
    | (ex, Descr nrp) => work ex (Some nrp)
    | (ex, NoDescr) => Ret (ex, Errno ENOMEM)
    | (ex, DescrSleeps) => Ret (ex, SleepFreelist)
    end.

(** ** Examples *)

Definition ex0 : extent := Extent "ex0" [Region 0x10 0x1f 0; Region 0x40 0x4f 0] 0 0xff 0 0 [] [].

Example extent_alloc_runs :
  (λ '(ex, r, a), (r, a, map er_start (ex_regions ex), map er_end (ex_regions ex)))
    <$> extent_alloc true ex0 0x20 8 0 0 EX_NOWAIT = Ret (Errno 0, Some 0x20, [0x10], [0x4f]).
Proof. reflexivity. Qed.
Example extent_free_runs :
  (λ '(ex, r), (r, map er_start (ex_regions ex), map er_end (ex_regions ex)))
    <$> extent_free true ex0 0x14 4 EX_NOWAIT =
  Ret (Errno 0, [0x10; 0x18; 0x40], [0x13; 0x1f; 0x4f]).
Proof. reflexivity. Qed.

(** ** The abstract view: the set of allocated addresses *)

Definition covers (r : extent_region) (a : Z) : Prop := er_start r ≤ a ≤ er_end r.
Definition covered (rs : list extent_region) (a : Z) : Prop := Exists (λ r, covers r a) rs.
Definition allocated (ex : extent) (a : Z) : Prop := covered (ex_regions ex) a.

(** The number of free addresses kept between two regions: adjacent regions are
    merged unless the extent is EXF_NOCOALESCE. *)
Definition gap (ex : extent) : Z := if has (ex_flags ex) EXF_NOCOALESCE then 0 else 1.

(** Sorted non-empty regions within [lo .. hi], at least [g] addresses apart. *)
Fixpoint regions_ok (g lo : Z) (rs : list extent_region) (hi : Z) : Prop :=
  match rs with
  | [] => True
  | r :: rs =>
      lo ≤ er_start r ∧ er_start r ≤ er_end r ∧ er_end r ≤ hi ∧
      regions_ok g (er_end r + 1 + g) rs hi
  end.

Definition ext_wf (ex : extent) : Prop :=
  is_u64 (ex_start ex) ∧ is_u64 (ex_end ex) ∧
  regions_ok (gap ex) (ex_start ex) (ex_regions ex) (ex_end ex).

(** What no operation changes. *)
Definition same_extent (ex ex' : extent) : Prop :=
  ex_start ex' = ex_start ex ∧ ex_end ex' = ex_end ex ∧ gap ex' = gap ex.

#[global] Instance same_extent_preorder : PreOrder same_extent.
Proof. unfold same_extent. split; [done|]. intros ???. intuition congruence. Qed.

Lemma gap_range ex : 0 ≤ gap ex ≤ 1.
Proof. unfold gap. case_match; lia. Qed.

Lemma gap_coalesce ex : gap ex = 1 ↔ has (ex_flags ex) EXF_NOCOALESCE = false.
Proof. unfold gap. by destruct (has (ex_flags ex) EXF_NOCOALESCE). Qed.

(** The lower bound left by the regions of [rs]. *)
Definition after (g lo : Z) (rs : list extent_region) : Z :=
  foldl (λ _ r, er_end r + 1 + g) lo rs.

Lemma regions_ok_app g lo l1 l2 hi :
  regions_ok g lo (l1 ++ l2) hi ↔ regions_ok g lo l1 hi ∧ regions_ok g (after g lo l1) l2 hi.
Proof.
  revert lo. induction l1 as [|r l1 IH]; intros lo; cbn; [naive_solver|].
  rewrite IH. unfold after. tauto.
Qed.

Lemma regions_ok_mono g lo lo' rs hi :
  lo' ≤ lo → regions_ok g lo rs hi → regions_ok g lo' rs hi.
Proof. destruct rs; cbn; [done|]. intuition lia. Qed.

Lemma regions_ok_bounds g lo rs hi :
  0 ≤ g → regions_ok g lo rs hi →
  Forall (λ r, lo ≤ er_start r ∧ er_start r ≤ er_end r ∧ er_end r ≤ hi) rs.
Proof.
  intros Hg. revert lo. induction rs as [|r rs IH]; intros lo; cbn; [done|].
  intros (? & ? & ? & Hrs). constructor; [lia|].
  eapply Forall_impl; [by apply IH|]. cbn. intros. lia.
Qed.

Lemma regions_ok_sorted g lo l1 r l2 hi :
  0 ≤ g → regions_ok g lo (l1 ++ r :: l2) hi →
  Forall (λ q, er_end q < er_start r) l1 ∧ Forall (λ q, er_end r < er_start q) l2.
Proof.
  intros Hg Hok. split.
  - revert lo Hok. induction l1 as [|q l1 IH]; intros lo; [done|]. cbn.
    intros (_ & _ & _ & Hok). constructor; [|by eapply IH].
    apply regions_ok_bounds, Forall_app in Hok as [_ [Hr _]%Forall_cons]; [lia|done].
  - apply regions_ok_app in Hok as [_ (_ & _ & _ & Hok)].
    eapply Forall_impl; [by eapply regions_ok_bounds|]. cbn. lia.
Qed.

Lemma regions_ok_starts g lo rs hi :
  0 ≤ g → regions_ok g lo rs hi → StronglySorted (λ r q, er_start r ≤ er_start q) rs.
Proof.
  intros Hg. revert lo. induction rs as [|r rs IH]; intros lo; cbn; [constructor|].
  intros (_ & ? & _ & Hrs). constructor; [by eapply IH|].
  eapply Forall_impl; [by eapply regions_ok_bounds|]. cbn. lia.
Qed.

(** A region may be replaced by a part of it, or left out. *)
Lemma regions_ok_shrink g lo l1 r r' l2 hi :
  er_start r ≤ er_start r' → er_start r' ≤ er_end r' → er_end r' ≤ er_end r →
  regions_ok g lo (l1 ++ r :: l2) hi → regions_ok g lo (l1 ++ r' :: l2) hi.
Proof.
  rewrite !regions_ok_app. cbn. intros ??? (? & ? & ? & ? & ?). split_and!; try done || lia.
  eapply regions_ok_mono; [|done]. lia.
Qed.

Lemma regions_ok_remove g lo l1 r l2 hi :
  0 ≤ g → regions_ok g lo (l1 ++ r :: l2) hi → regions_ok g lo (l1 ++ l2) hi.
Proof.
  rewrite !regions_ok_app. cbn. intros ? (? & ? & ? & ? & ?). split; [done|].
  eapply regions_ok_mono; [|done]. lia.
Qed.

(** The bound after a prefix, from the ends of its regions. *)
Lemma after_le g lo rs x :
  lo ≤ x → Forall (λ r, er_end r + 1 + g ≤ x) rs → after g lo rs ≤ x.
Proof.
  unfold after. intros Hlo Hrs. revert lo Hlo.
  induction Hrs as [|r rs Hr _ IH]; intros lo Hlo; cbn; [done|]. by apply IH.
Qed.

Lemma after_snoc g lo rs r : after g lo (rs ++ [r]) = er_end r + 1 + g.
Proof. unfold after. by rewrite foldl_app. Qed.

Lemma covered_cons r rs a : covered (r :: rs) a ↔ covers r a ∨ covered rs a.
Proof. apply Exists_cons. Qed.
Lemma covered_app l1 l2 a : covered (l1 ++ l2) a ↔ covered l1 a ∨ covered l2 a.
Proof. apply Exists_app. Qed.
Lemma covered_nil a : covered [] a ↔ False.
Proof. apply Exists_nil. Qed.
#[export] Hint Rewrite covered_cons covered_app covered_nil : covered.

(** *** Flags and descriptors *)

(** Taking or returning a descriptor leaves everything but the freelist, the
    flag EXF_FLWANTED and the wakeups. *)
Lemma free_descriptor_flags ex rp bit :
  Z.land EXF_FLWANTED bit = 0 →
  has (ex_flags (extent_free_region_descriptor ex rp)) bit = has (ex_flags ex) bit.
Proof.
  intros Hb. unfold extent_free_region_descriptor.
  destruct (has rp ER_DISCARD), (has (ex_flags ex) EXF_FIXED), (has rp ER_ALLOC),
    (has (ex_flags ex) EXF_FLWANTED) eqn:E; cbn; rewrite ?E; cbn; by rewrite ?has_clear.
Qed.

Lemma free_descriptor_spec ex rp :
  ex_regions (extent_free_region_descriptor ex rp) = ex_regions ex ∧
  same_extent ex (extent_free_region_descriptor ex rp).
Proof.
  unfold same_extent, gap. rewrite free_descriptor_flags by done.
  unfold extent_free_region_descriptor.
  destruct (has rp ER_DISCARD), (has (ex_flags ex) EXF_FIXED), (has rp ER_ALLOC),
    (has (ex_flags ex) EXF_FLWANTED) eqn:E; cbn; rewrite ?E; done.
Qed.

Lemma free_descriptor_wf ex rp : ext_wf ex → ext_wf (extent_free_region_descriptor ex rp).
Proof.
  destruct (free_descriptor_spec ex rp) as (Hr & Hs & He & Hg).
  unfold ext_wf. by rewrite Hr, Hs, He, Hg.
Qed.

Lemma alloc_descriptor_spec pool ex flags ex' d :
  extent_alloc_region_descriptor pool ex flags = (ex', d) →
  ex_regions ex' = ex_regions ex ∧ same_extent ex ex' ∧
  has (ex_flags ex') EXF_WANTED = has (ex_flags ex) EXF_WANTED.
Proof.
  unfold extent_alloc_region_descriptor, same_extent, gap. intros Hd.
  destruct (has (ex_flags ex) EXF_FIXED), (fex_freelist ex), (has flags EX_MALLOCOK),
    (has flags EX_WAITOK), pool; cbn in Hd; injection Hd as <- <-;
    cbn; by rewrite ?has_set.
Qed.

(** *** Insertion *)

(** A list seen from its element at index [length l1]. *)
Lemma lookup_next {A} (l1 l2 : list A) a : (l1 ++ a :: l2) !! S (length l1) = head l2.
Proof. rewrite lookup_app_r by lia. replace (S (length l1) - length l1)%nat with 1%nat by lia. by destruct l2. Qed.
Lemma insert_middle {A} (l1 l2 : list A) a b : <[length l1 := b]> (l1 ++ a :: l2) = l1 ++ b :: l2.
Proof. rewrite insert_app_r_alt, Nat.sub_diag by done. done. Qed.
Lemma insert_next {A} (l1 l2 : list A) a n b :
  <[S (length l1) := b]> (l1 ++ a :: n :: l2) = l1 ++ a :: b :: l2.
Proof.
  rewrite insert_app_r_alt by lia. by replace (S (length l1) - length l1)%nat with 1%nat by lia.
Qed.
Lemma delete_next {A} (l1 l2 : list A) a n :
  delete (S (length l1)) (l1 ++ a :: n :: l2) = l1 ++ a :: l2.
Proof.
  replace (l1 ++ a :: n :: l2) with ((l1 ++ [a]) ++ n :: l2) by (by rewrite <-app_assoc).
  replace (S (length l1)) with (length (l1 ++ [a])) by (rewrite length_app; cbn; lia).
  rewrite delete_middle, <-app_assoc. done.
Qed.
Lemma LIST_INSERT_AFTER_middle {A} (l1 l2 : list A) a x :
  LIST_INSERT_AFTER (l1 ++ a :: l2) (length l1) x = l1 ++ a :: x :: l2.
Proof.
  unfold LIST_INSERT_AFTER.
  replace (l1 ++ a :: l2) with ((l1 ++ [a]) ++ l2) by (by rewrite <-app_assoc).
  replace (S (length l1)) with (length (l1 ++ [a])) by (rewrite length_app; cbn; lia).
  rewrite take_app_length, drop_app_length, <-app_assoc. done.
Qed.

(** The index of the last element. *)
Definition last_index {A} (l : list A) : option nat :=
  match length l with O => None | S n => Some n end.

Lemma last_index_snoc {A} (l : list A) a : last_index (l ++ [a]) = Some (length l).
Proof. unfold last_index. rewrite length_app, Nat.add_1_r. done. Qed.

(** The range [start .. start + size - 1] lies in the extent between the regions
    [l1] and the regions [l2]. *)
Record gap_at (ex : extent) (l1 l2 : list extent_region) (start size : Z) : Prop := {
  gap_split : ex_regions ex = l1 ++ l2;
  gap_before : Forall (λ r, er_end r < start) l1;
  gap_after : Forall (λ r, start + size - 1 < er_start r) l2;
  gap_size : 1 ≤ size;
  gap_within : ex_start ex ≤ start ∧ start + size - 1 ≤ ex_end ex;
}.

(** The region list [rs] has [start .. start + size - 1] allocated besides. *)
Definition inserted (ex : extent) (rs : list extent_region) (start size : Z) : Prop :=
  regions_ok (gap ex) (ex_start ex) rs (ex_end ex) ∧
  ∀ a, covered rs a ↔ allocated ex a ∨ start ≤ a < start + size.

Lemma inserted_free ex ex' rs rp start size :
  ext_wf ex → same_extent ex ex' → inserted ex rs start size → ex_regions ex' = rs →
  ext_wf (extent_free_region_descriptor ex' rp) ∧
  same_extent ex (extent_free_region_descriptor ex' rp) ∧
  ∀ a, allocated (extent_free_region_descriptor ex' rp) a ↔
       allocated ex a ∨ start ≤ a < start + size.
Proof.
  intros Hwf Hs [Hok Hc] Hr. destruct (free_descriptor_spec ex' rp) as [Hr' Hs'].
  split; [|split; [by transitivity ex'|intros a; unfold allocated at 1; rewrite Hr', Hr; apply Hc]].
  apply free_descriptor_wf. unfold ext_wf in *. destruct Hs as (-> & -> & ->). rewrite Hr. tauto.
Qed.

Lemma inserted_set ex rs start size :
  ext_wf ex → inserted ex rs start size →
  ext_wf (set_regions ex rs) ∧ same_extent ex (set_regions ex rs) ∧
  ∀ a, allocated (set_regions ex rs) a ↔ allocated ex a ∨ start ≤ a < start + size.
Proof. intros (? & ? & ?) [? Hc]. split; [done|]. split; [done|]. apply Hc. Qed.

(** Prove [inserted] for a list whose shape is known. *)
Ltac solve_inserted :=
  cbn [regions_ok app ex_regions set_regions] in *;
  rewrite ?regions_ok_app in *; cbn [regions_ok] in *;
  split; [cbn; intuition lia
         |intros a0; unfold allocated; autorewrite with covered;
          unfold covers; cbn; intuition lia].

(** What [gap_at] gives of the arithmetic of [extent_insert_and_optimize]. *)
Lemma gap_at_facts ex l1 l2 start size :
  ext_wf ex → gap_at ex l1 l2 start size →
  u64 (start + u64 (size - 1)) = start + size - 1 ∧
  (∀ n l2', l2 = n :: l2' →
    (u64 (start + size) =? er_start n) = bool_decide (start + size = er_start n)) ∧
  (∀ l1' a, l1 = l1' ++ [a] →
    (u64 (er_end a + 1) =? start) = bool_decide (er_end a + 1 = start)).
Proof.
  intros (Hs & He & Hok) [Hsplit Hl1 Hl2 Hsize Hin].
  pose proof (regions_ok_bounds _ _ _ _ (proj1 (gap_range ex)) Hok) as Hb.
  rewrite Hsplit in Hb. apply Forall_app in Hb as [Hb1 Hb2]. unfold is_u64 in Hs, He.
  split; [wrap_lia|]. split.
  - intros n l2' ->. apply Forall_cons in Hb2 as [Hb2 _]. apply Forall_cons in Hl2 as [Hn _].
    rewrite u64_small by (unfold is_u64; lia).
    case_bool_decide; [by apply Z.eqb_eq|by apply Z.eqb_neq].
  - intros l1' a ->. apply Forall_app in Hb1 as [_ Hb1]. apply Forall_app in Hl1 as [_ Ha].
    apply Forall_cons in Hb1 as [Hb1 _]. apply Forall_cons in Ha as [Ha _].
    rewrite u64_small by (unfold is_u64; lia).
    case_bool_decide; [by apply Z.eqb_eq|by apply Z.eqb_neq].
Qed.

(** What every insertion must establish. *)
Definition insert_post (ex : extent) (start size : Z) (ex' : extent) : Prop :=
  ext_wf ex' ∧ same_extent ex ex' ∧
  ∀ a, allocated ex' a ↔ allocated ex a ∨ start ≤ a < start + size.

Lemma insert_head ex l2 start size rp :
  ext_wf ex → gap_at ex [] l2 start size →
  ∃ ex', extent_insert_and_optimize ex start size None rp = Ret ex' ∧
    insert_post ex start size ex'.
Proof.
  intros Hwf Hgap. pose proof Hwf as (_ & _ & Hok). pose proof (gap_range ex) as Hg.
  destruct (gap_at_facts _ _ _ _ _ Hwf Hgap) as (Hend & Hnext & _).
  destruct Hgap as [Hsplit Hl1 Hl2 Hsize Hin]. cbn [app] in Hsplit.
  unfold extent_insert_and_optimize, insert_post. rewrite Hend, Hsplit. rewrite Hsplit in Hok.
  destruct l2 as [|n l2].
  - eexists. split; [done|]. apply inserted_set; [done|].
    unfold inserted, allocated. rewrite Hsplit. solve_inserted.
  - rewrite (Hnext n l2) by done. apply Forall_cons in Hl2 as [Hn _]. unfold gap in *.
    destruct (has (ex_flags ex) EXF_NOCOALESCE) eqn:Hnc; cbn [negb andb];
      [|case_bool_decide]; eexists; (split; [done|]).
    2: eapply inserted_free; [done|done| |done].
    1, 3: apply inserted_set; [done|].
    all: unfold inserted, allocated, gap; rewrite Hsplit, Hnc; solve_inserted.
Qed.

Lemma insert_after ex l1 a l2 start size rp :
  ext_wf ex → gap_at ex (l1 ++ [a]) l2 start size →
  ∃ ex', extent_insert_and_optimize ex start size (Some (length l1)) rp = Ret ex' ∧
    insert_post ex start size ex'.
Proof.
  intros Hwf Hgap. pose proof Hwf as (_ & _ & Hok). pose proof (gap_range ex) as Hg.
  destruct (gap_at_facts _ _ _ _ _ Hwf Hgap) as (Hend & Hnext & Hprev).
  destruct Hgap as [Hsplit Hl1 Hl2 Hsize Hin]. rewrite <-app_assoc in Hsplit. cbn [app] in Hsplit.
  unfold extent_insert_and_optimize, insert_post. rewrite Hend, Hsplit. rewrite Hsplit in Hok.
  rewrite (list_lookup_middle l1 l2 a (length l1)) by done.
  cbn [deref]. rewrite bind_Ret_l, (Hprev l1 a) by done.
  rewrite lookup_next, LIST_INSERT_AFTER_middle, !insert_middle.
  apply Forall_app in Hl1 as [_ Ha]. apply Forall_cons in Ha as [Ha _].
  destruct (has (ex_flags ex) EXF_NOCOALESCE) eqn:Hnc; cbn [negb].
  { eexists. split; [done|]. apply inserted_set; [done|].
    unfold inserted, allocated, gap. unfold gap in Hok. rewrite Hsplit, Hnc. rewrite Hnc in Hok.
    destruct l2 as [|n l2]; [|apply Forall_cons in Hl2 as [Hn _]]; solve_inserted. }
  assert (gap ex = 1) as Hg1 by (unfold gap; by rewrite Hnc).
  destruct l2 as [|n l2]; cbn [head].
  - case_bool_decide; eexists; (split; [done|]).
    1: eapply inserted_free; [done|done| |done].
    2: apply inserted_set; [done|].
    all: unfold inserted, allocated; rewrite Hsplit; solve_inserted.
  - rewrite (Hnext n l2) by done. apply Forall_cons in Hl2 as [Hn _].
    rewrite insert_middle, insert_next, delete_next.
    do 2 case_bool_decide; eexists; (split; [done|]).
    1: eapply inserted_free; [done|exact (proj2 (free_descriptor_spec _ _))| |exact (proj1 (free_descriptor_spec _ _))].
    2, 3: eapply inserted_free; [done|done| |done].
    4: apply inserted_set; [done|].
    all: unfold inserted, allocated; rewrite Hsplit; solve_inserted.
Qed.

(** [extent_insert_and_optimize] adds exactly the range it is given, merging it
    with its neighbours where the extent allows it. *)
Lemma insert_spec ex l1 l2 start size rp :
  ext_wf ex → gap_at ex l1 l2 start size →
  ∃ ex', extent_insert_and_optimize ex start size (last_index l1) rp = Ret ex' ∧
    insert_post ex start size ex'.
Proof.
  intros Hwf Hgap. destruct l1 as [|a l1 _] using rev_ind; [by eapply insert_head|].
  rewrite last_index_snoc. by eapply insert_after.
Qed.

(** ** Allocation of a given region *)

(** No address of the range is allocated. *)
Definition free_range (ex : extent) (start size : Z) : Prop :=
  ∀ a, start ≤ a < start + size → ¬ allocated ex a.

(** How an attempt to allocate ends when [d] is what the search for a descriptor
    gives, [success] being what a success means and [nospace] a refusal. *)
Definition attempt (flags : Z) (d : descr_result) (ex ex' : extent) (res : ext_result)
    (success nospace : Prop) : Prop :=
  ext_wf ex' ∧ same_extent ex ex' ∧
  match d with
  | Descr rp =>
      (res = Errno 0 ∧ success) ∨
      (nospace ∧ ex_regions ex' = ex_regions ex ∧
       if has flags EX_WAITSPACE then res = SleepSpace rp ∧ has (ex_flags ex') EXF_WANTED = true
       else res = Errno EAGAIN)
  | NoDescr => res = Errno ENOMEM ∧ ex_regions ex' = ex_regions ex
  | DescrSleeps => res = SleepFreelist ∧ ex_regions ex' = ex_regions ex
  end.

Lemma covered_bounds (P : Z → Prop) rs a :
  Forall (λ r, ∀ a, covers r a → P a) rs → covered rs a → P a.
Proof. unfold covered. rewrite Forall_forall, Exists_exists. naive_solver. Qed.

Lemma covered_before rs x a : Forall (λ r, er_end r < x) rs → covered rs a → a < x.
Proof.
  intros Hrs. apply (covered_bounds (λ a, a < x)). eapply Forall_impl; [exact Hrs|].
  unfold covers. intros ? ? ? ?. lia.
Qed.
Lemma covered_after rs x a : Forall (λ r, x < er_start r) rs → covered rs a → x < a.
Proof.
  intros Hrs. apply (covered_bounds (λ a, x < a)). eapply Forall_impl; [exact Hrs|].
  unfold covers. intros ? ? ? ?. lia.
Qed.

Lemma gap_at_free ex l1 l2 start size :
  gap_at ex l1 l2 start size → free_range ex start size.
Proof.
  intros [Hsplit Hl1 Hl2 _ _] a Ha. unfold allocated. rewrite Hsplit, covered_app.
  intros [Hc|Hc].
  - eapply covered_before in Hc; [|exact Hl1]. lia.
  - eapply covered_after in Hc; [|exact Hl2]. lia.
Qed.

(** The scan over [l1 ++ rs], having passed [l1]. *)
Lemma conflict_scan_spec g lo hi l1 rs start end_ :
  0 ≤ g → regions_ok g lo rs hi → Forall (λ r, er_end r < start) l1 →
  match conflict_scan rs (length l1) (last_index l1) start end_ with
  | inl last => ∃ l1' l2', l1 ++ rs = l1' ++ l2' ∧ last = last_index l1' ∧
      Forall (λ r, er_end r < start) l1' ∧ Forall (λ r, end_ < er_start r) l2'
  | inr (i, c) => (l1 ++ rs) !! i = Some c ∧ er_start c ≤ end_ ∧ start ≤ er_end c
  end.
Proof.
  intros Hg. revert lo l1. induction rs as [|r rs IH]; intros lo l1 Hok Hl1; cbn [conflict_scan].
  { exists l1, []. split_and!; try done. }
  destruct (Z.ltb_spec end_ (er_start r)).
  { exists l1, (r :: rs). split_and!; [done..|]. constructor; [done|].
    destruct Hok as (_ & ? & _ & Hok). eapply Forall_impl; [by eapply regions_ok_bounds|].
    cbn. intros. lia. }
  destruct (Z.leb_spec start (er_end r)).
  { split_and!; [|done|done]. by apply list_lookup_middle. }
  assert (Forall (λ r, er_end r < start) (l1 ++ [r])) as Hl1'.
  { apply Forall_app. split; [done|]. by constructor. }
  specialize (IH _ (l1 ++ [r]) (proj2 (proj2 (proj2 Hok))) Hl1').
  rewrite last_index_snoc, length_app, Nat.add_1_r, <-app_assoc in IH. exact IH.
Qed.

Lemma attempt_from flags d ex0 ex ex' res (success success0 nospace nospace0 : Prop) :
  ex_regions ex = ex_regions ex0 → same_extent ex0 ex →
  (success → success0) → (nospace → nospace0) →
  attempt flags d ex ex' res success nospace → attempt flags d ex0 ex' res success0 nospace0.
Proof.
  unfold attempt. intros Hr Hs H1 H2 (? & ? & H). split; [done|]. split; [by etransitivity|].
  rewrite Hr in H. destruct d; tauto.
Qed.

(** An attempt that finds no space, having the descriptor [rp]. *)
Lemma attempt_nospace flags ex rp (success nospace : Prop) :
  ext_wf ex → nospace →
  let '(ex', res) :=
    if has flags EX_WAITSPACE
    then (set_flags ex (Z.lor (ex_flags ex) EXF_WANTED), SleepSpace rp)
    else (extent_free_region_descriptor ex rp, Errno EAGAIN) in
  attempt flags (Descr rp) ex ex' res success nospace.
Proof.
  intros Hwf Hn. unfold attempt. destruct (has flags EX_WAITSPACE) eqn:Hw.
  - assert (same_extent ex (set_flags ex (Z.lor (ex_flags ex) EXF_WANTED))) as Hs.
    { unfold same_extent, gap. cbn. by rewrite (has_set _ EXF_NOCOALESCE). }
    split; [|split; [done|]].
    + unfold ext_wf in *. destruct Hs as (-> & -> & ->). done.
    + right. split_and!; try done. cbn. unfold has. rewrite Z.land_lor_distr_l.
      change (Z.land EXF_WANTED EXF_WANTED) with 4.
      destruct (Z.eqb_spec (Z.lor (Z.land (ex_flags ex) EXF_WANTED) 4) 0) as [E|]; [|done].
      apply Z.lor_eq_0_iff in E. lia.
  - split; [by apply free_descriptor_wf|]. split; [apply free_descriptor_spec|].
    right. split_and!; [done|apply free_descriptor_spec|done].
Qed.

Lemma alloc_descriptor_wf pool ex flags ex' d :
  extent_alloc_region_descriptor pool ex flags = (ex', d) → ext_wf ex → ext_wf ex'.
Proof.
  intros Hd Hwf. destruct (alloc_descriptor_spec _ _ _ _ _ Hd) as (Hr & (Hs & He & Hg) & _).
  unfold ext_wf in *. by rewrite Hr, Hs, He, Hg.
Qed.

(** From [alloc_start], without EX_CONFLICTOK. *)
Lemma alloc_region_start_spec fuel ex start size flags rp :
  ext_wf ex → 1 ≤ size → ex_start ex ≤ start → start + size - 1 ≤ ex_end ex →
  has flags EX_CONFLICTOK = false →
  ∃ ex' res,
    alloc_region_start (S fuel) ex start size (start + size - 1) flags rp = Ret (ex', res) ∧
    attempt flags (Descr rp) ex ex' res
      (free_range ex start size ∧ ∀ a, allocated ex' a ↔ allocated ex a ∨ start ≤ a < start + size)
      (¬ free_range ex start size).
Proof.
  intros Hwf Hsize Hs He Hco. cbn [alloc_region_start]. rewrite Hco.
  pose proof (conflict_scan_spec (gap ex) _ _ [] _ start (start + size - 1)
    (proj1 (gap_range ex)) (proj2 (proj2 Hwf)) ltac:(constructor)) as Hscan.
  cbn [length last_index app] in Hscan. destruct (conflict_scan _ _ _ _ _) as [last|[i c]].
  - destruct Hscan as (l1 & l2 & Hsplit & -> & Hl1 & Hl2).
    assert (gap_at ex l1 l2 start size) as Hgap by done.
    destruct (insert_spec ex l1 l2 start size rp Hwf Hgap) as (ex' & -> & Hwf' & Hse & Ha).
    rewrite bind_Ret_l. eexists _, _. split; [done|]. split; [done|]. split; [done|].
    left. split; [done|]. split; [by eapply gap_at_free|done].
  - destruct Hscan as (Hi & Hce & Hcs).
    assert (¬ free_range ex start size) as Hnf.
    { assert (er_start c ≤ er_end c) as Hc.
      { pose proof (regions_ok_bounds _ _ _ _ (proj1 (gap_range ex)) (proj2 (proj2 Hwf))) as Hb.
        pose proof (Forall_lookup_1 _ _ _ _ Hb Hi) as Hbc. cbn in Hbc. lia. }
      intros Hf. apply (Hf (Z.max start (er_start c))); [lia|].
      apply Exists_exists. exists c. split; [by eapply list_elem_of_lookup_2|].
      unfold covers. lia. }
    pose proof (attempt_nospace flags ex rp (free_range ex start size ∧
      ∀ a, allocated ex a ↔ allocated ex a ∨ start ≤ a < start + size) _ Hwf Hnf) as Hatt.
    destruct (has flags EX_WAITSPACE) eqn:Hw; eexists _, _; (split; [done|]).
    all: unfold attempt in *; rewrite Hw in *; intuition discriminate.
Qed.

Lemma extent_alloc_region_any pool ex start size flags :
  ext_wf ex → 1 ≤ size → ex_start ex ≤ start → start + size - 1 ≤ ex_end ex →
  has flags EX_CONFLICTOK = false →
  ∃ ex' res,
    extent_alloc_region pool ex start size flags = Ret (ex', res) ∧
    attempt flags (extent_alloc_region_descriptor pool ex flags).2 ex ex' res
      (free_range ex start size ∧ ∀ a, allocated ex' a ↔ allocated ex a ∨ start ≤ a < start + size)
      (¬ free_range ex start size).
Proof.
  intros Hwf Hsize Hs He Hco. unfold extent_alloc_region.
  destruct (extent_alloc_region_descriptor pool ex flags) as [ex1 d] eqn:Hd.
  destruct (alloc_descriptor_spec _ _ _ _ _ Hd) as (Hr & Hse & _).
  pose proof (alloc_descriptor_wf _ _ _ _ _ Hd Hwf) as Hwf1.
  pose proof Hse as (Hs1 & He1 & _). destruct d as [rp| |].
  - unfold extent_do_alloc_region. pose proof Hwf as ([??] & [??] & _).
    assert (u64 (start + u64 (size - 1)) = start + size - 1) as -> by wrap_lia.
    rewrite Hco, Hs1, He1. cbn [andb]. unfold kassert.
    destruct (Z.ltb_spec size 1), (Z.ltb_spec (start + size - 1) start),
      (Z.ltb_spec start (ex_start ex)), (Z.ltb_spec (ex_end ex) (start + size - 1)); try lia.
    cbn [negb orb]. rewrite !bind_Ret_l.
    destruct (alloc_region_start_spec (length (ex_regions ex1)) ex1 start size flags rp)
      as (ex' & res & -> & Hatt); [done|done|lia|lia|done|].
    eexists _, _. split; [done|]. revert Hatt. apply attempt_from; [done|done|..];
      unfold free_range, allocated; by rewrite Hr.
  - eexists _, _. split; [done|]. split; [done|]. split; done.
  - eexists _, _. split; [done|]. split; [done|]. split; done.
Qed.

(** [extent_alloc_region] without EX_CONFLICTOK, on any request within a
    well-formed extent: when it has a descriptor it returns 0 exactly if no
    address of the range was allocated, and then exactly the range is allocated
    besides; otherwise it returns EAGAIN or (EX_WAITSPACE) sleeps with EXF_WANTED
    set.  Without a descriptor it returns ENOMEM or sleeps on the freelist.  When
    it does not succeed the region list is unchanged.  The extent stays sorted, disjoint and (unless EXF_NOCOALESCE)
    fully merged. *)
Theorem extent_alloc_region_spec pool ex start size flags :
  ext_wf ex → 1 ≤ size → ex_start ex ≤ start → start + size - 1 ≤ ex_end ex →
  has flags EX_CONFLICTOK = false →
  ∃ ex' res,
    extent_alloc_region pool ex start size flags = Ret (ex', res) ∧
    attempt flags (extent_alloc_region_descriptor pool ex flags).2 ex ex' res
      (free_range ex start size ∧ ∀ a, allocated ex' a ↔ allocated ex a ∨ start ≤ a < start + size)
      (¬ free_range ex start size).
Proof. apply extent_alloc_region_any. Qed.

(** ** Alignment *)

Lemma land_neg_pow2 k x :
  0 ≤ k < 64 → is_u64 x → Z.land x (u64 (- 2 ^ k)) = x - x mod 2 ^ k.
Proof.
  intros Hk Hx. assert (Z.land x (u64 (- 2 ^ k)) = Z.ldiff x (Z.ones k)) as ->.
  { replace (- 2 ^ k) with (Z.lnot (Z.ones k)) by (rewrite Z.ones_equiv; unfold Z.lnot; lia).
    apply Z.bits_inj'. intros i Hi. rewrite Z.land_spec, Z.ldiff_spec.
    destruct (decide (i < 64)).
    - unfold u64. change M64 with (2 ^ 64). rewrite Z.mod_pow2_bits_low, Z.lnot_spec by lia. done.
    - rewrite (testbit_above 64 x) by (unfold is_u64 in Hx; lia). done. }
  rewrite Z.ldiff_ones_r, Z.shiftl_mul_pow2, Z.shiftr_div_pow2 by lia.
  pose proof (Z.div_mod x (2 ^ k) ltac:(apply Z.pow_nonzero; lia)). lia.
Qed.

(** The least address from [start] on that is congruent to [skew]. *)
Definition align_up (start align skew : Z) : Z := start + (skew - start) mod align.

Lemma extent_align_spec k start skew :
  0 ≤ k < 64 → extent_align start (2 ^ k) skew = u64 (align_up start (2 ^ k) skew).
Proof.
  intros Hk. assert (0 < 2 ^ k) as Hp by (apply Z.pow_pos_nonneg; lia).
  assert (M64 = 2 ^ k * 2 ^ (64 - k)) as HM.
  { rewrite <-Z.pow_add_r by lia. by replace (k + (64 - k)) with 64 by lia. }
  unfold extent_align. rewrite land_neg_pow2 by (done || apply u64_range).
  replace (u64 (u64 (start - skew) + u64 (2 ^ k - 1))) with (u64 (start - skew + (2 ^ k - 1)))
    by (unfold u64; apply Z.add_mod; lia).
  set (y := start - skew + (2 ^ k - 1)).
  assert (u64 y mod 2 ^ k = y mod 2 ^ k) as ->.
  { unfold u64. apply Z.mod_mod_divide. rewrite HM. apply Z.divide_factor_l. }
  assert (y mod 2 ^ k = 2 ^ k - 1 - (skew - start) mod 2 ^ k) as ->.
  { symmetry. apply (Z.mod_unique_pos _ _ (- ((skew - start) / 2 ^ k))).
    - pose proof (Z.mod_pos_bound (skew - start) (2 ^ k) Hp). lia.
    - pose proof (Z.div_mod (skew - start) (2 ^ k) ltac:(lia)). subst y. lia. }
  unfold align_up.
  transitivity (u64 (u64 y + (skew - (2 ^ k - 1 - (skew - start) mod 2 ^ k)))); [f_equal; lia|].
  unfold u64. rewrite Z.add_mod_idemp_l by lia. f_equal. subst y. lia.
Qed.

Lemma align_up_spec start align skew :
  0 < align → start ≤ align_up start align skew < start + align ∧
  (align_up start align skew - skew) mod align = 0.
Proof.
  intros Ha. unfold align_up. pose proof (Z.mod_pos_bound (skew - start) align Ha).
  split; [lia|]. pose proof (Z.div_mod (skew - start) align ltac:(lia)) as Hd.
  replace (start + (skew - start) mod align - skew) with (- ((skew - start) / align) * align) by lia.
  apply Z.mod_mul. lia.
Qed.

(** It is the least one. *)
Lemma align_up_least start align skew x :
  0 < align → start ≤ x → (x - skew) mod align = 0 → align_up start align skew ≤ x.
Proof.
  intros Ha Hx Hm. unfold align_up.
  assert ((skew - start) mod align = (x - start) mod align) as ->.
  { replace (x - start) with (skew - start + (x - skew)) by lia.
    rewrite Z.add_mod, Hm, Z.add_0_r, Z.mod_mod by lia. done. }
  pose proof (Z.mod_le (x - start) align). lia.
Qed.

(** ** The search for space *)

Lemma LE_OV_spec x y z :
  is_u64 x → is_u64 y → is_u64 z → LE_OV x y z = bool_decide (x + y ≤ z).
Proof.
  intros Hx Hy Hz. unfold LE_OV, is_u64 in *.
  destruct (decide (x + y < M64)).
  - rewrite u64_small by (unfold is_u64; lia). rewrite (proj2 (Z.leb_le x _)) by lia.
    case_bool_decide; [by apply Z.leb_le|apply Z.leb_gt; lia].
  - rewrite bool_decide_false by lia.
    replace (x <=? u64 (x + y)) with false by (symmetry; apply Z.leb_gt; wrap_lia). done.
Qed.

Lemma skip_before_spec l2 l1 newstart :
  Forall (λ r, er_start r < newstart) l1 → StronglySorted (λ r q, er_start r ≤ er_start q) l2 →
  ∃ m1 m2, skip_before l2 (length l1) (last_index l1) newstart =
      (m2, length m1, last_index m1) ∧ l1 ++ l2 = m1 ++ m2 ∧
    Forall (λ r, er_start r < newstart) m1 ∧ Forall (λ r, newstart ≤ er_start r) m2.
Proof.
  revert l1. induction l2 as [|r l2 IH]; intros l1 Hl1 Hs; cbn [skip_before].
  { exists l1, []. split_and!; done. }
  apply StronglySorted_inv in Hs as [Hs Hr]. destruct (Z.leb_spec newstart (er_start r)).
  - exists l1, (r :: l2). split_and!; try done. constructor; [done|].
    eapply Forall_impl; [exact Hr|]. cbn. lia.
  - destruct (IH (l1 ++ [r])) as (m1 & m2 & Heq & Happ & ?); [|done|].
    { apply Forall_app. split; [done|]. by constructor. }
    exists m1, m2. rewrite last_index_snoc, length_app, Nat.add_1_r in Heq.
    by rewrite <-app_assoc in Happ.
Qed.

Section FindSpace.
Context (ex : extent) (substart subend size k skew boundary flags : Z).
(** The subregion lies in the extent, the alignment is a power of two, and so
    is the boundary if there is one; the arithmetic does not wrap around at
    the end of the extent. *)
Context (Hwf : ext_wf ex).
Context (Hsub : ex_start ex ≤ substart ∧ subend ≤ ex_end ex).
Context (Hsize : 1 ≤ size ∧ substart + size - 1 ≤ subend).
Context (Hk : 0 ≤ k < 64) (Hskew : is_u64 skew).
Context (Hwrap : ex_end ex + 2 ^ k < M64).
Context (Hbound : boundary = 0 ∨
  ∃ b, 0 ≤ b < 64 ∧ boundary = 2 ^ b ∧ size ≤ boundary ∧ ex_end ex + boundary < M64).

Definition bskew : Z := if has flags EX_BOUNDZERO then 0 else ex_start ex.

(** What is asked of the address: aligned if there is no boundary, otherwise
    not crossing one. *)
Definition placed (x : Z) : Prop :=
  if boundary =? 0 then (x - skew) mod 2 ^ k = 0
  else (x - bskew) / boundary = (x + size - 1 - bskew) / boundary.

(** A free place for the request, after the regions up to [last]. *)
Definition good_spot (x : Z) (last : option nat) : Prop :=
  ∃ l1 l2, last = last_index l1 ∧ gap_at ex l1 l2 x size ∧
    substart ≤ x ∧ x + size - 1 ≤ subend ∧ placed x.

Definition candidate (x : Z) : Prop :=
  substart ≤ x ∧ x + size - 1 ≤ subend ∧ (x - skew) mod 2 ^ k = 0 ∧ free_range ex x size.

Definition best_ok (best : best_gap) : Prop :=
  (bestovh best ≠ 0 → good_spot (beststart best) (bestlast best)) ∧
  (has flags EX_FAST = true → bestovh best = 0).

(** The state of the scan between the regions [l1] and [l2]. *)
Record scan_inv (l1 l2 : list extent_region) (newstart : Z) (best : best_gap) : Prop := {
  si_split : ex_regions ex = l1 ++ l2;
  si_before : Forall (λ r, er_end r < newstart) l1;
  si_after : Forall (λ r, substart ≤ er_start r) l2;
  si_lo : substart ≤ newstart;
  si_hi : newstart ≤ ex_end ex + 2 ^ k;
  si_aligned : (newstart - skew) mod 2 ^ k = 0;
  si_best : best_ok best;
  si_least : boundary = 0 → bestovh best = 0 → ∀ x, candidate x → newstart ≤ x;
}.

Definition failed_ok (best : best_gap) : Prop :=
  best_ok best ∧ (boundary = 0 → bestovh best = 0 → ∀ x, ¬ candidate x).

Lemma pow_k_pos : 0 < 2 ^ k.
Proof using Hk. apply Z.pow_pos_nonneg; lia. Qed.

Lemma boundary_check_spec newstart fits :
  substart ≤ newstart → newstart + size - 1 ≤ ex_end ex → (newstart - skew) mod 2 ^ k = 0 →
  match boundary_check ex flags boundary size newstart fits with
  | BoundaryOk s =>
      newstart ≤ s ≤ ex_end ex ∧ (s = newstart ∨ fits s = true) ∧ placed s ∧
      (boundary = 0 → s = newstart)
  | _ => boundary ≠ 0
  end.
Proof using All.
  intros Hlo Hhi Hal. unfold boundary_check, placed.
  destruct (Z.eqb_spec boundary 0) as [->|Hb0]; [split_and!; try done; auto; lia|].
  destruct Hbound as [?|(b & Hb & -> & Hsb & Hwb)]; [done|]. fold bskew.
  destruct Hwf as (Hws & Hwe & _). unfold is_u64 in *.
  assert (0 < 2 ^ b) as Hp by (apply Z.pow_pos_nonneg; lia).
  destruct (align_up_spec (newstart + 1) (2 ^ b) bskew Hp) as [Hup Hmod].
  rewrite (u64_small (newstart + 1)), extent_align_spec by (unfold is_u64; lia).
  rewrite (u64_small (align_up _ _ _)) by (unfold is_u64; lia).
  rewrite (u64_small (align_up _ _ _ - 1)) by (unfold is_u64; lia).
  assert (u64 (newstart + u64 (size - 1)) = newstart + size - 1) as -> by wrap_lia.
  set (next := align_up (newstart + 1) (2 ^ b) bskew) in *.
  destruct (Z.ltb_spec (next - 1) (ex_start ex)); [lia|].
  apply Z.mod_divide in Hmod as [q Hq]; [|lia].
  assert (∀ x c, c * 2 ^ b ≤ x < (c + 1) * 2 ^ b → x / 2 ^ b = c) as Hcell.
  { intros x c Hx. symmetry. apply (Z.div_unique_pos _ _ _ (x - c * 2 ^ b)); lia. }
  destruct (Z.ltb_spec (next - 1) (newstart + size - 1)).
  - replace (next - 1 + 1) with next by lia. rewrite (u64_small next) by (unfold is_u64; lia).
    destruct (fits next) eqn:Hfits; [|done]. destruct (_ || _); [done|].
    split_and!; [lia|lia|auto| |done]. rewrite !(Hcell _ q); lia.
  - destruct (_ || _); [done|]. split_and!; [lia|lia|auto| |done]. rewrite !(Hcell _ (q - 1)); lia.
Qed.

(** A candidate found between [l1] and [l2]. *)
Lemma good_spot_intro l1 l2 x :
  ex_regions ex = l1 ++ l2 → Forall (λ r, er_end r < x) l1 →
  Forall (λ r, x + size - 1 < er_start r) l2 → substart ≤ x → x + size - 1 ≤ subend →
  placed x → good_spot x (last_index l1).
Proof using All.
  intros. exists l1, l2. split_and!; try done. constructor; try done; lia.
Qed.

Lemma better_ok best ovh x last :
  best_ok best → has flags EX_FAST = false → ovh ≠ 0 → good_spot x last →
  best_ok (better best ovh x last) ∧ bestovh (better best ovh x last) ≠ 0.
Proof using All.
  unfold better, best_ok. intros Hbest -> Hovh Hgood.
  destruct (Z.eqb_spec (bestovh best) 0), (Z.ltb_spec ovh (bestovh best)); cbn; naive_solver.
Qed.

(** Past the region [r]: [goto skip]. *)
Lemma scan_inv_skip l1 r l2 newstart best best' :
  scan_inv l1 (r :: l2) newstart best → best_ok best' →
  (boundary = 0 → bestovh best' = 0 → bestovh best = 0 ∧
    ∀ x, candidate x → newstart ≤ x → er_end r < x) →
  let newstart' := extent_align (u64 (er_end r + 1)) (2 ^ k) skew in
  er_end r < newstart' ∧ scan_inv (l1 ++ [r]) l2 newstart' best'.
Proof using All.
  intros [Hsplit Hbefore Hafter Hlo Hhi Hal Hbest Hleast] Hbest' Hno. cbn zeta.
  pose proof Hwf as (Hws & Hwe & Hok).
  pose proof (regions_ok_bounds _ _ _ _ (proj1 (gap_range ex)) Hok) as Hb.
  rewrite Hsplit in Hok, Hb. unfold is_u64 in Hws, Hwe. pose proof pow_k_pos as Hp.
  pose proof (regions_ok_sorted _ _ _ _ _ _ (proj1 (gap_range ex)) Hok) as [Hprev _].
  apply regions_ok_app in Hok as [_ (_ & Hr & _)].
  apply Forall_app in Hb as [Hb1 (Hbr & Hb2)%Forall_cons].
  apply Forall_cons in Hafter as [Har Hafter].
  destruct (align_up_spec (er_end r + 1) (2 ^ k) skew Hp) as [Hup Hmod].
  rewrite (u64_small (er_end r + 1)), extent_align_spec by (done || unfold is_u64; lia).
  rewrite u64_small by (unfold is_u64; lia). split; [lia|]. split; try done || lia.
  - by rewrite <-app_assoc.
  - apply Forall_app. split; [|by constructor; [lia|]].
    eapply Forall_impl; [exact Hprev|]. cbn. lia.
  - intros Hb0 Hbest0 x Hx. destruct (Hno Hb0 Hbest0) as [Hb0' Hx'].
    pose proof (Hx' x Hx (Hleast Hb0 Hb0' x Hx)). destruct Hx as (_ & _ & Hxal & _).
    apply align_up_least; [done|lia|done].
Qed.

Definition scan_ok (res : scan_result) : Prop :=
  match res with
  | Found x last => good_spot x last
  | Failed b => failed_ok b
  | AtEnd ns last b exend =>
      ∃ l1 l2, last = last_index l1 ∧ scan_inv l1 l2 ns b ∧
        Forall (λ r, subend < er_start r) l2
  end.

(** A range that does not fit before [r] and is free begins after it. *)
Lemma candidate_past l1 r l2 newstart x :
  ex_regions ex = l1 ++ r :: l2 → er_start r < newstart + size →
  candidate x → newstart ≤ x → er_end r < x.
Proof using All.
  intros Hsplit Hno (_ & _ & _ & Hfree) Hx. apply Z.lt_nge. intros Hle.
  pose proof (regions_ok_bounds _ _ _ _ (proj1 (gap_range ex)) (proj2 (proj2 Hwf))) as Hb.
  rewrite Hsplit in Hb. apply Forall_app in Hb as [_ [Hr _]%Forall_cons].
  apply (Hfree (Z.max x (er_start r))); [lia|].
  unfold allocated. rewrite Hsplit, covered_app, covered_cons. right; left. unfold covers. lia.
Qed.

(** The place just before the region [r], after the boundary check. *)
Lemma spot_before l1 r l2 newstart best s :
  scan_inv l1 (r :: l2) newstart best → er_start r ≤ subend →
  newstart ≤ s → s + size ≤ er_start r → placed s → good_spot s (last_index l1).
Proof using All.
  intros [Hsplit Hbefore Hafter Hlo Hhi Hal Hbest Hleast] Hsubend Hs Hfit Hpl.
  pose proof (proj2 (proj2 Hwf)) as Hok. rewrite Hsplit in Hok.
  destruct (regions_ok_sorted _ _ _ _ _ _ (proj1 (gap_range ex)) Hok) as [_ Hnext].
  apply regions_ok_app in Hok as [_ (_ & Hr & _)].
  apply (good_spot_intro l1 (r :: l2)); try done; try lia.
  - eapply Forall_impl; [exact Hbefore|]. cbn. lia.
  - constructor; [lia|]. eapply Forall_impl; [exact Hnext|]. cbn. lia.
Qed.

Lemma alloc_scan_spec l2 l1 newstart best :
  scan_inv l1 l2 newstart best →
  scan_ok (alloc_scan ex subend size (2 ^ k) skew boundary flags l2 (length l1)
             (last_index l1) newstart best).
Proof using All.
  revert l1 newstart best. induction l2 as [|r l2 IH]; intros l1 newstart best Hinv;
    cbn [alloc_scan].
  { exists l1, []. split_and!; done. }
  pose proof (si_split _ _ _ _ Hinv) as Hsplit. pose proof Hwf as (Hws & Hwe & Hok).
  rewrite Hsplit in Hok.
  destruct (Z.ltb_spec subend (er_start r)).
  { destruct (regions_ok_sorted _ _ _ _ _ _ (proj1 (gap_range ex)) Hok) as [_ Hnext].
    apply regions_ok_app in Hok as [_ (_ & Hr & _)].
    exists l1, (r :: l2). split_and!; [done|done|]. constructor; [done|].
    eapply Forall_impl; [exact Hnext|]. cbn. lia. }
  assert (∀ best', best_ok best' → (boundary = 0 → bestovh best' = 0 → bestovh best = 0 ∧
    ∀ x, candidate x → newstart ≤ x → er_end r < x) →
    let ns := extent_align (u64 (er_end r + 1)) (2 ^ k) skew in
    scan_ok (if ns <? er_end r then Failed best' else
      alloc_scan ex subend size (2 ^ k) skew boundary flags l2 (S (length l1))
        (Some (length l1)) ns best')) as Hskip.
  { intros best' Hbest' Hno. destruct (scan_inv_skip _ _ _ _ _ _ Hinv Hbest' Hno) as [Hlt Hinv'].
    cbn zeta in *. destruct (Z.ltb_spec (extent_align (u64 (er_end r + 1)) (2 ^ k) skew) (er_end r)); [lia|].
    specialize (IH _ _ _ Hinv'). by rewrite last_index_snoc, length_app, Nat.add_1_r in IH. }
  pose proof Hinv as [_ Hbefore Hafter Hlo Hhi Hal Hbest Hleast].
  pose proof (regions_ok_bounds _ _ _ _ (proj1 (gap_range ex)) Hok) as Hb.
  apply Forall_app in Hb as [_ [Hr _]%Forall_cons]. unfold is_u64 in Hws, Hwe.
  rewrite LE_OV_spec by (unfold is_u64; lia). case_bool_decide as Hfit.
  - pose proof (boundary_check_spec newstart (λ s, LE_OV s size (er_start r)) Hlo ltac:(lia) Hal)
      as Hbc.
    destruct (boundary_check _ _ _ _ _ _) as [s| |];
      [|apply Hskip; [done|by intros]|split; [done|by intros]].
    destruct Hbc as (Hs & Hfits & Hpl & Hb0).
    assert (s + size ≤ er_start r) as Hfit'.
    { destruct Hfits as [->|Hfits]; [done|].
      rewrite LE_OV_spec in Hfits by (unfold is_u64; lia). by apply bool_decide_eq_true in Hfits. }
    assert (good_spot s (last_index l1)) as Hgood by (eapply spot_before; done || lia).
    destruct (has flags EX_FAST) eqn:Hfast; [done|]. cbn [orb].
    destruct (Z.eqb_spec (u64 (er_start r - s - size)) 0); [done|].
    destruct (better_ok best _ s _ Hbest Hfast n Hgood). apply Hskip; [done|by intros].
  - apply Hskip; [done|]. intros Hb0 Hbest0. split; [done|]. intros x Hx Hle.
    eapply candidate_past; try done. lia.
Qed.

Lemma final_check_spec l1 l2 newstart best exend :
  scan_inv l1 l2 newstart best → Forall (λ r, subend < er_start r) l2 →
  match final_check ex subend size boundary flags newstart (last_index l1) best exend with
  | Found x last => good_spot x last
  | Failed b => failed_ok b
  | AtEnd _ _ _ _ => False
  end.
Proof using All.
  intros Hinv Hl2. pose proof Hinv as [Hsplit Hbefore Hafter Hlo Hhi Hal Hbest Hleast].
  pose proof Hwf as (Hws & Hwe & _). unfold is_u64 in Hws, Hwe. unfold final_check.
  rewrite (u64_small (size - 1)) by (unfold is_u64; lia).
  rewrite LE_OV_spec by (unfold is_u64; lia). case_bool_decide as Hfit.
  - pose proof (boundary_check_spec newstart (λ s, LE_OV s (size - 1) subend) Hlo ltac:(lia) Hal)
      as Hbc.
    destruct (boundary_check _ _ _ _ _ _) as [s| |]; [|split; [done|by intros]..].
    destruct Hbc as (Hs & Hfits & Hpl & Hb0).
    assert (s + size - 1 ≤ subend) as Hfit'.
    { destruct Hfits as [->|Hfits]; [lia|]. rewrite LE_OV_spec in Hfits by (unfold is_u64; lia).
      apply bool_decide_eq_true in Hfits. lia. }
    assert (good_spot s (last_index l1)) as Hgood.
    { apply (good_spot_intro l1 l2); try done; try lia.
      - eapply Forall_impl; [exact Hbefore|]. cbn. lia.
      - eapply Forall_impl; [exact Hl2|]. cbn. lia. }
    destruct (has flags EX_FAST) eqn:Hfast; [done|]. cbn [orb].
    destruct (Z.eqb_spec (u64 (exend - s - (size - 1))) 0); [done|].
    destruct (better_ok best _ s _ Hbest Hfast n Hgood). split; [done|by intros].
  - split; [done|]. intros Hb0 Hbest0 x Hx. pose proof (Hleast Hb0 Hbest0 x Hx).
    destruct Hx. lia.
Qed.

(** Where the scan starts: past the regions that begin before the aligned
    start of the subregion. *)
Lemma scan_start l1 l2 (ns := align_up substart (2 ^ k) skew) :
  ex_regions ex = l1 ++ l2 → Forall (λ r, er_start r < ns) l1 → Forall (λ r, ns ≤ er_start r) l2 →
  scan_inv l1 l2
    (match last_index l1 with
     | Some l => match ex_regions ex !! l with
                 | Some r => if ns <=? er_end r then extent_align (u64 (er_end r + 1)) (2 ^ k) skew
                             else ns
                 | None => ns
                 end
     | None => ns
     end) (Best 0 0 None).
Proof using All.
  intros Hsplit Hl1 Hl2. destruct (align_up_spec substart (2 ^ k) skew pow_k_pos) as [Hup Hmod].
  fold ns in Hup, Hmod. pose proof Hwf as (Hws & Hwe & Hok).
  assert (best_ok (Best 0 0 None)) as Hbest by (split; [done|by intros]).
  assert (Forall (λ r, substart ≤ er_start r) l2) as Hafter.
  { eapply Forall_impl; [exact Hl2|]. cbn. lia. }
  assert (∀ x, candidate x → ns ≤ x) as Hns.
  { intros x (Hx & _ & Hal & _). by apply align_up_least; [apply pow_k_pos|..]. }
  destruct l1 as [|r l1 _] using rev_ind.
  { cbn [last_index length]. split; done || lia. }
  rewrite last_index_snoc, Hsplit, <-app_assoc. cbn [app].
  rewrite list_lookup_middle by done. rewrite Hsplit, <-app_assoc in Hok. cbn [app] in Hok.
  destruct (regions_ok_sorted _ _ _ _ _ _ (proj1 (gap_range ex)) Hok) as [Hprev _].
  pose proof (regions_ok_bounds _ _ _ _ (proj1 (gap_range ex)) Hok) as Hb.
  apply Forall_app in Hb as [_ [Hr _]%Forall_cons]. unfold is_u64 in Hws, Hwe.
  apply Forall_app in Hl1 as [_ [Hrns _]%Forall_cons].
  destruct (Z.leb_spec ns (er_end r)) as [Hle|Hlt].
  - destruct (align_up_spec (er_end r + 1) (2 ^ k) skew pow_k_pos) as [Hup' Hmod'].
    rewrite (u64_small (er_end r + 1)), extent_align_spec by (done || unfold is_u64; lia).
    rewrite u64_small by (unfold is_u64; lia). split; try done || lia.
    + apply Forall_app. split; [|by constructor; [lia|]].
      eapply Forall_impl; [exact Hprev|]. cbn. lia.
    + intros _ _ x Hx. pose proof (Hns x Hx). pose proof Hx as (_ & _ & Hal & Hfree).
      apply align_up_least; [apply pow_k_pos| |done]. apply Z.le_succ_l, Z.lt_nge. intros Hxr.
      apply (Hfree x); [lia|]. unfold allocated. rewrite Hsplit, !covered_app, covered_cons.
      left; right; left. unfold covers. lia.
  - split; try done || lia. apply Forall_app. split; [|by constructor]. eapply Forall_impl; [exact Hprev|]. cbn. lia.
Qed.

(** What [fail] decides. *)
Lemma failed_decide b :
  failed_ok b →
  match (if negb (has flags EX_FAST) && negb (bestovh b =? 0)
         then Some (beststart b, bestlast b) else None) with
  | Some (x, last) => good_spot x last
  | None => boundary = 0 → ∀ x, ¬ candidate x
  end.
Proof using All.
  intros [[Hgood Hfast] Hnone]. destruct (Z.eqb_spec (bestovh b) 0) as [H0|H0].
  - rewrite andb_false_r. auto.
  - destruct (has flags EX_FAST); [by rewrite Hfast in H0|]. cbn. auto.
Qed.

(** The search finds a good spot, and finds one whenever there is one to find
    (no boundary being asked for). *)
Lemma find_space_spec :
  match find_space ex subend size (2 ^ k) skew boundary flags (align_up substart (2 ^ k) skew) with
  | Some (x, last) => good_spot x last
  | None => boundary = 0 → ∀ x, ¬ candidate x
  end.
Proof using All.
  destruct (align_up_spec substart (2 ^ k) skew pow_k_pos) as [Hup Hmod].
  set (ns := align_up substart (2 ^ k) skew) in *. unfold find_space.
  pose proof Hwf as (Hws & Hwe & Hok). pose proof (proj1 (gap_range ex)) as Hg.
  destruct (skip_before_spec (ex_regions ex) [] ns) as (l1 & l2 & Hskip & Hsplit & Hl1 & Hl2);
    [done|by eapply regions_ok_starts|].
  cbn [length last_index app] in Hskip, Hsplit. rewrite Hskip. clear Hskip.
  set (ns' := match last_index l1 with Some _ => _ | None => _ end).
  assert (scan_inv l1 l2 ns' (Best 0 0 None)) as Hinv by (by apply scan_start).
  pose proof (alloc_scan_spec _ _ _ _ Hinv) as Hscan.
  destruct (alloc_scan _ _ _ _ _ _ _ _ _ _ _) as [x last|b|ns2 last b exend]; [done| |].
  - by apply failed_decide.
  - destruct Hscan as (m1 & m2 & -> & Hinv' & Hm2).
    pose proof (final_check_spec _ _ _ _ exend Hinv' Hm2) as Hfin.
    destruct (final_check _ _ _ _ _ _ _ _ _); [done|by apply failed_decide|done].
Qed.
End FindSpace.

(** A request [extent_alloc_subregion] is specified for: in range, the alignment
    and the boundary powers of two, and no wrap-around past the end. *)
Record request_ok (ex : extent) (substart subend size k skew boundary : Z) : Prop := {
  rq_sub : ex_start ex ≤ substart ∧ subend ≤ ex_end ex;
  rq_size : 1 ≤ size ∧ substart + size - 1 ≤ subend;
  rq_align : 0 ≤ k < 64;
  rq_skew : is_u64 skew;
  rq_wrap : ex_end ex + 2 ^ k < M64;
  rq_bound : boundary = 0 ∨
    ∃ b, 0 ≤ b < 64 ∧ boundary = 2 ^ b ∧ size ≤ boundary ∧ ex_end ex + boundary < M64;
}.

Lemma request_ok_same ex ex' substart subend size k skew boundary :
  same_extent ex ex' → request_ok ex substart subend size k skew boundary →
  request_ok ex' substart subend size k skew boundary.
Proof. intros (Hs & He & _) []. split; rewrite ?Hs, ?He; done. Qed.

(** What a successful allocation gives: an address [x] within the subregion,
    placed as asked, whose range was free and is now allocated. *)
Definition alloc_success (ex ex' : extent) (substart subend size k skew boundary flags : Z)
    (a : option Z) : Prop :=
  ∃ x, a = Some x ∧ substart ≤ x ∧ x + size - 1 ≤ subend ∧
    placed ex size k skew boundary flags x ∧ free_range ex x size ∧
    ∀ b, allocated ex' b ↔ allocated ex b ∨ x ≤ b < x + size.

Lemma do_alloc_start_spec ex substart subend size k skew boundary flags rp :
  ext_wf ex → request_ok ex substart subend size k skew boundary →
  ∃ ex' res a,
    do_alloc_start ex substart subend size (2 ^ k) skew boundary flags rp = Ret (ex', res, a) ∧
    attempt flags (Descr rp) ex ex' res
      (alloc_success ex ex' substart subend size k skew boundary flags a)
      (boundary = 0 → ∀ x, ¬ candidate ex substart subend size k skew x).
Proof.
  intros Hwf [Hsub Hsize Hk Hskew Hwrap Hbound].
  pose proof (find_space_spec ex substart subend size k skew boundary flags
    Hwf Hsub Hsize Hk Hskew Hwrap Hbound) as Hfs.
  destruct (align_up_spec substart (2 ^ k) skew (pow_k_pos k Hk)) as [Hup _].
  unfold do_alloc_start. destruct Hwf as (Hws & Hwe & Hok) eqn:E. clear E.
  unfold is_u64 in Hws, Hwe.
  rewrite extent_align_spec, u64_small by (done || unfold is_u64; lia). unfold kassert.
  destruct (Z.ltb_spec (align_up substart (2 ^ k) skew) (ex_start ex)); [lia|].
  cbn [negb]. rewrite bind_Ret_l. destruct (find_space _ _ _ _ _ _ _ _) as [[x last]|].
  - destruct Hfs as (l1 & l2 & -> & Hgap & Hlo & Hhi & Hpl).
    destruct (insert_spec ex l1 l2 x size rp Hwf Hgap) as (ex' & -> & Hwf' & Hse & Ha).
    rewrite bind_Ret_l. eexists _, _, _. split; [done|]. split; [done|]. split; [done|].
    left. split; [done|]. exists x. split_and!; try done. by eapply gap_at_free.
  - pose proof (attempt_nospace flags ex rp False _ Hwf Hfs) as Hatt.
    destruct (has flags EX_WAITSPACE) eqn:Hw; eexists _, _, _; (split; [done|]).
    all: unfold attempt in *; rewrite Hw in *; intuition discriminate.
Qed.

(** The argument checks pass on a sound request. *)
Lemma do_alloc_checks ex substart subend size k skew boundary flags rp :
  ext_wf ex → request_ok ex substart subend size k skew boundary →
  extent_do_alloc ex substart subend size (2 ^ k) skew boundary flags rp =
  do_alloc_start ex substart subend size (2 ^ k) skew boundary flags rp.
Proof.
  intros ([??] & [??] & _) [? ? Hk ? ? Hbd]. pose proof (pow_k_pos k Hk).
  unfold extent_do_alloc, kassert.
  rewrite (u64_small (subend - substart)), (u64_small (size - 1)) by (unfold is_u64; lia).
  destruct (Z.ltb_spec substart (ex_start ex)), (Z.ltb_spec (ex_end ex) substart),
    (Z.ltb_spec (ex_end ex) subend), (Z.ltb_spec subend (ex_start ex)); try lia.
  destruct (Z.ltb_spec size 1), (Z.ltb_spec (subend - substart) (size - 1)),
    (Z.eqb_spec (2 ^ k) 0); try lia.
  destruct (Z.ltb_spec boundary size), (Z.eqb_spec boundary 0); try done.
  destruct Hbd as [?|(?&?&?&?&?)]; lia.
Qed.

Lemma extent_alloc_subregion_any pool ex substart subend size k skew boundary flags :
  ext_wf ex → request_ok ex substart subend size k skew boundary →
  ∃ ex' res a,
    extent_alloc_subregion pool ex substart subend size (2 ^ k) skew boundary flags =
      Ret (ex', res, a) ∧
    attempt flags (extent_alloc_region_descriptor pool ex flags).2 ex ex' res
      (alloc_success ex ex' substart subend size k skew boundary flags a)
      (boundary = 0 → ∀ x, ¬ candidate ex substart subend size k skew x).
Proof.
  intros Hwf Hrq. unfold extent_alloc_subregion.
  destruct (extent_alloc_region_descriptor pool ex flags) as [ex1 d] eqn:Hd.
  destruct (alloc_descriptor_spec _ _ _ _ _ Hd) as (Hr & Hse & _).
  pose proof (alloc_descriptor_wf _ _ _ _ _ Hd Hwf) as Hwf1. destruct d as [rp| |].
  - pose proof (request_ok_same _ _ _ _ _ _ _ _ Hse Hrq) as Hrq1.
    rewrite do_alloc_checks by done.
    destruct (do_alloc_start_spec ex1 substart subend size k skew boundary flags rp)
      as (ex' & res & a & -> & Hatt); [done|done|].
    eexists _, _, _. split; [done|]. revert Hatt. apply attempt_from; [done|done|..];
      unfold alloc_success, candidate, placed, bskew, free_range, allocated;
      by rewrite ?Hr, ?(proj1 Hse).
  - eexists _, _, _. split; [done|]. split; [done|]. split; done.
  - eexists _, _, _. split; [done|]. split; [done|]. split; done.
Qed.

(** C3: [extent_alloc_subregion] on any well-formed extent and sound request (the
    alignment and the boundary powers of two that cannot wrap past the top of the
    address space, see [alloc_subregion_wraps]), by first fit or best fit: if it has
    a descriptor it either returns 0 with an address within the subregion, whose
    whole range was free and exactly which is allocated besides; or it refuses
    (EAGAIN, or sleeps with EX_WAITSPACE).  Without a boundary the address is
    aligned, and it refuses only when no aligned free range of that size exists in
    the subregion: the search never misses space.  With a boundary the range does
    not cross one, and need not be aligned (see [boundary_unaligned]). *)
Theorem extent_alloc_subregion_spec pool ex substart subend size k skew boundary flags :
  ext_wf ex → request_ok ex substart subend size k skew boundary →
  ∃ ex' res a,
    extent_alloc_subregion pool ex substart subend size (2 ^ k) skew boundary flags =
      Ret (ex', res, a) ∧
    attempt flags (extent_alloc_region_descriptor pool ex flags).2 ex ex' res
      (alloc_success ex ex' substart subend size k skew boundary flags a)
      (boundary = 0 → ∀ x, ¬ candidate ex substart subend size k skew x).
Proof. apply extent_alloc_subregion_any. Qed.

(** Both allocators at concrete requests: the first address aligned to 16 in
    the subregion 0x18 .. 0xff is 0x20. *)
Lemma ex0_wf : ext_wf ex0.
Proof. unfold ext_wf, is_u64. change (gap ex0) with 1. cbn. lia. Qed.

Lemma extent_alloc_subregion_spec_witness :
  ext_wf ex0 ∧ request_ok ex0 0x18 0xff 8 4 0 0 ∧
  ∃ ex' res a,
    extent_alloc_subregion true ex0 0x18 0xff 8 (2 ^ 4) 0 0 EX_FAST = Ret (ex', res, a) ∧
    attempt EX_FAST (Descr ER_ALLOC) ex0 ex' res
      (alloc_success ex0 ex' 0x18 0xff 8 4 0 0 EX_FAST a)
      (0 = 0 → ∀ x, ¬ candidate ex0 0x18 0xff 8 4 0 x).
Proof.
  assert (request_ok ex0 0x18 0xff 8 4 0 0) as Hrq.
  { split; unfold is_u64; cbn; lia. }
  split; [exact ex0_wf|]. split; [exact Hrq|].
  exact (extent_alloc_subregion_spec true ex0 0x18 0xff 8 4 0 0 EX_FAST ex0_wf Hrq).
Defined.

Lemma extent_alloc_region_spec_witness :
  ext_wf ex0 ∧
  ∃ ex' res,
    extent_alloc_region true ex0 0x20 8 EX_NOWAIT = Ret (ex', res) ∧
    attempt EX_NOWAIT (Descr ER_ALLOC) ex0 ex' res
      (free_range ex0 0x20 8 ∧ ∀ a, allocated ex' a ↔ allocated ex0 a ∨ 0x20 ≤ a < 0x20 + 8)
      (¬ free_range ex0 0x20 8).
Proof.
  split; [exact ex0_wf|].
  apply (extent_alloc_region_spec true ex0 0x20 8 EX_NOWAIT ex0_wf); cbn; lia || done.
Defined.

(** ** Freeing *)

(** What a free must establish: [start .. end_] and nothing else is given back. *)
Definition free_post (ex : extent) (start end_ : Z) (ex' : extent) : Prop :=
  ext_wf ex' ∧ same_extent ex ex' ∧
  has (ex_flags ex') EXF_WANTED = has (ex_flags ex) EXF_WANTED ∧
  ∀ a, allocated ex' a ↔ allocated ex a ∧ ¬ (start ≤ a ≤ end_).

Definition removed (ex : extent) (rs : list extent_region) (start end_ : Z) : Prop :=
  regions_ok (gap ex) (ex_start ex) rs (ex_end ex) ∧
  ∀ a, covered rs a ↔ allocated ex a ∧ ¬ (start ≤ a ≤ end_).

Lemma removed_set ex rs start end_ :
  ext_wf ex → removed ex rs start end_ → free_post ex start end_ (set_regions ex rs).
Proof. intros (? & ? & ?) [? Hc]. split; [done|]. split; [done|]. split; [done|]. apply Hc. Qed.

Lemma removed_free ex rs rp start end_ :
  ext_wf ex → removed ex rs start end_ →
  free_post ex start end_ (extent_free_region_descriptor (set_regions ex rs) rp).
Proof.
  intros Hwf Hrm. destruct (removed_set _ _ _ _ Hwf Hrm) as (Hwf' & Hs & Hw & Ha).
  destruct (free_descriptor_spec (set_regions ex rs) rp) as [Hr' Hs'].
  split; [by apply free_descriptor_wf|]. split; [by etransitivity|].
  split; [by rewrite free_descriptor_flags|]. intros a. unfold allocated at 1. rewrite Hr'. apply Ha.
Qed.

Lemma free_post_trans ex ex1 ex2 start end_ :
  same_extent ex ex1 → has (ex_flags ex1) EXF_WANTED = has (ex_flags ex) EXF_WANTED →
  (∀ a, ¬ (start ≤ a ≤ end_) → allocated ex1 a ↔ allocated ex a) →
  free_post ex1 start end_ ex2 → free_post ex start end_ ex2.
Proof.
  intros Hs Hw Ha (? & ? & Hw' & Ha'). split; [done|]. split; [by etransitivity|].
  split; [congruence|]. intros a. rewrite Ha'. specialize (Ha a). tauto.
Qed.

(** Around the region [r], the other addresses lie outside of it. *)
Lemma covered_around g lo l1 r l2 hi a :
  0 ≤ g → regions_ok g lo (l1 ++ r :: l2) hi →
  (covered l1 a → a < er_start r) ∧ (covered l2 a → er_end r < a).
Proof.
  intros Hg Hok. destruct (regions_ok_sorted _ _ _ _ _ _ Hg Hok) as [H1 H2].
  split; [by apply covered_before|by apply covered_after].
Qed.

(** Prove [removed] where the region [r] between [l1] and [l2] is changed, [Hok]
    being the old [regions_ok]. *)
Ltac solve_removed Hok :=
  let a := fresh "a" in
  split;
  [rewrite regions_ok_app in Hok; rewrite regions_ok_app; cbn in Hok; cbn;
   destruct Hok as (? & ? & ? & ? & ?);
   (split; [done|]); repeat (split; [lia|]); first [done|eapply regions_ok_mono; [|done]; lia]
  |intros a; destruct (covered_around _ _ _ _ _ _ a ltac:(apply gap_range) Hok);
   unfold allocated; autorewrite with covered; unfold covers; cbn; intuition lia].

(** Cases 1 to 4 of [extent_free]: the range lies within the region [r]. *)
Lemma free_contained ex l1 r l2 start end_ flags fl :
  ext_wf ex → gap ex = 1 → ex_regions ex = l1 ++ r :: l2 →
  er_start r ≤ start → start ≤ end_ → end_ ≤ er_end r →
  ∃ ex' nrp, free_scan (r :: l2) (length l1) ex start end_ flags (Some fl) = Ret (ex', nrp, true) ∧
    free_post ex start end_ ex'.
Proof.
  intros Hwf Hg Hsplit Hs Hse He. pose proof Hwf as (Hws & Hwe & Hok). unfold is_u64 in Hws, Hwe.
  pose proof (regions_ok_bounds _ _ _ _ (proj1 (gap_range ex)) Hok) as Hb.
  rewrite Hsplit in Hok, Hb. apply Forall_app in Hb as [_ [Hr _]%Forall_cons].
  assert (has (ex_flags ex) EXF_NOCOALESCE = false) as Hnc.
  { by apply gap_coalesce. }
  cbn [free_scan]. rewrite Hnc, Hsplit, !insert_middle, delete_middle.
  destruct (Z.ltb_spec (er_end r) start), (Z.ltb_spec end_ (er_start r)); try lia.
  destruct (Z.eqb_spec start (er_start r)), (Z.eqb_spec end_ (er_end r)); cbn [andb].
  - eexists _, _. split; [done|]. apply removed_free; [done|].
    unfold removed, allocated. rewrite Hsplit. solve_removed Hok.
  - destruct (Z.ltb_spec end_ (er_end r)); [|lia]. cbn [andb].
    eexists _, _. split; [done|]. apply removed_set; [done|].
    rewrite u64_small by (unfold is_u64; lia).
    unfold removed, allocated. rewrite Hsplit. solve_removed Hok.
  - destruct (Z.ltb_spec (er_start r) start); [|lia]. cbn [andb].
    eexists _, _. split; [done|]. apply removed_set; [done|].
    rewrite u64_small by (unfold is_u64; lia).
    unfold removed, allocated. rewrite Hsplit. solve_removed Hok.
  - destruct (Z.ltb_spec (er_start r) start), (Z.ltb_spec end_ (er_end r)); try lia. cbn [andb deref].
    rewrite bind_Ret_l. eexists _, _. split; [done|]. cbn [ex_regions set_regions].
    rewrite LIST_INSERT_AFTER_middle, !u64_small by (unfold is_u64; lia).
    apply (removed_set ex _ start end_); [done|].
    unfold removed, allocated. rewrite Hsplit. solve_removed Hok.
Qed.

(** Regions that end before the range are passed over. *)
Lemma free_skip m rs i ex start end_ flags nrp :
  Forall (λ r, er_end r < start) m →
  free_scan (m ++ rs) i ex start end_ flags nrp =
  free_scan rs (i + length m)%nat ex start end_ flags nrp.
Proof.
  intros Hm. revert i. induction Hm as [|r m Hr _ IH]; intros i; cbn [app length free_scan].
  { f_equal. lia. }
  destruct (Z.ltb_spec (er_end r) start); [|lia]. rewrite IH. f_equal. lia.
Qed.

(** Without EX_CONFLICTOK nothing is done unless a region contains the range. *)
Lemma free_miss rs i ex start end_ flags nrp :
  has (ex_flags ex) EXF_NOCOALESCE = false → has flags EX_CONFLICTOK = false →
  Forall (λ r, ¬ (er_start r ≤ start ∧ end_ ≤ er_end r)) rs →
  free_scan rs i ex start end_ flags nrp = Ret (ex, nrp, false).
Proof.
  intros Hnc Hco Hrs. revert i. induction Hrs as [|r rs Hr _ IH]; intros i; cbn [free_scan]; [done|].
  rewrite Hnc, Hco, IH. cbn [negb].
  destruct (Z.ltb_spec (er_end r) start); [done|].
  destruct (Z.ltb_spec end_ (er_start r)); [done|].
  destruct (Z.eqb_spec start (er_start r)), (Z.eqb_spec end_ (er_end r)),
    (Z.ltb_spec end_ (er_end r)), (Z.ltb_spec (er_start r) start); cbn [andb]; done || lia.
Qed.

(** In a merged extent, a range whose addresses are all allocated lies within
    one region. *)
Lemma covered_contained lo rs hi start end_ :
  regions_ok 1 lo rs hi → start ≤ end_ → (∀ a, start ≤ a ≤ end_ → covered rs a) →
  ∃ l1 r l2, rs = l1 ++ r :: l2 ∧ Forall (λ q, er_end q < start) l1 ∧
    er_start r ≤ start ∧ end_ ≤ er_end r.
Proof.
  intros Hok Hse Hc. pose proof (Hc start ltac:(lia)) as Hr. apply Exists_exists in Hr as (r & Hin & Hr).
  apply list_elem_of_split in Hin as (l1 & l2 & ->). unfold covers in Hr.
  destruct (regions_ok_sorted 1 _ _ _ _ _ ltac:(lia) Hok) as [H1 _].
  exists l1, r, l2. split_and!; [done| |lia|].
  - eapply Forall_impl; [exact H1|]. cbn. lia.
  - apply Z.nlt_ge. intros Hlt. pose proof (Hc (er_end r + 1) ltac:(lia)) as Hn.
    destruct (covered_around 1 _ _ _ _ _ (er_end r + 1) ltac:(lia) Hok) as [Hb _].
    apply regions_ok_app in Hok as [_ (_ & _ & _ & Hok2)].
    rewrite covered_app, covered_cons in Hn. destruct Hn as [Hn|[Hn|Hn]].
    + specialize (Hb Hn). lia.
    + unfold covers in Hn. lia.
    + pose proof (regions_ok_bounds 1 _ _ _ ltac:(lia) Hok2) as Hbd.
      apply (covered_after _ (er_end r + 1)) in Hn; [lia|].
      eapply Forall_impl; [exact Hbd|]. cbn. lia.
Qed.

(** With EX_CONFLICTOK whatever is allocated of the range is given back, [pre]
    having been dealt with. *)
Definition scan_frees (rs : list extent_region) (start end_ flags : Z) : Prop :=
  ∀ pre ex fl,
    ext_wf ex → gap ex = 1 → ex_regions ex = pre ++ rs → ex_start ex ≤ start → end_ ≤ ex_end ex →
    (∀ a, covered pre a → a < start ∨ end_ < a) →
    ∃ ex' nrp fin, free_scan rs (length pre) ex start end_ flags (Some fl) = Ret (ex', nrp, fin) ∧
      free_post ex start end_ ex'.

Section FreeConflictok.
Context (r : extent_region) (rs : list extent_region) (start end_ flags fl : Z).
Context (IH : scan_frees rs start end_ flags) (Hse : start ≤ end_).
Context (pre : list extent_region) (ex : extent) (Hwf : ext_wf ex) (Hg : gap ex = 1).
Context (Hsplit : ex_regions ex = pre ++ r :: rs) (Hs : ex_start ex ≤ start) (He : end_ ≤ ex_end ex).
Context (Hpre : ∀ a, covered pre a → a < start ∨ end_ < a).

(** The part [r'] of the region is kept. *)
Lemma free_keep r' :
  er_start r ≤ er_start r' → er_start r' ≤ er_end r' → er_end r' ≤ er_end r →
  (∀ a, ¬ (start ≤ a ≤ end_) → covers r' a ↔ covers r a) → (er_end r' < start ∨ end_ < er_start r') →
  ∃ ex' nrp fin, free_scan rs (S (length pre)) (set_regions ex (pre ++ r' :: rs)) start end_ flags
      (Some fl) = Ret (ex', nrp, fin) ∧ free_post ex start end_ ex'.
Proof using All.
  intros H1 H2 H3 Hcov Hout. pose proof Hwf as (Hws & Hwe & Hok). rewrite Hsplit in Hok.
  destruct (IH (pre ++ [r']) (set_regions ex (pre ++ r' :: rs)) fl) as (ex' & nrp & fin & Heq & Hpost);
    try done.
  - split; [done|]. split; [done|]. exact (regions_ok_shrink _ _ _ _ _ _ _ H1 H2 H3 Hok).
  - cbn. by rewrite <-app_assoc.
  - intros a. rewrite covered_app, covered_cons, covered_nil. unfold covers.
    intros [?|[?|?]]; auto; lia.
  - rewrite length_app, Nat.add_1_r in Heq. eexists _, _, _. split; [exact Heq|].
    eapply free_post_trans; [..|exact Hpost]; [done|done|].
    intros a Ha. specialize (Hcov a Ha). unfold allocated. cbn. rewrite Hsplit.
    autorewrite with covered. tauto.
Qed.

(** The region lies within the range. *)
Lemma free_gone :
  start ≤ er_start r → er_end r ≤ end_ →
  ∃ ex' nrp fin, free_scan rs (length pre)
      (extent_free_region_descriptor (set_regions ex (pre ++ rs)) (er_flags r)) start end_ flags
      (Some fl) = Ret (ex', nrp, fin) ∧ free_post ex start end_ ex'.
Proof using All.
  intros H1 H2. pose proof Hwf as (Hws & Hwe & Hok). rewrite Hsplit in Hok.
  destruct (free_descriptor_spec (set_regions ex (pre ++ rs)) (er_flags r)) as [Hr' Hs'].
  pose proof Hs' as (Hs1 & Hs2 & Hs3).
  destruct (IH pre (extent_free_region_descriptor (set_regions ex (pre ++ rs)) (er_flags r)) fl)
    as (ex' & nrp & fin & Heq & Hpost);
    [|by rewrite Hs3|done|by rewrite Hs1|by rewrite Hs2|done|].
  - apply free_descriptor_wf. split; [done|]. split; [done|].
    exact (regions_ok_remove _ _ _ _ _ _ (proj1 (gap_range ex)) Hok).
  - eexists _, _, _. split; [exact Heq|].
    eapply free_post_trans; [exact Hs'|by rewrite free_descriptor_flags| |exact Hpost].
    intros a Ha. unfold allocated. rewrite Hr', Hsplit. cbn.
    autorewrite with covered. unfold covers. intuition lia.
Qed.

(** One turn of the loop on a region that does not contain the range. *)
Lemma free_turn :
  has flags EX_CONFLICTOK = true → ¬ (er_start r ≤ start ∧ end_ ≤ er_end r) →
  ∃ ex' nrp fin, free_scan (r :: rs) (length pre) ex start end_ flags (Some fl) = Ret (ex', nrp, fin) ∧
    free_post ex start end_ ex'.
Proof using All.
  intros Hco Hnc. pose proof Hwf as (Hws & Hwe & Hok). unfold is_u64 in Hws, Hwe.
  pose proof (regions_ok_bounds _ _ _ _ (proj1 (gap_range ex)) Hok) as Hb.
  rewrite Hsplit in Hok, Hb. apply Forall_app in Hb as [_ [Hr _]%Forall_cons].
  cbn [free_scan]. rewrite (proj1 (gap_coalesce ex) Hg), Hco, Hsplit, delete_middle. cbn [negb].
  destruct (Z.ltb_spec (er_end r) start).
  { destruct (free_keep r) as (ex' & nrp & fin & Heq & Hpost); try done || lia.
    eexists _, _, _. split; [|exact Hpost]. rewrite <-Heq. f_equal. rewrite <-Hsplit. by destruct ex. }
  destruct (Z.ltb_spec end_ (er_start r)).
  { eexists _, _, _. split; [done|]. split; [done|]. split; [done|]. split; [done|]. intros a.
    destruct (covered_around _ _ _ _ _ _ a (proj1 (gap_range ex)) Hok) as [_ Ha2].
    unfold allocated. rewrite Hsplit. autorewrite with covered. unfold covers.
    specialize (Hpre a). intuition lia. }
  destruct (Z.eqb_spec start (er_start r)), (Z.eqb_spec end_ (er_end r)),
    (Z.ltb_spec end_ (er_end r)), (Z.ltb_spec (er_start r) start),
    (Z.leb_spec start (er_start r)), (Z.leb_spec (er_end r) end_); try lia; cbn [andb].
  1, 2, 5: by apply free_gone.
  - destruct (Z.leb_spec (er_start r) end_); [|lia]. cbn [er_end set_start].
    destruct (Z.leb_spec (er_end r) end_); [lia|]. rewrite andb_false_r, insert_middle.
    rewrite u64_small by (unfold is_u64; lia). apply free_keep; unfold covers; cbn; lia.
  - destruct (Z.leb_spec start (er_end r)), (Z.leb_spec (er_end r) end_); try lia. cbn [andb].
    rewrite insert_middle, u64_small by (unfold is_u64; lia). apply free_keep; unfold covers; cbn; lia.
Qed.
End FreeConflictok.

Lemma free_conflictok rs start end_ flags :
  has flags EX_CONFLICTOK = true → start ≤ end_ → scan_frees rs start end_ flags.
Proof.
  intros Hco Hse. induction rs as [|r rs IH]; intros pre ex fl Hwf Hg Hsplit Hs He Hpre.
  { eexists _, _, _. split; [done|]. split; [done|]. split; [done|]. split; [done|].
    intros a. unfold allocated. rewrite Hsplit, app_nil_r. specialize (Hpre a). intuition lia. }
  destruct (decide (er_start r ≤ start ∧ end_ ≤ er_end r)) as [[Hr1 Hr2]|Hnc].
  - destruct (free_contained ex pre r rs start end_ flags fl) as (ex' & nrp & Heq & Hpost); try done.
    eexists _, _, _. split; [exact Heq|done].
  - by eapply free_turn.
Qed.

(** *** extent_free *)

(** What [extent_free] promises: the range and nothing else is given back, and
    whoever sleeps for space is woken. *)
Definition freed (ex : extent) (start end_ : Z) (ex' : extent) : Prop :=
  ext_wf ex' ∧ same_extent ex ex' ∧
  (∀ a, allocated ex' a ↔ allocated ex a ∧ ¬ (start ≤ a ≤ end_)) ∧
  has (ex_flags ex') EXF_WANTED = false ∧
  (has (ex_flags ex) EXF_WANTED = true → head (ex_wakeups ex') = Some ChanExtent).

Lemma free_return_spec ex ex1 nrp start end_ :
  free_post ex start end_ ex1 → freed ex start end_ (free_return ex1 nrp).
Proof.
  intros (Hwf & Hs & Hw & Ha). unfold free_return.
  assert (∃ ex2, match nrp with Some rp => extent_free_region_descriptor ex1 rp | None => ex1 end = ex2 ∧
    ext_wf ex2 ∧ same_extent ex1 ex2 ∧ ex_regions ex2 = ex_regions ex1 ∧
    has (ex_flags ex2) EXF_WANTED = has (ex_flags ex1) EXF_WANTED) as (ex2 & -> & Hwf2 & Hs2 & Hr2 & Hw2).
  { eexists. split; [done|]. destruct nrp as [rp|]; [|done].
    split; [by apply free_descriptor_wf|]. destruct (free_descriptor_spec ex1 rp).
    split_and!; try done. by rewrite free_descriptor_flags. }
  unfold freed, allocated in *. rewrite <-Hw, <-Hw2. destruct (has (ex_flags ex2) EXF_WANTED) eqn:E.
  - assert (same_extent ex2 (wakeup (set_flags ex2 (Z.land (ex_flags ex2) (Z.lnot EXF_WANTED))) ChanExtent))
      as Hs3.
    { unfold same_extent, gap. cbn. by rewrite (has_clear _ EXF_NOCOALESCE). }
    split; [|split; [do 2 (etransitivity; [done|]); done|]].
    + unfold ext_wf in *. destruct Hs3 as (-> & -> & ->). done.
    + cbn. rewrite Hr2. split_and!; [done| |done]. apply has_cleared.
  - rewrite Hr2. split_and!; try done. by etransitivity.
Qed.

Lemma freed_from ex0 ex start end_ ex' :
  ex_regions ex = ex_regions ex0 → same_extent ex0 ex →
  has (ex_flags ex) EXF_WANTED = has (ex_flags ex0) EXF_WANTED →
  freed ex start end_ ex' → freed ex0 start end_ ex'.
Proof.
  unfold freed, allocated. intros Hr Hs Hw (? & ? & ? & ? & ?). rewrite <-Hr, <-Hw.
  split_and!; try done. by etransitivity.
Qed.

(** The loop, on the whole list. *)
Lemma free_scan_all ex start end_ flags fl :
  ext_wf ex → gap ex = 1 → ex_start ex ≤ start → start ≤ end_ → end_ ≤ ex_end ex →
  ((∀ a, start ≤ a ≤ end_ → allocated ex a) ∨ has flags EX_CONFLICTOK = true) ∧
    (∃ ex' nrp fin, free_scan (ex_regions ex) 0 ex start end_ flags (Some fl) = Ret (ex', nrp, fin) ∧
      fin || has flags EX_CONFLICTOK = true ∧ free_post ex start end_ ex') ∨
  (¬ (∀ a, start ≤ a ≤ end_ → allocated ex a)) ∧ has flags EX_CONFLICTOK = false ∧
    free_scan (ex_regions ex) 0 ex start end_ flags (Some fl) = Ret (ex, Some fl, false).
Proof.
  intros Hwf Hg Hs Hse He. pose proof Hwf as (_ & _ & Hok). rewrite Hg in Hok.
  destruct (decide (Exists (λ r, er_start r ≤ start ∧ end_ ≤ er_end r) (ex_regions ex))) as [Hex|Hno].
  - assert (∀ a, start ≤ a ≤ end_ → allocated ex a) as Hall.
    { intros a Ha. apply (Exists_impl _ _ _ Hex). unfold covers. intros. lia. }
    left. split; [by left|]. destruct (covered_contained _ _ _ _ _ Hok Hse Hall)
      as (l1 & r & l2 & Hsplit & Hl1 & Hr1 & Hr2).
    destruct (free_contained ex l1 r l2 start end_ flags fl) as (ex' & nrp & Heq & Hpost); try done.
    exists ex', nrp, true. rewrite Hsplit, free_skip by done. split_and!; done.
  - assert (¬ (∀ a, start ≤ a ≤ end_ → allocated ex a)) as Hnall.
    { intros Hall. destruct (covered_contained _ _ _ _ _ Hok Hse Hall)
        as (l1 & r & l2 & Hsplit & _ & Hr1 & Hr2).
      apply Hno. rewrite Hsplit. apply Exists_app. right. by apply Exists_cons_hd. }
    destruct (has flags EX_CONFLICTOK) eqn:Hco.
    + left. split; [by right|].
      destruct (free_conflictok (ex_regions ex) start end_ flags Hco Hse [] ex fl)
        as (ex' & nrp & fin & Heq & Hpost); try done.
      { intros a []%covered_nil. }
      exists ex', nrp, fin. rewrite orb_true_r. by split_and!.
    + right. split_and!; try done. apply free_miss; [by apply gap_coalesce|done|].
      by apply Forall_Exists_neg.
Qed.

Lemma extent_free_any pool ex start size flags :
  ext_wf ex → has (ex_flags ex) EXF_NOCOALESCE = false →
  1 ≤ size → ex_start ex ≤ start → start + size - 1 ≤ ex_end ex →
  match (extent_alloc_region_descriptor pool ex flags).2 with
  | Descr _ =>
      ((∀ a, start ≤ a ≤ start + size - 1 → allocated ex a) ∨ has flags EX_CONFLICTOK = true) ∧
        (∃ ex', extent_free pool ex start size flags = Ret (ex', Errno 0) ∧
          freed ex start (start + size - 1) ex') ∨
      (¬ (∀ a, start ≤ a ≤ start + size - 1 → allocated ex a)) ∧
        has flags EX_CONFLICTOK = false ∧
        extent_free pool ex start size flags = Fault (Panic "extent_free")
  | NoDescr => ∃ ex', extent_free pool ex start size flags = Ret (ex', Errno ENOMEM) ∧
      ext_wf ex' ∧ same_extent ex ex' ∧ ex_regions ex' = ex_regions ex
  | DescrSleeps => ∃ ex', extent_free pool ex start size flags = Ret (ex', SleepFreelist) ∧
      ext_wf ex' ∧ same_extent ex ex' ∧ ex_regions ex' = ex_regions ex
  end.
Proof.
  intros Hwf Hnc Hsize Hs He. pose proof Hwf as ([??] & [??] & _). unfold extent_free, kassert.
  assert (u64 (start + u64 (size - 1)) = start + size - 1) as -> by wrap_lia.
  destruct (Z.ltb_spec start (ex_start ex)), (Z.ltb_spec (ex_end ex) (start + size - 1)),
    (Z.ltb_spec (start + size - 1) start); try lia. cbn [orb negb]. rewrite !bind_Ret_l, Hnc.
  destruct (extent_alloc_region_descriptor pool ex flags) as [ex1 d] eqn:Hd.
  destruct (alloc_descriptor_spec _ _ _ _ _ Hd) as (Hr & Hse & Hw).
  pose proof (alloc_descriptor_wf _ _ _ _ _ Hd Hwf) as Hwf1. pose proof Hse as (Hs1 & He1 & Hg1).
  destruct d as [rp| |]; cbn [snd]; [|by eexists; split_and!..].
  destruct (free_scan_all ex1 start (start + size - 1) flags rp)
    as [[Hok (ex' & nrp & fin & -> & Hfin & Hpost)]|(Hall & Hco & ->)];
    try (done || lia); [by rewrite Hg1; apply gap_coalesce| |].
  - left. unfold allocated in *. rewrite Hr in Hok. split; [done|].
    rewrite bind_Ret_l, Hfin. rewrite bind_Ret_l. eexists. split; [done|].
    eapply freed_from; [done..|]. by apply free_return_spec.
  - right. unfold allocated in *. rewrite Hr in Hall. split; [done|]. split; [done|].
    rewrite bind_Ret_l, Hco. done.
Qed.

(** C4: [extent_free] on any range of a well-formed extent that merges regions:
    if every address of the range is allocated (or EX_CONFLICTOK is given) it
    returns 0, exactly the range is given back, splitting, trimming or removing
    regions, and a thread asleep for space is woken; otherwise it panics.
    Without a descriptor it returns ENOMEM or sleeps, nothing being freed. *)
Theorem extent_free_spec pool ex start size flags :
  ext_wf ex → has (ex_flags ex) EXF_NOCOALESCE = false →
  1 ≤ size → ex_start ex ≤ start → start + size - 1 ≤ ex_end ex →
  match (extent_alloc_region_descriptor pool ex flags).2 with
  | Descr _ =>
      ((∀ a, start ≤ a ≤ start + size - 1 → allocated ex a) ∨ has flags EX_CONFLICTOK = true) ∧
        (∃ ex', extent_free pool ex start size flags = Ret (ex', Errno 0) ∧
          freed ex start (start + size - 1) ex') ∨
      (¬ (∀ a, start ≤ a ≤ start + size - 1 → allocated ex a)) ∧
        has flags EX_CONFLICTOK = false ∧
        extent_free pool ex start size flags = Fault (Panic "extent_free")
  | NoDescr => ∃ ex', extent_free pool ex start size flags = Ret (ex', Errno ENOMEM) ∧
      ext_wf ex' ∧ same_extent ex ex' ∧ ex_regions ex' = ex_regions ex
  | DescrSleeps => ∃ ex', extent_free pool ex start size flags = Ret (ex', SleepFreelist) ∧
      ext_wf ex' ∧ same_extent ex ex' ∧ ex_regions ex' = ex_regions ex
  end.
Proof. apply extent_free_any. Qed.

Lemma extent_free_spec_witness :
  ext_wf ex0 ∧ has (ex_flags ex0) EXF_NOCOALESCE = false ∧
  (((∀ a, 0x14 ≤ a ≤ 0x14 + 4 - 1 → allocated ex0 a) ∨ has EX_NOWAIT EX_CONFLICTOK = true) ∧
     (∃ ex', extent_free true ex0 0x14 4 EX_NOWAIT = Ret (ex', Errno 0) ∧
       freed ex0 0x14 (0x14 + 4 - 1) ex') ∨
   (¬ (∀ a, 0x14 ≤ a ≤ 0x14 + 4 - 1 → allocated ex0 a)) ∧
     has EX_NOWAIT EX_CONFLICTOK = false ∧
     extent_free true ex0 0x14 4 EX_NOWAIT = Fault (Panic "extent_free")).
Proof.
  split; [exact ex0_wf|]. split; [reflexivity|].
  apply (extent_free_spec true ex0 0x14 4 EX_NOWAIT ex0_wf); cbn; lia || reflexivity.
Defined.

(** ** The clients of an extent *)

(** What a driver asks of an extent: any place in a subregion, or a given
    region; the descriptor may or may not be had without sleeping. *)
Inductive extent_request : Type :=
| AnyPlace (pool : bool) (substart subend size k skew boundary flags : Z)
| GivenPlace (pool : bool) (start size flags : Z).

Definition extent_serve (ex : extent) (r : extent_request) : outcome (extent * option range) :=
  match r with
  | AnyPlace pool substart subend size k skew boundary flags =>
      '(ex, res, a) ← extent_alloc_subregion pool ex substart subend size (2 ^ k) skew boundary flags;
      Ret (ex, match res, a with Errno 0, Some x => Some (x, size) | _, _ => None end)
  | GivenPlace pool start size flags =>
      '(ex, res) ← extent_alloc_region pool ex start size flags;
      Ret (ex, match res with Errno 0 => Some (start, size) | _ => None end)
  end.

Definition extent_give_back (pool : bool) (flags : Z) (ex : extent) (g : range) :
    outcome (extent * bool) :=
  '(ex, res) ← extent_free pool ex g.1 g.2 flags;
  Ret (ex, match res with Errno 0 => true | _ => false end).

Lemma allocated_within ex a : ext_wf ex → allocated ex a → ex_start ex ≤ a ≤ ex_end ex.
Proof.
  intros (_ & _ & Hok) Ha. pose proof (regions_ok_bounds _ _ _ _ (proj1 (gap_range ex)) Hok) as Hb.
  revert Ha. apply (covered_bounds (λ a, ex_start ex ≤ a ≤ ex_end ex)).
  eapply Forall_impl; [exact Hb|]. unfold covers. intros ? ? ? ?. lia.
Qed.

Section ExtentClient.
(** The bounds the extent was created with, and how it is freed into. *)
Context (ex0 : extent) (pool : bool) (fflags : Z).

Definition extent_inv (ex : extent) : Prop :=
  ext_wf ex ∧ same_extent ex0 ex ∧ gap ex = 1.

Definition extent_request_ok (r : extent_request) : Prop :=
  match r with
  | AnyPlace _ substart subend size k skew boundary flags =>
      request_ok ex0 substart subend size k skew boundary
  | GivenPlace _ start size flags =>
      1 ≤ size ∧ ex_start ex0 ≤ start ∧ start + size - 1 ≤ ex_end ex0 ∧
      has flags EX_CONFLICTOK = false
  end.

Lemma extent_inv_same ex ex' : extent_inv ex → ext_wf ex' → same_extent ex ex' → extent_inv ex'.
Proof using Type.
  intros (_ & Hs0 & Hg) Hwf' Hs. split; [done|]. split; [by etransitivity|].
  by destruct Hs as (_ & _ & ->).
Qed.

Lemma attempt_inv flags d ex ex' res (success nospace : Prop) :
  extent_inv ex → attempt flags d ex ex' res success nospace →
  extent_inv ex' ∧ ((res = Errno 0 ∧ success) ∨
    (match res with Errno 0 => False | _ => True end ∧ ∀ a, allocated ex' a ↔ allocated ex a)).
Proof using Type.
  intros Hinv (Hwf' & Hs & Hres). split; [by eapply extent_inv_same|].
  unfold allocated. destruct d; [|right; destruct Hres as [-> ->]; done..].
  destruct Hres as [?|(_ & -> & Hf)]; [by left|right].
  destruct (has flags EX_WAITSPACE); [destruct Hf as [-> _]|subst res]; done.
Qed.

#[export] Instance extent_range_allocator :
  RangeAllocator extent_serve (extent_give_back pool fflags) extent_inv extent_request_ok allocated.
Proof using Type.
  split.
  - intros ex r Hinv Hok. pose proof Hinv as (Hwf & Hs0 & Hg). pose proof Hs0 as (Hs & He & _).
    destruct r as [p substart subend size k skew boundary flags|p start size flags];
      cbn [extent_serve extent_request_ok] in *.
    + pose proof (request_ok_same _ _ _ _ _ _ _ _ Hs0 Hok) as Hrq.
      destruct (extent_alloc_subregion_any p ex substart subend size k skew boundary flags Hwf Hrq)
        as (ex' & res & a & -> & Hatt).
      destruct (attempt_inv _ _ _ _ _ _ _ Hinv Hatt) as [Hinv' [[-> (x & -> & ?)]|[Hres Ha]]];
        rewrite bind_Ret_l; eexists _, _; (split; [done|]); (split; [done|]); cbn.
      * destruct Hrq as [_ ? _ _ _ _]. unfold in_range, free_range in *. naive_solver lia.
      * destruct res as [[| |]| |]; done.
    + destruct Hok as (Hsize & Hst & Hend & Hco).
      destruct (extent_alloc_region_any p ex start size flags Hwf Hsize)
        as (ex' & res & -> & Hatt); [lia|lia|done|].
      destruct (attempt_inv _ _ _ _ _ _ _ Hinv Hatt) as [Hinv' [[-> ?]|[Hres Ha]]];
        rewrite bind_Ret_l; eexists _, _; (split; [done|]); (split; [done|]); cbn.
      * unfold in_range, free_range in *. naive_solver lia.
      * destruct res as [[| |]| |]; done.
  - intros ex [x n] Hinv Hn Hown. pose proof Hinv as (Hwf & Hs0 & Hg). cbn in Hn.
    unfold in_range in *. cbn in Hown. unfold extent_give_back. cbn.
    destruct (allocated_within ex x Hwf (Hown x ltac:(lia))) as [Hx _].
    destruct (allocated_within ex (x + n - 1) Hwf (Hown (x + n - 1) ltac:(lia))) as [_ Hxe].
    pose proof (extent_free_any pool ex x n fflags Hwf (proj1 (gap_coalesce ex) Hg) Hn Hx Hxe) as Hfree.
    destruct (extent_alloc_region_descriptor pool ex fflags).2 as [rp| |].
    + destruct Hfree as [[_ (ex' & -> & Hwf' & Hs & Ha & _)]|[[] _]]; [|intros; apply Hown; lia].
      rewrite bind_Ret_l. eexists _, _. split; [done|]. split; [by eapply extent_inv_same|].
      intros a. rewrite Ha. intuition lia.
    + destruct Hfree as (ex' & -> & Hwf' & Hs & Hr). rewrite bind_Ret_l.
      eexists _, _. split; [done|]. unfold allocated. cbn. rewrite Hr.
      split; [by eapply extent_inv_same|done].
    + destruct Hfree as (ex' & -> & Hwf' & Hs & Hr). rewrite bind_Ret_l.
      eexists _, _. split; [done|]. unfold allocated. cbn. rewrite Hr.
      split; [by eapply extent_inv_same|done].
Qed.
End ExtentClient.

(** C5: A driver that only gives back ranges it was given can never make an
    extent panic, whatever it asks for (sound requests without EX_CONFLICTOK) and
    whether or not descriptors can be had: through any sequence of allocations
    and frees on a merging extent with nothing allocated, the ranges it holds
    are non-empty, never overlap, and are exactly what the extent records as
    allocated. *)
Theorem extent_client_safe (ex : extent) (pool : bool) (fflags : Z)
    (ops : list (client_op extent_request)) :
  ext_wf ex → has (ex_flags ex) EXF_NOCOALESCE = false → ex_regions ex = [] →
  Forall (op_ok (extent_request_ok ex)) ops →
  ∃ ex' held, client_run extent_serve (extent_give_back pool fflags) (ex, []) ops = Ret (ex', held) ∧
    ext_wf ex' ∧ apart held ∧ ∀ a, allocated ex' a ↔ Exists (λ g, in_range g a) held.
Proof.
  intros Hwf Hnc Hr Hops.
  destruct (range_client extent_serve (extent_give_back pool fflags) (extent_inv ex)
    (extent_request_ok ex) allocated ex ops) as (ex' & held & Hrun & [Hwf' _] & ?); [| |done|by eexists _, _].
  - split; [done|]. split; [done|]. by apply gap_coalesce.
  - intros a. unfold allocated. rewrite Hr. by intros ?%covered_nil.
Qed.

Definition ex_empty : extent := Extent "ports" [] 0 0xffff 0 0 [] [].

Lemma extent_client_safe_witness :
  let ops := [Ask (GivenPlace true 0x60 4 0); Ask (AnyPlace true 0x40 0xff 0x20 4 0 0 EX_FAST);
              GiveBack 1%nat; Ask (AnyPlace true 0x40 0xff 0x10 4 0 0x20 0)] in
  ext_wf ex_empty ∧ Forall (op_ok (extent_request_ok ex_empty)) ops ∧
  ∃ ex' held, client_run extent_serve (extent_give_back true 0) (ex_empty, []) ops = Ret (ex', held) ∧
    ext_wf ex' ∧ apart held ∧ ∀ a, allocated ex' a ↔ Exists (λ g, in_range g a) held.
Proof.
  cbv zeta.
  assert (ext_wf ex_empty) as Hwf by (unfold ext_wf, is_u64; cbn; lia).
  assert (Forall (op_ok (extent_request_ok ex_empty))
    [Ask (GivenPlace true 0x60 4 0); Ask (AnyPlace true 0x40 0xff 0x20 4 0 0 EX_FAST);
     GiveBack 1%nat; Ask (AnyPlace true 0x40 0xff 0x10 4 0 0x20 0)]) as Hops.
  { repeat (apply Forall_cons; split); try apply Forall_nil; try done;
      cbn [op_ok extent_request_ok]; split; unfold is_u64; cbn; try lia.
    right. exists 5. cbn. lia. }
  split; [exact Hwf|]. split; [exact Hops|].
  apply (extent_client_safe ex_empty true 0); done.
Defined.

(** ** Where the code departs from its documentation *)

(** The scan over regions that end before [start]: it stops at the first in
    conflict, or goes on behind them. *)
Lemma conflict_scan_hits l1 r rs i last start end_ :
  Forall (λ q, er_end q < start ∧ er_start q ≤ end_) l1 → er_start r ≤ end_ → start ≤ er_end r →
  conflict_scan (l1 ++ r :: rs) i last start end_ = inr ((i + length l1)%nat, r).
Proof.
  intros Hl1 Hs He. revert i last. induction Hl1 as [|q l1 [Hq1 Hq2] _ IH]; intros i last; cbn.
  - rewrite (proj2 (Z.ltb_ge _ _) Hs), (proj2 (Z.leb_le _ _) He). do 2 f_equal. lia.
  - rewrite (proj2 (Z.ltb_ge _ _) Hq2), (proj2 (Z.leb_gt _ _) Hq1), IH. do 2 f_equal. lia.
Qed.

Lemma conflict_scan_passes l1 r rs i last start end_ :
  Forall (λ q, er_end q < start ∧ er_start q ≤ end_) (l1 ++ [r]) →
  Forall (λ q, end_ < er_start q) rs →
  conflict_scan (l1 ++ r :: rs) i last start end_ = inl (Some (i + length l1)%nat).
Proof.
  intros Hl1 Hrs. revert i last. induction l1 as [|q l1 IH]; intros i last; cbn in *;
    apply Forall_cons in Hl1 as [[Hq1 Hq2] Hl1];
    rewrite (proj2 (Z.ltb_ge _ _) Hq2), (proj2 (Z.leb_gt _ _) Hq1).
  - destruct Hrs as [|q rs Hq _]; cbn; [do 2 f_equal; lia|].
    rewrite (proj2 (Z.ltb_lt _ _) Hq). do 2 f_equal. lia.
  - rewrite (IH Hl1). do 2 f_equal. lia.
Qed.

(** A range that begins behind the region [a], merged with it alone. *)
Lemma insert_appends ex l1 a l2 size rp :
  has (ex_flags ex) EXF_NOCOALESCE = false → ex_regions ex = l1 ++ a :: l2 → is_u64 (er_end a + 1) →
  Forall (λ q, u64 (er_end a + 1 + size) ≠ er_start q) l2 →
  extent_insert_and_optimize ex (er_end a + 1) size (Some (length l1)) rp =
  Ret (extent_free_region_descriptor
         (set_regions ex (l1 ++ set_end a (u64 (er_end a + 1 + u64 (size - 1))) :: l2)) rp).
Proof.
  intros Hnc Hrs Hu Hl2. unfold extent_insert_and_optimize.
  rewrite Hrs, (list_lookup_middle l1 l2 _ _ eq_refl), Hnc. cbn [deref mbind outcome_bind negb].
  rewrite (u64_small (er_end a + 1)), Z.eqb_refl by done. rewrite insert_middle, lookup_next.
  destruct Hl2 as [|q l2 Hq _]; [done|]. cbn [head]. by rewrite (proj2 (Z.eqb_neq _ _) Hq).
Qed.

(** C40: With EX_CONFLICTOK a request that lies within an allocated region and ends
    before it is not left alone, as the comment on case 4 says it is: [start] moves
    past the end of the request, [size] wraps around, and merging with the region cuts
    it back.  On any well-formed merging extent, if the region does not end with the
    extent, the request returns 0 and frees exactly the addresses of the region behind
    the request. *)
Theorem conflictok_inside_frees pool ex l1 s e fl l2 start size flags rp :
  ext_wf ex → has (ex_flags ex) EXF_NOCOALESCE = false → ex_regions ex = l1 ++ Region s e fl :: l2 →
  1 ≤ size → s ≤ start → start + size - 1 < e → e < ex_end ex →
  has flags EX_CONFLICTOK = true → has flags EX_WAITSPACE = false →
  (extent_alloc_region_descriptor pool ex flags).2 = Descr rp →
  ∃ ex', extent_alloc_region pool ex start size flags = Ret (ex', Errno 0) ∧
    ∀ a, allocated ex' a ↔ allocated ex a ∧ ¬ (start + size - 1 < a ≤ e).
Proof.
  intros Hwf Hnc Hrs Hsize Hs He Hend Hco Hws Hd.
  destruct (extent_alloc_region_descriptor pool ex flags) as [ex1 d] eqn:Hdesc. cbn in Hd. subst d.
  destruct (alloc_descriptor_spec _ _ _ _ _ Hdesc) as (Hr1 & (Hst1 & Hen1 & Hg1) & _).
  destruct Hwf as (Hlo & Hhi & Hok). rewrite Hrs in Hok. pose proof (proj1 (gap_range ex)) as Hgap.
  destruct (regions_ok_sorted _ _ l1 (Region s e fl) l2 _ Hgap Hok) as [Hb Ha].
  pose proof (regions_ok_bounds _ _ _ _ Hgap Hok) as Hbounds.
  apply Forall_app in Hbounds as [Hbl [Hbr Hba]%Forall_cons]. cbn [er_start er_end] in *.
  unfold is_u64 in Hlo, Hhi.
  set (end_ := start + size - 1) in *.
  assert (u64 (start + u64 (size - 1)) = end_) as Eend.
  { rewrite (u64_small (size - 1)), u64_small by (unfold is_u64; lia). lia. }
  unfold extent_alloc_region. rewrite Hdesc. unfold extent_do_alloc_region. rewrite Eend, Hco, Hws, Hr1, Hst1, Hen1, Hrs.
  replace (size <? 1) with false by lia. replace (end_ <? start) with false by lia.
  replace (start <? ex_start ex) with false by lia. replace (ex_end ex <? end_) with false by lia.
  cbn [negb andb orb kassert]. unfold kassert. cbn [mbind outcome_bind].
  rewrite length_app. cbn [length]. rewrite Nat.add_succ_r.
  assert (∀ x, s ≤ x → Forall (λ q, er_end q < x ∧ er_start q ≤ end_) l1) as Hl1.
  { intros x Hx. apply Forall_forall. intros q Hq. rewrite Forall_forall in Hb, Hbl.
    specialize (Hb q Hq). specialize (Hbl q Hq). lia. }
  cbn [alloc_region_start]. rewrite Hr1, Hrs, (conflict_scan_hits l1 (Region s e fl) l2) by (cbn; auto; lia).
  rewrite Hws, Hco, Hen1. cbn [er_start er_end er_flags].
  replace (s <=? start) with true by lia. replace (e <? ex_end ex) with true by lia.
  rewrite (u64_small (e + 1)) by (unfold is_u64; lia).
  rewrite (conflict_scan_passes l1 (Region s e fl) l2).
  2: { apply Forall_app. split; [apply Hl1; lia|]. constructor; [cbn; lia|constructor]. }
  2: { eapply Forall_impl; [exact Ha|]. cbn. lia. }
  cbn [Nat.add].
  assert (u64 (e + 1 + u64 (end_ - (e + 1) + 1)) = end_ + 1) as Esum.
  { unfold u64. rewrite Zplus_mod_idemp_r. replace (e + 1 + (end_ - (e + 1) + 1)) with (end_ + 1) by lia.
    apply Z.mod_small. lia. }
  assert (u64 (e + 1 + u64 (u64 (end_ - (e + 1) + 1) - 1)) = end_) as Elast.
  { unfold u64. rewrite Zminus_mod_idemp_l, Zplus_mod_idemp_r.
    replace (e + 1 + (end_ - (e + 1) + 1 - 1)) with end_ by lia. apply Z.mod_small. lia. }
  rewrite (insert_appends ex1 l1 (Region s e fl) l2).
  - cbn [er_end mbind outcome_bind]. rewrite Elast. eexists. split; [done|]. intros a.
    unfold allocated. destruct (free_descriptor_spec (set_regions ex1 (l1 ++ set_end (Region s e fl) end_ :: l2)) rp) as [-> _].
    rewrite Hrs. cbn [ex_regions set_regions]. rewrite !covered_app, !covered_cons. unfold covers, set_end. cbn [er_start er_end].
    split.
    + intros [H|[H|H]]; [|split; [right; left; lia|lia]|].
      * split; [by left|]. pose proof (covered_before _ _ _ Hb H). lia.
      * split; [by do 2 right|]. pose proof (covered_after _ _ _ Ha H). lia.
    + intros [[H|[H|H]] Hn]; [by left|right; left; lia|by do 2 right].
  - apply gap_coalesce. rewrite Hg1. by apply gap_coalesce.
  - by rewrite Hr1.
  - unfold is_u64. cbn. lia.
  - eapply Forall_impl; [exact Ha|]. cbn. intros q Hq. rewrite Esum. lia.
Qed.

Lemma conflictok_inside_frees_witness :
  ∃ ex', extent_alloc_region true ex0 0x14 4 EX_CONFLICTOK = Ret (ex', Errno 0) ∧
    allocated ex0 0x1f ∧ ¬ allocated ex' 0x1f.
Proof.
  destruct (conflictok_inside_frees true ex0 [] 0x10 0x1f 0 [Region 0x40 0x4f 0] 0x14 4 EX_CONFLICTOK ER_ALLOC)
    as (ex' & He & Ha).
  - exact ex0_wf.
  - reflexivity.
  - reflexivity.
  - lia.
  - lia.
  - lia.
  - cbn. lia.
  - reflexivity.
  - reflexivity.
  - reflexivity.
  - exists ex'. split; [exact He|]. split; [apply Exists_cons_hd; unfold covers; cbn; lia|].
    intros H. apply Ha in H. lia.
Defined.

(** An extent up to the last address, whose last page is allocated. *)
Definition ex_top : extent :=
  Extent "top" [Region 0xfffffffffffff000 0xffffffffffffffff 0] 0x1000 0xffffffffffffffff 0 0 [] [].

(** [extent_do_alloc] relocates the start past the last overlapping region
    without a check for wrap-around: at the top of the address space the start
    becomes 0, the request is granted there, outside of the extent, and merging
    it with that region leaves a region that ends before it begins, so that what
    was allocated no longer is. *)
Theorem alloc_subregion_wraps :
  ∃ ex', extent_alloc_subregion true ex_top 0xfffffffffffff800 0xffffffffffffffff 16 1 0 0 EX_FAST =
    Ret (ex', Errno 0, Some 0) ∧ 0 < ex_start ex_top ∧
    allocated ex_top 0xffffffffffffffff ∧ ¬ allocated ex' 0xffffffffffffffff.
Proof.
  eexists. split; [vm_compute; reflexivity|]. split; [done|]. split.
  - apply Exists_cons_hd. unfold covers. cbn. lia.
  - unfold allocated. cbn. rewrite !covered_cons, covered_nil. unfold covers. cbn. lia.
Qed.

(** A region moved past a boundary line is not aligned again, though it is
    documented to be: 16 addresses aligned to 64 that must not cross a multiple
    of 16 counted from the start of the extent, 8, are placed at 72. *)
Theorem boundary_unaligned :
  ∃ ex', extent_alloc true (Extent "b" [] 8 0xff 0 0 [] []) 16 64 0 16 EX_FAST =
    Ret (ex', Errno 0, Some 72) ∧ 72 mod 64 ≠ 0.
Proof. eexists. split; [vm_compute; reflexivity|done]. Qed.
