(* ===== verification/ExtentList.v ===== *)
(** The list of all extents of sys/kern/subr_extent.c: [extent_register],
    [extent_pool_init], and the parts of [extent_create] and [extent_destroy]
    that work on it.  Extents are at addresses; those of a fixed extent are
    given by the caller. *)

From stdpp Require Import gmap relations.
From S2P Require Import Prelude Extent.

(** The static variables of the file, and the extents in memory. *)
Record extents : Type := Extents {
  inited : bool;            (* of extent_pool_init *)
  initialized : bool;       (* of extent_register *)
  ext_list : list Z;
  ext_mem : gmap Z extent;
}.

Definition extent_pool_init (s : extents) : extents :=
  if negb (inited s) then Extents true (initialized s) (ext_list s) (ext_mem s) else s.

(** LIST_INIT empties the list the first time. *)
Definition extent_register (s : extents) (ex : Z) : outcome extents :=
  let s := if negb (initialized s) then Extents (inited s) true [] (ext_mem s) else s in
  kassert "extent_register" (negb (bool_decide (ex ∈ ext_list s))) ;;
  Ret (Extents (inited s) (initialized s) (ex :: ext_list s) (ext_mem s)).

(** [extent_create] with the list; [a] is the storage given, or what malloc finds.
    The checks come before the pool is initialised, and a panic ends the run. *)
Definition extent_create_at (mem pool : bool) (name : option string) (start end_ mtype : Z)
    (storage : bool) (storagesize flags : Z) (a : Z) (s : extents) : outcome (option Z * extents) :=
  o ← extent_create mem pool name start end_ mtype storage storagesize flags;
  let s := extent_pool_init s in
  match o with
  | None => Ret (None, s)
  | Some ex =>
      s ← extent_register (Extents (inited s) (initialized s) (ext_list s) (<[a := ex]> (ext_mem s))) a;
      Ret (Some a, s)
  end.

(** [LIST_REMOVE] of an element that is on the list. *)
Fixpoint LIST_REMOVE (a : Z) (l : list Z) : list Z :=
  match l with
  | [] => []
  | b :: l => if decide (a = b) then l else b :: LIST_REMOVE a l
  end.

(** [extent_destroy]: what is left at [a] is the caller's storage if the extent is
    fixed, and nothing if it is not. *)
Definition extent_destroy_at (a : Z) (s : extents) : outcome (option extent * extents) :=
  ex ← match ext_mem s !! a with None => Fault (Panic "extent_destroy") | Some ex => Ret ex end;
  let ex := extent_destroy ex in
  Ret (if has (ex_flags ex) EXF_FIXED then Some ex else None,
       Extents (inited s) (initialized s) (LIST_REMOVE a (ext_list s)) (delete a (ext_mem s))).

(** The state before the first call. *)
Definition no_extents : extents := Extents false false [] ∅.

(** ** Every extent is on the list, once *)

Record registered (s : extents) : Prop := {
  rg_nodup : NoDup (ext_list s);
  rg_mem a : a ∈ ext_list s ↔ is_Some (ext_mem s !! a);
  rg_first : initialized s = false → ext_list s = [];
}.

Lemma no_extents_registered : registered no_extents.
Proof.
  split; [constructor| |done]. intros a. cbn. rewrite lookup_empty. split; [inversion 1|by intros []].
Qed.

Lemma LIST_REMOVE_elem a b l : NoDup l → (b ∈ LIST_REMOVE a l ↔ b ∈ l ∧ b ≠ a).
Proof.
  induction 1 as [|c l Hc _ IH]; cbn.
  - split; [by intros ?%elem_of_nil|by intros [?%elem_of_nil _]].
  - destruct (decide (a = c)) as [->|Hac]; rewrite ?elem_of_cons, ?IH; [|naive_solver].
    split; [|naive_solver]. intros Hb. split; [by right|]. by intros ->.
Qed.

Lemma LIST_REMOVE_NoDup a l : NoDup l → NoDup (LIST_REMOVE a l).
Proof.
  induction 1 as [|c l Hc Hl IH]; cbn; [constructor|]. destruct (decide (a = c)); [done|].
  constructor; [|done]. by rewrite LIST_REMOVE_elem by done; intros [].
Qed.

Lemma extent_pool_init_registered s : registered s → registered (extent_pool_init s).
Proof. intros [? ? ?]. unfold extent_pool_init. destruct (negb (inited s)); by split. Qed.

(** The checks and the failures of [extent_create] are those of the operation on one
    extent; an extent that is made is put on the list, unless the caller gave
    the storage of one that is on it already. *)
Theorem extent_create_at_spec mem pool name start end_ mtype storage size flags a s :
  registered s →
  match extent_create mem pool name start end_ mtype storage size flags with
  | Fault f => extent_create_at mem pool name start end_ mtype storage size flags a s = Fault f
  | Ret None => ∃ s', registered s' ∧ ext_list s' = ext_list s ∧ ext_mem s' = ext_mem s ∧
      extent_create_at mem pool name start end_ mtype storage size flags a s = Ret (None, s')
  | Ret (Some ex) =>
      if decide (a ∈ ext_list s)
      then extent_create_at mem pool name start end_ mtype storage size flags a s =
             Fault (Panic "extent_register")
      else ∃ s', registered s' ∧ ext_list s' = a :: ext_list s ∧ ext_mem s' = <[a := ex]> (ext_mem s) ∧
        extent_create_at mem pool name start end_ mtype storage size flags a s = Ret (Some a, s')
  end.
Proof.
  intros Hreg. unfold extent_create_at.
  destruct (extent_create mem pool name start end_ mtype storage size flags) as [[ex|]|f]; [| |done].
  - pose proof (extent_pool_init_registered _ Hreg) as Hreg'.
    assert (ext_list (extent_pool_init s) = ext_list s ∧ ext_mem (extent_pool_init s) = ext_mem s) as [Hl Hm].
    { unfold extent_pool_init. by destruct (negb (inited s)). }
    cbn [mbind outcome_bind]. revert Hreg' Hl Hm. generalize (extent_pool_init s). intros s1 Hreg1 Hl Hm.
    unfold extent_register. cbn [initialized ext_list inited ext_mem].
    assert (ext_list (if negb (initialized s1)
       then Extents (inited s1) true [] (<[a:=ex]> (ext_mem s1))
       else Extents (inited s1) (initialized s1) (ext_list s1) (<[a:=ex]> (ext_mem s1))) = ext_list s) as Hl2.
    { destruct (initialized s1) eqn:E; cbn; [done|]. rewrite <-Hl. symmetry. by apply rg_first. }
    rewrite Hl2. destruct (decide (a ∈ ext_list s)) as [Ha|Ha].
    + by rewrite bool_decide_eq_true_2.
    + rewrite bool_decide_eq_false_2 by done. cbn [mbind outcome_bind kassert negb].
      match goal with |- ∃ _, _ ∧ _ ∧ _ ∧ Ret (_, ?x) = _ => exists x end.
      split_and!; [|done| |done].
      * destruct Hreg as [Hnd Hmem _]. split; cbn [ext_list ext_mem initialized].
        -- by constructor.
        -- intros b. rewrite elem_of_cons, Hmem.
           assert (ext_mem (if negb (initialized s1)
             then Extents (inited s1) true [] (<[a:=ex]> (ext_mem s1))
             else Extents (inited s1) (initialized s1) (ext_list s1) (<[a:=ex]> (ext_mem s1))) =
             <[a := ex]> (ext_mem s)) as -> by (rewrite <-Hm; by destruct (initialized s1)).
           rewrite lookup_insert_is_Some. naive_solver.
        -- by destruct (initialized s1).
      * cbn. rewrite <-Hm. by destruct (initialized s1).
  - exists (extent_pool_init s). split_and!; [by apply extent_pool_init_registered| | |done];
      unfold extent_pool_init; by destruct (negb (inited s)).
Qed.

(** Destroying an extent takes it, and only it, off the list. *)
Theorem extent_destroy_at_spec a ex s :
  registered s → ext_mem s !! a = Some ex →
  ∃ left s', extent_destroy_at a s = Ret (left, s') ∧ registered s' ∧
    ext_mem s' = delete a (ext_mem s) ∧ (∀ b, b ∈ ext_list s' ↔ b ∈ ext_list s ∧ b ≠ a).
Proof.
  intros [Hnd Hmem Hfirst] Ha. unfold extent_destroy_at. rewrite Ha. cbn.
  do 2 eexists. split_and!; [done| |done|intros b; by apply LIST_REMOVE_elem]. split; cbn.
  - by apply LIST_REMOVE_NoDup.
  - intros b. rewrite LIST_REMOVE_elem, Hmem by done. rewrite lookup_delete_is_Some. naive_solver.
  - intros E. by rewrite Hfirst.
Qed.
