(* ===== verification/Bpf.v ===== *)
(** The Berkeley packet filter: sys/net/bpf_filter.c (the filter machine
    [_bpf_filter], the packet accessors and the validator [bpf_validate]) and
    the instruction encoding of sys/net/bpf.h. *)

From S2P Require Import Prelude.

(** ** Encoding *)

Record bpf_insn : Type := Insn {
  i_code : Z;   (* u_int16_t *)
  i_jt : Z;     (* u_char *)
  i_jf : Z;     (* u_char *)
  i_k : Z;      (* u_int32_t *)
}.

Definition BPF_MAXINSNS : Z := 512.
Definition BPF_MAXBUFSIZE : Z := 2 * 1024 * 1024.
Definition BPF_MEMWORDS : Z := 16.

Definition BPF_CLASS (code : Z) : Z := Z.land code 0x07.
Definition BPF_LD : Z := 0x00.
Definition BPF_LDX : Z := 0x01.
Definition BPF_ST : Z := 0x02.
Definition BPF_STX : Z := 0x03.
Definition BPF_ALU : Z := 0x04.
Definition BPF_JMP : Z := 0x05.
Definition BPF_RET : Z := 0x06.
Definition BPF_MISC : Z := 0x07.

Definition BPF_W : Z := 0x00.
Definition BPF_H : Z := 0x08.
Definition BPF_B : Z := 0x10.
Definition BPF_MODE (code : Z) : Z := Z.land code 0xe0.
Definition BPF_IMM : Z := 0x00.
Definition BPF_ABS : Z := 0x20.
Definition BPF_IND : Z := 0x40.
Definition BPF_MEM : Z := 0x60.
Definition BPF_LEN : Z := 0x80.
Definition BPF_MSH : Z := 0xa0.
Definition BPF_RND : Z := 0xc0.

Definition BPF_OP (code : Z) : Z := Z.land code 0xf0.
Definition BPF_ADD : Z := 0x00.
Definition BPF_SUB : Z := 0x10.
Definition BPF_MUL : Z := 0x20.
Definition BPF_DIV : Z := 0x30.
Definition BPF_OR : Z := 0x40.
Definition BPF_AND : Z := 0x50.
Definition BPF_LSH : Z := 0x60.
Definition BPF_RSH : Z := 0x70.
Definition BPF_NEG : Z := 0x80.
Definition BPF_MOD : Z := 0x90.
Definition BPF_XOR : Z := 0xa0.
Definition BPF_JA : Z := 0x00.
Definition BPF_JEQ : Z := 0x10.
Definition BPF_JGT : Z := 0x20.
Definition BPF_JGE : Z := 0x30.
Definition BPF_JSET : Z := 0x40.
Definition BPF_SRC (code : Z) : Z := Z.land code 0x08.
Definition BPF_K : Z := 0x00.
Definition BPF_X : Z := 0x08.
Definition BPF_A : Z := 0x10.
Definition BPF_TAX : Z := 0x00.
Definition BPF_TXA : Z := 0x80.

(** ** Access to the packet *)

(** [struct bpf_ops]: the value read and [*err]. *)
Record bpf_ops (M : Type) : Type := BpfOps {
  ldw : M → Z → outcome (Z * Z);
  ldh : M → Z → outcome (Z * Z);
  ldb : M → Z → outcome (Z * Z);
}.
Arguments BpfOps {M}.
Arguments ldw {M}.
Arguments ldh {M}.
Arguments ldb {M}.

(** [struct bpf_mem] *)
Record bpf_mem : Type := BpfMem { bm_pkt : list Z; bm_len : Z }.

(** The value of an object whose bytes are copied by [memcpy], on a
    little-endian machine, and the byte swap of [ntohl] and [ntohs] there. *)
Fixpoint le_value (d : list Z) : Z :=
  match d with
  | [] => 0
  | b :: d => b + 256 * le_value d
  end.
Definition ntohl (x : Z) : Z :=
  Z.lor (Z.lor (Z.shiftl (Z.land x 0xff) 24) (Z.shiftl (Z.land x 0xff00) 8))
    (Z.lor (Z.shiftr (Z.land x 0xff0000) 8) (Z.shiftr (Z.land x 0xff000000) 24)).
Definition ntohs (x : Z) : Z :=
  Z.lor (Z.shiftl (Z.land x 0xff) 8) (Z.shiftr (Z.land x 0xff00) 8).

Definition bpf_mem_ldw (bm : bpf_mem) (k : Z) : outcome (Z * Z) :=
  if bm_len bm <? k + 4 then Ret (0, 1)
  else d ← mem_read (bm_pkt bm) k 4; Ret (ntohl (le_value d), 0).

Definition bpf_mem_ldh (bm : bpf_mem) (k : Z) : outcome (Z * Z) :=
  if bm_len bm <? k + 2 then Ret (0, 1)
  else d ← mem_read (bm_pkt bm) k 2; Ret (ntohs (le_value d), 0).

Definition bpf_mem_ldb (bm : bpf_mem) (k : Z) : outcome (Z * Z) :=
  if bm_len bm <=? k then Ret (0, 1)
  else b ← load (bm_pkt bm) k; Ret (b, 0).

Definition bpf_mem_ops : bpf_ops bpf_mem :=
  {| ldw := bpf_mem_ldw; ldh := bpf_mem_ldh; ldb := bpf_mem_ldb |}.

(** ** The filter machine *)

(** What the [case] labels of [_bpf_filter] distinguish. *)
Inductive bpf_width : Type := W | H | B.
Inductive bpf_src : Type := K | X.
Inductive bpf_cond : Type := JGT | JGE | JEQ | JSET.
Inductive bpf_alu : Type := ADD | SUB | MUL | DIV | MOD | AND | OR | XOR | LSH | RSH.
Inductive bpf_opcode : Type :=
| RET_K | RET_A
| LD_ABS (w : bpf_width) | LD_LEN | LDX_LEN | LD_RND | LD_IND (w : bpf_width) | LDX_MSH
| LD_IMM | LDX_IMM | LD_MEM | LDX_MEM | ST | STX
| JA | JMP (c : bpf_cond) (s : bpf_src)
| ALU (o : bpf_alu) (s : bpf_src) | NEG | TAX | TXA
| DEFAULT.

Infix "|'" := Z.lor (at level 40, left associativity) : bpf_scope.
#[local] Open Scope bpf_scope.

(** The [case] labels, in the order of the [switch]. *)
Definition bpf_cases : list (Z * bpf_opcode) :=
  [ (BPF_RET |' BPF_K, RET_K);
    (BPF_RET |' BPF_A, RET_A);
    (BPF_LD |' BPF_W |' BPF_ABS, LD_ABS W);
    (BPF_LD |' BPF_H |' BPF_ABS, LD_ABS H);
    (BPF_LD |' BPF_B |' BPF_ABS, LD_ABS B);
    (BPF_LD |' BPF_W |' BPF_LEN, LD_LEN);
    (BPF_LDX |' BPF_W |' BPF_LEN, LDX_LEN);
    (BPF_LD |' BPF_W |' BPF_RND, LD_RND);
    (BPF_LD |' BPF_W |' BPF_IND, LD_IND W);
    (BPF_LD |' BPF_H |' BPF_IND, LD_IND H);
    (BPF_LD |' BPF_B |' BPF_IND, LD_IND B);
    (BPF_LDX |' BPF_MSH |' BPF_B, LDX_MSH);
    (BPF_LD |' BPF_IMM, LD_IMM);
    (BPF_LDX |' BPF_IMM, LDX_IMM);
    (BPF_LD |' BPF_MEM, LD_MEM);
    (BPF_LDX |' BPF_MEM, LDX_MEM);
    (BPF_ST, ST);
    (BPF_STX, STX);
    (BPF_JMP |' BPF_JA, JA);
    (BPF_JMP |' BPF_JGT |' BPF_K, JMP JGT K);
    (BPF_JMP |' BPF_JGE |' BPF_K, JMP JGE K);
    (BPF_JMP |' BPF_JEQ |' BPF_K, JMP JEQ K);
    (BPF_JMP |' BPF_JSET |' BPF_K, JMP JSET K);
    (BPF_JMP |' BPF_JGT |' BPF_X, JMP JGT X);
    (BPF_JMP |' BPF_JGE |' BPF_X, JMP JGE X);
    (BPF_JMP |' BPF_JEQ |' BPF_X, JMP JEQ X);
    (BPF_JMP |' BPF_JSET |' BPF_X, JMP JSET X);
    (BPF_ALU |' BPF_ADD |' BPF_X, ALU ADD X);
    (BPF_ALU |' BPF_SUB |' BPF_X, ALU SUB X);
    (BPF_ALU |' BPF_MUL |' BPF_X, ALU MUL X);
    (BPF_ALU |' BPF_DIV |' BPF_X, ALU DIV X);
    (BPF_ALU |' BPF_MOD |' BPF_X, ALU MOD X);
    (BPF_ALU |' BPF_AND |' BPF_X, ALU AND X);
    (BPF_ALU |' BPF_OR |' BPF_X, ALU OR X);
    (BPF_ALU |' BPF_XOR |' BPF_X, ALU XOR X);
    (BPF_ALU |' BPF_LSH |' BPF_X, ALU LSH X);
    (BPF_ALU |' BPF_RSH |' BPF_X, ALU RSH X);
    (BPF_ALU |' BPF_ADD |' BPF_K, ALU ADD K);
    (BPF_ALU |' BPF_SUB |' BPF_K, ALU SUB K);
    (BPF_ALU |' BPF_MUL |' BPF_K, ALU MUL K);
    (BPF_ALU |' BPF_DIV |' BPF_K, ALU DIV K);
    (BPF_ALU |' BPF_MOD |' BPF_K, ALU MOD K);
    (BPF_ALU |' BPF_AND |' BPF_K, ALU AND K);
    (BPF_ALU |' BPF_OR |' BPF_K, ALU OR K);
    (BPF_ALU |' BPF_XOR |' BPF_K, ALU XOR K);
    (BPF_ALU |' BPF_LSH |' BPF_K, ALU LSH K);
    (BPF_ALU |' BPF_RSH |' BPF_K, ALU RSH K);
    (BPF_ALU |' BPF_NEG, NEG);
    (BPF_MISC |' BPF_TAX, TAX);
    (BPF_MISC |' BPF_TXA, TXA) ].

Fixpoint find_case (l : list (Z * bpf_opcode)) (code : Z) : bpf_opcode :=
  match l with
  | [] => DEFAULT
  | (label, op) :: l => if code =? label then op else find_case l code
  end.

Definition decode (code : Z) : bpf_opcode := find_case bpf_cases code.
#[global] Arguments decode : simpl never.

(** The locals of [_bpf_filter]: [pc] is an index into the program, [mem] holds
    [int32_t] words, [rnd] counts the calls of [arc4random]. *)
Record bpf_state : Type := BpfState {
  s_pc : Z;
  s_A : Z;
  s_X : Z;
  s_mem : list Z;
  s_rnd : nat;
}.

(** One turn of the loop ends with [continue] or with [return]. *)
Inductive bpf_turn : Type :=
| Continue (st : bpf_state)
| Return (r : Z).

Definition alu (o : bpf_alu) (s : bpf_src) (a v : Z) : outcome (option Z) :=
  match o with
  | ADD => Ret (Some (u32 (a + v)))
  | SUB => Ret (Some (u32 (a - v)))
  | MUL => Ret (Some (u32 (a * v)))
  | DIV => match s with
           | X => if v =? 0 then Ret None else Ret (Some (a / v))
           | K => if v =? 0 then Fault DivByZero else Ret (Some (a / v))
           end
  | MOD => match s with
           | X => if v =? 0 then Ret None else Ret (Some (a mod v))
           | K => if v =? 0 then Fault DivByZero else Ret (Some (a mod v))
           end
  | AND => Ret (Some (Z.land a v))
  | OR => Ret (Some (Z.lor a v))
  | XOR => Ret (Some (Z.lxor a v))
  | LSH => if v <? 32 then Ret (Some (u32 (Z.shiftl a v))) else Fault ShiftTooWide
  | RSH => if v <? 32 then Ret (Some (Z.shiftr a v)) else Fault ShiftTooWide
  end.

Definition cond (c : bpf_cond) (a v : Z) : bool :=
  match c with
  | JGT => v <? a
  | JGE => v <=? a
  | JEQ => a =? v
  | JSET => negb (Z.land a v =? 0)
  end.

Section Filter.
Context {M : Type} (ops : bpf_ops M) (pkt : M) (wirelen : Z).
(** [arc4random] (sys/dev/rnd.c): the [n]th number it returns. *)
Context (arc4random : nat → Z).
(** The program, from [pc] on. *)
Context (prog : list bpf_insn).

Definition ld (w : bpf_width) : M → Z → outcome (Z * Z) :=
  match w with W => ldw ops | H => ldh ops | B => ldb ops end.

(** The body of the [switch]; [++pc] happens at the top of the next turn. *)
Definition bpf_step (st : bpf_state) : outcome bpf_turn :=
  i ← load prog (s_pc st);
  let set a x := Ret (Continue (BpfState (s_pc st + 1) a x (s_mem st) (s_rnd st))) in
  let A := s_A st in
  let Xr := s_X st in
  let operand s := match s with K => i_k i | X => Xr end in
  match decode (i_code i) with
  | DEFAULT => Ret (Return 0)
  | RET_K => Ret (Return (i_k i))
  | RET_A => Ret (Return A)
  | LD_ABS w =>
      '(v, err) ← ld w pkt (i_k i);
      if negb (err =? 0) then Ret (Return 0) else set v Xr
  | LD_LEN => set wirelen Xr
  | LDX_LEN => set A wirelen
  | LD_RND =>
      Ret (Continue (BpfState (s_pc st + 1) (arc4random (s_rnd st)) Xr (s_mem st) (S (s_rnd st))))
  | LD_IND w =>
      let k := u32 (Xr + i_k i) in
      '(v, err) ← ld w pkt k;
      if negb (err =? 0) then Ret (Return 0) else set v Xr
  | LDX_MSH =>
      '(v, err) ← ldb ops pkt (i_k i);
      if negb (err =? 0) then Ret (Return 0)
      else set A (u32 (Z.shiftl (Z.land v 0xf) 2))
  | LD_IMM => set (i_k i) Xr
  | LDX_IMM => set A (i_k i)
  | LD_MEM => v ← load (s_mem st) (i_k i); set (u32 v) Xr
  | LDX_MEM => v ← load (s_mem st) (i_k i); set A (u32 v)
  | ST =>
      mem ← store (s_mem st) (i_k i) (i32 A);
      Ret (Continue (BpfState (s_pc st + 1) A Xr mem (s_rnd st)))
  | STX =>
      mem ← store (s_mem st) (i_k i) (i32 Xr);
      Ret (Continue (BpfState (s_pc st + 1) A Xr mem (s_rnd st)))
  | JA => Ret (Continue (BpfState (s_pc st + i_k i + 1) A Xr (s_mem st) (s_rnd st)))
  | JMP c s =>
      let off := if cond c A (operand s) then i_jt i else i_jf i in
      Ret (Continue (BpfState (s_pc st + off + 1) A Xr (s_mem st) (s_rnd st)))
  | ALU o s =>
      r ← alu o s A (operand s);
      match r with None => Ret (Return 0) | Some v => set v Xr end
  | NEG => set (u32 (- A)) Xr
  | TAX => set A A
  | TXA => set Xr Xr
  end.

Fixpoint bpf_loop (fuel : nat) (st : bpf_state) : outcome Z :=
  match fuel with
  | O => Fault OutOfFuel
  | S fuel =>
      t ← bpf_step st;
      match t with Return r => Ret r | Continue st => bpf_loop fuel st end
  end.
End Filter.

(** [pc == NULL] accepts every packet.  The fuel is the number of instructions:
    a program without backward jumps executes each at most once. *)
Definition _bpf_filter {M} (pc : option (list bpf_insn)) (ops : bpf_ops M) (pkt : M)
    (wirelen : Z) (arc4random : nat → Z) : outcome Z :=
  match pc with
  | None => Ret (u32 (-1))
  | Some prog =>
      bpf_loop ops pkt wirelen arc4random prog (length prog)
        (BpfState 0 0 0 (replicate (Z.to_nat BPF_MEMWORDS) 0) 0)
  end.

Definition bpf_filter (pc : option (list bpf_insn)) (pkt : list Z) (wirelen buflen : Z)
    (arc4random : nat → Z) : outcome Z :=
  _bpf_filter pc bpf_mem_ops {| bm_pkt := pkt; bm_len := buflen |} wirelen arc4random.

(** ** The validator *)

(** The checks of one instruction, [i] being its index: [false] is [return 0]. *)
Definition bpf_validate_insn (bpf_maxbufsize i len : Z) (p : bpf_insn) : bool :=
  let class := BPF_CLASS (i_code p) in
  if (class =? BPF_LD) || (class =? BPF_LDX) then
    let mode := BPF_MODE (i_code p) in
    if mode =? BPF_IMM then true
    else if (mode =? BPF_ABS) || (mode =? BPF_IND) || (mode =? BPF_MSH) then
      negb (bpf_maxbufsize <=? i_k p)
    else if mode =? BPF_MEM then negb (BPF_MEMWORDS <=? i_k p)
    else (mode =? BPF_LEN) || (mode =? BPF_RND)
  else if (class =? BPF_ST) || (class =? BPF_STX) then
    negb (BPF_MEMWORDS <=? i_k p)
  else if class =? BPF_ALU then
    let op := BPF_OP (i_code p) in
    if (op =? BPF_ADD) || (op =? BPF_SUB) || (op =? BPF_MUL) || (op =? BPF_OR)
       || (op =? BPF_XOR) || (op =? BPF_AND) || (op =? BPF_LSH) || (op =? BPF_RSH)
       || (op =? BPF_NEG) then true
    else if (op =? BPF_DIV) || (op =? BPF_MOD) then
      negb ((BPF_SRC (i_code p) =? BPF_K) && (i_k p =? 0))
    else false
  else if class =? BPF_JMP then
    let from := u32 (i + 1) in
    let op := BPF_OP (i_code p) in
    if op =? BPF_JA then
      negb ((u32 (from + i_k p) <? from) || (len <=? u32 (from + i_k p)))
    else if (op =? BPF_JEQ) || (op =? BPF_JGT) || (op =? BPF_JGE) || (op =? BPF_JSET) then
      negb ((len <=? u32 (from + i_jt p)) || (len <=? u32 (from + i_jf p)))
    else false
  else (class =? BPF_RET) || (class =? BPF_MISC).

(** [for (i = 0; i < len; ++i)]; [n] is the number of turns left. *)
Fixpoint bpf_validate_loop (bpf_maxbufsize : Z) (f : list bpf_insn) (len i : Z) (n : nat) :
    outcome bool :=
  match n with
  | O => Ret true
  | S n =>
      p ← load f i;
      if bpf_validate_insn bpf_maxbufsize i len p
      then bpf_validate_loop bpf_maxbufsize f len (i + 1) n
      else Ret false
  end.

Definition bpf_validate (bpf_maxbufsize : Z) (f : list bpf_insn) (len : Z) : outcome bool :=
  if (len <? 1) || (BPF_MAXINSNS <? len) then Ret false
  else
    ok ← bpf_validate_loop bpf_maxbufsize f len 0 (Z.to_nat len);
    if (ok : bool) then p ← load f (len - 1); Ret (BPF_CLASS (i_code p) =? BPF_RET)
    else Ret false.

(** [ldh [12]; jeq #0x800, 0, 1; ret #96; ret #0]: accept 96 bytes of IP packets. *)
Definition ip_filter : list bpf_insn :=
  [ Insn (BPF_LD |' BPF_H |' BPF_ABS) 0 0 12;
    Insn (BPF_JMP |' BPF_JEQ |' BPF_K) 0 1 0x800;
    Insn (BPF_RET |' BPF_K) 0 0 96;
    Insn (BPF_RET |' BPF_K) 0 0 0 ].

Example ip_filter_runs :
  bpf_validate BPF_MAXBUFSIZE ip_filter 4 = Ret true ∧
  bpf_filter (Some ip_filter) (replicate 12 0 ++ [8; 0; 69]) 60 15 (λ _, 0) = Ret 96 ∧
  bpf_filter (Some ip_filter) (replicate 12 0 ++ [8; 6; 69]) 60 15 (λ _, 0) = Ret 0 ∧
  bpf_filter (Some ip_filter) (replicate 12 0 ++ [8]) 60 13 (λ _, 0) = Ret 0.
Proof. split_and!; reflexivity. Qed.

(** ** Safety of validated programs *)

(** What [_bpf_filter] needs of the load operations it is given: on a valid
    packet they return, and give a [u_int32_t], at any offset. *)
Class BpfAccess {M : Type} (ops : bpf_ops M) (valid : M → Prop) : Prop := {
  ld_total : ∀ w m k, valid m → is_u32 k →
    ∃ v err, ld ops w m k = Ret (v, err) ∧ is_u32 v;
}.

Definition insn_ok (i : bpf_insn) : Prop := is_u8 (i_jt i) ∧ is_u8 (i_jf i) ∧ is_u32 (i_k i).

Lemma find_case_in l c : find_case l c = DEFAULT ∨ In (c, find_case l c) l.
Proof.
  induction l as [|[label op] l IH]; cbn; [by left|].
  destruct (Z.eqb_spec c label) as [->|]; [right; by left|].
  destruct IH; [by left|right; by right].
Qed.

(** The label of a decoded instruction: one goal per [case] of the [switch]. *)
Lemma decode_inv (P : Z → bpf_opcode → Prop) c :
  Forall (λ '(label, op), P label op) bpf_cases → decode c = DEFAULT ∨ P c (decode c).
Proof.
  intros HP. destruct (find_case_in bpf_cases c) as [?|Hin]; [by left|right].
  apply list_elem_of_In in Hin. rewrite Forall_forall in HP. exact (HP _ Hin).
Qed.

(** Evaluate the comparisons of closed instruction codes in the goal. *)
Ltac code_simpl :=
  repeat match goal with
  | |- context [?a =? ?b] =>
      let v := eval vm_compute in (a =? b) in
      lazymatch v with
      | true => change (a =? b) with true
      | false => change (a =? b) with false
      end
  end; cbn [orb andb negb].

(** The conditions the validator establishes for the operation executed. *)
Definition op_valid (i len : Z) (p : bpf_insn) (op : bpf_opcode) : Prop :=
  match op with
  | LD_MEM | LDX_MEM | ST | STX => i_k p < BPF_MEMWORDS
  | ALU DIV K | ALU MOD K => i_k p ≠ 0
  | JA => i + 1 + i_k p < len
  | JMP _ _ => i + 1 + i_jt p < len ∧ i + 1 + i_jf p < len
  | _ => True
  end.

Definition op_returns (op : bpf_opcode) : Prop :=
  match op with RET_K | RET_A | DEFAULT => True | _ => False end.

Lemma validate_op_valid maxbuf i len p :
  0 ≤ i < BPF_MAXINSNS → len ≤ BPF_MAXINSNS → insn_ok p →
  bpf_validate_insn maxbuf i len p = true → op_valid i len p (decode (i_code p)).
Proof.
  intros Hi Hlen (Hjt & Hjf & Hk) Hv. unfold BPF_MAXINSNS in *.
  destruct (decode_inv (λ c op, i_code p = c →
    bpf_validate_insn maxbuf i len p = true → op_valid i len p op) (i_code p)) as [->|H];
    [|done|auto].
  unfold bpf_cases. repeat (apply Forall_cons; split); [..|apply Forall_nil; done];
    intros Hc; unfold bpf_validate_insn; rewrite Hc; code_simpl;
    cbn [op_valid]; try done; first [done | unfold BPF_MEMWORDS; wrap_lia].
Qed.

Lemma ret_op_returns p : BPF_CLASS (i_code p) = BPF_RET → op_returns (decode (i_code p)).
Proof.
  intros Hc. destruct (decode_inv (λ c op, BPF_CLASS c = BPF_RET → op_returns op) (i_code p))
    as [->|H]; [|done|auto].
  unfold bpf_cases. repeat (apply Forall_cons; split); [done..|by apply Forall_nil].
Qed.

(** An instruction whose shift count is a constant of 32 or more, or is in X:
    the validator lets both through. *)
Definition unchecked_shift (i : bpf_insn) : Prop :=
  match decode (i_code i) with
  | ALU LSH K | ALU RSH K => 32 ≤ i_k i
  | ALU LSH X | ALU RSH X => True
  | _ => False
  end.

Lemma alu_ok o s a v :
  is_u32 a → is_u32 v → (o = DIV ∨ o = MOD → s = K → v ≠ 0) →
  (∃ r, alu o s a v = Ret r ∧ match r with Some x => is_u32 x | None => True end) ∨
  ((o = LSH ∨ o = RSH) ∧ 32 ≤ v ∧ alu o s a v = Fault ShiftTooWide).
Proof.
  intros Ha Hv Hdiv. unfold is_u32 in Ha, Hv.
  destruct o; cbn [alu]; try (left; eexists; split; [done|cbn; auto with kern]).
  1, 2: pose proof (Z.mod_pos_bound a v); pose proof (Z_div_mod_eq_full a v);
    left; destruct s; destruct (Z.eqb_spec v 0);
    (eexists; split; [done|]) || (exfalso; naive_solver); cbn; unfold is_u32; try done; nia.
  - by apply (land_bound 32).
  - by apply (lor_bound 32).
  - by apply (lxor_bound 32).
  - destruct (Z.ltb_spec v 32); [left; eexists; split; [done|cbn; auto with kern]|right; split; [auto|by split]].
  - destruct (Z.ltb_spec v 32); [|right; split; [auto|by split]].
    left; eexists; split; [done|]. apply (shiftr_bound 32); lia.
Qed.

Section Safety.
Context {M : Type} (ops : bpf_ops M) (valid : M → Prop) `{!BpfAccess ops valid}.
Context (pkt : M) (Hpkt : valid pkt) (wirelen : Z) (Hwire : is_u32 wirelen).
Context (arc4random : nat → Z) (Hrnd : ∀ n, is_u32 (arc4random n)).
Context (prog : list bpf_insn) (Hprog : Forall insn_ok prog).

Definition state_ok (st : bpf_state) : Prop :=
  0 ≤ s_pc st < Z.of_nat (length prog) ∧ is_u32 (s_A st) ∧ is_u32 (s_X st) ∧
  Z.of_nat (length (s_mem st)) = BPF_MEMWORDS.

(** A turn returns a [u_int], or goes on at a later instruction. *)
Definition turn_ok (st : bpf_state) (t : bpf_turn) : Prop :=
  match t with
  | Return r => is_u32 r
  | Continue st' => s_pc st < s_pc st' ∧ state_ok st'
  end.

Lemma turn_ok_next st pc a x mem rnd :
  0 ≤ s_pc st → s_pc st < pc < Z.of_nat (length prog) → is_u32 a → is_u32 x →
  Z.of_nat (length mem) = BPF_MEMWORDS →
  turn_ok st (Continue (BpfState pc a x mem rnd)).
Proof. intros ?????. split; [cbn; lia|]. split; [cbn; lia|]. done. Qed.

Lemma step_safe st i :
  state_ok st → prog !! Z.to_nat (s_pc st) = Some i →
  op_valid (s_pc st) (Z.of_nat (length prog)) i (decode (i_code i)) →
  (s_pc st + 1 < Z.of_nat (length prog) ∨ op_returns (decode (i_code i))) →
  (∃ t, bpf_step ops pkt wirelen arc4random prog st = Ret t ∧ turn_ok st t) ∨
  (unchecked_shift i ∧
   bpf_step ops pkt wirelen arc4random prog st = Fault ShiftTooWide).
Proof using All.
  intros (Hpc & HA & HX & Hmem) Hi Hv Hlast.
  pose proof (Forall_lookup_1 _ _ _ _ Hprog Hi) as (Hjt & Hjf & Hk).
  assert (load prog (s_pc st) = Ret i) as Hload by (apply load_Ret; split; [lia|done]).
  unfold bpf_step, unchecked_shift. rewrite Hload, bind_Ret_l.
  pose proof (turn_ok_next st) as Hnext.
  assert (∀ pc a x mem rnd, s_pc st < pc < Z.of_nat (length prog) → is_u32 a → is_u32 x →
    Z.of_nat (length mem) = BPF_MEMWORDS →
    ∃ t, Ret (Continue (BpfState pc a x mem rnd)) = Ret t ∧ turn_ok st t) as Hcont.
  { intros. eexists. split; [done|]. apply Hnext; [tauto|done..]. }
  assert (∀ w k (f : Z → bpf_turn), is_u32 k → (∀ v, is_u32 v → turn_ok st (f v)) →
    ∃ t, ('(v, err) ← ld ops w pkt k;
          if negb (err =? 0) then Ret (Return 0) else Ret (f v)) = Ret t ∧ turn_ok st t) as Hld.
  { intros w k f Hk' Hf. destruct (ld_total w pkt k Hpkt Hk') as (v & err & -> & Hu). cbn.
    destruct (err =? 0); eexists; (split; [done|]); [auto|done]. }
  destruct (decode (i_code i)) as [| |w| | | |w| | | | | | | | |c s|o s| | | |]; cbn in Hv, Hlast;
    unfold BPF_MEMWORDS in Hmem, Hv; unfold is_u32, is_u8 in Hk, Hjt, Hjf.
  (* the operations that only assign to A or X, or jump *)
  all: try (left; eexists; split; [done|]; done).
  all: try (left; apply Hcont; [lia|auto with kern..]; done).
  - left. apply Hld; [done|]. intros v Hu. apply Hnext; [lia|lia|done..].
  - left. apply Hld; [auto with kern|]. intros v Hu. apply Hnext; [lia|lia|done..].
  - left. apply (Hld B); [done|]. intros v Hu. apply Hnext; [lia|lia|auto with kern..].
  - left. destruct (load_in (s_mem st) (i_k i)) as (v & -> & _); [lia|].
    rewrite bind_Ret_l. apply Hcont; [lia|auto with kern..]; done.
  - left. destruct (load_in (s_mem st) (i_k i)) as (v & -> & _); [lia|].
    rewrite bind_Ret_l. apply Hcont; [lia|auto with kern..]; done.
  - left. rewrite store_in by lia. rewrite bind_Ret_l.
    apply Hcont; [lia|auto with kern..]. by rewrite length_insert.
  - left. rewrite store_in by lia. rewrite bind_Ret_l.
    apply Hcont; [lia|auto with kern..]. by rewrite length_insert.
  - left. apply Hcont; [destruct (cond _ _ _); lia|done..].
  - assert (is_u32 (match s with K => i_k i | X => s_X st end)) as Hop by (by destruct s).
    destruct (alu_ok o s (s_A st) _ HA Hop) as [(r & -> & Hr)|(Ho & Hw & ->)].
    { by intros [->| ->] ->. }
    + left. rewrite bind_Ret_l. destruct r; [apply Hcont; [lia|done..]|by eexists].
    + right. by destruct Ho as [->| ->], s.
Qed.

Hypothesis Hvalid : ∀ i p, prog !! Z.to_nat i = Some p → 0 ≤ i →
  op_valid i (Z.of_nat (length prog)) p (decode (i_code p)).
Hypothesis Hlast : ∀ p, prog !! (length prog - 1)%nat = Some p → op_returns (decode (i_code p)).

(** Every turn moves [pc] forward, so the instructions left are fuel enough. *)
Lemma loop_safe fuel st :
  state_ok st → Z.of_nat (length prog) - s_pc st ≤ Z.of_nat fuel →
  (∃ r, bpf_loop ops pkt wirelen arc4random prog fuel st = Ret r ∧ is_u32 r) ∨
  (Exists unchecked_shift prog ∧
   bpf_loop ops pkt wirelen arc4random prog fuel st = Fault ShiftTooWide).
Proof using All.
  revert st. induction fuel as [|fuel IH]; intros st Hst Hf.
  { destruct Hst. lia. }
  assert (0 ≤ s_pc st < Z.of_nat (length prog)) as Hpc by (destruct Hst; lia).
  destruct (load_in prog (s_pc st) Hpc) as (i & _ & Hi).
  assert (s_pc st + 1 < Z.of_nat (length prog) ∨ op_returns (decode (i_code i))) as Hl.
  { destruct (decide (s_pc st + 1 < Z.of_nat (length prog))); [by left|right].
    apply Hlast. by replace (length prog - 1)%nat with (Z.to_nat (s_pc st)) by lia. }
  cbn [bpf_loop].
  destruct (step_safe st i Hst Hi (Hvalid _ _ Hi (proj1 Hpc)) Hl) as [([st'|r] & -> & Ht)|[Hu ->]].
  - destruct Ht as [Hlt Hst']. apply IH; [done|lia].
  - left. by exists r.
  - right. split; [|done]. apply Exists_exists. exists i. split; [|done].
    by eapply list_elem_of_lookup_2.
Qed.
End Safety.

(** What an accepted program satisfies. *)
Lemma validate_loop_true maxbuf f len i n p :
  bpf_validate_loop maxbuf f len i n = Ret true → 0 ≤ i →
  ∀ j, i ≤ j < i + Z.of_nat n → f !! Z.to_nat j = Some p →
  bpf_validate_insn maxbuf j len p = true.
Proof.
  revert i. induction n as [|n IH]; intros i; cbn [bpf_validate_loop]; [lia|].
  intros (q & Hq & Hv)%bind_Ret Hi j Hj Hp. apply load_Ret in Hq as [_ Hq].
  destruct (bpf_validate_insn maxbuf i len q) eqn:E; [|done].
  destruct (decide (j = i)) as [->|]; [congruence|]. apply (IH (i + 1)); [done|lia..|done].
Qed.

Lemma validate_true maxbuf f :
  bpf_validate maxbuf f (Z.of_nat (length f)) = Ret true →
  1 ≤ Z.of_nat (length f) ≤ BPF_MAXINSNS ∧
  (∀ i p, f !! Z.to_nat i = Some p → 0 ≤ i →
     bpf_validate_insn maxbuf i (Z.of_nat (length f)) p = true) ∧
  (∀ p, f !! (length f - 1)%nat = Some p → BPF_CLASS (i_code p) = BPF_RET).
Proof.
  unfold bpf_validate. set (len := Z.of_nat (length f)).
  destruct (Z.ltb_spec len 1), (Z.ltb_spec BPF_MAXINSNS len); try done. cbn [orb].
  intros ([] & Hloop & Hlast)%bind_Ret; [|done]. apply bind_Ret in Hlast as (q & Hq & Hc).
  split; [lia|]. split.
  - intros i p Hi Hi0. apply lookup_lt_Some in Hi as Hlt.
    eapply validate_loop_true; [exact Hloop|lia|lia|done].
  - intros p Hp. apply load_Ret in Hq as [_ Hq].
    replace (Z.to_nat (len - 1)) with (length f - 1)%nat in Hq by lia.
    assert (p = q) as -> by congruence. injection Hc as Hc. by apply Z.eqb_eq.
Qed.

(** C7: A program that [bpf_validate] accepts is safe on every packet, through
    any load operations that honour [BpfAccess]: [_bpf_filter] terminates
    within as many turns as the program has instructions and returns a
    [u_int]; no load, scratch-memory access, jump or division is undefined.
    The one thing left unchecked is the width of shifts: the run can only stop
    at a shift instruction of the program whose count is not below 32. *)
Theorem bpf_validated_safe {M} (ops : bpf_ops M) (valid : M → Prop) `{!BpfAccess ops valid}
    maxbuf prog pkt wirelen arc4random :
  bpf_validate maxbuf prog (Z.of_nat (length prog)) = Ret true →
  Forall insn_ok prog → valid pkt → is_u32 wirelen → (∀ n, is_u32 (arc4random n)) →
  (∃ r, _bpf_filter (Some prog) ops pkt wirelen arc4random = Ret r ∧ is_u32 r) ∨
  (Exists unchecked_shift prog ∧
   _bpf_filter (Some prog) ops pkt wirelen arc4random = Fault ShiftTooWide).
Proof.
  intros (Hlen & Hins & Hret)%validate_true Hok Hpkt Hwire Hrnd.
  apply (loop_safe ops valid); try done.
  - intros i p Hp Hi. pose proof (lookup_lt_Some _ _ _ Hp).
    apply (validate_op_valid maxbuf); [lia|lia| |auto]. by eapply Forall_lookup_1.
  - intros p Hp. by apply ret_op_returns, Hret.
  - split; [cbn; lia|]. done.
  - cbn. lia.
Qed.

(** ** The packet accessors *)

(** The number an [n]-byte field holds in network byte order. *)
Definition be_value (d : list Z) : Z := fold_left (λ v b, 256 * v + b) d 0.

Lemma be_value_bound d :
  Forall is_u8 d → 0 ≤ be_value d < 256 ^ Z.of_nat (length d).
Proof.
  intros Hd. unfold be_value.
  assert (∀ v, 0 ≤ v → v * 256 ^ Z.of_nat (length d) ≤ fold_left (λ v b, 256 * v + b) d v <
    (v + 1) * 256 ^ Z.of_nat (length d)) as Hf; [|specialize (Hf 0); lia].
  induction Hd as [|b d Hb Hd IH]; intros v Hv; cbn [fold_left length]; [lia|].
  rewrite Nat2Z.inj_succ, Z.pow_succ_r by lia. unfold is_u8 in Hb.
  specialize (IH (256 * v + b) ltac:(lia)). nia.
Qed.

Lemma ntohl_be b0 b1 b2 b3 :
  is_u8 b0 → is_u8 b1 → is_u8 b2 → is_u8 b3 →
  ntohl (le_value [b0; b1; b2; b3]) = be_value [b0; b1; b2; b3].
Proof.
  intros H0 H1 H2 H3. unfold ntohl. set (v := le_value _).
  change 65280 with (Z.shiftl 255 8). change 16711680 with (Z.shiftl 255 16).
  change 4278190080 with (Z.shiftl 255 24). rewrite !land_field, land_255 by lia.
  assert (u8 v = b0) as ->. { subst v. cbn [le_value]. wrap_lia. }
  assert (∀ k, 0 ≤ k → Z.shiftr v k = v / 2 ^ k) as Hs by (intros; by apply Z.shiftr_div_pow2).
  assert (u8 (Z.shiftr v 8) = b1) as ->.
  { rewrite Hs by lia. change (2 ^ 8) with 256. subst v. cbn [le_value]. wrap_lia. }
  assert (u8 (Z.shiftr v 16) = b2) as ->.
  { rewrite Hs by lia. change (2 ^ 16) with 65536. subst v. cbn [le_value]. wrap_lia. }
  assert (u8 (Z.shiftr v 24) = b3) as ->.
  { rewrite Hs by lia. change (2 ^ 24) with 16777216. subst v. cbn [le_value]. wrap_lia. }
  rewrite Z.shiftl_shiftl, !Z.shiftr_shiftl_l by lia. rewrite <-Z.lor_assoc.
  change (8 + 8) with 16. change (16 - 8) with 8. change (24 - 24) with 0.
  rewrite Z.shiftl_0_r. unfold is_u8 in *.
  rewrite (lor_shiftl_add b3 b2 8), (lor_shiftl_add _ b1 16), (lor_shiftl_add _ b0 24) by lia.
  unfold be_value. cbn [fold_left]. lia.
Qed.

Lemma ntohs_be b0 b1 :
  is_u8 b0 → is_u8 b1 → ntohs (le_value [b0; b1]) = be_value [b0; b1].
Proof.
  intros H0 H1. unfold ntohs. set (v := le_value _).
  change 65280 with (Z.shiftl 255 8). rewrite land_field, land_255 by lia.
  assert (u8 v = b0) as ->. { subst v. cbn [le_value]. wrap_lia. }
  assert (u8 (Z.shiftr v 8) = b1) as ->.
  { rewrite Z.shiftr_div_pow2 by done. change (2 ^ 8) with 256. subst v. cbn [le_value]. wrap_lia. }
  rewrite Z.shiftr_shiftl_l by lia. change (8 - 8) with 0. rewrite Z.shiftl_0_r.
  unfold is_u8 in *. rewrite (lor_shiftl_add b1 b0 8) by lia.
  unfold be_value. cbn [fold_left]. lia.
Qed.

Definition width_bytes (w : bpf_width) : Z := match w with W => 4 | H => 2 | B => 1 end.

(** [bm_len] bytes of the packet are in memory. *)
Definition bpf_mem_valid (bm : bpf_mem) : Prop :=
  0 ≤ bm_len bm ≤ Z.of_nat (length (bm_pkt bm)) ∧ Forall is_u8 (bm_pkt bm).

Lemma mem_ld_field w bm k :
  bpf_mem_valid bm → 0 ≤ k →
  ld bpf_mem_ops w bm k =
    Ret (if k + width_bytes w <=? bm_len bm
         then (be_value (zth (bm_pkt bm) <$> seqZ k (width_bytes w)), 0) else (0, 1)).
Proof.
  intros [Hlen Hpkt] Hk.
  assert (∀ i, is_u8 (zth (bm_pkt bm) i)) as Hu by (intros i; by apply (zth_Forall is_u8)).
  destruct w; cbn [ld bpf_mem_ops ldw ldh ldb width_bytes].
  - unfold bpf_mem_ldw. destruct (Z.leb_spec (k + 4) (bm_len bm)), (Z.ltb_spec (bm_len bm) (k + 4));
      try lia; [|done].
    rewrite mem_read_spec by lia. rewrite bind_Ret_l. do 2 f_equal. by apply ntohl_be.
  - unfold bpf_mem_ldh. destruct (Z.leb_spec (k + 2) (bm_len bm)), (Z.ltb_spec (bm_len bm) (k + 2));
      try lia; [|done].
    rewrite mem_read_spec by lia. rewrite bind_Ret_l. do 2 f_equal. by apply ntohs_be.
  - unfold bpf_mem_ldb. destruct (Z.leb_spec (k + 1) (bm_len bm)), (Z.leb_spec (bm_len bm) k);
      try lia; [|done].
    rewrite load_zth by lia. done.
Qed.

(** The memory accessors [bpf_mem_ldw], [bpf_mem_ldh] and [bpf_mem_ldb] read
    the field at offset [k] in network byte order when it lies within the
    buffer, and otherwise set [*err] without touching memory, for every 32-bit
    offset. *)
Theorem bpf_mem_ld_spec w bm k :
  bpf_mem_valid bm → 0 ≤ k →
  ld bpf_mem_ops w bm k =
    Ret (if k + width_bytes w <=? bm_len bm
         then (be_value (zth (bm_pkt bm) <$> seqZ k (width_bytes w)), 0) else (0, 1)).
Proof. apply mem_ld_field. Qed.

#[export] Instance bpf_mem_access : BpfAccess bpf_mem_ops bpf_mem_valid.
Proof.
  constructor. intros w bm k Hv Hk. rewrite mem_ld_field by (done || destruct Hk; done).
  assert (∀ i, is_u8 (zth (bm_pkt bm) i)) as Hu by (intros i; apply (zth_Forall is_u8); [done|apply Hv]).
  case_match; eexists _, _; (split; [done|]); [|done].
  pose proof (be_value_bound (zth (bm_pkt bm) <$> seqZ k (width_bytes w))) as Hb.
  rewrite length_fmap, length_seqZ in Hb. unfold is_u32.
  specialize (Hb ltac:(by apply Forall_fmap, Forall_true)).
  assert (256 ^ Z.of_nat (Z.to_nat (width_bytes w)) ≤ 256 ^ 4)
    by (apply Z.pow_le_mono_r; [lia|destruct w; cbn; lia]).
  change (256 ^ 4) with M32 in *. lia.
Qed.

(** The safety theorem at a concrete program, packet and random source. *)
Lemma bpf_validated_safe_witness :
  bpf_validate BPF_MAXBUFSIZE ip_filter 4 = Ret true ∧
  bpf_mem_valid (BpfMem [8; 0; 69] 3) ∧
  ((∃ r, _bpf_filter (Some ip_filter) bpf_mem_ops (BpfMem [8; 0; 69] 3) 60 (λ _, 7) = Ret r ∧ is_u32 r) ∨
   (Exists unchecked_shift ip_filter ∧
    _bpf_filter (Some ip_filter) bpf_mem_ops (BpfMem [8; 0; 69] 3) 60 (λ _, 7) = Fault ShiftTooWide)).
Proof.
  assert (bpf_mem_valid (BpfMem [8; 0; 69] 3)) as Hv.
  { split; [cbn; lia|]. repeat constructor; lia. }
  split; [reflexivity|]. split; [exact Hv|].
  apply (bpf_validated_safe bpf_mem_ops bpf_mem_valid BPF_MAXBUFSIZE); try done.
  by repeat constructor.
Defined.

Lemma bpf_mem_ld_spec_witness :
  ld bpf_mem_ops W (BpfMem [1; 2; 3; 4; 5] 5) 1 = Ret (0x02030405, 0) ∧
  ld bpf_mem_ops W (BpfMem [1; 2; 3; 4; 5] 5) 2 = Ret (0, 1).
Proof.
  assert (bpf_mem_valid (BpfMem [1; 2; 3; 4; 5] 5)) as Hv.
  { split; [cbn; lia|]. repeat constructor; lia. }
  split; rewrite bpf_mem_ld_spec by (done || lia); reflexivity.
Defined.

(** [lsh #32; ret A] *)
Definition shift_filter : list bpf_insn :=
  [ Insn (BPF_ALU |' BPF_LSH |' BPF_K) 0 0 32; Insn (BPF_RET |' BPF_A) 0 0 0 ].

(** The validator does not check the count of a constant shift: the program
    [lsh #32; ret A] is accepted, and on every packet its first instruction
    shifts a 32-bit word by 32, which C leaves undefined. *)
Theorem validate_accepts_wide_shift :
  bpf_validate BPF_MAXBUFSIZE shift_filter 2 = Ret true ∧
  ∀ pkt wirelen buflen arc4random,
    bpf_filter (Some shift_filter) pkt wirelen buflen arc4random = Fault ShiftTooWide.
Proof. split; [reflexivity|]. intros. reflexivity. Qed.
