(* ===== verification/Clock.v ===== *)
(** Calendar dates and seconds: sys/kern/clock_subr.c, [struct clock_ymdhms] of
    sys/sys/time.h. *)

From S2P Require Import Prelude.

(** ** Data *)

Record clock_ymdhms : Type := Ymdhms {
  dt_year : Z;   (* u_short *)
  dt_mon : Z;    (* u_char, 1 .. 12 *)
  dt_day : Z;
  dt_wday : Z;   (* day of the week, 0 is Sunday *)
  dt_hour : Z;
  dt_min : Z;
  dt_sec : Z;
}.

Definition POSIX_BASE_YEAR : Z := 1970.
Definition SECDAY : Z := 86400.
Definition FEBRUARY : Z := 2.

Definition month_days : list Z := [31; 28; 31; 30; 31; 30; 31; 31; 30; 31; 30; 31].

(** [days_in_month] reads [month_days], or the copy [mthdays] of it. *)
Definition days_in_month (table : list Z) (a : Z) : outcome Z := load table (a - 1).

Definition leapyear (year : Z) : bool :=
  if Z.land year 3 =? 0 then
    if Z.rem year 100 =? 0 then Z.rem year 400 =? 0 else true
  else false.

Definition days_in_year (a : Z) : Z := if leapyear a then 366 else 365.

(** ** The conversions *)

(** [for (; n > 0; i++) days += len(i)] *)
Fixpoint add_days (len : Z → outcome Z) (n : nat) (i days : Z) : outcome Z :=
  match n with
  | O => Ret days
  | S n => l ← len i; days ← int_ (days + l); add_days len n (i + 1) days
  end.

(** [for (; days >= len(i); i++) days -= len(i)] *)
Fixpoint subtract_days (len : Z → outcome Z) (fuel : nat) (i days : Z) : outcome (Z * Z) :=
  match fuel with
  | O => Fault OutOfFuel
  | S fuel =>
      l ← len i;
      if l <=? days then subtract_days len fuel (i + 1) (days - l) else Ret (i, days)
  end.

Definition clock_ymdhms_to_secs (dt : clock_ymdhms) : outcome Z :=
  let year := dt_year dt in
  days ← add_days (λ i, Ret (days_in_year i)) (Z.to_nat (year - POSIX_BASE_YEAR))
           POSIX_BASE_YEAR 0;
  days ← int_ (if leapyear year && (FEBRUARY <? dt_mon dt) then days + 1 else days);
  days ← add_days (days_in_month month_days) (Z.to_nat (dt_mon dt - 1)) 1 days;
  days ← int_ (days + (dt_day dt - 1));
  h ← int_ (days * 24);
  h ← int_ (h + dt_hour dt);
  m ← int_ (h * 60);
  m ← int_ (m + dt_min dt);
  Ret (m * 60 + dt_sec dt).

(** Each turn of the first loop takes 365 days or more, each of the second 28. *)
Definition clock_secs_to_ymdhms (secs : Z) : outcome clock_ymdhms :=
  let days := i32 (Z.quot secs SECDAY) in
  let rsec := i32 (Z.rem secs SECDAY) in
  let wday := u8 (Z.rem (days + 4) 7) in
  '(y, days) ← subtract_days (λ i, Ret (days_in_year i)) (S (Z.to_nat (days / 365)))
                 POSIX_BASE_YEAR days;
  mthdays ← (if leapyear y then store month_days (FEBRUARY - 1) 29 else Ret month_days);
  '(m, days) ← subtract_days (days_in_month mthdays) (S (Z.to_nat (days / 28))) 1 days;
  Ret (Ymdhms (y mod 65536) (u8 m) (u8 (days + 1)) wday (u8 (Z.quot rsec 3600))
         (u8 (Z.quot (Z.rem rsec 3600) 60)) (u8 (Z.rem (Z.rem rsec 3600) 60))).

Example clock_runs :
  clock_secs_to_ymdhms 951782400 = Ret (Ymdhms 2000 2 29 2 0 0 0) ∧
  clock_ymdhms_to_secs (Ymdhms 2000 2 29 0 0 0 0) = Ret 951782400.
Proof. split; vm_compute; reflexivity. Qed.

(** ** Leap years *)

(** [leapyear], which avoids divisions, is the Gregorian rule on every year. *)
Theorem leapyear_gregorian year :
  0 ≤ year →
  leapyear year =
    bool_decide ((year mod 4 = 0 ∧ year mod 100 ≠ 0) ∨ year mod 400 = 0).
Proof.
  intros Hy. unfold leapyear. change 3 with (Z.ones 2). rewrite Z.land_ones by lia.
  rewrite !Z.rem_mod_nonneg by lia. change (2 ^ 2) with 4.
  destruct (Z.eqb_spec (year mod 4) 0), (Z.eqb_spec (year mod 100) 0), (Z.eqb_spec (year mod 400) 0);
    case_bool_decide; try done; zmod.
Qed.

Lemma leapyear_gregorian_witness :
  leapyear 1900 = bool_decide ((1900 mod 4 = 0 ∧ 1900 mod 100 ≠ 0) ∨ 1900 mod 400 = 0).
Proof. apply (leapyear_gregorian 1900). lia. Defined.

(** ** The calendar *)

(** The days of month [m] of year [y]. *)
Definition dim (y m : Z) : Z :=
  if (m =? 2) && leapyear y then 29 else zth month_days (m - 1).

(** [len i + ... + len (i + n - 1)] *)
Fixpoint total (len : Z → Z) (n : nat) (i : Z) : Z :=
  match n with O => 0 | S n => len i + total len n (i + 1) end.

Definition valid_date (dt : clock_ymdhms) : Prop :=
  1970 ≤ dt_year dt ≤ 6040 ∧ 1 ≤ dt_mon dt ≤ 12 ∧ 1 ≤ dt_day dt ≤ dim (dt_year dt) (dt_mon dt) ∧
  0 ≤ dt_hour dt < 24 ∧ 0 ≤ dt_min dt < 60 ∧ 0 ≤ dt_sec dt < 60.

(** Days from 1970-01-01 to the date, and its seconds. *)
Definition date_days (dt : clock_ymdhms) : Z :=
  total days_in_year (Z.to_nat (dt_year dt - 1970)) 1970 +
  total (dim (dt_year dt)) (Z.to_nat (dt_mon dt - 1)) 1 + (dt_day dt - 1).
Definition date_secs (dt : clock_ymdhms) : Z :=
  date_days dt * 86400 + dt_hour dt * 3600 + dt_min dt * 60 + dt_sec dt.

Lemma days_in_year_range y : 365 ≤ days_in_year y ≤ 366.
Proof. unfold days_in_year. case_match; lia. Qed.

(** The months, by inspection. *)
Lemma month_cases (P : Z → Prop) :
  P 1 → P 2 → P 3 → P 4 → P 5 → P 6 → P 7 → P 8 → P 9 → P 10 → P 11 → P 12 →
  ∀ m, 1 ≤ m ≤ 12 → P m.
Proof.
  intros. assert (m = 1 ∨ m = 2 ∨ m = 3 ∨ m = 4 ∨ m = 5 ∨ m = 6 ∨ m = 7 ∨ m = 8 ∨ m = 9 ∨ m = 10 ∨
    m = 11 ∨ m = 12) as Hm by lia.
  repeat destruct Hm as [->|Hm]; try done. by subst.
Qed.

Lemma dim_range y m : 1 ≤ m ≤ 12 → 28 ≤ dim y m ≤ 31.
Proof.
  revert m. apply month_cases; unfold dim; cbn; try (vm_compute; split; discriminate).
  destruct (leapyear y); vm_compute; split; discriminate.
Qed.

Lemma dim_total y : total (dim y) 12 1 = days_in_year y.
Proof. unfold dim, days_in_year. cbn. destruct (leapyear y); reflexivity. Qed.

Lemma total_range a b len n i :
  (∀ j, i ≤ j < i + Z.of_nat n → a ≤ len j ≤ b) →
  a * Z.of_nat n ≤ total len n i ≤ b * Z.of_nat n.
Proof.
  revert i. induction n as [|n IH]; intros i Hlen; cbn [total]; [lia|].
  pose proof (Hlen i ltac:(lia)). pose proof (IH (i + 1) ltac:(intros; apply Hlen; lia)). lia.
Qed.

Lemma total_nonneg len n i :
  (∀ j, i ≤ j < i + Z.of_nat n → 0 ≤ len j) → 0 ≤ total len n i.
Proof.
  revert i. induction n as [|n IH]; intros i Hlen; cbn [total]; [lia|].
  pose proof (Hlen i ltac:(lia)). pose proof (IH (i + 1) ltac:(intros; apply Hlen; lia)). lia.
Qed.

Lemma total_snoc len n i : total len (S n) i = total len n i + len (i + Z.of_nat n).
Proof.
  revert i. induction n as [|n IH]; intros i; [cbn; rewrite !Z.add_0_r; lia|].
  change (total len (S (S n)) i) with (len i + total len (S n) (i + 1)). rewrite IH. cbn [total].
  replace (i + 1 + Z.of_nat n) with (i + Z.of_nat (S n)) by lia. lia.
Qed.

Lemma add_days_spec f len n i d :
  (∀ j, i ≤ j < i + Z.of_nat n → f j = Ret (len j) ∧ 0 ≤ len j) → 0 ≤ d →
  d + total len n i < 2147483648 → add_days f n i d = Ret (d + total len n i).
Proof.
  revert i d. induction n as [|n IH]; intros i d Hf Hd Ht; cbn [add_days total] in *; [f_equal; lia|].
  destruct (Hf i ltac:(lia)) as [-> Hl]. rewrite bind_Ret_l.
  assert (0 ≤ total len n (i + 1)).
  { apply total_nonneg. intros j Hj. apply Hf. lia. }
  rewrite int_Ret by (unfold is_i32; lia). rewrite bind_Ret_l, IH; [f_equal; lia|..]; try lia.
  intros j Hj. apply Hf. lia.
Qed.

Lemma subtract_days_spec f len n i rem fuel :
  (∀ j, i ≤ j ≤ i + Z.of_nat n → f j = Ret (len j) ∧ 0 < len j) →
  0 ≤ rem < len (i + Z.of_nat n) → (n < fuel)%nat →
  subtract_days f fuel i (total len n i + rem) = Ret (i + Z.of_nat n, rem).
Proof.
  revert i fuel. induction n as [|n IH]; intros i [|fuel] Hf Hr Hn; try lia; cbn [subtract_days total].
  - destruct (Hf i ltac:(lia)) as [-> _]. rewrite bind_Ret_l, Z.add_0_r in *.
    destruct (Z.leb_spec (len i) (0 + rem)); [lia|]. do 2 f_equal; lia.
  - destruct (Hf i ltac:(lia)) as [-> Hl]. rewrite bind_Ret_l.
    assert (0 ≤ total len n (i + 1)).
    { apply total_nonneg. intros j Hj. pose proof (proj2 (Hf j ltac:(lia))). lia. }
    destruct (Z.leb_spec (len i) (len i + total len n (i + 1) + rem)); [|lia].
    replace (len i + total len n (i + 1) + rem - len i) with (total len n (i + 1) + rem) by lia.
    rewrite IH; [do 2 f_equal; lia|..]; try lia.
    + intros j Hj. apply Hf. lia.
    + by replace (i + 1 + Z.of_nat n) with (i + Z.of_nat (S n)) by lia.
Qed.

(** Every number of days lies in one of the periods. *)
Lemma period_exists len N i days :
  (∀ j, i ≤ j < i + Z.of_nat N → 0 < len j) → 0 ≤ days < total len N i →
  ∃ n rem, (n < N)%nat ∧ days = total len n i + rem ∧ 0 ≤ rem < len (i + Z.of_nat n).
Proof.
  induction N as [|N IH]; intros Hlen Hd; [cbn in Hd; lia|]. rewrite total_snoc in Hd.
  destruct (decide (days < total len N i)).
  - destruct IH as (n & rem & ? & ? & ?); [intros; apply Hlen; lia|lia|]. exists n, rem. split_and!; lia.
  - exists N, (days - total len N i). lia.
Qed.

(** ** Both conversions against the calendar *)

Lemma month_days_load m : 1 ≤ m ≤ 12 → days_in_month month_days m = Ret (zth month_days (m - 1)).
Proof. intros Hm. apply load_zth. cbn. lia. Qed.

(** The copy of the table with 29 days in a leap February. *)
Lemma mthdays_load y :
  ∃ t, (if leapyear y then store month_days (FEBRUARY - 1) 29 else Ret month_days) = Ret t ∧
    ∀ m, 1 ≤ m ≤ 12 → days_in_month t m = Ret (dim y m).
Proof.
  destruct (leapyear y) eqn:Hy; eexists; (split; [reflexivity|]);
    apply month_cases; unfold dim; rewrite Hy; reflexivity.
Qed.

Lemma months_total y m :
  1 ≤ m ≤ 12 →
  total (dim y) (Z.to_nat (m - 1)) 1 =
    total (λ j, zth month_days (j - 1)) (Z.to_nat (m - 1)) 1 +
    (if leapyear y && (FEBRUARY <? m) then 1 else 0).
Proof.
  revert m. apply month_cases; unfold dim; cbn; destruct (leapyear y); reflexivity.
Qed.

Lemma date_days_range dt : valid_date dt → 0 ≤ date_days dt < 1490000.
Proof.
  intros (Hy & Hm & Hd & _). unfold date_days. destruct (dim_range (dt_year dt) _ Hm).
  pose proof (total_range 365 366 days_in_year (Z.to_nat (dt_year dt - 1970)) 1970
    ltac:(intros; apply days_in_year_range)).
  pose proof (total_range 28 31 (dim (dt_year dt)) (Z.to_nat (dt_mon dt - 1)) 1
    ltac:(intros; apply dim_range; lia)). lia.
Qed.

Lemma to_secs_spec dt : valid_date dt → clock_ymdhms_to_secs dt = Ret (date_secs dt).
Proof.
  intros Hv. pose proof (date_days_range dt Hv) as Hdays.
  destruct Hv as (Hy & Hm & Hd & Hh & Hmi & Hs). destruct (dim_range (dt_year dt) _ Hm).
  unfold clock_ymdhms_to_secs, POSIX_BASE_YEAR, date_secs.
  pose proof (total_range 365 366 days_in_year (Z.to_nat (dt_year dt - 1970)) 1970
    ltac:(intros; apply days_in_year_range)) as Ht1.
  pose proof (months_total (dt_year dt) (dt_mon dt) Hm) as Hmt.
  assert (0 ≤ total (λ j, zth month_days (j - 1)) (Z.to_nat (dt_mon dt - 1)) 1) as Ht2.
  { apply total_nonneg. intros j Hj. apply (zth_Forall (λ x, 0 ≤ x)); [done|]. repeat constructor; lia. }
  unfold date_days in *.
  rewrite (add_days_spec _ days_in_year); [|intros j _; pose proof (days_in_year_range j); split; [done|lia]|lia..].
  rewrite bind_Ret_l.
  set (leap := leapyear (dt_year dt) && (FEBRUARY <? dt_mon dt)) in *.
  rewrite int_Ret by (unfold is_i32; destruct leap; lia). rewrite bind_Ret_l.
  rewrite (add_days_spec _ (λ j, zth month_days (j - 1))); [|..].
  - rewrite bind_Ret_l.
    set (D := _ + _ + (dt_day dt - 1)) in *.
    replace (_ + _ + (dt_day dt - 1)) with D by (subst D; destruct leap; lia).
    repeat (rewrite int_Ret by (unfold is_i32; lia); rewrite bind_Ret_l). f_equal. lia.
  - intros j Hj. split; [apply month_days_load; lia|].
    apply (zth_Forall (λ x, 0 ≤ x)); [done|]. repeat constructor; lia.
  - destruct leap; lia.
  - destruct leap; lia.
Qed.

Lemma total_app len n m i :
  total len (n + m) i = total len n i + total len m (i + Z.of_nat n).
Proof.
  induction m as [|m IH]; [rewrite Nat.add_0_r; cbn; lia|].
  rewrite Nat.add_succ_r, !total_snoc, IH.
  replace (i + Z.of_nat n + Z.of_nat m) with (i + Z.of_nat (n + m)) by lia. lia.
Qed.

(** The day within the year, and within the month. *)
Lemma date_days_split dt :
  1 ≤ dt_mon dt ≤ 12 → 1 ≤ dt_day dt ≤ dim (dt_year dt) (dt_mon dt) →
  let mdays := total (dim (dt_year dt)) (Z.to_nat (dt_mon dt - 1)) 1 + (dt_day dt - 1) in
  date_days dt = total days_in_year (Z.to_nat (dt_year dt - 1970)) 1970 + mdays ∧
  0 ≤ mdays < days_in_year (dt_year dt) ∧ (Z.to_nat (dt_mon dt - 1) < S (Z.to_nat (mdays / 28)))%nat.
Proof.
  intros Hm Hd. cbv zeta. set (y := dt_year dt) in *. set (m := dt_mon dt) in *.
  pose proof (total_range 28 31 (dim y) (Z.to_nat (m - 1)) 1 ltac:(intros; apply dim_range; lia)).
  split; [unfold date_days; fold y m; lia|]. split.
  - split; [lia|]. rewrite <-dim_total.
    replace 12%nat with (Z.to_nat (m - 1) + S (Z.to_nat (12 - m)))%nat by lia.
    rewrite total_app. cbn [total].
    replace (1 + Z.of_nat (Z.to_nat (m - 1))) with m by lia.
    pose proof (total_nonneg (dim y) (Z.to_nat (12 - m)) (m + 1)
      ltac:(intros j Hj; destruct (dim_range y j ltac:(lia)); lia)). lia.
  - assert (m - 1 ≤ (total (dim y) (Z.to_nat (m - 1)) 1 + (dt_day dt - 1)) / 28); [|lia].
    apply Z.div_le_lower_bound; lia.
Qed.

(** Hours, minutes and seconds of the rest of the day. *)
Lemma hms_spec h m s :
  0 ≤ h < 24 → 0 ≤ m < 60 → 0 ≤ s < 60 →
  let r := h * 3600 + m * 60 + s in
  Z.quot r 3600 = h ∧ Z.quot (Z.rem r 3600) 60 = m ∧ Z.rem (Z.rem r 3600) 60 = s.
Proof.
  intros Hh Hm Hs. cbv zeta.
  assert (Z.rem (h * 3600 + m * 60 + s) 3600 = m * 60 + s) as ->.
  { rewrite Z.rem_mod_nonneg by lia. zmod. }
  rewrite !Z.quot_div_nonneg, Z.rem_mod_nonneg by lia. split_and!; zmod.
Qed.

Lemma from_secs_spec dt :
  valid_date dt → dt_wday dt = (date_days dt + 4) mod 7 →
  clock_secs_to_ymdhms (date_secs dt) = Ret dt.
Proof.
  intros Hv Hw. pose proof (date_days_range dt Hv) as Hdays.
  destruct Hv as (Hy & Hm & Hd & Hh & Hmi & Hs). destruct (dim_range (dt_year dt) _ Hm).
  unfold clock_secs_to_ymdhms, SECDAY.
  assert (Z.quot (date_secs dt) 86400 = date_days dt) as ->.
  { rewrite Z.quot_div_nonneg by (unfold date_secs; lia). unfold date_secs. zmod. }
  assert (Z.rem (date_secs dt) 86400 = dt_hour dt * 3600 + dt_min dt * 60 + dt_sec dt) as ->.
  { rewrite Z.rem_mod_nonneg by (unfold date_secs; lia). unfold date_secs. zmod. }
  rewrite !i32_small by (unfold is_i32; lia). cbv zeta.
  assert (u8 (Z.rem (date_days dt + 4) 7) = dt_wday dt) as ->.
  { rewrite Z.rem_mod_nonneg, <-Hw by lia. apply u8_small. rewrite Hw. unfold is_u8. zmod. }
  set (fuel1 := S (Z.to_nat (date_days dt / 365))).
  assert (Z.to_nat (dt_year dt - 1970) < fuel1)%nat as Hfuel1.
  { pose proof (total_range 365 366 days_in_year (Z.to_nat (dt_year dt - 1970)) 1970
      ltac:(intros; apply days_in_year_range)).
    pose proof (total_nonneg (dim (dt_year dt)) (Z.to_nat (dt_mon dt - 1)) 1
      ltac:(intros j Hj; destruct (dim_range (dt_year dt) j ltac:(lia)); lia)).
    assert (dt_year dt - 1970 ≤ date_days dt / 365); [|lia].
    apply Z.div_le_lower_bound; [lia|]. unfold date_days. lia. }
  destruct (date_days_split dt Hm Hd) as (Hsplit & Hmd & Hmonth). rewrite Hsplit.
  rewrite (subtract_days_spec _ days_in_year); [|..].
  - rewrite bind_Ret_l.
    replace (1970 + Z.of_nat (Z.to_nat (dt_year dt - 1970))) with (dt_year dt) by lia.
    destruct (mthdays_load (dt_year dt)) as (t & -> & Ht). rewrite bind_Ret_l.
    rewrite (subtract_days_spec _ (dim (dt_year dt))); [|..].
    + rewrite bind_Ret_l. replace (1 + Z.of_nat (Z.to_nat (dt_mon dt - 1))) with (dt_mon dt) by lia.
      destruct (hms_spec (dt_hour dt) (dt_min dt) (dt_sec dt)) as (-> & -> & ->); try done.
      rewrite (Z.mod_small (dt_year dt)), !u8_small by (unfold is_u8; lia).
      replace (dt_day dt - 1 + 1) with (dt_day dt) by lia. by destruct dt.
    + intros j Hj. split; [apply Ht; lia|]. destruct (dim_range (dt_year dt) j ltac:(lia)). lia.
    + replace (1 + Z.of_nat (Z.to_nat (dt_mon dt - 1))) with (dt_mon dt) by lia. lia.
    + done.
  - intros j _. pose proof (days_in_year_range j). split; [done|lia].
  - by replace (1970 + Z.of_nat (Z.to_nat (dt_year dt - 1970))) with (dt_year dt) by lia.
  - done.
Qed.

(** Every number of seconds is the value of a valid date. *)
Lemma date_exists secs :
  0 ≤ secs < 86400 * 365 * 4070 →
  ∃ dt, valid_date dt ∧ dt_wday dt = (date_days dt + 4) mod 7 ∧ date_secs dt = secs.
Proof.
  intros Hs. set (days := secs / 86400).
  destruct (period_exists days_in_year 4070 1970 days) as (n & rem & Hn & Hdays & Hrem).
  { intros j _. pose proof (days_in_year_range j). lia. }
  { pose proof (total_range 365 366 days_in_year 4070 1970 ltac:(intros; apply days_in_year_range)).
    subst days. split; [zmod|]. apply Z.div_lt_upper_bound; lia. }
  set (y := 1970 + Z.of_nat n) in *.
  destruct (period_exists (dim y) 12 1 rem) as (k & d & Hk & Hrem' & Hd).
  { intros j Hj. destruct (dim_range y j ltac:(lia)). lia. }
  { by rewrite dim_total. }
  set (r := secs mod 86400).
  exists (Ymdhms y (1 + Z.of_nat k) (d + 1) ((days + 4) mod 7) (r / 3600) (r mod 3600 / 60) (r mod 60)).
  assert (date_days (Ymdhms y (1 + Z.of_nat k) (d + 1) ((days + 4) mod 7) (r / 3600) (r mod 3600 / 60)
    (r mod 60)) = days) as Hdd.
  { unfold date_days. cbn [dt_year dt_mon dt_day]. replace (Z.to_nat (y - 1970)) with n by lia.
    replace (Z.to_nat (1 + Z.of_nat k - 1)) with k by lia. lia. }
  split; [|split; [by rewrite Hdd|]].
  - unfold valid_date. cbn. subst y r. split_and!; try lia; zmod.
  - unfold date_secs. rewrite Hdd. cbn. subst days r. zmod.
Qed.

(** C38: Seconds to date and back: for every time from 1970 on for 4070 years of
    365 days, [clock_secs_to_ymdhms] terminates with a valid date, of the right
    day of the week, that [clock_ymdhms_to_secs] takes back to the same number,
    without overflow. *)
Theorem clock_secs_roundtrip secs :
  0 ≤ secs < 86400 * 365 * 4070 →
  ∃ dt, clock_secs_to_ymdhms secs = Ret dt ∧ valid_date dt ∧
    dt_wday dt = (secs / 86400 + 4) mod 7 ∧ clock_ymdhms_to_secs dt = Ret secs.
Proof.
  intros Hs. destruct (date_exists secs Hs) as (dt & Hv & Hw & Hsecs). exists dt.
  rewrite <-Hsecs at 1 3. rewrite from_secs_spec, to_secs_spec by done. split_and!; try done.
  rewrite Hw. do 2 f_equal. rewrite <-Hsecs. destruct Hv as (_ & _ & _ & ? & ? & ?).
  unfold date_secs. zmod.
Qed.

(** Date to seconds and back: every valid date from 1970 to 6040 is given its
    number of seconds, counted by the calendar, and is recovered from it up to
    the day of the week, which is computed. *)
Theorem clock_date_roundtrip dt :
  valid_date dt →
  clock_ymdhms_to_secs dt = Ret (date_secs dt) ∧
  clock_secs_to_ymdhms (date_secs dt) =
    Ret (Ymdhms (dt_year dt) (dt_mon dt) (dt_day dt) ((date_days dt + 4) mod 7)
           (dt_hour dt) (dt_min dt) (dt_sec dt)).
Proof.
  intros Hv. split; [by apply to_secs_spec|].
  set (dt' := Ymdhms _ _ _ _ _ _ _). change (date_secs dt) with (date_secs dt').
  by apply (from_secs_spec dt').
Qed.

Lemma clock_secs_roundtrip_witness :
  ∃ dt, clock_secs_to_ymdhms 1700000000 = Ret dt ∧ valid_date dt ∧
    dt_wday dt = (1700000000 / 86400 + 4) mod 7 ∧ clock_ymdhms_to_secs dt = Ret 1700000000.
Proof. apply (clock_secs_roundtrip 1700000000). lia. Defined.

Lemma clock_date_roundtrip_witness :
  let dt := Ymdhms 2024 2 29 0 23 59 58 in
  valid_date dt ∧ clock_ymdhms_to_secs dt = Ret (date_secs dt).
Proof.
  assert (valid_date (Ymdhms 2024 2 29 0 23 59 58)) as Hv.
  { unfold valid_date. cbn [dt_year dt_mon dt_day dt_hour dt_min dt_sec].
    change (dim 2024 2) with 29. lia. }
  split; [exact Hv|]. exact (proj1 (clock_date_roundtrip _ Hv)).
Defined.
