(* ===== verification/Rwlock.v ===== *)
(** Reader/writer locks: sys/kern/kern_rwlock.c and sys/sys/rwlock.h.  Any number
    of threads run the lock operations interleaved at their atomic accesses:
    a thread's program counter stands between two accesses to the shared
    [struct rwlock] or to the sleep queue. *)

From stdpp Require Import relations.
From S2P Require Import Prelude.

(** ** Constants *)

Definition RWLOCK_WRLOCK : Z := 0x04.
Definition RWLOCK_MASK : Z := 0x07.
Definition RWLOCK_READ_INCR : Z := 8.
Definition RW_WRITE : Z := 0x0001.
Definition RW_READ : Z := 0x0002.
Definition RW_DOWNGRADE : Z := 0x0004.
Definition RW_UPGRADE : Z := 0x0005.
Definition RW_OPMASK : Z := 0x0007.
Definition RW_INTR : Z := 0x0010.
Definition RW_NOSLEEP : Z := 0x0040.
Definition RW_WRITE_OTHER : Z := 0x0100.
Definition RW_SPINS : nat := 1000.
Definition EBUSY : Z := 16.

(** ** State *)

Record rwlock : Type := Rwlock {
  rwl_owner : Z;
  rwl_waiters : Z;
  rwl_readers : Z;
}.

Definition _rw_init_flags : rwlock := Rwlock 0 0 0.

Definition set_owner (l : rwlock) (o : Z) : rwlock := Rwlock o (rwl_waiters l) (rwl_readers l).
Definition set_waiters (l : rwlock) (w : Z) : rwlock := Rwlock (rwl_owner l) w (rwl_readers l).
Definition set_readers (l : rwlock) (r : Z) : rwlock := Rwlock (rwl_owner l) (rwl_waiters l) r.

(** [rw_cas(&rwl->rwl_owner, e, n)]: the old value and the lock after. *)
Definition rw_cas (l : rwlock) (e n : Z) : Z * rwlock :=
  (rwl_owner l, if rwl_owner l =? e then set_owner l n else l).
(** [rw_inc] and [rw_dec] on an [unsigned int]. *)
Definition rw_inc (x : Z) : Z := u32 (x + 1).
Definition rw_dec (x : Z) : Z := u32 (x - 1).

(** The word a writer puts in [rwl_owner], from its [struct proc] pointer. *)
Definition rw_self (curproc : Z) : Z := Z.lor (Z.land curproc (not64 RWLOCK_MASK)) RWLOCK_WRLOCK.

(** What is slept on: [&rwl->rwl_waiters] or [&rwl->rwl_readers]. *)
Inductive wchan : Type := ChWaiters | ChReaders.

(** Program counters of [rw_do_enter_write]; the numbers are the local variables
    that matter later. *)
Inductive ew_pc : Type :=
| EW_cas
| EW_spin (spins : nat)
| EW_spin_cas (spins : nat)
| EW_busy
| EW_setup
| EW_load
| EW_finish (owner : Z)
| EW_asleep
| EW_cas2
| EW_dec
| EW_dec_err (error : Z).

(** ... of [rw_do_enter_read]. *)
Inductive er_pc : Type :=
| ER_cas
| ER_waiters (owner : Z)
| ER_incr (owner : Z)
| ER_busy
| ER_setup
| ER_load_waiters
| ER_load_owner
| ER_finish (do_sleep : bool)
| ER_asleep
| ER_incr2 (owner : Z)
| ER_dec
| ER_dec_err (error : Z).

(** What a thread holds. *)
Inductive hold : Type := Unlocked | ReadLocked | WriteLocked.

(** ... of [rw_exit], [rw_do_exit_read], [rw_exit_write] and [rw_exited];
    [rw_exit] does not know what its caller holds, the statements do. *)
Inductive ex_pc : Type :=
| EX_load (h : hold)
| EX_read (owner : Z)
| EX_write
| EX_waiters
| EX_wake_one
| EX_readers
| EX_wake_all.

(** ... of [rw_downgrade]. *)
Inductive dg_pc : Type :=
| DG_cas
| DG_waiters
| DG_readers
| DG_wake.

Inductive pc : Type :=
| Out (h : hold) (ret : Z)
| EnterWrite (flags : Z) (k : ew_pc)
| EnterRead (flags : Z) (k : er_pc)
| Exit (k : ex_pc)
| Downgrade (k : dg_pc)
| Upgrade
| Panicked (fn : string).

Record thread : Type := Thread {
  t_proc : Z;                (* curproc *)
  t_pc : pc;
  t_wchan : option wchan;    (* p_wchan: on a sleep queue *)
}.

Definition t_self (t : thread) : Z := rw_self (t_proc t).
Definition goto (t : thread) (k : pc) : thread := Thread (t_proc t) k (t_wchan t).
Definition unsleep (t : thread) : thread := Thread (t_proc t) (t_pc t) None.
Definition sleep_setup (t : thread) (c : wchan) : thread := Thread (t_proc t) (t_pc t) (Some c).

(** What a step asks of the other threads. *)
Inductive wake : Type :=
| NoWake
| WakeOne (c : wchan)
| WakeAll (c : wchan).

(** What the environment decides: whether the thread holds the kernel lock, the
    result of the signal check of [sleep_finish], the call made next. *)
Inductive call : Type :=
| call_rw_enter (flags : Z)
| call_rw_exit
| call_rw_exit_read
| call_rw_exit_write.
Inductive choice : Type :=
| Go
| KernelLocked
| Signal (error : Z)
| Call (c : call).

Definition outcome3 : Type := option (rwlock * thread * wake).
Definition continue (l : rwlock) (t : thread) : outcome3 := Some (l, t, NoWake).

(** ** The operations *)

Definition rw_do_enter_write (ch : choice) (l : rwlock) (t : thread) (flags : Z) (k : ew_pc) :
    outcome3 :=
  let self := t_self t in
  let at_ k := goto t (EnterWrite flags k) in
  match k, ch with
  | EW_cas, (Go | KernelLocked) =>
      let '(owner, l) := rw_cas l 0 self in
      continue l
        (if owner =? 0 then goto t (Out WriteLocked 0)
         else if owner =? self then goto t (Panicked "rw_do_enter_write")
         else match ch with KernelLocked => at_ EW_busy | _ => at_ (EW_spin RW_SPINS) end)
  | EW_spin O, Go => continue l (at_ EW_busy)
  | EW_spin (S n), Go =>
      continue l (if negb (rwl_owner l =? 0) then at_ (EW_spin n) else at_ (EW_spin_cas n))
  | EW_spin_cas n, Go =>
      let '(owner, l) := rw_cas l 0 self in
      continue l (if owner =? 0 then goto t (Out WriteLocked 0) else at_ (EW_spin n))
  | EW_busy, Go =>
      if has flags RW_NOSLEEP then continue l (goto t (Out Unlocked EBUSY))
      else continue (set_waiters l (rw_inc (rwl_waiters l))) (at_ EW_setup)
  | EW_setup, Go => continue l (sleep_setup (at_ EW_load) ChWaiters)
  | EW_load, Go => continue l (at_ (EW_finish (rwl_owner l)))
  | EW_finish owner, Go =>
      match t_wchan t with
      | Some _ =>
          if negb (owner =? 0) then continue l (at_ EW_asleep)
          else continue l (unsleep (at_ EW_cas2))
      | None => continue l (at_ EW_cas2)
      end
  | EW_asleep, Go =>
      match t_wchan t with Some _ => None | None => continue l (at_ EW_cas2) end
  | (EW_finish _ | EW_asleep), Signal error =>
      if has flags RW_INTR && negb (error =? 0)
      then continue l (unsleep (at_ (EW_dec_err error))) else None
  | EW_cas2, Go =>
      let '(owner, l) := rw_cas l 0 self in
      continue l (if owner =? 0 then at_ EW_dec else at_ EW_setup)
  | EW_dec, Go => continue (set_waiters l (rw_dec (rwl_waiters l))) (goto t (Out WriteLocked 0))
  | EW_dec_err error, Go =>
      continue (set_waiters l (rw_dec (rwl_waiters l))) (goto t (Out Unlocked error))
  | _, _ => None
  end.

(** One turn of [rw_read_incr]: [inl] the lock with one more reader, [inr] the
    owner seen instead. *)
Definition rw_read_incr (l : rwlock) (owner : Z) : rwlock + Z :=
  let '(nowner, l') := rw_cas l owner (u64 (owner + RWLOCK_READ_INCR)) in
  if nowner =? owner then inl l' else inr nowner.

Definition rw_do_enter_read (ch : choice) (l : rwlock) (t : thread) (flags : Z) (k : er_pc) :
    outcome3 :=
  let at_ k := goto t (EnterRead flags k) in
  match k, ch with
  | ER_cas, Go =>
      let '(owner, l) := rw_cas l 0 RWLOCK_READ_INCR in
      continue l
        (if owner =? 0 then goto t (Out ReadLocked 0)
         else if has owner RWLOCK_WRLOCK then
           if owner =? t_self t then goto t (Panicked "rw_do_enter_read") else at_ ER_busy
         else at_ (ER_waiters owner))
  | ER_waiters owner, Go =>
      continue l (if rwl_waiters l =? 0 then at_ (ER_incr owner) else at_ ER_busy)
  | ER_incr owner, Go =>
      match rw_read_incr l owner with
      | inl l => continue l (goto t (Out ReadLocked 0))
      | inr owner => continue l (if has owner RWLOCK_WRLOCK then at_ ER_busy else at_ (ER_incr owner))
      end
  | ER_busy, Go =>
      if has flags RW_NOSLEEP then continue l (goto t (Out Unlocked EBUSY))
      else continue (set_readers l (rw_inc (rwl_readers l))) (at_ ER_setup)
  | ER_setup, Go => continue l (sleep_setup (at_ ER_load_waiters) ChReaders)
  | ER_load_waiters, Go =>
      continue l (if 0 <? rwl_waiters l then at_ (ER_finish true) else at_ ER_load_owner)
  | ER_load_owner, Go => continue l (at_ (ER_finish (has (rwl_owner l) RWLOCK_WRLOCK)))
  | ER_finish do_sleep, Go =>
      match t_wchan t with
      | Some _ =>
          if do_sleep then continue l (at_ ER_asleep) else continue l (unsleep (at_ (ER_incr2 0)))
      | None => continue l (at_ (ER_incr2 0))
      end
  | ER_asleep, Go =>
      match t_wchan t with Some _ => None | None => continue l (at_ (ER_incr2 0)) end
  | (ER_finish _ | ER_asleep), Signal error =>
      if has flags RW_INTR && negb (error =? 0)
      then continue l (unsleep (at_ (ER_dec_err error))) else None
  | ER_incr2 owner, Go =>
      match rw_read_incr l owner with
      | inl l => continue l (at_ ER_dec)
      | inr owner => continue l (if has owner RWLOCK_WRLOCK then at_ ER_setup else at_ (ER_incr2 owner))
      end
  | ER_dec, Go => continue (set_readers l (rw_dec (rwl_readers l))) (goto t (Out ReadLocked 0))
  | ER_dec_err error, Go =>
      continue (set_readers l (rw_dec (rwl_readers l))) (goto t (Out Unlocked error))
  | _, _ => None
  end.

(** [rw_exit], [rw_do_exit_read], [rw_exit_write], and [rw_exited] which wakes one
    writer or else all readers. *)
Definition rw_exit (ch : choice) (l : rwlock) (t : thread) (k : ex_pc) : outcome3 :=
  let at_ k := goto t (Exit k) in
  let done_ := goto t (Out Unlocked 0) in
  match k, ch with
  | EX_load _, Go =>
      let owner := rwl_owner l in
      continue l
        (if owner =? 0 then goto t (Panicked "rw_exit")
         else if has owner RWLOCK_WRLOCK then at_ EX_write else at_ (EX_read owner))
  | EX_read owner, Go =>
      let decr := u64 (owner - RWLOCK_READ_INCR) in
      let '(nowner, l) := rw_cas l owner decr in
      continue l
        (if owner =? nowner then if decr =? 0 then at_ EX_waiters else done_
         else if has nowner RWLOCK_WRLOCK then goto t (Panicked "rw_do_exit_read")
         else if nowner =? 0 then goto t (Panicked "rw_do_exit_read")
         else at_ (EX_read nowner))
  | EX_write, Go =>
      let '(owner, l) := rw_cas l (t_self t) 0 in
      continue l
        (if negb (owner =? t_self t) then goto t (Panicked "rw_exit_write") else at_ EX_waiters)
  | EX_waiters, Go => continue l (if 0 <? rwl_waiters l then at_ EX_wake_one else at_ EX_readers)
  | EX_wake_one, Go => Some (l, done_, WakeOne ChWaiters)
  | EX_readers, Go => continue l (if 0 <? rwl_readers l then at_ EX_wake_all else done_)
  | EX_wake_all, Go => Some (l, done_, WakeAll ChReaders)
  | _, _ => None
  end.

Definition rw_downgrade (ch : choice) (l : rwlock) (t : thread) (k : dg_pc) : outcome3 :=
  let at_ k := goto t (Downgrade k) in
  let done_ := goto t (Out ReadLocked 0) in
  match k, ch with
  | DG_cas, Go =>
      let '(owner, l) := rw_cas l (t_self t) RWLOCK_READ_INCR in
      continue l
        (if negb (owner =? t_self t) then goto t (Panicked "rw_downgrade") else at_ DG_waiters)
  | DG_waiters, Go => continue l (if rwl_waiters l =? 0 then at_ DG_readers else done_)
  | DG_readers, Go => continue l (if 0 <? rwl_readers l then at_ DG_wake else done_)
  | DG_wake, Go => Some (l, done_, WakeAll ChReaders)
  | _, _ => None
  end.

Definition rw_upgrade (ch : choice) (l : rwlock) (t : thread) : outcome3 :=
  match ch with
  | Go =>
      let '(owner, l) := rw_cas l RWLOCK_READ_INCR (t_self t) in
      continue l
        (if owner =? RWLOCK_READ_INCR then goto t (Out WriteLocked 0)
         else if owner =? 0 then goto t (Panicked "rw_upgrade")
         else if has owner RWLOCK_WRLOCK then goto t (Panicked "rw_upgrade")
         else goto t (Out ReadLocked EBUSY))
  | _ => None
  end.

(** [rw_enter]: the operation is in the flags. *)
Definition rw_enter (flags : Z) : pc :=
  let op := Z.land flags RW_OPMASK in
  if op =? RW_WRITE then EnterWrite flags EW_cas
  else if op =? RW_READ then EnterRead flags ER_cas
  else if op =? RW_DOWNGRADE then Downgrade DG_cas
  else if op =? RW_UPGRADE then
    if has flags RW_NOSLEEP then Upgrade else Panicked "rw_upgrade"
  else Panicked "rw_enter".

Definition enter_call (h : hold) (c : call) : pc :=
  match c with
  | call_rw_enter flags => rw_enter flags
  | call_rw_exit => Exit (EX_load h)
  | call_rw_exit_read => Exit (EX_read RWLOCK_READ_INCR)
  | call_rw_exit_write => Exit EX_write
  end.

(** The calls a thread may make by what it holds. *)
Definition may_call (h : hold) (c : call) : bool :=
  match c with
  | call_rw_enter flags =>
      let op := Z.land flags RW_OPMASK in
      match h with
      | Unlocked => (op =? RW_WRITE) || (op =? RW_READ)
      | ReadLocked => (op =? RW_UPGRADE) && has flags RW_NOSLEEP
      | WriteLocked => op =? RW_DOWNGRADE
      end
  | call_rw_exit => match h with Unlocked => false | _ => true end
  | call_rw_exit_read => match h with ReadLocked => true | _ => false end
  | call_rw_exit_write => match h with WriteLocked => true | _ => false end
  end.

Definition rw_step (ch : choice) (l : rwlock) (t : thread) : outcome3 :=
  match t_pc t with
  | Out h _ =>
      match ch with
      | Call c => if may_call h c then continue l (goto t (enter_call h c)) else None
      | _ => None
      end
  | EnterWrite flags k => rw_do_enter_write ch l t flags k
  | EnterRead flags k => rw_do_enter_read ch l t flags k
  | Exit k => rw_exit ch l t k
  | Downgrade k => rw_downgrade ch l t k
  | Upgrade => rw_upgrade ch l t
  | Panicked _ => None
  end.

(** [rw_status] by thread [t]. *)
Definition rw_status (l : rwlock) (t : thread) : Z :=
  let owner := rwl_owner l in
  if has owner RWLOCK_WRLOCK then if t_self t =? owner then RW_WRITE else RW_WRITE_OTHER
  else if negb (owner =? 0) then RW_READ else 0.

(** The DIAGNOSTIC assertions (without WITNESS): false where they panic. *)
Section Asserts.
Context (panicstr db_active : bool).

Definition rw_assert_wrlock (l : rwlock) (t : thread) : bool :=
  panicstr || db_active || (rwl_owner l =? t_self t).
Definition rw_assert_rdlock (l : rwlock) (t : thread) : bool :=
  panicstr || db_active || (rw_status l t =? RW_READ).
Definition rw_assert_anylock (l : rwlock) (t : thread) : bool :=
  panicstr || db_active ||
  negb ((rw_status l t =? RW_WRITE_OTHER) || (rw_status l t =? 0)).
Definition rw_assert_unlocked (l : rwlock) (t : thread) : bool :=
  panicstr || db_active || negb (rwl_owner l =? t_self t).
End Asserts.

(** The tests of rwlock.h. *)
Definition rw_read_held (l : rwlock) (t : thread) : bool := rw_status l t =? RW_READ.
Definition rw_write_held (l : rwlock) (t : thread) : bool := rw_status l t =? RW_WRITE.
Definition rw_lock_held (l : rwlock) (t : thread) : bool :=
  (rw_status l t =? RW_READ) || (rw_status l t =? RW_WRITE).

(** ** The system *)

Record system : Type := System { sys_lock : rwlock; sys_threads : list thread }.

(** Waking: [woken c t] is [t] taken off the queue [c]. *)
Definition queued (c : wchan) (t : thread) : bool :=
  match t_wchan t, c with
  | Some ChWaiters, ChWaiters | Some ChReaders, ChReaders => true
  | _, _ => false
  end.
Definition woken (c : wchan) (t : thread) : thread := if queued c t then unsleep t else t.

(** [wakeup] wakes every thread on the queue, [wakeup_one] one of them. *)
Inductive wakes : wake → list thread → list thread → Prop :=
| wakes_none ts : wakes NoWake ts ts
| wakes_all c ts : wakes (WakeAll c) ts (woken c <$> ts)
| wakes_one c ts i t :
    ts !! i = Some t → queued c t = true → wakes (WakeOne c) ts (<[i := unsleep t]> ts)
| wakes_nobody c ts : Forall (λ t, queued c t = false) ts → wakes (WakeOne c) ts ts.

(** Thread [i] makes a step, the environment deciding [ch]. *)
Inductive thread_step (i : nat) (ch : choice) (s s' : system) : Prop :=
| ThreadStep t t' w :
    sys_threads s !! i = Some t → rw_step ch (sys_lock s) t = Some (sys_lock s', t', w) →
    wakes w (<[i := t']> (sys_threads s)) (sys_threads s') → thread_step i ch s s'.

Definition sys_step (s s' : system) : Prop := ∃ i ch, thread_step i ch s s'.

(** A step in which no signal arrives. *)
Definition is_signal (ch : choice) : bool := match ch with Signal _ => true | _ => false end.
Definition quiet_step (s s' : system) : Prop :=
  ∃ i ch, is_signal ch = false ∧ thread_step i ch s s'.

(** ** Counting holders and waiters *)

Definition reads (k : pc) : Z :=
  match k with
  | Out ReadLocked _ | EnterRead _ ER_dec | Exit (EX_load ReadLocked) | Exit (EX_read _)
  | Downgrade (DG_waiters | DG_readers | DG_wake) | Upgrade => 1
  | _ => 0
  end.
Definition writes (k : pc) : Z :=
  match k with
  | Out WriteLocked _ | EnterWrite _ EW_dec | Exit (EX_load WriteLocked) | Exit EX_write
  | Downgrade DG_cas => 1
  | _ => 0
  end.
(** Counted in [rwl_waiters], and in [rwl_readers]. *)
Definition waits (k : pc) : Z :=
  match k with
  | EnterWrite _ (EW_cas | EW_spin _ | EW_spin_cas _ | EW_busy) => 0
  | EnterWrite _ _ => 1
  | _ => 0
  end.
Definition rwaits (k : pc) : Z :=
  match k with
  | EnterRead _ (ER_cas | ER_waiters _ | ER_incr _ | ER_busy) => 0
  | EnterRead _ _ => 1
  | _ => 0
  end.

Definition tsum (f : pc → Z) (ts : list thread) : Z := foldr (λ t n, f (t_pc t) + n) 0 ts.

#[global] Arguments tsum : simpl never.

Lemma tsum_insert f ts i t t' :
  ts !! i = Some t → tsum f (<[i := t']> ts) = tsum f ts - f (t_pc t) + f (t_pc t').
Proof.
  revert i. induction ts as [|t0 ts IH]; intros [|i] Hi; [done|done| |].
  - injection Hi as ->. change (<[0%nat := t']> (t :: ts)) with (t' :: ts).
    unfold tsum. cbn [foldr]. lia.
  - change (<[S i := t']> (t0 :: ts)) with (t0 :: <[i := t']> ts).
    unfold tsum in *. cbn [foldr]. rewrite (IH i Hi). lia.
Qed.

(** A count of 0 or 1 for each thread. *)
Definition counts (f : pc → Z) : Prop := ∀ k, f k = 0 ∨ f k = 1.
Lemma reads_counts : counts reads.
Proof. intros k. unfold reads. repeat case_match; auto. Qed.
Lemma writes_counts : counts writes.
Proof. intros k. unfold writes. repeat case_match; auto. Qed.
Lemma waits_counts : counts waits.
Proof. intros k. unfold waits. repeat case_match; auto. Qed.
Lemma rwaits_counts : counts rwaits.
Proof. intros k. unfold rwaits. repeat case_match; auto. Qed.

Lemma tsum_bounds f ts : counts f → 0 ≤ tsum f ts ≤ Z.of_nat (length ts).
Proof.
  intros Hf. unfold tsum. induction ts as [|t ts IH]; cbn [foldr length]; [lia|].
  destruct (Hf (t_pc t)); lia.
Qed.

Lemma tsum_ge f ts i t : counts f → ts !! i = Some t → f (t_pc t) ≤ tsum f ts.
Proof.
  intros Hf. revert i. induction ts as [|t0 ts IH]; intros [|i] Hi; cbn in Hi; try done.
  - simplify_eq. pose proof (tsum_bounds f ts Hf). unfold tsum in *. cbn [foldr]. lia.
  - pose proof (IH i Hi). destruct (Hf (t_pc t0)); unfold tsum in *; cbn [foldr]; lia.
Qed.

(** A property of some thread of the list. *)
Definition some_thread (P : thread → Prop) (ts : list thread) : Prop :=
  ∃ i t, ts !! i = Some t ∧ P t.

Lemma tsum_pos f ts : counts f → 0 < tsum f ts → some_thread (λ t, f (t_pc t) = 1) ts.
Proof.
  intros Hf. unfold tsum. induction ts as [|t ts IH]; cbn [foldr]; [lia|]. intros Hs.
  destruct (Hf (t_pc t)) as [H0|H1]; [|by exists 0%nat, t].
  destruct IH as (i & t' & Hi & Ht'); [lia|]. by exists (S i), t'.
Qed.

(** The only thread counted. *)
Lemma tsum_unique f ts i j t t' :
  counts f → tsum f ts = 1 → ts !! i = Some t → ts !! j = Some t' →
  f (t_pc t) = 1 → f (t_pc t') = 1 → i = j.
Proof.
  intros Hf. revert i j. induction ts as [|t0 ts IH]; intros [|i] [|j] Hs Hi Hj H1 H2;
    try done; change (tsum f (t0 :: ts)) with (f (t_pc t0) + tsum f ts) in Hs.
  - cbn in Hi. simplify_eq. pose proof (tsum_ge f ts j t' Hf Hj). lia.
  - cbn in Hj. simplify_eq. pose proof (tsum_ge f ts i t Hf Hi). lia.
  - f_equal. pose proof (tsum_ge f ts i t Hf Hi). destruct (Hf (t_pc t0)); [|lia].
    apply IH; try done. lia.
Qed.

(** A step changes the count by what it changes for the thread; waking changes
    none. *)
Definition same_pc (t t' : thread) : Prop :=
  t_proc t' = t_proc t ∧ t_pc t' = t_pc t ∧ (t_wchan t' = t_wchan t ∨ t_wchan t' = None).

Lemma wakes_same w ts ts' : wakes w ts ts' → Forall2 same_pc ts ts'.
Proof.
  intros Hw. assert (∀ t, same_pc t t) as Hrefl by (unfold same_pc; auto).
  assert (∀ l, Forall2 same_pc l l) as Hl by (intros l; induction l; auto).
  destruct Hw as [ts|c ts|c ts i t Hi Hq|c ts Hq]; auto.
  - apply Forall2_fmap_r. eapply Forall2_impl; [apply (Hl ts)|]. intros t t' (Hp & Hpc & Hc).
    change (same_pc t (woken c t')). unfold woken, same_pc. destruct (queued c t'); cbn; auto.
  - rewrite <-(list_insert_id ts i t Hi) at 1. apply Forall2_insert; [done|].
    unfold same_pc. auto.
Qed.

Lemma tsum_same f ts ts' : Forall2 same_pc ts ts' → tsum f ts' = tsum f ts.
Proof.
  induction 1 as [|t t' ts ts' (_ & Hpc & _) _ IH]; [done|].
  unfold tsum in *. cbn [foldr]. by rewrite Hpc, IH.
Qed.

(** ** The invariant *)

Definition is_proc (p : Z) : Prop := 0 < p < M64 ∧ p mod 8 = 0.

Lemma rw_self_spec p : is_proc p → rw_self p = p + 4.
Proof.
  intros [Hp Hm]. unfold rw_self.
  assert (Z.land p (not64 RWLOCK_MASK) = p) as ->.
  { apply Z.bits_inj'. intros i Hi. rewrite Z.land_spec.
    destruct (decide (i < 3)).
    - replace p with (p / 8 * 2 ^ 3) by (change (2 ^ 3) with 8; zmod).
      by rewrite Z.mul_pow2_bits_low by lia.
    - destruct (decide (i < 64)); [|by rewrite (testbit_above 64 p) by lia].
      replace (not64 RWLOCK_MASK) with (Z.shiftl (Z.ones 61) 3) by reflexivity.
      rewrite Z.shiftl_spec, Z.ones_spec_low, andb_true_r by lia. done. }
  replace (p + 4) with (4 + (p / 8) * 2 ^ 3) by (change (2 ^ 3) with 8; zmod).
  rewrite <-lor_shiftl_add by lia. f_equal. rewrite Z.shiftl_mul_pow2 by lia. change (2 ^ 3) with 8. zmod.
Qed.

Lemma has_wrlock x : has x RWLOCK_WRLOCK = Z.testbit x 2.
Proof.
  unfold has, RWLOCK_WRLOCK. destruct (Z.testbit x 2) eqn:E.
  - destruct (Z.eqb_spec (Z.land x 4) 0) as [H|]; [|done].
    assert (Z.testbit (Z.land x 4) 2 = false) as H' by (by rewrite H, Z.bits_0).
    rewrite Z.land_spec, E in H'. discriminate H'.
  - replace (Z.land x 4) with 0; [done|]. apply Z.bits_inj'. intros i Hi.
    rewrite Z.land_spec, Z.bits_0. change 4 with (2 ^ 2). rewrite Z.pow2_bits_eqb by lia.
    destruct (Z.eqb_spec 2 i) as [<-|]; [by rewrite E|by rewrite andb_false_r].
Qed.

Lemma wrlock_readers n : has (8 * n) RWLOCK_WRLOCK = false.
Proof.
  rewrite has_wrlock. replace (8 * n) with (n * 2 ^ 3) by lia. by apply Z.mul_pow2_bits_low.
Qed.

Lemma wrlock_self p : is_proc p → has (rw_self p) RWLOCK_WRLOCK = true.
Proof.
  intros Hp. rewrite has_wrlock, (rw_self_spec p Hp). destruct Hp as [_ Hm].
  apply Z.testbit_true; [lia|]. change (2 ^ 2) with 4. zmod.
Qed.

(** What the local variables of a thread satisfy, and where it may be queued. *)
Definition pc_ok (k : pc) : Prop :=
  match k with
  | EnterRead _ (ER_waiters o | ER_incr o | ER_incr2 o) => has o RWLOCK_WRLOCK = false ∧ is_u64 o
  | Exit (EX_load Unlocked) | Panicked _ => False
  | _ => True
  end.
Definition may_queue (k : pc) (c : wchan) : Prop :=
  match k, c with
  | EnterWrite _ (EW_load | EW_finish _ | EW_asleep), ChWaiters => True
  | EnterRead _ (ER_load_waiters | ER_load_owner | ER_finish _ | ER_asleep), ChReaders => True
  | _, _ => False
  end.
Definition thread_ok (t : thread) : Prop :=
  pc_ok (t_pc t) ∧ match t_wchan t with Some c => may_queue (t_pc t) c | None => True end.

Record sys_inv (s : system) : Prop := {
  si_procs : NoDup (t_proc <$> sys_threads s);
  si_isproc : Forall (λ t, is_proc (t_proc t)) (sys_threads s);
  si_count : Z.of_nat (length (sys_threads s)) < M32;
  si_owner :
    (tsum writes (sys_threads s) = 0 ∧
     rwl_owner (sys_lock s) = 8 * tsum reads (sys_threads s)) ∨
    (tsum writes (sys_threads s) = 1 ∧ tsum reads (sys_threads s) = 0 ∧
     ∃ i t, sys_threads s !! i = Some t ∧ writes (t_pc t) = 1 ∧
       rwl_owner (sys_lock s) = t_self t);
  si_waiters : rwl_waiters (sys_lock s) = tsum waits (sys_threads s);
  si_readers : rwl_readers (sys_lock s) = tsum rwaits (sys_threads s);
  si_threads : Forall thread_ok (sys_threads s);
}.

(** ** One step *)

(** What the rest of the invariant gives a thread about the lock. *)
Record lock_facts (l : rwlock) (t : thread) : Prop := {
  lf_proc : is_proc (t_proc t);
  lf_read : reads (t_pc t) = 1 → has (rwl_owner l) RWLOCK_WRLOCK = false ∧ 8 ≤ rwl_owner l;
  lf_write : writes (t_pc t) = 1 → rwl_owner l = t_self t;
  lf_self : rwl_owner l = t_self t → writes (t_pc t) = 1;
  lf_owner : is_u64 (rwl_owner l);
  lf_room : has (rwl_owner l) RWLOCK_WRLOCK = false → rwl_owner l + 8 < M64;
}.

(** How a step changes [rwl_owner] and what the thread holds. *)
Inductive own_effect (self : Z) (o o' : Z) (k k' : pc) : Prop :=
| oe_same : o' = o → reads k' = reads k → writes k' = writes k → own_effect self o o' k k'
| oe_write : o = 0 → o' = self → reads k = 0 → writes k = 0 → reads k' = 0 → writes k' = 1 →
    own_effect self o o' k k'
| oe_read : has o RWLOCK_WRLOCK = false → o' = o + 8 → reads k = 0 → writes k = 0 →
    reads k' = 1 → writes k' = 0 → own_effect self o o' k k'
| oe_unread : o' = o - 8 → reads k = 1 → writes k = 0 → reads k' = 0 → writes k' = 0 →
    (o' = 0 → k' = Exit EX_waiters) → own_effect self o o' k k'
| oe_unwrite : o' = 0 → reads k = 0 → writes k = 1 → reads k' = 0 → writes k' = 0 →
    k' = Exit EX_waiters → own_effect self o o' k k'
| oe_down : o' = 8 → reads k = 0 → writes k = 1 → reads k' = 1 → writes k' = 0 →
    own_effect self o o' k k'
| oe_up : o = 8 → o' = self → reads k = 1 → writes k = 0 → reads k' = 0 → writes k' = 1 →
    own_effect self o o' k k'.

(** How it changes a counter [n] of the threads [f] counts. *)
Definition count_effect (f : pc → Z) (n n' : Z) (k k' : pc) : Prop :=
  (n' = n ∧ f k' = f k) ∨ (n' = rw_inc n ∧ f k = 0 ∧ f k' = 1) ∨ (n' = rw_dec n ∧ f k = 1 ∧ f k' = 0).

Definition step_effect (l l' : rwlock) (t t' : thread) : Prop :=
  t_proc t' = t_proc t ∧ thread_ok t' ∧
  own_effect (t_self t) (rwl_owner l) (rwl_owner l') (t_pc t) (t_pc t') ∧
  count_effect waits (rwl_waiters l) (rwl_waiters l') (t_pc t) (t_pc t') ∧
  count_effect rwaits (rwl_readers l) (rwl_readers l') (t_pc t) (t_pc t').

Ltac step_cases H :=
  repeat match type of H with
  | context [match ?x with _ => _ end] => destruct x eqn:?; try discriminate H
  end; injection H as <- <- <-.

Lemma self_pos t : is_proc (t_proc t) → 0 < t_self t.
Proof. intros Hp. unfold t_self. rewrite (rw_self_spec _ Hp). destruct Hp. lia. Qed.

(** Prove [step_effect] once the branch of the code is known. *)
Ltac own_cases :=
  first [apply oe_same; cbn; done || lia | apply oe_write; cbn; done || lia
        |apply oe_read; cbn; done || lia
        |apply oe_unread; cbn; done || lia || (intros; exfalso; lia)
        |apply oe_unwrite; cbn; done || lia | apply oe_down; cbn; done || lia
        |apply oe_up; cbn; done || lia].
Ltac solve_effect Hpc :=
  rewrite ?Z.eqb_eq, ?Z.eqb_neq in *;
  unfold step_effect, thread_ok, count_effect; cbn in *; rewrite ?Hpc; cbn;
  repeat match goal with
  | H : t_wchan _ = Some ?c |- _ => rewrite H; clear H; destruct c
  | H : t_wchan _ = None |- _ => rewrite H; clear H
  end;
  repeat match goal with H : rwl_owner ?l = 0 |- context [rwl_owner ?l] => rewrite !H end;
  split_and!;
  try (done || lia || tauto || match goal with |- context [t_wchan ?t] => by destruct (t_wchan t) as [[]|] end);
  try own_cases; try (cbn; auto 10; done).

Lemma enter_write_effect ch l t flags k l' t' w :
  lock_facts l t → thread_ok t → t_pc t = EnterWrite flags k →
  rw_do_enter_write ch l t flags k = Some (l', t', w) → step_effect l l' t t'.
Proof.
  intros [Hp Hr Hw Hself Hu Hroom] [Hok Hq] Hpc Hs. rewrite Hpc in *.
  unfold rw_do_enter_write, continue, rw_cas in Hs.
  destruct k, ch; cbn [waits rwaits] in *; try discriminate Hs.
  all: step_cases Hs.
  all: solve_effect Hpc.
Qed.

(** [rw_read_incr] adds a reader, or saw another value; it never passes a writer. *)
Lemma rw_read_incr_spec l owner :
  has owner RWLOCK_WRLOCK = false → is_u64 owner →
  (has (rwl_owner l) RWLOCK_WRLOCK = false → rwl_owner l + 8 < M64) →
  match rw_read_incr l owner with
  | inl l' => has (rwl_owner l) RWLOCK_WRLOCK = false ∧ l' = set_owner l (rwl_owner l + 8)
  | inr o => o = rwl_owner l
  end.
Proof.
  intros Ho Hu Hroom. unfold rw_read_incr, rw_cas.
  destruct (Z.eqb_spec (rwl_owner l) owner) as [<-|]; [|done].
  split; [done|]. unfold RWLOCK_READ_INCR, is_u64 in *. rewrite u64_small; [done|].
  specialize (Hroom Ho). unfold is_u64. lia.
Qed.

Lemma enter_read_effect ch l t flags k l' t' w :
  lock_facts l t → thread_ok t → t_pc t = EnterRead flags k →
  rw_do_enter_read ch l t flags k = Some (l', t', w) → step_effect l l' t t'.
Proof.
  intros [Hp Hr Hw Hself Hu Hroom] [Hok Hq] Hpc Hs. rewrite Hpc in *.
  assert (∀ o, has o RWLOCK_WRLOCK = false ∧ is_u64 o →
    match rw_read_incr l o with
    | inl l' => has (rwl_owner l) RWLOCK_WRLOCK = false ∧ l' = set_owner l (rwl_owner l + 8)
    | inr o => o = rwl_owner l
    end) as Hincr by (intros o [??]; by apply rw_read_incr_spec).
  assert (has 0 RWLOCK_WRLOCK = false ∧ is_u64 0) as H0 by done.
  unfold rw_do_enter_read, continue, rw_cas in Hs.
  destruct k, ch; cbn [waits rwaits] in *; try discriminate Hs.
  all: try (specialize (Hincr _ Hok); destruct (rw_read_incr l owner) as [l1|o1];
    [destruct Hincr as [Hno ->]|subst o1]).
  all: step_cases Hs.
  all: solve_effect Hpc.
Qed.

Lemma exit_effect ch l t k l' t' w :
  lock_facts l t → thread_ok t → t_pc t = Exit k →
  rw_exit ch l t k = Some (l', t', w) → step_effect l l' t t'.
Proof.
  intros [Hp Hr Hw Hself Hu Hroom] [Hok Hq] Hpc Hs. rewrite Hpc in *.
  pose proof (wrlock_self _ Hp) as Hwr. fold (t_self t) in Hwr. pose proof (self_pos t Hp) as Hpos.
  unfold rw_exit, continue, rw_cas in Hs.
  destruct k as [[]| | | | | |], ch; cbn in Hok, Hr, Hw, Hself; try done; try discriminate Hs.
  all: try (specialize (Hr eq_refl) as [Hno Hge]; rewrite Hno in Hs).
  all: try (specialize (Hw eq_refl); rewrite Hw, ?Hwr in Hs).
  all: step_cases Hs.
  all: try match goal with
       | H : (?o =? rwl_owner ?l0) = true |- _ =>
           apply Z.eqb_eq in H; subst o;
           rewrite (u64_small (rwl_owner l0 - RWLOCK_READ_INCR)) in *
             by (unfold is_u64, RWLOCK_READ_INCR in *; lia)
       end.
  all: unfold RWLOCK_READ_INCR in *; solve_effect Hpc.
Qed.

Lemma downgrade_effect ch l t k l' t' w :
  lock_facts l t → thread_ok t → t_pc t = Downgrade k →
  rw_downgrade ch l t k = Some (l', t', w) → step_effect l l' t t'.
Proof.
  intros [Hp Hr Hw Hself Hu Hroom] [Hok Hq] Hpc Hs. rewrite Hpc in *.
  unfold rw_downgrade, continue, rw_cas in Hs.
  destruct k, ch; cbn in Hok, Hr, Hw, Hself; try discriminate Hs.
  all: try (specialize (Hw eq_refl); rewrite Hw, Z.eqb_refl in Hs).
  all: step_cases Hs.
  all: unfold RWLOCK_READ_INCR in *; solve_effect Hpc.
Qed.

Lemma upgrade_effect ch l t l' t' w :
  lock_facts l t → thread_ok t → t_pc t = Upgrade →
  rw_upgrade ch l t = Some (l', t', w) → step_effect l l' t t'.
Proof.
  intros [Hp Hr Hw Hself Hu Hroom] [Hok Hq] Hpc Hs. rewrite Hpc in *.
  unfold rw_upgrade, continue, rw_cas in Hs.
  destruct ch; try discriminate Hs. cbn in Hr, Hw, Hself. destruct (Hr eq_refl) as [Hno Hge].
  rewrite Hno in Hs. step_cases Hs; unfold RWLOCK_READ_INCR in *; solve_effect Hpc.
Qed.

Lemma call_effect l t h ret c l' t' w :
  lock_facts l t → thread_ok t → t_pc t = Out h ret →
  (if may_call h c then continue l (goto t (enter_call h c)) else None) = Some (l', t', w) →
  step_effect l l' t t'.
Proof.
  intros [Hp Hr Hw Hself Hu Hroom] [Hok Hq] Hpc Hs. rewrite Hpc in *.
  destruct (may_call h c) eqn:Hm; [|done]. injection Hs as <- <- <-.
  destruct c as [flags| | |], h; cbn in Hm; try done; cbn [enter_call]; unfold rw_enter.
  all: repeat match goal with
       | |- context [if ?b then _ else _] => destruct b eqn:?; try done
       end.
  all: rewrite ?andb_true_iff, ?orb_true_iff, ?Z.eqb_eq, ?Z.eqb_neq in *;
    unfold RW_WRITE, RW_READ, RW_DOWNGRADE, RW_UPGRADE in *.
  all: first [exfalso; intuition congruence|solve_effect Hpc].
Qed.

Lemma rw_step_effect ch l t l' t' w :
  lock_facts l t → thread_ok t → rw_step ch l t = Some (l', t', w) → step_effect l l' t t'.
Proof.
  intros Hf Ht Hs. unfold rw_step in Hs. destruct (t_pc t) as [h ret|fl k|fl k|k|k| |fn] eqn:Hpc.
  - destruct ch; try done. by eapply call_effect.
  - by eapply enter_write_effect.
  - by eapply enter_read_effect.
  - by eapply exit_effect.
  - by eapply downgrade_effect.
  - by eapply upgrade_effect.
  - done.
Qed.

(** ** The invariant is preserved *)

Lemma procs_inj ts i j t t' :
  NoDup (t_proc <$> ts) → ts !! i = Some t → ts !! j = Some t' → t_proc t = t_proc t' → i = j.
Proof.
  intros Hnd Hi Hj Hp. eapply NoDup_lookup; [exact Hnd|rewrite list_lookup_fmap, Hi; done|].
  by rewrite list_lookup_fmap, Hj, Hp.
Qed.

Lemma self_inj t t' :
  is_proc (t_proc t) → is_proc (t_proc t') → t_self t = t_self t' → t_proc t = t_proc t'.
Proof. intros H H'. unfold t_self. rewrite !rw_self_spec by done. lia. Qed.

Lemma self_u64 t : is_proc (t_proc t) → is_u64 (t_self t).
Proof. intros Hp. unfold t_self, is_u64. rewrite rw_self_spec by done. destruct Hp. zmod. Qed.

Lemma inv_facts s i t :
  sys_inv s → sys_threads s !! i = Some t → lock_facts (sys_lock s) t ∧ thread_ok t.
Proof.
  destruct s as [l ts]. intros [Hnd Hp Hn Ho _ _ Hok] Hi. cbn [sys_lock sys_threads] in *.
  pose proof (Forall_lookup_1 _ _ _ _ Hp Hi) as Hpt. split; [|by eapply Forall_lookup_1].
  pose proof (tsum_bounds reads ts reads_counts) as Hrb.
  pose proof (tsum_ge reads ts i t reads_counts Hi) as Hrt.
  pose proof (tsum_ge writes ts i t writes_counts Hi) as Hwt.
  destruct Ho as [[Hw Ho]|(Hw & Hr & j & t0 & Hj & Hw0 & Ho)].
  - pose proof (wrlock_readers (tsum reads ts)) as Hno. rewrite <-Ho in Hno.
    split; try done || (unfold is_u64; lia).
    + intros ?. split; [done|lia].
    + intros He. pose proof (wrlock_self _ Hpt) as Hs. fold (t_self t) in Hs. congruence.
  - pose proof (Forall_lookup_1 _ _ _ _ Hp Hj) as Hpt0. split; try done.
    + intros ?. lia.
    + intros Hwt1. assert (j = i) as -> by (by apply (tsum_unique writes ts j i t0 t writes_counts)). congruence.
    + intros He. rewrite Ho in He. apply self_inj in He; [|done..].
      assert (j = i) as -> by (by eapply procs_inj). by simplify_eq.
    + rewrite Ho. by apply self_u64.
    + rewrite Ho. intros Hno. pose proof (wrlock_self _ Hpt0) as Hs. unfold t_self in Hno. congruence.
Qed.

Lemma count_preserved f l_count l_count' ts i t t' :
  counts f → Z.of_nat (length ts) < M32 → ts !! i = Some t →
  count_effect f l_count l_count' (t_pc t) (t_pc t') → l_count = tsum f ts →
  l_count' = tsum f (<[i := t']> ts).
Proof.
  intros Hf Hn Hi Hc ->. rewrite (tsum_insert f ts i t t' Hi).
  pose proof (tsum_bounds f ts Hf). pose proof (tsum_bounds f (<[i := t']> ts) Hf) as Hb.
  rewrite (tsum_insert f ts i t t' Hi), length_insert in Hb.
  unfold count_effect, rw_inc, rw_dec in Hc.
  pose proof (tsum_ge f ts i t Hf Hi).
  destruct Hc as [[-> ?]|[(-> & ? & ?)|(-> & ? & ?)]]; [lia|rewrite u32_small..];
    unfold is_u32; lia.
Qed.

(** [rwl_owner] against the holders, after a step of thread [i]. *)
Definition owner_ok (o : Z) (ts : list thread) : Prop :=
  (tsum writes ts = 0 ∧ o = 8 * tsum reads ts) ∨
  (tsum writes ts = 1 ∧ tsum reads ts = 0 ∧
   ∃ i t, ts !! i = Some t ∧ writes (t_pc t) = 1 ∧ o = t_self t).

Lemma owner_preserved o o' ts i t t' :
  Forall (λ t, is_proc (t_proc t)) ts → t_proc t' = t_proc t → ts !! i = Some t → owner_ok o ts →
  own_effect (t_self t) o o' (t_pc t) (t_pc t') → owner_ok o' (<[i := t']> ts).
Proof.
  intros Hp Hpr Hi Ho He. assert (t_self t' = t_self t) as Hself by (unfold t_self; by rewrite Hpr).
  pose proof (lookup_lt_Some _ _ _ Hi) as Hlt.
  pose proof (tsum_bounds reads ts reads_counts) as Hrb.
  unfold owner_ok in *. rewrite !(tsum_insert _ ts i t t' Hi).
  destruct Ho as [[Hw Ho]|(Hw & Hr & j & t0 & Hj & Hw0 & Ho)].
  - pose proof (tsum_ge writes ts i t writes_counts Hi) as Hwt.
    destruct He; try (left; lia).
    all: right; split; [lia|split; [lia|]]; exists i, t'; rewrite list_lookup_insert_eq by done;
      rewrite Hself; done.
  - pose proof (tsum_ge reads ts i t reads_counts Hi) as Hrt.
    pose proof (Forall_lookup_1 _ _ _ _ Hp Hj) as Hpt0. pose proof (self_pos _ Hpt0) as Hpos.
    assert (writes (t_pc t) = 1 → t0 = t) as Huniq.
    { intros Hwt. assert (j = i) as -> by (by apply (tsum_unique writes ts j i t0 t writes_counts)). congruence. }
    destruct He; try lia.
    + right. split; [lia|]. split; [lia|]. destruct (decide (i = j)) as [<-|Hne].
      * exists i, t'. rewrite list_lookup_insert_eq by done. simplify_eq. rewrite Hself.
        split; [done|]. split; [lia|done].
      * exists j, t0. rewrite list_lookup_insert_ne by done. split; [done|]. split; [done|lia].
    + exfalso. pose proof (wrlock_self _ Hpt0) as Hs. unfold t_self in Ho. congruence.
Qed.

Lemma same_pc_lookup ts ts' i t :
  Forall2 same_pc ts ts' → ts !! i = Some t → ∃ t', ts' !! i = Some t' ∧ same_pc t t'.
Proof. intros H Hi. by eapply Forall2_lookup_l in Hi as (t' & ? & ?); [|exact H]; eauto. Qed.

Lemma same_pc_ok t t' : same_pc t t' → thread_ok t → thread_ok t'.
Proof. unfold thread_ok. intros (_ & -> & [->| ->]) [? ?]; done. Qed.

Lemma owner_ok_same o ts ts' : Forall2 same_pc ts ts' → owner_ok o ts → owner_ok o ts'.
Proof.
  intros Hs. unfold owner_ok. rewrite !(tsum_same _ _ _ Hs).
  intros [?|(? & ? & i & t & Hi & Hw & Ho)]; [by left|right]. do 2 (split; [done|]).
  destruct (same_pc_lookup _ _ _ _ Hs Hi) as (t' & Hi' & Hp & Hpc & _).
  exists i, t'. rewrite Hpc. unfold t_self in *. by rewrite Hp.
Qed.

Lemma procs_same ts ts' : Forall2 same_pc ts ts' → t_proc <$> ts' = t_proc <$> ts.
Proof. induction 1 as [|t t' ts ts' [Hp _] _ IH]; cbn; [done|by rewrite Hp, IH]. Qed.

(** The effect of a step on the thread that makes it, in a state that occurs. *)
Lemma sys_step_effect s i t ch l' t' w :
  sys_inv s → sys_threads s !! i = Some t → rw_step ch (sys_lock s) t = Some (l', t', w) →
  step_effect (sys_lock s) l' t t'.
Proof.
  intros Hinv Hi Hs. destruct (inv_facts _ i t Hinv Hi) as [Hf Ht]. by eapply rw_step_effect.
Qed.

Lemma sys_inv_step s s' : sys_inv s → sys_step s s' → sys_inv s'.
Proof.
  destruct s as [l ts], s' as [l' ts']. intros Hinv (i & ch & [t t' w Hi Hs Hw]).
  destruct (sys_step_effect _ _ _ _ _ _ _ Hinv Hi Hs) as (Hp & Hok & Ho & Hwt & Hrt).
  destruct Hinv as [Hnd Hpr Hn Hown Hwaiters Hreaders Hth]. cbn [sys_lock sys_threads] in *.
  pose proof (wakes_same _ _ _ Hw) as Hsame.
  assert (t_proc <$> <[i := t']> ts = t_proc <$> ts) as Hprocs.
  { rewrite list_fmap_insert, Hp. apply list_insert_id. by rewrite list_lookup_fmap, Hi. }
  assert (Forall thread_ok (<[i := t']> ts)) as Hth' by (by apply Forall_insert).
  split; cbn [sys_lock sys_threads].
  - by rewrite (procs_same _ _ Hsame), Hprocs.
  - apply (proj1 (Forall_fmap t_proc is_proc ts')). rewrite (procs_same _ _ Hsame), Hprocs.
    by apply (proj2 (Forall_fmap t_proc is_proc ts)).
  - rewrite <-(Forall2_length _ _ _ Hsame), length_insert. done.
  - apply (owner_ok_same _ _ _ Hsame). by eapply owner_preserved.
  - rewrite (tsum_same _ _ _ Hsame). eapply count_preserved; try done. apply waits_counts.
  - rewrite (tsum_same _ _ _ Hsame). eapply count_preserved; try done. apply rwaits_counts.
  - apply Forall_lookup. intros j tj' Hj. eapply Forall2_lookup_r in Hj as (tj & Hj & Hsj); [|exact Hsame].
    eapply same_pc_ok; [exact Hsj|]. by eapply Forall_lookup_1.
Qed.

(** ** Reachable states *)

(** The threads whose [struct proc] are at [procs], none of them in a call. *)
Definition initial (procs : list Z) : system :=
  System _rw_init_flags ((λ p, Thread p (Out Unlocked 0) None) <$> procs).

Definition procs_ok (procs : list Z) : Prop :=
  NoDup procs ∧ Forall is_proc procs ∧ Z.of_nat (length procs) < M32.

Definition reachable (procs : list Z) : system → Prop := rtc sys_step (initial procs).

Lemma initial_inv procs : procs_ok procs → sys_inv (initial procs).
Proof.
  intros (Hnd & Hp & Hn).
  assert (∀ f, f (Out Unlocked 0) = 0 →
    tsum f ((λ p, Thread p (Out Unlocked 0) None) <$> procs) = 0) as Hz.
  { intros f Hf. unfold tsum. induction procs as [|p procs IH]; cbn; [done|].
    apply NoDup_cons in Hnd as [_ ?]. apply Forall_cons in Hp as [_ ?]. rewrite Hf, IH; [done..|]. cbn in Hn. lia. }
  split; cbn [sys_lock sys_threads initial].
  - rewrite <-list_fmap_compose. rewrite (list_fmap_ext _ id); [by rewrite list_fmap_id|done].
  - by apply Forall_fmap.
  - by rewrite length_fmap.
  - left. by rewrite !Hz.
  - by rewrite Hz.
  - by rewrite Hz.
  - apply Forall_fmap, Forall_true. intros p. done.
Qed.

Lemma reachable_inv procs s : procs_ok procs → reachable procs s → sys_inv s.
Proof.
  intros Hp Hr. apply (rtc_ind_r sys_inv (initial procs)) in Hr; [done|by apply initial_inv|].
  intros x y _ Hstep Hx. by eapply sys_inv_step.
Qed.

Lemma procs_ok_example : procs_ok [0x1000; 0x2000; 0x3000].
Proof.
  split; [|split].
  - repeat constructor; rewrite ?list_elem_of_In; cbn; lia.
  - repeat constructor; lia.
  - cbn. lia.
Qed.

(** C1: Mutual exclusion.  Whatever the interleaving of any number of threads and
    whatever they call (enter, downgrade, upgrade, exit, as what they hold
    allows), while one thread holds the lock for writing no other thread holds
    it, for writing or for reading. *)
Theorem rwlock_mutual_exclusion procs s i j t t' :
  procs_ok procs → reachable procs s →
  sys_threads s !! i = Some t → sys_threads s !! j = Some t' → i ≠ j →
  writes (t_pc t) = 1 → writes (t_pc t') = 0 ∧ reads (t_pc t') = 0.
Proof.
  intros Hp Hr Hi Hj Hne Hw. destruct (reachable_inv _ _ Hp Hr) as [_ _ _ Ho _ _ _].
  pose proof (tsum_ge writes _ _ _ writes_counts Hi).
  pose proof (tsum_ge reads _ _ _ reads_counts Hj).
  destruct Ho as [[? _]|(Hw1 & Hr0 & _)]; [lia|]. split.
  - destruct (writes_counts (t_pc t')) as [?|Hw']; [done|].
    destruct Hne. by apply (tsum_unique writes (sys_threads s) i j t t' writes_counts).
  - destruct (reads_counts (t_pc t')); lia.
Qed.

(** No thread that follows the rules (a lock is exited, downgraded or upgraded
    by a thread that holds it, and entered by one that does not) ever reaches a
    panic of the lock code, and the owner word is at all times exact: eight times
    the number of readers, or the word of the one writer; the two counters are
    the numbers of threads waiting. *)
Theorem rwlock_never_panics procs s :
  procs_ok procs → reachable procs s →
  (∀ i t fn, sys_threads s !! i = Some t → t_pc t ≠ Panicked fn) ∧
  owner_ok (rwl_owner (sys_lock s)) (sys_threads s) ∧
  rwl_waiters (sys_lock s) = tsum waits (sys_threads s) ∧
  rwl_readers (sys_lock s) = tsum rwaits (sys_threads s).
Proof.
  intros Hp Hr. destruct (reachable_inv _ _ Hp Hr) as [_ _ _ Ho Hwt Hrd Hok].
  split_and!; try done. intros i t fn Hi Hpc.
  destruct (Forall_lookup_1 _ _ _ _ Hok Hi) as [Hpco _]. by rewrite Hpc in Hpco.
Qed.

(** [rw_status] tells each thread the truth: RW_WRITE exactly if the thread
    itself holds the lock for writing, RW_WRITE_OTHER exactly if another does,
    RW_READ exactly if some thread holds it for reading, 0 if nobody holds it. *)
Theorem rw_status_spec procs s i t :
  procs_ok procs → reachable procs s → sys_threads s !! i = Some t →
  (rw_status (sys_lock s) t = RW_WRITE ↔ writes (t_pc t) = 1) ∧
  (rw_status (sys_lock s) t = RW_WRITE_OTHER ↔ writes (t_pc t) = 0 ∧ tsum writes (sys_threads s) = 1) ∧
  (rw_status (sys_lock s) t = RW_READ ↔ 0 < tsum reads (sys_threads s)) ∧
  (rw_status (sys_lock s) t = 0 ↔
     tsum reads (sys_threads s) = 0 ∧ tsum writes (sys_threads s) = 0).
Proof.
  intros Hp Hr Hi. pose proof (reachable_inv _ _ Hp Hr) as Hinv.
  destruct (inv_facts _ i t Hinv Hi) as [[Hpt _ Hw Hself _ _] _].
  destruct Hinv as [_ Hprocs _ Ho _ _ _]. pose proof (writes_counts (t_pc t)) as Hc.
  pose proof (tsum_bounds reads (sys_threads s) reads_counts).
  pose proof (tsum_ge writes _ _ _ writes_counts Hi).
  unfold rw_status, RW_WRITE, RW_WRITE_OTHER, RW_READ.
  destruct Ho as [[Hw0 Ho]|(Hw1 & Hr0 & j & t0 & Hj & Hw0 & Ho)].
  - rewrite Ho, wrlock_readers. destruct (Z.eqb_spec (8 * tsum reads (sys_threads s)) 0); cbn; lia.
  - pose proof (Forall_lookup_1 _ _ _ _ Hprocs Hj) as Hpt0. cbn in Hpt0.
    assert (has (rwl_owner (sys_lock s)) RWLOCK_WRLOCK = true) as ->.
    { rewrite Ho. by apply wrlock_self. }
    destruct (Z.eqb_spec (t_self t) (rwl_owner (sys_lock s))) as [He|Hne].
    + specialize (Hself (eq_sym He)). lia.
    + assert (writes (t_pc t) ≠ 1) by (intros Hwt; by rewrite Hw in Hne). lia.
Qed.

(** The assertions, in a system that is not panicking: the write assertion passes
    exactly for the writer; the read assertion for every thread while some thread
    reads; the assertion of either for the writer, and for all while some thread
    reads; the assertion of neither for every thread but the writer, so also for a
    reader. *)
Theorem rw_assert_spec procs s i t :
  procs_ok procs → reachable procs s → sys_threads s !! i = Some t →
  (rw_assert_wrlock false false (sys_lock s) t = true ↔ writes (t_pc t) = 1) ∧
  (rw_assert_rdlock false false (sys_lock s) t = true ↔ 0 < tsum reads (sys_threads s)) ∧
  (rw_assert_anylock false false (sys_lock s) t = true ↔
     writes (t_pc t) = 1 ∨ 0 < tsum reads (sys_threads s)) ∧
  (rw_assert_unlocked false false (sys_lock s) t = true ↔ writes (t_pc t) = 0).
Proof.
  intros Hp Hr Hi. destruct (rw_status_spec procs s i t Hp Hr Hi) as (Hw & Ho & Hrd & H0).
  destruct (inv_facts _ i t (reachable_inv _ _ Hp Hr) Hi) as [[_ _ Hown Hself _ _] _].
  pose proof (writes_counts (t_pc t)) as Hc.
  unfold rw_assert_wrlock, rw_assert_rdlock, rw_assert_anylock, rw_assert_unlocked. cbn [orb].
  rewrite !negb_true_iff, orb_false_iff, !Z.eqb_eq, !Z.eqb_neq.
  split_and!; [split; auto|done| |].
  - split.
    + intros [Hno Hn0]. destruct (decide (rw_status (sys_lock s) t = RW_WRITE)); [tauto|].
      right. apply Hrd. revert Hno Hn0 n. unfold rw_status, RW_WRITE, RW_WRITE_OTHER, RW_READ.
      repeat case_match; lia.
    + intros [H|H]; [apply Hw in H|apply Hrd in H]; by rewrite H.
  - split; [|intros H E; apply Hself in E; lia].
    intros Hn. destruct Hc as [?|H]; [done|]. by destruct Hn; apply Hown.
Qed.

(** ** No wakeup is lost *)

(** The thread is on the queue [c] and is going to sleep, or asleep. *)
Definition committed (c : wchan) (t : thread) : Prop :=
  queued c t = true ∧
  match t_pc t, c with
  | EnterWrite _ (EW_finish owner), ChWaiters => owner ≠ 0
  | EnterWrite _ EW_asleep, ChWaiters => True
  | EnterRead _ (ER_finish do_sleep), ChReaders => do_sleep = true
  | EnterRead _ ER_asleep, ChReaders => True
  | _, _ => False
  end.

(** The thread is about to wake a writer, or is a writer about to try again. *)
Definition hope_writer (t : thread) : Prop :=
  match t_pc t with
  | Exit (EX_waiters | EX_wake_one) | EnterWrite _ (EW_setup | EW_load | EW_cas2) => True
  | EnterWrite _ (EW_finish owner) => owner = 0 ∨ t_wchan t = None
  | EnterWrite _ EW_asleep => t_wchan t = None
  | _ => False
  end.

(** The thread may be about to wake the readers. *)
Definition hope_reader (t : thread) : Prop :=
  match t_pc t with Exit (EX_waiters | EX_readers | EX_wake_all) => True | _ => False end.

Definition gave_up (t : thread) : Prop :=
  match t_pc t with EnterWrite _ (EW_dec_err _) | EnterRead _ (ER_dec_err _) => True | _ => False end.

Record wake_inv (s : system) : Prop := {
  wi_quiet : Forall (λ t, ¬ gave_up t) (sys_threads s);
  wi_writer : rwl_owner (sys_lock s) = 0 → some_thread (committed ChWaiters) (sys_threads s) →
    some_thread hope_writer (sys_threads s);
  wi_reader : rwl_owner (sys_lock s) = 0 → some_thread (committed ChReaders) (sys_threads s) →
    some_thread (λ t, hope_reader t ∨ waits (t_pc t) = 1) (sys_threads s);
}.

(** Being taken off a queue keeps hope and ends commitments. *)
Lemma hope_writer_same t t' : same_pc t t' → hope_writer t → hope_writer t'.
Proof.
  unfold hope_writer. intros (_ & -> & Hc) H. destruct (t_pc t) as [| [] []| | [] | | |];
    try done; destruct Hc as [->| ->]; auto.
Qed.
Lemma committed_same c t t' : same_pc t t' → committed c t' → committed c t.
Proof.
  unfold committed, queued. intros (_ & -> & [->| ->]) [Hq H]; [done|by destruct c].
Qed.

(** *** One step of the thread itself *)

Lemma step_release l l' t t' :
  is_proc (t_proc t) → is_u64 (rwl_owner l) → step_effect l l' t t' →
  rwl_owner l ≠ 0 → rwl_owner l' = 0 → t_pc t' = Exit EX_waiters.
Proof.
  intros Hp Hu (_ & _ & Ho & _) Hne H0. pose proof (self_pos t Hp). unfold is_u64 in Hu.
  destruct Ho; auto; lia.
Qed.

(** Follow a step of a thread whose program counter is known. *)
Ltac step_pc Hs Hpc :=
  unfold rw_step, rw_do_enter_write, rw_do_enter_read, rw_exit, rw_cas, continue in Hs;
  rewrite Hpc in Hs.

Lemma step_hope_writer ch l t l' t' w :
  is_signal ch = false → is_proc (t_proc t) → rw_step ch l t = Some (l', t', w) →
  rwl_owner l = 0 → rwl_owner l' = 0 → hope_writer t →
  hope_writer t' ∨ ¬ (0 < rwl_waiters l) ∨ w = WakeOne ChWaiters.
Proof.
  intros Hq Hp Hs Ho Ho' Hh. pose proof (self_pos t Hp). unfold hope_writer in Hh.
  destruct (t_pc t) as [|fl []| |[]| | |] eqn:Hpc; try done; step_pc Hs Hpc; destruct ch; try done.
  all: rewrite ?Ho in Hs; step_cases Hs; rewrite ?Z.ltb_lt, ?Z.ltb_ge in *; auto with lia.
  all: try (left; unfold hope_writer; cbn; rewrite ?Ho; auto; done).
  all: try (destruct Hh as [->|Hh]; done).
  cbn in Ho'. lia.
Qed.

Lemma step_hope_reader ch l t l' t' w :
  rw_step ch l t = Some (l', t', w) → hope_reader t →
  hope_reader t' ∨ 0 < rwl_waiters l ∨ ¬ (0 < rwl_readers l) ∨ w = WakeAll ChReaders.
Proof.
  intros Hs Hh. unfold hope_reader in Hh.
  destruct (t_pc t) as [| | |[]| | |] eqn:Hpc; try done; step_pc Hs Hpc; destruct ch; try done.
  all: step_cases Hs; rewrite ?Z.ltb_lt, ?Z.ltb_ge in *; cbn; auto with lia.
Qed.

(** A thread commits itself to sleep only on what it sees of the lock. *)
Lemma step_committed ch l t l' t' w c :
  rw_step ch l t = Some (l', t', w) → committed c t' →
  committed c t ∨ rwl_owner l ≠ 0 ∨ (c = ChReaders ∧ 0 < rwl_waiters l).
Proof.
  intros Hs [Hq Hc]. unfold committed.
  destruct (t_pc t) as [h ret|fl k|fl k|k|k| |] eqn:Hpc; step_pc Hs Hpc; [|destruct k..| |];
    destruct ch; try done; unfold rw_downgrade, rw_upgrade, rw_cas, continue in Hs.
  all: step_cases Hs; cbn in Hc, Hq.
  all: try (unfold enter_call, rw_enter in Hc; repeat case_match; done).
  all: destruct c; try done; rewrite ?Z.ltb_lt in *; auto.
  all: try (right; left; done).
  all: try (left; split; [done|]; destruct (Z.eqb_spec owner 0); done).
  right; left. intros H0. by rewrite H0 in Hc.
Qed.

Lemma step_waits ch l t l' t' w :
  is_signal ch = false → rw_step ch l t = Some (l', t', w) →
  waits (t_pc t) = 1 → writes (t_pc t) = 0 → ¬ gave_up t → waits (t_pc t') = 1.
Proof.
  intros Hq Hs Hw Hnw Hg. unfold gave_up in Hg.
  destruct (t_pc t) as [|fl []| | | | |] eqn:Hpc; try done; step_pc Hs Hpc; destruct ch; try done.
  all: step_cases Hs; done.
Qed.

Lemma step_quiet ch l t l' t' w :
  is_signal ch = false → rw_step ch l t = Some (l', t', w) → ¬ gave_up t → ¬ gave_up t'.
Proof.
  intros Hq Hs Hg. unfold gave_up in Hg.
  destruct (t_pc t) as [h ret|fl k|fl k|k|k| |] eqn:Hpc; step_pc Hs Hpc; [|destruct k..| |];
    destruct ch; try done; unfold rw_downgrade, rw_upgrade, rw_cas, continue in Hs.
  all: step_cases Hs; try (cbn; tauto).
  unfold gave_up, enter_call, rw_enter; cbn; repeat case_match; simplify_eq; tauto.
Qed.

(** *** The whole system *)

Lemma wakes_lookup w ts ts' j tj :
  wakes w ts ts' → ts !! j = Some tj → ∃ tj', ts' !! j = Some tj' ∧ same_pc tj tj'.
Proof. intros Hw. apply same_pc_lookup. by eapply wakes_same. Qed.

Lemma wakes_lookup_inv w ts ts' j tj' :
  wakes w ts ts' → ts' !! j = Some tj' → ∃ tj, ts !! j = Some tj ∧ same_pc tj tj'.
Proof.
  intros Hw Hj. eapply Forall2_lookup_r in Hj as (tj & ? & ?); [|by eapply wakes_same]. eauto.
Qed.

(** After [wakeup] nobody is left on the queue; [wakeup_one] takes one thread off
    it, unless it was empty. *)
Lemma wakes_all_queue c ts ts' j tj :
  wakes (WakeAll c) ts ts' → ts' !! j = Some tj → queued c tj = false.
Proof.
  intros Hw Hj. inversion Hw; subst. rewrite list_lookup_fmap in Hj.
  apply fmap_Some in Hj as (t & _ & ->). unfold woken. destruct (queued c t) eqn:E; [by destruct c|done].
Qed.

Lemma wakes_one_queue c ts ts' :
  wakes (WakeOne c) ts ts' →
  some_thread (λ t, t_wchan t = None ∧ ∃ t0, t = unsleep t0 ∧ queued c t0 = true ∧ some_thread (eq t0) ts) ts' ∨
  Forall (λ t, queued c t = false) ts'.
Proof.
  intros Hw. inversion Hw; subst; [left|by right].
  exists i, (unsleep t). split; [by apply list_lookup_insert_eq, lookup_lt_is_Some_1; eauto|].
  split; [done|]. exists t. split_and!; try done. by exists i, t.
Qed.

Lemma committed_waits t : committed ChWaiters t → waits (t_pc t) = 1.
Proof. unfold committed. intros [_ H]. destruct (t_pc t) as [|fl []|fl []| | | |]; done. Qed.
Lemma committed_rwaits t : committed ChReaders t → rwaits (t_pc t) = 1.
Proof. unfold committed. intros [_ H]. destruct (t_pc t) as [|fl []|fl []| | | |]; done. Qed.

(** A writer taken off its queue will try again. *)
Lemma woken_hope t : thread_ok t → queued ChWaiters t = true → hope_writer (unsleep t).
Proof.
  unfold thread_ok, queued, hope_writer. intros [_ Hq] Hc. destruct (t_wchan t) as [[]|]; try done.
  destruct (t_pc t) as [|fl []|fl []| | | |] eqn:E; cbn in *; rewrite E; try done; auto.
Qed.

Section QuietStep.
Context (s s' : system) (i : nat) (ch : choice) (t t' : thread) (w : wake).
Context (Hinv : sys_inv s) (Hwi : wake_inv s) (Hq : is_signal ch = false).
Context (Hi : sys_threads s !! i = Some t).
Context (Hs : rw_step ch (sys_lock s) t = Some (sys_lock s', t', w)).
Context (Hw : wakes w (<[i := t']> (sys_threads s)) (sys_threads s')).

(** Between the step of the thread and the wakeup. *)
Lemma mid_lookup j tj :
  <[i := t']> (sys_threads s) !! j = Some tj →
  (j = i ∧ tj = t') ∨ (j ≠ i ∧ sys_threads s !! j = Some tj).
Proof using Hi.
  destruct (decide (j = i)) as [->|Hne].
  - rewrite list_lookup_insert_eq by (by eapply lookup_lt_Some). intros [= <-]. auto.
  - rewrite list_lookup_insert_ne by done. auto.
Qed.

Lemma mid_self : <[i := t']> (sys_threads s) !! i = Some t'.
Proof using Hi. apply list_lookup_insert_eq. by eapply lookup_lt_Some. Qed.

(** A property of a thread that wakeups keep. *)
Lemma some_self (P : thread → Prop) :
  (∀ t t', same_pc t t' → P t → P t') → P t' → some_thread P (sys_threads s').
Proof using Hi Hw.
  intros Hsame HP. destruct (wakes_lookup _ _ _ _ _ Hw mid_self) as (t2 & H2 & Hs2).
  exists i, t2. eauto.
Qed.
Lemma some_other (P : thread → Prop) j tj :
  (∀ t t', same_pc t t' → P t → P t') → j ≠ i → sys_threads s !! j = Some tj → P tj →
  some_thread P (sys_threads s').
Proof using Hi Hw.
  intros Hsame Hne Hj HP.
  destruct (wakes_lookup w _ _ j tj Hw) as (t2 & H2 & Hs2); [by rewrite list_lookup_insert_ne|].
  exists j, t2. eauto.
Qed.

(** Who is committed after the step was before it, or saw a reason. *)
Lemma committed_before c :
  some_thread (committed c) (sys_threads s') →
  some_thread (committed c) (sys_threads s) ∨ rwl_owner (sys_lock s) ≠ 0 ∨
  (c = ChReaders ∧ 0 < rwl_waiters (sys_lock s)).
Proof using Hi Hs Hw.
  intros (j & tj' & Hj & Hc). destruct (wakes_lookup_inv _ _ _ _ _ Hw Hj) as (tj & Hj1 & Hsame).
  apply (committed_same _ _ _ Hsame) in Hc.
  destruct (mid_lookup j tj Hj1) as [[-> ->]|[Hne Hj0]]; [|left; by exists j, tj].
  destruct (step_committed _ _ _ _ _ _ _ Hs Hc) as [?|?]; [left; by exists i, t|by right].
Qed.

Lemma mid_ok j tj : <[i := t']> (sys_threads s) !! j = Some tj → thread_ok tj.
Proof using Hinv Hi Hs.
  intros Hj. destruct (mid_lookup j tj Hj) as [[-> ->]|[_ Hj0]].
  - by destruct (sys_step_effect _ _ _ _ _ _ _ Hinv Hi Hs) as (_ & ? & _).
  - by destruct (inv_facts _ _ _ Hinv Hj0).
Qed.

Lemma released : rwl_owner (sys_lock s) ≠ 0 → rwl_owner (sys_lock s') = 0 → t_pc t' = Exit EX_waiters.
Proof using Hinv Hi Hs.
  intros Hne H0.
  destruct (inv_facts _ i t Hinv Hi) as [Hf Hok].
  eapply step_release; [apply Hf|apply Hf|by eapply sys_step_effect|done|done].
Qed.

Lemma quiet_writer :
  rwl_owner (sys_lock s') = 0 → some_thread (committed ChWaiters) (sys_threads s') →
  some_thread hope_writer (sys_threads s').
Proof using All.
  intros H0' Hc. destruct (decide (rwl_owner (sys_lock s) = 0)) as [H0|Hne].
  - destruct (committed_before _ Hc) as [Hcs|[?|[? _]]]; [|done..].
    destruct (wi_writer _ Hwi H0 Hcs) as (h & th & Hh & Hhope).
    destruct (decide (h = i)) as [->|Hhne]; [|by eapply some_other; [apply hope_writer_same|..]].
    assert (th = t) as -> by congruence. destruct (inv_facts _ i t Hinv Hi) as [[Hp _ _ _ _ _] _].
    destruct (step_hope_writer _ _ _ _ _ _ Hq Hp Hs H0 H0' Hhope) as [Ht'|[Hno|Ew]].
    + apply some_self; [apply hope_writer_same|done].
    + destruct Hcs as (j & tj & Hj & Hcj). rewrite (si_waiters _ Hinv) in Hno.
      pose proof (tsum_ge waits _ _ _ waits_counts Hj). rewrite (committed_waits _ Hcj) in *. lia.
    + pose proof Hw as Hw1. rewrite Ew in Hw1. destruct (wakes_one_queue _ _ _ Hw1) as [(j & tj & Hj & _ & t0 & -> & Hq0 & k & tk & Hk & <-)|Hnone].
      * exists j, (unsleep t0). split; [done|]. apply woken_hope; [by eapply mid_ok|done].
      * destruct Hc as (j & tj & Hj & [Hcq _]). pose proof (Forall_lookup_1 _ _ _ _ Hnone Hj) as E.
        cbn in E. congruence.
  - apply some_self; [apply hope_writer_same|]. unfold hope_writer. by rewrite released.
Qed.

Lemma quiet_reader :
  rwl_owner (sys_lock s') = 0 → some_thread (committed ChReaders) (sys_threads s') →
  some_thread (λ t, hope_reader t ∨ waits (t_pc t) = 1) (sys_threads s').
Proof using All.
  assert (∀ t t', same_pc t t' → hope_reader t ∨ waits (t_pc t) = 1 →
    hope_reader t' ∨ waits (t_pc t') = 1) as Hsame.
  { intros t1 t2 (_ & Hpc & _). unfold hope_reader. by rewrite Hpc. }
  intros H0' Hc. destruct (decide (rwl_owner (sys_lock s) = 0)) as [H0|Hne].
  - assert (waits (t_pc t) = 1 →
      some_thread (λ t, hope_reader t ∨ waits (t_pc t) = 1) (sys_threads s')) as Hself.
    { intros Hwt. apply some_self; [done|]. right. eapply step_waits; [done|exact Hs|done| |].
      - destruct (inv_facts _ i t Hinv Hi) as [[Hp _ Hwr _ _ _] _]. pose proof (self_pos t Hp).
        destruct (writes_counts (t_pc t)); [done|]. rewrite Hwr in H0 by done. lia.
      - exact (Forall_lookup_1 _ _ _ _ (wi_quiet _ Hwi) Hi). }
    assert (0 < rwl_waiters (sys_lock s) → some_thread (λ t, hope_reader t ∨ waits (t_pc t) = 1) (sys_threads s'))
      as Hwaiting.
    { rewrite (si_waiters _ Hinv). intros Hpos. destruct (tsum_pos _ _ waits_counts Hpos) as (h & th & Hh & Hwt).
      destruct (decide (h = i)) as [->|Hhne]; [|by eapply some_other; eauto].
      assert (th = t) as -> by congruence. auto. }
    destruct (committed_before _ Hc) as [Hcs|[?|[_ ?]]]; [|done|auto].
    destruct (wi_reader _ Hwi H0 Hcs) as (h & th & Hh & Hhope).
    destruct (decide (h = i)) as [->|Hhne]; [|by eapply some_other].
    assert (th = t) as -> by congruence. destruct Hhope as [Hhope|Hwt].
    + destruct (step_hope_reader _ _ _ _ _ _ Hs Hhope) as [Ht'|[?|[Hno|Ew]]].
      * apply some_self; auto.
      * auto.
      * destruct Hcs as (j & tj & Hj & Hcj). rewrite (si_readers _ Hinv) in Hno.
        pose proof (tsum_ge rwaits _ _ _ rwaits_counts Hj). rewrite (committed_rwaits _ Hcj) in *. lia.
      * destruct Hc as (j & tj & Hj & [Hcq _]). pose proof Hw as Hw1. rewrite Ew in Hw1.
        by rewrite (wakes_all_queue _ _ _ _ _ Hw1 Hj) in Hcq.
    + auto.
  - apply some_self; [done|]. left. unfold hope_reader. by rewrite released.
Qed.

Lemma quiet_inv : wake_inv s'.
Proof using All.
  split; [|exact quiet_writer|exact quiet_reader]. apply Forall_lookup. intros j tj' Hj.
  destruct (wakes_lookup_inv _ _ _ _ _ Hw Hj) as (tj & Hj1 & _ & Hpc & _).
  assert (¬ gave_up tj) as Hg; [|unfold gave_up in *; by rewrite Hpc].
  destruct (mid_lookup j tj Hj1) as [[-> ->]|[_ Hj0]].
  - eapply step_quiet; [done|exact Hs|]. exact (Forall_lookup_1 _ _ _ _ (wi_quiet _ Hwi) Hi).
  - exact (Forall_lookup_1 _ _ _ _ (wi_quiet _ Hwi) Hj0).
Qed.
End QuietStep.

(** ** Runs in which no signal arrives *)

Definition quiet_reachable (procs : list Z) : system → Prop := rtc quiet_step (initial procs).

Lemma quiet_reachable_inv procs s :
  procs_ok procs → quiet_reachable procs s → sys_inv s ∧ wake_inv s.
Proof.
  intros Hp Hr. apply (rtc_ind_r (λ s, sys_inv s ∧ wake_inv s) (initial procs)) in Hr; [done| |].
  - split; [by apply initial_inv|].
    assert (∀ j tj, sys_threads (initial procs) !! j = Some tj → t_pc tj = Out Unlocked 0) as Hout.
    { intros j tj Hj. cbn in Hj. rewrite list_lookup_fmap in Hj. by apply fmap_Some in Hj as (? & _ & ->). }
    split.
    + apply Forall_lookup. intros j tj Hj. unfold gave_up. rewrite (Hout j tj Hj). tauto.
    + intros _ (j & tj & Hj & _ & Hc). by rewrite (Hout j tj Hj) in Hc.
    + intros _ (j & tj & Hj & _ & Hc). by rewrite (Hout j tj Hj) in Hc.
  - intros x y _ (i & ch & Hq & Hstep) [Hx Hwx]. split; [eapply (sys_inv_step x y Hx); by exists i, ch|].
    destruct Hstep as [t t' w Hi Hs Hw]. by eapply quiet_inv.
Qed.

(** What ends the sleep of a thread on [c]: a writer is woken alone, the readers
    all together, and a writer goes before the readers. *)
Definition answers (c : wchan) (w : wake) : Prop :=
  match c with
  | ChWaiters => w = WakeOne ChWaiters
  | ChReaders => w = WakeAll ChReaders ∨ w = WakeOne ChWaiters
  end.

(** The counter of the threads that sleep on [c]. *)
Definition sleepers (c : wchan) (l : rwlock) : Z :=
  match c with ChWaiters => rwl_waiters l | ChReaders => rwl_readers l end.

(** Within its next [n] steps the thread answers a sleeper on [c] or takes the lock,
    each step being possible, whatever the other threads do in between: they may
    change the words of the lock as long as it is free and has the sleeper, and
    take the thread off its queue. *)
Fixpoint pledged (c : wchan) (n : nat) (t : thread) : Prop :=
  match n with
  | O => False
  | S n =>
      ∀ l t1, rwl_owner l = 0 → 0 < sleepers c l → same_pc t t1 →
        match rw_step Go l t1 with
        | Some (l', t', w) => answers c w ∨ rwl_owner l' ≠ 0 ∨ pledged c n t'
        | None => False
        end
  end.

#[global] Arguments pledged : simpl never.

Lemma pledged_step c n t :
  (∀ l t1, rwl_owner l = 0 → 0 < sleepers c l → same_pc t t1 →
     match rw_step Go l t1 with
     | Some (l', t', w) => answers c w ∨ rwl_owner l' ≠ 0 ∨ pledged c n t'
     | None => False
     end) → pledged c (S n) t.
Proof. done. Qed.

Lemma pledged_S c n t : pledged c n t → pledged c (S n) t.
Proof.
  revert t. induction n as [|n IH]; [done|]. intros t H l t1 Ho Hs Hsame.
  specialize (H l t1 Ho Hs Hsame). destruct (rw_step Go l t1) as [[[l' t'] w]|]; [|done].
  destruct H as [?|[?|?]]; auto.
Qed.

Lemma pledged_le c n m t : (n ≤ m)%nat → pledged c n t → pledged c m t.
Proof. induction 1; auto using pledged_S. Qed.

(** The first step of a pledge at a thread whose program counter is [Hpc]. *)
Ltac pledge_step Hpc :=
  apply pledged_step; intros l ? Ho Hs (?Hp & ?Hq & ?Hc); unfold rw_step; rewrite ?Hq, ?Hpc; cbn;
  rewrite ?Hpc; cbn; rewrite ?Ho; cbn.

Lemma pledged_wake_one c t : t_pc t = Exit EX_wake_one → pledged c 1 t.
Proof. intros Hpc. pledge_step Hpc. left. destruct c; cbn; auto. Qed.

Lemma pledged_cas2 c t flags : is_proc (t_proc t) → t_pc t = EnterWrite flags EW_cas2 → pledged c 1 t.
Proof.
  intros Ht Hpc. pledge_step Hpc. right. left. unfold t_self. rewrite Hp.
  pose proof (self_pos t Ht). unfold t_self in *. lia.
Qed.

Lemma pledged_finish c t flags o :
  is_proc (t_proc t) → t_pc t = EnterWrite flags (EW_finish o) → o = 0 ∨ t_wchan t = None →
  pledged c 2 t.
Proof.
  intros Ht Hpc Hor. pledge_step Hpc.
  destruct (t_wchan t1) eqn:Hw.
  - destruct Hor as [->|Hn]; [|destruct Hc; congruence]. cbn. right. right.
    apply (pledged_cas2 c _ flags); cbn; by rewrite ?Hp.
  - cbn. right. right. apply (pledged_cas2 c _ flags); cbn; by rewrite ?Hp.
Qed.

Lemma pledged_asleep c t flags :
  is_proc (t_proc t) → t_pc t = EnterWrite flags EW_asleep → t_wchan t = None → pledged c 2 t.
Proof.
  intros Ht Hpc Hn. pledge_step Hpc. destruct (t_wchan t1) eqn:Hw; [destruct Hc; congruence|].
  cbn. right. right. apply (pledged_cas2 c _ flags); cbn; by rewrite ?Hp.
Qed.

Lemma pledged_load c t flags : is_proc (t_proc t) → t_pc t = EnterWrite flags EW_load → pledged c 3 t.
Proof.
  intros Ht Hpc. pledge_step Hpc. right. right.
  apply (pledged_finish c _ flags 0); cbn; rewrite ?Hp; auto.
Qed.

Lemma pledged_wake_all t : t_pc t = Exit EX_wake_all → pledged ChReaders 1 t.
Proof. intros Hpc. pledge_step Hpc. left. cbn. auto. Qed.

Lemma pledged_readers t : t_pc t = Exit EX_readers → pledged ChReaders 2 t.
Proof.
  intros Hpc. pledge_step Hpc. cbn in Hs. right. right.
  destruct (Z.ltb_spec 0 (rwl_readers l)); [by apply pledged_wake_all|lia].
Qed.

Lemma pledged_waiters c t : t_pc t = Exit EX_waiters → pledged c 3 t.
Proof.
  intros Hpc. pledge_step Hpc. right. right. destruct (Z.ltb_spec 0 (rwl_waiters l)).
  - apply (pledged_le c 1); [lia|]. by apply pledged_wake_one.
  - destruct c; cbn in Hs; [lia|]. by apply pledged_readers.
Qed.

(** A writer about to try again, or a thread about to wake one. *)
Lemma hope_pledged c t : is_proc (t_proc t) → hope_writer t → pledged c 4 t.
Proof.
  intros Ht Hh. unfold hope_writer in Hh.
  destruct (t_pc t) as [|fl []| |[]| | |] eqn:Hpc; try done.
  - pledge_step Hpc. right. right. apply (pledged_load c _ fl); cbn; by rewrite ?Hp.
  - apply (pledged_le c 3); [lia|]. by apply (pledged_load c _ fl).
  - apply (pledged_le c 2); [lia|]. by apply (pledged_finish c _ fl owner).
  - apply (pledged_le c 2); [lia|]. by apply (pledged_asleep c _ fl).
  - apply (pledged_le c 1); [lia|]. by apply (pledged_cas2 c _ fl).
  - apply (pledged_le c 3); [lia|]. by apply pledged_waiters.
  - apply (pledged_le c 1); [lia|]. by apply pledged_wake_one.
Qed.

(** A thread about to wake the readers. *)
Lemma hope_reader_pledged t : hope_reader t → pledged ChReaders 4 t.
Proof.
  unfold hope_reader. intros Hh. destruct (t_pc t) as [| | |[]| | |] eqn:Hpc; try done.
  - apply (pledged_le _ 3); [lia|]. by apply pledged_waiters.
  - apply (pledged_le _ 2); [lia|]. by apply pledged_readers.
  - apply (pledged_le _ 1); [lia|]. by apply pledged_wake_all.
Qed.

(** A counted waiter has the lock, tries again, is committed, or gave up. *)
Lemma waiting_cases t :
  thread_ok t → waits (t_pc t) = 1 →
  writes (t_pc t) = 1 ∨ hope_writer t ∨ committed ChWaiters t ∨ gave_up t.
Proof.
  unfold thread_ok, hope_writer, committed, gave_up, queued. intros [_ Hq] Hw.
  destruct (t_pc t) as [|fl []| | | | |]; try done; auto.
  all: destruct (t_wchan t) as [[]|]; try done; auto.
  destruct (decide (owner = 0)); auto.
Qed.

(** A sleeper is counted. *)
Lemma committed_sleepers s i t c :
  sys_inv s → sys_threads s !! i = Some t → committed c t → 0 < sleepers c (sys_lock s).
Proof.
  intros Hinv Hi Hc. destruct c; cbn.
  - rewrite (si_waiters _ Hinv). pose proof (tsum_ge waits _ _ _ waits_counts Hi) as H.
    rewrite (committed_waits _ Hc) in H. lia.
  - rewrite (si_readers _ Hinv). pose proof (tsum_ge rwaits _ _ _ rwaits_counts Hi) as H.
    rewrite (committed_rwaits _ Hc) in H. lia.
Qed.

(** C2: No wakeup is lost.  In any run without signals, whenever a thread sleeps
    (or is about to) on the lock, then some thread holds the lock, or the lock is
    free and some thread is pledged to the sleeper: each of its next steps is
    possible, and within four of them it either takes the lock itself or issues the
    wakeup the sleeper waits for ([wakeup_one] of the writers for a writer;
    [wakeup] of the readers, or of a writer before them, for a reader), whatever
    the other threads do in between while the lock stays free. *)
Theorem rwlock_no_lost_wakeup procs s i t c :
  procs_ok procs → quiet_reachable procs s →
  sys_threads s !! i = Some t → committed c t →
  some_thread (λ t, writes (t_pc t) = 1 ∨ reads (t_pc t) = 1) (sys_threads s) ∨
  (rwl_owner (sys_lock s) = 0 ∧ 0 < sleepers c (sys_lock s) ∧
   some_thread (pledged c 4) (sys_threads s)).
Proof.
  intros Hp Hr Hi Hc. destruct (quiet_reachable_inv _ _ Hp Hr) as [Hinv [Hquiet Hww Hwr]].
  destruct (decide (rwl_owner (sys_lock s) = 0)) as [H0|Hne].
  - right. split; [done|]. split; [by eapply committed_sleepers|].
    assert (some_thread hope_writer (sys_threads s) → some_thread (pledged c 4) (sys_threads s)) as Hpledge.
    { intros (j & tj & Hj & Hh). exists j, tj. split; [done|]. apply hope_pledged; [|done].
      exact (Forall_lookup_1 _ _ _ _ (si_isproc _ Hinv) Hj). }
    destruct c; [apply Hpledge, Hww; [done|by exists i, t]|].
    destruct Hwr as (j & tj & Hj & [Hh|Hwt]); [done|by exists i, t| |].
    { exists j, tj. split; [done|]. by apply hope_reader_pledged. }
    apply Hpledge. destruct (inv_facts _ _ _ Hinv Hj) as [[Hpr _ Hwj _ _ _] Hok].
    pose proof (self_pos _ Hpr). pose proof (Forall_lookup_1 _ _ _ _ Hquiet Hj) as Hg.
    destruct (waiting_cases tj Hok Hwt) as [Hw1|[?|[?|?]]]; [|by exists j, tj|apply Hww; [done|by exists j, tj]|done].
    rewrite (Hwj Hw1) in H0. lia.
  - left. destruct (si_owner _ Hinv) as [[_ Ho]|(_ & _ & j & tj & Hj & Hwj & _)].
    + destruct (tsum_pos reads (sys_threads s) reads_counts) as (j & tj & Hj & Hrj);
        [pose proof (tsum_bounds reads (sys_threads s) reads_counts); lia|]. exists j, tj. auto.
    + exists j, tj. auto.
Qed.

(** The theorems at a run of three threads: the first takes the lock for
    writing, the second goes to sleep. *)
Definition run_step : Type := nat * choice * option nat.

(** Execute a run; the last component tells which thread [wakeup_one] takes. *)
Definition exec_wake (w : wake) (pick : option nat) (ts : list thread) : option (list thread) :=
  match w, pick with
  | NoWake, _ => Some ts
  | WakeAll c, _ => Some (woken c <$> ts)
  | WakeOne c, Some i =>
      match ts !! i with
      | Some t => if queued c t then Some (<[i := unsleep t]> ts) else None
      | None => None
      end
  | WakeOne c, None => if forallb (λ t, negb (queued c t)) ts then Some ts else None
  end.
Fixpoint exec (run : list run_step) (s : system) : option system :=
  match run with
  | [] => Some s
  | (i, ch, pick) :: run =>
      match sys_threads s !! i with
      | None => None
      | Some t =>
          match rw_step ch (sys_lock s) t with
          | None => None
          | Some (l, t, w) =>
              match exec_wake w pick (<[i := t]> (sys_threads s)) with
              | Some ts => exec run (System l ts)
              | None => None
              end
          end
      end
  end.

Lemma exec_wake_sound w pick ts ts' : exec_wake w pick ts = Some ts' → wakes w ts ts'.
Proof.
  destruct w as [|c|c]; cbn.
  - intros [= <-]. constructor.
  - destruct pick as [i|].
    + destruct (ts !! i) as [t|] eqn:Hi; [|done]. destruct (queued c t) eqn:Hq; [|done].
      intros [= <-]. by econstructor.
    + destruct (forallb _ ts) eqn:Hall; [|done]. intros [= <-]. constructor.
      apply Is_true_eq_left, forallb_True in Hall. eapply Forall_impl; [exact Hall|].
      cbn. intros t. by destruct (queued c t).
  - intros [= <-]. constructor.
Qed.

Lemma exec_sound (P : choice → Prop) run s s' :
  Forall (λ st : run_step, P st.1.2) run → exec run s = Some s' →
  rtc (λ s s', ∃ i ch, P ch ∧ thread_step i ch s s') s s'.
Proof.
  intros HP. revert s. induction HP as [|[[i ch] pick] run Hch _ IH]; intros s; cbn.
  { intros [= <-]. apply rtc_refl. }
  destruct (sys_threads s !! i) as [t|] eqn:Hi; [|done].
  destruct (rw_step ch (sys_lock s) t) as [[[l t'] w]|] eqn:Hs; [|done].
  destruct (exec_wake w pick _) as [ts|] eqn:Hw; [|done]. intros Hrun.
  eapply rtc_l; [|by apply IH]. exists i, ch. split; [done|].
  econstructor; [done|exact Hs|]. by eapply exec_wake_sound.
Qed.

Lemma exec_reachable run procs s : exec run (initial procs) = Some s → reachable procs s.
Proof.
  intros Hrun. apply (exec_sound (λ _, True)) in Hrun; [|by apply Forall_true].
  eapply rtc_subrel; [|exact Hrun]. intros x y (i & ch & _ & ?). by exists i, ch.
Qed.

Lemma exec_quiet run procs s :
  Forall (λ st : run_step, is_signal st.1.2 = false) run → exec run (initial procs) = Some s →
  quiet_reachable procs s.
Proof. intros HP Hrun. by apply (exec_sound (λ ch, is_signal ch = false)) in Hrun. Qed.

Definition threads3 : list Z := [0x1000; 0x2000; 0x3000].

(** Thread [i] calls [rw_enter] with these flags while another holds the lock, and
    goes to sleep. *)
Definition enter_write_sleeps (i : nat) (flags : Z) : list run_step :=
  [(i, Call (call_rw_enter flags), None); (i, KernelLocked, None); (i, Go, None); (i, Go, None);
   (i, Go, None); (i, Go, None)].

(** The first thread takes the lock, the second sleeps. *)
Definition run_sleep : list run_step :=
  [(0%nat, Call (call_rw_enter RW_WRITE), None); (0%nat, Go, None)] ++
  enter_write_sleeps 1 RW_WRITE.

Definition state_sleep : system :=
  System (Rwlock 0x1004 1 0)
    [Thread 0x1000 (Out WriteLocked 0) None;
     Thread 0x2000 (EnterWrite RW_WRITE EW_asleep) (Some ChWaiters);
     Thread 0x3000 (Out Unlocked 0) None].

Lemma run_sleep_exec : exec run_sleep (initial threads3) = Some state_sleep.
Proof. vm_compute. reflexivity. Qed.
Lemma state_sleep_quiet : quiet_reachable threads3 state_sleep.
Proof. apply (exec_quiet run_sleep); [repeat constructor|exact run_sleep_exec]. Qed.
Lemma state_sleep_reachable : reachable threads3 state_sleep.
Proof. exact (exec_reachable run_sleep _ _ run_sleep_exec). Qed.

Lemma rwlock_mutual_exclusion_witness :
  reachable threads3 state_sleep ∧ writes (EnterWrite RW_WRITE EW_asleep) = 0 ∧
  reads (EnterWrite RW_WRITE EW_asleep) = 0.
Proof.
  split; [exact state_sleep_reachable|].
  exact (rwlock_mutual_exclusion threads3 state_sleep 0 1 _ _ procs_ok_example
    state_sleep_reachable eq_refl eq_refl ltac:(discriminate) eq_refl).
Defined.

Lemma rwlock_never_panics_witness :
  reachable threads3 state_sleep ∧
  owner_ok (rwl_owner (sys_lock state_sleep)) (sys_threads state_sleep) ∧
  rwl_waiters (sys_lock state_sleep) = tsum waits (sys_threads state_sleep).
Proof.
  split; [exact state_sleep_reachable|].
  destruct (rwlock_never_panics threads3 state_sleep procs_ok_example state_sleep_reachable)
    as (_ & Ho & Hw & _). exact (conj Ho Hw).
Defined.

Lemma rw_status_spec_witness :
  rw_status (sys_lock state_sleep) (Thread 0x2000 (EnterWrite RW_WRITE EW_asleep) (Some ChWaiters)) =
    RW_WRITE_OTHER.
Proof.
  destruct (rw_status_spec threads3 state_sleep 1 _ procs_ok_example state_sleep_reachable eq_refl)
    as (_ & [_ Hother] & _).
  apply Hother. split; reflexivity.
Defined.

(** ... and the first has just released it: the sleeper depends on the pledge. *)
Definition run_release : list run_step :=
  run_sleep ++ [(0%nat, Call call_rw_exit, None); (0%nat, Go, None); (0%nat, Go, None)].

Definition state_release : system :=
  System (Rwlock 0 1 0)
    [Thread 0x1000 (Exit EX_waiters) None;
     Thread 0x2000 (EnterWrite RW_WRITE EW_asleep) (Some ChWaiters);
     Thread 0x3000 (Out Unlocked 0) None].

Lemma state_release_quiet : quiet_reachable threads3 state_release.
Proof. apply (exec_quiet run_release); [repeat constructor|vm_compute; reflexivity]. Qed.

Lemma rwlock_no_lost_wakeup_witness :
  quiet_reachable threads3 state_release ∧
  some_thread (pledged ChWaiters 4) (sys_threads state_release).
Proof.
  split; [exact state_release_quiet|].
  destruct (rwlock_no_lost_wakeup threads3 state_release 1
    (Thread 0x2000 (EnterWrite RW_WRITE EW_asleep) (Some ChWaiters)) ChWaiters procs_ok_example
    state_release_quiet eq_refl) as [Hheld|(_ & _ & Hp)].
  - split; [reflexivity|exact I].
  - exfalso. destruct Hheld as ([|[|[|k]]] & tk & Hk & Hh); cbn in Hk; try discriminate Hk;
      injection Hk as <-; cbn in Hh; destruct Hh; discriminate.
  - exact Hp.
Defined.

(** A thread that does nothing of its own accord: out of any call, or asleep. *)
Definition idle (t : thread) : Prop :=
  match t_pc t with
  | Out _ _ => True
  | EnterWrite _ EW_asleep | EnterRead _ ER_asleep => t_wchan t ≠ None
  | _ => False
  end.

(** It only goes on by a new call or a signal. *)
Lemma idle_step ch l t : idle t → rw_step ch l t ≠ None →
  is_signal ch = true ∨ ∃ h ret c, t_pc t = Out h ret ∧ ch = Call c.
Proof.
  unfold idle, rw_step. intros Hi Hs.
  destruct (t_pc t) as [h ret|fl []|fl []| | | |]; try (exfalso; exact Hi).
  - destruct ch as [| | |c]; try done. right. by exists h, ret, c.
  - destruct ch; try (by left); cbn in Hs; destruct (t_wchan t); done.
  - destruct ch; try (by left); cbn in Hs; destruct (t_wchan t); done.
Qed.

(** C39: A signal can lose a wakeup.  In any reachable state, let a writer that
    entered with RW_INTR have been taken off the queue by [wakeup_one] and not have
    run yet, the lock being free and every other thread out of any call or asleep.
    If a signal is delivered to the writer before it runs, it returns the signal's
    error and passes the wakeup on to nobody: the lock is free, the other threads
    stand as they did, and those asleep on it go on only when a thread makes a new
    call or another signal arrives. *)
Theorem rw_intr_loses_wakeup procs s i t flags k error :
  reachable procs s → rwl_owner (sys_lock s) = 0 →
  sys_threads s !! i = Some t → t_pc t = EnterWrite flags k → t_wchan t = None →
  k = EW_asleep ∨ (∃ owner, k = EW_finish owner) →
  has flags RW_INTR = true → error ≠ 0 →
  (∀ j tj, j ≠ i → sys_threads s !! j = Some tj → idle tj) →
  ∃ s1 s', thread_step i (Signal error) s s1 ∧ thread_step i Go s1 s' ∧ reachable procs s' ∧
    rwl_owner (sys_lock s') = 0 ∧
    sys_threads s' = <[i := goto t (Out Unlocked error)]> (sys_threads s) ∧
    (∀ j ch s2, thread_step j ch s' s2 →
       is_signal ch = true ∨ ∃ tj h ret c, sys_threads s' !! j = Some tj ∧ t_pc tj = Out h ret ∧ ch = Call c).
Proof.
  intros Hr H0 Hi Hpc Hn Hk Hintr Herr Hidle. destruct s as [l ts]. cbn [sys_lock sys_threads] in *.
  pose proof (lookup_lt_Some _ _ _ Hi) as Hlt.
  set (t1 := goto t (EnterWrite flags (EW_dec_err error))).
  set (t' := goto t (Out Unlocked error)).
  set (l' := set_waiters l (rw_dec (rwl_waiters l))).
  assert (unsleep t1 = t1) as Hun by (unfold t1, unsleep, goto; cbn; by rewrite Hn).
  assert (thread_step i (Signal error) (System l ts) (System l (<[i := t1]> ts))) as Hs1.
  { apply (ThreadStep _ _ _ _ t t1 NoWake); cbn; [done| |constructor].
    unfold rw_step. rewrite Hpc. rewrite <-Hun. apply Z.eqb_neq in Herr.
    destruct Hk as [->|[o ->]]; cbn; by rewrite Hintr, Herr. }
  assert (thread_step i Go (System l (<[i := t1]> ts)) (System l' (<[i := t']> ts))) as Hs2.
  { apply (ThreadStep _ _ _ _ t1 t' NoWake); cbn; [by apply list_lookup_insert_eq|done|].
    rewrite list_insert_insert_eq. constructor. }
  exists (System l (<[i := t1]> ts)), (System l' (<[i := t']> ts)). split_and!; try done.
  - eapply rtc_r; [eapply rtc_r; [exact Hr|by exists i, (Signal error)]|by exists i, Go].
  - intros j ch s2 [tj tj' w Hj Hs _]. cbn in Hj.
    assert (idle tj) as Hidlej.
    { destruct (decide (j = i)) as [->|Hne].
      - rewrite list_lookup_insert_eq in Hj by done. injection Hj as <-. exact I.
      - rewrite list_lookup_insert_ne in Hj by done. by eapply Hidle. }
    destruct (idle_step ch l' tj Hidlej) as [?|(h & ret & c & Hout & ->)].
    + cbn in Hs. congruence.
    + by left.
    + right. exists tj, h, ret, c. done.
Qed.

(** The first thread holds the lock, the second (with RW_INTR) and the third sleep
    for it; the first exits and its [wakeup_one] takes the second, which has not run
    yet. *)
Definition run_picked : list run_step :=
  [(0%nat, Call (call_rw_enter RW_WRITE), None); (0%nat, Go, None)] ++
  enter_write_sleeps 1 (Z.lor RW_WRITE RW_INTR) ++ enter_write_sleeps 2 RW_WRITE ++
  [(0%nat, Call call_rw_exit, None); (0%nat, Go, None); (0%nat, Go, None); (0%nat, Go, None);
   (0%nat, Go, Some 1%nat)].

Definition state_picked : system :=
  System (Rwlock 0 2 0)
    [Thread 0x1000 (Out Unlocked 0) None;
     Thread 0x2000 (EnterWrite (Z.lor RW_WRITE RW_INTR) EW_asleep) None;
     Thread 0x3000 (EnterWrite RW_WRITE EW_asleep) (Some ChWaiters)].

Lemma state_picked_reachable : reachable threads3 state_picked.
Proof. apply (exec_reachable run_picked). vm_compute. reflexivity. Qed.

Lemma rw_intr_loses_wakeup_witness :
  ∃ s', reachable threads3 s' ∧ rwl_owner (sys_lock s') = 0 ∧
    sys_threads s' !! 2%nat =
      Some (Thread 0x3000 (EnterWrite RW_WRITE EW_asleep) (Some ChWaiters)).
Proof.
  destruct (rw_intr_loses_wakeup threads3 state_picked 1
    (Thread 0x2000 (EnterWrite (Z.lor RW_WRITE RW_INTR) EW_asleep) None)
    (Z.lor RW_WRITE RW_INTR) EW_asleep 4 state_picked_reachable eq_refl eq_refl eq_refl eq_refl)
    as (s1 & s' & _ & _ & Hr & H0 & Hts & _).
  - left. reflexivity.
  - reflexivity.
  - discriminate.
  - intros [|[|[|j]]] tj Hne Hj; cbn in Hj; try discriminate Hj; injection Hj as <-;
      [exact I|destruct Hne; reflexivity|discriminate].
  - exists s'. split; [exact Hr|]. split; [exact H0|]. rewrite Hts. reflexivity.
Defined.
