(* ===== verification/Rrwlock.v ===== *)
(** Recursive reader/writer locks: [struct rrwlock], [rrw_enter], [rrw_exit] and
    [rrw_status] of sys/kern/kern_rwlock.c, on top of the lock of Rwlock.  A
    thread is either in the outer code, which reads [rwl_owner] and keeps
    [rrwl_wcnt], or inside [rw_enter] or [rw_exit] of the lock within. *)

From stdpp Require Import relations.
From S2P Require Import Prelude Rwlock.

Definition RW_RECURSEFAIL : Z := 0x0080.
Definition EDEADLK : Z := 11.

(** ** State *)

Record rrwlock : Type := Rrwlock {
  rrwl_lock : rwlock;
  rrwl_wcnt : Z;
}.

Definition _rrw_init_flags : rrwlock := Rrwlock _rw_init_flags 0.

Definition set_wcnt (l : rrwlock) (n : Z) : rrwlock := Rrwlock (rrwl_lock l) n.

(** Program counters of [rrw_enter]: at the load of the owner, at the two halves
    of [rrwl_wcnt++], inside [rw_enter], at [rrwl_wcnt = 1]. *)
Inductive ren_pc : Type :=
| RE_load
| RE_inc
| RE_store (wcnt : Z)
| RE_call
| RE_set.

(** ... of [rrw_exit]: at the load of the owner, at the KASSERT, at the two halves
    of [rrwl_wcnt--], at the test for zero, inside [rw_exit]. *)
Inductive rex_pc : Type :=
| RX_load
| RX_assert
| RX_dec
| RX_store (wcnt : Z)
| RX_test
| RX_call.

Inductive rr_pc : Type :=
| ROut (ret : Z)
| REnter (flags : Z) (k : ren_pc)
| RExit (k : rex_pc)
| RPanicked.

(** The frame of a thread in the outer code, with the number of its enters not
    yet undone by an exit. *)
Record frame : Type := Frame {
  f_pc : rr_pc;
  f_depth : Z;
}.

Definition f_goto (f : frame) (k : rr_pc) : frame := Frame k (f_depth f).

Inductive rcall : Type :=
| call_rrw_enter (flags : Z)
| call_rrw_exit.

Inductive rchoice : Type :=
| RGo
| RCall (c : rcall)
| RInner (ch : choice).

Definition routcome : Type := option (rrwlock * thread * frame * wake).

(** ** The operations *)

(** Calling a function of the lock within. *)
Definition call_inner (t : thread) (c : call) : option thread :=
  match t_pc t with Out h _ => Some (goto t (enter_call h c)) | _ => None end.

Definition rw_op (flags : Z) : Z := Z.land flags RW_OPMASK.

Definition rrw_enter (l : rrwlock) (t : thread) (f : frame) (flags : Z) (k : ren_pc) : routcome :=
  let at_ k := f_goto f (REnter flags k) in
  match k with
  | RE_load =>
      if rwl_owner (rrwl_lock l) =? t_self t then
        if has flags RW_RECURSEFAIL then Some (l, t, f_goto f (ROut EDEADLK), NoWake)
        else Some (l, t, at_ RE_inc, NoWake)
      else
        match call_inner t (call_rw_enter flags) with
        | Some t => Some (l, t, at_ RE_call, NoWake)
        | None => None
        end
  | RE_inc => Some (l, t, at_ (RE_store (rrwl_wcnt l)), NoWake)
  | RE_store wcnt =>
      Some (set_wcnt l (u32 (wcnt + 1)), t, Frame (ROut 0) (f_depth f + 1), NoWake)
  | RE_call =>
      match t_pc t with
      | Out _ rv => Some (l, t, if rv =? 0 then at_ RE_set else f_goto f (ROut rv), NoWake)
      | _ => None
      end
  | RE_set =>
      Some (set_wcnt l 1, t,
            Frame (ROut 0) (if rw_op flags =? RW_UPGRADE then f_depth f else f_depth f + 1), NoWake)
  end.

Definition rrw_exit (l : rrwlock) (t : thread) (f : frame) (k : rex_pc) : routcome :=
  let at_ k := f_goto f (RExit k) in
  let call_exit :=
    match call_inner t call_rw_exit with
    | Some t => Some (l, t, at_ RX_call, NoWake)
    | None => None
    end in
  match k with
  | RX_load =>
      if rwl_owner (rrwl_lock l) =? t_self t then Some (l, t, at_ RX_assert, NoWake) else call_exit
  | RX_assert =>
      Some (l, t, if 0 <? rrwl_wcnt l then at_ RX_dec else f_goto f RPanicked, NoWake)
  | RX_dec => Some (l, t, at_ (RX_store (rrwl_wcnt l)), NoWake)
  | RX_store wcnt => Some (set_wcnt l (u32 (wcnt - 1)), t, at_ RX_test, NoWake)
  | RX_test =>
      if negb (rrwl_wcnt l =? 0) then Some (l, t, Frame (ROut 0) (f_depth f - 1), NoWake)
      else call_exit
  | RX_call =>
      match t_pc t with
      | Out _ _ => Some (l, t, Frame (ROut 0) (f_depth f - 1), NoWake)
      | _ => None
      end
  end.

Definition rrw_status (l : rrwlock) (t : thread) : Z := rw_status (rrwl_lock l) t.

(** The calls a thread may make: any enter by the writer, however deep (up to the
    width of the counter), an upgrade by a reader, an exit for each enter. *)
Definition may_rrw (h : hold) (depth : Z) (c : rcall) : bool :=
  match c with
  | call_rrw_enter flags =>
      match h with
      | Unlocked => (rw_op flags =? RW_WRITE) || (rw_op flags =? RW_READ)
      | ReadLocked => (rw_op flags =? RW_UPGRADE) && has flags RW_NOSLEEP
      | WriteLocked => depth <? M32 - 1
      end
  | call_rrw_exit => 0 <? depth
  end.

Definition rrw_entry (c : rcall) : rr_pc :=
  match c with
  | call_rrw_enter flags => REnter flags RE_load
  | call_rrw_exit => RExit RX_load
  end.

(** A step inside [rw_enter] or [rw_exit]. *)
Definition inner_step (ch : choice) (l : rrwlock) (t : thread) (f : frame) : routcome :=
  match t_pc t with
  | Out _ _ => None
  | _ =>
      match rw_step ch (rrwl_lock l) t with
      | Some (lk, t, w) => Some (Rrwlock lk (rrwl_wcnt l), t, f, w)
      | None => None
      end
  end.

Definition rrw_step (rc : rchoice) (l : rrwlock) (t : thread) (f : frame) : routcome :=
  match rc, f_pc f with
  | RInner ch, (REnter _ RE_call | RExit RX_call) => inner_step ch l t f
  | RCall c, ROut _ =>
      match t_pc t with
      | Out h _ =>
          if may_rrw h (f_depth f) c then Some (l, t, f_goto f (rrw_entry c), NoWake) else None
      | _ => None
      end
  | RGo, REnter flags k => rrw_enter l t f flags k
  | RGo, RExit k => rrw_exit l t f k
  | _, _ => None
  end.

(** ** The system *)

Record rsystem : Type := Rsystem {
  rs_lock : rrwlock;
  rs_threads : list thread;
  rs_frames : list frame;
}.

(** The system of the lock within. *)
Definition inner (s : rsystem) : system := System (rrwl_lock (rs_lock s)) (rs_threads s).

Inductive rthread_step (i : nat) (rc : rchoice) (s s' : rsystem) : Prop :=
| RThreadStep t f t' f' w :
    rs_threads s !! i = Some t → rs_frames s !! i = Some f →
    rrw_step rc (rs_lock s) t f = Some (rs_lock s', t', f', w) →
    wakes w (<[i := t']> (rs_threads s)) (rs_threads s') →
    rs_frames s' = <[i := f']> (rs_frames s) → rthread_step i rc s s'.

Definition rsys_step (s s' : rsystem) : Prop := ∃ i rc, rthread_step i rc s s'.

Definition rinitial (procs : list Z) : rsystem :=
  Rsystem _rrw_init_flags (sys_threads (initial procs)) ((λ _, Frame (ROut 0) 0) <$> procs).

Definition rreachable (procs : list Z) : rsystem → Prop := rtc rsys_step (rinitial procs).

(** ** The invariant *)

(** A thread inside [rw_enter (&rrwl_lock, flags)]. *)
Definition entering (flags : Z) (k : pc) : Prop :=
  match k with
  | EnterWrite f e =>
      f = flags ∧ rw_op flags = RW_WRITE ∧ match e with EW_dec_err error => error ≠ 0 | _ => True end
  | EnterRead f e =>
      f = flags ∧ rw_op flags = RW_READ ∧ match e with ER_dec_err error => error ≠ 0 | _ => True end
  | Upgrade => rw_op flags = RW_UPGRADE
  | Out WriteLocked rv => rv = 0 ∧ (rw_op flags = RW_WRITE ∨ rw_op flags = RW_UPGRADE)
  | Out ReadLocked rv =>
      (rv = 0 ∧ rw_op flags = RW_READ) ∨ (rv ≠ 0 ∧ rw_op flags = RW_UPGRADE)
  | Out Unlocked rv => rv ≠ 0 ∧ (rw_op flags = RW_WRITE ∨ rw_op flags = RW_READ)
  | _ => False
  end.

(** A thread inside [rw_exit (&rrwl_lock)]. *)
Definition exiting (k : pc) : Prop :=
  match k with Exit _ | Out Unlocked _ => True | _ => False end.

(** A thread whose pc in the lock within is [k], out of it, has entered [d] times
    while [rrwl_wcnt] is [w]. *)
Definition counted (w : Z) (k : pc) (d : Z) : Prop :=
  match k with
  | Out Unlocked _ => d = 0
  | Out ReadLocked _ => d = 1
  | Out WriteLocked _ => 0 < d < M32 ∧ w = d
  | _ => False
  end.

Definition wholds (k : pc) : Prop :=
  match k with Out WriteLocked _ => True | _ => False end.

Definition frame_ok (w : Z) (k : pc) (f : frame) : Prop :=
  let d := f_depth f in
  match f_pc f with
  | ROut _ => counted w k d
  | REnter flags RE_load =>
      counted w k d ∧ match k with Out h _ => may_rrw h d (call_rrw_enter flags) = true | _ => False end
  | REnter _ RE_inc => counted w k d ∧ wholds k ∧ d < M32 - 1
  | REnter _ (RE_store v) => counted w k d ∧ wholds k ∧ d < M32 - 1 ∧ v = d
  | REnter flags RE_call =>
      entering flags k ∧ d = (if rw_op flags =? RW_UPGRADE then 1 else 0)
  | REnter flags RE_set =>
      entering flags k ∧ d = (if rw_op flags =? RW_UPGRADE then 1 else 0) ∧
      match k with Out _ rv => rv = 0 | _ => False end
  | RExit RX_load => counted w k d ∧ 0 < d
  | RExit (RX_assert | RX_dec) => counted w k d ∧ wholds k
  | RExit (RX_store v) => counted w k d ∧ wholds k ∧ v = d
  | RExit RX_test => wholds k ∧ 0 < d < M32 ∧ w = d - 1
  | RExit RX_call => exiting k ∧ d = 1
  | RPanicked => False
  end.

Record rsys_inv (s : rsystem) : Prop := {
  ri_inner : sys_inv (inner s);
  ri_frames i t f : rs_threads s !! i = Some t → rs_frames s !! i = Some f →
    frame_ok (rrwl_wcnt (rs_lock s)) (t_pc t) f;
}.

(** ** Steps inside the lock *)

Definition panicked (k : pc) : Prop := match k with Panicked _ => True | _ => False end.
Definition outside (k : pc) : Prop := match k with Out _ _ => True | _ => False end.

Ltac entering_done :=
  repeat match goal with
  | H : _ && _ = true |- _ => apply andb_true_iff in H as []
  | H : negb _ = true |- _ => apply negb_true_iff in H
  | H : (_ =? _) = false |- _ => apply Z.eqb_neq in H
  | H : (_ =? _) = true |- _ => apply Z.eqb_eq in H
  | H : ¬ panicked (t_pc _) |- _ => cbn in H
  end; cbn; unfold EBUSY; naive_solver.

Lemma entering_step flags ch l t l' t' w :
  entering flags (t_pc t) → ¬ outside (t_pc t) → rw_step ch l t = Some (l', t', w) →
  ¬ panicked (t_pc t') → entering flags (t_pc t').
Proof.
  intros He Ho Hs Hp. destruct t as [p k wc]; cbn in He, Ho.
  destruct k as [h rv|fl e|fl e|e|e| |fn]; cbn in He; try done; unfold rw_step in Hs; cbn [t_pc] in Hs.
  - destruct He as (-> & Hop & He). unfold rw_do_enter_write, continue in Hs.
    step_cases Hs; entering_done.
  - destruct He as (-> & Hop & He). unfold rw_do_enter_read, continue in Hs.
    step_cases Hs; entering_done.
  - unfold rw_upgrade, continue in Hs. step_cases Hs; entering_done.
Qed.

Lemma exiting_step ch l t l' t' w :
  exiting (t_pc t) → ¬ outside (t_pc t) → rw_step ch l t = Some (l', t', w) →
  ¬ panicked (t_pc t') → exiting (t_pc t').
Proof.
  intros He Ho Hs Hp. destruct t as [p k wc]; cbn in He, Ho. destruct k; cbn in He; try done.
  unfold rw_step in Hs; cbn [t_pc] in Hs. unfold rw_exit, continue in Hs. step_cases Hs; entering_done.
Qed.

(** Starting [rw_enter] as the caller is allowed to. *)
Lemma enter_call_entering h d flags :
  may_rrw h d (call_rrw_enter flags) = true → h ≠ WriteLocked →
  may_call h (call_rw_enter flags) = true ∧ entering flags (enter_call h (call_rw_enter flags)).
Proof.
  unfold may_rrw, may_call, enter_call, rw_enter, rw_op. intros Hm Hh.
  destruct h; [| |done].
  - split; [done|]. apply orb_true_iff in Hm as [Hm|Hm]; rewrite Hm.
    + apply Z.eqb_eq in Hm. cbn. auto.
    + apply Z.eqb_eq in Hm. rewrite Hm. cbn. auto.
  - split; [done|]. apply andb_true_iff in Hm as [Hm ->]. apply Z.eqb_eq in Hm. rewrite Hm. cbn. auto.
Qed.

(** ** Steps of the outer code *)

(** A step of a thread is a step of the lock within or leaves it alone; it changes
    [rrwl_wcnt] only while the thread holds the lock; it keeps the invariant of
    the frame. *)
Definition holds (k : pc) : Prop := reads k = 1 ∨ writes k = 1.

Record frame_effect (l : rrwlock) (t : thread) (l' : rrwlock) (t' : thread) (f' : frame)
    (w : wake) : Prop := {
  fe_inner : (rrwl_lock l' = rrwl_lock l ∧ t' = t ∧ w = NoWake) ∨
    ∃ ch, rw_step ch (rrwl_lock l) t = Some (rrwl_lock l', t', w);
  fe_wcnt : rrwl_wcnt l' = rrwl_wcnt l ∨ holds (t_pc t);
  fe_frame : ¬ panicked (t_pc t') → frame_ok (rrwl_wcnt l') (t_pc t') f';
}.

Lemma call_inner_step l t c t' h rv :
  t_pc t = Out h rv → may_call h c = true → call_inner t c = Some t' →
  rw_step (Call c) l t = Some (l, t', NoWake) ∧ t_pc t' = enter_call h c.
Proof.
  unfold call_inner, rw_step. intros -> -> [= <-]. done.
Qed.

Lemma counted_writer w k d : counted w k d → wholds k → 0 < d < M32 ∧ w = d.
Proof. by destruct k as [[]| | | | | |]. Qed.

Section Outer.
Context (l : rrwlock) (t : thread) (f : frame) (l' : rrwlock) (t' : thread) (f' : frame) (w : wake).
Context (Hown : rwl_owner (rrwl_lock l) = t_self t ↔ writes (t_pc t) = 1).
Context (Hf : frame_ok (rrwl_wcnt l) (t_pc t) f).

Lemma enter_frame flags k :
  f_pc f = REnter flags k → rrw_enter l t f flags k = Some (l', t', f', w) →
  frame_effect l t l' t' f' w.
Proof.
  unfold frame_ok in Hf. intros Hpc Hs. rewrite Hpc in Hf. destruct k; cbn [rrw_enter] in Hs.
  - destruct Hf as [Hc Hm]. destruct (t_pc t) as [h rv| | | | | |] eqn:Ht; try done.
    destruct (Z.eqb_spec (rwl_owner (rrwl_lock l)) (t_self t)) as [E|E].
    + destruct h; cbn in Hown; try (apply Hown in E; discriminate E). cbn in Hc, Hm.
      destruct (has flags RW_RECURSEFAIL); injection Hs as <- <- <- <-; split; auto;
        intros _; unfold frame_ok; cbn; rewrite Ht; cbn; [done|]. split_and!; try done; lia.
    + assert (h ≠ WriteLocked) as Hh by (intros ->; by apply E, Hown).
      destruct (enter_call_entering _ _ _ Hm Hh) as [Hmay Hent].
      destruct (call_inner t _) as [t0|] eqn:Hcall; [|discriminate Hs]. injection Hs as <- <- <- <-.
      destruct (call_inner_step (rrwl_lock l) _ _ _ _ _ Ht Hmay Hcall) as [Hst Hpc0].
      split; auto; [by eauto|]. intros _. unfold frame_ok. cbn. rewrite Hpc0. split; [done|].
      unfold counted, may_rrw in *. destruct h; [| |done].
      * rewrite Hc. apply orb_true_iff in Hm as [Hm|Hm]; apply Z.eqb_eq in Hm; by rewrite Hm.
      * rewrite Hc. apply andb_true_iff in Hm as [Hm _]. by rewrite Hm.
  - injection Hs as <- <- <- <-. split; auto. intros _. unfold frame_ok. cbn.
    destruct Hf as (Hc & Hw & Hd). split_and!; try done. by apply (counted_writer _ _ _ Hc).
  - injection Hs as <- <- <- <-. destruct Hf as (Hc & Hw & Hd & ->).
    destruct (t_pc t) as [[]| | | | | |] eqn:Ht; try done. cbn in Hc.
    split; auto; [right; rewrite Ht; by right|]. intros _. unfold frame_ok. cbn. rewrite Ht. cbn.
    rewrite u32_small by (unfold is_u32; lia). lia.
  - destruct Hf as [He Hd]. destruct (t_pc t) as [h rv| | | | | |] eqn:Ht; try discriminate Hs.
    injection Hs as <- <- <- <-. split; auto. intros _. unfold frame_ok. rewrite Ht.
    destruct (Z.eqb_spec rv 0) as [->|Hrv]; cbn; [done|].
    destruct h; cbn in He |- *; unfold RW_UPGRADE, RW_WRITE, RW_READ in *;
      destruct (Z.eqb_spec (rw_op flags) 5); lia.
  - destruct Hf as (He & Hd & Ho). injection Hs as <- <- <- <-.
    destruct (t_pc t) as [h rv| | | | | |] eqn:Ht; try done. subst rv.
    split; auto; rewrite ?Ht.
    { right. destruct h; cbn in He; [tauto|by left|by right]. }
    intros _. unfold frame_ok. cbn. rewrite Hd.
    destruct h; cbn in He |- *; unfold RW_UPGRADE, RW_WRITE, RW_READ in *;
      destruct (Z.eqb_spec (rw_op flags) 5); lia.
Qed.

(** Calling [rw_exit] to undo the only enter. *)
Lemma call_exit_effect h rv t0 :
  t_pc t = Out h rv → h ≠ Unlocked → f_depth f = 1 → call_inner t call_rw_exit = Some t0 →
  frame_effect l t l t0 (f_goto f (RExit RX_call)) NoWake.
Proof.
  intros Ht Hh Hd Hcall.
  assert (may_call h call_rw_exit = true) as Hmay by (by destruct h).
  destruct (call_inner_step (rrwl_lock l) _ _ _ _ _ Ht Hmay Hcall) as [Hst Hpc0].
  split; auto; [by eauto|]. intros _. unfold frame_ok. cbn. by rewrite Hpc0, Hd.
Qed.

Lemma exit_frame k :
  f_pc f = RExit k → rrw_exit l t f k = Some (l', t', f', w) → frame_effect l t l' t' f' w.
Proof.
  unfold frame_ok in Hf. intros Hpc Hs. rewrite Hpc in Hf. destruct k; cbn [rrw_exit] in Hs.
  - destruct Hf as [Hc Hd]. destruct (t_pc t) as [h rv| | | | | |] eqn:Ht; try done.
    destruct (Z.eqb_spec (rwl_owner (rrwl_lock l)) (t_self t)) as [E|E].
    + injection Hs as <- <- <- <-. split; auto. intros _. unfold frame_ok. cbn. rewrite Ht.
      split; [done|]. destruct h; cbn in Hown; try (apply Hown in E; discriminate E). done.
    + destruct (call_inner t _) as [t0|] eqn:Hcall; [|discriminate Hs]. injection Hs as <- <- <- <-.
      apply (call_exit_effect h rv); [done| | |done]; destruct h; cbn in Hc; try done; try lia.
      destruct E. by apply Hown.
  - injection Hs as <- <- <- <-. split; auto. intros _. destruct Hf as [Hc Hw].
    destruct (counted_writer _ _ _ Hc Hw) as [Hd Hwc].
    assert ((0 <? rrwl_wcnt l) = true) as -> by lia. done.
  - injection Hs as <- <- <- <-. split; auto. intros _. destruct Hf as [Hc Hw]. unfold frame_ok. cbn.
    split_and!; try done. by apply (counted_writer _ _ _ Hc).
  - injection Hs as <- <- <- <-. destruct Hf as (Hc & Hw & ->).
    destruct (t_pc t) as [[]| | | | | |] eqn:Ht; try done. cbn in Hc.
    split; auto; [right; rewrite Ht; by right|]. intros _. unfold frame_ok. cbn. rewrite Ht. cbn.
    rewrite u32_small by (unfold is_u32; lia). lia.
  - destruct Hf as (Hw & Hd & Hwc). destruct (t_pc t) as [[]| | | | | |] eqn:Ht; try done.
    destruct (Z.eqb_spec (rrwl_wcnt l) 0) as [E|E]; cbn in Hs.
    + destruct (call_inner t _) as [t0|] eqn:Hcall; [|discriminate Hs]. injection Hs as <- <- <- <-.
      apply (call_exit_effect WriteLocked ret); try done. lia.
    + injection Hs as <- <- <- <-. split; auto. intros _. unfold frame_ok. cbn. rewrite Ht. cbn. lia.
  - destruct Hf as [He Hd]. destruct (t_pc t) as [h rv| | | | | |] eqn:Ht; try discriminate Hs.
    injection Hs as <- <- <- <-. split; auto. intros _. unfold frame_ok. cbn. rewrite Ht, Hd.
    by destruct h.
Qed.

Lemma inner_frame ch k :
  f_pc f = k → (∃ flags, k = REnter flags RE_call) ∨ k = RExit RX_call →
  inner_step ch l t f = Some (l', t', f', w) → frame_effect l t l' t' f' w.
Proof.
  unfold inner_step, frame_ok in *. intros Hpc Hk Hs. rewrite Hpc in Hf.
  assert (¬ outside (t_pc t)) as Ho by (intros Ho; by destruct (t_pc t)).
  assert (∃ lk, rw_step ch (rrwl_lock l) t = Some (lk, t', w) ∧
            l' = Rrwlock lk (rrwl_wcnt l) ∧ f' = f) as (lk & Hst & -> & ->).
  { destruct (t_pc t); try done; destruct (rw_step ch (rrwl_lock l) t) as [[[lk t0] w0]|];
      try discriminate Hs; injection Hs as <- <- <- <-; eauto. }
  split; cbn; [by eauto|by left|]. intros Hp. unfold frame_ok. rewrite Hpc.
  destruct Hk as [[flags ->] | ->].
  - destruct Hf as [He Hd]. split; [|done]. by eapply entering_step.
  - destruct Hf as [He Hd]. split; [|done]. by eapply exiting_step.
Qed.

Lemma frame_step rc : rrw_step rc l t f = Some (l', t', f', w) → frame_effect l t l' t' f' w.
Proof.
  unfold rrw_step. intros Hs. destruct rc as [|c|ch].
  - destruct (f_pc f) eqn:Hpc; try discriminate Hs; [by eapply enter_frame|by eapply exit_frame].
  - destruct (f_pc f) eqn:Hpc; try discriminate Hs. unfold frame_ok in Hf. rewrite Hpc in Hf.
    destruct (t_pc t) as [h rv| | | | | |] eqn:Ht; try discriminate Hs.
    destruct (may_rrw h (f_depth f) c) eqn:Hm; [|discriminate Hs]. injection Hs as <- <- <- <-.
    split; auto. intros _. unfold frame_ok. cbn. rewrite Ht.
    destruct c; cbn; split; try done. cbn in Hm. lia.
  - destruct (f_pc f) as [|flags k|k|] eqn:Hpc; try discriminate Hs.
    + destruct k; try discriminate Hs. eapply (inner_frame ch); eauto.
    + destruct k; try discriminate Hs. eapply (inner_frame ch); eauto.
Qed.

End Outer.

(** ** The whole system *)

(** The invariant of a frame depends on [rrwl_wcnt] only if its thread has the
    lock for writing. *)
Lemma frame_ok_other w w' k f : ¬ (writes k = 1) → frame_ok w k f → frame_ok w' k f.
Proof.
  intros Hk. unfold frame_ok, counted, wholds.
  destruct k as [[]| | | | | |], (f_pc f) as [|? []|[]|]; tauto.
Qed.

Lemma owner_self s i t :
  sys_inv s → sys_threads s !! i = Some t →
  (rwl_owner (sys_lock s) = t_self t ↔ writes (t_pc t) = 1).
Proof. intros Hinv Hi. destruct (inv_facts _ _ _ Hinv Hi) as [[] _]. done. Qed.

(** While a thread holds the lock nobody else has it for writing. *)
Lemma holder_excludes s i j t t' :
  sys_inv s → sys_threads s !! i = Some t → sys_threads s !! j = Some t' → i ≠ j →
  holds (t_pc t) → writes (t_pc t') ≠ 1.
Proof.
  intros [_ _ _ Ho _ _ _] Hi Hj Hne Hh Hw.
  pose proof (tsum_ge writes _ _ _ writes_counts Hj).
  pose proof (tsum_ge reads _ _ _ reads_counts Hi).
  destruct Ho as [[? _]|(Hw1 & Hr0 & _)]; [lia|]. destruct Hh as [Hr|Hwt]; [lia|].
  destruct Hne. by apply (tsum_unique writes (sys_threads s) i j t t' writes_counts).
Qed.

(** Each step is one of the lock within, or leaves it as it is. *)
Lemma rsys_step_inner s s' i rc :
  rsys_inv s → rthread_step i rc s s' → inner s' = inner s ∨ sys_step (inner s) (inner s').
Proof.
  destruct s as [l ts fs], s' as [l' ts' fs']. intros [Hin Hfr] [t f t' f' w Ht Hf Hs Hw Hfs].
  cbn in *. destruct (frame_step _ _ _ _ _ _ _ (owner_self _ _ _ Hin Ht) (Hfr _ _ _ Ht Hf) _ Hs)
    as [[(Hl & -> & ->)|[ch Hst]] _ _].
  - left. inversion Hw; subst. unfold inner. cbn. by rewrite Hl, list_insert_id.
  - right. exists i, ch. by econstructor.
Qed.

Lemma rsys_inv_step s s' : rsys_inv s → rsys_step s s' → rsys_inv s'.
Proof.
  intros Hinv (i & rc & Hst).
  assert (sys_inv (inner s')) as Hin'.
  { destruct (rsys_step_inner _ _ _ _ Hinv Hst) as [-> | Hsys]; [apply Hinv|].
    eapply sys_inv_step; [apply Hinv|done]. }
  split; [done|]. destruct Hst as [t f t' f' w Ht Hf Hs Hw Hfs].
  destruct Hinv as [Hin Hfr]. intros j u' g Hu Hg.
  destruct (frame_step _ _ _ _ _ _ _ (owner_self _ _ _ Hin Ht) (Hfr _ _ _ Ht Hf) _ Hs)
    as [_ Hwc Hok].
  pose proof (wakes_same _ _ _ Hw) as Hsame.
  destruct (Forall2_lookup_r _ _ _ _ _ Hsame Hu) as (u & Hu0 & (_ & Hpc & _)). rewrite Hpc.
  rewrite Hfs in Hg. destruct (decide (j = i)) as [->|Hne].
  - rewrite list_lookup_insert_eq in Hu0 by (by eapply lookup_lt_Some).
    rewrite list_lookup_insert_eq in Hg by (by eapply lookup_lt_Some).
    injection Hu0 as <-. injection Hg as <-. apply Hok. intros Hp.
    pose proof (Forall_lookup_1 _ _ _ _ (si_threads _ Hin') Hu) as [Hpo _]. rewrite Hpc in Hpo.
    by destruct (t_pc t').
  - rewrite list_lookup_insert_ne in Hu0 by done. rewrite list_lookup_insert_ne in Hg by done.
    destruct Hwc as [-> | Hh]; [by apply (Hfr j)|].
    apply (frame_ok_other (rrwl_wcnt (rs_lock s))); [|by apply (Hfr j)].
    by apply (holder_excludes (inner s) i j t u).
Qed.

Lemma rinitial_inv procs : procs_ok procs → rsys_inv (rinitial procs).
Proof.
  intros Hp. split; [by apply initial_inv|]. intros i t f Ht Hf.
  cbn [rinitial initial sys_threads rs_threads rs_frames] in Ht, Hf.
  rewrite list_lookup_fmap in Ht. rewrite list_lookup_fmap in Hf. destruct (procs !! i); [|discriminate Ht].
  injection Ht as <-. injection Hf as <-. done.
Qed.

Lemma rreachable_inv procs s : procs_ok procs → rreachable procs s → rsys_inv s.
Proof.
  intros Hp Hr. apply (rtc_ind_r rsys_inv (rinitial procs)) in Hr; [done|by apply rinitial_inv|].
  intros x y _ Hstep Hx. by eapply rsys_inv_step.
Qed.

(** ** Properties *)

(** The recursive lock is the lock within, used by its rules.  Whatever the
    interleaving of threads entering recursively and exiting, the steps of the
    outer code are steps that the lock within allows its callers, so in every
    reachable state the lock within is in a reachable state of its own. *)
Theorem rrwlock_refines_rwlock procs s :
  procs_ok procs → rreachable procs s → reachable procs (inner s).
Proof.
  intros Hp Hr.
  apply (rtc_ind_r (λ s, rsys_inv s ∧ reachable procs (inner s)) (rinitial procs)) in Hr; [apply Hr| |].
  - split; [by apply rinitial_inv|apply rtc_refl].
  - intros x y _ Hst [Hx Hrx]. split; [by eapply rsys_inv_step|].
    destruct Hst as (i & rc & Hst).
    destruct (rsys_step_inner _ _ _ _ Hx Hst) as [-> | Hs]; [done|]. by eapply rtc_r.
Qed.

(** C35: Exits match enters.  The lock within is only ever used by its own rules, so
    that what Rwlock proves of it (exclusion, no panic, no lost wakeup) holds.  A thread outside the calls holds the lock exactly if it
    has entered more often than it has exited, for writing if it entered it for
    writing however many exits have been made of the nested enters; while it
    holds it for writing [rrwl_wcnt] is the number of its enters not yet undone
    and every other thread has none; the KASSERT of [rrw_exit] never fires. *)
Theorem rrwlock_nesting procs s i t f :
  procs_ok procs → rreachable procs s →
  rs_threads s !! i = Some t → rs_frames s !! i = Some f →
  reachable procs (inner s) ∧ f_pc f ≠ RPanicked ∧
  (∀ ret, f_pc f = ROut ret → ∃ h rv, t_pc t = Out h rv ∧ (h = Unlocked ↔ f_depth f = 0) ∧
     0 ≤ f_depth f ∧
     (h = WriteLocked →
        rrwl_wcnt (rs_lock s) = f_depth f ∧ rrw_status (rs_lock s) t = RW_WRITE ∧
        ∀ j t' f' ret', j ≠ i → rs_threads s !! j = Some t' → rs_frames s !! j = Some f' →
          f_pc f' = ROut ret' → f_depth f' = 0)).
Proof.
  intros Hp Hr Ht Hf. split; [by apply rrwlock_refines_rwlock|].
  destruct (rreachable_inv _ _ Hp Hr) as [Hin Hfr].
  pose proof (Hfr _ _ _ Ht Hf) as Hok. unfold frame_ok in Hok. split; [by intros E; rewrite E in Hok|].
  intros ret E. rewrite E in Hok. destruct (t_pc t) as [h rv| | | | | |] eqn:Hpc; try done.
  exists h, rv. split_and!; [done| | |].
  { destruct h; cbn in Hok; split; intros; try done; lia. }
  { destruct h; cbn in Hok; lia. }
  intros ->. cbn in Hok. split_and!; [lia| |].
  - destruct (owner_self _ _ _ Hin Ht) as [_ Hown]. cbn [inner sys_lock] in Hown.
    destruct (inv_facts _ _ _ Hin Ht) as [[Hpt _ _ _ _ _] _].
    unfold rrw_status, rw_status. rewrite Hown by (by rewrite Hpc). unfold t_self at 1.
    rewrite wrlock_self by done. by rewrite Z.eqb_refl.
  - intros j t' f' ret' Hne Ht' Hf' E'. pose proof (Hfr _ _ _ Ht' Hf') as Hok'.
    unfold frame_ok in Hok'. rewrite E' in Hok'.
    destruct (t_pc t') as [[]| | | | | |] eqn:Hpc'; try done; exfalso.
    + apply (holder_excludes (inner s) j i t' t Hin Ht' Ht Hne); [by left; rewrite Hpc'|by rewrite Hpc].
    + apply (holder_excludes (inner s) i j t t' Hin Ht Ht' (not_eq_sym Hne));
        [by right; rewrite Hpc|by rewrite Hpc'].
Qed.

(** The theorems at a run of two threads: the first enters twice, recursively, and
    exits once while the second waits. *)
Definition rrun_step : Type := nat * rchoice * option nat.

Definition rnext (st : rrun_step) (s : rsystem) : option rsystem :=
  let '(i, rc, pick) := st in
  t ← rs_threads s !! i;
  f ← rs_frames s !! i;
  '(l, t, f, w) ← rrw_step rc (rs_lock s) t f;
  ts ← exec_wake w pick (<[i := t]> (rs_threads s));
  Some (Rsystem l ts (<[i := f]> (rs_frames s))).

Fixpoint rexec (run : list rrun_step) (s : rsystem) : option rsystem :=
  match run with
  | [] => Some s
  | st :: run => s ← rnext st s; rexec run s
  end.

Lemma rnext_sound st s s' : rnext st s = Some s' → rsys_step s s'.
Proof.
  destruct st as [[i rc] pick]. unfold rnext. intros Hn.
  apply bind_Some in Hn as (t & Ht & Hn). apply bind_Some in Hn as (f & Hf & Hn).
  apply bind_Some in Hn as ([[[l t'] f'] w] & Hs & Hn). apply bind_Some in Hn as (ts & Hw & Hn).
  injection Hn as <-. exists i, rc. econstructor; [done..|by eapply exec_wake_sound|done].
Qed.

Lemma rexec_sound run s s' : rexec run s = Some s' → rtc rsys_step s s'.
Proof.
  revert s. induction run as [|st run IH]; intros s Hr.
  - injection Hr as <-. apply rtc_refl.
  - apply bind_Some in Hr as (s1 & Hn & Hr). eapply rtc_l; [by apply (rnext_sound st)|by apply IH].
Qed.

Definition go (i : nat) (n : nat) : list rrun_step := replicate n (i, RGo, None).
Definition inside (i : nat) (n : nat) : list rrun_step := replicate n (i, RInner Go, None).

Definition run_nested : list rrun_step :=
  [(0%nat, RCall (call_rrw_enter RW_WRITE), None)] ++ go 0 1 ++ inside 0 1 ++ go 0 2 ++
  [(0%nat, RCall (call_rrw_enter RW_WRITE), None)] ++ go 0 3 ++
  [(1%nat, RCall (call_rrw_enter RW_READ), None)] ++ go 1 1 ++ inside 1 1 ++
  [(0%nat, RCall call_rrw_exit, None)] ++ go 0 5.

Definition threads2 : list Z := [0x1000; 0x2000].

Definition state_nested : rsystem :=
  Rsystem (Rrwlock (Rwlock 0x1004 0 0) 1)
    [Thread 0x1000 (Out WriteLocked 0) None; Thread 0x2000 (EnterRead RW_READ ER_busy) None]
    [Frame (ROut 0) 1; Frame (REnter RW_READ RE_call) 0].

Lemma run_nested_exec : rexec run_nested (rinitial threads2) = Some state_nested.
Proof. vm_compute. reflexivity. Qed.

Lemma state_nested_reachable : rreachable threads2 state_nested.
Proof. exact (rexec_sound run_nested _ _ run_nested_exec). Qed.

Lemma procs_ok_two : procs_ok threads2.
Proof.
  split; [|split].
  - repeat constructor; rewrite ?list_elem_of_In; cbn; lia.
  - repeat constructor; lia.
  - cbn. lia.
Qed.

Lemma rrwlock_refines_rwlock_witness :
  rreachable threads2 state_nested ∧ reachable threads2 (inner state_nested).
Proof.
  split; [exact state_nested_reachable|].
  exact (rrwlock_refines_rwlock threads2 state_nested procs_ok_two state_nested_reachable).
Defined.

Lemma rrwlock_nesting_witness :
  rreachable threads2 state_nested ∧ rrw_status (rs_lock state_nested) (Thread 0x1000 (Out WriteLocked 0) None) = RW_WRITE.
Proof.
  split; [exact state_nested_reachable|].
  destruct (rrwlock_nesting threads2 state_nested 0 _ _ procs_ok_two state_nested_reachable
    eq_refl eq_refl) as (_ & _ & Hout).
  destruct (Hout 0 eq_refl) as (h & rv & Hpc & _ & _ & Hw).
  injection Hpc as <- <-. exact (proj1 (proj2 (Hw eq_refl))).
Defined.

(** Downgrading by [rrw_enter] does nothing but count: the owner test comes before
    the operation is looked at. *)
Definition run_downgrade : list rrun_step :=
  [(0%nat, RCall (call_rrw_enter RW_WRITE), None)] ++ go 0 1 ++ inside 0 1 ++ go 0 2 ++
  [(0%nat, RCall (call_rrw_enter RW_DOWNGRADE), None)] ++ go 0 3.

Example rrw_downgrade_counts :
  rexec run_downgrade (rinitial threads2) =
    Some (Rsystem (Rrwlock (Rwlock 0x1004 0 0) 2)
      [Thread 0x1000 (Out WriteLocked 0) None; Thread 0x2000 (Out Unlocked 0) None]
      [Frame (ROut 0) 2; Frame (ROut 0) 0]).
Proof. vm_compute. reflexivity. Qed.
