(* ===== verification/RwObj.v ===== *)
(** Allocated, reference-counted rwlocks: [rw_obj_alloc], [rw_obj_hold] and
    [rw_obj_free] of sys/kern/kern_rwlock.c.  Any number of threads run the calls
    interleaved at their accesses to the object; the references they have been
    given are a bag, from which a call takes the one it needs. *)

From stdpp Require Import relations gmap.
From S2P Require Import Prelude Rwlock.

(** ** State *)

Definition RWLOCK_OBJ_MAGIC : Z := 0x5aa3c85d.

Record rwlock_obj : Type := RwlockObj {
  ro_lock : rwlock;
  ro_magic : Z;
  ro_refcnt : Z;
}.

Definition set_refcnt (mo : rwlock_obj) (n : Z) : rwlock_obj :=
  RwlockObj (ro_lock mo) (ro_magic mo) n.

(** Program counters of [rw_obj_hold]: at the two KASSERTs and the increment. *)
Inductive oh_pc : Type := OH_magic | OH_refcnt | OH_inc.
(** ... of [rw_obj_free]: at the two KASSERTs, the decrement and the pool_put. *)
Inductive of_pc : Type := OF_magic | OF_refcnt | OF_dec | OF_put.
#[global] Instance of_pc_eq_dec : EqDecision of_pc.
Proof. solve_decision. Defined.

(** [OFault]: memory that is not allocated is accessed. *)
Inductive o_pc : Type :=
| OOut (freed : option bool)
| OHold (a : Z) (k : oh_pc)
| OFree (a : Z) (k : of_pc)
| OPanicked
| OFault.

(** [rwlock_obj_pool], the references out, the threads. *)
Record osystem : Type := Osystem {
  os_pool : gmap Z rwlock_obj;
  os_refs : list Z;
  os_threads : list o_pc;
}.

Inductive ochoice : Type :=
| OGo
| OAlloc (a : Z)          (* the address pool_get finds *)
| OCallHold (a : Z)
| OCallFree (a : Z).

(** ** The operations *)

(** The step of one thread, from and to the pool, the bag and its pc. *)
Definition oturn : Type := gmap Z rwlock_obj * list Z * o_pc.

(** An access to the object at [a]. *)
Definition with_obj (pool : gmap Z rwlock_obj) (refs : list Z) (a : Z)
    (body : rwlock_obj → oturn) : oturn :=
  match pool !! a with Some mo => body mo | None => (pool, refs, OFault) end.

Definition rw_obj_alloc (pool : gmap Z rwlock_obj) (refs : list Z) (a : Z) : oturn :=
  (<[a := RwlockObj _rw_init_flags RWLOCK_OBJ_MAGIC 1]> pool, a :: refs, OOut None).

Definition rw_obj_hold (pool : gmap Z rwlock_obj) (refs : list Z) (a : Z) (k : oh_pc) : oturn :=
  with_obj pool refs a (λ mo,
    match k with
    | OH_magic =>
        (pool, refs, if ro_magic mo =? RWLOCK_OBJ_MAGIC then OHold a OH_refcnt else OPanicked)
    | OH_refcnt => (pool, refs, if 0 <? ro_refcnt mo then OHold a OH_inc else OPanicked)
    | OH_inc =>
        (<[a := set_refcnt mo (u32 (ro_refcnt mo + 1))]> pool, a :: a :: refs, OOut None)
    end).

Definition rw_obj_free (pool : gmap Z rwlock_obj) (refs : list Z) (a : Z) (k : of_pc) : oturn :=
  with_obj pool refs a (λ mo,
    match k with
    | OF_magic =>
        (pool, refs, if ro_magic mo =? RWLOCK_OBJ_MAGIC then OFree a OF_refcnt else OPanicked)
    | OF_refcnt => (pool, refs, if 0 <? ro_refcnt mo then OFree a OF_dec else OPanicked)
    | OF_dec =>
        let n := u32 (ro_refcnt mo - 1) in
        (<[a := set_refcnt mo n]> pool, refs, if 0 <? n then OOut (Some false) else OFree a OF_put)
    | OF_put => (delete a pool, refs, OOut (Some true))
    end).

(** ** The system *)

Definition zsum {A} (f : A → Z) (xs : list A) : Z := foldr (λ x n, f x + n) 0 xs.

(** The references to [a]: in the bag, or taken from it by a call under way. *)
Definition in_bag (a : Z) (b : Z) : Z := if decide (a = b) then 1 else 0.
Definition taken (a : Z) (k : o_pc) : Z :=
  match k with
  | OHold b _ | OFree b (OF_magic | OF_refcnt | OF_dec) => in_bag a b
  | _ => 0
  end.
Definition references (s : osystem) (a : Z) : Z :=
  zsum (in_bag a) (os_refs s) + zsum (taken a) (os_threads s).

(** All references, with those that the calls of [rw_obj_hold] under way will
    make: [ro_refcnt] is 32 bits wide, so there have to be fewer than 2^32. *)
Definition will_hold (k : o_pc) : Z :=
  match k with
  | OHold _ _ => 2
  | OFree _ (OF_magic | OF_refcnt | OF_dec) => 1
  | _ => 0
  end.
Definition outstanding (s : osystem) : Z :=
  zsum (λ _, 1) (os_refs s) + zsum will_hold (os_threads s).
Definition room (s : osystem) : bool := outstanding s + 1 <? M32.

(** A caller of hold or free has a reference. *)
Fixpoint take (a : Z) (refs : list Z) : option (list Z) :=
  match refs with
  | [] => None
  | b :: refs => if decide (a = b) then Some refs else cons b <$> take a refs
  end.

Definition ostep (ch : ochoice) (s : osystem) (k : o_pc) : option oturn :=
  match ch, k with
  | OAlloc a, OOut _ =>
      match os_pool s !! a with
      | None => if room s then Some (rw_obj_alloc (os_pool s) (os_refs s) a) else None
      | Some _ => None
      end
  | OCallHold a, OOut _ =>
      if room s then
        refs ← take a (os_refs s); Some (os_pool s, refs, OHold a OH_magic)
      else None
  | OCallFree a, OOut _ => refs ← take a (os_refs s); Some (os_pool s, refs, OFree a OF_magic)
  | OGo, OHold a k => Some (rw_obj_hold (os_pool s) (os_refs s) a k)
  | OGo, OFree a k => Some (rw_obj_free (os_pool s) (os_refs s) a k)
  | _, _ => None
  end.

(** The next state when thread [i] makes a step. *)
Definition onext (i : nat) (ch : ochoice) (s : osystem) : option osystem :=
  k ← os_threads s !! i;
  '(pool, refs, k') ← ostep ch s k;
  Some (Osystem pool refs (<[i := k']> (os_threads s))).

Definition osys_step (s s' : osystem) : Prop := ∃ i ch, onext i ch s = Some s'.

Definition oinitial (n : nat) : osystem := Osystem ∅ [] (replicate n (OOut None)).

Definition oreachable (n : nat) : osystem → Prop := rtc osys_step (oinitial n).

(** ** The invariant *)

(** The last reference to [a] is gone and the object not yet put back. *)
Definition putting (a : Z) (k : o_pc) : Z :=
  match k with OFree b OF_put => in_bag a b | _ => 0 end.

Definition no_panic (k : o_pc) : Prop :=
  match k with OPanicked | OFault => False | _ => True end.

(** What is known of the object at [a] with [r] references, [p] threads putting
    it back. *)
Definition obj_ok (mo : option rwlock_obj) (r p : Z) : Prop :=
  match mo with
  | Some mo => ro_magic mo = RWLOCK_OBJ_MAGIC ∧ ro_refcnt mo = r ∧ p = (if r =? 0 then 1 else 0)
  | None => r = 0 ∧ p = 0
  end.

Record osys_inv (s : osystem) : Prop := {
  oi_objs a : obj_ok (os_pool s !! a) (references s a) (zsum (putting a) (os_threads s));
  oi_room : outstanding s < M32;
  oi_threads : Forall no_panic (os_threads s);
}.

(** ** Sums *)

#[local] Arguments zsum : simpl never.

Lemma zsum_cons {A} (f : A → Z) x xs : zsum f (x :: xs) = f x + zsum f xs.
Proof. done. Qed.

Lemma zsum_insert {A} (f : A → Z) xs i x x' :
  xs !! i = Some x → zsum f (<[i := x']> xs) = zsum f xs - f x + f x'.
Proof.
  revert i. induction xs as [|y xs IH]; intros [|i] Hi; try discriminate Hi.
  - injection Hi as ->. change (<[0%nat := x']> (x :: xs)) with (x' :: xs). rewrite !zsum_cons. lia.
  - change (<[S i := x']> (y :: xs)) with (y :: <[i := x']> xs). rewrite !zsum_cons, (IH i Hi). lia.
Qed.

Lemma zsum_nonneg {A} (f : A → Z) xs : (∀ x, 0 ≤ f x) → 0 ≤ zsum f xs.
Proof. intros Hf. induction xs as [|x xs IH]; [done|]. rewrite zsum_cons. specialize (Hf x). lia. Qed.

Lemma zsum_le {A} (f g : A → Z) xs : (∀ x, f x ≤ g x) → zsum f xs ≤ zsum g xs.
Proof. intros Hf. induction xs as [|x xs IH]; [done|]. rewrite !zsum_cons. specialize (Hf x). lia. Qed.

(** An element's share, beyond what [f] counts of it. *)
Lemma zsum_gap {A} (f g : A → Z) xs i x :
  (∀ y, f y ≤ g y) → xs !! i = Some x → zsum f xs + (g x - f x) ≤ zsum g xs.
Proof.
  intros Hf. revert i. induction xs as [|y xs IH]; intros [|i] Hi; try discriminate Hi; rewrite !zsum_cons.
  - injection Hi as ->. pose proof (zsum_le f g xs Hf). lia.
  - specialize (IH i Hi). specialize (Hf y). lia.
Qed.

Lemma take_sum (f : Z → Z) a refs refs' : take a refs = Some refs' → zsum f refs = f a + zsum f refs'.
Proof.
  revert refs'. induction refs as [|b refs IH]; intros refs' Ht; cbn in Ht; [discriminate Ht|].
  rewrite zsum_cons. destruct (decide (a = b)) as [->|]; [by injection Ht as <-|].
  apply fmap_Some in Ht as (r & Hr & ->). rewrite (IH _ Hr), zsum_cons. lia.
Qed.

Lemma in_bag_bounds a b : 0 ≤ in_bag a b ≤ 1.
Proof. unfold in_bag. case_decide; lia. Qed.
Lemma in_bag_same a : in_bag a a = 1.
Proof. unfold in_bag. by rewrite decide_True. Qed.
Lemma in_bag_other a b : a ≠ b → in_bag a b = 0.
Proof. intros. unfold in_bag. by rewrite decide_False. Qed.

(** ** Steps *)

Lemma taken_bounds a k : 0 ≤ taken a k ≤ will_hold k.
Proof. destruct k as [|b k|b []| |]; cbn; try lia; pose proof (in_bag_bounds a b); lia. Qed.
Lemma putting_bounds a k : 0 ≤ putting a k.
Proof. destruct k as [|b k|b []| |]; cbn; try lia; pose proof (in_bag_bounds a b); lia. Qed.

Lemma references_bounds s a i k :
  os_threads s !! i = Some k →
  taken a k ≤ references s a ∧ references s a + (will_hold k - taken a k) ≤ outstanding s.
Proof.
  intros Hi. unfold references, outstanding.
  assert (∀ x, in_bag a x ≤ 1) as H1 by (intros x; apply in_bag_bounds).
  pose proof (zsum_le (in_bag a) (λ _, 1) (os_refs s) H1).
  pose proof (zsum_nonneg (in_bag a) (os_refs s) (λ x, proj1 (in_bag_bounds a x))).
  pose proof (zsum_gap (taken a) will_hold _ i k (λ x, proj2 (taken_bounds a x)) Hi).
  pose proof (zsum_gap (λ _, 0) (taken a) _ i k (λ x, proj1 (taken_bounds a x)) Hi).
  assert (zsum (λ _ : o_pc, 0) (os_threads s) = 0).
  { generalize (os_threads s). intros ks. induction ks as [|y ks IH]; [done|]. by rewrite zsum_cons, IH. }
  cbv beta in *. lia.
Qed.

(** The counts after a step, from those before. *)
Lemma references_step s pool refs i k k' a :
  os_threads s !! i = Some k →
  references (Osystem pool refs (<[i := k']> (os_threads s))) a =
    references s a - zsum (in_bag a) (os_refs s) + zsum (in_bag a) refs - taken a k + taken a k'.
Proof. intros Hi. unfold references. cbn [os_refs os_threads]. rewrite (zsum_insert _ _ _ _ _ Hi). lia. Qed.

Lemma outstanding_step s pool refs i k k' :
  os_threads s !! i = Some k →
  outstanding (Osystem pool refs (<[i := k']> (os_threads s))) =
    outstanding s - zsum (λ _, 1) (os_refs s) + zsum (λ _, 1) refs - will_hold k + will_hold k'.
Proof. intros Hi. unfold outstanding. cbn [os_refs os_threads]. rewrite (zsum_insert _ _ _ _ _ Hi). lia. Qed.

(** What a thread knows of the object it has a reference to. *)
Lemma obj_taken s a i k :
  osys_inv s → os_threads s !! i = Some k → taken a k = 1 →
  ∃ mo, os_pool s !! a = Some mo ∧ ro_magic mo = RWLOCK_OBJ_MAGIC ∧
    ro_refcnt mo = references s a ∧ 1 ≤ references s a ∧
    references s a + (will_hold k - 1) < M32 ∧ zsum (putting a) (os_threads s) = 0.
Proof.
  intros [Hobj Hroom _] Hi Ht. specialize (Hobj a). unfold obj_ok in Hobj.
  pose proof (references_bounds s a i k Hi) as [Hb Hb']. rewrite Ht in Hb, Hb'.
  destruct (os_pool s !! a) as [mo|]; [|lia]. destruct Hobj as (Hm & Hr & Hp).
  exists mo. destruct (Z.eqb_spec (references s a) 0); split_and!; try done; lia.
Qed.

(** A thread that puts the object back is the only one that does, and nobody has a
    reference. *)
Lemma obj_putting s a i :
  osys_inv s → os_threads s !! i = Some (OFree a OF_put) →
  references s a = 0 ∧ ∃ mo, os_pool s !! a = Some mo.
Proof.
  intros [Hobj _ _] Hi. specialize (Hobj a). unfold obj_ok in Hobj.
  pose proof (zsum_gap (λ _, 0) (putting a) _ i _ (putting_bounds a) Hi) as Hp.
  assert (0 ≤ zsum (λ _ : o_pc, 0) (os_threads s)) by (apply zsum_nonneg; lia).
  cbn [putting] in Hp. rewrite in_bag_same in Hp.
  destruct (os_pool s !! a) as [mo|]; [|lia]. destruct Hobj as (Hm & Hr & Hpz).
  destruct (Z.eqb_spec (references s a) 0); [by eauto|lia].
Qed.

(** What the turn of a thread at [k] has to do for the invariant. *)
Definition turn_ok (s : osystem) (k : o_pc) (o : oturn) : Prop :=
  let '(pool, refs, k') := o in
  (∀ b, obj_ok (pool !! b)
     (references s b - zsum (in_bag b) (os_refs s) + zsum (in_bag b) refs - taken b k + taken b k')
     (zsum (putting b) (os_threads s) - putting b k + putting b k')) ∧
  outstanding s - zsum (λ _, 1) (os_refs s) + zsum (λ _, 1) refs - will_hold k + will_hold k' < M32 ∧
  no_panic k'.

Lemma turn_inv s i k pool refs k' :
  os_threads s !! i = Some k → osys_inv s → turn_ok s k (pool, refs, k') →
  osys_inv (Osystem pool refs (<[i := k']> (os_threads s))).
Proof.
  intros Hi [_ _ Hth] (Hobj & Hroom & Hp). split.
  - intros b. rewrite (references_step _ _ _ _ _ _ _ Hi). cbn [os_pool os_threads].
    rewrite (zsum_insert _ _ _ _ _ Hi). apply Hobj.
  - by rewrite (outstanding_step _ _ _ _ _ _ Hi).
  - by apply Forall_insert.
Qed.

(** A turn that leaves the pool, and each reference where it is counted. *)
Lemma turn_quiet s i k refs k' :
  osys_inv s → os_threads s !! i = Some k →
  (∀ b, zsum (in_bag b) refs + taken b k' = zsum (in_bag b) (os_refs s) + taken b k) →
  (∀ b, putting b k' = putting b k) →
  outstanding s - zsum (λ _, 1) (os_refs s) + zsum (λ _, 1) refs - will_hold k + will_hold k' < M32 →
  no_panic k' → turn_ok s k (os_pool s, refs, k').
Proof.
  intros [Hobj _ _] Hi Hb Hp Hroom Hk. split; [|done]. intros b. specialize (Hb b).
  rewrite Hp. replace (references s b - _ + _ - _ + _) with (references s b) by lia.
  replace (zsum (putting b) _ - _ + _) with (zsum (putting b) (os_threads s)) by lia. apply Hobj.
Qed.

(** A turn that changes the object at [a] only. *)
Lemma turn_object s i k pool refs k' a :
  osys_inv s → os_threads s !! i = Some k →
  (∀ b, b ≠ a → pool !! b = os_pool s !! b ∧ zsum (in_bag b) refs = zsum (in_bag b) (os_refs s) ∧
     taken b k = 0 ∧ taken b k' = 0 ∧ putting b k = 0 ∧ putting b k' = 0) →
  obj_ok (pool !! a)
    (references s a - zsum (in_bag a) (os_refs s) + zsum (in_bag a) refs - taken a k + taken a k')
    (zsum (putting a) (os_threads s) - putting a k + putting a k') →
  outstanding s - zsum (λ _, 1) (os_refs s) + zsum (λ _, 1) refs - will_hold k + will_hold k' < M32 →
  no_panic k' → turn_ok s k (pool, refs, k').
Proof.
  intros [Hobj _ _] Hi Hne Ha Hroom Hk. split; [|done]. intros b.
  destruct (decide (b = a)) as [->|Hb]; [done|].
  destruct (Hne b Hb) as (-> & -> & -> & -> & -> & ->).
  replace (references s b - _ + _ - _ + _) with (references s b) by lia.
  replace (zsum (putting b) _ - _ + _) with (zsum (putting b) (os_threads s)) by lia. apply Hobj.
Qed.

Ltac other_objects :=
  intros b Hb; cbn [taken putting]; rewrite ?zsum_cons, ?in_bag_other by done;
  rewrite ?lookup_insert_ne, ?lookup_delete_ne by done; split_and!; lia || done.

Lemma alloc_ok s i a r :
  osys_inv s → os_threads s !! i = Some (OOut r) → os_pool s !! a = None → room s = true →
  turn_ok s (OOut r) (rw_obj_alloc (os_pool s) (os_refs s) a).
Proof.
  intros Hinv Hi Ha Hr. unfold rw_obj_alloc. unfold room in Hr.
  pose proof (oi_objs _ Hinv a) as Hobj. rewrite Ha in Hobj. destruct Hobj as [Hz Hp].
  apply (turn_object s i _ _ _ _ a Hinv Hi); [other_objects| | |done].
  - rewrite lookup_insert_eq, zsum_cons, in_bag_same. cbn [taken putting].
    rewrite Hz, Hp. replace (0 - _ + _ - _ + _) with 1 by lia. done.
  - rewrite zsum_cons. cbn. lia.
Qed.

Lemma hold_ok s i a k :
  osys_inv s → os_threads s !! i = Some (OHold a k) →
  turn_ok s (OHold a k) (rw_obj_hold (os_pool s) (os_refs s) a k).
Proof.
  intros Hinv Hi. destruct (obj_taken s a i _ Hinv Hi (in_bag_same a)) as (mo & Hmo & Hm & Hrc & H1 & Hlt & Hp).
  pose proof (oi_room _ Hinv) as Hroom. cbn [will_hold] in Hlt.
  unfold rw_obj_hold, with_obj. rewrite Hmo. destruct k.
  - rewrite Hm, Z.eqb_refl. apply (turn_quiet s i); try done. cbn. lia.
  - assert ((0 <? ro_refcnt mo) = true) as -> by lia. apply (turn_quiet s i); try done. cbn. lia.
  - apply (turn_object s i _ _ _ _ a Hinv Hi); [other_objects| | |done].
    + rewrite lookup_insert_eq, !zsum_cons, in_bag_same. cbn [taken putting]. rewrite in_bag_same, Hp.
      cbn. rewrite Hrc, u32_small by (unfold is_u32; lia). split_and!; [done|lia|].
      destruct (Z.eqb_spec (references s a - zsum (in_bag a) (os_refs s) +
        (1 + (1 + zsum (in_bag a) (os_refs s))) - 1 + 0) 0); lia.
    + rewrite !zsum_cons. cbn. lia.
Qed.

Lemma free_ok s i a k :
  osys_inv s → os_threads s !! i = Some (OFree a k) →
  turn_ok s (OFree a k) (rw_obj_free (os_pool s) (os_refs s) a k).
Proof.
  intros Hinv Hi. pose proof (oi_room _ Hinv) as Hroom.
  unfold rw_obj_free, with_obj. destruct (decide (k = OF_put)) as [->|Hk].
  { destruct (obj_putting s a i Hinv Hi) as (Hz & mo & Hmo).
    pose proof (oi_objs _ Hinv a) as Hobj. rewrite Hmo in Hobj. destruct Hobj as (_ & _ & Hp).
    rewrite Hz in Hp. cbn in Hp. rewrite Hmo.
    apply (turn_object s i _ _ _ _ a Hinv Hi); [other_objects| |cbn; lia|done].
    rewrite lookup_delete_eq. cbn [taken putting]. rewrite in_bag_same, Hz, Hp. split; lia. }
  destruct (obj_taken s a i _ Hinv Hi ltac:(by destruct k; try done; apply in_bag_same))
    as (mo & Hmo & Hm & Hrc & H1 & Hlt & Hp).
  rewrite Hmo. destruct k; [| | |done].
  - rewrite Hm, Z.eqb_refl. apply (turn_quiet s i); try done. cbn. lia.
  - assert ((0 <? ro_refcnt mo) = true) as -> by lia. apply (turn_quiet s i); try done. cbn. lia.
  - cbn [will_hold] in Hlt. rewrite Hrc, u32_small by (unfold is_u32; lia).
    apply (turn_object s i _ _ _ _ a Hinv Hi); destruct (Z.ltb_spec 0 (references s a - 1));
      try other_objects; try done; try (cbn; lia).
    + rewrite lookup_insert_eq. cbn [taken putting]. rewrite in_bag_same, Hp.
      replace (references s a - _ + _ - _ + _) with (references s a - 1) by lia.
      split_and!; [done..|]. destruct (Z.eqb_spec (references s a - 1) 0); lia.
    + rewrite lookup_insert_eq. cbn [taken putting]. rewrite !in_bag_same, Hp.
      replace (references s a - _ + _ - _ + _) with (references s a - 1) by lia.
      split_and!; [done..|]. destruct (Z.eqb_spec (references s a - 1) 0); lia.
Qed.

Lemma ostep_ok s i ch k o :
  osys_inv s → os_threads s !! i = Some k → ostep ch s k = Some o → turn_ok s k o.
Proof.
  intros Hinv Hi Hs. pose proof (oi_room _ Hinv) as Hroom.
  destruct ch as [|a|a|a], k as [r|b k|b k| |]; try discriminate Hs; cbn [ostep] in Hs.
  - injection Hs as <-. by apply (hold_ok s i).
  - injection Hs as <-. by apply (free_ok s i).
  - destruct (os_pool s !! a) eqn:Ha; [discriminate Hs|].
    destruct (room s) eqn:Hr; [|discriminate Hs]. injection Hs as <-. by apply (alloc_ok s i).
  - destruct (room s) eqn:Hr; [|discriminate Hs]. unfold room in Hr.
    apply bind_Some in Hs as (refs & Ht & Hs). injection Hs as <-.
    apply (turn_quiet s i); try done; [intros b|]; rewrite (take_sum _ _ _ _ Ht); cbn; lia.
  - apply bind_Some in Hs as (refs & Ht & Hs). injection Hs as <-.
    apply (turn_quiet s i); try done; [intros b|]; rewrite (take_sum _ _ _ _ Ht); cbn; lia.
Qed.

Lemma osys_inv_step s s' : osys_inv s → osys_step s s' → osys_inv s'.
Proof.
  intros Hinv (i & ch & Hn). unfold onext in Hn. apply bind_Some in Hn as (k & Hi & Hn).
  apply bind_Some in Hn as ([[pool refs] k'] & Hs & Hn). injection Hn as <-.
  eapply turn_inv; [done..|]. by eapply ostep_ok.
Qed.

Lemma oreachable_inv n s : oreachable n s → osys_inv s.
Proof.
  intros Hr. apply (rtc_ind_r osys_inv (oinitial n)) in Hr; [done| |].
  - assert (∀ f, f (OOut None) = 0 → zsum f (replicate n (OOut None)) = 0) as Hz.
    { clear Hr. intros f Hf. induction n as [|m IH]; [done|]. cbn [replicate]. by rewrite zsum_cons, IH, Hf. }
    split.
    + intros a. unfold references. cbn [oinitial os_pool os_refs os_threads].
      rewrite lookup_empty, !Hz by done. done.
    + unfold outstanding. cbn [oinitial os_refs os_threads]. by rewrite Hz.
    + by apply Forall_replicate.
  - intros x y _ Hst Hx. by eapply osys_inv_step.
Qed.

(** ** Properties *)

(** C36: Reference counts are exact.  However the calls of any number of threads are
    interleaved, as long as hold and free are called with a reference: no KASSERT
    fires and no freed object is accessed; the count of an allocated object is
    the number of references to it, those of calls under way included; the object
    is given back to the pool exactly by the call of [rw_obj_free] that drops the
    last reference, which returns true, and the others return false. *)
Theorem rw_obj_refcount n s :
  oreachable n s →
  Forall no_panic (os_threads s) ∧
  (∀ a, match os_pool s !! a with
        | Some mo => ro_refcnt mo = references s a
        | None => references s a = 0
        end) ∧
  (∀ i a, os_threads s !! i = Some (OFree a OF_dec) →
    ∃ s', onext i OGo s = Some s' ∧
      os_threads s' !! i =
        Some (if references s a =? 1 then OFree a OF_put else OOut (Some false))) ∧
  (∀ i a, os_threads s !! i = Some (OFree a OF_put) →
    references s a = 0 ∧
    ∃ s', onext i OGo s = Some s' ∧ os_pool s' = delete a (os_pool s) ∧
      os_threads s' !! i = Some (OOut (Some true))).
Proof.
  intros Hr. pose proof (oreachable_inv _ _ Hr) as Hinv. split_and!.
  - apply Hinv.
  - intros a. pose proof (oi_objs _ Hinv a) as Ho. unfold obj_ok in Ho.
    by destruct (os_pool s !! a); destruct Ho as [? ?]; [tauto|].
  - intros i a Hi.
    destruct (obj_taken s a i _ Hinv Hi (in_bag_same a)) as (mo & Hmo & _ & Hrc & H1 & Hlt & _).
    cbn [will_hold] in Hlt. unfold onext. rewrite Hi. cbn. unfold rw_obj_free, with_obj.
    rewrite Hmo, Hrc, u32_small by (unfold is_u32; lia).
    eexists. split; [done|]. cbn [os_threads].
    rewrite list_lookup_insert_eq by (by eapply lookup_lt_Some).
    destruct (Z.ltb_spec 0 (references s a - 1)), (Z.eqb_spec (references s a) 1); done || lia.
  - intros i a Hi. destruct (obj_putting s a i Hinv Hi) as (Hz & mo & Hmo). split; [done|].
    unfold onext. rewrite Hi. cbn. unfold rw_obj_free, with_obj. rewrite Hmo.
    eexists. split_and!; [done..|]. cbn [os_threads].
    by rewrite list_lookup_insert_eq by (by eapply lookup_lt_Some).
Qed.

(** The theorem at a run of two threads: one allocates and holds, the other frees
    while the first does, and the last free puts the object back. *)
Fixpoint oexec (run : list (nat * ochoice)) (s : osystem) : option osystem :=
  match run with
  | [] => Some s
  | (i, ch) :: run => s ← onext i ch s; oexec run s
  end.

Lemma oexec_sound run s s' : oexec run s = Some s' → rtc osys_step s s'.
Proof.
  revert s. induction run as [|[i ch] run IH]; intros s Hr.
  - injection Hr as <-. apply rtc_refl.
  - apply bind_Some in Hr as (s1 & Hn & Hr). eapply rtc_l; [by exists i, ch|by apply IH].
Qed.

Definition run_obj : list (nat * ochoice) :=
  [(0%nat, OAlloc 0x100); (0%nat, OCallHold 0x100); (0%nat, OGo); (0%nat, OGo); (0%nat, OGo);
   (1%nat, OCallFree 0x100); (0%nat, OCallFree 0x100); (1%nat, OGo); (0%nat, OGo); (0%nat, OGo);
   (1%nat, OGo); (0%nat, OGo)].

Definition state_obj : osystem :=
  Osystem {[0x100 := RwlockObj _rw_init_flags RWLOCK_OBJ_MAGIC 1]} []
    [OOut (Some false); OFree 0x100 OF_dec].

Lemma rw_obj_refcount_witness :
  oreachable 2 state_obj ∧
  ∃ s', onext 1 OGo state_obj = Some s' ∧ os_threads s' !! 1%nat = Some (OFree 0x100 OF_put).
Proof.
  assert (oreachable 2 state_obj) as Hr by (by apply (oexec_sound run_obj)).
  split; [exact Hr|].
  destruct (rw_obj_refcount 2 state_obj Hr) as (_ & _ & Hdec & _).
  exact (Hdec 1%nat 0x100 eq_refl).
Defined.
