(* ===== verification/Quad.v ===== *)
(** The 64-bit arithmetic the kernel links on 32-bit machines
    ([lib/libkern]: [quad.h], [adddi3.c], [subdi3.c], [negdi2.c], [cmpdi2.c],
    [ucmpdi2.c], the shifts, [muldi3.c], [qdivrem.c] and the divisions on top
    of it).  A quad is a mathematical integer; [union uu] gives its two
    32-bit words; the 16-bit digits of [__qdivrem] are the entries of the
    arrays [uspace], [vspace] and [qspace], addressed as in C through the
    moving pointers [u], [v] and [q] (here offsets into the arrays). *)

From S2P Require Import Prelude.

(** ** quad.h *)

(** [union uu]: the high and the low word. *)
Record uu := mk_uu { ulH : Z; ulL : Z }.

Definition INT_BITS := 32.
Definition HALF_BITS := 16.

Definition uu_of (q : Z) : uu := mk_uu (u32 (Z.shiftr q INT_BITS)) (u32 q).
Definition uu_uq (t : uu) : Z := Z.lor (Z.shiftl (ulH t) INT_BITS) (ulL t).
Definition uu_q (t : uu) : Z := i64 (uu_uq t).
Definition slH (t : uu) : Z := i32 (ulH t).

Definition HHALF (x : Z) : Z := Z.shiftr (u32 x) HALF_BITS.
Definition LHALF (x : Z) : Z := Z.land (u32 x) (Z.shiftl 1 HALF_BITS - 1).
Definition LHUP (x : Z) : Z := u32 (Z.shiftl (u32 x) HALF_BITS).

(** ** qdivrem.c *)

Definition B : Z := Z.shiftl 1 HALF_BITS.
Definition COMBINE (a b : Z) : Z := Z.lor (u32 (Z.shiftl (u32 a) HALF_BITS)) b.
(** [unsigned short] *)
Definition digit (x : Z) : Z := x mod 65536.

(** [shl(p, len, sh)]: [p] is an offset into the array [l]. *)
Fixpoint shl_loop (k : nat) (l : list Z) (p i sh : Z) : outcome (list Z) :=
  match k with
  | O =>
      pi ← load l (p + i);
      store l (p + i) (digit (LHALF (Z.shiftl pi sh)))
  | S k =>
      pi ← load l (p + i);
      pi1 ← load l (p + i + 1);
      l ← store l (p + i)
            (digit (Z.lor (LHALF (Z.shiftl pi sh)) (Z.shiftr pi1 (HALF_BITS - sh))));
      shl_loop k l p (i + 1) sh
  end.
Definition shl (l : list Z) (p len sh : Z) : outcome (list Z) :=
  shl_loop (Z.to_nat len) l p 0 sh.

(** Lines 136-165: count the leading zero digits of [v]; [n = 1] when the
    division is by one digit, which is then [v[2]]. *)
Fixpoint count_v (fuel : nat) (vs : list Z) (v n : Z) : outcome (Z * Z) :=
  match fuel with
  | O => Fault OutOfFuel
  | S fuel =>
      v1 ← load vs (v + 1);
      if v1 =? 0 then
        let n := n - 1 in
        if n =? 1 then Ret (v, n) else count_v fuel vs (v + 1) n
      else Ret (v, n)
  end.

Definition divmod (a b : Z) : outcome (Z * Z) :=
  if b =? 0 then Fault DivByZero else Ret (a / b, a mod b).

(** Lines 138-164, the unrolled division by the digit [t]. *)
Definition short_division (us : list Z) (t : Z) : outcome (Z * Z) :=
  u1 ← load us 1; u2 ← load us 2; u3 ← load us 3; u4 ← load us 4;
  '(q1, r1) ← divmod u1 t;
  '(q2, r2) ← divmod (COMBINE r1 u2) t;
  '(q3, r3) ← divmod (COMBINE r2 u3) t;
  '(q4, r4) ← divmod (COMBINE r3 u4) t;
  Ret (uu_uq (mk_uu (COMBINE (digit q1) (digit q2)) (COMBINE (digit q3) (digit q4))), r4).

(** [for (m = 4 - n; u[1] == 0; u++) m--;] *)
Fixpoint count_u (fuel : nat) (us : list Z) (u m : Z) : outcome (Z * Z) :=
  match fuel with
  | O => Fault OutOfFuel
  | S fuel =>
      u1 ← load us (u + 1);
      if u1 =? 0 then count_u fuel us (u + 1) (m - 1) else Ret (u, m)
  end.

(** [for (i = 4 - m; --i >= 0;) q[i] = 0;] with [k = i] on entry *)
Fixpoint zero_q (k : nat) (qs : list Z) : outcome (list Z) :=
  match k with
  | O => Ret qs
  | S k => qs ← store qs (Z.of_nat k) 0; zero_q k qs
  end.

(** D1: [for (t = v[1]; t < B / 2; t <<= 1) d++;] *)
Fixpoint norm_loop (fuel : nat) (t d : Z) : outcome Z :=
  match fuel with
  | O => Fault OutOfFuel
  | S fuel =>
      if t <? B / 2 then norm_loop fuel (u32 (Z.shiftl t 1)) (d + 1) else Ret d
  end.

(** D3: the loop that corrects [qhat]; [dec] is the part at the label
    [qhat_too_big]. *)
Fixpoint qhat_loop (fuel : nat) (v1 v2 uj2 qhat rhat : Z) (dec : bool) : outcome Z :=
  match fuel with
  | O => Fault OutOfFuel
  | S fuel =>
      if dec then
        let qhat := u32 (qhat - 1) in
        let rhat := u32 (rhat + v1) in
        if B <=? rhat then Ret qhat else qhat_loop fuel v1 v2 uj2 qhat rhat false
      else if COMBINE rhat uj2 <? u32 (v2 * qhat) then
        qhat_loop fuel v1 v2 uj2 qhat rhat true
      else Ret qhat
  end.

Definition guess_qhat (v1 v2 uj0 uj1 uj2 : Z) : outcome Z :=
  if uj0 =? v1 then qhat_loop 6 v1 v2 uj2 B uj1 true
  else
    '(qhat, rhat) ← divmod (COMBINE uj0 uj1) v1;
    qhat_loop 6 v1 v2 uj2 qhat rhat false.

(** D4: [u[j..j+n] -= v[1..n] * qhat]; [p] is [u + j]. *)
Fixpoint mulsub (i : nat) (qhat : Z) (vs : list Z) (v : Z) (us : list Z) (p t : Z)
  : outcome (list Z * Z) :=
  match i with
  | O => Ret (us, t)
  | S i' =>
      ui ← load us (p + Z.of_nat i);
      vi ← load vs (v + Z.of_nat i);
      let t := u32 (u32 (ui - u32 (vi * qhat)) - t) in
      us ← store us (p + Z.of_nat i) (digit (LHALF t));
      mulsub i' qhat vs v us p (Z.land (u32 (B - HHALF t)) (B - 1))
  end.

(** D6: [u[j..j+n] += v[1..n]] *)
Fixpoint addback (i : nat) (vs : list Z) (v : Z) (us : list Z) (p t : Z)
  : outcome (list Z * Z) :=
  match i with
  | O => Ret (us, t)
  | S i' =>
      ui ← load us (p + Z.of_nat i);
      vi ← load vs (v + Z.of_nat i);
      let t := u32 (t + (ui + vi)) in
      us ← store us (p + Z.of_nat i) (digit (LHALF t));
      addback i' vs v us p (HHALF t)
  end.

(** D4 in full: the loop, then the leading digit. *)
Definition subtract (n : nat) (qhat : Z) (vs : list Z) (v : Z) (us : list Z) (p : Z)
  : outcome (list Z * Z) :=
  '(us, t) ← mulsub n qhat vs v us p 0;
  uj ← load us p;
  let t := u32 (uj - t) in
  us ← store us p (digit (LHALF t));
  Ret (us, t).

(** D5 and D6: after a borrow, [qhat] was too large. *)
Definition correct (n : nat) (qhat t : Z) (vs : list Z) (v : Z) (us : list Z) (p : Z)
  : outcome (list Z * Z) :=
  if HHALF t =? 0 then Ret (us, qhat)
  else
    let qhat := u32 (qhat - 1) in
    '(us, t) ← addback n vs v us p 0;
    uj ← load us p;
    us ← store us p (digit (LHALF (uj + t)));
    Ret (us, qhat).

(** The body of the loop D2-D7 for one [j]. *)
Definition div_step (n : nat) (vs : list Z) (v v1 v2 : Z)
    (us : list Z) (u : Z) (qs : list Z) (q j : Z) : outcome (list Z * list Z) :=
  uj0 ← load us (u + j);
  uj1 ← load us (u + j + 1);
  uj2 ← load us (u + j + 2);
  qhat ← guess_qhat v1 v2 uj0 uj1 uj2;
  '(us, t) ← subtract n qhat vs v us (u + j);
  '(us, qhat) ← correct n qhat t vs v us (u + j);
  qs ← store qs (q + j) (digit qhat);
  Ret (us, qs).

(** [do ... while (++j <= m)]; [k] is the number of iterations left. *)
Fixpoint div_loop (k : nat) (n : nat) (vs : list Z) (v v1 v2 : Z)
    (us : list Z) (u : Z) (qs : list Z) (q j m : Z) : outcome (list Z * list Z) :=
  match k with
  | O => Fault OutOfFuel
  | S k =>
      '(us, qs) ← div_step n vs v v1 v2 us u qs q j;
      if j + 1 <=? m then div_loop k n vs v v1 v2 us u qs q (j + 1) m
      else Ret (us, qs)
  end.

(** [for (i = m + n; i > m; --i) u[i] = ...; u[i] = 0;] with [k = i - m] *)
Fixpoint unshift (k : nat) (us : list Z) (u m d : Z) : outcome (list Z) :=
  match k with
  | O => store us (u + m) 0
  | S k' =>
      let i := u + m + Z.of_nat k in
      ui ← load us i;
      ui' ← load us (i - 1);
      us ← store us i
             (digit (Z.lor (Z.shiftr ui d) (LHALF (Z.shiftl ui' (HALF_BITS - d)))));
      unshift k' us u m d
  end.

(** [COMBINE]s of entries 1 to 4 of an array *)
Definition quad_of_digits (l : list Z) : outcome Z :=
  l1 ← load l 1; l2 ← load l 2; l3 ← load l 3; l4 ← load l 4;
  Ret (uu_uq (mk_uu (COMBINE l1 l2) (COMBINE l3 l4))).

Definition digits_of_quad (l0 : Z) (x : Z) : list Z :=
  let tmp := uu_of x in
  [l0; digit (HHALF (ulH tmp)); digit (LHALF (ulH tmp));
   digit (HHALF (ulL tmp)); digit (LHALF (ulL tmp))].

(** D1, second half: shift both operands left by [d] bits. *)
Definition normalize (us vs : list Z) (u v m n d : Z) : outcome (list Z * list Z) :=
  if 0 <? d then
    us ← shl us u (m + n) d;
    vs ← shl vs (v + 1) (n - 1) d;
    Ret (us, vs)
  else Ret (us, vs).

(** The remainder, in [uspace], shifted back. *)
Definition remainder (us : list Z) (u m n d : Z) : outcome Z :=
  us ← (if d =? 0 then Ret us else unshift (Z.to_nat n) us u m d);
  quad_of_digits us.

(** The division by at least two digits. *)
Definition long_division (us vs qs : list Z) (v n : Z) (arq : bool)
  : outcome (Z * option Z) :=
  '(u, m) ← count_u 4 us 0 (4 - n);
  qs ← zero_q (Z.to_nat (4 - m)) qs;
  let q := 4 - m in
  v1 ← load vs (v + 1);
  d ← norm_loop 17 v1 0;
  '(us, vs) ← normalize us vs u v m n d;
  v1 ← load vs (v + 1);
  v2 ← load vs (v + 2);
  '(us, qs) ← div_loop 4 (Z.to_nat n) vs v v1 v2 us u qs q 0 m;
  rem ← (if arq then r ← remainder us u m n d; Ret (Some r) else Ret None);
  quot ← quad_of_digits qs;
  Ret (quot, rem).

(** [__qdivrem(uq, vq, arq)]; [arq] tells whether the pointer is non-null,
    and [junk] what the uninitialised [vspace[0]] and [qspace] hold. *)
Definition __qdivrem (junk : nat → Z) (uq vq : Z) (arq : bool) : outcome (Z * option Z) :=
  if vq =? 0 then Fault DivByZero    (* 1 / zero *)
  else if uq <? vq then Ret (0, if arq then Some uq else None)
  else
    let us := digits_of_quad 0 uq in
    let vs := digits_of_quad (digit (junk 5%nat)) vq in
    let qs := (λ i, digit (junk i)) <$> seq 0 5 in
    '(v, n) ← count_v 4 vs 0 4;
    if n =? 1 then
      t ← load vs (v + 2);
      '(quot, r) ← short_division us t;
      Ret (quot, if arq then Some r else None)
    else long_division us vs qs v n arq.

(** *** udivdi3.c, umoddi3.c, divdi3.c, moddi3.c

    The remainder of [__umoddi3] and [__moddi3] is read from the variable
    whose address they pass; it is always set. *)
Definition __udivdi3 (junk : nat → Z) (a b : Z) : outcome Z :=
  '(q, _) ← __qdivrem junk a b false; Ret q.

Definition __umoddi3 (junk : nat → Z) (a b : Z) : outcome Z :=
  '(_, r) ← __qdivrem junk a b true; deref r.

Definition __divdi3 (junk : nat → Z) (a b : Z) : outcome Z :=
  let ua := u64 a in
  let ub := u64 b in
  let neg := false in
  let '(ua, neg) := if a <? 0 then (u64 (- ua), negb neg) else (ua, neg) in
  let '(ub, neg) := if b <? 0 then (u64 (- ub), negb neg) else (ub, neg) in
  '(uq, _) ← __qdivrem junk ua ub false;
  let uq := if (neg : bool) then u64 (- uq) else uq in
  Ret (i64 uq).

Definition __moddi3 (junk : nat → Z) (a b : Z) : outcome Z :=
  let ua := u64 a in
  let ub := u64 b in
  let neg := false in
  let '(ua, neg) := if a <? 0 then (u64 (- ua), negb neg) else (ua, neg) in
  let ub := if b <? 0 then u64 (- ub) else ub in
  '(_, ur) ← __qdivrem junk ua ub true;
  ur ← deref ur;
  let ur := if (neg : bool) then u64 (- ur) else ur in
  Ret (i64 ur).

(** ** adddi3.c, subdi3.c, negdi2.c, notdi2.c, anddi3.c, iordi3.c, xordi3.c *)

Definition b2z (b : bool) : Z := if b then 1 else 0.

Definition __adddi3 (a b : Z) : Z :=
  let aa := uu_of a in
  let bb := uu_of b in
  let l := u32 (ulL aa + ulL bb) in
  let h := u32 (ulH aa + ulH bb + b2z (l <? ulL bb)) in
  uu_q (mk_uu h l).

Definition __subdi3 (a b : Z) : Z :=
  let aa := uu_of a in
  let bb := uu_of b in
  let l := u32 (ulL aa - ulL bb) in
  let h := u32 (ulH aa - ulH bb - b2z (ulL aa <? l)) in
  uu_q (mk_uu h l).

Definition __negdi2 (a : Z) : Z :=
  let aa := uu_of a in
  let l := u32 (- ulL aa) in
  let h := u32 (- ulH aa - b2z (0 <? l)) in
  uu_q (mk_uu h l).

(** [~] on an unsigned word *)
Definition not32 (x : Z) : Z := M32 - 1 - x.

Definition __one_cmpldi2 (a : Z) : Z :=
  let aa := uu_of a in uu_q (mk_uu (not32 (ulH aa)) (not32 (ulL aa))).

Definition __anddi3 (a b : Z) : Z :=
  let aa := uu_of a in let bb := uu_of b in
  uu_q (mk_uu (Z.land (ulH aa) (ulH bb)) (Z.land (ulL aa) (ulL bb))).

Definition __iordi3 (a b : Z) : Z :=
  let aa := uu_of a in let bb := uu_of b in
  uu_q (mk_uu (Z.lor (ulH aa) (ulH bb)) (Z.lor (ulL aa) (ulL bb))).

Definition __xordi3 (a b : Z) : Z :=
  let aa := uu_of a in let bb := uu_of b in
  uu_q (mk_uu (Z.lxor (ulH aa) (ulH bb)) (Z.lxor (ulL aa) (ulL bb))).

(** ** cmpdi2.c, ucmpdi2.c *)

Definition __cmpdi2 (a b : Z) : Z :=
  let aa := uu_of a in let bb := uu_of b in
  if slH aa <? slH bb then 0 else if slH bb <? slH aa then 2
  else if ulL aa <? ulL bb then 0 else if ulL bb <? ulL aa then 2 else 1.

Definition __ucmpdi2 (a b : Z) : Z :=
  let aa := uu_of a in let bb := uu_of b in
  if ulH aa <? ulH bb then 0 else if ulH bb <? ulH aa then 2
  else if ulL aa <? ulL bb then 0 else if ulL bb <? ulL aa then 2 else 1.

(** ** The shifts *)

(** C defines a shift of a 32-bit operand only by less than 32 bits. *)
Definition shift_ok (n : Z) : outcome () :=
  if bool_decide (0 ≤ n < INT_BITS) then Ret () else Fault ShiftTooWide.
Definition shl32 (x n : Z) : outcome Z := _ ← shift_ok n; Ret (u32 (Z.shiftl x n)).
Definition shr32 (x n : Z) : outcome Z := _ ← shift_ok n; Ret (Z.shiftr x n).

Definition __ashldi3 (a shift : Z) : outcome Z :=
  if shift =? 0 then Ret a
  else
    let aa := uu_of a in
    if INT_BITS <=? shift then
      h ← shl32 (ulL aa) (shift - INT_BITS);
      Ret (uu_q (mk_uu h 0))
    else
      h1 ← shl32 (ulH aa) shift;
      h2 ← shr32 (ulL aa) (INT_BITS - shift);
      l ← shl32 (ulL aa) shift;
      Ret (uu_q (mk_uu (Z.lor h1 h2) l)).

Definition __lshldi3 (a shift : Z) : outcome Z :=
  if shift =? 0 then Ret a
  else
    let aa := uu_of a in
    if INT_BITS <=? shift then
      h ← shl32 (ulL aa) (shift - INT_BITS);
      Ret (uu_q (mk_uu h 0))
    else
      h1 ← shl32 (ulH aa) shift;
      h2 ← shr32 (ulL aa) (INT_BITS - shift);
      l ← shl32 (ulL aa) shift;
      Ret (uu_q (mk_uu (Z.lor h1 h2) l)).

Definition __ashrdi3 (a shift : Z) : outcome Z :=
  if shift =? 0 then Ret a
  else
    let aa := uu_of a in
    if INT_BITS <=? shift then
      let s := Z.shiftr (Z.shiftr (slH aa) (INT_BITS - 1)) 1 in
      l ← shr32 (slH aa) (shift - INT_BITS);
      Ret (uu_q (mk_uu (u32 s) (u32 l)))
    else
      l1 ← shr32 (ulL aa) shift;
      l2 ← shl32 (ulH aa) (INT_BITS - shift);
      h ← shr32 (slH aa) shift;
      Ret (uu_q (mk_uu (u32 h) (Z.lor l1 l2))).

Definition __lshrdi3 (a shift : Z) : outcome Z :=
  if shift =? 0 then Ret a
  else
    let aa := uu_of a in
    if INT_BITS <=? shift then
      l ← shr32 (ulH aa) (shift - INT_BITS);
      Ret (uu_q (mk_uu 0 l))
    else
      l1 ← shr32 (ulL aa) shift;
      l2 ← shl32 (ulH aa) (INT_BITS - shift);
      h ← shr32 (ulH aa) shift;
      Ret (uu_q (mk_uu h (Z.lor l1 l2))).

(** ** muldi3.c *)

(** The end of [__lmulq]: the three products put together, with carries. *)
Definition lmulq_assemble (high mid low : Z) (neg : bool) : Z :=
  (* prod = (high << 2N) + (high << N); *)
  let prodh := u32 (high + HHALF high) in
  let prodl := LHUP high in
  (* if (neg) prod -= mid << N; else prod += mid << N; *)
  let '(prodh, prodl) :=
    if neg then
      let was := prodl in
      let prodl := u32 (prodl - LHUP mid) in
      (u32 (prodh - (HHALF mid + b2z (was <? prodl))), prodl)
    else
      let was := prodl in
      let prodl := u32 (prodl + LHUP mid) in
      (u32 (prodh + (HHALF mid + b2z (prodl <? was))), prodl) in
  (* prod += low << N *)
  let was := prodl in
  let prodl := u32 (prodl + LHUP low) in
  let prodh := u32 (prodh + (HHALF low + b2z (prodl <? was))) in
  (* ... + low; *)
  let prodl := u32 (prodl + low) in
  let prodh := if prodl <? low then u32 (prodh + 1) else prodh in
  uu_q (mk_uu prodh prodl).

(** [udiff], [vdiff] and the sign of their product: shared by both functions. *)
Definition abs_diffs (u1 u0 v1 v0 : Z) : Z * Z * bool :=
  let '(udiff, neg) := if u0 <=? u1 then (u32 (u1 - u0), false) else (u32 (u0 - u1), true) in
  let '(vdiff, neg) := if v1 <=? v0 then (u32 (v0 - v1), neg) else (u32 (v1 - v0), negb neg) in
  (udiff, vdiff, neg).

Definition __lmulq (u v : Z) : Z :=
  let u1 := HHALF u in
  let u0 := LHALF u in
  let v1 := HHALF v in
  let v0 := LHALF v in
  let low := u32 (u0 * v0) in
  if (u1 =? 0) && (v1 =? 0) then low
  else
    let '(udiff, vdiff, neg) := abs_diffs u1 u0 v1 v0 in
    let mid := u32 (udiff * vdiff) in
    let high := u32 (u1 * v1) in
    lmulq_assemble high mid low neg.

(** The product of the absolute values, up to the sign. *)
Definition mul_words (u v : Z) : uu :=
  let uu := uu_of u in
  let vv := uu_of v in
  let u1 := ulH uu in let u0 := ulL uu in
  let v1 := ulH vv in let v0 := ulL vv in
  if (u1 =? 0) && (v1 =? 0) then uu_of (__lmulq u0 v0)
  else
    let low := uu_of (__lmulq u0 v0) in
    let '(udiff, vdiff, negmid) := abs_diffs u1 u0 v1 v0 in
    let mid := u32 (udiff * vdiff) in
    let high := u32 (u1 * v1) in
    mk_uu (u32 (high + (if negmid then u32 (- mid) else mid) + ulL low + ulH low)) (ulL low).

Definition __muldi3 (a b : Z) : outcome Z :=
  '(u, negall) ← (if 0 <=? a then Ret (a, false) else na ← quad_ (- a); Ret (na, true));
  '(v, negall) ← (if 0 <=? b then Ret (b, negall) else nb ← quad_ (- b); Ret (nb, negb negall));
  let prod := mul_words u v in
  if (negall : bool) then quad_ (- uu_q prod) else Ret (uu_q prod).

(** ** Words and halves as arithmetic *)

Abbreviation BB := 65536 (only parsing).

Lemma B_val : B = BB.
Proof. done. Qed.

Lemma HHALF_val x : HHALF x = u32 x / BB.
Proof. unfold HHALF. by rewrite Z.shiftr_div_pow2. Qed.

Lemma LHALF_val x : LHALF x = x mod BB.
Proof.
  unfold LHALF. change (Z.shiftl 1 HALF_BITS - 1) with (Z.ones 16).
  rewrite Z.land_ones by done. change (2 ^ 16) with BB. wrap_lia.
Qed.

Lemma LHUP_val x : LHUP x = (x mod BB) * BB.
Proof. unfold LHUP. rewrite Z.shiftl_mul_pow2 by done. change (2 ^ HALF_BITS) with BB. wrap_lia. Qed.

Lemma COMBINE_val a b : 0 ≤ a < BB → 0 ≤ b < BB → COMBINE a b = a * BB + b.
Proof.
  intros Ha Hb. unfold COMBINE. rewrite (u32_small a) by (unfold is_u32; lia).
  rewrite u32_small.
  - rewrite lor_shiftl_add by done. change (2 ^ HALF_BITS) with BB. lia.
  - rewrite Z.shiftl_mul_pow2 by done. change (2 ^ HALF_BITS) with BB. unfold is_u32. lia.
Qed.

Lemma uu_uq_val h l : is_u32 h → is_u32 l → uu_uq (mk_uu h l) = h * M32 + l.
Proof.
  intros Hh Hl. unfold uu_uq. cbn. rewrite lor_shiftl_add by done.
  change (2 ^ INT_BITS) with M32. lia.
Qed.

Lemma uu_of_val q : uu_of q = mk_uu (u32 (q / M32)) (u32 q).
Proof. unfold uu_of. by rewrite Z.shiftr_div_pow2. Qed.

(** ** Digit arrays *)

Definition digits (l : list Z) : Prop := Forall (λ x, 0 ≤ x < BB) l.

(** The number whose base-[B] digits are [l[a] .. l[a + k - 1]]. *)
Fixpoint val (l : list Z) (a : Z) (k : nat) : Z :=
  match k with O => 0 | S k' => val l a k' * BB + zth l (a + Z.of_nat k') end.

(** [B] to the power [k] *)
Definition pw (k : nat) : Z := BB ^ Z.of_nat k.
Lemma pw_S k : pw (S k) = pw k * BB.
Proof. unfold pw. rewrite Nat2Z.inj_succ, Z.pow_succ_r by lia. lia. Qed.
Lemma pw_0 : pw 0 = 1.
Proof. done. Qed.
Lemma pw_pos k : 1 ≤ pw k.
Proof. unfold pw. pose proof (Z.pow_pos_nonneg BB (Z.of_nat k)). lia. Qed.

Lemma digits_zth l i : digits l → 0 ≤ zth l i < BB.
Proof. intros Hl. by apply (zth_Forall (λ x, 0 ≤ x < BB)). Qed.

Lemma digits_store l i x l' : digits l → 0 ≤ x < BB → store l i x = Ret l' → digits l'.
Proof. intros Hl Hx (Hi & ->)%store_Ret. by apply Forall_insert. Qed.

Lemma val_bound l a k : digits l → 0 ≤ val l a k < pw k.
Proof.
  intros Hl. induction k as [|k IH]; cbn [val]; [rewrite pw_0; lia|].
  rewrite pw_S. pose proof (digits_zth l (a + Z.of_nat k) Hl). nia.
Qed.

Lemma val_ext l l' a a' k :
  (∀ i, 0 ≤ i < Z.of_nat k → zth l (a + i) = zth l' (a' + i)) → val l a k = val l' a' k.
Proof.
  induction k as [|k IH]; intros H; cbn [val]; [done|].
  rewrite IH, H by (intros; try apply H; lia). done.
Qed.

Lemma val_app l a k1 k2 :
  val l a (k1 + k2) = val l a k1 * pw k2 + val l (a + Z.of_nat k1) k2.
Proof.
  induction k2 as [|k2 IH]; [rewrite Nat.add_0_r, pw_0; cbn; lia|].
  rewrite Nat.add_succ_r. cbn [val]. rewrite IH, pw_S.
  replace (a + Z.of_nat k1 + Z.of_nat k2) with (a + Z.of_nat (k1 + k2)) by lia. lia.
Qed.

Lemma val_head l a k : val l a (S k) = zth l a * pw k + val l (a + 1) k.
Proof.
  change (S k) with (1 + k)%nat. rewrite val_app. cbn [val].
  change (Z.of_nat 1) with 1. change (Z.of_nat 0) with 0. rewrite Z.add_0_r. lia.
Qed.

(** A store is a pure update. *)
Lemma store_upd l i x :
  0 ≤ i < Z.of_nat (length l) →
  ∃ l', store l i x = Ret l' ∧ length l' = length l ∧ zth l' i = x ∧
    (∀ j, 0 ≤ j → j ≠ i → zth l' j = zth l j).
Proof.
  intros Hi. rewrite store_in by done. eexists. split; [done|].
  rewrite length_insert. split; [done|]. split; [by apply zth_insert_eq|].
  intros j Hj Hne. apply zth_insert_ne; lia.
Qed.

(** *** Multiply and subtract, add back *)

(** [l'] is the array [l] with the digits [a .. a + k - 1] replaced. *)
Definition same_but (l l' : list Z) (a : Z) (k : nat) : Prop :=
  length l' = length l ∧ digits l' ∧
  ∀ i, 0 ≤ i → (i < a ∨ a + Z.of_nat k ≤ i) → zth l' i = zth l i.

Lemma same_but_val l l' a k b n :
  same_but l l' a k → 0 ≤ b → (b + Z.of_nat n ≤ a ∨ a + Z.of_nat k ≤ b) →
  val l' b n = val l b n.
Proof. intros (_ & _ & H) Hb Hd. apply val_ext. intros i Hi. apply H; lia. Qed.

Lemma mulsub_digit x qhat y t :
  0 ≤ x < BB → 0 ≤ y < BB → 0 ≤ qhat < BB → 0 ≤ t < BB →
  let s := u32 (u32 (x - u32 (y * qhat)) - t) in
  let t' := Z.land (u32 (B - HHALF s)) (B - 1) in
  digit (LHALF s) = x - y * qhat - t + BB * t' ∧ 0 ≤ digit (LHALF s) < BB ∧ 0 ≤ t' < BB.
Proof.
  intros Hx Hy Hq Ht s t'.
  assert (0 ≤ y * qhat ≤ 65535 * 65535) as Hp by nia.
  assert (t' = (- (s / BB)) mod BB) as ->.
  { unfold t'. change (B - 1) with (Z.ones 16). rewrite Z.land_ones, HHALF_val, B_val by done.
    change (2 ^ 16) with BB. assert (is_u32 s) by apply u32_range.
    rewrite (u32_small s) by done. wrap_lia. }
  rewrite LHALF_val. unfold digit. unfold s, u32. clear s.
  generalize dependent (y * qhat). intros p Hp. zmod.
Qed.

Lemma mulsub_spec i qhat vs v : ∀ us p t,
  digits us → digits vs → 0 ≤ qhat < BB → 0 ≤ t < BB → 0 ≤ p → 0 ≤ v →
  p + Z.of_nat i < Z.of_nat (length us) → v + Z.of_nat i < Z.of_nat (length vs) →
  ∃ us' t', mulsub i qhat vs v us p t = Ret (us', t') ∧ 0 ≤ t' < BB ∧
    same_but us us' (p + 1) i ∧
    val us' (p + 1) i = val us (p + 1) i - qhat * val vs (v + 1) i - t + t' * pw i.
Proof.
  induction i as [|i IH]; intros us p t Hus Hvs Hq Ht Hp Hv Hlu Hlv.
  { exists us, t. split; [done|]. split; [done|]. split; [done|]. rewrite pw_0. cbn. lia. }
  cbn [mulsub]. rewrite !load_zth by lia. cbn [mbind outcome_bind].
  pose proof (digits_zth us (p + Z.of_nat (S i)) Hus) as Hx.
  pose proof (digits_zth vs (v + Z.of_nat (S i)) Hvs) as Hy.
  destruct (mulsub_digit _ _ _ _ Hx Hy Hq Ht) as (Hd & Hdr & Htr).
  revert Hd Hdr Htr. set (s := u32 _). set (t1 := Z.land _ _). intros Hd Hdr Htr.
  destruct (store_upd us (p + Z.of_nat (S i)) (digit (LHALF s))) as (us1 & Hs & Hl1 & Hz1 & Ho1);
    [lia|]. rewrite Hs. cbn [mbind outcome_bind].
  pose proof (digits_store _ _ _ _ Hus Hdr Hs) as Hus1.
  destruct (IH us1 p t1) as (us2 & t2 & -> & Ht2 & Hsb & Hval); try done; try lia.
  exists us2, t2. split; [done|]. split; [done|]. destruct Hsb as (Hl2 & Hd2 & Ho2). split.
  { split; [lia|]. split; [done|]. intros k Hk Hki. rewrite Ho2, Ho1 by lia. done. }
  cbn [val]. rewrite Hval, pw_S. rewrite Ho2 by lia.
  replace (p + 1 + Z.of_nat i) with (p + Z.of_nat (S i)) by lia.
  replace (v + 1 + Z.of_nat i) with (v + Z.of_nat (S i)) by lia.
  rewrite Hz1, Hd. rewrite (val_ext us1 us (p + 1) (p + 1)) by (intros; apply Ho1; lia). lia.
Qed.

Lemma addback_digit x y t :
  0 ≤ x < BB → 0 ≤ y < BB → 0 ≤ t < BB →
  let s := u32 (t + (x + y)) in
  digit (LHALF s) = x + y + t - BB * HHALF s ∧ 0 ≤ digit (LHALF s) < BB ∧ 0 ≤ HHALF s < BB.
Proof.
  intros Hx Hy Ht s. rewrite LHALF_val, HHALF_val. unfold digit, s, u32. zmod.
Qed.

Lemma addback_spec i vs v : ∀ us p t,
  digits us → digits vs → 0 ≤ t < BB → 0 ≤ p → 0 ≤ v →
  p + Z.of_nat i < Z.of_nat (length us) → v + Z.of_nat i < Z.of_nat (length vs) →
  ∃ us' t', addback i vs v us p t = Ret (us', t') ∧ 0 ≤ t' < BB ∧
    same_but us us' (p + 1) i ∧
    val us' (p + 1) i + t' * pw i = val us (p + 1) i + val vs (v + 1) i + t.
Proof.
  induction i as [|i IH]; intros us p t Hus Hvs Ht Hp Hv Hlu Hlv.
  { exists us, t. split; [done|]. split; [done|]. split; [done|]. rewrite pw_0. cbn. lia. }
  cbn [addback]. rewrite !load_zth by lia. cbn [mbind outcome_bind].
  pose proof (digits_zth us (p + Z.of_nat (S i)) Hus) as Hx.
  pose proof (digits_zth vs (v + Z.of_nat (S i)) Hvs) as Hy.
  destruct (addback_digit _ _ _ Hx Hy Ht) as (Hd & Hdr & Htr).
  revert Hd Hdr Htr. set (s := u32 _). intros Hd Hdr Htr.
  destruct (store_upd us (p + Z.of_nat (S i)) (digit (LHALF s))) as (us1 & Hs & Hl1 & Hz1 & Ho1);
    [lia|]. rewrite Hs. cbn [mbind outcome_bind].
  pose proof (digits_store _ _ _ _ Hus Hdr Hs) as Hus1.
  destruct (IH us1 p (HHALF s)) as (us2 & t2 & -> & Ht2 & Hsb & Hval); try done; try lia.
  exists us2, t2. split; [done|]. split; [done|]. destruct Hsb as (Hl2 & Hd2 & Ho2). split.
  { split; [lia|]. split; [done|]. intros k Hk Hki. rewrite Ho2, Ho1 by lia. done. }
  cbn [val]. rewrite pw_S. rewrite Ho2 by lia.
  replace (p + 1 + Z.of_nat i) with (p + Z.of_nat (S i)) by lia.
  replace (v + 1 + Z.of_nat i) with (v + Z.of_nat (S i)) by lia.
  rewrite Hz1, Hd. rewrite (val_ext us1 us (p + 1) (p + 1)) in Hval by (intros; apply Ho1; lia). lia.
Qed.

(** *** The quotient digit *)

Lemma qhat_loop_spec v1 v2 uj0 uj1 uj2 q :
  32768 ≤ v1 < BB → 0 ≤ v2 < BB → 0 ≤ uj2 < BB → 0 ≤ q →
  q * (v1 * BB + v2) ≤ (uj0 * BB + uj1) * BB + uj2 →
  ∀ fuel c qhat rhat dec,
  rhat = uj0 * BB + uj1 - qhat * v1 → 0 ≤ rhat < BB → 0 ≤ c → BB - rhat ≤ c * 32768 →
  (if (dec : bool) then q < qhat ≤ BB ∧ 2 * c ≤ Z.of_nat fuel
   else q ≤ qhat < BB ∧ 2 * c + 1 ≤ Z.of_nat fuel) →
  ∃ qh, qhat_loop fuel v1 v2 uj2 qhat rhat dec = Ret qh ∧ q ≤ qh < BB ∧
    qh * (v1 * BB + v2) ≤ (uj0 * BB + uj1) * BB + uj2.
Proof.
  intros Hv1 Hv2 Hu2 Hq HqU. induction fuel as [|fuel IH]; intros c qhat rhat dec Hr Hrr Hc Hm Hd.
  { destruct dec; lia. }
  cbn [qhat_loop]. destruct dec.
  - rewrite (u32_small (qhat - 1)), (u32_small (rhat + v1)), B_val by (unfold is_u32; lia).
    destruct (Z.leb_spec BB (rhat + v1)).
    + exists (qhat - 1). split; [done|]. split; [lia|]. nia.
    + apply (IH (c - 1)); lia.
  - assert (0 ≤ v2 * qhat < M32) as Hp by nia.
    rewrite (u32_small (v2 * qhat)), COMBINE_val by (unfold is_u32; lia).
    destruct (Z.ltb_spec (rhat * BB + uj2) (v2 * qhat)).
    + apply (IH c); try lia. split; [|lia]. split; [|lia]. nia.
    + exists qhat. split; [done|]. split; [lia|]. nia.
Qed.

Lemma qhat_at_most qh q V2 P V W U3 r :
  BB ≤ V2 → 1 ≤ P → 0 ≤ q < BB → qh * V2 ≤ U3 → U3 * P ≤ W → W = V * q + r → r < V →
  V < (V2 + 1) * P → qh ≤ q + 1.
Proof.
  intros HV2 HP Hq Hqh HU HW Hr HV. destruct (decide (qh ≤ q + 1)) as [|Hgt]; [done|]. exfalso.
  assert ((q + 2) * V2 ≤ qh * V2) by (apply Z.mul_le_mono_nonneg_r; lia).
  assert ((q + 2) * V2 * P ≤ U3 * P) by (apply Z.mul_le_mono_nonneg_r; lia).
  assert (V * (q + 1) ≤ (V2 + 1) * P * (q + 1)) by (apply Z.mul_le_mono_nonneg_r; lia).
  assert ((q + 2) * V2 * P < (V2 + 1) * (q + 1) * P) as Hx by lia.
  apply Z.mul_lt_mono_pos_r in Hx; lia.
Qed.

Lemma guess_qhat_spec v1 v2 uj0 uj1 uj2 P V W :
  32768 ≤ v1 < BB → 0 ≤ v2 < BB → 0 ≤ uj0 < BB → 0 ≤ uj1 < BB → 0 ≤ uj2 < BB → 1 ≤ P →
  (v1 * BB + v2) * P ≤ V < (v1 * BB + v2 + 1) * P →
  ((uj0 * BB + uj1) * BB + uj2) * P ≤ W < ((uj0 * BB + uj1) * BB + uj2 + 1) * P →
  W < V * BB →
  ∃ qh, guess_qhat v1 v2 uj0 uj1 uj2 = Ret qh ∧ 0 ≤ qh < BB ∧ W / V ≤ qh ≤ W / V + 1.
Proof.
  intros Hv1 Hv2 Hu0 Hu1 Hu2 HP HV HW HWV.
  assert (0 < V) by nia. assert (0 ≤ W) by nia.
  pose proof (Z.div_mod W V ltac:(lia)) as Hdiv. pose proof (Z.mod_pos_bound W V ltac:(lia)) as Hmod.
  assert (0 ≤ W / V) as Hq0 by (apply Z.div_pos; lia).
  assert (W / V < BB) as HqB by (apply Z.div_lt_upper_bound; lia).
  revert Hdiv Hmod Hq0 HqB. generalize (W / V), (W mod V). intros q r Hdiv Hmod Hq0 HqB.
  assert (q * (v1 * BB + v2) ≤ (uj0 * BB + uj1) * BB + uj2) as HqU.
  { assert (q * (v1 * BB + v2) * P < ((uj0 * BB + uj1) * BB + uj2 + 1) * P) by nia.
    assert (q * (v1 * BB + v2) < (uj0 * BB + uj1) * BB + uj2 + 1); [|lia].
    apply (Z.mul_lt_mono_pos_r P); lia. }
  assert (uj0 ≤ v1) as Huv.
  { assert (uj0 * (BB * BB * P) < (v1 + 1) * (BB * BB * P)) as Hx by nia.
    apply Z.mul_lt_mono_pos_r in Hx; lia. }
  assert (∃ qh, guess_qhat v1 v2 uj0 uj1 uj2 = Ret qh ∧ q ≤ qh < BB ∧
    qh * (v1 * BB + v2) ≤ (uj0 * BB + uj1) * BB + uj2) as (qh & -> & Hqh & HqhU).
  { unfold guess_qhat. destruct (Z.eqb_spec uj0 v1) as [->|Hne].
    - apply (qhat_loop_spec v1 v2 v1 uj1 uj2 q) with (c := 2); rewrite ?B_val; try lia.
    - unfold divmod. rewrite (proj2 (Z.eqb_neq v1 0)), COMBINE_val by lia.
      cbn [mbind outcome_bind].
      pose proof (Z.div_mod (uj0 * BB + uj1) v1 ltac:(lia)) as Hd.
      pose proof (Z.mod_pos_bound (uj0 * BB + uj1) v1 ltac:(lia)).
      revert Hd. generalize dependent ((uj0 * BB + uj1) mod v1). intros rh Hrh.
      generalize ((uj0 * BB + uj1) / v1). intros qh0 Hd.
      apply (qhat_loop_spec v1 v2 uj0 uj1 uj2 q) with (c := 2); try lia; try done.
      split; [|done]. clear HW HV HWV Hdiv Hmod. split.
      + assert (q * v1 * BB < (uj0 * BB + uj1 + 1) * BB) as Hx by lia.
        apply Z.mul_lt_mono_pos_r in Hx; [|lia].
        assert (v1 * q < v1 * (qh0 + 1)) as Hy by lia.
        apply Z.mul_lt_mono_pos_l in Hy; lia.
      + assert (v1 * qh0 < v1 * BB) as Hy by lia.
        apply Z.mul_lt_mono_pos_l in Hy; lia. }
  exists qh. split; [done|]. split; [lia|]. split; [lia|].
  eapply (qhat_at_most qh q (v1 * BB + v2) P V W _ r); try done; try lia.
Qed.

(** One step of the long division: the [n + 1] digits at [u + j] become the
    remainder by [V], the quotient digit goes to [q[j]]. *)
Lemma same_but_trans l1 l2 l3 a k b m :
  same_but l1 l2 a k → same_but l2 l3 b m → a ≤ b → b + Z.of_nat m ≤ a + Z.of_nat k →
  same_but l1 l3 a k.
Proof.
  intros (Hl1 & Hd1 & H1) (Hl2 & Hd2 & H2) Hab Hmk. split; [lia|]. split; [done|].
  intros i Hi Ho. rewrite H2, H1 by lia. done.
Qed.

Lemma store_same_but l i x a k :
  digits l → 0 ≤ x < BB → 0 ≤ i < Z.of_nat (length l) → a ≤ i < a + Z.of_nat k →
  ∃ l', store l i x = Ret l' ∧ same_but l l' a k ∧ zth l' i = x ∧
    (∀ j, 0 ≤ j → j ≠ i → zth l' j = zth l j).
Proof.
  intros Hd Hx Hi Hr. destruct (store_upd l i x Hi) as (l' & Hs & Hl & Hz & Ho).
  exists l'. split; [done|]. split; [|done]. split; [done|]. split; [by eapply digits_store|].
  intros j Hj Hor. apply Ho; lia.
Qed.

Lemma val_top2 l a n : val l a (2 + n) = (zth l a * BB + zth l (a + 1)) * pw n + val l (a + 2) n.
Proof.
  rewrite val_app. cbn [val]. change (Z.of_nat 1) with 1. change (Z.of_nat 0) with 0.
  change (Z.of_nat 2) with 2. rewrite Z.add_0_r. lia.
Qed.

Lemma div_step_guess n' us vs p v :
  digits us → digits vs → 32768 ≤ zth vs (v + 1) →
  val us p (3 + n') < val vs (v + 1) (2 + n') * BB →
  ∃ qh, guess_qhat (zth vs (v + 1)) (zth vs (v + 2)) (zth us p) (zth us (p + 1)) (zth us (p + 2))
        = Ret qh ∧ 0 ≤ qh < BB ∧
    val us p (3 + n') / val vs (v + 1) (2 + n') ≤ qh
      ≤ val us p (3 + n') / val vs (v + 1) (2 + n') + 1.
Proof.
  intros Hus Hvs Hv1 HW.
  pose proof (digits_zth vs (v + 1) Hvs). pose proof (digits_zth vs (v + 2) Hvs).
  pose proof (digits_zth us p Hus). pose proof (digits_zth us (p + 1) Hus).
  pose proof (digits_zth us (p + 2) Hus).
  apply (guess_qhat_spec _ _ _ _ _ (pw n')); try done; try lia.
  - apply pw_pos.
  - rewrite val_top2. replace (v + 1 + 1) with (v + 2) by lia.
    pose proof (val_bound vs (v + 1 + 2) n' Hvs). lia.
  - change (3 + n')%nat with (2 + S n')%nat. rewrite val_top2, val_head, pw_S.
    replace (p + 2 + 1) with (p + 3) by lia.
    pose proof (val_bound us (p + 3) n' Hus). lia.
Qed.

Lemma borrow_top n W q V qh uj t L :
  0 ≤ uj < BB → 0 ≤ t < BB → 0 < V < n → 0 ≤ L < n → q = W / V →
  q ≤ qh ≤ q + 1 → uj * n + L - t * n = W - qh * V →
  (uj = t ∧ qh = q ∧ L = W mod V) ∨ (uj - t = -1 ∧ qh = q + 1 ∧ L + V = W mod V + n).
Proof.
  intros Huj Ht HV HL -> Hqh Heq.
  pose proof (Z.div_mod W V ltac:(lia)) as Hd. pose proof (Z.mod_pos_bound W V ltac:(lia)) as Hm.
  revert Hd Hm. revert Hqh. generalize (W / V), (W mod V). intros q r Hqh Hd Hm.
  destruct (decide (qh = q)) as [->|Hne].
  - left. assert ((uj - t) * n + L = r) as Hx by lia. destruct (Z.lt_total (uj - t) 0) as [Hn|[H0|H0]].
    + assert ((uj - t) * n ≤ -1 * n) by (apply Z.mul_le_mono_nonneg_r; lia). lia.
    + assert (uj = t) as -> by lia. lia.
    + assert (1 * n ≤ (uj - t) * n) by (apply Z.mul_le_mono_nonneg_r; lia). lia.
  - right. assert (qh = q + 1) as -> by lia.
    assert ((uj - t) * n + L = r - V) as Hx by lia.
    assert (uj - t = -1) as Hm1; [|rewrite Hm1 in Hx; lia].
    destruct (Z.lt_total (uj - t) (-1)) as [Hn|[H0|H0]]; [|done|].
    + assert ((uj - t) * n ≤ -2 * n) by (apply Z.mul_le_mono_nonneg_r; lia). lia.
    + assert (0 * n ≤ (uj - t) * n) by (apply Z.mul_le_mono_nonneg_r; lia). lia.
Qed.

(** What D4 leaves: the remainder, or the remainder less [V] and a borrow. *)
Definition subtracted (n : nat) (W V qh t : Z) (us : list Z) (p : Z) : Prop :=
  (HHALF t = 0 ∧ qh = W / V ∧ val us p (S n) = W mod V) ∨
  (HHALF t ≠ 0 ∧ qh = W / V + 1 ∧ zth us p = BB - 1 ∧ val us (p + 1) n + V = W mod V + pw n).

Lemma subtract_spec n qh vs v us p V :
  V = val vs (v + 1) n → digits us → digits vs → 0 ≤ p → p + Z.of_nat n < Z.of_nat (length us) →
  0 ≤ v → v + Z.of_nat n < Z.of_nat (length vs) → 0 < V → 0 ≤ qh < BB →
  val us p (S n) / V ≤ qh ≤ val us p (S n) / V + 1 →
  ∃ us' t, subtract n qh vs v us p = Ret (us', t) ∧ same_but us us' p (S n) ∧
    subtracted n (val us p (S n)) V qh t us' p.
Proof.
  intros HV Hus Hvs Hp Hlu Hv Hlv HV0 Hqh Hq. unfold subtract.
  pose proof (val_bound vs (v + 1) n Hvs) as HVb. rewrite <-HV in HVb.
  destruct (mulsub_spec n qh vs v us p 0) as (us1 & t & -> & Ht & Hsb & Hval); [try done; lia..|].
  cbn [mbind outcome_bind]. destruct Hsb as (Hl1 & Hd1 & Ho1).
  rewrite load_zth by lia. cbn [mbind outcome_bind]. rewrite Ho1 by lia.
  pose proof (digits_zth us p Hus) as Huj. pose proof (val_bound us1 (p + 1) n Hd1) as HL.
  pose proof (val_head us p n) as HWh.
  destruct (store_same_but us1 p (digit (LHALF (u32 (zth us p - t)))) p (S n))
    as (us2 & -> & (Hl2 & Hd2 & H2) & Hz2 & Ho2); [done| |lia..|].
  { rewrite LHALF_val. unfold digit. zmod. }
  cbn [mbind outcome_bind]. exists us2, (u32 (zth us p - t)). split; [done|]. split.
  { split; [lia|]. split; [done|]. intros i Hi Hor. rewrite H2, Ho1 by lia. done. }
  unfold subtracted. rewrite (val_head us2), (val_ext us2 us1 (p + 1) (p + 1)) by (intros; apply Ho2; lia).
  rewrite Hz2. destruct (borrow_top (pw n) (val us p (S n)) (val us p (S n) / V) V qh (zth us p) t
    (val us1 (p + 1) n)) as [(Hu & -> & ->)|(Hu & -> & Hr)]; try done; try lia.
  - left. rewrite Hu, Z.sub_diag. split; [done|]. split; [done|].
    change (digit (LHALF (u32 0))) with 0. lia.
  - right. rewrite Hu. split; [done|]. split; [done|]. split; [done|lia].
Qed.

Lemma correct_spec n qh t vs v us p V W :
  V = val vs (v + 1) n → digits us → digits vs → 0 ≤ p → p + Z.of_nat n < Z.of_nat (length us) →
  0 ≤ v → v + Z.of_nat n < Z.of_nat (length vs) → 0 < V → 0 ≤ W → qh < BB →
  subtracted n W V qh t us p →
  ∃ us', correct n qh t vs v us p = Ret (us', W / V) ∧ same_but us us' p (S n) ∧
    val us' p (S n) = W mod V.
Proof.
  intros HV Hus Hvs Hp Hlu Hv Hlv HV0 HW Hqh Hs. unfold correct.
  pose proof (Z.mod_pos_bound W V HV0) as Hm. pose proof (Z.div_pos W V HW HV0) as Hq0.
  destruct Hs as [(-> & -> & Hval)|(Ht%Z.eqb_neq & -> & Hz & Hval)].
  { exists us. split; [done|]. split; [|done]. done. }
  rewrite Ht. destruct (addback_spec n vs v us p 0) as (us3 & t3 & -> & Ht3 & (Hl3 & Hd3 & Ho3) & Hval3);
    [try done; lia..|].
  cbn [mbind outcome_bind]. rewrite load_zth by lia. cbn [mbind outcome_bind].
  rewrite Ho3, Hz by lia.
  destruct (store_same_but us3 p (digit (LHALF (BB - 1 + t3))) p (S n))
    as (us4 & -> & (Hl4 & Hd4 & H4) & Hz4 & Ho4); [done| |lia..|].
  { rewrite LHALF_val. unfold digit. zmod. }
  cbn [mbind outcome_bind]. rewrite Z.add_simpl_r, u32_small by (unfold is_u32; lia).
  exists us4. split; [done|]. split.
  { split; [lia|]. split; [done|]. intros i Hi Hor. rewrite H4, Ho3 by lia. done. }
  rewrite val_head, Hz4, (val_ext us4 us3 (p + 1) (p + 1)) by (intros; apply Ho4; lia).
  pose proof (val_bound us3 (p + 1) n Hd3). pose proof (val_bound vs (v + 1) n Hvs).
  assert (t3 = 1) as -> by nia. change (digit (LHALF (BB - 1 + 1))) with 0. lia.
Qed.

Lemma div_step_spec n us vs v u qs q j V W :
  V = val vs (v + 1) n → W = val us (u + j) (S n) →
  (2 ≤ n)%nat → digits us → digits vs → digits qs →
  0 ≤ u + j → u + j + Z.of_nat n < Z.of_nat (length us) →
  0 ≤ v → v + Z.of_nat n < Z.of_nat (length vs) → 0 ≤ q + j < Z.of_nat (length qs) →
  32768 ≤ zth vs (v + 1) → W < V * BB →
  ∃ us' qs', div_step n vs v (zth vs (v + 1)) (zth vs (v + 2)) us u qs q j = Ret (us', qs') ∧
    same_but us us' (u + j) (S n) ∧ val us' (u + j) (S n) = W mod V ∧
    same_but qs qs' (q + j) 1 ∧ zth qs' (q + j) = W / V.
Proof.
  intros HV HWe Hn Hus Hvs Hqs Hp Hlu Hv Hlv Hq Hv1 HW.
  destruct n as [|[|n']]; [lia..|].
  pose proof (val_bound us (u + j) (S (S (S n'))) Hus) as HWb. rewrite <-HWe in HWb.
  assert (0 < V) as HV0.
  { rewrite HV, val_head. pose proof (val_bound vs (v + 1 + 1) (S n') Hvs).
    pose proof (pw_pos (S n')). nia. }
  unfold div_step. rewrite !load_zth by lia. cbn [mbind outcome_bind].
  destruct (div_step_guess n' us vs (u + j) v) as (qh & -> & Hqh & Hq1); [done..|cbn in *; lia|].
  cbn [Nat.add] in Hq1. rewrite <-HV, <-HWe in Hq1. cbn [mbind outcome_bind].
  destruct (subtract_spec (S (S n')) qh vs v us (u + j) V) as (us1 & t & -> & Hsb1 & Hs);
    try done; try lia; [by rewrite <-HWe|]. rewrite <-HWe in Hs.
  cbn [mbind outcome_bind]. pose proof Hsb1 as (Hl1 & Hd1 & _).
  destruct (correct_spec (S (S n')) qh t vs v us1 (u + j) V W) as (us2 & -> & Hsb2 & Hval);
    try done; try lia.
  cbn [mbind outcome_bind].
  assert (digit (W / V) = W / V ∧ 0 ≤ W / V < BB) as [-> HqB].
  { assert (W / V < BB) by (apply Z.div_lt_upper_bound; lia).
    assert (0 ≤ W / V) by (apply Z.div_pos; lia). unfold digit. rewrite Z.mod_small; lia. }
  destruct (store_same_but qs (q + j) (W / V) (q + j) 1) as (qs' & -> & Hsbq & Hzq & _);
    [done|done|lia..|].
  cbn [mbind outcome_bind]. exists us2, qs'. split; [done|]. split; [|done].
  eapply same_but_trans; [exact Hsb1|exact Hsb2|lia|lia].
Qed.

Lemma val_lead_zero l a n V : digits l → V ≤ pw n → val l a (S n) < V → zth l a = 0.
Proof.
  intros Hl HV Hv. rewrite val_head in Hv. pose proof (digits_zth l a Hl).
  pose proof (val_bound l (a + 1) n Hl). nia.
Qed.

(** The loop on [j]: with [r] iterations to come after this one, the digits
    from [u + j] on are divided by [V]. *)
Lemma div_loop_spec n vs v u q V m :
  V = val vs (v + 1) n → (2 ≤ n)%nat → digits vs → 0 ≤ v → v + Z.of_nat n < Z.of_nat (length vs) →
  32768 ≤ zth vs (v + 1) →
  ∀ r k us qs j, m = j + Z.of_nat r → (r < k)%nat → digits us → digits qs →
  0 ≤ u + j → u + j + Z.of_nat n + Z.of_nat r < Z.of_nat (length us) →
  0 ≤ q + j → q + j + Z.of_nat r < Z.of_nat (length qs) → val us (u + j) n < V →
  ∃ us' qs', div_loop k n vs v (zth vs (v + 1)) (zth vs (v + 2)) us u qs q j m = Ret (us', qs') ∧
    same_but us us' (u + j) (n + S r) ∧ same_but qs qs' (q + j) (S r) ∧
    val us (u + j) (n + S r) = val qs' (q + j) (S r) * V + val us' (u + j) (n + S r) ∧
    val us' (u + j) (n + S r) < V.
Proof.
  intros HV Hn Hvs Hv Hlv Hv1. pose proof (val_bound vs (v + 1) n Hvs) as HVb. rewrite <-HV in HVb.
  induction r as [|r IH]; intros k us qs j Hm Hk Hus Hqs Hu Hlu Hq Hlq Hpre.
  all: destruct k as [|k]; [lia|]; cbn [div_loop].
  all: pose proof (digits_zth us (u + j + Z.of_nat n) Hus) as Hdn.
  all: pose proof (val_bound us (u + j) n Hus) as Hpre0.
  all: destruct (div_step_spec n us vs v u qs q j V (val us (u + j) (S n)) HV)
    as (us1 & qs1 & -> & Hsb & Hval & Hsbq & Hzq); try done; try lia; [cbn [val]; lia|].
  all: cbn [mbind outcome_bind]; pose proof Hsb as (Hl1 & Hd1 & H1);
    pose proof Hsbq as (Hlq1 & Hdq1 & Hq1).
  all: pose proof (Z.mod_pos_bound (val us (u + j) (S n)) V ltac:(lia)) as Hmod.
  all: pose proof (Z.div_mod (val us (u + j) (S n)) V ltac:(lia)) as Hdm.
  - rewrite (proj2 (Z.leb_gt _ _)) by lia. rewrite Nat.add_1_r. exists us1, qs1.
    split; [done|]. split; [done|]. split; [done|]. rewrite Hval. split; [|lia].
    rewrite (val_head qs1), Hzq, pw_0. change (val qs1 (q + j + 1) 0) with 0. lia.
  - rewrite (proj2 (Z.leb_le _ _)) by lia.
    assert (zth us1 (u + j) = 0) as Hz0 by (apply (val_lead_zero _ _ n V Hd1); lia).
    destruct (IH k us1 qs1 (j + 1)) as (us2 & qs2 & -> & Hsb2 & Hsbq2 & HX & Hlt); try done; try lia.
    { pose proof (val_head us1 (u + j) n) as Hh. rewrite Hz0, Hval in Hh.
      replace (u + (j + 1)) with (u + j + 1) by lia. lia. }
    exists us2, qs2. split; [done|].
    replace (u + (j + 1)) with (u + j + 1) in * by lia.
    replace (q + (j + 1)) with (q + j + 1) in * by lia.
    pose proof Hsb2 as (Hl2 & Hd2 & H2). pose proof Hsbq2 as (Hlq2 & Hdq2 & Hq2).
    split; [|split].
    + split; [lia|]. split; [done|]. intros i Hi Hor. rewrite H2, H1 by lia. done.
    + split; [lia|]. split; [done|]. intros i Hi Hor. rewrite Hq2, Hq1 by lia. done.
    + assert (val us2 (u + j) (n + S (S r)) = val us2 (u + j + 1) (n + S r)) as ->.
      { rewrite Nat.add_succ_r, val_head, H2, Hz0 by lia. lia. }
      split; [|done]. rewrite (val_head qs2), Hq2, Hzq by lia.
      assert (val us (u + j) (n + S (S r)) =
        val us (u + j) (S n) / V * V * pw (S r) + val us1 (u + j + 1) (n + S r)) as ->; [|rewrite HX; lia].
      replace (n + S (S r))%nat with (S n + S r)%nat by lia. rewrite val_app.
      rewrite <-(val_ext us1 us (u + j + Z.of_nat (S n)) (u + j + Z.of_nat (S n))) by (intros; apply H1; lia).
      rewrite Hdm at 1. rewrite <-Hval.
      assert (val us1 (u + j + 1) (n + S r) = val us1 (u + j) (S n) * pw (S r)
        + val us1 (u + j + Z.of_nat (S n)) (S r)) as ->; [|lia].
      rewrite <-val_app. cbn [Nat.add]. rewrite (val_head us1 (u + j)), Hz0. lia.
Qed.

(** *** Shifts of digit arrays *)

Lemma pow2_split sh : 0 ≤ sh ≤ 16 → 2 ^ sh * 2 ^ (16 - sh) = BB.
Proof. intros H. rewrite <-Z.pow_add_r by lia. by replace (sh + (16 - sh)) with 16 by lia. Qed.

Lemma shl_digit x y sh s r :
  0 ≤ x < BB → 0 ≤ y < BB → 0 < sh < 16 → s = 2 ^ sh → r = 2 ^ (16 - sh) →
  let z := digit (Z.lor (LHALF (Z.shiftl x sh)) (Z.shiftr y (HALF_BITS - sh))) in
  z = x * s - x / r * BB + y / r ∧ 0 ≤ z < BB.
Proof.
  intros Hx Hy Hsh -> -> z. pose proof (pow2_split sh ltac:(lia)) as Hs.
  assert (0 < 2 ^ sh) by (apply Z.pow_pos_nonneg; lia).
  assert (0 < 2 ^ (16 - sh)) by (apply Z.pow_pos_nonneg; lia).
  assert (0 ≤ y / 2 ^ (16 - sh) < 2 ^ sh) as Hyr.
  { split; [apply Z.div_pos; lia|]. apply Z.div_lt_upper_bound; lia. }
  assert (LHALF (Z.shiftl x sh) = Z.shiftl (x mod 2 ^ (16 - sh)) sh) as Hlo.
  { rewrite LHALF_val, !Z.shiftl_mul_pow2 by lia. rewrite <-Hs, (Z.mul_comm (2 ^ sh)).
    by rewrite Z.mul_mod_distr_r by lia. }
  pose proof (Z.div_mod x (2 ^ (16 - sh)) ltac:(lia)) as Hd.
  pose proof (Z.mod_pos_bound x (2 ^ (16 - sh)) ltac:(lia)) as Hm.
  assert (z = digit (x mod 2 ^ (16 - sh) * 2 ^ sh + y / 2 ^ (16 - sh))) as Hz.
  { unfold z. rewrite Hlo, Z.shiftr_div_pow2 by (unfold HALF_BITS; lia).
    change HALF_BITS with 16. rewrite lor_shiftl_add by lia. f_equal. lia. }
  rewrite Hz. unfold digit. rewrite Z.mod_small by nia. split; [|nia].
  revert Hd. generalize (x mod 2 ^ (16 - sh)), (x / 2 ^ (16 - sh)). intros m q ->. rewrite <-Hs. lia.
Qed.

Lemma shl_digit_last x sh s r :
  0 ≤ x < BB → 0 < sh < 16 → s = 2 ^ sh → r = 2 ^ (16 - sh) →
  let z := digit (LHALF (Z.shiftl x sh)) in z = x * s - x / r * BB ∧ 0 ≤ z < BB.
Proof.
  intros Hx Hsh Hs Hr z. destruct (shl_digit x 0 sh s r) as [Hz Hzb]; [lia..|].
  rewrite Z.shiftr_0_l, Z.lor_0_r in Hz, Hzb. fold z in Hz, Hzb. split; [|done].
  rewrite Hz, Hr, Z.div_0_l; [lia|]. pose proof (Z.pow_pos_nonneg 2 (16 - sh)). lia.
Qed.

Lemma shl_loop_spec sh s r : 0 < sh < 16 → s = 2 ^ sh → r = 2 ^ (16 - sh) →
  ∀ k l p i, digits l → 0 ≤ p + i → p + i + Z.of_nat k < Z.of_nat (length l) →
  ∃ l', shl_loop k l p i sh = Ret l' ∧ same_but l l' (p + i) (S k) ∧
    val l' (p + i) (S k) = val l (p + i) (S k) * s - zth l (p + i) / r * pw (S k).
Proof.
  intros Hsh Hs Hr. induction k as [|k IH]; intros l p i Hl Hp Hlen; cbn [shl_loop].
  - pose proof (digits_zth l (p + i) Hl) as Hx.
    destruct (shl_digit_last (zth l (p + i)) sh s r Hx Hsh Hs Hr) as [Hz Hzb].
    rewrite load_zth by lia. cbn [mbind outcome_bind].
    destruct (store_same_but l (p + i) (digit (LHALF (Z.shiftl (zth l (p + i)) sh))) (p + i) 1)
      as (l' & -> & Hsb & Hz' & _); [done|done|lia..|].
    exists l'. split; [done|]. split; [done|]. rewrite !val_head, Hz', Hz, pw_S, pw_0. cbn [val]. lia.
  - pose proof (digits_zth l (p + i) Hl) as Hx. pose proof (digits_zth l (p + i + 1) Hl) as Hy.
    destruct (shl_digit _ _ sh s r Hx Hy Hsh Hs Hr) as [Hz Hzb].
    rewrite !load_zth by lia. cbn [mbind outcome_bind]. revert Hz Hzb. set (z := digit _). intros Hz Hzb.
    destruct (store_same_but l (p + i) z (p + i) 1)
      as (l1 & -> & (Hl1 & Hd1 & _) & Hz1 & Ho1); [done|done|lia..|].
    cbn [mbind outcome_bind].
    destruct (IH l1 p (i + 1)) as (l2 & -> & (Hl2 & Hd2 & H2) & Hv); [done|lia..|].
    exists l2. split; [done|]. replace (p + (i + 1)) with (p + i + 1) in * by lia. split.
    { split; [lia|]. split; [done|]. intros j Hj Hor. rewrite H2, Ho1 by lia. done. }
    rewrite val_head, H2, Hv, Hz1 by lia. rewrite (val_head l (p + i)).
    rewrite (val_ext l1 l (p + i + 1) (p + i + 1)) by (intros; apply Ho1; lia).
    rewrite Ho1, Hz, (pw_S (S k)) by lia. lia.
Qed.

Lemma unshift_digit x y d s r :
  0 ≤ x < BB → 0 ≤ y < BB → 0 < d < 16 → s = 2 ^ d → r = 2 ^ (16 - d) →
  let z := digit (Z.lor (Z.shiftr x d) (LHALF (Z.shiftl y (HALF_BITS - d)))) in
  z = x / s + y mod s * r ∧ 0 ≤ z < BB.
Proof.
  intros Hx Hy Hd Hs Hr z. destruct (shl_digit y x (16 - d) r s) as [Hz Hzb]; [lia..|by replace (16 - (16 - d)) with d by lia|].
  change HALF_BITS with 16 in *. replace (16 - (16 - d)) with d in * by lia.
  unfold z. rewrite Z.lor_comm. split; [|done]. rewrite Hz.
  pose proof (pow2_split d ltac:(lia)) as Hsr. rewrite <-Hs, <-Hr in Hsr. rewrite <-Hsr.
  assert (s ≠ 0). { intros ->. lia. }
  pose proof (Z.div_mod y s ltac:(done)) as Hdm. revert Hdm.
  generalize (y mod s), (y / s). intros m q ->. lia.
Qed.

Lemma shift_out W x s r :
  0 < s → s * r = BB → (W * BB + x) / s = W / s * BB + W mod s * r + x / s.
Proof.
  intros Hs Hr. rewrite <-Hr. replace (W * (s * r) + x) with (W * r * s + x) by lia.
  rewrite Z.div_add_l by lia. rewrite (Z.div_mod W s) at 1 by lia. lia.
Qed.

Lemma unshift_spec u m d s r : 0 < d < 16 → s = 2 ^ d → r = 2 ^ (16 - d) → 0 ≤ u + m →
  ∀ k us, digits us → u + m + Z.of_nat k < Z.of_nat (length us) →
  ∃ us', unshift k us u m d = Ret us' ∧ same_but us us' (u + m) (S k) ∧ zth us' (u + m) = 0 ∧
    val us' (u + m + 1) k = val us (u + m) (S k) / s - zth us (u + m) / s * pw k.
Proof.
  intros Hd Hs Hr Hum. pose proof (pow2_split d ltac:(lia)) as Hsr. rewrite <-Hs, <-Hr in Hsr.
  assert (0 < s) as Hs0 by (rewrite Hs; apply Z.pow_pos_nonneg; lia).
  induction k as [|k IH]; intros us Hus Hlen; cbn [unshift].
  - destruct (store_same_but us (u + m) 0 (u + m) 1) as (us' & -> & Hsb & Hz & _); [done|lia..|].
    exists us'. split; [done|]. split; [done|]. split; [done|].
    rewrite val_head, pw_0. cbn [val]. rewrite Z.mul_1_r, Z.add_0_r. lia.
  - set (i := u + m + Z.of_nat (S k)). rewrite !load_zth by lia. cbn [mbind outcome_bind].
    pose proof (digits_zth us i Hus) as Hx. pose proof (digits_zth us (i - 1) Hus) as Hy.
    destruct (unshift_digit _ _ d s r Hx Hy Hd Hs Hr) as [Hz Hzb].
    revert Hz Hzb. set (z := digit _). intros Hz Hzb.
    destruct (store_same_but us i z (u + m) (S (S k))) as (us1 & -> & (Hl1 & Hd1 & _) & Hz1 & Ho1);
      [done|done|lia..|]. cbn [mbind outcome_bind].
    destruct (IH us1) as (us2 & -> & (Hl2 & Hd2 & H2) & Hz2 & Hv); [done|lia|].
    exists us2. split; [done|]. split; [|split; [done|]].
    { split; [lia|]. split; [done|]. intros j Hj Hor. rewrite H2, Ho1 by lia. done. }
    assert (val us1 (u + m) (S k) = val us (u + m) (S k)) as He
      by (apply val_ext; intros; apply Ho1; lia).
    rewrite He in Hv. rewrite Ho1 in Hv by lia.
    assert (val us (u + m) (S k) mod s = zth us (i - 1) mod s) as Hmod.
    { cbn [val]. replace (u + m + Z.of_nat k) with (i - 1) by lia.
      rewrite <-Hsr, (Z.mul_comm s r), Z.mul_assoc, Z.add_comm, Z.mod_add by lia. done. }
    change (val us2 (u + m + 1) (S k)) with (val us2 (u + m + 1) k * BB + zth us2 (u + m + 1 + Z.of_nat k)).
    change (val us (u + m) (S (S k))) with (val us (u + m) (S k) * BB + zth us i).
    replace (u + m + 1 + Z.of_nat k) with i by lia.
    rewrite (shift_out _ _ s r) by done. rewrite Hmod, Hv, H2, Hz1, Hz, (pw_S k) by lia. lia.
Qed.

(** *** Setting up the division *)

(** The first [k] digits of [l[a..]] are zero. *)
Lemma val_zeros l a k n :
  (∀ i, a ≤ i < a + Z.of_nat k → zth l i = 0) → val l a (k + n) = val l (a + Z.of_nat k) n.
Proof.
  intros H. rewrite val_app. assert (val l a k = 0) as ->; [|lia].
  induction k as [|k IH]; [done|]. cbn [val]. rewrite IH, H by (intros; try apply H; lia). lia.
Qed.

Lemma val_small_zeros l k n : ∀ a, digits l → val l a (k + n) < pw n →
  ∀ i, a ≤ i < a + Z.of_nat k → zth l i = 0.
Proof.
  induction k as [|k IH]; intros a Hl Hv i Hi; [lia|]. cbn [Nat.add] in Hv.
  assert (pw n ≤ pw (k + n)) by (unfold pw; apply Z.pow_le_mono_r; lia).
  assert (zth l a = 0) as Hz by (by apply (val_lead_zero l a (k + n) (pw n))).
  destruct (decide (i = a)) as [->|]; [done|].
  rewrite val_head, Hz in Hv. apply (IH (a + 1)); [done|lia..].
Qed.

Lemma val_literal l0 a b c d : val [l0; a; b; c; d] 1 4 = (((a * BB + b) * BB + c) * BB) + d.
Proof. done. Qed.

Lemma val_four l : val l 1 4 = ((zth l 1 * BB + zth l 2) * BB + zth l 3) * BB + zth l 4.
Proof. done. Qed.

Lemma digits_of_quad_spec l0 x :
  0 ≤ l0 < BB → is_u64 x →
  digits (digits_of_quad l0 x) ∧ length (digits_of_quad l0 x) = 5%nat ∧
  zth (digits_of_quad l0 x) 0 = l0 ∧ val (digits_of_quad l0 x) 1 4 = x.
Proof.
  intros Hl0 Hx. unfold digits_of_quad. rewrite uu_of_val. cbn [ulH ulL].
  rewrite !HHALF_val, !LHALF_val. unfold digit. split.
  { repeat apply Forall_cons_2; try apply Forall_nil_2; try lia; zmod. }
  split; [done|]. split; [done|].
  rewrite val_literal.
  rewrite (u32_small (u32 _)) by apply u32_range. rewrite (u32_small (u32 x)) by apply u32_range.
  assert (x = u32 (x / M32) * M32 + u32 x) as Hs by wrap_lia.
  transitivity (u32 (x / M32) * M32 + u32 x); [|done]. clear Hs. pose proof (u32_range (x / M32)) as Hh. pose proof (u32_range x) as Hl.
  revert Hh Hl. generalize (u32 (x / M32)), (u32 x). unfold is_u32. intros h l Hh Hl. zmod.
Qed.

Lemma quad_of_digits_spec l :
  digits l → length l = 5%nat → quad_of_digits l = Ret (val l 1 4).
Proof.
  intros Hl Hlen. unfold quad_of_digits. rewrite !load_zth by lia. cbn [mbind outcome_bind].
  pose proof (λ i, digits_zth l i Hl) as H. pose proof (H 1). pose proof (H 2).
  pose proof (H 3). pose proof (H 4).
  rewrite !COMBINE_val, uu_uq_val by (unfold is_u32; lia). f_equal.
  rewrite val_four. lia.
Qed.

Lemma norm_loop_spec fuel : ∀ t d,
  0 < t < BB → BB ≤ t * 2 ^ Z.of_nat fuel → 
  ∃ d', norm_loop fuel t d = Ret d' ∧ d ≤ d' ∧ 32768 ≤ t * 2 ^ (d' - d) < BB.
Proof.
  induction fuel as [|fuel IH]; intros t d Ht Hf; [cbn in Hf; lia|]. cbn [norm_loop].
  change (B / 2) with 32768. destruct (Z.ltb_spec t 32768).
  - rewrite Z.shiftl_mul_pow2, u32_small by (unfold is_u32; lia). change (2 ^ 1) with 2.
    rewrite Nat2Z.inj_succ, Z.pow_succ_r in Hf by lia.
    destruct (IH (t * 2) (d + 1)) as (d' & -> & Hd & Hr); [lia..|].
    exists d'. split; [done|]. split; [lia|].
    replace (d' - d) with (Z.succ (d' - (d + 1))) by lia. rewrite Z.pow_succ_r by lia. lia.
  - exists d. split; [done|]. split; [lia|]. rewrite Z.sub_diag. lia.
Qed.

(** [v] ends at the first non-zero digit, unless only [v[4]] is left. *)
Lemma count_v_spec vs : digits vs → length vs = 5%nat → val vs 1 4 ≠ 0 →
  ∃ v n, count_v 4 vs 0 4 = Ret (v, n) ∧
    ((n = 1 ∧ v = 2 ∧ zth vs 4 = val vs 1 4) ∨
     (2 ≤ n ∧ 0 ≤ v ∧ v + n = 4 ∧ zth vs (v + 1) ≠ 0 ∧
      (∀ i, 1 ≤ i < v + 1 → zth vs i = 0))).
Proof.
  intros Hvs Hlen HV.
  rewrite val_four in *.
  cbn [count_v]. rewrite !load_zth by lia. cbn [mbind outcome_bind].
  destruct (Z.eqb_spec (zth vs (0 + 1)) 0) as [H1|H1].
  2:{ exists 0, 4. split; [done|]. right. split; [lia|]. split; [lia|]. split; [lia|]. split; [done|]. lia. }
  change (4 - 1 =? 1) with false. cbv iota.
  destruct (Z.eqb_spec (zth vs (0 + 1 + 1)) 0) as [H2|H2].
  2:{ exists 1, 3. split; [done|]. right. split; [lia|]. split; [lia|]. split; [lia|]. split; [done|].
      intros i Hi. by replace i with 1 by lia. }
  change (4 - 1 - 1 =? 1) with false. cbv iota.
  destruct (Z.eqb_spec (zth vs (0 + 1 + 1 + 1)) 0) as [H3|H3].
  - exists 2, 1. split; [done|]. left. split; [done|]. split; [done|].
    change (0 + 1) with 1 in *. change (1 + 1) with 2 in *. change (2 + 1) with 3 in *. lia.
  - exists 2, 2. split; [done|]. right. split; [lia|]. split; [lia|]. split; [lia|]. split; [done|].
    intros i Hi. assert (i = 1 ∨ i = 2) as [->| ->] by lia; done.
Qed.

Lemma count_u_spec us : digits us → length us = 5%nat → ∀ k u m,
  0 ≤ u → u + Z.of_nat k ≤ 4 → 0 < val us (u + 1) k →
  ∃ u' m', count_u k us u m = Ret (u', m') ∧ u ≤ u' < u + Z.of_nat k ∧ u' + m' = u + m ∧
    (∀ i, u + 1 ≤ i < u' + 1 → zth us i = 0).
Proof.
  intros Hus Hlen. induction k as [|k IH]; intros u m Hu Hk Hv; [cbn in Hv; lia|].
  cbn [count_u]. rewrite load_zth by lia. cbn [mbind outcome_bind].
  destruct (Z.eqb_spec (zth us (u + 1)) 0) as [Hz|Hz].
  - rewrite val_head, Hz in Hv. destruct (IH (u + 1) (m - 1)) as (u' & m' & -> & Hu' & Hm' & H0); [lia..|].
    exists u', m'. split; [done|]. split; [lia|]. split; [lia|]. intros i Hi.
    destruct (decide (i = u + 1)) as [->|]; [done|]. apply H0. lia.
  - exists u, m. split; [done|]. split; [lia|]. split; [lia|]. lia.
Qed.

Lemma zero_q_spec k : ∀ qs, digits qs → (k ≤ length qs)%nat →
  ∃ qs', zero_q k qs = Ret qs' ∧ length qs' = length qs ∧ digits qs' ∧
    (∀ i, 0 ≤ i < Z.of_nat k → zth qs' i = 0) ∧ (∀ i, Z.of_nat k ≤ i → zth qs' i = zth qs i).
Proof.
  induction k as [|k IH]; intros qs Hd Hk; cbn [zero_q].
  { exists qs. split; [done|]. split; [done|]. split; [done|]. split; [lia|done]. }
  destruct (store_same_but qs (Z.of_nat k) 0 0 (S k)) as (qs1 & -> & (Hl1 & Hd1 & _) & Hz1 & Ho1);
    [done|lia..|]. cbn [mbind outcome_bind].
  destruct (IH qs1) as (qs2 & -> & Hl2 & Hd2 & Hz2 & Ho2); [done|lia|].
  exists qs2. split; [done|]. split; [lia|]. split; [done|]. split; intros i Hi.
  - destruct (decide (i = Z.of_nat k)) as [->|]; [rewrite Ho2 by lia; done|]. apply Hz2. lia.
  - rewrite Ho2, Ho1 by lia. done.
Qed.

Lemma short_digit r u t : 0 < t < BB → 0 ≤ r < t → 0 ≤ u < BB →
  ∃ q r', divmod (COMBINE r u) t = Ret (q, r') ∧ r * BB + u = t * q + r' ∧ 0 ≤ r' < t ∧
    0 ≤ q < BB.
Proof.
  intros Ht Hr Hu. rewrite COMBINE_val by lia. unfold divmod. rewrite (proj2 (Z.eqb_neq t 0)) by lia.
  eexists _, _. split; [done|]. split; [apply Z.div_mod; lia|].
  split; [apply Z.mod_pos_bound; lia|]. split; [apply Z.div_pos; lia|].
  apply Z.div_lt_upper_bound; nia.
Qed.

Lemma short_division_spec us t : digits us → length us = 5%nat → 0 < t < BB →
  short_division us t = Ret (val us 1 4 / t, val us 1 4 mod t).
Proof.
  intros Hus Hlen Ht. unfold short_division. rewrite !load_zth by lia. cbn [mbind outcome_bind].
  pose proof (λ i, digits_zth us i Hus) as H.
  assert (zth us 1 = COMBINE 0 (zth us 1)) as -> by (rewrite COMBINE_val; [done|lia|apply H]).
  destruct (short_digit 0 (zth us 1) t) as (q1 & r1 & -> & E1 & R1 & Q1); [done|lia|apply H|].
  cbn [mbind outcome_bind].
  destruct (short_digit r1 (zth us 2) t) as (q2 & r2 & -> & E2 & R2 & Q2); [done..|apply H|].
  cbn [mbind outcome_bind].
  destruct (short_digit r2 (zth us 3) t) as (q3 & r3 & -> & E3 & R3 & Q3); [done..|apply H|].
  cbn [mbind outcome_bind].
  destruct (short_digit r3 (zth us 4) t) as (q4 & r4 & -> & E4 & R4 & Q4); [done..|apply H|].
  cbn [mbind outcome_bind]. unfold digit. rewrite !Z.mod_small by done.
  rewrite !COMBINE_val, uu_uq_val by (unfold is_u32; lia).
  assert (val us 1 4 = t * ((q1 * BB + q2) * M32 + (q3 * BB + q4)) + r4) as HX.
  { rewrite val_four. lia. }
  do 2 f_equal.
  - eapply Z.div_unique; [|exact HX]. lia.
  - eapply Z.mod_unique; [|exact HX]. lia.
Qed.

Lemma norm_lt16 t d : 1 ≤ t → 0 ≤ d → t * 2 ^ d < BB → d < 16.
Proof.
  intros Ht Hd H. apply (Z.pow_lt_mono_r_iff 2); [lia..|]. change (2 ^ 16) with BB.
  pose proof (Z.pow_pos_nonneg 2 d). nia.
Qed.

Lemma normalize_spec us vs u v m n d s V :
  digits us → digits vs → length us = 5%nat → length vs = 5%nat →
  0 ≤ u → 0 ≤ v → 0 ≤ m → 2 ≤ n → u + m + n = 4 → v + n = 4 → zth us u = 0 →
  V = val vs (v + 1) (Z.to_nat n) → 0 ≤ d → s = 2 ^ d → 32768 ≤ zth vs (v + 1) * s < BB →
  ∃ us' vs', normalize us vs u v m n d = Ret (us', vs') ∧
    same_but us us' u (S (Z.to_nat (m + n))) ∧
    val us' u (S (Z.to_nat (m + n))) = val us u (S (Z.to_nat (m + n))) * s ∧
    digits vs' ∧ length vs' = 5%nat ∧ val vs' (v + 1) (Z.to_nat n) = V * s ∧
    32768 ≤ zth vs' (v + 1).
Proof.
  intros Hus Hvs Hlu Hlv Hu Hv Hm Hn Hum Hvn Hz HV Hd Hs Hv1. unfold normalize.
  pose proof (digits_zth vs (v + 1) Hvs) as Hv1b.
  assert (1 ≤ zth vs (v + 1)) as Hv1p.
  { destruct (decide (zth vs (v + 1) = 0)) as [H0|]; [rewrite H0 in Hv1|]; lia. }
  assert (d < 16) as Hd16.
  { apply (norm_lt16 (zth vs (v + 1))); [lia..|]. rewrite <-Hs. lia. }
  destruct (Z.ltb_spec 0 d) as [Hd0|Hd0].
  2:{ assert (d = 0) as -> by lia. assert (s = 1) as -> by done.
      exists us, vs. rewrite !Z.mul_1_r in *. split; [done|]. split; [done|]. rewrite <-HV. repeat split; try done; lia. }
  pose proof (pow2_split d ltac:(lia)) as Hsr. rewrite <-Hs in Hsr.
  set (r := 2 ^ (16 - d)) in *. unfold shl.
  destruct (shl_loop_spec d s r ltac:(lia) Hs eq_refl (Z.to_nat (m + n)) us u 0)
    as (us' & -> & Hsb & Hval); [done|lia..|]. cbn [mbind outcome_bind].
  destruct (shl_loop_spec d s r ltac:(lia) Hs eq_refl (Z.to_nat (n - 1)) vs (v + 1) 0)
    as (vs' & -> & (Hlv' & Hdv' & _) & Hvalv); [done|lia..|]. cbn [mbind outcome_bind].
  exists us', vs'. rewrite !Z.add_0_r in *. split; [done|]. split; [done|].
  replace (S (Z.to_nat (n - 1))) with (Z.to_nat n) in * by lia.
  rewrite Hz, Z.div_0_l in Hval by nia. split; [lia|]. split; [done|]. split; [lia|].
  rewrite (Z.div_small (zth vs (v + 1)) r), <-HV in Hvalv by nia.
  split; [lia|]. replace (Z.to_nat n) with (S (Z.to_nat (n - 1))) in * by lia.
  rewrite !val_head in *. pose proof (val_bound vs' (v + 1 + 1) (Z.to_nat (n - 1)) Hdv').
  pose proof (val_bound vs (v + 1 + 1) (Z.to_nat (n - 1)) Hvs). nia.
Qed.

Lemma remainder_spec us u m n d s R :
  digits us → length us = 5%nat → 0 ≤ u → 0 ≤ m → 2 ≤ n → u + m + n = 4 →
  (∀ i, 0 ≤ i < u → zth us i = 0) → 0 ≤ d < 16 → s = 2 ^ d →
  val us u (S (Z.to_nat (m + n))) = R * s → R * s < pw (Z.to_nat n) →
  remainder us u m n d = Ret R.
Proof.
  intros Hus Hlu Hu Hm Hn Hum Hz Hd Hs HR HRb. unfold remainder.
  assert (0 < s) as Hs0 by (rewrite Hs; apply Z.pow_pos_nonneg; lia).
  replace (S (Z.to_nat (m + n))) with (Z.to_nat (m + 1) + Z.to_nat n)%nat in HR by lia.
  pose proof (val_small_zeros us (Z.to_nat (m + 1)) (Z.to_nat n) u Hus ltac:(lia)) as Hz2.
  assert (∀ i, 0 ≤ i < u + m + 1 → zth us i = 0) as Hz3.
  { intros i Hi. destruct (decide (i < u)); [apply Hz|apply Hz2]; lia. }
  rewrite val_zeros in HR by done. replace (u + Z.of_nat (Z.to_nat (m + 1))) with (u + m + 1) in HR by lia.
  destruct (Z.eqb_spec d 0) as [->|Hd0].
  - cbn [mbind outcome_bind]. rewrite quad_of_digits_spec by done. f_equal.
    replace 4%nat with (Z.to_nat (u + m) + Z.to_nat n)%nat by lia. rewrite val_zeros.
    + replace (1 + Z.of_nat (Z.to_nat (u + m))) with (u + m + 1) by lia. rewrite HR, Hs. lia.
    + intros i Hi. apply Hz3. lia.
  - destruct (unshift_spec u m d s (2 ^ (16 - d)) ltac:(lia) Hs eq_refl ltac:(lia) (Z.to_nat n) us)
      as (us' & -> & (Hl' & Hd' & H') & Hz' & Hv'); [done|lia|]. cbn [mbind outcome_bind].
    rewrite quad_of_digits_spec by (done || lia). f_equal.
    replace 4%nat with (Z.to_nat (u + m) + Z.to_nat n)%nat by lia. rewrite val_zeros.
    + replace (1 + Z.of_nat (Z.to_nat (u + m))) with (u + m + 1) by lia.
      rewrite Hv', val_head, Hz3, HR, Z.div_0_l, Z.mul_0_l, Z.add_0_l, Z.div_mul by lia. lia.
    + intros i Hi. destruct (decide (i = u + m)) as [->|]; [done|]. rewrite H', Hz3 by lia. done.
Qed.

(** The digits the two programs keep, put together. *)
Lemma scaled_division X V s Q R' :
  0 < s → 0 < V → X * s = Q * (V * s) + R' → 0 ≤ R' < V * s → Q = X / V ∧ R' = X mod V * s.
Proof.
  intros Hs HV He HR. pose proof (Z.div_mod X V ltac:(lia)) as Hd.
  pose proof (Z.mod_pos_bound X V HV) as Hm.
  assert (Q = X / V) as HQ; [|split; [done|]; subst Q; nia].
  rewrite <-(Z.div_mul_cancel_r X V s) by lia. eapply Z.div_unique; [left; exact HR|lia].
Qed.

Lemma shift_top us us1 u n k X V s :
  digits us → digits us1 → val us u (n + k) = X → val us1 u (n + k) = X * s → 0 < s →
  val us u n < V → val us1 u n < V * s.
Proof.
  intros Hus Hus1 HX HX1 Hs HV. rewrite val_app in HX, HX1.
  pose proof (val_bound us (u + Z.of_nat n) k Hus). pose proof (val_bound us1 (u + Z.of_nat n) k Hus1).
  pose proof (pw_pos k). apply (Z.mul_lt_mono_pos_r (pw k)); [lia|].
  assert (val us1 u n * pw k ≤ X * s) by lia.
  assert (X < V * pw k) by nia. nia.
Qed.

(** The leading zero digits of [u] do not count. *)
Lemma strip_u us n V X :
  digits us → length us = 5%nat → zth us 0 = 0 → X = val us 1 4 → 2 ≤ n ≤ 4 → V ≤ X →
  pw (Z.to_nat (n - 1)) ≤ V →
  ∃ u m, count_u 4 us 0 (4 - n) = Ret (u, m) ∧ 0 ≤ u ∧ u + m + n = 4 ∧ 0 ≤ m ∧
    (∀ i, 0 ≤ i < u + 1 → zth us i = 0) ∧ val us u (S (Z.to_nat (m + n))) = X.
Proof.
  intros Hus Hlu Hu0 HX Hn HVX HpV. set (N := Z.to_nat (n - 1)) in *. pose proof (pw_pos N) as HpN.
  destruct (count_u_spec us Hus Hlu 4 0 (4 - n)) as (u & m & -> & Hu & Hum & Hz);
    [lia|lia|change (0 + 1) with 1; lia|]. exists u, m. split; [done|].
  assert (∀ i, 0 ≤ i < u + 1 → zth us i = 0) as Hzu.
  { intros i Hi. destruct (decide (i = 0)) as [->|]; [done|]. apply Hz. lia. }
  assert (0 ≤ m) as Hm.
  { destruct (decide (0 ≤ m)) as [|Hneg]; [done|]. exfalso.
    assert (X < pw N); [|lia]. rewrite HX.
    replace 4%nat with (Z.to_nat (4 - (n - 1)) + N)%nat by lia.
    rewrite val_zeros by (intros; apply Hzu; lia). by apply val_bound. }
  assert (val us u (S (Z.to_nat (m + n))) = X) as HXu.
  { rewrite val_head, Hzu, HX by lia. replace 4%nat with (Z.to_nat u + Z.to_nat (m + n))%nat by lia.
    rewrite val_zeros by (intros; apply Hzu; lia). rewrite Z2Nat.id by lia.
    replace (1 + u) with (u + 1) by lia. lia. }
  split; [lia|]. split; [lia|]. done.
Qed.

Lemma long_division_spec us vs qs v n X V arq :
  digits us → digits vs → digits qs →
  length us = 5%nat → length vs = 5%nat → length qs = 5%nat →
  zth us 0 = 0 → X = val us 1 4 → 2 ≤ n → 0 ≤ v → v + n = 4 →
  zth vs (v + 1) ≠ 0 → V = val vs (v + 1) (Z.to_nat n) → V ≤ X →
  long_division us vs qs v n arq = Ret (X / V, if arq then Some (X mod V) else None).
Proof.
  intros Hus Hvs Hqs Hlu Hlv Hlq Hu0 HX Hn Hv Hvn Hv1 HV HVX. unfold long_division.
  pose proof (digits_zth vs (v + 1) Hvs) as Hv1b.
  set (N := Z.to_nat (n - 1)). assert (Z.to_nat n = S N) as HN by lia.
  assert (pw N ≤ V) as HpV.
  { rewrite HV, HN, val_head. pose proof (val_bound vs (v + 1 + 1) N Hvs). pose proof (pw_pos N). nia. }
  pose proof (pw_pos N) as HpN.
  destruct (strip_u us n V X) as (u & m & -> & Hu & Hum & Hm & Hzu & HXu); try done.
  { fold N. lia. }
  cbn [mbind outcome_bind].
  (* q, d *)
  destruct (zero_q_spec (Z.to_nat (4 - m)) qs Hqs) as (qs1 & -> & Hlq1 & Hdq1 & Hzq & _); [lia|].
  cbn [mbind outcome_bind]. rewrite load_zth by lia. cbn [mbind outcome_bind].
  destruct (norm_loop_spec 17 (zth vs (v + 1)) 0) as (d & -> & Hd & Hv1d);
    [lia|change (2 ^ Z.of_nat 17) with 131072; lia|].
  cbn [mbind outcome_bind]. rewrite Z.sub_0_r in Hv1d.
  assert (0 < 2 ^ d) as Hs0 by (apply Z.pow_pos_nonneg; lia).
  destruct (normalize_spec us vs u v m n d (2 ^ d) V) as
    (us1 & vs1 & -> & (Hl1 & Hd1 & Ho1) & Hval1 & Hdv1 & Hlv1 & Hvalv1 & Hv1n); try done; try lia.
  { apply Hzu. lia. }
  cbn [mbind outcome_bind]. rewrite !load_zth by lia. cbn [mbind outcome_bind].
  rewrite HXu in Hval1.
  (* the main loop *)
  destruct (div_loop_spec (Z.to_nat n) vs1 v u (4 - m) (V * 2 ^ d) m (eq_sym Hvalv1) ltac:(lia) Hdv1
    Hv ltac:(lia) Hv1n (Z.to_nat m) 4 us1 qs1 0)
    as (us2 & qs2 & -> & (Hl2 & Hd2 & Ho2) & (Hlq2 & Hdq2 & Hoq2) & Hdiv & Hlt); try done; try lia.
  { rewrite Z.add_0_r. apply (shift_top us us1 u (Z.to_nat n) (Z.to_nat (m + 1)) X V (2 ^ d)); try done.
    - rewrite <-HXu. f_equal. lia.
    - rewrite <-Hval1. f_equal. lia.
    - rewrite HN, val_head, Hzu by lia. pose proof (val_bound us (u + 1) N Hus). lia. }
  cbn [mbind outcome_bind]. rewrite !Z.add_0_r in *.
  replace (Z.to_nat n + S (Z.to_nat m))%nat with (S (Z.to_nat (m + n))) in * by lia.
  rewrite Hval1 in Hdiv. pose proof (val_bound us2 u (S (Z.to_nat (m + n))) Hd2) as HR0.
  destruct (scaled_division X V (2 ^ d) _ _ Hs0 ltac:(lia) Hdiv ltac:(lia)) as [HQ HR].
  assert (quad_of_digits qs2 = Ret (X / V)) as Hquot.
  { rewrite quad_of_digits_spec by (done || lia). f_equal. rewrite <-HQ.
    replace 4%nat with (Z.to_nat (3 - m) + S (Z.to_nat m))%nat by lia. rewrite val_zeros.
    - f_equal. lia.
    - intros i Hi. rewrite Hoq2, Hzq by lia. done. }
  destruct arq; [|cbn [mbind outcome_bind]; by rewrite Hquot].
  rewrite (remainder_spec us2 u m n d (2 ^ d) (X mod V)); try done; try lia.
  - cbn [mbind outcome_bind]. by rewrite Hquot.
  - intros i Hi. rewrite Ho2, Ho1, Hzu by lia. done.
  - split; [done|]. apply (norm_lt16 (zth vs (v + 1))); lia.
  - rewrite <-HR. pose proof (val_bound vs1 (v + 1) (Z.to_nat n) Hdv1). lia.
Qed.

(** [__qdivrem] computes the quotient and the remainder. *)
Lemma qdivrem_correct junk uq vq arq : is_u64 uq → is_u64 vq →
  __qdivrem junk uq vq arq =
    if vq =? 0 then Fault DivByZero
    else Ret (uq / vq, if arq then Some (uq mod vq) else None).
Proof.
  intros Hu Hv. unfold __qdivrem, is_u64 in *. destruct (Z.eqb_spec vq 0) as [|Hv0]; [done|].
  destruct (Z.ltb_spec uq vq); [by rewrite Z.div_small, Z.mod_small by lia|].
  destruct (digits_of_quad_spec 0 uq) as (Hdu & Hlu & Hu0 & HX); [lia|done|].
  destruct (digits_of_quad_spec (digit (junk 5%nat)) vq) as (Hdv & Hlv & _ & HV);
    [unfold digit; zmod|done|].
  set (us := digits_of_quad 0 uq) in *. set (vs := digits_of_quad _ vq) in *.
  set (qs := (λ i, digit (junk i)) <$> seq 0 5).
  assert (digits qs) as Hdq.
  { apply Forall_fmap, Forall_true. intros i. cbn. unfold digit. zmod. }
  destruct (count_v_spec vs Hdv Hlv) as (v & n & -> & [(-> & -> & Hz)|(Hn & Hv' & Hvn & Hz & Hz0)]);
    [lia|..]; cbn [mbind outcome_bind].
  - change (1 =? 1) with true. cbv iota. rewrite load_zth by lia. cbn [mbind outcome_bind].
    change (2 + 2) with 4. rewrite Hz, HV.
    pose proof (digits_zth vs 4 Hdv).
    rewrite short_division_spec by (done || lia). cbn [mbind outcome_bind]. by rewrite HX.
  - rewrite (proj2 (Z.eqb_neq n 1)) by lia.
    apply (long_division_spec us vs qs v n uq vq arq); try done.
    rewrite <-HV. replace 4%nat with (Z.to_nat v + Z.to_nat n)%nat by lia. rewrite val_zeros.
    + f_equal. lia.
    + intros i Hi. apply Hz0. lia.
Qed.

(** ** The two-word operations *)

Lemma i64_mod x y : x mod M64 = y mod M64 → i64 x = i64 y.
Proof. unfold i64. intros H. zmod. Qed.

Lemma i64_small x : is_i64 x → i64 x = x.
Proof. unfold i64, is_i64. intros H. rewrite Z.mod_small; lia. Qed.

Lemma i64_range x : is_i64 (i64 x).
Proof. unfold i64, is_i64. zmod. Qed.

Lemma i64_u64 x : i64 (u64 x) = i64 x.
Proof. apply i64_mod. unfold u64. by rewrite Z.mod_mod. Qed.

(** A quad from its words, modulo 2^64. *)
Lemma uu_q_words h l : is_u32 h → is_u32 l → uu_q (mk_uu h l) = i64 (h * M32 + l).
Proof. intros Hh Hl. unfold uu_q. by rewrite uu_uq_val. Qed.

Lemma uu_of_words a : ∃ h l k, uu_of a = mk_uu h l ∧ is_u32 h ∧ is_u32 l ∧ a = h * M32 + l + k * M64.
Proof.
  rewrite uu_of_val. exists (u32 (a / M32)), (u32 a), (a / M64).
  split; [done|]. split; [apply u32_range|]. split; [apply u32_range|]. unfold u32. zmod.
Qed.

(** [a] and its words as variables, the words in range. *)
Ltac words a h l :=
  let k := fresh "k" in let E := fresh in
  destruct (uu_of_words a) as (h & l & k & E & ? & ? & ?); rewrite E in *; cbn [ulH ulL].

Lemma b2z_le x y : b2z (x <? y) = if bool_decide (x < y) then 1 else 0.
Proof. unfold b2z. destruct (Z.ltb_spec x y); case_bool_decide; lia. Qed.

Ltac carry := unfold b2z; repeat match goal with
  | |- context [?x <? ?y] => destruct (Z.ltb_spec x y) end.

Lemma adddi3_correct a b : __adddi3 a b = i64 (a + b).
Proof.
  unfold __adddi3. words a ha la. words b hb lb. rewrite uu_q_words by apply u32_range.
  apply i64_mod. carry; wrap_lia.
Qed.

Lemma subdi3_correct a b : __subdi3 a b = i64 (a - b).
Proof.
  unfold __subdi3. words a ha la. words b hb lb. rewrite uu_q_words by apply u32_range.
  apply i64_mod. carry; wrap_lia.
Qed.

Lemma negdi2_correct a : __negdi2 a = i64 (- a).
Proof.
  unfold __negdi2. words a ha la. rewrite uu_q_words by apply u32_range.
  apply i64_mod. carry; wrap_lia.
Qed.

Lemma one_cmpldi2_correct a : __one_cmpldi2 a = i64 (Z.lnot a).
Proof.
  unfold __one_cmpldi2. words a ha la. unfold not32, is_u32 in *.
  rewrite uu_q_words by (unfold is_u32; lia). apply i64_mod. unfold Z.lnot. zmod.
Qed.

(** The words of a number, bit by bit. *)
Lemma uu_of_bit a i : 0 ≤ i →
  Z.testbit (u64 a) i =
    if bool_decide (i < 32) then Z.testbit (ulL (uu_of a)) i else Z.testbit (ulH (uu_of a)) (i - 32).
Proof.
  intros Hi. rewrite uu_of_val. cbn [ulH ulL]. unfold u64, u32.
  change M64 with (2 ^ 64). change M32 with (2 ^ 32). case_bool_decide.
  - rewrite !Z.mod_pow2_bits_low by lia. done.
  - rewrite <-Z.shiftr_div_pow2 by lia. destruct (decide (i < 64)).
    + rewrite !Z.mod_pow2_bits_low by lia. rewrite Z.shiftr_spec by lia. f_equal. lia.
    + rewrite !Z.mod_pow2_bits_high by lia. done.
Qed.

Lemma uu_uq_bit h l i : is_u32 h → is_u32 l → 0 ≤ i →
  Z.testbit (uu_uq (mk_uu h l)) i = if bool_decide (i < 32) then Z.testbit l i else Z.testbit h (i - 32).
Proof.
  intros Hh Hl Hi. unfold uu_uq. cbn [ulH ulL]. rewrite Z.lor_spec. change INT_BITS with 32.
  case_bool_decide.
  - by rewrite Z.shiftl_spec_low by lia.
  - rewrite (testbit_above 32 l) by (unfold is_u32 in *; lia). rewrite orb_false_r.
    by rewrite Z.shiftl_spec by lia.
Qed.

(** A bitwise operation word by word is the operation on the whole. *)
Lemma words_bitwise (f : bool → bool → bool) (op : Z → Z → Z) a b :
  f false false = false → (∀ x y i, 0 ≤ i → Z.testbit (op x y) i = f (Z.testbit x i) (Z.testbit y i)) →
  (∀ x y, is_u32 x → is_u32 y → is_u32 (op x y)) →
  uu_q (mk_uu (op (ulH (uu_of a)) (ulH (uu_of b))) (op (ulL (uu_of a)) (ulL (uu_of b)))) = i64 (op a b).
Proof.
  intros Hf Hop Hr. unfold uu_q. rewrite <-(i64_u64 (op a b)). f_equal.
  assert (∀ x, is_u32 (ulH (uu_of x)) ∧ is_u32 (ulL (uu_of x))) as Hw
    by (intros x; rewrite uu_of_val; split; apply u32_range).
  apply Z.bits_inj'. intros i Hi. rewrite uu_uq_bit by (try apply Hr; try apply Hw; done).
  assert (Z.testbit (u64 (op a b)) i = f (Z.testbit (u64 a) i) (Z.testbit (u64 b) i)) as ->.
  { unfold u64. change M64 with (2 ^ 64). destruct (decide (i < 64)).
    - rewrite !Z.mod_pow2_bits_low by lia. by apply Hop.
    - by rewrite !Z.mod_pow2_bits_high by lia. }
  rewrite !(uu_of_bit _ i Hi). case_bool_decide; apply Hop; lia.
Qed.

Lemma is_u32_pow x : is_u32 x ↔ 0 ≤ x < 2 ^ 32.
Proof. done. Qed.

Lemma anddi3_correct a b : __anddi3 a b = i64 (Z.land a b).
Proof.
  apply (words_bitwise andb); [done|intros; apply Z.land_spec|].
  intros x y Hx _. by apply (land_bound 32).
Qed.
Lemma iordi3_correct a b : __iordi3 a b = i64 (Z.lor a b).
Proof.
  apply (words_bitwise orb); [done|intros; apply Z.lor_spec|].
  intros x y Hx Hy. by apply (lor_bound 32).
Qed.
Lemma xordi3_correct a b : __xordi3 a b = i64 (Z.lxor a b).
Proof.
  apply (words_bitwise xorb); [done|intros; apply Z.lxor_spec|].
  intros x y Hx Hy. by apply (lxor_bound 32).
Qed.

(** *** Multiplication *)

(** The value of a pair of words. *)
Definition pair_val (h l : Z) : Z := h * M32 + l.

Lemma mid_step h l x : is_u32 x → is_u32 h → is_u32 l →
  let l' := u32 (l + LHUP x) in
  let h' := u32 (h + (HHALF x + b2z (l' <? l))) in
  is_u32 h' ∧ is_u32 l' ∧ pair_val h' l' mod M64 = (pair_val h l + x * BB) mod M64.
Proof.
  intros Hx Hh Hl l' h'. split; [apply u32_range|]. split; [apply u32_range|].
  unfold h', l', pair_val. rewrite HHALF_val, LHUP_val, (u32_small x) by done.
  assert (x = x / BB * BB + x mod BB) as Hs by zmod. 
  assert (0 ≤ x / BB < BB) by (unfold is_u32 in *; zmod). assert (0 ≤ x mod BB < BB) by zmod.
  revert Hs. generalize dependent (x / BB). generalize dependent (x mod BB). intros xl Hxl xh Hxh ->.
  unfold u32, is_u32 in *. carry; zmod.
Qed.

Lemma mid_step_sub h l x : is_u32 x → is_u32 h → is_u32 l →
  let l' := u32 (l - LHUP x) in
  let h' := u32 (h - (HHALF x + b2z (l <? l'))) in
  is_u32 h' ∧ is_u32 l' ∧ pair_val h' l' mod M64 = (pair_val h l - x * BB) mod M64.
Proof.
  intros Hx Hh Hl l' h'. split; [apply u32_range|]. split; [apply u32_range|].
  unfold h', l', pair_val. rewrite HHALF_val, LHUP_val, (u32_small x) by done.
  assert (x = x / BB * BB + x mod BB) as Hs by zmod. 
  assert (0 ≤ x / BB < BB) by (unfold is_u32 in *; zmod). assert (0 ≤ x mod BB < BB) by zmod.
  revert Hs. generalize dependent (x / BB). generalize dependent (x mod BB). intros xl Hxl xh Hxh ->.
  unfold u32, is_u32 in *. carry; zmod.
Qed.

Lemma low_step h l x : is_u32 x → is_u32 h → is_u32 l →
  let l' := u32 (l + x) in
  let h' := if l' <? x then u32 (h + 1) else h in
  is_u32 h' ∧ is_u32 l' ∧ pair_val h' l' mod M64 = (pair_val h l + x) mod M64.
Proof.
  intros Hx Hh Hl l' h'.
  split; [unfold h'; destruct (l' <? x); [apply u32_range|done]|]. split; [apply u32_range|].
  unfold h', l', pair_val, u32, is_u32 in *. carry; zmod.
Qed.

Lemma mod_step x y z w : x mod M64 = (y + w) mod M64 → y mod M64 = z mod M64 →
  x mod M64 = (z + w) mod M64.
Proof. intros -> H. rewrite <-Z.add_mod_idemp_l, H, Z.add_mod_idemp_l by lia. done. Qed.

Lemma lmulq_assemble_spec high mid low neg : is_u32 high → is_u32 mid → is_u32 low →
  lmulq_assemble high mid low neg =
    i64 (high * M32 + high * BB + (if neg then - mid else mid) * BB + low * BB + low).
Proof.
  intros Hh Hm Hl. unfold lmulq_assemble.
  set (h0 := u32 (high + HHALF high)). set (l0 := LHUP high).
  assert (is_u32 h0 ∧ is_u32 l0 ∧ pair_val h0 l0 mod M64 = (high * M32 + high * BB) mod M64) as (Hh0 & Hl0 & E0).
  { split; [apply u32_range|]. split; [apply u32_range|]. unfold h0, l0, pair_val.
    rewrite HHALF_val, LHUP_val, (u32_small high) by done. unfold u32, is_u32 in *. zmod. }
  assert (∃ h1 l1, (if neg then
      (u32 (h0 - (HHALF mid + b2z (l0 <? u32 (l0 - LHUP mid)))), u32 (l0 - LHUP mid))
    else (u32 (h0 + (HHALF mid + b2z (u32 (l0 + LHUP mid) <? l0))), u32 (l0 + LHUP mid))) = (h1, l1) ∧
    is_u32 h1 ∧ is_u32 l1 ∧
    pair_val h1 l1 mod M64 = (pair_val h0 l0 + (if neg then - mid else mid) * BB) mod M64)
    as (h1 & l1 & E & Hh1 & Hl1 & E1).
  { destruct neg; eexists _, _; (split; [done|]).
    - destruct (mid_step_sub h0 l0 mid) as (? & ? & Heq); [done..|].
      split; [done|]. split; [done|]. rewrite Heq. f_equal. lia.
    - by apply mid_step. }
  cbv zeta. rewrite E.
  destruct (mid_step h1 l1 low) as (Hh2 & Hl2 & E2); [done..|].
  revert Hh2 Hl2 E2. set (l2 := u32 (l1 + LHUP low)). set (h2 := u32 _). intros Hh2 Hl2 E2.
  destruct (low_step h2 l2 low) as (Hh3 & Hl3 & E3); [done..|].
  rewrite uu_q_words by done. apply i64_mod.
  eapply mod_step; [exact E3|]. eapply mod_step; [exact E2|]. eapply mod_step; [exact E1|]. exact E0.
Qed.

Lemma abs_diffs_spec M u1 u0 v1 v0 :
  0 < M ≤ M32 → 0 ≤ u1 < M → 0 ≤ u0 < M → 0 ≤ v1 < M → 0 ≤ v0 < M →
  ∃ ud vd neg, abs_diffs u1 u0 v1 v0 = (ud, vd, neg) ∧ 0 ≤ ud < M ∧ 0 ≤ vd < M ∧
    (u1 - u0) * (v0 - v1) = (if neg : bool then - (ud * vd) else ud * vd).
Proof.
  intros HM Hu1 Hu0 Hv1 Hv0. unfold abs_diffs.
  destruct (Z.leb_spec u0 u1), (Z.leb_spec v1 v0); rewrite !u32_small by (unfold is_u32; lia);
    eexists _, _, _; (split; [done|]); (split; [lia|]); (split; [lia|]); cbn [negb]; lia.
Qed.

(** [__lmulq] multiplies exactly. *)
Lemma lmulq_correct u v : is_u32 u → is_u32 v → __lmulq u v = i64 (u * v).
Proof.
  intros Hu Hv. unfold __lmulq. rewrite !HHALF_val, !LHALF_val, (u32_small u), (u32_small v) by done.
  assert (u = u / BB * BB + u mod BB) as Hus by zmod. assert (v = v / BB * BB + v mod BB) as Hvs by zmod.
  assert (0 ≤ u / BB < BB ∧ 0 ≤ v / BB < BB) as [Hu1 Hv1] by (unfold is_u32 in *; zmod).
  assert (0 ≤ u mod BB < BB ∧ 0 ≤ v mod BB < BB) as [Hu0 Hv0] by zmod.
  revert Hus Hvs. generalize dependent (u / BB). generalize dependent (u mod BB).
  generalize dependent (v / BB). generalize dependent (v mod BB). intros v0 Hv0 v1 Hv1 u0 Hu0 u1 Hu1 -> ->.
  assert (0 ≤ u0 * v0 ≤ 65535 * 65535) as Hlow by nia.
  assert (0 ≤ u1 * v1 ≤ 65535 * 65535) as Hhigh by nia.
  rewrite (u32_small (u0 * v0)) by (unfold is_u32; lia).
  destruct (Z.eqb_spec u1 0) as [->|], (Z.eqb_spec v1 0) as [->|]; cbn [andb].
  { rewrite i64_small; [lia|]. unfold is_i64. lia. }
  all: destruct (abs_diffs_spec BB _ u0 _ v0 ltac:(lia) Hu1 Hu0 Hv1 Hv0) as (ud & vd & neg & -> & Hud & Hvd & Hmid).
  all: assert (0 ≤ ud * vd ≤ 65535 * 65535) by nia.
  all: rewrite lmulq_assemble_spec, !u32_small by (apply u32_range || unfold is_u32; lia).
  all: f_equal; destruct neg; lia.
Qed.


Lemma uu_q_of a : uu_q (uu_of a) = i64 a.
Proof. words a h l. rewrite uu_q_words by done. apply i64_mod. zmod. Qed.

Lemma i64_shift x y k : x = y + k * M64 → i64 x = i64 y.
Proof. intros ->. apply i64_mod. by rewrite Z.mod_add. Qed.

Lemma u32_repr x : ∃ k, u32 x = x + k * M32.
Proof. exists (- (x / M32)). unfold u32. zmod. Qed.

Lemma i64_repr x : ∃ k, i64 x = x + k * M64.
Proof. exists (- ((x + 9223372036854775808) / M64)). unfold i64. zmod. Qed.

Lemma mul_words_spec u v : uu_q (mul_words u v) = i64 (u * v).
Proof.
  unfold mul_words. words u u1 u0. words v v1 v0. rewrite lmulq_correct by done.
  destruct ((u1 =? 0) && (v1 =? 0)) eqn:E0.
  { apply andb_true_iff in E0 as [->%Z.eqb_eq ->%Z.eqb_eq]. subst u v.
    rewrite uu_q_of. destruct (i64_repr (u0 * v0)) as [j ->].
    eapply (i64_shift _ _ (j - (u0 * k0 + k * v0 + k * k0 * M64))). lia. }
  destruct (abs_diffs_spec M32 u1 u0 v1 v0) as (ud & vd & neg & -> & _ & _ & Hmid); [done..|].
  words (i64 (u0 * v0)) h l. rewrite uu_q_words by (apply u32_range || done).
  destruct (i64_repr (u0 * v0)) as [j Hj]. destruct (u32_repr (u1 * v1)) as [j1 ->].
  assert (∃ j2, (if neg then u32 (- u32 (ud * vd)) else u32 (ud * vd)) = (u1 - u0) * (v0 - v1) + j2 * M32) as [j2 ->].
  { rewrite Hmid. destruct (u32_repr (ud * vd)) as [i1 ->]. destruct neg.
    - destruct (u32_repr (- (ud * vd + i1 * M32))) as [i2 ->]. exists (i2 - i1). lia.
    - by exists i1. }
  match goal with |- context [u32 ?x * M32] => destruct (u32_repr x) as [j3 ->] end.
  assert (u0 * v0 = h * M32 + l + (k1 - j) * M64) as Hlow by lia.
  eapply (i64_shift _ _ (j1 + j2 + j3 - (k1 - j) * (1 + M32) - h
    - (u1 * k0 * M32 + v1 * k * M32 + u0 * k0 + v0 * k + k * k0 * M64 + u1 * v1))).
  subst u v. clear -Hlow. nia.
Qed.

(** The branches of [__muldi3]. *)
Definition min_quad : Z := -9223372036854775808.

Lemma quad_spec x : quad_ x = if bool_decide (is_i64 x) then Ret x else Fault IntOverflow.
Proof. done. Qed.

Lemma quad_neg a : is_i64 a → quad_ (- a) = if a =? min_quad then Fault IntOverflow else Ret (- a).
Proof.
  intros Ha. unfold quad_, is_i64, min_quad in *. case_bool_decide; destruct (Z.eqb_spec a (-9223372036854775808)); done || lia.
Qed.

Lemma i64_neg x : i64 x ≠ min_quad → - i64 x = i64 (- x).
Proof. unfold i64, min_quad. intros H. zmod. Qed.

(** *** Shifts, bit by bit *)

Lemma u32_bit x i : Z.testbit (u32 x) i = bool_decide (i < 32) && Z.testbit x i.
Proof.
  destruct (decide (0 ≤ i)); [|by rewrite !Z.testbit_neg_r, andb_false_r by lia].
  unfold u32. change M32 with (2 ^ 32). case_bool_decide.
  - by rewrite Z.mod_pow2_bits_low by lia.
  - by rewrite Z.mod_pow2_bits_high by lia.
Qed.

Lemma u64_bit x i : Z.testbit (u64 x) i = bool_decide (i < 64) && Z.testbit x i.
Proof.
  destruct (decide (0 ≤ i)); [|by rewrite !Z.testbit_neg_r, andb_false_r by lia].
  unfold u64. change M64 with (2 ^ 64). case_bool_decide.
  - by rewrite Z.mod_pow2_bits_low by lia.
  - by rewrite Z.mod_pow2_bits_high by lia.
Qed.

Lemma shiftl_bit x n i : 0 ≤ i → Z.testbit (Z.shiftl x n) i = Z.testbit x (i - n).
Proof. intros Hi. by apply Z.shiftl_spec. Qed.

(** Two words that have the bits of [x] make [i64 x]. *)
Lemma uu_q_bits h l x : is_u32 h → is_u32 l →
  (∀ i, 0 ≤ i < 32 → Z.testbit l i = Z.testbit x i) →
  (∀ i, 0 ≤ i < 32 → Z.testbit h i = Z.testbit x (i + 32)) → uu_q (mk_uu h l) = i64 x.
Proof.
  intros Hh Hl Hlo Hhi. unfold uu_q. rewrite <-(i64_u64 x). f_equal.
  apply Z.bits_inj'. intros i Hi. rewrite uu_uq_bit, u64_bit by done. case_bool_decide.
  - rewrite bool_decide_true by lia. apply Hlo. lia.
  - case_bool_decide; [rewrite Hhi by lia; cbn; f_equal; lia|].
    apply (testbit_above 32); [done|lia].
Qed.

Lemma ulL_bit a i : 0 ≤ i < 32 → Z.testbit (ulL (uu_of a)) i = Z.testbit a i.
Proof. intros Hi. rewrite uu_of_val. cbn [ulL]. rewrite u32_bit, bool_decide_true by lia. done. Qed.

Lemma ulH_bit a i : 0 ≤ i < 32 → Z.testbit (ulH (uu_of a)) i = Z.testbit a (i + 32).
Proof.
  intros Hi. unfold uu_of. cbn [ulH]. rewrite u32_bit, bool_decide_true by lia.
  by rewrite Z.shiftr_spec by lia.
Qed.

Lemma ulL_range a : is_u32 (ulL (uu_of a)).
Proof. apply u32_range. Qed.
Lemma ulH_range a : is_u32 (ulH (uu_of a)).
Proof. apply u32_range. Qed.

(** Bits outside a word are false. *)
Lemma word_bit_out x i : is_u32 x → i < 0 ∨ 32 ≤ i → Z.testbit x i = false.
Proof.
  intros Hx [Hi|Hi]; [by rewrite Z.testbit_neg_r by lia|]. by apply (testbit_above 32).
Qed.

Lemma slH_val a : is_i64 a → slH (uu_of a) = Z.shiftr a 32.
Proof.
  intros Ha. unfold slH. rewrite uu_of_val. cbn [ulH]. rewrite Z.shiftr_div_pow2 by lia.
  change (2 ^ 32) with M32. unfold i32, u32, is_i64 in *. zmod.
Qed.

Lemma sign_bit a i : is_i64 a → 63 ≤ i → Z.testbit a i = bool_decide (a < 0).
Proof.
  intros Ha Hi. unfold is_i64 in Ha. assert (2 ^ 63 ≤ 2 ^ i) as Hp by (apply Z.pow_le_mono_r; lia).
  change (2 ^ 63) with 9223372036854775808 in Hp.
  rewrite Z.testbit_odd, Z.shiftr_div_pow2 by lia. case_bool_decide.
  - replace (a / 2 ^ i) with (-1); [done|]. apply Z.div_unique with (r := a + 2 ^ i); [left; lia|lia].
  - by rewrite Z.div_small by lia.
Qed.

Lemma shl32_Ret x n : 0 ≤ n < 32 → shl32 x n = Ret (u32 (Z.shiftl x n)).
Proof. intros Hn. unfold shl32, shift_ok. by rewrite bool_decide_true. Qed.
Lemma shr32_Ret x n : 0 ≤ n < 32 → shr32 x n = Ret (Z.shiftr x n).
Proof. intros Hn. unfold shr32, shift_ok. by rewrite bool_decide_true. Qed.
Lemma shl32_wide x n : 32 ≤ n → shl32 x n = Fault ShiftTooWide.
Proof. intros Hn. unfold shl32, shift_ok. rewrite bool_decide_false; [done|]. unfold INT_BITS. lia. Qed.
Lemma shr32_wide x n : 32 ≤ n → shr32 x n = Fault ShiftTooWide.
Proof. intros Hn. unfold shr32, shift_ok. rewrite bool_decide_false; [done|]. unfold INT_BITS. lia. Qed.

(** Rewriting the bit of a word built by shifts; the side conditions by [lia]. *)
Ltac bits := repeat first [rewrite Z.lor_spec | rewrite u32_bit | (rewrite bool_decide_true by lia)
  | (rewrite shiftl_bit by lia) | (rewrite Z.shiftr_spec by lia)]; rewrite ?andb_true_l.

Lemma is_u32_lor x y : is_u32 x → is_u32 y → is_u32 (Z.lor x y).
Proof. by apply (lor_bound 32). Qed.
Lemma is_u32_shiftr x n : 0 ≤ n → is_u32 x → is_u32 (Z.shiftr x n).
Proof. by apply (shiftr_bound 32). Qed.
#[export] Hint Resolve is_u32_lor is_u32_shiftr ulL_range ulH_range : kern.
#[export] Hint Extern 1 (_ ≤ _) => lia : kern.

Lemma ashldi3_correct a shift : is_i64 a → 0 ≤ shift →
  __ashldi3 a shift = if shift <? 64 then Ret (i64 (Z.shiftl a shift)) else Fault ShiftTooWide.
Proof.
  intros Ha Hs. unfold __ashldi3. change INT_BITS with 32. destruct (Z.eqb_spec shift 0) as [->|].
  { by rewrite Z.shiftl_0_r, i64_small. }
  destruct (Z.leb_spec 32 shift), (Z.ltb_spec shift 64); try lia.
  - rewrite shl32_Ret by lia. cbn [mbind outcome_bind]. f_equal.
    apply uu_q_bits; [auto with kern|by apply is_u32_pow; lia|..]; intros i Hi.
    + rewrite Z.bits_0, shiftl_bit by lia. by rewrite Z.testbit_neg_r by lia.
    + bits. destruct (decide (i < shift - 32)); [by rewrite !Z.testbit_neg_r by lia|].
      rewrite ulL_bit by lia. f_equal. lia.
  - by rewrite shl32_wide by lia.
  - rewrite !shl32_Ret, shr32_Ret by lia. cbn [mbind outcome_bind]. f_equal.
    apply uu_q_bits; [auto with kern..| |]; intros i Hi; bits.
    + destruct (decide (i < shift)); [by rewrite !Z.testbit_neg_r by lia|]. by rewrite ulL_bit by lia.
    + destruct (decide (i < shift)).
      * rewrite (Z.testbit_neg_r (ulH _)), ulL_bit by lia. cbn. f_equal. lia.
      * rewrite ulH_bit, (word_bit_out (ulL _)) by (auto with kern || lia).
        rewrite orb_false_r. f_equal. lia.
Qed.

Lemma lshrdi3_correct a shift : is_i64 a → 0 ≤ shift →
  __lshrdi3 a shift = if shift <? 64 then Ret (i64 (Z.shiftr (u64 a) shift)) else Fault ShiftTooWide.
Proof.
  intros Ha Hs. unfold __lshrdi3. change INT_BITS with 32. destruct (Z.eqb_spec shift 0) as [->|].
  { by rewrite Z.shiftr_0_r, i64_u64, i64_small. }
  destruct (Z.leb_spec 32 shift), (Z.ltb_spec shift 64); try lia.
  - rewrite shr32_Ret by lia. cbn [mbind outcome_bind]. f_equal.
    apply uu_q_bits; [by apply is_u32_pow; lia|auto with kern|..]; intros i Hi.
    + bits. rewrite u64_bit. destruct (decide (i + shift < 64)).
      * rewrite bool_decide_true, ulH_bit by lia. cbn. f_equal. lia.
      * rewrite bool_decide_false, word_bit_out by (auto with kern || lia). done.
    + rewrite Z.bits_0, Z.shiftr_spec, u64_bit, bool_decide_false by lia. done.
  - by rewrite shr32_wide by lia.
  - rewrite !shr32_Ret, shl32_Ret by lia. cbn [mbind outcome_bind]. f_equal.
    apply uu_q_bits; [auto with kern..| |]; intros i Hi; bits; rewrite u64_bit.
    + rewrite bool_decide_true by lia. destruct (decide (i + shift < 32)).
      * rewrite (Z.testbit_neg_r (ulH _)), ulL_bit, orb_false_r by lia. done.
      * rewrite (word_bit_out (ulL _)), ulH_bit by (auto with kern || lia). cbn. f_equal. lia.
    + destruct (decide (i + shift < 32)).
      * rewrite bool_decide_true, ulH_bit by lia. cbn. f_equal. lia.
      * rewrite bool_decide_false, word_bit_out by (auto with kern || lia). done.
Qed.

Lemma i64_shiftr a n : is_i64 a → 0 ≤ n → is_i64 (Z.shiftr a n).
Proof.
  intros Ha Hn. unfold is_i64 in *. rewrite Z.shiftr_div_pow2 by done.
  pose proof (Z.pow_pos_nonneg 2 n ltac:(lia) Hn) as Hp.
  split; [apply Z.div_le_lower_bound|apply Z.div_lt_upper_bound]; nia.
Qed.

Lemma ashrdi3_correct a shift : is_i64 a → 0 ≤ shift →
  __ashrdi3 a shift = if shift <? 64 then Ret (Z.shiftr a shift) else Fault ShiftTooWide.
Proof.
  intros Ha Hs. unfold __ashrdi3. change INT_BITS with 32. rewrite slH_val by done.
  destruct (Z.eqb_spec shift 0) as [->|]; [by rewrite Z.shiftr_0_r|].
  destruct (Z.leb_spec 32 shift), (Z.ltb_spec shift 64); try lia.
  - rewrite shr32_Ret by lia. cbn [mbind outcome_bind]. f_equal.
    rewrite uu_q_bits with (x := Z.shiftr a shift); [|auto with kern..| |].
    + apply i64_small. apply i64_shiftr; [done|lia].
    + intros i Hi. bits. f_equal. lia.
    + intros i Hi. bits. rewrite !(sign_bit a) by (done || lia). done.
  - by rewrite shr32_wide by lia.
  - rewrite !shr32_Ret, shl32_Ret by lia. cbn [mbind outcome_bind]. f_equal.
    rewrite uu_q_bits with (x := Z.shiftr a shift); [|auto with kern..| |].
    + apply i64_small. apply i64_shiftr; [done|lia].
    + intros i Hi. bits. destruct (decide (i + shift < 32)).
      * rewrite (Z.testbit_neg_r (ulH _)), ulL_bit, orb_false_r by lia. done.
      * rewrite (word_bit_out (ulL _)), ulH_bit by (auto with kern || lia). cbn. f_equal. lia.
    + intros i Hi. bits. f_equal. lia.
Qed.

(** *** Comparison and signed division *)

Lemma cmpdi2_correct a b : is_i64 a → is_i64 b →
  __cmpdi2 a b = match a ?= b with Lt => 0 | Eq => 1 | Gt => 2 end.
Proof.
  intros Ha Hb. unfold __cmpdi2. rewrite !slH_val, !uu_of_val by done. cbn [ulL].
  rewrite !Z.shiftr_div_pow2 by lia. change (2 ^ 32) with M32. unfold is_i64 in *.
  destruct (Z.ltb_spec (a / M32) (b / M32)), (Z.ltb_spec (b / M32) (a / M32)),
    (Z.ltb_spec (u32 a) (u32 b)), (Z.ltb_spec (u32 b) (u32 a)), (Z.compare_spec a b); try done;
    exfalso; wrap_lia.
Qed.

Lemma ucmpdi2_correct a b : is_u64 a → is_u64 b →
  __ucmpdi2 a b = match a ?= b with Lt => 0 | Eq => 1 | Gt => 2 end.
Proof.
  intros Ha Hb. unfold __ucmpdi2. rewrite !uu_of_val. cbn [ulH ulL]. unfold is_u64 in *.
  destruct (Z.ltb_spec (u32 (a / M32)) (u32 (b / M32))), (Z.ltb_spec (u32 (b / M32)) (u32 (a / M32))),
    (Z.ltb_spec (u32 a) (u32 b)), (Z.ltb_spec (u32 b) (u32 a)), (Z.compare_spec a b); try done;
    exfalso; wrap_lia.
Qed.

Lemma u64_abs a : is_i64 a → (if a <? 0 then u64 (- u64 a) else u64 a) = Z.abs a.
Proof. intros Ha. unfold is_i64 in Ha. destruct (Z.ltb_spec a 0); unfold u64; zmod. Qed.

Lemma abs_u64 a : is_i64 a → is_u64 (Z.abs a).
Proof. unfold is_i64, is_u64. lia. Qed.

Lemma if_pair {A} (c : bool) (x y : A) (p q : bool) :
  (if c then (x, p) else (y, q)) = (if c then x else y, if c then p else q).
Proof. by destruct c. Qed.

Lemma divdi3_correct junk a b : is_i64 a → is_i64 b →
  __divdi3 junk a b = if b =? 0 then Fault DivByZero else Ret (i64 (Z.quot a b)).
Proof.
  intros Ha Hb. unfold __divdi3. rewrite !if_pair, !u64_abs by done.
  rewrite qdivrem_correct by (by apply abs_u64).
  destruct (Z.eqb_spec b 0) as [->|Hb0]; [done|]. rewrite (proj2 (Z.eqb_neq _ 0)) by lia.
  cbn [mbind outcome_bind]. f_equal. rewrite Z.quot_div by done.
  destruct (Z.ltb_spec a 0), (Z.ltb_spec b 0); cbn [negb]; rewrite ?i64_u64; f_equal.
  all: destruct (Z.sgn_spec b) as [(?&->)|[(?&->)|(?&->)]], (Z.sgn_spec a) as [(?&->)|[(?&->)|(?&->)]]; try lia.
  all: replace (Z.abs a) with 0 by lia; rewrite Z.div_0_l by lia; lia.
Qed.

Lemma moddi3_correct junk a b : is_i64 a → is_i64 b →
  __moddi3 junk a b = if b =? 0 then Fault DivByZero else Ret (Z.rem a b).
Proof.
  intros Ha Hb. unfold __moddi3. rewrite !if_pair, !u64_abs by done.
  rewrite qdivrem_correct by (by apply abs_u64).
  destruct (Z.eqb_spec b 0) as [->|Hb0]; [done|]. rewrite (proj2 (Z.eqb_neq _ 0)) by lia.
  cbn [mbind outcome_bind deref]. f_equal.
  assert (is_i64 (Z.rem a b)) as Hr.
  { unfold is_i64 in *. pose proof (Z.rem_bound_abs a b Hb0). lia. }
  rewrite <-(i64_small (Z.rem a b)) by done. rewrite Z.rem_mod by done.
  destruct (Z.ltb_spec a 0); cbn [negb]; rewrite ?i64_u64; f_equal.
  all: destruct (Z.sgn_spec a) as [(?&->)|[(?&->)|(?&->)]]; try lia.
  replace (Z.abs a) with 0 by lia. rewrite Z.mod_0_l by lia. lia.
Qed.

(** ** Properties *)

(** C6: [__qdivrem] (Knuth's algorithm D in base 2^16, with its shortcut for
    one-digit divisors) returns, for every pair of 64-bit operands and
    whatever the uninitialised stack digits hold, exactly the quotient and,
    when asked, the remainder; every array access is in bounds and every loop
    ends.  Division by zero is the hardware division by zero it asks for. *)
Theorem qdivrem_spec junk uq vq arq (Hu : is_u64 uq) (Hv : is_u64 vq) :
  __qdivrem junk uq vq arq =
    if vq =? 0 then Fault DivByZero
    else Ret (uq / vq, if arq then Some (uq mod vq) else None).
Proof. by apply qdivrem_correct. Qed.

Lemma qdivrem_spec_witness :
  __qdivrem (λ i, Z.of_nat i) 18446744073709551615 4294967297 true = Ret (4294967295, Some 0) ∧
  __qdivrem (λ i, Z.of_nat i) 9223231297218904063 140735340871680 true
    = Ret (9223231297218904063 / 140735340871680, Some (9223231297218904063 mod 140735340871680)).
Proof.
  split.
  - rewrite (qdivrem_spec (λ i, Z.of_nat i) 18446744073709551615 4294967297 true); [reflexivity|..];
      unfold is_u64; lia.
  - rewrite (qdivrem_spec (λ i, Z.of_nat i) 9223231297218904063 140735340871680 true); [reflexivity|..];
      unfold is_u64; lia.
Defined.

(** the four division entry points: unsigned quotient and remainder;
    signed quotient and remainder truncated towards zero, the remainder with
    the sign of the dividend, [INT64_MIN / -1] wrapping to [INT64_MIN]; all of
    them fault on a zero divisor and on nothing else. *)
Theorem quad_divisions junk a b ua ub
    (Ha : is_i64 a) (Hb : is_i64 b) (Hua : is_u64 ua) (Hub : is_u64 ub) :
  __divdi3 junk a b = (if b =? 0 then Fault DivByZero else Ret (i64 (Z.quot a b))) ∧
  __moddi3 junk a b = (if b =? 0 then Fault DivByZero else Ret (Z.rem a b)) ∧
  __udivdi3 junk ua ub = (if ub =? 0 then Fault DivByZero else Ret (ua / ub)) ∧
  __umoddi3 junk ua ub = (if ub =? 0 then Fault DivByZero else Ret (ua mod ub)).
Proof.
  split; [by apply divdi3_correct|]. split; [by apply moddi3_correct|].
  unfold __udivdi3, __umoddi3. rewrite !qdivrem_correct by done. by destruct (ub =? 0).
Qed.

Lemma quad_divisions_witness :
  __divdi3 (λ _, 7) (-9223372036854775808) (-1) = Ret (-9223372036854775808) ∧
  __moddi3 (λ _, 7) (-7) 2 = Ret (-1).
Proof.
  split.
  - refine (proj1 (quad_divisions (λ _, 7) (-9223372036854775808) (-1) 1 1 _ _ _ _));
      unfold is_i64, is_u64; lia.
  - refine (proj1 (proj2 (quad_divisions (λ _, 7) (-7) 2 1 1 _ _ _ _))); unfold is_i64, is_u64; lia.
Defined.

(** [__muldi3] (Karatsuba on words, the low product by [__lmulq] on
    halfwords) returns the product modulo 2^64, for all operands but those for
    which C leaves it undefined: it negates an operand or the result in signed
    arithmetic, which overflows exactly when that value is [INT64_MIN]. *)
Theorem muldi3_spec a b (Ha : is_i64 a) (Hb : is_i64 b) :
  __muldi3 a b =
    if bool_decide (a = min_quad ∨ b = min_quad ∨
                    (xorb (a <? 0) (b <? 0) = true ∧ i64 (a * b) = min_quad))
    then Fault IntOverflow else Ret (i64 (a * b)).
Proof.
  unfold __muldi3. rewrite !quad_neg by done.
  assert (is_i64 a → a = min_quad → a <? 0 = true) as Hmin by (intros _ ->; done).
  destruct (Z.leb_spec 0 a), (Z.leb_spec 0 b), (Z.eqb_spec a min_quad), (Z.eqb_spec b min_quad);
    cbn [mbind outcome_bind negb]; try (exfalso; unfold min_quad in *; lia);
    try (rewrite bool_decide_true by tauto; done).
  all: rewrite mul_words_spec.
  all: rewrite ?(proj2 (Z.ltb_ge a 0)), ?(proj2 (Z.ltb_lt a 0)), ?(proj2 (Z.ltb_ge b 0)),
    ?(proj2 (Z.ltb_lt b 0)) by lia.
  1, 4: rewrite bool_decide_false by (cbn; naive_solver); do 2 f_equal; lia.
  all: rewrite quad_neg by apply i64_range; replace (a * - b) with (- (a * b)) by lia;
    replace (- a * b) with (- (a * b)) by lia.
  all: assert (i64 (- (a * b)) = min_quad ↔ i64 (a * b) = min_quad) as Hiff
    by (generalize (a * b); intros p; unfold i64, min_quad; split; intros; zmod).
  all: destruct (Z.eqb_spec (i64 (- (a * b))) min_quad) as [Hm|Hm];
    [rewrite bool_decide_true by (cbn; tauto); done|].
  all: rewrite bool_decide_false by (cbn; tauto); f_equal; rewrite i64_neg by done; f_equal; lia.
Qed.

Lemma muldi3_spec_witness :
  __muldi3 123456789012345 (-987654321098765) = Ret (i64 (123456789012345 * -987654321098765)) ∧
  __muldi3 (-4294967296) 2147483648 = Fault IntOverflow.
Proof.
  split.
  - rewrite (muldi3_spec 123456789012345 (-987654321098765)); [reflexivity|..]; unfold is_i64; lia.
  - rewrite (muldi3_spec (-4294967296) 2147483648); [reflexivity|..]; unfold is_i64; lia.
Defined.

(** addition, subtraction, negation and the bitwise operations, computed
    on the two words with the carry or borrow recovered by a comparison, are
    the operations on 64-bit two's complement integers. *)
Theorem quad_word_operations a b :
  __adddi3 a b = i64 (a + b) ∧ __subdi3 a b = i64 (a - b) ∧ __negdi2 a = i64 (- a) ∧
  __one_cmpldi2 a = i64 (Z.lnot a) ∧ __anddi3 a b = i64 (Z.land a b) ∧
  __iordi3 a b = i64 (Z.lor a b) ∧ __xordi3 a b = i64 (Z.lxor a b).
Proof.
  auto 10 using adddi3_correct, subdi3_correct, negdi2_correct, one_cmpldi2_correct,
    anddi3_correct, iordi3_correct, xordi3_correct.
Qed.

(** the four shifts, for counts below 64, are multiplication and (floor)
    division by a power of two, arithmetic or logical; larger counts reach an
    over-wide shift of a word, which C leaves undefined. *)
Theorem quad_shifts a shift (Ha : is_i64 a) (Hs : 0 ≤ shift) :
  __ashldi3 a shift = (if shift <? 64 then Ret (i64 (a * 2 ^ shift)) else Fault ShiftTooWide) ∧
  __lshldi3 a shift = __ashldi3 a shift ∧
  __ashrdi3 a shift = (if shift <? 64 then Ret (a / 2 ^ shift) else Fault ShiftTooWide) ∧
  __lshrdi3 a shift = (if shift <? 64 then Ret (i64 (u64 a / 2 ^ shift)) else Fault ShiftTooWide).
Proof.
  rewrite <-Z.shiftl_mul_pow2, <-!Z.shiftr_div_pow2 by done.
  split; [by apply ashldi3_correct|]. split; [done|].
  split; [by apply ashrdi3_correct|by apply lshrdi3_correct].
Qed.

Lemma quad_shifts_witness :
  __ashrdi3 (-1234567890123456789) 40 = Ret (-1122833) ∧ __ashldi3 1 64 = Fault ShiftTooWide.
Proof.
  split.
  - refine (eq_trans (proj1 (proj2 (proj2 (quad_shifts (-1234567890123456789) 40 _ _)))) _);
      [unfold is_i64; lia|lia|reflexivity].
  - refine (eq_trans (proj1 (quad_shifts 1 64 _ _)) _); [unfold is_i64; lia|lia|reflexivity].
Defined.

(** the comparisons return 0, 1 or 2 as the first operand is below, equal
    to or above the second, signed or unsigned. *)
Theorem quad_compare a b ua ub
    (Ha : is_i64 a) (Hb : is_i64 b) (Hua : is_u64 ua) (Hub : is_u64 ub) :
  __cmpdi2 a b = match a ?= b with Lt => 0 | Eq => 1 | Gt => 2 end ∧
  __ucmpdi2 ua ub = match ua ?= ub with Lt => 0 | Eq => 1 | Gt => 2 end.
Proof. split; [by apply cmpdi2_correct|by apply ucmpdi2_correct]. Qed.

Lemma quad_compare_witness : __cmpdi2 (-1) 4294967296 = 0 ∧ __ucmpdi2 18446744073709551615 1 = 2.
Proof.
  apply (quad_compare (-1) 4294967296 18446744073709551615 1); unfold is_i64, is_u64; lia.
Defined.
