(* ===== verification/Libkern.v ===== *)
(** The string, memory and bit-search routines of [lib/libkern].

    Memory is one array of bytes, a pointer is an index into it, so that
    overlapping arguments overlap here too; an access outside the array is
    [OutOfBounds].  Each routine is written with the pointers and counters of
    the C text.  A counted loop recurses on its counter; a loop that looks for
    a NUL recurses on a fuel that the routine sets to the size of the memory,
    which suffices because each iteration moves the pointer up and leaving the
    memory is a fault. *)

From S2P Require Import Prelude.

(** The value of a [char]: signed on amd64 and i386, unsigned on arm64. *)
Definition char_val (char_signed : bool) (b : Z) : Z :=
  if char_signed && (128 <=? b) then b - 256 else b.

(** ** strlen.c, strnlen.c *)

(** [while ( *s) s++;] the address of the NUL *)
Fixpoint find_nul (fuel : nat) (m : list Z) (s : Z) : outcome Z :=
  match fuel with
  | O => Fault OutOfFuel
  | S fuel => c ← load m s; if c =? 0 then Ret s else find_nul fuel m (s + 1)
  end.

Definition strlen (m : list Z) (str : Z) : outcome Z :=
  s ← find_nul (S (length m)) m str; Ret (s - str).

Fixpoint strnlen_loop (maxlen : nat) (m : list Z) (cp : Z) : outcome Z :=
  match maxlen with
  | O => Ret cp
  | S maxlen => c ← load m cp; if c =? 0 then Ret cp else strnlen_loop maxlen m (cp + 1)
  end.
Definition strnlen (m : list Z) (str maxlen : Z) : outcome Z :=
  cp ← strnlen_loop (Z.to_nat maxlen) m str; Ret (cp - str).

(** ** strlcpy.c *)

(** [while (--nleft != 0) if (( *dst++ = *src++) == '\0') break;] *)
Fixpoint strlcpy_loop (nleft : nat) (m : list Z) (dst src : Z) : outcome (list Z * Z * Z * nat) :=
  match nleft with
  | O => Fault OutOfFuel   (* not reached: nleft != 0 on entry *)
  | S nleft =>
      match nleft with
      | O => Ret (m, dst, src, O)
      | S _ =>
          c ← load m src;
          m ← store m dst c;
          if c =? 0 then Ret (m, dst + 1, src + 1, nleft)
          else strlcpy_loop nleft m (dst + 1) (src + 1)
      end
  end.

Definition strlcpy (m : list Z) (dst src dsize : Z) : outcome (list Z * Z) :=
  let osrc := src in
  '(m, dst, src, nleft) ←
    (if dsize =? 0 then Ret (m, dst, src, O) else strlcpy_loop (Z.to_nat dsize) m dst src);
  '(m, src) ←
    (if bool_decide (nleft = O) then
       m ← (if dsize =? 0 then Ret m else store m dst 0);
       p ← find_nul (S (length m)) m src;
       Ret (m, p + 1)
     else Ret (m, src));
  Ret (m, src - osrc - 1).

(** ** strlcat.c *)

(** [while (n-- != 0 && *dst != '\0') dst++;] *)
Fixpoint strlcat_end (n : nat) (m : list Z) (dst : Z) : outcome Z :=
  match n with
  | O => Ret dst
  | S n => c ← load m dst; if c =? 0 then Ret dst else strlcat_end n m (dst + 1)
  end.

(** [while ( *src != '\0') { if (n != 0) { *dst++ = *src; n--; } src++; }] *)
Fixpoint strlcat_loop (fuel : nat) (m : list Z) (dst src n : Z) : outcome (list Z * Z * Z) :=
  match fuel with
  | O => Fault OutOfFuel
  | S fuel =>
      c ← load m src;
      if c =? 0 then Ret (m, dst, src)
      else if n =? 0 then strlcat_loop fuel m dst (src + 1) n
      else
        m ← store m dst c;
        strlcat_loop fuel m (dst + 1) (src + 1) (n - 1)
  end.

Definition strlcat (m : list Z) (dst src dsize : Z) : outcome (list Z * Z) :=
  let odst := dst in
  let osrc := src in
  dst ← strlcat_end (Z.to_nat dsize) m dst;
  let dlen := dst - odst in
  let n := dsize - dlen in
  if n =? 0 then l ← strlen m src; Ret (m, dlen + l)
  else
    let n := n - 1 in
    '(m, dst, src) ← strlcat_loop (S (length m)) m dst src n;
    m ← store m dst 0;
    Ret (m, dlen + (src - osrc)).

(** ** strncpy.c *)

(** [while (--n != 0) *d++ = 0;] *)
Fixpoint strncpy_pad (n : nat) (m : list Z) (d : Z) : outcome (list Z) :=
  match n with
  | O => Ret m
  | S n => m ← store m d 0; strncpy_pad n m (d + 1)
  end.

(** the outer [do ... while (--n != 0)], entered with [n <> 0] *)
Fixpoint strncpy_loop (n : nat) (m : list Z) (d s : Z) : outcome (list Z) :=
  match n with
  | O => Ret m
  | S n =>
      c ← load m s;
      m ← store m d c;
      if c =? 0 then strncpy_pad n m (d + 1) else strncpy_loop n m (d + 1) (s + 1)
  end.
Definition strncpy (m : list Z) (dst src n : Z) : outcome (list Z * Z) :=
  m ← strncpy_loop (Z.to_nat n) m dst src; Ret (m, dst).

(** ** strcmp.c, strncmp.c, strncasecmp.c *)

Fixpoint strcmp_loop (fuel : nat) (m : list Z) (s1 s2 : Z) : outcome Z :=
  match fuel with
  | O => Fault OutOfFuel
  | S fuel =>
      c1 ← load m s1;
      c2 ← load m s2;
      if c1 =? c2 then (if c1 =? 0 then Ret 0 else strcmp_loop fuel m (s1 + 1) (s2 + 1))
      else Ret (c1 - c2)
  end.
Definition strcmp (m : list Z) (s1 s2 : Z) : outcome Z := strcmp_loop (S (length m)) m s1 s2.

Fixpoint strncmp_loop (n : nat) (m : list Z) (s1 s2 : Z) : outcome Z :=
  match n with
  | O => Ret 0
  | S n =>
      c1 ← load m s1;
      c2 ← load m s2;
      if c1 =? c2 then (if c1 =? 0 then Ret 0 else strncmp_loop n m (s1 + 1) (s2 + 1))
      else Ret (c1 - c2)
  end.
Definition strncmp (m : list Z) (s1 s2 n : Z) : outcome Z := strncmp_loop (Z.to_nat n) m s1 s2.

Definition is_upper (c : Z) : bool := (65 <=? c) && (c <=? 90).
Definition is_lower (c : Z) : bool := (97 <=? c) && (c <=? 122).

(** the two characters brought to the same case, lines 45-51 *)
Definition fold_case (c1 c2 : Z) : Z * Z :=
  if is_upper c1 && is_lower c2 then (c1 + 32, c2)
  else if is_lower c1 && is_upper c2 then (c1, c2 + 32)
  else (c1, c2).

Fixpoint strncasecmp_loop (n : nat) (m : list Z) (s1 s2 : Z) : outcome Z :=
  match n with
  | O => Ret 0
  | S n =>
      c1 ← load m s1;
      c2 ← load m s2;
      let '(c1, c2) := if c1 =? c2 then (c1, c2) else fold_case c1 c2 in
      if c1 =? c2 then (if c1 =? 0 then Ret 0 else strncasecmp_loop n m (s1 + 1) (s2 + 1))
      else Ret (c1 - c2)
  end.
Definition strncasecmp (m : list Z) (s1 s2 n : Z) : outcome Z :=
  strncasecmp_loop (Z.to_nat n) m s1 s2.

(** ** strchr.c, strrchr.c, memchr.c *)

(** A pointer result: [None] is NULL. *)
Fixpoint strchr_loop (fuel : nat) (sgn : bool) (m : list Z) (s c : Z) : outcome (option Z) :=
  match fuel with
  | O => Fault OutOfFuel
  | S fuel =>
      x ← load m s;
      if x =? 0 then Ret None
      else if char_val sgn x =? c then Ret (Some s)
      else strchr_loop fuel sgn m (s + 1) c
  end.
Definition strchr (sgn : bool) (m : list Z) (s c : Z) : outcome (option Z) :=
  strchr_loop (S (length m)) sgn m s c.

Fixpoint strrchr_loop (fuel : nat) (sgn : bool) (m : list Z) (s c : Z) (t : option Z)
  : outcome (option Z) :=
  match fuel with
  | O => Fault OutOfFuel
  | S fuel =>
      x ← load m s;
      if x =? 0 then Ret t
      else strrchr_loop fuel sgn m (s + 1) c (if char_val sgn x =? c then Some s else t)
  end.
Definition strrchr (sgn : bool) (m : list Z) (s c : Z) : outcome (option Z) :=
  strrchr_loop (S (length m)) sgn m s c None.

Fixpoint memchr_loop (n : nat) (m : list Z) (p c : Z) : outcome (option Z) :=
  match n with
  | O => Ret None
  | S n => x ← load m p; if x =? u8 c then Ret (Some p) else memchr_loop n m (p + 1) c
  end.
Definition memchr (m : list Z) (s c n : Z) : outcome (option Z) :=
  memchr_loop (Z.to_nat n) m s c.

(** ** strnstr.c *)

(** the inner [do ... while (sc != c)]: [None] is [return (NULL)]; otherwise
    the new [s] and [slen] *)
Fixpoint strnstr_scan (slen : nat) (m : list Z) (s c : Z) : outcome (option (Z * nat)) :=
  match slen with
  | O => Ret None
  | S slen =>
      sc ← load m s;
      if sc =? 0 then Ret None
      else if sc =? c then Ret (Some (s + 1, slen))
      else strnstr_scan slen m (s + 1) c
  end.

(** the outer [do ... while (strncmp(...) != 0)] *)
Fixpoint strnstr_loop (fuel : nat) (m : list Z) (s find c len : Z) (slen : nat)
  : outcome (option Z) :=
  match fuel with
  | O => Fault OutOfFuel
  | S fuel =>
      r ← strnstr_scan slen m s c;
      match r with
      | None => Ret None
      | Some (s, slen) =>
          if Z.of_nat slen <? len then Ret None
          else
            d ← strncmp m s find len;
            if d =? 0 then Ret (Some (s - 1)) else strnstr_loop fuel m s find c len slen
      end
  end.

Definition strnstr (m : list Z) (s find slen : Z) : outcome (option Z) :=
  c ← load m find;
  let find := find + 1 in
  if c =? 0 then Ret (Some s)
  else
    len ← strlen m find;
    strnstr_loop (S (Z.to_nat slen)) m s find c len (Z.to_nat slen).

(** ** memcmp.c, bcmp.c, timingsafe_bcmp.c *)

Fixpoint memcmp_loop (n : nat) (m : list Z) (p1 p2 : Z) : outcome Z :=
  match n with
  | O => Ret 0
  | S n =>
      c1 ← load m p1;
      c2 ← load m p2;
      if c1 =? c2 then memcmp_loop n m (p1 + 1) (p2 + 1) else Ret (c1 - c2)
  end.
Definition memcmp (m : list Z) (s1 s2 n : Z) : outcome Z := memcmp_loop (Z.to_nat n) m s1 s2.

Fixpoint bcmp_loop (n : nat) (m : list Z) (p1 p2 : Z) : outcome Z :=
  match n with
  | O => Ret 0
  | S n =>
      c1 ← load m p1;
      c2 ← load m p2;
      if c1 =? c2 then bcmp_loop n m (p1 + 1) (p2 + 1) else Ret 1
  end.
Definition bcmp (m : list Z) (b1 b2 length : Z) : outcome Z := bcmp_loop (Z.to_nat length) m b1 b2.

Fixpoint timingsafe_loop (n : nat) (m : list Z) (p1 p2 ret : Z) : outcome Z :=
  match n with
  | O => Ret ret
  | S n =>
      c1 ← load m p1;
      c2 ← load m p2;
      timingsafe_loop n m (p1 + 1) (p2 + 1) (Z.lor ret (Z.lxor c1 c2))
  end.
Definition timingsafe_bcmp (m : list Z) (b1 b2 n : Z) : outcome Z :=
  ret ← timingsafe_loop (Z.to_nat n) m b1 b2 0;
  Ret (if ret =? 0 then 0 else 1).

(** ** memmove.c *)

(** [while (n-- > 0) *t++ = *f++;] *)
Fixpoint copy_up (n : nat) (m : list Z) (t f : Z) : outcome (list Z) :=
  match n with
  | O => Ret m
  | S n => c ← load m f; m ← store m t c; copy_up n m (t + 1) (f + 1)
  end.
(** [while (n-- > 0) *--t = *--f;] *)
Fixpoint copy_down (n : nat) (m : list Z) (t f : Z) : outcome (list Z) :=
  match n with
  | O => Ret m
  | S n => c ← load m (f - 1); m ← store m (t - 1) c; copy_down n m (t - 1) (f - 1)
  end.

Definition memmove (m : list Z) (s1 s2 n : Z) : outcome (list Z) :=
  let f := s2 in
  let t := s1 in
  if f <? t then copy_down (Z.to_nat n) m (t + n) (f + n)
  else copy_up (Z.to_nat n) m t f.

(** ** bcopy.c *)

Definition wsize := 8.          (* sizeof(long) *)
Definition wmask := wsize - 1.

(** [*(word * )dst = *(word * )src]: the addresses must be aligned. *)
Definition word_copy (m : list Z) (dst src : Z) : outcome (list Z) :=
  if (dst mod wsize =? 0) && (src mod wsize =? 0) then
    d ← mem_read m src wsize; mem_write m dst d
  else Fault Misaligned.

Fixpoint words_up (t : nat) (m : list Z) (dst src : Z) : outcome (list Z) :=
  match t with
  | O => Ret m
  | S t => m ← word_copy m dst src; words_up t m (dst + wsize) (src + wsize)
  end.
Fixpoint words_down (t : nat) (m : list Z) (dst src : Z) : outcome (list Z) :=
  match t with
  | O => Ret m
  | S t =>
      m ← word_copy m (dst - wsize) (src - wsize);
      words_down t m (dst - wsize) (src - wsize)
  end.

(** [TLOOP1] is [do { ... } while (--t)]: with [t = 0] it would run through
    all of [size_t]. *)
Definition tloop1 (t : Z) (body : nat → outcome (list Z)) : outcome (list Z) :=
  if t =? 0 then Fault OutOfFuel else body (Z.to_nat t).

(** the forward half, lines 70-93 *)
Definition bcopy_up (m : list Z) (dst src length : Z) : outcome (list Z) :=
  '(m, dst, src, length) ←
    (if negb (Z.land (Z.lor src dst) wmask =? 0) then
       let t := if negb (Z.land (Z.lxor src dst) wmask =? 0) || (length <? wsize) then length
                else wsize - Z.land src wmask in
       m ← tloop1 t (λ n, copy_up n m dst src);
       Ret (m, dst + t, src + t, length - t)
     else Ret (m, dst, src, length));
  let t := length / wsize in
  m ← words_up (Z.to_nat t) m dst src;
  copy_up (Z.to_nat (Z.land length wmask)) m (dst + t * wsize) (src + t * wsize).

(** the backward half, lines 94-115 *)
Definition bcopy_down (m : list Z) (dst src length : Z) : outcome (list Z) :=
  let src := src + length in
  let dst := dst + length in
  '(m, dst, src, length) ←
    (if negb (Z.land (Z.lor src dst) wmask =? 0) then
       let t := if negb (Z.land (Z.lxor src dst) wmask =? 0) || (length <=? wsize) then length
                else Z.land src wmask in
       m ← tloop1 t (λ n, copy_down n m dst src);
       Ret (m, dst - t, src - t, length - t)
     else Ret (m, dst, src, length));
  let t := length / wsize in
  m ← words_down (Z.to_nat t) m dst src;
  copy_down (Z.to_nat (Z.land length wmask)) m (dst - t * wsize) (src - t * wsize).

Definition bcopy (m : list Z) (src0 dst0 length : Z) : outcome (list Z) :=
  if (length =? 0) || (dst0 =? src0) then Ret m
  else if dst0 <? src0 then bcopy_up m dst0 src0 length
  else bcopy_down m dst0 src0 length.

(** ** memset.c, bzero.c *)

Definition fill_wsize := 4.     (* sizeof(u_int) *)

Fixpoint fill_bytes (n : nat) (m : list Z) (dst c : Z) : outcome (list Z) :=
  match n with
  | O => Ret m
  | S n => m ← store m dst (u8 c); fill_bytes n m (dst + 1) c
  end.

(** [*(u_int * )dst = c], on a little-endian machine *)
Definition word_store (m : list Z) (dst c : Z) : outcome (list Z) :=
  if dst mod fill_wsize =? 0 then
    mem_write m dst [u8 c; u8 (Z.shiftr c 8); u8 (Z.shiftr c 16); u8 (Z.shiftr c 24)]
  else Fault Misaligned.
Fixpoint fill_words (t : nat) (m : list Z) (dst c : Z) : outcome (list Z) :=
  match t with
  | O => Ret m
  | S t => m ← word_store m dst c; fill_words t m (dst + fill_wsize) c
  end.

Definition memset (m : list Z) (dst0 c0 length : Z) : outcome (list Z) :=
  let dst := dst0 in
  if length <? 3 * fill_wsize then fill_bytes (Z.to_nat length) m dst c0
  else
    let c := u8 c0 in
    let c := if c =? 0 then c
             else let c := Z.lor (Z.shiftl c 8) c in u32 (Z.lor (Z.shiftl c 16) c) in
    (* Align destination by filling in bytes. *)
    let t := Z.land dst (fill_wsize - 1) in
    '(m, dst, length) ←
      (if t =? 0 then Ret (m, dst, length)
       else
         let t := fill_wsize - t in
         m ← tloop1 t (λ n, fill_bytes n m dst c0);
         Ret (m, dst + t, length - t));
    (* Fill words. *)
    let t := length / fill_wsize in
    m ← tloop1 t (λ n, fill_words n m dst c);
    let dst := dst + t * fill_wsize in
    (* Mop up trailing bytes, if any. *)
    let t := Z.land length (fill_wsize - 1) in
    if t =? 0 then Ret m else tloop1 t (λ n, fill_bytes n m dst c0).

Fixpoint bzero_loop (n : nat) (m : list Z) (p : Z) : outcome (list Z) :=
  match n with
  | O => Ret m
  | S n => m ← store m p 0; bzero_loop n m (p + 1)
  end.
Definition bzero (m : list Z) (b length : Z) : outcome (list Z) := bzero_loop (Z.to_nat length) m b.

(** ** scanc.c, skpc.c *)

Fixpoint scanc_loop (k : nat) (m : list Z) (cp table mask : Z) : outcome Z :=
  match k with
  | O => Ret 0
  | S k' =>
      c ← load m cp;
      t ← load m (table + c);
      if Z.land t (u8 mask) =? 0 then scanc_loop k' m (cp + 1) table mask else Ret (Z.of_nat k)
  end.
Definition scanc (m : list Z) (size cp table mask : Z) : outcome Z :=
  scanc_loop (Z.to_nat size) m cp table mask.

Fixpoint skpc_loop (k : nat) (m : list Z) (mask cp : Z) : outcome Z :=
  match k with
  | O => Ret 0
  | S k' =>
      c ← load m cp;
      if c =? u8 mask then skpc_loop k' m mask (cp + 1) else Ret (Z.of_nat k)
  end.
Definition skpc (m : list Z) (mask size cp : Z) : outcome Z := skpc_loop (Z.to_nat size) m mask cp.

(** ** ffs.c, fls.c, flsl.c, ctzdi2.c *)

Definition ffs_table : list Z := [-28; 1; 2; 1; 3; 1; 2; 1; 4; 1; 2; 1; 3; 1; 2; 1].
Definition ffsl_table : list Z := [-60; 1; 2; 1; 3; 1; 2; 1; 4; 1; 2; 1; 3; 1; 2; 1].

(** [if (!(r & (1 << b) - 1)) { bit += b; r >>= b; }] *)
Definition ffs_stage (b : Z) (st : Z * Z) : Z * Z :=
  let '(bit, r) := st in
  if Z.land r (Z.ones b) =? 0 then (bit + b, Z.shiftr r b) else (bit, r).

Definition ffs (mask : Z) : outcome Z :=
  let '(bit, r) := ffs_stage 4 (ffs_stage 8 (ffs_stage 16 (0, u32 mask))) in
  t ← load ffs_table (Z.land r 15); Ret (bit + t).

Definition ffsl (mask : Z) : outcome Z :=
  let '(bit, r) := ffs_stage 4 (ffs_stage 8 (ffs_stage 16 (ffs_stage 32 (0, u64 mask)))) in
  t ← load ffsl_table (Z.land r 15); Ret (bit + t).

Definition __ctzdi2 (mask : Z) : outcome Z :=
  if mask =? 0 then Ret 0 else r ← ffsl mask; Ret (r - 1).

(** [for (bit = 1; mask != 1; bit++) mask = (unsigned int)mask >> 1;] *)
Fixpoint fls_loop (fuel : nat) (wrap : Z → Z) (mask bit : Z) : outcome Z :=
  match fuel with
  | O => Fault OutOfFuel
  | S fuel =>
      if mask =? 1 then Ret bit else fls_loop fuel wrap (Z.shiftr (wrap mask) 1) (bit + 1)
  end.
Definition fls (mask : Z) : outcome Z :=
  if mask =? 0 then Ret 0 else fls_loop 33 u32 mask 1.
Definition flsl (mask : Z) : outcome Z :=
  if mask =? 0 then Ret 0 else fls_loop 65 u64 mask 1.

(** ** Memory *)

(** The bytes [p .. p + n - 1]. *)
Definition bytes (m : list Z) (p n : Z) : list Z := zth m <$> seqZ p n.

(** [m'] is [m] with the bytes [d] at [p]. *)
Definition upd (m m' : list Z) (p : Z) (d : list Z) : Prop :=
  length m' = length m ∧
  ∀ i, 0 ≤ i → zth m' i =
    if bool_decide (p ≤ i < p + Z.of_nat (length d)) then zth d (i - p) else zth m i.

(** The [n] bytes at [p] are inside the memory. *)
Definition inside (m : list Z) (p n : Z) : Prop := 0 ≤ p ∧ p + n ≤ Z.of_nat (length m).

Lemma length_bytes m p n : 0 ≤ n → Z.of_nat (length (bytes m p n)) = n.
Proof. intros Hn. unfold bytes. rewrite length_fmap, length_seqZ. lia. Qed.

Lemma zth_bytes m p n i : 0 ≤ i < n → zth (bytes m p n) i = zth m (p + i).
Proof. intros Hi. unfold bytes. by rewrite zth_seqZ. Qed.

Lemma upd_refl m p : upd m m p [].
Proof. split; [done|]. intros i Hi. rewrite bool_decide_false; [done|]. cbn. lia. Qed.

Lemma upd_same m p n : 0 ≤ p → 0 ≤ n → upd m m p (bytes m p n).
Proof.
  intros Hp Hn. split; [done|]. intros i Hi. rewrite length_bytes by done.
  case_bool_decide; [|done]. rewrite zth_bytes by lia. f_equal. lia.
Qed.

Lemma upd_app m m1 m2 p d1 d2 :
  upd m m1 p d1 → upd m1 m2 (p + Z.of_nat (length d1)) d2 → upd m m2 p (d1 ++ d2).
Proof.
  intros [Hl1 H1] [Hl2 H2]. split; [lia|]. intros i Hi. rewrite H2, H1, length_app by done.
  case_bool_decide.
  - rewrite bool_decide_true, zth_app, bool_decide_false by lia. f_equal. lia.
  - case_bool_decide.
    + rewrite bool_decide_true, zth_app, bool_decide_true by lia. done.
    + rewrite bool_decide_false by lia. done.
Qed.

(** The same, the second part written first. *)
Lemma upd_app_rev m m1 m2 p d1 d2 :
  upd m m1 (p + Z.of_nat (length d1)) d2 → upd m1 m2 p d1 → upd m m2 p (d1 ++ d2).
Proof.
  intros [Hl1 H1] [Hl2 H2]. split; [lia|]. intros i Hi. rewrite H2, H1, length_app by done.
  case_bool_decide.
  - rewrite bool_decide_true, zth_app, bool_decide_true by lia. done.
  - case_bool_decide.
    + rewrite bool_decide_true, zth_app, bool_decide_false by lia. f_equal. lia.
    + rewrite bool_decide_false by lia. done.
Qed.

Lemma upd_unique m m1 m2 p d : upd m m1 p d → upd m m2 p d → m1 = m2.
Proof.
  intros [Hl1 H1] [Hl2 H2]. apply zth_list_eq; [lia|]. intros i Hi. by rewrite H1, H2 by lia.
Qed.

Lemma upd_mem_write m m' p d :
  inside m p (Z.of_nat (length d)) → upd m m' p d → mem_write m p d = Ret m'.
Proof.
  intros [Hp Hl] Hu. destruct (mem_write_spec m p d Hp Hl) as (m'' & -> & Hl'' & H'').
  f_equal. by apply (upd_unique m _ _ p d).
Qed.

Lemma mem_write_upd m p d : inside m p (Z.of_nat (length d)) → ∃ m', mem_write m p d = Ret m' ∧ upd m m' p d.
Proof.
  intros [Hp Hl]. destruct (mem_write_spec m p d Hp Hl) as (m' & -> & H). by exists m'.
Qed.

Lemma upd_inside m m' p d q n : upd m m' p d → inside m q n → inside m' q n.
Proof. intros [Hl _] [Hq Hn]. split; lia. Qed.

(** Reading outside the part that was written. *)
Lemma upd_bytes m m' p d q n :
  upd m m' p d → 0 ≤ q → q + n ≤ p ∨ p + Z.of_nat (length d) ≤ q → bytes m' q n = bytes m q n.
Proof.
  intros [_ H] Hq Hd. unfold bytes. apply list_fmap_ext. intros i x Hx%lookup_seqZ.
  rewrite H, bool_decide_false by lia. done.
Qed.

Lemma bytes_app m p a b : 0 ≤ a → 0 ≤ b → bytes m p (a + b) = bytes m p a ++ bytes m (p + a) b.
Proof. intros Ha Hb. unfold bytes. by rewrite seqZ_app, fmap_app. Qed.

Lemma bytes_1 m p : bytes m p 1 = [zth m p].
Proof. done. Qed.

Lemma store_upd1 m p c : inside m p 1 → ∃ m', store m p c = Ret m' ∧ upd m m' p [c].
Proof.
  intros [Hp Hl]. rewrite store_in by lia. eexists. split; [done|].
  split; [by rewrite length_insert|]. intros i Hi. cbn [length].
  case_bool_decide.
  - assert (i = p) as -> by lia. rewrite zth_insert_eq, Z.sub_diag by lia. done.
  - rewrite zth_insert_ne by lia. done.
Qed.

Lemma load_inside m p n i : inside m p n → 0 ≤ i < n → load m (p + i) = Ret (zth m (p + i)).
Proof. intros [Hp Hl] Hi. apply load_zth. lia. Qed.

(** *** Copies *)

(** Composing two copies of [memmove], upwards and downwards. *)
Lemma copy_up_app m m1 m2 t f a b :
  0 ≤ a → 0 ≤ b → 0 ≤ t ≤ f → upd m m1 t (bytes m f a) → upd m1 m2 (t + a) (bytes m1 (f + a) b) →
  upd m m2 t (bytes m f (a + b)).
Proof.
  intros Ha Hb Ht H1 H2. rewrite bytes_app by done. eapply upd_app; [exact H1|].
  rewrite length_bytes by done. rewrite (upd_bytes m m1 t (bytes m f a) (f + a)) in H2; [done|exact H1|lia|].
  rewrite length_bytes; lia.
Qed.

Lemma copy_down_app m m1 m2 t f a b :
  0 ≤ a → 0 ≤ b → 0 ≤ f ≤ t → upd m m1 (t + a) (bytes m (f + a) b) → upd m1 m2 t (bytes m1 f a) →
  upd m m2 t (bytes m f (a + b)).
Proof.
  intros Ha Hb Ht H1 H2. rewrite bytes_app by done. eapply upd_app_rev.
  - rewrite length_bytes by done. exact H1.
  - rewrite (upd_bytes m m1 (t + a) (bytes m (f + a) b) f) in H2; [done|exact H1|lia|lia].
Qed.

Lemma inside_part m p n q k : inside m p n → p ≤ q → q + k ≤ p + n → inside m q k.
Proof. intros [H1 H2] Hq Hk. split; lia. Qed.

Lemma copy_up_spec n : ∀ m t f, inside m t (Z.of_nat n) → inside m f (Z.of_nat n) → t ≤ f →
  ∃ m', copy_up n m t f = Ret m' ∧ upd m m' t (bytes m f (Z.of_nat n)).
Proof.
  induction n as [|n IH]; intros m t f Ht Hf Htf; cbn [copy_up].
  { exists m. split; [done|]. apply upd_refl. }
  pose proof Ht as [Ht0 Htl]. pose proof Hf as [Hf0 Hfl].
  rewrite load_zth by lia. cbn [mbind outcome_bind].
  destruct (store_upd1 m t (zth m f)) as (m1 & -> & H1); [eapply inside_part; [exact Ht|lia..]|].
  cbn [mbind outcome_bind].
  destruct (IH m1 (t + 1) (f + 1)) as (m2 & -> & H2); [| |lia|].
  1, 2: eapply upd_inside; [exact H1|]; split; lia.
  exists m2. split; [done|]. rewrite Nat2Z.inj_succ, <-Z.add_1_l.
  eapply copy_up_app; [lia..|exact H1|exact H2].
Qed.

Lemma copy_down_spec n : ∀ m t f, inside m (t - Z.of_nat n) (Z.of_nat n) →
  inside m (f - Z.of_nat n) (Z.of_nat n) → f ≤ t →
  ∃ m', copy_down n m t f = Ret m' ∧ upd m m' (t - Z.of_nat n) (bytes m (f - Z.of_nat n) (Z.of_nat n)).
Proof.
  induction n as [|n IH]; intros m t f Ht Hf Htf; cbn [copy_down].
  { exists m. split; [done|]. apply upd_refl. }
  pose proof Ht as [Ht0 Htl]. pose proof Hf as [Hf0 Hfl].
  rewrite load_zth by lia. cbn [mbind outcome_bind].
  destruct (store_upd1 m (t - 1) (zth m (f - 1))) as (m1 & -> & H1); [split; lia|].
  cbn [mbind outcome_bind].
  destruct (IH m1 (t - 1) (f - 1)) as (m2 & -> & H2); [| |lia|].
  1, 2: eapply upd_inside; [exact H1|]; split; lia.
  exists m2. split; [done|]. replace (Z.of_nat (S n)) with (Z.of_nat n + 1) in * by lia.
  replace (t - (Z.of_nat n + 1)) with (t - 1 - Z.of_nat n) by lia.
  replace (f - (Z.of_nat n + 1)) with (f - 1 - Z.of_nat n) by lia.
  eapply copy_down_app; [lia..| |exact H2].
  replace (t - 1 - Z.of_nat n + Z.of_nat n) with (t - 1) by lia.
  replace (f - 1 - Z.of_nat n + Z.of_nat n) with (f - 1) by lia. exact H1.
Qed.

Lemma word_copy_spec m t f : inside m t 8 → inside m f 8 → t mod 8 = 0 → f mod 8 = 0 →
  ∃ m', word_copy m t f = Ret m' ∧ upd m m' t (bytes m f 8).
Proof.
  intros Ht Hf Hta Hfa. unfold word_copy. change wsize with 8. rewrite Hta, Hfa. cbn [andb Z.eqb].
  destruct Hf as [Hf0 Hfl]. rewrite mem_read_spec by lia. cbn [mbind outcome_bind].
  apply mem_write_upd. by rewrite length_bytes.
Qed.

Lemma words_up_spec n : ∀ m t f, inside m t (8 * Z.of_nat n) → inside m f (8 * Z.of_nat n) → t ≤ f →
  t mod 8 = 0 → f mod 8 = 0 →
  ∃ m', words_up n m t f = Ret m' ∧ upd m m' t (bytes m f (8 * Z.of_nat n)).
Proof.
  induction n as [|n IH]; intros m t f Ht Hf Htf Hta Hfa; cbn [words_up].
  { exists m. split; [done|]. apply upd_refl. }
  pose proof Ht as [Ht0 Htl]. pose proof Hf as [Hf0 Hfl].
  destruct (word_copy_spec m t f) as (m1 & -> & H1); [split; lia..|done|done|].
  cbn [mbind outcome_bind]. change wsize with 8.
  destruct (IH m1 (t + 8) (f + 8)) as (m2 & -> & H2); [| |lia|zmod|zmod|].
  1, 2: eapply upd_inside; [exact H1|]; split; lia.
  exists m2. split; [done|]. replace (8 * Z.of_nat (S n)) with (8 + 8 * Z.of_nat n) by lia.
  eapply copy_up_app; [lia..|exact H1|exact H2].
Qed.

Lemma words_down_spec n : ∀ m t f, inside m (t - 8 * Z.of_nat n) (8 * Z.of_nat n) →
  inside m (f - 8 * Z.of_nat n) (8 * Z.of_nat n) → f ≤ t → t mod 8 = 0 → f mod 8 = 0 →
  ∃ m', words_down n m t f = Ret m' ∧
    upd m m' (t - 8 * Z.of_nat n) (bytes m (f - 8 * Z.of_nat n) (8 * Z.of_nat n)).
Proof.
  induction n as [|n IH]; intros m t f Ht Hf Htf Hta Hfa; cbn [words_down].
  { exists m. split; [done|]. apply upd_refl. }
  change wsize with 8. pose proof Ht as [Ht0 Htl]. pose proof Hf as [Hf0 Hfl].
  destruct (word_copy_spec m (t - 8) (f - 8)) as (m1 & -> & H1); [split; lia..|zmod|zmod|].
  cbn [mbind outcome_bind].
  destruct (IH m1 (t - 8) (f - 8)) as (m2 & -> & H2); [| |lia|zmod|zmod|].
  1, 2: eapply upd_inside; [exact H1|]; split; lia.
  exists m2. split; [done|]. replace (8 * Z.of_nat (S n)) with (8 * Z.of_nat n + 8) in * by lia.
  replace (t - (8 * Z.of_nat n + 8)) with (t - 8 - 8 * Z.of_nat n) by lia.
  replace (f - (8 * Z.of_nat n + 8)) with (f - 8 - 8 * Z.of_nat n) by lia.
  eapply copy_down_app; [lia..| |exact H2].
  replace (t - 8 - 8 * Z.of_nat n + 8 * Z.of_nat n) with (t - 8) by lia.
  replace (f - 8 - 8 * Z.of_nat n + 8 * Z.of_nat n) with (f - 8) by lia. exact H1.
Qed.

(** *** memmove and bcopy *)

(** The specification of a copy between regions that may overlap: read all
    the source, then write it. *)
Definition block_copy (m : list Z) (dst src n : Z) : outcome (list Z) :=
  d ← mem_read m src n; mem_write m dst d.

Lemma block_copy_upd m m' dst src n : 0 ≤ n → inside m dst n → inside m src n →
  upd m m' dst (bytes m src n) → block_copy m dst src n = Ret m'.
Proof.
  intros Hn Hd [Hs0 Hsl] Hu. unfold block_copy. rewrite mem_read_spec by done. cbn [mbind outcome_bind].
  fold (bytes m src n). apply upd_mem_write; [|done]. by rewrite length_bytes.
Qed.

Lemma memmove_upd m dst src n : 0 ≤ n → inside m dst n → inside m src n →
  ∃ m', memmove m dst src n = Ret m' ∧ upd m m' dst (bytes m src n).
Proof.
  intros Hn Hd Hs. unfold memmove. destruct (Z.ltb_spec src dst).
  - destruct (copy_down_spec (Z.to_nat n) m (dst + n) (src + n)) as (m' & -> & H');
      rewrite ?Z2Nat.id, ?Z.add_simpl_r in * by done; [done|done|lia|]. by exists m'.
  - destruct (copy_up_spec (Z.to_nat n) m dst src) as (m' & -> & H');
      rewrite ?Z2Nat.id in * by done; [done..|]. by exists m'.
Qed.

Lemma wmask_mod x : Z.land x wmask = x mod 8.
Proof. exact (Z.land_ones x 3 ltac:(lia)). Qed.

Lemma lor_aligned x y : Z.land (Z.lor x y) wmask = 0 ↔ x mod 8 = 0 ∧ y mod 8 = 0.
Proof. rewrite Z.land_lor_distr_l, !wmask_mod. apply Z.lor_eq_0_iff. Qed.

Lemma lxor_aligned x y : Z.land (Z.lxor x y) wmask = 0 ↔ x mod 8 = y mod 8.
Proof.
  rewrite <-!wmask_mod. split.
  - intros H. apply Z.lxor_eq. rewrite <-H. apply Z.bits_inj'. intros i Hi.
    rewrite !Z.lxor_spec, !Z.land_spec, Z.lxor_spec. destruct (Z.testbit wmask i); [by rewrite !andb_true_r|].
    by rewrite !andb_false_r.
  - intros H. apply Z.bits_inj'. intros i Hi. assert (Z.testbit (Z.land x wmask) i = Z.testbit (Z.land y wmask) i) as Hb by (by rewrite H).
    rewrite !Z.land_spec, Z.lxor_spec, Z.bits_0 in *. destruct (Z.testbit wmask i); rewrite ?andb_false_r, ?andb_true_r in *; [|done].
    rewrite Hb. apply xorb_nilpotent.
Qed.

(** What the alignment step leaves: [a] bytes done, the rest aligned or nothing. *)
Definition aligned_rest (dst src rest : Z) : Prop := rest = 0 ∨ (dst mod 8 = 0 ∧ src mod 8 = 0).

Lemma tloop1_pos t body : 0 < t → tloop1 t body = body (Z.to_nat t).
Proof. intros Ht. unfold tloop1. by rewrite (proj2 (Z.eqb_neq t 0)) by lia. Qed.

Lemma words_tail_up m dst src n :
  0 ≤ n → inside m dst n → inside m src n → dst ≤ src → aligned_rest dst src n →
  ∃ m', (m1 ← words_up (Z.to_nat (n / wsize)) m dst src;
         copy_up (Z.to_nat (Z.land n wmask)) m1 (dst + n / wsize * wsize) (src + n / wsize * wsize))
        = Ret m' ∧ upd m m' dst (bytes m src n).
Proof.
  intros Hn Hd Hs Hds Ha. pose proof Hd as [Hd0 Hdl]. pose proof Hs as [Hs0 Hsl].
  rewrite wmask_mod. change wsize with 8. destruct Ha as [->|[Hda Hsa]].
  { exists m. split; [done|]. apply upd_refl. }
  assert (n = 8 * (n / 8) + n mod 8 ∧ 0 ≤ n / 8 ∧ 0 ≤ n mod 8) as (Hnd & Hq0 & Hr0) by zmod.
  revert Hnd Hq0 Hr0. generalize (n / 8), (n mod 8). intros q r -> Hq0 Hr0.
  destruct (words_up_spec (Z.to_nat q) m dst src) as (m1 & -> & H1);
    rewrite ?Z2Nat.id in * by done; [split; lia..|done|done|done|].
  cbn [mbind outcome_bind].
  destruct (copy_up_spec (Z.to_nat r) m1 (dst + q * 8) (src + q * 8)) as (m2 & -> & H2);
    rewrite ?Z2Nat.id in * by done; [| |lia|].
  1, 2: eapply upd_inside; [exact H1|]; split; lia.
  exists m2. split; [done|]. rewrite (Z.mul_comm q 8) in H2.
  eapply copy_up_app; [lia..|exact H1|exact H2].
Qed.

Lemma words_tail_down m dst src n :
  0 ≤ n → inside m (dst - n) n → inside m (src - n) n → src ≤ dst → aligned_rest dst src n →
  ∃ m', (m1 ← words_down (Z.to_nat (n / wsize)) m dst src;
         copy_down (Z.to_nat (Z.land n wmask)) m1 (dst - n / wsize * wsize) (src - n / wsize * wsize))
        = Ret m' ∧ upd m m' (dst - n) (bytes m (src - n) n).
Proof.
  intros Hn Hd Hs Hds Ha. pose proof Hd as [Hd0 Hdl]. pose proof Hs as [Hs0 Hsl].
  rewrite wmask_mod. change wsize with 8. destruct Ha as [->|[Hda Hsa]].
  { exists m. split; [done|]. apply upd_refl. }
  assert (n = n mod 8 + 8 * (n / 8) ∧ 0 ≤ n / 8 ∧ 0 ≤ n mod 8) as (Hnd & Hq0 & Hr0) by zmod.
  revert Hnd Hq0 Hr0. generalize (n / 8), (n mod 8). intros q r -> Hq0 Hr0.
  destruct (words_down_spec (Z.to_nat q) m dst src) as (m1 & -> & H1);
    rewrite ?Z2Nat.id in * by done; [split; lia..|done|done|done|].
  cbn [mbind outcome_bind].
  destruct (copy_down_spec (Z.to_nat r) m1 (dst - q * 8) (src - q * 8)) as (m2 & -> & H2);
    rewrite ?Z2Nat.id in * by done; [| |lia|].
  1, 2: eapply upd_inside; [exact H1|]; split; lia.
  exists m2. split; [done|].
  replace (dst - q * 8 - r) with (dst - (r + 8 * q)) in H2 by lia.
  replace (src - q * 8 - r) with (src - (r + 8 * q)) in H2 by lia.
  eapply copy_down_app; [lia..| |exact H2].
  replace (dst - (r + 8 * q) + r) with (dst - 8 * q) by lia.
  replace (src - (r + 8 * q) + r) with (src - 8 * q) by lia. exact H1.
Qed.

Lemma bcopy_up_upd m dst src n : 0 < n → inside m dst n → inside m src n → dst < src →
  ∃ m', bcopy_up m dst src n = Ret m' ∧ upd m m' dst (bytes m src n).
Proof.
  intros Hn Hd Hs Hds. unfold bcopy_up. pose proof Hd as [Hd0 Hdl]. pose proof Hs as [Hs0 Hsl].
  destruct (Z.eqb_spec (Z.land (Z.lor src dst) wmask) 0) as [Ha|Ha]; cbn [negb].
  { apply lor_aligned in Ha as [Hsa Hda]. cbn [mbind outcome_bind].
    apply words_tail_up; [lia|done|done|lia|]. by right. }
  set (t := if negb _ || _ then n else _).
  assert (0 < t ≤ n ∧ aligned_rest (dst + t) (src + t) (n - t)) as [Ht Hal].
  { unfold t, aligned_rest. destruct (Z.eqb_spec (Z.land (Z.lxor src dst) wmask) 0) as [Hx|Hx]; cbn [negb orb]; [|lia].
    apply lxor_aligned in Hx. change wsize with 8. destruct (Z.ltb_spec n 8); [lia|].
    rewrite wmask_mod. rewrite lor_aligned in Ha. split; [zmod|]. right. zmod. }
  rewrite tloop1_pos by lia.
  destruct (copy_up_spec (Z.to_nat t) m dst src) as (m1 & -> & H1);
    rewrite ?Z2Nat.id in * by lia; [split; lia..|lia|].
  cbn [mbind outcome_bind].
  destruct (words_tail_up m1 (dst + t) (src + t) (n - t)) as (m2 & E & H2); [lia| | |lia|done|].
  1, 2: eapply upd_inside; [exact H1|]; split; lia.
  exists m2. split; [exact E|]. replace n with (t + (n - t)) by lia.
  eapply copy_up_app; [lia..|exact H1|exact H2].
Qed.

Lemma bcopy_down_upd m dst src n : 0 < n → inside m dst n → inside m src n → src < dst →
  ∃ m', bcopy_down m dst src n = Ret m' ∧ upd m m' dst (bytes m src n).
Proof.
  intros Hn Hd Hs Hds. unfold bcopy_down. pose proof Hd as [Hd0 Hdl]. pose proof Hs as [Hs0 Hsl].
  destruct (Z.eqb_spec (Z.land (Z.lor (src + n) (dst + n)) wmask) 0) as [Ha|Ha]; cbn [negb].
  { apply lor_aligned in Ha as [Hsa Hda]. cbn [mbind outcome_bind].
    destruct (words_tail_down m (dst + n) (src + n) n) as (m' & E & H');
      rewrite ?Z.add_simpl_r in *; [lia|done|done|lia|by right|]. by exists m'. }
  set (t := if negb _ || _ then n else _).
  assert (0 < t ≤ n ∧ aligned_rest (dst + n - t) (src + n - t) (n - t)) as [Ht Hal].
  { unfold t, aligned_rest.
    destruct (Z.eqb_spec (Z.land (Z.lxor (src + n) (dst + n)) wmask) 0) as [Hx|Hx]; cbn [negb orb]; [|lia].
    apply lxor_aligned in Hx. change wsize with 8. destruct (Z.leb_spec n 8); [lia|].
    rewrite wmask_mod. rewrite lor_aligned in Ha. split; [zmod|]. right. zmod. }
  rewrite tloop1_pos by lia.
  destruct (copy_down_spec (Z.to_nat t) m (dst + n) (src + n)) as (m1 & -> & H1);
    rewrite ?Z2Nat.id in * by lia; [split; lia..|lia|].
  cbn [mbind outcome_bind].
  destruct (words_tail_down m1 (dst + n - t) (src + n - t) (n - t)) as (m2 & E & H2); [lia| | |lia|done|].
  1, 2: eapply upd_inside; [exact H1|]; split; lia.
  exists m2. split; [exact E|].
  replace (dst + n - t - (n - t)) with dst in H2 by lia.
  replace (src + n - t - (n - t)) with src in H2 by lia.
  replace n with ((n - t) + t) by lia.
  eapply copy_down_app; [lia..| |exact H2].
  replace (dst + (n - t)) with (dst + n - t) by lia.
  replace (src + (n - t)) with (src + n - t) by lia. exact H1.
Qed.

Lemma bcopy_upd m src dst n : 0 ≤ n → inside m dst n → inside m src n →
  ∃ m', bcopy m src dst n = Ret m' ∧ upd m m' dst (bytes m src n).
Proof.
  intros Hn Hd Hs. unfold bcopy. destruct (Z.eqb_spec n 0) as [->|Hn0]; cbn [orb].
  { exists m. split; [done|]. apply upd_refl. }
  destruct (Z.eqb_spec dst src) as [->|Hne].
  { exists m. split; [done|]. apply upd_same; [|done]. by destruct Hs. }
  destruct (Z.ltb_spec dst src); [apply bcopy_up_upd|apply bcopy_down_upd]; done || lia.
Qed.

(** *** memset *)

Lemma replicate_app_Z (c : Z) a b : 0 ≤ a → 0 ≤ b →
  replicate (Z.to_nat (a + b)) c = replicate (Z.to_nat a) c ++ replicate (Z.to_nat b) c.
Proof. intros Ha Hb. by rewrite Z2Nat.inj_add, replicate_add by done. Qed.

Lemma fill_app m m1 m2 p c a b : 0 ≤ a → 0 ≤ b →
  upd m m1 p (replicate (Z.to_nat a) c) → upd m1 m2 (p + a) (replicate (Z.to_nat b) c) →
  upd m m2 p (replicate (Z.to_nat (a + b)) c).
Proof.
  intros Ha Hb H1 H2. rewrite replicate_app_Z by done. eapply upd_app; [exact H1|].
  by rewrite length_replicateZ.
Qed.

Lemma fill_bytes_spec c n : ∀ m p, 0 ≤ n → inside m p n →
  ∃ m', fill_bytes (Z.to_nat n) m p c = Ret m' ∧ upd m m' p (replicate (Z.to_nat n) (u8 c)).
Proof.
  intros m p Hn Hi. rewrite <-(Z2Nat.id n Hn) in Hi. clear Hn. revert m p Hi.
  generalize (Z.to_nat n). clear n. induction n as [|n IH]; intros m p Hi; cbn [fill_bytes replicate].
  { exists m. split; [done|]. apply upd_refl. }
  destruct Hi as [Hp Hl]. destruct (store_upd1 m p (u8 c)) as (m1 & -> & H1); [split; lia|].
  cbn [mbind outcome_bind]. destruct (IH m1 (p + 1)) as (m2 & -> & H2).
  { eapply upd_inside; [exact H1|]. split; lia. }
  exists m2. split; [done|]. change (u8 c :: replicate n (u8 c)) with ([u8 c] ++ replicate n (u8 c)).
  eapply upd_app; [exact H1|exact H2].
Qed.

(** A word whose four bytes are [b]. *)
Definition splat (c b : Z) : Prop :=
  u8 c = b ∧ u8 (Z.shiftr c 8) = b ∧ u8 (Z.shiftr c 16) = b ∧ u8 (Z.shiftr c 24) = b.

Lemma fill_words_spec c b n : splat c b → ∀ m p, 0 ≤ n → inside m p (4 * n) → p mod 4 = 0 →
  ∃ m', fill_words (Z.to_nat n) m p c = Ret m' ∧ upd m m' p (replicate (Z.to_nat (4 * n)) b).
Proof.
  intros (Hb0 & Hb1 & Hb2 & Hb3) m p Hn Hi Ha.
  rewrite <-(Z2Nat.id n Hn) in Hi |- *. clear Hn. revert m p Hi Ha. rewrite Nat2Z.id.
  generalize (Z.to_nat n). clear n. induction n as [|n IH]; intros m p Hi Ha; cbn [fill_words].
  { exists m. split; [done|]. apply upd_refl. }
  destruct Hi as [Hp Hl]. unfold word_store. change fill_wsize with 4. rewrite Ha, Hb0, Hb1, Hb2, Hb3.
  cbn [Z.eqb]. destruct (mem_write_upd m p [b; b; b; b]) as (m1 & -> & H1); [split; cbn; lia|].
  cbn [mbind outcome_bind]. destruct (IH m1 (p + 4)) as (m2 & -> & H2); [|zmod|].
  { eapply upd_inside; [exact H1|]. split; lia. }
  exists m2. split; [done|]. replace (4 * Z.of_nat (S n)) with (4 + 4 * Z.of_nat n) by lia.
  eapply fill_app; [lia..|exact H1|exact H2].
Qed.

Lemma memset_word_splat c0 :
  let c := u8 c0 in
  splat (if c =? 0 then c else let c := Z.lor (Z.shiftl c 8) c in u32 (Z.lor (Z.shiftl c 16) c)) (u8 c0).
Proof.
  intros c. pose proof (u8_range c0) as Hc. fold c in Hc. unfold is_u8 in Hc.
  destruct (Z.eqb_spec c 0) as [H0|H0].
  { rewrite H0 in *. fold c. rewrite H0. by repeat split. }
  cbv zeta. fold c. rewrite (lor_shiftl_add c c 8) by (cbn; lia). change (2 ^ 8) with 256.
  rewrite lor_shiftl_add by (change (2 ^ 16) with 65536; lia). change (2 ^ 16) with 65536.
  unfold splat. rewrite !Z.shiftr_div_pow2 by lia.
  change (2 ^ 8) with 256. change (2 ^ 16) with 65536. change (2 ^ 24) with 16777216.
  rewrite u32_small by (unfold is_u32; lia). unfold u8. clearbody c. clear c0. repeat split; zmod.
Qed.

Lemma mask3_mod x : Z.land x (fill_wsize - 1) = x mod 4.
Proof. exact (Z.land_ones x 2 ltac:(lia)). Qed.

Lemma fill_rest m p c b c0 n : splat c (u8 c0) → b = u8 c0 → 4 ≤ n → inside m p n → p mod 4 = 0 →
  ∃ m', (m1 ← tloop1 (n / fill_wsize) (λ k, fill_words k m p c);
         if Z.land n (fill_wsize - 1) =? 0 then Ret m1
         else tloop1 (Z.land n (fill_wsize - 1))
                (λ k, fill_bytes k m1 (p + n / fill_wsize * fill_wsize) c0)) = Ret m' ∧
    upd m m' p (replicate (Z.to_nat n) b).
Proof.
  intros Hc -> Hn [Hp Hl] Ha. rewrite mask3_mod. change fill_wsize with 4.
  assert (n = 4 * (n / 4) + n mod 4 ∧ 1 ≤ n / 4 ∧ 0 ≤ n mod 4) as (Hnd & Hq0 & Hr0) by zmod.
  revert Hnd Hq0 Hr0. generalize (n / 4), (n mod 4). intros q r -> Hq0 Hr0.
  rewrite tloop1_pos by lia.
  destruct (fill_words_spec c (u8 c0) q Hc m p) as (m1 & -> & H1); [lia|split; lia|done|].
  cbn [mbind outcome_bind]. destruct (Z.eqb_spec r 0) as [->|Hr].
  { exists m1. split; [done|]. by rewrite Z.add_0_r. }
  rewrite tloop1_pos by lia.
  destruct (fill_bytes_spec c0 r m1 (p + q * 4)) as (m2 & -> & H2); [lia| |].
  { eapply upd_inside; [exact H1|]. split; lia. }
  exists m2. split; [done|]. rewrite (Z.mul_comm q 4) in H2.
  eapply fill_app; [lia..|exact H1|exact H2].
Qed.

Lemma memset_upd m dst c0 n : 0 ≤ n → inside m dst n →
  ∃ m', memset m dst c0 n = Ret m' ∧ upd m m' dst (replicate (Z.to_nat n) (u8 c0)).
Proof.
  intros Hn Hi. unfold memset. change (3 * fill_wsize) with 12.
  destruct (Z.ltb_spec n 12) as [|H12]; [by apply fill_bytes_spec|].
  pose proof (memset_word_splat c0) as Hc. revert Hc. cbv zeta. set (c := if _ =? 0 then _ else _). intros Hc.
  rewrite mask3_mod. destruct Hi as [Hp Hl]. destruct (Z.eqb_spec (dst mod 4) 0) as [Ha|Ha].
  { cbn [mbind outcome_bind]. apply fill_rest; [done|done|lia|split; lia|done]. }
  change fill_wsize with 4. set (t := 4 - dst mod 4). assert (0 < t < 4) as Ht by (unfold t; zmod).
  rewrite tloop1_pos by lia.
  destruct (fill_bytes_spec c0 t m dst) as (m1 & -> & H1); [lia|split; lia|].
  cbn [mbind outcome_bind].
  destruct (fill_rest m1 (dst + t) c (u8 c0) c0 (n - t)) as (m2 & E & H2); [done|done|lia| |unfold t; zmod|].
  { eapply upd_inside; [exact H1|]. split; lia. }
  exists m2. split; [exact E|]. replace n with (t + (n - t)) by lia.
  eapply fill_app; [lia..|exact H1|exact H2].
Qed.

Lemma bzero_loop_fill n : ∀ m p, bzero_loop n m p = fill_bytes n m p 0.
Proof. induction n as [|n IH]; intros m p; [done|]. cbn [bzero_loop fill_bytes].
  change (u8 0) with 0. destruct (store m p 0); [apply IH|done].
Qed.

(** ** Strings *)

Abbreviation len l := (Z.of_nat (length l)).

(** The NUL-terminated string [s] is at [p]. *)
Definition cstr (m : list Z) (p : Z) (s : list Z) : Prop :=
  inside m p (len s + 1) ∧ (∀ i, 0 ≤ i < len s → zth m (p + i) = zth s i) ∧
  zth m (p + len s) = 0 ∧ Forall (λ c, c ≠ 0) s.

Lemma zth_cons_0 (c : Z) s : zth (c :: s) 0 = c.
Proof. done. Qed.
Lemma zth_cons_S (c : Z) s i : 0 ≤ i → zth (c :: s) (i + 1) = zth s i.
Proof. intros Hi. unfold zth. by replace (Z.to_nat (i + 1)) with (S (Z.to_nat i)) by lia. Qed.
Lemma zth_nil i : zth [] i = 0.
Proof. unfold zth. by destruct (Z.to_nat i). Qed.
Lemma zth_out s i : len s ≤ i → zth s i = 0.
Proof. intros Hi. unfold zth. apply nth_overflow. lia. Qed.
Lemma zth_neg s i : i < 0 → zth s i = zth s 0.
Proof. intros Hi. unfold zth. by replace (Z.to_nat i) with (Z.to_nat 0) by lia. Qed.

Lemma len_cons (c : Z) s : len (c :: s) = len s + 1.
Proof. cbn [length]. lia. Qed.

Lemma cstr_nil m p : cstr m p [] → load m p = Ret 0.
Proof. intros ([Hp Hl] & _ & Hz & _). cbn in *. rewrite load_zth by lia. by rewrite Z.add_0_r in Hz; rewrite Hz. Qed.

Lemma cstr_cons m p c s : cstr m p (c :: s) → load m p = Ret c ∧ c ≠ 0 ∧ cstr m (p + 1) s.
Proof.
  intros ([Hp Hl] & Hs & Hz & Hn). rewrite len_cons in *. inversion Hn as [|?? Hc Hn']; subst.
  split; [rewrite load_zth by lia; f_equal; specialize (Hs 0); rewrite Z.add_0_r in Hs; apply Hs; lia|].
  split; [done|]. split; [split; lia|]. split; [|split; [|done]].
  - intros i Hi. rewrite <-(zth_cons_S c s i) by lia. rewrite <-Hs by lia. f_equal. lia.
  - rewrite <-Hz. f_equal. lia.
Qed.

(** The character at offset [i] of a string, the NUL included. *)
Lemma cstr_load m p s i : cstr m p s → 0 ≤ i ≤ len s → load m (p + i) = Ret (zth s i).
Proof.
  intros ([Hp Hl] & Hs & Hz & _) Hi. rewrite load_zth by lia. f_equal.
  destruct (decide (i = len s)) as [->|]; [|apply Hs; lia]. by rewrite Hz, zth_out.
Qed.

Lemma cstr_nonzero m p s i : cstr m p s → 0 ≤ i → zth s i = 0 ↔ len s ≤ i.
Proof.
  intros (_ & _ & _ & Hn) Hi. split; [|apply zth_out]. intros H0.
  destruct (decide (len s ≤ i)) as [|Hlt]; [done|]. exfalso.
  destruct (load_in s i) as (c & _ & Hc); [lia|]. rewrite Forall_lookup in Hn.
  apply (Hn _ _ Hc). rewrite <-H0. unfold zth. by erewrite nth_lookup_Some.
Qed.

Lemma cstr_upd m m' q d p s : upd m m' q d → cstr m p s →
  p + len s < q ∨ q + len d ≤ p → cstr m' p s.
Proof.
  intros Hu ([Hp Hl] & Hs & Hz & Hn) Hd. pose proof Hu as [Hlen Hrd]. split; [split; lia|].
  split; [|split; [|done]].
  - intros i Hi. rewrite Hrd, bool_decide_false by lia. by apply Hs.
  - rewrite Hrd, bool_decide_false by lia. done.
Qed.

Lemma find_nul_spec m s : ∀ fuel p, cstr m p s → (length s < fuel)%nat →
  find_nul fuel m p = Ret (p + len s).
Proof.
  induction s as [|c s IH]; intros [|fuel] p Hs Hf; cbn [length] in Hf; [lia| |lia|]; cbn [find_nul].
  - rewrite (cstr_nil _ _ Hs). cbn. f_equal. lia.
  - apply cstr_cons in Hs as (-> & Hc & Hs). cbn [mbind outcome_bind].
    rewrite (proj2 (Z.eqb_neq c 0)) by done. rewrite IH by (done || lia). f_equal. cbn [length]. lia.
Qed.

Lemma cstr_length m p s : cstr m p s → (length s < S (length m))%nat.
Proof. intros ([Hp Hl] & _). lia. Qed.

Lemma strlen_cstr m p s : cstr m p s → strlen m p = Ret (len s).
Proof.
  intros Hs. unfold strlen. rewrite (find_nul_spec m s) by (done || by eapply cstr_length).
  cbn [mbind outcome_bind]. f_equal. lia.
Qed.

(** [upd] with one more character in front. *)
Lemma upd_cons m m1 m2 p c d : upd m m1 p [c] → upd m1 m2 (p + 1) d → upd m m2 p (c :: d).
Proof. intros H1 H2. exact (upd_app m m1 m2 p [c] d H1 H2). Qed.

(** Equality of returned tuples, component by component. *)
Ltac ret_eq := repeat match goal with
  | |- Ret _ = Ret _ => f_equal
  | |- (_, _) = (_, _) => f_equal
  end; try lia.

(** *** strlcpy *)

Definition disjoint (p n q k : Z) : Prop := p + n ≤ q ∨ q + k ≤ p.

Lemma strlcpy_loop_next k m dst src : strlcpy_loop (S (S k)) m dst src =
  (c ← load m src; m ← store m dst c;
   if c =? 0 then Ret (m, dst + 1, src + 1, S k) else strlcpy_loop (S k) m (dst + 1) (src + 1)).
Proof. done. Qed.

Lemma strlcpy_loop_spec s : ∀ k m dst src,
  cstr m src s → (1 ≤ k)%nat → inside m dst (Z.min (Z.of_nat k) (len s + 1)) →
  disjoint dst (Z.min (Z.of_nat k) (len s + 1)) src (len s + 1) →
  ((length s + 1 < k)%nat → ∃ m', strlcpy_loop k m dst src =
     Ret (m', dst + len s + 1, src + len s + 1, (k - 1 - length s)%nat) ∧ upd m m' dst (s ++ [0])) ∧
  ((k ≤ length s + 1)%nat → ∃ m', strlcpy_loop k m dst src =
     Ret (m', dst + Z.of_nat (k - 1), src + Z.of_nat (k - 1), O) ∧ upd m m' dst (take (k - 1) s) ∧
     cstr m' (src + Z.of_nat (k - 1)) (drop (k - 1) s)).
Proof.
  induction s as [|c s IH]; intros k m dst src Hs Hk [Hi Hil] Hd; (destruct k as [|[|k]]; [lia|..]);
    rewrite ?strlcpy_loop_next; cbn [length] in *.
  - split; [lia|]. intros _. exists m. cbn. rewrite !Z.add_0_r. split; [done|]. split; [apply upd_refl|done].
  - split; [|lia]. intros _. rewrite (cstr_nil _ _ Hs). cbn [mbind outcome_bind].
    destruct (store_upd1 m dst 0) as (m1 & -> & H1); [split; lia|]. cbn [mbind outcome_bind Z.eqb].
    exists m1. split; [|done]. ret_eq.
  - split; [lia|]. intros _. exists m. cbn. rewrite !Z.add_0_r. split; [done|]. split; [apply upd_refl|done].
  - pose proof (cstr_cons _ _ _ _ Hs) as (-> & Hc & Hs'). cbn [mbind outcome_bind].
    destruct (store_upd1 m dst c) as (m1 & -> & H1); [split; lia|]. cbn [mbind outcome_bind].
    rewrite (proj2 (Z.eqb_neq c 0)) by done. unfold disjoint in Hd.
    destruct (IH (S k) m1 (dst + 1) (src + 1)) as [IH1 IH2]; [| lia| | |].
    { eapply cstr_upd; [exact H1|exact Hs'|]. cbn [length]. lia. }
    { eapply upd_inside; [exact H1|]. split; lia. }
    { unfold disjoint. lia. }
    split; intros Hlen.
    + destruct IH1 as (m2 & -> & H2); [lia|]. exists m2. split; [|by eapply upd_cons].
      ret_eq.
    + destruct IH2 as (m2 & -> & H2 & Hs2); [lia|]. exists m2.
      cbn [Nat.sub] in *. rewrite Nat.sub_0_r in *. destruct k as [|k]; cbn [take drop] in *.
      * split; [ret_eq|].
        cbn in H2. split; [by eapply upd_cons|]. by rewrite Z.add_0_r in Hs2.
      * split; [ret_eq|].
        split; [by eapply upd_cons|]. replace (src + Z.of_nat (S (S k))) with (src + 1 + Z.of_nat (S k)) by lia. done.
Qed.

(** What the C text promises: the part of [s] that fits, and a NUL. *)
Definition copied (dsize : Z) (s : list Z) : list Z :=
  if dsize =? 0 then [] else take (Z.to_nat (dsize - 1)) s ++ [0].

Lemma len_copied dsize s : 0 ≤ dsize → len (copied dsize s) = Z.min dsize (len s + 1).
Proof.
  intros Hd. unfold copied. destruct (Z.eqb_spec dsize 0) as [->|]; [cbn; lia|].
  rewrite length_app, length_take. cbn [length]. lia.
Qed.

Lemma strlcpy_upd m dst src dsize s : cstr m src s → 0 ≤ dsize →
  inside m dst (len (copied dsize s)) → disjoint dst (len (copied dsize s)) src (len s + 1) →
  ∃ m', strlcpy m dst src dsize = Ret (m', len s) ∧ upd m m' dst (copied dsize s).
Proof.
  intros Hs Hd0 Hi Hdj. pose proof (len_copied dsize s Hd0) as Hlc. rewrite Hlc in *.
  unfold strlcpy, copied in *. destruct (Z.eqb_spec dsize 0) as [->|Hne].
  { cbn [mbind outcome_bind]. rewrite (bool_decide_true (O = O)) by done. cbn [mbind outcome_bind].
    rewrite (find_nul_spec m s) by (done || by eapply cstr_length). cbn [mbind outcome_bind].
    exists m. split; [ret_eq|apply upd_refl]. }
  destruct (strlcpy_loop_spec s (Z.to_nat dsize) m dst src Hs) as [Hfit Htrunc];
    [lia|by rewrite Z2Nat.id by lia..|].
  destruct (decide (length s + 1 < Z.to_nat dsize)%nat) as [Hlt|Hge].
  - destruct (Hfit Hlt) as (m' & -> & Hu). cbn [mbind outcome_bind].
    rewrite bool_decide_false by lia. cbn [mbind outcome_bind]. exists m'. split; [ret_eq|].
    rewrite take_ge by lia. done.
  - destruct (Htrunc ltac:(lia)) as (m1 & -> & H1 & Hs1). cbn [mbind outcome_bind].
    rewrite bool_decide_true by done.
    assert (Z.to_nat (dsize - 1) = (Z.to_nat dsize - 1)%nat) as -> by lia.
    set (j := (Z.to_nat dsize - 1)%nat) in *. assert (length (take j s) = j) as Hj by (rewrite length_take; lia).
    unfold disjoint in Hdj.
    destruct (store_upd1 m1 (dst + Z.of_nat j) 0) as (m2 & -> & H2).
    { eapply upd_inside; [exact H1|]. destruct Hi. split; lia. }
    cbn [mbind outcome_bind].
    assert (cstr m2 (src + Z.of_nat j) (drop j s)) as Hs2.
    { eapply cstr_upd; [exact H2|exact Hs1|]. rewrite length_drop. cbn [length]. lia. }
    rewrite (find_nul_spec m2 _ _ _ Hs2) by (by eapply cstr_length). cbn [mbind outcome_bind].
    exists m2. split; [rewrite ?length_drop; ret_eq|].
    eapply upd_app; [exact H1|]. by rewrite Hj.
Qed.

(** *** strlcat *)

(** [d] is what is in [dst]: its first NUL, or [dsize] bytes without one. *)
Definition dst_length (m : list Z) (dst dsize d : Z) : Prop :=
  inside m dst dsize ∧ 0 ≤ d ≤ dsize ∧ (∀ i, 0 ≤ i < d → zth m (dst + i) ≠ 0) ∧
  (d < dsize → zth m (dst + d) = 0).

Lemma strlcat_end_spec n : ∀ m dst d, dst_length m dst (Z.of_nat n) d → strlcat_end n m dst = Ret (dst + d).
Proof.
  induction n as [|n IH]; intros m dst d ([Hp Hl] & Hd & Hnz & Hz); cbn [strlcat_end].
  { f_equal. lia. }
  rewrite load_zth by lia. cbn [mbind outcome_bind].
  destruct (decide (d = 0)) as [->|Hd0].
  { rewrite Z.add_0_r in Hz. by rewrite Hz, Z.add_0_r by lia. }
  rewrite (proj2 (Z.eqb_neq _ 0)).
  - rewrite (IH m (dst + 1) (d - 1)); [f_equal; lia|]. split; [split; lia|]. split; [lia|]. split.
    + intros i Hi. replace (dst + 1 + i) with (dst + (i + 1)) by lia. apply Hnz. lia.
    + intros Hi. replace (dst + 1 + (d - 1)) with (dst + d) by lia. apply Hz. lia.
  - specialize (Hnz 0). rewrite Z.add_0_r in Hnz. apply Hnz. lia.
Qed.

Lemma strlcat_loop_spec s : ∀ fuel m dst src n,
  cstr m src s → (length s < fuel)%nat → 0 ≤ n → inside m dst (Z.min n (len s)) →
  disjoint dst (Z.min n (len s)) src (len s + 1) →
  ∃ m', strlcat_loop fuel m dst src n = Ret (m', dst + Z.min n (len s), src + len s) ∧
    upd m m' dst (take (Z.to_nat n) s).
Proof.
  induction s as [|c s IH]; intros [|fuel] m dst src n Hs Hf Hn [Hi Hil] Hd; cbn [length] in *;
    try lia; cbn [strlcat_loop].
  - rewrite (cstr_nil _ _ Hs). cbn [mbind outcome_bind Z.eqb]. exists m. rewrite take_nil.
    split; [|apply upd_refl]. ret_eq.
  - pose proof (cstr_cons _ _ _ _ Hs) as (-> & Hc & Hs'). cbn [mbind outcome_bind].
    rewrite (proj2 (Z.eqb_neq c 0)) by done. unfold disjoint in *.
    destruct (Z.eqb_spec n 0) as [->|Hn0].
    + destruct (IH fuel m dst (src + 1) 0) as (m' & -> & Hu); [done|lia|done|split; lia|lia|].
      exists m'. rewrite !take_0 in *. split; [|done]. ret_eq.
    + destruct (store_upd1 m dst c) as (m1 & -> & H1); [split; lia|]. cbn [mbind outcome_bind].
      destruct (IH fuel m1 (dst + 1) (src + 1) (n - 1)) as (m2 & -> & H2); [|lia|lia| |lia|].
      { eapply cstr_upd; [exact H1|exact Hs'|]. cbn [length]. lia. }
      { eapply upd_inside; [exact H1|]. split; lia. }
      exists m2. split; [ret_eq|].
      replace (Z.to_nat n) with (S (Z.to_nat (n - 1))) by lia. by eapply upd_cons.
Qed.

Lemma strlcat_upd m dst src dsize s d : cstr m src s → 0 ≤ dsize → dst_length m dst dsize d →
  disjoint (dst + d) (Z.min (dsize - d) (len s + 1)) src (len s + 1) →
  ∃ m', strlcat m dst src dsize = Ret (m', d + len s) ∧ upd m m' (dst + d) (copied (dsize - d) s).
Proof.
  intros Hs Hd0 Hdl Hdj. pose proof Hdl as ([Hi Hil] & Hd & _). unfold strlcat.
  rewrite (strlcat_end_spec _ m dst d) by (by rewrite Z2Nat.id). cbn [mbind outcome_bind].
  replace (dst + d - dst) with d by lia. unfold copied, disjoint in *.
  destruct (Z.eqb_spec (dsize - d) 0) as [He|He].
  { rewrite (strlen_cstr _ _ _ Hs). cbn [mbind outcome_bind]. exists m. split; [done|apply upd_refl]. }
  destruct (strlcat_loop_spec s (S (length m)) m (dst + d) src (dsize - d - 1)) as (m1 & -> & H1);
    [done|by eapply cstr_length|lia|split; lia|unfold disjoint; lia|].
  cbn [mbind outcome_bind]. pose proof H1 as [Hl1 _].
  destruct (store_upd1 m1 (dst + d + Z.min (dsize - d - 1) (len s)) 0) as (m2 & -> & H2); [split; lia|].
  cbn [mbind outcome_bind]. exists m2. split; [ret_eq|].
  eapply upd_app; [exact H1|]. rewrite length_take.
  replace (Z.of_nat (Z.to_nat (dsize - d - 1) `min` length s)) with (Z.min (dsize - d - 1) (len s)) by lia. done.
Qed.

(** *** strncpy *)

Lemma strncpy_pad_spec n : ∀ m d, inside m d (Z.of_nat n) →
  ∃ m', strncpy_pad n m d = Ret m' ∧ upd m m' d (replicate n 0).
Proof.
  induction n as [|n IH]; intros m d [Hi Hl]; cbn [strncpy_pad].
  { exists m. split; [done|]. apply upd_refl. }
  destruct (store_upd1 m d 0) as (m1 & -> & H1); [split; lia|]. cbn [mbind outcome_bind].
  destruct (IH m1 (d + 1)) as (m2 & -> & H2); [eapply upd_inside; [exact H1|]; split; lia|].
  exists m2. split; [done|]. by eapply upd_cons.
Qed.

(** The [n] bytes [strncpy] writes. *)
Definition padded (n : nat) (s : list Z) : list Z := take n (s ++ replicate n 0).

Lemma length_padded n s : length (padded n s) = n.
Proof. unfold padded. rewrite length_take, length_app, length_replicate. lia. Qed.

Lemma padded_S n c s : padded (S n) (c :: s) = c :: padded n s.
Proof.
  unfold padded. cbn [app take]. f_equal. rewrite replicate_S_end, app_assoc, take_app_le; [done|].
  rewrite length_app, length_replicate. lia.
Qed.

Lemma strncpy_loop_spec n : ∀ m dst src s, cstr m src s → inside m dst (Z.of_nat n) →
  disjoint dst (Z.of_nat n) src (len s + 1) →
  ∃ m', strncpy_loop n m dst src = Ret m' ∧ upd m m' dst (padded n s).
Proof.
  induction n as [|n IH]; intros m dst src s Hs [Hi Hl] Hd; cbn [strncpy_loop].
  { exists m. split; [done|]. apply upd_refl. }
  unfold disjoint in *. destruct s as [|c s].
  - rewrite (cstr_nil _ _ Hs). cbn [mbind outcome_bind].
    destruct (store_upd1 m dst 0) as (m1 & -> & H1); [split; lia|]. cbn [mbind outcome_bind Z.eqb].
    destruct (strncpy_pad_spec n m1 (dst + 1)) as (m2 & -> & H2); [eapply upd_inside; [exact H1|]; split; lia|].
    exists m2. split; [done|]. unfold padded. cbn [app].
    rewrite take_ge by (by rewrite length_replicate). by eapply upd_cons.
  - pose proof (cstr_cons _ _ _ _ Hs) as (-> & Hc & Hs'). rewrite len_cons in Hd. cbn [mbind outcome_bind].
    destruct (store_upd1 m dst c) as (m1 & -> & H1); [split; lia|]. cbn [mbind outcome_bind].
    rewrite (proj2 (Z.eqb_neq c 0)) by done.
    destruct (IH m1 (dst + 1) (src + 1) s) as (m2 & -> & H2); [| |lia|].
    { eapply cstr_upd; [exact H1|exact Hs'|]. cbn [length]. lia. }
    { eapply upd_inside; [exact H1|]. split; lia. }
    exists m2. split; [done|]. rewrite padded_S. by eapply upd_cons.
Qed.

(** *** Comparison *)

(** [r] is the verdict on [a] and [b] when the characters [0 .. n - 1] count:
    the difference of the first pair that differs, 0 if none does. *)
Definition verdict (a b : Z → Z) (n r : Z) : Prop :=
  (r = 0 ∧ ∀ i, 0 ≤ i < n → a i = b i) ∨
  (∃ i, 0 ≤ i < n ∧ (∀ j, 0 ≤ j < i → a j = b j) ∧ r = a i - b i ∧ r ≠ 0).

Lemma verdict_end a b n : n ≤ 0 → verdict a b n 0.
Proof. intros Hn. left. split; [done|]. lia. Qed.

Lemma verdict_diff a b n : 0 < n → a 0 ≠ b 0 → verdict a b n (a 0 - b 0).
Proof. intros Hn Hne. right. exists 0. split; [lia|]. split; [lia|]. split; [done|lia]. Qed.

Lemma verdict_next a b n r : a 0 = b 0 →
  verdict (λ i, a (i + 1)) (λ i, b (i + 1)) (n - 1) r → verdict a b n r.
Proof.
  intros H0 [(-> & Hall)|(i & Hi & Hj & -> & Hne)].
  - left. split; [done|]. intros i Hi. destruct (decide (i = 0)) as [->|]; [done|].
    specialize (Hall (i - 1)). rewrite Z.sub_add in Hall. apply Hall. lia.
  - right. exists (i + 1). split; [lia|]. split; [|done]. intros j Hj'.
    destruct (decide (j = 0)) as [->|]; [done|]. specialize (Hj (j - 1)). rewrite Z.sub_add in Hj.
    apply Hj. lia.
Qed.

Lemma verdict_ext a a' b b' n r : (∀ i, 0 ≤ i → a i = a' i) → (∀ i, 0 ≤ i → b i = b' i) →
  verdict a b n r → verdict a' b' n r.
Proof.
  intros Ha Hb [(-> & Hall)|(i & Hi & Hj & -> & Hne)].
  - left. split; [done|]. intros i Hi. rewrite <-Ha, <-Hb by lia. by apply Hall.
  - right. exists i. rewrite <-Ha, <-Hb by lia. split; [done|]. split; [|done].
    intros j Hj'. rewrite <-Ha, <-Hb by lia. by apply Hj.
Qed.

(** Both strings end here. *)
Lemma verdict_nil n : verdict (zth []) (zth []) n 0.
Proof. left. done. Qed.

(** The first character of a string, NUL included, and the rest. *)
Lemma cstr_head m p s : cstr m p s →
  load m p = Ret (zth s 0) ∧
  (zth s 0 = 0 ∧ s = [] ∨ zth s 0 ≠ 0 ∧ cstr m (p + 1) (tail s) ∧ (∀ i, 0 ≤ i → zth s (i + 1) = zth (tail s) i)).
Proof.
  destruct s as [|c s]; intros Hs.
  - rewrite (cstr_nil _ _ Hs). split; [done|]. by left.
  - apply cstr_cons in Hs as (-> & Hc & Hs). split; [done|]. right. split; [done|]. split; [done|].
    intros i Hi. by apply zth_cons_S.
Qed.

Lemma strncmp_loop_spec n : ∀ m p q a b, cstr m p a → cstr m q b →
  ∃ r, strncmp_loop n m p q = Ret r ∧ verdict (zth a) (zth b) (Z.of_nat n) r.
Proof.
  induction n as [|n IH]; intros m p q a b Ha Hb; cbn [strncmp_loop].
  { exists 0. split; [done|]. by apply verdict_end. }
  apply cstr_head in Ha as (-> & Ha). apply cstr_head in Hb as (-> & Hb). cbn [mbind outcome_bind].
  destruct (Z.eqb_spec (zth a 0) (zth b 0)) as [He|Hne].
  2:{ eexists. split; [done|]. apply verdict_diff; [lia|done]. }
  destruct (Z.eqb_spec (zth a 0) 0) as [H0|H0].
  - exists 0. split; [done|]. destruct Ha as [[_ ->]|[? _]]; [|done].
    destruct Hb as [[_ ->]|[? _]]; [apply verdict_nil|]. rewrite zth_nil in *. lia.
  - destruct Ha as [[? _]|(_ & Ha & Hta)]; [done|].
    destruct Hb as [[? _]|(_ & Hb & Htb)]; [lia|].
    destruct (IH m (p + 1) (q + 1) (tail a) (tail b)) as (r & -> & Hr); [done..|].
    exists r. split; [done|]. apply verdict_next; [done|].
    replace (Z.of_nat (S n) - 1) with (Z.of_nat n) by lia.
    eapply verdict_ext; [..|exact Hr]; intros; symmetry; auto.
Qed.

Lemma strcmp_loop_spec a : ∀ fuel m p q b, cstr m p a → cstr m q b → (length a < fuel)%nat →
  ∃ r, strcmp_loop fuel m p q = Ret r ∧ verdict (zth a) (zth b) (len a + 1) r.
Proof.
  induction a as [|c a IH]; intros [|fuel] m p q b Ha Hb Hf; cbn [length] in Hf; try lia;
    cbn [strcmp_loop].
  - rewrite (cstr_nil _ _ Ha). apply cstr_head in Hb as (-> & Hb). cbn [mbind outcome_bind].
    destruct (Z.eqb_spec 0 (zth b 0)) as [He|Hne].
    + exists 0. split; [done|]. destruct Hb as [[_ ->]|[? _]]; [apply verdict_nil|lia].
    + exists (0 - zth b 0). split; [done|]. apply (verdict_diff (zth []) (zth b)); [cbn; lia|done].
  - apply cstr_cons in Ha as (-> & Hc & Ha). apply cstr_head in Hb as (-> & Hb). cbn [mbind outcome_bind].
    destruct (Z.eqb_spec c (zth b 0)) as [He|Hne].
    2:{ eexists. split; [done|]. apply (verdict_diff (zth (c :: a)) (zth b)); [cbn [length]; lia|done]. }
    rewrite (proj2 (Z.eqb_neq c 0)) by done. destruct Hb as [[? _]|(_ & Hb & Htb)]; [lia|].
    destruct (IH fuel m (p + 1) (q + 1) (tail b) Ha Hb) as (r & -> & Hr); [lia|].
    exists r. split; [done|]. apply verdict_next; [done|]. rewrite len_cons.
    replace (len a + 1 + 1 - 1) with (len a + 1) by lia.
    eapply verdict_ext; [..|exact Hr]; intros; symmetry; [by apply zth_cons_S|auto].
Qed.

(** Agreeing up to and including the NUL is being the same string. *)
Lemma cstr_eq m p q a b : cstr m p a → cstr m q b →
  (∀ i, 0 ≤ i < len a + 1 → zth a i = zth b i) → a = b.
Proof.
  intros Ha Hb H. assert (len a = len b) as Hl.
  { pose proof (H (len a) ltac:(lia)) as H1. rewrite (zth_out a) in H1 by lia.
    symmetry in H1. rewrite (cstr_nonzero _ _ _ _ Hb) in H1 by lia.
    destruct (decide (len b < len a)) as [Hlt|]; [|lia].
    pose proof (H (len b) ltac:(lia)) as H2. rewrite (zth_out b) in H2 by lia.
    rewrite (cstr_nonzero _ _ _ _ Ha) in H2 by lia. lia. }
  apply zth_list_eq; [lia|]. intros i Hi. apply H. lia.
Qed.

Definition lower (c : Z) : Z := if is_upper c then c + 32 else c.

Lemma fold_case_eq c1 c2 : is_u8 c1 → is_u8 c2 → 
  let '(d1, d2) := if c1 =? c2 then (c1, c2) else fold_case c1 c2 in
  (d1 = d2 ↔ lower c1 = lower c2) ∧ (d1 = d2 → d1 = 0 ↔ c1 = 0).
Proof.
  intros H1 H2. unfold is_u8, fold_case, lower, is_upper, is_lower in *.
  destruct (Z.eqb_spec c1 c2) as [->|]; [tauto|].
  destruct (Z.leb_spec 65 c1), (Z.leb_spec c1 90), (Z.leb_spec 97 c2), (Z.leb_spec c2 122),
    (Z.leb_spec 97 c1), (Z.leb_spec c1 122), (Z.leb_spec 65 c2), (Z.leb_spec c2 90); cbn [andb]; lia.
Qed.

Lemma lower_zero c : is_u8 c → lower c = 0 ↔ c = 0.
Proof.
  intros Hc. unfold lower, is_upper, is_u8 in *.
  destruct (Z.leb_spec 65 c), (Z.leb_spec c 90); cbn [andb]; lia.
Qed.

Lemma strncasecmp_loop_spec n : ∀ m p q a b, Forall is_u8 a → Forall is_u8 b → cstr m p a → cstr m q b →
  ∃ r, strncasecmp_loop n m p q = Ret r ∧
    (r = 0 ↔ ∀ i, 0 ≤ i < Z.of_nat n → lower (zth a i) = lower (zth b i)).
Proof.
  induction n as [|n IH]; intros m p q a b Hua Hub Ha Hb; cbn [strncasecmp_loop].
  { exists 0. split; [done|]. split; [lia|done]. }
  apply cstr_head in Ha as (-> & Ha). apply cstr_head in Hb as (-> & Hb). cbn [mbind outcome_bind].
  assert (is_u8 0) as H00 by (unfold is_u8; lia).
  pose proof (zth_Forall is_u8 a 0 H00 Hua) as Hca. pose proof (zth_Forall is_u8 b 0 H00 Hub) as Hcb.
  pose proof (fold_case_eq _ _ Hca Hcb) as Hf.
  destruct (if zth a 0 =? zth b 0 then _ else _) as [d1 d2]. destruct Hf as [Hf Hf0].
  destruct (Z.eqb_spec d1 d2) as [He|Hne].
  2:{ exists (d1 - d2). split; [done|]. split; [lia|]. intros H. exfalso. apply Hne, Hf, H. lia. }
  destruct (Z.eqb_spec d1 0) as [H0|H0].
  - exists 0. split; [done|]. split; [intros _|done]. apply (Hf0 He) in H0.
    destruct Ha as [[_ ->]|[? _]]; [|done]. destruct Hb as [[_ ->]|(Hnz & _)]; [done|].
    apply Hf in He. symmetry in He. change (lower (zth [] 0)) with 0 in He.
    by rewrite (lower_zero _ Hcb) in He.
  - assert (zth a 0 ≠ 0) as Ha0 by (by rewrite <-(Hf0 He)).
    destruct Ha as [[? _]|(_ & Ha & Hta)]; [done|].
    destruct Hb as [[H1 _]|(_ & Hb & Htb)].
    { apply Hf in He. rewrite H1 in He. change (lower 0) with 0 in He. by rewrite (lower_zero _ Hca) in He. }
    destruct (IH m (p + 1) (q + 1) (tail a) (tail b)) as (r & -> & Hr); [..|done|done|].
    { destruct Hua; [apply Forall_nil_2|done]. }
    { destruct Hub; [apply Forall_nil_2|done]. }
    exists r. split; [done|]. rewrite Hr. split; intros H i Hi.
    + destruct (decide (i = 0)) as [->|]; [by apply Hf|].
      replace i with (i - 1 + 1) by lia. rewrite Hta, Htb by lia. apply H. lia.
    + rewrite <-Hta, <-Htb by lia. apply H. lia.
Qed.

(** *** Searching *)

(** [r] is the first (or no) index in [0 .. n - 1] with property [P]. *)
Definition first_index (P : Z → Prop) (n : Z) (r : option Z) : Prop :=
  match r with
  | Some i => 0 ≤ i < n ∧ P i ∧ ∀ j, 0 ≤ j < i → ¬ P j
  | None => ∀ j, 0 ≤ j < n → ¬ P j
  end.

(** [r] is the last (or no) such index. *)
Definition last_index (P : Z → Prop) (n : Z) (r : option Z) : Prop :=
  match r with
  | Some i => 0 ≤ i < n ∧ P i ∧ ∀ j, i < j < n → ¬ P j
  | None => ∀ j, 0 ≤ j < n → ¬ P j
  end.

(** The address of an index. *)
Definition at_ (p : Z) (r : option Z) : option Z := Z.add p <$> r.

Lemma first_index_here P n : 0 < n → P 0 → first_index P n (Some 0).
Proof. intros Hn HP. split; [lia|]. split; [done|]. lia. Qed.

Lemma first_index_next P n r : ¬ P 0 → first_index (λ i, P (i + 1)) (n - 1) r →
  first_index P n (Z.add 1 <$> r).
Proof.
  intros H0. assert (∀ k, 0 ≤ k → (∀ j, 0 ≤ j < k → ¬ P (j + 1)) → ∀ j, 0 ≤ j < k + 1 → ¬ P j) as Hs.
  { intros k Hk H j Hj. destruct (decide (j = 0)) as [->|]; [done|].
    replace j with (j - 1 + 1) by lia. apply H. lia. }
  destruct r as [i|]; cbn.
  - intros (Hi & HP & Hj). split; [lia|]. split; [by rewrite Z.add_comm|].
    rewrite Z.add_comm. apply Hs; [lia|done].
  - intros H j Hj. apply (Hs (n - 1)); [lia|done|lia].
Qed.

Lemma first_index_ext (P Q : Z → Prop) n r :
  (∀ i, 0 ≤ i < n → P i ↔ Q i) → first_index P n r → first_index Q n r.
Proof.
  intros HPQ. destruct r as [i|]; cbn.
  - intros (Hi & HP & Hj). split; [done|]. split; [by apply HPQ|]. intros j Hj'. rewrite <-HPQ by lia. by apply Hj.
  - intros H j Hj. rewrite <-HPQ by lia. by apply H.
Qed.

Lemma at_0 p : at_ p (Some 0) = Some p.
Proof. cbn. by rewrite Z.add_0_r. Qed.

Lemma at_next p r : at_ (p + 1) r = at_ p (Z.add 1 <$> r).
Proof. destruct r; cbn; [|done]. f_equal. lia. Qed.

Lemma strchr_loop_spec sgn c s : ∀ fuel m p, cstr m p s → (length s < fuel)%nat →
  ∃ r, strchr_loop fuel sgn m p c = Ret (at_ p r) ∧
    first_index (λ i, char_val sgn (zth s i) = c) (len s) r.
Proof.
  induction s as [|x s IH]; intros [|fuel] m p Hs Hf; cbn [length] in Hf; try lia; cbn [strchr_loop].
  - rewrite (cstr_nil _ _ Hs). exists None. split; [done|]. cbn. lia.
  - apply cstr_cons in Hs as (-> & Hx & Hs). cbn [mbind outcome_bind].
    rewrite (proj2 (Z.eqb_neq x 0)) by done. destruct (Z.eqb_spec (char_val sgn x) c) as [He|Hne].
    + exists (Some 0). rewrite at_0. split; [done|]. apply first_index_here; [rewrite len_cons; lia|done].
    + destruct (IH fuel m (p + 1)) as (r & -> & Hr); [done|lia|]. rewrite at_next.
      eexists. split; [done|]. apply first_index_next; [done|].
      replace (len (x :: s) - 1) with (len s) by (cbn; lia). eapply first_index_ext; [|exact Hr].
      intros i Hi. cbn. by rewrite zth_cons_S by lia.
Qed.

Lemma strrchr_loop_spec sgn c s : ∀ fuel m p t, cstr m p s → (length s < fuel)%nat →
  ∃ r, strrchr_loop fuel sgn m p c t = Ret (match r with Some i => Some (p + i) | None => t end) ∧
    last_index (λ i, char_val sgn (zth s i) = c) (len s) r.
Proof.
  induction s as [|x s IH]; intros [|fuel] m p t Hs Hf; cbn [length] in Hf; try lia; cbn [strrchr_loop].
  - rewrite (cstr_nil _ _ Hs). exists None. split; [done|]. cbn. lia.
  - apply cstr_cons in Hs as (-> & Hx & Hs). cbn [mbind outcome_bind].
    rewrite (proj2 (Z.eqb_neq x 0)) by done.
    destruct (IH fuel m (p + 1) (if char_val sgn x =? c then Some p else t)) as (r & -> & Hr); [done|lia|].
    destruct r as [i|]; cbn in Hr.
    + exists (Some (i + 1)). split; [do 2 f_equal; lia|]. destruct Hr as (Hi & HP & Hj). cbn.
      split; [lia|]. rewrite zth_cons_S by lia. split; [done|]. intros j Hj'.
      replace j with (j - 1 + 1) by lia. rewrite zth_cons_S by lia. apply Hj. lia.
    + assert (∀ j, 0 < j < len (x :: s) → char_val sgn (zth (x :: s) j) ≠ c) as Hs'.
      { intros j Hj. rewrite len_cons in Hj. replace j with (j - 1 + 1) by lia.
        rewrite zth_cons_S by lia. apply Hr. lia. }
      destruct (Z.eqb_spec (char_val sgn x) c) as [He|Hne].
      * exists (Some 0). split; [do 2 f_equal; lia|]. cbn. split; [lia|]. split; [done|]. exact Hs'.
      * exists None. split; [done|]. intros j Hj. destruct (decide (j = 0)) as [->|]; [done|].
        apply Hs'. lia.
Qed.

Lemma memchr_loop_spec c n : ∀ m p, inside m p (Z.of_nat n) →
  ∃ r, memchr_loop n m p c = Ret (at_ p r) ∧ first_index (λ i, zth m (p + i) = u8 c) (Z.of_nat n) r.
Proof.
  induction n as [|n IH]; intros m p [Hi Hl]; cbn [memchr_loop].
  { exists None. split; [done|]. cbn. lia. }
  rewrite load_zth by lia. cbn [mbind outcome_bind].
  destruct (Z.eqb_spec (zth m p) (u8 c)) as [He|Hne].
  - exists (Some 0). rewrite at_0. split; [done|]. apply first_index_here; [lia|].
    by rewrite Z.add_0_r.
  - destruct (IH m (p + 1)) as (r & -> & Hr); [split; lia|]. rewrite at_next. eexists. split; [done|].
    apply first_index_next; [by rewrite Z.add_0_r|].
    replace (Z.of_nat (S n) - 1) with (Z.of_nat n) by lia. eapply first_index_ext; [|exact Hr].
    intros i Hi'. cbn. by replace (p + (i + 1)) with (p + 1 + i) by lia.
Qed.

(** *** strnstr *)

Lemma cstr_drop m p s k : cstr m p s → 0 ≤ k ≤ len s → cstr m (p + k) (drop (Z.to_nat k) s).
Proof.
  intros ([Hp Hl] & Hs & Hz & Hn) Hk. unfold cstr. rewrite length_drop.
  split; [split; lia|]. split; [|split; [|by apply Forall_drop]].
  - intros i Hi. rewrite zth_drop by lia. rewrite <-Hs by lia. f_equal. lia.
  - rewrite <-Hz. f_equal. lia.
Qed.

Lemma strnstr_scan_spec m s h c (Hh : cstr m s h) (Hc : c ≠ 0) : ∀ slen a, 0 ≤ a ≤ len h →
  ∃ r, strnstr_scan slen m (s + a) c = Ret r ∧
    match r with
    | None => ∀ o, a ≤ o < a + Z.of_nat slen → zth h o ≠ c
    | Some (p, slen') => ∃ o, a ≤ o < len h ∧ p = s + o + 1 ∧ o + 1 + Z.of_nat slen' = a + Z.of_nat slen ∧
        zth h o = c ∧ ∀ o', a ≤ o' < o → zth h o' ≠ c
    end.
Proof.
  induction slen as [|slen IH]; intros a Ha; cbn [strnstr_scan].
  { exists None. split; [done|]. lia. }
  rewrite (cstr_load m s h a Hh) by lia. cbn [mbind outcome_bind].
  destruct (Z.eqb_spec (zth h a) 0) as [H0|H0].
  { exists None. split; [done|]. intros o Ho. apply (cstr_nonzero _ _ _ _ Hh) in H0; [|lia].
    by rewrite zth_out by lia. }
  assert (a < len h) as Hal.
  { destruct (decide (a < len h)); [done|]. by rewrite zth_out in H0 by lia. }
  destruct (Z.eqb_spec (zth h a) c) as [He|Hne].
  - exists (Some (s + a + 1, slen)). split; [done|]. exists a. split; [lia|]. split; [done|].
    split; [lia|]. split; [done|]. lia.
  - rewrite <-Z.add_assoc. destruct (IH (a + 1)) as (r & -> & Hr); [lia|]. exists r. split; [done|].
    assert (∀ P : Z → Prop, P a → ∀ b, (∀ o, a + 1 ≤ o < b → P o) → ∀ o, a ≤ o < b → P o) as Hext.
    { intros P HPa b HP o Ho. destruct (decide (o = a)) as [->|]; [done|]. apply HP. lia. }
    destruct r as [[p slen']|].
    + destruct Hr as (o & Ho & -> & Hsl & Hzo & Hno). exists o. split; [lia|]. split; [done|].
      split; [lia|]. split; [done|]. by apply (Hext (λ o', zth h o' ≠ c)).
    + apply (Hext (λ o', zth h o' ≠ c)); [done|]. intros o Ho. apply Hr. lia.
Qed.

(** The pattern [c :: f] occurs in [h] at [o]. *)
Definition occurs (h pat : list Z) (o : Z) : Prop := ∀ i, 0 ≤ i < len pat → zth h (o + i) = zth pat i.

Lemma occurs_cons h c f o : 0 ≤ o → occurs h (c :: f) o ↔
  zth h o = c ∧ ∀ i, 0 ≤ i < len f → zth (drop (Z.to_nat (o + 1)) h) i = zth f i.
Proof.
  intros Ho. unfold occurs. rewrite len_cons. split.
  - intros H. split; [specialize (H 0); rewrite Z.add_0_r in H; apply H; lia|].
    intros i Hi. rewrite zth_drop, <-(zth_cons_S c f i), <-H by lia. f_equal. lia.
  - intros [H0 H] i Hi. destruct (decide (i = 0)) as [->|]; [by rewrite Z.add_0_r|].
    replace i with (i - 1 + 1) by lia. rewrite zth_cons_S, <-H, zth_drop by lia. f_equal. lia.
Qed.

(** The first occurrence that starts at [a] or later and ends by [lim]. *)
Definition first_occurrence (h pat : list Z) (a lim : Z) (r : option Z) : Prop :=
  match r with
  | Some o => a ≤ o ∧ o + len pat ≤ lim ∧ occurs h pat o ∧ ∀ o', a ≤ o' < o → ¬ occurs h pat o'
  | None => ∀ o, a ≤ o → o + len pat ≤ lim → ¬ occurs h pat o
  end.

Lemma first_occurrence_skip h pat a b lim r : a ≤ b → (∀ o, a ≤ o < b → ¬ occurs h pat o) →
  first_occurrence h pat b lim r → first_occurrence h pat a lim r.
Proof.
  intros Hab Hno. destruct r as [o|]; cbn.
  - intros (Ho & Hl & Hocc & Hn). split; [lia|]. split; [done|]. split; [done|].
    intros o' Ho'. destruct (decide (o' < b)); [apply Hno; lia|apply Hn; lia].
  - intros H o Ho Hl. destruct (decide (o < b)); [apply Hno; lia|apply H; lia].
Qed.

Lemma strncmp_zero n : ∀ m p q a b, cstr m p a → cstr m q b → 0 ≤ n →
  ∃ d, strncmp m p q n = Ret d ∧ (d = 0 ↔ ∀ i, 0 ≤ i < n → zth a i = zth b i).
Proof.
  intros m p q a b Ha Hb Hn. unfold strncmp.
  destruct (strncmp_loop_spec (Z.to_nat n) m p q a b Ha Hb) as (r & -> & Hr).
  rewrite Z2Nat.id in Hr by done. exists r. split; [done|].
  destruct Hr as [(-> & Hall)|(i & Hi & _ & -> & Hne)]; [done|].
  split; [lia|]. intros H. specialize (H i Hi). lia.
Qed.

Lemma strnstr_loop_spec m s h find c f : cstr m s h → cstr m find f → c ≠ 0 →
  ∀ fuel slen a, (slen < fuel)%nat → 0 ≤ a ≤ len h →
  ∃ r, strnstr_loop fuel m (s + a) find c (len f) slen = Ret (at_ s r) ∧
    first_occurrence h (c :: f) a (a + Z.of_nat slen) r.
Proof.
  intros Hh Hf Hc. induction fuel as [|fuel IH]; intros slen a Hfu Ha; [lia|]. cbn [strnstr_loop].
  destruct (strnstr_scan_spec m s h c Hh Hc slen a Ha) as (r & -> & Hr). cbn [mbind outcome_bind].
  assert (∀ o', 0 ≤ o' → zth h o' ≠ c → ¬ occurs h (c :: f) o') as Hocc0.
  { intros o' Ho' Hne Hocc. apply occurs_cons in Hocc as [? _]; done. }
  destruct r as [[p slen']|].
  2:{ exists None. split; [done|]. intros o Ho Hl. rewrite len_cons in Hl. apply Hocc0, Hr; lia. }
  destruct Hr as (o & Ho & -> & Hsl & Hzo & Hno).
  assert (∀ o', a ≤ o' < o → ¬ occurs h (c :: f) o') as Hskip by (intros; apply Hocc0; auto; lia).
  destruct (Z.ltb_spec (Z.of_nat slen') (len f)) as [Hshort|Hlong].
  { exists None. split; [done|]. apply (first_occurrence_skip _ _ _ o); [lia|done|].
    intros o' Ho' Hl. rewrite len_cons in Hl. lia. }
  rewrite <-Z.add_assoc.
  destruct (strncmp_zero (len f) m (s + (o + 1)) find (drop (Z.to_nat (o + 1)) h) f) as (d & -> & Hd);
    [by apply cstr_drop; [|lia]|done|lia|]. cbn [mbind outcome_bind].
  destruct (Z.eqb_spec d 0) as [->|Hd0].
  - exists (Some o). split; [cbn; do 2 f_equal; lia|]. apply (first_occurrence_skip _ _ _ o); [lia|done|].
    unfold first_occurrence. rewrite len_cons. split; [lia|]. split; [lia|]. split; [|lia].
    apply occurs_cons; [lia|]. split; [done|]. by apply Hd.
  - destruct (IH slen' (o + 1)) as (r & -> & Hr); [lia|lia|]. exists r. split; [done|].
    apply (first_occurrence_skip _ _ _ (o + 1)); [lia| |by rewrite Hsl in Hr].
    intros o' Ho'. destruct (decide (o' = o)) as [->|]; [|apply Hskip; lia].
    intros [_ Hocc]%occurs_cons; [|lia]. by apply Hd0, Hd.
Qed.

(** *** Bit search *)

(** [r] is the number of the lowest set bit of [x], counted from 1. *)
Definition lowest_bit (x r : Z) : Prop := 1 ≤ r ∧ Z.testbit x (r - 1) = true ∧ x mod 2 ^ (r - 1) = 0.

(** One stage keeps [r * 2^bit = x]; afterwards [r] has a low bit set. *)
Lemma ffs_stage_spec x b bit r w : 0 ≤ bit → 0 < b → 0 < r < 2 ^ w → x = r * 2 ^ bit →
  (w = b + b ∨ r mod 2 ^ (b + b) ≠ 0) →
  ∃ bit' r', ffs_stage b (bit, r) = (bit', r') ∧ bit ≤ bit' ∧ 0 < r' < 2 ^ w ∧ x = r' * 2 ^ bit' ∧
    r' mod 2 ^ b ≠ 0.
Proof.
  intros Hbit Hb Hr Hx Hw. unfold ffs_stage. rewrite Z.land_ones by lia.
  assert (0 < 2 ^ b) as Hp by (apply Z.pow_pos_nonneg; lia).
  destruct (Z.eqb_spec (r mod 2 ^ b) 0) as [H0|H0].
  2:{ exists bit, r. split; [done|]. split; [lia|]. done. }
  rewrite Z.shiftr_div_pow2 by lia. pose proof (Z.div_mod r (2 ^ b) ltac:(lia)) as Hd. rewrite H0 in Hd.
  set (k := r / 2 ^ b) in *. assert (0 < k) by nia. assert (k ≤ r) by nia.
  exists (bit + b), k. split; [done|]. split; [lia|]. split; [lia|].
  split; [rewrite Hx, Hd, Z.pow_add_r by lia; lia|].
  destruct Hw as [->|Hw].
  - rewrite Z.pow_add_r in Hr by lia. rewrite Z.mod_small; [lia|]. nia.
  - intros Hk. apply Hw. rewrite Hd, Z.add_0_r, Z.pow_add_r by lia.
    rewrite Z.mul_mod_distr_l by lia. by rewrite Hk, Z.mul_0_r.
Qed.

Lemma lowest_bit_shift r bit t : 0 ≤ bit → lowest_bit r t → lowest_bit (r * 2 ^ bit) (bit + t).
Proof.
  intros Hbit (Ht & Hb & Hm). split; [lia|]. split.
  - rewrite <-Z.shiftl_mul_pow2, Z.shiftl_spec by lia. rewrite <-Hb. f_equal. lia.
  - replace (bit + t - 1) with ((t - 1) + bit) by lia. rewrite Z.pow_add_r by lia.
    rewrite Z.mul_mod_distr_r, Hm by (apply Z.pow_nonzero; lia). lia.
Qed.

Lemma ffs_table_spec r : 0 < r → r mod 2 ^ 4 ≠ 0 → ∃ t, load ffs_table (Z.land r 15) = Ret t ∧
  load ffsl_table (Z.land r 15) = Ret t ∧ lowest_bit r t.
Proof.
  intros Hr Hm. change (2 ^ 4) with 16 in *.
  assert (Z.land r 15 = r mod 16) as -> by exact (Z.land_ones r 4 ltac:(lia)).
  pose proof (Z.div_mod r 16 ltac:(lia)) as Hd. pose proof (Z.mod_pos_bound r 16 ltac:(lia)) as Hb.
  revert Hd Hb Hm. generalize (r / 16), (r mod 16). intros q k -> Hb Hk.
  assert (k = 1 ∨ k = 2 ∨ k = 3 ∨ k = 4 ∨ k = 5 ∨ k = 6 ∨ k = 7 ∨ k = 8 ∨ k = 9 ∨ k = 10 ∨ k = 11 ∨
    k = 12 ∨ k = 13 ∨ k = 14 ∨ k = 15) as Hc by lia. clear Hr Hb Hk.
  repeat destruct Hc as [-> |Hc]; try subst k.
  all: eexists; split; [reflexivity|]; split; [reflexivity|]; split; [lia|]; split;
    [apply Z.testbit_true; [lia|]|].
  all: match goal with |- context [2 ^ ?e] => let v := eval vm_compute in (2 ^ e) in change (2 ^ e) with v end.
  all: zmod.
Qed.

Lemma ffs_nonzero mask : 0 < u32 mask → ∃ r, ffs mask = Ret r ∧ lowest_bit (u32 mask) r.
Proof.
  intros Hm. pose proof (u32_range mask) as Hr. unfold is_u32 in Hr. unfold ffs.
  destruct (ffs_stage_spec (u32 mask) 16 0 (u32 mask) 32) as (b1 & r1 & -> & Hb1 & Hr1 & Hx1 & Hm1);
    [lia|lia|change (2 ^ 32) with M32; lia|lia|by left|].
  destruct (ffs_stage_spec (u32 mask) 8 b1 r1 32) as (b2 & r2 & -> & Hb2 & Hr2 & Hx2 & Hm2);
    [lia|lia|lia|done|by right|].
  destruct (ffs_stage_spec (u32 mask) 4 b2 r2 32) as (b3 & r3 & -> & Hb3 & Hr3 & Hx3 & Hm3);
    [lia|lia|lia|done|by right|].
  destruct (ffs_table_spec r3) as (t & -> & _ & Ht); [lia|done|]. cbn [mbind outcome_bind].
  exists (b3 + t). split; [done|]. rewrite Hx3. apply lowest_bit_shift; [lia|done].
Qed.

Lemma ffsl_nonzero mask : 0 < u64 mask → ∃ r, ffsl mask = Ret r ∧ lowest_bit (u64 mask) r.
Proof.
  intros Hm. pose proof (u64_range mask) as Hr. unfold is_u64 in Hr. unfold ffsl.
  destruct (ffs_stage_spec (u64 mask) 32 0 (u64 mask) 64) as (b0 & r0 & -> & Hb0 & Hr0 & Hx0 & Hm0);
    [lia|lia|change (2 ^ 64) with M64; lia|lia|by left|].
  destruct (ffs_stage_spec (u64 mask) 16 b0 r0 64) as (b1 & r1 & -> & Hb1 & Hr1 & Hx1 & Hm1);
    [lia|lia|lia|done|by right|].
  destruct (ffs_stage_spec (u64 mask) 8 b1 r1 64) as (b2 & r2 & -> & Hb2 & Hr2 & Hx2 & Hm2);
    [lia|lia|lia|done|by right|].
  destruct (ffs_stage_spec (u64 mask) 4 b2 r2 64) as (b3 & r3 & -> & Hb3 & Hr3 & Hx3 & Hm3);
    [lia|lia|lia|done|by right|].
  destruct (ffs_table_spec r3) as (t & _ & -> & Ht); [lia|done|]. cbn [mbind outcome_bind].
  exists (b3 + t). split; [done|]. rewrite Hx3. apply lowest_bit_shift; [lia|done].
Qed.

(** [r] is the number of the highest set bit of [x], counted from 1. *)
Definition highest_bit (x r : Z) : Prop := 1 ≤ r ∧ 2 ^ (r - 1) ≤ x < 2 ^ r.

Lemma fls_loop_spec wrap w : (∀ x, 0 ≤ x < 2 ^ w → wrap x = x) →
  ∀ fuel x bit, 0 < x < 2 ^ Z.of_nat fuel → x < 2 ^ w → 
  ∃ r, fls_loop fuel wrap x bit = Ret (bit + r - 1) ∧ highest_bit x r.
Proof.
  intros Hw. induction fuel as [|fuel IH]; intros x bit Hx Hxw; cbn [fls_loop]; [cbn in Hx; lia|].
  destruct (Z.eqb_spec x 1) as [->|Hx1].
  { exists 1. split; [f_equal; lia|]. unfold highest_bit. cbn. lia. }
  rewrite Hw, Z.shiftr_div_pow2 by lia. change (2 ^ 1) with 2.
  rewrite Nat2Z.inj_succ, Z.pow_succ_r in Hx by lia.
  assert (0 < x / 2 < 2 ^ Z.of_nat fuel) as Hh by zmod. assert (x / 2 < 2 ^ w) by zmod.
  destruct (IH (x / 2) (bit + 1)) as (r & -> & Hr1 & Hr2); [done..|].
  exists (r + 1). split; [f_equal; lia|]. split; [lia|].
  replace (r + 1 - 1) with (Z.succ (r - 1)) by lia. replace (r + 1) with (Z.succ r) by lia.
  rewrite !Z.pow_succ_r by lia. zmod.
Qed.

(** A negative mask is one iteration of the unsigned loop. *)
Lemma fls_unfold wrap mask w : 0 < w → (∀ x, 0 ≤ wrap x < 2 ^ w) → (∀ x, 0 ≤ x < 2 ^ w → wrap x = x) →
  (0 ≤ mask < 2 ^ w ∨ mask < 0) → wrap mask ≠ 0 → (mask < 0 → 2 ≤ wrap mask) →
  ∃ r, fls_loop (S (Z.to_nat w)) wrap mask 1 = Ret r ∧ highest_bit (wrap mask) r.
Proof.
  intros Hw Hrange Hsmall Hm Hnz Hneg. specialize (Hrange mask).
  assert (mask = 1 ∨ (mask ≠ 1 ∧ 2 ≤ wrap mask)) as [->|[H1 H2]].
  { destruct Hm as [Hm|Hm]; [|right; specialize (Hneg Hm); lia].
    rewrite Hsmall in * by done. lia. }
  { exists 1. split; [done|]. assert (2 ^ 1 ≤ 2 ^ w) by (apply Z.pow_le_mono_r; lia).
    rewrite Hsmall by (cbn in *; lia). unfold highest_bit. cbn. lia. }
  cbn [fls_loop]. rewrite (proj2 (Z.eqb_neq mask 1)) by done.
  rewrite Z.shiftr_div_pow2 by lia. change (2 ^ 1) with 2.
  assert (0 < wrap mask / 2 < 2 ^ w) as Hh by zmod.
  destruct (fls_loop_spec wrap w Hsmall (Z.to_nat w) (wrap mask / 2) (1 + 1)) as (r & -> & Hr1 & Hr2);
    [by rewrite Z2Nat.id by lia|lia|].
  exists (r + 1). split; [f_equal; lia|]. split; [lia|].
  replace (r + 1 - 1) with (Z.succ (r - 1)) by lia. replace (r + 1) with (Z.succ r) by lia.
  rewrite !Z.pow_succ_r by lia. zmod.
Qed.

Lemma fls_i32 mask : is_i32 mask → mask ≠ 0 → ∃ r, fls mask = Ret r ∧ highest_bit (u32 mask) r.
Proof.
  intros Hm H0. unfold fls, is_i32 in *. rewrite (proj2 (Z.eqb_neq mask 0)) by done.
  apply (fls_unfold u32 mask 32); try lia; unfold u32; change (2 ^ 32) with M32.
  - intros x. zmod.
  - intros x Hx. by rewrite Z.mod_small.
  - zmod.
  - intros. zmod.
Qed.

Lemma flsl_i64 mask : is_i64 mask → mask ≠ 0 → ∃ r, flsl mask = Ret r ∧ highest_bit (u64 mask) r.
Proof.
  intros Hm H0. unfold flsl, is_i64 in *. rewrite (proj2 (Z.eqb_neq mask 0)) by done.
  apply (fls_unfold u64 mask 64); try lia; unfold u64; change (2 ^ 64) with M64.
  - intros x. zmod.
  - intros x Hx. by rewrite Z.mod_small.
  - zmod.
  - intros. zmod.
Qed.

(** *** Memory comparison *)

(** Equality of blocks, read byte by byte. *)
Definition same_block (m : list Z) (p q n : Z) : Prop := ∀ i, 0 ≤ i < n → zth m (p + i) = zth m (q + i).

Lemma same_block_next m p q n : zth m p = zth m q → 
  same_block m (p + 1) (q + 1) n ↔ same_block m p q (n + 1).
Proof.
  intros H0. split; intros H i Hi.
  - destruct (decide (i = 0)) as [->|]; [by rewrite !Z.add_0_r|].
    replace (p + i) with (p + 1 + (i - 1)) by lia. replace (q + i) with (q + 1 + (i - 1)) by lia.
    apply H. lia.
  - rewrite <-!Z.add_assoc. rewrite (Z.add_comm 1). apply H. lia.
Qed.

Lemma same_block_head m p q n : 0 ≤ n → same_block m p q (n + 1) → zth m p = zth m q.
Proof. intros Hn H. specialize (H 0). rewrite !Z.add_0_r in H. apply H. lia. Qed.

Lemma memcmp_loop_spec n : ∀ m p q, inside m p (Z.of_nat n) → inside m q (Z.of_nat n) →
  ∃ r, memcmp_loop n m p q = Ret r ∧
    verdict (λ i, zth m (p + i)) (λ i, zth m (q + i)) (Z.of_nat n) r.
Proof.
  induction n as [|n IH]; intros m p q [Hp Hpl] [Hq Hql]; cbn [memcmp_loop].
  { exists 0. split; [done|]. by apply verdict_end. }
  rewrite !load_zth by lia. cbn [mbind outcome_bind]. destruct (Z.eqb_spec (zth m p) (zth m q)) as [He|Hne].
  - destruct (IH m (p + 1) (q + 1)) as (r & -> & Hr); [split; lia..|]. exists r. split; [done|].
    apply verdict_next; [by rewrite !Z.add_0_r|]. replace (Z.of_nat (S n) - 1) with (Z.of_nat n) by lia.
    eapply verdict_ext; [..|exact Hr]; intros i Hi; cbn; f_equal; lia.
  - exists (zth m p - zth m q). split; [done|].
    pose proof (verdict_diff (λ i, zth m (p + i)) (λ i, zth m (q + i)) (Z.of_nat (S n))) as Hv.
    cbv beta in Hv. rewrite !Z.add_0_r in Hv. apply Hv; [lia|done].
Qed.

Lemma bcmp_loop_spec n : ∀ m p q, inside m p (Z.of_nat n) → inside m q (Z.of_nat n) →
  ∃ r, bcmp_loop n m p q = Ret r ∧ (r = 0 ∧ same_block m p q (Z.of_nat n) ∨ r = 1 ∧ ¬ same_block m p q (Z.of_nat n)).
Proof.
  induction n as [|n IH]; intros m p q [Hp Hpl] [Hq Hql]; cbn [bcmp_loop].
  { exists 0. split; [done|]. left. split; [done|]. intros i Hi. lia. }
  rewrite !load_zth by lia. cbn [mbind outcome_bind].
  replace (Z.of_nat (S n)) with (Z.of_nat n + 1) by lia.
  destruct (Z.eqb_spec (zth m p) (zth m q)) as [He|Hne].
  - destruct (IH m (p + 1) (q + 1)) as (r & -> & Hr); [split; lia..|]. exists r. split; [done|].
    by rewrite same_block_next in Hr.
  - exists 1. split; [done|]. right. split; [done|]. intros H%same_block_head; [done|lia].
Qed.

Lemma lor_zero_iff x y : Z.lor x y = 0 ↔ x = 0 ∧ y = 0.
Proof. apply Z.lor_eq_0_iff. Qed.

Lemma timingsafe_loop_spec n : ∀ m p q acc, inside m p (Z.of_nat n) → inside m q (Z.of_nat n) →
  ∃ r, timingsafe_loop n m p q acc = Ret r ∧ (r = 0 ↔ acc = 0 ∧ same_block m p q (Z.of_nat n)).
Proof.
  induction n as [|n IH]; intros m p q acc [Hp Hpl] [Hq Hql]; cbn [timingsafe_loop].
  { exists acc. split; [done|]. split; [|naive_solver]. intros ->. split; [done|]. intros i Hi. lia. }
  rewrite !load_zth by lia. cbn [mbind outcome_bind].
  replace (Z.of_nat (S n)) with (Z.of_nat n + 1) by lia.
  destruct (IH m (p + 1) (q + 1) (Z.lor acc (Z.lxor (zth m p) (zth m q)))) as (r & -> & Hr); [split; lia..|].
  exists r. split; [done|]. rewrite Hr, lor_zero_iff, Z.lxor_eq_0_iff. split.
  - intros [[Ha He] Hs]. split; [done|]. by rewrite <-same_block_next.
  - intros [Ha Hs]. pose proof (same_block_head _ _ _ (Z.of_nat n) ltac:(lia) Hs).
    split; [done|]. by rewrite same_block_next.
Qed.

(** ** Properties *)

(** C34: [bcopy] (word at a time, with its alignment prologue and its tail, in
    the direction the overlap requires) and [memmove] (byte at a time) do the
    same thing: for blocks inside memory, whatever their overlap and
    alignment, the destination receives what the source held before the call
    and nothing else changes.  No word access is misaligned and no counted
    loop starts at zero. *)
Theorem bcopy_memmove_spec m src dst n (Hn : 0 ≤ n) (Hd : inside m dst n) (Hs : inside m src n) :
  bcopy m src dst n = block_copy m dst src n ∧ memmove m dst src n = block_copy m dst src n.
Proof.
  destruct (bcopy_upd m src dst n Hn Hd Hs) as (m1 & -> & H1).
  destruct (memmove_upd m dst src n Hn Hd Hs) as (m2 & -> & H2).
  by rewrite (block_copy_upd m m1), (upd_unique _ _ _ _ _ H1 H2).
Qed.

Lemma bcopy_memmove_spec_witness :
  bcopy (seqZ 0 40) 3 11 20 = Ret (seqZ 0 11 ++ seqZ 3 20 ++ seqZ 31 9) ∧
  memmove (seqZ 0 40) 3 11 20 = Ret (seqZ 0 3 ++ seqZ 11 20 ++ seqZ 23 17).
Proof.
  assert (∀ p, p = 3 ∨ p = 11 → inside (seqZ 0 40) p 20) as Hi by (intros p [-> | ->]; split; vm_compute; discriminate).
  split.
  - refine (eq_trans (proj1 (bcopy_memmove_spec (seqZ 0 40) 3 11 20 _ _ _)) _); [lia|auto..|reflexivity].
  - refine (eq_trans (proj2 (bcopy_memmove_spec (seqZ 0 40) 11 3 20 _ _ _)) _); [lia|auto..|reflexivity].
Defined.

(** [memset] (bytes up to a word boundary, whole words of the repeated
    byte, trailing bytes) and [bzero] fill exactly the block with the low byte
    of their argument, at every alignment and length, with aligned word
    stores only. *)
Theorem memset_spec m dst c n (Hn : 0 ≤ n) (Hd : inside m dst n) :
  memset m dst c n = mem_write m dst (replicate (Z.to_nat n) (u8 c)) ∧
  bzero m dst n = mem_write m dst (replicate (Z.to_nat n) 0).
Proof.
  assert (∀ x, inside m dst (len (replicate (Z.to_nat n) (x : Z)))) as Hl
    by (intros x; by rewrite length_replicateZ).
  split.
  - destruct (memset_upd m dst c n Hn Hd) as (m' & -> & Hu). by rewrite (upd_mem_write m m').
  - unfold bzero. rewrite bzero_loop_fill. destruct (fill_bytes_spec 0 n m dst Hn Hd) as (m' & -> & Hu).
    change (u8 0) with 0 in Hu. by rewrite (upd_mem_write m m').
Qed.

Lemma memset_spec_witness :
  memset (seqZ 0 24) 3 (-1) 19 = Ret (seqZ 0 3 ++ replicate 19 255 ++ seqZ 22 2) ∧
  bzero (seqZ 0 5) 1 2 = Ret [0; 0; 0; 3; 4].
Proof.
  split.
  - refine (eq_trans (proj1 (memset_spec (seqZ 0 24) 3 (-1) 19 _ _)) _);
      [lia|split; vm_compute; discriminate|reflexivity].
  - refine (eq_trans (proj2 (memset_spec (seqZ 0 5) 1 7 2 _ _)) _);
      [lia|split; vm_compute; discriminate|reflexivity].
Defined.

(** [strlcpy] copies as much of the source string as fits in [dsize - 1]
    bytes, always terminates the result when [dsize] is not 0, writes nothing
    else, and returns the length of the source. *)
Theorem strlcpy_spec m dst src dsize s (Hs : cstr m src s) (Hd : 0 ≤ dsize)
    (Hi : inside m dst (len (copied dsize s)))
    (Hdj : disjoint dst (len (copied dsize s)) src (len s + 1)) :
  strlcpy m dst src dsize = (m' ← mem_write m dst (copied dsize s); Ret (m', len s)).
Proof.
  destruct (strlcpy_upd m dst src dsize s Hs Hd Hi Hdj) as (m' & -> & Hu).
  by rewrite (upd_mem_write m m').
Qed.

(** A string at a position of a concrete memory, by computation. *)
Lemma cstr_intro m p s : inside m p (len s + 1) → bytes m p (len s + 1) = s ++ [0] →
  Forall (λ c, c ≠ 0) s → cstr m p s.
Proof.
  intros Hi Hb Hn. split; [done|].
  assert (∀ i, 0 ≤ i < len s + 1 → zth m (p + i) = zth (s ++ [0]) i) as Hz
    by (intros i Hii; by rewrite <-Hb, zth_bytes by lia).
  split; [|split; [|done]].
  - intros i Hii. rewrite Hz, zth_app, bool_decide_true by lia. done.
  - rewrite Hz, zth_app, bool_decide_false, Z.sub_diag by lia. done.
Qed.

Ltac concrete_cstr := apply cstr_intro;
  [split; vm_compute; discriminate|reflexivity|repeat constructor; discriminate].

Lemma strlcpy_spec_witness :
  strlcpy [97; 98; 99; 0; 1; 1; 1; 1] 4 0 3 = Ret ([97; 98; 99; 0; 97; 98; 0; 1], 3) ∧
  strlcpy [97; 98; 99; 0; 1; 1; 1; 1] 4 0 0 = Ret ([97; 98; 99; 0; 1; 1; 1; 1], 3).
Proof.
  assert (cstr [97; 98; 99; 0; 1; 1; 1; 1] 0 [97; 98; 99]) as Hs by concrete_cstr.
  split.
  - rewrite (strlcpy_spec _ 4 0 3 [97; 98; 99] Hs); [reflexivity|lia| |];
      [split; vm_compute; discriminate|right; vm_compute; discriminate].
  - rewrite (strlcpy_spec _ 4 0 0 [97; 98; 99] Hs); [reflexivity|lia| |];
      [split; vm_compute; discriminate|right; vm_compute; discriminate].
Defined.

(** [strlcat], whose destination holds [d] characters before its first
    NUL (or [d = dsize] bytes without one), appends as much of the source as
    the remaining space holds, terminated, and returns [d] plus the length of
    the source; a full destination is left alone. *)
Theorem strlcat_spec m dst src dsize s d (Hs : cstr m src s) (Hd : 0 ≤ dsize)
    (Hdl : dst_length m dst dsize d)
    (Hdj : disjoint (dst + d) (Z.min (dsize - d) (len s + 1)) src (len s + 1)) :
  strlcat m dst src dsize =
    (m' ← mem_write m (dst + d) (copied (dsize - d) s); Ret (m', d + len s)).
Proof.
  destruct (strlcat_upd m dst src dsize s d Hs Hd Hdl Hdj) as (m' & -> & Hu).
  destruct Hdl as ([Hi Hil] & Hdd & _).
  rewrite (upd_mem_write m m'); [done| |done]. rewrite len_copied by lia. split; lia.
Qed.

Lemma strlcat_spec_witness :
  strlcat [97; 98; 99; 0; 122; 0; 1; 1] 4 0 4 = Ret ([97; 98; 99; 0; 122; 97; 98; 0], 4).
Proof.
  assert (cstr [97; 98; 99; 0; 122; 0; 1; 1] 0 [97; 98; 99]) as Hs by concrete_cstr.
  rewrite (strlcat_spec _ 4 0 4 [97; 98; 99] 1 Hs); [reflexivity|lia| |].
  - split; [split; vm_compute; discriminate|]. split; [lia|]. split; [|reflexivity].
    intros i Hi. assert (i = 0) as -> by lia. discriminate.
  - right. vm_compute. discriminate.
Defined.

(** [strncpy] writes exactly [n] bytes: the source string, cut at [n],
    padded with NULs; it returns [dst]. *)
Theorem strncpy_spec m dst src n s (Hs : cstr m src s) (Hn : 0 ≤ n)
    (Hi : inside m dst n) (Hdj : disjoint dst n src (len s + 1)) :
  strncpy m dst src n = (m' ← mem_write m dst (padded (Z.to_nat n) s); Ret (m', dst)).
Proof.
  unfold strncpy. rewrite <-(Z2Nat.id n Hn) in Hi, Hdj.
  destruct (strncpy_loop_spec (Z.to_nat n) m dst src s Hs Hi Hdj) as (m' & -> & Hu).
  rewrite (upd_mem_write m m'); [done| |done]. by rewrite length_padded.
Qed.

Lemma strncpy_spec_witness :
  strncpy [97; 98; 0; 9; 1; 1; 1; 1] 4 0 4 = Ret ([97; 98; 0; 9; 97; 98; 0; 0], 4).
Proof.
  assert (cstr [97; 98; 0; 9; 1; 1; 1; 1] 0 [97; 98]) as Hs by concrete_cstr.
  rewrite (strncpy_spec _ 4 0 4 [97; 98] Hs); [reflexivity|lia| |].
  - split; vm_compute; discriminate.
  - right. vm_compute. discriminate.
Defined.

(** string comparison.  [strcmp] and [strncmp] return the difference of
    the first characters that differ (the NUL counts), and 0 exactly when the
    strings, or their first [n] characters, are the same; [strncasecmp]
    returns 0 exactly when they are the same up to ASCII case. *)
Theorem string_compare_spec m p q a b n (Ha : cstr m p a) (Hb : cstr m q b) (Hn : 0 ≤ n)
    (Hua : Forall is_u8 a) (Hub : Forall is_u8 b) :
  (∃ r, strcmp m p q = Ret r ∧ verdict (zth a) (zth b) (len a + 1) r ∧ (r = 0 ↔ a = b)) ∧
  (∃ r, strncmp m p q n = Ret r ∧ verdict (zth a) (zth b) n r) ∧
  (∃ r, strncasecmp m p q n = Ret r ∧
        (r = 0 ↔ ∀ i, 0 ≤ i < n → lower (zth a i) = lower (zth b i))).
Proof.
  split; [|split].
  - destruct (strcmp_loop_spec a (S (length m)) m p q b Ha Hb) as (r & Hr & Hv); [by eapply cstr_length|].
    exists r. split; [done|]. split; [done|]. split.
    + intros ->. destruct Hv as [(_ & Hall)|(i & _ & _ & _ & Hne)]; [|done]. by eapply cstr_eq.
    + intros <-. destruct Hv as [(-> & _)|(i & _ & _ & -> & Hne)]; [done|lia].
  - unfold strncmp. destruct (strncmp_loop_spec (Z.to_nat n) m p q a b Ha Hb) as (r & Hr & Hv).
    rewrite Z2Nat.id in Hv by done. by exists r.
  - unfold strncasecmp. destruct (strncasecmp_loop_spec (Z.to_nat n) m p q a b Hua Hub Ha Hb) as (r & Hr & Hv).
    rewrite Z2Nat.id in Hv by done. by exists r.
Qed.

Lemma string_compare_spec_witness :
  ∃ r, strcmp [97; 98; 0; 65; 98; 0] 0 3 = Ret r ∧ verdict (zth [97; 98]) (zth [65; 98]) 3 r ∧
       (r = 0 ↔ [97; 98] = [65; 98]).
Proof.
  refine (proj1 (string_compare_spec [97; 98; 0; 65; 98; 0] 0 3 [97; 98] [65; 98] 2 _ _ _ _ _));
    [concrete_cstr|concrete_cstr|lia|..]; repeat constructor; unfold is_u8; lia.
Defined.

(** [strnstr] finds the first occurrence of the pattern that lies within
    the first [slen] characters of the string, and returns NULL exactly when
    there is none; the empty pattern is found at once. *)
Theorem strnstr_spec m s find slen h f (Hh : cstr m s h) (Hf : cstr m find f) (Hn : 0 ≤ slen) :
  ∃ r, strnstr m s find slen = Ret (at_ s r) ∧
    (if bool_decide (f = []) then r = Some 0 else first_occurrence h f 0 slen r).
Proof.
  unfold strnstr. destruct f as [|c f].
  - rewrite (cstr_nil _ _ Hf). cbn [mbind outcome_bind Z.eqb]. exists (Some 0). by rewrite at_0.
  - apply cstr_cons in Hf as (-> & Hc & Hf). cbn [mbind outcome_bind].
    rewrite (proj2 (Z.eqb_neq c 0)), (strlen_cstr _ _ _ Hf) by done. cbn [mbind outcome_bind].
    destruct (strnstr_loop_spec m s h (find + 1) c f Hh Hf Hc (S (Z.to_nat slen)) (Z.to_nat slen) 0)
      as (r & E & Hr); [lia..|]. rewrite Z.add_0_r in E. exists r. split; [done|].
    rewrite bool_decide_false by done. by rewrite Z2Nat.id in Hr by done.
Qed.

Lemma strnstr_spec_witness :
  ∃ r, strnstr [97; 98; 98; 0; 98; 98; 0] 0 4 3 = Ret (at_ 0 r) ∧
       first_occurrence [97; 98; 98] [98; 98] 0 3 r.
Proof.
  refine (strnstr_spec [97; 98; 98; 0; 98; 98; 0] 0 4 3 [97; 98; 98] [98; 98] _ _ _);
    [concrete_cstr|concrete_cstr|lia].
Defined.

(** the searches.  [strlen] is the length; [strchr] and [strrchr] return
    the first and the last position whose character, as the [char] of the
    machine, equals [c], or NULL; [memchr] the first byte equal to the low
    byte of [c] among [n], or NULL. *)
Theorem string_search_spec sgn m p s c q n (Hs : cstr m p s) (Hn : 0 ≤ n) (Hq : inside m q n) :
  strlen m p = Ret (len s) ∧
  (∃ r, strchr sgn m p c = Ret (at_ p r) ∧
        first_index (λ i, char_val sgn (zth s i) = c) (len s) r) ∧
  (∃ r, strrchr sgn m p c = Ret (at_ p r) ∧
        last_index (λ i, char_val sgn (zth s i) = c) (len s) r) ∧
  (∃ r, memchr m q c n = Ret (at_ q r) ∧ first_index (λ i, zth m (q + i) = u8 c) n r).
Proof.
  split; [by apply strlen_cstr|]. split; [|split].
  - apply strchr_loop_spec; [done|by eapply cstr_length].
  - destruct (strrchr_loop_spec sgn c s (S (length m)) m p None Hs) as (r & E & Hr);
      [by eapply cstr_length|]. exists r. split; [|done]. unfold strrchr. rewrite E. by destruct r.
  - rewrite <-(Z2Nat.id n Hn) in Hq.
    destruct (memchr_loop_spec c (Z.to_nat n) m q Hq) as (r & E & Hr). rewrite Z2Nat.id in Hr by done.
    by exists r.
Qed.

Lemma string_search_spec_witness : strlen [97; 98; 97; 0] 0 = Ret 3.
Proof.
  refine (proj1 (string_search_spec true [97; 98; 97; 0] 0 [97; 98; 97] 97 0 4 _ _ _));
    [concrete_cstr|lia|split; vm_compute; discriminate].
Defined.

(** memory comparison.  [memcmp] gives the difference of the first bytes
    that differ, [bcmp] and the constant-time [timingsafe_bcmp] (which reads
    every byte of both blocks) give 0 exactly when the blocks are equal and 1
    otherwise. *)
Theorem memory_compare_spec m p q n (Hn : 0 ≤ n) (Hp : inside m p n) (Hq : inside m q n) :
  (∃ r, memcmp m p q n = Ret r ∧ verdict (λ i, zth m (p + i)) (λ i, zth m (q + i)) n r) ∧
  (∃ r, bcmp m p q n = Ret r ∧ timingsafe_bcmp m p q n = Ret r ∧
        (r = 0 ∧ bytes m p n = bytes m q n ∨ r = 1 ∧ bytes m p n ≠ bytes m q n)).
Proof.
  rewrite <-(Z2Nat.id n Hn) in Hp, Hq. split.
  - destruct (memcmp_loop_spec (Z.to_nat n) m p q Hp Hq) as (r & E & Hr).
    rewrite Z2Nat.id in Hr by done. by exists r.
  - destruct (bcmp_loop_spec (Z.to_nat n) m p q Hp Hq) as (r & E & Hr).
    destruct (timingsafe_loop_spec (Z.to_nat n) m p q 0 Hp Hq) as (t & Et & Ht).
    rewrite Z2Nat.id in Hr, Ht by done.
    assert (bytes m p n = bytes m q n ↔ same_block m p q n) as Hbs.
    { split.
      - intros He i Hi. rewrite <-(zth_bytes m p n), <-(zth_bytes m q n) by done. by rewrite He.
      - intros Hb. unfold bytes. apply zth_list_eq; [by rewrite !length_fmap, !length_seqZ|].
        intros i Hi. rewrite length_fmap, length_seqZ in Hi. rewrite !zth_seqZ by lia. apply Hb. lia. }
    exists r. split; [done|]. unfold timingsafe_bcmp. rewrite Et. cbn [mbind outcome_bind].
    rewrite Hbs. destruct (Z.eqb_spec t 0) as [->|Hne].
    + destruct Hr as [[-> _]|[_ Hr]]; [by split; [|left; split; [|apply Ht]]|]. exfalso. by apply Hr, Ht.
    + destruct Hr as [[_ Hr]|[-> Hr]]; [|by split; [|right]]. exfalso. by apply Hne, Ht.
Qed.

Lemma memory_compare_spec_witness :
  ∃ r, bcmp [1; 2; 1; 3] 0 2 2 = Ret r ∧ timingsafe_bcmp [1; 2; 1; 3] 0 2 2 = Ret r ∧
    (r = 0 ∧ [1; 2] = [1; 3] ∨ r = 1 ∧ [1; 2] ≠ [1; 3]).
Proof.
  refine (proj2 (memory_compare_spec [1; 2; 1; 3] 0 2 2 _ _ _)); [lia|split; vm_compute; discriminate..].
Defined.

(** [ffs] and [__ctzdi2] locate the lowest set bit by halving and a
    16-entry table, [fls] and [flsl] the highest by shifting; 0 when there is
    none. *)
Theorem bit_search_spec (mask : Z) (lmask : Z) (H32 : is_i32 mask) (H64 : is_i64 lmask) :
  (∃ r, ffs mask = Ret r ∧ if mask =? 0 then r = 0 else lowest_bit (u32 mask) r) ∧
  (∃ r, fls mask = Ret r ∧ if mask =? 0 then r = 0 else highest_bit (u32 mask) r) ∧
  (∃ r, flsl lmask = Ret r ∧ if lmask =? 0 then r = 0 else highest_bit (u64 lmask) r) ∧
  (∃ r, __ctzdi2 lmask = Ret r ∧ if lmask =? 0 then r = 0 else lowest_bit (u64 lmask) (r + 1)).
Proof.
  assert (∀ x, is_i32 x → x ≠ 0 → 0 < u32 x) as Hu32 by (intros x Hx H0; unfold is_i32, u32 in *; zmod).
  assert (∀ x, is_i64 x → x ≠ 0 → 0 < u64 x) as Hu64 by (intros x Hx H0; unfold is_i64, u64 in *; zmod).
  split; [|split; [|split]].
  - destruct (Z.eqb_spec mask 0) as [->|Hm]; [by exists 0|]. by apply ffs_nonzero, Hu32.
  - destruct (Z.eqb_spec mask 0) as [->|Hm]; [by exists 0|]. by apply fls_i32.
  - destruct (Z.eqb_spec lmask 0) as [->|Hm]; [by exists 0|]. by apply flsl_i64.
  - unfold __ctzdi2. destruct (Z.eqb_spec lmask 0) as [->|Hm]; [by exists 0|].
    destruct (ffsl_nonzero lmask) as (r & -> & Hr); [by apply Hu64|]. cbn [mbind outcome_bind].
    exists (r - 1). split; [done|]. by rewrite Z.sub_add.
Qed.

Lemma bit_search_spec_witness :
  ∃ r, ffs (-2147483648) = Ret r ∧ lowest_bit (u32 (-2147483648)) r.
Proof.
  refine (proj1 (bit_search_spec (-2147483648) 5 _ _)); unfold is_i32, is_i64; lia.
Defined.
