(* ===== verification/Blist.v ===== *)
(** Bitmap radix trees: sys/kern/subr_blist.c and sys/sys/blist.h, the
    allocator of swap blocks.  The tree is one array of [blmeta_t]; a node is
    an index into it, its children stand [next_skip] entries apart behind it,
    and the first child past the end of the blocks is a terminator.  A meta
    node that is all free or all allocated says so in its count alone: what
    stands below it is stale.  The tree is proved to represent a set of free
    blocks, on which the operations act as their comments say. *)

From S2P Require Import Prelude RangeAllocator.

(** ** sys/blist.h *)

Definition SWAPBLK_NONE : Z := 18446744073709551615.
Definition BLIST_META_RADIX : Z := 32.
Definition BLIST_BMAP_RADIX : Z := 64.
Definition BLIST_MAXBLKS : Z := 0x4000000000000000 / (BLIST_BMAP_RADIX / BLIST_META_RADIX).

(** [bmu] is the union of the number of free blocks below a meta node and of
    the bitmap of a leaf. *)
Record blmeta := Blmeta { bmu : Z; bm_bighint : Z }.

Record blist := Blist {
  bl_blocks : Z;
  bl_radix : Z;
  bl_skip : Z;
  bl_free : Z;
  bl_root : list blmeta;
  bl_rootblks : Z;
}.

Definition set_root (root : list blmeta) (bl : blist) : blist :=
  Blist (bl_blocks bl) (bl_radix bl) (bl_skip bl) (bl_free bl) root (bl_rootblks bl).
Definition set_free (n : Z) (bl : blist) : blist :=
  Blist (bl_blocks bl) (bl_radix bl) (bl_skip bl) n (bl_root bl) (bl_rootblks bl).

(** Assignments through [scan]. *)
Definition set_bmu (m : list blmeta) (p v : Z) : outcome (list blmeta) :=
  e ← load m p; store m p (Blmeta v (bm_bighint e)).
Definition set_bighint (m : list blmeta) (p v : Z) : outcome (list blmeta) :=
  e ← load m p; store m p (Blmeta (bmu e) v).

(** Shifts of [u_swblk_t]. *)
Definition shl64 (x n : Z) : outcome Z :=
  if bool_decide (0 ≤ n < 64) then Ret (u64 (Z.shiftl x n)) else Fault ShiftTooWide.
Definition shr64 (x n : Z) : outcome Z :=
  if bool_decide (0 ≤ n < 64) then Ret (Z.shiftr x n) else Fault ShiftTooWide.

(** ** Leaves *)

(** [while (j)] of the allocation of one block. *)
Fixpoint leaf_find1 (fuel : nat) (orig mask j r : Z) : outcome Z :=
  match fuel with
  | O => Fault OutOfFuel
  | S fuel =>
      if j =? 0 then Ret r
      else
        let '(r, orig) :=
          if Z.land orig mask =? 0 then (r + j, Z.shiftr orig j) else (r, orig) in
        let j := Z.shiftr j 1 in
        leaf_find1 fuel orig (Z.shiftr mask j) j r
  end.

(** [for (j = 0; j <= n; ++j)]: the position and the mask found. *)
Fixpoint leaf_findn (turns : nat) (orig mask j : Z) : option (Z * Z) :=
  match turns with
  | O => None
  | S turns =>
      if Z.land orig mask =? mask then Some (j, mask)
      else leaf_findn turns orig (u64 (Z.shiftl mask 1)) (j + 1)
  end.

Definition blst_leaf_alloc (m : list blmeta) (scan blkat blk count : Z) :
    outcome (list blmeta * Z) :=
  e ← load m scan;
  let orig := bmu e in
  if orig =? 0 then m ← set_bighint m scan 0; Ret (m, SWAPBLK_NONE)
  else if count =? 1 then
    let j := BLIST_BMAP_RADIX / 2 in
    r ← leaf_find1 7 orig (Z.shiftr (not64 0) (BLIST_BMAP_RADIX / 2)) j 0;
    bit ← shl64 1 r;
    m ← set_bmu m scan (Z.land orig (not64 bit));
    Ret (m, u64 (blk + r))
  else
    let fail m := m ← set_bighint m scan (u64 (count - 1)); Ret (m, SWAPBLK_NONE) in
    if count <=? BLIST_BMAP_RADIX then
      let n := BLIST_BMAP_RADIX - count in
      mask ← shr64 (not64 0) n;
      match leaf_findn (S (Z.to_nat n)) orig mask 0 with
      | Some (j, mask) =>
          m ← set_bmu m scan (Z.land orig (not64 mask)); Ret (m, u64 (blk + j))
      | None => fail m
      end
    else fail m.

(** The mask of [blst_leaf_free] and [blst_leaf_fill]. *)
Definition leaf_mask (blk count : Z) : outcome Z :=
  let n := Z.land blk (BLIST_BMAP_RADIX - 1) in
  hi ← shl64 (not64 0) n;
  lo ← shr64 (not64 0) (u64 (BLIST_BMAP_RADIX - count - n));
  Ret (Z.land hi lo).

Definition blst_leaf_free (m : list blmeta) (scan blk count : Z) : outcome (list blmeta) :=
  mask ← leaf_mask blk count;
  e ← load m scan;
  if negb (Z.land (bmu e) mask =? 0) then Fault (Panic "blst_leaf_free")
  else store m scan (Blmeta (Z.lor (bmu e) mask) BLIST_BMAP_RADIX).

(** [for (nblks = 0; bitmap != 0; nblks++) bitmap &= bitmap - 1;] *)
Fixpoint count_bits (fuel : nat) (bitmap nblks : Z) : outcome Z :=
  match fuel with
  | O => Fault OutOfFuel
  | S fuel =>
      if bitmap =? 0 then Ret nblks
      else count_bits fuel (Z.land bitmap (bitmap - 1)) (nblks + 1)
  end.

Definition blst_leaf_fill (m : list blmeta) (scan blk count : Z) : outcome (list blmeta * Z) :=
  mask ← leaf_mask blk count;
  e ← load m scan;
  nblks ← count_bits 65 (Z.land (bmu e) mask) 0;
  m ← set_bmu m scan (Z.land (bmu e) (not64 mask));
  Ret (m, nblks).

(** ** Meta nodes *)

(** [for (i = 1; i <= skip; i += next_skip) { if terminator break; ... }]: the
    loops that initialise the level below, with [f] the assignments made. *)
Fixpoint for_children (f : blmeta → blmeta) (turns : nat) (m : list blmeta)
    (scan skip next_skip i : Z) : outcome (list blmeta) :=
  match turns with
  | O => Fault OutOfFuel
  | S turns =>
      if i <=? skip then
        e ← load m (scan + i);
        if bm_bighint e =? SWAPBLK_NONE then Ret m
        else
          m ← store m (scan + i) (f e);
          for_children f turns m scan skip next_skip (u64 (i + next_skip))
      else Ret m
  end.

(** At most 32 children and the test that ends the loop. *)
Abbreviation turns := 33%nat (only parsing).

(** A level that becomes all free; [radix] is that of the children. *)
Definition all_free_child (next_skip radix : Z) (e : blmeta) : blmeta :=
  if next_skip =? 1 then Blmeta (not64 0) BLIST_BMAP_RADIX else Blmeta radix radix.

(** A level that becomes all allocated. *)
Definition all_allocated_child (e : blmeta) : blmeta := Blmeta 0 0.

(** The loop of [blst_meta_alloc] over the children; [child] allocates in one. *)
Fixpoint alloc_children (child : list blmeta → Z → Z → outcome (list blmeta * Z)) (n : nat)
    (m : list blmeta) (scan blkat count radix skip next_skip i blk : Z) :
    outcome (list blmeta * Z) :=
  match n with
  | O => Fault OutOfFuel
  | S n =>
      if i <=? skip then
        e ← load m (scan + i);
        if bm_bighint e =? SWAPBLK_NONE then Ret (m, SWAPBLK_NONE)
        else
          '(m, r) ←
            (if (count <=? bm_bighint e) && (blkat <? u64 (blk + radix)) then child m (scan + i) blk
             else if radix <? count then Fault (Panic "blst_meta_alloc")
             else Ret (m, SWAPBLK_NONE));
          if r =? SWAPBLK_NONE then
            alloc_children child n m scan blkat count radix skip next_skip
              (u64 (i + next_skip)) (u64 (blk + radix))
          else
            s ← load m scan;
            let avail := u64 (bmu s - count) in
            m ← store m scan (Blmeta avail (if avail <? bm_bighint s then avail else bm_bighint s));
            Ret (m, r)
      else Ret (m, SWAPBLK_NONE)
  end.

Fixpoint blst_meta_alloc (fuel : nat) (m : list blmeta) (scan blkat blk count radix skip : Z) :
    outcome (list blmeta * Z) :=
  match fuel with
  | O => Fault OutOfFuel
  | S fuel =>
      let hintok := blkat <=? blk in
      let next_skip := skip / BLIST_META_RADIX in
      let child m p blk :=
        if next_skip =? 1 then blst_leaf_alloc m p blkat blk count
        else blst_meta_alloc fuel m p blkat blk count (radix / BLIST_META_RADIX)
               (u64 (next_skip - 1)) in
      s ← load m scan;
      if bmu s =? 0 then m ← set_bighint m scan 0; Ret (m, SWAPBLK_NONE)
      else
        m ← (if bmu s =? radix then
               m ← set_bighint m scan radix;
               for_children (all_free_child next_skip (radix / BLIST_META_RADIX)) turns
                 m scan skip next_skip 1
             else Ret m);
        let radix := radix / BLIST_META_RADIX in
        '(m, r) ← alloc_children child turns m scan blkat count radix skip next_skip 1 blk;
        if r =? SWAPBLK_NONE then
          s ← load m scan;
          m ← (if hintok && (count <=? bm_bighint s)
               then set_bighint m scan (u64 (count - 1)) else Ret m);
          Ret (m, SWAPBLK_NONE)
        else Ret (m, r)
  end.

(** The loop of [blst_meta_free] that breaks the range down. *)
Fixpoint free_children (child : list blmeta → Z → Z → Z → Z → outcome (list blmeta)) (n : nat)
    (m : list blmeta) (scan freeBlk count radix skip next_skip i blk : Z) :
    outcome (list blmeta) :=
  match n with
  | O => Fault OutOfFuel
  | S n =>
      if (i <=? skip) && (blk <? u64 (freeBlk + count)) then
        let v := u64 (blk + radix - freeBlk) in
        let v := if count <? v then count else v in
        s ← load m scan;
        if bm_bighint s =? SWAPBLK_NONE then Fault (Panic "blst_meta_free")
        else
          m ← child m (scan + i) freeBlk v blk;
          s ← load m scan;
          e ← load m (scan + i);
          m ← (if bm_bighint s <? bm_bighint e then set_bighint m scan (bm_bighint e) else Ret m);
          free_children child n m scan (u64 (freeBlk + v)) (u64 (count - v)) radix skip next_skip
            (u64 (i + next_skip)) (u64 (blk + radix))
      else Ret m
  end.

Fixpoint blst_meta_free (fuel : nat) (m : list blmeta) (scan freeBlk count radix skip blk : Z) :
    outcome (list blmeta) :=
  match fuel with
  | O => Fault OutOfFuel
  | S fuel =>
      let next_skip := skip / BLIST_META_RADIX in
      let child m p freeBlk v blk :=
        if next_skip =? 1 then blst_leaf_free m p freeBlk v
        else blst_meta_free fuel m p freeBlk v (radix / BLIST_META_RADIX) (u64 (next_skip - 1)) blk in
      s ← load m scan;
      m ← (if bmu s =? 0 then
             m ← store m scan (Blmeta count count);
             if negb (count =? radix)
             then for_children all_allocated_child turns m scan skip next_skip 1 else Ret m
           else set_bmu m scan (u64 (bmu s + count)));
      s ← load m scan;
      if bmu s =? radix then set_bighint m scan radix
      else if radix <? bmu s then Fault (Panic "blst_meta_free")
      else
        let radix := radix / BLIST_META_RADIX in
        let i := (freeBlk - blk) / radix in
        free_children child turns m scan freeBlk count radix skip next_skip
          (u64 (i * next_skip + 1)) (u64 (blk + i * radix))
  end.

(** The loop of [blst_meta_fill]. *)
Fixpoint fill_children (child : list blmeta → Z → Z → Z → Z → outcome (list blmeta * Z)) (n : nat)
    (m : list blmeta) (scan fillBlk count radix skip next_skip i blk nblks : Z) :
    outcome (list blmeta * Z) :=
  match n with
  | O => Fault OutOfFuel
  | S n =>
      if (i <=? skip) && (blk <? u64 (fillBlk + count)) then
        let v := u64 (blk + radix - fillBlk) in
        let v := if count <? v then count else v in
        s ← load m scan;
        if bm_bighint s =? SWAPBLK_NONE then Fault (Panic "blst_meta_fill")
        else
          '(m, filled) ← child m (scan + i) fillBlk v blk;
          fill_children child n m scan (u64 (fillBlk + v)) (u64 (count - v)) radix skip next_skip
            (u64 (i + next_skip)) (u64 (blk + radix)) (u64 (nblks + filled))
      else Ret (m, nblks)
  end.

Fixpoint blst_meta_fill (fuel : nat) (m : list blmeta) (scan fillBlk count radix skip blk : Z) :
    outcome (list blmeta * Z) :=
  match fuel with
  | O => Fault OutOfFuel
  | S fuel =>
      let next_skip := skip / BLIST_META_RADIX in
      let child m p fillBlk v blk :=
        if next_skip =? 1 then blst_leaf_fill m p fillBlk v
        else blst_meta_fill fuel m p fillBlk v (radix / BLIST_META_RADIX) (u64 (next_skip - 1)) blk in
      s ← load m scan;
      if (count =? radix) || (bmu s =? 0) then
        m ← store m scan (Blmeta 0 count); Ret (m, bmu s)
      else
        m ← (if bmu s =? radix then
               for_children (all_free_child next_skip (radix / BLIST_META_RADIX)) turns
                 m scan skip next_skip 1
             else Ret m);
        let radix := radix / BLIST_META_RADIX in
        if radix <? count then Fault (Panic "blst_meta_fill")
        else
          let i := (fillBlk - blk) / radix in
          '(m, nblks) ← fill_children child turns m scan fillBlk count radix skip next_skip
            (u64 (i * next_skip + 1)) (u64 (blk + i * radix)) 0;
          s ← load m scan;
          m ← set_bmu m scan (u64 (bmu s - nblks));
          Ret (m, nblks)
  end.

(** *** Initialisation *)

(** The loop of [blst_radix_init]; [m] is [None] on the pass that only counts
    ([scan == NULL]). *)
Fixpoint init_children
    (child : option (list blmeta) → Z → Z → outcome (Z * option (list blmeta))) (n : nat)
    (m : option (list blmeta)) (scan radix skip next_skip i count memindex : Z) :
    outcome (Z * Z * option (list blmeta)) :=
  match n with
  | O => Fault OutOfFuel
  | S n =>
      if i <=? skip then
        if radix <=? count then
          '(x, m) ← child m (scan + i) radix;
          init_children child n m scan radix skip next_skip (u64 (i + next_skip))
            (u64 (count - radix)) (u64 (i + x))
        else if 0 <? count then
          '(x, m) ← child m (scan + i) count;
          init_children child n m scan radix skip next_skip (u64 (i + next_skip)) 0 (u64 (i + x))
        else
          m ← (match m with
               | Some m => m ← set_bighint m (scan + i) SWAPBLK_NONE; Ret (Some m)
               | None => Ret None
               end);
          Ret (i, memindex, m)
      else Ret (i, memindex, m)
  end.

Fixpoint blst_radix_init (fuel : nat) (m : option (list blmeta)) (scan radix skip count : Z) :
    outcome (Z * option (list blmeta)) :=
  match fuel with
  | O => Fault OutOfFuel
  | S fuel =>
      m ← (match m with
           | Some m => m ← store m scan (Blmeta 0 0); Ret (Some m)
           | None => Ret None
           end);
      if radix =? BLIST_BMAP_RADIX then Ret (0, m)
      else
        let radix := radix / BLIST_META_RADIX in
        let next_skip := skip / BLIST_META_RADIX in
        '(i, memindex, m) ←
          init_children (λ m p count, blst_radix_init fuel m p radix (u64 (next_skip - 1)) count)
            turns m scan radix skip next_skip 1 count 0;
        Ret (if memindex <? i then i else memindex, m)
  end.

(** ** The operations *)

(** A radix is 64 * 32^k and fits 64 bits: no tree is deeper than 13 levels. *)
Definition depth : nat := 13.

(** [while (radix < blocks)] of [blist_create]. *)
Fixpoint create_radix (fuel : nat) (radix skip blocks : Z) : outcome (Z * Z) :=
  match fuel with
  | O => Fault OutOfFuel
  | S fuel =>
      if radix <? blocks then
        let radix := u64 (radix * BLIST_META_RADIX) in
        let skip := u64 (u64 (skip + 1) * BLIST_META_RADIX) in
        _ ← kassert "blist_create" (0 <? skip);
        create_radix fuel radix skip blocks
      else Ret (radix, skip)
  end.

(** [mem n] is what [mallocarray] gives for [n] nodes: it is not cleared. *)
Definition blist_create (mem : Z → list blmeta) (blocks : Z) : outcome blist :=
  _ ← kassert "blist_create" (0 <? blocks);
  '(radix, skip) ← create_radix depth BLIST_BMAP_RADIX 0 blocks;
  '(n, _) ← blst_radix_init depth None 0 radix skip blocks;
  let rootblks := u64 (1 + n) in
  '(_, root) ← blst_radix_init depth (Some (mem rootblks)) 0 radix skip blocks;
  root ← deref root;
  Ret (Blist blocks radix skip 0 root rootblks).

(** [blist_destroy] frees both objects; nothing of the blist is left. *)
Definition blist_destroy (bl : option blist) : outcome () :=
  kassert "blist_destroy" (match bl with Some _ => true | None => false end).

(** The part [blist_alloc] and [blist_allocat] have in common. *)
Definition alloc_at (fn : string) (bl : blist) (count blkat : Z) : outcome (blist * Z) :=
  '(root, blk) ←
    (if bl_radix bl =? BLIST_BMAP_RADIX then blst_leaf_alloc (bl_root bl) 0 blkat 0 count
     else blst_meta_alloc depth (bl_root bl) 0 blkat 0 count (bl_radix bl) (bl_skip bl));
  let bl := set_root root bl in
  if negb (blk =? SWAPBLK_NONE) then
    let bl := set_free (u64 (bl_free bl - count)) bl in
    _ ← kassert fn (blk <? bl_blocks bl);
    _ ← kassert fn (bl_free bl <=? bl_blocks bl);
    Ret (bl, blk)
  else Ret (bl, blk).

Definition blist_alloc (bl : option blist) (count : Z) : outcome (option blist * Z) :=
  match bl with
  | None => Ret (None, SWAPBLK_NONE)
  | Some bl => '(bl, blk) ← alloc_at "blist_alloc" bl count 0; Ret (Some bl, blk)
  end.


Definition blist_free (bl : option blist) (blkno count : Z) : outcome (option blist) :=
  match bl with
  | None => Ret None
  | Some bl =>
      _ ← kassert "blist_free" (blkno <? bl_blocks bl);
      _ ← kassert "blist_free" (u64 (blkno + count) <=? bl_blocks bl);
      root ← (if bl_radix bl =? BLIST_BMAP_RADIX then blst_leaf_free (bl_root bl) 0 blkno count
              else blst_meta_free depth (bl_root bl) 0 blkno count (bl_radix bl) (bl_skip bl) 0);
      let bl := set_free (u64 (bl_free bl + count)) (set_root root bl) in
      _ ← kassert "blist_free" (bl_free bl <=? bl_blocks bl);
      Ret (Some bl)
  end.

Definition blist_fill (bl : option blist) (blkno count : Z) : outcome (option blist * Z) :=
  match bl with
  | None => Ret (None, 0)
  | Some bl =>
      _ ← kassert "blist_fill" (blkno <? bl_blocks bl);
      _ ← kassert "blist_fill" (u64 (blkno + count) <=? bl_blocks bl);
      '(root, filled) ←
        (if bl_radix bl =? BLIST_BMAP_RADIX then blst_leaf_fill (bl_root bl) 0 blkno count
         else blst_meta_fill depth (bl_root bl) 0 blkno count (bl_radix bl) (bl_skip bl) 0);
      let bl := set_free (u64 (bl_free bl - filled)) (set_root root bl) in
      _ ← kassert "blist_fill" (bl_free bl <=? bl_blocks bl);
      Ret (Some bl, filled)
  end.

(** *** Resizing *)

(** [for (i = 0; i < BLIST_BMAP_RADIX && i < count; ++i)] of a leaf. *)
Fixpoint copy_bits (n : nat) (v blk i count : Z) (dest : option blist) : outcome (option blist) :=
  match n with
  | O => Ret dest
  | S n =>
      if i <? count then
        dest ← (if negb (Z.land v (Z.shiftl 1 i) =? 0) then blist_free dest (u64 (blk + i)) 1
                else Ret dest);
        copy_bits n v blk (i + 1) count dest
      else Ret dest
  end.

(** The loop of [blst_copy] over the children. *)
Fixpoint copy_children
    (child : Z → Z → option blist → Z → outcome (option blist)) (n : nat) (m : list blmeta)
    (scan radix skip next_skip i blk : Z) (dest : option blist) (count : Z) :
    outcome (option blist) :=
  match n with
  | O => Fault OutOfFuel
  | S n =>
      if negb (count =? 0) && (i <=? skip) then
        e ← load m (scan + i);
        if bm_bighint e =? SWAPBLK_NONE then Ret dest
        else
          '(dest, count) ←
            (if radix <=? count then
               dest ← child (scan + i) blk dest radix; Ret (dest, u64 (count - radix))
             else
               dest ← (if negb (count =? 0) then child (scan + i) blk dest count else Ret dest);
               Ret (dest, 0));
          copy_children child n m scan radix skip next_skip (u64 (i + next_skip))
            (u64 (blk + radix)) dest count
      else Ret dest
  end.

Fixpoint blst_copy (fuel : nat) (m : list blmeta) (scan blk radix skip : Z)
    (dest : option blist) (count : Z) : outcome (option blist) :=
  match fuel with
  | O => Fault OutOfFuel
  | S fuel =>
      s ← load m scan;
      if radix =? BLIST_BMAP_RADIX then
        let v := bmu s in
        if v =? not64 0 then blist_free dest blk count
        else if negb (v =? 0) then copy_bits (Z.to_nat BLIST_BMAP_RADIX) v blk 0 count dest
        else Ret dest
      else if bmu s =? 0 then Ret dest
      else if bmu s =? radix then
        if count <? radix then blist_free dest blk count else blist_free dest blk radix
      else
        let radix := radix / BLIST_META_RADIX in
        let next_skip := skip / BLIST_META_RADIX in
        copy_children (λ p blk dest count, blst_copy fuel m p blk radix (u64 (next_skip - 1)) dest count)
          turns m scan radix skip next_skip 1 blk dest count
  end.

Definition blist_resize (mem : Z → list blmeta) (pbl : option blist) (count : Z) (freenew : bool) :
    outcome (option blist) :=
  newbl ← blist_create mem count;
  save ← deref pbl;
  let count := if bl_blocks save <? count then bl_blocks save else count in
  newbl ← blst_copy depth (bl_root save) 0 0 (bl_radix save) (bl_skip save) (Some newbl) count;
  new ← deref newbl;
  newbl ← (if freenew && (count <? bl_blocks new)
           then blist_free newbl count (u64 (bl_blocks new - count)) else Ret newbl);
  _ ← blist_destroy (Some save);
  Ret newbl.

(** *** The largest gap *)

Inductive gapfind := GAPFIND_FIRSTFREE | GAPFIND_FIRSTUSED.

(** The state and what the pointers [maxbp], [maxep], [bp], [ep] point to. *)
Record gaps := Gaps { g_state : gapfind; maxb : Z; maxe : Z; gb : Z; ge : Z }.

(** A free stretch begins at [blk]. *)
Definition gap_free (g : gaps) (blk : Z) : gaps :=
  match g_state g with
  | GAPFIND_FIRSTFREE => Gaps GAPFIND_FIRSTUSED (maxb g) (maxe g) blk (ge g)
  | GAPFIND_FIRSTUSED => g
  end.

(** [blk] is used: a free stretch ends here. *)
Definition gap_used (g : gaps) (blk : Z) : gaps :=
  match g_state g with
  | GAPFIND_FIRSTFREE => g
  | GAPFIND_FIRSTUSED =>
      if u64 (maxe g - maxb g) <? u64 (blk - gb g)
      then Gaps GAPFIND_FIRSTFREE (gb g) blk (gb g) blk
      else Gaps GAPFIND_FIRSTFREE (maxb g) (maxe g) (gb g) blk
  end.

Fixpoint gapfind_children (child : Z → Z → gaps → outcome gaps) (n : nat) (m : list blmeta)
    (scan radix skip next_skip i blk : Z) (g : gaps) : outcome gaps :=
  match n with
  | O => Fault OutOfFuel
  | S n =>
      if i <=? skip then
        e ← load m (scan + i);
        if bm_bighint e =? SWAPBLK_NONE then Ret g
        else
          g ← child (scan + i) blk g;
          gapfind_children child n m scan radix skip next_skip (u64 (i + next_skip))
            (u64 (blk + radix)) g
      else Ret g
  end.

Fixpoint blst_radix_gapfind (fuel : nat) (m : list blmeta) (scan blk radix skip : Z) (g : gaps) :
    outcome gaps :=
  match fuel with
  | O => Fault OutOfFuel
  | S fuel =>
      s ← load m scan;
      if radix =? BLIST_BMAP_RADIX then
        Ret (if bmu s =? not64 0 then gap_free g blk else gap_used g blk)
      else if bmu s =? 0 then Ret (gap_used g blk)
      else if bmu s =? radix then Ret (gap_free g blk)
      else
        let radix := radix / BLIST_META_RADIX in
        let next_skip := skip / BLIST_META_RADIX in
        gapfind_children (λ p blk g, blst_radix_gapfind fuel m p blk radix (u64 (next_skip - 1)) g)
          turns m scan radix skip next_skip 1 blk g
  end.

Definition blist_gapfind (bl : blist) : outcome (Z * Z) :=
  g ← blst_radix_gapfind depth (bl_root bl) 0 0 (bl_radix bl) (bl_skip bl)
        (Gaps GAPFIND_FIRSTFREE 0 0 0 0);
  let '(b, e) :=
    match g_state g with
    | GAPFIND_FIRSTUSED =>
        let e := bl_blocks bl in
        if u64 (maxe g - maxb g) <? u64 (e - gb g) then (gb g, e) else (maxb g, maxe g)
    | GAPFIND_FIRSTFREE => (maxb g, maxe g)
    end in
  _ ← kassert "blist_gapfind" (b <=? e);
  _ ← kassert "blist_gapfind" (b <? bl_blocks bl);
  _ ← kassert "blist_gapfind" (e <=? bl_blocks bl);
  Ret (b, e).

Definition sample_mem (n : Z) : list blmeta := replicate (Z.to_nat n) (Blmeta 0xdead 0xbeef).

Example blist_runs :
  (bl ← blist_create sample_mem 200;
   bl ← blist_free (Some bl) 0 200;
   '(bl, a) ← blist_alloc bl 1;
   '(bl, b) ← blist_alloc bl 60;
   '(bl, c) ← blist_alloc bl 10;
   '(bl, f) ← blist_fill bl 100 40;
   bl ← blist_resize sample_mem bl 3000 true;
   b' ← deref bl;
   g ← blist_gapfind b';
   Ret (a, b, c, f, bl_free b', g)) = Ret (0, 1, 64, 40, 2889, (192, 2944)).
Proof. vm_compute. reflexivity. Qed.

(** ** Levels *)

(** A node of level [k] covers [R k] blocks and, with what is below it, takes
    [W k] entries: its [skip] is [W k - 1]. *)
Fixpoint R (k : nat) : Z := match k with O => 64 | S k => 32 * R k end.
Fixpoint W (k : nat) : Z := match k with O => 1 | S k => 32 * W k + 1 end.

Abbreviation maxblks := 2305843009213693952 (only parsing).

Lemma R_ge k : 64 ≤ R k.
Proof. induction k; cbn; lia. Qed.
Lemma W_pos k : 1 ≤ W k.
Proof. induction k; cbn; lia. Qed.
Lemma W_le_R k : 32 * W k + 2 ≤ R k.
Proof. induction k; cbn [R W] in *; lia. Qed.
Lemma R_mod64 k : R k mod 64 = 0.
Proof. induction k as [|k IH]; [done|]. cbn [R]. zmod. Qed.
Lemma W_1 k : W (S k) =? 1 = false.
Proof. pose proof (W_pos k). cbn [W]. lia. Qed.
Lemma R_64 k : R (S k) =? 64 = false.
Proof. pose proof (R_ge k). cbn [R]. lia. Qed.

(** The divisions by [BLIST_META_RADIX]. *)
Lemma child_radix k : R (S k) / 32 = R k.
Proof. cbn [R]. zmod. Qed.
Lemma child_skip k : (W (S k) - 1) / 32 = W k.
Proof. cbn [W]. zmod. Qed.

(** ** Entries *)

#[global] Instance blmeta_inhabited : Inhabited blmeta := populate (Blmeta 0 0).

Definition ent (m : list blmeta) (p : Z) : blmeta := m !!! Z.to_nat p.
Definition at_entry (m : list blmeta) (p : Z) : Prop := 0 ≤ p < Z.of_nat (length m).

Lemma load_ent m p : at_entry m p → load m p = Ret (ent m p).
Proof.
  intros Hp. destruct (load_in m p Hp) as (e & -> & He). f_equal.
  unfold ent. by rewrite (list_lookup_total_correct _ _ _ He).
Qed.

(** [m'] is [m] outside of the entries [lo <= p < hi]. *)
Definition outside (lo hi : Z) (m m' : list blmeta) : Prop :=
  length m' = length m ∧ ∀ p, 0 ≤ p → p < lo ∨ hi ≤ p → ent m' p = ent m p.

Lemma outside_refl lo hi m : outside lo hi m m.
Proof. done. Qed.
Lemma outside_trans lo hi m m' m'' : outside lo hi m m' → outside lo hi m' m'' → outside lo hi m m''.
Proof. intros [Hl H] [Hl' H']. split; [congruence|]. intros. by rewrite H', H. Qed.
Lemma outside_mono lo hi lo' hi' m m' :
  lo' ≤ lo → hi ≤ hi' → outside lo hi m m' → outside lo' hi' m m'.
Proof. intros ?? [Hl H]. split; [done|]. intros. apply H; lia. Qed.
Lemma outside_at lo hi m m' p : outside lo hi m m' → at_entry m p → at_entry m' p.
Proof. intros [Hl _]. unfold at_entry. by rewrite Hl. Qed.

Lemma store_ent m p e :
  at_entry m p → ∃ m', store m p e = Ret m' ∧ outside p (p + 1) m m' ∧ ent m' p = e.
Proof.
  intros Hp. unfold at_entry in Hp. exists (<[Z.to_nat p := e]> m).
  split; [by apply store_in|]. split; [split|].
  - apply length_insert.
  - intros q Hq Hne. unfold ent. rewrite list_lookup_total_insert_ne by lia. done.
  - unfold ent. apply list_lookup_total_insert_eq. lia.
Qed.

Lemma set_bmu_ent m p v :
  at_entry m p → ∃ m', set_bmu m p v = Ret m' ∧ outside p (p + 1) m m' ∧
    ent m' p = Blmeta v (bm_bighint (ent m p)).
Proof. intros Hp. unfold set_bmu. rewrite load_ent by done. by apply store_ent. Qed.

Lemma set_bighint_ent m p v :
  at_entry m p → ∃ m', set_bighint m p v = Ret m' ∧ outside p (p + 1) m m' ∧
    ent m' p = Blmeta (bmu (ent m p)) v.
Proof. intros Hp. unfold set_bighint. rewrite load_ent by done. by apply store_ent. Qed.

(** ** Sets of free blocks *)

(** The number of free blocks among [b .. b + n - 1]. *)
Fixpoint cnt_nat (F : Z → bool) (b : Z) (n : nat) : Z :=
  match n with O => 0 | S n => (if F b then 1 else 0) + cnt_nat F (b + 1) n end.
Definition cnt (F : Z → bool) (b n : Z) : Z := cnt_nat F b (Z.to_nat n).

Lemma cnt_nat_app F b n n' : cnt_nat F b (n + n') = cnt_nat F b n + cnt_nat F (b + Z.of_nat n) n'.
Proof.
  revert b. induction n as [|n IH]; intros b; cbn [cnt_nat Nat.add].
  - by replace (b + Z.of_nat 0) with b by lia.
  - rewrite IH. replace (b + Z.of_nat (S n)) with (b + 1 + Z.of_nat n) by lia. lia.
Qed.
Lemma cnt_app F b n n' : 0 ≤ n → 0 ≤ n' → cnt F b (n + n') = cnt F b n + cnt F (b + n) n'.
Proof.
  intros. unfold cnt. rewrite Z2Nat.inj_add, cnt_nat_app by done. do 2 f_equal. lia.
Qed.
Lemma cnt_bounds F b n : 0 ≤ n → 0 ≤ cnt F b n ≤ n.
Proof.
  unfold cnt. intros Hn. rewrite <-(Z2Nat.id n) at 3 by done. generalize (Z.to_nat n). clear.
  intros n. revert b. induction n as [|n IH]; intros b; cbn [cnt_nat]; [lia|].
  specialize (IH (b + 1)). destruct (F b); lia.
Qed.
Lemma cnt_ext F G b n : (∀ x, b ≤ x < b + n → F x = G x) → cnt F b n = cnt G b n.
Proof.
  unfold cnt. intros H.
  assert (∀ x, b ≤ x < b + Z.of_nat (Z.to_nat n) → F x = G x) as H' by (intros; apply H; lia).
  revert H'. generalize (Z.to_nat n). clear. intros n. revert b.
  induction n as [|n IH]; intros b H; cbn [cnt_nat]; [done|].
  rewrite (H b) by lia. f_equal. apply IH. intros. apply H. lia.
Qed.
Lemma cnt_const F b n c : 0 ≤ n → (∀ x, b ≤ x < b + n → F x = c) → cnt F b n = if c then n else 0.
Proof.
  intros Hn H. rewrite (cnt_ext F (λ _, c) b n) by done. unfold cnt.
  rewrite <-(Z2Nat.id n) at 2 by done. generalize (Z.to_nat n). clear. intros n. revert b.
  induction n as [|n IH]; intros b; cbn [cnt_nat]; [by destruct c|]. rewrite IH. destruct c; lia.
Qed.
Lemma cnt_0 F x : cnt F x 0 = 0.
Proof. done. Qed.
Lemma cnt_1 F x : cnt F x 1 = if F x then 1 else 0.
Proof. unfold cnt. change (Z.to_nat 1) with 1%nat. cbn [cnt_nat]. lia. Qed.
(** A count at either bound tells every block. *)
Lemma cnt_full F b n x : cnt F b n = n → b ≤ x < b + n → F x = true.
Proof.
  intros Hc Hx. pose proof (cnt_app F b (x - b) (1 + (b + n - (x + 1)))) as H1.
  replace (x - b + (1 + (b + n - (x + 1)))) with n in H1 by lia.
  rewrite cnt_app in H1 by lia. replace (b + (x - b)) with x in H1 by lia.
  pose proof (cnt_bounds F b (x - b)). pose proof (cnt_bounds F (x + 1) (b + n - (x + 1))).
  destruct (F x) eqn:E; [done|]. exfalso.
  rewrite cnt_1, E in H1. lia.
Qed.
Lemma cnt_none F b n x : cnt F b n = 0 → b ≤ x < b + n → F x = false.
Proof.
  intros Hc Hx. pose proof (cnt_app F b (x - b) (1 + (b + n - (x + 1)))) as H1.
  replace (x - b + (1 + (b + n - (x + 1)))) with n in H1 by lia.
  rewrite cnt_app in H1 by lia. replace (b + (x - b)) with x in H1 by lia.
  pose proof (cnt_bounds F b (x - b)). pose proof (cnt_bounds F (x + 1) (b + n - (x + 1))).
  destruct (F x) eqn:E; [|done]. exfalso.
  rewrite cnt_1, E in H1. lia.
Qed.

(** Giving back and taking the blocks [x .. x + n - 1]. *)
Definition within (x n y : Z) : bool := (x <=? y) && (y <? x + n).
Definition give (F : Z → bool) (x n : Z) (y : Z) : bool := F y || within x n y.
Definition take_out (F : Z → bool) (x n : Z) (y : Z) : bool := F y && negb (within x n y).

(** Every block of [x .. x + n - 1] is free ([c] true) or none is. *)
Definition all_are (F : Z → bool) (c : bool) (x n : Z) : Prop := ∀ y, x ≤ y < x + n → F y = c.

Lemma give_in F x n y : x ≤ y < x + n → give F x n y = true.
Proof. intros. unfold give, within. destruct (F y); [done|]. cbn. lia. Qed.
Lemma give_out F x n y : y < x ∨ x + n ≤ y → give F x n y = F y.
Proof.
  intros. unfold give, within.
  replace ((x <=? y) && (y <? x + n)) with false by lia. by rewrite orb_false_r.
Qed.
Lemma take_in F x n y : x ≤ y < x + n → take_out F x n y = false.
Proof. intros. unfold take_out, within. destruct (F y); [|done]. cbn. lia. Qed.
Lemma take_outside F x n y : y < x ∨ x + n ≤ y → take_out F x n y = F y.
Proof.
  intros. unfold take_out, within.
  replace ((x <=? y) && (y <? x + n)) with false by lia. by rewrite andb_true_r.
Qed.

Lemma cnt_mid F b n x c :
  b ≤ x → 0 ≤ c → x + c ≤ b + n →
  cnt F b n = cnt F b (x - b) + cnt F x c + cnt F (x + c) (b + n - (x + c)).
Proof.
  intros. replace n with ((x - b) + (c + (b + n - (x + c)))) at 1 by lia.
  rewrite !cnt_app by lia. replace (b + (x - b)) with x by lia. lia.
Qed.
Lemma cnt_give F b n x c :
  b ≤ x → 0 ≤ c → x + c ≤ b + n → cnt (give F x c) b n = cnt F b n + (c - cnt F x c).
Proof.
  intros. rewrite !(cnt_mid _ b n x c) by done.
  rewrite (cnt_const (give F x c) x c true) by (try done; intros; by apply give_in).
  rewrite (cnt_ext (give F x c) F b (x - b)) by (intros; apply give_out; lia).
  rewrite (cnt_ext (give F x c) F (x + c)) by (intros; apply give_out; lia). lia.
Qed.
Lemma cnt_take F b n x c :
  b ≤ x → 0 ≤ c → x + c ≤ b + n → cnt (take_out F x c) b n = cnt F b n - cnt F x c.
Proof.
  intros. rewrite !(cnt_mid _ b n x c) by done.
  rewrite (cnt_const (take_out F x c) x c false) by (try done; intros; by apply take_in).
  rewrite (cnt_ext (take_out F x c) F b (x - b)) by (intros; apply take_outside; lia).
  rewrite (cnt_ext (take_out F x c) F (x + c)) by (intros; apply take_outside; lia). lia.
Qed.

(** ** The tree and the set it represents *)

(** The [j]th child of the node at [p], and the first block it covers. *)
Definition kid (k : nat) (p j : Z) : Z := p + 1 + j * W k.
Definition base (k : nat) (b j : Z) : Z := b + j * R k.

(** The blocks [x .. x + n - 1] stand in one leaf. *)
Definition one_leaf (x n : Z) : Prop := x / 64 = (x + n - 1) / 64.

(** No stretch of free blocks in one leaf of [b .. b + len - 1] is longer than [h]. *)
Definition hint_ok (h b len : Z) (F : Z → bool) : Prop :=
  ∀ x n, 1 ≤ n → b ≤ x → x + n ≤ b + len → one_leaf x n → all_are F true x n → n ≤ h.

Lemma kid_sep k p j j' : j < j' → kid k p j + W k ≤ kid k p j'.
Proof. unfold kid. pose proof (W_pos k). nia. Qed.
Lemma kid_range k p j : 0 ≤ j < 32 → p + 1 ≤ kid k p j ∧ kid k p j + W k ≤ p + W (S k).
Proof. unfold kid. cbn [W]. pose proof (W_pos k). nia. Qed.
Lemma base_sep k b j j' : j < j' → base k b j + R k ≤ base k b j'.
Proof. unfold base. pose proof (R_ge k). nia. Qed.
Lemma base_range k b j : 0 ≤ j < 32 → b ≤ base k b j ∧ base k b j + R k ≤ b + R (S k).
Proof. unfold base. cbn [R]. pose proof (R_ge k). nia. Qed.
Lemma base_mod k b j : b mod 64 = 0 → base k b j mod 64 = 0.
Proof.
  intros Hb. unfold base. pose proof (R_mod64 k) as HR.
  apply Z.mod_divide in Hb; [|lia]. apply Z.mod_divide in HR; [|lia].
  apply Z.mod_divide; [lia|]. apply Z.divide_add_r; [done|]. by apply Z.divide_mul_r.
Qed.

Lemma block_kid k b x :
  b ≤ x < b + R (S k) → ∃ j, 0 ≤ j < 32 ∧ base k b j ≤ x < base k b j + R k.
Proof.
  intros Hx. exists ((x - b) / R k). unfold base. cbn [R] in Hx.
  pose proof (R_ge k) as HR. pose proof (Z.div_mod (x - b) (R k) ltac:(lia)).
  pose proof (Z.mod_pos_bound (x - b) (R k) ltac:(lia)).
  split; [|lia]. split; [apply Z.div_pos; lia|]. apply Z.div_lt_upper_bound; lia.
Qed.

Lemma run_kid k b x n :
  b mod 64 = 0 → 1 ≤ n → b ≤ x → x + n ≤ b + R (S k) → one_leaf x n →
  ∃ j, 0 ≤ j < 32 ∧ base k b j ≤ x ∧ x + n ≤ base k b j + R k.
Proof.
  intros Hb Hn Hx Hxn Hl. destruct (block_kid k b x) as (j & Hj & Hjx); [lia|].
  exists j. split; [done|]. split; [lia|].
  pose proof (base_mod k b j Hb) as Hm. pose proof (R_mod64 k) as HR. unfold one_leaf in Hl.
  revert Hm HR Hjx. generalize (base k b j) (R k). intros. zmod.
Qed.

Lemma hint_ok_mono h h' b len F : hint_ok h b len F → h ≤ h' → hint_ok h' b len F.
Proof. intros H Hle x n ?????. specialize (H x n). naive_solver lia. Qed.
Lemma hint_ok_sub h b len F G :
  hint_ok h b len F → (∀ x, b ≤ x < b + len → G x = true → F x = true) → hint_ok h b len G.
Proof.
  intros H HG x n Hn Hx Hxn Hl Ha. apply (H x n); try done.
  intros y Hy. apply HG; [lia|]. by apply Ha.
Qed.
Lemma hint_ok_cnt h b len F : 0 ≤ len → cnt F b len ≤ h → hint_ok h b len F.
Proof.
  intros Hlen Hc x n Hn Hx Hxn _ Ha. rewrite (cnt_mid F b len x n) in Hc by lia.
  rewrite (cnt_const F x n true) in Hc by (try lia; done).
  pose proof (cnt_bounds F b (x - b)). pose proof (cnt_bounds F (x + n) (b + len - (x + n))). lia.
Qed.
Lemma hint_ok_64 h b len F : 64 ≤ h → hint_ok h b len F.
Proof. intros Hh x n Hn Hx Hxn Hl _. unfold one_leaf in Hl. zmod. Qed.
Lemma hint_ok_kids h k b F :
  b mod 64 = 0 → (∀ j, 0 ≤ j < 32 → hint_ok h (base k b j) (R k) F) → hint_ok h b (R (S k)) F.
Proof.
  intros Hb H x n Hn Hx Hxn Hl Ha. destruct (run_kid k b x n) as (j & Hj & ? & ?); try done.
  by apply (H j Hj x n).
Qed.
Lemma hint_ok_kid h k b j F :
  0 ≤ j < 32 → hint_ok h b (R (S k)) F → hint_ok h (base k b j) (R k) F.
Proof.
  intros Hj H x n Hn Hx Hxn Hl Ha. pose proof (base_range k b j Hj). apply (H x n); try done; lia.
Qed.

Section Tree.
(** The number of blocks of the list: [bl_blocks]. *)
Context (blocks : Z).

(** The nodes in use are within the memory and no hint is a terminator; the
    first child past the end is one. *)
Fixpoint shape (k : nat) (m : list blmeta) (p b : Z) : Prop :=
  at_entry m p ∧ 0 ≤ bm_bighint (ent m p) < SWAPBLK_NONE ∧
  match k with
  | O => True
  | S k => ∀ j, 0 ≤ j < 32 →
      (base k b j < blocks → shape k m (kid k p j) (base k b j)) ∧
      (base k b (j - 1) < blocks ≤ base k b j →
       at_entry m (kid k p j) ∧ bm_bighint (ent m (kid k p j)) = SWAPBLK_NONE)
  end.

(** The node at [p] of level [k], which covers the blocks from [b], represents
    the free blocks of [F]; its children count unless it is all free or all
    allocated. *)
Fixpoint rep (k : nat) (m : list blmeta) (p b : Z) (F : Z → bool) : Prop :=
  hint_ok (bm_bighint (ent m p)) b (R k) F ∧
  match k with
  | O => is_u64 (bmu (ent m p)) ∧ ∀ x, 0 ≤ x < 64 → Z.testbit (bmu (ent m p)) x = F (b + x)
  | S k => bmu (ent m p) = cnt F b (R (S k)) ∧
      (0 < bmu (ent m p) < R (S k) → ∀ j, 0 ≤ j < 32 → base k b j < blocks →
       rep k m (kid k p j) (base k b j) F)
  end.

Definition kids_shape (k : nat) (m : list blmeta) (p b : Z) : Prop := ∀ j, 0 ≤ j < 32 →
  (base k b j < blocks → shape k m (kid k p j) (base k b j)) ∧
  (base k b (j - 1) < blocks ≤ base k b j →
   at_entry m (kid k p j) ∧ bm_bighint (ent m (kid k p j)) = SWAPBLK_NONE).

Definition kids_rep (k : nat) (m : list blmeta) (p b : Z) (F : Z → bool) : Prop :=
  ∀ j, 0 ≤ j < 32 → base k b j < blocks → rep k m (kid k p j) (base k b j) F.

Lemma shape_entry k m p b : shape k m p b → at_entry m p.
Proof. destruct k; by intros [? _]. Qed.
Lemma shape_hint k m p b : shape k m p b → 0 ≤ bm_bighint (ent m p) < SWAPBLK_NONE.
Proof. destruct k; by intros (_ & ? & _). Qed.
Lemma rep_hint k m p b F : rep k m p b F → hint_ok (bm_bighint (ent m p)) b (R k) F.
Proof. destruct k; by intros [? _]. Qed.

Lemma shape_frame k m m' p b :
  length m' = length m → (∀ q, p ≤ q < p + W k → ent m' q = ent m q) →
  shape k m p b → shape k m' p b.
Proof.
  intros Hl. revert p b. induction k as [|k IH]; intros p b He;
    (assert (ent m' p = ent m p) as Hep by
    (apply He; match goal with |- context [W ?x] => pose proof (W_pos x) end; lia));
    cbn [shape]; unfold at_entry; rewrite Hl, Hep; [done|].
  intros (Hp & Hh & Hk). split; [done|]. split; [done|]. intros j Hj.
  pose proof (kid_range k p j Hj) as Hr. pose proof (W_pos k). destruct (Hk j Hj) as [H1 H2]. split.
  - intros Hb. apply IH; [|by apply H1]. intros q Hq. apply He. lia.
  - rewrite He by lia. done.
Qed.

Lemma rep_frame k m m' p b F :
  (∀ q, p ≤ q < p + W k → ent m' q = ent m q) → rep k m p b F → rep k m' p b F.
Proof.
  revert p b. induction k as [|k IH]; intros p b He;
    (assert (ent m' p = ent m p) as Hep by
    (apply He; match goal with |- context [W ?x] => pose proof (W_pos x) end; lia));
    cbn [rep]; rewrite Hep; [done|].
  intros (Hh & Hc & Hk). split; [done|]. split; [done|]. intros Hn j Hj Hb.
  pose proof (kid_range k p j Hj). apply IH; [|by apply Hk]. intros q Hq. apply He. lia.
Qed.

(** Only the blocks a node covers matter. *)
Lemma rep_ext k m p b F G :
  (∀ x, b ≤ x < b + R k → F x = G x) → rep k m p b F → rep k m p b G.
Proof.
  revert p b. induction k as [|k IH]; intros p b He; cbn [rep].
  - intros (Hh & Hr & Hb). split; [|split; [done|]].
    + eapply hint_ok_sub; [done|]. intros x Hx. by rewrite He.
    + intros x Hx. rewrite Hb, He by (cbn [R]; lia). done.
  - intros (Hh & Hc & Hk). rewrite <-(cnt_ext F G) by done. split; [|split; [done|]].
    + eapply hint_ok_sub; [done|]. intros x Hx. by rewrite He.
    + intros Hn j Hj Hb. pose proof (base_range k b j Hj). apply IH; [|by apply Hk].
      intros x Hx. apply He. lia.
Qed.

Lemma kids_shape_frame k m m' p b :
  outside p (p + 1) m m' → 0 ≤ p → kids_shape k m p b → kids_shape k m' p b.
Proof.
  intros [Hl He] Hp Hk j Hj. pose proof (kid_range k p j Hj). pose proof (W_pos k).
  destruct (Hk j Hj) as [H1 H2]. unfold at_entry. rewrite Hl, He by lia. split; [|done].
  intros Hb. apply (shape_frame k m); [done| |by apply H1]. intros q Hq. apply He; lia.
Qed.
Lemma kids_rep_frame k m m' p b F :
  outside p (p + 1) m m' → 0 ≤ p → kids_rep k m p b F → kids_rep k m' p b F.
Proof.
  intros [Hl He] Hp Hk j Hj Hb. pose proof (kid_range k p j Hj).
  apply (rep_frame k m); [|by apply Hk]. intros q Hq. apply He; lia.
Qed.

(** Changing one child. *)
Lemma kids_shape_one k m m' p b j :
  0 ≤ j < 32 → 0 ≤ p → base k b j < blocks → outside (kid k p j) (kid k p j + W k) m m' →
  shape k m' (kid k p j) (base k b j) → kids_shape k m p b → kids_shape k m' p b.
Proof.
  intros Hj Hp Hb [Hl He] Hs Hk j' Hj'. pose proof (kid_range k p j' Hj'). pose proof (W_pos k).
  destruct (decide (j' = j)) as [->|Hne]; [by split; [|lia]|]. destruct (Hk j' Hj') as [H1 H2].
  assert (kid k p j' + W k ≤ kid k p j ∨ kid k p j + W k ≤ kid k p j') as Hsep.
  { destruct (decide (j' < j)); [left|right]; apply kid_sep; lia. }
  unfold at_entry. rewrite Hl, He by lia. split; [|done].
  intros Hb'. apply (shape_frame k m); [done| |by apply H1]. intros q Hq. apply He; lia.
Qed.
Lemma kids_rep_one k m m' p b j F G :
  0 ≤ j < 32 → 0 ≤ p → outside (kid k p j) (kid k p j + W k) m m' →
  (∀ x, x < base k b j ∨ base k b j + R k ≤ x → F x = G x) →
  rep k m' (kid k p j) (base k b j) G → kids_rep k m p b F → kids_rep k m' p b G.
Proof.
  intros Hj Hp [Hl He] HG Hr Hk j' Hj' Hb'. pose proof (kid_range k p j' Hj').
  destruct (decide (j' = j)) as [->|Hne]; [done|].
  assert (kid k p j' + W k ≤ kid k p j ∧ base k b j' + R k ≤ base k b j ∨
          kid k p j + W k ≤ kid k p j' ∧ base k b j + R k ≤ base k b j') as Hsep.
  { destruct (decide (j' < j)); [left|right]; split; (apply kid_sep || apply base_sep); lia. }
  apply (rep_ext k m' _ _ F); [intros; apply HG; lia|].
  apply (rep_frame k m); [|by apply Hk]. intros q Hq. apply He; lia.
Qed.

(** ** Leaves *)

Lemma leaf_find1_spec i o r :
  0 ≤ r → (∀ y, 0 ≤ y < r → Z.testbit o y = false) →
  (∃ y, r ≤ y < r + 2 ^ (Z.of_nat i + 1) ∧ Z.testbit o y = true) →
  ∃ r', leaf_find1 (S (S i)) (Z.shiftr o r) (Z.ones (2 ^ Z.of_nat i)) (2 ^ Z.of_nat i) r = Ret r' ∧
    0 ≤ r' ∧ Z.testbit o r' = true ∧ ∀ y, 0 ≤ y < r' → Z.testbit o y = false.
Proof.
  revert r. induction i as [|i IH]; intros r Hr Hlow (y & Hy & Hbit).
  - change (2 ^ Z.of_nat 0) with 1. change (2 ^ (Z.of_nat 0 + 1)) with 2 in Hy.
    cbn [leaf_find1]. change (1 =? 0) with false. change (Z.shiftr 1 1 =? 0) with true. cbn iota.
    destruct (Z.eqb_spec (Z.land (Z.shiftr o r) (Z.ones 1)) 0) as [E|E].
    + rewrite land_ones_zero in E by lia. exists (r + 1). split; [done|]. split; [lia|].
      assert (y = r + 1) as -> by (destruct (decide (y = r)) as [->|]; [rewrite E in Hbit by lia; done|lia]).
      split; [done|]. intros z Hz. destruct (decide (z < r)); [apply Hlow; lia|apply E; lia].
    + exists r. split; [done|]. split; [done|]. split; [|done].
      destruct (Z.testbit o r) eqn:Eo; [done|]. exfalso. apply E. rewrite land_ones_zero by lia.
      intros z Hz. by replace z with r by lia.
  - assert (2 ^ Z.of_nat (S i) = 2 * 2 ^ Z.of_nat i) as HS
      by (rewrite Nat2Z.inj_succ, Z.pow_succ_r by lia; done).
    rewrite Z.pow_add_r, HS in Hy by lia. change (2 ^ 1) with 2 in *.
    assert (∀ r, r + 2 ^ (Z.of_nat i + 1) = r + 2 ^ Z.of_nat i * 2) as HP
      by (intros; rewrite Z.pow_add_r by lia; done).
    setoid_rewrite HP in IH. rewrite HS. clear HS HP.
    assert (0 < 2 ^ Z.of_nat i) as Hpos by (apply Z.pow_pos_nonneg; lia).
    revert Hy IH Hpos. generalize (2 ^ Z.of_nat i) as P. intros P Hy IH Hpos.
    assert (Z.shiftr (Z.ones (2 * P)) P = Z.ones P) as Hmask.
    { apply Z.bits_inj'. intros n Hn. rewrite Z.shiftr_spec by done.
      destruct (decide (n < P)); [by rewrite !Z.ones_spec_low by lia|].
      by rewrite !Z.ones_spec_high by lia. }
    assert (Z.shiftr (2 * P) 1 = P) as Hhalf.
    { rewrite Z.shiftr_div_pow2 by lia. change (2 ^ 1) with 2. zmod. }
    remember (S (S i)) as fuel eqn:Hfuel. cbn [leaf_find1].
    replace (2 * P =? 0) with false by lia. rewrite Hhalf, Hmask.
    destruct (Z.eqb_spec (Z.land (Z.shiftr o r) (Z.ones (2 * P))) 0) as [E|E]; subst fuel.
    + rewrite land_ones_zero in E by lia. rewrite Z.shiftr_shiftr by lia.
      apply IH; [lia| |].
      * intros z Hz. destruct (decide (z < r)); [apply Hlow; lia|apply E; lia].
      * exists y. split; [|done].
        destruct (decide (y < r + 2 * P)); [rewrite E in Hbit by lia; done|lia].
    + apply IH; [done..|].
      destruct (some_or_none (Z.testbit o) r (2 * P)) as [(z & Hz & Ho)|He].
      * exists z. split; [lia|done].
      * exfalso. apply E. by rewrite land_ones_zero by lia.
Qed.

Lemma leaf_findn_spec o n count j :
  0 ≤ j → 1 ≤ count → Z.of_nat n + j + count = 65 →
  match leaf_findn n o (Z.shiftl (Z.ones count) j) j with
  | Some (r, mask) => j ≤ r ∧ r + count ≤ 64 ∧ mask = Z.shiftl (Z.ones count) r ∧
      (∀ i, r ≤ i < r + count → Z.testbit o i = true) ∧
      ∀ x, j ≤ x < r → ∃ i, x ≤ i < x + count ∧ Z.testbit o i = false
  | None => ∀ x, j ≤ x → x + count ≤ 64 → ∃ i, x ≤ i < x + count ∧ Z.testbit o i = false
  end.
Proof.
  revert j. induction n as [|n IH]; intros j Hj Hc Hn; cbn [leaf_findn]; [intros; lia|].
  destruct (Z.eqb_spec (Z.land o (Z.shiftl (Z.ones count) j)) (Z.shiftl (Z.ones count) j)) as [E|E].
  - rewrite land_ones_full in E by lia. split_and!; [done|lia|done|done|intros; lia].
  - assert (∃ i, j ≤ i < j + count ∧ Z.testbit o i = false) as Hmiss.
    { destruct (some_or_none (λ z, negb (Z.testbit o z)) j count) as [(z & Hz & Ho)|He].
      - exists z. split; [done|]. by destruct (Z.testbit o z).
      - exfalso. apply E, land_ones_full; [lia..|]. intros i Hi. apply negb_false_iff. by apply He. }
    destruct n as [|n].
    { intros x Hx Hxc. by replace x with j by lia. }
    assert (u64 (Z.shiftl (Z.shiftl (Z.ones count) j) 1) = Z.shiftl (Z.ones count) (j + 1)) as ->.
    { rewrite Z.shiftl_shiftl by lia. apply u64_small. unfold is_u64.
      change 18446744073709551616 with (2 ^ 64). apply bits_bounded; [lia|]. intros i Hi.
      rewrite Z.shiftl_spec by lia. apply Z.ones_spec_high. lia. }
    specialize (IH (j + 1) ltac:(lia) Hc ltac:(lia)).
    destruct (leaf_findn _ _ _ _) as [[r mask]|].
    + destruct IH as (? & ? & ? & ? & Hl). split_and!; [lia|done..|]. intros x Hx.
      destruct (decide (x = j)) as [->|]; [done|apply Hl; lia].
    + intros x Hx Hxc. destruct (decide (x = j)) as [->|]; [done|apply IH; lia].
Qed.

(** Allocating: the first place from which [count] free blocks stand in one
    leaf that ends after [blkat]. *)
Definition fits (F : Z → bool) (blkat count x : Z) : Prop :=
  one_leaf x count ∧ blkat < (x / 64 + 1) * 64 ∧ all_are F true x count.
Definition first_fit (F : Z → bool) (blkat count lo hi r : Z) : Prop :=
  (lo ≤ r ∧ r + count ≤ hi ∧ fits F blkat count r) ∧
  ∀ x, lo ≤ x → x + count ≤ hi → fits F blkat count x → r ≤ x.
Definition no_fit (F : Z → bool) (blkat count lo hi : Z) : Prop :=
  ∀ x, lo ≤ x → x + count ≤ hi → ¬ fits F blkat count x.

(** What an allocation in the node at [p] does. *)
Definition alloc_post (k : nat) (m : list blmeta) (p b : Z) (F : Z → bool) (blkat count : Z)
    (o : outcome (list blmeta * Z)) : Prop :=
  ∃ m' r, o = Ret (m', r) ∧ outside p (p + W k) m m' ∧ shape k m' p b ∧
    ((r = SWAPBLK_NONE ∧ no_fit F blkat count b (b + R k) ∧ rep k m' p b F) ∨
     (r ≠ SWAPBLK_NONE ∧ first_fit F blkat count b (b + R k) r ∧
      rep k m' p b (take_out F r count))).

Lemma shape_leaf m m' p b :
  shape 0 m p b → outside p (p + 1) m m' → 0 ≤ bm_bighint (ent m' p) < SWAPBLK_NONE →
  shape 0 m' p b.
Proof. intros (Hp & _) Ho Hh. split; [by eapply outside_at|done]. Qed.

Lemma leaf_block b x : b mod 64 = 0 → b ≤ x < b + 64 → x / 64 = b / 64.
Proof. intros. zmod. Qed.
Lemma leaf_fits F b blkat count x :
  b mod 64 = 0 → blkat < b + 64 → 1 ≤ count → b ≤ x → x + count ≤ b + 64 →
  fits F blkat count x ↔ all_are F true x count.
Proof.
  intros Hb Hat Hc Hx Hxc. unfold fits, one_leaf.
  rewrite (leaf_block b x), (leaf_block b (x + count - 1)) by (done || lia).
  split; [tauto|]. intros Ha.
  split; [done|]. split; [|done]. clear -Hb Hat. zmod.
Qed.

(** A leaf whose bitmap and hint have been replaced. *)
Lemma rep_leaf m p b F :
  hint_ok (bm_bighint (ent m p)) b 64 F → is_u64 (bmu (ent m p)) →
  (∀ x, 0 ≤ x < 64 → Z.testbit (bmu (ent m p)) x = F (b + x)) → rep 0 m p b F.
Proof. intros ???. split; [done|by split]. Qed.

Lemma land_u64 x y : is_u64 x → is_u64 (Z.land x y).
Proof. apply (land_bound 64). lia. Qed.

(** Clearing the bits of a mask. *)
Lemma clear_bits o mask F b x n :
  is_u64 mask →
  (∀ i, 0 ≤ i < 64 → Z.testbit o i = F (b + i)) →
  (∀ i, 0 ≤ i < 64 → Z.testbit mask i = within x n (b + i)) →
  ∀ i, 0 ≤ i < 64 → Z.testbit (Z.land o (not64 mask)) i = take_out F x n (b + i).
Proof. intros Hm Ho Hk i Hi. by rewrite Z.land_spec, not64_testbit, Ho, Hk by done. Qed.

Lemma shl_ones_bits r n i :
  0 ≤ r → 0 ≤ n → 0 ≤ i → Z.testbit (Z.shiftl (Z.ones n) r) i = within r n i.
Proof.
  intros Hr Hn Hi. unfold within. rewrite Z.shiftl_spec by done.
  destruct (decide (i < r)); [rewrite Z.testbit_neg_r by lia; lia|].
  destruct (decide (i < r + n)); [rewrite Z.ones_spec_low by lia; lia|].
  rewrite Z.ones_spec_high by lia. lia.
Qed.
Lemma shl_ones_u64 r n : 0 ≤ r → 0 ≤ n → r + n ≤ 64 → is_u64 (Z.shiftl (Z.ones n) r).
Proof.
  intros Hr Hn Hrn. unfold is_u64. change 18446744073709551616 with (2 ^ 64).
  apply bits_bounded; [lia|]. intros i Hi. rewrite shl_ones_bits by lia. unfold within. lia.
Qed.
Lemma within_shift b x n y : within (b + x) n (b + y) = within x n y.
Proof. unfold within. f_equal; lia. Qed.

Section LeafAlloc.
Context (m : list blmeta) (p b : Z) (F : Z → bool) (blkat count : Z).
Context (Hs : shape 0 m p b) (Hrep : rep 0 m p b F) (Hb : b mod 64 = 0) (Hb0 : 0 ≤ b).
Context (Hmax : b + 64 ≤ maxblks) (Hat : blkat < b + 64) (Hc : 1 ≤ count ≤ 64).

Abbreviation bitmap := (bmu (ent m p)).

Lemma leaf_taken r mask m' :
  0 ≤ r → r + count ≤ 64 → mask = Z.shiftl (Z.ones count) r →
  (∀ i, r ≤ i < r + count → Z.testbit bitmap i = true) →
  (∀ x, 0 ≤ x < r → ∃ i, x ≤ i < x + count ∧ Z.testbit bitmap i = false) →
  outside p (p + 1) m m' →
  ent m' p = Blmeta (Z.land bitmap (not64 mask)) (bm_bighint (ent m p)) →
  alloc_post 0 m p b F blkat count (Ret (m', b + r)).
Proof using All.
  destruct Hrep as (Hhint & Hu & Hbits). pose proof (shape_hint _ _ _ _ Hs).
  intros Hr Hrc -> Hset Hleast Ho He. exists m', (b + r).
  split; [done|]. split; [done|]. split; [eapply shape_leaf; [done..|by rewrite He]|].
  right. split; [unfold SWAPBLK_NONE; lia|]. split.
  - split; [split; [lia|split; [cbn [R]; lia|]]|].
    + apply (leaf_fits F b); [done|done|lia..|]. intros y Hy.
      replace y with (b + (y - b)) by lia. rewrite <-Hbits by lia. apply Hset. lia.
    + cbn [R]. intros x Hx Hxc Hf. apply (leaf_fits F b) in Hf; [|done|done|lia..].
      destruct (decide (x < b + r)); [|lia]. destruct (Hleast (x - b)) as (i & Hi & Hno); [lia|].
      rewrite Hbits, Hf in Hno by lia. done.
  - apply rep_leaf; rewrite He; cbn [bmu bm_bighint].
    + eapply hint_ok_sub; [done|]. intros x _. unfold take_out. by destruct (F x).
    + by apply land_u64.
    + apply (clear_bits _ _ F); [apply shl_ones_u64; lia|done|].
      intros i Hi. rewrite within_shift. apply shl_ones_bits; lia.
Qed.

Lemma leaf_failed h m' :
  0 ≤ h < 64 → hint_ok h b 64 F → h < count → outside p (p + 1) m m' →
  ent m' p = Blmeta bitmap h → alloc_post 0 m p b F blkat count (Ret (m', SWAPBLK_NONE)).
Proof using All.
  destruct Hrep as (Hhint & Hu & Hbits).
  intros Hh Hok Hlt Ho He. exists m', SWAPBLK_NONE. split; [done|]. split; [done|].
  split; [eapply shape_leaf; [done..|rewrite He; unfold SWAPBLK_NONE; cbn; lia]|].
  left. split; [done|]. split.
  - cbn [R]. intros x Hx Hxc Hf. apply (leaf_fits F b) in Hf as Ha; [|done|done|lia..].
    destruct Hf as (Hl & _). pose proof (Hok x count ltac:(lia) Hx Hxc Hl Ha). lia.
  - by apply rep_leaf; rewrite He.
Qed.

(** The binary search for one free block. *)
Lemma leaf_alloc_one :
  count = 1 → bitmap ≠ 0 →
  ∃ r, leaf_find1 7 bitmap (Z.shiftr (not64 0) (64 / 2)) (64 / 2) 0 = Ret r ∧ 0 ≤ r < 64 ∧
    Z.testbit bitmap r = true ∧ ∀ y, 0 ≤ y < r → Z.testbit bitmap y = false.
Proof using All.
  destruct Hrep as (_ & Hu & _). intros _ E.
  assert (∃ y, 0 ≤ y < 0 + 64 ∧ Z.testbit bitmap y = true) as Hy.
  { destruct (some_or_none (Z.testbit bitmap) 0 64) as [?|Hn]; [done|].
    exfalso. apply E. apply (word_eq 64); [done|done|]. intros i Hi. by rewrite Hn, Z.bits_0. }
  destruct (leaf_find1_spec 5 bitmap 0) as (r & Hr & Hr0 & Hbit & Hleast); [done|lia|done|].
  rewrite Z.shiftr_0_r in Hr. exists r. split; [exact Hr|]. split; [|done].
  destruct (decide (r < 64)); [done|]. by rewrite (testbit_above 64) in Hbit by (done || lia).
Qed.

Lemma leaf_alloc_spec :
  alloc_post 0 m p b F blkat count (blst_leaf_alloc m p blkat b count).
Proof using All.
  pose proof (shape_entry _ _ _ _ Hs) as Hp. pose proof Hrep as (Hhint & Hu & Hbits).
  unfold blst_leaf_alloc. rewrite load_ent, bind_Ret_l by done.
  destruct (Z.eqb_spec bitmap 0) as [E|E].
  { destruct (set_bighint_ent m p 0 Hp) as (m' & -> & Ho & He). rewrite bind_Ret_l.
    apply (leaf_failed 0); [lia| |lia|done|done]. intros x n Hn Hx Hxn _ Ha.
    assert (F x = true) as HF by (apply Ha; lia). replace x with (b + (x - b)) in HF by lia.
    rewrite <-Hbits, E, Z.bits_0 in HF by lia. done. }
  unfold BLIST_BMAP_RADIX. destruct (Z.eqb_spec count 1) as [Hc1|Hc1].
  - destruct (leaf_alloc_one Hc1 E) as (r & -> & Hr & Hbit & Hleast). rewrite bind_Ret_l.
    unfold shl64. rewrite bool_decide_true, bind_Ret_l by lia.
    change (Z.shiftl 1 r) with (Z.shiftl (Z.ones 1) r).
    rewrite (u64_small (Z.shiftl _ _)) by (apply shl_ones_u64; lia).
    edestruct set_bmu_ent as (m' & -> & Ho & He); [done|]. rewrite bind_Ret_l.
    rewrite u64_small by (unfold is_u64; lia). 
    apply (leaf_taken r (Z.shiftl (Z.ones 1) r)); [lia|lia|by rewrite Hc1| | |done|done].
    + intros i Hi. by replace i with r by lia.
    + intros x Hx. exists x. split; [lia|by apply Hleast].
  - replace (count <=? 64) with true by lia. unfold shr64.
    rewrite bool_decide_true, bind_Ret_l by lia.
    assert (Z.shiftr (not64 0) (64 - count) = Z.shiftl (Z.ones count) 0) as ->.
    { rewrite Z.shiftl_0_r. change (not64 0) with (Z.ones 64). apply Z.bits_inj'. intros i Hi.
      rewrite Z.shiftr_spec by done. destruct (decide (i < count)).
      - by rewrite !Z.ones_spec_low by lia.
      - by rewrite !Z.ones_spec_high by lia. }
    pose proof (leaf_findn_spec bitmap (S (Z.to_nat (64 - count))) count 0
      ltac:(lia) ltac:(lia) ltac:(lia)) as Hf.
    destruct (leaf_findn _ _ _ _) as [[r mask]|].
    + destruct Hf as (Hr & Hrc & Hmask & Hset & Hleast).
      edestruct set_bmu_ent as (m' & -> & Ho & He); [done|]. rewrite bind_Ret_l.
      rewrite u64_small by (unfold is_u64; lia). by eapply leaf_taken.
    + edestruct set_bighint_ent as (m' & -> & Ho & He); [done|]. rewrite bind_Ret_l.
      rewrite u64_small in He by (unfold is_u64; lia).
      apply (leaf_failed (count - 1)); [lia| |lia|done|done].
      intros x n Hn Hx Hxn Hl Ha. destruct (decide (n < count)); [lia|]. exfalso.
      destruct (Hf (x - b)) as (i & Hi & Hno); [lia..|]. rewrite Hbits, Ha in Hno by lia. done.
Qed.
End LeafAlloc.

(** The mask of a range within one leaf. *)
Lemma leaf_mask_spec b x n :
  b mod 64 = 0 → b ≤ x → 1 ≤ n → x + n ≤ b + 64 →
  ∃ mask, leaf_mask x n = Ret mask ∧ is_u64 mask ∧
    ∀ i, 0 ≤ i < 64 → Z.testbit mask i = within x n (b + i).
Proof using Type.
  intros Hb Hx Hn Hxn. unfold leaf_mask, shl64, shr64, BLIST_BMAP_RADIX. cbv zeta.
  assert (Z.land x (64 - 1) = x - b) as ->.
  { change (64 - 1) with (Z.ones 6). rewrite Z.land_ones by lia. change (2 ^ 6) with 64. zmod. }
  rewrite (u64_small (64 - n - (x - b))) by (unfold is_u64; lia).
  rewrite (bool_decide_true (0 ≤ x - b < 64)), bind_Ret_l by lia.
  rewrite bool_decide_true, bind_Ret_l by lia. eexists. split; [done|].
  split; [apply land_u64, u64_range|]. intros i Hi.
  change (not64 0) with (Z.ones 64). unfold u64. change 18446744073709551616 with (2 ^ 64).
  rewrite Z.land_spec, Z.mod_pow2_bits_low, Z.shiftr_spec, shl_ones_bits by lia.
  unfold within. destruct (decide (i < x - b + n)).
  - rewrite Z.ones_spec_low by lia. lia.
  - rewrite Z.ones_spec_high by lia. lia.
Qed.

(** Clearing the lowest bit set: one block less. *)
Lemma count_bits_spec fuel v n :
  is_u64 v → cnt (Z.testbit v) 0 64 < Z.of_nat fuel →
  count_bits fuel v n = Ret (n + cnt (Z.testbit v) 0 64).
Proof using Type.
  revert v n. induction fuel as [|fuel IH]; intros v n Hv Hf; cbn [count_bits].
  { pose proof (cnt_bounds (Z.testbit v) 0 64). lia. }
  destruct (Z.eqb_spec v 0) as [->|Hv0].
  { rewrite (cnt_const _ _ _ false); [f_equal; lia|lia|]. intros. apply Z.bits_0. }
  destruct (some_or_none (Z.testbit v) 0 64) as [(y & Hy & Hbit)|Hn].
  2: { exfalso. apply Hv0. apply (word_eq 64); [done|done|]. intros i Hi. by rewrite Hn, Z.bits_0. }
  destruct (least_Z (Z.testbit v) 0 y) as (l & Hl & Hlb & Hlow); [lia|done|].
  assert (∀ i, 0 ≤ i → Z.testbit (Z.land v (v - 1)) i = take_out (Z.testbit v) l 1 i) as Hbits.
  { assert (Z.ldiff (2 ^ l) v = 0) as Hld.
    { apply Z.bits_inj'. intros i Hi. rewrite Z.ldiff_spec, Z.bits_0, Z.pow2_bits_eqb by lia.
      destruct (Z.eqb_spec l i) as [->|]; [by rewrite Hlb|done]. }
    assert (v - 1 = Z.lor (Z.ldiff v (2 ^ l)) (Z.ones l)) as ->.
    { rewrite <-Z.lxor_lor, <-Z.add_nocarry_lxor, <-Z.sub_nocarry_ldiff, Z.ones_equiv; try done; [lia|..].
      all: apply Z.bits_inj'; intros i Hi; rewrite Z.land_spec, Z.ldiff_spec, Z.bits_0.
      all: destruct (decide (i < l)); [by rewrite Hlow by lia|].
      all: by rewrite Z.ones_spec_high, andb_false_r by lia. }
    intros i Hi. rewrite Z.land_spec, Z.lor_spec, Z.ldiff_spec, Z.pow2_bits_eqb by lia.
    unfold take_out, within. destruct (decide (i < l)).
    - by rewrite Hlow by lia.
    - rewrite Z.ones_spec_high, orb_false_r by lia.
      destruct (Z.testbit v i); [|done]. cbn. lia. }
  assert (cnt (Z.testbit (Z.land v (v - 1))) 0 64 = cnt (Z.testbit v) 0 64 - 1) as Hc.
  { rewrite (cnt_ext _ (take_out (Z.testbit v) l 1)) by (intros; apply Hbits; lia).
    rewrite cnt_take, cnt_1, Hlb by lia. done. }
  rewrite IH; [f_equal; lia|by apply land_u64|lia].
Qed.

Lemma cnt_shift F G b b' n :
  (∀ i, 0 ≤ i < n → F (b + i) = G (b' + i)) → cnt F b n = cnt G b' n.
Proof using Type.
  unfold cnt. intros H.
  assert (∀ i, 0 ≤ i < Z.of_nat (Z.to_nat n) → F (b + i) = G (b' + i)) as H' by (intros; apply H; lia).
  revert H'. generalize (Z.to_nat n). clear. intros n. revert b b'.
  induction n as [|n IH]; intros b b' H; cbn [cnt_nat]; [done|].
  pose proof (H 0 ltac:(lia)) as H0. rewrite !Z.add_0_r in H0. rewrite H0. f_equal.
  apply IH. intros i Hi. rewrite <-!Z.add_assoc. apply H. lia.
Qed.

Lemma leaf_free_spec m p b F x n :
  shape 0 m p b → rep 0 m p b F → b mod 64 = 0 →
  b ≤ x → 1 ≤ n → x + n ≤ b + 64 → all_are F false x n →
  ∃ m', blst_leaf_free m p x n = Ret m' ∧ outside p (p + 1) m m' ∧ shape 0 m' p b ∧
    rep 0 m' p b (give F x n).
Proof using Type.
  intros Hs (Hhint & Hu & Hbits) Hb Hx Hn Hxn Hall. pose proof (shape_entry _ _ _ _ Hs) as Hp.
  unfold blst_leaf_free. destruct (leaf_mask_spec b x n) as (mask & -> & Hm & Hk); [done..|].
  rewrite bind_Ret_l, load_ent, bind_Ret_l by done.
  assert (Z.land (bmu (ent m p)) mask = 0) as ->.
  { apply (word_eq 64); [by apply land_u64|done|]. intros i Hi.
    rewrite Z.land_spec, Hbits, Hk, Z.bits_0 by done. destruct (within x n (b + i)) eqn:E; [|apply andb_false_r].
    unfold within in E. rewrite Hall by lia. done. }
  cbn. destruct (store_ent m p (Blmeta (Z.lor (bmu (ent m p)) mask) BLIST_BMAP_RADIX) Hp)
    as (m' & -> & Ho & He).
  exists m'. split; [done|]. split; [done|].
  split; [eapply shape_leaf; [done..|rewrite He; unfold SWAPBLK_NONE, BLIST_BMAP_RADIX; cbn; lia]|].
  apply rep_leaf; rewrite He; cbn [bmu bm_bighint].
  - by apply hint_ok_64.
  - by apply (lor_bound 64); [lia|..].
  - intros i Hi. by rewrite Z.lor_spec, Hbits, Hk by done.
Qed.

Lemma leaf_fill_spec m p b F x n :
  shape 0 m p b → rep 0 m p b F → b mod 64 = 0 →
  b ≤ x → 1 ≤ n → x + n ≤ b + 64 →
  ∃ m', blst_leaf_fill m p x n = Ret (m', cnt F x n) ∧ outside p (p + 1) m m' ∧ shape 0 m' p b ∧
    rep 0 m' p b (take_out F x n).
Proof using Type.
  intros Hs (Hhint & Hu & Hbits) Hb Hx Hn Hxn. pose proof (shape_entry _ _ _ _ Hs) as Hp.
  pose proof (shape_hint _ _ _ _ Hs).
  unfold blst_leaf_fill. destruct (leaf_mask_spec b x n) as (mask & -> & Hm & Hk); [done..|].
  rewrite bind_Ret_l, load_ent, bind_Ret_l by done.
  assert (cnt (Z.testbit (Z.land (bmu (ent m p)) mask)) 0 64 = cnt F x n) as Hc.
  { rewrite (cnt_shift _ (λ y, F y && within x n y) 0 b).
    - assert (∀ y, x ≤ y < x + n → F y && within x n y = F y) as Hin
        by (intros y Hy; unfold within; destruct (F y); cbn; lia).
      assert (∀ y, y < x ∨ x + n ≤ y → F y && within x n y = false) as Hout
        by (intros y Hy; unfold within; destruct (F y); cbn; lia).
      rewrite (cnt_mid _ b 64 x n), (cnt_ext _ F x n) by (done || lia).
      rewrite (cnt_const _ b (x - b) false), (cnt_const _ (x + n) (b + 64 - (x + n)) false)
        by (lia || (intros; apply Hout; lia)). lia.
    - intros i Hi. rewrite Z.add_0_l, Z.land_spec, Hbits, Hk by done. done. }
  pose proof (cnt_bounds F x n).
  rewrite count_bits_spec, bind_Ret_l, Hc by (by apply land_u64 || lia).
  edestruct set_bmu_ent as (m' & -> & Ho & He); [done|]. rewrite bind_Ret_l.
  exists m'. split; [done|]. split; [done|]. split; [eapply shape_leaf; [done..|by rewrite He]|].
  apply rep_leaf; rewrite He; cbn [bmu bm_bighint].
  - eapply hint_ok_sub; [done|]. intros y _. unfold take_out. by destruct (F y).
  - by apply land_u64.
  - by apply (clear_bits _ _ F).
Qed.

(** ** The loops over the children *)

(** [i] at the [j]th turn. *)
Definition idx (k : nat) (j : Z) : Z := 1 + j * W k.

Lemma idx_kid k p j : p + idx k j = kid k p j.
Proof using Type. unfold idx, kid. lia. Qed.
Lemma idx_test k j : 0 ≤ j ≤ 32 → (idx k j <=? W (S k) - 1) = (j <? 32).
Proof using Type. unfold idx. cbn [W]. pose proof (W_pos k). intros. destruct (Z.ltb_spec j 32); nia. Qed.
Lemma idx_next k j : 0 ≤ j ≤ 32 → R (S k) ≤ maxblks → u64 (idx k j + W k) = idx k (j + 1).
Proof using Type.
  intros Hj HR. unfold idx. pose proof (W_pos k). pose proof (W_le_R k). cbn [R] in HR.
  rewrite u64_small; [lia|]. unfold is_u64. nia.
Qed.
Lemma base_next k b j :
  0 ≤ b → b + R (S k) ≤ maxblks → 0 ≤ j < 32 → u64 (base k b j + R k) = base k b (j + 1).
Proof using Type.
  intros Hb HR Hj. pose proof (base_range k b j Hj). pose proof (R_ge k).
  rewrite u64_small; [unfold base; lia|]. unfold is_u64. lia.
Qed.
Lemma base_0 k b : base k b 0 = b.
Proof using Type. unfold base. lia. Qed.

(** What a loop needs to know of the children it has not come to. *)
Definition kids_marked (k : nat) (m : list blmeta) (p b j0 : Z) : Prop :=
  ∀ j, j0 ≤ j < 32 →
    (base k b j < blocks →
     at_entry m (kid k p j) ∧ bm_bighint (ent m (kid k p j)) ≠ SWAPBLK_NONE) ∧
    (base k b (j - 1) < blocks ≤ base k b j →
     at_entry m (kid k p j) ∧ bm_bighint (ent m (kid k p j)) = SWAPBLK_NONE).

Lemma kids_shape_marked k m p b : kids_shape k m p b → kids_marked k m p b 0.
Proof using Type.
  intros Hk j Hj. destruct (Hk j Hj) as [H1 H2]. split; [|done]. intros Hb.
  split; [by eapply shape_entry, H1|]. pose proof (shape_hint _ _ _ _ (H1 Hb)). lia.
Qed.

(** The test for the terminator at the [j]th turn. *)
Lemma marked_test k m p b j :
  0 ≤ j < 32 → b < blocks → base k b (j - 1) < blocks → kids_marked k m p b j →
  load m (p + idx k j) = Ret (ent m (kid k p j)) ∧
  (bm_bighint (ent m (kid k p j)) =? SWAPBLK_NONE) = (blocks <=? base k b j).
Proof using Type.
  intros Hj Hb Hj1 Hk. rewrite idx_kid. destruct (Hk j ltac:(lia)) as [H1 H2].
  destruct (Z.leb_spec blocks (base k b j)) as [Hle|Hlt].
  - destruct H2 as [? ->]; [done|]. by rewrite load_ent.
  - destruct H1 as [??]; [done|]. rewrite load_ent by done. split; [done|]. by apply Z.eqb_neq.
Qed.

Lemma for_children_spec f k p b :
  0 ≤ p → b < blocks → R (S k) ≤ maxblks → (∀ e, bm_bighint (f e) ≠ SWAPBLK_NONE) →
  ∀ n j m, Z.of_nat n + j = 33 → 0 ≤ j ≤ 32 → base k b (j - 1) < blocks → kids_marked k m p b j →
  ∃ m', for_children f n m p (W (S k) - 1) (W k) (idx k j) = Ret m' ∧ length m' = length m ∧
    (∀ j', j ≤ j' < 32 → base k b j' < blocks → ent m' (kid k p j') = f (ent m (kid k p j'))) ∧
    ∀ q, 0 ≤ q → (∀ j', j ≤ j' < 32 → base k b j' < blocks → q ≠ kid k p j') →
      ent m' q = ent m q.
Proof using Type.
  intros Hp Hb HR Hf. induction n as [|n IH]; intros j m Hn Hj Hj1 Hk; [lia|].
  cbn [for_children]. rewrite idx_test by lia. destruct (Z.ltb_spec j 32) as [Hj32|Hj32].
  2: { exists m. split; [done|]. split; [done|]. split; [intros; lia|done]. }
  destruct (marked_test k m p b j) as [-> Ht]; [lia|done..|]. rewrite bind_Ret_l, Ht.
  destruct (Z.leb_spec blocks (base k b j)) as [Hle|Hlt].
  { exists m. split; [done|]. split; [done|]. split; [|done]. intros j' Hj' Hb'.
    destruct (decide (j' = j)) as [->|]; [lia|]. pose proof (base_sep k b j j' ltac:(lia)).
    pose proof (R_ge k). lia. }
  destruct (Hk j ltac:(lia)) as [Hent _]. destruct Hent as [Hent _]; [done|]. rewrite idx_kid.
  destruct (store_ent m (kid k p j) (f (ent m (kid k p j))) Hent) as (m1 & -> & Ho & He).
  rewrite bind_Ret_l, idx_next by lia.
  assert (∀ q, 0 ≤ q → q ≠ kid k p j → ent m1 q = ent m q) as Hother by (intros; apply Ho; lia).
  assert (∀ j', j + 1 ≤ j' < 32 → 0 ≤ kid k p j' ∧ kid k p j' ≠ kid k p j) as Hne.
  { intros j' Hj'. pose proof (kid_sep k p j j' ltac:(lia)). pose proof (W_pos k).
    pose proof (kid_range k p j' ltac:(lia)). lia. }
  destruct (IH (j + 1) m1) as (m' & -> & Hl & Hin & Hout); [lia|lia| | |].
  { replace (j + 1 - 1) with j by lia. done. }
  { intros j' Hj'. destruct (Hne j' Hj'). rewrite Hother by done.
    destruct Ho as [Hlen _]. unfold at_entry. rewrite Hlen. apply Hk. lia. }
  exists m'. split; [done|]. split; [by rewrite Hl; apply Ho|]. split.
  - intros j' Hj' Hb'. destruct (decide (j' = j)) as [->|].
    + rewrite Hout, He; [done|apply Hent|]. intros j'' Hj'' _ Heq. by destruct (Hne j'' Hj'').
    + destruct (Hne j' ltac:(lia)). by rewrite Hin, Hother by (done || lia).
  - intros q Hq Hnq. rewrite Hout; [apply Hother; [done|apply Hnq; [lia|done]]|done|].
    intros j' Hj'. apply Hnq. lia.
Qed.

(** A level made all free or all allocated. *)
Lemma init_level f k m p b F :
  0 ≤ p → b < blocks → R (S k) ≤ maxblks → kids_shape k m p b →
  (∀ e, 0 ≤ bm_bighint (f e) < SWAPBLK_NONE) →
  (∀ m' j, 0 ≤ j < 32 → base k b j < blocks → ent m' (kid k p j) = f (ent m (kid k p j)) →
    rep k m' (kid k p j) (base k b j) F) →
  ∃ m', for_children f turns m p (W (S k) - 1) (W k) 1 = Ret m' ∧
    outside (p + 1) (p + W (S k)) m m' ∧ kids_shape k m' p b ∧ kids_rep k m' p b F.
Proof using Type.
  intros Hp Hb HR Hk Hf Hrep.
  destruct (for_children_spec f k p b Hp Hb HR) with (n := turns) (j := 0) (m := m)
    as (m' & Hrun & Hl & Hin & Hout); [|done|done| |by apply kids_shape_marked|].
  { intros e. specialize (Hf e). lia. }
  { pose proof (R_ge k). unfold base. lia. }
  change (idx k 0) with 1 in Hrun. exists m'. split; [done|].
  assert (∀ q, 0 ≤ q → (∀ j, 0 ≤ j < 32 → q ≠ kid k p j) → ent m' q = ent m q) as Hsame.
  { intros q Hq Hne. apply Hout; [done|]. intros j Hj _. by apply Hne. }
  split; [|split].
  - split; [done|]. intros q Hq Hr. apply Hsame; [done|]. intros j Hj ->.
    pose proof (kid_range k p j Hj). pose proof (W_pos k). lia.
  - intros j Hj. destruct (Hk j Hj) as [H1 H2]. pose proof (kid_range k p j Hj). split.
    + intros Hbj. specialize (H1 Hbj).
      assert (shape k m' (kid k p j) (base k b j)) as Hs; [|done].
      revert H1. destruct k as [|k]; cbn [shape]; unfold at_entry; rewrite Hl, (Hin j Hj Hbj);
        [by intros (? & _)|].
      intros (Hpj & _ & Hkk). split; [done|]. split; [done|]. intros j2 Hj2.
      pose proof (kid_range k (kid (S k) p j) j2 Hj2) as Hr2. pose proof (W_pos k).
      assert (∀ q, kid (S k) p j + 1 ≤ q < kid (S k) p j + W (S k) → ent m' q = ent m q) as Heq.
      { intros q Hq. apply Hsame; [lia|]. intros j' Hj' ->.
        destruct (decide (j' < j)); [pose proof (kid_sep (S k) p j' j ltac:(lia))|]; [lia|].
        destruct (decide (j < j')); [pose proof (kid_sep (S k) p j j' ltac:(lia)); lia|].
        replace j' with j in Hq by lia. lia. }
      destruct (Hkk j2 Hj2) as [H3 H4]. rewrite Heq by lia. split; [|done].
      intros Hb2. apply (shape_frame k m); [done| |by apply H3]. intros q Hq. apply Heq. lia.
    + intros Hbj. destruct (H2 Hbj). unfold at_entry. rewrite Hl, Hout; [done|lia|].
      intros j' Hj' Hb' Heq.
      assert (j' = j) as -> ; [|lia]. pose proof (W_pos k).
      destruct (decide (j' < j)); [pose proof (kid_sep k p j' j ltac:(lia)); lia|].
      destruct (decide (j < j')); [pose proof (kid_sep k p j j' ltac:(lia)); lia|lia].
  - intros j Hj Hbj. apply Hrep; [done|done|by apply Hin].
Qed.

(** *** Allocation *)

Lemma leaf_side c x n : c mod 64 = 0 → 1 ≤ n → one_leaf x n → x < c → x + n ≤ c.
Proof using Type. unfold one_leaf. intros. zmod. Qed.

Lemma no_fit_app F blkat count lo mid hi :
  mid mod 64 = 0 → 1 ≤ count →
  no_fit F blkat count lo mid → no_fit F blkat count mid hi → no_fit F blkat count lo hi.
Proof using Type.
  intros Hm Hc H1 H2 x Hx Hxc Hf. destruct (decide (x < mid)).
  - apply (H1 x); [done| |done]. apply leaf_side; [done..|apply Hf|done].
  - apply (H2 x); [lia|done..].
Qed.
Lemma first_fit_app F blkat count lo mid hi hi' r :
  mid mod 64 = 0 → 1 ≤ count → lo ≤ mid → hi ≤ hi' → hi mod 64 = 0 →
  no_fit F blkat count lo mid → first_fit F blkat count mid hi r → first_fit F blkat count lo hi' r.
Proof using Type.
  intros Hm Hc Hlo Hhi Hh Hno [(Hr & Hrc & Hf) Hleast]. split; [split_and!; [lia..|done]|].
  intros x Hx Hxc Hfx. destruct (decide (x < mid)).
  { exfalso. apply (Hno x); [done| |done]. apply leaf_side; [done..|apply Hfx|done]. }
  destruct (decide (x < hi)); [|lia]. apply Hleast; [lia| |done].
  apply leaf_side; [done..|apply Hfx|done].
Qed.

Lemma rep_all_free k m p b F e :
  ent m p = all_free_child (W k) (R k) e → all_are F true b (R k) → rep k m p b F.
Proof using Type.
  unfold all_free_child, BLIST_BMAP_RADIX. intros He Ha. destruct k as [|k]; cbn [W] in He.
  - cbn in He. apply rep_leaf; rewrite He; cbn [bmu bm_bighint].
    + by apply hint_ok_64.
    + done.
    + intros x Hx. change (not64 0) with (Z.ones 64). rewrite Z.ones_spec_low by lia.
      symmetry. apply Ha. cbn [R]. lia.
  - pose proof (W_1 k) as HW. cbn [W] in HW. rewrite HW in He. pose proof (R_ge (S k)).
    cbn [rep]. rewrite He. cbn [bmu bm_bighint]. split; [by apply hint_ok_64|].
    split; [|lia]. by rewrite (cnt_const _ _ _ true) by (done || lia).
Qed.
Lemma rep_all_allocated k m p b F :
  ent m p = Blmeta 0 0 → all_are F false b (R k) → rep k m p b F.
Proof using Type.
  intros He Ha. pose proof (R_ge k).
  assert (hint_ok 0 b (R k) F) by (apply hint_ok_cnt; [lia|]; by rewrite (cnt_const _ _ _ false) by (done || lia)).
  destruct k as [|k].
  - apply rep_leaf; rewrite He; [done..|]. intros x Hx. rewrite Ha by (cbn [R]; lia). apply Z.bits_0.
  - cbn [rep]. rewrite He. split; [done|]. split; [|cbn; lia].
    by rewrite (cnt_const _ _ _ false) by (done || lia).
Qed.

Section Alloc.
Context (F : Z → bool) (blkat count : Z) (Hcount : 1 ≤ count ≤ 64).
Context (HF : ∀ x, F x = true → x < blocks).

Lemma no_fit_past hi c : blocks ≤ c → no_fit F blkat count c hi.
Proof using All. intros Hc x Hx _ (_ & _ & Ha). specialize (HF x (Ha x ltac:(lia))). lia. Qed.

Lemma alloc_children_spec child k p b :
  0 ≤ p → 0 ≤ b → b < blocks → b + R (S k) ≤ maxblks → b mod 64 = 0 →
  (∀ m j, 0 ≤ j < 32 → base k b j < blocks → shape k m (kid k p j) (base k b j) →
    rep k m (kid k p j) (base k b j) F → blkat < base k b j + R k →
    alloc_post k m (kid k p j) (base k b j) F blkat count (child m (kid k p j) (base k b j))) →
  ∀ n j m, Z.of_nat n + j = 33 → 0 ≤ j ≤ 32 → base k b (j - 1) < blocks → at_entry m p →
  kids_shape k m p b → kids_rep k m p b F → no_fit F blkat count b (base k b j) →
  ∃ m' r, alloc_children child n m p blkat count (R k) (W (S k) - 1) (W k) (idx k j) (base k b j)
      = Ret (m', r) ∧ outside p (p + W (S k)) m m' ∧ kids_shape k m' p b ∧
    ((r = SWAPBLK_NONE ∧ ent m' p = ent m p ∧ no_fit F blkat count b (b + R (S k)) ∧
      kids_rep k m' p b F) ∨
     (r ≠ SWAPBLK_NONE ∧ first_fit F blkat count b (b + R (S k)) r ∧
      kids_rep k m' p b (take_out F r count) ∧
      ent m' p = let s := ent m p in let avail := u64 (bmu s - count) in
        Blmeta avail (if avail <? bm_bighint s then avail else bm_bighint s))).
Proof using All.
  intros Hp Hb0 Hb Hmax Hmod Hchild.
  induction n as [|n IH]; intros j m Hn Hj Hj1 Hpm Hs Hk Hno; [lia|].
  pose proof (R_ge k) as HR. pose proof (W_pos k) as HW.
  cbn [alloc_children]. rewrite idx_test by lia. destruct (Z.ltb_spec j 32) as [Hj32|Hj32].
  2: { exists m, SWAPBLK_NONE. split_and!; [done..|]. left. split_and!; [done..| |done].
       replace (b + R (S k)) with (base k b j); [done|]. unfold base. cbn [R]. nia. }
  destruct (marked_test k m p b j) as [-> Ht]; [lia|done..| |].
  { intros j' Hj'. apply (kids_shape_marked k m p b Hs). lia. }
  rewrite bind_Ret_l, Ht. destruct (Z.leb_spec blocks (base k b j)) as [Hle|Hlt].
  { exists m, SWAPBLK_NONE. split_and!; [done..|]. left. split_and!; [done..| |done].
    apply (no_fit_app _ _ _ _ (base k b j)); [by apply base_mod|lia|done|]. by apply no_fit_past. }
  rewrite base_next, idx_next by lia. rewrite idx_kid.
  assert (j + 1 - 1 = j) as Hj1'. { lia. }
  assert (base k b (j + 1) = base k b j + R k) as Hnext by (unfold base; lia).
  pose proof (base_range k b j ltac:(lia)) as Hrange.
  pose proof (rep_hint _ _ _ _ _ (Hk j ltac:(lia) Hlt)) as Hhint.
  destruct ((count <=? bm_bighint (ent m (kid k p j))) && (blkat <? base k b (j + 1))) eqn:Htry.
  - (* the child is asked *)
    destruct (Hchild m j) as (m1 & r & -> & Ho & Hs1 & Hr);
      [lia|done|by apply (Hs j ltac:(lia))|by apply (Hk j ltac:(lia))|lia|].
    rewrite bind_Ret_l. pose proof (kid_range k p j ltac:(lia)) as Hkr.
    assert (kids_shape k m1 p b) as Hsk by (by apply (kids_shape_one k m m1 p b j); [lia|..]).
    assert (outside p (p + W (S k)) m m1) as Ho' by (eapply outside_mono; [| |done]; lia).
    assert (ent m1 p = ent m p) as Hpe by (apply Ho; lia).
    destruct Hr as [(-> & Hnone & Hr)|(Hrn & Hfit & Hr)].
    + cbn [Z.eqb]. rewrite Z.eqb_refl.
      destruct (IH (j + 1) m1) as (m' & r' & -> & Ho2 & Hs2 & Hres);
        [lia|lia|by rewrite Hj1'|by eapply outside_at|done|by apply (kids_rep_one k m m1 p b j F F); [lia|..]| |].
      { rewrite Hnext. by apply (no_fit_app _ _ _ _ (base k b j)); [apply base_mod|lia|..]. }
      exists m', r'. split; [done|]. split; [by eapply outside_trans|]. split; [done|].
      by rewrite Hpe in Hres.
    + replace (r =? SWAPBLK_NONE) with false by (symmetry; by apply Z.eqb_neq).
      rewrite load_ent, bind_Ret_l by (by eapply outside_at).
      edestruct (store_ent m1 p) as (m2 & -> & Ho2 & He2); [by eapply outside_at|].
      rewrite bind_Ret_l. exists m2, r. split; [done|].
      split; [eapply outside_trans; [done|eapply outside_mono; [| |done]; cbn [W]; lia]|].
      split; [by eapply kids_shape_frame|]. right. split; [done|]. split.
      { eapply first_fit_app; [by apply (base_mod k b j)|lia|lia| | |done..].
        - lia.
        - rewrite <-Hnext. by apply base_mod. }
      split; [|by rewrite He2, Hpe]. eapply (kids_rep_frame k m1); [done..|].
      apply (kids_rep_one k m m1 p b j F); [lia|done..| |done|done].
      intros x Hx. symmetry. apply take_outside. destruct Hfit as [(? & ? & _) _]. lia.
  - (* the child is skipped *)
    replace (R k <? count) with false by lia. rewrite bind_Ret_l, Z.eqb_refl.
    apply IH; [lia|lia|by rewrite Hj1'|done..|].
    rewrite Hnext. apply (no_fit_app _ _ _ _ (base k b j)); [by apply base_mod|lia|done|].
    intros x Hx Hxc (Hl & Hat & Ha). pose proof (Hhint x count ltac:(lia) Hx Hxc Hl Ha).
    assert (base k b j + R k ≤ blkat) as Hpast by lia.
    assert (((base k b j + R k)) mod 64 = 0) as Hm by (rewrite <-Hnext; by apply base_mod).
    clear -Hx Hxc Hat Hm Hpast Hcount Hl. unfold one_leaf in Hl. zmod.
Qed.

(** The dispatch between leaves and meta nodes. *)
Definition node_alloc (fuel : nat) (k : nat) (m : list blmeta) (p b : Z) : outcome (list blmeta * Z) :=
  if W k =? 1 then blst_leaf_alloc m p blkat b count
  else blst_meta_alloc fuel m p blkat b count (R k) (u64 (W k - 1)).

(** An all free node is given the level below. *)
Lemma alloc_init k m p b :
  0 ≤ p → 0 ≤ b → b < blocks → R (S k) ≤ maxblks → at_entry m p → kids_shape k m p b →
  0 ≤ bm_bighint (ent m p) < SWAPBLK_NONE → rep (S k) m p b F → bmu (ent m p) ≠ 0 →
  ∃ m' h, (if bmu (ent m p) =? R (S k)
       then m ← set_bighint m p (R (S k));
            for_children (all_free_child (W k) (R k)) turns m p (W (S k) - 1) (W k) 1
       else Ret m) = Ret m' ∧
    outside p (p + W (S k)) m m' ∧ ent m' p = Blmeta (bmu (ent m p)) h ∧
    0 ≤ h < SWAPBLK_NONE ∧ hint_ok h b (R (S k)) F ∧ kids_shape k m' p b ∧ kids_rep k m' p b F.
Proof using Type.
  intros Hp Hb0 Hb HR Hpm Hs Hh (Hhint & Hc & Hk) Hne. pose proof (R_ge k) as HRk.
  pose proof (R_ge (S k)) as HRSk. pose proof (W_pos k).
  pose proof (cnt_bounds F b (R (S k))).
  destruct (Z.eqb_spec (bmu (ent m p)) (R (S k))) as [E|E].
  - destruct (set_bighint_ent m p (R (S k)) Hpm) as (m1 & -> & Ho1 & He1). rewrite bind_Ret_l.
    destruct (init_level (all_free_child (W k) (R k)) k m1 p b F) as (m2 & -> & Ho2 & Hs2 & Hr2);
      [done|done|done|by eapply kids_shape_frame| | |].
    + intros e. unfold all_free_child, SWAPBLK_NONE, BLIST_BMAP_RADIX. cbn [R] in HR.
      destruct (W k =? 1); cbn; lia.
    + intros m' j Hj Hbj He. eapply rep_all_free; [done|]. intros x Hx.
      pose proof (base_range k b j Hj). apply (cnt_full F b (R (S k))); [congruence|lia].
    + exists m2, (R (S k)). split; [done|].
      split; [eapply outside_trans; eapply outside_mono; [| |done| | |done]; cbn [W]; lia|].
      split; [destruct Ho2 as [_ Ho2]; by rewrite Ho2, He1 by lia|].
      split; [unfold SWAPBLK_NONE; lia|]. split; [by apply hint_ok_64|done].
  - exists m, (bm_bighint (ent m p)). split; [done|]. split; [done|].
    split; [by destruct (ent m p)|]. split_and!; [lia|lia|done|done|]. exact (Hk ltac:(lia)).
Qed.

(** No child can serve: the hint is lowered, unless some were passed over. *)
Lemma alloc_failed k m p b h :
  0 ≤ p → b mod 64 = 0 → at_entry m p → kids_shape k m p b → kids_rep k m p b F →
  ent m p = Blmeta (cnt F b (R (S k))) h → 0 ≤ h < SWAPBLK_NONE → hint_ok h b (R (S k)) F →
  no_fit F blkat count b (b + R (S k)) →
  ∃ m', (s ← load m p;
         m ← (if (blkat <=? b) && (count <=? bm_bighint s)
              then set_bighint m p (u64 (count - 1)) else Ret m);
         Ret (m, SWAPBLK_NONE)) = Ret (m', SWAPBLK_NONE) ∧
    outside p (p + 1) m m' ∧ shape (S k) m' p b ∧ rep (S k) m' p b F.
Proof using Hcount.
  intros Hp Hmod Hpm Hs Hk He Hh Hok Hno. rewrite load_ent, bind_Ret_l, He by done.
  cbn [bmu bm_bighint].
  assert (∀ m' h', outside p (p + 1) m m' → ent m' p = Blmeta (cnt F b (R (S k))) h' →
    0 ≤ h' < SWAPBLK_NONE → hint_ok h' b (R (S k)) F → shape (S k) m' p b ∧ rep (S k) m' p b F) as Hdone.
  { intros m' h' Ho He' Hh' Hok'. split.
    - split; [by eapply outside_at|]. rewrite He'. split; [done|]. by eapply kids_shape_frame.
    - cbn [rep]. rewrite He'. split; [done|]. split; [done|]. intros _. by eapply kids_rep_frame. }
  destruct ((blkat <=? b) && (count <=? h)) eqn:Eh.
  - destruct (set_bighint_ent m p (u64 (count - 1)) Hpm) as (m' & -> & Ho & He').
    rewrite He, u64_small in He' by (unfold is_u64; lia). rewrite bind_Ret_l.
    exists m'. split; [done|]. split; [done|].
    apply (Hdone m' (count - 1)); [done|done|unfold SWAPBLK_NONE; lia|].
    intros x n Hn Hx Hxn Hl Ha. destruct (decide (n < count)) as [|Hge]; [lia|]. exfalso.
    apply (Hno x); [done|lia|]. split; [|split].
    + unfold one_leaf in *. clear -Hl Hcount Hge. zmod.
    + clear -Eh Hx Hmod. zmod.
    + intros y Hy. apply Ha. lia.
  - rewrite bind_Ret_l. exists m. split; [done|]. split; [done|]. by apply (Hdone m h).
Qed.

(** A child served: the count and the hint follow. *)
Lemma alloc_taken k m p b h r :
  R (S k) ≤ maxblks → at_entry m p → kids_shape k m p b → kids_rep k m p b (take_out F r count) →
  first_fit F blkat count b (b + R (S k)) r → 0 ≤ h < SWAPBLK_NONE → hint_ok h b (R (S k)) F →
  (let avail := u64 (cnt F b (R (S k)) - count) in
   ent m p = Blmeta avail (if avail <? h then avail else h)) →
  shape (S k) m p b ∧ rep (S k) m p b (take_out F r count).
Proof using Hcount.
  intros HR Hpm Hs Hk [(Hr1 & Hr2 & Hfr) _] Hh Hok He. pose proof (R_ge (S k)).
  assert (cnt F r count = count) as Hcr by (rewrite (cnt_const _ _ _ true); [done|lia|apply Hfr]).
  pose proof (cnt_take F b (R (S k)) r count ltac:(lia) ltac:(lia) ltac:(lia)) as Hct.
  pose proof (cnt_bounds (take_out F r count) b (R (S k)) ltac:(lia)).
  pose proof (cnt_bounds F b (R (S k)) ltac:(lia)).
  cbv zeta in He. rewrite u64_small in He by (unfold is_u64; lia).
  assert (hint_ok h b (R (S k)) (take_out F r count)) as Hht.
  { eapply hint_ok_sub; [done|]. intros x _. unfold take_out. by destruct (F x). }
  split.
  - split; [done|]. rewrite He. cbn [bm_bighint].
    split; [unfold SWAPBLK_NONE in *; case_match; lia|done].
  - cbn [rep]. rewrite He. cbn [bmu bm_bighint]. split; [|split; [lia|done]].
    case_match; [apply hint_ok_cnt; lia|done].
Qed.

Lemma node_alloc_spec k fuel m p b :
  (k ≤ fuel)%nat → 0 ≤ p → 0 ≤ b → b < blocks → b + R k ≤ maxblks → b mod 64 = 0 →
  blkat < b + R k → shape k m p b → rep k m p b F →
  alloc_post k m p b F blkat count (node_alloc fuel k m p b).
Proof using All.
  revert fuel m p b. induction k as [|k IH];
    intros fuel m p b Hfuel Hp Hb0 Hb Hmax Hmod Hat Hs Hr.
  { apply leaf_alloc_spec; done || lia. }
  destruct fuel as [|fuel]; [lia|]. unfold node_alloc. rewrite W_1.
  pose proof (W_pos k) as HW. pose proof (W_le_R (S k)) as HWR. pose proof (R_ge (S k)) as HR.
  rewrite u64_small by (unfold is_u64; lia || (cbn [W] in *; lia)).
  pose proof (shape_entry _ _ _ _ Hs) as Hpm. pose proof (shape_hint _ _ _ _ Hs) as Hh.
  pose proof Hs as (_ & _ & Hks). change (kids_shape k m p b) in Hks.
  pose proof Hr as (Hhint & Hcnt & _).
  cbn [blst_meta_alloc]. unfold BLIST_META_RADIX. rewrite child_skip, child_radix.
  rewrite load_ent, bind_Ret_l by done. destruct (Z.eqb_spec (bmu (ent m p)) 0) as [E|E].
  { (* all allocated *)
    destruct (set_bighint_ent m p 0 Hpm) as (m' & -> & Ho & He). rewrite bind_Ret_l.
    assert (all_are F false b (R (S k))) as Hall by (intros x Hx; eapply cnt_none; [|done]; congruence).
    exists m', SWAPBLK_NONE. split; [done|]. split; [eapply outside_mono; [| |done]; cbn [W]; lia|].
    split; [split; [by eapply outside_at|]; rewrite He; split; [done|by eapply kids_shape_frame]|].
    left. split; [done|]. split; [|apply rep_all_allocated; [by rewrite He, E|done]].
    intros x Hx Hxc (_ & _ & Ha). specialize (Ha x ltac:(lia)). rewrite Hall in Ha by lia. done. }
  destruct (alloc_init k m p b) as (m1 & h & -> & Ho1 & He1 & Hh1 & Hok1 & Hs1 & Hk1); [done||lia..|].
  rewrite bind_Ret_l. cbv zeta.
  destruct (alloc_children_spec (λ m p blk, if W k =? 1 then blst_leaf_alloc m p blkat blk count
      else blst_meta_alloc fuel m p blkat blk count (R k) (u64 (W k - 1))) k p b)
    with (n := turns) (j := 0) (m := m1) as (m2 & r & Hrun & Ho2 & Hs2 & Hres);
    [done|done|done|done|done| |done|lia|pose proof (R_ge k); unfold base; lia|by eapply outside_at|done|done| |].
  { intros m0 j Hj Hbj Hsj Hrj Hatj. pose proof (base_range k b j Hj). pose proof (kid_range k p j Hj).
    apply (IH fuel); [lia|lia|lia|done|lia|by apply base_mod|done|done|done]. }
  { rewrite base_0. intros x Hx Hxc. lia. }
  rewrite base_0 in Hrun. change (idx k 0) with 1 in Hrun. rewrite Hrun, bind_Ret_l. clear Hrun.
  assert (outside p (p + W (S k)) m m2) as Ho by (by eapply outside_trans).
  assert (at_entry m2 p) as Hpm2 by (by eapply outside_at).
  rewrite He1, Hcnt in Hres. destruct Hres as [(-> & He2 & Hno & Hk2)|(Hrn & Hfit & Hk2 & He2)].
  - rewrite Z.eqb_refl.
    destruct (alloc_failed k m2 p b h) as (m3 & -> & Ho3 & Hs3 & Hr3); [done..|].
    exists m3, SWAPBLK_NONE. split; [done|].
    split; [eapply outside_trans; [done|eapply outside_mono; [| |done]; cbn [W]; lia]|].
    split; [done|]. by left.
  - replace (r =? SWAPBLK_NONE) with false by (symmetry; by apply Z.eqb_neq).
    destruct (alloc_taken k m2 p b h r) as [Hs3 Hr3]; [lia|done..|].
    exists m2, r. split; [done|]. split; [done|]. split; [done|]. by right.
Qed.
End Alloc.

(** *** Freeing *)

Lemma kids_rep_ext k m p b F G :
  (∀ x, b ≤ x < b + R (S k) → F x = G x) → kids_rep k m p b F → kids_rep k m p b G.
Proof using Type.
  intros He Hk j Hj Hb. pose proof (base_range k b j Hj). eapply rep_ext; [|by apply Hk].
  intros x Hx. apply He. lia.
Qed.

Lemma give_give F x n n' y : 0 ≤ n → 0 ≤ n' → give (give F x n) (x + n) n' y = give F x (n + n') y.
Proof using Type.
  intros. unfold give, within. destruct (F y); [done|]. cbn. lia.
Qed.

(** The hint of a node is raised to that of the child that grew. *)
Lemma hint_raised k b j F G h hj :
  b mod 64 = 0 → 0 ≤ j < 32 → hint_ok h b (R (S k)) F →
  (∀ y, y < base k b j ∨ base k b j + R k ≤ y → F y = G y) →
  hint_ok hj (base k b j) (R k) G → hint_ok (Z.max h hj) b (R (S k)) G.
Proof using Type.
  intros Hb Hj Hh HG Hhj. apply hint_ok_kids; [done|]. intros j' Hj'.
  destruct (decide (j' = j)) as [->|Hne]; [eapply hint_ok_mono; [done|lia]|].
  eapply hint_ok_mono; [|apply Z.le_max_l]. eapply hint_ok_sub; [by apply hint_ok_kid|].
  intros y Hy HGy. rewrite HG; [done|].
  destruct (decide (j' < j)); [pose proof (base_sep k b j' j)|pose proof (base_sep k b j j')]; lia.
Qed.

(** What freeing [n] blocks from [x] in the node at [p] does. *)
Definition free_post (k : nat) (m : list blmeta) (p b : Z) (F : Z → bool) (x n : Z)
    (o : outcome (list blmeta)) : Prop :=
  ∃ m', o = Ret m' ∧ outside p (p + W k) m m' ∧ shape k m' p b ∧ rep k m' p b (give F x n).

(** A range to free or to fill in a node. *)
Definition range_in (k : nat) (b x n : Z) : Prop :=
  b ≤ x ∧ 1 ≤ n ∧ x + n ≤ b + R k ∧ x + n ≤ blocks.

(** The range that is left at the turn for child [j]. *)
Definition rest_at (k : nat) (b j x n : Z) : Prop :=
  (1 ≤ n ∧ base k b j ≤ x < base k b j + R k) ∨ (n = 0 ∧ x ≤ base k b j).

(** One turn: the part of the range that is in child [j], and what is left. *)
Lemma rest_turn k b j x n :
  0 ≤ b → b + R (S k) ≤ maxblks → rest_at k b j x n → 0 ≤ j < 32 → b ≤ x → x + n ≤ b + R (S k) →
  x + n ≤ blocks → base k b j < x + n →
  let v := u64 (base k b j + R k - x) in
  let v := if n <? v then n else v in
  range_in k (base k b j) x v ∧ v ≤ n ∧ base k b j < blocks ∧
  u64 (x + v) = x + v ∧ u64 (n - v) = n - v ∧ rest_at k b (j + 1) (x + v) (n - v).
Proof using Type.
  intros Hb Hmax Hrest Hj Hbx Hxn Hxb Hlt. pose proof (base_range k b j Hj). pose proof (R_ge k).
  assert (base k b (j + 1) = base k b j + R k) as Hnext by (unfold base; lia).
  destruct Hrest as [(Hn & Hx)|[Hn Hx]]; [|lia]. cbv zeta.
  rewrite (u64_small (base k b j + R k - x)) by (unfold is_u64; lia). unfold range_in, rest_at.
  rewrite Hnext.
  destruct (Z.ltb_spec n (base k b j + R k - x)); rewrite !u64_small by (unfold is_u64; lia); lia.
Qed.

Lemma free_children_spec child k p b :
  0 ≤ p → 0 ≤ b → b + R (S k) ≤ maxblks → b mod 64 = 0 →
  (∀ m j F x n, 0 ≤ j < 32 → base k b j < blocks → shape k m (kid k p j) (base k b j) →
    rep k m (kid k p j) (base k b j) F → range_in k (base k b j) x n → all_are F false x n →
    free_post k m (kid k p j) (base k b j) F x n (child m (kid k p j) x n (base k b j))) →
  ∀ turn j m F x n, 33 ≤ Z.of_nat turn + j → 0 ≤ j ≤ 32 → at_entry m p →
  0 ≤ bm_bighint (ent m p) < SWAPBLK_NONE → hint_ok (bm_bighint (ent m p)) b (R (S k)) F →
  kids_shape k m p b → kids_rep k m p b F → rest_at k b j x n → b ≤ x → x + n ≤ b + R (S k) →
  x + n ≤ blocks → all_are F false x n →
  ∃ m' h, free_children child turn m p x n (R k) (W (S k) - 1) (W k) (idx k j) (base k b j) = Ret m' ∧
    outside p (p + W (S k)) m m' ∧ ent m' p = Blmeta (bmu (ent m p)) h ∧ 0 ≤ h < SWAPBLK_NONE ∧
    hint_ok h b (R (S k)) (give F x n) ∧ kids_shape k m' p b ∧ kids_rep k m' p b (give F x n).
Proof using Type.
  intros Hp Hb0 Hmax Hmod Hchild.
  induction turn as [|turn IH]; intros j m F x n Hn Hj Hpm Hh Hok Hs Hk Hrest Hbx Hxn Hxb Hall; [lia|].
  pose proof (R_ge k) as HR. pose proof (R_ge (S k)). pose proof (W_pos k) as HW.
  cbn [free_children]. rewrite idx_test, u64_small by (unfold is_u64; unfold rest_at in Hrest; lia).
  destruct ((j <? 32) && (base k b j <? x + n)) eqn:Hgo.
  2: { assert (n = 0) as ->.
       { unfold rest_at in Hrest. destruct (decide (j = 32)) as [->|]; [|lia].
         unfold base in Hrest. cbn [R] in Hxn. lia. }
       assert (∀ y, give F x 0 y = F y) as Hg by (intros; apply give_out; lia).
       exists m, (bm_bighint (ent m p)). split; [done|]. split; [done|].
       split; [by destruct (ent m p)|]. split; [done|].
       split; [eapply hint_ok_sub; [done|]; intros; by rewrite <-Hg|].
       split; [done|]. eapply kids_rep_ext; [|done]. intros; by rewrite Hg. }
  destruct (rest_turn k b j x n) as (Hrv & Hvn & Hbj & Hxv & Hnv & Hrest'); [done..|lia|done|done|done|lia|].
  revert Hrv Hvn Hxv Hnv Hrest'. generalize (if n <? u64 (base k b j + R k - x) then n
    else u64 (base k b j + R k - x)). intros v Hrv Hvn Hxv Hnv Hrest'. cbv zeta.
  rewrite load_ent, bind_Ret_l by done. replace (bm_bighint (ent m p) =? SWAPBLK_NONE) with false by lia.
  rewrite idx_kid. pose proof (kid_range k p j ltac:(lia)) as Hkr.
  destruct (Hchild m j F x v) as (m1 & -> & Ho1 & Hs1 & Hr1);
    [lia|done|by apply (Hs j ltac:(lia))|by apply (Hk j ltac:(lia))|done|intros y Hy; apply Hall; lia|].
  assert (∀ y, y < base k b j ∨ base k b j + R k ≤ y → F y = give F x v y) as Hout.
  { intros y Hy. symmetry. apply give_out. unfold range_in in Hrv. lia. }
  assert (kids_shape k m1 p b) as Hks1 by (apply (kids_shape_one k m m1 p b j); done || lia).
  assert (kids_rep k m1 p b (give F x v)) as Hkr1
    by (apply (kids_rep_one k m m1 p b j F); done || lia).
  assert (ent m1 p = ent m p) as Hpe by (apply Ho1; lia).
  assert (at_entry m1 p) as Hpm1 by (by eapply outside_at).
  rewrite bind_Ret_l, !load_ent, !bind_Ret_l by (done || by eapply shape_entry). rewrite Hpe.
  pose proof (shape_hint _ _ _ _ Hs1) as Hhj.
  pose proof (hint_raised k b j F (give F x v) _ _ Hmod ltac:(lia) Hok Hout (rep_hint _ _ _ _ _ Hr1)) as Hmx.
  assert (∃ m2 h, (if bm_bighint (ent m p) <? bm_bighint (ent m1 (kid k p j))
      then set_bighint m1 p (bm_bighint (ent m1 (kid k p j))) else Ret m1) = Ret m2 ∧
      outside p (p + 1) m1 m2 ∧ ent m2 p = Blmeta (bmu (ent m p)) h ∧ 0 ≤ h < SWAPBLK_NONE ∧
      hint_ok h b (R (S k)) (give F x v)) as (m2 & h & -> & Ho2 & He2 & Hh2 & Hok2).
  { destruct (Z.ltb_spec (bm_bighint (ent m p)) (bm_bighint (ent m1 (kid k p j)))).
    - edestruct set_bighint_ent as (m2 & -> & Ho2 & He2); [done|]. rewrite Hpe in He2.
      eexists m2, _. split_and!; [done|done|done|lia|lia|]. by rewrite Z.max_r in Hmx by lia.
    - exists m1, (bm_bighint (ent m p)).
      split_and!; [done|done|rewrite Hpe; by destruct (ent m p)|lia|lia|].
      by rewrite Z.max_l in Hmx by lia. }
  rewrite bind_Ret_l, base_next, idx_next, Hxv, Hnv by lia.
  destruct (IH (j + 1) m2 (give F x v) (x + v) (n - v)) as (m3 & h3 & -> & Ho3 & He3 & Hh3 & Hok3 & Hs3 & Hk3);
    rewrite ?He2; unfold range_in in Hrv;
    [lia|lia|by eapply outside_at|done|done|by eapply kids_shape_frame|by eapply kids_rep_frame|done|lia..| |].
  { intros y Hy. rewrite give_out by lia. apply Hall. lia. }
  assert (∀ y, give (give F x v) (x + v) (n - v) y = give F x n y) as Hgg.
  { intros y. rewrite give_give by lia. f_equal. lia. }
  exists m3, h3. split; [done|]. split.
  { do 2 (eapply outside_trans; [eapply outside_mono; [| |done]; cbn [W] in *; lia|]). done. }
  rewrite He2 in He3. split; [done|]. split; [done|].
  split; [eapply hint_ok_sub; [done|]; intros y _; by rewrite Hgg|].
  split; [done|]. eapply kids_rep_ext; [|done]. intros y _. by rewrite Hgg.
Qed.

Definition node_free (fuel k : nat) (m : list blmeta) (p b x n : Z) : outcome (list blmeta) :=
  if W k =? 1 then blst_leaf_free m p x n
  else blst_meta_free fuel m p x n (R k) (u64 (W k - 1)) b.

Lemma give_none F x n : 0 ≤ n → all_are F false x n → cnt F x n = 0.
Proof using Type. intros Hn Ha. by rewrite (cnt_const _ _ _ false). Qed.

(** The count of a node that is given blocks back, and the level below it. *)
Lemma free_init k m p b F x n :
  0 ≤ p → 0 ≤ b → b + R (S k) ≤ maxblks → b < blocks → at_entry m p → kids_shape k m p b →
  0 ≤ bm_bighint (ent m p) < SWAPBLK_NONE → rep (S k) m p b F →
  range_in (S k) b x n → all_are F false x n →
  ∃ m' h, (if bmu (ent m p) =? 0
       then m ← store m p (Blmeta n n);
            if negb (n =? R (S k))
            then for_children all_allocated_child turns m p (W (S k) - 1) (W k) 1 else Ret m
       else set_bmu m p (u64 (bmu (ent m p) + n))) = Ret m' ∧
    outside p (p + W (S k)) m m' ∧ ent m' p = Blmeta (cnt (give F x n) b (R (S k))) h ∧
    0 ≤ h < SWAPBLK_NONE ∧ hint_ok h b (R (S k)) F ∧ kids_shape k m' p b ∧
    (cnt (give F x n) b (R (S k)) ≠ R (S k) → kids_rep k m' p b F).
Proof using Type.
  intros Hp Hb0 Hmax Hb Hpm Hs Hh (Hhint & Hc & Hk) (Hbx & Hn & Hxn & Hxb) Hall.
  pose proof (R_ge k). pose proof (R_ge (S k)). pose proof (W_pos k).
  pose proof (cnt_bounds F b (R (S k)) ltac:(lia)).
  pose proof (cnt_give F b (R (S k)) x n ltac:(lia) ltac:(lia) ltac:(lia)) as Hg.
  rewrite (give_none F x n) in Hg by (done || lia).
  pose proof (cnt_bounds (give F x n) b (R (S k)) ltac:(lia)).
  destruct (Z.eqb_spec (bmu (ent m p)) 0) as [E|E].
  - assert (all_are F false b (R (S k))) as Hnone by (intros y Hy; eapply cnt_none; [|done]; congruence).
    destruct (store_ent m p (Blmeta n n) Hpm) as (m1 & -> & Ho1 & He1). rewrite bind_Ret_l.
    assert (hint_ok n b (R (S k)) F).
    { apply hint_ok_cnt; [lia|]. lia. }
    destruct (Z.eqb_spec n (R (S k))) as [En|En]; cbn [negb].
    + exists m1, n. split; [done|]. split; [eapply outside_mono; [| |done]; cbn [W]; lia|].
      split; [by rewrite He1; f_equal; lia|]. split; [unfold SWAPBLK_NONE; lia|]. split; [done|].
      split; [by eapply kids_shape_frame|lia].
    + destruct (init_level all_allocated_child k m1 p b F) as (m2 & -> & Ho2 & Hs2 & Hr2);
        [done|done|lia|by eapply kids_shape_frame|done| |].
      { intros m' j Hj Hbj He. apply rep_all_allocated; [done|]. intros y Hy.
        pose proof (base_range k b j Hj). apply Hnone. lia. }
      exists m2, n. split; [done|].
      split; [eapply outside_trans; eapply outside_mono; [| |done| | |done]; cbn [W]; lia|].
      split; [destruct Ho2 as [_ Ho2]; rewrite Ho2, He1 by lia; f_equal; lia|].
      split; [unfold SWAPBLK_NONE; lia|]. done.
  - destruct (set_bmu_ent m p (u64 (bmu (ent m p) + n)) Hpm) as (m1 & -> & Ho1 & He1).
    rewrite u64_small in He1 by (unfold is_u64; lia).
    exists m1, (bm_bighint (ent m p)). split; [done|].
    split; [eapply outside_mono; [| |done]; cbn [W]; lia|].
    split; [rewrite He1; f_equal; lia|]. split; [done|]. split; [done|].
    split; [by eapply kids_shape_frame|]. intros _. eapply kids_rep_frame; [done..|].
    exact (Hk ltac:(lia)).
Qed.

(** The child a range begins in. *)
Lemma range_start k b x n :
  0 ≤ b → b + R (S k) ≤ maxblks → range_in (S k) b x n →
  let j := (x - b) / R k in
  0 ≤ j < 32 ∧ u64 (j * W k + 1) = idx k j ∧ u64 (b + j * R k) = base k b j ∧ rest_at k b j x n.
Proof using Type.
  intros Hb Hmax (Hbx & Hn & Hxn & _). cbv zeta. pose proof (R_ge k) as HR. pose proof (W_pos k).
  pose proof (W_le_R (S k)). destruct (block_kid k b x ltac:(lia)) as (j & Hj & Hjx).
  assert ((x - b) / R k = j) as ->.
  { symmetry. apply (Z.div_unique_pos _ _ _ (x - base k b j)); [lia|]. unfold base. lia. }
  pose proof (base_range k b j Hj). pose proof (kid_range k 0 j Hj) as Hkr. unfold kid in Hkr.
  split; [done|]. rewrite !u64_small by (unfold is_u64, base in *; cbn [W] in *; lia).
  unfold idx. split; [lia|]. split; [done|]. by left.
Qed.

Lemma node_free_spec k fuel m p b F x n :
  (k ≤ fuel)%nat → 0 ≤ p → 0 ≤ b → b < blocks → b + R k ≤ maxblks → b mod 64 = 0 →
  shape k m p b → rep k m p b F → range_in k b x n → all_are F false x n →
  free_post k m p b F x n (node_free fuel k m p b x n).
Proof using Type.
  revert fuel m p b F x n. induction k as [|k IH];
    intros fuel m p b F x n Hfuel Hp Hb0 Hb Hmax Hmod Hs Hr Hin Hall.
  { destruct Hin as (? & ? & ? & _).
    destruct (leaf_free_spec m p b F x n) as (m' & ? & ? & ? & ?); [done..|].
    by exists m'. }
  destruct fuel as [|fuel]; [lia|]. unfold node_free. rewrite W_1.
  pose proof (W_pos k) as HW. pose proof (W_le_R (S k)) as HWR. pose proof (R_ge (S k)) as HR.
  rewrite u64_small by (unfold is_u64; lia || (cbn [W] in *; lia)).
  pose proof (shape_entry _ _ _ _ Hs) as Hpm. pose proof (shape_hint _ _ _ _ Hs) as Hh.
  pose proof Hs as (_ & _ & Hks). change (kids_shape k m p b) in Hks.
  cbn [blst_meta_free]. unfold BLIST_META_RADIX. rewrite child_skip, child_radix.
  rewrite load_ent, bind_Ret_l by done.
  destruct (free_init k m p b F x n) as (m1 & h & -> & Ho1 & He1 & Hh1 & Hok1 & Hs1 & Hk1); [done..|].
  assert (at_entry m1 p) as Hpm1 by (by eapply outside_at).
  rewrite bind_Ret_l, load_ent, bind_Ret_l, He1 by done. cbn [bmu].
  pose proof (cnt_bounds (give F x n) b (R (S k)) ltac:(lia)).
  destruct (Z.eqb_spec (cnt (give F x n) b (R (S k))) (R (S k))) as [E|E].
  { (* all free now *)
    destruct (set_bighint_ent m1 p (R (S k)) Hpm1) as (m2 & Hm2 & Ho2 & He2). rewrite He1 in He2.
    exists m2. split; [done|].
    split; [eapply outside_trans; [done|eapply outside_mono; [| |done]; cbn [W]; lia]|].
    split; [split; [by eapply outside_at|]; rewrite He2; cbn [bm_bighint]; split; [unfold SWAPBLK_NONE; lia|];
      by eapply kids_shape_frame|].
    cbn [rep]. rewrite He2. cbn [bmu bm_bighint]. split; [by apply hint_ok_64|]. split; [done|lia]. }
  replace (R (S k) <? cnt (give F x n) b (R (S k))) with false by lia. cbv zeta.
  destruct (range_start k b x n Hb0 Hmax Hin) as (Hj & -> & -> & Hrest).
  destruct Hin as (Hbx & Hn & Hxn & Hxb).
  destruct (free_children_spec (λ m p freeBlk v blk, if W k =? 1 then blst_leaf_free m p freeBlk v
      else blst_meta_free fuel m p freeBlk v (R k) (u64 (W k - 1)) blk) k p b Hp Hb0 Hmax Hmod)
    with (turn := 33%nat) (j := (x - b) / R k) (m := m1) (F := F) (x := x) (n := n)
    as (m2 & h2 & Hrun & Ho2 & He2 & Hh2 & Hok2 & Hs2 & Hk2);
    rewrite ?He1; [|lia|lia|done|done|done|done|by apply Hk1|done..|].
  { intros m0 j F0 x0 n0 Hj0 Hbj Hsj Hrj Hin0 Hall0.
    pose proof (base_range k b j Hj0). pose proof (kid_range k p j Hj0).
    apply (IH fuel); [lia|lia|lia|done|lia|by apply base_mod|done..]. }
  rewrite Hrun. exists m2. split; [done|]. split; [by eapply outside_trans|].
  rewrite He1 in He2. split.
  - split; [by eapply outside_at|]. by rewrite He2.
  - cbn [rep]. rewrite He2. done.
Qed.

(** *** Filling *)

Definition fill_post (k : nat) (m : list blmeta) (p b : Z) (F : Z → bool) (x n : Z)
    (o : outcome (list blmeta * Z)) : Prop :=
  ∃ m', o = Ret (m', cnt F x n) ∧ outside p (p + W k) m m' ∧ shape k m' p b ∧
    rep k m' p b (take_out F x n).

Lemma take_take F x n n' y :
  0 ≤ n → 0 ≤ n' → take_out (take_out F x n) (x + n) n' y = take_out F x (n + n') y.
Proof using Type. intros. unfold take_out, within. destruct (F y); [|done]. cbn. lia. Qed.

Lemma fill_children_spec child k p b :
  0 ≤ p → 0 ≤ b → b + R (S k) ≤ maxblks → b mod 64 = 0 →
  (∀ m j F x n, 0 ≤ j < 32 → base k b j < blocks → shape k m (kid k p j) (base k b j) →
    rep k m (kid k p j) (base k b j) F → range_in k (base k b j) x n → n ≤ 64 →
    fill_post k m (kid k p j) (base k b j) F x n (child m (kid k p j) x n (base k b j))) →
  ∀ turn j m F x n nblks, 33 ≤ Z.of_nat turn + j → 0 ≤ j ≤ 32 → at_entry m p →
  0 ≤ bm_bighint (ent m p) < SWAPBLK_NONE → kids_shape k m p b → kids_rep k m p b F →
  rest_at k b j x n → b ≤ x → x + n ≤ b + R (S k) → x + n ≤ blocks → 0 ≤ nblks → nblks + n ≤ 64 →
  ∃ m', fill_children child turn m p x n (R k) (W (S k) - 1) (W k) (idx k j) (base k b j) nblks
      = Ret (m', nblks + cnt F x n) ∧
    outside p (p + W (S k)) m m' ∧ ent m' p = ent m p ∧ kids_shape k m' p b ∧
    kids_rep k m' p b (take_out F x n).
Proof using Type.
  intros Hp Hb0 Hmax Hmod Hchild. induction turn as [|turn IH];
    intros j m F x n nblks Hn Hj Hpm Hh Hs Hk Hrest Hbx Hxn Hxb Hnb Hn64; [lia|].
  pose proof (R_ge k) as HR. pose proof (R_ge (S k)). pose proof (W_pos k) as HW.
  cbn [fill_children]. rewrite idx_test, u64_small by (unfold is_u64; unfold rest_at in Hrest; lia).
  destruct ((j <? 32) && (base k b j <? x + n)) eqn:Hgo.
  2: { assert (n = 0) as ->.
       { unfold rest_at in Hrest. destruct (decide (j = 32)) as [->|]; [|lia].
         unfold base in Hrest. cbn [R] in Hxn. lia. }
       exists m. split; [by rewrite cnt_0, Z.add_0_r|]. split; [done|]. split; [done|].
       split; [done|]. eapply kids_rep_ext; [|done]. intros y _. symmetry. apply take_outside. lia. }
  destruct (rest_turn k b j x n) as (Hrv & Hvn & Hbj & Hxv & Hnv & Hrest'); [done..|lia|done|done|done|lia|].
  revert Hrv Hvn Hxv Hnv Hrest'. generalize (if n <? u64 (base k b j + R k - x) then n
    else u64 (base k b j + R k - x)). intros v Hrv Hvn Hxv Hnv Hrest'. cbv zeta.
  rewrite load_ent, bind_Ret_l by done. replace (bm_bighint (ent m p) =? SWAPBLK_NONE) with false by lia.
  rewrite idx_kid. pose proof (kid_range k p j ltac:(lia)) as Hkr.
  destruct (Hchild m j F x v) as (m1 & -> & Ho1 & Hs1 & Hr1);
    [lia|done|by apply (Hs j ltac:(lia))|by apply (Hk j ltac:(lia))|done|lia|].
  pose proof Hrv as (Hv1 & Hv2 & Hv3 & Hv4).
  assert (∀ y, y < base k b j ∨ base k b j + R k ≤ y → F y = take_out F x v y) as Hout.
  { intros y Hy. symmetry. apply take_outside. lia. }
  assert (kids_shape k m1 p b) as Hks1 by (apply (kids_shape_one k m m1 p b j); done || lia).
  assert (kids_rep k m1 p b (take_out F x v)) as Hkr1
    by (apply (kids_rep_one k m m1 p b j F); done || lia).
  assert (ent m1 p = ent m p) as Hpe by (apply Ho1; lia).
  assert (at_entry m1 p) as Hpm1 by (by eapply outside_at).
  pose proof (cnt_bounds F x v). pose proof (cnt_bounds F (x + v) (n - v)).
  assert (cnt F x n = cnt F x v + cnt F (x + v) (n - v)) as Hcn by (rewrite <-cnt_app by lia; f_equal; lia).
  assert (cnt (take_out F x v) (x + v) (n - v) = cnt F (x + v) (n - v)) as Hct
    by (apply cnt_ext; intros; apply take_outside; lia).
  rewrite bind_Ret_l, base_next, idx_next, Hxv, Hnv by lia.
  rewrite (u64_small (nblks + cnt F x v)) by (unfold is_u64; lia).
  destruct (IH (j + 1) m1 (take_out F x v) (x + v) (n - v) (nblks + cnt F x v))
    as (m2 & -> & Ho2 & He2 & Hs2 & Hk2); rewrite ?Hpe; [lia|lia|done..|lia|lia|lia|lia|lia|].
  exists m2. split; [do 2 f_equal; lia|].
  split; [eapply outside_trans; [eapply outside_mono; [| |done]; cbn [W] in *; lia|done]|].
  split; [congruence|]. split; [done|]. eapply kids_rep_ext; [|done]. intros y _.
  rewrite take_take by lia. f_equal. lia.
Qed.

Definition node_fill (fuel k : nat) (m : list blmeta) (p b x n : Z) : outcome (list blmeta * Z) :=
  if W k =? 1 then blst_leaf_fill m p x n
  else blst_meta_fill fuel m p x n (R k) (u64 (W k - 1)) b.

Lemma fill_init k m p b F :
  0 ≤ p → 0 ≤ b → b < blocks → R (S k) ≤ maxblks → at_entry m p → kids_shape k m p b →
  rep (S k) m p b F → bmu (ent m p) ≠ 0 →
  ∃ m', (if bmu (ent m p) =? R (S k)
       then for_children (all_free_child (W k) (R k)) turns m p (W (S k) - 1) (W k) 1
       else Ret m) = Ret m' ∧
    outside p (p + W (S k)) m m' ∧ ent m' p = ent m p ∧ kids_shape k m' p b ∧ kids_rep k m' p b F.
Proof using Type.
  intros Hp Hb0 Hb HR Hpm Hs (Hhint & Hc & Hk) Hne. pose proof (R_ge k) as HRk.
  pose proof (R_ge (S k)). pose proof (W_pos k). pose proof (cnt_bounds F b (R (S k))).
  destruct (Z.eqb_spec (bmu (ent m p)) (R (S k))) as [E|E].
  - destruct (init_level (all_free_child (W k) (R k)) k m p b F) as (m2 & -> & Ho2 & Hs2 & Hr2);
      [done|done|done|done| | |].
    + intros e. unfold all_free_child, SWAPBLK_NONE, BLIST_BMAP_RADIX. cbn [R] in HR.
      destruct (W k =? 1); cbn; lia.
    + intros m' j Hj Hbj He. eapply rep_all_free; [done|]. intros x Hx.
      pose proof (base_range k b j Hj). apply (cnt_full F b (R (S k))); [congruence|lia].
    + exists m2. split; [done|]. split; [eapply outside_mono; [| |done]; cbn [W]; lia|].
      split; [apply Ho2; lia|done].
  - exists m. split_and!; [done..|]. exact (Hk ltac:(lia)).
Qed.

Lemma node_fill_spec k fuel m p b F x n :
  (k ≤ fuel)%nat → 0 ≤ p → 0 ≤ b → b < blocks → b + R k ≤ maxblks → b mod 64 = 0 →
  shape k m p b → rep k m p b F → range_in k b x n → n ≤ 64 →
  fill_post k m p b F x n (node_fill fuel k m p b x n).
Proof using Type.
  revert fuel m p b F x n. induction k as [|k IH];
    intros fuel m p b F x n Hfuel Hp Hb0 Hb Hmax Hmod Hs Hr Hin Hn64.
  { destruct Hin as (? & ? & ? & _).
    destruct (leaf_fill_spec m p b F x n) as (m' & ? & ? & ? & ?); [done..|]. by exists m'. }
  destruct fuel as [|fuel]; [lia|]. unfold node_fill. rewrite W_1.
  pose proof (W_pos k) as HW. pose proof (W_le_R (S k)) as HWR. pose proof (R_ge (S k)) as HR.
  pose proof (R_ge k) as HRk.
  rewrite u64_small by (unfold is_u64; lia || (cbn [W] in *; lia)).
  pose proof (shape_entry _ _ _ _ Hs) as Hpm. pose proof (shape_hint _ _ _ _ Hs) as Hh.
  pose proof Hs as (_ & _ & Hks). change (kids_shape k m p b) in Hks.
  pose proof Hr as (Hhint & Hcnt & _). pose proof Hin as (Hbx & Hn & Hxn & Hxb).
  cbn [blst_meta_fill]. unfold BLIST_META_RADIX. rewrite child_skip, child_radix.
  rewrite load_ent, bind_Ret_l by done.
  replace (n =? R (S k)) with false by (cbn [R]; lia). cbn [orb].
  assert (∀ y, take_out F x n y = true → F y = true) as Hsub
    by (intros y; unfold take_out; by destruct (F y)).
  pose proof (cnt_take F b (R (S k)) x n ltac:(lia) ltac:(lia) ltac:(lia)) as Hct.
  pose proof (cnt_bounds (take_out F x n) b (R (S k)) ltac:(lia)) as Hctb.
  pose proof (cnt_bounds F x n ltac:(lia)) as Hcx.
  pose proof (cnt_bounds F b (R (S k)) ltac:(lia)) as Hcb.
  destruct (Z.eqb_spec (bmu (ent m p)) 0) as [E|E].
  { (* all allocated *)
    destruct (store_ent m p (Blmeta 0 n) Hpm) as (m' & -> & Ho & He). rewrite bind_Ret_l.
    exists m'. split; [do 2 f_equal; lia|]. split; [eapply outside_mono; [| |done]; cbn [W]; lia|].
    split.
    - split; [by eapply outside_at|]. rewrite He. split; [unfold SWAPBLK_NONE; cbn; lia|].
      by eapply kids_shape_frame.
    - cbn [rep]. rewrite He. cbn [bmu bm_bighint]. split; [apply hint_ok_cnt; lia|]. lia. }
  destruct (fill_init k m p b F) as (m1 & -> & Ho1 & He1 & Hs1 & Hk1); [done||lia..|].
  rewrite bind_Ret_l. replace (R k <? n) with false by lia. cbv zeta.
  destruct (range_start k b x n Hb0 Hmax Hin) as (Hj & -> & -> & Hrest).
  destruct (fill_children_spec (λ m p fillBlk v blk, if W k =? 1 then blst_leaf_fill m p fillBlk v
      else blst_meta_fill fuel m p fillBlk v (R k) (u64 (W k - 1)) blk) k p b Hp Hb0 Hmax Hmod)
    with (turn := 33%nat) (j := (x - b) / R k) (m := m1) (F := F) (x := x) (n := n) (nblks := 0)
    as (m2 & -> & Ho2 & He2 & Hs2 & Hk2);
    rewrite ?He1; [|lia|lia|by eapply outside_at|done|done|done|done..|lia|].
  { intros m0 j F0 x0 n0 Hj0 Hbj Hsj Hrj Hin0 Hn0.
    pose proof (base_range k b j Hj0). pose proof (kid_range k p j Hj0).
    apply (IH fuel); [lia|lia|lia|done|lia|by apply base_mod|done..]. }
  assert (outside p (p + W (S k)) m m2) as Ho by (by eapply outside_trans).
  assert (at_entry m2 p) as Hpm2 by (by eapply outside_at).
  rewrite bind_Ret_l, load_ent, bind_Ret_l by done.
  destruct (set_bmu_ent m2 p (u64 (bmu (ent m2 p) - (0 + cnt F x n))) Hpm2) as (m3 & -> & Ho3 & He3).
  rewrite He2, He1, u64_small in He3 by (rewrite ?He2, ?He1; unfold is_u64; lia).
  rewrite bind_Ret_l. exists m3. split; [done|].
  split; [eapply outside_trans; [done|eapply outside_mono; [| |done]; cbn [W]; lia]|].
  split; [split; [by eapply outside_at|]; rewrite He3; split; [done|by eapply kids_shape_frame]|].
  cbn [rep]. rewrite He3. cbn [bmu bm_bighint].
  split; [eapply hint_ok_sub; [done|]; intros y _; apply Hsub|].
  split; [lia|]. intros _. by eapply kids_rep_frame.
Qed.

(** *** Initialisation *)

(** The blocks that are left at the turn for child [j]. *)
Definition left_at (k : nat) (b j : Z) : Z :=
  Z.max 0 (Z.min (b + R (S k)) blocks - base k b j).

(** A node's share of the blocks. *)
Definition share (k : nat) (b : Z) : Z := Z.min (R k) (blocks - b).

Lemma idx_range k j : 0 ≤ j ≤ 32 → 1 ≤ idx k j ≤ W (S k).
Proof using Type. unfold idx. cbn [W]. pose proof (W_pos k). nia. Qed.

(** Both passes over a node: [n] is what they return. *)
Definition init_post (k : nat) (b : Z) (n : Z)
    (o : option (list blmeta) → Z → outcome (Z * option (list blmeta))) : Prop :=
  0 ≤ n ≤ W k ∧ (∀ p, o None p = Ret (n, None)) ∧
  ∀ m p, 0 ≤ p → p + n < Z.of_nat (length m) →
    ∃ m', o (Some m) p = Ret (n, Some m') ∧ outside p (p + W k) m m' ∧ shape k m' p b ∧
      ent m' p = Blmeta 0 0.

(** The children from the [j]th on. *)
Definition kids_from (k : nat) (m : list blmeta) (p b j0 : Z) : Prop := ∀ j, j0 ≤ j < 32 →
  (base k b j < blocks → shape k m (kid k p j) (base k b j)) ∧
  (base k b (j - 1) < blocks ≤ base k b j →
   at_entry m (kid k p j) ∧ bm_bighint (ent m (kid k p j)) = SWAPBLK_NONE).

Lemma kids_from_none k m p b j : blocks ≤ base k b (j - 1) → kids_from k m p b j.
Proof using Type.
  intros Hb j' Hj'. pose proof (R_ge k).
  assert (base k b (j - 1) ≤ base k b (j' - 1)) by (unfold base; nia).
  assert (base k b j' = base k b (j' - 1) + R k) by (unfold base; lia). lia.
Qed.

(** One turn of the loop for a child in use, and for the first past the end. *)
Lemma init_turn child k b turn m p j mi :
  0 ≤ b → R (S k) ≤ maxblks → b + R (S k) ≤ maxblks → 0 ≤ j < 32 → base k b j < blocks →
  init_children child (S turn) m p (R k) (W (S k) - 1) (W k) (idx k j) (left_at k b j) mi =
  ('(x, m) ← child m (p + idx k j) (share k (base k b j));
   init_children child turn m p (R k) (W (S k) - 1) (W k) (idx k (j + 1)) (left_at k b (j + 1))
     (u64 (idx k j + x))).
Proof using Type.
  intros Hb0 HR Hmax Hj Hbj. pose proof (R_ge k). pose proof (base_range k b j Hj).
  assert (base k b (j + 1) = base k b j + R k) as Hnext by (unfold base; lia).
  cbn [init_children]. rewrite idx_test, idx_next by lia. replace (j <? 32) with true by lia.
  unfold left_at, share. rewrite Hnext.
  destruct (Z.leb_spec (R k) (Z.max 0 (Z.min (b + R (S k)) blocks - base k b j))) as [Hle|Hlt].
  - replace (Z.min (R k) (blocks - base k b j)) with (R k) by lia.
    rewrite u64_small by (unfold is_u64; lia). do 3 f_equal.
    replace (Z.max 0 (Z.min (b + R (S k)) blocks - base k b j) - R k) with
      (Z.max 0 (Z.min (b + R (S k)) blocks - (base k b j + R k))) by lia. done.
  - replace (Z.max 0 (Z.min (b + R (S k)) blocks - base k b j)) with (blocks - base k b j) by lia.
    replace (0 <? blocks - base k b j) with true by lia.
    replace (Z.min (R k) (blocks - base k b j)) with (blocks - base k b j) by lia.
    by replace (Z.max 0 (Z.min (b + R (S k)) blocks - (base k b j + R k))) with 0 by lia.
Qed.
Lemma init_stop child k b turn m p j mi :
  0 ≤ j < 32 → blocks ≤ base k b j →
  init_children child (S turn) m p (R k) (W (S k) - 1) (W k) (idx k j) (left_at k b j) mi =
  (m ← (match m with
        | Some m => m ← set_bighint m (kid k p j) SWAPBLK_NONE; Ret (Some m)
        | None => Ret None
        end);
   Ret (idx k j, mi, m)).
Proof using Type.
  intros Hj Hbj. pose proof (R_ge k). cbn [init_children]. rewrite idx_test by lia.
  replace (j <? 32) with true by lia. unfold left_at.
  replace (Z.max 0 (Z.min (b + R (S k)) blocks - base k b j)) with 0 by lia.
  replace (R k <=? 0) with false by lia. by rewrite idx_kid.
Qed.

Lemma init_children_spec child k b :
  0 ≤ b → b + R (S k) ≤ maxblks →
  (∀ j, 0 ≤ j < 32 → base k b j < blocks →
    ∃ n, init_post k (base k b j) n (λ m p, child m p (share k (base k b j)))) →
  ∀ turn j mi, 33 ≤ Z.of_nat turn + j → 0 ≤ j ≤ 32 → base k b (j - 1) < blocks → 0 ≤ mi ≤ idx k j →
  ∃ i mi', idx k j ≤ i ≤ W (S k) ∧ 0 ≤ mi' ≤ i ∧
    (∀ p, init_children child turn None p (R k) (W (S k) - 1) (W k) (idx k j) (left_at k b j) mi
      = Ret (i, mi', None)) ∧
    ∀ m p, 0 ≤ p → p + i < Z.of_nat (length m) →
      ∃ m', init_children child turn (Some m) p (R k) (W (S k) - 1) (W k) (idx k j) (left_at k b j) mi
          = Ret (i, mi', Some m') ∧
        outside (kid k p j) (p + W (S k)) m m' ∧ kids_from k m' p b j.
Proof using Type.
  intros Hb0 Hmax Hchild. pose proof (R_ge k) as HRk. pose proof (W_pos k) as HW.
  pose proof (W_le_R (S k)) as HWR. pose proof (R_ge (S k)).
  induction turn as [|turn IH]; intros j mi Hn Hj Hj1 Hmi; [lia|].
  pose proof (idx_range k j Hj) as Hi. destruct (decide (j = 32)) as [->|Hj32].
  { exists (idx k 32), mi. split; [lia|]. split; [lia|]. cbn [init_children]. rewrite idx_test by lia.
    change (32 <? 32) with false. split; [done|]. intros m p Hp Hlen.
    exists m. split; [done|]. split; [done|]. intros j' Hj'. lia. }
  pose proof (base_range k b j ltac:(lia)) as Hbr.
  destruct (decide (base k b j < blocks)) as [Hbj|Hbj].
  - (* a child in use *)
    destruct (Hchild j ltac:(lia) Hbj) as (n & Hn' & Hnone & Hsome).
    pose proof (idx_range k (j + 1) ltac:(lia)) as Hi1.
    assert (idx k (j + 1) = idx k j + W k) as Hinext by (unfold idx; lia).
    destruct (IH (j + 1) (idx k j + n)) as (i & mi' & Hi' & Hmi' & Hpass1 & Hpass2);
      [lia|lia|by replace (j + 1 - 1) with j by lia|lia|].
    exists i, mi'. split; [lia|]. split; [done|]. split.
    { intros p. rewrite init_turn, Hnone, bind_Ret_l, u64_small by (unfold is_u64; lia || lia || done).
      apply Hpass1. }
    intros m p Hp Hlen. rewrite init_turn by (lia || done).
    destruct (Hsome m (p + idx k j)) as (m1 & -> & Ho1 & Hs1 & _); [lia|lia|].
    rewrite bind_Ret_l, u64_small by (unfold is_u64; lia). rewrite idx_kid in *.
    destruct (Hpass2 m1 p) as (m2 & -> & Ho2 & Hs2); [done|by destruct Ho1 as [-> _]|].
    assert (kid k p (j + 1) = kid k p j + W k) as Hknext by (unfold kid; lia).
    pose proof (kid_range k p j ltac:(lia)).
    exists m2. split; [done|]. split; [eapply outside_trans; eapply outside_mono; [| |done| | |done]; lia|].
    intros j' Hj'. destruct (decide (j' = j)) as [->|]; [|apply Hs2; lia]. split; [|lia].
    intros _. apply (shape_frame k m1); [apply Ho2| |done]. intros q Hq. apply Ho2; lia.
  - (* the terminator *)
    exists (idx k j), mi. split; [lia|]. split; [lia|]. split; [intros p; by rewrite init_stop by lia|].
    intros m p Hp Hlen. rewrite init_stop by lia. pose proof (kid_range k p j ltac:(lia)).
    destruct (set_bighint_ent m (kid k p j) SWAPBLK_NONE) as (m1 & -> & Ho1 & He1).
    { unfold at_entry. rewrite <-idx_kid. lia. }
    exists m1. split; [done|]. split; [eapply outside_mono; [| |done]; lia|].
    intros j' Hj'. destruct (decide (j' = j)) as [->|]; [|apply (kids_from_none _ _ _ _ (j + 1)); [|lia]].
    + split; [lia|]. intros _. rewrite He1. split; [|done]. eapply outside_at; [done|].
      unfold at_entry. rewrite <-idx_kid. lia.
    + replace (j + 1 - 1) with j by lia. lia.
Qed.

Lemma radix_init_spec k fuel b :
  (k < fuel)%nat → 0 ≤ b → b < blocks → b + R k ≤ maxblks →
  ∃ n, init_post k b n (λ m p, blst_radix_init fuel m p (R k) (W k - 1) (share k b)).
Proof using Type.
  revert fuel b. induction k as [|k IH]; intros fuel b Hfuel Hb0 Hb Hmax; (destruct fuel as [|fuel]; [lia|]);
    unfold init_post; cbn [blst_radix_init].
  - exists 0. split; [cbn; lia|]. split; [done|]. intros m p Hp Hlen.
    destruct (store_ent m p (Blmeta 0 0)) as (m' & -> & Ho & He); [unfold at_entry; lia|].
    exists m'. split; [done|]. split; [done|]. split; [|done].
    split; [eapply outside_at; [done|unfold at_entry; lia]|]. by rewrite He.
  - unfold BLIST_BMAP_RADIX, BLIST_META_RADIX. rewrite R_64, child_radix, child_skip. cbv zeta.
    pose proof (W_pos k). pose proof (W_le_R k). pose proof (R_ge k). pose proof (R_ge (S k)).
    assert (share (S k) b = left_at k b 0) as ->.
    { unfold share, left_at. rewrite base_0. lia. }
    rewrite (u64_small (W k - 1)) by (unfold is_u64; cbn [R] in Hmax; lia).
    destruct (init_children_spec (λ m p count, blst_radix_init fuel m p (R k) (W k - 1) count) k b Hb0 Hmax)
      with (turn := 33%nat) (j := 0) (mi := 0) as (i & mi & Hi & Hmi & Hpass1 & Hpass2);
      [|lia|lia|unfold base; lia|unfold idx; lia|].
    { intros j Hj Hbj. pose proof (base_range k b j Hj). apply IH; lia. }
    change (idx k 0) with 1 in *. exists i. split; [lia|]. split.
    { intros p. rewrite bind_Ret_l, Hpass1, bind_Ret_l. do 2 f_equal. case_match; lia. }
    intros m p Hp Hlen.
    destruct (store_ent m p (Blmeta 0 0)) as (m1 & -> & Ho1 & He1); [unfold at_entry; lia|].
    rewrite !bind_Ret_l. pose proof Ho1 as [Hl1 _].
    destruct (Hpass2 m1 p Hp) as (m2 & -> & Ho2 & Hs2); [by rewrite Hl1|].
    pose proof (kid_range k p 0 ltac:(lia)).
    rewrite bind_Ret_l. exists m2. split; [do 2 f_equal; case_match; [f_equal|]; lia || (f_equal; lia)|].
    assert (ent m2 p = Blmeta 0 0) as He2 by (rewrite <-He1; apply Ho2; lia).
    split; [eapply outside_trans; eapply outside_mono; [| |done| | |done]; cbn [W] in *; lia|].
    split; [|done]. split; [unfold at_entry; destruct Ho2 as [-> _]; lia|]. by rewrite He2.
Qed.

(** *** The largest gap *)

(** The blocks in whole leaves. *)
Definition ceil64 (x : Z) : Z := (x + 63) / 64 * 64.

(** A stretch of whole free leaves. *)
Definition free_leaves (F : Z → bool) (x y : Z) : Prop :=
  0 ≤ x ∧ x mod 64 = 0 ∧ y mod 64 = 0 ∧ x < y ∧ all_are F true x (y - x).

(** The search has passed the blocks below [c]. *)
Record gap_inv (F : Z → bool) (g : gaps) (c : Z) : Prop := {
  gi_max : (maxb g = 0 ∧ maxe g = 0) ∨ (free_leaves F (maxb g) (maxe g) ∧ maxe g ≤ c);
  gi_state :
    match g_state g with
    | GAPFIND_FIRSTFREE =>
        ∀ x y, free_leaves F x y → x < c → y ≤ c - 64 ∧ y - x ≤ maxe g - maxb g
    | GAPFIND_FIRSTUSED => free_leaves F (gb g) c ∧
        ∀ x y, free_leaves F x y → x < gb g → y ≤ gb g - 64 ∧ y - x ≤ maxe g - maxb g
    end;
}.

Lemma free_leaves_part F x y x' y' :
  free_leaves F x y → x ≤ x' → x' < y' → y' ≤ y → x' mod 64 = 0 → y' mod 64 = 0 →
  free_leaves F x' y'.
Proof using Type.
  intros (H0 & Hx & Hy & Hlt & Ha) ?????. split_and!; [lia|done|done|lia|].
  intros z Hz. apply Ha. lia.
Qed.
Lemma free_leaves_app F x y z : free_leaves F x y → free_leaves F y z → free_leaves F x z.
Proof using Type.
  intros (? & ? & ? & ? & Ha) (? & ? & ? & ? & Hb). split_and!; [lia|done|done|lia|].
  intros w Hw. destruct (decide (w < y)); [apply Ha|apply Hb]; lia.
Qed.
Lemma aligned_gap x y : x mod 64 = 0 → y mod 64 = 0 → x < y → x + 64 ≤ y.
Proof using Type. intros. zmod. Qed.
Lemma aligned_sub x : x mod 64 = 0 → (x - 64) mod 64 = 0.
Proof using Type. intros. zmod. Qed.

Lemma gap_inv_free F g c c' :
  0 ≤ c → gap_inv F g c → free_leaves F c c' → gap_inv F (gap_free g c) c'.
Proof using Type.
  intros Hc [Hmax Hst] Hf. pose proof Hf as (_ & Hm & Hm' & Hlt & _).
  assert ((maxb g = 0 ∧ maxe g = 0) ∨ (free_leaves F (maxb g) (maxe g) ∧ maxe g ≤ c')) as Hmax'
    by (destruct Hmax as [|[? ?]]; [by left|right; split; [done|lia]]).
  unfold gap_free. destruct (g_state g) eqn:E; (split; [done|]); cbn; rewrite ?E.
  - by split.
  - destruct Hst as [Hcur Hold]. split; [by eapply free_leaves_app|done].
Qed.

Lemma gap_inv_used F g c c' :
  0 ≤ c → c' ≤ maxblks → c mod 64 = 0 → c' mod 64 = 0 → c < c' → gap_inv F g c →
  (∀ l, c ≤ l → l + 64 ≤ c' → l mod 64 = 0 → ¬ free_leaves F l (l + 64)) →
  gap_inv F (gap_used g c) c'.
Proof using Type.
  intros Hc Hmx Hm Hm' Hlt [Hmax Hst] Hno.
  assert (∀ x y, free_leaves F x y → x < c' → y ≤ c) as Hbelow.
  { intros x y Hf Hx. destruct (decide (y ≤ c)); [done|]. exfalso.
    pose proof Hf as (Hx0 & Hxm & Hym & Hxy & _). pose proof (aligned_gap x y Hxm Hym Hxy).
    destruct (decide (x < c)).
    - pose proof (aligned_gap c y Hm Hym ltac:(lia)). pose proof (aligned_gap c c' Hm Hm' Hlt).
      apply (Hno c); [lia|lia|done|]. eapply free_leaves_part; [done|lia..|done|]. clear -Hm. zmod.
    - pose proof (aligned_gap x c' Hxm Hm' Hx). apply (Hno x); [lia|lia|done|].
      eapply free_leaves_part; [done|lia..|done|]. clear -Hxm. zmod. }
  assert (∀ b e, free_leaves F b e → e ≤ c → free_leaves F b e ∧ e ≤ c') as Hwk by (intros; split; [done|lia]).
  pose proof (aligned_gap c c' Hm Hm' Hlt).
  unfold gap_used. destruct (g_state g) eqn:E.
  - split; [destruct Hmax as [|[? ?]]; [by left|right; by apply Hwk]|]. rewrite E.
    intros x y Hf Hx. pose proof (Hbelow x y Hf Hx). split; [lia|].
    destruct Hf as (? & ? & ? & ? & ?). apply (Hst x y); [done|lia].
  - destruct Hst as [Hcur Hold]. pose proof Hcur as (Hg0 & Hgm & _ & Hgc & _).
    assert (∀ x y, free_leaves F x y → x < c' →
      y ≤ c' - 64 ∧ (y - x ≤ c - gb g ∨ y - x ≤ maxe g - maxb g)) as Hall.
    { intros x y Hf Hx. pose proof (Hbelow x y Hf Hx). split; [lia|].
      destruct (decide (x < gb g)); [right; by apply (Hold x y)|left; lia]. }
    assert (0 ≤ maxe g - maxb g ≤ maxblks) by (destruct Hmax as [|[(?&?&?&?&?) ?]]; lia).
    rewrite !u64_small by (unfold is_u64; lia).
    destruct (Z.ltb_spec (maxe g - maxb g) (c - gb g)); split; cbn; rewrite ?E.
    + right. split; [done|lia].
    + intros x y Hf Hx. specialize (Hall x y Hf Hx). lia.
    + destruct Hmax as [|[? ?]]; [by left|right; by apply Hwk].
    + intros x y Hf Hx. specialize (Hall x y Hf Hx). lia.
Qed.

Lemma ceil64_spec : blocks ≤ ceil64 blocks < blocks + 64 ∧ ceil64 blocks mod 64 = 0.
Proof using Type. unfold ceil64. zmod. Qed.

Definition passed (b : Z) : Z := Z.min b (ceil64 blocks).

Lemma passed_range k b : 0 ≤ b → b < blocks → b mod 64 = 0 →
  passed b = b ∧ b < passed (b + R k) ∧ passed (b + R k) mod 64 = 0.
Proof using Type.
  intros Hb0 Hb Hm. pose proof ceil64_spec. pose proof (R_ge k). pose proof (R_mod64 k).
  unfold passed. split; [lia|]. split; [lia|].
  destruct (Z.min_spec (b + R k) (ceil64 blocks)) as [[_ ->]|[_ ->]]; [|tauto]. zmod.
Qed.

Lemma gapfind_children_spec child m k p b F :
  0 ≤ b → b + R (S k) ≤ maxblks → b mod 64 = 0 → b < blocks → kids_shape k m p b →
  (∀ j g, 0 ≤ j < 32 → base k b j < blocks → gap_inv F g (base k b j) →
    ∃ g', child (kid k p j) (base k b j) g = Ret g' ∧ gap_inv F g' (passed (base k b j + R k))) →
  ∀ turn j g, 33 ≤ Z.of_nat turn + j → 0 ≤ j ≤ 32 → base k b (j - 1) < blocks →
  gap_inv F g (passed (base k b j)) →
  ∃ g', gapfind_children child turn m p (R k) (W (S k) - 1) (W k) (idx k j) (base k b j) g = Ret g' ∧
    gap_inv F g' (passed (b + R (S k))).
Proof using Type.
  intros Hb0 Hmax Hmod Hb Hs Hchild. pose proof (R_ge k) as HRk. pose proof ceil64_spec as Hceil.
  induction turn as [|turn IH]; intros j g Hn Hj Hj1 Hg; [lia|].
  cbn [gapfind_children]. rewrite idx_test by lia. destruct (Z.ltb_spec j 32) as [Hj32|Hj32].
  2: { exists g. split; [done|]. replace (b + R (S k)) with (base k b j); [done|].
       replace j with 32 by lia. unfold base. cbn [R]. lia. }
  pose proof (base_range k b j ltac:(lia)) as Hbr.
  destruct (marked_test k m p b j) as [-> Ht]; [lia|done..| |].
  { intros j' Hj'. apply (kids_shape_marked k m p b Hs). lia. }
  rewrite bind_Ret_l, Ht. destruct (Z.leb_spec blocks (base k b j)) as [Hle|Hlt].
  { exists g. split; [done|]. pose proof (base_mod k b j Hmod) as Hbm. unfold passed in *.
    assert (ceil64 blocks ≤ base k b j) by (clear -Hceil Hle Hbm; zmod).
    rewrite Z.min_r in Hg by lia. by rewrite Z.min_r by lia. }
  rewrite idx_kid. destruct (passed_range k (base k b j)) as (Hp & _); [lia|done|by apply base_mod|].
  rewrite Hp in Hg. destruct (Hchild j g ltac:(lia) Hlt Hg) as (g1 & -> & Hg1).
  rewrite bind_Ret_l, base_next, idx_next by lia.
  assert (base k b (j + 1) = base k b j + R k) as Hnext by (unfold base; lia).
  apply IH; [lia|lia|by replace (j + 1 - 1) with j by lia|by rewrite Hnext].
Qed.

Lemma radix_gapfind_spec k fuel m p b F g :
  (k < fuel)%nat → 0 ≤ b → b < blocks → b + R k ≤ maxblks → b mod 64 = 0 →
  (∀ x, F x = true → x < blocks) → shape k m p b → rep k m p b F → gap_inv F g b →
  ∃ g', blst_radix_gapfind fuel m p b (R k) (W k - 1) g = Ret g' ∧ gap_inv F g' (passed (b + R k)).
Proof using Type.
  intros Hfuel Hb0 Hb Hmax Hmod HF. revert fuel p b g Hfuel Hb0 Hb Hmax Hmod.
  induction k as [|k IH]; intros fuel p b g Hfuel Hb0 Hb Hmax Hmod Hs Hr Hg;
    (destruct fuel as [|fuel]; [lia|]); cbn [blst_radix_gapfind];
    pose proof ceil64_spec as Hceil; rewrite load_ent, bind_Ret_l by (by eapply shape_entry);
    unfold BLIST_BMAP_RADIX, BLIST_META_RADIX.
  - change (R 0 =? 64) with true. cbn iota. eexists. split; [done|].
    destruct Hr as (_ & Hu & Hbits). cbn [R] in *.
    assert (passed (b + 64) = b + 64) as -> by (unfold passed; clear -Hceil Hb Hmod; zmod).
    assert ((b + 64) mod 64 = 0) as Hm64 by (clear -Hmod; zmod).
    destruct (Z.eqb_spec (bmu (ent m p)) (not64 0)) as [E|E].
    + apply gap_inv_free; [done|done|]. split_and!; [done|done|done|lia|]. intros x Hx.
      replace x with (b + (x - b)) by lia. rewrite <-Hbits, E by lia.
      change (not64 0) with (Z.ones 64). apply Z.ones_spec_low. lia.
    + apply gap_inv_used; [done|lia|done|done|lia|done|]. intros l Hl Hl' _ (_ & _ & _ & _ & Ha).
      apply E. apply (word_eq 64); [done|done|]. intros i Hi. change (not64 0) with (Z.ones 64).
      rewrite Hbits, Z.ones_spec_low by lia. apply Ha. lia.
  - rewrite R_64, child_radix, child_skip. pose proof Hr as (_ & Hc & Hk).
    pose proof (R_ge (S k)) as HR. pose proof (W_pos k). pose proof (W_le_R k). pose proof (R_ge k).
    destruct (passed_range (S k) b Hb0 Hb Hmod) as (_ & Hlt & Hpm).
    destruct (Z.eqb_spec (bmu (ent m p)) 0) as [E|E].
    { eexists. split; [done|]. apply gap_inv_used; [done| |done|done|done|done|].
      - unfold passed. lia.
      - unfold passed. intros l Hl Hl' _ (_ & _ & _ & _ & Ha).
        pose proof (cnt_none F b (R (S k)) l ltac:(congruence) ltac:(lia)) as Hf.
        rewrite (Ha l) in Hf by lia. done. }
    destruct (Z.eqb_spec (bmu (ent m p)) (R (S k))) as [E'|E'].
    { eexists. split; [done|].
      assert (all_are F true b (R (S k))) as Ha by (intros x Hx; eapply cnt_full; [|done]; congruence).
      pose proof (HF _ (Ha (b + R (S k) - 1) ltac:(lia))).
      assert (passed (b + R (S k)) = b + R (S k)) as Hp by (unfold passed; lia). rewrite Hp in *.
      apply gap_inv_free; [done|done|]. split_and!; [done|done|done|lia|].
      by replace (b + R (S k) - b) with (R (S k)) by lia. }
    cbv zeta. rewrite (u64_small (W k - 1)) by (unfold is_u64; cbn [R] in Hmax; lia).
    pose proof (cnt_bounds F b (R (S k)) ltac:(lia)).
    pose proof Hs as (_ & _ & Hks). change (kids_shape k m p b) in Hks.
    destruct (gapfind_children_spec (λ p blk g, blst_radix_gapfind fuel m p blk (R k) (W k - 1) g)
      m k p b F) with (turn := 33%nat) (j := 0) (g := g) as (g' & Hrun & Hg');
      [done|done|done|done|done| |lia|lia|unfold base; lia| |].
    { intros j g0 Hj Hbj Hg0. pose proof (base_range k b j Hj).
      apply IH; [lia|lia|done|lia|by apply base_mod|by apply Hks| |done].
      by apply (Hk ltac:(lia)). }
    { rewrite base_0. by destruct (passed_range k b Hb0 Hb Hmod) as (-> & _). }
    rewrite base_0 in Hrun. by exists g'.
Qed.
End Tree.

(** ** The operations *)

(** A block list of [bl_blocks] blocks whose free blocks are those of [F]. *)
Definition blist_ok (bl : blist) (F : Z → bool) : Prop :=
  ∃ k, (k ≤ 11)%nat ∧ bl_radix bl = R k ∧ bl_skip bl = W k - 1 ∧
    0 < bl_blocks bl ≤ R k ∧ (∀ x, F x = true → 0 ≤ x < bl_blocks bl) ∧
    shape (bl_blocks bl) k (bl_root bl) 0 0 ∧ rep (bl_blocks bl) k (bl_root bl) 0 0 F ∧
    bl_free bl = cnt F 0 (bl_blocks bl).

Lemma R_mono k k' : (k ≤ k')%nat → R k ≤ R k'.
Proof.
  induction 1 as [|k' _ IH]; [done|]. pose proof (R_ge k'). cbn [R]. lia.
Qed.
Lemma R_max k : (k ≤ 11)%nat → R k ≤ maxblks.
Proof. intros Hk. pose proof (R_mono k 11 Hk) as H. exact H. Qed.

(** The free blocks matter only as a set. *)
#[global] Instance blist_ok_proper : Proper (eq ==> pointwise_relation Z eq ==> iff) blist_ok.
Proof.
  assert (∀ bl F G, (∀ x, F x = G x) → blist_ok bl F → blist_ok bl G) as H.
  { intros bl F G He (k & ? & ? & ? & ? & HF & ? & ? & Hc). exists k. split_and!; try done; try lia.
    - intros x. rewrite <-He. apply HF.
    - eapply rep_ext; [|done]. intros. apply He.
    - rewrite Hc. apply cnt_ext. intros. apply He. }
  intros bl ? <- F G He. split; apply H; [done|]. intros x. by rewrite He.
Qed.

Lemma root_leaf k : (R k =? BLIST_BMAP_RADIX) = (W k =? 1).
Proof.
  unfold BLIST_BMAP_RADIX. destruct k as [|k]; [done|]. by rewrite R_64, W_1.
Qed.
Lemma root_skip k : (k ≤ 11)%nat → u64 (W k - 1) = W k - 1.
Proof.
  intros Hk. pose proof (R_max k Hk). pose proof (W_le_R k). pose proof (W_pos k).
  apply u64_small. unfold is_u64. lia.
Qed.

(** *** Creating *)

Lemma create_radix_spec blocks fuel k :
  0 < blocks ≤ maxblks → (12 ≤ fuel + k)%nat → (k ≤ 11)%nat →
  ∃ k', (k' ≤ 11)%nat ∧ create_radix fuel (R k) (W k - 1) blocks = Ret (R k', W k' - 1) ∧
    blocks ≤ R k'.
Proof.
  intros Hb. revert k. induction fuel as [|fuel IH]; intros k Hf Hk; [lia|]. cbn [create_radix].
  destruct (Z.ltb_spec (R k) blocks) as [Hlt|Hge]; [|by exists k].
  assert (k ≠ 11%nat) as Hne by (intros ->; change (R 11) with maxblks in Hlt; lia).
  pose proof (R_max (S k) ltac:(lia)) as HR. pose proof (W_le_R (S k)). pose proof (W_pos k).
  unfold BLIST_META_RADIX. rewrite (Z.mul_comm (R k)). change (32 * R k) with (R (S k)).
  assert (u64 (u64 (W k - 1 + 1) * 32) = W (S k) - 1) as ->.
  { cbn [W] in *. rewrite !u64_small; unfold is_u64; rewrite ?u64_small by (unfold is_u64; lia); lia. }
  pose proof (R_ge (S k)). rewrite u64_small by (unfold is_u64; lia).
  replace (0 <? W (S k) - 1) with true by (cbn [W]; lia).
  cbn [kassert]. rewrite bind_Ret_l. apply IH; lia.
Qed.

Lemma blist_create_ok mem blocks :
  0 < blocks ≤ BLIST_MAXBLKS → (∀ n, Z.of_nat (length (mem n)) = Z.max 0 n) →
  ∃ bl, blist_create mem blocks = Ret bl ∧ bl_blocks bl = blocks ∧ blist_ok bl (λ _, false).
Proof.
  change BLIST_MAXBLKS with maxblks. intros Hb Hmem. unfold blist_create.
  replace (0 <? blocks) with true by lia. cbn [kassert]. rewrite bind_Ret_l.
  destruct (create_radix_spec blocks depth 0) as (k & Hk & Hcr & Hle); [done|unfold depth; lia|lia|].
  change (R 0) with BLIST_BMAP_RADIX in Hcr. change (W 0 - 1) with 0 in Hcr.
  rewrite Hcr, bind_Ret_l. pose proof (R_max k Hk). pose proof (W_le_R k).
  destruct (radix_init_spec blocks k depth 0) as (n & Hn & Hpass1 & Hpass2);
    [unfold depth; lia|lia|lia|lia|].
  assert (share blocks k 0 = blocks) as Hsh by (unfold share; lia). rewrite Hsh in *.
  rewrite Hpass1, bind_Ret_l. rewrite u64_small by (unfold is_u64; lia).
  destruct (Hpass2 (mem (1 + n)) 0) as (root & -> & _ & Hs & He); [done|rewrite Hmem; lia|].
  rewrite bind_Ret_l. eexists. split; [done|]. split; [done|].
  exists k. cbn [bl_radix bl_skip bl_blocks bl_root bl_free]. split_and!; try done; try lia.
  - by apply rep_all_allocated.
  - by rewrite (cnt_const _ _ _ false) by (done || lia).
Qed.

(** *** Allocating *)

(** Fits do not depend on what is beyond the blocks. *)
Lemma first_fit_blocks F blkat count lo hi hi' r :
  (∀ x, F x = true → x < hi') → hi' ≤ hi → 1 ≤ count →
  first_fit F blkat count lo hi r → first_fit F blkat count lo hi' r.
Proof.
  intros HF Hle Hc [(Hr & Hrc & Hf) Hl]. split.
  - split; [done|]. split; [|done]. destruct Hf as (_ & _ & Ha).
    pose proof (HF (r + count - 1) (Ha (r + count - 1) ltac:(lia))). lia.
  - intros x Hx Hxc Hfx. apply Hl; [done|lia|done].
Qed.

Lemma alloc_at_ok fn bl F count blkat :
  blist_ok bl F → 1 ≤ count ≤ 64 → blkat < bl_blocks bl →
  ∃ bl' r, alloc_at fn bl count blkat = Ret (bl', r) ∧ bl_blocks bl' = bl_blocks bl ∧
    ((r = SWAPBLK_NONE ∧ no_fit F blkat count 0 (bl_blocks bl) ∧ blist_ok bl' F) ∨
     (r ≠ SWAPBLK_NONE ∧ first_fit F blkat count 0 (bl_blocks bl) r ∧
      blist_ok bl' (take_out F r count))).
Proof.
  intros (k & Hk & Hrad & Hskip & Hb & HF & Hs & Hr & Hfree) Hc Hat. unfold alloc_at.
  pose proof (R_max k Hk) as HR. rewrite Hrad, Hskip, root_leaf.
  destruct (node_alloc_spec (bl_blocks bl) F blkat count Hc) with (k := k) (fuel := depth)
    (m := bl_root bl) (p := 0) (b := 0) as (m' & r & Hrun & _ & Hs' & Hres);
    [intros x Hx; by apply HF|unfold depth; lia|done|done|lia|lia|done|lia|done|done|].
  unfold node_alloc in Hrun. rewrite root_skip in Hrun by done. rewrite Hrun, bind_Ret_l. cbv zeta.
  destruct Hres as [(-> & Hno & Hr')|(Hrn & Hfit & Hr')].
  - eexists _, _. split; [done|]. split; [done|]. left. split; [done|]. split.
    + intros x Hx Hxc. apply Hno; lia.
    + exists k. cbn [bl_radix bl_skip bl_blocks bl_root bl_free set_free set_root].
      split_and!; done || lia.
  - replace (r =? SWAPBLK_NONE) with false by (symmetry; by apply Z.eqb_neq). cbn [negb].
    apply (first_fit_blocks _ _ _ _ _ (bl_blocks bl)) in Hfit; [|intros x Hx; by apply HF|lia|lia].
    pose proof Hfit as [(Hr0 & Hrb & (_ & _ & Ha)) _].
    pose proof (cnt_take F 0 (bl_blocks bl) r count ltac:(lia) ltac:(lia) ltac:(lia)) as Hct.
    rewrite (cnt_const F r count true) in Hct by (lia || done).
    pose proof (cnt_bounds (take_out F r count) 0 (bl_blocks bl) ltac:(lia)).
    pose proof (cnt_bounds F 0 (bl_blocks bl) ltac:(lia)).
    cbn [bl_free bl_blocks set_free set_root]. rewrite Hfree, u64_small by (unfold is_u64; lia).
    unfold kassert. replace (r <? bl_blocks bl) with true by lia.
    replace (cnt F 0 (bl_blocks bl) - count <=? bl_blocks bl) with true by lia.
    rewrite !bind_Ret_l. eexists _, _. split; [done|]. split; [done|]. right. split; [done|].
    split; [done|]. exists k. cbn [bl_radix bl_skip bl_blocks bl_root bl_free set_free set_root].
    split_and!; try done; try lia.
    intros x Hx. apply HF. unfold take_out in Hx. by destruct (F x).
Qed.

Lemma blist_alloc_ok bl F count :
  blist_ok bl F → 1 ≤ count ≤ 64 →
  ∃ bl' r, blist_alloc (Some bl) count = Ret (Some bl', r) ∧ bl_blocks bl' = bl_blocks bl ∧
    ((r = SWAPBLK_NONE ∧ no_fit F 0 count 0 (bl_blocks bl) ∧ blist_ok bl' F) ∨
     (r ≠ SWAPBLK_NONE ∧ first_fit F 0 count 0 (bl_blocks bl) r ∧
      blist_ok bl' (take_out F r count))).
Proof.
  intros Hok Hc. assert (0 < bl_blocks bl) by (destruct Hok as (k & ? & ? & ? & ? & _); lia).
  destruct (alloc_at_ok "blist_alloc" bl F count 0) as (bl' & r & Hrun & ?); [done..|].
  exists bl', r. cbn [blist_alloc]. by rewrite Hrun.
Qed.


(** *** Freeing and filling *)

Lemma blist_free_ok bl F x n :
  blist_ok bl F → 0 ≤ x → 1 ≤ n → x + n ≤ bl_blocks bl → all_are F false x n →
  ∃ bl', blist_free (Some bl) x n = Ret (Some bl') ∧ bl_blocks bl' = bl_blocks bl ∧
    blist_ok bl' (give F x n).
Proof.
  intros (k & Hk & Hrad & Hskip & Hb & HF & Hs & Hr & Hfree) Hx Hn Hxn Ha. unfold blist_free.
  pose proof (R_max k Hk) as HR. rewrite Hrad, Hskip, root_leaf.
  rewrite (u64_small (x + n)) by (unfold is_u64; lia). unfold kassert.
  replace (x <? bl_blocks bl) with true by lia. replace (x + n <=? bl_blocks bl) with true by lia.
  rewrite !bind_Ret_l.
  destruct (node_free_spec (bl_blocks bl) k depth (bl_root bl) 0 0 F x n)
    as (m' & Hrun & _ & Hs' & Hr');
    [unfold depth; lia|done|done|lia|lia|done|done|done|unfold range_in; lia|done|].
  unfold node_free in Hrun. rewrite root_skip in Hrun by done. rewrite Hrun, bind_Ret_l. cbv zeta.
  pose proof (cnt_give F 0 (bl_blocks bl) x n ltac:(lia) ltac:(lia) ltac:(lia)) as Hcg.
  rewrite (give_none F x n) in Hcg by (done || lia).
  pose proof (cnt_bounds (give F x n) 0 (bl_blocks bl) ltac:(lia)).
  cbn [bl_free bl_blocks set_free set_root]. rewrite Hfree, u64_small by (unfold is_u64; lia).
  replace (cnt F 0 (bl_blocks bl) + n <=? bl_blocks bl) with true by lia. rewrite bind_Ret_l.
  eexists. split; [done|]. split; [done|].
  exists k. cbn [bl_radix bl_skip bl_blocks bl_root bl_free set_free set_root].
  split_and!; try done; try lia.
  intros y Hy. unfold give, within in Hy. destruct (F y) eqn:E; [by apply HF|lia].
Qed.

Lemma blist_fill_ok bl F x n :
  blist_ok bl F → 0 ≤ x → 1 ≤ n ≤ 64 → x + n ≤ bl_blocks bl →
  ∃ bl', blist_fill (Some bl) x n = Ret (Some bl', cnt F x n) ∧ bl_blocks bl' = bl_blocks bl ∧
    blist_ok bl' (take_out F x n).
Proof.
  intros (k & Hk & Hrad & Hskip & Hb & HF & Hs & Hr & Hfree) Hx Hn Hxn. unfold blist_fill.
  pose proof (R_max k Hk) as HR. rewrite Hrad, Hskip, root_leaf.
  rewrite (u64_small (x + n)) by (unfold is_u64; lia). unfold kassert.
  replace (x <? bl_blocks bl) with true by lia. replace (x + n <=? bl_blocks bl) with true by lia.
  rewrite !bind_Ret_l.
  destruct (node_fill_spec (bl_blocks bl) k depth (bl_root bl) 0 0 F x n)
    as (m' & Hrun & _ & Hs' & Hr');
    [unfold depth; lia|done|done|lia|lia|done|done|done|unfold range_in; lia|lia|].
  unfold node_fill in Hrun. rewrite root_skip in Hrun by done. rewrite Hrun, bind_Ret_l. cbv zeta.
  pose proof (cnt_take F 0 (bl_blocks bl) x n ltac:(lia) ltac:(lia) ltac:(lia)) as Hct.
  pose proof (cnt_bounds (take_out F x n) 0 (bl_blocks bl) ltac:(lia)).
  pose proof (cnt_bounds F x n ltac:(lia)). pose proof (cnt_bounds F 0 (bl_blocks bl) ltac:(lia)).
  cbn [bl_free bl_blocks set_free set_root]. rewrite Hfree, u64_small by (unfold is_u64; lia).
  replace (cnt F 0 (bl_blocks bl) - cnt F x n <=? bl_blocks bl) with true by lia. rewrite bind_Ret_l.
  eexists. split; [done|]. split; [done|].
  exists k. cbn [bl_radix bl_skip bl_blocks bl_root bl_free set_free set_root].
  split_and!; try done; try lia.
  intros y Hy. apply HF. unfold take_out in Hy. by destruct (F y).
Qed.

(** *** The largest gap *)

Lemma blist_gapfind_ok bl F :
  blist_ok bl F →
  ∃ b e, blist_gapfind bl = Ret (b, e) ∧ 0 ≤ b ≤ e ∧ e ≤ bl_blocks bl ∧
    (b < e → free_leaves F b e) ∧ ∀ x y, free_leaves F x y → y - x ≤ e - b.
Proof.
  intros (k & Hk & Hrad & Hskip & Hb & HF & Hs & Hr & Hfree). unfold blist_gapfind.
  pose proof (R_max k Hk) as HR. pose proof (ceil64_spec (bl_blocks bl)) as [Hceil Hcm].
  destruct (radix_gapfind_spec (bl_blocks bl) k depth (bl_root bl) 0 0 F (Gaps GAPFIND_FIRSTFREE 0 0 0 0))
    as (g & Hrun & [Hmax Hst]);
    [unfold depth; lia|done|lia|lia|done|intros x Hx; by apply HF|done|done| |].
  { split; cbn; [by left|]. intros x y (? & ? & ? & ? & ?). lia. }
  rewrite Hrad, Hskip, Hrun, bind_Ret_l. clear Hrun Hs Hr.
  assert (∀ x y, free_leaves F x y → 0 ≤ x ∧ x < y ∧ y ≤ bl_blocks bl) as Hin.
  { intros x y (? & ? & ? & ? & Ha). pose proof (HF (y - 1) (Ha (y - 1) ltac:(lia))). lia. }
  assert (bl_blocks bl ≤ passed (bl_blocks bl) (0 + R k)) as Hp by (unfold passed; lia).
  assert (maxb g = 0 ∧ maxe g = 0 ∨ free_leaves F (maxb g) (maxe g)) as Hmax' by tauto. clear Hmax.
  assert (∀ b e, b = 0 ∧ e = 0 ∨ free_leaves F b e → (∀ x y, free_leaves F x y → y - x ≤ e - b) →
    ∃ b' e', (_ ← kassert "blist_gapfind" (b <=? e);
       _ ← kassert "blist_gapfind" (b <? bl_blocks bl);
       _ ← kassert "blist_gapfind" (e <=? bl_blocks bl); Ret (b, e)) = Ret (b', e') ∧ 0 ≤ b' ≤ e' ∧
      e' ≤ bl_blocks bl ∧ (b' < e' → free_leaves F b' e') ∧
      ∀ x y, free_leaves F x y → y - x ≤ e' - b') as Hfin.
  { intros b e Hbe Hl. exists b, e.
    assert (0 ≤ b ≤ e ∧ b < bl_blocks bl ∧ e ≤ bl_blocks bl ∧ (b < e → free_leaves F b e)) as (?&?&?&?).
    { destruct Hbe as [[-> ->]|Hf]; [lia|]. pose proof (Hin b e Hf). split_and!; [lia..|done]. }
    unfold kassert. replace (b <=? e) with true by lia. replace (b <? bl_blocks bl) with true by lia.
    by replace (e <=? bl_blocks bl) with true by lia. }
  destruct (g_state g).
  - apply Hfin; [done|]. intros x y Hf. pose proof (Hin x y Hf). apply (Hst x y); [done|lia].
  - destruct Hst as [Hcur Hold]. pose proof (Hin _ _ Hcur) as (Hg0 & Hg1 & Hg2).
    replace (passed (bl_blocks bl) (0 + R k)) with (bl_blocks bl) in Hcur by lia.
    assert (0 ≤ maxe g - maxb g ≤ maxblks).
    { destruct Hmax' as [?|Hf]; [lia|]. pose proof (Hin _ _ Hf). lia. }
    rewrite !u64_small by (unfold is_u64; lia).
    assert (∀ x y, free_leaves F x y → y - x ≤ bl_blocks bl - gb g ∨ y - x ≤ maxe g - maxb g) as Hall.
    { intros x y Hf. pose proof (Hin x y Hf).
      destruct (decide (x < gb g)); [right; by apply (Hold x y)|left; lia]. }
    destruct (Z.ltb_spec (maxe g - maxb g) (bl_blocks bl - gb g)); (apply Hfin; [auto|]);
      intros x y Hf; specialize (Hall x y Hf); lia.
Qed.

(** *** Copying *)

(** [G] with the blocks of [F] among [b .. b + n - 1]. *)
Definition copied (G F : Z → bool) (b n : Z) (y : Z) : bool := G y || (within b n y && F y).

Lemma test_bit v i : 0 ≤ i → negb (Z.land v (Z.shiftl 1 i) =? 0) = Z.testbit v i.
Proof.
  intros Hi. rewrite Z.shiftl_1_l.
  assert (Z.land v (2 ^ i) = 0 ↔ Z.testbit v i = false) as H.
  { split.
    - intros H. pose proof (f_equal (λ z, Z.testbit z i) H) as Hb. cbn beta in Hb.
      by rewrite Z.land_spec, Z.pow2_bits_true, andb_true_r, Z.bits_0 in Hb by done.
    - intros H. apply Z.bits_inj'. intros j Hj. rewrite Z.land_spec, Z.pow2_bits_eqb, Z.bits_0 by done.
      destruct (Z.eqb_spec i j) as [<-|]; [by rewrite H|apply andb_false_r]. }
  destruct (Z.eqb_spec (Z.land v (2 ^ i)) 0) as [E|E]; cbn [negb].
  - symmetry. by apply H.
  - symmetry. apply not_false_is_true. by rewrite <-H.
Qed.

Lemma copied_all G F b n y : all_are F true b n → copied G F b n y = give G b n y.
Proof.
  intros Ha. unfold copied, give, within. destruct (G y); [done|]. cbn.
  destruct ((b <=? y) && (y <? b + n)) eqn:E; [|done]. rewrite Ha by lia. done.
Qed.
Lemma copied_nothing G F b n y : all_are F false b n → copied G F b n y = G y.
Proof.
  intros Ha. unfold copied, within. destruct (G y); [done|]. cbn.
  destruct ((b <=? y) && (y <? b + n)) eqn:E; [|done]. rewrite Ha by lia. done.
Qed.
Lemma copied_app G F b n n' y :
  0 ≤ n → 0 ≤ n' → copied (copied G F b n) F (b + n) n' y = copied G F b (n + n') y.
Proof.
  intros. unfold copied, within. destruct (G y); [done|]. cbn.
  destruct (F y); rewrite ?andb_true_r, ?andb_false_r; [|done]. lia.
Qed.

(** One free in the destination. *)
Lemma copy_free D G F b n :
  blist_ok D G → 0 ≤ b → 1 ≤ n → b + n ≤ bl_blocks D → all_are G false b n → all_are F true b n →
  ∃ D', blist_free (Some D) b n = Ret (Some D') ∧ bl_blocks D' = bl_blocks D ∧
    blist_ok D' (copied G F b n).
Proof.
  intros HD Hb Hn Hbn HG HF. destruct (blist_free_ok D G b n) as (D' & -> & ? & Hok); [done..|].
  exists D'. split; [done|]. split; [done|]. revert Hok. apply blist_ok_proper; [done|].
  intros y. by apply copied_all.
Qed.

Lemma copy_bits_spec v b F c G n i D :
  0 ≤ b → b + 64 ≤ maxblks → (∀ y, 0 ≤ y < 64 → Z.testbit v y = F (b + y)) →
  1 ≤ c ≤ 64 → b + c ≤ bl_blocks D → all_are G false b c →
  Z.of_nat n + i = 64 → 0 ≤ i → blist_ok D (copied G F b (Z.min c i)) →
  ∃ D', copy_bits n v b i c (Some D) = Ret (Some D') ∧ bl_blocks D' = bl_blocks D ∧
    blist_ok D' (copied G F b c).
Proof.
  intros Hb Hmax Hv Hc Hbc HG. revert i D Hbc. induction n as [|n IH]; intros i D Hbc Hn Hi HD;
    cbn [copy_bits].
  { exists D. rewrite Z.min_l in HD by lia. done. }
  destruct (Z.ltb_spec i c) as [Hlt|Hge].
  2: { exists D. rewrite Z.min_l in HD by lia. done. }
  rewrite Z.min_r in HD by lia. rewrite test_bit, Hv by lia.
  assert (∀ D', bl_blocks D' = bl_blocks D → blist_ok D' (copied G F b (i + 1)) →
    ∃ D'', copy_bits n v b (i + 1) c (Some D') = Ret (Some D'') ∧ bl_blocks D'' = bl_blocks D ∧
      blist_ok D'' (copied G F b c)) as Hnext.
  { intros D' HD' Hok. rewrite <-HD'. apply IH; [lia|lia|lia|]. by rewrite Z.min_r by lia. }
  rewrite u64_small by (unfold is_u64; lia).
  destruct (F (b + i)) eqn:E.
  - destruct (copy_free D (copied G F b i) F (b + i) 1) as (D' & -> & HD' & Hok); [done|lia|lia|lia| | |].
    + intros y Hy. unfold copied, within. rewrite HG by lia. lia.
    + intros y Hy. by replace y with (b + i) by lia.
    + rewrite bind_Ret_l. apply Hnext; [done|]. revert Hok. apply blist_ok_proper; [done|].
      intros y. symmetry. by apply copied_app.
  - rewrite bind_Ret_l. apply Hnext; [done|]. revert HD. apply blist_ok_proper; [done|].
    intros y. rewrite <-(copied_app G F b i 1 y) by lia. apply copied_nothing.
    intros z Hz. by replace z with (b + i) by lia.
Qed.

(** The blocks that are left to copy at the turn for child [j]. *)
Lemma copy_children_spec child B m k p b F c G :
  0 ≤ p → 0 ≤ b → b + R (S k) ≤ maxblks → b mod 64 = 0 → b < B → kids_shape B k m p b →
  1 ≤ c → b + c ≤ b + R (S k) → b + c ≤ B → all_are G false b c →
  (∀ j D H n, 0 ≤ j < 32 → base k b j < B → 1 ≤ n ≤ R k → base k b j + n ≤ B →
    base k b j + n ≤ bl_blocks D → blist_ok D H → all_are H false (base k b j) n →
    ∃ D', child (kid k p j) (base k b j) (Some D) n = Ret (Some D') ∧ bl_blocks D' = bl_blocks D ∧
      blist_ok D' (copied H F (base k b j) n)) →
  ∀ turn j D n, 33 ≤ Z.of_nat turn + j → 0 ≤ j ≤ 32 → base k b (j - 1) < B →
  b + c ≤ bl_blocks D → n = Z.max 0 (b + c - base k b j) → blist_ok D (copied G F b (c - n)) →
  ∃ D', copy_children child turn m p (R k) (W (S k) - 1) (W k) (idx k j) (base k b j) (Some D) n
      = Ret (Some D') ∧ bl_blocks D' = bl_blocks D ∧ blist_ok D' (copied G F b c).
Proof.
  intros Hp Hb0 Hmax Hmod Hb Hs Hc Hcb HcB HG Hchild. pose proof (R_ge k) as HRk.
  induction turn as [|turn IH]; intros j D n Hn Hj Hj1 HbD Hrem HD; [lia|].
  cbn [copy_children]. rewrite idx_test by lia.
  destruct (Z.eqb_spec n 0) as [E|E]; cbn [negb andb].
  { exists D. rewrite E, Z.sub_0_r in HD. done. }
  assert (j < 32) as Hj32.
  { destruct (decide (j = 32)) as [->|]; [|lia]. unfold base in Hrem. cbn [R] in Hcb. lia. }
  replace (j <? 32) with true by lia. pose proof (base_range k b j ltac:(lia)) as Hbr.
  destruct (marked_test B k m p b j) as [-> Ht]; [lia|done..| |].
  { intros j' Hj'. apply (kids_shape_marked B k m p b Hs). lia. }
  rewrite bind_Ret_l, Ht. replace (B <=? base k b j) with false by lia. rewrite idx_kid.
  assert (base k b (j + 1) = base k b j + R k) as Hnext by (unfold base; lia).
  assert (b + (c - n) = base k b j) as Hat by lia.
  rewrite base_next, idx_next by lia.
  assert (∀ v, 1 ≤ v ≤ R k → v ≤ n → n - v = Z.max 0 (b + c - base k b (j + 1)) →
    ∃ D', (dest ← child (kid k p j) (base k b j) (Some D) v; Ret (dest, n - v)) = Ret (Some D', n - v) ∧
      ∃ D'', copy_children child turn m p (R k) (W (S k) - 1) (W k) (idx k (j + 1)) (base k b (j + 1))
        (Some D') (n - v) = Ret (Some D'') ∧ bl_blocks D'' = bl_blocks D ∧
        blist_ok D'' (copied G F b c)) as Hstep.
  { intros v Hv Hvn Hrem'.
    destruct (Hchild j D (copied G F b (c - n)) v) as (D' & -> & HD' & Hok);
      [lia|lia|lia|lia|lia|done| |].
    { intros y Hy. unfold copied, within. rewrite HG by lia. lia. }
    exists D'. split; [done|]. rewrite <-HD'. apply IH; [lia|lia| |lia|done|].
    - replace (j + 1 - 1) with j by lia. lia.
    - revert Hok. apply blist_ok_proper; [done|]. intros y. rewrite <-Hat, copied_app by lia.
      f_equal. lia. }
  destruct (Z.leb_spec (R k) n) as [Hle|Hlt].
  - rewrite u64_small by (unfold is_u64; lia).
    destruct (Hstep (R k)) as (D' & -> & D'' & H); [lia..|]. rewrite bind_Ret_l. by exists D''.
  - destruct (Hstep n) as (D' & Hrun & D'' & H); [lia..|].
    rewrite Z.sub_diag in *. rewrite Hrun, bind_Ret_l. by exists D''.
Qed.

Lemma blst_copy_spec B F m k fuel p b c G D :
  (k < fuel)%nat → 0 ≤ p → 0 ≤ b → b < B → b + R k ≤ maxblks → b mod 64 = 0 →
  shape B k m p b → rep B k m p b F → 1 ≤ c ≤ R k → b + c ≤ B → b + c ≤ bl_blocks D →
  all_are G false b c → blist_ok D G →
  ∃ D', blst_copy fuel m p b (R k) (W k - 1) (Some D) c = Ret (Some D') ∧
    bl_blocks D' = bl_blocks D ∧ blist_ok D' (copied G F b c).
Proof.
  revert fuel p b c G D. induction k as [|k IH]; intros fuel p b c G D Hfuel Hp Hb0 Hb Hmax Hmod Hs Hr
    Hc HcB HcD HG HD; (destruct fuel as [|fuel]; [lia|]); cbn [blst_copy];
    rewrite load_ent, bind_Ret_l by (by eapply shape_entry);
    unfold BLIST_BMAP_RADIX, BLIST_META_RADIX.
  - change (R 0 =? 64) with true. cbv iota zeta. destruct Hr as (_ & Hu & Hbits). cbn [R] in *.
    destruct (Z.eqb_spec (bmu (ent m p)) (not64 0)) as [E|E].
    { apply (copy_free D G F b c); [done|done|lia|lia|done|]. intros x Hx.
      replace x with (b + (x - b)) by lia. rewrite <-Hbits, E by lia.
      change (not64 0) with (Z.ones 64). apply Z.ones_spec_low. lia. }
    destruct (Z.eqb_spec (bmu (ent m p)) 0) as [E0|E0]; cbn [negb].
    + exists D. split; [done|]. split; [done|]. revert HD. apply blist_ok_proper; [done|]. intros y.
      apply copied_nothing. intros x Hx. replace x with (b + (x - b)) by lia.
      by rewrite <-Hbits, E0, Z.bits_0 by lia.
    + apply (copy_bits_spec _ _ F c G); [done|lia|done|done|done|done|done|done|].
      revert HD. apply blist_ok_proper; [done|]. intros y. apply copied_nothing. intros x Hx. lia.
  - rewrite R_64, child_radix, child_skip. pose proof Hr as (_ & Hcn & Hk).
    pose proof (R_ge (S k)) as HR. pose proof (W_pos k). pose proof (W_le_R k). pose proof (R_ge k).
    destruct (Z.eqb_spec (bmu (ent m p)) 0) as [E|E].
    { exists D. split; [done|]. split; [done|]. revert HD. apply blist_ok_proper; [done|]. intros y.
      apply copied_nothing. intros x Hx. eapply cnt_none; [by rewrite <-Hcn|lia]. }
    destruct (Z.eqb_spec (bmu (ent m p)) (R (S k))) as [E'|E'].
    { assert (all_are F true b c) as HF by (intros x Hx; eapply cnt_full; [by rewrite <-Hcn|lia]).
      destruct (Z.ltb_spec c (R (S k))); [by apply copy_free; try lia|].
      replace (R (S k)) with c by lia. by apply copy_free; try lia. }
    cbv zeta. rewrite (u64_small (W k - 1)) by (unfold is_u64; cbn [R] in Hmax; lia).
    pose proof (cnt_bounds F b (R (S k)) ltac:(lia)).
    pose proof Hs as (_ & _ & Hks). change (kids_shape B k m p b) in Hks.
    destruct (copy_children_spec (λ p blk dest count,
        blst_copy fuel m p blk (R k) (W k - 1) dest count) B m k p b F c G)
      with (turn := 33%nat) (j := 0) (D := D) (n := c) as (D' & Hrun & HD');
      [done..|lia|lia|done|done| |lia|lia|unfold base; lia|done|rewrite base_0; lia| |].
    { intros j D0 G0 n Hj Hbj Hn HnB HnD Hok Ha. pose proof (base_range k b j Hj).
      pose proof (kid_range k p j Hj).
      apply IH; [lia|lia|lia|done|lia|by apply base_mod|by apply Hks| |done..].
      by apply (Hk ltac:(lia)). }
    { rewrite Z.sub_diag. revert HD. apply blist_ok_proper; [done|]. intros y. apply copied_nothing.
      intros x Hx. lia. }
    rewrite base_0 in Hrun. by exists D'.
Qed.

Lemma blist_resize_ok mem save F count freenew :
  blist_ok save F → 0 < count ≤ BLIST_MAXBLKS → (∀ n, Z.of_nat (length (mem n)) = Z.max 0 n) →
  let kept := Z.min count (bl_blocks save) in
  ∃ new, blist_resize mem (Some save) count freenew = Ret (Some new) ∧ bl_blocks new = count ∧
    blist_ok new (λ x, (within 0 kept x && F x) || (freenew && within kept (count - kept) x)).
Proof.
  intros Hsave Hcount Hmem. cbv zeta. unfold blist_resize.
  destruct (blist_create_ok mem count Hcount Hmem) as (new & -> & Hnb & Hnew).
  rewrite bind_Ret_l. cbn [deref]. rewrite bind_Ret_l.
  pose proof Hsave as (k & Hk & Hrad & Hskip & Hb & HF & Hs & Hr & _). pose proof (R_max k Hk).
  assert ((if bl_blocks save <? count then bl_blocks save else count) = Z.min count (bl_blocks save))
    as -> by (destruct (Z.ltb_spec (bl_blocks save) count); lia).
  set (kept := Z.min count (bl_blocks save)). change BLIST_MAXBLKS with maxblks in Hcount.
  destruct (blst_copy_spec (bl_blocks save) F (bl_root save) k depth 0 0 kept (λ _, false) new)
    as (new1 & Hrun & Hnb1 & Hok1); [unfold depth; lia|done|done|lia|lia|done|done|done|lia|lia|lia|done|done|].
  rewrite Hrad, Hskip, Hrun, bind_Ret_l. cbn [deref]. rewrite bind_Ret_l, Hnb1, Hnb.
  assert ((freenew && (kept <? count)) = false → ∀ x, copied (λ _, false) F 0 kept x =
    (within 0 kept x && F x) || (freenew && within kept (count - kept) x)) as Hsame.
  { intros Hno x. unfold copied. cbn [orb]. destruct freenew; cbn [andb] in *; [|by rewrite orb_false_r].
    replace (within kept (count - kept) x) with false by (unfold within; lia).
    by rewrite orb_false_r. }
  destruct (freenew && (kept <? count)) eqn:E.
  - assert (freenew = true) as -> by (by destruct freenew). cbn [andb] in E.
    rewrite u64_small by (unfold is_u64; lia).
    destruct (blist_free_ok new1 (copied (λ _, false) F 0 kept) kept (count - kept))
      as (new2 & -> & Hnb2 & Hok2); [done|lia|lia|lia| |].
    { intros y Hy. unfold copied, within. cbn [orb]. lia. }
    rewrite bind_Ret_l. cbn [blist_destroy kassert]. rewrite bind_Ret_l.
    exists new2. split; [done|]. split; [congruence|]. exact Hok2.
  - rewrite bind_Ret_l. cbn [blist_destroy kassert]. rewrite bind_Ret_l.
    exists new1. split; [done|]. split; [congruence|]. revert Hok1. apply blist_ok_proper; [done|].
    intros x. symmetry. by apply Hsame.
Qed.

(** ** As an allocator of ranges *)

(** The swap code's use: a request names how many blocks; [SWAPBLK_NONE] is a refusal. *)
Definition blist_serve (bl : blist) (count : Z) : outcome (blist * option range) :=
  '(bl, r) ← blist_alloc (Some bl) count;
  bl ← deref bl;
  Ret (bl, if r =? SWAPBLK_NONE then None else Some (r, count)).
Definition blist_give_back (bl : blist) (g : range) : outcome (blist * bool) :=
  bl ← blist_free (Some bl) g.1 g.2; bl ← deref bl; Ret (bl, true).

(** The free set a tree represents is unique. *)
Lemma rep_unique B k m p b F G :
  rep B k m p b F → rep B k m p b G → (∀ x, F x = true → x < B) → (∀ x, G x = true → x < B) →
  ∀ x, b ≤ x < b + R k → F x = G x.
Proof.
  intros HF HG HFB HGB. revert p b HF HG. induction k as [|k IH]; intros p b; cbn [rep].
  - intros (_ & _ & Hf) (_ & _ & Hg) x Hx. cbn [R] in Hx. replace x with (b + (x - b)) by lia.
    by rewrite <-Hf, <-Hg by lia.
  - intros (_ & Hcf & Hf) (_ & Hcg & Hg) x Hx. pose proof (R_ge (S k)).
    pose proof (cnt_bounds F b (R (S k)) ltac:(lia)).
    destruct (decide (bmu (ent m p) = 0)) as [E|E].
    { rewrite (cnt_none F b (R (S k))), (cnt_none G b (R (S k))); [done|congruence|lia|congruence|lia]. }
    destruct (decide (bmu (ent m p) = R (S k))) as [E'|E'].
    { rewrite (cnt_full F b (R (S k))), (cnt_full G b (R (S k))); [done|congruence|lia|congruence|lia]. }
    destruct (block_kid k b x Hx) as (j & Hj & Hjx).
    destruct (decide (base k b j < B)) as [Hb|Hb].
    + apply (IH (kid k p j) (base k b j)); [by apply Hf; lia|by apply Hg; lia|done].
    + specialize (HFB x). specialize (HGB x). destruct (F x), (G x); naive_solver lia.
Qed.
Lemma R_inj k k' : R k = R k' → k = k'.
Proof.
  intros H. destruct (Nat.lt_trichotomy k k') as [Hl|[->|Hl]]; [exfalso|done|exfalso].
  - pose proof (R_mono (S k) k' ltac:(lia)). pose proof (R_ge k). cbn [R] in *. lia.
  - pose proof (R_mono (S k') k ltac:(lia)). pose proof (R_ge k'). cbn [R] in *. lia.
Qed.
Lemma blist_ok_unique bl F G x : blist_ok bl F → blist_ok bl G → F x = G x.
Proof.
  intros (k & Hk & Hrad & _ & Hb & HF & _ & HrF & _) (k' & Hk' & Hrad' & _ & _ & HG & _ & HrG & _).
  assert (k' = k) as -> by (apply R_inj; congruence).
  destruct (decide (0 ≤ x < 0 + R k)) as [Hx|Hx].
  - apply (rep_unique (bl_blocks bl) k (bl_root bl) 0 0); [done..|naive_solver|naive_solver|done].
  - specialize (HF x). specialize (HG x). destruct (F x), (G x); naive_solver lia.
Qed.

Definition blist_inv (bl : blist) : Prop := ∃ F, blist_ok bl F.
(** The blocks handed out. *)
Definition taken (bl : blist) (x : Z) : Prop :=
  ∃ F, blist_ok bl F ∧ 0 ≤ x < bl_blocks bl ∧ F x = false.

Lemma taken_iff bl F x : blist_ok bl F → taken bl x ↔ 0 ≤ x < bl_blocks bl ∧ F x = false.
Proof.
  intros Hok. split.
  - intros (G & HG & Hx & Hf). by rewrite (blist_ok_unique bl F G x).
  - intros [Hx Hf]. by exists F.
Qed.

#[export] Instance blist_range_allocator :
  RangeAllocator blist_serve blist_give_back blist_inv (λ count, 1 ≤ count ≤ 64) taken.
Proof.
  split.
  - intros bl count [F Hok] Hc. unfold blist_serve.
    destruct (blist_alloc_ok bl F count Hok Hc) as (bl' & r & -> & Hb & Hr).
    rewrite bind_Ret_l. cbn [deref]. rewrite bind_Ret_l. eexists _, _. split; [done|].
    destruct Hr as [(-> & _ & Hok')|(Hrn & [(Hr0 & Hrb & (_ & _ & Ha)) _] & Hok')].
    + rewrite Z.eqb_refl. split; [by exists F|]. intros a.
      by rewrite (taken_iff bl F), (taken_iff bl' F), Hb by done.
    + replace (r =? SWAPBLK_NONE) with false by (symmetry; by apply Z.eqb_neq).
      split; [by eexists|]. split; [cbn; lia|]. unfold in_range. cbn. split.
      * intros a Ha'. rewrite (taken_iff bl F) by done. rewrite Ha by lia. naive_solver.
      * intros a. rewrite (taken_iff bl F), (taken_iff bl' _ _ Hok'), Hb by done.
        destruct (decide (r ≤ a < r + count)) as [Hin|Hin].
        -- rewrite take_in by lia. naive_solver lia.
        -- rewrite take_outside by lia. naive_solver lia.
  - intros bl [x n] [F Hok] Hn Hown. cbn in Hn. unfold in_range in *. cbn in Hown.
    unfold blist_give_back. cbn [fst snd].
    assert (∀ y, x ≤ y < x + n → 0 ≤ y < bl_blocks bl ∧ F y = false) as Hy.
    { intros y Hy. by apply (taken_iff bl F), Hown. }
    pose proof (Hy x ltac:(lia)) as [? _]. pose proof (Hy (x + n - 1) ltac:(lia)) as [? _].
    destruct (blist_free_ok bl F x n) as (bl' & -> & Hb & Hok'); [done|lia|lia|lia| |].
    { intros y Hyx. by apply Hy. }
    rewrite bind_Ret_l. cbn [deref]. rewrite bind_Ret_l. eexists _, _. split; [done|].
    split; [by eexists|]. intros a. rewrite (taken_iff bl F), (taken_iff bl' _ _ Hok'), Hb by done.
    destruct (decide (x ≤ a < x + n)) as [Hin|Hin].
    + rewrite give_in by lia. naive_solver lia.
    + rewrite give_out by lia. naive_solver lia.
Qed.

(** ** Sample lists *)

Definition blist_of (o : outcome blist) : blist :=
  match o with Ret bl => bl | Fault _ => Blist 0 0 0 0 [] 0 end.
Definition freed (bl : blist) (x n : Z) : blist :=
  match blist_free (Some bl) x n with Ret (Some bl) => bl | _ => bl end.

(** 200 blocks, and 2048, all allocated and all free. *)
Definition bl200 : blist := blist_of (blist_create sample_mem 200).
Definition bl200_free : blist := freed bl200 0 200.
Definition bl2048 : blist := blist_of (blist_create sample_mem 2048).

Lemma sample_mem_given n : Z.of_nat (length (sample_mem n)) = Z.max 0 n.
Proof. unfold sample_mem. rewrite length_replicate. lia. Qed.

Lemma bl200_ok : bl_blocks bl200 = 200 ∧ blist_ok bl200 (λ _, false).
Proof.
  destruct (blist_create_ok sample_mem 200) as (bl & Hrun & Hb & Hok);
    [split; [lia|vm_compute; discriminate]|apply sample_mem_given|].
  unfold bl200. by rewrite Hrun.
Qed.
Lemma bl200_free_ok : bl_blocks bl200_free = 200 ∧ blist_ok bl200_free (give (λ _, false) 0 200).
Proof.
  destruct bl200_ok as [Hb Hok].
  destruct (blist_free_ok bl200 (λ _, false) 0 200) as (bl & Hrun & Hb' & Hok'); [done|lia..|done|].
  unfold bl200_free, freed. rewrite Hrun. split; [congruence|exact Hok'].
Qed.

(** ** Properties *)

(** The memory [mallocarray] gives is of the size asked for. *)
Definition memory_given (mem : Z → list blmeta) : Prop := ∀ n, Z.of_nat (length (mem n)) = Z.max 0 n.

(** [blist_create] makes, for any number of blocks up to BLIST_MAXBLKS and
    whatever the memory held before, a tree in which every block is allocated;
    the memory it computes on its first pass is enough for the tree. *)
Theorem blist_create_spec (mem : Z → list blmeta) (blocks : Z) :
  0 < blocks ≤ BLIST_MAXBLKS → memory_given mem →
  ∃ bl, blist_create mem blocks = Ret bl ∧ bl_blocks bl = blocks ∧ bl_free bl = 0 ∧
    blist_ok bl (λ _, false).
Proof.
  intros Hb Hmem. destruct (blist_create_ok mem blocks Hb Hmem) as (bl & Hrun & Hbl & Hok).
  exists bl. split; [done|]. split; [done|]. split; [|done].
  destruct Hok as (k & ? & ? & ? & ? & ? & ? & ? & ->). rewrite (cnt_const _ _ _ false); [done|lia|done].
Qed.

Lemma blist_create_spec_witness :
  0 < 3000 ≤ BLIST_MAXBLKS ∧ memory_given sample_mem ∧
  ∃ bl, blist_create sample_mem 3000 = Ret bl ∧ bl_blocks bl = 3000 ∧ bl_free bl = 0 ∧
    blist_ok bl (λ _, false).
Proof.
  split; [split; [lia|vm_compute; discriminate]|]. split; [exact sample_mem_given|].
  apply (blist_create_spec sample_mem 3000); [split; [lia|vm_compute; discriminate]|exact sample_mem_given].
Defined.



(** C27: [blist_free] of a range of allocated blocks makes exactly that range free,
    and [blist_fill] of up to 64 blocks makes exactly the range allocated and
    returns how many of its blocks were free; neither panics then (see
    [blist_checks_amiss] for other ranges), and [bl_free] remains the number of free
    blocks. *)
Theorem blist_free_fill_spec (bl : blist) (F : Z → bool) (x n : Z) :
  blist_ok bl F → 0 ≤ x → 1 ≤ n → x + n ≤ bl_blocks bl →
  (all_are F false x n →
   ∃ bl', blist_free (Some bl) x n = Ret (Some bl') ∧ bl_blocks bl' = bl_blocks bl ∧
     blist_ok bl' (give F x n)) ∧
  (n ≤ 64 →
   ∃ bl', blist_fill (Some bl) x n = Ret (Some bl', cnt F x n) ∧ bl_blocks bl' = bl_blocks bl ∧
     blist_ok bl' (take_out F x n)).
Proof. intros. split; intros; [by apply blist_free_ok|by apply blist_fill_ok]. Qed.

Lemma blist_free_fill_spec_witness :
  blist_ok bl200 (λ _, false) ∧ all_are (λ _, false) false 10 50 ∧
  (∃ bl', blist_free (Some bl200) 10 50 = Ret (Some bl') ∧ bl_blocks bl' = bl_blocks bl200 ∧
     blist_ok bl' (give (λ _, false) 10 50)) ∧
  ∃ bl', blist_fill (Some bl200) 10 50 = Ret (Some bl', cnt (λ _, false) 10 50) ∧
     bl_blocks bl' = bl_blocks bl200 ∧ blist_ok bl' (take_out (λ _, false) 10 50).
Proof.
  pose proof bl200_ok as [Hb Hok].
  destruct (blist_free_fill_spec bl200 (λ _, false) 10 50 Hok ltac:(lia) ltac:(lia) ltac:(lia)) as [H1 H2].
  split; [exact Hok|]. split; [intros y _; reflexivity|].
  split; [apply H1; intros y _; reflexivity|apply H2; lia].
Defined.

(** [blist_resize] keeps what the two sizes have in common and leaves the blocks
    that are new free or allocated as [freenew] says. *)
Theorem blist_resize_spec (mem : Z → list blmeta) (save : blist) (F : Z → bool) (count : Z)
    (freenew : bool) :
  blist_ok save F → 0 < count ≤ BLIST_MAXBLKS → memory_given mem →
  let kept := Z.min count (bl_blocks save) in
  ∃ new, blist_resize mem (Some save) count freenew = Ret (Some new) ∧ bl_blocks new = count ∧
    blist_ok new (λ x, (within 0 kept x && F x) || (freenew && within kept (count - kept) x)).
Proof. apply blist_resize_ok. Qed.

Lemma blist_resize_spec_witness :
  let F := give (λ _, false) 0 200 in
  blist_ok bl200_free F ∧
  ∃ new, blist_resize sample_mem (Some bl200_free) 150 true = Ret (Some new) ∧ bl_blocks new = 150 ∧
    blist_ok new (λ x, (within 0 (Z.min 150 (bl_blocks bl200_free)) x && F x) ||
      (true && within (Z.min 150 (bl_blocks bl200_free))
                      (150 - Z.min 150 (bl_blocks bl200_free)) x)).
Proof.
  cbv zeta. pose proof bl200_free_ok as [Hb Hok]. split; [exact Hok|].
  apply (blist_resize_spec sample_mem bl200_free (give (λ _, false) 0 200) 150 true);
    [exact Hok|split; [lia|vm_compute; discriminate]|exact sample_mem_given].
Defined.

(** [blist_gapfind] returns a stretch of whole free leaves (64 blocks each) such
    that no stretch of whole free leaves is longer. *)
Theorem blist_gapfind_spec (bl : blist) (F : Z → bool) :
  blist_ok bl F →
  ∃ b e, blist_gapfind bl = Ret (b, e) ∧ 0 ≤ b ≤ e ∧ e ≤ bl_blocks bl ∧
    (b < e → free_leaves F b e) ∧ ∀ x y, free_leaves F x y → y - x ≤ e - b.
Proof. apply blist_gapfind_ok. Qed.

Lemma blist_gapfind_spec_witness :
  let F := give (λ _, false) 0 200 in
  blist_ok bl200_free F ∧ blist_gapfind bl200_free = Ret (0, 192) ∧
  ∃ b e, blist_gapfind bl200_free = Ret (b, e) ∧ 0 ≤ b ≤ e ∧ e ≤ bl_blocks bl200_free ∧
    (b < e → free_leaves F b e) ∧ ∀ x y, free_leaves F x y → y - x ≤ e - b.
Proof.
  cbv zeta. pose proof bl200_free_ok as [Hb Hok]. split; [exact Hok|].
  split; [vm_compute; reflexivity|]. exact (blist_gapfind_spec _ _ Hok).
Defined.

(** C26: A client of the swap space that gives back only what it was given never
    makes the allocator panic and never holds a block twice: through any
    sequence of allocations of up to 64 blocks and frees, the ranges it holds
    are apart and are together exactly the blocks not free. *)
Theorem blist_client_safe (bl : blist) (ops : list (client_op Z)) :
  blist_ok bl (within 0 (bl_blocks bl)) → Forall (op_ok (λ count, 1 ≤ count ≤ 64)) ops →
  ∃ bl' held, client_run blist_serve blist_give_back (bl, []) ops = Ret (bl', held) ∧
    blist_inv bl' ∧ apart held ∧ ∀ a, taken bl' a ↔ Exists (λ g, in_range g a) held.
Proof.
  intros Hok Hops. apply (range_client _ _ _ _ taken); [by eexists| |done].
  intros a. rewrite (taken_iff bl _ _ Hok). unfold within. lia.
Qed.

Lemma blist_client_safe_witness :
  let ops := [Ask 5; Ask 64; GiveBack 1%nat; Ask 60] in
  blist_ok bl200_free (within 0 (bl_blocks bl200_free)) ∧
  Forall (op_ok (λ count, 1 ≤ count ≤ 64)) ops ∧
  ∃ bl' held, client_run blist_serve blist_give_back (bl200_free, []) ops = Ret (bl', held) ∧
    blist_inv bl' ∧ apart held ∧ ∀ a, taken bl' a ↔ Exists (λ g, in_range g a) held.
Proof.
  cbv zeta.
  assert (blist_ok bl200_free (within 0 (bl_blocks bl200_free))) as Hok.
  { destruct bl200_free_ok as [Hb Hok]. rewrite Hb. revert Hok.
    apply blist_ok_proper; [reflexivity|]. intros y. reflexivity. }
  assert (Forall (op_ok (λ count, 1 ≤ count ≤ 64)) [Ask 5; Ask 64; GiveBack 1%nat; Ask 60]) as Hops
    by (repeat constructor; cbn; lia).
  split; [exact Hok|]. split; [exact Hops|].
  exact (blist_client_safe bl200_free _ Hok Hops).
Defined.

(** *** Where the code departs from its documentation *)

(** Two checks that do not do what is documented.  [blist_fill] is said to mark
    any region, but a region of more blocks than a child covers makes it panic:
    100 blocks of 200.  [blist_free] is said to panic if it finds an
    inconsistency, but when a node's count comes out full it believes the count:
    with only block 0 of 2048 allocated, freeing block 1, which is free, is
    accepted, and block 0 can be allocated a second time. *)
Theorem blist_checks_amiss :
  blist_fill (Some bl200_free) 0 100 = Fault (Panic "blst_meta_fill") ∧
  ('(bl, held) ← blist_alloc (Some (freed bl2048 0 2048)) 1;
   bl ← blist_free bl 1 1;
   '(_, again) ← blist_alloc bl 1;
   Ret (held, again)) = Ret (0, 0).
Proof. split; vm_compute; reflexivity. Qed.
