(* ===== verification/Lockf.v ===== *)
(** Advisory record locks: sys/kern/vfs_lockf.c.  The [struct lockf] objects
    stand in a heap and are named by pointers, since a lock is at once in the
    file's list, in the list of what it blocks, and in the hands of the thread
    that asked for it; the lists are lists of pointers.  Every function runs
    under [lockf_lock], so a call is one step; a call that sleeps gives the
    lock up and goes on in a later step.  The model is of one file. *)

From stdpp Require Import sorting.
From S2P Require Import Prelude.
From S2P Require Import StateMonad.

(** ** Constants *)

Definition F_GETLK : Z := 7.
Definition F_SETLK : Z := 8.
Definition F_RDLCK : Z := 1.
Definition F_UNLCK : Z := 2.
Definition F_WRLCK : Z := 3.
Definition F_WAIT : Z := 0x10.
Definition F_FLOCK : Z := 0x20.
Definition F_POSIX : Z := 0x40.
Definition F_INTR : Z := 0x80.
Definition SEEK_SET : Z := 0.
Definition SEEK_CUR : Z := 1.
Definition SEEK_END : Z := 2.
Definition EINTR : Z := 4.
Definition EDEADLK : Z := 11.
Definition EINVAL : Z := 22.
Definition EAGAIN : Z := 35.
Definition ENOLCK : Z := 77.
Definition EOVERFLOW : Z := 87.
Definition LLONG_MAX : Z := 9223372036854775807.
Definition maxlocksperuid : Z := 1024.

Definition SELF : Z := 1.
Definition OTHERS : Z := 2.

(** ** Data *)

Record lockf := Lockf {
  lf_flags : Z;
  lf_type : Z;
  lf_start : Z;
  lf_end : Z;
  lf_id : Z;
  lf_blk : option Z;
  lf_blkhd : list Z;
  lf_uid : Z;
  lf_pid : Z;
}.

Record lockf_state := LockfState {
  ls_locks : list Z;
  ls_pending : list Z;
  ls_refs : Z;
}.

Record flock := Flock { l_start : Z; l_len : Z; l_pid : Z; l_type : Z; l_whence : Z }.

(** What a thread sleeps on: its own request, or, in [lf_purgelocks], the state. *)
Inductive wchan := ChanLock (p : Z) | ChanState.

(** The memory: the lock objects, the next address [pool_get] gives, the
    file's pointer to its state, the count of locks of each user, and the
    wakeups sent to threads that have not run since. *)
Record locks := Locks {
  heap : gmap Z lockf;
  next_addr : Z;
  state : option lockf_state;
  ui_lockcnt : gmap Z Z;
  wakeups : list wchan;
}.

#[global] Instance wchan_eq_dec : EqDecision wchan.
Proof. solve_decision. Defined.

(** ** The state of a call *)

Abbreviation LM := (ST locks).

Definition set_heap (h : gmap Z lockf) (s : locks) : locks :=
  Locks h (next_addr s) (state s) (ui_lockcnt s) (wakeups s).
Definition set_state (st : option lockf_state) (s : locks) : locks :=
  Locks (heap s) (next_addr s) st (ui_lockcnt s) (wakeups s).
Definition set_lockcnt (c : gmap Z Z) (s : locks) : locks :=
  Locks (heap s) (next_addr s) (state s) c (wakeups s).
Definition set_wakeups (w : list wchan) (s : locks) : locks :=
  Locks (heap s) (next_addr s) (state s) (ui_lockcnt s) w.

(** Through a pointer to a lock. *)
Definition lf (p : Z) : LM lockf := λ s, lift (deref (heap s !! p)) s.
Definition upd (p : Z) (g : lockf → lockf) : LM () :=
  x ← lf p; modify (λ s, set_heap (<[p := g x]> (heap s)) s).

Definition set_flags v x := Lockf v (lf_type x) (lf_start x) (lf_end x) (lf_id x) (lf_blk x) (lf_blkhd x) (lf_uid x) (lf_pid x).
Definition set_type v x := Lockf (lf_flags x) v (lf_start x) (lf_end x) (lf_id x) (lf_blk x) (lf_blkhd x) (lf_uid x) (lf_pid x).
Definition set_start v x := Lockf (lf_flags x) (lf_type x) v (lf_end x) (lf_id x) (lf_blk x) (lf_blkhd x) (lf_uid x) (lf_pid x).
Definition set_end v x := Lockf (lf_flags x) (lf_type x) (lf_start x) v (lf_id x) (lf_blk x) (lf_blkhd x) (lf_uid x) (lf_pid x).
Definition set_blk v x := Lockf (lf_flags x) (lf_type x) (lf_start x) (lf_end x) (lf_id x) v (lf_blkhd x) (lf_uid x) (lf_pid x).
Definition set_blkhd v x := Lockf (lf_flags x) (lf_type x) (lf_start x) (lf_end x) (lf_id x) (lf_blk x) v (lf_uid x) (lf_pid x).

(** Through the pointer to the state. *)
Definition ls : LM lockf_state := λ s, lift (deref (state s)) s.
Definition upd_ls (g : lockf_state → lockf_state) : LM () :=
  x ← ls; modify (set_state (Some (g x))).
Definition upd_locks (g : list Z → list Z) : LM () :=
  upd_ls (λ x, LockfState (g (ls_locks x)) (ls_pending x) (ls_refs x)).
Definition upd_pending (g : list Z → list Z) : LM () :=
  upd_ls (λ x, LockfState (ls_locks x) (g (ls_pending x)) (ls_refs x)).
Definition upd_refs (g : Z → Z) : LM () :=
  upd_ls (λ x, LockfState (ls_locks x) (ls_pending x) (g (ls_refs x))).

Definition wakeup_one (c : wchan) : LM () := modify (λ s, set_wakeups (c :: wakeups s) s).

(** *** Queues: sys/queue.h *)

(** [TAILQ_REMOVE]. *)
Fixpoint TAILQ_REMOVE (p : Z) (l : list Z) : list Z :=
  match l with [] => [] | q :: l => if q =? p then l else q :: TAILQ_REMOVE p l end.
(** [TAILQ_INSERT_BEFORE(listelm, elm)], [TAILQ_INSERT_AFTER(head, listelm, elm)]. *)
Fixpoint TAILQ_INSERT_BEFORE (at_ p : Z) (l : list Z) : list Z :=
  match l with [] => [] | q :: l => if q =? at_ then p :: q :: l else q :: TAILQ_INSERT_BEFORE at_ p l end.
Fixpoint TAILQ_INSERT_AFTER (at_ p : Z) (l : list Z) : list Z :=
  match l with [] => [] | q :: l => if q =? at_ then q :: p :: l else q :: TAILQ_INSERT_AFTER at_ p l end.
Definition TAILQ_INSERT_TAIL (p : Z) (l : list Z) : list Z := l ++ [p].
(** The elements from [p] on; the element after [p]. *)
Fixpoint from (p : Z) (l : list Z) : list Z :=
  match l with [] => [] | q :: l' => if q =? p then l else from p l' end.
Definition TAILQ_NEXT (p : Z) (l : list Z) : option Z := head (tail (from p l)).

(** ** Reference counts and allocation *)

Definition ls_ref : LM () := upd_refs (λ n, n + 1).

Definition ls_rele : LM () :=
  upd_refs (λ n, n - 1);;
  x ← ls;
  if 0 <? ls_refs x then mret ()
  else
    lift (kassert "ls_rele" (bool_decide (ls_locks x = [])));;
    lift (kassert "ls_rele" (bool_decide (ls_pending x = [])));;
    modify (set_state None).

(** The user's [ui_lockcnt]; [uid_find] gives every user one. *)
Definition lockcnt (uid : Z) (s : locks) : Z := default 0 (ui_lockcnt s !! uid).
Definition add_lockcnt (uid d : Z) : LM () :=
  modify (λ s, set_lockcnt (<[uid := lockcnt uid s + d]> (ui_lockcnt s)) s).

(** [pool_get] returns an address not in use; the caller sets every field. *)
Definition pool_get : LM Z := λ s,
  Ret (next_addr s, Locks (heap s) (next_addr s + 1) (state s) (ui_lockcnt s) (wakeups s)).

Definition lf_alloc (uid allowfail : Z) : LM (option Z) :=
  n ← gets (lockcnt uid);
  if negb (uid =? 0) && negb (allowfail =? 0) &&
     ((if allowfail =? 1 then maxlocksperuid else maxlocksperuid * 2) <? n)
  then mret None
  else add_lockcnt uid 1;; p ← pool_get; mret (Some p).

Definition lf_free (lock : Z) : LM () :=
  x ← lf lock;
  lift (kassert "lf_free" (bool_decide (lf_blkhd x = [])));;
  ls_rele;;
  add_lockcnt (lf_uid x) (-1);;
  modify (λ s, set_heap (delete lock (heap s)) s).

(** ** Overlaps *)

(** One lock against the range [start .. end]: 0 if they do not meet. *)
Definition overlap_case (x lock : lockf) : outcome Z :=
  let start := lf_start lock in
  let end_ := lf_end lock in
  if (negb (lf_end x =? -1) && (lf_end x <? start)) || (negb (end_ =? -1) && (end_ <? lf_start x))
  then Ret 0
  else if (lf_start x =? start) && (lf_end x =? end_) then Ret 1
  else if (lf_start x <=? start) && ((lf_end x =? -1) || (negb (end_ =? -1) && (end_ <=? lf_end x)))
  then Ret 2
  else if (start <=? lf_start x) && ((end_ =? -1) || (negb (lf_end x =? -1) && (lf_end x <=? end_)))
  then Ret 3
  else if (lf_start x <? start) && ((start <=? lf_end x) || (lf_end x =? -1)) then Ret 4
  else if (start <? lf_start x) && negb (end_ =? -1) && ((end_ <? lf_end x) || (lf_end x =? -1))
  then Ret 5
  else Fault (Panic "lf_findoverlap").

(** The walk from the locks [l] on; it returns the case and [*overlap]. *)
Fixpoint findoverlap (l : list Z) (lock : lockf) (type : Z) : LM (Z * option Z) :=
  match l with
  | [] => mret (0, None)
  | p :: l =>
      x ← lf p;
      if (has type SELF && negb (lf_id x =? lf_id lock)) || (has type OTHERS && (lf_id x =? lf_id lock))
      then findoverlap l lock type
      else
        c ← lift (overlap_case x lock);
        if c =? 0 then
          if has type SELF && negb (lf_end lock =? -1) && (lf_end lock <? lf_start x)
          then mret (0, Some p)
          else findoverlap l lock type
        else mret (c, Some p)
  end.

(** The list from the lock [p] on. *)
Definition walk (p : option Z) : LM (list Z) :=
  match p with None => mret [] | Some p => x ← ls; mret (from p (ls_locks x)) end.

Definition lf_findoverlap (p : option Z) (lock type : Z) : LM (Z * option Z) :=
  l ← walk p; x ← lf lock; findoverlap l x type.

(** [lf_getblock]: the walk goes on behind an overlap that does not block. *)
Fixpoint getblock (fuel : nat) (p : option Z) (lock : Z) : LM (option Z) :=
  match fuel with
  | O => fault OutOfFuel
  | S fuel =>
      '(c, overlap) ← lf_findoverlap p lock OTHERS;
      if c =? 0 then mret None
      else
        o ← lift (deref overlap);
        x ← lf lock; y ← lf o;
        if (lf_type x =? F_WRLCK) || (lf_type y =? F_WRLCK) then mret (Some o)
        else l ← ls; getblock fuel (TAILQ_NEXT o (ls_locks l)) lock
  end.
Definition lf_getblock (p : option Z) (lock : Z) : LM (option Z) :=
  l ← ls; getblock (S (length (ls_locks l))) p lock.

(** [TAILQ_FIRST(&lock->lf_state->ls_locks)]. *)
Definition first_lock : LM (option Z) := x ← ls; mret (head (ls_locks x)).

(** ** Waking and splitting *)

(** [while ((wakelock = TAILQ_FIRST(&lock->lf_blkhd)))] *)
Fixpoint wake_all (l : list Z) (lock flags : Z) : LM () :=
  match l with
  | [] => mret ()
  | w :: l =>
      upd lock (λ x, set_blkhd (TAILQ_REMOVE w (lf_blkhd x)) x);;
      upd w (set_blk None);;
      upd w (λ x, set_flags (Z.lor (lf_flags x) flags) x);;
      wakeup_one (ChanLock w);;
      wake_all l lock flags
  end.
Definition lf_wakelock (lock flags : Z) : LM () :=
  x ← lf lock; wake_all (lf_blkhd x) lock flags.

Definition lf_split (lock1 lock2 : Z) : LM () :=
  x ← lf lock1; y ← lf lock2;
  if lf_start x =? lf_start y then
    n ← lift (quad_ (lf_end y + 1));
    upd lock1 (set_start n);;
    upd_locks (TAILQ_INSERT_BEFORE lock1 lock2)
  else if lf_end x =? lf_end y then
    n ← lift (quad_ (lf_start y - 1));
    upd lock1 (set_end n);;
    upd_locks (TAILQ_INSERT_AFTER lock1 lock2)
  else
    splitlock ← lf_alloc (lf_uid x) 0;
    splitlock ← lift (deref splitlock);
    n ← lift (quad_ (lf_end y + 1));
    modify (λ s, set_heap (<[splitlock := Lockf (lf_flags x) (lf_type x) n (lf_end x) (lf_id x)
                               None [] (lf_uid x) (lf_pid x)]> (heap s)) s);;
    ls_ref;;
    n ← lift (quad_ (lf_start y - 1));
    upd lock1 (set_end n);;
    upd_locks (TAILQ_INSERT_AFTER lock1 lock2);;
    upd_locks (TAILQ_INSERT_AFTER lock2 splitlock).

(** ** Clearing *)

(** [overlap->lf_start = lock->lf_end + 1] and [overlap->lf_end = lock->lf_start - 1]. *)
Definition start_after (overlap lock : Z) : LM () :=
  x ← lf lock; n ← lift (quad_ (lf_end x + 1)); upd overlap (set_start n).
Definition end_before (overlap lock : Z) : LM () :=
  x ← lf lock; n ← lift (quad_ (lf_start x - 1)); upd overlap (set_end n).

(** The loop of [lf_clearlock]. *)
Fixpoint clear_loop (fuel : nat) (p : option Z) (lock : Z) : LM () :=
  match fuel with
  | O => fault OutOfFuel
  | S fuel =>
      '(ovcase, overlap) ← lf_findoverlap p lock SELF;
      if ovcase =? 0 then mret ()
      else
        o ← lift (deref overlap);
        lf_wakelock o 0;;
        if ovcase =? 1 then upd_locks (TAILQ_REMOVE o);; lf_free o
        else if ovcase =? 2 then
          x ← lf o; y ← lf lock;
          if lf_start x =? lf_start y then start_after o lock
          else lf_split o lock;; upd_locks (TAILQ_REMOVE lock)
        else if ovcase =? 3 then
          l ← ls;
          let next := TAILQ_NEXT o (ls_locks l) in
          upd_locks (TAILQ_REMOVE o);; lf_free o;; clear_loop fuel next lock
        else if ovcase =? 4 then
          end_before o lock;;
          l ← ls; clear_loop fuel (TAILQ_NEXT o (ls_locks l)) lock
        else start_after o lock
  end.

Definition lf_clearlock (lock : Z) : LM Z :=
  p ← first_lock;
  match p with
  | None => mret 0
  | Some _ => l ← ls; clear_loop (S (length (ls_locks l))) p lock;; mret 0
  end.

(** ** Setting *)

(** [for (; (block = lf_getblock(lf, lock)) != NULL; lf = TAILQ_NEXT(block))] of
    [lf_deadlock], and the scan of the pending locks inside it. *)
Fixpoint pending_cycle (l : list Z) (lock block : lockf) : LM bool :=
  match l with
  | [] => mret false
  | p :: l =>
      x ← lf p;
      match lf_blk x with
      | None => pending_cycle l lock block
      | Some b =>
          y ← lf b;
          if (lf_pid x =? lf_pid block) && (lf_pid y =? lf_pid lock) then mret true
          else pending_cycle l lock block
      end
  end.

Fixpoint deadlock_loop (fuel : nat) (p : option Z) (lock : Z) : LM bool :=
  match fuel with
  | O => fault OutOfFuel
  | S fuel =>
      block ← lf_getblock p lock;
      match block with
      | None => mret false
      | Some b =>
          y ← lf b; x ← lf lock; l ← ls;
          let next := TAILQ_NEXT b (ls_locks l) in
          if negb (has (lf_flags y) F_POSIX) then deadlock_loop fuel next lock
          else
            found ← pending_cycle (ls_pending l) x y;
            if (found : bool) then mret true else deadlock_loop fuel next lock
      end
  end.
Definition lf_deadlock (lock : Z) : LM bool :=
  p ← first_lock; l ← ls; deadlock_loop (S (length (ls_locks l))) p lock.

(** [while ((ltmp = TAILQ_FIRST(&overlap->lf_blkhd)))]: the locks that wait for
    [overlap] come to wait for [lock]. *)
Fixpoint move_blocked (l : list Z) (overlap lock : Z) : LM () :=
  match l with
  | [] => mret ()
  | w :: l =>
      upd overlap (λ x, set_blkhd (TAILQ_REMOVE w (lf_blkhd x)) x);;
      upd w (set_blk (Some lock));;
      upd lock (λ x, set_blkhd (TAILQ_INSERT_TAIL w (lf_blkhd x)) x);;
      move_blocked l overlap lock
  end.

(** The second loop of [lf_setlock], which adds the lock. *)
Fixpoint add_loop (fuel : nat) (block : option Z) (lock : Z) (needtolink : bool) : LM () :=
  match fuel with
  | O => fault OutOfFuel
  | S fuel =>
      '(ovcase, overlap) ← lf_findoverlap block lock SELF;
      if ovcase =? 0 then
        if needtolink then
          match overlap with
          | Some o => upd_locks (TAILQ_INSERT_BEFORE o lock)
          | None => upd_locks (TAILQ_INSERT_TAIL lock)
          end
        else mret ()
      else
        o ← lift (deref overlap);
        l ← ls;
        let block := TAILQ_NEXT o (ls_locks l) in
        x ← lf lock; y ← lf o;
        if ovcase =? 1 then
          (if (lf_type x =? F_RDLCK) && (lf_type y =? F_WRLCK) then lf_wakelock o 0 else mret ());;
          upd o (set_type (lf_type x));;
          lf_free lock
        else if ovcase =? 2 then
          if lf_type y =? lf_type x then
            (if negb needtolink then upd_locks (TAILQ_REMOVE lock) else mret ());;
            lf_free lock
          else
            (if lf_start y =? lf_start x then
               (if negb needtolink then upd_locks (TAILQ_REMOVE lock) else mret ());;
               upd_locks (TAILQ_INSERT_BEFORE o lock);;
               start_after o lock
             else lf_split o lock);;
            lf_wakelock o 0
        else if ovcase =? 3 then
          (if (lf_type x =? F_RDLCK) && (lf_type y =? F_WRLCK) then lf_wakelock o 0
           else move_blocked (lf_blkhd y) o lock);;
          (if needtolink then upd_locks (TAILQ_INSERT_BEFORE o lock) else mret ());;
          upd_locks (TAILQ_REMOVE o);;
          lf_free o;;
          add_loop fuel block lock false
        else if ovcase =? 4 then
          (if negb needtolink then upd_locks (TAILQ_REMOVE lock) else mret ());;
          upd_locks (TAILQ_INSERT_AFTER o lock);;
          end_before o lock;;
          lf_wakelock o 0;;
          add_loop fuel block lock false
        else
          (if needtolink then upd_locks (TAILQ_INSERT_BEFORE o lock) else mret ());;
          start_after o lock;;
          lf_wakelock o 0
  end.

(** A call returns, or sleeps and is resumed later. *)
Inductive progress := Returns (error : Z) | Sleeps.

(** [lf_setlock] from the top of its first loop to its end, or to the sleep. *)
Definition lf_setlock (lock : Z) : LM progress :=
  p ← first_lock;
  block ← lf_getblock p lock;
  match block with
  | None =>
      p ← first_lock; l ← ls;
      add_loop (S (length (ls_locks l))) p lock true;; mret (Returns 0)
  | Some b =>
      x ← lf lock;
      if negb (has (lf_flags x) F_WAIT) then lf_free lock;; mret (Returns EAGAIN)
      else
        dead ← (if has (lf_flags x) F_POSIX then lf_deadlock lock else mret false);
        if (dead : bool) then lf_free lock;; mret (Returns EDEADLK)
        else
          (if has (lf_flags x) F_FLOCK && (lf_type x =? F_WRLCK) then
             upd lock (set_type F_UNLCK);; _ ← lf_clearlock lock; upd lock (set_type F_WRLCK)
           else mret ());;
          upd lock (set_blk (Some b));;
          upd b (λ y, set_blkhd (TAILQ_INSERT_TAIL lock (lf_blkhd y)) y);;
          upd_pending (TAILQ_INSERT_TAIL lock);;
          mret Sleeps
  end.

(** From the return of [rwsleep_nsec] with [error] to the next sleep or the end. *)
Definition lf_setlock_resume (lock error : Z) : LM progress :=
  upd_pending (TAILQ_REMOVE lock);;
  wakeup_one ChanState;;
  x ← lf lock;
  match lf_blk x with
  | Some b =>
      upd b (λ y, set_blkhd (TAILQ_REMOVE lock (lf_blkhd y)) y);; upd lock (set_blk None)
  | None => mret ()
  end;;
  if negb (error =? 0) then lf_free lock;; mret (Returns error)
  else
    x ← lf lock;
    if has (lf_flags x) F_INTR then lf_free lock;; mret (Returns EINTR)
    else lf_setlock lock.

(** ** Asking, and the entry points *)

Definition lf_getlock (lock : Z) (fl : flock) : LM (Z * flock) :=
  p ← first_lock;
  block ← lf_getblock p lock;
  match block with
  | Some b =>
      x ← lf b;
      n ← (if lf_end x =? -1 then mret 0
           else n ← lift (quad_ (lf_end x - lf_start x)); lift (quad_ (n + 1)));
      mret (0, Flock (lf_start x) n (lf_pid x) (lf_type x) SEEK_SET)
  | None => mret (0, Flock (l_start fl) (l_len fl) (l_pid fl) F_UNLCK (l_whence fl))
  end.

(** The first byte and the last of the range asked for, or an error. *)
Definition lock_range (size : Z) (fl : flock) : outcome (Z + Z * Z) :=
  start ← (if (l_whence fl =? SEEK_SET) || (l_whence fl =? SEEK_CUR) then Ret (Some (l_start fl))
           else if l_whence fl =? SEEK_END then Some <$> quad_ (size + l_start fl)
           else Ret None);
  match start with
  | None => Ret (inl EINVAL)
  | Some start =>
      if start <? 0 then Ret (inl EINVAL)
      else if 0 <? l_len fl then
        n ← quad_ (LLONG_MAX - start);
        if n <? l_len fl - 1 then Ret (inl EOVERFLOW)
        else
          e ← quad_ (start + (l_len fl - 1));
          Ret (inr (start, if e =? LLONG_MAX then -1 else e))
      else if l_len fl <? 0 then
        n ← quad_ (start + l_len fl);
        if n <? 0 then Ret (inl EINVAL) else Ret (inr (n, start - 1))
      else Ret (inr (start, -1))
  end.

(** Who calls: [p->p_ucred->cr_uid] and [p->p_p->ps_pid]. *)
Record caller := Caller { cr_uid : Z; ps_pid : Z }.

Definition lf_advlock (who : caller) (size id op : Z) (fl : flock) (flags : Z) :
    LM (progress * flock) :=
  range ← lift (lock_range size fl);
  match range with
  | inl error => mret (Returns error, fl)
  | inr (start, end_) =>
      st ← gets state;
      if bool_decide (st = None) && negb (op =? F_SETLK)
      then mret (Returns 0, Flock (l_start fl) (l_len fl) (l_pid fl) F_UNLCK (l_whence fl))
      else
        match st with
        | None => modify (set_state (Some (LockfState [] [] 0)))
        | Some _ => mret ()
        end;;
        ls_ref;;
        lock ← lf_alloc (cr_uid who) (if op =? F_SETLK then 1 else 2);
        match lock with
        | None => ls_rele;; mret (Returns ENOLCK, fl)
        | Some lock =>
            modify (λ s, set_heap (<[lock := Lockf flags (l_type fl) start end_ id None []
                (cr_uid who) (if has flags F_POSIX then ps_pid who else -1)]> (heap s)) s);;
            if op =? F_SETLK then r ← lf_setlock lock; mret (r, fl)
            else if op =? F_UNLCK then e ← lf_clearlock lock; lf_free lock;; mret (Returns e, fl)
            else if op =? F_GETLK then
              '(e, fl) ← lf_getlock lock fl; lf_free lock;; mret (Returns e, fl)
            else lf_free lock;; mret (Returns EINVAL, fl)
        end
  end.

(** [TAILQ_FOREACH(lock, &ls->ls_locks, lf_entry) lf_wakelock(lock, F_INTR);] *)
Fixpoint intr_all (l : list Z) : LM () :=
  match l with [] => mret () | p :: l => lf_wakelock p F_INTR;; intr_all l end.

(** [while ((lock = TAILQ_FIRST(&ls->ls_locks)))] *)
Fixpoint purge_all (fuel : nat) : LM () :=
  match fuel with
  | O => fault OutOfFuel
  | S fuel =>
      p ← first_lock;
      match p with
      | None => mret ()
      | Some p => upd_locks (TAILQ_REMOVE p);; lf_free p;; purge_all fuel
      end
  end.

(** From the test of the loop that waits for the pending locks on. *)
Definition lf_purgelocks_resume : LM progress :=
  x ← ls;
  match ls_pending x with
  | _ :: _ => mret Sleeps
  | [] =>
      purge_all (S (length (ls_locks x)));;
      x ← ls;
      lift (kassert "lf_purgelocks" (ls_refs x =? 1));;
      ls_rele;;
      mret (Returns 0)
  end.

Definition lf_purgelocks : LM progress :=
  st ← gets state;
  match st with
  | None => mret (Returns 0)
  | Some x => ls_ref;; intr_all (ls_locks x);; lf_purgelocks_resume
  end.

(** *** Trying it out *)

Definition no_locks : locks := Locks ∅ 1 None ∅ [].
Definition whole (t : Z) : flock := Flock 0 0 0 t SEEK_SET.
Definition bytes_at (start len t : Z) : flock := Flock start len 0 t SEEK_SET.
Definition user (pid : Z) : caller := Caller 1000 pid.

(** A POSIX lock call of process [pid], which is also its [id]. *)
Definition posix (pid op : Z) (fl : flock) (flags : Z) : LM progress :=
  '(r, _) ← lf_advlock (user pid) 100 pid op fl (Z.lor F_POSIX flags); mret r.

(** The locks in force: owner, type, first and last byte. *)
Definition active (s : locks) : list (Z * Z * Z * Z) :=
  match state s with
  | None => []
  | Some x => omap (λ p, (λ x, (lf_id x, lf_type x, lf_start x, lf_end x)) <$> heap s !! p) (ls_locks x)
  end.

Example lockf_runs :
  result ((r1 ← posix 1 F_SETLK (bytes_at 10 20 F_RDLCK) 0;
    r2 ← posix 2 F_SETLK (bytes_at 15 5 F_RDLCK) 0;
    r3 ← posix 1 F_SETLK (bytes_at 12 4 F_WRLCK) 0;
    r4 ← posix 1 F_SETLK (bytes_at 12 2 F_WRLCK) 0;
    r5 ← posix 1 F_UNLCK (bytes_at 20 3 F_UNLCK) 0;
    l ← gets active;
    mret (r1, r2, r3, r4, r5, l)) no_locks) =
  Ret (Returns 0, Returns 0, Returns EAGAIN, Returns 0, Returns 0,
       [(1, F_RDLCK, 10, 11); (1, F_WRLCK, 12, 13); (1, F_RDLCK, 14, 19); (1, F_RDLCK, 23, 29);
        (2, F_RDLCK, 15, 19)]).
Proof. vm_compute. reflexivity. Qed.

(** ** Running the monad *)

Lemma runs_lf p x s Q : heap s !! p = Some x → Q x s → runs (lf p) s Q.
Proof. intros Hp H. exists x, s. unfold lf, lift, deref. by rewrite Hp. Qed.
Lemma runs_ls x s Q : state s = Some x → Q x s → runs ls s Q.
Proof. intros Hs H. exists x, s. unfold ls, lift, deref. by rewrite Hs. Qed.
Lemma runs_upd p g x s Q :
  heap s !! p = Some x → Q tt (set_heap (<[p := g x]> (heap s)) s) → runs (upd p g) s Q.
Proof. intros Hp H. apply runs_bind. eapply runs_lf; [done|]. by apply runs_modify. Qed.
Lemma runs_upd_ls g x s Q :
  state s = Some x → Q tt (set_state (Some (g x)) s) → runs (upd_ls g) s Q.
Proof. intros Hs H. apply runs_bind. eapply runs_ls; [done|]. by apply runs_modify. Qed.

(** The simp set of the primitives; [step] takes the next one. *)
Ltac step_ :=
  lazymatch goal with
  | |- runs (lf _) _ _ => eapply runs_lf; [eassumption|]
  | |- runs ls _ _ => eapply runs_ls; [eassumption|]
  | |- runs (upd_locks _) _ _ => eapply runs_upd_ls; [eassumption|]
  | |- runs (upd_pending _) _ _ => eapply runs_upd_ls; [eassumption|]
  | |- runs (upd_refs _) _ _ => eapply runs_upd_ls; [eassumption|]
  | |- runs (upd _ _) _ _ => eapply runs_upd; [eassumption|]
  | |- runs (wakeup_one _) _ _ => apply runs_modify
  | |- _ => run_step
  end.
Ltac step := step_; cbv beta.

(** ** Ranges *)

(** The last byte; -1 stands for the end of the file, however it grows. *)
Definition lend (e : Z) : Z := if e =? -1 then LLONG_MAX else e.

Definition range_ok (start e : Z) : Prop :=
  0 ≤ start ∧ start ≤ lend e ∧ -1 ≤ e < LLONG_MAX.

(** What ranges and owners are made of: the fields that waking and waiting leave alone. *)
Record core := Core { c_type : Z; c_start : Z; c_end : Z; c_id : Z; c_uid : Z }.
Definition core_of (x : lockf) : core := Core (lf_type x) (lf_start x) (lf_end x) (lf_id x) (lf_uid x).

Definition core_ok (c : core) : Prop := range_ok (c_start c) (c_end c).
Definition meet (c d : core) : Prop := c_start c ≤ lend (c_end d) ∧ c_start d ≤ lend (c_end c).
Definition covers (c : core) (x : Z) : Prop := c_start c ≤ x ≤ lend (c_end c).

#[global] Instance meet_dec c d : Decision (meet c d).
Proof. unfold meet. apply _. Defined.

(** The six cases, with [a] to [b] the lock and [s] to [e] the overlap. *)
Definition case_ok (k a b s e : Z) : Prop :=
  (k = 0 ∧ (e < a ∨ b < s)) ∨
  (k = 1 ∧ s = a ∧ e = b) ∨
  (k = 2 ∧ s ≤ a ∧ b ≤ e ∧ (s < a ∨ b < e)) ∨
  (k = 3 ∧ a ≤ s ∧ e ≤ b ∧ (a < s ∨ e < b)) ∨
  (k = 4 ∧ s < a ∧ a ≤ e ∧ e < b) ∨
  (k = 5 ∧ a < s ∧ s ≤ b ∧ b < e).

Lemma overlap_case_spec x lock :
  core_ok (core_of x) → core_ok (core_of lock) →
  ∃ k, overlap_case x lock = Ret k ∧
    case_ok k (lf_start lock) (lend (lf_end lock)) (lf_start x) (lend (lf_end x)).
Proof.
  unfold core_ok, range_ok, core_of. cbn. intros (Hx1 & Hx2 & Hx3) (Hl1 & Hl2 & Hl3).
  unfold overlap_case, case_ok, lend, LLONG_MAX in *.
  destruct (Z.eqb_spec (lf_end x) (-1)) as [Ex|Ex], (Z.eqb_spec (lf_end lock) (-1)) as [El|El];
    cbn [negb andb orb]; repeat case_match; try (eexists; split; [done|]; lia).
  all: exfalso; lia.
Qed.

(** ** The walks *)

Definition cores (s : locks) : gmap Z core := core_of <$> heap s.

Lemma cores_lookup s p c : cores s !! p = Some c ↔ ∃ x, heap s !! p = Some x ∧ core_of x = c.
Proof. unfold cores. rewrite lookup_fmap, fmap_Some. naive_solver. Qed.

(** A lock by its address and its core; [listed]: they are in the memory. *)
Abbreviation entry := (Z * core)%type (only parsing).
Definition listed (s : locks) (L : list entry) : Prop := ∀ p c, (p, c) ∈ L → cores s !! p = Some c.

Definition before (c d : core) : Prop := lend (c_end c) < c_start d.

(** The locks that a walk looks at, and what it finds of those it goes past. *)
Definition wanted (type : Z) (lk c : core) : Prop :=
  if type =? SELF then c_id c = c_id lk else c_id c ≠ c_id lk.
Definition passed (type : Z) (lk c : core) : Prop :=
  wanted type lk c → if type =? SELF then before c lk else ¬ meet c lk.

#[global] Instance wanted_dec type lk c : Decision (wanted type lk c).
Proof. unfold wanted. case_match; apply _. Defined.

Inductive find_post (type : Z) (lk : core) (L : list entry) : Z → option Z → Prop :=
| find_none : Forall (passed type lk) L.*2 → find_post type lk L 0 None
| find_past L1 p c L2 :
    type = SELF → L = L1 ++ (p, c) :: L2 → c_id c = c_id lk → before lk c →
    Forall (passed type lk) L1.*2 → find_post type lk L 0 (Some p)
| find_at L1 p c L2 k :
    L = L1 ++ (p, c) :: L2 → wanted type lk c → Forall (passed type lk) L1.*2 → 1 ≤ k →
    case_ok k (c_start lk) (lend (c_end lk)) (c_start c) (lend (c_end c)) →
    find_post type lk L k (Some p).

Lemma find_post_cons type lk e L k o :
  passed type lk e.2 → find_post type lk L k o → find_post type lk (e :: L) k o.
Proof.
  intros Hp [Hl|L1 q c L2 Ht -> Hid Hlt Hl|L1 q c L2 k' -> Hw Hl Hk Hc].
  - by apply find_none, Forall_cons.
  - by eapply (find_past _ _ _ (e :: L1)); [..|apply Forall_cons].
  - by eapply (find_at _ _ _ (e :: L1)); [..|apply Forall_cons| |].
Qed.

Lemma skip_wanted type x lock :
  type = SELF ∨ type = OTHERS →
  ((has type SELF && negb (lf_id x =? lf_id lock)) || (has type OTHERS && (lf_id x =? lf_id lock)))
  = bool_decide (¬ wanted type (core_of lock) (core_of x)).
Proof.
  unfold wanted. cbn. intros [-> | ->]; change (has SELF SELF) with true;
    change (has OTHERS OTHERS) with true; change (has SELF OTHERS) with false;
    change (has OTHERS SELF) with false; change (SELF =? SELF) with true;
    change (OTHERS =? SELF) with false; cbn iota;
    destruct (Z.eqb_spec (lf_id x) (lf_id lock)); cbn; symmetry;
    (apply bool_decide_true || apply bool_decide_false); tauto.
Qed.

Lemma findoverlap_spec s type lock L Q :
  type = SELF ∨ type = OTHERS → core_ok (core_of lock) → listed s L → Forall core_ok L.*2 →
  (∀ k o, find_post type (core_of lock) L k o → Q (k, o) s) →
  runs (findoverlap L.*1 lock type) s Q.
Proof.
  intros Ht Hlk. revert Q. induction L as [|[p c] L IH]; intros Q Hs HL HQ; cbn [fmap list_fmap fst findoverlap].
  { step. by apply HQ, find_none. }
  apply Forall_cons in HL as [Hc HL].
  destruct (proj1 (cores_lookup s p c)) as (x & Hx & <-); [apply Hs; set_solver|]. cbn in Hc.
  assert (listed s L) as Hsl by (intros q d Hq; apply Hs; set_solver).
  step. step. rewrite (skip_wanted type) by done. case_bool_decide as Hw.
  { apply IH; [done..|]. intros k o Hf. apply HQ, find_post_cons; [|done]. by intros ?. }
  destruct (overlap_case_spec x lock Hc Hlk) as (k & Hk & Hcase).
  step. eapply runs_lift; [exact Hk|]. destruct (Z.eqb_spec k 0) as [->|Hk0].
  - destruct (has type SELF && negb (lf_end lock =? -1) && (lf_end lock <? lf_start x)) eqn:E.
    + step. assert (type = SELF) as -> by (destruct Ht as [-> | ->]; [done|discriminate]).
      apply HQ. eapply (find_past _ _ _ []); [done|done|exact Hw| |by apply Forall_nil].
      unfold before. cbn. unfold lend. destruct (lf_end lock =? -1); lia.
    + apply IH; [done..|]. intros k o Hf. apply HQ, find_post_cons; [|done].
      intros _. unfold case_ok, before, meet, core_ok, range_ok in *. cbn in *.
      destruct Ht as [-> | ->]; [|cbn; lia]. cbn. change (has SELF SELF) with true in E.
      unfold lend, LLONG_MAX in *.
      destruct (Z.eqb_spec (lf_end lock) (-1)), (Z.eqb_spec (lf_end x) (-1)); cbn in E; lia.
  - step. apply HQ. eapply (find_at _ _ _ []); [done|exact Hw|by apply Forall_nil| |done].
    unfold case_ok in Hcase. lia.
Qed.

(** *** Positions in a list *)

Lemma from_app p l1 l2 : p ∉ l1 → from p (l1 ++ p :: l2) = p :: l2.
Proof.
  induction l1 as [|q l1 IH]; cbn [app from]; [by rewrite Z.eqb_refl|]. intros Hp.
  replace (q =? p) with false by (symmetry; apply Z.eqb_neq; set_solver). apply IH. set_solver.
Qed.
Lemma TAILQ_NEXT_app p l1 l2 : p ∉ l1 → TAILQ_NEXT p (l1 ++ p :: l2) = head l2.
Proof. intros Hp. unfold TAILQ_NEXT. by rewrite from_app. Qed.
Lemma TAILQ_REMOVE_app p l1 l2 : p ∉ l1 → TAILQ_REMOVE p (l1 ++ p :: l2) = l1 ++ l2.
Proof.
  induction l1 as [|q l1 IH]; cbn [app TAILQ_REMOVE]; [by rewrite Z.eqb_refl|]. intros Hp.
  replace (q =? p) with false by (symmetry; apply Z.eqb_neq; set_solver). f_equal. apply IH. set_solver.
Qed.
Lemma TAILQ_INSERT_BEFORE_app p n l1 l2 :
  p ∉ l1 → TAILQ_INSERT_BEFORE p n (l1 ++ p :: l2) = l1 ++ n :: p :: l2.
Proof.
  induction l1 as [|q l1 IH]; cbn [app TAILQ_INSERT_BEFORE]; [by rewrite Z.eqb_refl|]. intros Hp.
  replace (q =? p) with false by (symmetry; apply Z.eqb_neq; set_solver). f_equal. apply IH. set_solver.
Qed.
Lemma TAILQ_INSERT_AFTER_app p n l1 l2 :
  p ∉ l1 → TAILQ_INSERT_AFTER p n (l1 ++ p :: l2) = l1 ++ p :: n :: l2.
Proof.
  induction l1 as [|q l1 IH]; cbn [app TAILQ_INSERT_AFTER]; [by rewrite Z.eqb_refl|]. intros Hp.
  replace (q =? p) with false by (symmetry; apply Z.eqb_neq; set_solver). f_equal. apply IH. set_solver.
Qed.

(** ** Lists of locks *)

(** Two locks of different owners that cannot both be held. *)
Definition conflict (c lk : core) : Prop :=
  c_id c ≠ c_id lk ∧ meet c lk ∧ (c_type lk = F_WRLCK ∨ c_type c = F_WRLCK).

#[global] Instance conflict_dec c lk : Decision (conflict c lk).
Proof. unfold conflict. apply _. Defined.

(** [c] may stand before [d] in the list. *)
Definition follows (c d : core) : Prop := (c_id c = c_id d → before c d) ∧ ¬ conflict c d.
Definition locks_ok (K : list core) : Prop := StronglySorted follows K ∧ Forall core_ok K.

(** [c'] is what is left of [c]. *)
Definition part (c' c : core) : Prop :=
  c_id c' = c_id c ∧ c_type c' = c_type c ∧ c_uid c' = c_uid c ∧
  c_start c ≤ c_start c' ∧ lend (c_end c') ≤ lend (c_end c).

(** What a lock leaves of another of the same owner: the piece before it and
    the piece after it. *)
Definition cut (lk c : core) : list core :=
  if bool_decide (c_id c = c_id lk ∧ meet c lk) then
    (if c_start c <? c_start lk
     then [Core (c_type c) (c_start c) (c_start lk - 1) (c_id c) (c_uid c)] else []) ++
    (if lend (c_end lk) <? lend (c_end c)
     then [Core (c_type c) (c_end lk + 1) (c_end c) (c_id c) (c_uid c)] else [])
  else [c].

Lemma conflict_sym c d : conflict c d → conflict d c.
Proof. unfold conflict, meet. intros (? & ? & ?). split; [congruence|]. tauto. Qed.

Lemma lend_finite a b : -1 ≤ b < LLONG_MAX → lend a < lend b → lend a = a.
Proof. unfold lend, LLONG_MAX. repeat case_match; lia. Qed.
Lemma lend_nonneg e : 0 ≤ e → lend e = e.
Proof. unfold lend. intros. case_match; lia. Qed.

Lemma cut_other lk c : c_id c ≠ c_id lk → cut lk c = [c].
Proof. intros H. unfold cut. by rewrite bool_decide_false by tauto. Qed.
Lemma cut_apart lk c : ¬ meet c lk → cut lk c = [c].
Proof. intros H. unfold cut. by rewrite bool_decide_false by tauto. Qed.

Lemma cut_part lk c c' :
  core_ok c → core_ok lk → c' ∈ cut lk c →
  core_ok c' ∧ part c' c ∧ (c_id c = c_id lk → ¬ meet c' lk).
Proof.
  intros Hc Hlk. unfold cut. case_bool_decide as H; [destruct H as [Hid Hm]|].
  - intros Hin. unfold core_ok, range_ok, meet in *. destruct Hc as (? & ? & ?), Hlk as (? & ? & ?).
    apply elem_of_app in Hin as [Hin|Hin]; case_match; apply list_elem_of_singleton in Hin || by apply elem_of_nil in Hin.
    + subst c'. unfold part, core_ok, range_ok, meet. cbn. rewrite lend_nonneg by lia.
      unfold lend, LLONG_MAX in *. repeat case_match; repeat split; intros; lia.
    + subst c'. assert (lend (c_end lk) = c_end lk) by (apply (lend_finite _ (c_end c)); lia).
      unfold part, core_ok, range_ok, meet. cbn. repeat split; intros; try lia.
  - intros ->%list_elem_of_singleton. split; [done|]. split; [by repeat split|]. intros Hid Hm. by apply H.
Qed.

Lemma cut_covers lk c x :
  core_ok c → core_ok lk →
  (∃ c', c' ∈ cut lk c ∧ covers c' x) ↔ covers c x ∧ ¬ (c_id c = c_id lk ∧ covers lk x).
Proof.
  intros Hc Hlk. unfold cut. case_bool_decide as H; [destruct H as [Hid Hm]|].
  - setoid_rewrite elem_of_app. unfold core_ok, range_ok, covers, meet in *.
    destruct Hc as (? & ? & ?), Hlk as (? & ? & ?).
    assert (lend (c_end lk) < lend (c_end c) → lend (c_end lk) = c_end lk) as He
      by (intros; by apply (lend_finite _ (c_end c))).
    split.
    + intros (c' & [Hin|Hin] & Hx); case_match; (apply list_elem_of_singleton in Hin || (by apply elem_of_nil in Hin));
        subst c'; cbn in Hx; [rewrite lend_nonneg in Hx by lia|]; lia.
    + intros [Hx Hno].
      assert (c_id c = c_id lk → ¬ (c_start lk ≤ x ≤ lend (c_end lk))) as Hno' by tauto.
      destruct (Z.ltb_spec (c_start c) (c_start lk)) as [E1|E1];
        [destruct (Z_lt_dec x (c_start lk))|].
      * eexists. split; [left; by apply list_elem_of_singleton|]. cbn. rewrite lend_nonneg; lia.
      * eexists. rewrite (proj2 (Z.ltb_lt (lend (c_end lk)) (lend (c_end c)))) by (specialize (Hno' Hid); lia).
        split; [right; by apply list_elem_of_singleton|]. cbn. lia.
      * eexists. rewrite (proj2 (Z.ltb_lt (lend (c_end lk)) (lend (c_end c)))) by (specialize (Hno' Hid); lia).
        split; [right; by apply list_elem_of_singleton|]. cbn. lia.
  - setoid_rewrite list_elem_of_singleton. split; [|naive_solver].
    intros (c' & -> & Hx). split; [done|]. intros [Hid Hl]. apply H. split; [done|].
    unfold meet, covers in *. lia.
Qed.

Lemma follows_part c d c' d' : part c' c → part d' d → follows c d → follows c' d'.
Proof.
  intros (Hi & Ht & _ & ? & ?) (Hi' & Ht' & _ & ? & ?) [Hb Hn]. unfold follows, conflict, before, meet in *.
  rewrite Hi, Hi', Ht, Ht'. split; [intros E; specialize (Hb E); lia|]. intros (? & ? & ?). apply Hn. split; [done|].
  split; [lia|done].
Qed.

Lemma cut_sorted lk c : core_ok lk → core_ok c → StronglySorted follows (cut lk c).
Proof.
  intros Hlk Hc. assert (∀ d, StronglySorted follows [d]) as H1 by (intros; repeat constructor).
  unfold cut. case_bool_decide as H; [destruct H as [Hid Hm]|done].
  do 2 case_match; cbn [app]; try done; try constructor; try done.
  constructor; [|constructor]. unfold core_ok, range_ok, meet in *. destruct Hlk as (? & ? & ?).
  split; [|by intros (? & _)]. intros _. unfold before. cbn.
  rewrite lend_nonneg by lia. unfold lend, LLONG_MAX in *. repeat case_match; lia.
Qed.

Lemma locks_ok_app K1 K2 :
  locks_ok (K1 ++ K2) ↔ (∀ c d, c ∈ K1 → d ∈ K2 → follows c d) ∧ locks_ok K1 ∧ locks_ok K2.
Proof. unfold locks_ok. rewrite StronglySorted_app, Forall_app. tauto. Qed.

Lemma locks_ok_cons c K : locks_ok (c :: K) ↔ core_ok c ∧ (∀ d, d ∈ K → follows c d) ∧ locks_ok K.
Proof.
  change (c :: K) with ([c] ++ K). rewrite locks_ok_app. unfold locks_ok at 1. rewrite Forall_singleton.
  split; [intros (H & [_ Hc] & HK)|intros (Hc & H & HK)]; (split; [|split]); try done.
  - intros d Hd. apply H; [by apply list_elem_of_singleton|done].
  - intros ? d ->%list_elem_of_singleton. apply H.
  - by split; [repeat constructor|].
Qed.

Lemma cut_locks_ok lk K : core_ok lk → locks_ok K → locks_ok (K ≫= cut lk).
Proof.
  intros Hlk. induction K as [|c K IH]; [done|]. intros (Hc & Hf & HK)%locks_ok_cons. rewrite bind_cons.
  apply locks_ok_app. split; [|split; [split; [by apply cut_sorted|]|by apply IH]].
  - intros c' d' Hc' (d & Hd' & Hd)%list_elem_of_bind.
    assert (core_ok d) as Hdok by (destruct HK as [_ HF]; by apply (proj1 (Forall_forall _ _) HF)).
    eapply follows_part; [apply (cut_part lk c c')|apply (cut_part lk d d')|by apply Hf]; done.
  - apply Forall_forall. intros c' Hc'. by apply (cut_part lk c c').
Qed.

(** *** Who holds what *)

(** Owner [id] holds byte [x] with a lock of type [t]. *)
Definition holds (K : list core) (id x t : Z) : Prop :=
  ∃ c, c ∈ K ∧ c_id c = id ∧ c_type c = t ∧ covers c x.

Lemma holds_cut lk K id x t :
  core_ok lk → Forall core_ok K →
  holds (K ≫= cut lk) id x t ↔ holds K id x t ∧ ¬ (id = c_id lk ∧ covers lk x).
Proof.
  intros Hlk HK. unfold holds. rewrite Forall_forall in HK. split.
  - intros (c' & (c & Hc' & Hc)%list_elem_of_bind & <- & <- & Hx).
    destruct (cut_part lk c c') as (_ & (Hi & Ht & _) & _); [by apply HK|done..|].
    destruct (proj1 (cut_covers lk c x (HK c Hc) Hlk)) as [Hx' Hno]; [by exists c'|]. rewrite Hi, Ht.
    split; [by exists c|done].
  - intros [(c & Hc & <- & <- & Hx) Hno].
    destruct (proj2 (cut_covers lk c x (HK c Hc) Hlk)) as (c' & Hc' & Hx'); [done|].
    destruct (cut_part lk c c') as (_ & (Hi & Ht & _) & _); [by apply HK|done..|].
    exists c'. split; [apply list_elem_of_bind; by exists c|done].
Qed.
