(* ===== verification/LockfMem.v ===== *)
(** The memory of the record locks (Lockf.v) between two statements: the
    invariant of the lists, the heap and the links between waiting locks, and
    what the statements that change them do to it. *)

From S2P Require Import Prelude StateMonad Lockf.

(** ** The memory between the statements *)

(** The locks [E] are in the memory [h] and sound; the threads of the locks [W]
    sleep; only locks of [A] are waited for.  A sleeping lock either waits for
    one it conflicts with, and stands in that lock's list, or has been sent a
    wakeup.  The locks of [bad] are changed and about to wake who waits for them. *)
Record heap_ok (E : list entry) (A W : list Z) (bad : Z → Prop)
    (h : gmap Z lockf) (n : Z) (wk : list wchan) : Prop := {
  ho_nodup : NoDup E.*1;
  ho_listed p c : (p, c) ∈ E → ∃ x, h !! p = Some x ∧ core_of x = c;
  ho_core : Forall core_ok E.*2;
  ho_fresh p x : h !! p = Some x → p < n;
  ho_blk w y b : h !! w = Some y → lf_blk y = Some b →
    w ∈ W ∧ ∃ z, h !! b = Some z ∧ w ∈ lf_blkhd z;
  ho_blkhd b z w : h !! b = Some z → w ∈ lf_blkhd z →
    b ∈ A ∧ ∃ y, h !! w = Some y ∧ lf_blk y = Some b;
  ho_once b z : h !! b = Some z → NoDup (lf_blkhd z);
  ho_wait w y b z : h !! w = Some y → lf_blk y = Some b → h !! b = Some z → ¬ bad b →
    conflict (core_of z) (core_of y);
  ho_wake w y : w ∈ W → h !! w = Some y → lf_blk y = None → ChanLock w ∈ wk;
}.

Definition nobad (b : Z) : Prop := False.
(** Nobody waits for [o]. *)
Definition idle (o : Z) (h : gmap Z lockf) : Prop := ∃ x, h !! o = Some x ∧ lf_blkhd x = [].

Ltac look := repeat match goal with
  | H : <[_ := _]> _ !! _ = Some _ |- _ => apply lookup_insert_Some in H as [[<- <-]|[? H]]
  | H : delete _ _ !! _ = Some _ |- _ => apply lookup_delete_Some in H as [? H]
  end.

Section Heap.
Context (E : list entry) (A W : list Z) (bad : Z → Prop) (h : gmap Z lockf) (n : Z) (wk : list wchan).
Implicit Types (x y z : lockf).

Lemma heap_ok_mono E' A' W' (bad' : Z → Prop) :
  E ≡ₚ E' → (∀ b, b ∈ A → b ∈ A') → (∀ w, w ∈ W ↔ w ∈ W') → (∀ b, bad b → bad' b) →
  heap_ok E A W bad h n wk → heap_ok E' A' W' bad' h n wk.
Proof.
  intros HE HA HW Hbad [?? Hc ? Hb Hbh ? Hw Hk]. split; try done.
  - by rewrite <-HE.
  - intros p c. rewrite <-HE. auto.
  - by rewrite <-HE.
  - intros w y b H1 H2. rewrite <-HW. by eapply Hb.
  - intros b z w H1 H2. destruct (Hbh b z w H1 H2). auto.
  - intros w y b z H1 H2 H3 H4. apply (Hw w y b z); auto.
  - intros w y. rewrite <-HW. apply Hk.
Qed.

(** Changing the range or the type of a lock that is not asleep. *)
Lemma heap_ok_upd o c x x' (bad' : Z → Prop) :
  heap_ok ((o, c) :: E) A W bad h n wk → o ∉ W → h !! o = Some x →
  core_ok (core_of x') → lf_blk x' = lf_blk x → lf_blkhd x' = lf_blkhd x →
  (∀ b, bad b → bad' b) → bad' o ∨ (∀ d, conflict (core_of x) d → conflict (core_of x') d) →
  heap_ok ((o, core_of x') :: E) A W bad' (<[o := x']> h) n wk.
Proof.
  intros [Hnd Hl Hc Hf Hb Hbh Ho Hw Hk] HoW Hx Hok Hblk Hhd Hbad Hmore. cbn in Hnd, Hc.
  assert (lf_blk x = None) as Hnone.
  { destruct (lf_blk x) as [b|] eqn:E1; [|done]. by destruct (Hb o x b). }
  apply Forall_cons in Hc as [_ Hc]. split; cbn; try done.
  - intros p d [[= -> ->]|Hp]%elem_of_cons; [exists x'; by rewrite lookup_insert_eq|].
    destruct (Hl p d) as (y & Hy & Hd); [set_solver|]. exists y. rewrite lookup_insert_ne; [done|].
    intros ->. apply NoDup_cons in Hnd as [Hno _]. apply Hno. apply list_elem_of_fmap. by exists (p, d).
  - by apply Forall_cons.
  - intros p y Hp. look; eauto.
  - intros w y b Hwy Hby. look; [congruence|]. destruct (Hb w y b) as (HW & z & Hz & Hin); [done..|].
    split; [done|]. destruct (decide (b = o)) as [->|Hne]; [|exists z; by rewrite lookup_insert_ne].
    exists x'. rewrite lookup_insert_eq, Hhd. split; [done|]. congruence.
  - intros b z w Hbz Hin. look.
    + rewrite Hhd in Hin. destruct (Hbh o x w) as (HA & y & Hy & Hyb); [done..|]. split; [done|].
      exists y. rewrite lookup_insert_ne; [done|]. intros ->. congruence.
    + destruct (Hbh b z w) as (HA & y & Hy & Hyb); [done..|]. split; [done|]. exists y.
      rewrite lookup_insert_ne; [done|]. intros ->. congruence.
  - intros b z Hz. look; [rewrite Hhd|]; eauto.
  - intros w y b z Hwy Hby Hbz Hnb. look; try congruence; [|apply (Hw w y b z); auto].
    destruct Hmore as [?|Hmore]; [done|]. apply Hmore, (Hw w y o x); auto.
  - intros w y HW Hwy Hnone'. look; [done|]. by apply (Hk w y).
Qed.

(** Waking one of those that wait for [o]. *)
Lemma heap_ok_wake o x w l y f :
  heap_ok E A W bad h n wk → h !! o = Some x → lf_blkhd x = w :: l → h !! w = Some y → lf_blk x = None →
  heap_ok E A W bad (<[w := set_flags f (set_blk None y)]> (<[o := set_blkhd l x]> h)) n (ChanLock w :: wk).
Proof.
  intros [Hnd Hl Hc Hf Hb Hbh Ho Hw Hk] Hx Hhd Hy Hxn.
  assert (NoDup (w :: l)) as Hnd' by (rewrite <-Hhd; eauto). apply NoDup_cons in Hnd' as [Hnw Hndl].
  destruct (Hbh o x w) as (HA & y' & Hy' & Hyo); [done|rewrite Hhd; set_solver|].
  rewrite Hy in Hy'. injection Hy' as <-.
  assert (w ≠ o) as Hwo by (intros ->; congruence).
  assert (∀ p z, h !! p = Some z → w ∈ lf_blkhd z → p = o) as Honly.
  { intros p z Hz Hin. destruct (Hbh p z w) as (_ & y' & Hy' & Hyp); [done..|]. congruence. }
  split; try done.
  - intros p c Hp. destruct (Hl p c Hp) as (z & Hz & Hzc).
    destruct (decide (p = w)) as [->|]; [|destruct (decide (p = o)) as [->|]];
      simplify_map_eq; eexists; split; done.
  - intros p z Hp. look; eauto.
  - intros v z b Hv Hvb. look; [done|cbn in Hvb; congruence|].
    destruct (Hb v z b) as (HW & z' & Hz' & Hin); [done..|]. split; [done|].
    destruct (decide (b = w)) as [->|]; [|destruct (decide (b = o)) as [->|]]; simplify_map_eq.
    + eexists. split; [done|]. done.
    + eexists. split; [done|]. cbn. rewrite Hhd in Hin. set_solver.
    + by eexists.
  - intros b z v Hbz Hin. look; cbn in Hin.
    + destruct (Hbh w y v) as (HA' & z & Hz & Hzb); [done..|]. split; [done|]. exists z.
      assert (v ≠ w) by (intros ->; congruence). assert (v ≠ o) by (intros ->; congruence).
      by simplify_map_eq.
    + destruct (Hbh o x v) as (HA' & z & Hz & Hzb); [done|rewrite Hhd; set_solver|]. split; [done|]. exists z.
      assert (v ≠ w) by (intros ->; done). assert (v ≠ o) by (intros ->; congruence). by simplify_map_eq.
    + destruct (Hbh b z v) as (HA' & z' & Hz & Hzb); [done..|]. split; [done|]. exists z'.
      assert (v ≠ w) by (intros ->; naive_solver). assert (v ≠ o) by (intros ->; congruence). by simplify_map_eq.
  - intros b z Hz. look; cbn; eauto.
  - intros v z b z' Hv Hvb Hbz Hnb. look; cbn in Hvb; try congruence;
      first [exact (Hw v z w y Hv Hvb Hy Hnb)|exact (Hw v z o x Hv Hvb Hx Hnb)|by apply (Hw v z b z')].
  - intros v z HW Hv Hvn. look; apply elem_of_cons; [by left|right..];
      [by apply (Hk o x)|by apply (Hk v z)].
Qed.

(** Those that wait for [o] come to wait for [t]. *)
Lemma heap_ok_move o x w l y t z :
  heap_ok E A W bad h n wk → h !! o = Some x → lf_blkhd x = w :: l → h !! w = Some y →
  lf_blk x = None → h !! t = Some z → lf_blk z = None → t ∈ A → t ≠ o → ¬ bad o →
  (∀ d, conflict (core_of x) d → conflict (core_of z) d) →
  heap_ok E A W bad (<[t := set_blkhd (TAILQ_INSERT_TAIL w (lf_blkhd z)) z]>
    (<[w := set_blk (Some t) y]> (<[o := set_blkhd l x]> h))) n wk.
Proof.
  intros [Hnd Hl Hc Hf Hb Hbh Ho Hw Hk] Hx Hhd Hy Hxn Hz Hzn HtA Hto Hbad Hconf.
  assert (NoDup (w :: l)) as Hnd' by (rewrite <-Hhd; eauto). apply NoDup_cons in Hnd' as [Hnw Hndl].
  destruct (Hbh o x w) as (HA & y' & Hy' & Hyo); [done|rewrite Hhd; set_solver|].
  rewrite Hy in Hy'. injection Hy' as <-.
  assert (w ≠ o) as Hwo by (intros ->; congruence). assert (w ≠ t) as Hwt by (intros ->; congruence).
  assert (∀ p z, h !! p = Some z → w ∈ lf_blkhd z → p = o) as Honly.
  { intros p z' Hz' Hin. destruct (Hbh p z' w) as (_ & y' & Hy' & Hyp); [done..|]. congruence. }
  assert (w ∉ lf_blkhd z) as Hwz by (intros Hin; apply Hto; eapply Honly; done).
  unfold TAILQ_INSERT_TAIL. split; try done.
  - intros p c Hp. destruct (Hl p c Hp) as (u & Hu & Huc).
    destruct (decide (p = t)) as [->|]; [|destruct (decide (p = w)) as [->|]; [|destruct (decide (p = o)) as [->|]]];
      simplify_map_eq; eexists; split; done.
  - intros p u Hp. look; eauto.
  - intros v u b Hv Hvb. look; cbn in Hvb; try congruence.
    + injection Hvb as <-. destruct (Hb w y o) as [HW _]; [done..|]. split; [done|].
      eexists. rewrite lookup_insert_eq. split; [done|]. cbn. set_solver.
    + destruct (Hb v u b) as (HW & u' & Hu' & Hin); [done..|]. split; [done|].
      destruct (decide (b = t)) as [->|]; [|destruct (decide (b = w)) as [->|]; [|destruct (decide (b = o)) as [->|]]];
        simplify_map_eq; eexists; (split; [done|]); cbn; rewrite ?Hhd in Hin; set_solver.
  - intros b u v Hbu Hin. look; cbn in Hin.
    + split; [done|]. apply elem_of_app in Hin as [Hin| ->%list_elem_of_singleton].
      * destruct (Hbh t z v) as (_ & u & Hu & Hut); [done..|]. exists u.
        assert (v ≠ w) by (intros ->; done). assert (v ≠ o) by (intros ->; congruence).
        assert (v ≠ t) by (intros ->; congruence). by simplify_map_eq.
      * eexists. by simplify_map_eq.
    + destruct (Hbh w y v) as (HA' & u & Hu & Hub); [done..|]. split; [done|].
      assert (v ≠ w) by (intros ->; congruence). assert (v ≠ o) by (intros ->; congruence).
      assert (v ≠ t) by (intros ->; congruence). exists u. by simplify_map_eq.
    + destruct (Hbh o x v) as (HA' & u & Hu & Hub); [done|rewrite Hhd; set_solver|]. split; [done|].
      assert (v ≠ w) by (intros ->; done). assert (v ≠ o) by (intros ->; congruence).
      assert (v ≠ t) by (intros ->; congruence). exists u. by simplify_map_eq.
    + destruct (Hbh b u v) as (HA' & u' & Hu & Hub); [done..|]. split; [done|].
      assert (v ≠ w) by (intros ->; naive_solver). assert (v ≠ o) by (intros ->; congruence).
      assert (v ≠ t) by (intros ->; congruence). exists u'. by simplify_map_eq.
  - intros b u Hu. look; cbn; eauto. apply NoDup_app. split; [eauto|]. split; [|apply NoDup_singleton].
    intros v Hv ->%list_elem_of_singleton. done.
  - intros v u b u' Hv Hvb Hbu Hnb. look; cbn in Hvb; try congruence;
      first [exact (Hw v u t z Hv Hvb Hz Hnb)|exact (Hw v u w y Hv Hvb Hy Hnb)
            |exact (Hw v u o x Hv Hvb Hx Hnb)|by apply (Hw v u b u')|idtac].
    apply Hconf. exact (Hw w y o x Hy Hyo Hx Hbad).
  - intros v u HW Hv Hvn. look; [by apply (Hk t z)|done|by apply (Hk o x)|by apply (Hk v u)].
Qed.

(** Nobody waits for an idle lock, so it may change or go. *)
Lemma heap_ok_idle o A' (bad' : Z → Prop) :
  idle o h → (∀ b, b ∈ A → b ≠ o → b ∈ A') → (∀ b, bad b → bad' b ∨ b = o) →
  heap_ok E A W bad h n wk → heap_ok E A' W bad' h n wk.
Proof.
  intros (x & Hx & Hidle) HA Hbad [Hnd Hl Hc Hf Hb Hbh Ho Hw Hk]. split; try done.
  - intros b z w Hz Hin. destruct (Hbh b z w) as (H & Hy); [done..|]. split; [|done].
    apply HA; [done|]. intros ->. rewrite Hx in Hz. injection Hz as <-. rewrite Hidle in Hin. by apply not_elem_of_nil in Hin.
  - intros w y b z Hy Hyb Hz Hnb. apply (Hw w y b z); try done. intros Hb'. destruct (Hbad b Hb') as [?| ->]; [done|].
    destruct (Hb w y o) as (_ & z' & Hz' & Hin); [done..|]. rewrite Hx in Hz'. injection Hz' as <-.
    rewrite Hidle in Hin. by apply not_elem_of_nil in Hin.
Qed.

Lemma heap_ok_free o c :
  heap_ok ((o, c) :: E) A W bad h n wk → idle o h → o ∉ W →
  heap_ok E A W bad (delete o h) n wk.
Proof.
  intros [Hnd Hl Hc Hf Hb Hbh Ho Hw Hk] (x & Hx & Hidle) HoW. cbn in Hnd, Hc.
  apply NoDup_cons in Hnd as [Hno Hnd]. apply Forall_cons in Hc as [_ Hc].
  split; try done.
  - intros p d Hp. destruct (Hl p d) as (y & Hy & Hd); [set_solver|]. exists y.
    rewrite lookup_delete_ne; [done|]. intros ->. apply Hno. apply list_elem_of_fmap. by exists (p, d).
  - intros p y Hp. look. eauto.
  - intros w y b Hwy Hby. look. destruct (Hb w y b) as (HW & z & Hz & Hin); [done..|]. split; [done|].
    exists z. rewrite lookup_delete_ne; [done|]. intros ->. rewrite Hx in Hz. injection Hz as <-.
    rewrite Hidle in Hin. by apply not_elem_of_nil in Hin.
  - intros b z w Hz Hin. look. destruct (Hbh b z w) as (HA & y & Hy & Hyb); [done..|]. split; [done|].
    exists y. rewrite lookup_delete_ne; [done|]. intros ->. destruct (Hb w y b) as [HW _]; done.
  - intros b z Hz. look. eauto.
  - intros w y b z Hy Hyb Hz. look. by apply (Hw w y b z).
  - intros w y HW Hy. look. by apply Hk.
Qed.

Lemma heap_ok_alloc x :
  heap_ok E A W bad h n wk → n ∉ W → core_ok (core_of x) → lf_blk x = None → lf_blkhd x = [] →
  heap_ok ((n, core_of x) :: E) A W bad (<[n := x]> h) (n + 1) wk.
Proof.
  intros [Hnd Hl Hc Hf Hb Hbh Ho Hw Hk] HnW Hok Hxn Hidle.
  assert (h !! n = None) as Hnew by (destruct (h !! n) eqn:Hn; [specialize (Hf _ _ Hn); lia|done]).
  split; cbn.
  - apply NoDup_cons. split; [|done]. intros ([p c] & -> & Hp)%list_elem_of_fmap.
    destruct (Hl p c Hp) as (y & Hy & _). cbn in Hnew. congruence.
  - intros p c [[= -> ->]|Hp]%elem_of_cons; [exists x; by rewrite lookup_insert_eq|].
    destruct (Hl p c Hp) as (y & Hy & Hd). exists y. rewrite lookup_insert_ne; [done|]. congruence.
  - by apply Forall_cons.
  - intros p y Hp. look; [lia|]. specialize (Hf _ _ Hp). lia.
  - intros w y b Hwy Hby. look; [congruence|]. destruct (Hb w y b) as (HW & z & Hz & Hin); [done..|].
    split; [done|]. exists z. rewrite lookup_insert_ne; [done|]. congruence.
  - intros b z w Hz Hin. look; [rewrite Hidle in Hin; by apply not_elem_of_nil in Hin|].
    destruct (Hbh b z w) as (HA & y & Hy & Hyb); [done..|]. split; [done|]. exists y.
    rewrite lookup_insert_ne; [done|]. congruence.
  - intros b z Hz. look; [rewrite Hidle; constructor|eauto].
  - intros w y b z Hy Hyb Hz. look; try congruence; [|by apply (Hw w y b z)].
    intros _. destruct (Hb w y n) as (_ & z & Hz & _); [done..|]. congruence.
  - intros w y HW Hy Hyn. look; [done|by apply (Hk w y)].
Qed.

(** A lock goes to sleep behind [b]. *)
Lemma heap_ok_sleep w y b z :
  heap_ok E A W bad h n wk → w ∉ W → idle w h → h !! w = Some y → b ∈ A → b ∉ W → b ≠ w →
  h !! b = Some z → conflict (core_of z) (core_of y) →
  heap_ok E A (W ++ [w]) bad (<[b := set_blkhd (TAILQ_INSERT_TAIL w (lf_blkhd z)) z]>
    (<[w := set_blk (Some b) y]> h)) n wk.
Proof.
  intros [Hnd Hl Hc Hf Hb Hbh Ho Hw Hk] HwW (y' & Hy' & Hidle) Hy HbA HbW Hbw Hz Hconf.
  rewrite Hy in Hy'. injection Hy' as <-.
  assert (∀ p u, h !! p = Some u → w ∉ lf_blkhd u) as Hnot.
  { intros p u Hu Hin. destruct (Hbh p u w) as (_ & y' & Hy' & Hyp); [done..|].
    by destruct (Hb w y' p) as [HW _]. }
  assert (lf_blk z = None) as Hzn.
  { destruct (lf_blk z) as [b'|] eqn:E1; [|done]. by destruct (Hb b z b'). }
  assert (∀ p u, h !! p = Some u → lf_blk u ≠ Some w) as Hnotw.
  { intros p u Hu Hpu. destruct (Hb p u w) as (_ & y' & Hy' & Hin); [done..|]. rewrite Hy in Hy'.
    injection Hy' as <-. rewrite Hidle in Hin. by apply not_elem_of_nil in Hin. }
  unfold TAILQ_INSERT_TAIL. split; try done.
  - intros p c Hp. destruct (Hl p c Hp) as (u & Hu & Huc).
    destruct (decide (p = b)) as [->|]; [|destruct (decide (p = w)) as [->|]];
      simplify_map_eq; eexists; split; done.
  - intros p u Hp. look; eauto.
  - intros v u p Hv Hvp. look; cbn in Hvp; [congruence| |].
    + injection Hvp as <-. split; [set_solver|]. eexists. rewrite lookup_insert_eq. split; [done|]. cbn. set_solver.
    + destruct (Hb v u p) as (HW & u' & Hu' & Hin); [done..|]. split; [set_solver|].
      destruct (decide (p = b)) as [->|]; [|destruct (decide (p = w)) as [->|]];
        simplify_map_eq; eexists; (split; [done|]); cbn; set_solver.
  - intros p u v Hp Hin. look; cbn in Hin.
    + split; [done|]. apply elem_of_app in Hin as [Hin| ->%list_elem_of_singleton].
      * destruct (Hbh b z v) as (_ & u & Hu & Hub); [done..|]. exists u.
        assert (v ≠ b) by (intros ->; congruence). assert (v ≠ w) by (intros ->; exact (Hnot b z Hz Hin)). by simplify_map_eq.
      * eexists. by simplify_map_eq.
    + rewrite Hidle in Hin. by apply not_elem_of_nil in Hin.
    + destruct (Hbh p u v) as (HpA & u' & Hu & Hup); [done..|]. split; [done|]. exists u'.
      assert (v ≠ b) by (intros ->; congruence). assert (v ≠ w) by (intros ->; exact (Hnot p u Hp Hin)). by simplify_map_eq.
  - intros p u Hu. look; cbn; eauto. apply NoDup_app. split; [eauto|]. split; [|apply NoDup_singleton].
    intros v Hv ->%list_elem_of_singleton. by eapply Hnot.
  - intros v u p u' Hv Hvp Hp Hnb. look; cbn in Hvp; try congruence;
      first [by apply (Hw v u p u')|exact (Hw v u b z Hv Hvp Hz Hnb)|idtac]; try (by edestruct Hnotw).
    exact Hconf.
  - intros v u HW Hv Hvn. look; [set_solver|done|]. apply (Hk v u); [|done..]. set_solver.
Qed.

Lemma TAILQ_REMOVE_elem v w l : NoDup l → v ∈ TAILQ_REMOVE w l ↔ v ∈ l ∧ v ≠ w.
Proof.
  induction l as [|u l IH]; cbn [TAILQ_REMOVE]; intros Hnd.
  { split; [intros H|intros [H _]]; by apply not_elem_of_nil in H. }
  apply NoDup_cons in Hnd as [Hu Hnd]. destruct (Z.eqb_spec u w) as [->|Hne].
  - split; [intros H; split; [set_solver|congruence]|set_solver].
  - rewrite !elem_of_cons, IH by done. split; [intros [->|]; tauto|tauto].
Qed.
Lemma TAILQ_REMOVE_nodup w l : NoDup l → NoDup (TAILQ_REMOVE w l).
Proof.
  induction l as [|u l IH]; [done|]. cbn [TAILQ_REMOVE]. intros [Hu Hnd]%NoDup_cons. case_match; [done|].
  apply NoDup_cons. rewrite TAILQ_REMOVE_elem by done. split; [tauto|by apply IH].
Qed.

(** A lock that wakes up leaves the list it stands in, if it still does. *)
Lemma heap_ok_leave w y W' wk' :
  heap_ok E A W bad h n wk → h !! w = Some y → lf_blk y = None → (∀ v, v ∈ W ↔ v = w ∨ v ∈ W') → w ∉ W' →
  (∀ v, v ∈ W' → ChanLock v ∈ wk → ChanLock v ∈ wk') → heap_ok E A W' bad h n wk'.
Proof.
  intros [Hnd Hl Hc Hf Hb Hbh Ho Hw Hk] Hy Hyn HW' HwW' Hwk. split; try done.
  - intros v u b Hv Hvb. destruct (Hb v u b) as (HW & Hu); [done..|]. split; [|done].
    apply HW' in HW as [->|HW]; [congruence|done].
  - intros v u HW Hv Hvn. apply Hwk; [done|]. apply (Hk v u); [|done..]. apply HW'. by right.
Qed.

Lemma heap_ok_unblock w y b z W' wk' :
  heap_ok E A W bad h n wk → h !! w = Some y → lf_blk y = Some b → h !! b = Some z → b ≠ w → 
  lf_blk z = None → (∀ v, v ∈ W ↔ v = w ∨ v ∈ W') → w ∉ W' →
  (∀ v, v ∈ W' → ChanLock v ∈ wk → ChanLock v ∈ wk') →
  heap_ok E A W' bad (<[w := set_blk None y]>
    (<[b := set_blkhd (TAILQ_REMOVE w (lf_blkhd z)) z]> h)) n wk'.
Proof.
  intros [Hnd Hl Hc Hf Hb Hbh Ho Hw Hk] Hy Hyb Hz Hbw Hzn HW' HwW' Hwk.
  assert (∀ p u, h !! p = Some u → w ∈ lf_blkhd u → p = b) as Honly.
  { intros p u Hu Hin. destruct (Hbh p u w) as (_ & y' & Hy' & Hyp); [done..|]. congruence. }
  split; try done.
  - intros p c Hp. destruct (Hl p c Hp) as (u & Hu & Huc).
    destruct (decide (p = w)) as [->|]; [|destruct (decide (p = b)) as [->|]];
      simplify_map_eq; eexists; split; done.
  - intros p u Hp. look; eauto.
  - intros v u p Hv Hvp. look; cbn in Hvp; [done|congruence|].
    destruct (Hb v u p) as (HW & u' & Hu' & Hin); [done..|]. split; [apply HW' in HW as [->|]; done|].
    destruct (decide (p = w)) as [->|]; [|destruct (decide (p = b)) as [->|]];
      simplify_map_eq; eexists; (split; [done|]); cbn; [done| |done].
    apply TAILQ_REMOVE_elem; [eauto|done].
  - intros p u v Hp Hin. look; cbn in Hin.
    + destruct (Hbh w y v) as (HpA & u' & Hu & Hup); [done..|]. split; [done|]. exists u'.
      assert (v ≠ b) by (intros ->; congruence). assert (v ≠ w) by (intros ->; congruence). by simplify_map_eq.
    + apply TAILQ_REMOVE_elem in Hin as [Hin Hvw]; [|eauto].
      destruct (Hbh b z v) as (HpA & u' & Hu & Hup); [done..|]. split; [done|]. exists u'.
      assert (v ≠ b) by (intros ->; congruence). by simplify_map_eq.
    + destruct (Hbh p u v) as (HpA & u' & Hu & Hup); [done..|]. split; [done|]. exists u'.
      assert (v ≠ b) by (intros ->; congruence). assert (v ≠ w) by (intros ->; naive_solver). by simplify_map_eq.
  - intros p u Hu. look; cbn; [eauto|apply TAILQ_REMOVE_nodup|]; eauto.
  - intros v u p u' Hv Hvp Hp Hnb. look; cbn in Hvp; try congruence;
      first [exact (Hw v u w y Hv Hvp Hy Hnb)|exact (Hw v u b z Hv Hvp Hz Hnb)|by apply (Hw v u p u')].
  - intros v u HW Hv Hvn. look; [done| |]; apply Hwk; [done| |done|].
    + apply (Hk b z); [apply HW'; by right|done..].
    + apply (Hk v u); [apply HW'; by right|done..].
Qed.
End Heap.

(** ** The statements *)

(** The file's state: its locks [L], the pending ones [P], those [hand] a thread
    works on, and [ext] more references; [T] may be waited for besides [L]. *)
Definition mem_ok (ext : Z) (T : list Z) (hand L P : list entry) (bad : Z → Prop) (s : locks) : Prop :=
  state s = Some (LockfState L.*1 P.*1 (Z.of_nat (length L + length P + length hand) + ext)) ∧
  heap_ok (L ++ P ++ hand) (L.*1 ++ T) P.*1 bad (heap s) (next_addr s) (wakeups s).

Lemma idle_insert o p x x' (h : gmap Z lockf) :
  h !! p = Some x → lf_blkhd x' = lf_blkhd x → idle o h → idle o (<[p := x']> h).
Proof.
  intros Hx Hhd (y & Hy & Hidle). destruct (decide (o = p)) as [->|Hne].
  - exists x'. rewrite lookup_insert_eq. split; [done|]. congruence.
  - exists y. by rewrite lookup_insert_ne.
Qed.

Lemma elem_fst (L : list entry) p c : (p, c) ∈ L → p ∈ L.*1.
Proof. intros H. apply list_elem_of_fmap. by exists (p, c). Qed.

Section Mem.
Context (ext : Z) (P : list entry).

Lemma mem_entry T hand L bad s p c :
  mem_ok ext T hand L P bad s → (p, c) ∈ L ++ P ++ hand →
  ∃ x, heap s !! p = Some x ∧ core_of x = c ∧ core_ok c ∧ p < next_addr s.
Proof.
  intros [_ Hh] Hp. destruct (ho_listed _ _ _ _ _ _ _ Hh p c Hp) as (x & Hx & Hc). exists x.
  split; [done|]. split; [done|]. split.
  - apply (proj1 (Forall_forall _ _) (ho_core _ _ _ _ _ _ _ Hh)). apply list_elem_of_fmap. by exists (p, c).
  - by eapply ho_fresh.
Qed.

Lemma mem_listed T hand L bad s : mem_ok ext T hand L P bad s → listed s (L ++ P ++ hand).
Proof.
  intros H p c Hp. destruct (mem_entry _ _ _ _ _ _ _ H Hp) as (x & Hx & Hc & _). apply cores_lookup. eauto.
Qed.

Lemma mem_disjoint T hand L bad s :
  mem_ok ext T hand L P bad s →
  NoDup L.*1 ∧ (∀ p, p ∈ L.*1 → p ∉ P.*1 ∧ p ∉ hand.*1) ∧ (∀ p, p ∈ hand.*1 → p ∉ P.*1).
Proof.
  intros [_ Hh]. pose proof (ho_nodup _ _ _ _ _ _ _ Hh) as Hnd. rewrite !fmap_app in Hnd.
  apply NoDup_app in Hnd as (HL & H1 & Hnd). apply NoDup_app in Hnd as (HP & H2 & Hd).
  split; [done|]. split; intros p Hp; [specialize (H1 p Hp); set_solver|]. intros Hp'. by apply (H2 p).
Qed.

Lemma mem_nil T hand L bad s p c : mem_ok ext T hand L P bad s → (p, c) ∈ L ++ hand → ∃ x,
  heap s !! p = Some x ∧ core_of x = c ∧ lf_blk x = None.
Proof.
  intros H Hp. destruct (mem_entry _ _ _ _ _ p c H) as (x & Hx & Hc & _); [set_solver|].
  exists x. split; [done|]. split; [done|]. destruct (lf_blk x) as [b|] eqn:E; [|done].
  destruct (mem_disjoint _ _ _ _ _ H) as (_ & Hd1 & Hd2).
  destruct H as [_ Hh]. destruct (ho_blk _ _ _ _ _ _ _ Hh p x b) as [HP _]; [done..|].
  apply elem_of_app in Hp as [Hp|Hp]; apply elem_fst in Hp; [by destruct (Hd1 p Hp)|by destruct (Hd2 p Hp)].
Qed.

Lemma mem_idle hand L bad s p c :
  mem_ok ext [] hand L P bad s → (p, c) ∈ hand → idle p (heap s).
Proof.
  intros H Hp. destruct (mem_nil _ _ _ _ _ p c H) as (x & Hx & _); [set_solver|]. exists x. split; [done|].
  destruct (lf_blkhd x) as [|w l] eqn:E; [done|]. destruct (mem_disjoint _ _ _ _ _ H) as (_ & Hd1 & _).
  destruct H as [_ Hh]. destruct (ho_blkhd _ _ _ _ _ _ _ Hh p x w) as [HL _]; [done|rewrite E; set_solver|].
  rewrite app_nil_r in HL. destruct (Hd1 p HL) as [_ Hno]. by destruct (Hno (elem_fst _ _ _ Hp)).
Qed.

Lemma mem_settled T hand L o s :
  mem_ok ext T hand L P (eq o) s → idle o (heap s) → mem_ok ext T hand L P nobad s.
Proof. intros [Hs Hh] Hi. split; [done|]. eapply heap_ok_idle; [exact Hi| | |exact Hh]; auto. Qed.

Lemma runs_wake_all T hand L bad o c f l x s Q :
  (o, c) ∈ L ++ hand → mem_ok ext T hand L P bad s → heap s !! o = Some x → lf_blkhd x = l →
  (∀ s', mem_ok ext T hand L P bad s' → idle o (heap s') →
     (∀ p, idle p (heap s) → idle p (heap s')) → Q tt s') →
  runs (wake_all l o f) s Q.
Proof.
  intros Ho. revert x s Q. induction l as [|w l IH]; intros x s Q H Hx Hl HQ; cbn [wake_all].
  { step. apply HQ; [done| |done]. by exists x. }
  pose proof (mem_nil _ _ _ _ _ o c H Ho) as (x' & Hx' & _ & Hxn). rewrite Hx in Hx'. injection Hx' as <-.
  destruct H as [Hs Hh]. destruct (ho_blkhd _ _ _ _ _ _ _ Hh o x w) as (_ & y & Hy & Hyo); [done|rewrite Hl; set_solver|].
  assert (w ≠ o) as Hwo by (intros ->; congruence).
  step. step. step. eapply runs_upd; [cbn; by rewrite lookup_insert_ne|].
  step. eapply runs_upd; [cbn; by rewrite lookup_insert_eq|]. step. step.
  eapply (IH (set_blkhd l x)); [| |done|]; cbn.
  - split; [done|]. cbn. rewrite insert_insert_eq, Hl. cbn [TAILQ_REMOVE]. rewrite Z.eqb_refl.
    by apply heap_ok_wake.
  - rewrite !lookup_insert_ne, lookup_insert_eq by done. rewrite Hl. cbn [TAILQ_REMOVE]. by rewrite Z.eqb_refl.
  - intros s' H' Hi Hk. apply HQ; [done..|]. intros p Hp. apply Hk.
    destruct (decide (p = o)) as [->|Hpo].
    { destruct Hp as (x' & Hx' & Hi'). rewrite Hx in Hx'. injection Hx' as <-. congruence. }
    assert (idle p (<[o := set_blkhd (TAILQ_REMOVE w (lf_blkhd x)) x]> (heap s))) as Hp1.
    { destruct Hp as (z & Hz & Hi'). exists z. by rewrite lookup_insert_ne. }
    rewrite insert_insert_eq. apply (idle_insert p w y); [by rewrite lookup_insert_ne|done|exact Hp1].
Qed.

Lemma runs_wake_keep T hand L bad o c f s Q :
  (o, c) ∈ L ++ hand → mem_ok ext T hand L P bad s →
  (∀ s', mem_ok ext T hand L P bad s' → idle o (heap s') →
     (∀ p, idle p (heap s) → idle p (heap s')) → Q tt s') →
  runs (lf_wakelock o f) s Q.
Proof.
  intros Ho H HQ. destruct (mem_nil _ _ _ _ _ o c H Ho) as (x & Hx & _). unfold lf_wakelock. step. step.
  by eapply runs_wake_all.
Qed.

Lemma runs_wake T hand L bad o c f s Q :
  (o, c) ∈ L ++ hand → mem_ok ext T hand L P bad s →
  (∀ s', mem_ok ext T hand L P bad s' → idle o (heap s') → Q tt s') →
  runs (lf_wakelock o f) s Q.
Proof.
  intros Ho H HQ. eapply runs_wake_keep; [exact Ho|exact H|]. intros s' H' Hi _. by apply HQ.
Qed.

(** Linking and unlinking. *)
Lemma runs_relink T T' hand hand' L L' bad g s Q :
  mem_ok ext T hand L P bad s → g L.*1 = L'.*1 → L ++ hand ≡ₚ L' ++ hand' →
  (∀ b, b ∈ L.*1 ++ T → b ∈ L'.*1 ++ T') →
  (∀ s', mem_ok ext T' hand' L' P bad s' → heap s' = heap s → Q tt s') →
  runs (upd_locks g) s Q.
Proof.
  intros [Hs Hh] Hg HL HT HQ. eapply runs_upd_ls; [done|]. apply HQ; [|done]. split; cbn.
  - rewrite Hg. do 2 f_equal. apply Permutation_length in HL. rewrite !length_app in HL. lia.
  - eapply heap_ok_mono; [|exact HT|done| |exact Hh]; [|done].
    rewrite (Permutation_app_comm P hand), (Permutation_app_comm P hand'), !(assoc_L (++)). by rewrite HL.
Qed.

(** The last reference is not this one. *)
Lemma runs_free T T' hand L bad o c s Q :
  mem_ok ext T ((o, c) :: hand) L P bad s → idle o (heap s) →
  0 < Z.of_nat (length L + length P + length hand) + ext →
  (∀ b, b ∈ L.*1 ++ T → b ≠ o → b ∈ L.*1 ++ T') →
  (∀ s', mem_ok ext T' hand L P bad s' → heap s' = delete o (heap s) → Q tt s') →
  runs (lf_free o) s Q.
Proof.
  intros H Hi Hn HT HQ. destruct (mem_disjoint _ _ _ _ _ H) as (_ & _ & HoP).
  specialize (HoP o). destruct H as [Hs Hh].
  pose proof Hi as (x & Hx & Hidle). unfold lf_free. step. step. step.
  eapply runs_lift; [by rewrite bool_decide_true|]. step. unfold ls_rele. step. step. step.
  eapply runs_ls; [cbn; done|]. cbn [ls_refs]. rewrite (proj2 (Z.ltb_lt _ _)) by (cbn [length]; lia). step.
  step. unfold add_lockcnt. step. step. apply HQ; [|done]. split; cbn.
  - do 2 f_equal. lia.
  - eapply heap_ok_free; [|by destruct Hi as (z & Hz); exists z|apply HoP; set_solver].
    eapply (heap_ok_idle _ _ _ _ _ _ _ o); [done|exact HT|by left|].
    eapply heap_ok_mono; [| | | |exact Hh]; try done. solve_Permutation.
Qed.

(** [c] with another type, start or end. *)
Definition with_type (t : Z) (c : core) : core := Core t (c_start c) (c_end c) (c_id c) (c_uid c).
Definition with_start (n : Z) (c : core) : core := Core (c_type c) n (c_end c) (c_id c) (c_uid c).
Definition with_end (n : Z) (c : core) : core := Core (c_type c) (c_start c) n (c_id c) (c_uid c).

(** An assignment to a field of a lock in the list. *)
Lemma runs_set T hand L1 o c L2 g c' bad s Q :
  mem_ok ext T hand (L1 ++ (o, c) :: L2) P nobad s →
  (∀ x, lf_blk (g x) = lf_blk x ∧ lf_blkhd (g x) = lf_blkhd x ∧ (core_of x = c → core_of (g x) = c')) →
  core_ok c' → bad o ∨ (∀ d, conflict c d → conflict c' d) →
  (∀ s', mem_ok ext T hand (L1 ++ (o, c') :: L2) P bad s' →
     (∀ p, idle p (heap s) → idle p (heap s')) → Q tt s') →
  runs (upd o g) s Q.
Proof.
  intros H Hg Hc' Hbad HQ. destruct (mem_nil _ _ _ _ _ o c H) as (x & Hx & Hc & Hxn); [set_solver|].
  destruct (Hg x) as (Hblk & Hhd & Hcore). specialize (Hcore Hc).
  destruct (mem_disjoint _ _ _ _ _ H) as (_ & Hd & _).
  assert (o ∉ P.*1) as HoP by (apply Hd, elem_fst with c; set_solver). destruct H as [Hs Hh].
  step. apply HQ; [|intros p; by apply (idle_insert p o x)]. split; cbn.
  - rewrite Hs. do 2 f_equal; [by rewrite !fmap_app|]. rewrite !length_app. cbn. lia.
  - eapply heap_ok_mono; [|by rewrite !fmap_app|done|intros b Hb; exact Hb|].
    2: { eapply (heap_ok_upd (L1 ++ L2 ++ P ++ hand) _ _ nobad _ _ _ o c x (g x)); try done; [|by rewrite Hcore|by rewrite Hc, Hcore].
         eapply heap_ok_mono; [| |done|done|exact Hh]; [solve_Permutation|by rewrite !fmap_app]. }
    rewrite Hcore. solve_Permutation.
Qed.

Lemma runs_quad {S} v (s : S) Q : -1 ≤ v ≤ LLONG_MAX → Q v s → runs (lift (quad_ v)) s Q.
Proof.
  intros Hv HQ. eapply runs_lift; [|done]. unfold quad_. rewrite bool_decide_true; [done|].
  unfold is_i64, LLONG_MAX in *. lia.
Qed.

Lemma runs_start_after T hand lock y L1 o c L2 s Q :
  mem_ok ext T hand (L1 ++ (o, c) :: L2) P nobad s → heap s !! lock = Some y →
  core_ok (core_of y) → core_ok (with_start (lf_end y + 1) c) →
  (∀ s', mem_ok ext T hand (L1 ++ (o, with_start (lf_end y + 1) c) :: L2) P (eq o) s' →
     (∀ p, idle p (heap s) → idle p (heap s')) → Q tt s') →
  runs (start_after o lock) s Q.
Proof.
  intros H Hy (? & ? & ?) Hc HQ. cbn in *. unfold start_after. step. step. step.
  apply runs_quad; [unfold LLONG_MAX in *; lia|]. eapply runs_set; [done| |done| |exact HQ]; [|by left].
  intros x. split; [done|]. split; [done|]. by intros <-.
Qed.

Lemma runs_end_before T hand lock y L1 o c L2 s Q :
  mem_ok ext T hand (L1 ++ (o, c) :: L2) P nobad s → heap s !! lock = Some y →
  core_ok (core_of y) → core_ok (with_end (lf_start y - 1) c) →
  (∀ s', mem_ok ext T hand (L1 ++ (o, with_end (lf_start y - 1) c) :: L2) P (eq o) s' →
     (∀ p, idle p (heap s) → idle p (heap s')) → Q tt s') →
  runs (end_before o lock) s Q.
Proof.
  intros H Hy (? & ? & ?) Hc HQ. cbn in *. unfold end_before. step. step. step.
  apply runs_quad; [unfold lend, LLONG_MAX in *; case_match; lia|]. eapply runs_set; [done| |done| |exact HQ]; [|by left].
  intros x. split; [done|]. split; [done|]. by intros <-.
Qed.

Lemma runs_move_all T hand L bad o c t k l x s Q :
  (o, c) ∈ L ++ hand → (t, k) ∈ L ++ hand → t ∈ L.*1 ++ T → t ≠ o → ¬ bad o →
  (∀ d, conflict c d → conflict k d) →
  mem_ok ext T hand L P bad s → heap s !! o = Some x → lf_blkhd x = l →
  (∀ s', mem_ok ext T hand L P bad s' → idle o (heap s') → Q tt s') →
  runs (move_blocked l o t) s Q.
Proof.
  intros Ho Ht HtA Hto Hbad Hconf. revert x s Q.
  induction l as [|w l IH]; intros x s Q H Hx Hl HQ; cbn [move_blocked].
  { step. apply HQ; [done|]. by exists x. }
  pose proof (mem_nil _ _ _ _ _ o c H Ho) as (x' & Hx' & Hc & Hxn). rewrite Hx in Hx'. injection Hx' as <-.
  pose proof (mem_nil _ _ _ _ _ t k H Ht) as (z & Hz & Hk & Hzn).
  destruct H as [Hs Hh]. destruct (ho_blkhd _ _ _ _ _ _ _ Hh o x w) as (_ & y & Hy & Hyo); [done|rewrite Hl; set_solver|].
  assert (w ≠ o) as Hwo by (intros ->; congruence). assert (w ≠ t) as Hwt by (intros ->; congruence).
  step. step. step. eapply runs_upd; [cbn; by rewrite lookup_insert_ne|].
  step. eapply runs_upd; [cbn; by rewrite !lookup_insert_ne|].
  eapply (IH (set_blkhd l x)); [| |done|exact HQ]; cbn.
  - split; [done|]. cbn. rewrite Hl. cbn [TAILQ_REMOVE]. rewrite Z.eqb_refl.
    apply heap_ok_move; try done. by rewrite Hc, Hk.
  - rewrite !lookup_insert_ne, lookup_insert_eq by done. rewrite Hl. cbn [TAILQ_REMOVE]. by rewrite Z.eqb_refl.
Qed.

(** Counting one more lock of a user, or not, and taking an address. *)
Lemma runs_alloc uid allowfail s Q :
  (uid ≠ 0 → allowfail ≠ 0 →
   (if allowfail =? 1 then maxlocksperuid else maxlocksperuid * 2) < lockcnt uid s → Q None s) →
  (∀ cnt, Q (Some (next_addr s)) (Locks (heap s) (next_addr s + 1) (state s) cnt (wakeups s))) →
  runs (lf_alloc uid allowfail) s Q.
Proof.
  intros Hno Hyes. unfold lf_alloc. step. step. destruct (negb _ && _ && _) eqn:E.
  - apply andb_prop in E as [[E1 E2]%andb_prop E3]. step. apply Hno; lia.
  - unfold add_lockcnt, pool_get. step. step. step. eexists _, _. split; [done|]. step. apply Hyes.
Qed.

(** A new lock in the hand, with its reference. *)
Lemma mem_new T hand L bad s s' x :
  mem_ok ext T hand L P bad s → core_ok (core_of x) → lf_blk x = None → lf_blkhd x = [] →
  state s' = Some (LockfState L.*1 P.*1 (Z.of_nat (length L + length P + length hand) + ext + 1)) →
  heap s' = <[next_addr s := x]> (heap s) → next_addr s' = next_addr s + 1 → wakeups s' = wakeups s →
  mem_ok ext T ((next_addr s, core_of x) :: hand) L P bad s'.
Proof.
  intros H Hc Hblk Hhd Hst Hh Hn Hw. split.
  - rewrite Hst. do 2 f_equal. cbn. lia.
  - rewrite Hh, Hn, Hw. eapply heap_ok_mono; [|done..|].
    2: { apply (heap_ok_alloc (L ++ P ++ hand)); [apply H| |done..].
         intros ([p c] & Hp & Hin)%list_elem_of_fmap. cbn in Hp.
         destruct (mem_entry _ _ _ _ _ p c H) as (_ & _ & _ & _ & Hlt); [set_solver|]. lia. }
    solve_Permutation.
Qed.

Lemma end_eq c lk : core_ok c → core_ok lk → c_end c = c_end lk ↔ lend (c_end c) = lend (c_end lk).
Proof. unfold core_ok, range_ok, lend, LLONG_MAX. intros. repeat case_match; lia. Qed.

Lemma runs_split lock lk L1 o c L2 s Q :
  mem_ok ext [] [(lock, lk)] (L1 ++ (o, c) :: L2) P nobad s →
  c_start c < c_start lk → lend (c_end lk) ≤ lend (c_end c) →
  (∀ s' R, mem_ok ext [] [] (L1 ++ (o, with_end (c_start lk - 1) c) :: (lock, lk) :: R ++ L2) P (eq o) s' →
     R.*2 = (if lend (c_end lk) <? lend (c_end c) then [with_start (c_end lk + 1) c] else []) →
     (∀ p, p < next_addr s → idle p (heap s) → idle p (heap s')) → Q tt s') →
  runs (lf_split o lock) s Q.
Proof.
  intros H Hs He HQ. destruct (mem_entry _ _ _ _ _ o c H) as (x & Hx & Hxc & Hcok & Hon); [set_solver|].
  destruct (mem_entry _ _ _ _ _ lock lk H) as (y & Hy & Hyc & Hlok & _); [set_solver|].
  destruct (mem_disjoint _ _ _ _ _ H) as (Hnd & Hdl & _).
  assert (o ∉ L1.*1) as Ho by (rewrite fmap_app in Hnd; apply NoDup_app in Hnd as (_ & Hd & _);
    intros Hin; apply (Hd o Hin); cbn; set_solver).
  pose proof (end_eq _ _ Hcok Hlok) as Hend. pose proof Hcok as (Hc1 & Hc2 & Hc3). pose proof Hlok as (Hl1 & Hl2 & Hl3).
  assert (core_ok (with_end (c_start lk - 1) c)) as Hleft.
  { unfold core_ok, range_ok. cbn. rewrite lend_nonneg by lia. unfold lend, LLONG_MAX in *. repeat case_match; lia. }
  unfold lf_split. step. step. step. step.
  replace (lf_start x) with (c_start c) by (by subst c). replace (lf_start y) with (c_start lk) by (by subst lk).
  replace (lf_end x) with (c_end c) by (by subst c). replace (lf_end y) with (c_end lk) by (by subst lk).
  rewrite (proj2 (Z.eqb_neq _ _)) by lia.
  assert (∀ x, core_of x = c → core_of (set_end (c_start lk - 1) x) = with_end (c_start lk - 1) c) as Hse
    by (by intros ? <-).
  destruct (Z.eqb_spec (c_end c) (c_end lk)) as [E|E].
  - step. apply runs_quad; [unfold lend, LLONG_MAX in *; repeat case_match; lia|]. step.
    eapply (runs_set _ _ _ _ _ _ _ _ (eq o)); [exact H|by auto|done|by left|]. intros s1 H1 Hi1.
    eapply (runs_relink _ [] _ [] _ (L1 ++ (o, with_end (c_start lk - 1) c) :: (lock, lk) :: L2)); [exact H1| | | |].
    + rewrite !fmap_app. cbn. by apply TAILQ_INSERT_AFTER_app.
    + solve_Permutation.
    + intros b. rewrite !app_nil_r, !fmap_app. cbn. set_solver.
    + intros s2 H2 Hh2. apply (HQ s2 []); [done| |intros p _; rewrite Hh2; auto].
      rewrite (proj2 (Z.ltb_ge _ _)); [done|]. lia.
  - assert (lend (c_end lk) < lend (c_end c)) as Hlt by (destruct (Z.eq_dec (lend (c_end lk)) (lend (c_end c))); [|lia]; exfalso; apply E, Hend; lia).
    pose proof (lend_finite _ _ Hc3 Hlt) as Hfin.
    step. apply runs_alloc; [by intros _ []|]. intros cnt. step. eapply runs_lift; [reflexivity|]. step.
    apply runs_quad; [unfold lend, LLONG_MAX in *; repeat case_match; lia|]. step. step. step.
    unfold ls_ref. eapply runs_upd_ls; [cbn; apply H|]. cbn. step.
    apply runs_quad; [unfold lend, LLONG_MAX in *; repeat case_match; lia|].
    assert (core_ok (with_start (c_end lk + 1) c)) as Hright by (unfold core_ok, range_ok; cbn; lia).
    match goal with |- runs _ ?st _ =>
      assert (mem_ok ext [] [(next_addr s, with_start (c_end lk + 1) c); (lock, lk)] (L1 ++ (o, c) :: L2) P nobad st) as H0
    end.
    { replace (with_start _ c) with (core_of (Lockf (lf_flags x) (lf_type x) (c_end lk + 1) (c_end c)
        (lf_id x) None [] (lf_uid x) (lf_pid x))) in Hright |- * by (by subst c).
      by apply (mem_new _ _ _ _ _ _ _ H). }
    step. eapply (runs_set _ _ _ _ _ _ _ _ (eq o)); [exact H0|by auto|done|by left|]. intros s1 H1 Hi1. cbn in Hi1. step.
    eapply (runs_relink _ [] _ [(next_addr s, with_start (c_end lk + 1) c)] _
      (L1 ++ (o, with_end (c_start lk - 1) c) :: (lock, lk) :: L2)); [exact H1| | | |].
    + rewrite !fmap_app. cbn. by apply TAILQ_INSERT_AFTER_app.
    + solve_Permutation.
    + intros b. rewrite !app_nil_r, !fmap_app. cbn. set_solver.
    + intros s2 H2 Hh2. destruct (mem_disjoint _ _ _ _ _ H2) as (Hnd2 & _).
      eapply (runs_relink _ [] _ [] _ (L1 ++ (o, with_end (c_start lk - 1) c) :: (lock, lk) ::
        [(next_addr s, with_start (c_end lk + 1) c)] ++ L2)); [exact H2| | | |].
      * rewrite !fmap_app in *. cbn in *.
        trans (TAILQ_INSERT_AFTER lock (next_addr s) ((L1.*1 ++ [o]) ++ lock :: L2.*1)); [by rewrite <-app_assoc|].
        rewrite TAILQ_INSERT_AFTER_app, <-app_assoc; [done|].
        change (o :: lock :: L2.*1) with ([o] ++ lock :: L2.*1) in Hnd2. rewrite app_assoc in Hnd2.
        apply NoDup_app in Hnd2 as (_ & Hd2 & _). intros Hin. apply (Hd2 lock Hin). set_solver.
      * solve_Permutation.
      * intros b. rewrite !app_nil_r, !fmap_app. cbn. set_solver.
      * intros s3 H3 Hh3. apply (HQ s3 [(next_addr s, with_start (c_end lk + 1) c)]); [done| |].
        -- by rewrite (proj2 (Z.ltb_lt _ _)).
        -- intros p Hp Hi. rewrite Hh3, Hh2. apply Hi1. destruct Hi as (x' & Hx' & Hi).
           exists x'. rewrite lookup_insert_ne; [done|]. lia.
Qed.

(** ** The walks in the list *)

Lemma mem_next T hand L1 o c L2 bad s :
  mem_ok ext T hand (L1 ++ (o, c) :: L2) P bad s →
  o ∉ L1.*1 ∧ TAILQ_NEXT o (L1 ++ (o, c) :: L2).*1 = head L2.*1.
Proof.
  intros H. destruct (mem_disjoint _ _ _ _ _ H) as (Hnd & _). rewrite fmap_app in *. cbn in *.
  apply NoDup_app in Hnd as (_ & Hd & _). assert (o ∉ L1.*1) by (intros Hin; apply (Hd o Hin); set_solver).
  by rewrite TAILQ_NEXT_app.
Qed.

Lemma mem_state T hand L bad s : mem_ok ext T hand L P bad s → ∃ st, state s = Some st ∧ ls_locks st = L.*1.
Proof. intros [Hs _]. eexists. split; [exact Hs|done]. Qed.

Lemma runs_walk T hand pre post bad s Q :
  mem_ok ext T hand (pre ++ post) P bad s → Q post.*1 s → runs (walk (head post.*1)) s Q.
Proof.
  intros H HQ. destruct post as [|[p c] post]; cbn [fmap list_fmap fst head walk]; [by apply runs_ret|].
  destruct (mem_state _ _ _ _ _ H) as (st & Hst & Hl). destruct (mem_next _ _ _ _ _ _ _ _ H) as [Hp _].
  step. step. step. rewrite Hl, fmap_app. cbn. by rewrite from_app.
Qed.

Lemma runs_find type T hand pre post bad lock lk s Q :
  type = SELF ∨ type = OTHERS → mem_ok ext T hand (pre ++ post) P bad s →
  (lock, lk) ∈ (pre ++ post) ++ P ++ hand →
  (∀ k o, find_post type lk post k o → Q (k, o) s) →
  runs (lf_findoverlap (head post.*1) lock type) s Q.
Proof.
  intros Ht H Hin HQ. destruct (mem_entry _ _ _ _ _ _ _ H Hin) as (x & Hx & Hc & Hok & _). subst lk.
  unfold lf_findoverlap. step. eapply runs_walk; [done|]. step. step. apply findoverlap_spec; try done.
  - intros p c Hp. apply (mem_listed _ _ _ _ _ H). set_solver.
  - apply Forall_forall. intros c ([p d] & -> & Hp)%list_elem_of_fmap.
    by destruct (mem_entry _ _ _ _ _ p d H) as (? & _ & _ & ? & _); [set_solver|].
Qed.

(** The first lock of another owner that conflicts. *)
Inductive block_post (lk : core) (L : list entry) : option Z → Prop :=
| block_none : (∀ c, c ∈ L.*2 → ¬ conflict c lk) → block_post lk L None
| block_some L1 b c L2 :
    L = L1 ++ (b, c) :: L2 → conflict c lk → (∀ d, d ∈ L1.*2 → ¬ conflict d lk) → block_post lk L (Some b).

Lemma block_post_app lk L1 L o :
  (∀ d, d ∈ L1.*2 → ¬ conflict d lk) → block_post lk L o → block_post lk (L1 ++ L) o.
Proof.
  intros H1 [H|L1' b c L2 -> Hc H].
  - apply block_none. intros c. rewrite fmap_app. intros [Hc|Hc]%elem_of_app; auto.
  - apply (block_some _ _ (L1 ++ L1') b c L2); [by rewrite <-app_assoc|done|].
    intros d. rewrite fmap_app. intros [Hd|Hd]%elem_of_app; auto.
Qed.

Lemma passed_others lk L : Forall (passed OTHERS lk) L → ∀ d, d ∈ L → ¬ conflict d lk.
Proof.
  rewrite Forall_forall. intros H d Hd (Hid & Hm & _). by apply (H d Hd).
Qed.

Lemma case_meet k c lk : 1 ≤ k → core_ok c → core_ok lk →
  case_ok k (c_start lk) (lend (c_end lk)) (c_start c) (lend (c_end c)) → meet c lk.
Proof. unfold case_ok, meet, core_ok, range_ok. lia. Qed.

Lemma runs_getblock T hand pre post bad lock lk fuel s Q :
  mem_ok ext T hand (pre ++ post) P bad s → (lock, lk) ∈ (pre ++ post) ++ P ++ hand →
  (length post < fuel)%nat → (∀ o, block_post lk post o → Q o s) →
  runs (getblock fuel (head post.*1) lock) s Q.
Proof.
  revert pre post Q. induction fuel as [|fuel IH]; intros pre post Q H Hin Hfuel HQ; [lia|]. cbn [getblock].
  step. eapply runs_find; [by right|done|done|]. intros k o [Hp|L1 q c L2 Hs|L1 q c L2 k' -> Hw Hp Hk Hcase].
  - cbn. step. apply HQ, block_none. by apply passed_others.
  - done.
  - replace (k' =? 0) with false by lia. step. eapply runs_lift; [reflexivity|].
    destruct (mem_entry _ _ _ _ _ _ _ H Hin) as (x & Hx & Hxc & Hxok & _).
    destruct (mem_entry _ _ _ _ _ q c H) as (y & Hy & Hyc & Hyok & _); [set_solver|].
    step. step. step. step. assert (meet c lk) as Hm by by eapply case_meet.
    destruct ((lf_type x =? F_WRLCK) || (lf_type y =? F_WRLCK)) eqn:E.
    + step. apply HQ. eapply (block_some _ _ L1); [done| |by apply passed_others].
      split; [done|]. split; [done|]. subst. cbn. lia.
    + destruct (mem_state _ _ _ _ _ H) as (st & Hst & Hl). step. step. rewrite Hl, (app_assoc pre L1).
      rewrite (app_assoc pre L1) in H, Hin. rewrite (proj2 (mem_next _ _ _ _ _ _ _ _ H)).
      rewrite length_app in Hfuel. cbn in Hfuel.
      change ((q, c) :: L2) with ([(q, c)] ++ L2) in H, Hin. rewrite (app_assoc (pre ++ L1)) in H, Hin.
      apply (IH ((pre ++ L1) ++ [(q, c)])); [done|done|lia|].
      intros o' Ho. apply HQ. change ((q, c) :: L2) with ([(q, c)] ++ L2). rewrite app_assoc.
      apply block_post_app; [|done]. intros d. rewrite fmap_app.
      intros [Hd|Hd]%elem_of_app; [by apply (passed_others _ _ Hp)|].
      apply list_elem_of_singleton in Hd as ->. intros (_ & _ & Ht). subst. cbn in Ht. lia.
Qed.

Lemma runs_lf_getblock T hand pre post bad lock lk s Q :
  mem_ok ext T hand (pre ++ post) P bad s → (lock, lk) ∈ (pre ++ post) ++ P ++ hand →
  (∀ o, block_post lk post o → Q o s) → runs (lf_getblock (head post.*1) lock) s Q.
Proof.
  intros H Hin HQ. destruct (mem_state _ _ _ _ _ H) as (st & Hst & Hl). unfold lf_getblock. step. step.
  eapply runs_getblock; [done|done| |done]. rewrite Hl, length_fmap, length_app. lia.
Qed.

Lemma runs_first T hand L bad s Q :
  mem_ok ext T hand L P bad s → Q (head L.*1) s → runs first_lock s Q.
Proof.
  intros H HQ. destruct (mem_state _ _ _ _ _ H) as (st & Hst & Hl). unfold first_lock. step. step. step.
  by rewrite Hl.
Qed.
End Mem.

#[global] Arguments mem_entry {ext P}.
#[global] Arguments mem_listed {ext P}.
#[global] Arguments mem_disjoint {ext P}.
#[global] Arguments mem_nil {ext P}.
#[global] Arguments mem_idle {ext P}.
#[global] Arguments mem_settled {ext P}.
#[global] Arguments runs_wake {ext P}.
#[global] Arguments runs_wake_keep {ext P}.
#[global] Arguments runs_relink {ext P}.
#[global] Arguments runs_free {ext P}.
#[global] Arguments runs_set {ext P}.
#[global] Arguments runs_start_after {ext P}.
#[global] Arguments runs_end_before {ext P}.
#[global] Arguments runs_move_all {ext P}.
#[global] Arguments mem_new {ext P}.
#[global] Arguments runs_split {ext P}.
#[global] Arguments mem_next {ext P}.
#[global] Arguments mem_state {ext P}.
#[global] Arguments runs_walk {ext P}.
#[global] Arguments runs_find {ext P}.
#[global] Arguments runs_getblock {ext P}.
#[global] Arguments runs_lf_getblock {ext P}.
#[global] Arguments runs_first {ext P}.
#[global] Arguments runs_wake_all {ext P}.
