(* ===== verification/LockfSpec.v ===== *)
(** What the operations on record locks do (Lockf.v): clearing and setting a
    range, waiting, and the safety of every sequence of calls. *)

From S2P Require Import Prelude StateMonad Lockf LockfMem.

(** ** Clearing a range *)

Section Clear.
Context (ext : Z) (P : list (Z * core)).

Lemma cut_id lk K : (∀ c, c ∈ K → c_id c = c_id lk → ¬ meet c lk) → K ≫= cut lk = K.
Proof.
  induction K as [|c K IH]; [done|]. intros H. rewrite bind_cons, IH by (intros; apply H; set_solver).
  unfold cut. rewrite bool_decide_false; [done|]. intros [Hid Hm]. revert Hm. apply H; set_solver.
Qed.

Lemma cut_passed lk K : core_ok lk → Forall (passed SELF lk) K → K ≫= cut lk = K.
Proof.
  intros Hok H. apply cut_id. intros c Hc Hid Hm. apply (proj1 (Forall_forall _ _) H c Hc) in Hid.
  cbn in Hid. unfold before, meet in *. lia.
Qed.

(** Own locks after one that reaches as far as [lk] are beyond [lk]. *)
Lemma cut_behind lk c K :
  locks_ok (c :: K) → c_id c = c_id lk → lend (c_end lk) ≤ lend (c_end c) → K ≫= cut lk = K.
Proof.
  intros (_ & Hf & _)%locks_ok_cons Hid He. apply cut_id. intros d Hd Hidd Hm.
  destruct (Hf d Hd) as [Hb _]. specialize (Hb ltac:(congruence)). unfold before, meet in *. lia.
Qed.

(** ... and so are those from one beyond [lk] on. *)
Lemma cut_past lk c K :
  locks_ok (c :: K) → c_id c = c_id lk → before lk c → (c :: K) ≫= cut lk = c :: K.
Proof.
  intros ((_ & ? & _) & Hf & _)%locks_ok_cons Hid Hb. apply cut_id.
  intros d [->|Hd]%elem_of_cons Hidd Hm; [unfold before, meet in *; lia|].
  destruct (Hf d Hd) as [Hbd _]. specialize (Hbd ltac:(congruence)). unfold before, meet in *. lia.
Qed.

Lemma cut_own lk c :
  c_id c = c_id lk → meet c lk → cut lk c =
    (if c_start c <? c_start lk then [with_end (c_start lk - 1) c] else []) ++
    (if lend (c_end lk) <? lend (c_end c) then [with_start (c_end lk + 1) c] else []).
Proof. intros Hid Hm. unfold cut. by rewrite bool_decide_true. Qed.

(** Evaluates the comparisons of constants. *)
Ltac eqb_const := repeat match goal with
  |- context [?a =? ?b] => let v := eval vm_compute in (a =? b) in
    lazymatch v with true => idtac | false => idtac end; change (a =? b) with v end; cbv iota.
Ltac ltb_true := rewrite (proj2 (Z.ltb_lt _ _)) by lia.
Ltac ltb_false := rewrite (proj2 (Z.ltb_ge _ _)) by lia.

Lemma right_ok lk c : core_ok c → core_ok lk → lend (c_end lk) < lend (c_end c) →
  c_end lk ≠ -1 ∧ core_ok (with_start (c_end lk + 1) c).
Proof.
  intros Hc (? & ? & ?) Hlt. pose proof Hc as (? & ? & Hc3). pose proof (lend_finite _ _ Hc3 Hlt).
  split; [lia|]. unfold core_ok, range_ok. cbn. lia.
Qed.
Lemma left_ok lk c : core_ok c → core_ok lk → c_start c < c_start lk → c_start lk ≤ lend (c_end c) →
  core_ok (with_end (c_start lk - 1) c).
Proof.
  intros (? & ? & ?) (? & ? & ?) ? ?. unfold core_ok, range_ok. cbn. rewrite lend_nonneg by lia.
  unfold lend, LLONG_MAX in *. repeat case_match; lia.
Qed.

Lemma mem_unwaited T hand L bad o s :
  mem_ok ext (o :: T) hand L P bad s → idle o (heap s) → mem_ok ext T hand L P bad s.
Proof. intros [Hs Hh] Hi. split; [done|]. eapply heap_ok_idle; [exact Hi| | |exact Hh]; [set_solver|auto]. Qed.

Context (Hext : 0 ≤ ext).

(** The piece of a lock behind [lk]. *)
Lemma clear_start L1 o c L2 lock lk s Q :
  mem_ok ext [] [(lock, lk)] (L1 ++ (o, c) :: L2) P nobad s → idle o (heap s) → core_ok c → core_ok lk →
  lend (c_end lk) < lend (c_end c) →
  (∀ s', mem_ok ext [] [(lock, lk)] (L1 ++ (o, with_start (c_end lk + 1) c) :: L2) P nobad s' → Q tt s') →
  runs (start_after o lock) s Q.
Proof.
  intros H Hi Hc Hlk Hlt HQ. destruct (right_ok lk c) as [_ Hr]; [done..|].
  destruct (mem_entry _ _ _ _ _ lock lk H) as (y & Hy & Hyc & _); [set_solver|]. subst lk.
  eapply runs_start_after; [exact H|exact Hy|done|exact Hr|].
  intros s1 H1 Hi1. apply HQ. eapply mem_settled; [exact H1|]. by apply Hi1.
Qed.

(** Unlinking and freeing a lock nobody waits for. *)
Lemma runs_drop T T' hand L1 o c L2 s Q :
  mem_ok ext T hand (L1 ++ (o, c) :: L2) P nobad s → idle o (heap s) →
  0 < Z.of_nat (length (L1 ++ L2) + length P + length hand) + ext →
  (∀ b, b ∈ T → b ≠ o → b ∈ L1.*1 ++ L2.*1 ++ T') →
  (∀ s', mem_ok ext T' hand (L1 ++ L2) P nobad s' → Q tt s') →
  runs (upd_locks (TAILQ_REMOVE o);; lf_free o) s Q.
Proof.
  intros H Hi Hn HT HQ. destruct (mem_next _ _ _ _ _ _ _ _ H) as [Ho _]. step.
  eapply (runs_relink _ (o :: T) _ ((o, c) :: hand) _ (L1 ++ L2)); [exact H| | | |].
  - rewrite !fmap_app. cbn. by apply TAILQ_REMOVE_app.
  - solve_Permutation.
  - intros b. rewrite !fmap_app. cbn. set_solver.
  - intros s1 H1 Hh1. eapply runs_free; [exact H1|by rewrite Hh1|done| |intros s2 H2 _; by apply HQ].
    intros b. rewrite fmap_app. set_solver.
Qed.

(** A lock split around the range, which stays out of the list. *)
Lemma clear_split L1 o c L2 lock lk s Q :
  mem_ok ext [] [(lock, lk)] (L1 ++ (o, c) :: L2) P nobad s → idle o (heap s) →
  c_start c < c_start lk → lend (c_end lk) ≤ lend (c_end c) →
  (∀ s' R, mem_ok ext [] [(lock, lk)] (L1 ++ ((o, with_end (c_start lk - 1) c) :: R) ++ L2) P nobad s' →
     R.*2 = (if lend (c_end lk) <? lend (c_end c) then [with_start (c_end lk + 1) c] else []) → Q tt s') →
  runs (lf_split o lock;; upd_locks (TAILQ_REMOVE lock)) s Q.
Proof.
  intros H Hi Hs He HQ. destruct (mem_entry _ _ _ _ _ o c H) as (_ & _ & _ & _ & Ho); [set_solver|].
  destruct (mem_entry _ _ _ _ _ lock lk H) as (_ & _ & _ & _ & Hlock); [set_solver|].
  step. eapply runs_split; [exact H|done|done|]. intros s2 R H2 HR Hi2.
  apply mem_settled in H2; [|by apply Hi2].
  assert (idle lock (heap s2)) as Hil
    by (apply Hi2; [done|]; eapply mem_idle; [exact H|apply elem_of_cons; by left]).
  eapply (runs_relink _ [lock] _ [(lock, lk)] _
    (L1 ++ ((o, with_end (c_start lk - 1) c) :: R) ++ L2)); [exact H2| | | |].
  - destruct (mem_disjoint _ _ _ _ _ H2) as (Hnd & _). rewrite !fmap_app in *. cbn in *.
    change (o :: lock :: (R ++ L2).*1) with ([o] ++ lock :: (R ++ L2).*1) in *.
    rewrite (app_assoc _ [o]) in *. rewrite TAILQ_REMOVE_app; [by rewrite <-!app_assoc, fmap_app|].
    apply NoDup_app in Hnd as (_ & Hd & _). intros Hin. apply (Hd lock Hin). set_solver.
  - solve_Permutation.
  - intros b. rewrite !fmap_app. cbn. rewrite !fmap_app. set_solver.
  - intros s3 H3 Hh3. apply mem_unwaited in H3; [|by rewrite Hh3]. by apply (HQ s3 R).
Qed.

(** The piece of a lock before [lk]. *)
Lemma clear_end L1 o c L2 lock lk s Q :
  mem_ok ext [] [(lock, lk)] (L1 ++ (o, c) :: L2) P nobad s → idle o (heap s) → core_ok c → core_ok lk →
  c_start c < c_start lk → c_start lk ≤ lend (c_end c) →
  (∀ s', mem_ok ext [] [(lock, lk)] (L1 ++ (o, with_end (c_start lk - 1) c) :: L2) P nobad s' → Q tt s') →
  runs (end_before o lock) s Q.
Proof.
  intros H Hi Hc Hlk Hs He HQ. pose proof (left_ok lk c Hc Hlk Hs He) as Hl.
  destruct (mem_entry _ _ _ _ _ lock lk H) as (y & Hy & Hyc & _); [set_solver|]. subst lk.
  eapply runs_end_before; [exact H|exact Hy|done|exact Hl|].
  intros s1 H1 Hi1. apply HQ. eapply mem_settled; [exact H1|]. by apply Hi1.
Qed.

(** The locks of other owners are left alone. *)
Definition others_kept (lk : core) (L L' : list entry) : Prop :=
  ∀ e, e ∈ L → c_id e.2 ≠ c_id lk → e ∈ L'.

Lemma runs_clear_loop fuel pre post lock lk s Q :
  mem_ok ext [] [(lock, lk)] (pre ++ post) P nobad s → locks_ok post.*2 → (length post < fuel)%nat →
  (∀ s' L', mem_ok ext [] [(lock, lk)] (pre ++ L') P nobad s' → L'.*2 = post.*2 ≫= cut lk →
     others_kept lk post L' → Q tt s') →
  runs (clear_loop fuel (head post.*1) lock) s Q.
Proof.
  revert pre post s Q. induction fuel as [|fuel IH]; intros pre post s Q H HK Hfuel HQ; [lia|].
  destruct (mem_entry _ _ _ _ _ lock lk H) as (_ & _ & _ & Hlk & _); [set_solver|].
  cbn [clear_loop]. step. eapply (runs_find SELF _ _ _ _ _ lock lk); [by left|done|set_solver|].
  intros k o [Hp|L1 q c L2 _ -> Hid Hb Hp|L1 q c L2 k' -> Hw Hp Hk Hcase].
  - eqb_const. step. apply (HQ s post); [done| |by intros ?]. by rewrite cut_passed.
  - eqb_const. step. apply (HQ s (L1 ++ (q, c) :: L2)); [done| |by intros ?].
    rewrite fmap_app, bind_app, cut_passed by done.
    f_equal. symmetry. rewrite fmap_app in HK. apply locks_ok_app in HK as (_ & _ & HK). by apply (cut_past lk c).
  - replace (k' =? 0) with false by lia. cbn in Hw.
    destruct (mem_entry _ _ _ _ _ q c H) as (_ & _ & _ & Hc & _); [set_solver|].
    rewrite app_assoc in H. pose proof (mem_next _ _ _ _ _ _ _ _ H) as [Hq Hnext].
    pose proof (case_meet _ _ _ Hk Hc Hlk Hcase) as Hm.
    rewrite fmap_app in HK. apply locks_ok_app in HK as (_ & _ & HK). cbn in HK.
    assert (∀ s' M R, mem_ok ext [] [(lock, lk)] ((pre ++ L1) ++ M ++ R) P nobad s' → M.*2 = cut lk c →
      R.*2 = L2.*2 ≫= cut lk → others_kept lk L2 R → Q tt s') as Hfin.
    { intros s' M R H' HM HR Hkept. apply (HQ s' (L1 ++ M ++ R)); [by rewrite (app_assoc pre)| |].
      - rewrite !fmap_app, bind_app, cut_passed by done. cbn. by rewrite HM, HR.
      - intros e [He|[->|He]%elem_of_cons]%elem_of_app Hne; [set_solver|by cbn in Hne|].
        specialize (Hkept e He Hne). set_solver. }
    assert (lend (c_end lk) ≤ lend (c_end c) → ∀ s' M, mem_ok ext [] [(lock, lk)] ((pre ++ L1) ++ M ++ L2) P nobad s' →
      M.*2 = cut lk c → Q tt s') as Hend
      by (intros He s' M H' HM; apply (Hfin s' M L2); [done|done|symmetry; by apply (cut_behind lk c)|by intros ?]).
    rewrite cut_own in Hfin, Hend by done. apply locks_ok_cons in HK as (_ & _ & HK2).
    assert (length L2 < fuel)%nat as Hf by (rewrite length_app in Hfuel; cbn in Hfuel; lia).
    step. eapply runs_lift; [reflexivity|]. step. eapply (runs_wake _ _ _ _ q c); [|exact H|]; [set_solver|].
    intros s1 H1 Hi1. destruct (mem_state _ _ _ _ _ H1) as (st & Hst & Hl).
    destruct Hcase as [[-> _]|[(-> & Hs & He)|[(-> & Hs & He & Hse)|[(-> & Hs & He & _)|[(-> & Hs & Hse & He)|(-> & Hs & Hse & He)]]]]];
      [lia|eqb_const..].
    + eapply (runs_drop [] []); [exact H1|done|rewrite !length_app; cbn; lia|set_solver|].
      intros s2 H2. apply (Hend ltac:(lia) s2 []); [done|]. by do 2 ltb_false.
    + destruct (mem_entry _ _ _ _ _ q c H1) as (x & Hx & Hxc & _); [set_solver|].
      destruct (mem_entry _ _ _ _ _ lock lk H1) as (y & Hy & Hyc & _); [set_solver|].
      step. step. step. step. replace (lf_start x) with (c_start c) by (by subst c).
      replace (lf_start y) with (c_start lk) by (by subst lk).
      destruct (Z.eqb_spec (c_start c) (c_start lk)) as [E|E].
      * eapply clear_start; [exact H1|done..|lia|]. intros s2 H2.
        apply (Hend ltac:(lia) s2 [(q, with_start (c_end lk + 1) c)]); [done|]. ltb_false. by ltb_true.
      * eapply clear_split; [exact H1|done|lia|done|]. intros s2 R H2 HR.
        apply (Hend ltac:(lia) s2 ((q, with_end (c_start lk - 1) c) :: R)); [done|].
        cbn. rewrite HR. by rewrite (proj2 (Z.ltb_lt (c_start c) (c_start lk))) by lia.
    + step. step. rewrite Hl, Hnext. apply runs_assoc.
      eapply (runs_drop [] []); [exact H1|done|rewrite !length_app; cbn; lia|set_solver|].
      intros s2 H2. apply (IH (pre ++ L1) L2); [done..|]. intros s3 L' H3 HL' Hkept.
      apply (Hfin s3 [] L'); [done| |done|done]. by do 2 ltb_false.
    + step. eapply clear_end; [exact H1|done..|]. intros s2 H2.
      destruct (mem_state _ _ _ _ _ H2) as (st2 & Hst2 & Hl2).
      step. step. rewrite Hl2, (proj2 (mem_next _ _ _ _ _ _ _ _ H2)).
      change ((q, with_end (c_start lk - 1) c) :: L2) with ([(q, with_end (c_start lk - 1) c)] ++ L2) in H2.
      rewrite app_assoc in H2. eapply IH; [exact H2|done..|]. intros s3 L' H3 HL' Hkept.
      apply (Hfin s3 [(q, with_end (c_start lk - 1) c)] L'); [by rewrite app_assoc| |done|done].
      ltb_true. by ltb_false.
    + eapply clear_start; [exact H1|done..|]. intros s2 H2.
      apply (Hend ltac:(lia) s2 [(q, with_start (c_end lk + 1) c)]); [done|]. ltb_false. by ltb_true.
Qed.

(** ** Adding a lock *)

Definition typed (c : core) : Prop := c_type c = F_RDLCK ∨ c_type c = F_WRLCK.

(** [lk'] is the lock asked for, up to the user it is counted for. *)
Definition same_lock (lk' lk : core) : Prop :=
  c_type lk' = c_type lk ∧ c_start lk' = c_start lk ∧ c_end lk' = c_end lk ∧ c_id lk' = c_id lk.

(** What adding [lk] makes of the locks [K]: nothing, if its range has its type
    already; otherwise the range is cut out of the owner's locks, and the lock
    put in its place among them. *)
Inductive added (lk : core) (K : list core) : list core → Prop :=
| added_covered c :
    c ∈ K → c_id c = c_id lk → c_type c = c_type lk →
    c_start c ≤ c_start lk → lend (c_end lk) ≤ lend (c_end c) → added lk K K
| added_at K1 lk' K2 :
    K ≫= cut lk = K1 ++ K2 → same_lock lk' lk →
    (∀ d, d ∈ K1 → c_id d = c_id lk → before d lk) →
    (∀ d, d ∈ K2 → c_id d = c_id lk → before lk d) → added lk K (K1 ++ lk' :: K2).

Lemma cut_beyond lk d d' :
  core_ok d → core_ok lk → d' ∈ cut lk d → c_id d' = c_id lk → c_start lk < c_start d → before lk d'.
Proof.
  intros Hd Hlk Hin Hid Hlt. destruct (cut_part lk d d') as ((_ & ? & _) & (Hi & _ & _ & ? & _) & Hm); [done..|].
  specialize (Hm ltac:(congruence)). destruct Hlk as (_ & ? & _). unfold meet, before in *. lia.
Qed.

(** The lock in place of the middle of one it overlaps. *)
Lemma added_mid lk K1 c K2 lk' :
  core_ok lk → locks_ok (K1 ++ c :: K2) → Forall (passed SELF lk) K1 → c_id c = c_id lk → meet c lk →
  same_lock lk' lk →
  added lk (K1 ++ c :: K2)
    ((K1 ++ (if c_start c <? c_start lk then [with_end (c_start lk - 1) c] else [])) ++ lk' ::
     (if lend (c_end lk) <? lend (c_end c) then [with_start (c_end lk + 1) c] else []) ++ (K2 ≫= cut lk)).
Proof.
  intros Hlk (_ & _ & (Hc & Hf & HK2)%locks_ok_cons)%locks_ok_app Hp Hid Hm Hs. apply added_at; [|done|..].
  - rewrite bind_app, bind_cons, cut_passed, cut_own by done. by rewrite <-!app_assoc.
  - intros d [Hd|Hd]%elem_of_app Hidd.
    + by apply (proj1 (Forall_forall _ _) Hp d Hd).
    + case_match; [|by apply not_elem_of_nil in Hd]. apply list_elem_of_singleton in Hd as ->.
      unfold before. cbn. destruct Hc. rewrite lend_nonneg; lia.
  - intros d [Hd|(e & Hd & He)%list_elem_of_bind]%elem_of_app Hidd.
    + case_match eqn:E; [|by apply not_elem_of_nil in Hd]. apply list_elem_of_singleton in Hd as ->.
      unfold before. cbn. destruct Hc as (_ & _ & Hc). rewrite (lend_finite _ (c_end c)); lia.
    + destruct HK2 as [_ HK2]. pose proof (proj1 (Forall_forall _ _) HK2 e He) as Hek.
      apply (cut_beyond lk e); [done..|].
      destruct (cut_part lk e d) as (_ & (Hi & _) & _); [done..|].
      destruct (Hf e He) as [Hb _]. specialize (Hb ltac:(congruence)). unfold before, meet in *. lia.
Qed.

(** The waiters of a lock that [lock] contains: woken, if they may have become
    able to go on, or left to wait for [lock]. *)
Lemma runs_settle T hand L o c lock lk x y s Q :
  mem_ok ext T hand L P nobad s → (o, c) ∈ L ++ hand → (lock, lk) ∈ L ++ hand → lock ∈ L.*1 ++ T → lock ≠ o →
  heap s !! lock = Some x → heap s !! o = Some y → typed lk → c_id c = c_id lk →
  c_start lk ≤ c_start c → lend (c_end c) ≤ lend (c_end lk) →
  (∀ s', mem_ok ext T hand L P nobad s' → idle o (heap s') → Q tt s') →
  runs (if (lf_type x =? F_RDLCK) && (lf_type y =? F_WRLCK) then lf_wakelock o 0
        else move_blocked (lf_blkhd y) o lock) s Q.
Proof.
  intros H Ho Hl Hin Hne Hx Hy Ht Hid Hs He HQ. case_match eqn:E; [by eapply (runs_wake _ _ _ _ o c)|].
  eapply (runs_move_all _ _ _ nobad o c lock lk); [done|done|done|done|by intros []| |exact H|done|done|done]. intros d (Hidd & Hm & Hty).
  destruct (mem_nil _ _ _ _ _ o c H Ho) as (y' & Hy' & Hyc & _). rewrite Hy in Hy'. injection Hy' as <-.
  destruct (mem_nil _ _ _ _ _ lock lk H Hl) as (x' & Hx' & Hxc & _). rewrite Hx in Hx'. injection Hx' as <-.
  split; [congruence|]. split; [unfold meet in *; lia|]. destruct Hty as [Hty|Hty]; [by left|right].
  destruct Ht as [Ht|Ht]; [|done]. exfalso. subst. cbn in *. unfold F_RDLCK, F_WRLCK in *. lia.
Qed.

Lemma entry_mid (e : entry) L1 L2 H : e ∈ (L1 ++ e :: L2) ++ H.
Proof. set_solver. Qed.

(** Waking those that wait for a lock just cut. *)
Lemma runs_wake_settled T hand L o c s Q :
  mem_ok ext T hand L P (eq o) s → (o, c) ∈ L ++ hand →
  (∀ s', mem_ok ext T hand L P nobad s' → Q tt s') → runs (lf_wakelock o 0) s Q.
Proof.
  intros H Ho HQ. eapply runs_wake; [exact Ho|exact H|]. intros s' H' Hi. apply HQ. by eapply mem_settled.
Qed.

Lemma runs_start_wake T hand L1 o c L2 lock lk s Q :
  mem_ok ext T hand (L1 ++ (o, c) :: L2) P nobad s → (lock, lk) ∈ (L1 ++ (o, c) :: L2) ++ P ++ hand →
  core_ok c → core_ok lk → lend (c_end lk) < lend (c_end c) →
  (∀ s', mem_ok ext T hand (L1 ++ (o, with_start (c_end lk + 1) c) :: L2) P nobad s' → Q tt s') →
  runs (start_after o lock;; lf_wakelock o 0) s Q.
Proof.
  intros H Hl Hc Hlk Hlt HQ. destruct (right_ok lk c) as [_ Hr]; [done..|].
  destruct (mem_entry _ _ _ _ _ lock lk H Hl) as (y & Hy & Hyc & _). subst lk.
  step. eapply runs_start_after; [exact H|exact Hy|done|exact Hr|].
  intros s1 H1 _. eapply runs_wake_settled; [exact H1|apply entry_mid|exact HQ].
Qed.

Lemma runs_add_more fuel pre post lock lk s Q :
  mem_ok ext [] [] (pre ++ post) P nobad s → (lock, lk) ∈ pre → typed lk → locks_ok post.*2 →
  (∀ c, c ∈ post.*2 → c_id c = c_id lk → c_start lk < c_start c) → (length post < fuel)%nat →
  (∀ s' L', mem_ok ext [] [] (pre ++ L') P nobad s' → L'.*2 = post.*2 ≫= cut lk → Q tt s') →
  runs (add_loop fuel (head post.*1) lock false) s Q.
Proof.
  revert pre post s Q. induction fuel as [|fuel IH]; intros pre post s Q H Hin Ht HK Hafter Hfuel HQ; [lia|].
  destruct (mem_entry _ _ _ _ _ lock lk H) as (x & Hx & Hxc & Hlk & _); [set_solver|].
  cbn [add_loop]. step. eapply (runs_find SELF _ _ _ _ _ lock lk); [by left|done|set_solver|].
  intros k o [Hp|L1 q c L2 _ -> Hid Hb Hp|L1 q c L2 k' -> Hw Hp Hk Hcase].
  - eqb_const. step. apply (HQ s post); [done|]. by rewrite cut_passed.
  - eqb_const. step. apply (HQ s (L1 ++ (q, c) :: L2)); [done|]. rewrite fmap_app, bind_app, cut_passed by done.
    f_equal. symmetry. rewrite fmap_app in HK. apply locks_ok_app in HK as (_ & _ & HK). by apply (cut_past lk c).
  - replace (k' =? 0) with false by lia. cbn in Hw.
    destruct (mem_entry _ _ _ _ _ q c H) as (y & Hy & _ & Hc & _); [set_solver|].
    rewrite app_assoc in H. pose proof (mem_next _ _ _ _ _ _ _ _ H) as [Hq Hnext].
    pose proof (case_meet _ _ _ Hk Hc Hlk Hcase) as Hm. specialize (Hafter c ltac:(set_solver) Hw) as Hac.
    rewrite fmap_app in HK. apply locks_ok_app in HK as (_ & _ & HK). cbn in HK.
    assert (lock ≠ q) as Hlq by (intros ->; apply Hq; rewrite fmap_app; apply elem_of_app; left; by eapply elem_fst).
    destruct (mem_state _ _ _ _ _ H) as (st & Hst & Hl).
    step. eapply runs_lift; [reflexivity|]. step. step. step. step. step. step. rewrite Hl, Hnext.
    destruct Hcase as [[-> _]|[(-> & Hs & He)|[(-> & Hs & He & Hse)|[(-> & Hs & He & _)|[(-> & Hs & Hse & He)|(-> & Hs & Hse & He)]]]]];
      [lia..| |lia|]; eqb_const.
    + step. eapply (runs_settle _ _ _ q c lock lk); [exact H|set_solver|set_solver| |done..|]; [rewrite !fmap_app; apply elem_fst in Hin; set_solver|].
      intros s1 H1 Hi1. step. step. apply runs_assoc.
      eapply (runs_drop [] []); [exact H1|done| |set_solver|].
      { apply list_elem_of_split in Hin as (? & ? & ->). rewrite !length_app. cbn. lia. }
      intros s2 H2. apply (IH (pre ++ L1) L2); [done|set_solver|done|by apply locks_ok_cons in HK as (_ & _ & HK)|
        intros d Hd; apply Hafter; rewrite fmap_app; set_solver|rewrite length_app in Hfuel; cbn in Hfuel; lia|].
      intros s3 L' H3 HL'. apply (HQ s3 (L1 ++ L')); [by rewrite app_assoc|].
      rewrite !fmap_app, bind_app, cut_passed, fmap_cons, bind_cons, cut_own by done. cbn [snd].
      do 2 ltb_false. by rewrite HL'.
    + step. step. eapply (runs_start_wake _ _ _ _ _ _ _ lk); [exact H|set_solver|done|done|lia|].
      intros s1 H1. apply (HQ s1 (L1 ++ (q, with_start (c_end lk + 1) c) :: L2)); [by rewrite app_assoc|].
      rewrite !fmap_app, bind_app, cut_passed, !fmap_cons, bind_cons, cut_own by done. cbn [snd].
      ltb_false. ltb_true. rewrite (cut_behind lk c L2.*2); [done|done|done|lia].
Qed.

(** Linking [lock] into the list before [o], after [o] or at the end. *)
Lemma runs_link T T' lock lk L1 L2 g bad s Q :
  mem_ok ext T [(lock, lk)] (L1 ++ L2) P bad s → g (L1 ++ L2).*1 = (L1 ++ (lock, lk) :: L2).*1 →
  (∀ b, b ∈ T → b = lock ∨ b ∈ T') →
  (∀ s', mem_ok ext T' [] (L1 ++ (lock, lk) :: L2) P bad s' → heap s' = heap s → Q tt s') →
  runs (upd_locks g) s Q.
Proof.
  intros H Hg HT HQ. eapply (runs_relink _ T' _ [] _ (L1 ++ (lock, lk) :: L2)); [exact H|exact Hg| | |exact HQ].
  - solve_Permutation.
  - intros b. rewrite !fmap_app. cbn. set_solver.
Qed.

Lemma link_before T lock lk L1 o c L2 bad s Q :
  mem_ok ext T [(lock, lk)] (L1 ++ (o, c) :: L2) P bad s → (∀ b, b ∈ T → b = lock) →
  (∀ s', mem_ok ext [] [] (L1 ++ (lock, lk) :: (o, c) :: L2) P bad s' → heap s' = heap s → Q tt s') →
  runs (upd_locks (TAILQ_INSERT_BEFORE o lock)) s Q.
Proof.
  intros H HT HQ. pose proof (mem_next _ _ _ _ _ _ _ _ H) as [Ho _].
  eapply runs_link; [exact H| |intros b Hb; left; by apply HT|exact HQ].
  rewrite !fmap_app. cbn. by apply TAILQ_INSERT_BEFORE_app.
Qed.

Lemma link_after lock lk L1 o c L2 bad s Q :
  mem_ok ext [] [(lock, lk)] (L1 ++ (o, c) :: L2) P bad s →
  (∀ s', mem_ok ext [] [] (L1 ++ (o, c) :: (lock, lk) :: L2) P bad s' → heap s' = heap s → Q tt s') →
  runs (upd_locks (TAILQ_INSERT_AFTER o lock)) s Q.
Proof.
  intros H HQ. pose proof (mem_next _ _ _ _ _ _ _ _ H) as [Ho _].
  change ((o, c) :: L2) with ([(o, c)] ++ L2) in H. rewrite app_assoc in H.
  eapply (runs_link [] []); [exact H| |set_solver|intros s'; rewrite <-app_assoc; apply HQ].
  rewrite <-!app_assoc, !fmap_app. cbn. by apply TAILQ_INSERT_AFTER_app.
Qed.

(** Giving back the lock in the hand. *)
Lemma free_hand lock lk L s Q :
  mem_ok ext [] [(lock, lk)] L P nobad s → (0 < length L)%nat →
  (∀ s', mem_ok ext [] [] L P nobad s' → Q tt s') → runs (lf_free lock) s Q.
Proof.
  intros H Hn HQ. assert (idle lock (heap s)) as Hi by (eapply mem_idle; [exact H|apply elem_of_cons; by left]).
  eapply (runs_free [] []); [exact H|done|cbn; lia|done|]. intros s' H' _. by apply HQ.
Qed.

Section Add.
Context (lock : Z) (lk : core) (L1 : list entry) (q : Z) (c : core) (L2 : list entry).
Hypothesis Hw : c_id c = c_id lk.
Hypothesis HK : locks_ok (L1 ++ (q, c) :: L2).*2.
Hypothesis Hp : Forall (passed SELF lk) L1.*2.
Hypothesis Hlk : core_ok lk.
Hypothesis Ht : typed lk.
Hypothesis Hc : core_ok c.
Hypothesis Hm : meet c lk.

Let left := if c_start c <? c_start lk then [with_end (c_start lk - 1) c] else [].
Let right := if lend (c_end lk) <? lend (c_end c) then [with_start (c_end lk + 1) c] else [].

Lemma add_at (M : list entry) lk' (R : list entry) :
  same_lock lk' lk → M.*2 = L1.*2 ++ left → R.*2 = right ++ (L2.*2 ≫= cut lk) →
  ∀ p, added lk (L1 ++ (q, c) :: L2).*2 (M ++ (p, lk') :: R).*2.
Proof.
  intros Hs HM HR p. rewrite !fmap_app, !fmap_cons, HM, HR. cbn [snd]. rewrite fmap_app in HK.
  by apply added_mid.
Qed.

Lemma add_rest : lend (c_end lk) ≤ lend (c_end c) → L2.*2 ≫= cut lk = L2.*2.
Proof.
  intros He. rewrite fmap_app in HK. apply locks_ok_app in HK as (_ & _ & HK2). by apply (cut_behind lk c).
Qed.

Lemma add_behind d : d ∈ L2.*2 → c_id d = c_id lk → c_start lk < c_start d.
Proof.
  intros Hd Hid. rewrite fmap_app in HK. apply locks_ok_app in HK as (_ & _ & HK2).
  cbn in HK2. apply locks_ok_cons in HK2 as (_ & Hf & _). destruct (Hf d Hd) as [Hb _].
  specialize (Hb ltac:(congruence)). unfold before, meet in *. lia.
Qed.

Lemma add_rest_ok : locks_ok L2.*2.
Proof. rewrite fmap_app in HK. apply locks_ok_app in HK as (_ & _ & HK2). by apply locks_ok_cons in HK2 as (_ & _ & ?). Qed.

Context (s : locks) (Q : () → locks → Prop) (x y : lockf).
Hypothesis H : mem_ok ext [] [(lock, lk)] (L1 ++ (q, c) :: L2) P nobad s.
Hypothesis HQ : ∀ s' L', mem_ok ext [] [] L' P nobad s' → added lk (L1 ++ (q, c) :: L2).*2 L'.*2 → Q tt s'.
Hypothesis Hx : heap s !! lock = Some x.
Hypothesis Hy : heap s !! q = Some y.

Lemma add_cores : core_of x = lk ∧ core_of y = c.
Proof.
  destruct (mem_entry _ _ _ _ _ lock lk H) as (x' & Hx' & Hxc & _); [set_solver|].
  destruct (mem_entry _ _ _ _ _ q c H) as (y' & Hy' & Hyc & _); [set_solver|].
  rewrite Hx in Hx'. rewrite Hy in Hy'. injection Hx' as <-. by injection Hy' as <-.
Qed.

(** Case 1: the overlap takes the type. *)
Lemma add_same :
  c_start c = c_start lk → lend (c_end c) = lend (c_end lk) →
  runs ((if (lf_type x =? F_RDLCK) && (lf_type y =? F_WRLCK) then lf_wakelock q 0 else mret tt);;
        upd q (set_type (lf_type x));; lf_free lock) s Q.
Proof.
  intros Hs He. destruct add_cores as [Hxc Hyc].
  assert (c_end c = c_end lk) as Hend by by apply end_eq.
  assert (same_lock (with_type (c_type lk) c) lk) as Hsame by by unfold same_lock.
  assert (core_ok (with_type (c_type lk) c)) as Hok' by done.
  assert (∀ s', mem_ok ext [] [(lock, lk)] (L1 ++ (q, with_type (c_type lk) c) :: L2) P nobad s' →
    runs (lf_free lock) s' Q) as Hfin.
  { intros s' H'. eapply free_hand; [exact H'|rewrite length_app; cbn; lia|].
    intros s2 H2. apply (HQ _ _ H2), add_at; [done| |].
    - unfold left. ltb_false. by rewrite app_nil_r.
    - unfold right. ltb_false. rewrite add_rest; [done|lia]. }
  assert (∀ z, lf_blk (set_type (lf_type x) z) = lf_blk z ∧ lf_blkhd (set_type (lf_type x) z) = lf_blkhd z ∧
    (core_of z = c → core_of (set_type (lf_type x) z) = with_type (c_type lk) c)) as Hset
    by (intros z; split; [done|]; split; [done|]; intros <-; by subst lk).
  step. case_match eqn:E.
  - eapply (runs_wake _ _ _ _ q c); [apply entry_mid|exact H|]. intros s1 H1 Hi1. step.
    eapply (runs_set _ _ _ _ _ _ _ _ (eq q)); [exact H1|exact Hset|done|by left|].
    intros s2 H2 Hi2. apply Hfin. eapply mem_settled; [exact H2|by apply Hi2].
  - step. step. eapply (runs_set _ _ _ _ _ _ _ _ nobad); [exact H|exact Hset|done| |].
    + right. intros d (Hid & Hmd & Hty). split; [done|]. split; [done|].
      destruct Hty as [Hty|Hty]; [by left|right]. cbn.
      destruct Ht as [Ht'|Ht']; [|done]. exfalso. rewrite <-Hxc, <-Hyc in *. cbn in *. unfold F_RDLCK, F_WRLCK in *. lia.
    + intros s1 H1 _. by apply Hfin.
Qed.

(** Case 2: the overlap is there on both sides, or has the type already. *)
Lemma add_inside :
  c_start c ≤ c_start lk → lend (c_end lk) ≤ lend (c_end c) →
  c_start c < c_start lk ∨ lend (c_end lk) < lend (c_end c) →
  runs (if lf_type y =? lf_type x then mret tt;; lf_free lock
        else
          (if lf_start y =? lf_start x
           then mret tt;; upd_locks (TAILQ_INSERT_BEFORE q lock);; start_after q lock
           else lf_split q lock);;
          lf_wakelock q 0) s Q.
Proof.
  intros Hs He Hse. destruct add_cores as [Hxc Hyc].
  replace (lf_type y) with (c_type c) by (by subst c). replace (lf_type x) with (c_type lk) by (by subst lk).
  replace (lf_start y) with (c_start c) by (by subst c). replace (lf_start x) with (c_start lk) by (by subst lk).
  destruct (Z.eqb_spec (c_type c) (c_type lk)) as [Ety|Ety].
  { step. step. eapply free_hand; [exact H|rewrite length_app; cbn; lia|]. intros s1 H1. apply (HQ _ _ H1).
    apply (added_covered _ _ c); try done. rewrite fmap_app. set_solver. }
  step. destruct (Z.eqb_spec (c_start c) (c_start lk)) as [Es|Es].
  - step. step. step. eapply link_before; [exact H|set_solver|]. intros s1 H1 Hh1.
    change ((lock, lk) :: (q, c) :: L2) with ([(lock, lk)] ++ (q, c) :: L2) in H1. rewrite app_assoc in H1.
    destruct (right_ok lk c) as [_ Hr]; [done..|lia|].
    eapply runs_start_after; [exact H1|by rewrite Hh1|by rewrite Hxc| |]; replace (lf_end x) with (c_end lk) by (by subst lk); [done|].
    intros s2 H2 _. eapply runs_wake_settled; [exact H2|apply entry_mid|]. intros s3 H3.
    rewrite <-app_assoc in H3. apply (HQ _ _ H3), add_at; [done|unfold left; ltb_false; by rewrite app_nil_r|].
    unfold right. ltb_true. rewrite add_rest; [done|lia].
  - eapply runs_split; [exact H|lia|done|]. intros s1 R H1 HR _.
    eapply runs_wake_settled; [exact H1|apply entry_mid|]. intros s2 H2.
    change ((q, with_end (c_start lk - 1) c) :: (lock, lk) :: R ++ L2)
      with ([(q, with_end (c_start lk - 1) c)] ++ (lock, lk) :: R ++ L2) in H2. rewrite app_assoc in H2.
    apply (HQ _ _ H2), add_at; [done| |].
    + rewrite fmap_app. unfold left. by ltb_true.
    + rewrite fmap_app, HR, add_rest by done. done.
Qed.

Context (fuel : nat).
Hypothesis Hfuel : (length L2 < fuel)%nat.

(** The rest of the loop once the lock is in the list. *)
Lemma add_more s1 M :
  mem_ok ext [] [] ((M ++ [(lock, lk)]) ++ L2) P nobad s1 → M.*2 = L1.*2 ++ left →
  lend (c_end c) ≤ lend (c_end lk) → runs (add_loop fuel (head L2.*1) lock false) s1 Q.
Proof.
  intros H1 HM He. apply (runs_add_more fuel (M ++ [(lock, lk)]) L2 lock lk); [done|set_solver|done| | |done|].
  - exact add_rest_ok.
  - exact add_behind.
  - intros s2 L' H2 HL'. rewrite <-app_assoc in H2. apply (HQ _ _ H2), add_at; [done|done|].
    unfold right. ltb_false. by rewrite HL'.
Qed.

(** Case 3: the overlap goes. *)
Lemma add_contains :
  c_start lk ≤ c_start c → lend (c_end c) ≤ lend (c_end lk) →
  runs ((if (lf_type x =? F_RDLCK) && (lf_type y =? F_WRLCK) then lf_wakelock q 0
         else move_blocked (lf_blkhd y) q lock);;
        upd_locks (TAILQ_INSERT_BEFORE q lock);; upd_locks (TAILQ_REMOVE q);; lf_free q;;
        add_loop fuel (head L2.*1) lock false) s Q.
Proof.
  intros Hs He. assert (lock ≠ q) as Hlq.
  { intros ->. destruct (mem_disjoint _ _ _ _ _ H) as (_ & Hd & _).
    destruct (Hd q) as [_ Hno]; [rewrite fmap_app; cbn; set_solver|]. apply Hno. cbn. set_solver. }
  assert (mem_ok ext [lock] [(lock, lk)] (L1 ++ (q, c) :: L2) P nobad s) as HT.
  { destruct H as [Hst Hh]. split; [done|]. eapply heap_ok_mono; [| | | |exact Hh]; try done.
    intros b. rewrite app_nil_r. intros Hb. apply elem_of_app. by left. }
  step. eapply (runs_settle _ _ _ q c lock lk); [exact HT|apply entry_mid|set_solver|set_solver|done..|].
  intros s1 H1 Hi1. step. eapply link_before; [exact H1|set_solver|]. intros s2 H2 Hh2.
  change ((lock, lk) :: (q, c) :: L2) with ([(lock, lk)] ++ (q, c) :: L2) in H2. rewrite app_assoc in H2.
  apply runs_assoc. eapply (runs_drop [] []); [exact H2|by rewrite Hh2|rewrite !length_app; cbn; lia|set_solver|].
  intros s3 H3. apply (add_more s3 L1); [done| |done]. unfold left. ltb_false. by rewrite app_nil_r.
Qed.

(** Case 4: the overlap keeps what is before the lock. *)
Lemma add_left :
  c_start c < c_start lk → lend (c_end c) < lend (c_end lk) →
  runs (mret tt;; upd_locks (TAILQ_INSERT_AFTER q lock);; end_before q lock;; lf_wakelock q 0;;
        add_loop fuel (head L2.*1) lock false) s Q.
Proof.
  intros Hs He. destruct add_cores as [Hxc Hyc].
  assert (core_ok (with_end (c_start lk - 1) c)) as Hleft by (apply left_ok; [done|done|lia|unfold meet in *; lia]).
  step. step. step. eapply link_after; [exact H|]. intros s1 H1 Hh1. step.
  eapply runs_end_before; [exact H1|by rewrite Hh1|by rewrite Hxc| |];
    replace (lf_start x) with (c_start lk) by (by subst lk); [done|].
  intros s2 H2 _. step. eapply runs_wake_settled; [exact H2|apply entry_mid|]. intros s3 H3.
  apply (add_more s3 (L1 ++ [(q, with_end (c_start lk - 1) c)])); [by rewrite <-!app_assoc| |lia].
  rewrite fmap_app. unfold left. by ltb_true.
Qed.

(** Case 5: the overlap keeps what is behind the lock. *)
Lemma add_right :
  c_start lk < c_start c → lend (c_end lk) < lend (c_end c) →
  runs (upd_locks (TAILQ_INSERT_BEFORE q lock);; start_after q lock;; lf_wakelock q 0) s Q.
Proof.
  intros Hs He. step. eapply link_before; [exact H|set_solver|]. intros s1 H1 Hh1.
  change ((lock, lk) :: (q, c) :: L2) with ([(lock, lk)] ++ (q, c) :: L2) in H1. rewrite app_assoc in H1.
  eapply (runs_start_wake _ _ _ _ _ _ lock lk); [exact H1|set_solver|done|done|done|]. intros s2 H2.
  rewrite <-app_assoc in H2. apply (HQ _ _ H2), add_at; [done|unfold left; ltb_false; by rewrite app_nil_r|].
  unfold right. ltb_true. rewrite add_rest; [done|lia].
Qed.
End Add.

Lemma same_lock_refl lk : same_lock lk lk.
Proof. done. Qed.

(** [lk] where no own lock overlaps it. *)
Lemma added_between lk K1 K2 :
  core_ok lk → Forall (passed SELF lk) K1 → (∀ d, d ∈ K2 → c_id d = c_id lk → before lk d) →
  Forall core_ok K2 → added lk (K1 ++ K2) (K1 ++ lk :: K2).
Proof.
  intros Hlk Hp Hb HK2. apply added_at; [|done| |done].
  - rewrite bind_app, cut_passed, cut_id; [done| |done|done]. intros d Hd Hid [Hm _].
    specialize (Hb d Hd Hid). unfold before in Hb. lia.
  - intros d Hd Hid. by apply (proj1 (Forall_forall _ _) Hp d Hd).
Qed.

Lemma runs_add_loop fuel L lock lk s Q :
  mem_ok ext [] [(lock, lk)] L P nobad s → typed lk → locks_ok L.*2 → (length L < fuel)%nat →
  (∀ s' L', mem_ok ext [] [] L' P nobad s' → added lk L.*2 L'.*2 → Q tt s') →
  runs (add_loop fuel (head L.*1) lock true) s Q.
Proof.
  intros H Ht HK Hfuel HQ. destruct fuel as [|fuel]; [lia|].
  destruct (mem_entry _ _ _ _ _ lock lk H) as (x & Hx & Hxc & Hlk & _); [set_solver|].
  cbn [add_loop]. step. eapply (runs_find SELF _ _ [] _ _ lock lk); [by left|done|set_solver|].
  intros k o [Hp|L1 q c L2 _ -> Hid Hb Hp|L1 q c L2 k' -> Hw Hp Hk Hcase].
  - eqb_const. rewrite <-(app_nil_r L) in H. eapply (runs_link [] []); [exact H| |set_solver|].
    + by rewrite app_nil_r, fmap_app.
    + intros s1 H1 _. apply (HQ _ _ H1). rewrite <-(app_nil_r L.*2), fmap_app. apply added_between; [done|done|set_solver|done].
  - eqb_const. eapply link_before; [exact H|set_solver|]. intros s1 H1 _. apply (HQ _ _ H1).
    rewrite !fmap_app. rewrite fmap_app in HK. apply locks_ok_app in HK as (_ & _ & HK).
    apply added_between; [done|done| |apply HK]. cbn in *. apply locks_ok_cons in HK as ((_ & ? & _) & Hf & _).
    intros d [->|Hd]%elem_of_cons Hidd; [done|]. destruct (Hf d Hd) as [Hbd _].
    specialize (Hbd ltac:(congruence)). unfold before in *. lia.
  - replace (k' =? 0) with false by lia. cbn in Hw.
    destruct (mem_entry _ _ _ _ _ q c H) as (y & Hy & _ & Hc & _); [set_solver|].
    pose proof (mem_next _ _ _ _ _ _ _ _ H) as [_ Hnext].
    pose proof (case_meet _ _ _ Hk Hc Hlk Hcase) as Hm.
    destruct (mem_state _ _ _ _ _ H) as (st & Hst & Hl).
    assert (length L2 < fuel)%nat as Hf by (rewrite length_app in Hfuel; cbn in Hfuel; lia).
    step. eapply runs_lift; [reflexivity|]. step. step. step. step. step. step. rewrite Hl, Hnext.
    destruct Hcase as [[-> _]|[(-> & Hs & He)|[(-> & Hs & He & Hse)|[(-> & Hs & He & _)|[(-> & Hs & Hse & He)|(-> & Hs & Hse & He)]]]]];
      [lia|eqb_const..]; cbn [negb].
    + by eapply (add_same lock lk L1 q c L2).
    + by eapply (add_inside lock lk L1 q c L2).
    + by eapply (add_contains lock lk L1 q c L2).
    + by eapply (add_left lock lk L1 q c L2).
    + by eapply (add_right lock lk L1 q c L2).
Qed.
End Clear.
