(* ===== verification/LockfSystem.v ===== *)
(** The calls on record locks (Lockf.v) as their users see them: what each does
    to who holds what, and what is true after any sequence of calls, sleeps,
    wakeups and signals. *)

From stdpp Require Import sorting.
From S2P Require Import Prelude StateMonad Lockf LockfMem LockfSpec.

(** ** Who holds what after a lock is added *)

Lemma sorted_cases K c d :
  StronglySorted follows K → c ∈ K → d ∈ K → c = d ∨ follows c d ∨ follows d c.
Proof.
  induction K as [|e K IH]; intros HK Hc Hd; [by apply not_elem_of_nil in Hc|].
  apply StronglySorted_inv in HK as [HK Hf]. rewrite Forall_forall in Hf.
  apply elem_of_cons in Hc as [->|Hc], Hd as [->|Hd]; auto.
Qed.

Lemma locks_ok_exclusive K c d : locks_ok K → c ∈ K → d ∈ K → ¬ conflict c d.
Proof.
  intros [HK _] Hc Hd Hcd. destruct (sorted_cases K c d HK Hc Hd) as [->|[[_ H]|[_ H]]].
  - by destruct Hcd.
  - done.
  - by apply H, conflict_sym.
Qed.

(** Locks of one owner share no byte. *)
Lemma locks_ok_own K c d x :
  locks_ok K → c ∈ K → d ∈ K → c_id c = c_id d → covers c x → covers d x → c = d.
Proof.
  intros [HK _] Hc Hd Hid Hx Hx'. destruct (sorted_cases K c d HK Hc Hd) as [->|[[H _]|[H _]]]; [done|..].
  - specialize (H Hid). unfold before, covers in *. lia.
  - specialize (H (eq_sym Hid)). unfold before, covers in *. lia.
Qed.

Lemma cut_others lk K c :
  c ∈ K ≫= cut lk → c_id c ≠ c_id lk → core_ok lk → Forall core_ok K → c ∈ K.
Proof.
  intros (d & Hc & Hd)%list_elem_of_bind Hid Hlk HK.
  destruct (cut_part lk d c) as (_ & (Hi & _) & _); [by apply (proj1 (Forall_forall _ _) HK)|done..|].
  rewrite cut_other in Hc by congruence. by apply list_elem_of_singleton in Hc as ->.
Qed.

Lemma added_ok lk K K' :
  locks_ok K → core_ok lk → (∀ c, c ∈ K → ¬ conflict c lk) → added lk K K' → locks_ok K'.
Proof.
  intros HK Hlk Hno [c|K1 lk' K2 Hcut (Ht & Hs & He & Hi) H1 H2]; [done|].
  pose proof (cut_locks_ok lk K Hlk HK) as Hck.
  assert (∀ d, d ∈ K1 ++ K2 → ¬ conflict d lk) as Hno'.
  { intros d Hd Hc. rewrite <-Hcut in Hd. apply (Hno d); [|done].
    apply (cut_others lk); [done|by destruct Hc|done|by destruct HK]. }
  assert (∀ d, conflict d lk' → conflict d lk) as Hsame.
  { intros d. unfold conflict, meet. by rewrite Ht, Hs, He, Hi. }
  rewrite Hcut in Hck. apply locks_ok_app in Hck as (Hf & HK1 & HK2).
  apply locks_ok_app. split; [|split; [done|]].
  - intros c d Hc [->|Hd]%elem_of_cons; [|by apply Hf]. split; [rewrite Hi; intros E; unfold before; rewrite Hs; by apply H1|].
    intros Hcd. apply (Hno' c); [set_solver|auto].
  - apply locks_ok_cons. split; [unfold core_ok; by rewrite Hs, He|]. split; [|done].
    intros d Hd. split; [rewrite Hi; intros E; unfold before; rewrite He; by apply H2|].
    intros Hcd. apply (Hno' d); [set_solver|]. apply Hsame. by apply conflict_sym.
Qed.

(** After [lk] is added its owner holds its range with its type; nothing else
    has changed. *)
Lemma added_holds lk K K' id x t :
  locks_ok K → core_ok lk → added lk K K' →
  holds K' id x t ↔ (id = c_id lk ∧ covers lk x ∧ t = c_type lk) ∨
                    (¬ (id = c_id lk ∧ covers lk x) ∧ holds K id x t).
Proof.
  intros HK Hlk [c Hc Hid Ht Hs He|K1 lk' K2 Hcut (Ht & Hs & He & Hi) _ _].
  - split.
    + intros H. destruct (decide (id = c_id lk)) as [->|]; [|right; split; [tauto|done]].
      destruct (decide (c_start lk ≤ x ≤ lend (c_end lk))) as [Hx|Hx]; [|right; split; [tauto|done]].
      left. split; [done|]. split; [done|]. destruct H as (d & Hd & Hdi & <- & Hdx).
      rewrite (locks_ok_own K d c x); [done..|congruence|done|]. unfold covers in *. lia.
    + intros [(-> & Hx & ->)|[_ H]]; [|done]. exists c. unfold covers in *. split_and!; try done; lia.
  - assert (holds (K1 ++ lk' :: K2) id x t ↔
      (id = c_id lk ∧ covers lk x ∧ t = c_type lk) ∨ holds (K1 ++ K2) id x t) as ->.
    { unfold holds, covers. split.
      - intros (d & Hd & <- & <- & Hx). assert (d = lk' ∨ d ∈ K1 ++ K2) as [->|Hd'] by set_solver.
        + left. rewrite Hs, He in Hx. done.
        + right. by exists d.
      - intros [(-> & Hx & ->)|(d & Hd & Hx)]; [exists lk'; rewrite Ht, Hs, He, Hi; set_solver|].
        exists d. set_solver. }
    rewrite <-Hcut, holds_cut by (done || by destruct HK). tauto.
Qed.

(** ** The end of a call *)

(** The memory when no call is running: the locks and the pending ones, or, when
    nobody refers to it, no state at all. *)
Definition quiet (ext : Z) (L P : list entry) (s : locks) : Prop :=
  mem_ok ext [] [] L P nobad s ∨
  (L = [] ∧ P = [] ∧ ext = 0 ∧ state s = None ∧
   heap_ok [] [] [] nobad (heap s) (next_addr s) (wakeups s)).

Lemma mem_quiet ext L P s :
  state s = Some (LockfState L.*1 P.*1 (Z.of_nat (length L + length P) + ext)) →
  heap_ok (L ++ P) L.*1 P.*1 nobad (heap s) (next_addr s) (wakeups s) → mem_ok ext [] [] L P nobad s.
Proof.
  intros Hs Hh. split; [rewrite Hs; do 2 f_equal; cbn; lia|]. by rewrite !app_nil_r.
Qed.

(** Dropping a reference; the memory may change on the way. *)
Lemma runs_rele ext L P s Q :
  state s = Some (LockfState L.*1 P.*1 (Z.of_nat (length L + length P) + ext + 1)) → 0 ≤ ext →
  (∀ s', heap s' = heap s → next_addr s' = next_addr s → wakeups s' = wakeups s →
     (∀ h cnt, heap_ok (L ++ P) L.*1 P.*1 nobad h (next_addr s) (wakeups s) →
        quiet ext L P (Locks h (next_addr s) (state s') cnt (wakeups s))) → Q tt s') →
  runs ls_rele s Q.
Proof.
  intros Hs He HQ. unfold ls_rele. step. eapply runs_upd_ls; [done|]. step. eapply runs_ls; [cbn; done|].
  cbn [ls_refs ls_locks ls_pending]. destruct (Z.ltb_spec 0 (Z.of_nat (length L + length P) + ext + 1 - 1)).
  - step. apply HQ; [done..|]. intros h cnt Hh. left. apply mem_quiet; [|done]. cbn. do 2 f_equal. lia.
  - assert (L = []) as -> by (destruct L; [done|cbn in *; lia]).
    assert (P = []) as -> by (destruct P; [done|cbn in *; lia]).
    step. step; [done|]. step. step; [done|]. step. apply HQ; [done..|]. intros h cnt Hh. right. cbn in *.
    split_and!; try done. lia.
Qed.

Lemma runs_release ext L P lock lk s Q :
  mem_ok ext [] [(lock, lk)] L P nobad s → 0 ≤ ext → (∀ s', quiet ext L P s' → Q tt s') →
  runs (lf_free lock) s Q.
Proof.
  intros H He HQ. assert (idle lock (heap s)) as Hi by (eapply mem_idle; [exact H|apply elem_of_cons; by left]).
  destruct (mem_disjoint _ _ _ _ _ H) as (_ & _ & HlP). destruct H as [Hs Hh].
  pose proof Hi as (x & Hx & Hidle). unfold lf_free. step. step. step.
  step; [by rewrite bool_decide_true|]. step.
  eapply (runs_rele ext L P); [rewrite Hs; do 2 f_equal; cbn; lia|done|]. intros s1 Hh1 Hn1 Hw1 Hq.
  step. unfold add_lockcnt. step. step. apply HQ. unfold set_heap, set_lockcnt. cbn. rewrite Hh1, Hn1, Hw1.
  apply Hq. apply (heap_ok_free _ _ _ _ _ _ _ lock lk); [|done|apply HlP; cbn; set_solver].
  eapply heap_ok_mono; [| | | |exact Hh]; [solve_Permutation|by intros b; rewrite app_nil_r|done|done].
Qed.

(** ** Setting a lock *)

Section Setting.
Context (ext : Z) (P : list entry).
Hypothesis Hext : 0 ≤ ext.

(** A pending lock of the process of [y] waits for a lock of the process [pid]. *)
Definition waits_back (s : locks) (l : list Z) (pid : Z) (y : lockf) : Prop :=
  ∃ p z d u, p ∈ l ∧ heap s !! p = Some z ∧ lf_blk z = Some d ∧ heap s !! d = Some u ∧
    lf_pid z = lf_pid y ∧ lf_pid u = pid.

(** The lock [lk] of process [pid] conflicts with a POSIX lock whose process waits
    for [pid]. *)
Definition deadlocked (s : locks) (lk : core) (pid : Z) : Prop :=
  ∃ st b y, state s = Some st ∧ b ∈ ls_locks st ∧ heap s !! b = Some y ∧
    conflict (core_of y) lk ∧ has (lf_flags y) F_POSIX = true ∧ waits_back s (ls_pending st) pid y.

Lemma waits_back_cons s p l pid y :
  waits_back s (p :: l) pid y ↔ waits_back s [p] pid y ∨ waits_back s l pid y.
Proof. unfold waits_back. set_solver. Qed.

Lemma runs_pending_cycle T hand L bad l x y s Q :
  mem_ok ext T hand L P bad s → (∀ p, p ∈ l → p ∈ P.*1) →
  (∀ d, d = true ↔ waits_back s l (lf_pid x) y → Q d s) → runs (pending_cycle l x y) s Q.
Proof.
  intros H. revert Q. induction l as [|p l IH]; intros Q Hl HQ; cbn [pending_cycle].
  { step. apply HQ. split; [done|]. intros (p & z & d & u & Hp & _). by apply not_elem_of_nil in Hp. }
  assert (∃ z, heap s !! p = Some z) as [z Hz].
  { destruct (proj1 (list_elem_of_fmap _ _ _) (Hl p ltac:(set_solver))) as ([p' c] & -> & Hp).
    destruct (mem_entry _ _ _ _ _ p' c H) as (z & Hz & _); [set_solver|]. by exists z. }
  assert ((¬ waits_back s [p] (lf_pid x) y) → runs (pending_cycle l x y) s Q) as Hnext.
  { intros Hno. apply IH; [set_solver|]. intros d Hd. apply HQ. rewrite waits_back_cons. tauto. }
  step. step. destruct (lf_blk z) as [b|] eqn:Eb.
  - destruct (ho_blk _ _ _ _ _ _ _ (proj2 H) p z b Hz Eb) as (_ & u & Hu & _). step. step.
    destruct ((lf_pid z =? lf_pid y) && (lf_pid u =? lf_pid x)) eqn:E.
    + step. apply HQ. split; [|done]. intros _. exists p, z, b, u. split_and!; try done; [set_solver|lia..].
    + apply Hnext. intros (p' & z' & d & u' & ->%list_elem_of_singleton & Hz' & Hd & Hu' & ? & ?).
      rewrite Hz in Hz'. injection Hz' as <-. rewrite Eb in Hd. injection Hd as <-.
      rewrite Hu in Hu'. injection Hu' as <-. lia.
  - apply Hnext. intros (p' & z' & d & u' & ->%list_elem_of_singleton & Hz' & Hd & _). congruence.
Qed.

Lemma runs_deadlock_loop fuel pre post lock lk x s Q :
  mem_ok ext [] [(lock, lk)] (pre ++ post) P nobad s → heap s !! lock = Some x → (length post < fuel)%nat →
  (∀ d, d = true ↔ (∃ b y, b ∈ post.*1 ∧ heap s !! b = Some y ∧ conflict (core_of y) lk ∧
     has (lf_flags y) F_POSIX = true ∧ waits_back s P.*1 (lf_pid x) y) → Q d s) →
  runs (deadlock_loop fuel (head post.*1) lock) s Q.
Proof.
  intros H Hx. revert pre post H Q. induction fuel as [|fuel IH]; intros pre post H Q Hfuel HQ; [lia|].
  cbn [deadlock_loop]. step. eapply (runs_lf_getblock _ _ _ _ _ lock lk); [exact H|set_solver|].
  intros o [Hno|L1 b c L2 -> Hc Hno].
  { step. apply HQ. split; [done|]. intros (b & y & Hb & Hy & Hcf & _). exfalso.
    apply list_elem_of_fmap in Hb as ([b' c] & -> & Hb). cbn in Hy.
    destruct (mem_entry _ _ _ _ _ b' c H) as (y' & Hy' & Hyc & _); [set_solver|].
    rewrite Hy in Hy'. injection Hy' as <-. apply (Hno (core_of y)); [|done].
    apply list_elem_of_fmap. exists (b', c). by rewrite Hyc. }
  destruct (mem_entry _ _ _ _ _ b c H) as (y & Hy & Hyc & _); [set_solver|].
  rewrite app_assoc in H. pose proof (mem_next _ _ _ _ _ _ _ _ H) as [_ Hnext].
  pose proof (proj1 H) as Hst. step. step. step. step. step. step. cbn [ls_locks ls_pending]. rewrite Hnext.
  assert (¬ (has (lf_flags y) F_POSIX = true ∧ waits_back s P.*1 (lf_pid x) y) →
    runs (deadlock_loop fuel (head L2.*1) lock) s Q) as Hrest.
  { intros Hb. change ((b, c) :: L2) with ([(b, c)] ++ L2) in H. rewrite app_assoc in H.
    apply (IH _ _ H); [rewrite length_app in Hfuel; cbn in Hfuel; lia|]. intros d Hd. apply HQ. rewrite Hd.
    split; intros (b' & y' & Hb' & Hy' & Hrest); exists b', y'; (split; [|done]).
    - rewrite fmap_app. cbn. set_solver.
    - rewrite fmap_app in Hb'. cbn in Hb'. apply elem_of_app in Hb' as [Hb'|[->|Hb']%elem_of_cons]; [|..|done]; exfalso.
      + apply list_elem_of_fmap in Hb' as ([p' c'] & -> & Hb'). cbn in Hy'.
        destruct (mem_entry _ _ _ _ _ p' c' H) as (y2 & Hy2 & Hyc2 & _); [set_solver|].
        rewrite Hy' in Hy2. injection Hy2 as <-. apply (Hno (core_of y')); [|by destruct Hrest].
        apply list_elem_of_fmap. exists (p', c'). by rewrite Hyc2.
      + rewrite Hy in Hy'. injection Hy' as <-. apply Hb. by destruct Hrest as (_ & ? & ?). }
  destruct (has (lf_flags y) F_POSIX) eqn:Eposix; cbn [negb]; [|apply Hrest; by intros [? _]].
  step. eapply runs_pending_cycle; [exact H|done|]. intros [|] Hd.
  - step. apply HQ. split; [|done]. intros _. exists b, y. split; [rewrite fmap_app; cbn; set_solver|].
    split_and!; try done; [by rewrite Hyc|by apply Hd].
  - apply Hrest. intros [_ Hw]. by apply Hd in Hw.
Qed.

Lemma runs_deadlock L lock lk x s Q :
  mem_ok ext [] [(lock, lk)] L P nobad s → heap s !! lock = Some x →
  (∀ d, d = true ↔ deadlocked s lk (lf_pid x) → Q d s) → runs (lf_deadlock lock) s Q.
Proof.
  intros H Hx HQ. unfold lf_deadlock. step. eapply runs_first; [exact H|]. pose proof (proj1 H) as Hst. step. step.
  eapply (runs_deadlock_loop _ []); [exact H|exact Hx|cbn; rewrite length_fmap; lia|].
  intros d Hd. apply HQ. rewrite Hd. unfold deadlocked. split.
  - intros (b & y & Hb & Hy & Hw). eexists _, b, y. split; [exact Hst|]. done.
  - intros (st & b & y & Hst' & Hw). rewrite Hst in Hst'. injection Hst' as <-. by exists b, y.
Qed.

(** Changing the type of the lock in the hand. *)
Lemma set_hand lock lk L t s Q :
  mem_ok ext [] [(lock, lk)] L P nobad s →
  (∀ s', mem_ok ext [] [(lock, with_type t lk)] L P nobad s' → Q tt s') →
  runs (upd lock (set_type t)) s Q.
Proof.
  intros H HQ. destruct (mem_nil _ _ _ _ _ lock lk H) as (x & Hx & Hc & Hxn); [set_solver|].
  destruct (mem_entry _ _ _ _ _ lock lk H) as (_ & _ & _ & Hlk & _); [set_solver|].
  assert (idle lock (heap s)) as Hi by (eapply mem_idle; [exact H|apply elem_of_cons; by left]).
  destruct (mem_disjoint _ _ _ _ _ H) as (_ & _ & HlP). destruct H as [Hst Hh].
  step. apply HQ. eapply mem_settled; [|by apply (idle_insert lock lock x)]. split; [exact Hst|]. cbn.
  eapply heap_ok_mono; [| |done|intros b Hb; exact Hb|].
  3: { apply (heap_ok_upd (L ++ P) _ _ nobad _ _ _ lock lk x (set_type t x) (eq lock)); try done.
       - eapply heap_ok_mono; [| | | |exact Hh]; [solve_Permutation|done..].
       - apply HlP. set_solver.
       - subst lk. exact Hlk.
       - by left. }
  - subst lk. cbn. solve_Permutation.
  - done.
Qed.

Lemma cut_with_type t lk c : cut (with_type t lk) c = cut lk c.
Proof. done. Qed.

Lemma runs_clearlock lock lk L s Q :
  mem_ok ext [] [(lock, lk)] L P nobad s → locks_ok L.*2 →
  (∀ s' L', mem_ok ext [] [(lock, lk)] L' P nobad s' → L'.*2 = L.*2 ≫= cut lk →
     others_kept lk L L' → Q 0 s') →
  runs (lf_clearlock lock) s Q.
Proof.
  intros H HK HQ. unfold lf_clearlock. step. eapply runs_first; [exact H|].
  destruct L as [|[p c] L]; cbn [fmap list_fmap fst head].
  { step. apply (HQ s []); [done|done|by intros ?]. }
  destruct (mem_state _ _ _ _ _ H) as (st & Hst & Hl). step. step. step.
  apply (runs_clear_loop ext P Hext _ [] ((p, c) :: L) lock lk); [done|done|rewrite Hl, length_fmap; cbn; lia|].
  intros s1 L' H1 HL' Hkept. step. by apply (HQ s1 L').
Qed.

(** Going to sleep behind a lock that conflicts. *)
Lemma runs_sleep lock lk L b c s Q :
  mem_ok ext [] [(lock, lk)] L P nobad s → (b, c) ∈ L → conflict c lk →
  (∀ s', mem_ok ext [] [] L (P ++ [(lock, lk)]) nobad s' → Q Sleeps s') →
  runs (upd lock (set_blk (Some b));;
        upd b (λ y, set_blkhd (TAILQ_INSERT_TAIL lock (lf_blkhd y)) y);;
        upd_pending (TAILQ_INSERT_TAIL lock);; mret Sleeps) s Q.
Proof.
  intros H Hb Hc HQ. destruct (mem_nil _ _ _ _ _ lock lk H) as (x & Hx & Hxc & _); [set_solver|].
  destruct (mem_nil _ _ _ _ _ b c H) as (z & Hz & Hzc & _); [set_solver|].
  assert (idle lock (heap s)) as Hi by (eapply mem_idle; [exact H|apply elem_of_cons; by left]).
  destruct (mem_disjoint _ _ _ _ _ H) as (_ & Hd & HlP). pose proof (elem_fst _ _ _ Hb) as HbL.
  destruct (Hd b HbL) as [HbP Hbl]. assert (b ≠ lock) as Hne by (intros ->; apply Hbl; cbn; set_solver).
  destruct H as [Hst Hh]. step. step. step. eapply runs_upd; [cbn; by rewrite lookup_insert_ne|].
  step. eapply runs_upd_ls; [done|]. step. apply HQ. split; cbn.
  - rewrite fmap_app. cbn. do 2 f_equal. rewrite length_app. cbn. lia.
  - rewrite fmap_app. cbn. eapply heap_ok_mono; [|done..|].
    2: { apply heap_ok_sleep; [exact Hh|apply HlP; cbn; set_solver|done|done| |done|done|done|by rewrite Hzc, Hxc].
         rewrite app_nil_r. done. }
    solve_Permutation.
Qed.

(** What [lf_setlock] comes to, from the locks [L] and the pending ones [P]. *)
Inductive set_post (lock : Z) (lk : core) (flags pid : Z) (L : list entry) (s : locks) : progress → locks → Prop :=
| set_done L' s' :
    (∀ c, c ∈ L.*2 → ¬ conflict c lk) → mem_ok ext [] [] L' P nobad s' → added lk L.*2 L'.*2 →
    set_post lock lk flags pid L s (Returns 0) s'
| set_again c s' :
    c ∈ L.*2 → conflict c lk → has flags F_WAIT = false → quiet ext L P s' →
    set_post lock lk flags pid L s (Returns EAGAIN) s'
| set_deadlock c s' :
    c ∈ L.*2 → conflict c lk → has flags F_WAIT = true → has flags F_POSIX = true → deadlocked s lk pid →
    quiet ext L P s' → set_post lock lk flags pid L s (Returns EDEADLK) s'
| set_sleep c L' s' :
    c ∈ L.*2 → conflict c lk → has flags F_WAIT = true → (has flags F_POSIX = true → ¬ deadlocked s lk pid) →
    mem_ok ext [] [] L' (P ++ [(lock, lk)]) nobad s' →
    L'.*2 = (if has flags F_FLOCK && (c_type lk =? F_WRLCK) then L.*2 ≫= cut lk else L.*2) →
    set_post lock lk flags pid L s Sleeps s'.

Lemma runs_setlock lock lk L x s Q :
  mem_ok ext [] [(lock, lk)] L P nobad s → heap s !! lock = Some x → typed lk → locks_ok L.*2 →
  (∀ r s', set_post lock lk (lf_flags x) (lf_pid x) L s r s' → Q r s') → runs (lf_setlock lock) s Q.
Proof.
  intros H Hx Ht HK HQ. destruct (mem_entry _ _ _ _ _ lock lk H) as (x' & Hx' & Hxc & Hlk & _); [set_solver|].
  rewrite Hx in Hx'. injection Hx' as <-. destruct (mem_state _ _ _ _ _ H) as (st & Hst & Hl).
  unfold lf_setlock. step. eapply runs_first; [exact H|]. step.
  eapply (runs_lf_getblock _ _ [] _ _ lock lk); [exact H|set_solver|]. intros o [Hno|L1 b c L2 HL Hc Hno].
  - step. eapply runs_first; [exact H|]. step. step. step.
    apply (runs_add_loop ext P Hext _ _ lock lk); [done|done|done|rewrite Hl, length_fmap; lia|].
    intros s1 L' H1 Hadd. step. apply HQ. by eapply set_done.
  - assert ((b, c) ∈ L) as Hb by (rewrite HL; set_solver).
    assert (c ∈ L.*2) as Hb2 by (apply list_elem_of_fmap; by exists (b, c)).
    step. step. destruct (has (lf_flags x) F_WAIT) eqn:Ew; cbn [negb].
    2: { step. eapply runs_release; [exact H|done|]. intros s1 H1. step. apply HQ. by eapply set_again. }
    step. eapply (runs_mono _ _ (λ d s', s' = s ∧ (d = true → has (lf_flags x) F_POSIX = true ∧ deadlocked s lk (lf_pid x)) ∧
      (d = false → has (lf_flags x) F_POSIX = true → ¬ deadlocked s lk (lf_pid x)))).
    { case_match; [eapply runs_deadlock; [exact H|exact Hx|]|step; done].
      intros d Hd. split; [done|]. split; [intros E; split; [done|by apply Hd]|].
      intros -> _ Hdl. by apply Hd in Hdl. }
    intros d s1 (-> & Hdt & Hdf). destruct d.
    { step. eapply runs_release; [exact H|done|]. intros s1 H1. step. apply HQ.
      destruct (Hdt eq_refl). by eapply set_deadlock. }
    destruct (has (lf_flags x) F_FLOCK && (lf_type x =? F_WRLCK)) eqn:Ef.
    + step. step. eapply set_hand; [exact H|]. intros s1 H1. step.
      eapply runs_clearlock; [exact H1|done|]. intros s2 L' H2 HL' Hkept.
      eapply set_hand; [exact H2|]. intros s3 H3. eapply runs_sleep; [| |exact Hc|].
      { replace lk with (with_type F_WRLCK (with_type F_UNLCK lk)); [exact H3|].
        apply andb_prop in Ef as [_ Ef%Z.eqb_eq]. subst lk. unfold with_type, core_of. cbn. by rewrite Ef. }
      { by apply (Hkept (b, c)); [|destruct Hc]. }
      intros s4 H4. apply HQ. eapply set_sleep; [done..|by apply Hdf|exact H4|].
      rewrite HL'. replace (c_type lk) with (lf_type x) by (by subst lk). by rewrite Ef.
    + step. step. eapply runs_sleep; [exact H|exact Hb|exact Hc|]. intros s4 H4. apply HQ.
      eapply set_sleep; [done..|by apply Hdf|exact H4|].
      replace (c_type lk) with (lf_type x) by (by subst lk). by rewrite Ef.
Qed.
End Setting.

(** ** Waking up *)

(** A thread that wakes takes its lock out of the pending list and, if it still
    stands there, out of the list of the lock it waits for. *)
Lemma runs_leave {A} ext L P1 w c P2 s wk (k : LM A) Q :
  mem_ok ext [] [] L (P1 ++ (w, c) :: P2) nobad s →
  (∀ v, v ≠ w → ChanLock v ∈ wakeups s → ChanLock v ∈ wk) →
  (∀ s', mem_ok ext [] [(w, c)] L (P1 ++ P2) nobad s' → runs k s' Q) →
  runs (upd_pending (TAILQ_REMOVE w);;
        wakeup_one ChanState;;
        x ← lf w;
        match lf_blk x with
        | Some b =>
            upd b (λ y, set_blkhd (TAILQ_REMOVE w (lf_blkhd y)) y);; upd w (set_blk None)
        | None => mret ()
        end;;
        k) (set_wakeups wk s) Q.
Proof.
  intros H Hwk HQ. pose proof (mem_disjoint _ _ _ _ _ H) as (_ & Hd & _).
  destruct (mem_entry _ _ _ _ _ w c H) as (x & Hx & _); [set_solver|]. pose proof H as [Hs Hh].
  pose proof (ho_nodup _ _ _ _ _ _ _ Hh) as Hnd. rewrite app_nil_r, !fmap_app in Hnd. cbn in Hnd.
  apply NoDup_app in Hnd as (_ & _ & Hnd).
  assert (w ∉ P1.*1 ∧ w ∉ P2.*1) as [HP1 HP2].
  { apply NoDup_app in Hnd as (_ & H12 & [Hw2 _]%NoDup_cons). split; [|done]. intros Hw. apply (H12 w Hw). set_solver. }
  assert (∀ v, v ∈ (P1 ++ (w, c) :: P2).*1 ↔ v = w ∨ v ∈ (P1 ++ P2).*1) as HW
    by (intros v; rewrite !fmap_app; cbn; set_solver).
  assert (w ∉ (P1 ++ P2).*1) as HwP by (rewrite fmap_app; set_solver).
  assert (∀ v, v ∈ (P1 ++ P2).*1 → ChanLock v ∈ wakeups s → ChanLock v ∈ ChanState :: wk) as Hwk'.
  { intros v Hv Hc. apply elem_of_cons. right. apply Hwk; [|done]. by intros ->. }
  assert (∀ s', state s' = Some (LockfState L.*1 (P1 ++ P2).*1 (Z.of_nat (length L + length (P1 ++ (w, c) :: P2)) + ext)) →
    heap_ok (L ++ (P1 ++ (w, c) :: P2) ++ []) (L.*1 ++ []) (P1 ++ P2).*1 nobad (heap s') (next_addr s') (wakeups s') →
    mem_ok ext [] [(w, c)] L (P1 ++ P2) nobad s') as Hfin.
  { intros s' Hst Hh'. split; [rewrite Hst; do 2 f_equal; rewrite !length_app; cbn; lia|].
    eapply heap_ok_mono; [|done|done|done|exact Hh']. rewrite app_nil_r. solve_Permutation. }
  step. eapply runs_upd_ls; [exact Hs|]. step. step. step. eapply runs_lf; [exact Hx|]. step.
  destruct (lf_blk x) as [b|] eqn:Eb.
  - destruct (ho_blk _ _ _ _ _ _ _ Hh w x b Hx Eb) as (_ & z & Hz & Hin).
    destruct (ho_blkhd _ _ _ _ _ _ _ Hh b z w Hz Hin) as (HbL & _). rewrite app_nil_r in HbL.
    assert (b ≠ w) as Hbw by (intros ->; destruct (Hd w HbL) as [Hno _]; apply Hno; by apply HW; left).
    assert (lf_blk z = None) as Hzn.
    { destruct (lf_blk z) as [b'|] eqn:E; [|done]. destruct (ho_blk _ _ _ _ _ _ _ Hh b z b' Hz E) as [Hb _].
      by destruct (Hd b HbL). }
    step. eapply runs_upd; [exact Hz|]. eapply runs_upd; [cbn; by rewrite lookup_insert_ne|]. apply HQ, Hfin; cbn.
    + rewrite fmap_app. cbn. rewrite TAILQ_REMOVE_app, <-fmap_app by done. do 2 f_equal. lia.
    + by apply heap_ok_unblock with (W := (P1 ++ (w, c) :: P2).*1) (wk := wakeups s).
  - step. apply HQ, Hfin; cbn.
    + rewrite fmap_app. cbn. rewrite TAILQ_REMOVE_app, <-fmap_app by done. do 2 f_equal. lia.
    + by apply (heap_ok_leave _ _ (P1 ++ (w, c) :: P2).*1 _ _ _ (wakeups s) w x).
Qed.

(** What a thread comes to that was asleep with the lock [lk]. *)
Inductive wake_post (ext : Z) (L P : list entry) (lock : Z) (lk : core) (error : Z) : progress → locks → Prop :=
| wake_error e s' : e = error ∧ error ≠ 0 ∨ e = EINTR → quiet ext L P s' → wake_post ext L P lock lk error (Returns e) s'
| wake_again flags pid s r s' :
    error = 0 → set_post ext P lock lk flags pid L s r s' → wake_post ext L P lock lk error r s'.

Lemma runs_resume ext L P1 w c P2 s wk error Q :
  mem_ok ext [] [] L (P1 ++ (w, c) :: P2) nobad s → 0 ≤ ext → locks_ok L.*2 → typed c →
  (∀ v, v ≠ w → ChanLock v ∈ wakeups s → ChanLock v ∈ wk) →
  (∀ r s', wake_post ext L (P1 ++ P2) w c error r s' → Q r s') →
  runs (lf_setlock_resume w error) (set_wakeups wk s) Q.
Proof.
  intros H He HK Ht Hwk HQ. unfold lf_setlock_resume. eapply runs_leave; [exact H|exact Hwk|]. intros s1 H1.
  destruct (Z.eqb_spec error 0) as [->|Herr]; cbn [negb].
  - destruct (mem_entry _ _ _ _ _ w c H1) as (x & Hx & Hxc & _); [set_solver|]. step. step. case_match.
    + step. eapply runs_release; [exact H1|done|]. intros s2 H2. step. apply HQ, wake_error; [by right|done].
    + eapply runs_setlock; [done|exact H1|exact Hx|done|done|]. intros r s2 H2. apply HQ. by eapply wake_again.
  - step. eapply runs_release; [exact H1|done|]. intros s2 H2. step. apply HQ, wake_error; [by left|done].
Qed.

(** ** Asking *)

(** What [lf_getlock] tells of a lock that blocks, or of none. *)
Definition told (c : core) (pid : Z) : flock :=
  Flock (c_start c) (if c_end c =? -1 then 0 else c_end c - c_start c + 1) pid (c_type c) SEEK_SET.

Inductive get_post (lk : core) (fl : flock) (L : list entry) (s : locks) : flock → Prop :=
| get_free : (∀ c, c ∈ L.*2 → ¬ conflict c lk) →
    get_post lk fl L s (Flock (l_start fl) (l_len fl) (l_pid fl) F_UNLCK (l_whence fl))
| get_blocked L1 b x L2 :
    L = L1 ++ (b, core_of x) :: L2 → heap s !! b = Some x → conflict (core_of x) lk →
    (∀ d, d ∈ L1.*2 → ¬ conflict d lk) → get_post lk fl L s (told (core_of x) (lf_pid x)).

Lemma runs_getlock ext P lock lk L fl s Q :
  mem_ok ext [] [(lock, lk)] L P nobad s → (∀ fl', get_post lk fl L s fl' → Q (0, fl') s) →
  runs (lf_getlock lock fl) s Q.
Proof.
  intros H HQ. unfold lf_getlock. step. eapply runs_first; [exact H|]. step.
  eapply (runs_lf_getblock _ _ [] _ _ lock lk); [exact H|set_solver|]. intros o [Hno|L1 b c L2 HL Hc Hno].
  { step. by apply HQ, get_free. }
  destruct (mem_entry _ _ _ _ _ b c H) as (x & Hx & Hxc & (Hok1 & Hok2 & Hok3) & _); [set_solver|].
  step. step. subst c. cbn in Hok1, Hok2, Hok3. unfold lend, LLONG_MAX in *.
  eapply runs_bind, (runs_mono _ _ (λ n s', s' = s ∧ n = if lf_end x =? -1 then 0 else lf_end x - lf_start x + 1)).
  - case_match; [by step|]. step. eapply runs_quad; [unfold LLONG_MAX; lia|]. eapply runs_quad; [unfold LLONG_MAX; lia|done].
  - intros n s' [-> ->]. step. apply HQ. by eapply get_blocked.
Qed.

(** ** The range asked for *)

(** The first byte meant by [l_whence] and [l_start]. *)
Definition first_byte (size : Z) (fl : flock) : Z :=
  if l_whence fl =? SEEK_END then size + l_start fl else l_start fl.
Definition whence_ok (fl : flock) : Prop :=
  l_whence fl = SEEK_SET ∨ l_whence fl = SEEK_CUR ∨ l_whence fl = SEEK_END.

(** The arguments are 64-bit numbers, and so is the byte that they mean. *)
Definition flock_ok (size : Z) (fl : flock) : Prop :=
  is_i64 (l_start fl) ∧ is_i64 (l_len fl) ∧ is_i64 (first_byte size fl).

(** The two numbers of the caller, and the sum that does not fit when [l_start] is
    counted from the end of the file. *)
Definition flock_i64 (fl : flock) : Prop := is_i64 (l_start fl) ∧ is_i64 (l_len fl).
Definition overflows (size : Z) (fl : flock) : bool :=
  (l_whence fl =? SEEK_END) && negb (bool_decide (is_i64 (size + l_start fl))).

Lemma overflows_no size fl : flock_i64 fl → overflows size fl = false → flock_ok size fl.
Proof.
  unfold overflows, flock_ok, first_byte. intros [Hs Hl] Ho. split; [done|]. split; [done|].
  destruct (l_whence fl =? SEEK_END); [|done]. cbn in Ho. by case_bool_decide.
Qed.

Lemma lock_range_overflow size fl :
  overflows size fl = true → lock_range size fl = Fault IntOverflow.
Proof.
  unfold overflows, lock_range, quad_. intros [Hw%Z.eqb_eq Hn]%andb_prop. rewrite Hw. cbn.
  by case_bool_decide.
Qed.

Definition range_post (size : Z) (fl : flock) (r : Z + Z * Z) : Prop :=
  let first := first_byte size fl in
  match r with
  | inr (start, e) =>
      whence_ok fl ∧ range_ok start e ∧
      if 0 <? l_len fl then start = first ∧ lend e = first + (l_len fl - 1)
      else if l_len fl <? 0 then start = first + l_len fl ∧ e = first - 1
      else start = first ∧ e = -1
  | inl e =>
      e = EINVAL ∧ (¬ whence_ok fl ∨ first < 0 ∨ (l_len fl < 0 ∧ first + l_len fl < 0)) ∨
      e = EOVERFLOW ∧ whence_ok fl ∧ 0 ≤ first ∧ 0 < l_len fl ∧ LLONG_MAX < first + (l_len fl - 1)
  end.

Lemma quad_ok v : is_i64 v → quad_ v = Ret v.
Proof. intros H. unfold quad_. by rewrite bool_decide_true. Qed.

Lemma lock_range_ok size fl :
  flock_ok size fl → ∃ r, lock_range size fl = Ret r ∧ range_post size fl r.
Proof.
  intros (H1 & H2 & H3). unfold lock_range.
  assert ((if (l_whence fl =? SEEK_SET) || (l_whence fl =? SEEK_CUR) then Ret (Some (l_start fl))
           else if l_whence fl =? SEEK_END then Some <$> quad_ (size + l_start fl) else Ret None)
    = Ret (if bool_decide (whence_ok fl) then Some (first_byte size fl) else None)) as ->.
  { unfold first_byte, whence_ok, SEEK_SET, SEEK_CUR, SEEK_END in *.
    destruct (Z.eqb_spec (l_whence fl) 0); [by rewrite bool_decide_true by auto; replace (l_whence fl =? 2) with false by lia|].
    destruct (Z.eqb_spec (l_whence fl) 1); [by rewrite bool_decide_true by auto; replace (l_whence fl =? 2) with false by lia|].
    destruct (Z.eqb_spec (l_whence fl) 2); cbn [orb]; [|by rewrite bool_decide_false by lia].
    rewrite bool_decide_true by auto. by rewrite quad_ok. }
  unfold range_post. set (first := first_byte size fl) in *. unfold is_i64 in *. unfold mbind, outcome_bind.
  case_bool_decide as Hw; [|eexists; split; [done|]; cbn; left; tauto].
  destruct (Z.ltb_spec first 0); [eexists; split; [done|]; cbn; left; tauto|].
  destruct (Z.ltb_spec 0 (l_len fl)).
  - rewrite quad_ok by (unfold is_i64, LLONG_MAX; lia).
    destruct (Z.ltb_spec (LLONG_MAX - first) (l_len fl - 1)).
    + eexists; split; [done|]. cbn. right. split_and!; try done; lia.
    + rewrite quad_ok by (unfold is_i64, LLONG_MAX in *; lia). eexists; split; [done|]. cbn. split; [done|].
      unfold range_ok, lend, LLONG_MAX in *. repeat case_match; lia.
  - destruct (Z.ltb_spec (l_len fl) 0).
    + rewrite quad_ok by (unfold is_i64, LLONG_MAX in *; lia).
      destruct (Z.ltb_spec (first + l_len fl) 0); [eexists; split; [done|]; cbn; left; tauto|].
      eexists; split; [done|]. cbn. split; [done|]. unfold range_ok. rewrite lend_nonneg by lia.
      unfold LLONG_MAX. lia.
    + eexists; split; [done|]. cbn. split; [done|]. unfold range_ok, lend, LLONG_MAX. cbn. lia.
Qed.

(** ** The calls *)

(** The locks in force, in the order of the list. *)
Definition active_cores (s : locks) : list core :=
  match state s with
  | None => []
  | Some st => omap (λ p, core_of <$> heap s !! p) (ls_locks st)
  end.

Lemma mem_active ext T hand L P bad s : mem_ok ext T hand L P bad s → active_cores s = L.*2.
Proof.
  intros H. unfold active_cores. rewrite (proj1 H). cbn.
  assert (∀ M, (∀ e, e ∈ M → e ∈ L) → omap (λ p, core_of <$> heap s !! p) M.*1 = M.*2) as HM; [|by apply HM].
  induction M as [|[p c] M IH]; [done|]. intros HM. cbn.
  destruct (mem_entry _ _ _ _ _ p c H) as (x & Hx & Hc & _); [specialize (HM (p, c)); set_solver|].
  rewrite Hx. cbn. rewrite Hc. f_equal. apply IH. intros e He. apply HM. set_solver.
Qed.

Lemma quiet_active ext L P s : quiet ext L P s → active_cores s = L.*2.
Proof. intros [H|(-> & _ & _ & Hs & _)]; [by eapply mem_active|]. unfold active_cores. by rewrite Hs. Qed.

(** [lf_advlock] with the lock's record made: the part of each operation. *)
Definition advlock_pid (who : caller) (flags : Z) : Z := if has flags F_POSIX then ps_pid who else -1.

Definition unlocked (fl : flock) : flock :=
  Flock (l_start fl) (l_len fl) (l_pid fl) F_UNLCK (l_whence fl).

(** The user has as many locks as the call allows. *)
Definition at_limit (uid op : Z) (s : locks) : Prop :=
  uid ≠ 0 ∧ (if op =? F_SETLK then maxlocksperuid else maxlocksperuid * 2) < lockcnt uid s.

(** What a call comes to; [lk] is the lock it asks about. *)
Inductive adv_post (who : caller) (op : Z) (fl : flock) (flags : Z) (lk : core) (L P : list entry) (s : locks) :
    progress * flock → locks → Prop :=
| adv_nolocks : state s = None → op ≠ F_SETLK → adv_post who op fl flags lk L P s (Returns 0, unlocked fl) s
| adv_limit s' : at_limit (cr_uid who) op s → quiet 0 L P s' → adv_post who op fl flags lk L P s (Returns ENOLCK, fl) s'
| adv_set lock r s1 s' :
    op = F_SETLK → (deadlocked s1 lk (advlock_pid who flags) → deadlocked s lk (advlock_pid who flags)) →
    (deadlocked s lk (advlock_pid who flags) → deadlocked s1 lk (advlock_pid who flags)) →
    set_post 0 P lock lk flags (advlock_pid who flags) L s1 r s' → adv_post who op fl flags lk L P s (r, fl) s'
| adv_clear L' s' :
    op = F_UNLCK → quiet 0 L' P s' → L'.*2 = L.*2 ≫= cut lk → adv_post who op fl flags lk L P s (Returns 0, fl) s'
| adv_get fl' s' :
    op = F_GETLK → quiet 0 L P s' → get_post lk fl L s fl' → adv_post who op fl flags lk L P s (Returns 0, fl') s'
| adv_inval s' :
    op ≠ F_SETLK → op ≠ F_UNLCK → op ≠ F_GETLK → quiet 0 L P s' → adv_post who op fl flags lk L P s (Returns EINVAL, fl) s'.

(** A call makes the state if there is none, and refers to it. *)
Lemma open_state L P s Q :
  quiet 0 L P s →
  (∀ s', mem_ok 0 [] [] L P nobad (set_state (Some (LockfState L.*1 P.*1 (Z.of_nat (length L + length P)))) s) →
     s' = set_state (Some (LockfState L.*1 P.*1 (Z.of_nat (length L + length P) + 1))) s → Q tt s') →
  runs (match state s with
        | None => modify (set_state (Some (LockfState [] [] 0)))
        | Some _ => mret ()
        end;; ls_ref) s Q.
Proof.
  intros [H|(-> & -> & _ & Hst & Hh)] HQ.
  - pose proof (proj1 H) as Hst. rewrite Hst. step. step. unfold ls_ref. eapply runs_upd_ls; [exact Hst|].
    cbn. apply HQ.
    + destruct H as [_ Hh]. split; cbn; [do 2 f_equal; lia|exact Hh].
    + cbn. unfold set_state. do 3 f_equal. lia.
  - rewrite Hst. step. step. unfold ls_ref. eapply runs_upd_ls; [done|]. cbn. apply HQ; [|done]. by split.
Qed.

Lemma deadlocked_new L P st s s1 lk pid x :
  mem_ok 0 [] [] L P nobad (set_state st s) → 
  (match state s1 with Some t => ls_locks t = L.*1 ∧ ls_pending t = P.*1 | None => False end) →
  (match state s with Some t => ls_locks t = L.*1 ∧ ls_pending t = P.*1 | None => L = [] end) →
  heap s1 = <[next_addr s := x]> (heap s) → deadlocked s1 lk pid ↔ deadlocked s lk pid.
Proof.
  intros H Hs1 Hs Hh. assert (∀ p, p ∈ L.*1 ∨ p ∈ P.*1 → heap s1 !! p = heap s !! p) as Hsame.
  { intros p Hp. assert (∃ c, (p, c) ∈ L ++ P ++ []) as [c Hc].
    { destruct Hp as [Hp|Hp]; apply list_elem_of_fmap in Hp as ([p' c] & -> & Hp); exists c; cbn; set_solver. }
    destruct (mem_entry _ _ _ _ _ p c H Hc) as (_ & _ & _ & _ & Hlt). cbn in Hlt.
    rewrite Hh, lookup_insert_ne; [done|lia]. }
  assert (∀ p z d, heap s !! p = Some z → lf_blk z = Some d → heap s1 !! d = heap s !! d) as Hd.
  { intros p z d Hz Hzd. destruct H as [_ Hok]. destruct (ho_blk _ _ _ _ _ _ _ Hok p z d Hz Hzd) as (_ & u & Hu & _).
    pose proof (ho_fresh _ _ _ _ _ _ _ Hok d u Hu) as Hlt. cbn in Hlt. rewrite Hh, lookup_insert_ne; [done|lia]. }
  unfold deadlocked, waits_back. split.
  - intros (t1 & b & y & Ht1 & Hb & Hy & Hc & Hf & p & z & d & u & Hp & Hz & Hzd & Hu & ? & ?).
    rewrite Ht1 in Hs1. destruct Hs1 as [Hl Hpl]. rewrite Hl in Hb. rewrite Hpl in Hp.
    rewrite Hsame in Hy, Hz by auto. rewrite (Hd p z d) in Hu by done.
    destruct (state s) as [t|]; [|by rewrite Hs in Hb; apply not_elem_of_nil in Hb].
    destruct Hs as [Hl' Hpl']. exists t, b, y. rewrite Hl', Hpl'. split_and!; try done. by exists p, z, d, u.
  - intros (t & b & y & Ht & Hb & Hy & Hc & Hf & p & z & d & u & Hp & Hz & Hzd & Hu & ? & ?).
    rewrite Ht in Hs. destruct Hs as [Hl Hpl]. rewrite Hl in Hb. rewrite Hpl in Hp.
    destruct (state s1) as [t1|]; [|done]. destruct Hs1 as [Hl' Hpl']. exists t1, b, y. rewrite Hl', Hpl'.
    rewrite (Hsame b) by auto. split_and!; try done. exists p, z, d, u.
    rewrite (Hsame p) by auto. rewrite (Hd p z d) by done. done.
Qed.

Lemma quiet_lists ext L P s : quiet ext L P s →
  match state s with Some t => ls_locks t = L.*1 ∧ ls_pending t = P.*1 | None => L = [] end.
Proof. intros [H|(-> & _ & _ & -> & _)]; [|done]. by rewrite (proj1 H). Qed.

Lemma get_post_new L P st lk fl s s1 x fl' :
  mem_ok 0 [] [] L P nobad (set_state st s) → heap s1 = <[next_addr s := x]> (heap s) →
  get_post lk fl L s1 fl' → get_post lk fl L s fl'.
Proof.
  intros H Hh [Hno|L1 b y L2 HL Hy Hc Hno]; [by apply get_free|]. eapply get_blocked; [exact HL| |done|done].
  destruct (mem_entry _ _ _ _ _ b (core_of y) H) as (_ & _ & _ & _ & Hlt); [set_solver|]. cbn in Hlt.
  rewrite Hh, lookup_insert_ne in Hy; [done|lia].
Qed.

(** From the allocation of the lock on. *)
Lemma runs_operation who op id fl flags start e L P s Q :
  let lk := Core (l_type fl) start e id (cr_uid who) in
  quiet 0 L P s → locks_ok L.*2 → (op = F_SETLK → typed lk) → core_ok lk →
  mem_ok 0 [] [] L P nobad (set_state (Some (LockfState L.*1 P.*1 (Z.of_nat (length L + length P)))) s) →
  (∀ r s', adv_post who op fl flags lk L P s r s' → Q r s') →
  runs (lock ← lf_alloc (cr_uid who) (if op =? F_SETLK then 1 else 2);
        match lock with
        | None => ls_rele;; mret (Returns ENOLCK, fl)
        | Some lock =>
            modify (λ s, set_heap (<[lock := Lockf flags (l_type fl) start e id None []
                (cr_uid who) (if has flags F_POSIX then ps_pid who else -1)]> (heap s)) s);;
            if op =? F_SETLK then r ← lf_setlock lock; mret (r, fl)
            else if op =? F_UNLCK then e ← lf_clearlock lock; lf_free lock;; mret (Returns e, fl)
            else if op =? F_GETLK then
              '(e, fl) ← lf_getlock lock fl; lf_free lock;; mret (Returns e, fl)
            else lf_free lock;; mret (Returns EINVAL, fl)
        end) (set_state (Some (LockfState L.*1 P.*1 (Z.of_nat (length L + length P) + 1))) s) Q.
Proof.
  intros lk Hq HK Ht Hlk H HQ. step. apply runs_alloc.
  { intros Hu _ Hlim. step. eapply (runs_rele 0 L P); [cbn; do 2 f_equal; lia|done|]. intros s1 Hh1 Hn1 Hw1 Hq1.
    step. apply HQ, adv_limit; [split; [done|]; by destruct (op =? F_SETLK)|]. cbn in *. destruct s1. cbn in *. subst. apply Hq1.
    destruct H as [_ Hh]. cbn in Hh. by rewrite !app_nil_r in Hh. }
  intros cnt. step. step. cbn [heap next_addr state ui_lockcnt wakeups set_state set_heap].
  set (x := Lockf _ _ _ _ _ _ _ _ _). set (s1 := set_heap _ _).
  assert (mem_ok 0 [] [(next_addr s, lk)] L P nobad s1) as H1.
  { change lk with (core_of x). eapply (mem_new _ _ _ _ _ s1 x H); try done. cbn. do 2 f_equal. lia. }
  assert (heap s1 !! next_addr s = Some x) as Hx by (cbn; by rewrite lookup_insert_eq).
  destruct (Z.eqb_spec op F_SETLK) as [Eop|Eset]; [|destruct (Z.eqb_spec op F_UNLCK) as [Eop|Eclr];
    [|destruct (Z.eqb_spec op F_GETLK) as [Eop|Eget]]].
  - step. eapply runs_setlock; [done|exact H1|exact Hx|by apply Ht|done|]. intros r s2 H2. step.
    assert (∀ pid, deadlocked s1 lk pid ↔ deadlocked s lk pid) as Hd.
    { intros pid. eapply (deadlocked_new L P _ s s1 lk pid x H); [by split|exact (quiet_lists 0 L P s Hq)|done]. }
    apply HQ. eapply (adv_set _ _ _ _ _ _ _ _ (next_addr s) r s1); [done|apply Hd..|exact H2].
  - step. eapply runs_clearlock; [done|exact H1|done|]. intros s2 L' H2 HL' _. step.
    eapply runs_release; [exact H2|done|]. intros s3 H3. step. apply HQ. by eapply adv_clear.
  - step. eapply runs_getlock; [exact H1|]. intros fl' Hget. step. eapply runs_release; [exact H1|done|].
    intros s3 H3. step. apply HQ, adv_get; [done|done|]. by apply (get_post_new L P _ lk fl s s1 x fl' H).
  - step. eapply runs_release; [exact H1|done|]. intros s3 H3. step. by apply HQ, adv_inval.
Qed.

Lemma runs_advlock who size id op fl flags L P s Q :
  quiet 0 L P s → locks_ok L.*2 → flock_ok size fl → (op = F_SETLK → l_type fl = F_RDLCK ∨ l_type fl = F_WRLCK) →
  (∀ e, lock_range size fl = Ret (inl e) → Q (Returns e, fl) s) →
  (∀ start e r s', lock_range size fl = Ret (inr (start, e)) → range_ok start e →
     adv_post who op fl flags (Core (l_type fl) start e id (cr_uid who)) L P s r s' → Q r s') →
  runs (lf_advlock who size id op fl flags) s Q.
Proof.
  intros H HK Hfl Ht Herr HQ. destruct (lock_range_ok size fl Hfl) as (r & Hr & Hrp).
  unfold lf_advlock. step. eapply runs_lift; [exact Hr|]. destruct r as [e|[start e]].
  { step. by apply Herr. }
  step. step. destruct (bool_decide (state s = None) && negb (op =? F_SETLK)) eqn:Est.
  - apply andb_prop in Est as [Hst%bool_decide_eq_true Hop]. step. eapply HQ; [exact Hr|apply Hrp|].
    apply adv_nolocks; [done|]. intros ->. done.
  - apply runs_assoc. eapply open_state; [exact H|]. intros s1 Hm ->.
    eapply runs_operation; [done|done|exact Ht|by destruct Hrp as (_ & ? & _)|done|].
    intros r s2. apply HQ; [exact Hr|apply Hrp].
Qed.

(** ** Every sequence of calls *)

(** A call, the thread asleep with the lock [p] going on after a wakeup, or
    going on with an error after a signal. *)
Inductive event :=
| Call (who : caller) (size id op : Z) (fl : flock) (flags : Z)
| Wake (p : Z)
| Signal (p error : Z).

(** The wakeups of a thread that runs are used up. *)
Definition take_wakeups (p : Z) : LM () :=
  modify (λ s, set_wakeups (filter (λ c, c ≠ ChanLock p) (wakeups s)) s).

Definition perform (e : event) : LM progress :=
  match e with
  | Call who size id op fl flags => '(r, _) ← lf_advlock who size id op fl flags; mret r
  | Wake p => take_wakeups p;; lf_setlock_resume p 0
  | Signal p error => take_wakeups p;; lf_setlock_resume p error
  end.

Definition asleep (p : Z) (s : locks) : Prop := ∃ st, state s = Some st ∧ p ∈ ls_pending st.

Definition enabled (e : event) (s : locks) : Prop :=
  match e with
  | Call who size id op fl flags =>
      flock_ok size fl ∧ (op = F_SETLK → l_type fl = F_RDLCK ∨ l_type fl = F_WRLCK)
  | Wake p => asleep p s ∧ ChanLock p ∈ wakeups s
  | Signal p error => asleep p s ∧ error ≠ 0
  end.

Inductive reachable : locks → Prop :=
| reach_init : reachable no_locks
| reach_event s e r s' : reachable s → enabled e s → perform e s = Ret (r, s') → reachable s'.

(** The memory with [ext] references besides those of the locks. *)
Definition inv_refs (ext : Z) (s : locks) : Prop :=
  ∃ L P, quiet ext L P s ∧ locks_ok L.*2 ∧ Forall typed P.*2.
Definition lockf_inv : locks → Prop := inv_refs 0.

Lemma inv_set ext P lock lk flags pid L s r s' :
  locks_ok L.*2 → Forall typed P.*2 → core_ok lk → typed lk →
  set_post ext P lock lk flags pid L s r s' → inv_refs ext s'.
Proof.
  intros HK HP Hlk Ht [L' s1 Hno H1 Hadd|c s1 _ _ _ H1|c s1 _ _ _ _ _ H1|c L' s1 _ _ _ _ H1 HL'].
  - exists L', P. split; [by left|]. split; [by eapply added_ok|done].
  - by exists L, P.
  - by exists L, P.
  - exists L', (P ++ [(lock, lk)]). split; [by left|]. split.
    + rewrite HL'. case_match; [by apply cut_locks_ok|done].
    + rewrite fmap_app. apply Forall_app. split; [done|by apply Forall_singleton].
Qed.

Lemma inv_resume ext p error s :
  0 ≤ ext → inv_refs ext s → asleep p s →
  runs (take_wakeups p;; lf_setlock_resume p error) s (λ _ s', inv_refs ext s').
Proof.
  intros Hext (L & P & H & HK & HP) (st & Hst & Hp). destruct H as [H|(_ & _ & _ & Hn & _)]; [|congruence].
  rewrite (proj1 H) in Hst. injection Hst as <-. cbn in Hp. apply list_elem_of_fmap in Hp as ([w c] & -> & Hp).
  apply list_elem_of_split in Hp as (P1 & P2 & ->). cbn. rewrite fmap_app in HP. cbn in HP.
  apply Forall_app in HP as [HP1 [Hc HP2]%Forall_cons].
  assert (Forall typed (P1 ++ P2).*2) as HP by (rewrite fmap_app; by apply Forall_app).
  destruct (mem_entry _ _ _ _ _ w c H) as (_ & _ & _ & Hok & _); [set_solver|].
  unfold take_wakeups. step. step. eapply runs_resume; [exact H|done|done|done| |].
  - intros v Hv Hin. apply list_elem_of_filter. split; [congruence|done].
  - intros r s' [e s1 _ H1|flags pid s1 r' s2 _ H1].
    + by exists L, (P1 ++ P2).
    + by eapply inv_set.
Qed.

Lemma inv_adv who op fl flags lk L P s r s' :
  quiet 0 L P s → locks_ok L.*2 → Forall typed P.*2 → core_ok lk → (op = F_SETLK → typed lk) →
  adv_post who op fl flags lk L P s r s' → lockf_inv s'.
Proof.
  intros H HK HP Hlk Ht [Hst Hop|s1 _ H1|lock r1 s1 s2 Hop _ _ H1|L' s1 _ H1 HL'|fl' s1 _ H1 _|s1 _ _ _ H1].
  - by exists L, P.
  - by exists L, P.
  - eapply inv_set; [done|done|done|by apply Ht|exact H1].
  - exists L', P. split; [done|]. split; [|done]. rewrite HL'. by apply cut_locks_ok.
  - by exists L, P.
  - by exists L, P.
Qed.

Lemma inv_perform e s : lockf_inv s → enabled e s → runs (perform e) s (λ _ s', lockf_inv s').
Proof.
  intros Hi. destruct e as [who size id op fl flags|p|p error]; cbn [perform enabled].
  - intros [Hfl Ht]. destruct Hi as (L & P & H & HK & HP). step.
    eapply runs_advlock; [exact H|done|done|done| |].
    + intros e He. step. by exists L, P.
    + intros start e r s' _ Hr Hpost. destruct r as [r fl']. step.
      exact (inv_adv who op fl flags (Core (l_type fl) start e id (cr_uid who)) L P s _ s' H HK HP Hr Ht Hpost).
  - intros [Hp _]. by apply (inv_resume 0).
  - intros [Hp _]. by apply (inv_resume 0).
Qed.

Lemma no_locks_inv : lockf_inv no_locks.
Proof.
  exists [], []. split; [|split; [split; constructor|constructor]]. right. split_and!; try done.
  split; cbn; try (intros; set_solver); try (intros; by simplify_map_eq).
  - constructor.
Qed.

Lemma lockf_reachable_inv s : reachable s → lockf_inv s.
Proof.
  induction 1 as [|s e r s' _ IH He Hp]; [exact no_locks_inv|].
  destruct (inv_perform e s IH He) as (r' & s2 & Hp' & Hi). rewrite Hp in Hp'. by injection Hp' as <- <-.
Qed.

(** ** A state to look at *)

(** Calls one after the other, from [s]. *)
Fixpoint calls (es : list event) (s : locks) : outcome locks :=
  match es with
  | [] => Ret s
  | e :: es => '(_, s) ← perform e s; calls es s
  end.

Lemma reach_calls es s s' :
  reachable s → Forall (λ e, ∀ s, enabled e s) es → calls es s = Ret s' → reachable s'.
Proof.
  intros Hr Hes. revert s Hr. induction Hes as [|e es He Hes IH]; intros s Hr; cbn.
  { by intros [= <-]. }
  destruct (perform e s) as [[r s1]|] eqn:Hp; [|done]. cbn. apply IH. by eapply reach_event.
Qed.

Definition setlk (pid : Z) (fl : flock) (flags : Z) : event :=
  Call (user pid) 100 pid F_SETLK fl (Z.lor F_POSIX flags).

(** Two readers of bytes 15 to 19, and a writer of the whole file that waits. *)
Definition sample : locks :=
  match calls [setlk 1 (bytes_at 10 20 F_RDLCK) 0; setlk 2 (bytes_at 15 5 F_RDLCK) 0;
               setlk 3 (whole F_WRLCK) F_WAIT] no_locks with
  | Ret s => s | Fault _ => no_locks
  end.

Lemma whole_ok t : flock_ok 100 (whole t).
Proof. repeat split; vm_compute; congruence. Qed.
Lemma bytes_ok start len t :
  is_i64 start → is_i64 len → flock_ok 100 (bytes_at start len t).
Proof. done. Qed.

Lemma sample_reachable : reachable sample.
Proof.
  apply (reach_calls [setlk 1 (bytes_at 10 20 F_RDLCK) 0; setlk 2 (bytes_at 15 5 F_RDLCK) 0;
    setlk 3 (whole F_WRLCK) F_WAIT] no_locks); [exact reach_init| |vm_compute; reflexivity].
  assert (∀ pid start len t flags, is_i64 start → is_i64 len → t = F_RDLCK ∨ t = F_WRLCK →
    ∀ s, enabled (setlk pid (bytes_at start len t) flags) s) as Hen by done.
  constructor; [apply Hen; [done|done|by left]|]. constructor; [apply Hen; [done|done|by left]|].
  constructor; [apply Hen; [done|done|by right]|constructor].
Qed.

Lemma sample_asleep : asleep 3 sample.
Proof. eexists. split; [vm_compute; reflexivity|]. apply elem_of_cons. by left. Qed.

(** ** Properties *)

Lemma locks_ok_pair (L : list entry) p c q d :
  locks_ok L.*2 → (p, c) ∈ L → (q, d) ∈ L → p ≠ q → follows c d ∨ follows d c.
Proof.
  intros [HK _]. revert HK. induction L as [|[r e] L IH]; intros HK Hp Hq Hne; [by apply not_elem_of_nil in Hp|].
  cbn in HK. apply StronglySorted_inv in HK as [HK Hf]. rewrite Forall_forall in Hf.
  assert (∀ x f, (x, f) ∈ L → f ∈ L.*2) as Hin by (intros x f Hx; apply list_elem_of_fmap; by exists (x, f)).
  apply elem_of_cons in Hp as [[= -> ->]|Hp], Hq as [[= -> ->]|Hq]; [done|left; eauto|right; eauto|auto].
Qed.

Definition in_force (s : locks) (p : Z) (x : lockf) : Prop :=
  ∃ st, state s = Some st ∧ p ∈ ls_locks st ∧ heap s !! p = Some x.

(** C28: Mutual exclusion.  Whatever the calls, sleeps, wakeups and signals so far,
    two locks in force that share a byte belong to different owners and are both
    shared locks. *)
Theorem lockf_exclusion (s : locks) (p q : Z) (x y : lockf) (b : Z) :
  reachable s → in_force s p x → in_force s q y → p ≠ q →
  covers (core_of x) b → covers (core_of y) b →
  lf_id x ≠ lf_id y ∧ lf_type x ≠ F_WRLCK ∧ lf_type y ≠ F_WRLCK.
Proof.
  intros Hr (st & Hst & Hp & Hx) (st' & Hst' & Hq & Hy) Hne Hbx Hby. rewrite Hst in Hst'. injection Hst' as <-.
  apply lockf_reachable_inv in Hr as (L & P & [H|(_ & _ & _ & Hn & _)] & HK & _); [|congruence].
  rewrite (proj1 H) in Hst. injection Hst as <-. cbn in Hp, Hq.
  apply list_elem_of_fmap in Hp as ([p' c] & -> & Hp). apply list_elem_of_fmap in Hq as ([q' d] & -> & Hq). cbn in *.
  destruct (mem_entry _ _ _ _ _ p' c H) as (x' & Hx' & Hxc & _); [set_solver|].
  destruct (mem_entry _ _ _ _ _ q' d H) as (y' & Hy' & Hyc & _); [set_solver|].
  rewrite Hx in Hx'. rewrite Hy in Hy'. injection Hx' as <-. injection Hy' as <-. subst.
  assert (∀ c d, follows c d → covers c b → covers d b → c_id c ≠ c_id d ∧ c_type c ≠ F_WRLCK ∧ c_type d ≠ F_WRLCK) as Hfol.
  { intros c d [Hb Hn] Hc Hd. unfold covers in *.
    assert (c_id c ≠ c_id d) by (intros E; specialize (Hb E); unfold before in *; lia).
    assert (meet c d) by (unfold meet; lia). unfold conflict in Hn.
    split; [done|]. split; intros E; apply Hn; auto. }
  destruct (locks_ok_pair L p' (core_of x) q' (core_of y) HK Hp Hq Hne) as [Hf|Hf].
  - by apply (Hfol _ _ Hf).
  - destruct (Hfol _ _ Hf Hby Hbx) as (? & ? & ?). by split_and!.
Qed.

Lemma lockf_exclusion_witness :
  let x := Lockf 64 F_RDLCK 10 29 1 None [3] 1000 1 in
  let y := Lockf 64 F_RDLCK 15 19 2 None [] 1000 2 in
  reachable sample ∧ in_force sample 1 x ∧ in_force sample 2 y ∧
  covers (core_of x) 17 ∧ covers (core_of y) 17 ∧
  lf_id x ≠ lf_id y ∧ lf_type x ≠ F_WRLCK ∧ lf_type y ≠ F_WRLCK.
Proof.
  intros x y.
  assert (in_force sample 1 x) as Hx.
  { eexists. split; [vm_compute; reflexivity|]. split; [apply elem_of_cons; left; reflexivity|vm_compute; reflexivity]. }
  assert (in_force sample 2 y) as Hy.
  { eexists. split; [vm_compute; reflexivity|].
    split; [apply elem_of_cons; right; apply elem_of_cons; left; reflexivity|vm_compute; reflexivity]. }
  assert (covers (core_of x) 17) as Hcx by (unfold covers; cbn; lia).
  assert (covers (core_of y) 17) as Hcy by (unfold covers; cbn; lia).
  split; [exact sample_reachable|]. split; [exact Hx|]. split; [exact Hy|]. split; [exact Hcx|]. split; [exact Hcy|].
  apply (lockf_exclusion sample 1 2 x y 17 sample_reachable Hx Hy); [lia|exact Hcx|exact Hcy].
Defined.

(** C30: No lost wakeup.  A thread asleep on its lock either stands in the list of a
    lock in force that conflicts with its own, and will be woken when that lock
    changes, or has been sent a wakeup. *)
Theorem lockf_no_lost_wakeup (s : locks) (p : Z) :
  reachable s → asleep p s →
  ∃ x, heap s !! p = Some x ∧
    match lf_blk x with
    | Some b => ∃ y, in_force s b y ∧ p ∈ lf_blkhd y ∧ conflict (core_of y) (core_of x)
    | None => ChanLock p ∈ wakeups s
    end.
Proof.
  intros Hr (st & Hst & Hp). apply lockf_reachable_inv in Hr as (L & P & [H|(_ & _ & _ & Hn & _)] & _); [|congruence].
  pose proof Hst as Hst'. rewrite (proj1 H) in Hst'. injection Hst' as <-. cbn in Hp.
  pose proof Hp as Hp'. apply list_elem_of_fmap in Hp' as ([p' c] & -> & HpP). cbn in *.
  destruct (mem_entry _ _ _ _ _ p' c H) as (x & Hx & _); [set_solver|]. exists x. split; [done|].
  destruct H as [_ Hh]. destruct (lf_blk x) as [b|] eqn:Eb; [|by eapply ho_wake].
  destruct (ho_blk _ _ _ _ _ _ _ Hh p' x b Hx Eb) as (_ & y & Hy & Hin). exists y. split; [|split; [done|]].
  - eexists. split; [exact Hst|]. split; [|done]. cbn. destruct (ho_blkhd _ _ _ _ _ _ _ Hh b y p' Hy Hin) as [Hb _].
    by rewrite app_nil_r in Hb.
  - by apply (ho_wait _ _ _ _ _ _ _ Hh p' x b y); [..|intros []].
Qed.

Lemma lockf_no_lost_wakeup_witness :
  reachable sample ∧ asleep 3 sample ∧
  ∃ x, heap sample !! 3 = Some x ∧
    match lf_blk x with
    | Some b => ∃ y, in_force sample b y ∧ 3 ∈ lf_blkhd y ∧ conflict (core_of y) (core_of x)
    | None => ChanLock 3 ∈ wakeups sample
    end.
Proof.
  split; [exact sample_reachable|]. split; [exact sample_asleep|].
  exact (lockf_no_lost_wakeup sample 3 sample_reachable sample_asleep).
Defined.

(** What the ranges of a call come to. *)
Lemma reach_advlock who size id op fl flags s :
  reachable s → flock_ok size fl → (op = F_SETLK → l_type fl = F_RDLCK ∨ l_type fl = F_WRLCK) →
  ∃ r s', lf_advlock who size id op fl flags s = Ret (r, s') ∧
    ((∃ e, lock_range size fl = Ret (inl e) ∧ r = (Returns e, fl) ∧ s' = s) ∨
     ∃ a b L P, lock_range size fl = Ret (inr (a, b)) ∧ range_ok a b ∧ quiet 0 L P s ∧ locks_ok L.*2 ∧
       adv_post who op fl flags (Core (l_type fl) a b id (cr_uid who)) L P s r s').
Proof.
  intros Hr Hfl Ht. apply lockf_reachable_inv in Hr as (L & P & H & HK & _).
  apply (runs_advlock who size id op fl flags L P s); [done..| |].
  - intros e He. left. by exists e.
  - intros a b r s' Hr Hok Hpost. right. by exists a, b, L, P.
Qed.

(** Somebody else's lock is in the way. *)
Definition blocked (s : locks) (lk : core) : Prop := ∃ c, c ∈ active_cores s ∧ conflict c lk.

(** C29: F_SETLK sets exactly the bytes asked for: on success nobody else's lock was in
    the way and the owner holds the range with the new type, whatever it held
    there before, and nothing else has changed.  Otherwise no lock has changed,
    and the error tells why: bad range, too many locks, a conflict (EAGAIN
    without F_WAIT, EDEADLK if the lock's process waits for this one) -- or the
    caller sleeps, in which case flock(2) upgrades give up the old lock. *)
Theorem lf_setlk_spec (who : caller) (size id : Z) (fl : flock) (flags : Z) (s : locks) :
  reachable s → flock_ok size fl → l_type fl = F_RDLCK ∨ l_type fl = F_WRLCK →
  ∃ r s', lf_advlock who size id F_SETLK fl flags s = Ret ((r, fl), s') ∧
  match lock_range size fl with
  | Fault _ => False
  | Ret (inl e) => r = Returns e ∧ s' = s
  | Ret (inr (a, b)) =>
      let lk := Core (l_type fl) a b id (cr_uid who) in
      let pid := advlock_pid who flags in
      match r with
      | Returns e =>
          e = 0 ∧ ¬ blocked s lk ∧
            (∀ i x t, holds (active_cores s') i x t ↔
               (i = id ∧ covers lk x ∧ t = l_type fl) ∨
               (¬ (i = id ∧ covers lk x) ∧ holds (active_cores s) i x t)) ∨
          active_cores s' = active_cores s ∧
            (e = ENOLCK ∧ at_limit (cr_uid who) F_SETLK s ∨
             e = EAGAIN ∧ blocked s lk ∧ has flags F_WAIT = false ∨
             e = EDEADLK ∧ blocked s lk ∧ has flags F_WAIT = true ∧ has flags F_POSIX = true ∧ deadlocked s lk pid)
      | Sleeps =>
          blocked s lk ∧ has flags F_WAIT = true ∧ (has flags F_POSIX = true → ¬ deadlocked s lk pid) ∧
          ∀ i x t, holds (active_cores s') i x t ↔ holds (active_cores s) i x t ∧
            ¬ (has flags F_FLOCK && (l_type fl =? F_WRLCK) = true ∧ i = id ∧ covers lk x)
      end
  end.
Proof.
  intros Hr Hfl Ht. destruct (reach_advlock who size id F_SETLK fl flags s Hr Hfl (λ _, Ht))
    as (r & s' & Hrun & [(e & He & -> & ->)|(a & b & L & P & Hab & Hok & Hq & HK & Hpost)]).
  { exists (Returns e), s. by rewrite He. }
  rewrite Hab. set (lk := Core _ _ _ _ _) in *. change (range_ok a b) with (core_ok lk) in Hok.
  pose proof (quiet_active _ _ _ _ Hq) as HL.
  destruct Hpost as [Hn|s' Hlim H1|lock r s1 s' _ Hd1 Hd2 Hset|L' s' He|fl' s' He|s' He]; try done.
  { eexists _, s'. split; [exact Hrun|]. right. rewrite (quiet_active _ _ _ _ H1), HL. by auto. }
  exists r, s'. split; [exact Hrun|].
  destruct Hset as [L' s' Hno H1 Hadd|c s' Hc Hcf Hw H1|c s' Hc Hcf Hw Hp Hd H1|c L' s' Hc Hcf Hw Hd H1 HL'].
  - left. unfold blocked. rewrite HL, (mem_active _ _ _ _ _ _ _ H1). split; [done|]. split; [naive_solver|].
    intros i x t. exact (added_holds lk _ _ i x t HK Hok Hadd).
  - right. unfold blocked. rewrite (quiet_active _ _ _ _ H1), HL. split; [done|]. right. left. eauto.
  - right. unfold blocked. rewrite (quiet_active _ _ _ _ H1), HL. split; [done|]. right. right.
    split; [done|]. split; [by exists c|]. auto.
  - unfold blocked. rewrite HL, (mem_active _ _ _ _ _ _ _ H1), HL'.
    split; [by exists c|]. split; [done|]. split; [intros Hp Hdl; apply (Hd Hp); auto|].
    intros i x t. change (c_type lk) with (l_type fl). destruct (has flags F_FLOCK && (l_type fl =? F_WRLCK)).
    2: { split; [intros H; split; [done|by intros [? _]]|tauto]. }
    rewrite holds_cut by (done || by destruct HK). tauto.
Qed.

Lemma lf_setlk_spec_witness :
  reachable sample ∧
  flock_ok 100 (bytes_at 17 10 F_WRLCK) ∧
  ∃ r s', lf_advlock (user 2) 100 2 F_SETLK (bytes_at 17 10 F_WRLCK) F_POSIX sample = Ret ((r, (bytes_at 17 10 F_WRLCK)), s') ∧
  match lock_range 100 (bytes_at 17 10 F_WRLCK) with
  | Fault _ => False
  | Ret (inl e) => r = Returns e ∧ s' = sample
  | Ret (inr (a, b)) =>
      let lk := Core (l_type (bytes_at 17 10 F_WRLCK)) a b 2 (cr_uid (user 2)) in
      let pid := advlock_pid (user 2) F_POSIX in
      match r with
      | Returns e =>
          e = 0 ∧ ¬ blocked sample lk ∧
            (∀ i x t, holds (active_cores s') i x t ↔
               (i = 2 ∧ covers lk x ∧ t = l_type (bytes_at 17 10 F_WRLCK)) ∨
               (¬ (i = 2 ∧ covers lk x) ∧ holds (active_cores sample) i x t)) ∨
          active_cores s' = active_cores sample ∧
            (e = ENOLCK ∧ at_limit (cr_uid (user 2)) F_SETLK sample ∨
             e = EAGAIN ∧ blocked sample lk ∧ has F_POSIX F_WAIT = false ∨
             e = EDEADLK ∧ blocked sample lk ∧ has F_POSIX F_WAIT = true ∧ has F_POSIX F_POSIX = true ∧ deadlocked sample lk pid)
      | Sleeps =>
          blocked sample lk ∧ has F_POSIX F_WAIT = true ∧ (has F_POSIX F_POSIX = true → ¬ deadlocked sample lk pid) ∧
          ∀ i x t, holds (active_cores s') i x t ↔ holds (active_cores sample) i x t ∧
            ¬ (has F_POSIX F_FLOCK && (l_type (bytes_at 17 10 F_WRLCK) =? F_WRLCK) = true ∧ i = 2 ∧ covers lk x)
      end
  end.
Proof.
  split; [exact sample_reachable|]. split; [repeat split; vm_compute; congruence|].
  apply (lf_setlk_spec (user 2) 100 2 (bytes_at 17 10 F_WRLCK) F_POSIX sample);
    [exact sample_reachable|repeat split; vm_compute; congruence|right; reflexivity].
Defined.

(** C32: F_UNLCK takes exactly the bytes asked for from the owner's locks, splitting
    them where needed, and changes nobody else's; it fails only on a bad range
    or, above twice the limit of locks, with ENOLCK. *)
Theorem lf_unlck_spec (who : caller) (size id : Z) (fl : flock) (flags : Z) (s : locks) :
  reachable s → flock_ok size fl →
  ∃ r fl' s', lf_advlock who size id F_UNLCK fl flags s = Ret ((Returns r, fl'), s') ∧
  match lock_range size fl with
  | Fault _ => False
  | Ret (inl e) => r = e ∧ s' = s
  | Ret (inr (a, b)) =>
      r = 0 ∧ (∀ i x t, holds (active_cores s') i x t ↔
        holds (active_cores s) i x t ∧ ¬ (i = id ∧ covers (Core (l_type fl) a b id (cr_uid who)) x)) ∨
      r = ENOLCK ∧ at_limit (cr_uid who) F_UNLCK s ∧ active_cores s' = active_cores s
  end.
Proof.
  intros Hr Hfl. destruct (reach_advlock who size id F_UNLCK fl flags s Hr Hfl)
    as (r & s' & Hrun & [(e & He & -> & ->)|(a & b & L & P & Hab & Hok & Hq & HK & Hpost)]); [done| |].
  { exists e, fl, s. by rewrite He. }
  rewrite Hab. set (lk := Core _ _ _ _ _) in *. change (range_ok a b) with (core_ok lk) in Hok.
  pose proof (quiet_active _ _ _ _ Hq) as HL.
  destruct Hpost as [Hn|s' Hlim H1|lock r s1 s' He|L' s' _ H1 HL'|fl' s' He|s' He]; try done.
  - eexists _, _, s. split; [exact Hrun|]. left. split; [done|]. unfold active_cores. rewrite Hn.
    intros i x t. split; [|naive_solver]. intros (c & Hc & _). by apply not_elem_of_nil in Hc.
  - eexists _, _, s'. split; [exact Hrun|]. right. by rewrite (quiet_active _ _ _ _ H1), HL.
  - eexists _, _, s'. split; [exact Hrun|]. left. split; [done|]. rewrite HL, (quiet_active _ _ _ _ H1), HL'.
    intros i x t. apply holds_cut; [done|by destruct HK].
Qed.

Lemma lf_unlck_spec_witness :
  reachable sample ∧
  flock_ok 100 (bytes_at 17 10 F_WRLCK) ∧
  ∃ r fl' s', lf_advlock (user 2) 100 2 F_UNLCK (bytes_at 17 10 F_WRLCK) F_POSIX sample = Ret ((Returns r, fl'), s') ∧
  match lock_range 100 (bytes_at 17 10 F_WRLCK) with
  | Fault _ => False
  | Ret (inl e) => r = e ∧ s' = sample
  | Ret (inr (a, b)) =>
      r = 0 ∧ (∀ i x t, holds (active_cores s') i x t ↔
        holds (active_cores sample) i x t ∧ ¬ (i = 2 ∧ covers (Core (l_type (bytes_at 17 10 F_WRLCK)) a b 2 (cr_uid (user 2))) x)) ∨
      r = ENOLCK ∧ at_limit (cr_uid (user 2)) F_UNLCK sample ∧ active_cores s' = active_cores sample
  end.
Proof.
  split; [exact sample_reachable|]. split; [repeat split; vm_compute; congruence|].
  apply (lf_unlck_spec (user 2) 100 2 (bytes_at 17 10 F_WRLCK) F_POSIX sample);
    [exact sample_reachable|repeat split; vm_compute; congruence].
Defined.

(** F_GETLK changes no lock and tells of a lock in force that would block the
    request, or that there is none. *)
Theorem lf_getlk_spec (who : caller) (size id : Z) (fl : flock) (flags : Z) (s : locks) :
  reachable s → flock_ok size fl →
  ∃ r fl' s', lf_advlock who size id F_GETLK fl flags s = Ret ((Returns r, fl'), s') ∧
    active_cores s' = active_cores s ∧
  match lock_range size fl with
  | Fault _ => False
  | Ret (inl e) => r = e
  | Ret (inr (a, b)) =>
      let lk := Core (l_type fl) a b id (cr_uid who) in
      r = 0 ∧ (¬ blocked s lk ∧ fl' = unlocked fl ∨
               ∃ p x, in_force s p x ∧ conflict (core_of x) lk ∧ fl' = told (core_of x) (lf_pid x)) ∨
      r = ENOLCK ∧ at_limit (cr_uid who) F_GETLK s
  end.
Proof.
  intros Hr Hfl. destruct (reach_advlock who size id F_GETLK fl flags s Hr Hfl)
    as (r & s' & Hrun & [(e & He & -> & ->)|(a & b & L & P & Hab & Hok & Hq & HK & Hpost)]); [done| |].
  { exists e, fl, s. by rewrite He. }
  rewrite Hab. set (lk := Core _ _ _ _ _) in *. pose proof (quiet_active _ _ _ _ Hq) as HL.
  destruct Hpost as [Hn|s' Hlim H1|lock r s1 s' He|L' s' He|fl' s' _ H1 Hget|s' _ _ He]; try done.
  - eexists _, _, s. split; [exact Hrun|]. split; [done|]. left. split; [done|]. left. split; [|done].
    unfold blocked, active_cores. rewrite Hn. intros (c & Hc & _). by apply not_elem_of_nil in Hc.
  - eexists _, _, s'. split; [exact Hrun|]. rewrite (quiet_active _ _ _ _ H1), HL. auto.
  - eexists _, _, s'. split; [exact Hrun|]. rewrite (quiet_active _ _ _ _ H1), HL. split; [done|]. left. split; [done|].
    destruct Hget as [Hno|L1 p x L2 HLe Hx Hc _].
    + left. split; [|done]. intros (c & Hc & Hcf). rewrite HL in Hc. by apply (Hno c).
    + right. exists p, x. split; [|done]. destruct Hq as [Hq|(-> & _)]; [|by destruct L1].
      eexists. split; [apply Hq|]. split; [cbn; rewrite HLe, fmap_app; cbn; set_solver|done].
Qed.

Lemma lf_getlk_spec_witness :
  reachable sample ∧
  flock_ok 100 (bytes_at 17 10 F_WRLCK) ∧
  ∃ r fl' s', lf_advlock (user 2) 100 2 F_GETLK (bytes_at 17 10 F_WRLCK) F_POSIX sample = Ret ((Returns r, fl'), s') ∧
    active_cores s' = active_cores sample ∧
  match lock_range 100 (bytes_at 17 10 F_WRLCK) with
  | Fault _ => False
  | Ret (inl e) => r = e
  | Ret (inr (a, b)) =>
      let lk := Core (l_type (bytes_at 17 10 F_WRLCK)) a b 2 (cr_uid (user 2)) in
      r = 0 ∧ (¬ blocked sample lk ∧ fl' = unlocked (bytes_at 17 10 F_WRLCK) ∨
               ∃ p x, in_force sample p x ∧ conflict (core_of x) lk ∧ fl' = told (core_of x) (lf_pid x)) ∨
      r = ENOLCK ∧ at_limit (cr_uid (user 2)) F_GETLK sample
  end.
Proof.
  split; [exact sample_reachable|]. split; [repeat split; vm_compute; congruence|].
  apply (lf_getlk_spec (user 2) 100 2 (bytes_at 17 10 F_WRLCK) F_POSIX sample);
    [exact sample_reachable|repeat split; vm_compute; congruence].
Defined.

(** *** Purging *)

Lemma runs_intr_all ext L P l s Q :
  mem_ok ext [] [] L P nobad s → (∀ p, p ∈ l → p ∈ L.*1) →
  (∀ s', mem_ok ext [] [] L P nobad s' → (∀ p, p ∈ l ∨ idle p (heap s) → idle p (heap s')) → Q tt s') →
  runs (intr_all l) s Q.
Proof.
  revert s. induction l as [|p l IH]; intros s H Hl HQ; cbn [intr_all].
  { step. apply HQ; [done|]. intros p [Hp|Hp]; [by apply not_elem_of_nil in Hp|done]. }
  destruct (proj1 (list_elem_of_fmap _ _ _) (Hl p ltac:(set_solver))) as ([p' c] & -> & Hp).
  step. eapply (runs_wake_keep _ _ _ _ p' c); [|exact H|]; [set_solver|]. intros s1 H1 Hi1 Hk1.
  apply IH; [done|set_solver|]. intros s2 H2 Hk2. apply HQ; [done|].
  intros q [[->|Hq]%elem_of_cons|Hq]; apply Hk2; auto.
Qed.

Lemma runs_purge_all fuel L s Q :
  mem_ok 1 [] [] L [] nobad s → (length L < fuel)%nat →
  (∀ s', mem_ok 1 [] [] [] [] nobad s' → Q tt s') → runs (purge_all fuel) s Q.
Proof.
  revert L s. induction fuel as [|fuel IH]; intros L s H Hf HQ; [lia|]. cbn [purge_all].
  step. eapply runs_first; [exact H|]. destruct L as [|[p c] L]; cbn [fmap list_fmap fst head].
  { step. by apply HQ. }
  apply runs_assoc. eapply (runs_drop 1 [] ltac:(lia) [] [] [] [] p c L); [exact H| |cbn; lia|set_solver|].
  - destruct (mem_nil _ _ _ _ _ p c H) as (x & Hx & _); [set_solver|]. exists x. split; [done|].
    destruct (lf_blkhd x) as [|w l] eqn:E; [done|]. destruct H as [_ Hh].
    destruct (ho_blkhd _ _ _ _ _ _ _ Hh p x w) as (_ & y & Hy & Hyb); [done|rewrite E; set_solver|].
    destruct (ho_blk _ _ _ _ _ _ _ Hh w y p Hy Hyb) as [Hw _]. by apply not_elem_of_nil in Hw.
  - intros s1 H1. by apply (IH L); [|cbn in Hf; lia|].
Qed.

Lemma runs_purge_resume L P s Q :
  mem_ok 1 [] [] L P nobad s → (P ≠ [] → Q Sleeps s) → (P = [] → ∀ s', state s' = None → Q (Returns 0) s') →
  runs lf_purgelocks_resume s Q.
Proof.
  intros H Hsleep Hret. pose proof (proj1 H) as Hst. unfold lf_purgelocks_resume. step. step. cbn [ls_pending].
  destruct P as [|[p c] P]; cbn [fmap list_fmap]; [|step; by apply Hsleep].
  step. eapply runs_purge_all; [exact H|cbn; rewrite length_fmap; lia|]. intros s1 H1.
  pose proof (proj1 H1) as Hst1. step. step. step. step; [done|]. step.
  unfold ls_rele. step. eapply runs_upd_ls; [exact Hst1|]. step. eapply runs_ls; [done|]. cbn.
  change (0 <? Z.of_nat 0 + 1 - 1) with false. cbv iota. step. step. step. step. step. step. by apply Hret.
Qed.

(** lf_purgelocks from any reachable state: if nobody is asleep it frees every lock
    and the state; otherwise it sleeps, and by then every sleeper has been sent a
    wakeup. *)
Theorem lf_purgelocks_spec (s : locks) :
  reachable s →
  ∃ r s', lf_purgelocks s = Ret (r, s') ∧
    match r with
    | Returns e => e = 0 ∧ state s' = None ∧ ∀ p, ¬ asleep p s
    | Sleeps =>
        inv_refs 1 s' ∧ (∃ p, asleep p s') ∧ ∀ p, asleep p s' → asleep p s ∧ ChanLock p ∈ wakeups s'
    end.
Proof.
  intros Hr. apply lockf_reachable_inv in Hr as (L & P & H & HK & HT).
  destruct H as [H|(_ & _ & _ & Hn & _)].
  2: { exists (Returns 0), s. unfold lf_purgelocks, mbind, ST_bind, gets. rewrite Hn. split; [done|]. split; [done|].
       split; [done|]. intros p (st & Hst & _). congruence. }
  pose proof (proj1 H) as Hst. unfold lf_purgelocks.
  match goal with |- ∃ r s', ?m s = Ret (r, s') ∧ @?K r s' => change (runs m s K) end.
  step. step. rewrite Hst. step. unfold ls_ref. eapply runs_upd_ls; [exact Hst|]. cbn [ls_locks ls_pending ls_refs].
  set (s1 := set_state _ s). assert (mem_ok 1 [] [] L P nobad s1) as H1.
  { destruct H as [_ Hh]. split; [cbn; do 2 f_equal; lia|exact Hh]. }
  step. eapply runs_intr_all; [exact H1|done|]. intros s2 H2 Hidle.
  eapply runs_purge_resume; [exact H2| |].
  - intros HP. split; [by exists L, P; split; [left|]|]. split.
    + destruct P as [|[p c] P]; [done|]. exists p. eexists. split; [apply H2|]. cbn. set_solver.
    + intros p (st & Hst2 & Hp). rewrite (proj1 H2) in Hst2. injection Hst2 as <-. cbn in Hp. split.
      { eexists. split; [exact Hst|]. done. }
      apply list_elem_of_fmap in Hp as ([p' c] & -> & Hp). cbn.
      destruct (mem_entry _ _ _ _ _ p' c H2) as (x & Hx & _); [set_solver|]. destruct H2 as [_ Hh].
      apply (ho_wake _ _ _ _ _ _ _ Hh p' x); [by eapply elem_fst|done|].
      destruct (lf_blk x) as [b|] eqn:Eb; [|done]. exfalso.
      destruct (ho_blk _ _ _ _ _ _ _ Hh p' x b Hx Eb) as (_ & z & Hz & Hin).
      destruct (ho_blkhd _ _ _ _ _ _ _ Hh b z p' Hz Hin) as [Hb _]. rewrite app_nil_r in Hb.
      destruct (Hidle b (or_introl Hb)) as (z' & Hz' & Hi). rewrite Hz in Hz'. injection Hz' as <-.
      rewrite Hi in Hin. by apply not_elem_of_nil in Hin.
  - intros -> s3 Hs3. split; [done|]. split; [done|]. intros p (st & Hst' & Hp). rewrite Hst in Hst'.
    injection Hst' as <-. by apply not_elem_of_nil in Hp.
Qed.

Lemma lf_purgelocks_spec_witness :
  reachable sample ∧
  ∃ r s', lf_purgelocks sample = Ret (r, s') ∧
    match r with
    | Returns e => e = 0 ∧ state s' = None ∧ ∀ p, ¬ asleep p sample
    | Sleeps =>
        inv_refs 1 s' ∧ (∃ p, asleep p s') ∧ ∀ p, asleep p s' → asleep p sample ∧ ChanLock p ∈ wakeups s'
    end.
Proof.
  split; [exact sample_reachable|]. exact (lf_purgelocks_spec sample sample_reachable).
Defined.

(** While [lf_purgelocks] sleeps, the threads it has interrupted go on; the file is
    about to go away, so that no new call is made on it. *)
Definition goes_on (e : event) : Prop := match e with Call _ _ _ _ _ _ => False | _ => True end.

Inductive purging : locks → Prop :=
| purging_begin s s' : reachable s → lf_purgelocks s = Ret (Sleeps, s') → purging s'
| purging_event s e r s' :
    purging s → goes_on e → enabled e s → perform e s = Ret (r, s') → purging s'.

Lemma inv_goes_on e s :
  inv_refs 1 s → goes_on e → enabled e s → runs (perform e) s (λ _ s', inv_refs 1 s').
Proof. intros Hi Hg. destruct e as [who size id op fl flags|p|p error]; [done|..]; intros [Hp _]; by apply (inv_resume 1). Qed.

Lemma purging_inv s : purging s → inv_refs 1 s.
Proof.
  induction 1 as [s s' Hr Hp|s e r s' _ IH Hg He Hp].
  - destruct (lf_purgelocks_spec s Hr) as (r & s2 & Hp' & H). rewrite Hp in Hp'. injection Hp' as <- <-. apply H.
  - destruct (inv_goes_on e s IH Hg He) as (r' & s2 & Hp' & Hi). rewrite Hp in Hp'. by injection Hp' as <- <-.
Qed.

(** What a client may ask: a call with any 64-bit numbers, of the type of a lock when
    it sets one; besides, what the scheduler and signals do to a sleeper. *)
Definition offered (e : event) (s : locks) : Prop :=
  match e with
  | Call who size id op fl flags =>
      flock_i64 fl ∧ (op = F_SETLK → l_type fl = F_RDLCK ∨ l_type fl = F_WRLCK)
  | _ => enabled e s
  end.
Definition overflows_call (e : event) : bool :=
  match e with Call who size id op fl flags => overflows size fl | _ => false end.

Lemma offered_enabled e s : offered e s → overflows_call e = false → enabled e s.
Proof.
  destruct e as [who size id op fl flags|p|p error]; [|done..]. intros [Hfl Ht] Ho.
  split; [by apply overflows_no|done].
Qed.

(** C31: Every call returns or sleeps, and so does every thread that goes on after a
    wakeup or a signal: no panic or failed KASSERT, no dangling pointer, no loop
    without end.  The one exception is the sum of [size] and [l_start] for SEEK_END:
    exactly when it needs more than 63 bits the call overflows.  lf_purgelocks
    returns or sleeps in every reachable state, and while it sleeps the threads it
    waits for go on without a fault and so does the purge itself, its KASSERT on the
    count of references included. *)
Theorem lockf_returns (s : locks) (e : event) :
  (reachable s → offered e s →
     if overflows_call e then perform e s = Fault IntOverflow else ∃ r s', perform e s = Ret (r, s')) ∧
  (reachable s → ∃ r s', lf_purgelocks s = Ret (r, s')) ∧
  (purging s → goes_on e → enabled e s → ∃ r s', perform e s = Ret (r, s')) ∧
  (purging s → ∃ r s', lf_purgelocks_resume s = Ret (r, s')).
Proof.
  split_and!.
  - intros Hr He. destruct (overflows_call e) eqn:Ho.
    + destruct e as [who size id op fl flags|p|p error]; [|done..].
      cbn. unfold lf_advlock, mbind, ST_bind, lift. by rewrite (lock_range_overflow size fl Ho).
    + destruct (inv_perform e s (lockf_reachable_inv s Hr) (offered_enabled e s He Ho)) as (r & s' & H & _).
      by exists r, s'.
  - intros Hr. destruct (lf_purgelocks_spec s Hr) as (r & s' & H & _). by exists r, s'.
  - intros Hp Hg He. destruct (inv_goes_on e s (purging_inv s Hp) Hg He) as (r & s' & H & _). by exists r, s'.
  - intros Hp. destruct (purging_inv s Hp) as (L & P & [H|(_ & _ & He & _)] & _); [|lia].
    destruct (runs_purge_resume L P s (λ _ _, True) H) as (r & s' & Hrun & _); [done..|]. by exists r, s'.
Qed.

(** [sample] once its purge has begun; the writer is asleep and has a wakeup. *)
Definition sample_purging : locks :=
  match lf_purgelocks sample with Ret (_, s) => s | Fault _ => sample end.
Lemma sample_purging_ok : purging sample_purging.
Proof. apply (purging_begin sample); [exact sample_reachable|vm_compute; reflexivity]. Qed.

Definition far_from_end : event :=
  Call (user 1) LLONG_MAX 1 F_SETLK (Flock 1 1 0 F_WRLCK SEEK_END) F_POSIX.

Lemma lockf_returns_witness :
  (∃ r s', perform (Signal 3 EINTR) sample = Ret (r, s')) ∧
  perform far_from_end sample = Fault IntOverflow ∧
  (∃ r s', perform (Wake 3) sample_purging = Ret (r, s')) ∧
  ∃ r s', lf_purgelocks_resume sample_purging = Ret (r, s').
Proof.
  split_and!.
  - destruct (lockf_returns sample (Signal 3 EINTR)) as [H _].
    apply (H sample_reachable). split; [exact sample_asleep|discriminate].
  - destruct (lockf_returns sample far_from_end) as [H _].
    apply (H sample_reachable). split; [repeat split; vm_compute; congruence|]. intros _. right. reflexivity.
  - destruct (lockf_returns sample_purging (Wake 3)) as (_ & _ & H & _).
    apply (H sample_purging_ok I). split.
    + eexists. split; [vm_compute; reflexivity|]. apply elem_of_cons. by left.
    + vm_compute. repeat constructor.
  - destruct (lockf_returns sample_purging (Wake 3)) as (_ & _ & _ & H). exact (H sample_purging_ok).
Defined.

(** *** The range *)

(** C37: The range of a call with any 64-bit numbers: what [l_whence], [l_start] and
    [l_len] mean in POSIX, as a first and a last byte that need no more than 63 bits,
    with -1 for the end of the file; EINVAL for a bad [l_whence] or a range that
    starts before the file, EOVERFLOW for one that ends beyond 63 bits.  When
    [l_start] counts from the end of the file and the sum with [size] does not fit,
    where POSIX asks for EOVERFLOW, the addition overflows. *)
Theorem lock_range_spec (size : Z) (fl : flock) :
  flock_i64 fl →
  if overflows size fl then lock_range size fl = Fault IntOverflow
  else ∃ r, lock_range size fl = Ret r ∧ range_post size fl r.
Proof.
  intros Hfl. destruct (overflows size fl) eqn:Ho; [by apply lock_range_overflow|].
  by apply lock_range_ok, overflows_no.
Qed.

Lemma lock_range_spec_witness :
  (∃ r, lock_range 100 (Flock 9223372036854775707 101 0 F_RDLCK SEEK_SET) = Ret r ∧
     range_post 100 (Flock 9223372036854775707 101 0 F_RDLCK SEEK_SET) r) ∧
  lock_range 100 (Flock 9223372036854775708 1 0 F_RDLCK SEEK_END) = Fault IntOverflow.
Proof.
  split.
  - apply (lock_range_spec 100 (Flock 9223372036854775707 101 0 F_RDLCK SEEK_SET)).
    repeat split; vm_compute; congruence.
  - apply (lock_range_spec 100 (Flock 9223372036854775708 1 0 F_RDLCK SEEK_END)).
    repeat split; vm_compute; congruence.
Defined.

(** *** Where the code departs from its documentation *)

(** Three departures.  [lf_deadlock] is said to return non-zero if the lock would
    cause a deadlock; it finds cycles of two processes, but three processes that
    wait for each other all sleep, with no wakeup on its way.  [lf_purgelocks] is
    said to interrupt blocked locks and wait for them; a waiter that had been woken
    but not run when the purge began carries no F_INTR, blocks again on another
    lock, and leaves the purge asleep.  Locks are said to be sorted by the starting
    byte; those of different owners are not. *)
Theorem lockf_amiss :
  result ((_ ← posix 1 F_SETLK (bytes_at 0 1 F_WRLCK) 0;
          _ ← posix 2 F_SETLK (bytes_at 1 1 F_WRLCK) 0;
          r1 ← posix 1 F_SETLK (bytes_at 1 1 F_WRLCK) F_WAIT;
          r2 ← posix 2 F_SETLK (bytes_at 0 1 F_WRLCK) F_WAIT;
          mret (r1, r2)) no_locks) = Ret (Sleeps, Returns EDEADLK) ∧
  result ((_ ← posix 1 F_SETLK (bytes_at 0 1 F_WRLCK) 0;
           _ ← posix 2 F_SETLK (bytes_at 1 1 F_WRLCK) 0;
           _ ← posix 3 F_SETLK (bytes_at 2 1 F_WRLCK) 0;
           r1 ← posix 1 F_SETLK (bytes_at 1 1 F_WRLCK) F_WAIT;
           r2 ← posix 2 F_SETLK (bytes_at 2 1 F_WRLCK) F_WAIT;
           r3 ← posix 3 F_SETLK (bytes_at 0 1 F_WRLCK) F_WAIT;
           w ← gets wakeups;
           mret (r1, r2, r3, w)) no_locks) = Ret (Sleeps, Sleeps, Sleeps, []) ∧
  result ((_ ← posix 1 F_SETLK (whole F_WRLCK) 0;
           _ ← posix 2 F_SETLK (whole F_WRLCK) F_WAIT;
           _ ← posix 1 F_UNLCK (whole F_UNLCK) 0;
           _ ← posix 3 F_SETLK (whole F_WRLCK) 0;
           r1 ← lf_purgelocks;
           r2 ← perform (Wake 2);
           r3 ← lf_purgelocks_resume;
           w ← gets wakeups;
           mret (r1, r2, r3, w)) no_locks) = Ret (Sleeps, Sleeps, Sleeps, [ChanState]) ∧
  result ((_ ← posix 1 F_SETLK (bytes_at 10 5 F_WRLCK) 0;
           _ ← posix 2 F_SETLK (bytes_at 5 5 F_WRLCK) 0;
           l ← gets active;
           mret (l.*1.*2)) no_locks) = Ret [10; 5].
Proof. split; [|split; [|split]]; vm_compute; reflexivity. Qed.
