(* ===== verification/Art.v ===== *)
(** The allotment routing table: net/art.c and net/art.h.  Tables, heaps and
    nodes are objects named by pointers; an entry of a heap is a word whose low
    bit says whether it is a node pointer or a pointer to a child's heap, as in
    the code.  Writers and iterators are serialised by their callers and a
    lookup runs inside an SMR section, so each call is one step.  The model is
    of one routing table with the two global lists of garbage. *)

From S2P Require Import Prelude StateMonad.

(** ** Data: net/art.h *)

Definition UINT_MAX : Z := 4294967295.

Record art := MkArt {
  art_root : Z;
  art_levels : list Z;
  art_nlevels : Z;
  art_alen : Z;
}.

Record art_table := ArtTable {
  at_heap : Z;
  at_parent : Z;
  at_index : Z;
  at_minfringe : Z;
  at_level : Z;
  at_bits : Z;
  at_offset : Z;
  at_refcnt : Z;
}.

Definition ART_HEAP_IDX_TABLE : Z := 0.
Definition ART_HEAP_IDX_DEFAULT : Z := 1.

(** [AT_HEAPSIZE(bits)], in entries. *)
Definition AT_HEAPSIZE (bits : Z) : Z := Z.shiftl 1 (bits + 1).

(** The members of [an__u] share their storage: the one written last is read. *)
Inductive an__u := an__addr (addr : list Z) | an__gc (next : Z).

Record art_node := ArtNode { an_value : Z; an_u : an__u; an_plen : Z }.

Definition an_addr (an : art_node) : outcome (list Z) :=
  match an_u an with an__addr addr => Ret addr | an__gc _ => Fault OutOfBounds end.
Definition an_gc (an : art_node) : outcome Z :=
  match an_u an with an__gc next => Ret next | an__addr _ => Fault OutOfBounds end.

(** [art_heap_entry] is a [uintptr_t]. *)
Definition art_heap_entry_is_node (ahe : Z) : bool := Z.land ahe 1 =? 0.
Definition art_heap_entry_to_node (ahe : Z) : Z := ahe.
Definition art_heap_entry_to_heap (ahe : Z) : Z := Z.land ahe (not64 1).
Definition art_node_to_heap_entry (an : Z) : Z := an.
Definition art_heap_to_heap_entry (heap : Z) : Z := Z.lor heap 1.

Record art_iter := ArtIter { ai_table : Z; ai_j : Z; ai_i : Z }.

(** ** The memory *)

(** [pool_answers] are the addresses that the next calls of [pool_get] find. *)
Record rtable := RTable {
  the_art : art;
  heaps : gmap Z (list Z);
  tables : gmap Z art_table;
  nodes : gmap Z art_node;
  art_table_gc_list : Z;
  art_node_gc_list : Z;
  pool_answers : list Z;
}.

Abbreviation AM := (ST rtable).

Definition set_root (v : Z) (s : rtable) : rtable :=
  RTable (MkArt v (art_levels (the_art s)) (art_nlevels (the_art s)) (art_alen (the_art s)))
    (heaps s) (tables s) (nodes s) (art_table_gc_list s) (art_node_gc_list s) (pool_answers s).
Definition set_heaps (m : gmap Z (list Z)) (s : rtable) : rtable :=
  RTable (the_art s) m (tables s) (nodes s) (art_table_gc_list s) (art_node_gc_list s) (pool_answers s).
Definition set_tables (m : gmap Z art_table) (s : rtable) : rtable :=
  RTable (the_art s) (heaps s) m (nodes s) (art_table_gc_list s) (art_node_gc_list s) (pool_answers s).
Definition set_nodes (m : gmap Z art_node) (s : rtable) : rtable :=
  RTable (the_art s) (heaps s) (tables s) m (art_table_gc_list s) (art_node_gc_list s) (pool_answers s).
Definition set_table_gc (p : Z) (s : rtable) : rtable :=
  RTable (the_art s) (heaps s) (tables s) (nodes s) p (art_node_gc_list s) (pool_answers s).
Definition set_node_gc (p : Z) (s : rtable) : rtable :=
  RTable (the_art s) (heaps s) (tables s) (nodes s) (art_table_gc_list s) p (pool_answers s).
Definition set_answers (l : list Z) (s : rtable) : rtable :=
  RTable (the_art s) (heaps s) (tables s) (nodes s) (art_table_gc_list s) (art_node_gc_list s) l.

(** Through a pointer to a table, a heap, a node, an entry of a heap. *)
Definition tb (p : Z) : AM art_table := λ s, lift (deref (tables s !! p)) s.
Definition upd_tb (p : Z) (g : art_table → art_table) : AM () :=
  x ← tb p; modify (λ s, set_tables (<[p := g x]> (tables s)) s).
Definition words (p : Z) : AM (list Z) := λ s, lift (deref (heaps s !! p)) s.
Definition nd (p : Z) : AM art_node := λ s, lift (deref (nodes s !! p)) s.
Definition upd_nd (p : Z) (g : art_node → art_node) : AM () :=
  x ← nd p; modify (λ s, set_nodes (<[p := g x]> (nodes s)) s).
Definition SMR_PTR_GET (heap i : Z) : AM Z := λ s, lift (h ← deref (heaps s !! heap); load h i) s.
Definition SMR_PTR_SET (heap i v : Z) : AM () := λ s,
  lift (h ← deref (heaps s !! heap); h' ← store h i v; Ret (<[heap := h']> (heaps s))) s ≫=
  λ '(m, s), Ret (tt, set_heaps m s).

Definition set_refcnt v x := ArtTable (at_heap x) (at_parent x) (at_index x) (at_minfringe x) (at_level x) (at_bits x) (at_offset x) v.
Definition set_parent v x := ArtTable (at_heap x) v (at_index x) (at_minfringe x) (at_level x) (at_bits x) (at_offset x) (at_refcnt x).

Definition art_heap_to_table (heap : Z) : AM Z := SMR_PTR_GET heap ART_HEAP_IDX_TABLE.

(** *** The pools: [pool_get] with [PR_NOWAIT|PR_ZERO] *)

(** An address that a pool may give: not NULL, aligned, not in use. *)
Definition granted (s : rtable) (a : Z) : bool :=
  (0 <? a) && (a <? M64) && (Z.land a 1 =? 0) &&
  bool_decide (heaps s !! a = None ∧ tables s !! a = None ∧ nodes s !! a = None).

(** The next answer, or NULL when there is none. *)
Definition pool_get : AM Z := λ s,
  match pool_answers s with
  | [] => Ret (0, s)
  | a :: l => Ret (if granted s a then a else 0, set_answers l s)
  end.

Definition at_pool_get : AM Z :=
  p ← pool_get;
  if p =? 0 then mret 0
  else modify (λ s, set_tables (<[p := ArtTable 0 0 0 0 0 0 0 0]> (tables s)) s);; mret p.
Definition at_heap_pool_get (bits : Z) : AM Z :=
  p ← pool_get;
  if p =? 0 then mret 0
  else modify (λ s, set_heaps (<[p := replicate (Z.to_nat (AT_HEAPSIZE bits)) 0]> (heaps s)) s);; mret p.
Definition an_pool_get : AM Z :=
  p ← pool_get;
  if p =? 0 then mret 0
  else modify (λ s, set_nodes (<[p := ArtNode 0 (an__addr (replicate 16 0)) 0]> (nodes s)) s);; mret p.

Definition at_pool_put (p : Z) : AM () :=
  _ ← tb p; modify (λ s, set_tables (delete p (tables s)) s).
Definition at_heap_pool_put (p : Z) : AM () :=
  _ ← words p; modify (λ s, set_heaps (delete p (heaps s)) s).
Definition an_pool_put (p : Z) : AM () :=
  _ ← nd p; modify (λ s, set_nodes (delete p (nodes s)) s).

(** ** Initialisation *)

Definition art_plen32_levels : list Z := [8; 4; 4; 4; 4; 4; 4].
Definition art_plen128_levels : list Z := replicate 32 4.
Definition art_plen20_levels : list Z := [4; 4; 4; 4; 4].

(** The loop under DIAGNOSTIC. *)
Fixpoint sum_levels (levels : list Z) (bits : Z) : Z :=
  match levels with [] => bits | b :: l => sum_levels l (u32 (bits + b)) end.

Definition art_init (alen : Z) : outcome art :=
  levels ← (if alen =? 32 then Ret art_plen32_levels
            else if alen =? 128 then Ret art_plen128_levels
            else if alen =? 20 then Ret art_plen20_levels
            else Fault (Panic "art_init"));
  if negb (alen =? sum_levels levels 0) then Fault (Panic "art_init")
  else Ret (MkArt 0 levels (Z.of_nat (length levels)) alen).

(** [malloc(..., M_NOWAIT|M_ZERO)] may find no memory. *)
Definition art_alloc (memory : bool) (alen : Z) : outcome (option art) :=
  if memory then Some <$> art_init alen else Ret None.

(** ** Indexing *)

(** [x << n] on [int]. *)
Definition int_shl (x n : Z) : outcome Z :=
  if bool_decide (0 ≤ n < 32) then int_ (Z.shiftl x n) else Fault ShiftTooWide.
(** [x >> n] on a 32-bit word. *)
Definition shr32 (x n : Z) : outcome Z :=
  if bool_decide (0 ≤ n < 32) then Ret (Z.shiftr x n) else Fault ShiftTooWide.

Definition art_bindex (offset bits : Z) (addr : list Z) (plen : Z) : outcome Z :=
  kassert "art_bindex" (offset <=? plen);;
  kassert "art_bindex" (plen <=? u32 (offset + bits));;
  let plen := plen - offset in
  let o := offset / 8 in
  let boff := offset mod 8 in
  let bend := u32 (bits + boff) in
  kassert "art_bindex" (bend <=? 32);;
  a0 ← load addr o;
  m ← int_shl 1 (8 - boff);
  k ← (if 24 <? bend then
         k0 ← int_shl (Z.land a0 (m - 1)) (bend - 8);
         a1 ← load addr (o + 1); k1 ← int_shl a1 (bend - 16);
         a2 ← load addr (o + 2); k2 ← int_shl a2 (bend - 24);
         a3 ← load addr (o + 3); k3 ← shr32 a3 (32 - bend);
         Ret (Z.lor (Z.lor (Z.lor k0 k1) k2) k3)
       else if 16 <? bend then
         k0 ← int_shl (Z.land a0 (m - 1)) (bend - 8);
         a1 ← load addr (o + 1); k1 ← int_shl a1 (bend - 16);
         a2 ← load addr (o + 2); k2 ← shr32 a2 (24 - bend);
         Ret (Z.lor (Z.lor k0 k1) k2)
       else if 8 <? bend then
         k0 ← int_shl (Z.land a0 (m - 1)) (bend - 8);
         a1 ← load addr (o + 1); k1 ← shr32 a1 (16 - bend);
         Ret (Z.lor k0 k1)
       else
         k0 ← shr32 a0 (8 - bend);
         mb ← int_shl 1 bits;
         Ret (Z.land k0 (mb - 1)));
  h ← shr32 k (bits - plen);
  l ← int_shl 1 plen;
  Ret (u32 (h + l)).

(** ** Lookups *)

(** [art->art_levels[level]]. *)
Definition level_bits (level : Z) : AM Z := λ s, lift (load (art_levels (the_art s)) level) s.
Definition nlevels (s : rtable) : nat := Z.to_nat (art_nlevels (the_art s)).

Fixpoint match_loop (fuel : nat) (addr : list Z) (offset level heap dahe : Z) : AM Z :=
  match fuel with
  | O => fault OutOfFuel
  | S fuel =>
      bits ← level_bits level;
      let p := u32 (offset + bits) in
      ahe ← SMR_PTR_GET heap ART_HEAP_IDX_DEFAULT;
      let dahe := if negb (ahe =? 0) then ahe else dahe in
      j ← lift (art_bindex offset bits addr p);
      ahe ← SMR_PTR_GET heap j;
      if art_heap_entry_is_node ahe then
        let an := art_heap_entry_to_node ahe in
        if negb (an =? 0) then mret an else mret (art_heap_entry_to_node dahe)
      else
        n ← gets (λ s, art_nlevels (the_art s));
        lift (kassert "art_match" (level + 1 <? n));;
        match_loop fuel addr p (level + 1) (art_heap_entry_to_heap ahe) dahe
  end.

Definition art_match (addr : list Z) : AM Z :=
  heap ← gets (λ s, art_root (the_art s));
  if heap =? 0 then mret 0
  else n ← gets nlevels; match_loop n addr 0 0 heap 0.

(** [wan[i] != waddr[i]]: the words at [4 * i]. *)
Definition word (l : list Z) (i : Z) : outcome (list Z) := mem_read l (4 * i) 4.

Fixpoint check_words (fuel : nat) (an addr : list Z) (i plen : Z) : outcome (option (Z * Z)) :=
  match fuel with
  | O => Fault OutOfFuel
  | S fuel =>
      if 32 <=? plen then
        w ← word an i; w' ← word addr i;
        if negb (bool_decide (w = w')) then Ret None
        else check_words fuel an addr (i + 1) (plen - 32)
      else Ret (Some (i, plen))
  end.
Fixpoint check_bytes (fuel : nat) (an addr : list Z) (i plen : Z) : outcome (option (Z * Z)) :=
  match fuel with
  | O => Fault OutOfFuel
  | S fuel =>
      if 8 <=? plen then
        b ← load an i; b' ← load addr i;
        if negb (b =? b') then Ret None
        else check_bytes fuel an addr (i + 1) (plen - 8)
      else Ret (Some (i, plen))
  end.

Definition art_node_check (an : art_node) (addr : list Z) (plen : Z) : outcome bool :=
  if negb (an_plen an =? plen) then Ret false
  else
    bytes ← an_addr an;
    r ← check_words (S (Z.to_nat (plen / 32))) bytes addr 0 plen;
    match r with
    | None => Ret false
    | Some (i, plen) =>
        if plen =? 0 then Ret true
        else
          r ← check_bytes 4 bytes addr (i * 4) plen;
          match r with
          | None => Ret false
          | Some (i, plen) =>
              if plen =? 0 then Ret true
              else
                b ← load bytes i; b' ← load addr i;
                Ret (Z.shiftr b (8 - plen) =? Z.shiftr b' (8 - plen))
          end
    end.

(** [an != NULL && art_node_check(an, addr, plen)]. *)
Definition perfect (an : Z) (addr : list Z) (plen : Z) : AM bool :=
  if an =? 0 then mret false else x ← nd an; lift (art_node_check x addr plen).

Fixpoint lookup_loop (fuel : nat) (addr : list Z) (plen offset level heap : Z) : AM Z :=
  match fuel with
  | O => fault OutOfFuel
  | S fuel =>
      bits ← level_bits level;
      let p := u32 (offset + bits) in
      if plen <=? p then
        i ← lift (art_bindex offset bits addr plen);
        ahe ← SMR_PTR_GET heap i;
        ahe ← (if negb (art_heap_entry_is_node ahe)
               then SMR_PTR_GET (art_heap_entry_to_heap ahe) ART_HEAP_IDX_DEFAULT
               else mret ahe);
        let an := art_heap_entry_to_node ahe in
        ok ← perfect an addr plen;
        mret (if (ok : bool) then an else 0)
      else
        j ← lift (art_bindex offset bits addr p);
        ahe ← SMR_PTR_GET heap j;
        if art_heap_entry_is_node ahe then mret 0
        else
          n ← gets (λ s, art_nlevels (the_art s));
          lift (kassert "art_lookup" (level + 1 <? n));;
          lookup_loop fuel addr plen p (level + 1) (art_heap_entry_to_heap ahe)
  end.

Definition art_lookup (addr : list Z) (plen : Z) : AM Z :=
  alen ← gets (λ s, art_alen (the_art s));
  lift (kassert "art_lookup" (plen <=? alen));;
  heap ← gets (λ s, art_root (the_art s));
  if heap =? 0 then mret 0
  else if plen =? 0 then
    ahe ← SMR_PTR_GET heap ART_HEAP_IDX_DEFAULT; mret (art_heap_entry_to_node ahe)
  else n ← gets nlevels; lookup_loop n addr plen 0 0 heap.

Definition art_is_empty : AM bool := gets (λ s, art_root (the_art s) =? 0).

(** ** Tables: references, creation and deletion *)

Definition art_table_ref (at_ : Z) : AM Z :=
  upd_tb at_ (λ x, set_refcnt (u32 (at_refcnt x + 1)) x);; mret at_.

Definition art_table_rele (at_ : Z) : AM bool :=
  if at_ =? 0 then mret false
  else
    upd_tb at_ (λ x, set_refcnt (u32 (at_refcnt x - 1)) x);;
    x ← tb at_; mret (at_refcnt x =? 0).

Definition art_table_get (parent j : Z) : AM Z :=
  lift (kassert "art_table_get"
    (negb (j =? ART_HEAP_IDX_TABLE) && negb (j =? ART_HEAP_IDX_DEFAULT)));;
  lift (kassert "art_table_get" (negb (parent =? 0) || (j =? UINT_MAX)));;
  level ← (if negb (parent =? 0) then x ← tb parent; mret (u32 (at_level x + 1)) else mret 0);
  n ← gets (λ s, art_nlevels (the_art s));
  lift (kassert "art_table_get" (level <? n));;
  at_ ← at_pool_get;
  if at_ =? 0 then mret 0
  else
    bits ← level_bits level;
    heap ← (if bits =? 4 then at_heap_pool_get 4
            else if bits =? 8 then at_heap_pool_get 8
            else fault (Panic "art_table_get"));
    if heap =? 0 then at_pool_put at_;; mret 0
    else
      SMR_PTR_SET heap ART_HEAP_IDX_TABLE at_;;
      minfringe ← lift (int_shl 1 bits);
      upd_tb at_ (λ x, ArtTable heap parent j minfringe level bits (at_offset x) 0);;
      (if negb (parent =? 0) then
         x ← tb parent;
         upd_tb at_ (λ y, ArtTable (at_heap y) (at_parent y) (at_index y) (at_minfringe y)
           (at_level y) (at_bits y) (u32 (at_offset x + at_bits x)) (at_refcnt y));;
         ahe ← SMR_PTR_GET (at_heap x) j;
         SMR_PTR_SET heap ART_HEAP_IDX_DEFAULT ahe
       else mret ());;
      mret at_.

Definition art_table_put (at_ : Z) : AM Z :=
  x ← tb at_;
  let parent := at_parent x in
  let j := at_index x in
  lift (kassert "art_table_put" (at_refcnt x =? 0));;
  lift (kassert "art_table_put" (negb (j =? 0) && negb (j =? 1)));;
  (if negb (parent =? 0) then
     lift (kassert "art_table_put" (negb (j =? UINT_MAX)));;
     y ← tb parent;
     lift (kassert "art_table_put" (at_level x =? u32 (at_level y + 1)));;
     lift (kassert "art_table_put" (1 <=? at_refcnt y));;
     ahe ← SMR_PTR_GET (at_heap x) ART_HEAP_IDX_DEFAULT;
     SMR_PTR_SET (at_heap y) j ahe
   else
     lift (kassert "art_table_put" (j =? UINT_MAX));;
     lift (kassert "art_table_put" (at_level x =? 0));;
     modify (set_root 0));;
  gc ← gets art_table_gc_list;
  upd_tb at_ (set_parent gc);;
  modify (set_table_gc at_);;
  mret parent.

(** [do at = art_table_put(art, at); while (art_table_rele(at));] *)
Fixpoint free_loop (fuel : nat) (at_ : Z) : AM () :=
  match fuel with
  | O => fault OutOfFuel
  | S fuel =>
      at_ ← art_table_put at_;
      r ← art_table_rele at_;
      if (r : bool) then free_loop fuel at_ else mret ()
  end.

Definition art_table_free (at_ : Z) : AM Z :=
  r ← art_table_rele at_;
  if (r : bool) then n ← gets nlevels; free_loop n at_;; mret 1
  else mret 0.

(** The pools get the tables of the list [at_] back. *)
Fixpoint table_gc_loop (fuel : nat) (at_ : Z) : AM () :=
  match fuel with
  | O => fault OutOfFuel
  | S fuel =>
      if at_ =? 0 then mret ()
      else
        x ← tb at_;
        let next := at_parent x in
        (if (at_bits x =? 4) || (at_bits x =? 8) then at_heap_pool_put (at_heap x)
         else fault (Panic "art_table_gc"));;
        at_pool_put at_;;
        table_gc_loop fuel next
  end.

Definition art_table_gc : AM () :=
  at_ ← gets art_table_gc_list;
  modify (set_table_gc 0);;
  n ← gets (λ s, size (tables s));
  table_gc_loop (S n) at_.

(** ** Allotment *)

(** The labels of [art_allot]; [Fringe] is the loop over two fringe entries. *)
Inductive allot_pc := Again | Fringe | Nonfringe | Moveon | Moveup.

(** [ahep] and [ahe] for the entry [k] of a heap: the entry itself, or the
    default of the child table that hangs there. *)
Definition ahep (heap k : Z) : AM (Z * Z * Z) :=
  ahe ← SMR_PTR_GET heap k;
  if negb (art_heap_entry_is_node ahe) then
    let child := art_heap_entry_to_heap ahe in
    ahe ← SMR_PTR_GET child ART_HEAP_IDX_DEFAULT;
    mret (child, ART_HEAP_IDX_DEFAULT, ahe)
  else mret (heap, k, ahe).

Fixpoint allot_loop (fuel : nat) (pc : allot_pc) (heap minfringe i oahe nahe k : Z) : AM () :=
  match fuel with
  | O => fault OutOfFuel
  | S fuel =>
      let goto pc k := allot_loop fuel pc heap minfringe i oahe nahe k in
      match pc with
      | Again =>
          let k := u32 (Z.shiftl k 1) in
          if k <? minfringe then goto Nonfringe k else goto Fringe k
      | Fringe =>
          '(p, n, ahe) ← ahep heap k;
          (if ahe =? oahe then SMR_PTR_SET p n nahe else mret ());;
          if negb (k mod 2 =? 0) then goto Moveup k else goto Fringe (u32 (k + 1))
      | Nonfringe =>
          ahe ← SMR_PTR_GET heap k;
          if ahe =? oahe then goto Again k else goto Moveon k
      | Moveon => if negb (k mod 2 =? 0) then goto Moveup k else goto Nonfringe (u32 (k + 1))
      | Moveup =>
          let k := Z.shiftr k 1 in
          SMR_PTR_SET heap k nahe;;
          if negb (k =? i) then goto Moveon k else mret ()
      end
  end.

Definition art_allot (at_ i oahe nahe : Z) : AM () :=
  x ← tb at_;
  lift (kassert "art_allot" (i <? at_minfringe x));;
  allot_loop (16 * Z.to_nat (at_minfringe x)) Again (at_heap x) (at_minfringe x) i oahe nahe i.

(** A recursion through the subtree of the entry [k] that does [visit] at every entry:
    the shape of the recursion in the comment above [art_allot]. *)
Fixpoint allot_below (visit : Z → AM ()) (fuel : nat) (minfringe k : Z) : AM () :=
  match fuel with
  | O => fault OutOfFuel
  | S fuel =>
      visit k;;
      if minfringe <=? k then mret ()
      else
        allot_below visit fuel minfringe (Z.shiftl k 1);;
        allot_below visit fuel minfringe (Z.shiftl k 1 + 1)
  end.

(** What the comment has for an entry: it looks at the entry only.  The code goes on to
    the default of the child where one hangs there. *)
Definition visit_comment (heap old new k : Z) : AM () :=
  ahe ← SMR_PTR_GET heap k;
  if ahe =? old then SMR_PTR_SET heap k new else mret ().
Definition visit_code (heap old new k : Z) : AM () :=
  '(p, n, ahe) ← ahep heap k;
  if ahe =? old then SMR_PTR_SET p n new else mret ().

(** ** Insertion and deletion *)

(** The descent: [at] and [heap] at the end of the loop, or no memory. *)
Fixpoint insert_loop (fuel : nat) (addr : list Z) (plen at_ heap : Z) : AM (option (Z * Z)) :=
  match fuel with
  | O => fault OutOfFuel
  | S fuel =>
      x ← tb at_;
      let p := u32 (at_offset x + at_bits x) in
      if p <? plen then
        j ← lift (art_bindex (at_offset x) (at_bits x) addr p);
        ahe ← SMR_PTR_GET heap j;
        if art_heap_entry_is_node ahe then
          child ← art_table_get at_ j;
          if child =? 0 then mret None
          else
            _ ← art_table_ref at_;
            y ← tb child;
            let nheap := at_heap y in
            SMR_PTR_SET nheap ART_HEAP_IDX_DEFAULT ahe;;
            SMR_PTR_SET heap j (art_heap_to_heap_entry nheap);;
            insert_loop fuel addr plen child nheap
        else
          let heap := art_heap_entry_to_heap ahe in
          at_ ← art_heap_to_table heap;
          insert_loop fuel addr plen at_ heap
      else mret (Some (at_, heap))
  end.

(** The end of [art_insert], in the table that is to hold the node. *)
Definition insert_at (an : Z) (addr : list Z) (plen at_ heap : Z) : AM Z :=
  x ← tb at_;
  i ← lift (art_bindex (at_offset x) (at_bits x) addr plen);
  '(p, n, oahe) ← ahep heap i;
  let oan := art_heap_entry_to_node oahe in
  ok ← perfect oan addr plen;
  if (ok : bool) then mret oan
  else
    _ ← art_table_ref at_;
    let ahe := art_node_to_heap_entry an in
    (if i <? at_minfringe x then art_allot at_ i oahe ahe else SMR_PTR_SET p n ahe);;
    mret an.

Definition art_insert (an : Z) : AM Z :=
  x ← nd an;
  alen ← gets (λ s, art_alen (the_art s));
  lift (kassert "art_insert" (an_plen x <=? alen));;
  heap ← gets (λ s, art_root (the_art s));
  root ← (if heap =? 0 then
            at_ ← art_table_get 0 UINT_MAX;
            if at_ =? 0 then mret None
            else y ← tb at_; modify (set_root (at_heap y));; mret (Some (at_, at_heap y))
          else at_ ← art_heap_to_table heap; mret (Some (at_, heap)));
  match root with
  | None => mret 0
  | Some (at_, heap) =>
      if an_plen x =? 0 then
        oahe ← SMR_PTR_GET heap ART_HEAP_IDX_DEFAULT;
        let oan := art_heap_entry_to_node oahe in
        if negb (oan =? 0) then mret oan
        else
          _ ← art_table_ref at_;
          SMR_PTR_SET heap ART_HEAP_IDX_DEFAULT (art_node_to_heap_entry an);;
          mret an
      else
        addr ← lift (an_addr x);
        n ← gets nlevels;
        place ← insert_loop n addr (an_plen x) at_ heap;
        match place with
        | None => mret 0
        | Some (at_, heap) => insert_at an addr (an_plen x) at_ heap
        end
  end.

Fixpoint delete_loop (fuel : nat) (addr : list Z) (plen at_ heap : Z) : AM (option (Z * Z)) :=
  match fuel with
  | O => fault OutOfFuel
  | S fuel =>
      x ← tb at_;
      let p := u32 (at_offset x + at_bits x) in
      if p <? plen then
        j ← lift (art_bindex (at_offset x) (at_bits x) addr p);
        ahe ← SMR_PTR_GET heap j;
        if art_heap_entry_is_node ahe then mret None
        else
          let heap := art_heap_entry_to_heap ahe in
          at_ ← art_heap_to_table heap;
          delete_loop fuel addr plen at_ heap
      else mret (Some (at_, heap))
  end.

(** The end of [art_delete], in the table that holds the node. *)
Definition delete_at (addr : list Z) (plen at_ heap : Z) : AM Z :=
  x ← tb at_;
  i ← lift (art_bindex (at_offset x) (at_bits x) addr plen);
  '(p, n, ahe) ← ahep heap i;
  let an := art_heap_entry_to_node ahe in
  if an =? 0 then mret 0
  else
    let j := Z.shiftr i 1 in
    pahe ← (if 1 <? j then SMR_PTR_GET heap j else mret 0);
    (if i <? at_minfringe x then art_allot at_ i ahe pahe else SMR_PTR_SET p n pahe);;
    _ ← art_table_free at_;
    mret an.

Definition art_delete (addr : list Z) (plen : Z) : AM Z :=
  alen ← gets (λ s, art_alen (the_art s));
  lift (kassert "art_delete" (plen <=? alen));;
  heap ← gets (λ s, art_root (the_art s));
  if heap =? 0 then mret 0
  else
    at_ ← art_heap_to_table heap;
    if plen =? 0 then
      ahe ← SMR_PTR_GET heap ART_HEAP_IDX_DEFAULT;
      let an := art_heap_entry_to_node ahe in
      if an =? 0 then mret 0
      else
        SMR_PTR_SET heap ART_HEAP_IDX_DEFAULT 0;;
        _ ← art_table_free at_;
        mret an
    else
      n ← gets nlevels;
      place ← delete_loop n addr plen at_ heap;
      match place with
      | None => mret 0
      | Some (at_, heap) => delete_at addr plen at_ heap
      end.

(** ** Iteration *)

Definition art_iter_descend (heap pahe : Z) : AM (Z * art_iter) :=
  at_ ← art_heap_to_table heap;
  at_ ← art_table_ref at_;
  let ai := ArtIter at_ 1 2 in
  ahe ← SMR_PTR_GET heap ART_HEAP_IDX_DEFAULT;
  if negb (ahe =? 0) && negb (ahe =? pahe)
  then mret (art_heap_entry_to_node ahe, ai)
  else mret (0, ai).

(** The labels of [art_iter_next]: [descend], and its two loops. *)
Inductive iter_pc := IDescend | INonfringe | IFringe.

(** [at] and [heap] are those of [ai_table] at each label. *)
Fixpoint iter_loop (fuel : nat) (pc : iter_pc) (ai : art_iter) : AM (Z * art_iter) :=
  match fuel with
  | O => fault OutOfFuel
  | S fuel =>
      x ← tb (ai_table ai);
      let heap := at_heap x in
      let i := ai_i ai in
      match pc with
      | IDescend =>
          if ai_j ai <? at_minfringe x then iter_loop fuel INonfringe ai
          else iter_loop fuel IFringe ai
      | INonfringe =>
          if i <? at_minfringe x then
            let ai := ArtIter (ai_table ai) (ai_j ai) (u32 (Z.shiftl i 1)) in
            pahe ← SMR_PTR_GET heap (Z.shiftr i 1);
            ahe ← SMR_PTR_GET heap i;
            if negb (ahe =? 0) && negb (ahe =? pahe)
            then mret (art_heap_entry_to_node ahe, ai)
            else iter_loop fuel INonfringe ai
          else
            let j := u32 (ai_j ai + 2) in
            if j <? at_minfringe x then iter_loop fuel INonfringe (ArtIter (ai_table ai) j j)
            else iter_loop fuel IFringe (ArtIter (ai_table ai) j (at_minfringe x))
      | IFringe =>
          let maxfringe := u32 (Z.shiftl (at_minfringe x) 1) in
          if i <? maxfringe then
            let ai := ArtIter (ai_table ai) (ai_j ai) (u32 (i + 1)) in
            pahe ← SMR_PTR_GET heap (Z.shiftr i 1);
            ahe ← SMR_PTR_GET heap i;
            if art_heap_entry_is_node ahe then
              if negb (ahe =? 0) && negb (ahe =? pahe)
              then mret (art_heap_entry_to_node ahe, ai)
              else iter_loop fuel IFringe ai
            else
              '(an, ai) ← art_iter_descend (art_heap_entry_to_heap ahe) pahe;
              if negb (an =? 0) then mret (an, ai) else iter_loop fuel IDescend ai
          else
            let parent := at_parent x in
            let i := u32 (at_index x + 1) in
            _ ← art_table_free (ai_table ai);
            if parent =? 0 then mret (0, ArtIter 0 (ai_j ai) i)
            else y ← tb parent; iter_loop fuel IFringe (ArtIter parent (at_minfringe y) i)
      end
  end.

Definition art_iter_next (ai : art_iter) : AM (Z * art_iter) :=
  n ← gets (λ s, size (tables s));
  iter_loop (Z.to_nat (10000 * Z.of_nat n)) IDescend ai.

(** An iterator that was never set: only [ai_table] is set when there is no table. *)
Definition art_iter_open (ai : art_iter) : AM (Z * art_iter) :=
  heap ← gets (λ s, art_root (the_art s));
  if heap =? 0 then mret (0, ArtIter 0 (ai_j ai) (ai_i ai))
  else
    '(an, ai) ← art_iter_descend heap 0;
    if negb (an =? 0) then mret (an, ai) else art_iter_next ai.

Fixpoint close_loop (fuel : nat) (at_ : Z) : AM () :=
  match fuel with
  | O => fault OutOfFuel
  | S fuel =>
      if at_ =? 0 then mret ()
      else
        x ← tb at_;
        let parent := at_parent x in
        _ ← art_table_free at_;
        close_loop fuel parent
  end.

Definition art_iter_close (ai : art_iter) : AM art_iter :=
  n ← gets nlevels;
  close_loop (S n) (ai_table ai);;
  mret (ArtIter 0 (ai_j ai) (ai_i ai)).

(** [art_walk] for a callback that works on its own data [arg] of type [U] and
    leaves the table alone; it gives the error and the data. *)
Fixpoint walk_loop {U} (fuel : nat) (f : Z → U → Z * U) (an : Z) (ai : art_iter) (arg : U) :
    AM (Z * U) :=
  match fuel with
  | O => fault OutOfFuel
  | S fuel =>
      if an =? 0 then mret (0, arg)
      else
        let '(error, arg) := f an arg in
        if negb (error =? 0) then _ ← art_iter_close ai; mret (error, arg)
        else '(an, ai) ← art_iter_next ai; walk_loop fuel f an ai arg
  end.

Definition art_walk {U} (f : Z → U → Z * U) (arg : U) : AM (Z * U) :=
  '(an, ai) ← art_iter_open (ArtIter 0 0 0);
  n ← gets (λ s, size (nodes s));
  walk_loop (S n) f an ai arg.

(** ** Nodes *)

Definition roundup (x y : Z) : Z := (x + (y - 1)) / y * y.

Definition art_node_init (an : Z) (addr : list Z) (plen : Z) : AM () :=
  let len := roundup plen 8 / 8 in
  lift (kassert "art_node_init" (len <=? 16));;
  x ← nd an;
  bytes ← lift (an_addr x);
  d ← lift (mem_read addr 0 len);
  bytes ← lift (mem_write bytes 0 d);
  upd_nd an (λ x, ArtNode (an_value x) (an__addr bytes) plen).

Definition art_get (addr : list Z) (plen : Z) : AM Z :=
  an ← an_pool_get;
  if an =? 0 then mret 0 else art_node_init an addr plen;; mret an.

Definition art_put (an : Z) : AM () :=
  gc ← gets art_node_gc_list;
  upd_nd an (λ x, ArtNode (an_value x) (an__gc gc) (an_plen x));;
  modify (set_node_gc an).

Fixpoint node_gc_loop (fuel : nat) (an : Z) : AM () :=
  match fuel with
  | O => fault OutOfFuel
  | S fuel =>
      if an =? 0 then mret ()
      else
        x ← nd an;
        next ← lift (an_gc x);
        an_pool_put an;;
        node_gc_loop fuel next
  end.

Definition art_gc : AM () :=
  an ← gets art_node_gc_list;
  modify (set_node_gc 0);;
  n ← gets (λ s, size (nodes s));
  node_gc_loop (S n) an.
