(* ===== verification/ArtTable.v ===== *)
(** What one table of [Art] computes, away from the memory: prefixes as bit
    strings and the index of a prefix in a table, [art_bindex] and
    [art_node_check] against them, the heap entries as tagged words, and the
    best route of a table for a bit string, with what insertion and deletion of
    a route change of it. *)

From S2P Require Import Prelude StateMonad Art.

(** ** Bit strings *)

(** The bits of an address, the most significant first. *)
Definition byte_bits (b : Z) : list bool := (λ i, Z.testbit b (7 - i)) <$> seqZ 0 8.
Definition abits (addr : list Z) : list bool := addr ≫= byte_bits.

(** The first [plen] bits. *)
Definition pbits (addr : list Z) (plen : Z) : list bool := take (Z.to_nat plen) (abits addr).

(** The number a bit string is, and its index in a table: with a leading 1. *)
Definition bnum (r : list bool) : Z := fold_left (λ a b, 2 * a + Z.b2z b) r 0.
Definition idx (r : list bool) : Z := fold_left (λ a b, 2 * a + Z.b2z b) r 1.

Lemma length_abits addr : length (abits addr) = (8 * length addr)%nat.
Proof.
  induction addr as [|b l IH]; [done|]. change (abits (b :: l)) with (byte_bits b ++ abits l).
  rewrite length_app, IH. change (length (byte_bits b)) with 8%nat. cbn [length]. lia.
Qed.

Lemma byte_bits_lookup b i :
  (i < 8)%nat → byte_bits b !! i = Some (Z.testbit b (7 - Z.of_nat i)).
Proof. intros Hi. do 8 (destruct i as [|i]; [reflexivity|]). lia. Qed.

Lemma abits_lookup addr i :
  (i < 8 * length addr)%nat →
  abits addr !! i = Some (Z.testbit (zth addr (Z.of_nat i / 8)) (7 - Z.of_nat i mod 8)).
Proof.
  revert i. induction addr as [|b l IH]; intros i Hi; cbn [length] in Hi; [lia|].
  change (abits (b :: l)) with (byte_bits b ++ abits l). destruct (decide (i < 8)%nat) as [H|H].
  - rewrite lookup_app_l by (change (length (byte_bits b)) with 8%nat; lia). rewrite byte_bits_lookup by done.
    rewrite Z.div_small, Z.mod_small by lia. done.
  - rewrite lookup_app_r by (change (length (byte_bits b)) with 8%nat; lia). change (length (byte_bits b)) with 8%nat.
    rewrite IH by lia. f_equal.
    replace (Z.of_nat i) with (Z.of_nat (i - 8) + 1 * 8) by lia.
    rewrite Z.div_add, Z.mod_add by lia. f_equal. unfold zth.
    replace (Z.to_nat (Z.of_nat (i - 8) / 8 + 1)) with (S (Z.to_nat (Z.of_nat (i - 8) / 8))) by zmod.
    done.
Qed.

Lemma bnum_snoc r b : bnum (r ++ [b]) = 2 * bnum r + Z.b2z b.
Proof. unfold bnum. by rewrite fold_left_app. Qed.
Lemma idx_snoc r b : idx (r ++ [b]) = 2 * idx r + Z.b2z b.
Proof. unfold idx. by rewrite fold_left_app. Qed.

Lemma idx_bnum r : idx r = 2 ^ Z.of_nat (length r) + bnum r.
Proof.
  induction r as [|b r IH] using rev_ind; [done|]. rewrite idx_snoc, bnum_snoc, IH, length_app. cbn.
  replace (Z.of_nat (length r + 1)) with (Z.of_nat (length r) + 1) by lia.
  rewrite Z.pow_add_r by lia. lia.
Qed.

Lemma bnum_range r : 0 ≤ bnum r < 2 ^ Z.of_nat (length r).
Proof.
  induction r as [|b r IH] using rev_ind; [done|]. rewrite bnum_snoc, length_app. cbn.
  replace (Z.of_nat (length r + 1)) with (Z.of_nat (length r) + 1) by lia.
  rewrite Z.pow_add_r by lia. destruct b; cbn; lia.
Qed.

Lemma idx_between r : 2 ^ Z.of_nat (length r) ≤ idx r < 2 ^ (Z.of_nat (length r) + 1).
Proof. pose proof (bnum_range r). rewrite idx_bnum, Z.pow_add_r by lia. lia. Qed.

Lemma idx_pos r : 1 ≤ idx r.
Proof. pose proof (idx_between r). pose proof (Z.pow_pos_nonneg 2 (Z.of_nat (length r))). lia. Qed.

Lemma idx_ge2 r : r ≠ [] → 2 ≤ idx r.
Proof.
  destruct r as [|b r] using rev_ind; [done|]. intros _. rewrite idx_snoc.
  pose proof (idx_pos r). destruct b; cbn; lia.
Qed.

Lemma idx_inj r r' : idx r = idx r' → r = r'.
Proof.
  revert r'. induction r as [|b r IH] using rev_ind; intros r'.
  - destruct r' as [|b' r' _] using rev_ind; [done|]. rewrite idx_snoc. pose proof (idx_pos r').
    cbn. destruct b'; cbn; lia.
  - destruct r' as [|b' r' _] using rev_ind.
    { rewrite idx_snoc. pose proof (idx_pos r). cbn. destruct b; cbn; lia. }
    rewrite !idx_snoc. intros E. destruct b, b'; cbn in E; f_equal; (apply IH; lia) || lia.
Qed.

Lemma idx_lt_length r n : idx r < 2 ^ Z.of_nat n ↔ (length r < n)%nat.
Proof.
  pose proof (idx_between r) as [Hl Hu]. split; intros H.
  - destruct (decide (length r < n)%nat); [done|].
    pose proof (Z.pow_le_mono_r 2 (Z.of_nat n) (Z.of_nat (length r))). lia.
  - pose proof (Z.pow_le_mono_r 2 (Z.of_nat (length r) + 1) (Z.of_nat n)). lia.
Qed.

(** Every index is that of a bit string. *)
Lemma idx_surj k : 1 ≤ k → ∃ r, idx r = k.
Proof.
  intros Hk. remember (Z.to_nat k) as n eqn:Hn. revert k Hk Hn.
  induction (Wf_nat.lt_wf n) as [n _ IH]. intros k Hk ->. destruct (decide (k = 1)) as [->|H1].
  { by exists []. }
  destruct (IH (Z.to_nat (k / 2)) ltac:(zmod) (k / 2) ltac:(zmod) eq_refl) as (r & Hr).
  exists (r ++ [k mod 2 =? 1]). rewrite idx_snoc, Hr. destruct (Z.eqb_spec (k mod 2) 1); cbn; zmod.
Qed.

Lemma idx_half r b : Z.shiftr (idx (r ++ [b])) 1 = idx r.
Proof. rewrite idx_snoc, Z.shiftr_div_pow2 by lia. change (2 ^ 1) with 2. destruct b; cbn; zmod. Qed.
Lemma idx_mod r b : idx (r ++ [b]) mod 2 = Z.b2z b.
Proof. rewrite idx_snoc. destruct b; cbn; zmod. Qed.
Lemma idx_double r : Z.shiftl (idx r) 1 = idx (r ++ [false]).
Proof. rewrite idx_snoc, Z.shiftl_mul_pow2 by lia. cbn. lia. Qed.
Lemma idx_sibling r : idx (r ++ [false]) + 1 = idx (r ++ [true]).
Proof. rewrite !idx_snoc. cbn. lia. Qed.

(** *** The bits of a number *)

Lemma bnum_testbit r i :
  0 ≤ i → Z.testbit (bnum r) i =
    if bool_decide (i < Z.of_nat (length r))
    then default false (r !! (length r - 1 - Z.to_nat i)%nat) else false.
Proof.
  revert i. induction r as [|b r IH] using rev_ind; intros i Hi.
  { rewrite bool_decide_false by (cbn; lia). apply Z.bits_0. }
  rewrite bnum_snoc, length_app. cbn [length]. destruct (decide (i = 0)) as [->|H0].
  - rewrite bool_decide_true by lia.
    rewrite lookup_app_r by lia. replace (_ - _)%nat with 0%nat by lia. cbn.
    rewrite Z.bit0_odd, Z.add_comm, Z.odd_add_mul_2. by destruct b.
  - replace (Z.testbit (2 * bnum r + Z.b2z b) i) with (Z.testbit (bnum r) (i - 1)).
    2: { replace i with (Z.succ (i - 1)) at 2 by lia.
         destruct b; cbn [Z.b2z];
           [by rewrite Z.testbit_odd_succ by lia|by rewrite Z.add_0_r, Z.testbit_even_succ by lia]. }
    rewrite IH by lia. destruct (decide (i - 1 < Z.of_nat (length r))).
    + rewrite !bool_decide_true by lia. rewrite lookup_app_l by lia. do 2 f_equal. lia.
    + by rewrite !bool_decide_false by lia.
Qed.

Lemma bnum_take r n :
  (n ≤ length r)%nat → Z.shiftr (bnum r) (Z.of_nat (length r - n)) = bnum (take n r).
Proof.
  intros Hn. apply Z.bits_inj'. intros i Hi. rewrite Z.shiftr_spec, !bnum_testbit by lia.
  rewrite length_take, Nat.min_l by done. destruct (decide (i < Z.of_nat n)).
  - rewrite !bool_decide_true by lia. rewrite lookup_take_lt by lia. do 2 f_equal. lia.
  - by rewrite !bool_decide_false by lia.
Qed.

(** ** [art_bindex] *)

Definition bytes (l : list Z) : Prop := Forall is_u8 l.

Lemma bytes_zth l i : bytes l → 0 ≤ zth l i < 2 ^ 8.
Proof. intros Hl. apply (zth_Forall is_u8); [by unfold is_u8|done]. Qed.

(** The relative prefix that a table at [offset] sees of [plen] bits. *)
Definition rel (addr : list Z) (offset plen : Z) : list bool :=
  take (Z.to_nat (plen - offset)) (drop (Z.to_nat offset) (abits addr)).

Lemma rel_length addr offset plen :
  0 ≤ offset ≤ plen → plen ≤ 8 * Z.of_nat (length addr) →
  length (rel addr offset plen) = Z.to_nat (plen - offset).
Proof. intros. unfold rel. rewrite length_take, length_drop, length_abits. lia. Qed.

Lemma rel_testbit addr offset bits i :
  0 ≤ offset → 0 ≤ i < bits → offset + bits ≤ 8 * Z.of_nat (length addr) →
  Z.testbit (bnum (rel addr offset (offset + bits))) i =
    Z.testbit (zth addr ((offset + bits - 1 - i) / 8)) (7 - (offset + bits - 1 - i) mod 8).
Proof.
  intros Ho Hi Hl. rewrite bnum_testbit, rel_length, bool_decide_true by lia.
  unfold rel. rewrite lookup_take_lt, lookup_drop by lia.
  replace (_ + _)%nat with (Z.to_nat (offset + bits - 1 - i)) by lia.
  rewrite abits_lookup, Z2Nat.id by lia. done.
Qed.

(** One byte of an address, shifted into a word. *)
Lemma byte_bit x s i :
  0 ≤ x < 2 ^ 8 → 0 ≤ i →
  Z.testbit (Z.shiftl x s) i = if bool_decide (s ≤ i < s + 8) then Z.testbit x (i - s) else false.
Proof.
  intros Hx Hi. rewrite Z.shiftl_spec by done. case_bool_decide; [done|].
  destruct (decide (i < s)); [by rewrite Z.testbit_neg_r by lia|]. apply (testbit_above 8); lia.
Qed.

Lemma masked_bit x m i :
  0 ≤ m → Z.testbit (Z.land x (2 ^ m - 1)) i = if bool_decide (i < m) then Z.testbit x i else false.
Proof.
  intros Hm. destruct (decide (0 ≤ i)) as [Hi|Hi].
  - rewrite Z.land_spec, testbit_pow2m1 by done. case_bool_decide; [by rewrite andb_true_r|by rewrite andb_false_r].
  - rewrite !Z.testbit_neg_r by lia. by case_bool_decide.
Qed.

Lemma masked_lt x m : 0 ≤ m → 0 ≤ Z.land x (2 ^ m - 1) < 2 ^ m.
Proof.
  intros Hm. apply bits_bounded; [lia|]. intros i Hi. rewrite masked_bit by lia.
  by rewrite bool_decide_false by lia.
Qed.

Lemma masked_range x m : 0 ≤ m ≤ 8 → 0 ≤ Z.land x (2 ^ m - 1) < 2 ^ 8.
Proof.
  intros Hm. pose proof (masked_lt x m). pose proof (Z.pow_le_mono_r 2 m 8). lia.
Qed.

(** A byte of the address at bit [i] of the word, when it is the [c]th from [o] on. *)
Lemma rel_byte addr o boff bits c i :
  0 ≤ o → 0 ≤ boff < 8 → 0 ≤ i < bits → 0 ≤ c → 8 * o + boff + bits ≤ 8 * Z.of_nat (length addr) →
  bits + boff - 8 * (c + 1) ≤ i < bits + boff - 8 * c →
  Z.testbit (bnum (rel addr (8 * o + boff) (8 * o + boff + bits))) i =
    Z.testbit (zth addr (o + c)) (i - (bits + boff - 8 * (c + 1))).
Proof.
  intros Ho Hb Hi Hc Hl Hr. rewrite rel_testbit by lia. f_equal; [f_equal|]; zmod.
Qed.

Lemma int_shl_Ret x n :
  0 ≤ n < 32 → 0 ≤ x → x * 2 ^ n < 2 ^ 31 → int_shl x n = Ret (Z.shiftl x n).
Proof.
  intros Hn Hx Hb. unfold int_shl. rewrite bool_decide_true by done. apply int_Ret.
  rewrite Z.shiftl_mul_pow2 by lia. unfold is_i32. pose proof (Z.pow_pos_nonneg 2 n). nia.
Qed.
Lemma rshift_Ret x n : 0 ≤ n < 32 → shr32 x n = Ret (Z.shiftr x n).
Proof. intros. unfold shr32. by rewrite bool_decide_true. Qed.


Lemma shl_fits x m n : 0 ≤ x < 2 ^ m → 0 ≤ n < 32 → 0 ≤ m → n + m ≤ 31 → int_shl x n = Ret (Z.shiftl x n).
Proof.
  intros Hx Hn Hm Hs. apply int_shl_Ret; [lia..|].
  pose proof (Z.pow_le_mono_r 2 (n + m) 31 ltac:(lia) ltac:(lia)).
  pose proof (Z.pow_pos_nonneg 2 n). rewrite Z.pow_add_r in * by lia. nia.
Qed.

(** The word [k] that [art_bindex] collects holds the bits that the table covers. *)
Definition collects (addr : list Z) (o boff bits k : Z) : Prop :=
  k = bnum (rel addr (8 * o + boff) (8 * o + boff + bits)).

Lemma collects_intro addr o boff bits k :
  0 ≤ o → 0 ≤ boff < 8 → 0 < bits → 8 * o + boff + bits ≤ 8 * Z.of_nat (length addr) →
  (∀ c i, 0 ≤ c → 0 ≤ i < bits → bits + boff - 8 * (c + 1) ≤ i < bits + boff - 8 * c →
    Z.testbit k i = Z.testbit (zth addr (o + c)) (i - (bits + boff - 8 * (c + 1)))) →
  (∀ i, bits ≤ i → Z.testbit k i = false) →
  collects addr o boff bits k.
Proof.
  intros Ho Hb Hn Hl Hlow Hhigh. apply Z.bits_inj'. intros i Hi.
  destruct (decide (i < bits)).
  - rewrite (Hlow ((bits + boff - 1 - i) / 8)) by zmod. rewrite <-rel_byte by zmod. done.
  - rewrite Hhigh by lia. rewrite bnum_testbit, bool_decide_false by
      (rewrite ?rel_length by lia; lia). done.
Qed.

Ltac byte_bits_tac :=
  rewrite ?Z.lor_spec, ?byte_bit by first [lia | apply bytes_zth; assumption | apply masked_range; lia];
  repeat (case_bool_decide; try lia);
  rewrite ?masked_bit, ?orb_false_r, ?orb_false_l by lia;
  repeat (case_bool_decide; try lia).

Lemma bindex_word addr o boff bits :
  bytes addr → 0 ≤ o → 0 ≤ boff < 8 → 0 < bits ≤ 30 → bits + boff ≤ 32 →
  8 * o + boff + bits ≤ 8 * Z.of_nat (length addr) →
  collects addr o boff bits
    (if 24 <? bits + boff then
       Z.lor (Z.lor (Z.lor (Z.shiftl (Z.land (zth addr o) (2 ^ (8 - boff) - 1)) (bits + boff - 8))
         (Z.shiftl (zth addr (o + 1)) (bits + boff - 16)))
         (Z.shiftl (zth addr (o + 2)) (bits + boff - 24)))
         (Z.shiftl (zth addr (o + 3)) (bits + boff - 32))
     else if 16 <? bits + boff then
       Z.lor (Z.lor (Z.shiftl (Z.land (zth addr o) (2 ^ (8 - boff) - 1)) (bits + boff - 8))
         (Z.shiftl (zth addr (o + 1)) (bits + boff - 16)))
         (Z.shiftl (zth addr (o + 2)) (bits + boff - 24))
     else if 8 <? bits + boff then
       Z.lor (Z.shiftl (Z.land (zth addr o) (2 ^ (8 - boff) - 1)) (bits + boff - 8))
         (Z.shiftl (zth addr (o + 1)) (bits + boff - 16))
     else Z.land (Z.shiftl (zth addr o) (bits + boff - 8)) (2 ^ bits - 1)).
Proof.
  intros Hby Ho Hb Hn Hbend Hl. apply collects_intro; try lia.
  - intros c i Hc Hi Hr. assert (c = 0 ∨ c = 1 ∨ c = 2 ∨ c = 3) as Hc4 by lia.
    repeat case_match; destruct Hc4 as [-> | [-> | [-> | ->]]]; try lia; rewrite ?Z.add_0_r.
    all: rewrite ?masked_bit by lia; byte_bits_tac.
    all: try (f_equal; lia).
  - intros i Hi. repeat case_match; rewrite ?masked_bit by lia; byte_bits_tac; done.
Qed.

(** The single-level base index is the index of the prefix that the table sees. *)
Lemma art_bindex_rel offset bits addr plen :
  bytes addr → 0 ≤ offset ≤ plen → plen ≤ offset + bits → 0 < bits ≤ 30 →
  bits + offset mod 8 ≤ 32 → offset + bits ≤ 8 * Z.of_nat (length addr) → offset + bits < M32 →
  art_bindex offset bits addr plen = Ret (idx (rel addr offset plen)).
Proof.
  intros Hby Ho Hp Hn Hbend Hl H32. set (o := offset / 8). set (boff := offset mod 8).
  assert (0 ≤ boff < 8) as Hb by (subst boff; zmod).
  assert (offset = 8 * o + boff) as Hoff by (subst o boff; zmod). assert (0 ≤ o) by (subst o; zmod).
  pose proof (bindex_word addr o boff bits Hby ltac:(lia) Hb Hn Hbend ltac:(lia)) as Hk.
  assert (∀ m, 0 ≤ m → Z.shiftl 1 m = 2 ^ m) as H1 by (intros; by rewrite Z.shiftl_mul_pow2, Z.mul_1_l).
  assert (∀ x n, Z.shiftr x n = Z.shiftl x (- n)) as Hsr by (intros; by rewrite Z.shiftl_opp_r).
  unfold art_bindex. rewrite !u32_small by (unfold is_u32; subst boff; zmod).
  rewrite (proj2 (Z.leb_le offset _)), (proj2 (Z.leb_le plen _)), (proj2 (Z.leb_le _ 32)) by lia.
  cbn [kassert]. rewrite !bind_Ret_l. cbv zeta. fold o boff. fold boff in Hbend. clearbody o boff.
  rewrite (load_zth addr o), bind_Ret_l by lia.
  rewrite (shl_fits 1 1 (8 - boff)) by (change (2 ^ 1) with 2; lia). rewrite bind_Ret_l, H1 by lia.
  match goal with |- (?m ≫= _) = _ => assert (m = Ret (bnum (rel addr (8 * o + boff) (8 * o + boff + bits)))) as -> end.
  { rewrite <-Hk. clear Hk. repeat case_match; try lia.
    all: repeat first
      [ rewrite bind_Ret_l
      | rewrite (shl_fits (Z.land _ _) (8 - boff)) by (apply masked_lt || idtac; lia)
      | rewrite (load_zth addr (o + 1)) by lia | rewrite (load_zth addr (o + 2)) by lia
      | rewrite (load_zth addr (o + 3)) by lia
      | rewrite (shl_fits (zth _ _) 8) by (apply bytes_zth || idtac; done || lia)
      | rewrite rshift_Ret by lia
      | rewrite (shl_fits 1 1) by (change (2 ^ 1) with 2; lia) ].
    all: rewrite ?Hsr, ?H1 by lia; repeat f_equal; lia. }
  rewrite bind_Ret_l, rshift_Ret, bind_Ret_l by lia.
  rewrite (shl_fits 1 1) by (change (2 ^ 1) with 2; lia). rewrite bind_Ret_l, H1 by lia.
  set (r := rel addr (8 * o + boff) (8 * o + boff + bits)).
  assert (length r = Z.to_nat bits) as Hr by (subst r; rewrite rel_length by lia; lia).
  assert (rel addr offset plen = take (Z.to_nat (plen - offset)) r) as ->.
  { subst r. unfold rel. rewrite take_take, <-Hoff. f_equal. lia. }
  rewrite idx_bnum, <-bnum_take, length_take by lia.
  replace (Z.of_nat (length r - Z.to_nat (plen - offset))) with (bits - (plen - offset)) by lia.
  replace (Z.of_nat (_ `min` _)) with (plen - offset) by lia.
  f_equal. rewrite Z.add_comm. apply u32_small.
  pose proof (Z.pow_pos_nonneg 2 (plen - offset)). pose proof (bnum_range r) as Hbr.
  pose proof (shiftr_bound (Z.of_nat (length r)) _ (bits - (plen - offset)) ltac:(lia) Hbr) as Hs.
  pose proof (Z.pow_le_mono_r 2 (plen - offset) 30 ltac:(lia) ltac:(lia)).
  pose proof (Z.pow_le_mono_r 2 (Z.of_nat (length r)) 30 ltac:(lia) ltac:(lia)).
  unfold is_u32. change (2 ^ 30) with 1073741824 in *. lia.
Qed.

(** ** [art_node_check] *)

Lemma take_agree {A} (l l' : list A) n m :
  (n ≤ length l)%nat → (n ≤ length l')%nat →
  take (n + m) l = take (n + m) l' ↔ take n l = take n l' ∧ take m (drop n l) = take m (drop n l').
Proof.
  intros Hl Hl'. rewrite <-!take_take_drop. split; [|by intros [-> ->]].
  intros H. apply app_inj_1 in H; [done|]. rewrite !length_take. lia.
Qed.

Lemma bnum_byte b : is_u8 b → bnum (byte_bits b) = b.
Proof.
  intros Hb. apply (word_eq 8); [apply (bnum_range (byte_bits b))|exact Hb|]. intros i Hi.
  rewrite bnum_testbit by lia. change (length (byte_bits b)) with 8%nat. rewrite bool_decide_true by lia.
  rewrite byte_bits_lookup by lia. cbn. f_equal. lia.
Qed.

Lemma bnum_inj r r' : length r = length r' → bnum r = bnum r' → r = r'.
Proof. intros Hl Hb. apply idx_inj. by rewrite !idx_bnum, Hl, Hb. Qed.

(** The leading bits of two bytes. *)
Lemma byte_prefix b b' n :
  is_u8 b → is_u8 b' → (n ≤ 8)%nat →
  Z.shiftr b (8 - Z.of_nat n) = Z.shiftr b' (8 - Z.of_nat n) ↔
  take n (byte_bits b) = take n (byte_bits b').
Proof.
  intros Hb Hb' Hn. replace (8 - Z.of_nat n) with (Z.of_nat (8 - n)) by lia.
  rewrite <-(bnum_byte b Hb), <-(bnum_byte b' Hb') at 1.
  pose proof (bnum_take (byte_bits b) n Hn) as E. pose proof (bnum_take (byte_bits b') n Hn) as E'.
  change (length (byte_bits b)) with 8%nat in E. change (length (byte_bits b')) with 8%nat in E'.
  rewrite E, E'. split; [|by intros ->]. apply bnum_inj. by rewrite !length_take.
Qed.

Lemma abits_cons b l : abits (b :: l) = byte_bits b ++ abits l.
Proof. done. Qed.
Lemma abits_app l l' : abits (l ++ l') = abits l ++ abits l'.
Proof. apply bind_app. Qed.

Lemma abits_drop n l : drop (8 * n) (abits l) = abits (drop n l).
Proof.
  revert l. induction n as [|n IH]; intros l; [by rewrite Nat.mul_0_r, !drop_0|].
  destruct l as [|b l]; [by rewrite !drop_nil|]. rewrite abits_cons. cbn [drop].
  rewrite drop_app_ge by (change (length (byte_bits b)) with 8%nat; lia).
  change (length (byte_bits b)) with 8%nat. rewrite <-IH. f_equal. lia.
Qed.
Lemma abits_take n l : take (8 * n) (abits l) = abits (take n l).
Proof.
  revert l. induction n as [|n IH]; intros l; [by rewrite Nat.mul_0_r, !take_0|].
  destruct l as [|b l]; [by rewrite !take_nil|]. rewrite abits_cons. cbn [take]. rewrite abits_cons.
  rewrite take_app_ge by (change (length (byte_bits b)) with 8%nat; lia).
  change (length (byte_bits b)) with 8%nat. rewrite <-IH. do 2 f_equal. lia.
Qed.

Lemma abits_inj l l' : bytes l → bytes l' → length l = length l' → abits l = abits l' → l = l'.
Proof.
  revert l'. induction l as [|b l IH]; intros [|b' l'] Hl Hl' Hn; try done.
  rewrite !abits_cons. apply Forall_cons in Hl as [Hb Hl]. apply Forall_cons in Hl' as [Hb' Hl'].
  intros H. apply app_inj_1 in H as [H1 H2]; [|done].
  f_equal; [by rewrite <-(bnum_byte b), H1, bnum_byte|]. apply IH; [done..| |done]. by injection Hn.
Qed.

Section node_check.
Variables (A addr : list Z).
Hypotheses (HA : bytes A) (Haddr : bytes addr).

(** The bits from [8 * i] on, [n] of them, are the same in both. *)
Definition agree (i n : Z) : Prop :=
  take (Z.to_nat n) (drop (8 * Z.to_nat i) (abits A)) =
  take (Z.to_nat n) (drop (8 * Z.to_nat i) (abits addr)).

#[local] Instance agree_dec i n : Decision (agree i n).
Proof. unfold agree. apply _. Defined.

Definition fits (i n : Z) : Prop :=
  0 ≤ i ∧ 0 ≤ n ∧ 8 * i + n ≤ 8 * Z.of_nat (length A) ∧ 8 * i + n ≤ 8 * Z.of_nat (length addr).

Lemma agree_add i n m :
  0 ≤ i → 0 ≤ n → 0 ≤ m → fits i (8 * n + m) →
  agree i (8 * n + m) ↔ agree i (8 * n) ∧ agree (i + n) m.
Proof.
  intros Hi Hn Hm (_ & _ & H1 & H2). unfold agree. rewrite Z2Nat.inj_add by lia.
  rewrite take_agree by (rewrite length_drop, length_abits; lia). rewrite !drop_drop.
  replace (8 * Z.to_nat i + Z.to_nat (8 * n))%nat with (8 * Z.to_nat (i + n))%nat by lia. done.
Qed.

Lemma agree_bytes i n :
  fits i (8 * n) → 0 ≤ n →
  agree i (8 * n) ↔
  take (Z.to_nat n) (drop (Z.to_nat i) A) = take (Z.to_nat n) (drop (Z.to_nat i) addr).
Proof.
  intros (Hi & _ & H1 & H2) Hn. unfold agree. rewrite !abits_drop.
  replace (Z.to_nat (8 * n)) with (8 * Z.to_nat n)%nat by lia. rewrite !abits_take.
  split; [|by intros ->]. apply abits_inj; try (by apply Forall_take, Forall_drop).
  rewrite !length_take, !length_drop. lia.
Qed.

Lemma check_words_spec fuel i plen :
  0 ≤ i → fits (4 * i) plen → plen / 32 < Z.of_nat fuel →
  check_words fuel A addr i plen =
    Ret (if decide (agree (4 * i) (8 * (4 * (plen / 32)))) then Some (i + plen / 32, plen mod 32) else None).
Proof.
  revert i plen. induction fuel as [|fuel IH]; intros i plen Hi Hf Hp; [destruct Hf; zmod|].
  cbn [check_words]. destruct Hf as (H0 & Hn & H1 & H2). destruct (Z.leb_spec 32 plen).
  - unfold word, mem_read. rewrite !bool_decide_true by lia. rewrite !bind_Ret_l.
    pose proof (agree_bytes (4 * i) 4) as Hw. change (8 * 4) with 32 in Hw.
    assert (plen / 32 = 1 + (plen - 32) / 32) as Hd by zmod.
    assert (plen mod 32 = (plen - 32) mod 32) as Hm by zmod.
    specialize (Hw ltac:(unfold fits; lia) ltac:(lia)).
    pose proof (agree_add (4 * i) 4 (8 * (4 * ((plen - 32) / 32)))) as Ha. change (8 * 4) with 32 in Ha.
    replace (8 * (4 * (plen / 32))) with (32 + 8 * (4 * ((plen - 32) / 32))) by lia.
    replace (4 * i + 4) with (4 * (i + 1)) in Ha by lia. unfold fits in Ha.
    case_bool_decide as E; cbn [negb].
    + rewrite IH by (unfold fits; zmod). f_equal. rewrite Hd, Hm.
      destruct (decide (agree _ _)), (decide (agree _ _)); try done; [do 2 f_equal; lia|exfalso..];
        naive_solver zmod.
    + rewrite decide_False; [done|]. rewrite Ha by zmod. tauto.
  - rewrite Z.div_small, Z.mod_small by lia. rewrite decide_True by done. do 3 f_equal. lia.
Qed.

Lemma check_bytes_spec fuel i plen :
  fits i plen → plen / 8 < Z.of_nat fuel →
  check_bytes fuel A addr i plen =
    Ret (if decide (agree i (8 * (plen / 8))) then Some (i + plen / 8, plen mod 8) else None).
Proof.
  revert i plen. induction fuel as [|fuel IH]; intros i plen Hf Hp; [destruct Hf; zmod|].
  cbn [check_bytes]. destruct Hf as (Hi & Hn & H1 & H2). destruct (Z.leb_spec 8 plen).
  - rewrite (load_zth A), (load_zth addr) by lia. rewrite !bind_Ret_l.
    pose proof (agree_bytes i 1 ltac:(unfold fits; lia) ltac:(lia)) as Hw. change (8 * 1) with 8 in Hw.
    assert (agree i 8 ↔ zth A i = zth addr i) as Hw'.
    { rewrite Hw. change (Z.to_nat 1) with 1%nat.
      destruct (load_in A i) as (a & _ & Ha); [lia|]. destruct (load_in addr i) as (a' & _ & Ha'); [lia|].
      rewrite (drop_S A a), (drop_S addr a') by done. cbn. unfold zth.
      rewrite (nth_lookup_Some _ _ _ _ Ha), (nth_lookup_Some _ _ _ _ Ha'). rewrite !take_0.
      split; [by intros [= ->]|by intros ->]. }
    assert (plen / 8 = 1 + (plen - 8) / 8) as Hd by zmod.
    assert (plen mod 8 = (plen - 8) mod 8) as Hm by zmod.
    pose proof (agree_add i 1 (8 * ((plen - 8) / 8)) ltac:(lia) ltac:(lia) ltac:(zmod)
      ltac:(unfold fits; zmod)) as Ha. change (8 * 1) with 8 in Ha.
    replace (8 * (plen / 8)) with (8 + 8 * ((plen - 8) / 8)) by lia.
    destruct (Z.eqb_spec (zth A i) (zth addr i)) as [E|E]; cbn [negb].
    + rewrite IH by (unfold fits; zmod). f_equal. rewrite Hd, Hm.
      destruct (decide (agree _ _)), (decide (agree _ _)); try done; [do 2 f_equal; lia|exfalso; tauto..].
    + rewrite decide_False; [done|]. tauto.
  - rewrite Z.div_small, Z.mod_small by lia. rewrite decide_True by done. do 3 f_equal. lia.
Qed.

Lemma agree_last i n :
  fits i n → n < 8 →
  0 < n → agree i n ↔ Z.shiftr (zth A i) (8 - n) = Z.shiftr (zth addr i) (8 - n).
Proof.
  intros (Hi & _ & H1 & H2) Hn8 Hn. unfold agree. rewrite !abits_drop.
  destruct (load_in A i) as (a & _ & Ha); [lia|]. destruct (load_in addr i) as (a' & _ & Ha'); [lia|].
  rewrite (drop_S A a), (drop_S addr a') by done. rewrite !abits_cons.
  rewrite !take_app_le by (change (length (byte_bits _)) with 8%nat; lia).
  unfold zth. rewrite (nth_lookup_Some _ _ _ _ Ha), (nth_lookup_Some _ _ _ _ Ha').
  pose proof (byte_prefix a a' (Z.to_nat n) (Forall_lookup_1 _ _ _ _ HA Ha)
    (Forall_lookup_1 _ _ _ _ Haddr Ha') ltac:(lia)) as Hb. rewrite Z2Nat.id in Hb by lia. tauto.
Qed.

Lemma agree_pbits n : 0 ≤ n → agree 0 n ↔ pbits A n = pbits addr n.
Proof. intros. unfold agree, pbits. by rewrite !drop_0. Qed.

(** A node is that of a prefix when its length and its first bits are those of the prefix. *)
Lemma art_node_check_pbits an plen :
  an_u an = an__addr A → fits 0 plen →
  art_node_check an addr plen =
    Ret (bool_decide (an_plen an = plen ∧ pbits A plen = pbits addr plen)).
Proof.
  intros Hu Hf. pose proof Hf as (_ & Hn & H1 & H2). unfold art_node_check.
  destruct (Z.eqb_spec (an_plen an) plen) as [E|E]; cbn [negb];
    [|by rewrite bool_decide_false by tauto].
  unfold an_addr. rewrite Hu, bind_Ret_l.
  rewrite (bool_decide_ext _ (an_plen an = plen ∧ agree 0 plen)) by (by rewrite agree_pbits).
  rewrite check_words_spec by (unfold fits in *; zmod). rewrite bind_Ret_l, Z.mul_0_r, Z.add_0_l.
  set (q := plen / 32). set (m := plen mod 32).
  assert (plen = 8 * (4 * q) + m ∧ 0 ≤ q ∧ 0 ≤ m < 32) as (Hqm & Hq & Hm) by (subst q m; zmod).
  clearbody q m.
  pose proof (agree_add 0 (4 * q) m ltac:(lia) ltac:(lia) ltac:(lia) ltac:(unfold fits in *; lia)) as Ha.
  rewrite <-Hqm, Z.add_0_l in Ha.
  destruct (decide (agree 0 _)) as [E1|E1]; [|rewrite bool_decide_false; [done|]; tauto].
  destruct (Z.eqb_spec m 0) as [->|Hm0].
  { rewrite bool_decide_true; [done|]. split; [done|]. apply Ha. done. }
  rewrite (Z.mul_comm q 4), check_bytes_spec by (unfold fits in *; zmod). rewrite bind_Ret_l.
  set (q' := m / 8). set (m' := m mod 8).
  assert (m = 8 * q' + m' ∧ 0 ≤ q' ∧ 0 ≤ m' < 8) as (Hqm' & Hq' & Hm') by (subst q' m'; zmod).
  clearbody q' m'.
  pose proof (agree_add (4 * q) q' m' ltac:(lia) ltac:(lia) ltac:(lia) ltac:(unfold fits in *; lia)) as Ha'.
  rewrite <-Hqm' in Ha'.
  destruct (decide (agree (4 * q) _)) as [E2|E2]; [|rewrite bool_decide_false; [done|]; tauto].
  destruct (Z.eqb_spec m' 0) as [->|Hm0'].
  { rewrite bool_decide_true; [done|]. split; [done|]. apply Ha. split; [done|]. by apply Ha'. }
  rewrite (load_zth A), (load_zth addr) by lia. rewrite !bind_Ret_l. f_equal.
  pose proof (agree_last (4 * q + q') m' ltac:(unfold fits in *; lia) ltac:(lia) ltac:(lia)) as Hl.
  apply Bool.eq_iff_eq_true. rewrite Z.eqb_eq, bool_decide_eq_true. tauto.
Qed.
End node_check.

(** ** Tagged words *)

(** An aligned pointer other than NULL. *)
Definition ptr (p : Z) : Prop := 0 < p < M64 ∧ Z.land p 1 = 0.

Lemma land_1 x : Z.land x 1 = x mod 2.
Proof. exact (Z.land_ones x 1 ltac:(lia)). Qed.

Lemma ptr_node p : ptr p → art_heap_entry_is_node p = true.
Proof. intros [_ H]. unfold art_heap_entry_is_node. by rewrite H. Qed.
Lemma null_node : art_heap_entry_is_node 0 = true.
Proof. done. Qed.

Lemma heap_entry_add p : ptr p → art_heap_to_heap_entry p = p + 1.
Proof.
  intros [Hr Hp]. unfold art_heap_to_heap_entry. rewrite land_1 in Hp.
  replace p with (Z.shiftl (p / 2) 1) at 1 by (rewrite Z.shiftl_mul_pow2 by lia; zmod).
  rewrite lor_shiftl_add by lia. zmod.
Qed.

Lemma heap_entry_not_node p : ptr p → art_heap_entry_is_node (art_heap_to_heap_entry p) = false.
Proof.
  intros Hp. rewrite heap_entry_add by done. destruct Hp as [Hr Hp]. unfold art_heap_entry_is_node.
  rewrite land_1 in *. apply Z.eqb_neq. zmod.
Qed.

Lemma heap_entry_heap p : ptr p → art_heap_entry_to_heap (art_heap_to_heap_entry p) = p.
Proof.
  intros [Hr Hp]. unfold art_heap_entry_to_heap, art_heap_to_heap_entry, not64.
  change (18446744073709551615 - 1) with (Z.lxor (Z.ones 64) 1).
  apply Z.bits_inj'. intros i Hi. rewrite Z.land_spec, Z.lor_spec, Z.lxor_spec.
  destruct (decide (i = 0)) as [->|H0].
  - change (Z.testbit 1 0) with true. change (Z.testbit (Z.ones 64) 0) with true. rewrite andb_false_r.
    pose proof (f_equal (λ z, Z.testbit z 0) Hp) as Hb. cbn beta in Hb. rewrite Z.land_spec, Z.bits_0 in Hb.
    by rewrite andb_true_r in Hb.
  - assert (Z.testbit 1 i = false) as -> by (apply (testbit_above 1); lia).
    rewrite orb_false_r, xorb_false_r. destruct (decide (i < 64)).
    + by rewrite Z.ones_spec_low, andb_true_r by lia.
    + rewrite Z.ones_spec_high, andb_false_r by lia. symmetry. apply (testbit_above 64); lia.
Qed.

(** ** The best route of a table *)

(** The routes of a table, by their bits relative to it. *)
Abbreviation routes := (gmap (list bool) Z).

(** The longest route, other than the one of no bits, that is a prefix of [r]:
    its node, or NULL. *)
Fixpoint best_from (m : routes) (pre r : list bool) (d : Z) : Z :=
  match r with
  | [] => d
  | b :: r => best_from m (pre ++ [b]) r (default d (m !! (pre ++ [b])))
  end.
Definition best (m : routes) (r : list bool) : Z := best_from m [] r 0.

Lemma best_from_snoc m pre r b d :
  best_from m pre (r ++ [b]) d = default (best_from m pre r d) (m !! (pre ++ r ++ [b])).
Proof.
  revert pre d. induction r as [|c r IH]; intros pre d; [done|]. cbn. rewrite IH.
  by rewrite <-app_assoc.
Qed.
Lemma best_snoc m r b : best m (r ++ [b]) = default (best m r) (m !! (r ++ [b])).
Proof. apply best_from_snoc. Qed.
Lemma best_nil m : best m [] = 0.
Proof. done. Qed.

(** The route of no bits does not count. *)
Lemma best_ext m m' r : (∀ p, p ≠ [] → m' !! p = m !! p) → best m' r = best m r.
Proof.
  intros Hm. induction r as [|b r IH] using rev_ind; [done|]. rewrite !best_snoc, IH, Hm; [done|].
  by destruct r.
Qed.

(** Where the best route comes from. *)
Lemma best_inv m r :
  (best m r = 0 ∧ ∀ p, p ≠ [] → p `prefix_of` r → m !! p = None) ∨
  (∃ p, p ≠ [] ∧ p `prefix_of` r ∧ m !! p = Some (best m r) ∧
     ∀ q n, q `prefix_of` r → m !! q = Some n → (length q ≤ length p)%nat).
Proof.
  assert (∀ (p r : list bool) b, p `prefix_of` r ++ [b] → p `prefix_of` r ∨ p = r ++ [b]) as Hpre.
  { intros p r' b Hp. destruct (decide (length p ≤ length r')%nat).
    - left. destruct Hp as [k Hk]. exists (drop (length p) r').
      rewrite <-(take_drop (length p) r') at 1. f_equal.
      pose proof (f_equal (take (length p)) Hk) as Ht. by rewrite take_app_le, take_app_length in Ht.
    - right. destruct Hp as [k Hk]. pose proof (f_equal length Hk) as Hl. rewrite !length_app in Hl. cbn in Hl.
      destruct k; [by rewrite app_nil_r in Hk|cbn in Hl; lia]. }
  induction r as [|b r IH] using rev_ind.
  { left. split; [done|]. intros p Hne Hp. by apply prefix_nil_inv in Hp. }
  rewrite best_snoc. destruct (m !! (r ++ [b])) as [n|] eqn:E; cbn.
  { right. exists (r ++ [b]). split; [by destruct r|]. split; [done|]. split; [done|].
    intros q n' Hq _. by apply prefix_length. }
  destruct IH as [[H0 Hn]|(p & Hne & Hp & Hm & Hmax)].
  - left. split; [done|]. intros p Hne [Hp| ->]%Hpre; [by apply Hn|done].
  - right. exists p. split; [done|]. split; [by apply prefix_app_r|]. split; [done|].
    intros q n [Hq| ->]%Hpre Hqn; [by eapply Hmax|]. by rewrite E in Hqn.
Qed.

(** Routes of a table: nodes are pointers, each at one place. *)
Definition routes_ok (m : routes) : Prop :=
  (∀ p n, m !! p = Some n → ptr n) ∧
  (∀ p q n, m !! p = Some n → m !! q = Some n → p = q).

Lemma best_node m r : routes_ok m → art_heap_entry_is_node (best m r) = true.
Proof.
  intros [Hm _]. destruct (best_inv m r) as [[-> _]|(p & _ & _ & Hp & _)]; [done|].
  by eapply ptr_node, Hm.
Qed.

(** Below [r0], the best route is that of [r0] just where no route is between. *)
Lemma best_same m r0 q :
  routes_ok m → best m (r0 ++ q) = best m r0 ↔
  ∀ p, p ≠ [] → p `prefix_of` q → m !! (r0 ++ p) = None.
Proof.
  intros [Hptr Hinj]. split.
  - intros E p Hne Hp. destruct (m !! (r0 ++ p)) as [n|] eqn:En; [exfalso|done].
    assert ((r0 ++ p) `prefix_of` (r0 ++ q)) as Hpre by by apply prefix_app.
    destruct (best_inv m (r0 ++ q)) as [[_ Hno]|(p1 & _ & Hp1 & Hm1 & Hmax)].
    { rewrite Hno in En; [done| |done]. destruct r0; [done|]. discriminate. }
    specialize (Hmax _ _ Hpre En). rewrite E in Hm1.
    destruct (best_inv m r0) as [[H0 _]|(p2 & _ & Hp2 & Hm2 & _)].
    { rewrite H0 in Hm1. apply Hptr in Hm1 as [? _]. lia. }
    rewrite (Hinj _ _ _ Hm1 Hm2) in Hmax. apply prefix_length in Hp2. rewrite length_app in Hmax.
    destruct p; [done|]. cbn in Hmax. lia.
  - induction q as [|b q IH] using rev_ind; intros H; [by rewrite app_nil_r|].
    rewrite app_assoc, best_snoc. rewrite <-app_assoc, H; [|by destruct q|done]. cbn.
    apply IH. intros p Hne Hp. apply H; [done|]. by apply prefix_app_r.
Qed.

(** Going down, a best route is that of [r0] only if it was on the way. *)
Lemma best_closed m r0 q b :
  routes_ok m → best m (r0 ++ q ++ [b]) = best m r0 → best m (r0 ++ q) = best m r0.
Proof.
  intros Hm H. apply best_same; [done|]. intros p Hne Hp.
  apply (proj1 (best_same m r0 (q ++ [b]) Hm) H); [done|]. by apply prefix_app_r.
Qed.

(** What [art_allot] does: below [r0], where [old] was best, [new] is. *)
Definition allot (f : list bool → Z) (r0 : list bool) (old new : Z) (r : list bool) : Z :=
  if decide (r0 `prefix_of` r ∧ f r = old) then new else f r.

Lemma snoc_below (r0 q : list bool) b : r0 ++ q ++ [b] ≠ r0.
Proof. intros H. apply (f_equal length) in H. rewrite !length_app in H. cbn in H. lia. Qed.

Lemma best_off m m' r0 r :
  (∀ p, p ≠ r0 → m' !! p = m !! p) → ¬ r0 `prefix_of` r → best m' r = best m r.
Proof.
  intros Hm. induction r as [|b r IH] using rev_ind; [done|]. intros Hr. rewrite !best_snoc.
  rewrite IH by (intros ?; apply Hr; by apply prefix_app_r). rewrite Hm; [done|]. intros <-. by apply Hr.
Qed.

Lemma best_put m m' r0 r :
  routes_ok m → (∀ p, p ≠ r0 → m' !! p = m !! p) →
  best m' r = allot (best m) r0 (best m r0) (best m' r0) r.
Proof.
  intros Hm Hm'. unfold allot. destruct (decide _) as [[[q ->] E]|H].
  - pose proof (proj1 (best_same m r0 q Hm) E) as Hno. clear E.
    induction q as [|b q IH] using rev_ind; [by rewrite app_nil_r|].
    rewrite app_assoc, best_snoc, <-app_assoc, Hm' by (by apply snoc_below).
    rewrite Hno; [|by destruct q|done]. apply IH. intros p Hne Hp. apply Hno; [done|].
    by apply prefix_app_r.
  - destruct (decide (r0 `prefix_of` r)) as [[q ->]|Hr]; [|by apply (best_off _ _ r0)].
    assert (best m (r0 ++ q) ≠ best m r0) as Hne by (intros ?; apply H; split; [by exists q|done]).
    clear H. induction q as [|b q IH] using rev_ind; [by rewrite app_nil_r in Hne|].
    rewrite app_assoc, !best_snoc in *. rewrite <-app_assoc in *.
    rewrite (Hm' _ (snoc_below r0 q b)). destruct (m !! (r0 ++ q ++ [b])); [done|]. cbn in *. by apply IH.
Qed.

Lemma best_insert m r0 n r :
  routes_ok m → r0 ≠ [] → best (<[r0 := n]> m) r = allot (best m) r0 (best m r0) n r.
Proof.
  intros Hm Hne. rewrite (best_put m (<[r0 := n]> m) r0 r Hm).
  - destruct r0 as [|b r0 _] using rev_ind; [done|]. f_equal.
    rewrite (best_snoc (<[_ := n]> m)), lookup_insert_eq. done.
  - intros p Hp. by rewrite lookup_insert_ne.
Qed.

Lemma best_delete m r0 b r :
  routes_ok m →
  best (delete (r0 ++ [b]) m) r = allot (best m) (r0 ++ [b]) (best m (r0 ++ [b])) (best m r0) r.
Proof.
  intros Hm. rewrite (best_put m (delete (r0 ++ [b]) m) (r0 ++ [b]) r Hm).
  - f_equal. rewrite best_snoc, lookup_delete_eq. cbn. apply (best_off m _ (r0 ++ [b])).
    + intros p Hp. by rewrite lookup_delete_ne.
    + intros Hp%prefix_length. rewrite length_app in Hp. cbn in Hp. lia.
  - intros p Hp. by rewrite lookup_delete_ne.
Qed.
