(* ===== verification/ArtMem.v ===== *)
(** The memory of [Art] as a tree of tables.  A live table is named by the bits
    that lead to it, cut into the strides of the tables above; a map from these
    paths to pointers and routes, with a value for every entry of every table,
    describes the heaps completely.  Reads and writes of heap entries and
    [art_allot] are stated on that description. *)

From S2P Require Import Prelude StateMonad Art ArtTable.

(** ** Paths *)

(** The strides from the root to a table, the last one first. *)
Abbreviation path := (list (list bool)).

Fixpoint flat (w : path) : list bool :=
  match w with [] => [] | r :: w => flat w ++ r end.

Record tab := Tab { t_ptr : Z; t_heap : Z; t_routes : routes }.
Abbreviation tree := (gmap path tab).

(** The strides of a level list; each is one that [art_table_get] knows. *)
Definition stride (L : list Z) (w : path) : Z := zth L (Z.of_nat (length w)).
Definition strides_ok (L : list Z) : Prop := Forall (λ b, b = 4 ∨ b = 8) L.

(** [r] names an entry of the table [w]. *)
Definition in_table (L : list Z) (w : path) (r : list bool) : Prop :=
  (1 ≤ length r)%nat ∧ Z.of_nat (length r) ≤ stride L w.

Record tree_ok (L : list Z) (T : tree) : Prop := {
  tr_up : ∀ r w, is_Some (T !! (r :: w)) →
    is_Some (T !! w) ∧ Z.of_nat (length r) = stride L w;
  tr_level : ∀ w, is_Some (T !! w) → (length w < length L)%nat;
  tr_heap_ptr : ∀ w t, T !! w = Some t → ptr (t_heap t);
  tr_heap_inj : ∀ w w' t t', T !! w = Some t → T !! w' = Some t' → t_heap t = t_heap t' → w = w';
}.

(** The values of the entries: [F w r] for the entry [r] of the table [w],
    [F [] []] for the default route. *)
Abbreviation values := (path → list bool → Z).

Definition upd_val (F : values) (w : path) (G : list bool → Z) : values :=
  λ w' r', if decide (w' = w) then G r' else F w' r'.
Definition put_val (F : values) (w : path) (r : list bool) (v : Z) : values :=
  upd_val F w (λ r', if decide (r' = r) then v else F w r').

(** The default of a table is the entry of its parent that it hangs from. *)
Definition dflt (F : values) (w : path) : Z :=
  match w with [] => F [] [] | r :: w => F w r end.

Definition entry (T : tree) (F : values) (w : path) (r : list bool) : Z :=
  match T !! (r :: w) with Some c => art_heap_to_heap_entry (t_heap c) | None => F w r end.

(** ** Views *)

Record heap_ok (L : list Z) (T : tree) (F : values) (w : path) (t : tab) (h : list Z) : Prop := {
  hp_length : Z.of_nat (length h) = 2 ^ (stride L w + 1);
  hp_table : zth h 0 = t_ptr t;
  hp_default : zth h 1 = dflt F w;
  hp_entry : ∀ r, in_table L w r → zth h (idx r) = entry T F w r;
}.

(** Where a value may be read: it is no heap pointer. *)
Definition vals_ok (L : list Z) (T : tree) (F : values) : Prop :=
  (∀ w r, is_Some (T !! w) → in_table L w r → art_heap_entry_is_node (F w r) = true) ∧
  art_heap_entry_is_node (F [] []) = true.

Definition heaps_ok (L : list Z) (T : tree) (F : values) (H : gmap Z (list Z)) : Prop :=
  ∀ w t, T !! w = Some t → ∃ h, H !! t_heap t = Some h ∧ heap_ok L T F w t h.

(** Only the heaps of live tables differ. *)
Definition only_heaps (T : tree) (s s' : rtable) : Prop :=
  ∃ H, s' = set_heaps H s ∧
    ∀ p, (∀ w t, T !! w = Some t → t_heap t ≠ p) → H !! p = heaps s !! p.

Record view (L : list Z) (T : tree) (F : values) (s : rtable) : Prop := {
  vw_tree : tree_ok L T;
  vw_vals : vals_ok L T F;
  vw_heaps : heaps_ok L T F (heaps s);
}.

Lemma only_heaps_refl T s : only_heaps T s s.
Proof. exists (heaps s). by destruct s. Qed.
Lemma only_heaps_trans T s1 s2 s3 : only_heaps T s1 s2 → only_heaps T s2 s3 → only_heaps T s1 s3.
Proof.
  intros (H1 & -> & E1) (H2 & -> & E2). exists H2. split; [done|]. intros p Hp. cbn in E2.
  by rewrite E2, E1.
Qed.

Section mem.
Context (L : list Z) (HL : strides_ok L).

Lemma stride_cases w : (length w < length L)%nat → stride L w = 4 ∨ stride L w = 8.
Proof.
  intros Hw. unfold stride, zth. rewrite Nat2Z.id, nth_lookup.
  destruct (lookup_lt_is_Some_2 L (length w) Hw) as [b Hb]. rewrite Hb. by apply (Forall_lookup_1 _ _ _ _ HL Hb).
Qed.

Lemma live_stride T w t : tree_ok L T → T !! w = Some t → stride L w = 4 ∨ stride L w = 8.
Proof. intros HT Hw. apply stride_cases. by apply (tr_level L T HT). Qed.

Lemma idx_small w r : in_table L w r → stride L w ≤ 8 → 2 ≤ idx r < 2 ^ (stride L w + 1).
Proof.
  intros [H1 H2] H8. pose proof (idx_between r) as [Hl Hu]. split.
  - apply idx_ge2. by destruct r; cbn in H1; [lia|].
  - eapply Z.lt_le_trans; [done|]. apply Z.pow_le_mono_r; lia.
Qed.

Lemma idx_load T F w t h r :
  tree_ok L T → T !! w = Some t → heap_ok L T F w t h → in_table L w r → load h (idx r) = Ret (entry T F w r).
Proof.
  intros HT Hw Hh Hr. pose proof (live_stride T w t HT Hw).
  rewrite load_zth by (rewrite (hp_length _ _ _ _ _ _ Hh); pose proof (idx_small w r Hr); lia).
  by rewrite (hp_entry _ _ _ _ _ _ Hh).
Qed.

(** *** Reads *)

Section reads.
Context (T : tree) (F : values) (s : rtable) (HV : view L T F s).

Lemma view_heap w t : T !! w = Some t → ∃ h, heaps s !! t_heap t = Some h ∧ heap_ok L T F w t h.
Proof. apply (vw_heaps _ _ _ _ HV). Qed.

Lemma heap_big w t h : T !! w = Some t → heap_ok L T F w t h → 32 ≤ Z.of_nat (length h).
Proof.
  intros Hw Hh. rewrite (hp_length _ _ _ _ _ _ Hh).
  destruct (live_stride T w t (vw_tree _ _ _ _ HV) Hw) as [-> | ->]; done.
Qed.

Lemma runs_get_entry w t r Q :
  T !! w = Some t → in_table L w r → Q (entry T F w r) s → runs (SMR_PTR_GET (t_heap t) (idx r)) s Q.
Proof.
  intros Hw Hr HQ. destruct (view_heap w t Hw) as (h & Hh & Hok). eexists _, s. split; [|exact HQ].
  unfold SMR_PTR_GET, lift, deref. rewrite Hh, bind_Ret_l.
  by rewrite (idx_load T F w t h r (vw_tree _ _ _ _ HV) Hw Hok Hr).
Qed.

Lemma runs_get_default w t Q :
  T !! w = Some t → Q (dflt F w) s → runs (SMR_PTR_GET (t_heap t) ART_HEAP_IDX_DEFAULT) s Q.
Proof.
  intros Hw HQ. destruct (view_heap w t Hw) as (h & Hh & Hok). eexists _, s. split; [|exact HQ].
  unfold SMR_PTR_GET, lift, deref. rewrite Hh, bind_Ret_l.
  pose proof (heap_big w t h Hw Hok). rewrite load_zth by (unfold ART_HEAP_IDX_DEFAULT; lia).
  unfold ART_HEAP_IDX_DEFAULT. by rewrite (hp_default _ _ _ _ _ _ Hok).
Qed.

Lemma runs_get_table w t Q :
  T !! w = Some t → Q (t_ptr t) s → runs (art_heap_to_table (t_heap t)) s Q.
Proof.
  intros Hw HQ. destruct (view_heap w t Hw) as (h & Hh & Hok). eexists _, s. split; [|exact HQ].
  unfold art_heap_to_table, SMR_PTR_GET, lift, deref. rewrite Hh, bind_Ret_l.
  pose proof (heap_big w t h Hw Hok). rewrite load_zth by (unfold ART_HEAP_IDX_TABLE; lia).
  unfold ART_HEAP_IDX_TABLE. by rewrite (hp_table _ _ _ _ _ _ Hok).
Qed.

(** An entry is a node, or the heap of the child that hangs there. *)
Lemma entry_leaf w t r :
  T !! w = Some t → in_table L w r → T !! (r :: w) = None →
  entry T F w r = F w r ∧ art_heap_entry_is_node (F w r) = true.
Proof.
  intros Hw Hr Hc. unfold entry. rewrite Hc. split; [done|]. by apply (vw_vals _ _ _ _ HV).
Qed.
Lemma entry_child w r c :
  T !! (r :: w) = Some c →
  art_heap_entry_is_node (entry T F w r) = false ∧ art_heap_entry_to_heap (entry T F w r) = t_heap c.
Proof.
  intros Hc. pose proof (tr_heap_ptr L T (vw_tree _ _ _ _ HV) _ _ Hc).
  unfold entry. rewrite Hc. split; [by apply heap_entry_not_node|by apply heap_entry_heap].
Qed.

(** The word that holds the value [F w r]. *)
Definition slot (w : path) (t : tab) (r : list bool) : Z * Z :=
  match T !! (r :: w) with Some c => (t_heap c, ART_HEAP_IDX_DEFAULT) | None => (t_heap t, idx r) end.

Lemma runs_ahep w t r Q :
  T !! w = Some t → in_table L w r →
  Q (slot w t r, F w r) s → runs (ahep (t_heap t) (idx r)) s Q.
Proof.
  intros Hw Hr HQ. unfold ahep, slot in *. run_step. apply (runs_get_entry w t r); [done..|].
  destruct (T !! (r :: w)) as [c|] eqn:Hc.
  - destruct (entry_child w r c Hc) as [-> ->]. cbn. run_step.
    apply (runs_get_default (r :: w) c); [done|]. run_step. done.
  - destruct (entry_leaf w t r Hw Hr Hc) as [-> ->]. cbn. run_step. done.
Qed.
End reads.

(** *** Writes *)

Lemma upd_val_eq F w G r : upd_val F w G w r = G r.
Proof. unfold upd_val. by rewrite decide_True. Qed.
Lemma upd_val_ne F w G w' r : w' ≠ w → upd_val F w G w' r = F w' r.
Proof. intros. unfold upd_val. by rewrite decide_False. Qed.
Lemma put_val_eq F w r v : put_val F w r v w r = v.
Proof. unfold put_val. rewrite upd_val_eq. by rewrite decide_True. Qed.
Lemma put_val_ne F w r v w' r' : (w', r') ≠ (w, r) → put_val F w r v w' r' = F w' r'.
Proof.
  intros Hne. unfold put_val. destruct (decide (w' = w)) as [->|]; [|by rewrite upd_val_ne].
  rewrite upd_val_eq. by rewrite decide_False by congruence.
Qed.

(** A view depends on the values of the entries that there are. *)
Lemma view_ext T F F' s :
  (∀ w t r, T !! w = Some t → in_table L w r → F w r = F' w r) → F [] [] = F' [] [] →
  view L T F s → view L T F' s.
Proof.
  intros HF H0 [HT HV HH]. split; [done| |].
  - destruct HV as [HV HV0]. split; [|by rewrite <-H0]. intros w r [t Hw] Hr. rewrite <-(HF w t) by done. eauto.
  - intros w t Hw. destruct (HH w t Hw) as (h & Hh & Hok). exists h. split; [done|].
    destruct Hok as [H1 H2 H3 H4]. split; [done..| |].
    + rewrite H3. destruct w as [|r w]; [done|]. cbn.
      destruct (tr_up L T HT r w) as [[t' Ht'] Hr]; [by exists t|]. apply (HF w t'); [done|].
      destruct (live_stride T w t' HT Ht'); split; lia.
    + intros r Hr. rewrite H4 by done. unfold entry. destruct (T !! (r :: w)); [done|]. by apply (HF w t).
Qed.

(** Storing to the word of an entry is changing its value. *)
Lemma put_heaps_ok T F H w t r v :
  tree_ok L T → heaps_ok L T F H → T !! w = Some t → in_table L w r →
  ∃ h, H !! (slot T w t r).1 = Some h ∧ 0 ≤ (slot T w t r).2 < Z.of_nat (length h) ∧
    heaps_ok L T (put_val F w r v) (<[(slot T w t r).1 := <[Z.to_nat (slot T w t r).2 := v]> h]> H).
Proof.
  intros HT HH Hw Hr. pose proof (live_stride T w t HT Hw) as Hst.
  pose proof (idx_small w r Hr ltac:(lia)) as Hi. unfold slot.
  assert (∀ w1 t1 h1 i, heap_ok L T F w1 t1 h1 → 0 ≤ i < Z.of_nat (length h1) → i ≠ 0 →
    dflt (put_val F w r v) w1 = zth (<[Z.to_nat i := v]> h1) 1 →
    (∀ r1, in_table L w1 r1 →
       entry T (put_val F w r v) w1 r1 = zth (<[Z.to_nat i := v]> h1) (idx r1)) →
    heap_ok L T (put_val F w r v) w1 t1 (<[Z.to_nat i := v]> h1)) as Hmk.
  { intros w1 t1 h1 i [G1 G2 G3 G4] Hlt Hi0 Hd He.
    split; [by rewrite length_insert| |done|intros r1 Hr1; by rewrite He].
    by rewrite zth_insert_ne by lia. }
  assert (∀ w1 t1 h1, T !! w1 = Some t1 → heap_ok L T F w1 t1 h1 →
    (T !! (r :: w) = None → w1 ≠ w) → w1 ≠ r :: w →
    heap_ok L T (put_val F w r v) w1 t1 h1) as Hkeep.
  { intros w1 t1 h1 Hw1 [G1 G2 G3 G4] Hn Hc. split; [done..| |].
    - rewrite G3. unfold dflt. destruct w1 as [|r1 w1]; rewrite put_val_ne; [done| |done|congruence].
      intros [= E1 E2]. subst r. destruct Hr; cbn in *; lia.
    - intros r1 Hr1. rewrite G4 by done. unfold entry. destruct (T !! (r1 :: w1)) eqn:E; [done|].
      rewrite put_val_ne; [done|]. intros [= -> ->]. by apply Hn. }
  destruct (T !! (r :: w)) as [c|] eqn:Hc; cbn [fst snd].
  - destruct (HH _ _ Hc) as (h & Hh & Hok). exists h. split; [done|].
    pose proof (hp_length _ _ _ _ _ _ Hok) as Hlen.
    assert (32 ≤ Z.of_nat (length h)) as H32 by (rewrite Hlen; destruct (live_stride T _ _ HT Hc) as [-> | ->]; done).
    unfold ART_HEAP_IDX_DEFAULT. split; [lia|]. intros w1 t1 Hw1. destruct (HH w1 t1 Hw1) as (h1 & Hh1 & Hok1).
    destruct (decide (w1 = r :: w)) as [->|Hne].
    + simplify_eq. eexists. split; [apply lookup_insert_eq|]. apply Hmk; [done|lia|lia| |].
      * rewrite zth_insert_eq by lia. cbn. by rewrite put_val_eq.
      * intros r1 Hr1. pose proof (live_stride T _ _ HT Hc). pose proof (idx_small _ r1 Hr1 ltac:(lia)).
        rewrite zth_insert_ne by lia. rewrite (hp_entry _ _ _ _ _ _ Hok1) by done. unfold entry.
        case_match; [done|]. apply put_val_ne. intros E%(f_equal (length ∘ fst)). cbn in E. lia.
    + exists h1. rewrite lookup_insert_ne.
      2: { intros E. apply Hne. eapply (tr_heap_inj L T HT); [done..|]. congruence. }
      split; [done|]. by apply Hkeep.
  - destruct (HH _ _ Hw) as (h & Hh & Hok). exists h. split; [done|].
    pose proof (hp_length _ _ _ _ _ _ Hok) as Hlen. split; [lia|].
    intros w1 t1 Hw1. destruct (HH w1 t1 Hw1) as (h1 & Hh1 & Hok1).
    destruct (decide (w1 = w)) as [->|Hne].
    + simplify_eq. eexists. split; [apply lookup_insert_eq|]. apply Hmk; [done|lia|lia| |].
      * rewrite zth_insert_ne by lia. rewrite (hp_default _ _ _ _ _ _ Hok1). unfold dflt.
        destruct w as [|r1 w]; apply put_val_ne; [|intros E%(f_equal (length ∘ fst)); cbn in E; lia].
        intros [= E1]. subst r. destruct Hr; cbn in *; lia.
      * intros r1 Hr1. pose proof (idx_pos r1). destruct (decide (r1 = r)) as [->|Hne].
        { rewrite zth_insert_eq by lia. unfold entry. by rewrite Hc, put_val_eq. }
        rewrite zth_insert_ne by (try lia; intros E%idx_inj; by subst).
        rewrite (hp_entry _ _ _ _ _ _ Hok1) by done. unfold entry.
        case_match; [done|]. apply put_val_ne. congruence.
    + exists h1. rewrite lookup_insert_ne.
      2: { intros E. apply Hne. eapply (tr_heap_inj L T HT); [done..|]. congruence. }
      split; [done|]. apply Hkeep; try done. intros ->. by rewrite Hc in Hw1.
Qed.

Lemma put_vals_ok T F w r v :
  vals_ok L T F → art_heap_entry_is_node v = true → vals_ok L T (put_val F w r v).
Proof.
  intros [HV H0] Hv. split.
  - intros w1 r1 Hw1 Hr1. destruct (decide ((w1, r1) = (w, r))) as [[= -> ->]|Hne].
    + by rewrite put_val_eq.
    + rewrite put_val_ne by done. by apply HV.
  - destruct (decide (([], []) = (w, r))) as [[= <- <-]|Hne].
    + by rewrite put_val_eq.
    + by rewrite put_val_ne.
Qed.

Lemma runs_set_slot T F s w t r v Q :
  view L T F s → T !! w = Some t → in_table L w r → art_heap_entry_is_node v = true →
  (∀ s', only_heaps T s s' → view L T (put_val F w r v) s' → Q tt s') →
  runs (SMR_PTR_SET (slot T w t r).1 (slot T w t r).2 v) s Q.
Proof.
  intros [HT HV HH] Hw Hr Hv HQ.
  destruct (put_heaps_ok T F (heaps s) w t r v HT HH Hw Hr) as (h & Hh & Hi & HH').
  eexists tt, _. split.
  { unfold SMR_PTR_SET, lift, deref. rewrite Hh, bind_Ret_l, store_in by done. rewrite bind_Ret_l. done. }
  apply HQ; [|split; [done|by apply put_vals_ok|done]].
  eexists. split; [done|]. intros p Hp. apply lookup_insert_ne. unfold slot.
  destruct (T !! (r :: w)) as [c|] eqn:Hc; cbn; by eapply Hp.
Qed.

(** The default of the root table. *)
Lemma runs_set_default T F s t v Q :
  view L T F s → T !! [] = Some t → art_heap_entry_is_node v = true →
  (∀ s', only_heaps T s s' → view L T (put_val F [] [] v) s' → Q tt s') →
  runs (SMR_PTR_SET (t_heap t) ART_HEAP_IDX_DEFAULT v) s Q.
Proof.
  intros HV Hw Hv HQ. pose proof HV as [HT HVals HH]. destruct (HH _ _ Hw) as (h & Hh & Hok).
  pose proof (heap_big T F s HV [] t h Hw Hok) as Hlen. unfold ART_HEAP_IDX_DEFAULT.
  eexists tt, _. split.
  { unfold SMR_PTR_SET, lift, deref. rewrite Hh, bind_Ret_l, store_in, bind_Ret_l by lia. done. }
  apply HQ.
  { eexists. split; [done|]. intros p Hp. apply lookup_insert_ne. by eapply Hp. }
  split; [done|by apply put_vals_ok|]. intros w1 t1 Hw1. cbn. destruct (HH w1 t1 Hw1) as (h1 & Hh1 & [G1 G2 G3 G4]).
  assert (∀ r1, in_table L w1 r1 → zth h1 (idx r1) = entry T (put_val F [] [] v) w1 r1) as He.
  { intros r1 Hr1. rewrite G4 by done. unfold entry. case_match; [done|].
    rewrite put_val_ne; [done|]. intros [= -> ->]. destruct Hr1. cbn in *. lia. }
  destruct (decide (w1 = [])) as [->|Hne].
  - simplify_eq. eexists. split; [apply lookup_insert_eq|]. split; [by rewrite length_insert| | |].
    + by rewrite zth_insert_ne by lia.
    + rewrite zth_insert_eq by lia. cbn. by rewrite put_val_eq.
    + intros r1 Hr1. pose proof (live_stride T [] _ HT Hw). pose proof (idx_small _ r1 Hr1 ltac:(lia)).
      rewrite zth_insert_ne by lia. by apply He.
  - exists h1. rewrite lookup_insert_ne.
    2: { intros E. apply Hne. eapply (tr_heap_inj L T HT); [done..|]. congruence. }
    split; [done|]. split; [done..| |done]. rewrite G3. unfold dflt. destruct w1 as [|r1 w1]; [done|].
    rewrite put_val_ne; [done|]. intros [= -> ->].
    destruct (tr_up L T HT [] []) as [_ Hl]; [by exists t1|].
    destruct (live_stride T [] _ HT Hw); cbn in Hl; lia.
Qed.

(** ** [art_allot] *)

(** Below [r], an entry whose value is not [old] has none below it that is. *)
Definition closed (b : Z) (f : list bool → Z) (r : list bool) (old : Z) : Prop :=
  ∀ q x, Z.of_nat (length (r ++ q ++ [x])) ≤ b → f (r ++ q ++ [x]) = old → f (r ++ q) = old.

Lemma closed_below b f r q old : closed b f r old → closed b f (r ++ q) old.
Proof. intros H q' x. rewrite <-!app_assoc. rewrite !(app_assoc q). apply H. Qed.

Lemma closed_off b f r old q :
  closed b f r old → f r ≠ old → Z.of_nat (length (r ++ q)) ≤ b → f (r ++ q) ≠ old.
Proof.
  intros Hc Hne. induction q as [|y q IH] using rev_ind; [by rewrite app_nil_r|]. intros Hl E.
  apply IH; [rewrite !length_app in *; cbn in *; lia|]. by apply (Hc q y).
Qed.

(** The entry itself, then what is below on either side. *)
Lemma allot_split f r old new r' :
  f r = old →
  allot f r old new r' =
    if decide (r' = r) then new
    else allot (allot f (r ++ [false]) old new) (r ++ [true]) old new r'.
Proof.
  intros Hr. destruct (decide (r' = r)) as [->|Hne].
  { unfold allot. by rewrite decide_True. }
  assert (∀ x, r ++ [x] `prefix_of` r' → ¬ r ++ [negb x] `prefix_of` r') as Hsib.
  { intros x [k ->] [k' Hk']. rewrite <-!app_assoc in Hk'. apply app_inv_head in Hk'. by destruct x. }
  unfold allot. destruct (decide (r `prefix_of` r' ∧ f r' = old)) as [[[q ->] E]|Hn].
  - destruct q as [|x q]; [by rewrite app_nil_r in Hne|].
    assert (r ++ [x] `prefix_of` r ++ x :: q) as Hp by (exists q; by rewrite <-app_assoc).
    destruct x.
    + rewrite decide_True; [done|]. split; [done|]. rewrite decide_False; [done|].
      intros [H _]. by apply (Hsib true).
    + rewrite decide_False; [by rewrite decide_True|]. intros [H _]. by apply (Hsib false).
  - assert (∀ x, ¬ (r ++ [x] `prefix_of` r' ∧ f r' = old)) as Hn'.
    { intros x [Hp E]. apply Hn. split; [|done]. destruct Hp as [k ->]. exists ([x] ++ k). by rewrite app_assoc. }
    by rewrite !(decide_False _ (f r')) by apply Hn'.
Qed.

(** The least fuel for a subtree of [n] levels. *)
Fixpoint allot_cost (n : nat) : nat :=
  match n with O => 0 | S O => 4 | S n => 6 + 2 * allot_cost n end.

Lemma allot_cost_bound n : (allot_cost n + 6 ≤ 10 * 2 ^ n)%nat.
Proof.
  induction n as [|[|n] IH]; [cbn; lia|cbn; lia|].
  change (allot_cost (S (S n))) with (6 + 2 * allot_cost (S n))%nat. cbn [Nat.pow] in *. lia.
Qed.

Section allotment.
Context (T : tree) (w : path) (t : tab) (r0 : list bool) (old new : Z).
Hypotheses (HT : tree_ok L T) (Hw : T !! w = Some t)
  (Hnew : art_heap_entry_is_node new = true).
Let b := stride L w.
Let mf := 2 ^ b.
Let loop fuel pc k := allot_loop fuel pc (t_heap t) mf (idx r0) old new k.

Lemma b_cases : b = 4 ∨ b = 8.
Proof. by apply (live_stride T w t). Qed.

Lemma idx_u32 r : Z.of_nat (length r) ≤ b → u32 (idx r) = idx r ∧ (idx r < mf ↔ Z.of_nat (length r) < b).
Proof.
  intros Hr. pose proof (idx_between r) as [Hl Hu]. pose proof b_cases as Hb. split.
  - apply u32_small. unfold is_u32. pose proof (idx_pos r).
    pose proof (Z.pow_le_mono_r 2 (Z.of_nat (length r) + 1) 9 ltac:(lia) ltac:(lia)).
    change (2 ^ 9) with 512 in *. lia.
  - subst mf. replace b with (Z.of_nat (Z.to_nat b)) at 1 by lia. rewrite idx_lt_length. lia.
Qed.

(** Above the fringe there are no children. *)
Lemma inner_leaf r : (1 ≤ length r)%nat → Z.of_nat (length r) < b → T !! (r :: w) = None.
Proof.
  intros H1 H2. destruct (T !! (r :: w)) eqn:E; [|done].
  destruct (tr_up L T HT r w) as [_ Hl]; [by exists t0|]. fold b. lia.
Qed.

Lemma slot_inner r : (1 ≤ length r)%nat → Z.of_nat (length r) < b → slot T w t r = (t_heap t, idx r).
Proof. intros. unfold slot. by rewrite inner_leaf. Qed.

(** One turn of the fringe loop. *)
Lemma fringe_turn F s r fuel Q :
  view L T F s → (1 ≤ length r)%nat → Z.of_nat (length r) = b →
  (∀ s' F', only_heaps T s s' → view L T F' s' →
     (∀ r', Z.of_nat (length r') ≤ b → F' w r' = allot (F w) r old new r') →
     (∀ w' r', w' ≠ w → F' w' r' = F w' r') →
     runs (if negb (idx r mod 2 =? 0) then loop fuel Moveup (idx r)
           else loop fuel Fringe (u32 (idx r + 1))) s' Q) →
  runs (loop (S fuel) Fringe (idx r)) s Q.
Proof.
  intros HV H1 Hr HQ. assert (in_table L w r) as Hin by (split; [done|]; fold b; lia).
  unfold loop. cbn [allot_loop]. run_step. apply (runs_ahep T F s HV w t r); [done..|].
  destruct (slot T w t r) as [p n] eqn:Es.
  assert (∀ r', Z.of_nat (length r') ≤ b → r `prefix_of` r' → r' = r) as Hself.
  { intros r' Hl [k ->]. rewrite length_app in Hl. destruct k; [by rewrite app_nil_r|cbn in Hl; lia]. }
  run_step. destruct (Z.eqb_spec (F w r) old) as [E|E].
  - replace p with (slot T w t r).1 by by rewrite Es. replace n with (slot T w t r).2 by by rewrite Es.
    apply (runs_set_slot T F s w t r new); [done..|]. intros s' Ho HV'. apply (HQ s' _ Ho HV').
    + intros r' Hl. unfold allot. destruct (decide (r' = r)) as [->|Hne].
      * by rewrite put_val_eq, decide_True.
      * rewrite put_val_ne by congruence. rewrite decide_False; [done|]. intros [Hp _]. by apply Hne, Hself.
    + intros w' r' Hne. apply put_val_ne. congruence.
  - run_step. apply (HQ s F (only_heaps_refl T s) HV); [|done].
    intros r' Hl. unfold allot. rewrite decide_False; [done|]. intros [Hp E']. apply E. by rewrite <-(Hself r').
Qed.

(** The values after the subtree of [r] has been gone through. *)
Definition gone (F F' : values) (r : list bool) : Prop :=
  (∀ r', Z.of_nat (length r') ≤ b → F' w r' = allot (F w) r old new r') ∧
  (∀ w' r', w' ≠ w → F' w' r' = F w' r').

(** A run from [pc] reaches [pc'] with at most [c] steps, after [r] is gone through. *)
Definition reaches (F : values) (s : rtable) (r : list bool) (c : nat) (pc : allot_pc) (k : Z)
    (next : nat → AM ()) : Prop :=
  ∀ fuel j Q, (c + j ≤ fuel)%nat →
    (∀ s' F' f', only_heaps T s s' → view L T F' s' → gone F F' r → (j ≤ f')%nat →
       runs (next f') s' Q) →
    runs (loop fuel pc k) s Q.

Lemma moveup_turn F s r x fuel Q :
  view L T F s → (1 ≤ length r)%nat → Z.of_nat (length r) < b →
  (∀ s', only_heaps T s s' → view L T (put_val F w r new) s' →
     runs (if negb (idx r =? idx r0) then loop fuel Moveon (idx r) else mret ()) s' Q) →
  runs (loop (S fuel) Moveup (idx (r ++ [x]))) s Q.
Proof.
  intros HV H1 Hr HQ. unfold loop. cbn [allot_loop]. rewrite idx_half. run_step.
  pose proof (slot_inner r H1 Hr) as Es.
  replace (t_heap t) with (slot T w t r).1 at 1 by by rewrite Es. replace (idx r) with (slot T w t r).2 at 1 by by rewrite Es.
  apply (runs_set_slot T F s w t r new); [done|done| |done|].
  - split; [done|]. fold b. lia.
  - intros s' Ho HV'. by apply HQ.
Qed.

(** Both sides gone through, then the entry set. *)
Lemma gone_join F F1 F2 r :
  F w r = old → gone F F1 (r ++ [false]) → gone F1 F2 (r ++ [true]) →
  gone F (put_val F2 w r new) r.
Proof.
  intros Hr [G1 G1'] [G2 G2']. split.
  - intros r' Hl. rewrite (allot_split _ r old new r' Hr). destruct (decide (r' = r)) as [->|Hne].
    + by rewrite put_val_eq.
    + rewrite put_val_ne by congruence. rewrite G2 by done. unfold allot at 1 2. by rewrite G1.
  - intros w' r' Hne. rewrite put_val_ne by congruence. by rewrite G2', G1'.
Qed.

Lemma gone_skip F r :
  closed b (F w) r old → F w r ≠ old → gone F F r.
Proof.
  intros Hc Hne. split; [|done]. intros r' Hl. unfold allot. rewrite decide_False; [done|].
  intros [[q ->] E]. revert E. by apply (closed_off b).
Qed.

(** What is gone through on one side leaves the other side alone. *)
Lemma gone_other F F1 r : gone F F1 (r ++ [false]) →
  ∀ q, Z.of_nat (length (r ++ [true] ++ q)) ≤ b → F1 w (r ++ [true] ++ q) = F w (r ++ [true] ++ q).
Proof.
  intros [G _] q Hl. rewrite G by done. unfold allot. rewrite decide_False; [done|].
  intros [[k Hk] _]. rewrite <-!app_assoc in Hk. by apply app_inv_head in Hk.
Qed.
Lemma closed_side F F1 r :
  closed b (F w) r old → gone F F1 (r ++ [false]) → closed b (F1 w) (r ++ [true]) old.
Proof.
  intros Hc G q x. rewrite <-!app_assoc. intros Hl E. rewrite !length_app in Hl. cbn in Hl.
  rewrite (gone_other F F1 r G) in * by (rewrite !length_app; cbn; rewrite ?length_app; cbn; lia).
  apply (Hc ([true] ++ q) x); [|by rewrite <-!app_assoc].
  rewrite !length_app. cbn. lia.
Qed.

Definition after (r : list bool) (f : nat) : AM () :=
  if negb (idx r =? idx r0) then loop f Moveon (idx r) else mret ().

(** From [nonfringe] to [moveon] at an inner entry, given the run from [again]. *)
Lemma nonfringe_reaches F s r x c :
  view L T F s → r0 `prefix_of` r → Z.of_nat (length (r ++ [x])) < b →
  closed b (F w) (r ++ [x]) old →
  (F w (r ++ [x]) = old → reaches F s (r ++ [x]) c Again (idx (r ++ [x])) (after (r ++ [x]))) →
  reaches F s (r ++ [x]) (S c) Nonfringe (idx (r ++ [x])) (λ f, loop f Moveon (idx (r ++ [x]))).
Proof.
  intros HV Hp Hl Hc Hag fuel j Q Hf HQ. destruct fuel as [|fuel]; [lia|].
  assert (in_table L w (r ++ [x])) as Hin.
  { split; [rewrite length_app; cbn; lia|]. fold b. lia. }
  unfold loop. cbn [allot_loop]. run_step. apply (runs_get_entry T F s HV w t); [done..|].
  destruct (entry_leaf T F s HV w t (r ++ [x]) Hw Hin) as [-> _].
  { apply inner_leaf; [rewrite length_app; cbn; lia|done]. }
  destruct (Z.eqb_spec (F w (r ++ [x])) old) as [E|E].
  - apply (Hag E fuel j); [lia|]. intros s' F' f' Ho HV' G Hj. unfold after.
    rewrite (proj2 (Z.eqb_neq _ _)); [by apply (HQ s' F')|].
    intros Heq%idx_inj. destruct Hp as [k ->]. rewrite <-app_assoc in Heq.
    apply (f_equal length) in Heq. rewrite !length_app in Heq. cbn in Heq. lia.
  - apply (HQ s F fuel); [apply only_heaps_refl|done|by apply gone_skip|lia].
Qed.

Lemma allot_again n : ∀ F s r,
  view L T F s → r0 `prefix_of` r → (1 ≤ length r)%nat → (1 ≤ n)%nat → Z.of_nat (length r + n) = b →
  closed b (F w) r old → F w r = old →
  reaches F s r (allot_cost n) Again (idx r) (after r).
Proof.
  induction n as [|n IH]; [lia|]. intros F s r HV Hp H1 _ Hn Hc Hr fuel j Q Hf HQ.
  assert (∀ x, Z.of_nat (length (r ++ [x])) ≤ b) as Hlx by (intros x; rewrite length_app; cbn; lia).
  destruct fuel as [|fuel]; [destruct n; cbn in Hf; lia|].
  unfold loop. cbn [allot_loop]. rewrite idx_double. destruct (idx_u32 (r ++ [false]) (Hlx _)) as [-> Hlt].
  destruct n as [|n].
  - (* the two entries of the fringe *)
    rewrite (proj2 (Z.ltb_ge _ _)) by (apply Z.nlt_ge; rewrite Hlt, length_app; cbn; lia).
    cbn [allot_cost] in Hf. do 3 (destruct fuel as [|fuel]; [lia|]).
    apply (fringe_turn F); [done|rewrite length_app; cbn; lia..|]. intros s1 F1 Ho1 HV1 G1 G1'.
    rewrite idx_mod. cbn [Z.b2z Z.eqb negb]. rewrite idx_sibling.
    destruct (idx_u32 (r ++ [true]) (Hlx _)) as [-> _].
    apply (fringe_turn F1); [done|rewrite length_app; cbn; lia..|]. intros s2 F2 Ho2 HV2 G2 G2'.
    rewrite idx_mod. cbn [Z.b2z Z.eqb negb]. apply (moveup_turn F2); [done|done|lia|]. intros s3 Ho3 HV3.
    apply (HQ s3 (put_val F2 w r new) fuel); [|done|by apply (gone_join F F1)|lia].
    eapply only_heaps_trans; [exact Ho1|]. by eapply only_heaps_trans.
  - (* the two sides *)
    rewrite (proj2 (Z.ltb_lt _ _)) by (rewrite Hlt, length_app; cbn; lia).
    change (allot_cost (S (S n))) with (6 + 2 * allot_cost (S n))%nat in Hf.
    assert (∀ x, r0 `prefix_of` r ++ [x]) as Hpx by (intros x; by apply prefix_app_r).
    assert (∀ x, (1 ≤ length (r ++ [x]))%nat) as H1x by (intros x; rewrite length_app; cbn; lia).
    assert (∀ x, Z.of_nat (length (r ++ [x]) + S n) = b) as Hnx by (intros x; rewrite length_app; cbn; lia).
    assert (∀ x, Z.of_nat (length (r ++ [x])) < b) as Hlx' by (intros x; rewrite length_app; cbn; lia).
    apply (nonfringe_reaches F s r false (allot_cost (S n)) HV Hp (Hlx' _) ltac:(by apply closed_below))
      with (j := (4 + allot_cost (S n) + j)%nat); [|lia|].
    { intros E. apply (IH F); try done; [lia|by apply closed_below]. }
    intros s1 F1 f1 Ho1 HV1 G1 Hf1. destruct f1 as [|f1]; [lia|]. unfold loop at 1. cbn [allot_loop].
    rewrite idx_mod. cbn [Z.b2z Z.eqb negb]. rewrite idx_sibling.
    destruct (idx_u32 (r ++ [true]) (Hlx _)) as [-> _].
    pose proof (closed_side F F1 r Hc G1) as Hc1.
    apply (nonfringe_reaches F1 s1 r true (allot_cost (S n)) HV1 Hp (Hlx' _) Hc1)
      with (j := (2 + j)%nat); [|lia|].
    { intros E. apply (IH F1); try done. lia. }
    intros s2 F2 f2 Ho2 HV2 G2 Hf2. do 2 (destruct f2 as [|f2]; [lia|]). unfold loop at 1. cbn [allot_loop].
    rewrite idx_mod. cbn [Z.b2z Z.eqb negb]. apply (moveup_turn F2); [done|done|lia|]. intros s3 Ho3 HV3.
    apply (HQ s3 (put_val F2 w r new) f2); [|done|by apply (gone_join F F1)|lia].
    eapply only_heaps_trans; [exact Ho1|]. by eapply only_heaps_trans.
Qed.

(** [art_allot] gives every entry below [r0] whose value is [old] the value [new]. *)
Lemma runs_allot F s x Q :
  view L T F s → (1 ≤ length r0)%nat → Z.of_nat (length r0) < b →
  tables s !! t_ptr t = Some x → at_heap x = t_heap t → at_minfringe x = mf →
  closed b (F w) r0 old → F w r0 = old →
  (∀ s', only_heaps T s s' → view L T (upd_val F w (allot (F w) r0 old new)) s' → Q tt s') →
  runs (art_allot (t_ptr t) (idx r0) old new) s Q.
Proof.
  intros HV H1 Hr Hx Hxh Hxm Hc H0 HQ. pose proof b_cases as Hb.
  unfold art_allot, tb. run_step. eapply runs_lift; [by rewrite Hx|].
  destruct (idx_u32 r0) as [_ Hlt]; [lia|].
  run_step. eapply runs_lift; [by rewrite Hxm, (proj2 (Z.ltb_lt _ _)) by (by apply Hlt)|].
  rewrite Hxh, Hxm. set (n := (Z.to_nat b - length r0)%nat).
  apply (allot_again n F s r0 HV) with (j := 0%nat); try done; try (subst n; lia).
  { pose proof (allot_cost_bound n). subst mf. assert (2 ^ n ≤ Z.to_nat (2 ^ b))%nat; [|lia].
    rewrite <-(Z2Nat.id b) by lia. change 2 with (Z.of_nat 2). rewrite <-Nat2Z.inj_pow, Nat2Z.id.
    apply Nat.pow_le_mono_r; subst n; lia. }
  intros s' F' f' Ho HV' [G1 G2] _. unfold after. rewrite Z.eqb_refl. cbn [negb]. run_step.
  apply (HQ s' Ho). apply (view_ext T F'); [| |done].
  - intros w' t' r' Hw' [_ Hr']. destruct (decide (w' = w)) as [->|Hne].
    + rewrite upd_val_eq. by apply G1.
    + rewrite upd_val_ne by done. by apply G2.
  - destruct (decide ([] = w)) as [<-|Hne].
    + rewrite upd_val_eq. apply G1. cbn. lia.
    + rewrite upd_val_ne by done. by apply G2.
Qed.
(** *** The same as a recursion *)

Lemma below_cases (r r' : list bool) :
  r `prefix_of` r' ↔ r' = r ∨ r ++ [false] `prefix_of` r' ∨ r ++ [true] `prefix_of` r'.
Proof.
  split.
  - intros [[|[] q] ->]; [left; by rewrite app_nil_r|right; right|right; left]; exists q; by rewrite <-app_assoc.
  - intros [->|[[q ->]|[q ->]]]; [done| |]; rewrite <-app_assoc; by eexists.
Qed.
Lemma below_one (r r' : list bool) : ¬ (r ++ [false] `prefix_of` r' ∧ r ++ [true] `prefix_of` r').
Proof. intros [[q1 ->] [q2 E]]. rewrite <-!app_assoc in E. by apply app_inv_head in E. Qed.
Lemma below_self (r : list bool) x : ¬ r ++ [x] `prefix_of` r.
Proof. intros Hp%prefix_length. rewrite length_app in Hp. cbn in Hp. lia. Qed.

Lemma gone_rec F F1 F2 F3 r :
  (∀ w' r', F1 w' r' = if decide (w' = w ∧ r' = r ∧ F w r = old) then new else F w' r') →
  gone F1 F2 (r ++ [false]) → gone F2 F3 (r ++ [true]) → gone F F3 r.
Proof.
  intros H1 [H2 H2'] [H3 H3']. split.
  - intros r' Hl. rewrite H3 by done. unfold allot. rewrite !H2 by done. unfold allot. rewrite !H1.
    pose proof (below_cases r r') as Hc. pose proof (below_one r r') as Ho.
    destruct (decide (r' = r)) as [->|Hne].
    + pose proof (below_self r false). pose proof (below_self r true).
      repeat case_decide; naive_solver.
    + repeat case_decide; naive_solver.
  - intros w' r' Hne. rewrite H3', H2', H1 by done. rewrite decide_False; [done|]. naive_solver.
Qed.

(** One entry: its value, if it is [old], becomes [new]. *)
Definition visits (visit : Z → AM ()) (r : list bool) : Prop :=
  ∀ F s (Q : () → rtable → Prop), view L T F s → in_table L w r →
  (∀ s' F', only_heaps T s s' → view L T F' s' →
     (∀ w' r', F' w' r' = if decide (w' = w ∧ r' = r ∧ F w r = old) then new else F w' r') → Q tt s') →
  runs (visit (idx r)) s Q.

Lemma visit_slot F s r (Q : () → rtable → Prop) : view L T F s → in_table L w r →
  (∀ s' F', only_heaps T s s' → view L T F' s' →
     (∀ w' r', F' w' r' = if decide (w' = w ∧ r' = r ∧ F w r = old) then new else F w' r') → Q tt s') →
  runs (if F w r =? old then SMR_PTR_SET (slot T w t r).1 (slot T w t r).2 new else mret ()) s Q.
Proof.
  intros HV Hin HQ. destruct (Z.eqb_spec (F w r) old) as [E|E].
  - apply (runs_set_slot T F s w t r new); [done..|]. intros s' Ho HV'. apply (HQ s' _ Ho HV').
    intros w' r'. destruct (decide (w' = w ∧ r' = r ∧ F w r = old)) as [Hd|Hd].
    + destruct Hd as (-> & -> & _). by rewrite put_val_eq.
    + apply put_val_ne. intros [= -> ->]. by apply Hd.
  - run_step. apply (HQ s F (only_heaps_refl T s) HV). intros w' r'. rewrite decide_False; [done|]. naive_solver.
Qed.

Lemma visits_code r : visits (visit_code (t_heap t) old new) r.
Proof.
  intros F s Q HV Hin HQ. unfold visit_code. run_step. apply (runs_ahep T F s HV w t r); [done..|].
  rewrite (surjective_pairing (slot T w t r)). by apply (visit_slot F).
Qed.

(** Without a child there, looking at the entry is enough. *)
Lemma visits_comment r : T !! (r :: w) = None → visits (visit_comment (t_heap t) old new) r.
Proof.
  intros Hc F s Q HV Hin HQ. unfold visit_comment. run_step. apply (runs_get_entry T F s HV w t r); [done..|].
  destruct (entry_leaf T F s HV w t r Hw Hin Hc) as [-> _].
  pose proof (visit_slot F s r Q HV Hin HQ) as H. unfold slot in H. by rewrite Hc in H.
Qed.

Lemma rec_gone visit n : ∀ F s r fuel (Q : () → rtable → Prop),
  (∀ r', r `prefix_of` r' → visits visit r') →
  view L T F s → (1 ≤ length r)%nat → Z.of_nat (length r + n) = b → (n < fuel)%nat →
  (∀ s' F', only_heaps T s s' → view L T F' s' → gone F F' r → Q tt s') →
  runs (allot_below visit fuel mf (idx r)) s Q.
Proof.
  induction n as [|n IH]; intros F s r [|fuel] Q Hvis HV H1 Hl Hf HQ; [lia| |lia|];
    assert (in_table L w r) as Hin by (split; [done|]; fold b; lia); cbn [allot_below]; run_step.
  - destruct (idx_u32 r ltac:(lia)) as [_ Hi]. apply (Hvis r (reflexivity r) F); [done|done|]. intros s' F' Ho HV' HF.
    rewrite (proj2 (Z.leb_le _ _)) by lia. run_step. apply (HQ s' F' Ho HV'). split.
    + intros r' Hr'. rewrite HF. unfold allot. apply decide_ext. split; [naive_solver|].
      intros [[q ->] E]. rewrite length_app in Hr'. destruct q; [by rewrite app_nil_r in *|cbn in Hr'; lia].
    + intros w' r' Hne. rewrite HF, decide_False; [done|]. naive_solver.
  - destruct (idx_u32 r ltac:(lia)) as [_ Hi]. apply (Hvis r (reflexivity r) F); [done|done|]. intros s1 F1 Ho1 HV1 HF.
    assert (∀ x r', r ++ [x] `prefix_of` r' → visits visit r') as Hvis'.
    { intros x r' Hp. apply Hvis. etrans; [|exact Hp]. by eexists. }
    rewrite (proj2 (Z.leb_gt _ _)) by lia. rewrite idx_double, idx_sibling.
    run_step. apply (IH F1); [by apply Hvis'|done|rewrite length_app; cbn; lia|rewrite length_app; cbn; lia|lia|]. intros s2 F2 Ho2 HV2 Hg2.
    apply (IH F2); [by apply Hvis'|done|rewrite length_app; cbn; lia|rewrite length_app; cbn; lia|lia|]. intros s3 F3 Ho3 HV3 Hg3.
    apply (HQ s3 F3); [|done|by eapply gone_rec].
    eapply only_heaps_trans; [done|]. by eapply only_heaps_trans.
Qed.

End allotment.

(** The values determine the heaps. *)
Lemma heap_det T F F' w t h h' :
  tree_ok L T → T !! w = Some t → heap_ok L T F w t h → heap_ok L T F' w t h' →
  dflt F w = dflt F' w → (∀ r, in_table L w r → F w r = F' w r) → h = h'.
Proof.
  intros HT Hw [A1 A2 A3 A4] [B1 B2 B3 B4] Hd Hr. pose proof (live_stride T w t HT Hw) as Hst.
  apply zth_list_eq; [lia|]. intros i Hi. destruct (decide (i = 0)) as [->|H0]; [congruence|].
  destruct (decide (i = 1)) as [->|H1]; [congruence|]. destruct (idx_surj i ltac:(lia)) as [r <-].
  assert (in_table L w r) as Hin.
  { split; [destruct r; [by cbn in H1|cbn; lia]|]. rewrite A1 in Hi.
    assert (2 ^ (stride L w + 1) = 2 ^ Z.of_nat (Z.to_nat (stride L w + 1))) as E by (f_equal; lia).
    rewrite E, idx_lt_length in Hi. lia. }
  rewrite A4, B4 by done. unfold entry. by rewrite (Hr r Hin).
Qed.

Lemma view_det T F F' s s1 s2 :
  only_heaps T s s1 → only_heaps T s s2 → view L T F s1 → view L T F' s2 →
  (∀ w t r, T !! w = Some t → in_table L w r → F w r = F' w r) → F [] [] = F' [] [] → s1 = s2.
Proof.
  intros (H1 & -> & O1) (H2 & -> & O2) V1 V2 HF H0. cbn in *. f_equal. apply map_eq. intros p.
  pose proof (vw_tree _ _ _ _ V1) as HT.
  destruct (decide (Exists (λ e, t_heap e.2 = p) (map_to_list T))) as [He|Hn].
  - apply Exists_exists in He as ([w t] & Hw%elem_of_map_to_list & <-). cbn in *.
    destruct (vw_heaps _ _ _ _ V1 w t Hw) as (h & Hh & Hok). destruct (vw_heaps _ _ _ _ V2 w t Hw) as (h' & Hh' & Hok').
    cbn in Hh, Hh'. rewrite Hh, Hh'. f_equal. eapply heap_det; [done|done|done|done| |].
    + destruct w as [|r w]; [done|]. cbn. destruct (tr_up _ _ HT r w (mk_is_Some _ _ Hw)) as [[t0 Hw0] Hl].
      apply (HF w t0); [done|]. pose proof (live_stride T w t0 HT Hw0). split; lia.
    + intros r. by apply (HF w t).
  - rewrite O1, O2; [done| |]; intros w t Hw E; apply Hn, Exists_exists; exists (w, t); split; (done || by apply elem_of_map_to_list).
Qed.

(** [art_allot] does what the recursion does, for any way to visit the entries. *)
Lemma allot_is_recursion T F s w t r x new visit :
  view L T F s → T !! w = Some t → in_table L w r → Z.of_nat (length r) < stride L w →
  art_heap_entry_is_node new = true →
  tables s !! t_ptr t = Some x → at_heap x = t_heap t → at_minfringe x = 2 ^ stride L w →
  closed (stride L w) (F w) r (F w r) →
  (∀ r', r `prefix_of` r' → visits T w (F w r) new visit r') →
  ∃ s', art_allot (t_ptr t) (idx r) (F w r) new s = Ret (tt, s') ∧
    allot_below visit 9 (2 ^ stride L w) (idx r) s = Ret (tt, s').
Proof.
  intros HV Hw Hin Hr Hnew Hx Hh Hm Hcl Hvis. pose proof (vw_tree _ _ _ _ HV) as HT.
  pose proof (live_stride T w t HT Hw) as Hst. destruct Hin as [H1 H2].
  destruct (runs_allot T w t r (F w r) new HT Hw Hnew F s x
    (λ _ s', only_heaps T s s' ∧ view L T (upd_val F w (allot (F w) r (F w r) new)) s')) as ([] & s1 & E1 & O1 & V1); [done..|].
  destruct (rec_gone T w t r (F w r) new HT Hw Hnew visit (Z.to_nat (stride L w) - length r) F s r 9
    (λ _ s', only_heaps T s s' ∧ ∃ F', view L T F' s' ∧ gone w (F w r) new F F' r)) as ([] & s2 & E2 & O2 & F2 & V2 & G2 & G2');
    [done|done|done|lia|lia|naive_solver|].
  exists s1. split; [done|]. rewrite E2. do 2 f_equal. eapply view_det; [done|done|exact V2|exact V1| |].
  - intros w' t' r' Hw' [_ Hr']. destruct (decide (w' = w)) as [->|Hne].
    + rewrite upd_val_eq. by apply G2.
    + rewrite upd_val_ne by done. by apply G2'.
  - destruct (decide ([] = w)) as [<-|Hne].
    + rewrite upd_val_eq. apply G2. cbn. lia.
    + rewrite upd_val_ne by done. by apply G2'.
Qed.
End mem.
