(* ===== verification/ArtInv.v ===== *)
(** The invariant of the routing table of [Art]: what the tree of live tables
    says of the table objects, the heaps, the nodes, the reference counts and
    the list of garbage; and the operations on whole tables under it: taking
    and dropping references, and freeing. *)

From S2P Require Import Prelude StateMonad Art ArtTable ArtMem.

(** ** Counting *)

(** [w'] hangs from [w]. *)
Definition hangs (w w' : path) : Prop := match w' with [] => False | _ :: w0 => w0 = w end.
#[global] Instance hangs_dec w w' : Decision (hangs w w').
Proof. destruct w'; cbn; apply _. Defined.

Definition kids (T : tree) (w : path) : Z := Z.of_nat (size (filter (λ e, hangs w e.1) T)).
Definition own (T : tree) (w : path) : Z :=
  match T !! w with Some t => Z.of_nat (size (t_routes t)) | None => 0 end.

(** What a table's reference count counts: its routes, the tables that hang
    from it, and the references [X] that calls and iterators hold. *)
Definition refs (T : tree) (X : path → Z) (w : path) : Z := own T w + kids T w + X w.

Definition add_at (X : path → Z) (w : path) (d : Z) : path → Z :=
  λ w', if decide (w' = w) then X w' + d else X w'.

Lemma add_at_eq X w d : add_at X w d w = X w + d.
Proof. unfold add_at. by rewrite decide_True. Qed.
Lemma add_at_ne X w d w' : w' ≠ w → add_at X w d w' = X w'.
Proof. intros. unfold add_at. by rewrite decide_False. Qed.

(** ** The values of a tree *)

Definition vals (T : tree) : values := λ w r,
  match T !! w with
  | None => 0
  | Some t => if decide (r = []) then default 0 (t_routes t !! []) else best (t_routes t) r
  end.

Lemma vals_best T w t r : T !! w = Some t → r ≠ [] → vals T w r = best (t_routes t) r.
Proof. intros Hw Hr. unfold vals. by rewrite Hw, decide_False. Qed.

(** ** The invariant *)

(** The node [n] is one for the prefix [p]. *)
Definition node_is (s : rtable) (n : Z) (p : list bool) : Prop :=
  ∃ x A, nodes s !! n = Some x ∧ an_u x = an__addr A ∧ bytes A ∧ length A = 16%nat ∧
    an_plen x = Z.of_nat (length p) ∧ pbits A (an_plen x) = p ∧ (length p ≤ 128)%nat.

(** [r] is a place for a route in the table [w]. *)
Definition place (L : list Z) (w : path) (r : list bool) : Prop :=
  in_table L w r ∨ (w = [] ∧ r = []).

(** The object of a live table. *)
Record table_ok (L : list Z) (T : tree) (X : path → Z) (w : path) (t : tab) (x : art_table) : Prop := {
  to_heap : at_heap x = t_heap t;
  to_parent : at_parent x = match w with [] => 0 | _ :: w => default 0 (t_ptr <$> T !! w) end;
  to_index : at_index x = match w with [] => UINT_MAX | r :: _ => idx r end;
  to_minfringe : at_minfringe x = 2 ^ stride L w;
  to_level : at_level x = Z.of_nat (length w);
  to_bits : at_bits x = stride L w;
  to_offset : at_offset x = Z.of_nat (length (flat w));
  to_refcnt : at_refcnt x = refs T X w;
}.

(** The chain of garbage tables, each with its heap. *)
Fixpoint gc_chain (m : gmap Z art_table) (p : Z) (G : list (Z * Z)) : Prop :=
  match G with
  | [] => p = 0
  | (q, hp) :: G => p = q ∧ q ≠ 0 ∧
      ∃ x, m !! q = Some x ∧ at_heap x = hp ∧ (at_bits x = 4 ∨ at_bits x = 8) ∧ gc_chain m (at_parent x) G
  end.

Definition live_ptr (T : tree) (p : Z) : Prop := ∃ w t, T !! w = Some t ∧ t_ptr t = p.
Definition live_heap (T : tree) (p : Z) : Prop := ∃ w t, T !! w = Some t ∧ t_heap t = p.

(** Every table and every heap is live or garbage, and only once. *)
Record garbage (s : rtable) (T : tree) (G : list (Z * Z)) : Prop := {
  gb_chain : gc_chain (tables s) (art_table_gc_list s) G;
  gb_ptrs : NoDup G.*1;
  gb_heaps : NoDup G.*2;
  gb_tables : ∀ p, is_Some (tables s !! p) ↔ p ∈ G.*1 ∨ live_ptr T p;
  gb_words : ∀ p, is_Some (heaps s !! p) ↔ p ∈ G.*2 ∨ live_heap T p;
  gb_dead_ptr : ∀ p, p ∈ G.*1 → ¬ live_ptr T p;
  gb_dead_heap : ∀ p, p ∈ G.*2 → ¬ live_heap T p;
}.

Record levels_ok (a : art) : Prop := {
  lv_strides : strides_ok (art_levels a);
  lv_nlevels : art_nlevels a = Z.of_nat (length (art_levels a));
  lv_alen : art_alen a = foldr Z.add 0 (art_levels a);
  lv_some : 0 < art_alen a ≤ 128;
}.

Record inv (s : rtable) (T : tree) (X : path → Z) (G : list (Z * Z)) : Prop := {
  i_art : levels_ok (the_art s);
  i_root : art_root (the_art s) = default 0 (t_heap <$> T !! []);
  i_tree : tree_ok (art_levels (the_art s)) T;
  i_heaps : heaps_ok (art_levels (the_art s)) T (vals T) (heaps s);
  i_ptr : ∀ w t, T !! w = Some t → ptr (t_ptr t);
  i_ptr_inj : ∀ w w' t t', T !! w = Some t → T !! w' = Some t' → t_ptr t = t_ptr t' → w = w';
  i_table : ∀ w t, T !! w = Some t →
    ∃ x, tables s !! t_ptr t = Some x ∧ table_ok (art_levels (the_art s)) T X w t x;
  i_routes : ∀ w t r n, T !! w = Some t → t_routes t !! r = Some n →
    place (art_levels (the_art s)) w r ∧ ptr n ∧ node_is s n (flat w ++ r);
  i_X : ∀ w, 0 ≤ X w;
  i_live : ∀ w, 0 < X w → is_Some (T !! w);
  i_refs : ∀ w, is_Some (T !! w) → refs T X w < M32;
  i_garbage : garbage s T G;
}.

(** ** Consequences *)

Lemma size_insert_new (m : routes) r n : m !! r = None → size (<[r := n]> m) = S (size m).
Proof. apply map_size_insert_None. Qed.

(** A list of different bit strings shorter than [n] bits. *)
Lemma strings_bound (l : list (list bool)) n :
  NoDup l → (∀ r, r ∈ l → (length r < n)%nat) → Z.of_nat (length l) ≤ 2 ^ Z.of_nat n.
Proof.
  intros Hnd Hl. assert (idx <$> l ⊆+ seqZ 0 (2 ^ Z.of_nat n)) as Hs.
  { apply NoDup_submseteq.
    - apply NoDup_fmap_2_strong; [|done]. intros r r' _ _. apply idx_inj.
    - intros k (r & -> & Hr)%list_elem_of_fmap. apply elem_of_seqZ.
      pose proof (idx_pos r). pose proof (proj2 (idx_lt_length r n) (Hl r Hr)). lia. }
  apply submseteq_length in Hs. rewrite length_fmap, length_seqZ in Hs.
  pose proof (Z.pow_pos_nonneg 2 (Z.of_nat n)). lia.
Qed.

Lemma size_bound {A} (m : gmap (list bool) A) n :
  (∀ r, is_Some (m !! r) → (length r < n)%nat) → Z.of_nat (size m) ≤ 2 ^ Z.of_nat n.
Proof.
  intros H. rewrite <-length_map_to_list, <-(length_fmap fst). apply strings_bound.
  - apply NoDup_fst_map_to_list.
  - intros r ([r' x] & -> & Hr)%list_elem_of_fmap. apply elem_of_map_to_list in Hr. cbn. eauto.
Qed.

Lemma kids_insert T w w' t :
  T !! w' = None → kids (<[w' := t]> T) w = kids T w + if decide (hangs w w') then 1 else 0.
Proof.
  intros Hn. unfold kids. rewrite map_filter_insert. cbn [fst]. destruct (decide (hangs w w')) as [H|H].
  - rewrite map_size_insert_None; [lia|]. apply map_lookup_filter_None. by left.
  - rewrite delete_id by done. lia.
Qed.

Lemma kids_update T w w' t t' : T !! w' = Some t → kids (<[w' := t']> T) w = kids T w.
Proof.
  intros Hn. rewrite <-(insert_id T w' t Hn) at 2. rewrite <-insert_delete_eq, <-(insert_delete_eq T).
  rewrite !kids_insert by apply lookup_delete_eq. done.
Qed.

Lemma kids_delete T w w' t :
  T !! w' = Some t → kids (delete w' T) w = kids T w - if decide (hangs w w') then 1 else 0.
Proof.
  intros Hn. rewrite <-(insert_id T w' t Hn) at 2. rewrite <-(insert_delete_eq T).
  rewrite kids_insert by apply lookup_delete_eq. lia.
Qed.

Lemma kids_nonneg T w : 0 ≤ kids T w.
Proof. unfold kids. lia. Qed.
Lemma own_nonneg T w : 0 ≤ own T w.
Proof. unfold own. case_match; lia. Qed.

(** No table hangs from a table without references. *)
Lemma kids_zero T w r : kids T w = 0 → T !! (r :: w) = None.
Proof.
  intros H. unfold kids in H. assert (filter (λ e, hangs w e.1) T = ∅) as E by (apply map_size_empty_inv; lia).
  destruct (T !! (r :: w)) as [t|] eqn:Et; [|done].
  assert (filter (λ e, hangs w e.1) T !! (r :: w) = Some t) as Hf by (by apply map_lookup_filter_Some).
  by rewrite E, lookup_empty in Hf.
Qed.

Lemma kids_bound T w n :
  (∀ r, is_Some (T !! (r :: w)) → (length r < n)%nat) → kids T w ≤ 2 ^ Z.of_nat n.
Proof.
  intros H. unfold kids. set (m := filter (λ e, hangs w e.1) T).
  rewrite <-length_map_to_list.
  set (l := (λ e : path * tab, match e.1 with [] => [] | r :: _ => r end) <$> map_to_list m).
  replace (length (map_to_list m)) with (length l) by (subst l; by rewrite length_fmap).
  assert (∀ e, e ∈ map_to_list m → ∃ r t, e = (r :: w, t) ∧ T !! (r :: w) = Some t) as Hm.
  { intros [w' t] He. apply elem_of_map_to_list, map_lookup_filter_Some in He as [He Hh].
    cbn in Hh. destruct w' as [|r w']; [done|]. cbn in Hh. subst w'. eauto. }
  apply strings_bound.
  - apply NoDup_fmap_2_strong; [|apply NoDup_map_to_list].
    intros e e' He He' E. destruct (Hm e He) as (r & t & -> & Ht). destruct (Hm e' He') as (r' & t' & -> & Ht').
    cbn in E. subst r'. by simplify_eq.
  - intros r (e & -> & He)%list_elem_of_fmap. destruct (Hm e He) as (r & t & -> & Ht). cbn. eauto.
Qed.

Lemma gc_chain_ext m m' p G :
  (∀ q, q ∈ G.*1 → m' !! q = m !! q) → gc_chain m p G → gc_chain m' p G.
Proof.
  revert p. induction G as [|[q hp] G IH]; intros p Hm; [done|]. cbn.
  intros (-> & Hq & x & Hx & Hh & Hb & Hc). split; [done|]. split; [done|]. exists x.
  rewrite Hm by (cbn; set_solver). split; [done|]. split; [done|]. split; [done|].
  apply IH; [|done]. intros q' Hq'. apply Hm. cbn. set_solver.
Qed.

Lemma runs_tb p x s Q : tables s !! p = Some x → Q x s → runs (tb p) s Q.
Proof. intros Hp HQ. exists x, s. unfold tb, lift, deref. by rewrite Hp. Qed.
Lemma runs_upd_tb p g x s Q :
  tables s !! p = Some x → Q tt (set_tables (<[p := g x]> (tables s)) s) → runs (upd_tb p g) s Q.
Proof. intros Hp HQ. apply runs_bind. eapply runs_tb; [done|]. by apply runs_modify. Qed.
Lemma runs_nd p x s Q : nodes s !! p = Some x → Q x s → runs (nd p) s Q.
Proof. intros Hp HQ. exists x, s. unfold nd, lift, deref. by rewrite Hp. Qed.

Lemma runs_get p h i s Q :
  heaps s !! p = Some h → 0 ≤ i < Z.of_nat (length h) → Q (zth h i) s → runs (SMR_PTR_GET p i) s Q.
Proof.
  intros Hp Hi HQ. eexists _, s. split; [|exact HQ]. unfold SMR_PTR_GET, lift, deref.
  by rewrite Hp, bind_Ret_l, load_zth.
Qed.
Lemma runs_set_word p h i v s Q :
  heaps s !! p = Some h → 0 ≤ i < Z.of_nat (length h) →
  Q tt (set_heaps (<[p := <[Z.to_nat i := v]> h]> (heaps s)) s) → runs (SMR_PTR_SET p i v) s Q.
Proof.
  intros Hp Hi HQ. eexists _, _. split; [|exact HQ]. unfold SMR_PTR_SET, lift, deref.
  by rewrite Hp, bind_Ret_l, store_in, bind_Ret_l.
Qed.

Section consequences.
Context {s : rtable} {T : tree} {X : path → Z} {G : list (Z * Z)} (I : inv s T X G).
Let L := art_levels (the_art s).

Lemma inv_strides : strides_ok L.
Proof. apply (lv_strides _ (i_art _ _ _ _ I)). Qed.

Lemma inv_stride w t : T !! w = Some t → stride L w = 4 ∨ stride L w = 8.
Proof. apply live_stride; [apply inv_strides|apply (i_tree _ _ _ _ I)]. Qed.

Lemma table_entry w t r : T !! w = Some t → in_table L w r → (1 ≤ length r ≤ 8)%nat ∧ r ≠ [].
Proof.
  intros Hw [H1 H2]. destruct (inv_stride w t Hw); (split; [lia|]); intros ->; cbn in H1; lia.
Qed.

(** A bit string names at most one place of the tree. *)
Lemma length_flat w r t : T !! (r :: w) = Some t → ∃ t', T !! w = Some t' ∧ Z.of_nat (length r) = stride L w.
Proof.
  intros H. destruct (tr_up _ _ (i_tree _ _ _ _ I) r w) as [[t' Ht'] Hr]; [by exists t|]. eauto.
Qed.

Lemma inv_level w : is_Some (T !! w) → (length w < length L)%nat.
Proof. apply (tr_level _ _ (i_tree _ _ _ _ I)). Qed.

Fixpoint off (l : list Z) (n : nat) {struct n} : Z :=
  match n with O => 0 | S n => match l with [] => 0 | b :: l => b + off l n end end.

Lemma off_S l n : off l (S n) = off l n + zth l (Z.of_nat n).
Proof.
  revert l. induction n as [|n IH]; intros l.
  - unfold zth. rewrite Nat2Z.id. destruct l; cbn; lia.
  - destruct l as [|b l]; [unfold zth; rewrite Nat2Z.id; by destruct n|].
    change (off (b :: l) (S (S n))) with (b + off l (S n)). change (off (b :: l) (S n)) with (b + off l n).
    rewrite IH. unfold zth. rewrite !Nat2Z.id. cbn [nth]. lia.
Qed.

Lemma flat_off w t : T !! w = Some t → Z.of_nat (length (flat w)) = off L (length w).
Proof.
  revert t. induction w as [|r w IH]; intros t Hw; [done|]. destruct (length_flat w r t Hw) as (t' & Ht' & Hr).
  cbn [flat length]. rewrite length_app, off_S. fold (stride L w). rewrite <-Hr, <-(IH t') by done. lia.
Qed.

Lemma off_mono n m : (n ≤ m)%nat → off L n ≤ off L m.
Proof.
  induction 1 as [|m _ IH]; [lia|]. rewrite off_S.
  assert (0 ≤ zth L (Z.of_nat m)); [|lia]. apply (zth_Forall (λ b, 0 ≤ b)); [lia|].
  eapply Forall_impl; [apply inv_strides|]. cbn. lia.
Qed.

Lemma off_le l n : strides_ok l → off l n ≤ foldr Z.add 0 l.
Proof.
  intros Hl. revert n. induction Hl as [|b l Hb Hl IH]; intros [|n]; cbn [off foldr]; try lia.
  - specialize (IH O). cbn in IH. lia.
  - specialize (IH n). lia.
Qed.

Lemma off_all l : off l (length l) = foldr Z.add 0 l.
Proof. induction l as [|b l IH]; cbn [off foldr length]; [done|]. by rewrite IH. Qed.

(** The bits that a table covers are bits of an address. *)
Lemma flat_room w t :
  T !! w = Some t → Z.of_nat (length (flat w)) + stride L w ≤ art_alen (the_art s) ≤ 128.
Proof.
  intros Hw. pose proof (i_art _ _ _ _ I) as [_ _ Ha Hb]. fold L in Ha. rewrite (flat_off w t Hw).
  pose proof (off_S L (length w)) as HS. fold (stride L w) in HS. rewrite <-HS, Ha.
  pose proof (off_le L (S (length w)) inv_strides). lia.
Qed.

(** The table of the last level covers the last bits. *)
Lemma level_left w t :
  T !! w = Some t → Z.of_nat (length (flat w)) + stride L w < art_alen (the_art s) → (S (length w) < length L)%nat.
Proof.
  intros Hw Hlt. pose proof (i_art _ _ _ _ I) as [_ _ Ha Hb]. fold L in Ha.
  pose proof (off_S L (length w)) as HS. fold (stride L w) in HS. rewrite (flat_off w t Hw), <-HS, Ha in Hlt.
  pose proof (inv_level w ltac:(by exists t)) as Hl. fold L in Hl.
  destruct (decide (S (length w) = length L)) as [E|]; [|lia]. rewrite E, off_all in Hlt. lia.
Qed.

Lemma flat_inj w w' t t' :
  T !! w = Some t → T !! w' = Some t' → length w = length w' → flat w = flat w' → w = w'.
Proof.
  revert w' t t'. induction w as [|r w IH]; intros [|r' w'] t t' Hw Hw' Hl Hf; try done.
  destruct (length_flat w r t Hw) as (t1 & Ht1 & Hr). destruct (length_flat w' r' t' Hw') as (t1' & Ht1' & Hr').
  injection Hl as Hl. cbn in Hf.
  assert (length r = length r') as Hrr by (unfold stride in *; rewrite Hl in Hr; lia).
  apply app_inj_2 in Hf as [Hf ->]; [|done]. f_equal. by eapply IH.
Qed.

Lemma place_inj w w' t t' r r' :
  T !! w = Some t → T !! w' = Some t' → place L w r → place L w' r' →
  flat w ++ r = flat w' ++ r' → w = w' ∧ r = r'.
Proof.
  intros Hw Hw' Hr Hr' E. pose proof (f_equal length E) as El. rewrite !length_app in El.
  assert (∀ w0 t0 r0, T !! w0 = Some t0 → place L w0 r0 →
    Z.of_nat (length (flat w0) + length r0) = 0 ∧ w0 = [] ∧ r0 = [] ∨
    off L (length w0) < Z.of_nat (length (flat w0) + length r0) ≤ off L (S (length w0))) as Hlev.
  { intros w0 t0 r0 Hw0 [[H1 H2]|[-> ->]]; [right|by left]. pose proof (flat_off w0 t0 Hw0). rewrite off_S.
    unfold stride in H2. lia. }
  pose proof (off_mono (S (length w)) (length w')). pose proof (off_mono (S (length w')) (length w)).
  pose proof (off_mono 0 (length w)). pose proof (off_mono 0 (length w')). change (off L 0) with 0 in *.
  destruct (Hlev w t r Hw Hr) as [(E0 & -> & ->)|Hc1]; destruct (Hlev w' t' r' Hw' Hr') as [(E0' & -> & ->)|Hc1'];
    try lia; [done|].
  assert (length w = length w') as Hlw by lia.
  assert (length (flat w) = length (flat w')) as Hlf.
  { pose proof (flat_off w t Hw). pose proof (flat_off w' t' Hw'). rewrite Hlw in *. lia. }
  apply app_inj_1 in E as [E ->]; [|done]. split; [|done]. by eapply flat_inj.
Qed.

(** *** Nodes *)

Lemma node_prefix_eq n p q : node_is s n p → node_is s n q → p = q.
Proof.
  intros (x & A & Hx & HA & _ & _ & _ & Hp & _) (x' & A' & Hx' & HA' & _ & _ & _ & Hq & _).
  simplify_eq. congruence.
Qed.

Lemma inv_routes_ok w t : T !! w = Some t → routes_ok (t_routes t).
Proof.
  intros Hw. split.
  - intros p n Hp. by destruct (i_routes _ _ _ _ I w t p n Hw Hp) as (_ & ? & _).
  - intros p q n Hp Hq. destruct (i_routes _ _ _ _ I w t p n Hw Hp) as (_ & _ & Np).
    destruct (i_routes _ _ _ _ I w t q n Hw Hq) as (_ & _ & Nq).
    pose proof (node_prefix_eq n _ _ Np Nq) as E. by apply app_inv_head in E.
Qed.

Lemma inv_vals_ok : vals_ok L T (vals T).
Proof.
  split.
  - intros w r [t Hw] Hr. rewrite (vals_best T w t) by (done || by apply (table_entry w t)).
    by eapply best_node, inv_routes_ok.
  - unfold vals. destruct (T !! []) as [t|] eqn:Ht; [|done]. cbn.
    destruct (t_routes t !! []) as [n|] eqn:Hn; [|done]. cbn.
    eapply ptr_node. by apply (i_routes _ _ _ _ I [] t [] n).
Qed.

Lemma inv_view : view L T (vals T) s.
Proof. split; [apply (i_tree _ _ _ _ I)|apply inv_vals_ok|apply (i_heaps _ _ _ _ I)]. Qed.

(** *** The sizes of tables *)

Lemma own_bound w t : T !! w = Some t → own T w ≤ 512.
Proof.
  intros Hw. unfold own. rewrite Hw. apply (size_bound _ 9). intros r [n Hr].
  destruct (i_routes _ _ _ _ I w t r n Hw Hr) as ([Hp|[-> ->]] & _); [|cbn; lia].
  pose proof (table_entry w t r Hw Hp). lia.
Qed.

Lemma kids_few w t : T !! w = Some t → kids T w ≤ 512.
Proof.
  intros Hw. apply (kids_bound T w 9). intros r [t' Hr].
  destruct (length_flat w r t' Hr) as (_ & _ & Hl). destruct (inv_stride w t Hw); lia.
Qed.

Lemma refs_nonneg w : 0 ≤ refs T X w.
Proof. pose proof (own_nonneg T w). pose proof (kids_nonneg T w). pose proof (i_X _ _ _ _ I w). unfold refs. lia. Qed.

Lemma dead_live w t : T !! w = Some t → t_ptr t ∉ G.*1 ∧ t_heap t ∉ G.*2.
Proof.
  intros Hw. split; intros H.
  - eapply (gb_dead_ptr _ _ _ (i_garbage _ _ _ _ I)); [done|]. by exists w, t.
  - eapply (gb_dead_heap _ _ _ (i_garbage _ _ _ _ I)); [done|]. by exists w, t.
Qed.
End consequences.

#[global] Arguments off : simpl never.

(** ** References *)

Lemma inv_ext s T X X' G : (∀ w, X' w = X w) → inv s T X G → inv s T X' G.
Proof.
  intros HX [H1 H2 H3 H4 H5 H6 H7 H8 H9 H10 H11 H12].
  assert (∀ w, refs T X' w = refs T X w) as Hr by (intros; unfold refs; by rewrite HX).
  split; try done.
  - intros w t Hw. destruct (H7 w t Hw) as (x & Hx & []). exists x. split; [done|]. split; try done. by rewrite Hr.
  - intros w. by rewrite HX.
  - intros w. rewrite HX. apply H10.
  - intros w. rewrite Hr. apply H11.
Qed.

(** One more reference or one less, in the table and in the count. *)
Lemma inv_refcnt s T X G w t x d :
  inv s T X G → T !! w = Some t → tables s !! t_ptr t = Some x →
  0 ≤ X w + d → refs T X w + d < M32 →
  inv (set_tables (<[t_ptr t := set_refcnt (u32 (at_refcnt x + d)) x]> (tables s)) s) T (add_at X w d) G.
Proof.
  intros I Hw Hx Hd Hr. pose proof I as [H1 H2 H3 H4 H5 H6 H7 H8 H9 H10 H11 H12].
  assert (∀ w', w' ≠ w → refs T (add_at X w d) w' = refs T X w') as Hne
    by (intros w' ?; unfold refs; by rewrite add_at_ne).
  assert (refs T (add_at X w d) w = refs T X w + d) as Heq by (unfold refs; rewrite add_at_eq; lia).
  pose proof (own_nonneg T w). pose proof (kids_nonneg T w).
  split; try done; cbn.
  - intros w' t' Hw'. destruct (decide (w' = w)) as [->|Hne'].
    + assert (t' = t) as -> by congruence. rewrite lookup_insert_eq. eexists. split; [done|].
      destruct (H7 w t Hw) as (x' & Hx' & [G1 G2 G3 G4 G5 G6 G7 G8]). simplify_eq.
      split; try done. cbn. rewrite Heq, G8. apply u32_small. unfold is_u32, refs in *. lia.
    + rewrite lookup_insert_ne.
      2: { intros E. apply Hne'. by apply (H6 w' w t' t Hw' Hw). }
      destruct (H7 w' t' Hw') as (x' & Hx' & []). exists x'. split; [done|]. split; try done. by rewrite Hne.
  - intros w'. destruct (decide (w' = w)) as [->|?]; [by rewrite add_at_eq|by rewrite add_at_ne].
  - intros w'. destruct (decide (w' = w)) as [->|?]; [by exists t|rewrite add_at_ne by done; apply H10].
  - intros w' Hw'. destruct (decide (w' = w)) as [->|?]; [by rewrite Heq|rewrite Hne by done; by apply H11].
  - destruct H12 as [G1 G2 G3 G4 G5 G6 G7]. split; try done; cbn.
    + eapply gc_chain_ext; [|exact G1]. intros q Hq. apply lookup_insert_ne. intros <-.
      apply (G6 _ Hq). by exists w, t.
    + intros p. rewrite <-G4. destruct (decide (p = t_ptr t)) as [->|?]; [|by rewrite lookup_insert_ne].
      rewrite lookup_insert_eq, Hx. split; by eexists.
Qed.

Lemma runs_ref s T X G w t Q :
  inv s T X G → T !! w = Some t → X w < 2147483648 →
  (∀ s', (∃ m, s' = set_tables m s) → inv s' T (add_at X w 1) G → Q (t_ptr t) s') →
  runs (art_table_ref (t_ptr t)) s Q.
Proof.
  intros I Hw HX HQ. destruct (i_table _ _ _ _ I w t Hw) as (x & Hx & Hok).
  pose proof (own_bound I w t Hw). pose proof (kids_few I w t Hw).
  unfold art_table_ref. run_step. eapply runs_upd_tb; [done|]. run_step.
  apply HQ; [by eexists|]. apply (inv_refcnt s T X G w t x 1); try done; pose proof (i_X _ _ _ _ I w); unfold refs; lia.
Qed.

Lemma runs_table_rele s T X G w t Q :
  inv s T X G → T !! w = Some t → 1 ≤ X w →
  (∀ s', (∃ m, s' = set_tables m s) → inv s' T (add_at X w (-1)) G →
     Q (refs T (add_at X w (-1)) w =? 0) s') →
  runs (art_table_rele (t_ptr t)) s Q.
Proof.
  intros I Hw HX HQ. destruct (i_table _ _ _ _ I w t Hw) as (x & Hx & Hok).
  pose proof (i_refs _ _ _ _ I w ltac:(by exists t)) as Hr.
  assert (inv (set_tables (<[t_ptr t := set_refcnt (u32 (at_refcnt x - 1)) x]> (tables s)) s) T
    (add_at X w (-1)) G) as I' by (apply (inv_refcnt s T X G w t x (-1)); try done; lia).
  unfold art_table_rele. destruct (i_ptr _ _ _ _ I w t Hw) as [[H0 _] _].
  rewrite (proj2 (Z.eqb_neq _ _)) by lia.
  run_step. eapply runs_upd_tb; [done|]. run_step.
  eapply runs_tb; [apply lookup_insert_eq|]. run_step.
  destruct (i_table _ _ _ _ I' w t Hw) as (x' & Hx' & Hok'). cbn in Hx'. rewrite lookup_insert_eq in Hx'.
  simplify_eq. rewrite (to_refcnt _ _ _ _ _ _ Hok'). by apply HQ; [eexists|].
Qed.

(** ** Taking a table out of the tree *)

Lemma vals_delete T w w' r : w' ≠ w → vals (delete w T) w' r = vals T w' r.
Proof. intros. unfold vals. by rewrite lookup_delete_ne. Qed.

Lemma dflt_live L T F F' w :
  tree_ok L T → is_Some (T !! w) → (∀ w' r, is_Some (T !! w') → F' w' r = F w' r) → F' [] [] = F [] [] →
  dflt F' w = dflt F w.
Proof.
  intros HT Hw HF H0. destruct w as [|r w]; [done|]. apply HF. by apply (tr_up L T HT r w).
Qed.

Lemma heaps_ok_ext L T F F' H :
  tree_ok L T → (∀ w r, is_Some (T !! w) → F' w r = F w r) → F' [] [] = F [] [] →
  heaps_ok L T F H → heaps_ok L T F' H.
Proof.
  intros HT HF H0 HH w t Hw. destruct (HH w t Hw) as (h & Hh & [G1 G2 G3 G4]). exists h. split; [done|].
  split; [done..| |].
  - rewrite G3. symmetry. apply (dflt_live L T); [done|by exists t|done..].
  - intros r Hr. rewrite G4 by done. unfold entry. case_match; [done|]. symmetry. apply HF. by exists t.
Qed.

Lemma tree_ok_delete L T w : tree_ok L T → (∀ r, T !! (r :: w) = None) → tree_ok L (delete w T).
Proof.
  intros [H1 H2 H3 H4] Hk. assert (∀ w' t, delete w T !! w' = Some t → T !! w' = Some t) as Hsub
    by (intros w' t [_ ?]%lookup_delete_Some; done).
  split.
  - intros r w' [t Ht]. pose proof (Hsub _ _ Ht) as Ht'. destruct (H1 r w') as [[t' Hw'] Hr]; [by exists t|].
    split; [|done]. exists t'. apply lookup_delete_Some. split; [|done]. intros <-. by rewrite Hk in Ht'.
  - intros w' [t Ht]. apply H2. exists t. by apply Hsub.
  - intros w' t Ht. eapply H3. by apply Hsub.
  - intros w1 w2 t1 t2 Ht1 Ht2. apply H4; by apply Hsub.
Qed.

Lemma unlink_heaps_ok L T F H r w t t' h :
  strides_ok L → tree_ok L T → heaps_ok L T F H →
  T !! (r :: w) = Some t → T !! w = Some t' → (∀ r', T !! (r' :: r :: w) = None) →
  H !! t_heap t' = Some h →
  heaps_ok L (delete (r :: w) T) F (<[t_heap t' := <[Z.to_nat (idx r) := F w r]> h]> H).
Proof.
  intros HL HT HH Hr Hw Hk Hh w1 t1 [Hne Hw1]%lookup_delete_Some.
  destruct (HH w1 t1 Hw1) as (h1 & Hh1 & Hok1). pose proof Hok1 as [G1 G2 G3 G4].
  assert (∀ r1, (r1 :: w1) ≠ r :: w → entry (delete (r :: w) T) F w1 r1 = entry T F w1 r1) as He
    by (intros r1 ?; unfold entry; by rewrite lookup_delete_ne).
  destruct (decide (w1 = w)) as [->|Hne1].
  - assert (t1 = t') as -> by congruence. assert (h1 = h) as -> by congruence.
    eexists. split; [apply lookup_insert_eq|].
    assert (in_table L w r) as Hin.
    { destruct (tr_up L T HT r w) as [_ Hl]; [by exists t|]. pose proof (live_stride L HL T w t' HT Hw). split; lia. }
    pose proof (live_stride L HL T w t' HT Hw) as Hst. pose proof (idx_small L w r Hin ltac:(lia)).
    split; [by rewrite length_insert|by rewrite zth_insert_ne by lia|by rewrite zth_insert_ne by lia|].
    intros r1 Hr1. pose proof (idx_pos r1). destruct (decide (r1 = r)) as [->|Hner].
    + rewrite zth_insert_eq by lia. unfold entry. by rewrite lookup_delete_eq.
    + rewrite zth_insert_ne, G4, He; [done|congruence|done|lia|lia|]. intros E%idx_inj. by subst.
  - exists h1. rewrite lookup_insert_ne.
    2: { intros E. apply Hne1. apply (tr_heap_inj L T HT w1 w t1 t'); [done..|congruence]. }
    split; [done|]. split; [done..|]. intros r1 Hr1. rewrite G4, He; [done|congruence|done].
Qed.

(** The references that the parent of [w] is counted for when [w] goes. *)
Definition up_ref (X : path → Z) (w : path) : path → Z :=
  match w with [] => X | _ :: w => add_at X w 1 end.

Lemma refs_delete T X w w' t :
  T !! w = Some t → w' ≠ w → refs (delete w T) (up_ref X w) w' = refs T X w'.
Proof.
  intros Hw Hne. unfold refs, own. rewrite lookup_delete_ne by done. rewrite (kids_delete T w' w t Hw).
  destruct w as [|r w]; cbn [hangs up_ref]; [rewrite decide_False by tauto; lia|].
  destruct (decide (w = w')) as [->|?]; [rewrite add_at_eq; lia|rewrite add_at_ne by done; lia].
Qed.

Lemma heaps_dom_put (H : gmap Z (list Z)) p (h h' : list Z) q : H !! p = Some h → is_Some (<[p := h']> H !! q) ↔ is_Some (H !! q).
Proof.
  intros Hp. destruct (decide (q = p)) as [->|?]; [|by rewrite lookup_insert_ne].
  rewrite lookup_insert_eq, Hp. split; by eexists.
Qed.

(** The state after [art_table_put]. *)
Definition put_state (a : art) (H : gmap Z (list Z)) (t : tab) (x : art_table) (s : rtable) : rtable :=
  RTable a H (<[t_ptr t := set_parent (art_table_gc_list s) x]> (tables s)) (nodes s) (t_ptr t)
    (art_node_gc_list s) (pool_answers s).

Lemma inv_delete s T X G w t x H :
  inv s T X G → T !! w = Some t → refs T X w = 0 → tables s !! t_ptr t = Some x →
  heaps_ok (art_levels (the_art s)) (delete w T) (vals T) H →
  (∀ q, is_Some (H !! q) ↔ is_Some (heaps s !! q)) →
  inv (put_state (match w with [] => the_art (set_root 0 s) | _ => the_art s end) H t x s)
    (delete w T) (up_ref X w) ((t_ptr t, t_heap t) :: G).
Proof.
  intros I Hw Hr0 Hx HH Hdom. pose proof I as [H1 H2 H3 H4 H5 H6 H7 H8 H9 H10 H11 H12].
  pose proof (own_nonneg T w). pose proof (kids_nonneg T w). pose proof (H9 w). unfold refs in Hr0.
  assert (∀ r, T !! (r :: w) = None) as Hk by (intros r; apply kids_zero; lia).
  assert (∀ w' t', delete w T !! w' = Some t' → w' ≠ w ∧ T !! w' = Some t') as Hsub
    by (intros w' t' [? ?]%lookup_delete_Some; auto).
  assert (∀ w', X w' ≤ up_ref X w w') as Hup.
  { intros w'. destruct w as [|r w]; cbn; [lia|]. unfold add_at. case_decide; lia. }
  destruct (i_table _ _ _ _ I w t Hw) as (x0 & Hx0 & Hok). assert (x0 = x) as -> by congruence.
  destruct (dead_live I w t Hw) as [Hd1 Hd2].
  destruct H12 as [G1 G2 G3 G4 G5 G6 G7].
  assert (∀ p, live_ptr T p ↔ p = t_ptr t ∨ live_ptr (delete w T) p) as Hlp.
  { intros p. split.
    - intros (w' & t' & Hw' & <-). destruct (decide (w' = w)) as [->|?]; [left; congruence|right].
      exists w', t'. split; [by rewrite lookup_delete_ne|done].
    - intros [->|(w' & t' & Hw' & <-)]; [by exists w, t|]. exists w', t'. split; [by apply Hsub|done]. }
  assert (∀ p, live_heap T p ↔ p = t_heap t ∨ live_heap (delete w T) p) as Hlh.
  { intros p. split.
    - intros (w' & t' & Hw' & <-). destruct (decide (w' = w)) as [->|?]; [left; congruence|right].
      exists w', t'. split; [by rewrite lookup_delete_ne|done].
    - intros [->|(w' & t' & Hw' & <-)]; [by exists w, t|]. exists w', t'. split; [by apply Hsub|done]. }
  set (a := match w with [] => the_art (set_root 0 s) | _ => the_art s end).
  assert (art_levels a = art_levels (the_art s) ∧ levels_ok a ∧
    art_root a = default 0 (t_heap <$> delete w T !! [])) as (HLv & Hla & Hra).
  { destruct H1 as [K1 K2 K3 K4]. destruct w as [|r w]; subst a; (split; [done|split; [by split|]]).
    - by rewrite lookup_delete_eq.
    - by rewrite lookup_delete_ne. }
  clearbody a. unfold put_state. split; cbn; rewrite ?HLv; [done|done|..].
  - by apply tree_ok_delete.
  - eapply heaps_ok_ext; [by apply tree_ok_delete| | |exact HH].
    + intros w' r [t' Ht']. apply vals_delete. by apply Hsub in Ht' as [? _].
    + destruct (decide ([] = w)) as [<-|?]; [|by apply vals_delete].
      unfold vals. rewrite lookup_delete_eq, Hw, decide_True by done.
      unfold own in *. rewrite Hw in *. rewrite (map_size_empty_inv (t_routes t)) by lia. done.
  - intros w' t' [_ ?]%Hsub. eauto.
  - intros w1 w2 t1 t2 [_ ?]%Hsub [_ ?]%Hsub. eauto.
  - intros w' t' [Hne Hw']%Hsub. rewrite lookup_insert_ne by (intros E; apply Hne; by eapply H6).
    destruct (H7 w' t' Hw') as (x' & Hx' & [F1 F2 F3 F4 F5 F6 F7 F8]). exists x'. split; [done|].
    split; try done; [|by rewrite refs_delete with (t := t)].
    rewrite F2. destruct w' as [|r' w']; [done|]. rewrite lookup_delete_ne; [done|].
    intros <-. by rewrite Hk in Hw'.
  - intros w' t' r n [_ Hw']%Hsub Hr. by apply (H8 w' t' r n).
  - intros w'. pose proof (Hup w'). pose proof (H9 w'). lia.
  - intros w' Hp. destruct (decide (w' = w)) as [->|Hne].
    + exfalso. destruct w as [|r w]; cbn in Hp; [lia|]. rewrite add_at_ne in Hp; [lia|].
      intros E. apply (f_equal length) in E. cbn in E. lia.
    + rewrite lookup_delete_ne by done. destruct w as [|r w]; cbn in Hp; [by apply H10|].
      destruct (decide (w' = w)) as [->|?]; [|rewrite add_at_ne in Hp by done; by apply H10].
      apply (tr_up _ _ H3 r w). by exists t.
  - intros w' [t' [Hne Hw']%Hsub]. rewrite refs_delete with (t := t) by done. apply H11. by exists t'.
  - split; cbn.
    + split; [done|]. split; [destruct (H5 w t Hw) as [[? _] _]; lia|].
      exists (set_parent (art_table_gc_list s) x). rewrite lookup_insert_eq. split; [done|]. cbn.
      split; [apply (to_heap _ _ _ _ _ _ Hok)|]. split; [rewrite (to_bits _ _ _ _ _ _ Hok); by apply (inv_stride I w t)|].
      eapply gc_chain_ext; [|exact G1]. intros q Hq. apply lookup_insert_ne. by intros <-.
    + by apply NoDup_cons.
    + by apply NoDup_cons.
    + intros p. rewrite elem_of_cons. destruct (decide (p = t_ptr t)) as [->|Hne].
      * rewrite lookup_insert_eq. split; [by left; left|by eexists].
      * rewrite lookup_insert_ne, G4, Hlp by done. tauto.
    + intros p. rewrite Hdom, G5, Hlh, elem_of_cons. tauto.
    + intros p. rewrite elem_of_cons. intros [->|Hp] Hl.
      * destruct Hl as (w' & t' & [Hne Hw']%Hsub & E). apply Hne. by eapply H6.
      * eapply G6; [done|]. apply Hlp. by right.
    + intros p. rewrite elem_of_cons. intros [->|Hp] Hl.
      * destruct Hl as (w' & t' & [Hne Hw']%Hsub & E). apply Hne. by eapply (tr_heap_inj _ _ H3).
      * eapply G7; [done|]. apply Hlh. by right.
Qed.

(** What the operations on tables leave alone. *)
Record kept (s s' : rtable) : Prop := {
  kp_levels : art_levels (the_art s') = art_levels (the_art s);
  kp_nlevels : art_nlevels (the_art s') = art_nlevels (the_art s);
  kp_alen : art_alen (the_art s') = art_alen (the_art s);
  kp_nodes : nodes s' = nodes s;
  kp_node_gc : art_node_gc_list s' = art_node_gc_list s;
}.

Lemma kept_refl s : kept s s.
Proof. by split. Qed.
Lemma kept_trans s1 s2 s3 : kept s1 s2 → kept s2 s3 → kept s1 s3.
Proof. intros [] []. split; congruence. Qed.
Lemma kept_tables s m : kept s (set_tables m s).
Proof. by split. Qed.
#[export] Hint Resolve kept_refl kept_tables : kern.

(** Some tables without routes are gone. *)
Definition pruned (T T' : tree) : Prop :=
  T' ⊆ T ∧ ∀ w t, T !! w = Some t → T' !! w = None → t_routes t = ∅.

Lemma pruned_refl T : pruned T T.
Proof. split; [done|]. intros. congruence. Qed.
Lemma pruned_trans T1 T2 T3 : pruned T1 T2 → pruned T2 T3 → pruned T1 T3.
Proof.
  intros [H1 H1'] [H2 H2']. split; [by etrans|]. intros w t Ht Hn.
  destruct (T2 !! w) as [t2|] eqn:E; [|by eapply H1'].
  assert (t2 = t) as -> by (pose proof (lookup_weaken _ _ _ _ E H1); congruence). by eapply H2'.
Qed.

(** Strides are not 0, so there are no more levels than bits. *)
Lemma strides_length l : strides_ok l → Z.of_nat (length l) ≤ foldr Z.add 0 l.
Proof. induction 1 as [|b l Hb _ IH]; cbn [length foldr]; lia. Qed.

Lemma runs_put s T X G w t Q :
  inv s T X G → T !! w = Some t → refs T X w = 0 →
  (∀ s', inv s' (delete w T) (up_ref X w) ((t_ptr t, t_heap t) :: G) → kept s s' →
     Q (match w with [] => 0 | _ :: w => default 0 (t_ptr <$> T !! w) end) s') →
  runs (art_table_put (t_ptr t)) s Q.
Proof.
  intros I Hw Hr0 HQ. destruct (i_table _ _ _ _ I w t Hw) as (x & Hx & Hok).
  pose proof (inv_delete s T X G w t x) as Hdel.
  pose proof (own_nonneg T w). pose proof (kids_nonneg T w). pose proof (i_X _ _ _ _ I w).
  pose proof (inv_strides I) as HL. pose proof (i_tree _ _ _ _ I) as HT. pose proof (i_heaps _ _ _ _ I) as HH.
  destruct Hok as [K1 K2 K3 K4 K5 K6 K7 K8].
  unfold art_table_put. run_step. eapply runs_tb; [done|].
  run_step. run_step; [by rewrite K8, Hr0|]. destruct w as [|r w].
  - (* the root *)
    rewrite K2, K3. run_step. run_step; [done|]. cbn [Z.eqb negb].
    run_step. run_step. run_step; [done|]. run_step. run_step; [by rewrite K5|]. run_step.
    run_step. run_step. run_step. eapply runs_upd_tb; [cbn; exact Hx|]. run_step. run_step. run_step.
    apply HQ; [|by split]. specialize (Hdel (heaps s) I Hw Hr0 Hx). apply Hdel; [|done].
    intros w' t' [Hne Hw']%lookup_delete_Some. destruct (HH w' t' Hw') as (h' & Hh' & [G1 G2 G3 G4]).
    exists h'. split; [done|]. split; [done..|]. intros r Hr. rewrite G4 by done. unfold entry.
    by rewrite lookup_delete_ne.
  - (* below the root *)
    destruct (tr_up _ _ HT r w) as [[t' Hw'] Hlr]; [by exists t|].
    pose proof (inv_stride I w t' Hw') as Hst.
    assert (in_table (art_levels (the_art s)) w r) as Hin by (split; lia).
    pose proof (idx_small _ w r Hin ltac:(lia)) as Hi. pose proof (Z.pow_le_mono_r 2 (stride (art_levels (the_art s)) w + 1) 9 ltac:(lia) ltac:(lia)).
    change (2 ^ 9) with 512 in *. destruct (i_ptr _ _ _ _ I w t' Hw') as [[Hp0 _] _].
    destruct (i_table _ _ _ _ I w t' Hw') as (y & Hy & [M1 M2 M3 M4 M5 M6 M7 M8]).
    assert (1 ≤ kids T w) as Hk1.
    { pose proof (kids_nonneg (delete (r :: w) T) w) as Hk.
      rewrite (kids_delete T w (r :: w) t Hw) in Hk. cbn [hangs] in Hk. rewrite decide_True in Hk by done. lia. }
    rewrite K2, K3. cbn [default]. rewrite Hw'. cbn [fmap option_fmap option_map from_option].
    run_step. run_step; [by rewrite !(proj2 (Z.eqb_neq _ _)) by lia|].
    rewrite (proj2 (Z.eqb_neq (t_ptr t') _)) by lia. cbn [negb].
    run_step. run_step. run_step; [by rewrite (proj2 (Z.eqb_neq _ _)) by (unfold UINT_MAX; lia)|].
    run_step. eapply runs_tb; [done|].
    pose proof (inv_level I (r :: w) ltac:(by exists t)) as Hlv. cbn [length] in Hlv.
    pose proof (inv_level I w ltac:(by exists t')).
    run_step. run_step.
    { rewrite K5, M5, u32_small.
      - rewrite (proj2 (Z.eqb_eq _ _)); [done|]. cbn. lia.
      - unfold is_u32. pose proof (i_art _ _ _ _ I) as [_ _ HA HB].
        pose proof (strides_length _ HL). lia. }
    run_step. run_step.
    { rewrite M8, (proj2 (Z.leb_le _ _)); [done|]. pose proof (own_nonneg T w). pose proof (i_X _ _ _ _ I w).
      unfold refs. lia. }
    run_step. rewrite K1. apply (runs_get_default _ HL T (vals T) s (inv_view I) (r :: w) t); [done|].
    destruct (HH w t' Hw') as (h & Hh & Hho). cbn [dflt]. rewrite M1.
    pose proof (hp_length _ _ _ _ _ _ Hho) as Hlen.
    eexists tt, _. split.
    { unfold SMR_PTR_SET, lift, deref. rewrite Hh, bind_Ret_l, store_in, bind_Ret_l by lia. done. }
    run_step. run_step. run_step. eapply runs_upd_tb; [cbn; exact Hx|]. run_step. run_step. run_step.
    rewrite Hw' in HQ. apply HQ; [|by split]. apply (Hdel _ I Hw Hr0 Hx); [|intros q; by eapply heaps_dom_put].
    apply unlink_heaps_ok with (t := t); try done. intros r'. apply kids_zero.
    unfold refs in Hr0. lia.
Qed.

(** A table without references has no routes. *)
Lemma pruned_delete s T X G w t :
  inv s T X G → T !! w = Some t → refs T X w = 0 → pruned T (delete w T).
Proof.
  intros I Hw Hr. split; [apply delete_subseteq|]. intros w' t' Hw' [E|Hn]%lookup_delete_None; [subst w'|congruence].
  pose proof (kids_nonneg T w). pose proof (i_X _ _ _ _ I w). unfold refs, own in Hr. rewrite Hw in Hr.
  assert (t' = t) as -> by congruence. apply map_size_empty_inv. lia.
Qed.

Lemma free_loop_spec w : ∀ fuel s T X G t (Q : () → rtable → Prop),
  (length w < fuel)%nat → inv s T X G → T !! w = Some t → refs T X w = 0 →
  (∀ s' T' G', inv s' T' X G' → pruned T T' → kept s s' → Q tt s') →
  runs (free_loop fuel (t_ptr t)) s Q.
Proof.
  induction w as [|r w IH]; intros fuel s T X G t Q Hf I Hw Hr0 HQ; (destruct fuel as [|fuel]; [lia|]);
    cbn [free_loop]; run_step; apply (runs_put s T X G _ t _ I Hw Hr0); intros s1 I1 K1;
    pose proof (pruned_delete s T X G _ t I Hw Hr0) as Hp1.
  - run_step. apply runs_ret. run_step. by eapply HQ.
  - destruct (tr_up _ _ (i_tree _ _ _ _ I) r w) as [[t' Hw'] _]; [by exists t|].
    assert (delete (r :: w) T !! w = Some t') as Hw1.
    { apply lookup_delete_Some. split; [|done]. intros E. apply (f_equal length) in E. cbn in E. lia. }
    rewrite Hw'. run_step. cbn [up_ref] in I1.
    apply (runs_table_rele s1 _ _ _ w t' _ I1 Hw1).
    { rewrite add_at_eq. pose proof (i_X _ _ _ _ I w). lia. }
    intros s2 [m ->] I2. pose proof (kept_trans _ _ _ K1 (kept_tables s1 m)) as K2.
    eapply (inv_ext _ _ _ X) in I2.
    2: { intros w0. destruct (decide (w0 = w)) as [->|?]; [rewrite !add_at_eq; lia|by rewrite !add_at_ne]. }
    assert (refs (delete (r :: w) T) (add_at (add_at X w 1) w (-1)) w = refs (delete (r :: w) T) X w) as ->.
    { unfold refs. rewrite !add_at_eq. lia. }
    destruct (Z.eqb_spec (refs (delete (r :: w) T) X w) 0) as [E|E].
    + cbn in Hf. assert (length w < fuel)%nat as Hf' by lia. apply (IH _ _ _ _ _ t' Q Hf' I2 Hw1 E). intros s3 T3 G3 I3 P3 K3.
      eapply HQ; [exact I3|by eapply pruned_trans|by eapply kept_trans].
    + run_step. by eapply HQ.
Qed.

(** Giving a reference up frees the table and the tables above it that have no
    references left, and none that has. *)
Lemma runs_table_free s T X G w t (Q : Z → rtable → Prop) :
  inv s T X G → T !! w = Some t → 1 ≤ X w →
  (∀ s' T' G' r, inv s' T' (add_at X w (-1)) G' → pruned T T' → kept s s' → Q r s') →
  runs (art_table_free (t_ptr t)) s Q.
Proof.
  intros I Hw HX HQ. unfold art_table_free. run_step.
  apply (runs_table_rele s T X G w t _ I Hw HX). intros s1 [m ->] I1.
  destruct (Z.eqb_spec (refs T (add_at X w (-1)) w) 0) as [E|E].
  - run_step. run_step. run_step. apply (free_loop_spec w _ _ _ _ _ t _) with (2 := I1); try done.
    + unfold nlevels. cbn. pose proof (lv_nlevels _ (i_art _ _ _ _ I)) as ->. rewrite Nat2Z.id.
      apply (inv_level I). by exists t.
    + intros s2 T2 G2 I2 P2 K2. run_step. eapply HQ; [exact I2|done|].
      eapply kept_trans; [apply kept_tables|done].
  - run_step. eapply HQ; [exact I1|apply pruned_refl|apply kept_tables].
Qed.

(** ** Hanging a new table into the tree *)

Lemma inv_answers s T X G l : inv s T X G → inv (set_answers l s) T X G.
Proof. intros [? ? ? ? ? ? ? ? ? ? ? Hg]. split; try done. destruct Hg. by split. Qed.

Lemma granted_spec s a :
  granted s a = true → ptr a ∧ heaps s !! a = None ∧ tables s !! a = None ∧ nodes s !! a = None.
Proof.
  unfold granted. intros H. apply andb_true_iff in H as [H Hf]. apply andb_true_iff in H as [H Ha].
  apply andb_true_iff in H as [H1 H2]. apply bool_decide_eq_true in Hf.
  unfold ptr. split; [|done]. lia.
Qed.

Lemma runs_pool_get s (Q : Z → rtable → Prop) :
  (∀ l, Q 0 (set_answers l s)) → (∀ a l, granted s a = true → Q a (set_answers l s)) → runs pool_get s Q.
Proof.
  intros H0 H1. unfold pool_get, runs. destruct (pool_answers s) as [|a l] eqn:E.
  - eexists 0, s. split; [done|]. specialize (H0 []). destruct s; cbn in *. by subst.
  - destruct (granted s a) eqn:Eg; (eexists _, _; split; [done|]); auto.
Qed.

(** A new table as [art_table_get] leaves it, to hang at the entry [j] of [parent]. *)
Definition new_table (hc parent j level bits offset : Z) : art_table :=
  ArtTable hc parent j (2 ^ bits) level bits offset 0.
Definition new_heap (c bits d : Z) : list Z :=
  <[1%nat := d]> (<[0%nat := c]> (replicate (Z.to_nat (2 ^ (bits + 1))) 0)).

Lemma new_heap_length c bits d :
  bits = 4 ∨ bits = 8 → Z.of_nat (length (new_heap c bits d)) = 2 ^ (bits + 1).
Proof. intros Hb. unfold new_heap. rewrite !length_insert, length_replicate. destruct Hb as [-> | ->]; done. Qed.

Lemma new_heap_zth c bits d i :
  bits = 4 ∨ bits = 8 → 0 ≤ i →
  zth (new_heap c bits d) i = if decide (i = 0) then c else if decide (i = 1) then d else 0.
Proof.
  intros Hb Hi. unfold new_heap. set (l := replicate (Z.to_nat (2 ^ (bits + 1))) 0).
  assert (32 ≤ Z.of_nat (length l)) as Hl.
  { subst l. rewrite length_replicate. destruct Hb as [-> | ->]; vm_compute; discriminate. }
  change 1%nat with (Z.to_nat 1). change 0%nat with (Z.to_nat 0).
  destruct (decide (i = 1)) as [->|H1].
  { rewrite decide_False by done. rewrite zth_insert_eq; [done|rewrite length_insert; lia]. }
  rewrite zth_insert_ne by lia. destruct (decide (i = 0)) as [->|H0]; [by rewrite zth_insert_eq by lia|].
  rewrite zth_insert_ne by lia. subst l. apply zth_replicate.
Qed.

Lemma runs_heap_pool bits s Q :
  bits = 4 ∨ bits = 8 →
  (∀ l, Q 0 (set_answers l s)) →
  (∀ hc l, granted s hc = true →
     Q hc (set_heaps (<[hc := replicate (Z.to_nat (2 ^ (bits + 1))) 0]> (heaps s)) (set_answers l s))) →
  runs (if bits =? 4 then at_heap_pool_get 4 else if bits =? 8 then at_heap_pool_get 8
        else fault (Panic "art_table_get")) s Q.
Proof.
  intros Hb H0 H1. replace (if bits =? 4 then _ else _) with (at_heap_pool_get bits)
    by (destruct Hb as [-> | ->]; done).
  unfold at_heap_pool_get. run_step. apply runs_pool_get.
  - intros l. cbn [Z.eqb]. run_step. done.
  - intros a l Ha. destruct (granted_spec s a Ha) as ([[Hp _] _] & _). rewrite (proj2 (Z.eqb_neq _ _)) by lia.
    run_step. run_step. run_step. unfold AT_HEAPSIZE. rewrite Z.shiftl_1_l. by apply H1.
Qed.

(** [art_table_get] gives a new table that is not in the tree yet, or none. *)
Lemma runs_table_get s T X G (w : path) parent j off0 d (Q : Z → rtable → Prop) :
  inv s T X G → (length w < length (art_levels (the_art s)))%nat →
  match w with
  | [] => parent = 0 ∧ j = UINT_MAX ∧ off0 = 0 ∧ d = 0
  | r :: w => ∃ t, T !! w = Some t ∧ parent = t_ptr t ∧ j = idx r ∧ Z.of_nat (length r) = stride (art_levels (the_art s)) w ∧
      T !! (r :: w) = None ∧ off0 = Z.of_nat (length (flat (r :: w))) ∧ d = vals T w r
  end →
  (∀ l, Q 0 (set_answers l s)) →
  (∀ c hc l, ptr c → ptr hc → tables s !! c = None → heaps s !! hc = None → nodes s !! c = None →
     Q c (set_answers l (set_tables
         (<[c := new_table hc parent j (Z.of_nat (length w)) (stride (art_levels (the_art s)) w) off0]> (tables s))
       (set_heaps (<[hc := new_heap c (stride (art_levels (the_art s)) w) d]> (heaps s)) s)))) →
  runs (art_table_get parent j) s Q.
Proof.
  intros I Hl Hpar H0 H1. pose proof (i_art _ _ _ _ I) as [HL Hn Ha Hab].
  pose proof (strides_length _ HL) as Hlen. pose proof (stride_cases _ HL w Hl) as Hb.
  assert ((j ≠ 0 ∧ j ≠ 1) ∧ (parent = 0 → j = UINT_MAX)) as [Hj Hj0].
  { destruct w as [|r w]; [destruct Hpar as (-> & -> & _); by split|].
    destruct Hpar as (t & Hw & -> & -> & Hr & _). destruct (i_ptr _ _ _ _ I w t Hw) as [[? _] _].
    pose proof (inv_stride I w t Hw). assert (2 ≤ idx r); [|lia]. apply idx_ge2. intros ->. cbn in Hr. lia. }
  unfold art_table_get, ART_HEAP_IDX_TABLE, ART_HEAP_IDX_DEFAULT.
  run_step. run_step; [by rewrite !(proj2 (Z.eqb_neq _ _)) by apply Hj|].
  run_step. run_step.
  { destruct (Z.eqb_spec parent 0) as [E|E]; [|done]. by rewrite (Hj0 E). }
  assert (runs (if negb (parent =? 0) then x ← tb parent; mret (u32 (at_level x + 1)) else mret 0) s
    (λ l s', l = Z.of_nat (length w) ∧ s' = s)) as Hlev.
  { destruct w as [|r w].
    - destruct Hpar as (-> & _). cbn [Z.eqb negb]. by run_step.
    - destruct Hpar as (t & Hw & -> & _). destruct (i_ptr _ _ _ _ I w t Hw) as [[? _] _].
      destruct (i_table _ _ _ _ I w t Hw) as (x & Hx & Hok). rewrite (proj2 (Z.eqb_neq _ _)) by lia.
      cbn [negb]. run_step. eapply runs_tb; [done|]. run_step. split; [|done].
      rewrite (to_level _ _ _ _ _ _ Hok). cbn [length] in *. rewrite u32_small; [lia|]. unfold is_u32. lia. }
  run_step. eapply runs_mono; [exact Hlev|]. intros ? ? [-> ->].
  run_step. run_step. run_step. run_step; [by rewrite Hn, (proj2 (Z.ltb_lt _ _)) by lia|].
  run_step. unfold at_pool_get. run_step. apply runs_pool_get.
  { intros l. cbn [Z.eqb]. run_step. cbn [Z.eqb]. run_step. by apply H0. }
  intros c l Hc. destruct (granted_spec s c Hc) as (Hcp & Hch & Hct & Hcn). pose proof Hcp as [[Hc0 _] _].
  rewrite (proj2 (Z.eqb_neq c _)) by lia. run_step. run_step. run_step.
  rewrite (proj2 (Z.eqb_neq c _)) by lia. cbn [tables set_tables set_answers].
  run_step. eexists (stride (art_levels (the_art s)) w), _. split.
  { unfold level_bits, lift. cbn. rewrite load_zth by lia. done. }
  set (b := stride (art_levels (the_art s)) w) in *.
  run_step. apply runs_heap_pool; [done|..].
  { intros l'. cbn [Z.eqb]. run_step. unfold at_pool_put. run_step.
    eapply runs_tb; [cbn; apply lookup_insert_eq|]. run_step. run_step. cbn.
    rewrite delete_insert_id by done. specialize (H0 l'). by destruct s. }
  intros hc l' Hhc. destruct (granted_spec _ hc Hhc) as (Hhp & Hhh & _ & _). pose proof Hhp as [[Hh0 _] _].
  cbn in Hhh. rewrite (proj2 (Z.eqb_neq hc _)) by lia.
  assert (32 ≤ Z.of_nat (length (replicate (Z.to_nat (2 ^ (b + 1))) 0))) as Hrl.
  { rewrite length_replicate. destruct Hb as [-> | ->]; vm_compute; discriminate. }
  run_step. eapply runs_set_word; [apply lookup_insert_eq|lia|]. cbn.
  run_step. eapply runs_lift; [apply (shl_fits 1 1 b); [done|lia..]|]. rewrite Z.shiftl_1_l.
  run_step. eapply runs_upd_tb; [apply lookup_insert_eq|]. cbn. rewrite !insert_insert_eq.
  run_step. destruct w as [|r w].
  - destruct Hpar as (-> & -> & -> & ->). cbn [Z.eqb negb]. run_step. run_step.
    specialize (H1 c hc l' Hcp Hhp Hct Hhh Hcn). unfold new_heap, new_table in H1.
    rewrite (list_insert_id (<[0%nat:=c]> _) 1 0) in H1; [by destruct s|].
    rewrite list_lookup_insert_ne by done. apply lookup_replicate_2. destruct Hb as [-> | ->]; vm_compute; lia.
  - destruct Hpar as (t & Hw & -> & -> & Hr & Hnone & -> & ->).
    destruct (i_ptr _ _ _ _ I w t Hw) as [[Hp0 _] _].
    destruct (i_table _ _ _ _ I w t Hw) as (y & Hy & Hok).
    destruct (i_heaps _ _ _ _ I w t Hw) as (h & Hh & Hho).
    assert (c ≠ t_ptr t) as Hct' by (intros ->; congruence).
    assert (hc ≠ t_heap t) as Hht' by (intros ->; congruence).
    assert (in_table (art_levels (the_art s)) w r) as Hin.
    { pose proof (inv_stride I w t Hw). split; lia. }
    rewrite (proj2 (Z.eqb_neq (t_ptr t) _)) by lia. cbn [negb].
    run_step. eapply runs_tb; [cbn; by rewrite lookup_insert_ne|].
    run_step. eapply runs_upd_tb; [apply lookup_insert_eq|]. cbn. rewrite !insert_insert_eq.
    rewrite (to_heap _ _ _ _ _ _ Hok).
    pose proof (inv_stride I w t Hw). pose proof (idx_small _ w r Hin ltac:(lia)).
    pose proof (hp_length _ _ _ _ _ _ Hho).
    run_step. eapply runs_get; [cbn; by rewrite lookup_insert_ne|lia|].
    rewrite (hp_entry _ _ _ _ _ _ Hho) by done. unfold entry. rewrite Hnone.
    eapply runs_set_word; [cbn; apply lookup_insert_eq|rewrite length_insert; lia|]. cbn. rewrite insert_insert_eq.
    run_step. rewrite (to_offset _ _ _ _ _ _ Hok), (to_bits _ _ _ _ _ _ Hok).
    specialize (H1 c hc l' Hcp Hhp Hct Hhh Hcn). unfold new_heap, new_table in H1.
    replace (u32 _) with (Z.of_nat (length (flat (r :: w)))); [by destruct s|].
    cbn [flat]. rewrite length_app. rewrite u32_small; [lia|]. unfold is_u32.
    pose proof (flat_room I w t Hw). lia.
Qed.

Lemma kids_none L T w : tree_ok L T → T !! w = None → kids T w = 0.
Proof.
  intros HT Hw. unfold kids. replace (filter _ T) with (∅ : tree); [done|]. symmetry.
  apply map_empty. intros w'. apply map_lookup_filter_None. right. intros t Ht Hh. cbn in Hh.
  destruct w' as [|r w']; [done|]. cbn in Hh. subst w'.
  destruct (tr_up L T HT r w) as [[t' Ht'] _]; [by exists t|]. congruence.
Qed.

Lemma no_kids L T w r : tree_ok L T → T !! w = None → T !! (r :: w) = None.
Proof. intros HT Hw. apply kids_zero. by eapply kids_none. Qed.

(** The tree with a new table without routes at [w]. *)
Section graft.
Context (s : rtable) (T : tree) (X : path → Z) (G : list (Z * Z)) (w : path) (c hc : Z).
Hypotheses (I : inv s T X G) (Hw : T !! w = None) (Hc : tables s !! c = None) (Hhc : heaps s !! hc = None)
  (Hcp : ptr c) (Hhcp : ptr hc).
Let L := art_levels (the_art s).
Let t := Tab c hc ∅.
Let T' := <[w := t]> T.
Hypotheses (Hlev : (length w < length L)%nat)
  (Hup : match w with [] => True | r :: w => is_Some (T !! w) ∧ Z.of_nat (length r) = stride L w end).

Lemma graft_live w' t' : T !! w' = Some t' → w' ≠ w ∧ T' !! w' = Some t' ∧ t_ptr t' ≠ c ∧ t_heap t' ≠ hc.
Proof.
  intros Hw'. assert (w' ≠ w) as Hne by (intros ->; congruence). split; [done|].
  split; [by subst T'; rewrite lookup_insert_ne|].
  destruct (i_table _ _ _ _ I w' t' Hw') as (x & Hx & _). destruct (i_heaps _ _ _ _ I w' t' Hw') as (h & Hh & _).
  split; congruence.
Qed.
Lemma graft_inv w' t' : T' !! w' = Some t' → (w' = w ∧ t' = t) ∨ (w' ≠ w ∧ T !! w' = Some t').
Proof. subst T'. intros [[-> ->]|[? ?]]%lookup_insert_Some; auto. Qed.

Lemma graft_tree_ok : tree_ok L T'.
Proof.
  pose proof (i_tree _ _ _ _ I) as HT. split.
  - intros r w' [t' [[E ->]|[Hne Hw']]%graft_inv].
    + rewrite <-E in Hup. destruct Hup as [[t1 H1] Hr]. split; [|done]. exists t1. by apply (graft_live w').
    + destruct (tr_up _ _ HT r w') as [[t1 H1] Hr]; [by exists t'|]. split; [|done]. exists t1. by apply (graft_live w').
  - intros w' [t' [[-> ->]|[Hne Hw']]%graft_inv]; [done|]. apply (tr_level _ _ HT). by exists t'.
  - intros w' t' [[-> ->]|[Hne Hw']]%graft_inv; [done|]. by eapply (tr_heap_ptr _ _ HT).
  - intros w1 w2 t1 t2 [[-> ->]|[Hne1 H1]]%graft_inv [[-> ->]|[Hne2 H2]]%graft_inv E; try done.
    + destruct (graft_live w2 t2 H2) as (_ & _ & _ & ?). by cbn in E.
    + destruct (graft_live w1 t1 H1) as (_ & _ & _ & ?). by cbn in E.
    + by eapply (tr_heap_inj _ _ HT).
Qed.

Lemma graft_vals w' r : in_table L w' r → vals T' w' r = vals T w' r.
Proof.
  intros [Hr _]. unfold vals. subst T'. destruct (decide (w' = w)) as [->|?]; [|by rewrite lookup_insert_ne].
  rewrite lookup_insert_eq, Hw. rewrite decide_False by (intros ->; cbn in Hr; lia). cbn.
  clear Hr. induction r as [|b r IH] using rev_ind; [done|]. by rewrite best_snoc, lookup_empty.
Qed.
Lemma graft_default : vals T' [] [] = vals T [] [].
Proof.
  unfold vals. subst T'. destruct (decide ([] = w)) as [<-|?]; [|by rewrite lookup_insert_ne].
  by rewrite lookup_insert_eq, Hw.
Qed.

Lemma graft_refs w' :
  refs T' X w' = refs T X w' + if decide (hangs w' w) then 1 else 0.
Proof.
  unfold refs. subst T'. rewrite kids_insert by done. unfold own.
  destruct (decide (w' = w)) as [->|?]; [rewrite lookup_insert_eq, Hw|rewrite lookup_insert_ne by done; lia].
  change (size (t_routes t)) with 0%nat. lia.
Qed.

Lemma graft_refs_new : refs T' X w = 0.
Proof.
  rewrite graft_refs. unfold refs, own. rewrite Hw, (kids_none L) by (done || apply (i_tree _ _ _ _ I)).
  pose proof (i_X _ _ _ _ I w). destruct (decide (0 < X w)) as [Hx|?].
  - destruct (i_live _ _ _ _ I w Hx) as [t' Ht']. congruence.
  - rewrite decide_False; [lia|]. destruct w; cbn; [tauto|]. intros E. apply (f_equal length) in E. cbn in E. lia.
Qed.

(** The heaps with the new one hung in. *)
Definition graft_heaps (h : list Z) : gmap Z (list Z) :=
  let H := <[hc := new_heap c (stride L w) (dflt (vals T) w)]> (heaps s) in
  match w with
  | [] => H
  | r :: w => match T !! w with
              | Some t' => <[t_heap t' := <[Z.to_nat (idx r) := art_heap_to_heap_entry hc]> h]> H
              | None => H
              end
  end.

Definition graft_parent_heap (h : list Z) : Prop :=
  match w with [] => True | _ :: w => ∀ t', T !! w = Some t' → heaps s !! t_heap t' = Some h end.

Lemma graft_cases :
  w = [] ∨ ∃ r w0 t0, w = r :: w0 ∧ T !! w0 = Some t0 ∧ Z.of_nat (length r) = stride L w0.
Proof.
  destruct w as [|r w0]; [by left|]. right. destruct Hup as [[t0 Ht0] Hr]. by exists r, w0, t0.
Qed.

Lemma graft_heaps_ok h :
  graft_parent_heap h →
  heaps_ok L T' (vals T') (graft_heaps h) ∧
  (∀ q, is_Some (graft_heaps h !! q) ↔ q = hc ∨ is_Some (heaps s !! q)).
Proof.
  intros Hh. pose proof (i_tree _ _ _ _ I) as HT. pose proof (inv_strides I) as HL.
  pose proof (stride_cases L HL w Hlev) as Hb.
  assert (∀ w1 r1, in_table L w1 r1 → r1 :: w1 ≠ w → entry T' (vals T') w1 r1 = entry T (vals T) w1 r1) as He.
  { intros w1 r1 Hr1 Hne. unfold entry. rewrite graft_vals by done. subst T'. by rewrite lookup_insert_ne. }
  assert (∀ w1, is_Some (T !! w1) ∨ w1 = w → dflt (vals T') w1 = dflt (vals T) w1) as Hd.
  { intros [|r1 w1] Hw1; [apply graft_default|]. cbn. apply graft_vals.
    assert (is_Some (T !! w1) ∧ Z.of_nat (length r1) = stride L w1) as [[t1 Ht1] Hr1].
    { destruct Hw1 as [Hw1|E]; [by apply (tr_up _ _ HT)|]. by rewrite <-E in Hup. }
    pose proof (inv_stride I w1 t1 Ht1) as Hs1. fold L in Hs1. split; lia. }
  assert (∀ H : gmap Z (list Z), H !! hc = Some (new_heap c (stride L w) (dflt (vals T) w)) →
    ∃ h, H !! t_heap t = Some h ∧ heap_ok L T' (vals T') w t h) as Hnew.
  { intros H HH. eexists. split; [exact HH|]. split; [by apply new_heap_length| | |].
    - by rewrite new_heap_zth.
    - rewrite new_heap_zth, Hd by (done || by right). done.
    - intros r1 Hr1. pose proof (idx_small L w r1 Hr1 ltac:(lia)).
      rewrite new_heap_zth, !decide_False by (done || lia).
      rewrite He; [|done|intros E; apply (f_equal length) in E; cbn in E; lia]. unfold entry.
      rewrite (no_kids L T w r1 HT Hw). unfold vals. by rewrite Hw. }
  assert (∀ w1 t1 h1, T !! w1 = Some t1 → heap_ok L T (vals T) w1 t1 h1 → (∀ r1, r1 :: w1 ≠ w) →
    heap_ok L T' (vals T') w1 t1 h1) as Hold.
  { intros w1 t1 h1 Hw1 [G1 G2 G3 G4] Hne. split; [done..| |].
    - rewrite G3. symmetry. apply Hd. left. by exists t1.
    - intros r1 Hr1. by rewrite G4, He. }
  set (hn := new_heap c (stride L w) (dflt (vals T) w)) in *.
  destruct graft_cases as [Ew|(r & w0 & t0 & Ew & Ht0 & Hr)].
  { assert (graft_heaps h = <[hc := hn]> (heaps s)) as -> by (unfold graft_heaps; fold hn; by rewrite Ew).
    split.
    - intros w1 t1 [[-> ->]|[Hne Hw1]]%graft_inv; [apply Hnew, lookup_insert_eq|].
      destruct (graft_live w1 t1 Hw1) as (_ & _ & _ & Hne1). destruct (i_heaps _ _ _ _ I w1 t1 Hw1) as (h1 & Hh1 & Hok1).
      exists h1. rewrite lookup_insert_ne by done. split; [done|]. apply Hold; [done..|]. by rewrite Ew.
    - intros q. destruct (decide (q = hc)) as [->|?]; [rewrite lookup_insert_eq; split; [by left|by eexists]|].
      rewrite lookup_insert_ne by done. tauto. }
  assert (heaps s !! t_heap t0 = Some h) as Hh0 by (unfold graft_parent_heap in Hh; rewrite Ew in Hh; by apply Hh).
  destruct (graft_live w0 t0 Ht0) as (_ & _ & _ & Hne0).
  destruct (i_heaps _ _ _ _ I w0 t0 Ht0) as (h0 & Hh0' & Hok0). assert (h0 = h) as -> by congruence.
  assert (graft_heaps h = <[t_heap t0 := <[Z.to_nat (idx r) := art_heap_to_heap_entry hc]> h]>
    (<[hc := hn]> (heaps s))) as -> by (unfold graft_heaps; fold hn; rewrite Ew; by rewrite Ht0).
  split.
  - intros w1 t1 [[-> ->]|[Hne Hw1]]%graft_inv; [apply Hnew; rewrite lookup_insert_ne by done; apply lookup_insert_eq|].
    destruct (graft_live w1 t1 Hw1) as (_ & _ & _ & Hne1). destruct (i_heaps _ _ _ _ I w1 t1 Hw1) as (h1 & Hh1 & Hok1).
    destruct (decide (w1 = w0)) as [->|Hne'].
    + assert (t1 = t0) as -> by congruence. assert (h1 = h) as -> by congruence.
      eexists. split; [apply lookup_insert_eq|]. pose proof (inv_stride I w0 t0 Ht0) as Hs0. fold L in Hs0.
      assert (in_table L w0 r) as Hin by (split; lia). pose proof (idx_small L w0 r Hin ltac:(lia)).
      pose proof (hp_length _ _ _ _ _ _ Hok0) as Hlen. fold L in Hlen. destruct Hok0 as [G1 G2 G3 G4].
      split; [by rewrite length_insert|by rewrite zth_insert_ne by lia| |].
      * rewrite zth_insert_ne, G3 by lia. symmetry. apply Hd. left. by exists t0.
      * intros r1 Hr1. pose proof (idx_pos r1). destruct (decide (r1 = r)) as [->|Hner].
        { rewrite zth_insert_eq by lia. unfold entry. subst T'. by rewrite <-Ew, lookup_insert_eq. }
        rewrite zth_insert_ne, G4, He; [done|done|rewrite Ew; congruence|done|lia|lia|].
        intros E%idx_inj. by subst.
    + exists h1. rewrite !lookup_insert_ne; [|done|].
      * split; [done|]. apply Hold; [done..|]. rewrite Ew. congruence.
      * intros E. apply Hne'. by apply (tr_heap_inj _ _ HT w1 w0 t1 t0).
  - intros q. destruct (decide (q = t_heap t0)) as [->|?].
    { rewrite lookup_insert_eq, Hh0. split; [right; by eexists|by eexists]. }
    rewrite lookup_insert_ne by done.
    destruct (decide (q = hc)) as [->|?]; [rewrite lookup_insert_eq; split; [by left|by eexists]|].
    rewrite lookup_insert_ne by done. tauto.
Qed.

Lemma inv_graft a m l h :
  graft_parent_heap h →
  levels_ok a → art_levels a = L → art_root a = default 0 (t_heap <$> T' !! []) →
  (∃ x, m !! c = Some x ∧ table_ok L T' X w t x) →
  (∀ w' t', T !! w' = Some t' → ∃ x, m !! t_ptr t' = Some x ∧ table_ok L T' X w' t' x) →
  (∀ q, q ≠ c → ¬ live_ptr T q → m !! q = tables s !! q) →
  (∀ w', is_Some (T !! w') → refs T' X w' < M32) →
  inv (RTable a (graft_heaps h) m (nodes s) (art_table_gc_list s) (art_node_gc_list s) l) T' X G.
Proof.
  intros Hh Ha HaL Hroot (x & Hx & Hxok) Hm Hmq Hrefs. destruct (graft_heaps_ok h Hh) as [HH Hdom].
  pose proof I as [H1 H2 H3 H4 H5 H6 H7 H8 H9 H10 H11 H12].
  assert (∀ p, live_ptr T' p ↔ p = c ∨ live_ptr T p) as Hlp.
  { intros p. split.
    - intros (w' & t' & [[-> ->]|[_ Hw']]%graft_inv & <-); [by left|right; by exists w', t'].
    - intros [->|(w' & t' & Hw' & <-)]; [exists w, t|exists w', t'; split; [by apply graft_live|done]].
      subst T'. by rewrite lookup_insert_eq. }
  assert (∀ p, live_heap T' p ↔ p = hc ∨ live_heap T p) as Hlh.
  { intros p. split.
    - intros (w' & t' & [[-> ->]|[_ Hw']]%graft_inv & <-); [by left|right; by exists w', t'].
    - intros [->|(w' & t' & Hw' & <-)]; [exists w, t|exists w', t'; split; [by apply graft_live|done]].
      subst T'. by rewrite lookup_insert_eq. }
  destruct H12 as [G1 G2 G3 G4 G5 G6 G7].
  assert (c ∉ G.*1) as Hcg by (intros Hin; destruct (proj2 (G4 c) (or_introl Hin)); congruence).
  assert (hc ∉ G.*2) as Hhg by (intros Hin; destruct (proj2 (G5 hc) (or_introl Hin)); congruence).
  split; cbn; rewrite ?HaL; [done|done|by apply graft_tree_ok|done|..].
  - intros w' t' [[-> ->]|[_ Hw']]%graft_inv; [done|eauto].
  - intros w1 w2 t1 t2 [[-> ->]|[Hne1 K1]]%graft_inv [[-> ->]|[Hne2 K2]]%graft_inv E; try done.
    + destruct (graft_live w2 t2 K2) as (_ & _ & ? & _). by cbn in E.
    + destruct (graft_live w1 t1 K1) as (_ & _ & ? & _). by cbn in E.
    + by eapply H6.
  - intros w' t' [[-> ->]|[_ Hw']]%graft_inv; [by exists x|by apply Hm].
  - intros w' t' r n [[-> ->]|[_ Hw']]%graft_inv Hr; [cbn in Hr; by rewrite lookup_empty in Hr|].
    by apply (H8 w' t').
  - done.
  - intros w' Hw'. destruct (H10 w' Hw') as [t' Ht']. exists t'. by apply graft_live.
  - intros w' [t' [[-> ->]|[_ Hw']]%graft_inv]; [by rewrite graft_refs_new|]. apply Hrefs. by exists t'.
  - split; cbn; try done.
    + eapply gc_chain_ext; [|exact G1]. intros q Hq. apply Hmq; [by intros ->|by apply G6].
    + intros p. rewrite Hlp. destruct (decide (p = c)) as [->|Hne]; [rewrite Hx; split; [by right; left|by eexists]|].
      split.
      * intros Hp. destruct (decide (live_ptr T p)); [tauto|]. rewrite Hmq in Hp by done. apply G4 in Hp. tauto.
      * intros [Hp|[->|(w' & t' & Hw' & <-)]]; [|done|destruct (Hm w' t' Hw') as (y & -> & _); by eexists].
        rewrite Hmq by (done || by apply G6). apply G4. by left.
    + intros p. rewrite Hlh, Hdom, G5. tauto.
    + intros p Hp [->|Hl]%Hlp; [done|]. by eapply G6.
    + intros p Hp [->|Hl]%Hlh; [done|]. by eapply G7.
Qed.
End graft.

(** Tables other than the parent of the new one. *)
Lemma graft_table_ok L T X w t0 w' t' x :
  tree_ok L T → T !! w = None → T !! w' = Some t' → t_routes t0 = ∅ → ¬ hangs w' w →
  table_ok L T X w' t' x → table_ok L (<[w := t0]> T) X w' t' x.
Proof.
  intros HT Hw Hw' Ht0 Hh [K1 K2 K3 K4 K5 K6 K7 K8]. split; try done.
  - rewrite K2. destruct w' as [|r' w']; [done|]. rewrite lookup_insert_ne; [done|]. intros ->.
    destruct (tr_up L T HT r' w') as [[? ?] _]; [by exists t'|congruence].
  - rewrite K8. unfold refs. rewrite kids_insert, decide_False by done. unfold own.
    rewrite lookup_insert_ne by (intros ->; congruence). lia.
Qed.

Lemma inv_graft_child s T X G w t r c hc y h l :
  inv s T X G → T !! w = Some t → T !! (r :: w) = None →
  Z.of_nat (length r) = stride (art_levels (the_art s)) w → (S (length w) < length (art_levels (the_art s)))%nat →
  ptr c → ptr hc → tables s !! c = None → heaps s !! hc = None →
  tables s !! t_ptr t = Some y → heaps s !! t_heap t = Some h → refs T X w + 1 < M32 →
  inv (RTable (the_art s)
      (<[t_heap t := <[Z.to_nat (idx r) := art_heap_to_heap_entry hc]> h]>
        (<[hc := new_heap c (stride (art_levels (the_art s)) (r :: w)) (vals T w r)]> (heaps s)))
      (<[t_ptr t := set_refcnt (u32 (at_refcnt y + 1)) y]>
        (<[c := new_table hc (t_ptr t) (idx r) (Z.of_nat (length (r :: w)))
                  (stride (art_levels (the_art s)) (r :: w)) (Z.of_nat (length (flat (r :: w))))]> (tables s)))
      (nodes s) (art_table_gc_list s) (art_node_gc_list s) l)
    (<[r :: w := Tab c hc ∅]> T) X G.
Proof.
  intros I Hw Hn Hr Hlv Hcp Hhp Hc Hhc Hy Hh Hrefs. pose proof (i_tree _ _ _ _ I) as HT.
  pose proof (inv_graft s T X G (r :: w) c hc I Hn Hc Hhc Hcp Hhp Hlv) as Hg. cbn [is_Some] in Hg.
  specialize (Hg ltac:(split; [by exists t|done]) (the_art s)).
  unfold graft_heaps, graft_parent_heap in Hg. rewrite Hw in Hg. apply Hg; clear Hg.
  - intros t' [= <-]. done.
  - apply (i_art _ _ _ _ I).
  - done.
  - rewrite (i_root _ _ _ _ I). by rewrite lookup_insert_ne.
  - assert (c ≠ t_ptr t) by (intros ->; congruence). rewrite lookup_insert_ne, lookup_insert_eq by done.
    eexists. split; [done|]. split; cbn; try done.
    + rewrite lookup_insert_ne; [by rewrite Hw|]. intros E. apply (f_equal length) in E. cbn in E. lia.
    + symmetry. apply (graft_refs_new s T X G (r :: w) c hc I Hn); [done|]. split; [by exists t|done].
  - intros w' t' Hw'. destruct (i_table _ _ _ _ I w' t' Hw') as (x & Hx & Hok).
    destruct (decide (w' = w)) as [->|Hne].
    + assert (t' = t) as -> by congruence. assert (x = y) as -> by congruence. rewrite lookup_insert_eq.
      eexists. split; [done|]. pose proof (refs_nonneg I w). destruct Hok as [K1 K2 K3 K4 K5 K6 K7 K8]. split; try done.
      * cbn. rewrite K2. destruct w as [|r' w]; [done|]. rewrite lookup_insert_ne; [done|].
        intros E. apply (f_equal length) in E. cbn in E. lia.
      * cbn. rewrite K8, (graft_refs s T X (r :: w) c hc Hn Hlv). cbn [hangs]. rewrite decide_True by done.
        apply u32_small. unfold is_u32. lia.
    + exists x. rewrite !lookup_insert_ne; [|intros ->; congruence|].
      * split; [done|]. by apply graft_table_ok; [..|intros E; cbn in E|].
      * intros E. apply Hne. by apply (i_ptr_inj _ _ _ _ I w' w t' t).
  - intros q Hqc Hq. rewrite !lookup_insert_ne; [done|done|]. intros <-. apply Hq. by exists w, t.
  - intros w' Hw'. rewrite (graft_refs s T X (r :: w) c hc Hn Hlv). cbn [hangs].
    pose proof (i_refs _ _ _ _ I w' Hw'). case_decide; [subst w'; lia|lia].
Qed.

Lemma inv_graft_root s T X G c hc l :
  inv s T X G → T !! [] = None → ptr c → ptr hc → tables s !! c = None → heaps s !! hc = None →
  inv (RTable (MkArt hc (art_levels (the_art s)) (art_nlevels (the_art s)) (art_alen (the_art s)))
      (<[hc := new_heap c (stride (art_levels (the_art s)) []) 0]> (heaps s))
      (<[c := new_table hc 0 UINT_MAX 0 (stride (art_levels (the_art s)) []) 0]> (tables s))
      (nodes s) (art_table_gc_list s) (art_node_gc_list s) l)
    (<[[] := Tab c hc ∅]> T) X G.
Proof.
  intros I Hn Hcp Hhp Hc Hhc. pose proof (i_tree _ _ _ _ I) as HT. pose proof (i_art _ _ _ _ I) as [A1 A2 A3 A4].
  assert (0 < length (art_levels (the_art s)))%nat as Hlv.
  { destruct (art_levels (the_art s)); [cbn in A3; lia|cbn; lia]. }
  pose proof (inv_graft s T X G [] c hc I Hn Hc Hhc Hcp Hhp Hlv Logic.I) as Hg.
  assert (dflt (vals T) [] = 0) as Hd by (cbn; unfold vals; by rewrite Hn).
  unfold graft_heaps in Hg. rewrite Hd in Hg.
  apply (Hg (MkArt hc (art_levels (the_art s)) (art_nlevels (the_art s)) (art_alen (the_art s))) _ _ []); clear Hg; try done.
  - by rewrite lookup_insert_eq.
  - rewrite lookup_insert_eq. eexists. split; [done|]. split; cbn; try done.
    symmetry. by apply (graft_refs_new s T X G [] c hc I Hn).
  - intros w' t' Hw'. destruct (i_table _ _ _ _ I w' t' Hw') as (x & Hx & Hok). exists x.
    rewrite lookup_insert_ne by (intros ->; congruence). split; [done|].
    by apply graft_table_ok; [..|intros []|].
  - intros q Hqc _. by rewrite lookup_insert_ne.
  - intros w' Hw'. rewrite (graft_refs s T X [] c hc Hn Hlv). cbn [hangs]. rewrite decide_False by tauto.
    pose proof (i_refs _ _ _ _ I w' Hw'). lia.
Qed.

(** ** Changing the routes of a table *)

Section set_routes.
Context (s : rtable) (T : tree) (X : path → Z) (G : list (Z * Z)) (w : path) (t : tab) (m : routes).
Hypotheses (I : inv s T X G) (Hw : T !! w = Some t).
Abbreviation L := (art_levels (the_art s)).
Let t' := Tab (t_ptr t) (t_heap t) m.
Let T' := <[w := t']> T.
Let d := Z.of_nat (size (t_routes t)) - Z.of_nat (size m).

Lemma reroute_inv w1 t1 : T' !! w1 = Some t1 →
  ∃ t0, T !! w1 = Some t0 ∧ t_ptr t0 = t_ptr t1 ∧ t_heap t0 = t_heap t1.
Proof.
  subst T'. intros [[<- <-]|[Hne H1]]%lookup_insert_Some; [by exists t|by exists t1].
Qed.
Lemma reroute_live w1 t0 : T !! w1 = Some t0 →
  ∃ t1, T' !! w1 = Some t1 ∧ t_ptr t1 = t_ptr t0 ∧ t_heap t1 = t_heap t0.
Proof.
  intros H1. subst T'. destruct (decide (w1 = w)) as [->|Hne].
  - exists t'. rewrite lookup_insert_eq. assert (t0 = t) as -> by congruence. done.
  - exists t0. by rewrite lookup_insert_ne.
Qed.

Lemma reroute_some w1 : is_Some (T' !! w1) ↔ is_Some (T !! w1).
Proof.
  split.
  - intros [t1 H1]. destruct (reroute_inv w1 t1 H1) as (t0 & H0 & _). by exists t0.
  - intros [t0 H0]. destruct (reroute_live w1 t0 H0) as (t1 & H1 & _). by exists t1.
Qed.

Lemma reroute_tree_ok : tree_ok L T'.
Proof.
  destruct (i_tree _ _ _ _ I) as [K1 K2 K3 K4]. split.
  - intros r w1 Hr. rewrite reroute_some in *. by apply K1.
  - intros w1. rewrite reroute_some. apply K2.
  - intros w1 t1 H1. destruct (reroute_inv w1 t1 H1) as (t0 & H0 & _ & <-). by apply (K3 w1).
  - intros w1 w2 t1 t2 H1 H2 E. destruct (reroute_inv w1 t1 H1) as (t3 & H3 & _ & E3).
    destruct (reroute_inv w2 t2 H2) as (t4 & H4 & _ & E4). apply (K4 w1 w2 t3 t4); congruence.
Qed.

Lemma reroute_ptr w1 : t_ptr <$> T' !! w1 = t_ptr <$> T !! w1.
Proof.
  destruct (T !! w1) as [t0|] eqn:E.
  - destruct (reroute_live w1 t0 E) as (t1 & -> & E1 & _). cbn. by rewrite E1.
  - destruct (T' !! w1) as [t1|] eqn:E1; [|done]. destruct (reroute_inv w1 t1 E1) as (t0 & H0 & _). congruence.
Qed.

Lemma reroute_heaps F H : heaps_ok L T F H → heaps_ok L T' F H.
Proof.
  intros HH w1 t1 H1. destruct (reroute_inv w1 t1 H1) as (t0 & H0 & E1 & E2).
  destruct (HH w1 t0 H0) as (h & Hh & [K1 K2 K3 K4]). exists h. rewrite <-E2. split; [done|].
  split; [done|by rewrite <-E1|done|]. intros r Hr. rewrite K4 by done. unfold entry.
  destruct (T !! (r :: w1)) as [c|] eqn:Ec.
  - destruct (reroute_live _ c Ec) as (c1 & -> & _ & ->). done.
  - destruct (T' !! (r :: w1)) as [c1|] eqn:Ec1; [|done]. destruct (reroute_inv _ c1 Ec1) as (c0 & H2 & _). congruence.
Qed.

Lemma reroute_refs w1 : refs T' (add_at X w d) w1 = refs T X w1.
Proof.
  unfold refs, own. subst T'. rewrite (kids_update T w1 w t t' Hw). destruct (decide (w1 = w)) as [->|Hne].
  - rewrite lookup_insert_eq, Hw, add_at_eq. subst d. cbn. lia.
  - by rewrite lookup_insert_ne, add_at_ne.
Qed.

Lemma inv_set_routes s' :
  (∀ r n, m !! r = Some n → place L w r ∧ ptr n ∧ node_is s n (flat w ++ r)) →
  0 ≤ X w + d → only_heaps T s s' → heaps_ok L T (vals T') (heaps s') →
  inv s' T' (add_at X w d) G.
Proof.
  intros Hm Hd (H & -> & Hoth) HH. pose proof (reroute_heaps _ _ HH) as HH'. cbn in HH, HH'.
  pose proof I as [H1 H2 H3 H4 H5 H6 H7 H8 H9 H10 H11 H12]. split; cbn; try done.
  - rewrite H2. destruct (T !! []) as [t0|] eqn:E.
    + destruct (reroute_live [] t0 E) as (t1 & -> & _ & E1). cbn. by rewrite E1.
    + destruct (T' !! []) as [t1|] eqn:E1; [|done]. destruct (reroute_inv [] t1 E1) as (t0 & H0 & _). congruence.
  - apply reroute_tree_ok.
  - intros w1 t1 K1. destruct (reroute_inv w1 t1 K1) as (t0 & K0 & <- & _). by apply (H5 w1).
  - intros w1 w2 t1 t2 K1 K2 E. destruct (reroute_inv w1 t1 K1) as (t3 & K3 & E3 & _).
    destruct (reroute_inv w2 t2 K2) as (t4 & K4 & E4 & _). apply (H6 w1 w2 t3 t4); congruence.
  - intros w1 t1 K1. destruct (reroute_inv w1 t1 K1) as (t0 & K0 & E1 & E2).
    destruct (H7 w1 t0 K0) as (x & Hx & [M1 M2 M3 M4 M5 M6 M7 M8]). exists x. rewrite <-E1. split; [done|].
    split; try done; [congruence| |by rewrite reroute_refs].
    rewrite M2. destruct w1; [done|]. by rewrite reroute_ptr.
  - intros w1 t1 r n K1 Hr. subst T'. apply lookup_insert_Some in K1 as [[<- <-]|[Hne K1]]; [by apply Hm|].
    by apply (H8 w1 t1).
  - intros w1. destruct (decide (w1 = w)) as [->|?]; [by rewrite add_at_eq|by rewrite add_at_ne].
  - intros w1 Hp. rewrite reroute_some. destruct (decide (w1 = w)) as [->|?]; [by exists t|].
    rewrite add_at_ne in Hp by done. by apply H10.
  - intros w1. rewrite reroute_some, reroute_refs. apply H11.
  - assert (∀ p, live_ptr T' p ↔ live_ptr T p) as Hlp.
    { intros p. split; intros (w1 & t1 & K1 & <-).
      - destruct (reroute_inv w1 t1 K1) as (t0 & K0 & E1 & _). by exists w1, t0.
      - destruct (reroute_live w1 t1 K1) as (t0 & K0 & E1 & _). by exists w1, t0. }
    assert (∀ p, live_heap T' p ↔ live_heap T p) as Hlh.
    { intros p. split; intros (w1 & t1 & K1 & <-).
      - destruct (reroute_inv w1 t1 K1) as (t0 & K0 & _ & E1). by exists w1, t0.
      - destruct (reroute_live w1 t1 K1) as (t0 & K0 & _ & E1). by exists w1, t0. }
    destruct H12 as [G1 G2 G3 G4 G5 G6 G7]. split; cbn; try done.
    + intros p. by rewrite Hlp.
    + intros p. rewrite Hlh, <-G5. destruct (decide (live_heap T p)) as [(w1 & t1 & K1 & <-)|Hn].
      * destruct (HH w1 t1 K1) as (h & -> & _). destruct (H4 w1 t1 K1) as (h1 & -> & _). split; by eexists.
      * rewrite Hoth; [done|]. intros w1 t1 K1 E. apply Hn. by exists w1, t1.
    + intros p. rewrite Hlp. apply G6.
    + intros p. rewrite Hlh. apply G7.
Qed.
End set_routes.
