(* ===== verification/ArtOps.v ===== *)
(** The operations of [Art] on routes under the invariant of [ArtInv]: looking
    up, inserting and deleting, each against the set of routes that the tree
    holds. *)

From S2P Require Import Prelude StateMonad Art ArtTable ArtMem ArtInv.

(** ** The routes of a tree *)

(** The node [n] is the route of the prefix [p]. *)
Definition route_at (T : tree) (p : list bool) (n : Z) : Prop :=
  ∃ w t r, T !! w = Some t ∧ t_routes t !! r = Some n ∧ p = flat w ++ r.

(** [d] is the longest route of at most [k] bits for the address [a], or NULL. *)
Definition longest (T : tree) (a : list bool) (k : nat) (d : Z) : Prop :=
  (d = 0 ∧ ∀ p n, route_at T p n → p `prefix_of` a → ¬ (length p ≤ k)%nat) ∨
  (∃ p, route_at T p d ∧ p `prefix_of` a ∧ (length p ≤ k)%nat ∧
     ∀ q n, route_at T q n → q `prefix_of` a → (length q ≤ k)%nat → (length q ≤ length p)%nat).

(** An address that the table can be asked about. *)
Definition addr_ok (s : rtable) (addr : list Z) : Prop :=
  bytes addr ∧ art_alen (the_art s) ≤ 8 * Z.of_nat (length addr).

(** The next stride of [addr] below [w]. *)
Definition next (L : list Z) (addr : list Z) (w : path) : list bool :=
  rel addr (Z.of_nat (length (flat w))) (Z.of_nat (length (flat w)) + stride L w).

Lemma prefix_eq {A} (p q a : list A) : p `prefix_of` a → q `prefix_of` a → length p = length q → p = q.
Proof. intros [k ->] [k' Hk] Hl. by apply app_inj_1 in Hk as [? _]. Qed.

Lemma prefix_take {A} (a : list A) n : take n a `prefix_of` a.
Proof. exists (drop n a). by rewrite take_drop. Qed.

Lemma prefix_is_take {A} (p a : list A) : p `prefix_of` a → p = take (length p) a.
Proof. intros [k ->]. by rewrite take_app_length. Qed.

Section along.
Context {s : rtable} {T : tree} {X : path → Z} {G : list (Z * Z)} (I : inv s T X G).
Abbreviation L := (art_levels (the_art s)).

Lemma ancestor w k : is_Some (T !! w) → (k ≤ length w)%nat →
  is_Some (T !! drop k w) ∧ flat (drop k w) `prefix_of` flat w.
Proof.
  revert w. induction k as [|k IH]; intros w Hw Hk; [by rewrite drop_0|].
  destruct w as [|r w]; [cbn in Hk; lia|]. destruct (tr_up _ _ (i_tree _ _ _ _ I) r w Hw) as [Hw' _].
  destruct (IH w Hw' ltac:(cbn in Hk; lia)) as [H1 H2]. split; [done|]. cbn. by apply prefix_app_r.
Qed.

(** The live tables along an address, by level. *)
Lemma along_unique a w w' :
  is_Some (T !! w) → is_Some (T !! w') → flat w `prefix_of` a → flat w' `prefix_of` a →
  length w = length w' → w = w'.
Proof.
  intros [t Hw] [t' Hw'] Hp Hp' Hl. eapply (flat_inj I); [done..|]. apply (prefix_eq _ _ a); [done..|].
  pose proof (flat_off I w t Hw). pose proof (flat_off I w' t' Hw'). rewrite Hl in *. lia.
Qed.

Lemma route_table p n : route_at T p n →
  ∃ w t r, T !! w = Some t ∧ t_routes t !! r = Some n ∧ p = flat w ++ r ∧ place L w r ∧ ptr n ∧ node_is s n p.
Proof.
  intros (w & t & r & Hw & Hr & ->). destruct (i_routes _ _ _ _ I w t r n Hw Hr) as (? & ? & ?). by exists w, t, r.
Qed.

Lemma route_unique p n n' : route_at T p n → route_at T p n' → n = n'.
Proof.
  intros (w & t & r & Hw & Hr & -> & Hp & _)%route_table (w' & t' & r' & Hw' & Hr' & E & Hp' & _)%route_table.
  destruct (place_inj I w w' t t' r r' Hw Hw' Hp Hp' E) as [-> ->]. congruence.
Qed.

(** The level of a route, from its length. *)
Lemma route_level w t r w' t' :
  T !! w = Some t → T !! w' = Some t' → place L w' r →
  let p := length (flat w' ++ r) in
  (Z.of_nat p ≤ Z.of_nat (length (flat w)) → w' = [] ∧ r = [] ∨ (length w' < length w)%nat) ∧
  (Z.of_nat (length (flat w)) < Z.of_nat p ≤ Z.of_nat (length (flat w)) + stride L w → length w' = length w) ∧
  (Z.of_nat (length (flat w)) + stride L w < Z.of_nat p → (length w < length w')%nat).
Proof.
  intros Hw Hw' Hp p. subst p. rewrite length_app. pose proof (flat_off I w t Hw) as E. pose proof (flat_off I w' t' Hw') as E'.
  pose proof (off_S L (length w)) as S1. pose proof (off_S L (length w')) as S2.
  fold (stride L w) in S1. fold (stride L w') in S2.
  pose proof (off_mono I (S (length w)) (length w')). pose proof (off_mono I (S (length w')) (length w)).
  pose proof (off_mono I (length w) (length w')). pose proof (off_mono I (length w') (length w)).
  pose proof (inv_stride I w t Hw). pose proof (inv_stride I w' t' Hw').
  destruct Hp as [[Ha Hb]|[-> ->]].
  - destruct (Nat.lt_trichotomy (length w) (length w')) as [Hl|[Hl|Hl]].
    + specialize (H ltac:(lia)). split; [|split]; intros; lia.
    + rewrite Hl in *. assert (stride L w = stride L w') by (unfold stride; by rewrite Hl).
      split; [|split]; intros; lia.
    + specialize (H0 ltac:(lia)). split; [|split]; intros; [by right|lia..].
  - cbn [length flat app] in *. split; [by left|]. split; lia.
Qed.

(** A route of the address that is longer than what [w] covers is below [w]. *)
Lemma below_live a w t p n :
  T !! w = Some t → flat w `prefix_of` a → route_at T p n → p `prefix_of` a →
  Z.of_nat (length (flat w)) + stride L w < Z.of_nat (length p) →
  ∃ r, is_Some (T !! (r :: w)) ∧ flat (r :: w) `prefix_of` a.
Proof.
  intros Hw Ha (w' & t' & r' & Hw' & Hr' & -> & Hp & _)%route_table Hpa Hlong.
  destruct (route_level w t r' w' t' Hw Hw' Hp) as (_ & _ & Hl). specialize (Hl Hlong).
  assert (flat w' `prefix_of` a) as Ha' by (etrans; [by eexists|exact Hpa]).
  destruct (ancestor w' (length w' - S (length w))) as [H1 H2]; [by exists t'|lia|].
  destruct (ancestor w' (length w' - length w)) as [H3 H4]; [by exists t'|lia|].
  assert (drop (length w' - length w) w' = w) as E.
  { apply (along_unique a); [done|by exists t|by etrans|done|]. rewrite length_drop. lia. }
  destruct (drop (length w' - S (length w)) w') as [|r w0] eqn:E1.
  { apply (f_equal length) in E1. rewrite length_drop in E1. cbn in E1. lia. }
  exists r. replace w with w0; [split; [done|by etrans]|].
  rewrite <-E. replace (length w' - length w)%nat with (1 + (length w' - S (length w)))%nat by lia.
  by rewrite Nat.add_comm, <-drop_drop, E1.
Qed.

(** The routes of the address that the table [w] has. *)
Lemma here_live a w t p n :
  T !! w = Some t → flat w `prefix_of` a → route_at T p n → p `prefix_of` a →
  Z.of_nat (length (flat w)) < Z.of_nat (length p) ≤ Z.of_nat (length (flat w)) + stride L w →
  ∃ r, t_routes t !! r = Some n ∧ p = flat w ++ r.
Proof.
  intros Hw Ha (w' & t' & r' & Hw' & Hr' & -> & Hp & _)%route_table Hpa Hlen.
  destruct (route_level w t r' w' t' Hw Hw' Hp) as (_ & Hl & _). specialize (Hl Hlen).
  assert (w' = w) as ->.
  { apply (along_unique a); [by exists t'|by exists t|etrans; [by eexists|exact Hpa]|done|done]. }
  exists r'. split; [congruence|done].
Qed.

(** The longest route, one table further down. *)
Lemma longest_step a w t r d :
  T !! w = Some t → in_table L w r → flat w ++ r `prefix_of` a →
  longest T a (length (flat w)) d →
  longest T a (length (flat w ++ r)) (if best (t_routes t) r =? 0 then d else best (t_routes t) r).
Proof.
  intros Hw Hr Ha Hd. assert (flat w `prefix_of` a) as Haw by (etrans; [by eexists|exact Ha]).
  assert (∀ p n, route_at T p n → p `prefix_of` a → (length (flat w) < length p ≤ length (flat w ++ r))%nat →
    ∃ r', t_routes t !! r' = Some n ∧ p = flat w ++ r' ∧ r' `prefix_of` r ∧ r' ≠ []) as Hin.
  { intros p n Hp Hpa Hl. destruct Hr as [Hr1 Hr2]. rewrite length_app in Hl.
    destruct (here_live a w t p n Hw Haw Hp Hpa ltac:(lia)) as (r' & Hr' & ->). exists r'.
    split; [done|]. split; [done|]. rewrite length_app in Hl. split; [|by intros ->; cbn in Hl; lia].
    assert (flat w ++ r' = take (length (flat w ++ r')) (flat w ++ r)) as E.
    { rewrite (prefix_is_take _ _ Hpa) at 1. rewrite (prefix_is_take _ _ Ha), take_take. f_equal.
      rewrite !length_app. lia. }
    rewrite length_app, take_app_add in E. apply app_inv_head in E. rewrite E. apply prefix_take. }
  destruct (best_inv (t_routes t) r) as [[-> Hno]|(p & Hne & Hp & Hm & Hmax)].
  - cbn [Z.eqb]. destruct Hd as [[-> Hd]|(p & Hp & Hpa & Hpl & Hmax)].
    + left. split; [done|]. intros p n Hp Hpa Hl. destruct (decide (length p ≤ length (flat w))%nat); [by eapply Hd|].
      destruct (Hin p n Hp Hpa ltac:(lia)) as (r' & Hr' & _ & Hpre & Hne). by rewrite Hno in Hr'.
    + right. exists p. split; [done|]. split; [done|]. split; [rewrite length_app; lia|]. intros q n Hq Hqa Hl.
      destruct (decide (length q ≤ length (flat w))%nat); [by eapply Hmax|].
      destruct (Hin q n Hq Hqa ltac:(lia)) as (r' & Hr' & _ & Hpre & Hne). by rewrite Hno in Hr'.
  - destruct (i_routes _ _ _ _ I w t p _ Hw Hm) as (_ & [[Hpos _] _] & _).
    rewrite (proj2 (Z.eqb_neq _ _)) by lia. right. exists (flat w ++ p). split; [by exists w, t, p|].
    split; [etrans; [by apply prefix_app|exact Ha]|]. pose proof (prefix_length _ _ Hp).
    split; [rewrite !length_app; lia|]. intros q n Hq Hqa Hl. rewrite length_app.
    destruct (decide (length q ≤ length (flat w))%nat); [lia|].
    destruct (Hin q n Hq Hqa ltac:(lia)) as (r' & Hr' & -> & Hpre & _). rewrite length_app.
    specialize (Hmax _ _ Hpre Hr'). lia.
Qed.

(** *** Indices along an address *)

Context (addr : list Z) (Haddr : addr_ok s addr).

Lemma bindex_at w t plen :
  T !! w = Some t →
  Z.of_nat (length (flat w)) ≤ plen ≤ Z.of_nat (length (flat w)) + stride L w →
  art_bindex (Z.of_nat (length (flat w))) (stride L w) addr plen =
    Ret (idx (rel addr (Z.of_nat (length (flat w))) plen)).
Proof.
  intros Hw Hp. destruct Haddr as [Hb Hl]. pose proof (flat_room I w t Hw). pose proof (inv_stride I w t Hw).
  apply art_bindex_rel; try lia; [done|]. pose proof (Z.mod_pos_bound (Z.of_nat (length (flat w))) 8). lia.
Qed.

(** What the table [w] sees of the first [plen] bits. *)
Lemma rel_app w t plen :
  T !! w = Some t → flat w `prefix_of` abits addr →
  Z.of_nat (length (flat w)) ≤ plen ≤ Z.of_nat (length (flat w)) + stride L w →
  flat w ++ rel addr (Z.of_nat (length (flat w))) plen = pbits addr plen ∧
  Z.of_nat (length (rel addr (Z.of_nat (length (flat w))) plen)) = plen - Z.of_nat (length (flat w)).
Proof.
  intros Hw Ha Hp. destruct Haddr as [Hb Hl]. pose proof (flat_room I w t Hw). split.
  - unfold rel, pbits. rewrite (prefix_is_take _ _ Ha) at 1. rewrite Nat2Z.id, take_take_drop. f_equal. lia.
  - rewrite rel_length by lia. lia.
Qed.

Lemma rel_in_table w t plen :
  T !! w = Some t → flat w `prefix_of` abits addr →
  Z.of_nat (length (flat w)) < plen ≤ Z.of_nat (length (flat w)) + stride L w →
  in_table L w (rel addr (Z.of_nat (length (flat w))) plen).
Proof. intros Hw Ha Hp. destruct (rel_app w t plen Hw Ha ltac:(lia)) as [_ E]. split; lia. Qed.

Lemma next_in_table w t :
  T !! w = Some t → flat w `prefix_of` abits addr →
  in_table L w (next L addr w) ∧ Z.of_nat (length (next L addr w)) = stride L w ∧
  flat (next L addr w :: w) = pbits addr (Z.of_nat (length (flat w)) + stride L w) ∧
  flat (next L addr w :: w) `prefix_of` abits addr.
Proof.
  intros Hw Ha. pose proof (inv_stride I w t Hw).
  destruct (rel_app w t (Z.of_nat (length (flat w)) + stride L w) Hw Ha ltac:(lia)) as [E1 E2].
  split; [apply (rel_in_table w t); [done|done|lia]|]. split; [unfold next; lia|]. unfold next. cbn [flat].
  rewrite E1. split; [done|apply prefix_take].
Qed.

(** Where no table hangs, there are no longer routes. *)
Lemma leaf_end w t p n :
  T !! w = Some t → flat w `prefix_of` abits addr → T !! (next L addr w :: w) = None →
  route_at T p n → p `prefix_of` abits addr →
  Z.of_nat (length p) ≤ Z.of_nat (length (flat w)) + stride L w.
Proof.
  intros Hw Ha Hn Hp Hpa. apply Z.nlt_ge. intros Hlong.
  destruct (below_live _ w t p n Hw Ha Hp Hpa Hlong) as (r & [t' Hr] & Hra).
  destruct (next_in_table w t Hw Ha) as (_ & Hl & _ & Hna).
  replace r with (next L addr w) in Hr; [congruence|].
  destruct (length_flat I w r t' Hr) as (_ & _ & Hlr).
  cbn in Hra, Hna. assert (flat w ++ next L addr w = flat w ++ r) as E.
  { apply (prefix_eq _ _ (abits addr)); [done..|]. rewrite !length_app. lia. }
  by apply app_inv_head in E.
Qed.
End along.

(** ** Lookups *)

Section lookups.
Context (s : rtable) (T : tree) (X : path → Z) (G : list (Z * Z)) (I : inv s T X G).
Context (addr : list Z) (Haddr : addr_ok s addr).
Abbreviation L := (art_levels (the_art s)).
Abbreviation a := (abits addr).

Lemma runs_level_bits w t Q :
  T !! w = Some t → Q (stride L w) s → runs (level_bits (Z.of_nat (length w))) s Q.
Proof.
  intros Hw HQ. pose proof (inv_level I w ltac:(by exists t)). eexists _, s. split; [|exact HQ].
  unfold level_bits, lift. by rewrite load_zth by lia.
Qed.

Lemma offset_u32 w t : T !! w = Some t →
  u32 (Z.of_nat (length (flat w)) + stride L w) = Z.of_nat (length (flat w)) + stride L w.
Proof.
  intros Hw. pose proof (flat_room I w t Hw). pose proof (inv_stride I w t Hw).
  apply u32_small. unfold is_u32. lia.
Qed.

Lemma longest_end w t d n :
  T !! w = Some t → flat w `prefix_of` a → T !! (next L addr w :: w) = None →
  longest T a (length (flat w)) d →
  n = (if best (t_routes t) (next L addr w) =? 0 then d else best (t_routes t) (next L addr w)) →
  longest T a (length a) n.
Proof.
  intros Hw Ha Hn Hd ->. destruct (next_in_table I addr Haddr w t Hw Ha) as (Hin & Hl & _ & Hna). cbn in Hna.
  pose proof (longest_step I a w t _ d Hw Hin Hna Hd) as H. pose proof (prefix_length _ _ Hna) as Hla.
  assert (∀ q n, route_at T q n → q `prefix_of` a → (length q ≤ length (flat w ++ next L addr w))%nat) as Hend.
  { intros q n Hq Hqa. pose proof (leaf_end I addr Haddr w t q n Hw Ha Hn Hq Hqa). rewrite length_app. lia. }
  destruct H as [[-> H]|(p & Hp & Hpa & Hpl & Hmax)].
  - left. split; [done|]. intros p n Hp Hpa _. eapply H; [done..|]. by eapply Hend.
  - right. exists p. split; [done|]. split; [done|]. split; [lia|]. intros q n Hq Hqa _. eapply Hmax; [done..|].
    by eapply Hend.
Qed.

Lemma match_loop_spec fuel : ∀ w t dahe Q,
  T !! w = Some t → flat w `prefix_of` a → (length L ≤ fuel + length w)%nat →
  longest T a (length (flat w)) (if dflt (vals T) w =? 0 then dahe else dflt (vals T) w) →
  (∀ n, longest T a (length a) n → Q n s) →
  runs (match_loop fuel addr (Z.of_nat (length (flat w))) (Z.of_nat (length w)) (t_heap t) dahe) s Q.
Proof.
  induction fuel as [|fuel IH]; intros w t dahe Q Hw Ha Hf Hd HQ.
  { pose proof (inv_level I w ltac:(by exists t)). lia. }
  pose proof (inv_strides I) as HL. pose proof (inv_stride I w t Hw) as Hst.
  destruct (next_in_table I addr Haddr w t Hw Ha) as (Hin & Hl & _ & Hna).
  cbn [match_loop]. run_step. apply (runs_level_bits w t); [done|].
  run_step. apply (runs_get_default _ HL T (vals T) s (inv_view I) w t _ Hw).
  rewrite (offset_u32 w t Hw). run_step. eapply runs_lift.
  { apply (bindex_at I addr Haddr w t); [done|lia]. }
  fold (next L addr w). run_step. apply (runs_get_entry _ HL T (vals T) s (inv_view I) w t); [done..|].
  set (d := if dflt (vals T) w =? 0 then dahe else dflt (vals T) w) in *.
  assert ((if negb (dflt (vals T) w =? 0) then dflt (vals T) w else dahe) = d) as ->
    by (subst d; by destruct (_ =? 0)).
  assert (next L addr w ≠ []) as Hne by (intros E; rewrite E in Hl; cbn in Hl; lia).
  destruct (T !! (next L addr w :: w)) as [t'|] eqn:Hc.
  - destruct (entry_child L T (vals T) s (inv_view I) w (next L addr w) t' Hc) as [-> ->].
    pose proof (inv_level I (next L addr w :: w) ltac:(by exists t')) as Hlv. cbn [length] in Hlv.
    run_step. run_step. run_step. run_step.
    { rewrite (lv_nlevels _ (i_art _ _ _ _ I)), (proj2 (Z.ltb_lt _ _)) by lia. done. }
    replace (Z.of_nat (length (flat w)) + stride L w) with (Z.of_nat (length (flat (next L addr w :: w))))
      by (cbn; rewrite length_app; lia).
    replace (Z.of_nat (length w) + 1) with (Z.of_nat (length (next L addr w :: w))) by (cbn; lia).
    apply (IH (next L addr w :: w) t' d Q Hc Hna ltac:(cbn; lia)); [|done].
    cbn [dflt]. rewrite (vals_best T w t) by done. by apply (longest_step I a w t).
  - destruct (entry_leaf L T (vals T) s (inv_view I) w t (next L addr w) Hw Hin Hc) as [-> ->].
    rewrite (vals_best T w t) by done.
    pose proof (longest_end w t d _ Hw Ha Hc Hd eq_refl) as Hend.
    unfold art_heap_entry_to_node. destruct (best (t_routes t) (next L addr w) =? 0); cbn [negb]; run_step; by apply HQ.
Qed.

(** Nothing is found in an empty table. *)
Lemma empty_tree p n : T !! [] = None → ¬ route_at T p n.
Proof.
  intros H0 (w & t & r & Hw & _). destruct (ancestor I w (length w)) as [H _]; [by exists t|done|].
  rewrite drop_all, H0 in H. by destruct H.
Qed.

Lemma root_cases :
  (art_root (the_art s) = 0 ∧ T !! [] = None) ∨
  (∃ t, T !! [] = Some t ∧ art_root (the_art s) = t_heap t ∧ t_heap t ≠ 0).
Proof.
  rewrite (i_root _ _ _ _ I). destruct (T !! []) as [t|] eqn:Ht; [right|by left].
  exists t. split; [done|]. split; [done|]. destruct (tr_heap_ptr _ _ (i_tree _ _ _ _ I) _ _ Ht) as [? _]. lia.
Qed.

Lemma default_route t n : T !! [] = Some t → default 0 (t_routes t !! []) = n →
  (n = 0 ∧ ∀ n', ¬ route_at T [] n') ∨ route_at T [] n.
Proof.
  intros Ht. destruct (t_routes t !! []) as [m|] eqn:Hm; cbn; intros <-; [right; by exists [], t, []|left].
  split; [done|]. intros n' (w & t' & r & Hw & Hr & E & Hp & _)%(route_table I).
  destruct w as [|r' w].
  - cbn in E. subst r. congruence.
  - destruct (length_flat I w r' t' Hw) as (t1 & Ht1 & Hl). pose proof (inv_stride I w t1 Ht1).
    apply (f_equal length) in E. cbn in E. rewrite !length_app in E. lia.
Qed.

(** [art_match] gives the route of the longest prefix of the address, or NULL. *)
Lemma runs_match Q : (∀ n, longest T a (length a) n → Q n s) → runs (art_match addr) s Q.
Proof.
  intros HQ. unfold art_match. run_step. run_step. destruct root_cases as [[-> H0]|(t & Ht & -> & Hne)].
  { cbn [Z.eqb]. run_step. apply HQ. left. split; [done|]. intros p n Hp. by apply empty_tree in Hp. }
  rewrite (proj2 (Z.eqb_neq _ _)) by done. run_step. run_step.
  apply (match_loop_spec _ [] t 0 Q Ht); [by apply prefix_nil| | |done].
  - unfold nlevels. rewrite (lv_nlevels _ (i_art _ _ _ _ I)). lia.
  - cbn [dflt flat length]. unfold vals. rewrite Ht, decide_True by done.
    destruct (default_route t _ Ht eq_refl) as [[E Hno]|Hr].
    + rewrite E. cbn [Z.eqb]. left. split; [done|]. intros p n Hp _ Hl.
      destruct p; [by eapply Hno|cbn in Hl; lia].
    + destruct (route_table I _ _ Hr) as (_ & _ & _ & _ & _ & _ & _ & [[Hpos _] _] & _).
      rewrite (proj2 (Z.eqb_neq _ _)) by lia. right. exists []. split; [done|]. split; [apply prefix_nil|].
      split; [cbn; lia|]. intros q n' _ _ Hq. cbn. lia.
Qed.

(** [art_node_check] on the best route of a place tells whether it is the route there. *)
Lemma runs_perfect w t r plen Q :
  T !! w = Some t → in_table L w r → flat w ++ r = pbits addr plen → 0 ≤ plen →
  plen = Z.of_nat (length (flat w ++ r)) → plen ≤ 8 * Z.of_nat (length addr) →
  Q (bool_decide (t_routes t !! r = Some (best (t_routes t) r))) s →
  runs (perfect (best (t_routes t) r) addr plen) s Q.
Proof.
  intros Hw Hr Ep Hp0 Hpl Hlen HQ. unfold perfect. destruct Haddr as [Hb _].
  destruct (best_inv (t_routes t) r) as [[E Hno]|(p & Hne & Hp & Hm & Hmax)].
  - rewrite E in *. cbn [Z.eqb]. run_step. rewrite bool_decide_false in HQ; [done|].
    intros Hr'. rewrite Hno in Hr'; [done|by apply (table_entry I w t r Hw)|done].
  - set (n := best (t_routes t) r) in *. destruct (i_routes _ _ _ _ I w t p n Hw Hm) as (Hpp & [[Hn0 _] _] & Hnode).
    destruct Hnode as (x & A & Hx & HA & HbA & HlA & Hpx & HpA & H128).
    rewrite (proj2 (Z.eqb_neq _ _)) by lia. run_step. eapply runs_nd; [done|]. eapply runs_lift.
    { apply (art_node_check_pbits A addr HbA Hb x plen HA). unfold fits. rewrite HlA.
      pose proof (flat_room I w t Hw). destruct Hr as [_ Hr]. rewrite length_app in Hpl. lia. }
    replace (bool_decide (an_plen x = plen ∧ pbits A plen = pbits addr plen))
      with (bool_decide (t_routes t !! r = Some n)); [done|]. apply bool_decide_ext. split.
    + intros Hrn. assert (p = r) as -> by (destruct (inv_routes_ok I w t Hw) as [_ Hinj]; by eapply Hinj).
      rewrite Hpx, <-Hpl. split; [done|]. by rewrite <-Ep, <-HpA, Hpx, <-Hpl.
    + intros [E1 E2]. rewrite <-E1, HpA, E1, <-Ep in E2. apply app_inv_head in E2. by subst p.
Qed.

Lemma lookup_loop_spec fuel plen : ∀ w t Q,
  T !! w = Some t → flat w `prefix_of` a → (length L ≤ fuel + length w)%nat →
  Z.of_nat (length (flat w)) < plen ≤ art_alen (the_art s) →
  (∀ n, n ≠ 0 → route_at T (pbits addr plen) n → Q n s) →
  ((∀ n, ¬ route_at T (pbits addr plen) n) → Q 0 s) →
  runs (lookup_loop fuel addr plen (Z.of_nat (length (flat w))) (Z.of_nat (length w)) (t_heap t)) s Q.
Proof.
  induction fuel as [|fuel IH]; intros w t Q Hw Ha Hf Hp HQ HQ0.
  { pose proof (inv_level I w ltac:(by exists t)). lia. }
  pose proof (inv_strides I) as HL. pose proof (inv_stride I w t Hw) as Hst. pose proof Haddr as [Hb Hlen].
  destruct (next_in_table I addr Haddr w t Hw Ha) as (Hin & Hl & _ & Hna).
  cbn [lookup_loop]. run_step. apply (runs_level_bits w t); [done|]. rewrite (offset_u32 w t Hw).
  destruct (Z.leb_spec plen (Z.of_nat (length (flat w)) + stride L w)) as [Hle|Hgt].
  - set (r := rel addr (Z.of_nat (length (flat w))) plen).
    pose proof (rel_in_table I addr Haddr w t plen Hw Ha ltac:(lia)) as Hr. fold r in Hr.
    destruct (rel_app I addr Haddr w t plen Hw Ha ltac:(lia)) as [Ep El]. fold r in Ep, El.
    destruct (table_entry I w t r Hw Hr) as [_ Hne].
    run_step. eapply runs_lift; [apply (bindex_at I addr Haddr w t); [done|lia]|]. fold r.
    run_step. apply (runs_get_entry _ HL T (vals T) s (inv_view I) w t); [done..|].
    run_step. match goal with |- runs ?m s ?K => assert (K (best (t_routes t) r) s → runs m s K) as Hrd end.
    { intros HK. destruct (T !! (r :: w)) as [c|] eqn:Hc.
      - destruct (entry_child L T (vals T) s (inv_view I) w r c Hc) as [-> ->]. cbn [negb].
        apply (runs_get_default _ HL T (vals T) s (inv_view I) (r :: w) c _ Hc). cbn [dflt].
        by rewrite (vals_best T w t).
      - destruct (entry_leaf L T (vals T) s (inv_view I) w t r Hw Hr Hc) as [-> ->]. cbn [negb]. run_step.
        by rewrite (vals_best T w t). }
    apply Hrd. clear Hrd. unfold art_heap_entry_to_node. run_step.
    apply (runs_perfect w t r plen); [done|done|done|lia|rewrite length_app; lia|lia|].
    run_step. case_bool_decide as E.
    + destruct (i_routes _ _ _ _ I w t r _ Hw E) as (_ & [[? _] _] & _). apply HQ; [lia|]. by exists w, t, r.
    + apply HQ0. intros n Hn.
      assert (∃ r', t_routes t !! r' = Some n ∧ pbits addr plen = flat w ++ r') as (r' & Hr' & E').
      { eapply (here_live I a); [done..|apply prefix_take|]. rewrite <-Ep, length_app. lia. }
      rewrite <-Ep in E'. apply app_inv_head in E'. subst r'. apply E.
      destruct r as [|b0 r0 _] using rev_ind; [done|]. by rewrite best_snoc, Hr'.
  - run_step. eapply runs_lift; [apply (bindex_at I addr Haddr w t); [done|lia]|]. fold (next L addr w).
    run_step. apply (runs_get_entry _ HL T (vals T) s (inv_view I) w t); [done..|].
    destruct (T !! (next L addr w :: w)) as [t'|] eqn:Hc.
    + destruct (entry_child L T (vals T) s (inv_view I) w (next L addr w) t' Hc) as [-> ->].
      pose proof (inv_level I (next L addr w :: w) ltac:(by exists t')) as Hlv. cbn [length] in Hlv.
      run_step. run_step. run_step. run_step.
      { rewrite (lv_nlevels _ (i_art _ _ _ _ I)), (proj2 (Z.ltb_lt _ _)) by lia. done. }
      replace (Z.of_nat (length (flat w)) + stride L w) with (Z.of_nat (length (flat (next L addr w :: w))))
        by (cbn; rewrite length_app; lia).
      replace (Z.of_nat (length w) + 1) with (Z.of_nat (length (next L addr w :: w))) by (cbn; lia).
      apply (IH (next L addr w :: w) t' Q Hc Hna ltac:(cbn; lia)); [|done..].
      cbn. rewrite length_app. lia.
    + destruct (entry_leaf L T (vals T) s (inv_view I) w t (next L addr w) Hw Hin Hc) as [-> ->].
      run_step. apply HQ0. intros n Hn.
      pose proof (leaf_end I addr Haddr w t _ n Hw Ha Hc Hn (prefix_take _ _)) as Hend.
      unfold pbits in Hend. rewrite length_take, length_abits in Hend. lia.
Qed.

(** [art_lookup] gives the route of exactly the prefix asked for, or NULL. *)
Lemma runs_lookup plen Q :
  0 ≤ plen ≤ art_alen (the_art s) →
  (∀ n, n ≠ 0 → route_at T (pbits addr plen) n → Q n s) →
  ((∀ n, ¬ route_at T (pbits addr plen) n) → Q 0 s) →
  runs (art_lookup addr plen) s Q.
Proof.
  intros Hp HQ HQ0. unfold art_lookup. run_step. run_step. run_step. run_step.
  { by rewrite (proj2 (Z.leb_le _ _)) by lia. }
  run_step. run_step. destruct root_cases as [[-> H0]|(t & Ht & -> & Hne)].
  { cbn [Z.eqb]. run_step. apply HQ0. intros n. by apply empty_tree. }
  rewrite (proj2 (Z.eqb_neq (t_heap t) _)) by done.
  destruct (Z.eqb_spec plen 0) as [->|Hp0].
  - run_step. apply (runs_get_default _ (inv_strides I) T (vals T) s (inv_view I) [] t _ Ht). run_step.
    unfold art_heap_entry_to_node. cbn [dflt]. unfold vals. rewrite Ht, decide_True by done.
    destruct (default_route t _ Ht eq_refl) as [[-> Hno]|Hr]; [by apply HQ0|].
    destruct (route_table I _ _ Hr) as (_ & _ & _ & _ & _ & _ & _ & [[Hpos _] _] & _). apply HQ; [lia|done].
  - run_step. run_step. apply (lookup_loop_spec _ plen [] t Q Ht); try done; [apply prefix_nil| |cbn; lia].
    unfold nlevels. rewrite (lv_nlevels _ (i_art _ _ _ _ I)). lia.
Qed.
End lookups.

(** ** Insertion *)

Definition grown (T T' : tree) : Prop := ∀ w t, T !! w = Some t → ∃ t', T' !! w = Some t' ∧ t_ptr t' = t_ptr t.
Definition shrunk (T T' : tree) : Prop := ∀ w t', T' !! w = Some t' → ∃ t, T !! w = Some t ∧ t_ptr t' = t_ptr t.

Lemma grown_pruned T T1 T2 : pruned T1 T → grown T1 T2 → grown T T2.
Proof. intros [Hsub _] Hg w t Hw. apply Hg. by eapply lookup_weaken. Qed.

Lemma pruned_routes T T' p n : pruned T T' → route_at T p n ↔ route_at T' p n.
Proof.
  intros [Hs Hp]. split; intros (w & t & r & Hw & Hr & ->); exists w, t, r; (split; [|done]).
  - destruct (T' !! w) as [t'|] eqn:E; [pose proof (lookup_weaken _ _ _ _ E Hs); congruence|].
    rewrite (Hp w t Hw E), lookup_empty in Hr. done.
  - by eapply lookup_weaken.
Qed.

Lemma pruned_graft T w c hc : T !! w = None → pruned (<[w := Tab c hc ∅]> T) T.
Proof.
  intros Hn. split; [by apply insert_subseteq|].
  intros w' t [[<- <-]|[? ?]]%lookup_insert_Some; [done|]. intros. congruence.
Qed.

Definition few (X : path → Z) : Prop := ∀ w, X w < 2147483648.

Section insert.
Context (X : path → Z) (HX : few X) (addr : list Z).

Lemma refs_room {s T G} (I : inv s T X G) w t : T !! w = Some t → refs T X w + 1 < M32.
Proof.
  intros Hw. pose proof (own_bound I w t Hw). pose proof (kids_few I w t Hw). specialize (HX w).
  unfold refs. lia.
Qed.

(** One turn of the descent: a table is hung in where there is none. *)
Lemma insert_turn s T G w t fuel plen (Q : option (Z * Z) → rtable → Prop) :
  inv s T X G → addr_ok s addr → T !! w = Some t → flat w `prefix_of` abits addr →
  Z.of_nat (length (flat w)) + stride (art_levels (the_art s)) w < plen ≤ art_alen (the_art s) →
  (∀ l, T !! (next (art_levels (the_art s)) addr w :: w) = None → Q None (set_answers l s)) →
  (∀ s' T' t', inv s' T' X G → pruned T' T → kept s s' → T' !! (next (art_levels (the_art s)) addr w :: w) = Some t' →
     runs (insert_loop fuel addr plen (t_ptr t') (t_heap t')) s' Q) →
  runs (insert_loop (S fuel) addr plen (t_ptr t) (t_heap t)) s Q.
Proof.
  intros I Haddr Hw Ha Hp HQ0 HQ. set (L := art_levels (the_art s)) in *. set (r := next L addr w) in *.
  pose proof (inv_strides I) as HL. pose proof (inv_stride I w t Hw) as Hst. fold L in HL, Hst.
  destruct (next_in_table I addr Haddr w t Hw Ha) as (Hin & Hl & _ & Hna). fold L in Hin, Hl, Hna. fold r in Hin, Hl, Hna.
  destruct (i_table _ _ _ _ I w t Hw) as (x & Hx & Hok). destruct Hok as [K1 K2 K3 K4 K5 K6 K7 K8]. fold L in K6.
  cbn [insert_loop]. run_step. eapply runs_tb; [done|].
  rewrite K6, K7. subst L. rewrite (offset_u32 s T X G I w t Hw). rewrite (proj2 (Z.ltb_lt _ _)) by lia.
  run_step. eapply runs_lift; [apply (bindex_at I addr Haddr w t _ Hw); lia|].
  fold (next (art_levels (the_art s)) addr w). fold r.
  run_step. apply (runs_get_entry _ HL T (vals T) s (inv_view I) w t); [done..|].
  destruct (T !! (r :: w)) as [t'|] eqn:Hc.
  { destruct (entry_child _ T (vals T) s (inv_view I) w r t' Hc) as [-> ->].
    run_step. apply (runs_get_table _ HL T (vals T) s (inv_view I) (r :: w) t' _ Hc).
    by apply (HQ s T t' I (pruned_refl T) (kept_refl s)). }
  destruct (entry_leaf _ T (vals T) s (inv_view I) w t r Hw Hin Hc) as [-> ->].
  pose proof (level_left I w t Hw ltac:(lia)) as Hlv.
  run_step. apply (runs_table_get s T X G (r :: w) _ _ (Z.of_nat (length (flat (r :: w)))) (vals T w r) _ I Hlv).
  { by exists t. }
  { intros l. cbn [Z.eqb]. run_step. by apply HQ0. }
  intros c hc l Hcp Hhp Hct Hhh _. pose proof Hcp as [[Hc0 _] _]. rewrite (proj2 (Z.eqb_neq c _)) by lia.
  destruct (i_heaps _ _ _ _ I w t Hw) as (h & Hh & Hho). pose proof (hp_length _ _ _ _ _ _ Hho) as Hlen.
  pose proof (idx_small _ w r Hin ltac:(lia)) as Hi.
  assert (c ≠ t_ptr t) as Hct' by (intros ->; congruence).
  assert (hc ≠ t_heap t) as Hht' by (intros ->; congruence).
  run_step. unfold art_table_ref. run_step. eapply runs_upd_tb; [cbn; by rewrite lookup_insert_ne|]. run_step. cbn.
  run_step. eapply runs_tb; [cbn; by rewrite lookup_insert_ne, lookup_insert_eq by done|]. cbn [at_heap new_table].
  assert (stride (art_levels (the_art s)) (r :: w) = 4 ∨ stride (art_levels (the_art s)) (r :: w) = 8) as Hst'
    by (by apply stride_cases).
  run_step. eapply runs_set_word; [cbn; apply lookup_insert_eq|..].
  { rewrite new_heap_length by done. unfold ART_HEAP_IDX_DEFAULT. destruct Hst' as [-> | ->]; done. }
  run_step. eapply runs_set_word; [cbn; rewrite !lookup_insert_ne by done; exact Hh|lia|]. cbn.
  rewrite insert_insert_eq. unfold new_heap. change (Pos.to_nat 1) with 1%nat. rewrite list_insert_insert_eq.
  fold (new_heap c (stride (art_levels (the_art s)) (r :: w)) (vals T w r)).
  apply (HQ _ (<[r :: w := Tab c hc ∅]> T) (Tab c hc ∅)); [|by apply pruned_graft|by split|apply lookup_insert_eq].
  apply (inv_graft_child s T X G w t r c hc x h l); try done. by eapply refs_room.
Qed.

(** *** Storing a route at its place *)

(** The tree with other routes in the table [w]. *)
Definition reroute (T : tree) (w : path) (t : tab) (m : routes) : tree :=
  <[w := Tab (t_ptr t) (t_heap t) m]> T.

(** Tables keep their addresses. *)
Lemma grown_reroute T w t m : T !! w = Some t → grown T (reroute T w t m).
Proof.
  intros Hw w1 t1 H1. unfold reroute. destruct (decide (w1 = w)) as [->|?].
  - rewrite lookup_insert_eq. eexists. split; [done|]. by simplify_eq.
  - rewrite lookup_insert_ne by done. by exists t1.
Qed.
Lemma shrunk_pruned T w t m T' : T !! w = Some t → pruned (reroute T w t m) T' → shrunk T T'.
Proof.
  intros Hw [Hsub _] w1 t1 H1. pose proof (lookup_weaken _ _ _ _ H1 Hsub) as H2. unfold reroute in H2.
  destruct (decide (w1 = w)) as [->|?].
  - rewrite lookup_insert_eq in H2. exists t. split; [done|]. by simplify_eq.
  - rewrite lookup_insert_ne in H2 by done. by exists t1.
Qed.

Lemma reroute_vals T w t m r new w' r' :
  T !! w = Some t → r ≠ [] → m !! [] = t_routes t !! [] →
  (∀ q, best m q = allot (best (t_routes t)) r (best (t_routes t) r) new q) →
  vals (reroute T w t m) w' r' = upd_val (vals T) w (allot (vals T w) r (vals T w r) new) w' r'.
Proof.
  intros Hw Hr Hm Hb. unfold reroute, upd_val. destruct (decide (w' = w)) as [->|Hne].
  2: { unfold vals. by rewrite lookup_insert_ne. }
  rewrite (vals_best T w t r Hw Hr). unfold vals at 1. rewrite lookup_insert_eq. cbn [t_routes].
  destruct (decide (r' = [])) as [->|Hr'].
  - unfold allot. rewrite decide_False.
    + rewrite Hm. unfold vals. by rewrite Hw.
    + intros [Hp _]. by apply prefix_nil_inv in Hp.
  - rewrite Hb. unfold allot. by rewrite (vals_best T w t r' Hw Hr').
Qed.

Lemma vals_closed s T X0 G w t r :
  inv s T X0 G → T !! w = Some t → r ≠ [] →
  closed (stride (art_levels (the_art s)) w) (vals T w) r (vals T w r).
Proof.
  intros I Hw Hr q b _. assert (∀ q, r ++ q ≠ []) as Hq by (intros q'; destruct r; done).
  rewrite !(vals_best T w t) by done. apply best_closed. by eapply inv_routes_ok.
Qed.

Lemma runs_place s T X0 G w t x r new m (Q : () → rtable → Prop) :
  inv s T X0 G → T !! w = Some t → tables s !! t_ptr t = Some x →
  in_table (art_levels (the_art s)) w r → art_heap_entry_is_node new = true →
  m !! [] = t_routes t !! [] →
  (∀ q, best m q = allot (best (t_routes t)) r (best (t_routes t) r) new q) →
  (∀ s', only_heaps T s s' → heaps_ok (art_levels (the_art s)) T (vals (reroute T w t m)) (heaps s') → Q tt s') →
  runs (if idx r <? 2 ^ stride (art_levels (the_art s)) w
        then art_allot (t_ptr t) (idx r) (vals T w r) new
        else SMR_PTR_SET (slot T w t r).1 (slot T w t r).2 new) s Q.
Proof.
  intros I Hw Hx Hin Hnew Hm Hb HQ. destruct (table_entry I w t r Hw Hin) as [Hl Hr]. destruct Hin as [Hin1 Hin2].
  pose proof (inv_view I) as HV. pose proof (inv_strides I) as HL. pose proof (i_tree _ _ _ _ I) as HT.
  pose proof (reroute_vals T w t m r new) as Hv.
  destruct (i_table _ _ _ _ I w t Hw) as (x0 & Hx0 & Hok). assert (x0 = x) as -> by congruence.
  pose proof (idx_u32 _ HL T w t HT Hw r Hin2) as [_ Hlt].
  destruct (Z.ltb_spec (idx r) (2 ^ stride (art_levels (the_art s)) w)) as [Hi|Hi].
  - apply Hlt in Hi. apply (runs_allot _ HL T w t r (vals T w r) new HT Hw) with (F := vals T) (x := x);
      try done; [apply (to_heap _ _ _ _ _ _ Hok)|apply (to_minfringe _ _ _ _ _ _ Hok)| |].
    { by eapply vals_closed. }
    intros s' Ho HV'. apply (HQ s' Ho). apply vw_heaps.
    eapply view_ext; [exact HL| | |exact HV'].
    + intros w' t' r' _ _. symmetry. by apply Hv.
    + symmetry. by apply Hv.
  - assert (Z.of_nat (length r) = stride (art_levels (the_art s)) w) as Hlr.
    { destruct (decide (Z.of_nat (length r) < stride (art_levels (the_art s)) w)) as [H|H]; [|lia].
      apply Hlt in H. lia. }
    apply (runs_set_slot _ HL T (vals T) s w t r new _ HV Hw); [done|done|]. intros s' Ho HV'. apply (HQ s' Ho).
    apply vw_heaps. eapply view_ext; [exact HL| | |exact HV'].
    + intros w' t' r' Hw' [Hr1 Hr2]. rewrite Hv by done. unfold put_val, upd_val. destruct (decide (w' = w)) as [->|?]; [|done].
      unfold allot. destruct (decide (r' = r)) as [->|Hne]; [by rewrite decide_True|].
      rewrite decide_False; [done|]. intros [[k ->] _]. apply Hne. rewrite length_app in Hr2.
      destruct k; [by rewrite app_nil_r|cbn in Hr2; lia].
    + rewrite Hv by done. unfold put_val, upd_val. destruct (decide ([] = w)) as [<-|?]; [|done].
      rewrite decide_False by done. unfold allot. rewrite decide_False; [done|].
      intros [Hp _]. by apply prefix_nil_inv in Hp.
Qed.

Lemma route_insert s T X0 G w t r n :
  inv s T X0 G → T !! w = Some t → place (art_levels (the_art s)) w r →
  ∀ q k, route_at (reroute T w t (<[r := n]> (t_routes t))) q k ↔
    (q = flat w ++ r ∧ k = n) ∨ (q ≠ flat w ++ r ∧ route_at T q k).
Proof.
  intros I Hw Hr q k. unfold reroute. split.
  - intros (w1 & t1 & r1 & H1 & Hk & ->). apply lookup_insert_Some in H1 as [[<- <-]|[Hne H1]].
    + cbn in Hk. apply lookup_insert_Some in Hk as [[<- <-]|[Hne Hk]]; [by left|right].
      split; [intros E; by apply app_inv_head in E|by exists w, t, r1].
    + right. split; [|by exists w1, t1, r1]. intros E.
      destruct (i_routes _ _ _ _ I w1 t1 r1 k H1 Hk) as (Hp1 & _).
      destruct (place_inj I w1 w t1 t r1 r H1 Hw Hp1 Hr E) as [-> _]. done.
  - intros [[-> ->]|[Hne (w1 & t1 & r1 & H1 & Hk & ->)]].
    + eexists w, _, r. rewrite lookup_insert_eq. split; [done|]. cbn. by rewrite lookup_insert_eq.
    + destruct (decide (w1 = w)) as [->|Hnw].
      * assert (t1 = t) as -> by congruence. eexists w, _, r1. rewrite lookup_insert_eq. split; [done|]. cbn.
        rewrite lookup_insert_ne; [done|]. by intros <-.
      * exists w1, t1, r1. by rewrite lookup_insert_ne.
Qed.

Lemma route_delete s T X0 G w t r :
  inv s T X0 G → T !! w = Some t → place (art_levels (the_art s)) w r →
  ∀ q k, route_at (reroute T w t (delete r (t_routes t))) q k ↔ q ≠ flat w ++ r ∧ route_at T q k.
Proof.
  intros I Hw Hr q k. unfold reroute. split.
  - intros (w1 & t1 & r1 & H1 & Hk & ->). apply lookup_insert_Some in H1 as [[<- <-]|[Hne H1]].
    + cbn in Hk. apply lookup_delete_Some in Hk as [Hne Hk].
      split; [intros E; by apply app_inv_head in E|by exists w, t, r1].
    + split; [|by exists w1, t1, r1]. intros E.
      destruct (i_routes _ _ _ _ I w1 t1 r1 k H1 Hk) as (Hp1 & _).
      destruct (place_inj I w1 w t1 t r1 r H1 Hw Hp1 Hr E) as [-> _]. done.
  - intros [Hne (w1 & t1 & r1 & H1 & Hk & ->)]. destruct (decide (w1 = w)) as [->|Hnw].
    + assert (t1 = t) as -> by congruence. eexists w, _, r1. rewrite lookup_insert_eq. split; [done|]. cbn.
      rewrite lookup_delete_ne; [done|]. by intros <-.
    + exists w1, t1, r1. by rewrite lookup_insert_ne.
Qed.

(** The routes after an insertion. *)
Definition with_route (T T' : tree) (p : list bool) (n : Z) : Prop :=
  (∀ q k, route_at T' q k ↔ (q = p ∧ k = n) ∨ (q ≠ p ∧ route_at T q k)) ∧ grown T T'.

Lemma inv_insert s T s1 G w t r n :
  inv s T (add_at X w 1) G → T !! w = Some t → place (art_levels (the_art s)) w r →
  t_routes t !! r = None → ptr n → node_is s n (flat w ++ r) → only_heaps T s s1 →
  heaps_ok (art_levels (the_art s)) T (vals (reroute T w t (<[r := n]> (t_routes t)))) (heaps s1) →
  (∀ w, 0 ≤ X w) →
  inv s1 (reroute T w t (<[r := n]> (t_routes t))) X G.
Proof.
  intros I Hw Hp Hn Hnp Hnode Ho HH HX0.
  pose proof (inv_set_routes s T _ G w t (<[r := n]> (t_routes t)) I Hw s1) as Hset.
  rewrite map_size_insert_None in Hset by done.
  eapply inv_ext; [|apply Hset]; [..|done|done].
  - intros w'. destruct (decide (w' = w)) as [->|?]; [rewrite !add_at_eq; lia|by rewrite !add_at_ne].
  - intros r' k [[<- <-]|[Hne Hk]]%lookup_insert_Some; [done|]. by apply (i_routes _ _ _ _ I w t r' k).
  - rewrite add_at_eq. specialize (HX0 w). lia.
Qed.

Lemma only_heaps_kept T s s' : only_heaps T s s' → kept s s'.
Proof. intros (H & -> & _). by split. Qed.

Lemma insert_at_spec s T G w t n x0 (Q : Z → rtable → Prop) :
  inv s T X G → addr_ok s addr → T !! w = Some t → flat w `prefix_of` abits addr →
  Z.of_nat (length (flat w)) < an_plen x0 ≤ Z.of_nat (length (flat w)) + stride (art_levels (the_art s)) w →
  ptr n → node_is s n (pbits addr (an_plen x0)) → an_plen x0 ≤ 8 * Z.of_nat (length addr) →
  (∀ k, route_at T (pbits addr (an_plen x0)) k → Q k s) →
  (∀ s' T', (∀ k, ¬ route_at T (pbits addr (an_plen x0)) k) → inv s' T' X G → kept s s' →
     with_route T T' (pbits addr (an_plen x0)) n → Q n s') →
  runs (insert_at n addr (an_plen x0) (t_ptr t) (t_heap t)) s Q.
Proof.
  set (plen := an_plen x0). intros I Haddr Hw Ha Hp Hnp Hnode Hlen HQ HQn.
  set (r := rel addr (Z.of_nat (length (flat w))) plen).
  pose proof (rel_in_table I addr Haddr w t plen Hw Ha Hp) as Hr. fold r in Hr.
  destruct (rel_app I addr Haddr w t plen Hw Ha ltac:(lia)) as [Ep El]. fold r in Ep, El.
  destruct (table_entry I w t r Hw Hr) as [_ Hne].
  destruct (i_table _ _ _ _ I w t Hw) as (x & Hx & Hok).
  unfold insert_at. run_step. eapply runs_tb; [done|].
  rewrite (to_offset _ _ _ _ _ _ Hok), (to_bits _ _ _ _ _ _ Hok), (to_minfringe _ _ _ _ _ _ Hok).
  run_step. eapply runs_lift; [apply (bindex_at I addr Haddr w t _ Hw); lia|]. fold r.
  run_step. apply (runs_ahep _ (inv_strides I) T (vals T) s (inv_view I) w t r); [done..|].
  rewrite (surjective_pairing (slot T w t r)). unfold art_heap_entry_to_node. rewrite (vals_best T w t r Hw Hne).
  run_step. apply (runs_perfect s T X G I addr Haddr w t r plen); [done|done|done|lia|rewrite length_app; lia|done|].
  case_bool_decide as E.
  { run_step. apply HQ. by exists w, t, r. }
  assert (t_routes t !! r = None) as Hnone.
  { destruct (t_routes t !! r) as [k|] eqn:Ek; [|done]. exfalso. apply E.
    destruct r as [|b0 r0 _] using rev_ind; [done|]. by rewrite best_snoc, Ek. }
  run_step. apply (runs_ref s T X G w t _ I Hw); [apply HX|]. intros s1 [m1 ->] I1.
  destruct (i_table _ _ _ _ I1 w t Hw) as (x1 & Hx1 & _).
  rewrite <-(vals_best T w t r Hw Hne). unfold art_node_to_heap_entry.
  assert (∀ q, best (<[r:=n]> (t_routes t)) q = allot (best (t_routes t)) r (best (t_routes t) r) n q) as Hb.
  { intros q. apply best_insert; [by eapply inv_routes_ok|done]. }
  run_step. apply (runs_place _ T _ G w t x1 r n (<[r := n]> (t_routes t)) _ I1 Hw Hx1 Hr);
    [by apply ptr_node|by rewrite lookup_insert_ne|done|].
  intros s2 Ho HH. run_step.
  apply (HQn s2 (reroute T w t (<[r := n]> (t_routes t)))).
  - intros k (w1 & t1 & r1 & H1 & Hk & E1). rewrite <-Ep in E1.
    destruct (i_routes _ _ _ _ I w1 t1 r1 k H1 Hk) as (Hp1 & _).
    destruct (place_inj I w w1 t t1 r r1 Hw H1 (or_introl Hr) Hp1 E1) as [<- <-]. congruence.
  - apply (inv_insert _ T s2 G w t r n I1 Hw); try done; [by left|by rewrite Ep|apply (i_X _ _ _ _ I)].
  - eapply kept_trans; [apply kept_tables|by eapply only_heaps_kept].
  - split; [|by apply grown_reroute]. intros q k. rewrite (route_insert s T X G w t r n I Hw (or_introl Hr)). by rewrite Ep.
Qed.

Lemma node_is_kept s s' n p : kept s s' → node_is s n p → node_is s' n p.
Proof. intros [_ _ _ Hn _]. unfold node_is. by rewrite Hn. Qed.
Lemma addr_ok_kept s s' : kept s s' → addr_ok s addr → addr_ok s' addr.
Proof. intros [_ _ Ha _ _]. unfold addr_ok. by rewrite Ha. Qed.

Lemma insert_loop_spec fuel plen : ∀ s T G w t (Q : option (Z * Z) → rtable → Prop),
  inv s T X G → addr_ok s addr → T !! w = Some t → flat w `prefix_of` abits addr →
  (length (art_levels (the_art s)) ≤ fuel + length w)%nat →
  Z.of_nat (length (flat w)) < plen ≤ art_alen (the_art s) →
  (∀ s' T', (∀ k, ¬ route_at T (pbits addr plen) k) → inv s' T' X G → pruned T' T → kept s s' → Q None s') →
  (∀ s' T' w' t', inv s' T' X G → pruned T' T → kept s s' → T' !! w' = Some t' → flat w' `prefix_of` abits addr →
     Z.of_nat (length (flat w')) < plen ≤ Z.of_nat (length (flat w')) + stride (art_levels (the_art s')) w' →
     Q (Some (t_ptr t', t_heap t')) s') →
  runs (insert_loop fuel addr plen (t_ptr t) (t_heap t)) s Q.
Proof.
  induction fuel as [|fuel IH]; intros s T G w t Q I Haddr Hw Ha Hf Hp HQ0 HQ.
  { pose proof (inv_level I w ltac:(by exists t)). lia. }
  destruct (decide (Z.of_nat (length (flat w)) + stride (art_levels (the_art s)) w < plen)) as [Hlt|Hge].
  - apply (insert_turn s T G w t fuel plen Q I Haddr Hw Ha ltac:(lia)).
    + intros l Hn. apply (HQ0 _ T); [|by apply inv_answers|apply pruned_refl|by split].
      intros k Hk. pose proof (leaf_end I addr Haddr w t _ k Hw Ha Hn Hk (prefix_take _ _)) as Hend.
      destruct Haddr as [_ Hlen]. unfold pbits in Hend. rewrite length_take, length_abits in Hend. lia.
    + intros s1 T1 t1 I1 P1 K1 H1. destruct (next_in_table I addr Haddr w t Hw Ha) as (_ & Hl & _ & Hna).
      assert (art_levels (the_art s1) = art_levels (the_art s) ∧ art_alen (the_art s1) = art_alen (the_art s)) as [E1 E2]
        by (by destruct K1).
      apply (IH s1 T1 G (next (art_levels (the_art s)) addr w :: w) t1 Q I1); try done.
      * by eapply addr_ok_kept.
      * rewrite E1. cbn. lia.
      * rewrite E2. cbn. rewrite length_app. lia.
      * intros s2 T2 Hno I2 P2 K2. eapply HQ0; [|exact I2|by eapply pruned_trans|by eapply kept_trans].
        intros k Hk. apply (Hno k). by apply (pruned_routes T1 T).
      * intros s2 T2 w2 t2 I2 P2 K2. apply HQ; [done|by eapply pruned_trans|by eapply kept_trans].
  - destruct (i_table _ _ _ _ I w t Hw) as (x & Hx & Hok). cbn [insert_loop]. run_step. eapply runs_tb; [done|].
    rewrite (to_offset _ _ _ _ _ _ Hok), (to_bits _ _ _ _ _ _ Hok), (offset_u32 s T X G I w t Hw).
    rewrite (proj2 (Z.ltb_ge _ _)) by lia. run_step.
    apply (HQ s T w t I (pruned_refl T) (kept_refl s) Hw Ha). lia.
Qed.

Lemma bits_16 (l : list Z) : length l = 16%nat → 8 * Z.of_nat (length l) = 128.
Proof. intros ->. done. Qed.

(** The default route. *)
Lemma runs_insert_default s T G t n (Q : Z → rtable → Prop) :
  inv s T X G → T !! [] = Some t → ptr n → node_is s n [] →
  (∀ k, k ≠ 0 → route_at T [] k → Q k s) →
  (∀ s' T', (∀ k, ¬ route_at T [] k) → inv s' T' X G → kept s s' → with_route T T' [] n → Q n s') →
  runs (oahe ← SMR_PTR_GET (t_heap t) ART_HEAP_IDX_DEFAULT;
        let oan := art_heap_entry_to_node oahe in
        if negb (oan =? 0) then mret oan
        else _ ← art_table_ref (t_ptr t);
             SMR_PTR_SET (t_heap t) ART_HEAP_IDX_DEFAULT (art_node_to_heap_entry n);; mret n) s Q.
Proof.
  intros I Ht Hnp Hnode HQ HQn. pose proof (inv_strides I) as HL.
  run_step. apply (runs_get_default _ HL T (vals T) s (inv_view I) [] t _ Ht). cbn [dflt].
  unfold art_heap_entry_to_node, art_node_to_heap_entry.
  assert (vals T [] [] = default 0 (t_routes t !! [])) as -> by (unfold vals; by rewrite Ht).
  destruct (t_routes t !! []) as [k|] eqn:Ek; cbn [default from_option].
  - destruct (i_routes _ _ _ _ I [] t [] k Ht Ek) as (_ & [[Hk _] _] & _). unfold id.
    rewrite (proj2 (Z.eqb_neq _ _)) by lia. cbn [negb]. run_step. apply HQ; [lia|]. by exists [], t, [].
  - cbn [Z.eqb negb]. run_step. apply (runs_ref s T X G [] t _ I Ht); [apply HX|]. intros s1 [m ->] I1.
    run_step. apply (runs_set_default _ HL T (vals T) _ t n _ (inv_view I1) Ht); [by apply ptr_node|].
    intros s2 Ho HV. run_step.
    apply (HQn s2 (reroute T [] t (<[[] := n]> (t_routes t)))).
    + intros k (w1 & t1 & r1 & H1 & Hk & E1).
      destruct (i_routes _ _ _ _ I w1 t1 r1 k H1 Hk) as (Hp1 & _).
      destruct (place_inj I [] w1 t t1 [] r1 Ht H1 ltac:(by right) Hp1 E1) as [<- <-]. congruence.
    + apply (inv_insert _ T s2 G [] t [] n I1 Ht); try done; [by right| |apply (i_X _ _ _ _ I)].
      apply vw_heaps. eapply view_ext; [exact HL| | |exact HV].
      * intros w' t' r' Hw' [Hr' _]. rewrite put_val_ne by (intros [= -> ->]; cbn in Hr'; lia).
        unfold reroute, vals. destruct (decide (w' = [])) as [->|?]; [|by rewrite lookup_insert_ne].
        rewrite lookup_insert_eq, Ht. rewrite !decide_False by (intros ->; cbn in Hr'; lia). cbn [t_routes].
        symmetry. apply best_ext. intros p Hp. by rewrite lookup_insert_ne.
      * rewrite put_val_eq. unfold reroute, vals. rewrite lookup_insert_eq, decide_True by done. cbn [t_routes]. by rewrite lookup_insert_eq.
    + eapply kept_trans; [apply kept_tables|by eapply only_heaps_kept].
    + split; [|by apply grown_reroute]. intros q k. by rewrite (route_insert s T X G [] t [] n I Ht ltac:(by right)).
Qed.
End insert.

(** The root table, made when there is none. *)
Lemma runs_root s T X G (Q : option (Z * Z) → rtable → Prop) :
  inv s T X G →
  (∀ s', T !! [] = None → inv s' T X G → kept s s' → Q None s') →
  (∀ s' T' t, inv s' T' X G → pruned T' T → kept s s' → T' !! [] = Some t → Q (Some (t_ptr t, t_heap t)) s') →
  runs (if art_root (the_art s) =? 0 then
          at_ ← art_table_get 0 UINT_MAX;
          if at_ =? 0 then mret None
          else y ← tb at_; modify (set_root (at_heap y));; mret (Some (at_, at_heap y))
        else at_ ← art_heap_to_table (art_root (the_art s)); mret (Some (at_, art_root (the_art s)))) s Q.
Proof.
  intros I HQ0 HQ. pose proof (inv_strides I) as HL. destruct (root_cases s T X G I) as [[-> H0]|(t & Ht & -> & Hne)].
  - cbn [Z.eqb]. pose proof (i_art _ _ _ _ I) as [A1 A2 A3 A4].
    assert (0 < length (art_levels (the_art s)))%nat as Hlv.
    { destruct (art_levels (the_art s)); [cbn in A3; lia|cbn; lia]. }
    run_step. apply (runs_table_get s T X G [] _ _ 0 0 _ I Hlv); [done|..].
    + intros l. cbn [Z.eqb]. run_step. apply HQ0; [done|by apply inv_answers|by split].
    + intros c hc l Hcp Hhp Hct Hhh _. pose proof Hcp as [[Hc0 _] _]. rewrite (proj2 (Z.eqb_neq c _)) by lia.
      run_step. eapply runs_tb; [cbn; apply lookup_insert_eq|]. run_step. run_step. run_step. cbn.
      apply (HQ _ (<[[] := Tab c hc ∅]> T) (Tab c hc ∅)); [|by apply pruned_graft|by split|apply lookup_insert_eq].
      by apply (inv_graft_root s T X G c hc l).
  - rewrite (proj2 (Z.eqb_neq _ _)) by done. run_step.
    apply (runs_get_table _ HL T (vals T) s (inv_view I) [] t _ Ht). run_step.
    by apply (HQ s T t I (pruned_refl T) (kept_refl s)).
Qed.

(** [art_insert]: the node of the prefix that was there, no memory, or the new node. *)
Lemma runs_insert s T X G n x A (Q : Z → rtable → Prop) :
  inv s T X G → few X → ptr n → nodes s !! n = Some x → an_u x = an__addr A → bytes A → length A = 16%nat →
  0 ≤ an_plen x ≤ art_alen (the_art s) →
  (∀ k s' T', k ≠ 0 → route_at T (pbits A (an_plen x)) k → inv s' T' X G → pruned T' T → kept s s' → Q k s') →
  (∀ s' T', (∀ k, ¬ route_at T (pbits A (an_plen x)) k) → inv s' T' X G → pruned T' T → kept s s' → Q 0 s') →
  (∀ s' T', (∀ k, ¬ route_at T (pbits A (an_plen x)) k) → inv s' T' X G → kept s s' →
     with_route T T' (pbits A (an_plen x)) n → Q n s') →
  runs (art_insert n) s Q.
Proof.
  intros I HX Hnp Hx HA HbA HlA Hpl HQ HQ0 HQn. pose proof (bits_16 A HlA) as H16.
  pose proof (i_art _ _ _ _ I) as [A1 A2 A3 A4].
  assert (addr_ok s A) as Haddr by (split; [done|lia]).
  assert (node_is s n (pbits A (an_plen x))) as Hnode.
  { exists x, A. unfold pbits. rewrite length_take, length_abits. split_and!; (done || lia). }
  unfold art_insert. run_step. eapply runs_nd; [done|]. run_step. run_step. run_step.
  run_step; [by rewrite (proj2 (Z.leb_le _ _)) by lia|]. run_step. run_step. run_step.
  apply (runs_root s T X G _ I).
  { intros s1 H0 I1 K1. run_step. apply (HQ0 s1 T); [|done|apply pruned_refl|done]. intros k. by apply (empty_tree s T X G). }
  intros s1 T1 t I1 P1 K1 Ht.
  assert (∀ T2 p m, with_route T1 T2 p m → with_route T T2 p m) as Hwr.
  { intros T2 p m [H Hg]. split; [|by eapply grown_pruned]. intros q k. rewrite (H q k). by rewrite (pruned_routes T1 T). }
  assert (∀ p k, route_at T1 p k ↔ route_at T p k) as HR by (intros; by apply pruned_routes).
  destruct (Z.eqb_spec (an_plen x) 0) as [E0|Hp0].
  - assert (pbits A (an_plen x) = []) as Ep by (unfold pbits; rewrite E0; apply take_0). rewrite Ep in *.
    apply (runs_insert_default X HX s1 T1 G t n _ I1 Ht Hnp); [by eapply node_is_kept|..].
    + intros k Hk0 Hk. by apply (HQ k s1 T1 Hk0); [apply HR|..].
    + intros s2 T2 Hno I2 K2 Hw2. apply (HQn s2 T2); [|done|by eapply kept_trans|by apply Hwr].
      intros k Hk. apply (Hno k). by apply HR.
  - run_step. eapply runs_lift; [unfold an_addr; by rewrite HA|]. run_step. run_step. run_step.
    assert (art_levels (the_art s1) = art_levels (the_art s) ∧ art_alen (the_art s1) = art_alen (the_art s)) as [E1 E2]
      by (by destruct K1).
    pose proof (addr_ok_kept A s s1 K1 Haddr) as Haddr1. pose proof (i_art _ _ _ _ I1) as [_ B2 _ _].
    apply (insert_loop_spec X HX A _ (an_plen x) s1 T1 G [] t _ I1 Haddr1 Ht); [apply prefix_nil| |cbn; lia|..].
    + unfold nlevels. rewrite B2. lia.
    + intros s2 T2 Hno I2 P2 K2. run_step. apply (HQ0 s2 T2); [|done|by eapply pruned_trans|by eapply kept_trans].
      intros k Hk. apply (Hno k). by apply HR.
    + intros s2 T2 w t2 I2 P2 K2 Hw Hwa Hwp.
      assert (∀ p k, route_at T2 p k ↔ route_at T p k) as HR2 by (intros; rewrite <-HR; by apply pruned_routes).
      pose proof (kept_trans _ _ _ K1 K2) as K12.
      apply (insert_at_spec X HX A s2 T2 G w t2 n x _ I2); try done.
      * by eapply addr_ok_kept.
      * by eapply node_is_kept.
      * lia.
      * intros k Hk. destruct (route_table I2 _ _ Hk) as (_ & _ & _ & _ & _ & _ & _ & [[? _] _] & _).
        apply (HQ k s2 T2); [lia|by apply HR2|done|by eapply pruned_trans|done].
      * intros s3 T3 Hno I3 K3 Hw3. apply (HQn s3 T3); [|done|by eapply kept_trans|].
        -- intros k Hk. apply (Hno k). by apply HR2.
        -- destruct Hw3 as [Hw3 Hg]. split; [|eapply grown_pruned, grown_pruned; done].
           intros q k. rewrite (Hw3 q k). by rewrite HR2.
Qed.

(** ** Deletion *)

Definition without_route (T T' : tree) (p : list bool) : Prop :=
  (∀ q k, route_at T' q k ↔ q ≠ p ∧ route_at T q k) ∧ shrunk T T'.

Lemma inv_remove s T X s1 G w t r n :
  inv s T X G → T !! w = Some t → t_routes t !! r = Some n → only_heaps T s s1 →
  heaps_ok (art_levels (the_art s)) T (vals (reroute T w t (delete r (t_routes t)))) (heaps s1) →
  inv s1 (reroute T w t (delete r (t_routes t))) (add_at X w 1) G.
Proof.
  intros I Hw Hn Ho HH.
  pose proof (inv_set_routes s T _ G w t (delete r (t_routes t)) I Hw s1) as Hset.
  rewrite map_size_delete_Some in Hset by (by exists n).
  assert (size (t_routes t) ≠ 0)%nat as Hsz.
  { intros E. apply map_size_empty_inv in E. rewrite E in Hn. by rewrite lookup_empty in Hn. }
  eapply inv_ext; [|apply Hset]; [..|done|done].
  - intros w'. destruct (decide (w' = w)) as [->|?]; [rewrite !add_at_eq; lia|by rewrite !add_at_ne].
  - intros r' k [Hne Hk]%lookup_delete_Some. by apply (i_routes _ _ _ _ I w t r' k).
  - pose proof (i_X _ _ _ _ I w). lia.
Qed.

(** Dropping the reference of the route that is gone. *)
Lemma runs_free_after s T T1 X s1 G w t r n (Q : Z → rtable → Prop) :
  inv s T X G → T !! w = Some t → place (art_levels (the_art s)) w r →
  T1 = reroute T w t (delete r (t_routes t)) → inv s1 T1 (add_at X w 1) G → kept s s1 →
  (∀ s' T' G', inv s' T' X G' → kept s s' → without_route T T' (flat w ++ r) → Q n s') →
  runs (_ ← art_table_free (t_ptr t); mret n) s1 Q.
Proof.
  intros I Hw Hr -> I1 K1 HQ. pose proof (i_X _ _ _ _ I w).
  assert (reroute T w t (delete r (t_routes t)) !! w = Some (Tab (t_ptr t) (t_heap t) (delete r (t_routes t)))) as Hw1
    by apply lookup_insert_eq.
  run_step. apply (runs_table_free s1 _ _ G w _ _ I1 Hw1); [rewrite add_at_eq; lia|].
  intros s2 T2 G2 _ I2 P2 K2. run_step. apply (HQ s2 T2 G2).
  - eapply inv_ext; [|exact I2]. intros w'. destruct (decide (w' = w)) as [->|?]; [rewrite !add_at_eq; lia|by rewrite !add_at_ne].
  - by eapply kept_trans.
  - split; [|by eapply shrunk_pruned]. intros q k. rewrite <-(pruned_routes _ T2 q k P2). by apply (route_delete s T X G).
Qed.

Section delete.
Context (s : rtable) (T : tree) (X : path → Z) (G : list (Z * Z)) (I : inv s T X G).
Context (addr : list Z) (Haddr : addr_ok s addr).
Abbreviation L := (art_levels (the_art s)).
Abbreviation a := (abits addr).

(** The route asked for is at the place where the descent ends. *)
Lemma route_place w t plen n :
  T !! w = Some t → flat w `prefix_of` a → route_at T (pbits addr plen) n →
  Z.of_nat (length (flat w)) < plen ≤ Z.of_nat (length (flat w)) + stride L w →
  t_routes t !! rel addr (Z.of_nat (length (flat w))) plen = Some n.
Proof.
  intros Hw Ha Hn Hp. destruct (rel_app I addr Haddr w t plen Hw Ha ltac:(lia)) as [Ep El].
  destruct (here_live I a w t (pbits addr plen) n Hw Ha Hn (prefix_take _ _)) as (r' & Hr' & E).
  { rewrite <-Ep, length_app. lia. }
  rewrite <-Ep in E. apply app_inv_head in E. by subst r'.
Qed.

Lemma runs_parent_entry w t r b Q :
  T !! w = Some t → in_table L w (r ++ [b]) →
  Q (best (t_routes t) r) s →
  runs (if 1 <? Z.shiftr (idx (r ++ [b])) 1 then SMR_PTR_GET (t_heap t) (Z.shiftr (idx (r ++ [b])) 1) else mret 0) s Q.
Proof.
  intros Hw [_ Hr] HQ. rewrite length_app in Hr. cbn in Hr. rewrite idx_half.
  destruct r as [|b' r'] eqn:E; [cbn; by run_step|]. rewrite <-E in *.
  assert (r ≠ []) as Hne by by rewrite E. assert (1 ≤ length r)%nat as Hl by (rewrite E; cbn; lia).
  pose proof (idx_ge2 r Hne). rewrite (proj2 (Z.ltb_lt _ _)) by lia.
  assert (in_table L w r) as Hin by (split; lia). pose proof (inv_strides I) as HL.
  apply (runs_get_entry _ HL T (vals T) s (inv_view I) w t r _ Hw Hin).
  unfold entry. rewrite (inner_leaf _ T w (i_tree _ _ _ _ I) r); [|done|lia].
  by rewrite (vals_best T w t).
Qed.

Lemma delete_at_spec w t plen n (Q : Z → rtable → Prop) :
  T !! w = Some t → flat w `prefix_of` a → route_at T (pbits addr plen) n →
  Z.of_nat (length (flat w)) < plen ≤ Z.of_nat (length (flat w)) + stride L w →
  (∀ s' T' G', inv s' T' X G' → kept s s' → without_route T T' (pbits addr plen) → Q n s') →
  runs (delete_at addr plen (t_ptr t) (t_heap t)) s Q.
Proof.
  intros Hw Ha Hn Hp HQ. pose proof (route_place w t plen n Hw Ha Hn Hp) as Hrn.
  set (r := rel addr (Z.of_nat (length (flat w))) plen) in *.
  pose proof (rel_in_table I addr Haddr w t plen Hw Ha Hp) as Hr. fold r in Hr.
  destruct (rel_app I addr Haddr w t plen Hw Ha ltac:(lia)) as [Ep El]. fold r in Ep, El.
  destruct (table_entry I w t r Hw Hr) as [_ Hne].
  destruct (i_table _ _ _ _ I w t Hw) as (x & Hx & Hok).
  destruct (i_routes _ _ _ _ I w t r n Hw Hrn) as (_ & [[Hn0 _] _] & _).
  assert (vals T w r = n) as Hv.
  { rewrite (vals_best T w t r Hw Hne). clear -Hrn Hne. destruct r as [|b r0 _] using rev_ind; [done|].
    by rewrite best_snoc, Hrn. }
  unfold delete_at. run_step. eapply runs_tb; [done|].
  rewrite (to_offset _ _ _ _ _ _ Hok), (to_bits _ _ _ _ _ _ Hok), (to_minfringe _ _ _ _ _ _ Hok).
  run_step. eapply runs_lift; [apply (bindex_at I addr Haddr w t _ Hw); lia|]. fold r.
  run_step. apply (runs_ahep _ (inv_strides I) T (vals T) s (inv_view I) w t r); [done..|].
  rewrite (surjective_pairing (slot T w t r)). unfold art_heap_entry_to_node. rewrite Hv.
  rewrite (proj2 (Z.eqb_neq n _)) by lia.
  destruct r as [|b r0 _] eqn:Er using rev_ind; [done|]. rewrite <-Er in *.
  pose proof (λ Q, runs_parent_entry w t r0 b Q) as Hpe. rewrite <-Er in Hpe.
  run_step. apply Hpe; [done..|].
  assert (∀ q, best (delete r (t_routes t)) q = allot (best (t_routes t)) r (best (t_routes t) r) (best (t_routes t) r0) q) as Hb.
  { intros q. rewrite Er. apply best_delete. by eapply inv_routes_ok. }
  run_step. rewrite <-Hv at 1.
  apply (runs_place s T _ G w t x r (best (t_routes t) r0) (delete r (t_routes t)) _ I Hw Hx Hr);
    [eapply best_node; by eapply inv_routes_ok|by rewrite lookup_delete_ne|done|].
  intros s2 Ho HH. pose proof (only_heaps_kept T s s2 Ho) as K2.
  apply (runs_free_after s T _ X s2 G w t r n Q I Hw (or_introl Hr) eq_refl); [by eapply inv_remove|done|].
  intros s3 T3 G3 I3 K3 Hw3. apply (HQ s3 T3 G3 I3 K3). by rewrite <-Ep.
Qed.

Lemma delete_loop_spec fuel plen n : ∀ w t (Q : option (Z * Z) → rtable → Prop),
  T !! w = Some t → flat w `prefix_of` a → route_at T (pbits addr plen) n →
  (length L ≤ fuel + length w)%nat → Z.of_nat (length (flat w)) < plen ≤ art_alen (the_art s) →
  (∀ w' t', T !! w' = Some t' → flat w' `prefix_of` a →
     Z.of_nat (length (flat w')) < plen ≤ Z.of_nat (length (flat w')) + stride L w' →
     Q (Some (t_ptr t', t_heap t')) s) →
  runs (delete_loop fuel addr plen (t_ptr t) (t_heap t)) s Q.
Proof.
  induction fuel as [|fuel IH]; intros w t Q Hw Ha Hn Hf Hp HQ.
  { pose proof (inv_level I w ltac:(by exists t)). lia. }
  pose proof (inv_strides I) as HL. pose proof (inv_stride I w t Hw) as Hst. pose proof Haddr as [_ Hlen].
  destruct (i_table _ _ _ _ I w t Hw) as (x & Hx & Hok). cbn [delete_loop]. run_step. eapply runs_tb; [done|].
  rewrite (to_offset _ _ _ _ _ _ Hok), (to_bits _ _ _ _ _ _ Hok), (offset_u32 s T X G I w t Hw).
  destruct (Z.ltb_spec (Z.of_nat (length (flat w)) + stride L w) plen) as [Hlt|Hge]; [|run_step; apply (HQ w t); [done|done|lia]].
  destruct (next_in_table I addr Haddr w t Hw Ha) as (Hin & Hl & _ & Hna).
  run_step. eapply runs_lift; [apply (bindex_at I addr Haddr w t _ Hw); lia|]. fold (next L addr w).
  run_step. apply (runs_get_entry _ HL T (vals T) s (inv_view I) w t); [done..|].
  destruct (T !! (next L addr w :: w)) as [t'|] eqn:Hc.
  - destruct (entry_child _ T (vals T) s (inv_view I) w _ t' Hc) as [-> ->].
    run_step. apply (runs_get_table _ HL T (vals T) s (inv_view I) (next L addr w :: w) t' _ Hc).
    apply (IH (next L addr w :: w) t' Q Hc Hna Hn); [cbn; lia| |done]. cbn. rewrite length_app. lia.
  - exfalso. pose proof (leaf_end I addr Haddr w t _ n Hw Ha Hc Hn (prefix_take _ _)) as Hend.
    unfold pbits in Hend. rewrite length_take, length_abits in Hend. lia.
Qed.

(** [art_delete] of a prefix that has a route gives its node, and the routes without it. *)
Lemma runs_delete plen n (Q : Z → rtable → Prop) :
  0 ≤ plen ≤ art_alen (the_art s) → route_at T (pbits addr plen) n →
  (∀ s' T' G', inv s' T' X G' → kept s s' → without_route T T' (pbits addr plen) → Q n s') →
  runs (art_delete addr plen) s Q.
Proof.
  intros Hp Hn HQ. pose proof (inv_strides I) as HL.
  unfold art_delete. run_step. run_step. run_step. run_step; [by rewrite (proj2 (Z.leb_le _ _)) by lia|].
  run_step. run_step. destruct (root_cases s T X G I) as [[_ H0]|(t & Ht & -> & Hne)].
  { exfalso. by eapply (empty_tree s T X G I). }
  rewrite (proj2 (Z.eqb_neq (t_heap t) _)) by done.
  run_step. apply (runs_get_table _ HL T (vals T) s (inv_view I) [] t _ Ht).
  destruct (Z.eqb_spec plen 0) as [->|Hp0].
  - unfold pbits in *. change (Z.to_nat 0) with 0%nat in *. rewrite take_0 in *.
    assert (t_routes t !! [] = Some n) as Hr.
    { destruct Hn as (w1 & t1 & r1 & H1 & Hk & E1). destruct (i_routes _ _ _ _ I w1 t1 r1 n H1 Hk) as (Hp1 & _).
      destruct (place_inj I [] w1 t t1 [] r1 Ht H1 ltac:(by right) Hp1 E1) as [<- <-]. congruence. }
    destruct (i_routes _ _ _ _ I [] t [] n Ht Hr) as (_ & [[Hn0 _] _] & _).
    run_step. apply (runs_get_default _ HL T (vals T) s (inv_view I) [] t _ Ht). cbn [dflt].
    assert (vals T [] [] = n) as -> by (unfold vals; by rewrite Ht, decide_True, Hr).
    unfold art_heap_entry_to_node. rewrite (proj2 (Z.eqb_neq n _)) by lia.
    run_step. apply (runs_set_default _ HL T (vals T) s t 0 _ (inv_view I) Ht); [done|]. intros s2 Ho HV.
    pose proof (only_heaps_kept T s s2 Ho) as K2.
    apply (runs_free_after s T _ X s2 G [] t [] n Q I Ht (or_intror (conj eq_refl eq_refl)) eq_refl); [|done|by apply HQ].
    eapply inv_remove; [done..|]. apply vw_heaps. eapply view_ext; [exact HL| | |exact HV].
    + intros w' t' r' Hw' [Hr' _]. rewrite put_val_ne by (intros [= -> ->]; cbn in Hr'; lia).
      unfold reroute, vals. destruct (decide (w' = [])) as [->|?]; [|by rewrite lookup_insert_ne].
      rewrite lookup_insert_eq, Ht. rewrite !decide_False by (intros ->; cbn in Hr'; lia). cbn [t_routes].
      symmetry. apply best_ext. intros p Hpn. by rewrite lookup_delete_ne.
    + rewrite put_val_eq. unfold reroute, vals. rewrite lookup_insert_eq, decide_True by done. cbn [t_routes].
      by rewrite lookup_delete_eq.
  - run_step. run_step. run_step.
    apply (delete_loop_spec _ plen n [] t _ Ht); [apply prefix_nil|done| |cbn; lia|].
    + unfold nlevels. rewrite (lv_nlevels _ (i_art _ _ _ _ I)). lia.
    + intros w t' Hw Ha Hpw. by apply (delete_at_spec w t' plen n).
Qed.
End delete.
