(* ===== verification/ArtIter.v ===== *)
(** Iteration over the routing table of [Art]: what [art_iter_next] gives from
    any position, that [art_walk] visits every route once, and that iterators
    keep their tables alive while routes come and go. *)

From S2P Require Import Prelude StateMonad Art ArtTable ArtMem ArtInv ArtOps.

(** ** From an index back to its bits *)

Definition unidx (k : Z) : list bool := Z.testbit k <$> reverse (seqZ 0 (Z.log2 k)).

Lemma log2_idx r : Z.log2 (idx r) = Z.of_nat (length r).
Proof. apply Z.log2_unique; [lia|]. rewrite <-Z.add_1_r. apply idx_between. Qed.

Lemma unidx_length k : 1 ≤ k → Z.of_nat (length (unidx k)) = Z.log2 k.
Proof.
  intros Hk. unfold unidx. rewrite length_fmap, length_reverse, length_seqZ.
  pose proof (Z.log2_nonneg k). lia.
Qed.

Lemma idx_testbit r i : 0 ≤ i < Z.of_nat (length r) → Z.testbit (idx r) i = Z.testbit (bnum r) i.
Proof.
  intros Hi. rewrite idx_bnum, <-(Z.mod_pow2_bits_low _ (Z.of_nat (length r)) i) by lia.
  replace (2 ^ Z.of_nat (length r) + bnum r) with (bnum r + 1 * 2 ^ Z.of_nat (length r)) by lia.
  rewrite Z.mod_add by lia. by rewrite Z.mod_pow2_bits_low by lia.
Qed.

Lemma unidx_idx r : unidx (idx r) = r.
Proof.
  apply list_eq. intros i. unfold unidx. rewrite log2_idx, list_lookup_fmap.
  destruct (decide (i < length r)%nat) as [Hi|Hi].
  - rewrite reverse_lookup by (rewrite length_seqZ; lia). rewrite length_seqZ, lookup_seqZ_lt by lia. cbn.
    rewrite idx_testbit by lia. rewrite bnum_testbit by lia. rewrite bool_decide_true by lia.
    replace (length r - 1 - _)%nat with i by lia.
    by destruct (lookup_lt_is_Some_2 r i Hi) as [c ->].
  - rewrite (lookup_ge_None_2 r) by lia. rewrite lookup_ge_None_2; [done|]. rewrite length_reverse, length_seqZ. lia.
Qed.

Lemma idx_unidx k : 1 ≤ k → idx (unidx k) = k.
Proof. intros Hk. destruct (idx_surj k Hk) as [r <-]. by rewrite unidx_idx. Qed.

Lemma unidx_half k : 2 ≤ k → ∃ b, unidx k = unidx (Z.shiftr k 1) ++ [b].
Proof.
  intros Hk. destruct (idx_surj k ltac:(lia)) as [r <-]. destruct r as [|b r _] using rev_ind; [cbn in Hk; lia|].
  exists b. by rewrite idx_half, !unidx_idx.
Qed.

(** ** The order of a table *)

(** The steps of the loop over the entries above the fringe, from [j] and [i]
    on: the index of the entry looked at, or [512 + j] where the loop goes to the
    next [j]. *)
Fixpoint inner_steps (fuel : nat) (b j i : Z) : list Z :=
  match fuel with
  | O => []
  | S fuel =>
      if i <? 2 ^ b then i :: inner_steps fuel b j (2 * i)
      else 512 + j :: if j + 2 <? 2 ^ b then inner_steps fuel b (j + 2) (j + 2) else []
  end.
Definition inner_size (b j i : Z) : Z := (2 ^ b - j) * 16 + (16 - Z.log2 i).
Definition inner (b j i : Z) : list Z := inner_steps (Z.to_nat (inner_size b j i)) b j i.

(** A position of the loop. *)
Definition inner_at (b j i : Z) : Prop := 1 ≤ j < 2 ^ b ∧ 2 ≤ i < 2 ^ (b + 1).

Lemma inner_size_pos b j i : b = 4 ∨ b = 8 → inner_at b j i → 17 ≤ inner_size b j i ≤ 4112.
Proof.
  intros Hb [Hj Hi]. unfold inner_size.
  assert (1 ≤ Z.log2 i ≤ 8) as Hl.
  { split; [apply Z.log2_le_pow2; lia|]. rewrite <-Z.lt_succ_r. apply Z.log2_lt_pow2; [lia|].
    eapply Z.lt_le_trans; [apply Hi|]. destruct Hb as [-> | ->]; done. }
  destruct Hb as [-> | ->]; cbn in *; lia.
Qed.

Lemma inner_size_double b j i : 2 ≤ i → inner_size b j (2 * i) = inner_size b j i - 1.
Proof. intros. unfold inner_size. rewrite Z.log2_double by lia. lia. Qed.
Lemma inner_size_next b j i : b = 4 ∨ b = 8 → inner_at b j i → inner_at b (j + 2) (j + 2) → inner_size b (j + 2) (j + 2) < inner_size b j i.
Proof.
  intros Hb [Hj Hi] [Hj' Hi']. unfold inner_size. pose proof (Z.log2_nonneg (j + 2)).
  assert (Z.log2 i ≤ 8); [|lia]. rewrite <-Z.lt_succ_r. apply Z.log2_lt_pow2; [lia|].
  eapply Z.lt_le_trans; [apply Hi|]. destruct Hb as [-> | ->]; done.
Qed.

Lemma inner_steps_fuel b f : ∀ f' j i,
  b = 4 ∨ b = 8 → inner_at b j i → inner_size b j i ≤ Z.of_nat f → inner_size b j i ≤ Z.of_nat f' →
  inner_steps f b j i = inner_steps f' b j i.
Proof.
  induction f as [|f IH]; intros f' j i Hb Hat Hf Hf'; pose proof (inner_size_pos b j i Hb Hat); [lia|].
  destruct f' as [|f']; [lia|]. cbn [inner_steps]. pose proof Hat as [Hj Hi].
  assert (2 ^ (b + 1) = 2 * 2 ^ b) as Hp by (destruct Hb as [-> | ->]; done).
  destruct (Z.ltb_spec i (2 ^ b)).
  - f_equal. pose proof (inner_size_double b j i ltac:(lia)). apply IH; [done|split; lia|lia|lia].
  - f_equal. destruct (Z.ltb_spec (j + 2) (2 ^ b)); [|done].
    assert (inner_at b (j + 2) (j + 2)) as Hat' by (split; lia).
    pose proof (inner_size_next b j i Hb Hat Hat'). apply IH; [done|done|lia|lia].
Qed.

(** One turn of the loop. *)
Lemma inner_eq b j i :
  b = 4 ∨ b = 8 → inner_at b j i →
  inner b j i =
    if i <? 2 ^ b then i :: inner b j (2 * i)
    else 512 + j :: if j + 2 <? 2 ^ b then inner b (j + 2) (j + 2) else [].
Proof.
  intros Hb Hat. pose proof (inner_size_pos b j i Hb Hat). pose proof Hat as [Hj Hi]. unfold inner at 1.
  replace (Z.to_nat (inner_size b j i)) with (S (Z.to_nat (inner_size b j i - 1))) by lia. cbn [inner_steps].
  assert (2 ^ (b + 1) = 2 * 2 ^ b) as Hp by (destruct Hb as [-> | ->]; done).
  destruct (Z.ltb_spec i (2 ^ b)).
  - f_equal. pose proof (inner_size_double b j i ltac:(lia)).
    assert (inner_at b j (2 * i)) as Hat' by (split; lia). pose proof (inner_size_pos _ _ _ Hb Hat').
    apply inner_steps_fuel; [done|done|lia|lia].
  - f_equal. destruct (Z.ltb_spec (j + 2) (2 ^ b)); [|done].
    assert (inner_at b (j + 2) (j + 2)) as Hat' by (split; lia). pose proof (inner_size_pos _ _ _ Hb Hat').
    pose proof (inner_size_next b j i Hb Hat Hat'). apply inner_steps_fuel; [done|done|lia|lia].
Qed.

(** From the start, the loop looks at every entry above the fringe once. *)
Lemma inner_all b : b = 4 ∨ b = 8 →
  NoDup (inner b 1 2) ∧ Forall (λ c, 2 ≤ c < 2 ^ b ∨ 512 < c < 1024) (inner b 1 2) ∧
  Forall (λ k, k ∈ inner b 1 2) (seqZ 2 (2 ^ b - 2)).
Proof. intros [-> | ->]; apply (bool_decide_unpack _); vm_compute; exact Logic.I. Qed.

(** ** The order of the whole table *)

(** An event is a turn of the loop: the table it is in and a number, the index
    of the entry looked at; 0 for going up, -1 for [descend], [512 + j] for the
    end of the turn [j] above the fringe. *)
Abbreviation event := (path * Z)%type.

Section events.
Context (L : list Z) (T : tree).

Abbreviation mf w := (2 ^ stride L w).

Definition inner_ev (w : path) (j i : Z) : list event := map (pair w) (inner (stride L w) j i).

Fixpoint sub_fuel (d : nat) (w : path) : list event :=
  match d with
  | O => []
  | S d =>
      match T !! w with
      | None => []
      | Some _ =>
          (w, -1) :: inner_ev w 1 2 ++
          (seqZ (mf w) (mf w) ≫= λ k, (w, k) :: sub_fuel d (unidx k :: w)) ++ [(w, 0)]
      end
  end.

(** All events of the table at [w] and of the tables below it. *)
Definition sub (w : path) : list event := sub_fuel (length L - length w) w.
(** Those of the loop over its fringe from [i] on, then of the tables above. *)
Definition fring (w : path) (i : Z) : list event :=
  (seqZ i (2 * mf w - i) ≫= λ k, (w, k) :: sub (unidx k :: w)) ++ [(w, 0)].
Fixpoint up (w : path) : list event :=
  match w with [] => [] | r :: w => fring w (idx r + 1) ++ up w end.

Definition rest (pc : iter_pc) (w : path) (j i : Z) : list event :=
  match pc with
  | IDescend => (w, -1) :: if j <? mf w then inner_ev w j i ++ fring w (mf w) ++ up w else fring w i ++ up w
  | INonfringe => inner_ev w j i ++ fring w (mf w) ++ up w
  | IFringe => fring w i ++ up w
  end.

(** The route that an event finds. *)
Definition found (e : event) : option Z :=
  if (1 <=? e.2) && (e.2 <? 512) then T !! e.1 ≫= λ t, t_routes t !! unidx e.2 else None.

(** The positions that the loop keeps. *)
Definition pos (pc : iter_pc) (w : path) (j i : Z) : Prop :=
  match pc with
  | IDescend => if j <? mf w then inner_at (stride L w) j i ∧ inner (stride L w) j i `suffix_of` inner (stride L w) 1 2
                else j < M32 ∧ mf w ≤ i ≤ 2 * mf w
  | INonfringe => inner_at (stride L w) j i ∧ inner (stride L w) j i `suffix_of` inner (stride L w) 1 2
  | IFringe => mf w ≤ j < M32 ∧ mf w ≤ i ≤ 2 * mf w
  end.

Context (HL : strides_ok L) (HT : tree_ok L T).

Lemma mf_cases w : is_Some (T !! w) → (stride L w = 4 ∧ mf w = 16) ∨ (stride L w = 8 ∧ mf w = 256).
Proof. intros [t Hw]. destruct (live_stride L HL T w t HT Hw) as [-> | ->]; [by left|by right]. Qed.

Lemma sub_live w :
  is_Some (T !! w) → sub w = (w, -1) :: inner_ev w 1 2 ++ fring w (mf w).
Proof.
  intros Hw. pose proof (tr_level _ _ HT w Hw) as Hl. unfold sub, fring.
  replace (length L - length w)%nat with (S (length L - S (length w)))%nat by lia.
  cbn [sub_fuel]. destruct Hw as [t ->]. do 3 f_equal.
  by replace (2 * mf w - mf w) with (mf w) by lia.
Qed.
Lemma sub_dead w : T !! w = None → sub w = [].
Proof. intros Hw. unfold sub. destruct (_ - _)%nat; cbn [sub_fuel]; [done|]. by rewrite Hw. Qed.

Lemma rest_start w : is_Some (T !! w) → rest IDescend w 1 2 = sub w ++ up w.
Proof.
  intros Hw. rewrite sub_live by done. cbn [rest]. rewrite (proj2 (Z.ltb_lt 1 (mf w))).
  - by rewrite <-app_comm_cons, <-app_assoc.
  - by destruct (mf_cases w Hw) as [[_ ->]|[_ ->]].
Qed.

Lemma fring_cons w i :
  i < 2 * mf w → fring w i = (w, i) :: sub (unidx i :: w) ++ fring w (i + 1).
Proof.
  intros Hi. unfold fring. rewrite seqZ_cons by lia. cbn. rewrite <-app_assoc.
  by replace (2 * mf w - (i + 1)) with (Z.pred (2 * mf w - i)) by lia.
Qed.
Lemma fring_end w i : 2 * mf w ≤ i → fring w i = [(w, 0)].
Proof. intros Hi. unfold fring. by rewrite seqZ_nil by lia. Qed.
Lemma fring_suffix w m i : m ≤ i ≤ 2 * mf w → fring w i `suffix_of` fring w m.
Proof.
  intros Hi. unfold fring. replace (2 * mf w - m) with ((i - m) + (2 * mf w - i)) by lia.
  rewrite seqZ_app by lia. replace (m + (i - m)) with i by lia. rewrite bind_app, <-app_assoc. by eexists.
Qed.

Lemma in_fringe w r : is_Some (T !! (r :: w)) → mf w ≤ idx r < 2 * mf w.
Proof.
  intros Hr. pose proof (idx_between r) as Hi. destruct (tr_up _ _ HT _ _ Hr) as [_ Hl].
  assert (0 ≤ stride L w) by lia. rewrite Hl, Z.pow_add_r in Hi by lia. lia.
Qed.

Lemma sub_suffix w r : is_Some (T !! (r :: w)) → sub (r :: w) ++ up (r :: w) `suffix_of` sub w ++ up w.
Proof.
  intros Hr. pose proof (in_fringe w r Hr). destruct (tr_up _ _ HT _ _ Hr) as [Hw _].
  rewrite (sub_live w) by done. cbn [up].
  destruct (fring_suffix w (mf w) (idx r)) as [l E]; [lia|].
  rewrite E, (fring_cons w (idx r)), unidx_idx by lia. exists (((w, -1) :: inner_ev w 1 2 ++ l) ++ [(w, idx r)]).
  cbn. by rewrite <-!app_assoc; cbn; rewrite <-!app_assoc.
Qed.
Lemma all_suffix w : is_Some (T !! w) → sub w ++ up w `suffix_of` sub [].
Proof.
  induction w as [|r w IH]; intros Hw; [by rewrite app_nil_r|].
  etrans; [by apply sub_suffix|]. apply IH, (tr_up _ _ HT r w Hw).
Qed.

(** What is left at a position is the end of the whole order. *)
Lemma rest_suffix pc w j i :
  is_Some (T !! w) → pos pc w j i → pc ≠ IDescend → rest pc w j i `suffix_of` sub [].
Proof.
  intros Hw Hp Hpc. etrans; [|by apply (all_suffix w)]. rewrite sub_live by done.
  destruct pc; [done| |]; cbn [rest pos] in *.
  - destruct Hp as [_ [l Hl]]. exists ((w, -1) :: map (pair w) l). unfold inner_ev.
    rewrite Hl, map_app. cbn. f_equal. by rewrite <-!app_assoc.
  - destruct (fring_suffix w (mf w) i) as [l ->]; [lia|].
    exists ((w, -1) :: inner_ev w 1 2 ++ l). cbn. f_equal. by rewrite <-!app_assoc.
Qed.
Definition loop_of (w : path) (j : Z) : iter_pc := if j <? mf w then INonfringe else IFringe.
Lemma rest_descend w j i :
  rest IDescend w j i = (w, -1) :: rest (loop_of w j) w j i.
Proof. unfold loop_of. cbn [rest]. by destruct (j <? mf w). Qed.
Lemma pos_descend w j i : pos IDescend w j i → pos (loop_of w j) w j i.
Proof. unfold loop_of. cbn [pos]. destruct (Z.ltb_spec j (mf w)); cbn [pos]; [done|lia]. Qed.
Lemma loop_of_descend w j : loop_of w j ≠ IDescend.
Proof. unfold loop_of. by destruct (j <? mf w). Qed.
Lemma pos_start w : is_Some (T !! w) → pos IDescend w 1 2.
Proof.
  intros Hw. destruct (mf_cases w Hw) as [[E1 E]|[E1 E]]; unfold pos, inner_at; rewrite E, E1; done.
Qed.

(** *** Each event happens once *)

Lemma sub_fuel_events d : ∀ w e, e ∈ sub_fuel d w → w `suffix_of` e.1 ∧ is_Some (T !! e.1) ∧ -1 ≤ e.2 < 1024 ∧ e.2 ≠ 1.
Proof.
  induction d as [|d IH]; intros w e; cbn [sub_fuel]; [by intros ?%elem_of_nil|].
  destruct (T !! w) as [t|] eqn:Hw; [|by intros ?%elem_of_nil].
  destruct (mf_cases w (mk_is_Some _ _ Hw)) as [[Hst E]|[Hst E]].
  all: rewrite elem_of_cons, !elem_of_app, list_elem_of_singleton, list_elem_of_bind.
  all: assert (stride L w = 4 ∨ stride L w = 8) as Hs by lia; destruct (inner_all _ Hs) as (_ & Hin & _).
  all: rewrite Forall_forall in Hin.
  all: intros [->|[(c & <- & Hc)%list_elem_of_In%in_map_iff|[(k & [->|He]%elem_of_cons & Hk%elem_of_seqZ)| ->]]]; cbn.
  all: try (split; [done|]; split; [by eexists|]).
  all: try (apply list_elem_of_In, Hin in Hc; lia).
  all: try lia.
  all: destruct (IH _ _ He) as ([l Hl] & He'); split; [|done]; exists (l ++ [unidx k]); by rewrite Hl, <-app_assoc.
Qed.

Lemma sub_NoDup d : ∀ w, NoDup (sub_fuel d w).
Proof.
  induction d as [|d IH]; intros w; cbn [sub_fuel]; [constructor|].
  destruct (T !! w) as [t|] eqn:Hw; [|constructor].
  assert (stride L w = 4 ∨ stride L w = 8) as Hs by (eapply live_stride; eauto).
  assert (16 ≤ mf w) as Hmf by (destruct Hs as [-> | ->]; done).
  destruct (inner_all _ Hs) as (Hnd & Hin & _). rewrite Forall_forall in Hin.
  assert (∀ k e, e ∈ sub_fuel d (unidx k :: w) → e.1 ≠ w) as Hbelow.
  { intros k e He E. destruct (sub_fuel_events _ _ _ He) as ([l Hl] & _).
    rewrite E in Hl. apply (f_equal length) in Hl. rewrite length_app in Hl. cbn in Hl. lia. }
  assert (∀ e, e ∈ inner_ev w 1 2 → e.1 = w ∧ (2 ≤ e.2 < mf w ∨ 512 < e.2 < 1024)) as Hie.
  { intros e (c & <- & Hc)%list_elem_of_In%in_map_iff. split; [done|]. by apply Hin, list_elem_of_In. }
  assert (∀ e, e ∈ (seqZ (mf w) (mf w) ≫= λ k, (w, k) :: sub_fuel d (unidx k :: w)) →
    (e.1 = w ∧ mf w ≤ e.2 < 2 * mf w) ∨ e.1 ≠ w) as Hfe.
  { intros e (k & [->|He]%elem_of_cons & Hk%elem_of_seqZ)%list_elem_of_bind; [left; split; [done|cbn [snd]; lia]|].
    right. by eapply Hbelow. }
  assert (2 * mf w ≤ 512) as Hmf2 by (destruct Hs as [-> | ->]; done).
  apply NoDup_cons. split.
  { rewrite !elem_of_app, list_elem_of_singleton. intros [He|[He|[=]]].
    - apply Hie in He. cbn in He. lia.
    - apply Hfe in He. cbn in He. destruct He as [[_ ?]|?]; [lia|done]. }
  apply NoDup_app. split; [|split].
  - unfold inner_ev. apply NoDup_fmap_2; [|done]. by intros ?? [= ->].
  - intros e He. rewrite elem_of_app, list_elem_of_singleton. apply Hie in He as [He1 He2]. intros [He| ->]; [|cbn in He2; lia].
    apply Hfe in He as [[_ ?]|?]; [lia|done].
  - apply NoDup_app. split; [|split; [|apply NoDup_singleton]].
    + apply NoDup_bind; [| |apply NoDup_seqZ].
      * intros k1 k2 e Hk1%elem_of_seqZ Hk2%elem_of_seqZ [->|H1]%elem_of_cons [E|H2]%elem_of_cons.
        -- by simplify_eq.
        -- by apply Hbelow in H2.
        -- subst e. by apply Hbelow in H1.
        -- destruct (sub_fuel_events _ _ _ H1) as ([l1 E1] & _). destruct (sub_fuel_events _ _ _ H2) as ([l2 E2] & _).
           rewrite E1 in E2. apply app_inj_2 in E2 as [_ [= E2]]; [|done].
           apply (f_equal idx) in E2. by rewrite !idx_unidx in E2 by lia.
      * intros k Hk. apply NoDup_cons. split; [|apply IH]. intros He. by apply Hbelow in He.
    + intros e He%Hfe ->%list_elem_of_singleton. cbn in He. destruct He as [[_ ?]|?]; [lia|done].
Qed.

Lemma sub_complete w k : is_Some (T !! w) → 2 ≤ k < 2 * mf w → (w, k) ∈ sub [].
Proof.
  intros Hw Hk. destruct (all_suffix w Hw) as [l ->]. rewrite !elem_of_app. right; left.
  rewrite sub_live by done. apply elem_of_cons; right. apply elem_of_app. destruct (decide (k < mf w)).
  - left. apply list_elem_of_In, in_map. apply list_elem_of_In.
    assert (stride L w = 4 ∨ stride L w = 8) as Hs by (destruct (mf_cases w Hw); lia).
    destruct (inner_all _ Hs) as (_ & _ & Hall). rewrite Forall_forall in Hall. apply Hall, elem_of_seqZ. lia.
  - right. destruct (fring_suffix w (mf w) k) as [l' ->]; [lia|]. rewrite fring_cons by lia.
    apply elem_of_app; right. apply elem_of_cons. by left.
Qed.

(** The order is no longer than the tables can fill. *)
Lemma all_length : (length (sub []) ≤ 1025 * size T)%nat.
Proof.
  assert (length (sub []) ≤ length ((map_to_list T).*1 ≫= λ w, pair w <$> seqZ (-1) 1025))%nat as Hlen.
  { apply submseteq_length, NoDup_submseteq; [apply sub_NoDup|].
    intros e He. destruct (sub_fuel_events _ _ _ He) as (_ & [t Ht] & Hc). apply list_elem_of_bind.
    exists e.1. split.
    - apply list_elem_of_fmap. exists e.2. split; [by destruct e|]. apply elem_of_seqZ. lia.
    - apply list_elem_of_fmap. exists (e.1, t). split; [done|]. by apply elem_of_map_to_list. }
  etrans; [exact Hlen|]. rewrite <-length_map_to_list, <-(length_fmap fst (map_to_list T)).
  clear Hlen. induction ((map_to_list T).*1) as [|w l IH]; [done|]. rewrite bind_cons, length_app, length_fmap, length_seqZ. cbn [length]. lia.
Qed.

End events.

Lemma omap_bind {A B C} (f : B → option C) (g : A → list B) (l : list A) : omap f (l ≫= g) = l ≫= λ x, omap f (g x).
Proof. induction l as [|x l IH]; [done|]. rewrite !bind_cons, omap_app. by f_equal. Qed.
Lemma omap_nothing {A B} (f : A → option B) (l : list A) : (∀ x, x ∈ l → f x = None) → omap f l = [].
Proof.
  induction l as [|x l IH]; intros H; [done|]. cbn. rewrite (H x) by (apply elem_of_cons; by left).
  apply IH. intros y Hy. apply H, elem_of_cons. by right.
Qed.
Lemma omap_same {A B} (f g : A → option B) (l : list A) : (∀ x, x ∈ l → f x = g x) → omap f l = omap g l.
Proof.
  induction l as [|x l IH]; intros H; [done|]. cbn. rewrite (H x) by (apply elem_of_cons; by left).
  rewrite IH; [done|]. intros y Hy. apply H, elem_of_cons. by right.
Qed.

Lemma NoDup_omap_inj {A B} (f : A → option B) (l : list A) :
  NoDup l → (∀ x y n, x ∈ l → y ∈ l → f x = Some n → f y = Some n → x = y) → NoDup (omap f l).
Proof.
  induction 1 as [|x l Hx _ IH]; intros Hinj; [constructor|]. cbn.
  assert (NoDup (omap f l)) as IH'.
  { apply IH. intros y z n Hy Hz. apply Hinj; apply elem_of_cons; by right. }
  destruct (f x) as [n|] eqn:E; [|done]. apply NoDup_cons. split; [|done].
  intros (y & Hy & Hf)%list_elem_of_omap. apply Hx.
  by rewrite (Hinj x y n ltac:(apply elem_of_cons; by left) ltac:(apply elem_of_cons; by right) E Hf).
Qed.

(** What the events [l] of [T] find. *)
Definition gives (T : tree) (l : list event) : list Z := omap (found T) l.

Lemma gives_app T l l' : gives T (l ++ l') = gives T l ++ gives T l'.
Proof. apply omap_app. Qed.
Lemma gives_cons T e l : gives T (e :: l) = (match found T e with Some n => [n] | None => [] end) ++ gives T l.
Proof. unfold gives. cbn. by destruct (found T e). Qed.

(** *** Freed tables change nothing *)

Section pruning.
Context (L : list Z) (T T' : tree) (HL : strides_ok L) (HT : tree_ok L T) (HT' : tree_ok L T') (HP : pruned T T').

Lemma found_same w c : is_Some (T' !! w) → found T' (w, c) = found T (w, c).
Proof.
  intros [t Ht]. unfold found. cbn. destruct (_ && _); [|done].
  by rewrite Ht, (lookup_weaken _ _ _ _ Ht (proj1 HP)).
Qed.

Lemma dead_below l w : T' !! w = None → T' !! (l ++ w) = None.
Proof.
  intros Hw. induction l as [|r l IH]; [done|]. cbn. apply eq_None_not_Some. intros Hr.
  apply (tr_up _ _ HT') in Hr as [[t Ht] _]. congruence.
Qed.

Lemma gives_inner w j i : is_Some (T' !! w) → gives T' (inner_ev L w j i) = gives T (inner_ev L w j i).
Proof.
  intros Hw. apply omap_same. intros e (c & <- & _)%list_elem_of_In%in_map_iff. by apply found_same.
Qed.

Lemma gives_sub_fuel d : ∀ w, gives T' (sub_fuel L T' d w) = gives T (sub_fuel L T d w).
Proof.
  induction d as [|d IH]; intros w; [done|]. destruct (T' !! w) as [t|] eqn:Hw.
  - cbn [sub_fuel]. rewrite Hw, (lookup_weaken _ _ _ _ Hw (proj1 HP)).
    rewrite !gives_cons, !gives_app, !gives_cons, !gives_inner, !found_same by (by eexists).
    do 3 f_equal. unfold gives. rewrite !omap_bind. apply list_bind_ext; [|done]. intros k.
    change (gives T' ((w, k) :: sub_fuel L T' d (unidx k :: w)) = gives T ((w, k) :: sub_fuel L T d (unidx k :: w))).
    by rewrite !gives_cons, IH, found_same by (by eexists).
  - cbn [sub_fuel]. rewrite Hw. symmetry.
    change (gives T (sub_fuel L T (S d) w) = []). apply omap_nothing. intros e He.
    destruct (sub_fuel_events L T HL HT _ _ _ He) as ([l Hl] & [t Ht] & _). unfold found.
    destruct (_ && _); [|done]. rewrite Ht. cbn. rewrite (proj2 HP e.1 t Ht); [apply lookup_empty|].
    rewrite Hl. by apply dead_below.
Qed.

Lemma gives_sub w : gives T' (sub L T' w) = gives T (sub L T w).
Proof. apply gives_sub_fuel. Qed.

Lemma gives_fring w i : is_Some (T' !! w) → gives T' (fring L T' w i) = gives T (fring L T w i).
Proof.
  intros Hw. unfold fring. rewrite !gives_app, !gives_cons, !found_same by done. f_equal.
  unfold gives. rewrite !omap_bind. apply list_bind_ext; [|done]. intros k.
  change (gives T' ((w, k) :: sub L T' (unidx k :: w)) = gives T ((w, k) :: sub L T (unidx k :: w))).
  by rewrite !gives_cons, gives_sub, found_same.
Qed.

Lemma gives_up w : is_Some (T' !! w) → gives T' (up L T' w) = gives T (up L T w).
Proof.
  induction w as [|r w IH]; intros Hw; [done|]. apply (tr_up _ _ HT') in Hw as [Hw _]. cbn [up].
  by rewrite !gives_app, gives_fring, IH.
Qed.

Lemma gives_rest pc w j i : is_Some (T' !! w) → gives T' (rest L T' pc w j i) = gives T (rest L T pc w j i).
Proof.
  intros Hw. destruct pc; cbn [rest].
  - rewrite !gives_cons, found_same by done. f_equal.
    destruct (_ <? _); by rewrite !gives_app, ?gives_inner, !gives_fring, gives_up.
  - by rewrite !gives_app, gives_inner, gives_fring, gives_up.
  - by rewrite !gives_app, gives_fring, gives_up.
Qed.

(** And they only make the rest shorter. *)
Lemma bind_shorter {A B} (f g : A → list B) l :
  (∀ x, (length (f x) ≤ length (g x))%nat) → (length (l ≫= f) ≤ length (l ≫= g))%nat.
Proof. intros H. induction l as [|x l IH]; [done|]. rewrite !bind_cons, !length_app. specialize (H x). lia. Qed.

Lemma shorter_sub_fuel d : ∀ w, (length (sub_fuel L T' d w) ≤ length (sub_fuel L T d w))%nat.
Proof.
  induction d as [|d IH]; intros w; [done|]. cbn [sub_fuel].
  destruct (T' !! w) as [t|] eqn:Hw; [|cbn; lia]. rewrite (lookup_weaken _ _ _ _ Hw (proj1 HP)).
  cbn [length]. rewrite !length_app. unfold inner_ev. rewrite !length_map. cbn [length].
  enough (length (seqZ (2 ^ stride L w) (2 ^ stride L w) ≫= λ k, (w, k) :: sub_fuel L T' d (unidx k :: w)) ≤
    length (seqZ (2 ^ stride L w) (2 ^ stride L w) ≫= λ k, (w, k) :: sub_fuel L T d (unidx k :: w)))%nat by lia.
  apply bind_shorter. intros k. cbn [length]. specialize (IH (unidx k :: w)). lia.
Qed.

Lemma shorter_fring w i : (length (fring L T' w i) ≤ length (fring L T w i))%nat.
Proof.
  unfold fring. rewrite !length_app. apply Nat.add_le_mono_r, bind_shorter. intros k. cbn [length].
  apply le_n_S, shorter_sub_fuel.
Qed.

Lemma shorter_up w : (length (up L T' w) ≤ length (up L T w))%nat.
Proof.
  induction w as [|r w IH]; [done|]. cbn [up]. rewrite !length_app. pose proof (shorter_fring w (idx r + 1)). lia.
Qed.
End pruning.

(** ** The references of an iterator *)

(** An open iterator has a reference on its table and on all above it. *)
Definition chain (ow : option path) : path → Z := λ w',
  match ow with Some w => if decide (w' `suffix_of` w) then 1 else 0 | None => 0 end.
Definition plus (X Y : path → Z) : path → Z := λ w, X w + Y w.

Lemma chain_range ow w : 0 ≤ chain ow w ≤ 1.
Proof. unfold chain. destruct ow; [case_decide|]; lia. Qed.

Lemma not_suffix_of_tail {A} (r : A) (w : list A) : ¬ r :: w `suffix_of` w.
Proof. intros [l Hl]. apply (f_equal length) in Hl. rewrite length_app in Hl. cbn in Hl. lia. Qed.

Lemma chain_cons r w w' : chain (Some (r :: w)) w' = add_at (chain (Some w)) (r :: w) 1 w'.
Proof.
  unfold chain, add_at. destruct (decide (w' = r :: w)) as [->|Hne].
  - rewrite decide_True by done. rewrite decide_False; [lia|]. apply not_suffix_of_tail.
  - apply decide_ext. split; [|apply suffix_cons_r].
    destruct w' as [|x w']; [intros _; apply suffix_nil|]. by intros [?|?]%suffix_cons_inv.
Qed.
Lemma chain_nil w' : chain (Some []) w' = add_at (chain None) [] 1 w'.
Proof.
  unfold chain, add_at. destruct (decide (w' = [])) as [->|Hne]; [done|].
  rewrite decide_False; [done|]. by intros ?%suffix_nil_inv.
Qed.

Definition up_of (w : path) : option path := match w with [] => None | _ :: w => Some w end.
Lemma chain_up w w' : chain (Some w) w' = add_at (chain (up_of w)) w 1 w'.
Proof. destruct w; [apply chain_nil|apply chain_cons]. Qed.

(** ** Walking *)

(** Where [ai] is: closed, or at the table [w]; and the nodes it has left. *)
Definition at_iter (L : list Z) (T : tree) (ai : art_iter) (ow : option path) : Prop :=
  match ow with
  | None => ai_table ai = 0
  | Some w => ∃ t, T !! w = Some t ∧ ai_table ai = t_ptr t ∧ pos L IDescend w (ai_j ai) (ai_i ai)
  end.
Definition left_of (L : list Z) (T : tree) (ai : art_iter) (ow : option path) : list Z :=
  match ow with None => [] | Some w => gives T (rest L T IDescend w (ai_j ai) (ai_i ai)) end.

(** No table is in memory twice. *)
Lemma tables_live {s T X G} (I : inv s T X G) : (size T ≤ size (tables s))%nat.
Proof.
  rewrite <-(length_map_to_list T), <-(length_fmap (λ e, t_ptr e.2)), <-(size_dom (tables s)). unfold size, set_size.
  cbn. apply submseteq_length, NoDup_submseteq.
  - apply NoDup_fmap_2_strong; [|apply NoDup_map_to_list].
    intros [w t] [w' t'] H%elem_of_map_to_list H'%elem_of_map_to_list E. cbn in E.
    pose proof (i_ptr_inj _ _ _ _ I w w' t t' H H' E) as ->. congruence.
  - intros p ([w t] & -> & H%elem_of_map_to_list)%list_elem_of_fmap. apply elem_of_elements, elem_of_dom.
    destruct (i_table _ _ _ _ I w t H) as (x & Hx & _). by eexists.
Qed.

Section walking.
Context (X : path → Z) (HX : few X) (HX0 : ∀ w, 0 ≤ X w) (L : list Z).

(** What a call that has the nodes [l] to give may do. *)
Definition yields (s : rtable) (T : tree) (l : list Z) (Q : Z * art_iter → rtable → Prop) : Prop :=
  ∀ s' T' G' n ai ow,
    inv s' T' (plus X (chain ow)) G' → pruned T T' → kept s s' → at_iter L T' ai ow →
    (n = 0 ∧ ow = None ∧ l = []) ∨ (n ≠ 0 ∧ is_Some ow ∧ l = n :: left_of L T' ai ow) →
    Q (n, ai) s'.

(** The entry above the entry [r ++ [b]]. *)
Definition above (T : tree) (w : path) (r : list bool) : Z := if decide (r = []) then dflt (vals T) w else vals T w r.

Section tests.
Context {s : rtable} {T : tree} {Y : path → Z} {G : list (Z * Z)} (I : inv s T Y G).
Context (EL : art_levels (the_art s) = L).

Lemma runs_above w t r b Q :
  T !! w = Some t → in_table L w (r ++ [b]) → Q (above T w r) s →
  runs (SMR_PTR_GET (t_heap t) (Z.shiftr (idx (r ++ [b])) 1)) s Q.
Proof.
  intros Hw [Hr1 Hr2] HQ. rewrite length_app in Hr1, Hr2. cbn in Hr1, Hr2. rewrite idx_half. unfold above in HQ.
  pose proof (inv_view I) as HV. rewrite EL in HV. pose proof (inv_strides I) as HL. rewrite EL in HL.
  destruct (decide (r = [])) as [->|Hr].
  - apply (runs_get_default L HL T (vals T) s HV w t); done.
  - assert (in_table L w r) as Hin by (split; [destruct r; [done|cbn; lia]|lia]).
    apply (runs_get_entry L HL T (vals T) s HV w t); [done|done|].
    unfold entry. destruct (T !! (r :: w)) as [c|] eqn:Hc; [|done].
    destruct (tr_up _ _ (vw_tree _ _ _ _ HV) r w (mk_is_Some _ _ Hc)) as [_ E]. lia.
Qed.

(** The test of the loops: the entry holds a route of its own. *)
Lemma own_route w t r b :
  T !! w = Some t → in_table L w (r ++ [b]) →
  match t_routes t !! (r ++ [b]) with
  | Some n => vals T w (r ++ [b]) = n ∧ n ≠ 0 ∧ n ≠ above T w r
  | None => vals T w (r ++ [b]) = 0 ∨ vals T w (r ++ [b]) = above T w r
  end.
Proof.
  intros Hw Hin. rewrite (vals_best T w t) by (try done; by destruct r). rewrite best_snoc.
  pose proof (inv_routes_ok I w t Hw) as [Hp Hinj].
  destruct (t_routes t !! (r ++ [b])) as [n|] eqn:Hn; cbn.
  - destruct (Hp _ _ Hn) as [Hpos _]. split; [done|]. split; [lia|]. unfold above. case_decide as Hr.
    + subst r. cbn in Hn. destruct (i_routes _ _ _ _ I w t [b] n Hw Hn) as (Hpl & _ & Hnode). destruct w as [|r1 w]; cbn.
      * unfold vals. rewrite Hw, decide_True by done. destruct (t_routes t !! []) as [n'|] eqn:Hn'; cbn; [|lia].
        intros ->. by discriminate (Hinj _ _ _ Hn Hn').
      * destruct (tr_up _ _ (i_tree _ _ _ _ I) r1 w (mk_is_Some _ _ Hw)) as [[t1 Hw1] Hl].
        assert (in_table (art_levels (the_art s)) w r1 → r1 ≠ []) as Hr1 by (intros [? _] ->; cbn in *; lia).
        assert (r1 ≠ []) as Hr1'.
        { destruct (inv_stride I w t1 Hw1) as [E|E]; rewrite E in Hl; by intros ->. }
        rewrite (vals_best T w t1) by done. intros E.
        destruct (best_inv (t_routes t1) r1) as [[E' _]|(p & _ & _ & Hm & _)]; [lia|].
        rewrite <-E in Hm. destruct (i_routes _ _ _ _ I w t1 p n Hw1 Hm) as (Hpl1 & _ & Hnode1).
        pose proof (node_prefix_eq _ _ _ Hnode Hnode1) as E1.
        destruct (place_inj I _ _ _ _ _ _ Hw Hw1 Hpl Hpl1 E1) as [E2 _].
        apply (f_equal length) in E2. cbn in E2. lia.
    + rewrite (vals_best T w t) by done. intros E.
      destruct (best_inv (t_routes t) r) as [[E' _]|(p & _ & Hpre & Hm & _)]; [lia|].
      rewrite <-E in Hm. rewrite (Hinj _ _ _ Hm Hn) in Hpre. apply prefix_length in Hpre.
      rewrite length_app in Hpre. cbn in Hpre. lia.
  - unfold above. case_decide as Hr; [left; by subst r|right]. by rewrite (vals_best T w t).
Qed.

Lemma own_test w t r b :
  T !! w = Some t → in_table L w (r ++ [b]) →
  negb (vals T w (r ++ [b]) =? 0) && negb (vals T w (r ++ [b]) =? above T w r) =
  match t_routes t !! (r ++ [b]) with Some _ => true | None => false end.
Proof.
  intros Hw Hin. pose proof (own_route w t r b Hw Hin) as H. destruct (t_routes t !! (r ++ [b])) as [n|].
  - destruct H as (-> & H1 & H2). by rewrite (proj2 (Z.eqb_neq n 0) H1), (proj2 (Z.eqb_neq _ _) H2).
  - destruct H as [-> | ->]; [done|]. rewrite Z.eqb_refl. by rewrite andb_false_r.
Qed.
End tests.

Lemma plus_up w w' : plus X (chain (Some w)) w' = add_at (plus X (chain (up_of w))) w 1 w'.
Proof. unfold plus. rewrite chain_up. unfold add_at. case_decide; lia. Qed.

Lemma chain_up_zero w : chain (up_of w) w = 0.
Proof. destruct w; [done|]. unfold chain. cbn. rewrite decide_False; [done|]. apply not_suffix_of_tail. Qed.

Lemma runs_descend s T G w t pahe (Q : Z * art_iter → rtable → Prop) :
  art_levels (the_art s) = L → inv s T (plus X (chain (up_of w))) G → T !! w = Some t →
  (∀ s', inv s' T (plus X (chain (Some w))) G → kept s s' →
     Q (if negb (dflt (vals T) w =? 0) && negb (dflt (vals T) w =? pahe) then dflt (vals T) w else 0,
        ArtIter (t_ptr t) 1 2) s') →
  runs (art_iter_descend (t_heap t) pahe) s Q.
Proof.
  intros EL I Hw HQ. unfold art_iter_descend. apply runs_bind.
  pose proof (inv_strides I) as HL. rewrite EL in HL.
  pose proof (inv_view I) as HV. rewrite EL in HV.
  apply (runs_get_table L HL T (vals T) s HV w t); [done|].
  apply runs_bind. apply (runs_ref s T (plus X (chain (up_of w))) G w t); [done|done| |].
  { unfold plus. rewrite chain_up_zero. pose proof (HX w). lia. }
  intros s1 (m & ->) I1. apply runs_bind. pose proof (inv_view I1) as HV1. cbn in HV1. rewrite EL in HV1.
  apply (runs_get_default L HL T (vals T) _ HV1 w t); [done|].
  assert (inv (set_tables m s) T (plus X (chain (Some w))) G) as I2 by (eapply inv_ext, I1; intros; apply plus_up).
  specialize (HQ _ I2 (kept_tables s m)). destruct (negb _ && negb _); by apply runs_ret.
Qed.

Lemma yields_later s T l Q s1 T1 l1 :
  kept s s1 → pruned T T1 → l1 = l → yields s T l Q → yields s1 T1 l1 Q.
Proof.
  intros Hk Hp -> HQ s' T' G' n ai ow I' Hp' Hk' Hat Hn.
  eapply HQ; [done|by eapply pruned_trans|by eapply kept_trans|done|done].
Qed.

(** A turn that ends the call with a node. *)
Lemma yields_now s T G w t n j i l Q :
  inv s T (plus X (chain (Some w))) G → T !! w = Some t → pos L IDescend w j i → n ≠ 0 →
  l = n :: gives T (rest L T (loop_of L w j) w j i) → yields s T l Q → Q (n, ArtIter (t_ptr t) j i) s.
Proof.
  intros I Hw Hp Hn -> HQ. eapply (HQ s T G n _ (Some w)); [done|apply pruned_refl|apply kept_refl| |].
  - by exists t.
  - right. split; [done|]. split; [by eexists|]. cbn [left_of]. by rewrite rest_descend, gives_cons.
Qed.

(** Leaving a table: its parent stays. *)
Lemma runs_free_chain s T G w t (Q : Z → rtable → Prop) :
  inv s T (plus X (chain (Some w))) G → T !! w = Some t →
  (∀ s' T' G' r, inv s' T' (plus X (chain (up_of w))) G' → pruned T T' → kept s s' →
     (∀ w0 t0, up_of w = Some w0 → T !! w0 = Some t0 → T' !! w0 = Some t0) → Q r s') →
  runs (art_table_free (t_ptr t)) s Q.
Proof.
  intros I Hw HQ. apply (runs_table_free s T (plus X (chain (Some w))) G w t); [done|done| |].
  { rewrite plus_up, add_at_eq. unfold plus. rewrite chain_up_zero. pose proof (HX0 w). lia. }
  intros s' T' G' r I' Hp Hk.
  assert (inv s' T' (plus X (chain (up_of w))) G') as I2.
  { eapply inv_ext, I'. intros w'. unfold add_at. rewrite plus_up. unfold add_at. case_decide; lia. }
  eapply HQ; [done|done|done|]. intros w0 t0 Eup Hw0. rewrite Eup in I2.
  destruct (i_live _ _ _ _ I2 w0) as [t1 Ht1]; [|by rewrite (lookup_weaken _ _ _ _ Ht1 (proj1 Hp)) in Hw0; simplify_eq].
  rewrite plus_up, add_at_eq. unfold plus. rewrite chain_up_zero. pose proof (HX0 w0). lia.
Qed.

Definition loop_ok (fuel : nat) : Prop := ∀ s T G pc w t j i Q,
  art_levels (the_art s) = L → inv s T (plus X (chain (Some w))) G → T !! w = Some t → pos L pc w j i →
  (length (rest L T pc w j i) ≤ fuel)%nat → yields s T (gives T (rest L T pc w j i)) Q →
  runs (iter_loop fuel pc (ArtIter (t_ptr t) j i)) s Q.

Section turns.
Context (fuel : nat) (IH : loop_ok fuel).
Context (s : rtable) (T : tree) (G : list (Z * Z)) (w : path) (t : tab).
Context (EL : art_levels (the_art s) = L) (I : inv s T (plus X (chain (Some w))) G) (Hw : T !! w = Some t).

Lemma found_at r : r ≠ [] → idx r < 512 → found T (w, idx r) = t_routes t !! r.
Proof.
  intros Hr Hi. unfold found. cbn. pose proof (idx_pos r).
  rewrite (proj2 (Z.leb_le 1 (idx r))), (proj2 (Z.ltb_lt (idx r) 512)) by lia. cbn. by rewrite Hw, unidx_idx.
Qed.

Lemma turn_heap : strides_ok L ∧ tree_ok L T ∧ view L T (vals T) s ∧ (stride L w = 4 ∨ stride L w = 8).
Proof.
  pose proof (inv_strides I) as HL. pose proof (i_tree _ _ _ _ I) as HT. pose proof (inv_view I) as HV.
  pose proof (inv_stride I w t Hw). rewrite EL in *. done.
Qed.

Lemma index_bits i : 2 ≤ i < 2 * 2 ^ stride L w → ∃ r b, i = idx (r ++ [b]) ∧ in_table L w (r ++ [b]) ∧ i < 512.
Proof.
  intros Hi. destruct turn_heap as (_ & _ & _ & Hst).
  destruct (idx_surj i ltac:(lia)) as [r <-]. destruct r as [|b r _] using rev_ind; [cbn in Hi; lia|].
  exists r, b. split; [done|]. assert (idx (r ++ [b]) < 512) by (destruct Hst as [E|E]; rewrite E in Hi; lia).
  split; [|done]. split; [rewrite length_app; cbn; lia|].
  assert (2 * 2 ^ stride L w = 2 ^ Z.of_nat (Z.to_nat (stride L w + 1))) as E by (destruct Hst as [-> | ->]; done).
  rewrite E in Hi. pose proof (proj1 (idx_lt_length _ _) (proj2 Hi)). lia.
Qed.

Lemma entry_above_fringe r : idx r < 2 ^ stride L w → entry T (vals T) w r = vals T w r.
Proof.
  intros Hi. destruct turn_heap as (HL & HT & HV & Hst). unfold entry.
  destruct (T !! (r :: w)) as [c|] eqn:Hc; [|done].
  destruct (tr_up _ _ HT r w (mk_is_Some _ _ Hc)) as [_ E].
  pose proof (idx_between r) as Hr. rewrite E in Hr. lia.
Qed.

Lemma descend_turn j i Q :
  pos L IDescend w j i → (length (rest L T IDescend w j i) ≤ S fuel)%nat →
  yields s T (gives T (rest L T IDescend w j i)) Q →
  runs (iter_loop (S fuel) IDescend (ArtIter (t_ptr t) j i)) s Q.
Proof.
  intros Hp Hlen HQ. destruct (i_table _ _ _ _ I w t Hw) as (x & Hx & Hok). cbn [iter_loop ai_table ai_j ai_i].
  apply runs_bind, (runs_tb _ x); [done|]. rewrite (to_minfringe _ _ _ _ _ _ Hok), EL.
  rewrite rest_descend in Hlen, HQ. rewrite gives_cons in HQ. cbn in Hlen, HQ.
  apply pos_descend in Hp. unfold loop_of in *. destruct (j <? 2 ^ stride L w); eapply IH; (done || lia).
Qed.

Lemma nonfringe_turn j i Q :
  pos L INonfringe w j i → (length (rest L T INonfringe w j i) ≤ S fuel)%nat →
  yields s T (gives T (rest L T INonfringe w j i)) Q →
  runs (iter_loop (S fuel) INonfringe (ArtIter (t_ptr t) j i)) s Q.
Proof.
  intros Hp Hlen HQ. destruct (i_table _ _ _ _ I w t Hw) as (x & Hx & Hok). cbn [iter_loop ai_table ai_j ai_i].
  destruct turn_heap as (HL & HT & HV & Hst). destruct Hp as [Hat Hsuf]. pose proof Hat as [Hj Hi].
  assert (2 ^ (stride L w + 1) = 2 * 2 ^ stride L w ∧ 2 ^ stride L w ≤ 256) as [E2 E3] by (destruct Hst as [-> | ->]; done).
  apply runs_bind, (runs_tb _ x); [done|]. rewrite (to_minfringe _ _ _ _ _ _ Hok), (to_heap _ _ _ _ _ _ Hok), EL.
  cbn [rest] in Hlen, HQ. unfold inner_ev in Hlen, HQ. rewrite inner_eq in Hlen, HQ, Hsuf by done.
  destruct (Z.ltb_spec i (2 ^ stride L w)) as [Hlt|Hge].
  - destruct (index_bits i) as (r & b & Ei & Hin & H512); [lia|].
    rewrite Z.shiftl_mul_pow2 by lia. rewrite (u32_small (i * 2 ^ 1)) by (unfold is_u32; lia). replace (i * 2 ^ 1) with (2 * i) by lia.
    apply runs_bind. rewrite Ei at 1. apply (runs_above I EL w t r b); [done|done|].
    apply runs_bind. rewrite Ei at 1. apply (runs_get_entry L HL T (vals T) s HV w t); [done|done|].
    rewrite entry_above_fringe by lia.
    rewrite (own_test I w t r b Hw Hin). pose proof (own_route I w t r b Hw Hin) as Hown.
    cbn in Hlen. cbn [map app] in HQ. rewrite gives_cons in HQ.
    assert (found T (w, i) = t_routes t !! (r ++ [b])) as Hf by (rewrite Ei; apply found_at; [by destruct r|lia]).
    rewrite Hf in HQ. clear Hf.
    assert (pos L INonfringe w j (2 * i)) as Hp'.
    { split; [by split; lia|]. by apply suffix_cons_l in Hsuf. }
    destruct (t_routes t !! (r ++ [b])) as [n|].
    + destruct Hown as (<- & Hn & _). apply runs_ret. eapply yields_now; [done|done| |done| |done].
      * cbn. by rewrite (proj2 (Z.ltb_lt _ _) (proj2 Hj)).
      * unfold loop_of. by rewrite (proj2 (Z.ltb_lt _ _) (proj2 Hj)).
    + eapply IH; [done|done|done|done|cbn [rest]; unfold inner_ev; cbn in Hlen; lia|done].
  - rewrite u32_small by (unfold is_u32; lia). cbn [map app] in HQ, Hlen. rewrite gives_cons in HQ.
    assert (found T (w, 512 + j) = None) as Hf.
    { unfold found. cbn [snd]. by rewrite (proj2 (Z.ltb_ge (512 + j) 512)), andb_false_r by lia. }
    rewrite Hf in HQ. cbn [app] in HQ. cbn [length] in Hlen.
    apply suffix_cons_l in Hsuf. destruct (Z.ltb_spec (j + 2) (2 ^ stride L w)).
    + eapply IH; [done|done|done| |cbn [rest]; unfold inner_ev; lia|done].
      split; [|done]. split; lia.
    + eapply IH; [done|done|done| |cbn [rest]; cbn [map app] in Hlen; lia|done]. cbn. lia.
Qed.

(** A leaf of the fringe. *)
Lemma fringe_leaf r b j (n := vals T w (r ++ [b])) Q :
  T !! ((r ++ [b]) :: w) = None → in_table L w (r ++ [b]) → 2 ^ stride L w ≤ idx (r ++ [b]) < 2 * 2 ^ stride L w →
  2 ^ stride L w ≤ j < M32 → (length (rest L T IFringe w j (idx (r ++ [b]))) ≤ S fuel)%nat →
  yields s T (gives T (rest L T IFringe w j (idx (r ++ [b])))) Q →
  let ai := ArtIter (t_ptr t) j (idx (r ++ [b]) + 1) in
  runs (if negb (n =? 0) && negb (n =? above T w r) then mret (n, ai) else iter_loop fuel IFringe ai) s Q.
Proof.
  intros Hc Hin Hi Hj Hlen HQ ai. subst n. destruct turn_heap as (HL & HT & HV & Hst).
  rewrite (own_test I w t r b Hw Hin). pose proof (own_route I w t r b Hw Hin) as Hown.
  cbn [rest] in Hlen, HQ. rewrite fring_cons in Hlen, HQ by lia. rewrite unidx_idx, sub_dead in Hlen, HQ by done.
  cbn [app length] in Hlen, HQ. rewrite gives_cons, found_at in HQ by (by destruct r + (destruct Hst as [E|E]; rewrite E in Hi; lia)).
  assert (j <? 2 ^ stride L w = false) as Hjf by (apply Z.ltb_ge; lia).
  destruct (t_routes t !! (r ++ [b])) as [n|].
  - destruct Hown as (<- & Hn & _). apply runs_ret. eapply yields_now; [done|done| |done| |done].
    + unfold pos. rewrite Hjf. lia.
    + unfold loop_of. by rewrite Hjf.
  - eapply IH; [done|done|done| |cbn [rest]; lia|done]. cbn. lia.
Qed.

(** An entry of the fringe with a table below it. *)
Lemma fringe_child r b j c Q :
  T !! ((r ++ [b]) :: w) = Some c → in_table L w (r ++ [b]) → 2 ^ stride L w ≤ idx (r ++ [b]) < 2 * 2 ^ stride L w →
  (length (rest L T IFringe w j (idx (r ++ [b]))) ≤ S fuel)%nat →
  yields s T (gives T (rest L T IFringe w j (idx (r ++ [b])))) Q →
  runs ('(an, ai) ← art_iter_descend (t_heap c) (above T w r);
        if negb (an =? 0) then mret (an, ai) else iter_loop fuel IDescend ai) s Q.
Proof.
  intros Hc Hin Hi Hlen HQ. destruct turn_heap as (HL & HT & HV & Hst).
  assert (is_Some (T !! ((r ++ [b]) :: w))) as Hsome by (by eexists).
  cbn [rest] in Hlen, HQ. rewrite fring_cons in Hlen, HQ by lia. rewrite unidx_idx in Hlen, HQ by done.
  cbn [app length] in Hlen, HQ. rewrite gives_cons, found_at in HQ by (by destruct r + (destruct Hst as [E|E]; rewrite E in Hi; lia)).
  assert (rest L T IDescend ((r ++ [b]) :: w) 1 2 = (sub L T ((r ++ [b]) :: w) ++ fring L T w (idx (r ++ [b]) + 1)) ++ up L T w) as Hrest.
  { rewrite rest_start by done. cbn [up]. by rewrite app_assoc. }
  apply runs_bind, (runs_descend s T G ((r ++ [b]) :: w) c); [done|done|done|].
  intros s' I' Hk. cbn [dflt]. rewrite (own_test I w t r b Hw Hin). pose proof (own_route I w t r b Hw Hin) as Hown.
  pose proof (kp_levels _ _ Hk) as EL'. rewrite EL in EL'.
  rewrite <-Hrest in Hlen, HQ. destruct (t_routes t !! (r ++ [b])) as [n|].
  - destruct Hown as (-> & Hn & _). rewrite (proj2 (Z.eqb_neq n 0) Hn). apply runs_ret.
    eapply (HQ s' T G n _ (Some ((r ++ [b]) :: w))); [done|apply pruned_refl|done| |].
    + exists c. split; [done|]. split; [done|]. by eapply pos_start.
    + right. split; [done|]. split; [by eexists|]. done.
  - cbn [Z.eqb negb]. eapply IH; [done|done|done|by eapply pos_start|lia|].
    eapply yields_later, HQ; [done|apply pruned_refl|done].
Qed.

(** The end of a table. *)
Lemma fringe_end j i x Q :
  tables s !! t_ptr t = Some x → table_ok L T (plus X (chain (Some w))) w t x →
  2 * 2 ^ stride L w ≤ i → (length (rest L T IFringe w j i) ≤ S fuel)%nat →
  yields s T (gives T (rest L T IFringe w j i)) Q →
  runs (_ ← art_table_free (t_ptr t);
        if at_parent x =? 0 then mret (0, ArtIter 0 j (u32 (at_index x + 1)))
        else y ← tb (at_parent x); iter_loop fuel IFringe (ArtIter (at_parent x) (at_minfringe y) (u32 (at_index x + 1)))) s Q.
Proof.
  intros Hx Hok Hi Hlen HQ. destruct turn_heap as (HL & HT & HV & Hst).
  cbn [rest] in Hlen, HQ. rewrite fring_end in Hlen, HQ by done. cbn [app length] in Hlen, HQ.
  rewrite gives_cons in HQ. cbn [found snd Z.leb andb app] in HQ.
  apply runs_bind, (runs_free_chain s T G w t); [done|done|].
  intros s' T' G' r' I2 Hp Hk Hup. destruct w as [|r w0].
  - rewrite (to_parent _ _ _ _ _ _ Hok). apply runs_ret. eapply (HQ s' T' G' 0 _ None); [done|done|done|done|].
    left. done.
  - destruct (tr_up _ _ HT r w0 (mk_is_Some _ _ Hw)) as [[t0 Hw0] Hl].
    rewrite (to_parent _ _ _ _ _ _ Hok), Hw0, (to_index _ _ _ _ _ _ Hok). cbn [fmap option_fmap option_map default from_option]. unfold id.
    destruct (i_ptr _ _ _ _ I w0 t0 Hw0) as [Hpos _]. rewrite (proj2 (Z.eqb_neq (t_ptr t0) 0)) by lia.
    pose proof (Hup w0 t0 eq_refl Hw0) as Hw0'.
    destruct (i_table _ _ _ _ I2 w0 t0 Hw0') as (y & Hy & Hoky). apply runs_bind, (runs_tb _ y); [done|].
    pose proof (kp_levels _ _ Hk) as EL'. rewrite EL in EL'.
    rewrite (to_minfringe _ _ _ _ _ _ Hoky), EL'.
    pose proof (in_fringe L T HT w0 r (mk_is_Some _ _ Hw)) as Hir.
    assert (2 ^ stride L w0 ≤ 256) as H256.
    { pose proof (inv_stride I w0 t0 Hw0) as Hst0. rewrite EL in Hst0. by destruct Hst0 as [-> | ->]. }
    rewrite u32_small by (unfold is_u32; lia).
    pose proof (i_tree _ _ _ _ I2) as HT'. rewrite EL' in HT'.
    eapply IH; [done|done|done|cbn [pos]; lia| |].
    + pose proof (shorter_up L T T' Hp (r :: w0)) as Hs. cbn [up rest] in *. lia.
    + eapply yields_later, HQ; [done|done|].
      apply (gives_rest L T T' HL HT HT' Hp IFringe w0 (2 ^ stride L w0) (idx r + 1)). by eexists.
Qed.

Lemma fringe_turn_iter j i Q :
  pos L IFringe w j i → (length (rest L T IFringe w j i) ≤ S fuel)%nat →
  yields s T (gives T (rest L T IFringe w j i)) Q →
  runs (iter_loop (S fuel) IFringe (ArtIter (t_ptr t) j i)) s Q.
Proof.
  intros Hp Hlen HQ. destruct (i_table _ _ _ _ I w t Hw) as (x & Hx & Hok). cbn [iter_loop ai_table ai_j ai_i].
  destruct turn_heap as (HL & HT & HV & Hst). destruct Hp as [Hj Hi].
  assert (16 ≤ 2 ^ stride L w ≤ 256) as Hmf by (destruct Hst as [-> | ->]; done).
  apply runs_bind, (runs_tb _ x); [done|]. rewrite EL in Hok.
  rewrite (to_minfringe _ _ _ _ _ _ Hok), (to_heap _ _ _ _ _ _ Hok).
  rewrite Z.shiftl_mul_pow2 by lia. rewrite (u32_small (2 ^ stride L w * 2 ^ 1)) by (unfold is_u32; lia).
  destruct (Z.ltb_spec i (2 ^ stride L w * 2 ^ 1)) as [Hlt|Hge]; [|apply (fringe_end j i x); (done || lia)].
  destruct (index_bits i) as (r & b & -> & Hin & H512); [lia|].
  rewrite (u32_small (idx (r ++ [b]) + 1)) by (unfold is_u32; lia).
  apply runs_bind, (runs_above I EL w t r b); [done|done|].
  apply runs_bind, (runs_get_entry L HL T (vals T) s HV w t); [done|done|].
  destruct (T !! ((r ++ [b]) :: w)) as [c|] eqn:Hc.
  - destruct (entry_child L T (vals T) s HV w _ c Hc) as [-> ->]. apply (fringe_child r b j c); (done || lia).
  - destruct (entry_leaf L T (vals T) s HV w t _ Hw Hin Hc) as [-> ->]. apply fringe_leaf; (done || lia).
Qed.
End turns.

Lemma iter_loop_spec fuel : loop_ok fuel.
Proof.
  induction fuel as [|fuel IH]; intros s T G pc w t j i Q EL I Hw Hp Hlen HQ.
  - exfalso. pose proof (inv_strides I) as HL. pose proof (i_tree _ _ _ _ I) as HT. rewrite EL in *.
    destruct pc; cbn [rest] in Hlen; [cbn in Hlen; lia| |]; rewrite !length_app in Hlen; unfold fring in Hlen; rewrite !length_app in Hlen; cbn [length] in Hlen; lia.
  - destruct pc.
    + by apply (descend_turn fuel IH s T G w).
    + by apply (nonfringe_turn fuel IH s T G w).
    + by apply (fringe_turn_iter fuel IH s T G w).
Qed.

(** [art_iter_next] gives the next node, from wherever the iterator is. *)
Lemma runs_iter_next s T G w ai Q :
  art_levels (the_art s) = L → inv s T (plus X (chain (Some w))) G → at_iter L T ai (Some w) →
  yields s T (left_of L T ai (Some w)) Q → runs (art_iter_next ai) s Q.
Proof.
  intros EL I (t & Hw & Ht & Hp) HQ. unfold art_iter_next. apply runs_bind, runs_gets.
  destruct ai as [p j i]. cbn in Ht, Hp, HQ. subst p.
  pose proof (inv_strides I) as HL. pose proof (i_tree _ _ _ _ I) as HT. rewrite EL in *.
  eapply iter_loop_spec; [done|done|done|done| |done].
  rewrite rest_descend. cbn [length].
  pose proof (rest_suffix L T HT (loop_of L w j) w j i (mk_is_Some _ _ Hw) (pos_descend _ _ _ _ Hp) (loop_of_descend _ _ _)) as Hs.
  apply suffix_length in Hs. pose proof (all_length L T HL HT) as Ha.
  pose proof (tables_live I) as Hn. assert (1 ≤ size T)%nat.
  { apply Nat.le_succ_l, Nat.neq_0_lt_0. intros E%map_size_empty_inv. by rewrite E in Hw. }
  lia.
Qed.

(** All nodes of the table, in the order of the iteration. *)
Definition nodes_in (T : tree) : list Z := gives T (([], 1) :: sub L T []).

Lemma plus_none w : plus X (chain None) w = X w.
Proof. unfold plus. cbn. lia. Qed.

Lemma nodes_in_empty T : T !! [] = None → nodes_in T = [].
Proof. intros Hr. unfold nodes_in. rewrite sub_dead by done. rewrite gives_cons. unfold found. cbn. by rewrite Hr. Qed.

Lemma runs_iter_open s T G ai Q :
  art_levels (the_art s) = L → inv s T X G → yields s T (nodes_in T) Q → runs (art_iter_open ai) s Q.
Proof.
  intros EL I HQ. assert (inv s T (plus X (chain None)) G) as I0 by (eapply inv_ext, I; apply plus_none).
  pose proof (inv_strides I) as HL. pose proof (i_tree _ _ _ _ I) as HT. rewrite EL in *.
  unfold art_iter_open. apply runs_bind, runs_gets. destruct (root_cases s T X G I) as [[-> Hr]|(t & Hr & -> & Hne)].
  - apply runs_ret. eapply (HQ s T G 0 _ None); [done|apply pruned_refl|apply kept_refl|done|].
    left. by rewrite nodes_in_empty.
  - rewrite (proj2 (Z.eqb_neq _ 0) Hne). apply runs_bind, (runs_descend s T G [] t); [done|done|done|].
    intros s' I' Hk. pose proof (kp_levels _ _ Hk) as EL'. rewrite EL in EL'.
    assert (is_Some (T !! [])) as Hsome by (by eexists).
    assert (left_of L T (ArtIter (t_ptr t) 1 2) (Some []) = gives T (sub L T [])) as Hleft.
    { cbn [left_of ai_j ai_i]. rewrite rest_start by done. cbn [up]. by rewrite app_nil_r. }
    assert (at_iter L T (ArtIter (t_ptr t) 1 2) (Some [])) as Hat.
    { exists t. split; [done|]. split; [done|]. by eapply pos_start. }
    assert (nodes_in T = match t_routes t !! [] with Some n => [n] | None => [] end ++ gives T (sub L T [])) as Hall.
    { unfold nodes_in. rewrite gives_cons. unfold found. cbn [fst snd Z.leb Z.ltb andb]. by rewrite Hr. }
    assert (dflt (vals T) [] = default 0 (t_routes t !! [])) as ->.
    { cbn [dflt]. unfold vals. by rewrite Hr, decide_True. }
    destruct (t_routes t !! []) as [n|] eqn:Hn; cbn [default from_option id].
    + destruct (i_routes _ _ _ _ I [] t [] n Hr Hn) as (_ & [Hpos _] & _).
      rewrite (proj2 (Z.eqb_neq n 0)) by lia. cbn [negb andb]. rewrite (proj2 (Z.eqb_neq n 0)) by lia. apply runs_ret.
      eapply (HQ s' T G n _ (Some [])); [done|apply pruned_refl|done|done|].
      right. split; [lia|]. split; [by eexists|]. by rewrite Hall, Hleft.
    + cbn [Z.eqb negb andb]. eapply runs_iter_next; [done|done|done|].
      eapply yields_later, HQ; [done|apply pruned_refl|]. by rewrite Hall, Hleft.
Qed.

(** [art_iter_close] gives the references of the iterator back. *)
Lemma close_loop_spec w : ∀ fuel s T G t (Q : () → rtable → Prop),
  (S (length w) < fuel)%nat → inv s T (plus X (chain (Some w))) G → T !! w = Some t →
  (∀ s' T' G', inv s' T' X G' → pruned T T' → kept s s' → Q tt s') →
  runs (close_loop fuel (t_ptr t)) s Q.
Proof.
  induction w as [|r w IH]; intros [|fuel] s T G t Q Hf I Hw HQ; [lia| |lia|]; cbn [close_loop];
    destruct (i_ptr _ _ _ _ I _ t Hw) as [Hpos _]; rewrite (proj2 (Z.eqb_neq (t_ptr t) 0)) by lia;
    destruct (i_table _ _ _ _ I _ t Hw) as (x & Hx & Hok); apply runs_bind, (runs_tb _ x); [done| |done|];
    rewrite (to_parent _ _ _ _ _ _ Hok); apply runs_bind, (runs_free_chain s T G _ t _ I Hw);
    intros s' T' G' _ I' Hp Hk Hup.
  - destruct fuel as [|fuel]; [cbn in Hf; lia|]. apply runs_ret. eapply HQ; [|done|done].
    eapply inv_ext, I'. intros w'. by rewrite <-plus_none.
  - destruct (tr_up _ _ (i_tree _ _ _ _ I) r w (mk_is_Some _ _ Hw)) as [[t0 Hw0] _].
    rewrite Hw0. cbn. eapply IH; [cbn in Hf; lia|done|by apply Hup|].
    intros s2 T2 G2 I2 Hp2 Hk2. eapply HQ; [done|by eapply pruned_trans|by eapply kept_trans].
Qed.

Lemma runs_iter_close s T G ai ow (Q : art_iter → rtable → Prop) :
  inv s T (plus X (chain ow)) G → at_iter (art_levels (the_art s)) T ai ow →
  (∀ s' T' G', inv s' T' X G' → pruned T T' → kept s s' → Q (ArtIter 0 (ai_j ai) (ai_i ai)) s') →
  runs (art_iter_close ai) s Q.
Proof.
  intros I Hat HQ. unfold art_iter_close. apply runs_bind, runs_gets, runs_bind. destruct ow as [w|].
  - destruct Hat as (t & Hw & -> & _). eapply close_loop_spec; [|done|done|].
    + pose proof (inv_level I w (mk_is_Some _ _ Hw)). unfold nlevels. rewrite (lv_nlevels _ (i_art _ _ _ _ I)). lia.
    + intros s' T' G' I' Hp Hk. apply runs_ret. by eapply HQ.
  - cbn in Hat. rewrite Hat. cbn. apply runs_ret, runs_ret. eapply HQ; [|apply pruned_refl|apply kept_refl].
    eapply inv_ext, I. intros w'. by rewrite plus_none.
Qed.

(** *** The nodes of an iteration *)

Lemma found_route s T Y G e n :
  art_levels (the_art s) = L → inv s T Y G → e ∈ (([], 1) :: sub L T []) → found T e = Some n →
  ∃ t, T !! e.1 = Some t ∧ t_routes t !! unidx e.2 = Some n ∧ place L e.1 (unidx e.2) ∧ 1 ≤ e.2.
Proof.
  intros EL I He Hf. unfold found in Hf. destruct (Z.leb_spec 1 e.2); [|done]. cbn in Hf.
  destruct (e.2 <? 512); [|done]. destruct (T !! e.1) as [t|] eqn:Ht; [|done]. cbn in Hf.
  exists t. split_and!; [done|done| |done]. rewrite <-EL. by eapply (i_routes _ _ _ _ I e.1 t).
Qed.

(** Every node of the table is in the order, once. *)
Lemma nodes_in_NoDup s T Y G : art_levels (the_art s) = L → inv s T Y G → NoDup (nodes_in T).
Proof.
  intros EL I. pose proof (inv_strides I) as HL. pose proof (i_tree _ _ _ _ I) as HT. rewrite EL in *.
  apply NoDup_omap_inj.
  - apply NoDup_cons. split; [|by apply sub_NoDup]. intros H.
    destruct (sub_fuel_events L T HL HT _ _ _ H) as (_ & _ & _ & ?). done.
  - intros e e' n He He' Hf Hf'.
    destruct (found_route s T Y G e n EL I He Hf) as (t & Ht & Hr & Hp & H1).
    destruct (found_route s T Y G e' n EL I He' Hf') as (t' & Ht' & Hr' & Hp' & H1').
    destruct (i_routes _ _ _ _ I e.1 t _ n Ht Hr) as (_ & _ & Hn).
    destruct (i_routes _ _ _ _ I e'.1 t' _ n Ht' Hr') as (_ & _ & Hn').
    rewrite <-EL in Hp, Hp'.
    destruct (place_inj I _ _ _ _ _ _ Ht Ht' Hp Hp' (node_prefix_eq _ _ _ Hn Hn')) as [E1 E2].
    apply (f_equal idx) in E2. rewrite !idx_unidx in E2 by done. destruct e, e'; cbn in *; congruence.
Qed.

Lemma nodes_in_routes s T Y G n :
  art_levels (the_art s) = L → inv s T Y G → n ∈ nodes_in T ↔ ∃ p, route_at T p n.
Proof.
  intros EL I. pose proof (inv_strides I) as HL. pose proof (i_tree _ _ _ _ I) as HT. rewrite EL in *. split.
  - intros (e & He & Hf)%list_elem_of_omap. destruct (found_route s T Y G e n EL I He Hf) as (t & Ht & Hr & _ & _).
    by exists (flat e.1 ++ unidx e.2), e.1, t, (unidx e.2).
  - intros (p & w & t & r & Ht & Hr & _). destruct (i_routes _ _ _ _ I w t r n Ht Hr) as (Hp & _ & _).
    rewrite EL in Hp. apply list_elem_of_omap. exists (w, idx r). split.
    + destruct Hp as [Hin|[-> ->]]; [|apply elem_of_cons; by left]. apply elem_of_cons; right.
      apply sub_complete; [done|done|by eexists|]. pose proof (live_stride L HL T w t HT Ht) as Hst.
      pose proof (idx_small L w r Hin ltac:(lia)) as Hi. by rewrite Z.pow_add_r, Z.mul_comm in Hi by lia.
    + unfold found. cbn [fst snd]. rewrite Ht, unidx_idx. pose proof (idx_pos r).
      assert (idx r < 512) as H512.
      { destruct Hp as [Hin|[-> ->]]; [|done]. pose proof (live_stride L HL T w t HT Ht) as Hst.
        pose proof (idx_small L w r Hin ltac:(lia)) as Hi. destruct Hst as [E|E]; rewrite E in Hi; lia. }
      by rewrite (proj2 (Z.leb_le 1 (idx r))), (proj2 (Z.ltb_lt (idx r) 512)) by lia.
Qed.

Lemma nodes_in_few s T Y G : art_levels (the_art s) = L → inv s T Y G → (length (nodes_in T) ≤ size (nodes s))%nat.
Proof.
  intros EL I. rewrite <-(size_dom (nodes s)). apply submseteq_length, NoDup_submseteq; [by eapply nodes_in_NoDup|].
  intros n (p & w & t & r & Ht & Hr & _)%(nodes_in_routes s T Y G n EL I).
  destruct (i_routes _ _ _ _ I w t r n Ht Hr) as (_ & _ & x & A & Hx & _). apply elem_of_elements, elem_of_dom. by eexists.
Qed.

(** ** [art_walk] *)

(** The callback on the nodes in turn, until it fails. *)
Fixpoint walk_list {U} (f : Z → U → Z * U) (l : list Z) (arg : U) : Z * U :=
  match l with
  | [] => (0, arg)
  | n :: l => let '(e, a) := f n arg in if e =? 0 then walk_list f l a else (e, a)
  end.

Lemma walk_loop_spec {U} (f : Z → U → Z * U) fuel : ∀ s T G (n : Z) ai ow arg (Q : Z * U → rtable → Prop),
  art_levels (the_art s) = L → inv s T (plus X (chain ow)) G → at_iter L T ai ow →
  (length (if (n =? 0)%Z then [] else n :: left_of L T ai ow) < fuel)%nat → (n = 0 ∧ ow = None) ∨ (n ≠ 0 ∧ is_Some ow) →
  (∀ s' T' G', inv s' T' X G' → pruned T T' → kept s s' →
     Q (walk_list f (if n =? 0 then [] else n :: left_of L T ai ow) arg) s') →
  runs (walk_loop fuel f n ai arg) s Q.
Proof.
  induction fuel as [|fuel IH]; intros s T G n ai ow arg Q EL I Hat Hf Hn HQ; [lia|]. cbn [walk_loop].
  destruct Hn as [[-> ->]|[Hn [w ->]]].
  - cbn [Z.eqb] in *. apply runs_ret. eapply HQ; [|apply pruned_refl|apply kept_refl].
    eapply inv_ext, I. intros w. by rewrite plus_none.
  - rewrite (proj2 (Z.eqb_neq n 0) Hn) in Hf, HQ |- *. cbn [walk_list length] in HQ, Hf.
    destruct (f n arg) as [e a]. destruct (Z.eqb_spec e 0) as [->|He]; cbn [negb].
    + apply runs_bind. eapply runs_iter_next; [done|done|done|].
      intros s1 T1 G1 n1 ai1 ow1 I1 Hp Hk Hat1 Hcase. pose proof (kp_levels _ _ Hk) as EL1. rewrite EL in EL1.
      assert (left_of L T ai (Some w) = if n1 =? 0 then [] else n1 :: left_of L T1 ai1 ow1) as Hl.
      { destruct Hcase as [(-> & _ & ->)|(H1 & _ & ->)]; [done|]. by rewrite (proj2 (Z.eqb_neq n1 0) H1). }
      eapply (IH s1 T1 G1); [done|done|done|rewrite <-Hl; lia| |].
      * destruct Hcase as [(-> & -> & _)|(H1 & H2 & _)]; [by left|by right].
      * intros s' T' G' I' Hp' Hk'. rewrite <-Hl.
        eapply HQ; [done|by eapply pruned_trans|by eapply kept_trans].
    + apply runs_bind. rewrite <-EL in Hat. eapply runs_iter_close; [done|done|].
      intros s' T' G' I' Hp Hk. apply runs_ret. by eapply HQ.
Qed.

(** [art_walk] calls back on every node once, and stops at the first error. *)
Lemma runs_art_walk {U} (f : Z → U → Z * U) s T G arg (Q : Z * U → rtable → Prop) :
  art_levels (the_art s) = L → inv s T X G →
  (∀ s' T' G', inv s' T' X G' → pruned T T' → kept s s' → Q (walk_list f (nodes_in T) arg) s') →
  runs (art_walk f arg) s Q.
Proof.
  intros EL I HQ. unfold art_walk. apply runs_bind, (runs_iter_open s T G); [done|done|].
  intros s1 T1 G1 n ai ow I1 Hp Hk Hat Hcase. pose proof (kp_levels _ _ Hk) as EL1. rewrite EL in EL1.
  apply runs_bind, runs_gets. rewrite (kp_nodes _ _ Hk).
  assert (nodes_in T = if n =? 0 then [] else n :: left_of L T1 ai ow) as Hl.
  { destruct Hcase as [(-> & _ & ->)|(H1 & _ & ->)]; [done|]. by rewrite (proj2 (Z.eqb_neq n 0) H1). }
  pose proof (nodes_in_few s T X G EL I) as Hfew. rewrite Hl in Hfew.
  eapply walk_loop_spec; [done|done|done|lia| |].
  - destruct Hcase as [(-> & -> & _)|(H1 & H2 & _)]; [by left|by right].
  - intros s' T' G' I' Hp' Hk'. rewrite <-Hl. eapply HQ; [done|by eapply pruned_trans|by eapply kept_trans].
Qed.
End walking.
