(* ===== verification/ArtSystem.v ===== *)
(** The routing table of [Art] as a system: clients that hold nodes, insert and
    delete them, iterate and walk, in any order, with the garbage collector
    running in between; the simulation of a finite map from prefixes to nodes. *)

From S2P Require Import Prelude StateMonad Art ArtTable ArtMem ArtInv ArtOps ArtIter.

(** ** Garbage collection of tables *)

Lemma runs_words p h s Q : heaps s !! p = Some h → Q h s → runs (words p) s Q.
Proof. intros Hp HQ. exists h, s. split; [|done]. unfold words, lift. by rewrite Hp. Qed.

(** The maps without the keys of a list. *)
Definition without {A} (m : gmap Z A) (l : list Z) : gmap Z A := foldr delete m l.
Lemma without_lookup {A} (m : gmap Z A) l q :
  without m l !! q = if decide (q ∈ l) then None else m !! q.
Proof.
  induction l as [|p l IH]; [done|]. change (without m (p :: l)) with (delete p (without m l)).
  destruct (decide (q = p)) as [->|Hne].
  - rewrite lookup_delete_eq. by rewrite decide_True by (apply elem_of_cons; by left).
  - rewrite lookup_delete_ne, IH by done. apply decide_ext. rewrite elem_of_cons. naive_solver.
Qed.
Lemma without_delete {A} (m : gmap Z A) p l : without (delete p m) l = without m (p :: l).
Proof. apply map_eq. intros q. rewrite !without_lookup. destruct (decide (q = p)) as [->|]; [rewrite lookup_delete_eq|rewrite lookup_delete_ne by done]; repeat case_decide; rewrite ?elem_of_cons in *; naive_solver. Qed.

Lemma table_gc_loop_spec G : ∀ fuel s p (Q : () → rtable → Prop),
  (length G < fuel)%nat → gc_chain (tables s) p G → NoDup G.*1 → NoDup G.*2 →
  (∀ hp, hp ∈ G.*2 → is_Some (heaps s !! hp)) →
  Q tt (set_tables (without (tables s) G.*1) (set_heaps (without (heaps s) G.*2) s)) →
  runs (table_gc_loop fuel p) s Q.
Proof.
  induction G as [|[q hp] G IH]; intros [|fuel] s p Q Hf Hc H1 H2 Hh HQ; [cbn in Hf; lia| |cbn in Hf; lia|];
    cbn [table_gc_loop gc_chain] in *.
  - rewrite Hc. cbn. apply runs_ret. by destruct s.
  - destruct Hc as (-> & Hq & x & Hx & <- & Hbits & Hc). rewrite (proj2 (Z.eqb_neq q 0) Hq).
    cbn [fmap list_fmap] in H1, H2, Hh, HQ. apply NoDup_cons in H1 as [Hq1 H1]. apply NoDup_cons in H2 as [Hq2 H2].
    apply runs_bind, (runs_tb _ x); [done|].
    assert ((at_bits x =? 4) || (at_bits x =? 8) = true) as -> by (apply orb_true_iff; lia).
    apply runs_bind. destruct (Hh (at_heap x)) as [h Hhx]; [apply elem_of_cons; by left|].
    unfold at_heap_pool_put. apply runs_bind, (runs_words _ h); [done|]. apply runs_modify.
    apply runs_bind. unfold at_pool_put. apply runs_bind, (runs_tb _ x); [done|]. apply runs_modify.
    apply IH; [cbn in Hf; lia| |done|done| |].
    + eapply gc_chain_ext, Hc. intros q' Hq'. cbn. rewrite lookup_delete_ne; [done|]. by intros <-.
    + intros hp Hhp. cbn. rewrite lookup_delete_ne by (by intros <-). apply Hh, elem_of_cons. by right.
    + cbn. by rewrite !without_delete.
Qed.

Lemma chain_length m p G : gc_chain m p G → NoDup G.*1 → (length G ≤ size m)%nat.
Proof.
  intros Hc Hnd. rewrite <-(length_fmap fst G), <-(size_dom m). apply submseteq_length, NoDup_submseteq; [done|].
  intros q Hq. apply elem_of_elements, elem_of_dom. clear Hnd. revert p Hc.
  induction G as [|[q' hp] G IH]; intros p Hc; cbn in *; [by apply elem_of_nil in Hq|].
  destruct Hc as (-> & _ & x & Hx & _ & _ & Hc). apply elem_of_cons in Hq as [->|Hq]; [by eexists|]. by eapply IH.
Qed.

(** The collector frees the garbage and nothing else. *)
Lemma inv_table_gc s T X G :
  inv s T X G →
  inv (set_tables (without (tables s) G.*1) (set_heaps (without (heaps s) G.*2) (set_table_gc 0 s))) T X [].
Proof.
  intros I. pose proof (i_garbage _ _ _ _ I) as [B1 B2 B3 B4 B5 B6 B7].
  assert (∀ w t, T !! w = Some t → without (tables s) G.*1 !! t_ptr t = tables s !! t_ptr t) as Ht.
  { intros w t Hw. rewrite without_lookup. rewrite decide_False; [done|]. by apply (dead_live I w t Hw). }
  assert (∀ w t, T !! w = Some t → without (heaps s) G.*2 !! t_heap t = heaps s !! t_heap t) as Hh.
  { intros w t Hw. rewrite without_lookup. rewrite decide_False; [done|]. by apply (dead_live I w t Hw). }
  destruct I. constructor; try done; cbn.
  - intros w t Hw. rewrite (Hh w t Hw). by apply i_heaps.
  - intros w t Hw. rewrite (Ht w t Hw). by apply i_table.
  - constructor; cbn; try done; try constructor; rewrite ?elem_of_nil.
    + rewrite without_lookup. case_decide; [by intros []|]. intros Hp. right. apply B4 in Hp. naive_solver.
    + intros [[]|Hl]. rewrite without_lookup. rewrite decide_False; [apply B4; by right|]. intros Hp. by apply B6 in Hp.
    + rewrite without_lookup. case_decide; [by intros []|]. intros Hp. right. apply B5 in Hp. naive_solver.
    + intros [[]|Hl]. rewrite without_lookup. rewrite decide_False; [apply B5; by right|]. intros Hp. by apply B7 in Hp.
    + by intros p Hp%elem_of_nil.
    + by intros p Hp%elem_of_nil.
Qed.

Lemma runs_table_gc s T X G (Q : () → rtable → Prop) :
  inv s T X G → (∀ s', inv s' T X [] → kept s s' → Q tt s') → runs art_table_gc s Q.
Proof.
  intros I HQ. unfold art_table_gc. apply runs_bind, runs_gets, runs_bind, runs_modify, runs_bind, runs_gets.
  pose proof (i_garbage _ _ _ _ I) as [B1 B2 B3 B4 B5 B6 B7].
  apply (table_gc_loop_spec G); cbn; [|done|done|done| |].
  - pose proof (chain_length _ _ _ B1 B2). lia.
  - intros hp Hhp. apply B5. by left.
  - apply HQ; [by apply inv_table_gc|done].
Qed.

(** ** Nodes *)

(** The nodes of a table are not touched when others are. *)
Lemma inv_nodes s T X G m l gc :
  inv s T X G →
  (∀ p n, route_at T p n → m !! n = nodes s !! n) →
  inv (RTable (the_art s) (heaps s) (tables s) m (art_table_gc_list s) gc l) T X G.
Proof.
  intros I Hm. pose proof (i_garbage _ _ _ _ I) as B. destruct I. constructor; try done; cbn.
  - intros w t r n Hw Hr. destruct (i_routes w t r n Hw Hr) as (Hp & Hn & x & A & Hx & Hrest).
    split; [done|]. split; [done|]. exists x, A. split; [|done]. rewrite <-Hx. eapply Hm. by exists w, t, r.
  - by destruct B.
Qed.

(** The chain of nodes that [art_gc] is to free. *)
Fixpoint node_chain (m : gmap Z art_node) (p : Z) (N : list Z) : Prop :=
  match N with
  | [] => p = 0
  | q :: N => p = q ∧ q ≠ 0 ∧ ∃ x next, m !! q = Some x ∧ an_u x = an__gc next ∧ node_chain m next N
  end.

Lemma node_chain_ext m m' p N : (∀ q, q ∈ N → m' !! q = m !! q) → node_chain m p N → node_chain m' p N.
Proof.
  revert p. induction N as [|q N IH]; intros p Hm; [done|]. cbn. intros (-> & Hq & x & next & Hx & Hu & Hc).
  split; [done|]. split; [done|]. exists x, next. split; [rewrite Hm; [done|apply elem_of_cons; by left]|].
  split; [done|]. apply IH; [|done]. intros q' Hq'. apply Hm, elem_of_cons. by right.
Qed.

Lemma node_chain_in m p N q : node_chain m p N → q ∈ N → is_Some (m !! q).
Proof.
  revert p. induction N as [|q' N IH]; intros p; cbn; [by intros _ ?%elem_of_nil|].
  intros (-> & _ & x & next & Hx & _ & Hc) [->|Hq]%elem_of_cons; [by eexists|]. by eapply IH.
Qed.

Lemma node_gc_loop_spec N : ∀ fuel s p (Q : () → rtable → Prop),
  (length N < fuel)%nat → node_chain (nodes s) p N → NoDup N →
  Q tt (set_nodes (without (nodes s) N) s) → runs (node_gc_loop fuel p) s Q.
Proof.
  induction N as [|q N IH]; intros [|fuel] s p Q Hf Hc Hnd HQ; [cbn in Hf; lia| |cbn in Hf; lia|];
    cbn [node_gc_loop node_chain] in *.
  - rewrite Hc. cbn. apply runs_ret. by destruct s.
  - destruct Hc as (-> & Hq & x & next & Hx & Hu & Hc). rewrite (proj2 (Z.eqb_neq q 0) Hq).
    apply NoDup_cons in Hnd as [Hq1 Hnd]. apply runs_bind, (runs_nd _ x); [done|].
    apply runs_bind. eapply runs_lift; [unfold an_gc; by rewrite Hu|].
    apply runs_bind. unfold an_pool_put. apply runs_bind, (runs_nd _ x); [done|]. apply runs_modify.
    apply IH; [cbn in Hf; lia| |done|].
    + eapply node_chain_ext, Hc. intros q' Hq'. cbn. rewrite lookup_delete_ne; [done|]. by intros <-.
    + cbn. by rewrite without_delete.
Qed.

(** What a client passes for an address: [plen] bits of it. *)
Definition dest_ok (addr : list Z) (plen : Z) : Prop :=
  bytes addr ∧ 0 ≤ plen ≤ 128 ∧ plen ≤ 8 * Z.of_nat (length addr).

Lemma roundup_8 plen : roundup plen 8 / 8 = (plen + 7) / 8.
Proof. unfold roundup. by rewrite Z.div_mul. Qed.

(** The node keeps the bits of the address, in its sixteen bytes. *)
Lemma copy_bits addr plen :
  dest_ok addr plen →
  let len := (plen + 7) / 8 in
  ∃ d A, mem_read addr 0 len = Ret d ∧ mem_write (replicate 16 0) 0 d = Ret A ∧
    bytes A ∧ length A = 16%nat ∧ pbits A plen = pbits addr plen.
Proof.
  intros (Hb & Hp & Hl) len. assert (0 ≤ len ≤ 16 ∧ plen ≤ 8 * len ∧ len ≤ Z.of_nat (length addr)) as (H1 & H2 & H3)
    by (pose proof (Z.div_mod (plen + 7) 8); pose proof (Z.mod_pos_bound (plen + 7) 8); subst len; lia).
  exists (take (Z.to_nat len) addr), (take (Z.to_nat len) addr ++ replicate (16 - Z.to_nat len) 0).
  unfold mem_read, mem_write. rewrite bool_decide_true by lia. rewrite drop_0.
  assert (length (take (Z.to_nat len) addr) = Z.to_nat len) as El by (rewrite length_take; lia).
  split; [done|]. split_and!.
  - rewrite El. rewrite bool_decide_true by (cbn; lia). change (Z.to_nat 0) with 0%nat.
    by rewrite take_0, drop_replicate.
  - apply Forall_app. split; [by apply Forall_take|]. apply Forall_replicate. unfold is_u8. lia.
  - rewrite length_app, El, length_replicate. lia.
  - unfold pbits. rewrite abits_app.
    assert (abits (take (Z.to_nat len) addr) = take (8 * Z.to_nat len) (abits addr)) as -> by (by rewrite abits_take).
    rewrite take_app_le by (rewrite length_take, length_abits; lia). rewrite take_take. f_equal. lia.
Qed.

(** [art_get] gives no node, or a new one for the prefix. *)
Lemma runs_art_get s addr plen (Q : Z → rtable → Prop) :
  dest_ok addr plen →
  (∀ l, Q 0 (set_answers l s)) →
  (∀ a x l, ptr a → nodes s !! a = None → heaps s !! a = None → tables s !! a = None →
     let s' := set_nodes (<[a := x]> (nodes s)) (set_answers l s) in
     node_is s' a (pbits addr plen) → Q a s') →
  runs (art_get addr plen) s Q.
Proof.
  intros Hd HQ0 HQ. unfold art_get, an_pool_get. apply runs_bind, runs_bind, runs_pool_get.
  - intros l. cbn. apply runs_ret, runs_ret, HQ0.
  - intros a l Hg. destruct (granted_spec s a Hg) as (Ha & Hh & Ht & Hn). rewrite (proj2 (Z.eqb_neq a 0)) by (destruct Ha; lia).
    apply runs_bind, runs_modify, runs_ret. rewrite (proj2 (Z.eqb_neq a 0)) by (destruct Ha; lia).
    apply runs_bind. unfold art_node_init. cbn zeta. rewrite roundup_8.
    destruct (copy_bits addr plen Hd) as (d & A & Hr & Hw & HbA & HlA & Hp). destruct Hd as (Hb & Hpl & Hl).
    apply runs_bind. eapply runs_lift; [unfold kassert; rewrite (proj2 (Z.leb_le ((plen + 7) / 8) 16)) by (apply Z.lt_succ_r, Z.div_lt_upper_bound; lia); done|].
    apply runs_bind. eapply runs_nd; [cbn; apply lookup_insert_eq|]. apply runs_bind. eapply runs_lift; [done|].
    apply runs_bind. eapply runs_lift; [done|]. apply runs_bind. eapply runs_lift; [done|].
    unfold upd_nd. apply runs_bind. eapply runs_nd; [cbn; apply lookup_insert_eq|]. apply runs_modify, runs_ret.
    cbn. rewrite insert_insert_eq. apply (HQ a _ l); [done..|].
    exists (ArtNode 0 (an__addr A) plen), A. cbn. rewrite lookup_insert_eq. split_and!; try done.
    + rewrite <-Hp. unfold pbits. rewrite length_take, length_abits. lia.
    + unfold pbits. rewrite length_take. lia.
Qed.

(** ** The system *)

(** What the clients have: nodes of theirs that are not in the table, each with
    the prefix it was got for, and iterators. *)
Record sys := Sys { mem : rtable; held : gmap Z (list bool); iters : list art_iter }.

Inductive call :=
  | Get (addr : list Z) (plen : Z)
  | Insert (n : Z)
  | Delete (addr : list Z) (plen : Z)
  | Put (n : Z)
  | Drop (n : Z)
  | Lookup (addr : list Z) (plen : Z)
  | Match (addr : list Z)
  | Open (k : nat)
  | Next (k : nat)
  | Close (k : nat)
  | Walk (f : Z → Z → Z * Z) (arg : Z)
  | TableGc
  | Gc.

Inductive answer := Node (n : Z) | Walked (error arg : Z) | Done.

Definition on_iter (k : nat) (σ : sys) (m : art_iter → AM (Z * art_iter)) : outcome (answer * sys) :=
  ai ← deref (iters σ !! k);
  '((n, ai), s) ← m ai (mem σ);
  Ret (Node n, Sys s (held σ) (<[k := ai]> (iters σ))).

(** A node is deleted as [rtable_delete] does it: only after [art_lookup] found
    it, and what [art_delete] gives must be that node.  [Drop] is what a client with
    a pool of its own does with a node instead of [art_put]: it frees it at once. *)
Definition exec (c : call) (σ : sys) : outcome (answer * sys) :=
  match c with
  | Get addr plen =>
      '(n, s) ← art_get addr plen (mem σ);
      Ret (Node n, Sys s (if n =? 0 then held σ else <[n := pbits addr plen]> (held σ)) (iters σ))
  | Insert n =>
      '(r, s) ← art_insert n (mem σ);
      Ret (Node r, Sys s (if r =? n then delete n (held σ) else held σ) (iters σ))
  | Delete addr plen =>
      '(n, s) ← art_lookup addr plen (mem σ);
      if n =? 0 then Ret (Node 0, Sys s (held σ) (iters σ))
      else
        '(r, s) ← art_delete addr plen s;
        kassert "changed shape during delete" (r =? n);;
        Ret (Node n, Sys s (<[n := pbits addr plen]> (held σ)) (iters σ))
  | Put n =>
      '(_, s) ← art_put n (mem σ); Ret (Done, Sys s (delete n (held σ)) (iters σ))
  | Drop n =>
      '(_, s) ← an_pool_put n (mem σ); Ret (Done, Sys s (delete n (held σ)) (iters σ))
  | Lookup addr plen =>
      '(n, s) ← art_lookup addr plen (mem σ); Ret (Node n, Sys s (held σ) (iters σ))
  | Match addr =>
      '(n, s) ← art_match addr (mem σ); Ret (Node n, Sys s (held σ) (iters σ))
  | Open k => on_iter k σ art_iter_open
  | Next k => on_iter k σ art_iter_next
  | Close k => on_iter k σ (λ ai, ai ← art_iter_close ai; mret (0, ai))
  | Walk f arg =>
      '((e, a), s) ← art_walk f arg (mem σ); Ret (Walked e a, Sys s (held σ) (iters σ))
  | TableGc => '(_, s) ← art_table_gc (mem σ); Ret (Done, Sys s (held σ) (iters σ))
  | Gc => '(_, s) ← art_gc (mem σ); Ret (Done, Sys s (held σ) (iters σ))
  end.

Definition alen (σ : sys) : Z := art_alen (the_art (mem σ)).

(** An address as long as those of the table, and a prefix length. *)
Definition prefix_ok (σ : sys) (addr : list Z) (plen : Z) : Prop :=
  bytes addr ∧ alen σ ≤ 8 * Z.of_nat (length addr) ∧ 0 ≤ plen ≤ alen σ.

(** What the clients may call. *)
Definition permitted (c : call) (σ : sys) : Prop :=
  match c with
  | Get addr plen | Delete addr plen | Lookup addr plen => prefix_ok σ addr plen
  | Insert n | Put n | Drop n => is_Some (held σ !! n)
  | Match addr => prefix_ok σ addr 0
  | Open k => ∃ ai, iters σ !! k = Some ai ∧ ai_table ai = 0
  | Next k => ∃ ai, iters σ !! k = Some ai ∧ ai_table ai ≠ 0
  | Close k => is_Some (iters σ !! k)
  | Walk _ _ | TableGc | Gc => True
  end.

(** The map from prefixes to nodes that the answers of the calls describe. *)
Abbreviation rmap := (gmap (list bool) Z).

Definition effect (c : call) (a : answer) (H : gmap Z (list bool)) (M : rmap) : rmap :=
  match c, a with
  | Insert n, Node r => if r =? n then match H !! n with Some p => <[p := n]> M | None => M end else M
  | Delete addr plen, Node r => if r =? 0 then M else delete (pbits addr plen) M
  | _, _ => M
  end.

(** What each call promises to answer. *)
Definition longest_in (M : rmap) (a : list bool) (n : Z) : Prop :=
  (n = 0 ∧ ∀ p, p `prefix_of` a → M !! p = None) ∨
  (∃ p, M !! p = Some n ∧ p `prefix_of` a ∧
     ∀ q, q `prefix_of` a → is_Some (M !! q) → (length q ≤ length p)%nat).

Definition answers (c : call) (a : answer) (H : gmap Z (list bool)) (M : rmap) : Prop :=
  match c, a with
  | Get _ _, Node n => n = 0 ∨ (H !! n = None ∧ ∀ p, M !! p ≠ Some n)
  | Insert n, Node r =>
      ∃ p, H !! n = Some p ∧ match M !! p with Some k => r = k | None => r = n ∨ r = 0 end
  | Delete addr plen, Node r | Lookup addr plen, Node r => r = default 0 (M !! pbits addr plen)
  | Match addr, Node n => longest_in M (abits addr) n
  | Open _, Node n | Next _, Node n => n = 0 ∨ ∃ p, M !! p = Some n
  | Close _, Node n => n = 0
  | Walk f arg, Walked e a => ∃ l, l ≡ₚ (map_to_list M).*2 ∧ walk_list f l arg = (e, a)
  | Put _, Done | Drop _, Done | TableGc, Done | Gc, Done => True
  | _, _ => False
  end.

(** A table as [art_init] leaves it, pools that will give some addresses, and
    closed iterators. *)
Definition start (a : art) (l : list Z) (k : nat) : sys :=
  Sys (RTable a ∅ ∅ ∅ 0 0 l) ∅ (replicate k (ArtIter 0 0 0)).

Inductive reaches : sys → rmap → Prop :=
  | reaches_start len a l k :
      art_init len = Ret a → Z.of_nat k < 2147483647 → reaches (start a l k) ∅
  | reaches_call σ M c a σ' :
      reaches σ M → permitted c σ → exec c σ = Ret (a, σ') → reaches σ' (effect c a (held σ) M).

(** ** The invariant of the system *)

Definition uses (ows : list (option path)) : path → Z := λ w, foldr (λ ow n, chain ow w + n) 0 ows.

Record nodes_ok (s : rtable) (M : rmap) (H : gmap Z (list bool)) (N : list Z) : Prop := {
  no_held : ∀ n p, H !! n = Some p → ptr n ∧ node_is s n p ∧ Z.of_nat (length p) ≤ art_alen (the_art s);
  no_apart : ∀ n p q, H !! n = Some p → M !! q ≠ Some n;
  no_chain : node_chain (nodes s) (art_node_gc_list s) N;
  no_once : NoDup N;
  no_gone : ∀ n, n ∈ N → H !! n = None ∧ ∀ q, M !! q ≠ Some n;
  no_dom : ∀ n, is_Some (nodes s !! n) ↔ n ∈ N ∨ is_Some (H !! n) ∨ ∃ p, M !! p = Some n;
}.

Record sys_ok (σ : sys) (M : rmap) (T : tree) (G : list (Z * Z)) (ows : list (option path)) (N : list Z) : Prop := {
  so_inv : inv (mem σ) T (uses ows) G;
  so_iters : Forall2 (at_iter (art_levels (the_art (mem σ))) T) (iters σ) ows;
  so_few : Z.of_nat (length (iters σ)) < 2147483647;
  so_routes : ∀ p n, M !! p = Some n ↔ route_at T p n;
  so_nodes : nodes_ok (mem σ) M (held σ) N;
}.

Definition goes (c : call) (σ : sys) (M : rmap) : Prop :=
  ∃ a σ' T G ows N, exec c σ = Ret (a, σ') ∧ answers c a (held σ) M ∧
    sys_ok σ' (effect c a (held σ) M) T G ows N ∧ alen σ' = alen σ.

(** *** References of the iterators *)

Lemma uses_nonneg ows w : 0 ≤ uses ows w.
Proof. unfold uses. induction ows as [|ow ows IH]; cbn; [lia|]. pose proof (chain_range ow w). lia. Qed.

Lemma uses_few ows w : uses ows w ≤ Z.of_nat (length ows).
Proof. unfold uses. induction ows as [|ow ows IH]; cbn [foldr length]; [lia|]. pose proof (chain_range ow w). lia. Qed.

Lemma uses_insert ows k ow w :
  (k < length ows)%nat → uses (<[k := ow]> ows) w = plus (uses (<[k := None]> ows)) (chain ow) w.
Proof.
  unfold uses, plus. revert k. induction ows as [|ow0 ows IH]; intros k Hk; [cbn in Hk; lia|].
  destruct k as [|k]; cbn; [lia|]. cbn in IH. rewrite IH by (cbn in Hk; lia). by rewrite Z.add_assoc.
Qed.
Lemma uses_split ows k ow w : ows !! k = Some ow → uses ows w = plus (uses (<[k := None]> ows)) (chain ow) w.
Proof. intros Hk. rewrite <-uses_insert by (by eapply lookup_lt_Some). by rewrite list_insert_id. Qed.

Lemma uses_live ows k w : ows !! k = Some (Some w) → 0 < uses ows w.
Proof.
  intros Hk. rewrite (uses_split _ _ _ _ Hk). unfold plus. pose proof (uses_nonneg (<[k := None]> ows) w).
  unfold chain. rewrite decide_True by done. lia.
Qed.

(** Tables keep their addresses from [T] to [T']. *)
Definition same_ptr (T T' : tree) : Prop := ∀ w t t', T !! w = Some t → T' !! w = Some t' → t_ptr t' = t_ptr t.

Lemma same_ptr_pruned T T' : pruned T T' → same_ptr T T'.
Proof. intros [Hs _] w t t' Hw Hw'. pose proof (lookup_weaken _ _ _ _ Hw' Hs). congruence. Qed.
Lemma same_ptr_pruned' T T' : pruned T' T → same_ptr T T'.
Proof. intros [Hs _] w t t' Hw Hw'. pose proof (lookup_weaken _ _ _ _ Hw Hs). congruence. Qed.
Lemma same_ptr_grown T T' : grown T T' → same_ptr T T'.
Proof. intros Hg w t t' Hw Hw'. destruct (Hg w t Hw) as (t1 & H1 & <-). congruence. Qed.
Lemma same_ptr_shrunk T T' : shrunk T T' → same_ptr T T'.
Proof. intros Hg w t t' Hw Hw'. destruct (Hg w t' Hw') as (t1 & H1 & ->). congruence. Qed.

Lemma at_iter_same L T T' ai ow :
  same_ptr T T' → (∀ w, ow = Some w → is_Some (T' !! w)) → at_iter L T ai ow → at_iter L T' ai ow.
Proof.
  intros Hs Hl. destruct ow as [w|]; [|done]. intros (t & Hw & Ht & Hp). destruct (Hl w eq_refl) as [t' Hw'].
  exists t'. split; [done|]. split; [|done]. by rewrite Ht, (Hs w t t').
Qed.

Lemma iters_same L T T' G s ais ows :
  same_ptr T T' → inv s T' (uses ows) G → Forall2 (at_iter L T) ais ows → Forall2 (at_iter L T') ais ows.
Proof.
  intros Hs I H. apply Forall2_same_length_lookup. split; [by eapply Forall2_length|].
  intros k ai ow Ha Ho. eapply at_iter_same; [done| |by eapply Forall2_lookup_lr].
  intros w ->. eapply (i_live _ _ _ _ I). by eapply uses_live.
Qed.

Lemma iters_moved L T T' G s ais ows k ai ow :
  same_ptr T T' → inv s T' (uses (<[k := ow]> ows)) G → (k < length ows)%nat →
  at_iter L T' ai ow → Forall2 (at_iter L T) ais ows → Forall2 (at_iter L T') (<[k := ai]> ais) (<[k := ow]> ows).
Proof.
  intros Hs I Hk Hat H. pose proof (Forall2_length _ _ _ H) as Hlen.
  apply Forall2_same_length_lookup. split; [by rewrite !length_insert|].
  intros i ai' ow' Ha Ho. destruct (decide (i = k)) as [->|Hne].
  - rewrite list_lookup_insert_eq in Ha by lia. rewrite list_lookup_insert_eq in Ho by lia. by simplify_eq.
  - eapply at_iter_same; [done| |].
    + intros w ->. eapply (i_live _ _ _ _ I). by eapply uses_live.
    + rewrite list_lookup_insert_ne in Ha by done. rewrite list_lookup_insert_ne in Ho by done. by eapply Forall2_lookup_lr.
Qed.

(** *** Calls that leave the nodes alone *)

Lemma nodes_ok_kept s s' M H N : kept s s' → nodes_ok s M H N → nodes_ok s' M H N.
Proof.
  intros [K1 K2 K3 K4 K5] []. constructor; rewrite ?K4, ?K5, ?K3; try done.
  intros n p Hn. destruct (no_held0 n p Hn) as (Hp & (x & A & Hx & Hr) & Hl). split; [done|]. split; [|done].
  exists x, A. by rewrite K4.
Qed.

Section calls.
Context {σ : sys} {M : rmap} {T : tree} {G : list (Z * Z)} {ows : list (option path)} {N : list Z}.
Context (O : sys_ok σ M T G ows N).
Abbreviation s := (mem σ).
Abbreviation L := (art_levels (the_art (mem σ))).

Lemma so_few_uses : few (uses ows).
Proof.
  intros w. pose proof (uses_few ows w). pose proof (so_few _ _ _ _ _ _ O).
  rewrite (Forall2_length _ _ _ (so_iters _ _ _ _ _ _ O)) in *. lia.
Qed.

Lemma sys_ok_kept s' T' G' :
  kept s s' → inv s' T' (uses ows) G' → same_ptr T T' → (∀ p n, route_at T' p n ↔ route_at T p n) →
  sys_ok (Sys s' (held σ) (iters σ)) M T' G' ows N.
Proof.
  intros K I Hs HR. destruct O. constructor; cbn; try done.
  - rewrite (kp_levels _ _ K). by eapply iters_same.
  - intros p n. by rewrite HR.
  - by eapply nodes_ok_kept.
Qed.

Lemma sys_ok_pruned s' T' G' :
  kept s s' → inv s' T' (uses ows) G' → pruned T T' → sys_ok (Sys s' (held σ) (iters σ)) M T' G' ows N.
Proof.
  intros K I Hp. apply sys_ok_kept; [done|done|by apply same_ptr_pruned|]. intros p n. symmetry. by apply pruned_routes.
Qed.

Lemma prefix_addr addr plen : prefix_ok σ addr plen → addr_ok s addr.
Proof. intros (Hb & Hl & _). by split. Qed.

Lemma longest_routes a n : longest T a (length a) n → longest_in M a n.
Proof.
  intros [[-> Hno]|(p & Hp & Hpre & _ & Hmax)].
  - left. split; [done|]. intros p Hpre. destruct (M !! p) as [n|] eqn:E; [|done]. exfalso.
    apply (so_routes _ _ _ _ _ _ O) in E. eapply Hno; [done|done|]. by apply prefix_length.
  - right. exists p. split; [by apply (so_routes _ _ _ _ _ _ O)|]. split; [done|].
    intros q Hq [k Hk]. apply (so_routes _ _ _ _ _ _ O) in Hk. eapply Hmax; [done|done|]. by apply prefix_length.
Qed.

Lemma match_goes addr : permitted (Match addr) σ → goes (Match addr) σ M.
Proof.
  intros Hp. destruct (runs_match s T (uses ows) G (so_inv _ _ _ _ _ _ O) addr (prefix_addr _ _ Hp)
    (λ n s', s' = s ∧ longest T (abits addr) (length (abits addr)) n) ltac:(done)) as (n & s' & E & -> & Hn).
  exists (Node n), (Sys s (held σ) (iters σ)), T, G, ows, N. split_and!; [| | |done].
  - cbn [exec]. by rewrite E.
  - by apply longest_routes.
  - cbn. apply sys_ok_pruned; [apply kept_refl|apply O|apply pruned_refl].
Qed.

Lemma runs_lookup_map addr plen (Q : Z → rtable → Prop) :
  prefix_ok σ addr plen → Q (default 0 (M !! pbits addr plen)) s → runs (art_lookup addr plen) s Q.
Proof.
  intros Hp HQ. pose proof (so_inv _ _ _ _ _ _ O) as I.
  apply (runs_lookup s T (uses ows) G I addr (prefix_addr _ _ Hp)); [apply Hp| |].
  - intros n Hn Hr. apply (so_routes _ _ _ _ _ _ O) in Hr. by rewrite Hr in HQ.
  - intros Hno. destruct (M !! pbits addr plen) as [n|] eqn:E; [|done].
    apply (so_routes _ _ _ _ _ _ O) in E. by apply Hno in E.
Qed.

Lemma lookup_goes addr plen : permitted (Lookup addr plen) σ → goes (Lookup addr plen) σ M.
Proof.
  intros Hp. destruct (runs_lookup_map addr plen (λ n s', s' = s ∧ n = default 0 (M !! pbits addr plen)) Hp)
    as (n & s' & E & -> & ->); [done|].
  exists (Node (default 0 (M !! pbits addr plen))), (Sys s (held σ) (iters σ)), T, G, ows, N. split_and!; [| | |done].
  - cbn [exec]. by rewrite E.
  - done.
  - cbn. apply sys_ok_pruned; [apply kept_refl|apply O|apply pruned_refl].
Qed.

Lemma table_gc_collects :
  ∃ s', exec TableGc σ = Ret (Done, Sys s' (held σ) (iters σ)) ∧ kept s s' ∧
    sys_ok (Sys s' (held σ) (iters σ)) M T [] ows N.
Proof.
  destruct (runs_table_gc s T (uses ows) G (λ _ s', inv s' T (uses ows) [] ∧ kept s s') (so_inv _ _ _ _ _ _ O))
    as ([] & s' & E & I & K); [done|].
  exists s'. split; [cbn [exec]; by rewrite E|]. split; [done|].
  apply sys_ok_pruned; [done|done|apply pruned_refl].
Qed.

Lemma table_gc_goes : goes TableGc σ M.
Proof.
  destruct table_gc_collects as (s' & E & K & O'). exists Done, (Sys s' (held σ) (iters σ)), T, [], ows, N.
  split_and!; [done|done|done|apply (kp_alen _ _ K)].
Qed.

(** The nodes that a walk visits are those of the map. *)
Lemma nodes_in_map : nodes_in L T ≡ₚ (map_to_list M).*2.
Proof.
  pose proof (so_inv _ _ _ _ _ _ O) as I. apply NoDup_Permutation.
  - by eapply nodes_in_NoDup.
  - apply NoDup_fmap_2_strong; [|apply NoDup_map_to_list].
    intros [p n] [p' n'] H%elem_of_map_to_list H'%elem_of_map_to_list E. cbn in E. subst n'.
    apply (so_routes _ _ _ _ _ _ O) in H, H'.
    destruct (route_table I _ _ H) as (_ & _ & _ & _ & _ & _ & _ & _ & H1).
    destruct (route_table I _ _ H') as (_ & _ & _ & _ & _ & _ & _ & _ & H1').
    by rewrite (node_prefix_eq _ _ _ H1 H1').
  - intros n. rewrite (nodes_in_routes L s T _ G n eq_refl I), list_elem_of_fmap. split.
    + intros [p Hp]. exists (p, n). split; [done|]. by apply elem_of_map_to_list, (so_routes _ _ _ _ _ _ O).
    + intros ([p n'] & -> & H%elem_of_map_to_list). exists p. by apply (so_routes _ _ _ _ _ _ O).
Qed.

Lemma walk_goes f arg : goes (Walk f arg) σ M.
Proof.
  pose proof (so_inv _ _ _ _ _ _ O) as I.
  destruct (runs_art_walk (uses ows) so_few_uses (uses_nonneg ows) L f s T G arg
    (λ r s', r = walk_list f (nodes_in L T) arg ∧ ∃ T' G', inv s' T' (uses ows) G' ∧ pruned T T' ∧ kept s s') eq_refl I)
    as ([e a] & s' & E & Hr & T' & G' & I' & Hp & K); [naive_solver|].
  exists (Walked e a), (Sys s' (held σ) (iters σ)), T', G', ows, N. split_and!; [| | |apply (kp_alen _ _ K)].
  - cbn [exec]. by rewrite E.
  - exists (nodes_in L T). split; [apply nodes_in_map|done].
  - by apply sys_ok_pruned.
Qed.

(** *** Iterators *)

Lemma iter_moved k ai ow s' T' G' :
  (k < length ows)%nat → kept s s' → inv s' T' (plus (uses (<[k := None]> ows)) (chain ow)) G' → pruned T T' →
  at_iter L T' ai ow → sys_ok (Sys s' (held σ) (<[k := ai]> (iters σ))) M T' G' (<[k := ow]> ows) N.
Proof.
  intros Hk K I Hp Hat. assert (inv s' T' (uses (<[k := ow]> ows)) G') as I'.
  { eapply inv_ext, I. intros w. by apply uses_insert. }
  destruct O. constructor; cbn.
  - done.
  - rewrite (kp_levels _ _ K). eapply iters_moved; [by apply same_ptr_pruned|done|done|done|done].
  - by rewrite length_insert.
  - intros p n. by rewrite so_routes0, (pruned_routes T T').
  - by eapply nodes_ok_kept.
Qed.

Lemma iter_at k ai : iters σ !! k = Some ai →
  ∃ ow, ows !! k = Some ow ∧ at_iter L T ai ow ∧ (k < length ows)%nat ∧
    inv s T (plus (uses (<[k := None]> ows)) (chain ow)) G ∧ few (uses (<[k := None]> ows)) ∧
    (ai_table ai = 0 → ow = None) ∧ (ai_table ai ≠ 0 → is_Some ow).
Proof.
  intros Hk. destruct O. destruct (Forall2_lookup_l _ _ _ _ _ so_iters0 Hk) as (ow & Ho & Hat).
  exists ow. split; [done|]. split; [done|]. split; [by eapply lookup_lt_Some|]. split_and!.
  - eapply inv_ext, so_inv0. intros w. symmetry. by apply uses_split.
  - intros w. pose proof (uses_few (<[k := None]> ows) w) as Hu. rewrite length_insert in Hu.
    rewrite (Forall2_length _ _ _ so_iters0) in *. lia.
  - destruct ow as [w|]; [|done]. destruct Hat as (t & Hw & -> & _).
    destruct (i_ptr _ _ _ _ so_inv0 w t Hw). lia.
  - destruct ow as [w|]; [by eexists|]. done.
Qed.

(** A call on an iterator that has the nodes [l] to give. *)
Definition steps_iter (k : nat) (c : call) (l : list Z) : Prop :=
  ∃ n s' T' G' ai ow, exec c σ = Ret (Node n, Sys s' (held σ) (<[k := ai]> (iters σ))) ∧
    sys_ok (Sys s' (held σ) (<[k := ai]> (iters σ))) M T' G' (<[k := ow]> ows) N ∧ kept s s' ∧
    at_iter L T' ai ow ∧
    ((n = 0 ∧ ow = None ∧ l = []) ∨ (n ≠ 0 ∧ is_Some ow ∧ l = n :: left_of L T' ai ow)).

Lemma on_iter_steps k c (m : art_iter → AM (Z * art_iter)) ai l :
  exec c σ = on_iter k σ m → iters σ !! k = Some ai →
  (∀ Q, yields (uses (<[k := None]> ows)) L s T l Q → runs (m ai) s Q) →
  steps_iter k c l.
Proof.
  intros Hex Hk Hruns. destruct (iter_at k ai Hk) as (_ & _ & _ & Hlt & _ & _).
  destruct (Hruns (λ r s', ∃ T' G' ow,
      kept s s' ∧ inv s' T' (plus (uses (<[k := None]> ows)) (chain ow)) G' ∧ pruned T T' ∧ at_iter L T' r.2 ow ∧
      ((r.1 = 0 ∧ ow = None ∧ l = []) ∨ (r.1 ≠ 0 ∧ is_Some ow ∧ l = r.1 :: left_of L T' r.2 ow))))
    as ([n ai'] & s' & E & T' & G' & ow & K & I & Hp & Hat & Hn).
  { intros s1 T1 G1 n1 ai1 ow1 I1 Hp1 K1 Hat1 Hcase. by exists T1, G1, ow1. }
  cbn in Hn, Hat. exists n, s', T', G', ai', ow. split_and!; [| |done|done|done].
  - rewrite Hex. unfold on_iter. rewrite Hk. cbn. by rewrite E.
  - by apply iter_moved.
Qed.

Lemma iter_goes k c l :
  (∀ n, answers c (Node n) (held σ) M ↔ n = 0 ∨ ∃ p, M !! p = Some n) →
  (∀ a, effect c a (held σ) M = M) →
  (∀ n, n ∈ l → ∃ p, route_at T p n) →
  steps_iter k c l → goes c σ M.
Proof.
  intros Hans Heff Hl (n & s' & T' & G' & ai & ow & Hex & O' & K & _ & Hn).
  exists (Node n), (Sys s' (held σ) (<[k := ai]> (iters σ))), T', G', (<[k := ow]> ows), N.
  split_and!; [done| |by rewrite Heff|apply (kp_alen _ _ K)].
  apply Hans. destruct Hn as [(-> & _)|(_ & _ & ->)]; [by left|right]. destruct (Hl n) as [p Hr]; [apply elem_of_cons; by left|].
  exists p. by apply (so_routes _ _ _ _ _ _ O).
Qed.

Lemma gives_route l n : n ∈ gives T l → ∃ p, route_at T p n.
Proof.
  intros (e & _ & He)%list_elem_of_omap. unfold found in He. destruct (_ && _); [|done].
  destruct (T !! e.1) as [t|] eqn:Ht; [|done]. by exists (flat e.1 ++ unidx e.2), e.1, t, (unidx e.2).
Qed.

Lemma open_steps k ai : iters σ !! k = Some ai → ai_table ai = 0 → steps_iter k (Open k) (nodes_in L T).
Proof.
  intros Hk H0. destruct (iter_at k ai Hk) as (ow & Ho & Hat & Hlt & I & Hfew & Hnone & _).
  rewrite (Hnone H0) in I. apply (on_iter_steps k _ art_iter_open ai); [done|done|].
  intros Q HQ. eapply runs_iter_open; [done|apply uses_nonneg|done| |done].
  eapply inv_ext, I. intros w. by rewrite plus_none.
Qed.
Lemma open_goes k : permitted (Open k) σ → goes (Open k) σ M.
Proof.
  intros (ai & Hk & H0). eapply iter_goes; [done|by intros []| |by eapply open_steps].
  intros n. apply gives_route.
Qed.

Lemma next_steps k ai : iters σ !! k = Some ai → ai_table ai ≠ 0 →
  ∃ w, ows !! k = Some (Some w) ∧ at_iter L T ai (Some w) ∧ steps_iter k (Next k) (left_of L T ai (Some w)).
Proof.
  intros Hk H0. destruct (iter_at k ai Hk) as (ow & Ho & Hat & Hlt & I & Hfew & _ & Hsome).
  destruct (Hsome H0) as [w ->]. exists w. split; [done|]. split; [done|].
  apply (on_iter_steps k _ art_iter_next ai); [done|done|].
  intros Q HQ. eapply runs_iter_next; [done|apply uses_nonneg|done|done|done|done].
Qed.
Lemma next_goes k : permitted (Next k) σ → goes (Next k) σ M.
Proof.
  intros (ai & Hk & H0). destruct (next_steps k ai Hk H0) as (w & _ & _ & H).
  eapply iter_goes; [done|by intros []| |done]. intros n. apply gives_route.
Qed.

Lemma close_goes k : permitted (Close k) σ → goes (Close k) σ M.
Proof.
  intros [ai Hk]. destruct (iter_at k ai Hk) as (ow & Ho & Hat & Hlt & I & Hfew & _ & _).
  destruct (runs_iter_close _ (uses_nonneg _) s T G ai ow
    (λ ai' s', ai_table ai' = 0 ∧ ∃ T' G', kept s s' ∧ inv s' T' (uses (<[k := None]> ows)) G' ∧ pruned T T') I Hat)
    as (ai' & s' & E & Hai & T' & G' & K & I' & Hp); [naive_solver|].
  exists (Node 0), (Sys s' (held σ) (<[k := ai']> (iters σ))), T', G', (<[k := None]> ows), N. split_and!; [|done| |apply (kp_alen _ _ K)].
  - assert ((ai ← art_iter_close ai; mret (0, ai)) s = Ret (0, ai', s')) as E'.
    { unfold mbind, ST_bind. by rewrite E. }
    cbn [exec]. unfold on_iter. rewrite Hk. cbn. by rewrite E'.
  - cbn. apply iter_moved; [done|done| |done|done].
    eapply inv_ext, I'. intros w. by rewrite plus_none.
Qed.

(** *** Nodes *)

Lemma alen_128 : 0 < alen σ ≤ 128.
Proof. apply (lv_some _ (i_art _ _ _ _ (so_inv _ _ _ _ _ _ O))). Qed.

Lemma prefix_bits addr plen : prefix_ok σ addr plen → Z.of_nat (length (pbits addr plen)) = plen.
Proof. intros (Hb & Hl & Hp). unfold pbits. rewrite length_take, length_abits. lia. Qed.

Lemma in_map_ptr p n : M !! p = Some n → ptr n ∧ node_is s n p.
Proof.
  intros H%(so_routes _ _ _ _ _ _ O). by destruct (route_table (so_inv _ _ _ _ _ _ O) _ _ H) as (_ & _ & _ & _ & _ & _ & _ & ? & ?).
Qed.

Lemma node_is_nodes s1 s2 n p : nodes s2 !! n = nodes s1 !! n → node_is s1 n p → node_is s2 n p.
Proof. intros E (x & A & Hx & H). exists x, A. by rewrite E. Qed.

(** The memory after the nodes changed, and no route with them. *)
Lemma sys_ok_nodes H m gc l N' :
  (∀ p n, M !! p = Some n → m !! n = nodes s !! n) →
  nodes_ok (RTable (the_art s) (heaps s) (tables s) m (art_table_gc_list s) gc l) M H N' →
  sys_ok (Sys (RTable (the_art s) (heaps s) (tables s) m (art_table_gc_list s) gc l) H (iters σ)) M T G ows N'.
Proof.
  intros Hm Hno. destruct O. constructor; cbn; try done.
  apply inv_nodes; [done|]. intros p n Hr. apply so_routes0 in Hr. by eapply Hm.
Qed.

Lemma get_goes addr plen : permitted (Get addr plen) σ → goes (Get addr plen) σ M.
Proof.
  intros Hp. pose proof alen_128 as Ha. pose proof (so_nodes _ _ _ _ _ _ O) as [B1 B2 B3 B4 B5 B6].
  assert (dest_ok addr plen) as Hd by (destruct Hp as (? & ? & ?); split_and!; (done || lia)).
  destruct (runs_art_get s addr plen (λ n s',
    (∃ l, n = 0 ∧ s' = set_answers l s) ∨
    (∃ x l, ptr n ∧ nodes s !! n = None ∧ s' = set_nodes (<[n := x]> (nodes s)) (set_answers l s) ∧
       node_is s' n (pbits addr plen))) Hd) as (n & s' & E & Hcase).
  { intros l. left. by exists l. }
  { intros a x l Hpa Hn _ _ s' Hnode. right. exists x, l. done. }
  assert (exec (Get addr plen) σ =
    Ret (Node n, Sys s' (if n =? 0 then held σ else <[n := pbits addr plen]> (held σ)) (iters σ))) as Hex.
  { cbn [exec]. by rewrite E. }
  destruct Hcase as [(l & -> & ->)|(x & l & Hpn & Hn & -> & Hnode)].
  - eexists _, _, T, G, ows, N. split; [exact Hex|]. split; [by left|]. split; [|done]. cbn.
    apply sys_ok_pruned; [done|apply inv_answers, O|apply pruned_refl].
  - rewrite (proj2 (Z.eqb_neq n 0)) in Hex by (destruct Hpn; lia).
    assert (n ∉ N ∧ held σ !! n = None ∧ ∀ p, M !! p ≠ Some n) as (HnN & HnH & HnM).
    { split_and!.
      - intros Hin. destruct (proj2 (B6 n) (or_introl Hin)). congruence.
      - destruct (held σ !! n) as [p|] eqn:Eh; [|done]. destruct (proj2 (B6 n)); [right; left; by eexists|congruence].
      - intros p Hpm. destruct (proj2 (B6 n)); [right; right; by eexists|congruence]. }
    eexists _, _, T, G, ows, N. split; [exact Hex|]. split; [by right|]. split; [|done]. cbn.
    apply sys_ok_nodes.
    { intros p k Hk. rewrite lookup_insert_ne; [done|]. intros <-. by apply HnM in Hk. }
    constructor; cbn; try done.
    + intros n' p. destruct (decide (n' = n)) as [->|Hne].
      * rewrite lookup_insert_eq. intros [= <-]. split; [done|]. split; [done|]. rewrite (prefix_bits _ _ Hp). apply Hp.
      * rewrite lookup_insert_ne by done. intros Hh. destruct (B1 n' p Hh) as (H1 & H2 & H3).
        split; [done|]. split; [|done]. eapply node_is_nodes, H2. cbn. by rewrite lookup_insert_ne.
    + intros n' p q. destruct (decide (n' = n)) as [->|Hne]; [by intros _|].
      rewrite lookup_insert_ne by done. apply B2.
    + eapply node_chain_ext, B3. intros q Hq. rewrite lookup_insert_ne; [done|]. by intros ->.
    + intros n' Hn'. destruct (B5 n' Hn') as [H1 H2]. split; [|done].
      rewrite lookup_insert_ne; [done|]. by intros ->.
    + intros n'. destruct (decide (n' = n)) as [->|Hne].
      * rewrite !lookup_insert_eq. split; [|by eexists]. intros _. right; left. by eexists.
      * rewrite !lookup_insert_ne by done. apply B6.
Qed.

Lemma put_goes n : permitted (Put n) σ → goes (Put n) σ M.
Proof.
  intros [p Hn]. pose proof (so_nodes _ _ _ _ _ _ O) as [B1 B2 B3 B4 B5 B6].
  destruct (B1 n p Hn) as ([Hpn _] & (x & A & Hx & _) & _).
  assert (n ∉ N) as HnN. { intros Hin. destruct (B5 n Hin). congruence. }
  set (x' := ArtNode (an_value x) (an__gc (art_node_gc_list s)) (an_plen x)).
  set (s' := RTable (the_art s) (heaps s) (tables s) (<[n := x']> (nodes s)) (art_table_gc_list s) n (pool_answers s)).
  assert (art_put n s = Ret (tt, s')) as E.
  { unfold art_put, gets, modify, upd_nd, nd, lift, mbind, ST_bind. cbn. by rewrite Hx. }
  exists Done, (Sys s' (delete n (held σ)) (iters σ)), T, G, ows, (n :: N). split; [cbn [exec]; by rewrite E|]. split; [done|]. split; [|done].
  cbn. apply sys_ok_nodes.
  { intros q k Hk. rewrite lookup_insert_ne; [done|]. intros <-. by eapply B2. }
  constructor; cbn.
  - intros n' q [Hne Hh]%lookup_delete_Some. destruct (B1 n' q Hh) as (H1 & H2 & H3).
    split; [done|]. split; [|done]. eapply node_is_nodes, H2. cbn. by rewrite lookup_insert_ne.
  - intros n' q q' [Hne Hh]%lookup_delete_Some. by eapply B2.
  - split; [done|]. split; [lia|]. exists x', (art_node_gc_list s). rewrite lookup_insert_eq. split; [done|]. split; [done|].
    eapply node_chain_ext, B3. intros q Hq. rewrite lookup_insert_ne; [done|]. by intros ->.
  - by constructor.
  - intros n' [->|Hn']%elem_of_cons; [split; [apply lookup_delete_eq|]; intros q; by eapply B2|].
    destruct (B5 n' Hn') as [H1 H2]. split; [|done]. by rewrite lookup_delete_None; right.
  - intros n'. rewrite elem_of_cons. destruct (decide (n' = n)) as [->|Hne].
    + rewrite lookup_insert_eq. split; [by left; left|by eexists].
    + rewrite lookup_insert_ne, lookup_delete_ne by done. rewrite B6. naive_solver.
Qed.

Lemma drop_goes n : permitted (Drop n) σ → goes (Drop n) σ M.
Proof.
  intros [p Hn]. pose proof (so_nodes _ _ _ _ _ _ O) as [B1 B2 B3 B4 B5 B6].
  destruct (B1 n p Hn) as (_ & (x & A & Hx & _) & _).
  assert (n ∉ N) as HnN. { intros Hin. destruct (B5 n Hin). congruence. }
  set (s' := RTable (the_art s) (heaps s) (tables s) (delete n (nodes s)) (art_table_gc_list s) (art_node_gc_list s) (pool_answers s)).
  assert (an_pool_put n s = Ret (tt, s')) as E.
  { unfold an_pool_put, modify, nd, lift, mbind, ST_bind. by rewrite Hx. }
  exists Done, (Sys s' (delete n (held σ)) (iters σ)), T, G, ows, N. split; [cbn [exec]; by rewrite E|]. split; [done|]. split; [|done].
  cbn. apply sys_ok_nodes.
  { intros q k Hk. rewrite lookup_delete_ne; [done|]. intros <-. by eapply B2. }
  constructor; cbn.
  - intros n' q [Hne Hh]%lookup_delete_Some. destruct (B1 n' q Hh) as (H1 & H2 & H3).
    split; [done|]. split; [|done]. eapply node_is_nodes, H2. cbn. by rewrite lookup_delete_ne.
  - intros n' q q' [Hne Hh]%lookup_delete_Some. by eapply B2.
  - eapply node_chain_ext, B3. intros q Hq. rewrite lookup_delete_ne; [done|]. by intros ->.
  - done.
  - intros n' Hn'. destruct (B5 n' Hn') as [H1 H2]. split; [|done]. by rewrite lookup_delete_None; right.
  - intros n'. rewrite !lookup_delete_is_Some, B6. split; [naive_solver|].
    intros [Hin|[?|[q Hq]]]; (split; [|naive_solver]); [by intros ->|naive_solver|]. intros ->. by eapply B2.
Qed.

Lemma gc_collects :
  ∃ s', exec Gc σ = Ret (Done, Sys s' (held σ) (iters σ)) ∧ the_art s' = the_art s ∧
    sys_ok (Sys s' (held σ) (iters σ)) M T G ows [].
Proof.
  pose proof (so_nodes _ _ _ _ _ _ O) as [B1 B2 B3 B4 B5 B6].
  set (s' := RTable (the_art s) (heaps s) (tables s) (without (nodes s) N) (art_table_gc_list s) 0 (pool_answers s)).
  assert (runs art_gc s (λ _ s1, s1 = s')) as ([] & s1 & E & ->).
  { unfold art_gc. apply runs_bind, runs_gets, runs_bind, runs_modify, runs_bind, runs_gets.
    apply (node_gc_loop_spec N); [|done|done|done]. cbn. rewrite <-(size_dom (nodes s)).
    apply Nat.lt_succ_r, submseteq_length, NoDup_submseteq; [done|].
    intros q Hq. apply elem_of_elements, elem_of_dom. by eapply node_chain_in. }
  exists s'. split; [cbn [exec]; by rewrite E|]. split; [done|].
  assert (∀ n, n ∉ N → without (nodes s) N !! n = nodes s !! n) as Hw.
  { intros n Hn. rewrite without_lookup. by rewrite decide_False. }
  cbn. apply sys_ok_nodes.
  { intros q k Hk. apply Hw. intros Hin. by destruct (B5 k Hin) as [_ H%(λ H, H q)]. }
  constructor; cbn; try done.
  - intros n q Hh. destruct (B1 n q Hh) as (H1 & H2 & H3). split; [done|]. split; [|done].
    eapply node_is_nodes, H2. cbn. apply Hw. intros Hin. destruct (B5 n Hin). congruence.
  - constructor.
  - by intros n ?%elem_of_nil.
  - intros n. rewrite without_lookup. case_decide as Hin.
    + split; [by intros []|]. destruct (B5 n Hin) as [H1 H2]. rewrite H1.
      intros [?%elem_of_nil|[[? [=]]|[p Hp]]]; [done|]. by apply H2 in Hp.
    + rewrite B6, elem_of_nil. naive_solver.
Qed.

Lemma gc_goes : goes Gc σ M.
Proof.
  destruct gc_collects as (s' & E & Ea & O'). exists Done, (Sys s' (held σ) (iters σ)), T, G, ows, [].
  split_and!; [done|done|done|]. unfold alen. cbn. by rewrite Ea.
Qed.

(** Nodes that go from the clients to the table, or back. *)
Lemma nodes_moved s0 M0 H M' H' N0 :
  nodes_ok s0 M0 H N0 →
  (∀ n, (is_Some (H' !! n) ∨ ∃ p, M' !! p = Some n) ↔ (is_Some (H !! n) ∨ ∃ p, M0 !! p = Some n)) →
  (∀ n p, H' !! n = Some p → ptr n ∧ node_is s0 n p ∧ Z.of_nat (length p) ≤ art_alen (the_art s0)) →
  (∀ n p q, H' !! n = Some p → M' !! q ≠ Some n) →
  nodes_ok s0 M' H' N0.
Proof.
  intros [B1 B2 B3 B4 B5 B6] Hsame Hh Hap. constructor; try done.
  - intros n Hn. destruct (B5 n Hn) as [H1 H2].
    assert (¬ (is_Some (H' !! n) ∨ ∃ p, M' !! p = Some n)) as Hno.
    { rewrite Hsame, H1. intros [[? [=]]|[p Hp]]. by apply H2 in Hp. }
    split; [|intros q Hq; apply Hno; right; by eexists].
    apply eq_None_not_Some. intros Hs. apply Hno. by left.
  - intros n. by rewrite B6, Hsame.
Qed.

Lemma sys_ok_map s' T' G' M' H' :
  kept s s' → inv s' T' (uses ows) G' → same_ptr T T' → (∀ p n, M' !! p = Some n ↔ route_at T' p n) →
  nodes_ok s M' H' N → sys_ok (Sys s' H' (iters σ)) M' T' G' ows N.
Proof.
  intros K I Hs HR Hno. destruct O. constructor; cbn; try done.
  - rewrite (kp_levels _ _ K). by eapply iters_same.
  - by eapply nodes_ok_kept.
Qed.

Lemma insert_goes n : permitted (Insert n) σ → goes (Insert n) σ M.
Proof.
  intros [p Hn]. pose proof (so_nodes _ _ _ _ _ _ O) as B. pose proof B as [B1 B2 B3 B4 B5 B6].
  pose proof (so_inv _ _ _ _ _ _ O) as I. pose proof (so_routes _ _ _ _ _ _ O) as HR.
  destruct (B1 n p Hn) as (Hpn & Hnode & Hlen). pose proof Hnode as (x & A & Hx & HA & HbA & HlA & Hpl & Hpb & _).
  destruct (runs_insert s T (uses ows) G n x A (λ r s',
    (∃ T', M !! p = Some r ∧ inv s' T' (uses ows) G ∧ pruned T' T ∧ kept s s') ∨
    (∃ T', M !! p = None ∧ r = 0 ∧ inv s' T' (uses ows) G ∧ pruned T' T ∧ kept s s') ∨
    (∃ T', M !! p = None ∧ r = n ∧ inv s' T' (uses ows) G ∧ with_route T T' p n ∧ kept s s'))) as (r & s' & E & Hcase);
    [done|by apply so_few_uses|done|done|done|done|done|rewrite Hpl; lia| | | |].
  { rewrite Hpb. intros k s' T' _ Hk I' Hp K. left. exists T'. split; [by apply HR|done]. }
  { rewrite Hpb. intros s' T' Hno I' Hp K. right; left. exists T'. split; [|done].
    destruct (M !! p) as [k|] eqn:Ek; [|done]. by apply HR, Hno in Ek. }
  { rewrite Hpb. intros s' T' Hno I' K Hp. right; right. exists T'. split; [|done].
    destruct (M !! p) as [k|] eqn:Ek; [|done]. by apply HR, Hno in Ek. }
  assert (exec (Insert n) σ = Ret (Node r, Sys s' (if r =? n then delete n (held σ) else held σ) (iters σ))) as Hex.
  { cbn [exec]. by rewrite E. }
  destruct Hcase as [(T' & Hm & I' & Hp & K)|[(T' & Hm & -> & I' & Hp & K)|(T' & Hm & -> & I' & [Hw Hg] & K)]].
  - assert (r ≠ n) as Hne by (intros ->; by eapply B2). rewrite (proj2 (Z.eqb_neq r n) Hne) in Hex.
    eexists _, _, T', G, ows, N. split; [exact Hex|]. split; [exists p; by rewrite Hm|]. split; [|apply (kp_alen _ _ K)].
    cbn. rewrite (proj2 (Z.eqb_neq r n) Hne). apply sys_ok_kept; [done|done|by apply same_ptr_pruned'|].
    intros q k. by apply pruned_routes.
  - assert (0 ≠ n) as Hne by (destruct Hpn; lia). rewrite (proj2 (Z.eqb_neq 0 n) Hne) in Hex.
    eexists _, _, T', G, ows, N. split; [exact Hex|]. split; [exists p; rewrite Hm; by auto|]. split; [|apply (kp_alen _ _ K)].
    unfold effect. rewrite (proj2 (Z.eqb_neq 0 n) Hne). apply sys_ok_kept; [done|done|by apply same_ptr_pruned'|].
    intros q k. by apply pruned_routes.
  - rewrite Z.eqb_refl in Hex. eexists _, _, T', G, ows, N. split; [exact Hex|]. split; [exists p; rewrite Hm; by auto|]. split; [|apply (kp_alen _ _ K)].
    cbn. rewrite Z.eqb_refl, Hn. apply sys_ok_map; [done|done|by apply same_ptr_grown| |].
    + intros q k. rewrite Hw, <-HR, lookup_insert_Some. naive_solver.
    + eapply nodes_moved; [done| | |].
      * intros n'. rewrite lookup_delete_is_Some. split.
        -- intros [[_ H]|[q [[_ <-]|[_ H]]%lookup_insert_Some]]; [by left|left; by eexists|right; by eexists].
        -- destruct (decide (n' = n)) as [->|Hne]; [intros _; right; exists p; apply lookup_insert_eq|].
           intros [H|[q H]]; [left; by split|right]. exists q. rewrite lookup_insert_ne; [done|]. intros <-. congruence.
      * intros n' q [_ H]%lookup_delete_Some. by apply B1.
      * intros n' q q' [Hne H]%lookup_delete_Some [[_ ?]|[_ H']]%lookup_insert_Some; [done|]. by eapply B2.
Qed.

Lemma delete_goes addr plen : permitted (Delete addr plen) σ → goes (Delete addr plen) σ M.
Proof.
  intros Hp. pose proof (so_nodes _ _ _ _ _ _ O) as B. pose proof B as [B1 B2 B3 B4 B5 B6].
  pose proof (so_inv _ _ _ _ _ _ O) as I. pose proof (so_routes _ _ _ _ _ _ O) as HR.
  destruct (runs_lookup_map addr plen (λ n s', s' = s ∧ n = default 0 (M !! pbits addr plen)) Hp)
    as (n & s1 & E & -> & Hn); [done|].
  destruct (M !! pbits addr plen) as [k|] eqn:Ek; cbn in Hn; subst n.
  - destruct (in_map_ptr _ _ Ek) as [Hpk Hnode]. assert (k ≠ 0) as Hk0 by (destruct Hpk; lia).
    destruct (runs_delete s T (uses ows) G I addr (prefix_addr _ _ Hp) plen k
      (λ r s', r = k ∧ ∃ T' G', inv s' T' (uses ows) G' ∧ kept s s' ∧ without_route T T' (pbits addr plen)))
      as (r & s' & E' & -> & T' & G' & I' & K & Hw & Hs); [apply Hp|by apply HR|naive_solver|].
    exists (Node k), (Sys s' (<[k := pbits addr plen]> (held σ)) (iters σ)), T', G', ows, N.
    split_and!; [|cbn; by rewrite Ek| |apply (kp_alen _ _ K)].
    + cbn [exec]. rewrite E. cbn. rewrite (proj2 (Z.eqb_neq k 0) Hk0), E'. cbn. by rewrite Z.eqb_refl.
    + cbn. rewrite (proj2 (Z.eqb_neq k 0) Hk0). apply sys_ok_map; [done|done|by apply same_ptr_shrunk| |].
      * intros q n. rewrite Hw, <-HR, lookup_delete_Some. naive_solver.
      * eapply nodes_moved; [done| | |].
        -- intros n'. rewrite lookup_insert_is_Some. split.
           ++ intros [[->|[_ H]]|[q [_ H]%lookup_delete_Some]]; [right; by eexists|by left|right; by eexists].
           ++ destruct (decide (k = n')) as [<-|Hne]; [intros _; left; by left|]. intros [H|[q H]]; [left; by right|right].
              exists q. rewrite lookup_delete_ne; [done|]. intros <-. congruence.
        -- intros n' q [[<- <-]|[_ H]]%lookup_insert_Some; [|by apply B1].
           split; [done|]. split; [done|]. rewrite (prefix_bits _ _ Hp). apply Hp.
        -- intros n' q q' [[<- <-]|[_ H]]%lookup_insert_Some [Hne H']%lookup_delete_Some; [|by eapply B2].
           destruct (in_map_ptr _ _ H') as [_ Hnode']. apply Hne. by eapply node_prefix_eq.
  - exists (Node 0), (Sys s (held σ) (iters σ)), T, G, ows, N. split_and!; [|cbn; by rewrite Ek| |done].
    + cbn [exec]. by rewrite E.
    + cbn. apply sys_ok_pruned; [apply kept_refl|done|apply pruned_refl].
Qed.

(** Every call goes through, with the answer it promises. *)
Lemma call_goes c : permitted c σ → goes c σ M.
Proof.
  destruct c; [apply get_goes|apply insert_goes|apply delete_goes|apply put_goes|apply drop_goes|apply lookup_goes|apply match_goes
    |apply open_goes|apply next_goes|apply close_goes|intros _; apply walk_goes|intros _; apply table_gc_goes|intros _; apply gc_goes].
Qed.
End calls.

(** *** The start, and every state reached *)

Lemma art_init_ok len a : art_init len = Ret a →
  levels_ok a ∧ art_root a = 0 ∧ art_alen a = len ∧ (len = 32 ∨ len = 128 ∨ len = 20).
Proof.
  assert (strides_ok art_plen32_levels ∧ strides_ok art_plen128_levels ∧ strides_ok art_plen20_levels) as (H1 & H2 & H3).
  { unfold strides_ok. split_and!; apply (bool_decide_unpack _); vm_compute; exact Logic.I. }
  unfold art_init. destruct (Z.eqb_spec len 32) as [->|]; [|destruct (Z.eqb_spec len 128) as [->|]; [|destruct (Z.eqb_spec len 20) as [->|]; [|done]]];
    intros [= <-]; (split; [|auto]); constructor; cbn; done.
Qed.

Lemma start_ok len a l k :
  art_init len = Ret a → Z.of_nat k < 2147483647 → sys_ok (start a l k) ∅ ∅ [] (replicate k None) [].
Proof.
  intros Ha Hk. destruct (art_init_ok len a Ha) as (Hlv & Hroot & _).
  constructor; cbn.
  - constructor; cbn; try done.
    + constructor; [by intros r w [t ?]|by intros w [t ?]|done|done].
    + intros w. apply uses_nonneg.
    + intros w Hw. exfalso. unfold uses in Hw. revert Hw. clear. induction k as [|k IH]; cbn; [lia|]. done.
    + by intros w [t ?].
    + constructor; cbn; try done; try constructor.
      * by intros [? ?].
      * intros [Hp|(w & t & Hw & _)]; [by apply elem_of_nil in Hp|done].
      * by intros [? ?].
      * intros [Hp|(w & t & Hw & _)]; [by apply elem_of_nil in Hp|done].
      * by intros ? ?%elem_of_nil.
      * by intros ? ?%elem_of_nil.
  - clear. induction k as [|k IH]; cbn; constructor; done.
  - by rewrite length_replicate.
  - intros p n. split; [done|]. by intros (w & t & r & Hw & _).
  - constructor; cbn; try done.
    + constructor.
    + intros n. split; [by intros [? ?]|]. intros [?%elem_of_nil|[[? ?]|[? ?]]]; done.
Qed.

Lemma reaches_ok σ M : reaches σ M → ∃ T G ows N, sys_ok σ M T G ows N.
Proof.
  induction 1 as [len a l k Ha Hk|σ M c a σ' _ (T & G & ows & N & O) Hp Hex].
  - do 4 eexists. by eapply start_ok.
  - destruct (call_goes O c Hp) as (a' & σ1 & T' & G' & ows' & N' & Hex' & _ & O' & _).
    rewrite Hex in Hex'. simplify_eq. eauto.
Qed.

(** ** Scripts: sequences of calls, run *)

Definition prefix_okb (σ : sys) (addr : list Z) (plen : Z) : bool :=
  forallb (λ b, (0 <=? b) && (b <? 256)) addr && (alen σ <=? 8 * Z.of_nat (length addr)) && (0 <=? plen) && (plen <=? alen σ).

Definition permittedb (c : call) (σ : sys) : bool :=
  match c with
  | Get addr plen | Delete addr plen | Lookup addr plen => prefix_okb σ addr plen
  | Insert n | Put n | Drop n => bool_decide (is_Some (held σ !! n))
  | Match addr => prefix_okb σ addr 0
  | Open k => match iters σ !! k with Some ai => ai_table ai =? 0 | None => false end
  | Next k => match iters σ !! k with Some ai => negb (ai_table ai =? 0) | None => false end
  | Close k => bool_decide (is_Some (iters σ !! k))
  | Walk _ _ | TableGc | Gc => true
  end.

Lemma prefix_okb_spec σ addr plen : prefix_okb σ addr plen = true → prefix_ok σ addr plen.
Proof.
  unfold prefix_okb, prefix_ok. rewrite !andb_true_iff, !Z.leb_le, forallb_forall. intros [[[Hb ?] ?] ?].
  split; [|done]. apply Forall_forall. intros b Hin%list_elem_of_In. apply Hb in Hin. unfold is_u8. lia.
Qed.

Lemma permittedb_spec c σ : permittedb c σ = true → permitted c σ.
Proof.
  destruct c; cbn; try (by apply prefix_okb_spec); try (by intros ?%bool_decide_eq_true); try done.
  - destruct (iters σ !! k) as [ai|]; [|done]. intros ?%Z.eqb_eq. by exists ai.
  - destruct (iters σ !! k) as [ai|]; [|done]. intros ?%negb_true_iff%Z.eqb_neq. by exists ai.
Qed.

Fixpoint script (cs : list call) (σ : sys) (M : rmap) : option (sys * rmap) :=
  match cs with
  | [] => Some (σ, M)
  | c :: cs =>
      if permittedb c σ then
        match exec c σ with
        | Ret (a, σ') => script cs σ' (effect c a (held σ) M)
        | Fault _ => None
        end
      else None
  end.

Lemma script_reaches cs : ∀ σ M σ' M', script cs σ M = Some (σ', M') → reaches σ M → reaches σ' M'.
Proof.
  induction cs as [|c cs IH]; intros σ M σ' M'; cbn; [by intros [= -> ->]|].
  destruct (permittedb c σ) eqn:Hp; [|done]. destruct (exec c σ) as [[a σ1]|] eqn:Hex; [|done].
  intros Hs HR. eapply IH; [done|]. econstructor; [done|by apply permittedb_spec|done].
Qed.
