(* ===== verification/ArtProps.v ===== *)
(** What the allotment routing table promises its clients, as theorems about the
    states that [ArtSystem] reaches: a finite map with longest-prefix match,
    walks and iterators that see every route once, memory that is well typed and
    never leaks, and where the code does less than one might think. *)

From S2P Require Import Prelude StateMonad Art ArtTable ArtMem ArtInv ArtOps ArtIter ArtSystem.

(** ** Consequences of one step *)

Lemma step_ok σ M c :
  reaches σ M → permitted c σ →
  ∃ a σ', exec c σ = Ret (a, σ') ∧ answers c a (held σ) M ∧ reaches σ' (effect c a (held σ) M) ∧ alen σ' = alen σ.
Proof.
  intros HR Hp. destruct (reaches_ok σ M HR) as (T & G & ows & N & O).
  destruct (call_goes O c Hp) as (a & σ' & _ & _ & _ & _ & Hex & Hans & _ & Hal).
  exists a, σ'. split_and!; [done|done|by econstructor|done].
Qed.

Lemma exec_ok σ M c a σ' :
  reaches σ M → permitted c σ → exec c σ = Ret (a, σ') →
  answers c a (held σ) M ∧ reaches σ' (effect c a (held σ) M) ∧ alen σ' = alen σ.
Proof.
  intros HR Hp Hex. destruct (step_ok σ M c HR Hp) as (a' & σ1 & Hex' & H). rewrite Hex in Hex'. by simplify_eq.
Qed.

Lemma prefix_any σ addr plen : prefix_ok σ addr plen → prefix_ok σ addr 0.
Proof. intros (Hb & Hl & Hp). split; [done|]. split; [done|]. lia. Qed.

Lemma lookup_map σ M addr plen :
  reaches σ M → prefix_ok σ addr plen →
  art_lookup addr plen (mem σ) = Ret (default 0 (M !! pbits addr plen), mem σ).
Proof.
  intros HR Hp. destruct (reaches_ok σ M HR) as (T & G & ows & N & O).
  destruct (runs_lookup_map O addr plen (λ n s', s' = mem σ ∧ n = default 0 (M !! pbits addr plen)) Hp)
    as (n & s' & E & -> & ->); done.
Qed.

Lemma match_map σ M addr :
  reaches σ M → prefix_ok σ addr 0 → ∃ n, art_match addr (mem σ) = Ret (n, mem σ) ∧ longest_in M (abits addr) n.
Proof.
  intros HR Hp. destruct (reaches_ok σ M HR) as (T & G & ows & N & O).
  destruct (runs_match (mem σ) T (uses ows) G (so_inv _ _ _ _ _ _ O) addr (prefix_addr addr 0 Hp)
    (λ n s', s' = mem σ ∧ longest T (abits addr) (length (abits addr)) n) ltac:(done)) as (n & s' & E & -> & Hn).
  exists n. split; [done|]. by apply (longest_routes O).
Qed.

Lemma longest_unique M a n n' : longest_in M a n → longest_in M a n' → n = n'.
Proof.
  intros [[-> H]|(p & Hp & Hpa & H)] [[-> H']|(p' & Hp' & Hpa' & H')]; [done| | |].
  - rewrite (H p' Hpa') in Hp'. done.
  - rewrite (H' p Hpa) in Hp. done.
  - assert (p = p') as ->; [|congruence]. apply (prefix_eq _ _ a); [done|done|].
    pose proof (H p' Hpa' ltac:(by eexists)). pose proof (H' p Hpa ltac:(by eexists)). lia.
Qed.

Ltac byte_list := repeat (apply Forall_cons; split; [unfold is_u8; lia|]); apply Forall_nil; exact Logic.I.

(** A demonstration: three routes, an iterator on them, and a node still to be
    inserted. *)
Definition demo : list call :=
  [Get [10;0;0;0] 8; Insert 16; Get [10;1;2;0] 24; Insert 64; Get [0;0;0;0] 0; Insert 208; Open 0;
   Get [10;1;3;0] 24].
Definition demo_state (cs : list call) (answers : list Z) : option (sys * rmap) :=
  match art_init 32 with Ret a => script cs (start a answers 2) ∅ | Fault _ => None end.
Definition some_addresses : list Z := (λ x, 16 * x) <$> seqZ 1 100.

Lemma demo_reaches cs l σ M : demo_state cs l = Some (σ, M) → reaches σ M.
Proof.
  unfold demo_state. destruct (art_init 32) as [a|] eqn:Ha; [|done]. intros Hs.
  eapply script_reaches; [done|]. by econstructor.
Qed.

Definition state_of (o : option (sys * rmap)) : sys :=
  match o with Some (σ, _) => σ | None => Sys (RTable (MkArt 0 [] 0 0) ∅ ∅ ∅ 0 0 []) ∅ [] end.
Definition map_of (o : option (sys * rmap)) : rmap := match o with Some (_, M) => M | None => ∅ end.

Definition demo_sys : sys := Eval vm_compute in state_of (demo_state demo some_addresses).
Definition demo_map : rmap := Eval vm_compute in map_of (demo_state demo some_addresses).

Lemma demo_runs : reaches demo_sys demo_map.
Proof. apply (demo_reaches demo some_addresses). vm_compute. reflexivity. Qed.

(** ** The map *)

(** C9: The routing table is a map from prefixes to nodes. *)
Theorem art_refines_map σ M c :
  reaches σ M → permitted c σ →
  ∃ a σ', exec c σ = Ret (a, σ') ∧ answers c a (held σ) M ∧ reaches σ' (effect c a (held σ) M).
Proof.
  intros HR Hp. destruct (step_ok σ M c HR Hp) as (a & σ' & H1 & H2 & H3 & _). by exists a, σ'.
Qed.

Lemma art_refines_map_witness :
  demo_map !! pbits [10;1;2;0] 24 = Some 64 ∧
  ∃ a σ', exec (Delete [10;1;2;0] 24) demo_sys = Ret (a, σ') ∧
    answers (Delete [10;1;2;0] 24) a (held demo_sys) demo_map ∧
    reaches σ' (effect (Delete [10;1;2;0] 24) a (held demo_sys) demo_map).
Proof.
  split; [vm_compute; reflexivity|].
  apply art_refines_map; [apply demo_runs|]. apply permittedb_spec. vm_compute. reflexivity.
Defined.

(** C10: Longest prefix match. *)
Theorem art_match_longest σ M addr :
  reaches σ M → prefix_ok σ addr 0 →
  ∃ n, art_match addr (mem σ) = Ret (n, mem σ) ∧ longest_in M (abits addr) n.
Proof. intros HR Hp. by apply match_map. Qed.

Lemma art_match_longest_witness :
  result (art_match [10;1;3;9] (mem demo_sys)) = Ret 16 ∧
  ∃ n, art_match [10;1;3;9] (mem demo_sys) = Ret (n, mem demo_sys) ∧ longest_in demo_map (abits [10;1;3;9]) n.
Proof.
  split; [vm_compute; reflexivity|].
  apply art_match_longest; [apply demo_runs|]. apply prefix_okb_spec. vm_compute. reflexivity.
Defined.

(** C11: A node that was inserted is found by its prefix until it is deleted,
    and then every lookup and every match is as before the insertion. *)
Theorem art_insert_delete_roundtrip σ M n addr plen σ1 :
  reaches σ M → prefix_ok σ addr plen → held σ !! n = Some (pbits addr plen) →
  exec (Insert n) σ = Ret (Node n, σ1) →
  art_lookup addr plen (mem σ1) = Ret (n, mem σ1) ∧
  ∃ σ2, exec (Delete addr plen) σ1 = Ret (Node n, σ2) ∧
    ∀ addr' plen', prefix_ok σ addr' plen' →
      result (art_lookup addr' plen' (mem σ2)) = result (art_lookup addr' plen' (mem σ)) ∧
      result (art_match addr' (mem σ2)) = result (art_match addr' (mem σ)).
Proof.
  intros HR Hp Hh Hex. assert (permitted (Insert n) σ) as Hpi by (by eexists).
  destruct (exec_ok _ _ _ _ _ HR Hpi Hex) as (Hans & HR1 & Ha1).
  cbn in Hans, HR1. rewrite Z.eqb_refl, Hh in HR1. destruct Hans as (p & Hh' & Hm). rewrite Hh in Hh'. injection Hh' as <-.
  assert (prefix_ok σ1 addr plen) as Hp1 by (by unfold prefix_ok in *; rewrite Ha1).
  destruct (reaches_ok σ M HR) as (T & G & ows & N & O).
  assert (M !! pbits addr plen = None) as Hnone.
  { destruct (M !! pbits addr plen) as [k|] eqn:Ek; [|done]. subst k.
    by destruct (no_apart _ _ _ _ (so_nodes _ _ _ _ _ _ O) n _ (pbits addr plen) Hh). }
  destruct (no_held _ _ _ _ (so_nodes _ _ _ _ _ _ O) n _ Hh) as ([Hpos _] & _).
  split.
  { rewrite (lookup_map σ1 _ addr plen HR1 Hp1). by rewrite lookup_insert_eq. }
  destruct (step_ok σ1 _ (Delete addr plen) HR1 Hp1) as (a & σ2 & Hex2 & Hans2 & HR2 & Ha2).
  destruct a as [r| |]; try done. cbn in Hans2, HR2. rewrite lookup_insert_eq in Hans2. cbn in Hans2. subst r.
  rewrite (proj2 (Z.eqb_neq n 0)) in HR2 by lia. rewrite delete_insert_id in HR2 by done.
  exists σ2. split; [done|]. intros addr' plen' Hp'.
  assert (prefix_ok σ2 addr' plen') as Hp2 by (unfold prefix_ok in *; by rewrite Ha2, Ha1).
  split; [by rewrite (lookup_map σ2 M), (lookup_map σ M)|].
  destruct (match_map σ2 M addr' HR2 (prefix_any _ _ _ Hp2)) as (k & -> & Hk).
  destruct (match_map σ M addr' HR (prefix_any _ _ _ Hp')) as (k' & -> & Hk').
  cbn. f_equal. by eapply longest_unique.
Qed.

Lemma art_insert_delete_roundtrip_witness :
  ∃ σ1, exec (Insert 224) demo_sys = Ret (Node 224, σ1) ∧
  art_lookup [10;1;3;0] 24 (mem σ1) = Ret (224, mem σ1) ∧
  ∃ σ2, exec (Delete [10;1;3;0] 24) σ1 = Ret (Node 224, σ2) ∧
    ∀ addr' plen', prefix_ok demo_sys addr' plen' →
      result (art_lookup addr' plen' (mem σ2)) = result (art_lookup addr' plen' (mem demo_sys)) ∧
      result (art_match addr' (mem σ2)) = result (art_match addr' (mem demo_sys)).
Proof.
  destruct (exec (Insert 224) demo_sys) as [[a σ1]|] eqn:E; [|vm_compute in E; discriminate].
  assert (a = Node 224) as ->.
  { assert ((λ o, match o with Ret (a, _) => a | _ => Done end) (exec (Insert 224) demo_sys) = Node 224) as E'
      by (vm_compute; reflexivity). by rewrite E in E'. }
  exists σ1. split; [done|].
  apply (art_insert_delete_roundtrip demo_sys demo_map 224 [10;1;3;0] 24 σ1); [apply demo_runs| | |done].
  - apply prefix_okb_spec. vm_compute. reflexivity.
  - vm_compute. reflexivity.
Defined.

(** ** Walks and iterators *)

(** C23: A walk calls back on every node of the table, on each once, and stops at
    the first error; it changes no lookup. *)
Theorem art_walk_visits_all σ M (f : Z → Z → Z * Z) arg :
  reaches σ M →
  ∃ l e a s', art_walk f arg (mem σ) = Ret (e, a, s') ∧ walk_list f l arg = (e, a) ∧
    NoDup l ∧ (∀ n, n ∈ l ↔ ∃ p, M !! p = Some n) ∧ reaches (Sys s' (held σ) (iters σ)) M.
Proof.
  intros HR. destruct (reaches_ok σ M HR) as (T & G & ows & N & O).
  destruct (step_ok σ M (Walk f arg) HR Logic.I) as (r & σ' & Hex & Hans & HR' & _).
  cbn [exec] in Hex. destruct (art_walk f arg (mem σ)) as [[[e a] s']|] eqn:E; [|done]. cbn in Hex. simplify_eq.
  destruct Hans as (l & Hl & Hw). exists l, e, a, s'. split_and!; [done|done| | |done].
  - rewrite Hl, <-(nodes_in_map O). eapply nodes_in_NoDup; [done|apply O].
  - intros n. rewrite Hl, list_elem_of_fmap. split.
    + intros ([p n'] & -> & H%elem_of_map_to_list). by exists p.
    + intros [p Hp]. exists (p, n). split; [done|]. by apply elem_of_map_to_list.
Qed.

Lemma art_walk_visits_all_witness :
  let f n c := (if n =? 64 then 5 else 0, c + 1) in
  ∃ l e a s', art_walk f 0 (mem demo_sys) = Ret (e, a, s') ∧ walk_list f l 0 = (e, a) ∧
    NoDup l ∧ (∀ n, n ∈ l ↔ ∃ p, demo_map !! p = Some n) ∧ reaches (Sys s' (held demo_sys) (iters demo_sys)) demo_map.
Proof. intros f. apply art_walk_visits_all, demo_runs. Defined.

(** [art_iter_next] again and again, until it gives NULL. *)
Fixpoint drain (fuel : nat) (k : nat) (σ : sys) : outcome (list Z * sys) :=
  match fuel with
  | O => Fault OutOfFuel
  | S fuel =>
      '(a, σ) ← exec (Next k) σ;
      match a with
      | Node n => if n =? 0 then Ret ([], σ) else '(l, σ) ← drain fuel k σ; Ret (n :: l, σ)
      | _ => Fault OutOfFuel
      end
  end.

Lemma left_suffix L T ai w :
  strides_ok L → tree_ok L T → at_iter L T ai (Some w) → left_of L T ai (Some w) `suffix_of` nodes_in L T.
Proof.
  intros HL HT (t & Hw & _ & Hp). unfold left_of. rewrite rest_descend, gives_cons. cbn [found snd Z.leb andb app].
  unfold nodes_in. rewrite gives_cons.
  destruct (rest_suffix L T HT (loop_of L w (ai_j ai)) w (ai_j ai) (ai_i ai)) as [l ->];
    [by eexists|by apply pos_descend|apply loop_of_descend|].
  rewrite gives_app, app_assoc. by eexists.
Qed.

Lemma drain_left fuel k : ∀ σ M T G ows N w ai,
  sys_ok σ M T G ows N → reaches σ M → iters σ !! k = Some ai → ai_table ai ≠ 0 → ows !! k = Some (Some w) →
  (length (left_of (art_levels (the_art (mem σ))) T ai (Some w)) < fuel)%nat →
  ∃ σ', drain fuel k σ = Ret (left_of (art_levels (the_art (mem σ))) T ai (Some w), σ') ∧ reaches σ' M ∧
    ∃ ai', iters σ' !! k = Some ai' ∧ ai_table ai' = 0.
Proof.
  induction fuel as [|fuel IH]; intros σ M T G ows N w ai O HR Hk H0 Ho Hf; [lia|].
  destruct (next_steps O k ai Hk H0) as (w1 & Ho1 & Hat & n & s' & T' & G' & ai' & ow & Hex & O' & K & Hat' & Hcase).
  rewrite Ho in Ho1. injection Ho1 as <-. pose proof (lookup_lt_Some _ _ _ Hk) as Hlt.
  assert (reaches (Sys s' (held σ) (<[k := ai']> (iters σ))) M) as HR'.
  { eapply (reaches_call σ M (Next k)); [done|by exists ai|done]. }
  assert (<[k := ai']> (iters σ) !! k = Some ai') as Hk' by by apply list_lookup_insert_eq.
  assert (<[k := ow]> ows !! k = Some ow) as Ho' by (apply list_lookup_insert_eq; by eapply lookup_lt_Some).
  cbn [drain]. rewrite Hex. cbn [mbind outcome_bind]. destruct Hcase as [(-> & -> & ->)|(Hn & [w' ->] & El)].
  - cbn [Z.eqb]. eexists. split; [done|]. split; [done|]. by exists ai'.
  - rewrite (proj2 (Z.eqb_neq n 0) Hn). rewrite El in Hf. cbn [length] in Hf.
    assert (ai_table ai' ≠ 0) as H0'.
    { destruct Hat' as (t' & Hw' & -> & _). destruct (i_ptr _ _ _ _ (so_inv _ _ _ _ _ _ O') w' t' Hw'). lia. }
    destruct (IH _ M T' G' _ N w' ai' O' HR' Hk' H0' Ho') as (σ2 & Ed & H2).
    { cbn [mem]. rewrite (kp_levels _ _ K). lia. }
    cbn [mem] in Ed. rewrite (kp_levels _ _ K) in Ed. exists σ2. split; [|done]. rewrite Ed. cbn [mbind outcome_bind]. by rewrite El.
Qed.

(** An iterator that is open gives nodes of the table, none twice, and comes
    to its end and is closed, after at most as many calls as there are routes. *)
Theorem art_iter_drains σ M k ai :
  reaches σ M → iters σ !! k = Some ai → ai_table ai ≠ 0 →
  ∃ l σ', drain (S (size M)) k σ = Ret (l, σ') ∧ NoDup l ∧ (∀ n, n ∈ l → ∃ p, M !! p = Some n) ∧
    reaches σ' M ∧ ∃ ai', iters σ' !! k = Some ai' ∧ ai_table ai' = 0.
Proof.
  intros HR Hk H0. destruct (reaches_ok σ M HR) as (T & G & ows & N & O).
  destruct (next_steps O k ai Hk H0) as (w & Ho & Hat & _). pose proof (so_inv _ _ _ _ _ _ O) as I.
  destruct (left_suffix (art_levels (the_art (mem σ))) T ai w (inv_strides I) (i_tree _ _ _ _ I) Hat) as [l0 Hl].
  pose proof (nodes_in_map O) as Hmap. pose proof (nodes_in_NoDup _ (mem σ) T _ G eq_refl I) as Hnd.
  set (l := left_of (art_levels (the_art (mem σ))) T ai (Some w)) in *.
  assert (∀ n, n ∈ l → ∃ p, M !! p = Some n) as Hin.
  { intros n Hn. assert (n ∈ (map_to_list M).*2) as Hm by (rewrite <-Hmap, Hl; apply elem_of_app; by right).
    apply list_elem_of_fmap in Hm as ([p n'] & -> & Hm%elem_of_map_to_list). by exists p. }
  destruct (drain_left (S (size M)) k σ M T G ows N w ai O HR Hk H0 Ho) as (σ' & Ed & H').
  { fold l. apply Permutation_length in Hmap. rewrite Hl, length_app, length_fmap, length_map_to_list in Hmap. lia. }
  exists l, σ'. split_and!; [done| |done|apply H'|apply H']. rewrite Hl in Hnd. by apply NoDup_app in Hnd as (_ & _ & ?).
Qed.

Lemma art_iter_drains_witness :
  ∃ ai l σ', iters demo_sys !! 0%nat = Some ai ∧
    drain (S (size demo_map)) 0 demo_sys = Ret (l, σ') ∧ NoDup l ∧ (∀ n, n ∈ l → ∃ p, demo_map !! p = Some n) ∧
    reaches σ' demo_map ∧ ∃ ai', iters σ' !! 0%nat = Some ai' ∧ ai_table ai' = 0.
Proof.
  destruct (iters demo_sys !! 0%nat) as [ai|] eqn:E; [|vm_compute in E; discriminate].
  exists ai. destruct (art_iter_drains demo_sys demo_map 0 ai) as (l & σ' & H).
  - apply demo_runs.
  - done.
  - vm_compute in E. injection E as <-. discriminate.
  - by exists l, σ'.
Defined.

(** ** The memory *)

(** The heaps that a lookup can get to, each with its level. *)
Inductive heap_at (s : rtable) : Z → Z → Prop :=
  | heap_at_root : art_root (the_art s) ≠ 0 → heap_at s (art_root (the_art s)) 0
  | heap_at_child p l h k :
      heap_at s p l → heaps s !! p = Some h → 2 ≤ k < Z.of_nat (length h) →
      art_heap_entry_is_node (zth h k) = false →
      heap_at s (art_heap_entry_to_heap (zth h k)) (l + 1).

Definition node_or_null (s : rtable) (v : Z) : Prop := v = 0 ∨ ∃ p, node_is s v p.

(** What [heap] is expected to be: as long as its table says, which is the one of
    its level; its default and its entries are nodes or, in the fringe, the heaps
    of children. *)
Record heap_typed (s : rtable) (p l : Z) (h : list Z) (x : art_table) : Prop := {
  ht_level : 0 ≤ l < art_nlevels (the_art s);
  ht_table : tables s !! zth h 0 = Some x;
  ht_heap : at_heap x = p;
  ht_at_level : at_level x = l;
  ht_bits : at_bits x = zth (art_levels (the_art s)) l;
  ht_length : Z.of_nat (length h) = AT_HEAPSIZE (at_bits x);
  ht_minfringe : at_minfringe x = Z.shiftl 1 (at_bits x);
  ht_default : node_or_null s (zth h 1);
  ht_node : ∀ k, 2 ≤ k < Z.of_nat (length h) → art_heap_entry_is_node (zth h k) = true → node_or_null s (zth h k);
  ht_child : ∀ k, 2 ≤ k < Z.of_nat (length h) → art_heap_entry_is_node (zth h k) = false →
    at_minfringe x ≤ k ∧ ∃ h' y, heaps s !! art_heap_entry_to_heap (zth h k) = Some h' ∧
      tables s !! zth h' 0 = Some y ∧ at_parent y = zth h 0 ∧ at_index y = k;
}.

Section typing.
Context {s : rtable} {T : tree} {X : path → Z} {G : list (Z * Z)} (I : inv s T X G).
Abbreviation L := (art_levels (the_art s)).

Lemma index_of w t h k :
  T !! w = Some t → heap_ok L T (vals T) w t h → 2 ≤ k < Z.of_nat (length h) → ∃ r, k = idx r ∧ in_table L w r.
Proof.
  intros Hw [Hl _ _ _] Hk. pose proof (inv_stride I w t Hw) as Hst. destruct (idx_surj k ltac:(lia)) as [r <-].
  exists r. split; [done|]. split; [destruct r; [cbn in Hk; lia|cbn; lia]|].
  rewrite Hl in Hk. assert (2 ^ (stride L w + 1) = 2 ^ Z.of_nat (Z.to_nat (stride L w + 1))) as E by (f_equal; lia).
  rewrite E, idx_lt_length in Hk. lia.
Qed.

Lemma live_heap_at w t : T !! w = Some t → heap_at s (t_heap t) (Z.of_nat (length w)).
Proof.
  revert t. induction w as [|r w IH]; intros t Hw.
  - destruct (root_cases s T X G I) as [[_ H0]|(t' & Ht & E & Hne)]; [congruence|].
    assert (t' = t) as -> by congruence. rewrite <-E. apply heap_at_root. by rewrite E.
  - destruct (tr_up _ _ (i_tree _ _ _ _ I) r w (mk_is_Some _ _ Hw)) as [[t0 Hw0] Hl].
    pose proof (inv_view I) as HV. destruct (vw_heaps _ _ _ _ HV w t0 Hw0) as (h & Hh & Hok).
    pose proof (inv_stride I w t0 Hw0) as Hst. assert (in_table L w r) as Hin by (split; lia).
    destruct (entry_child L T (vals T) s HV w r t Hw) as [E1 E2].
    pose proof (hp_entry _ _ _ _ _ _ Hok r Hin) as E. rewrite <-E in E1, E2. rewrite <-E2.
    replace (Z.of_nat (length (r :: w))) with (Z.of_nat (length w) + 1) by (cbn; lia).
    eapply heap_at_child; [by apply IH|done| |done].
    rewrite (hp_length _ _ _ _ _ _ Hok). eapply idx_small; [done|lia].
Qed.

Lemma heap_at_live p l : heap_at s p l → ∃ w t, T !! w = Some t ∧ t_heap t = p ∧ l = Z.of_nat (length w).
Proof.
  induction 1 as [Hne|p l h k _ (w & t & Hw & <- & ->) Hh Hk He].
  - destruct (root_cases s T X G I) as [[E _]|(t & Ht & E & _)]; [done|]. by exists [], t.
  - pose proof (inv_view I) as HV. destruct (vw_heaps _ _ _ _ HV w t Hw) as (h' & Hh' & Hok).
    assert (h' = h) as -> by congruence. destruct (index_of w t h k Hw Hok Hk) as (r & -> & Hin).
    pose proof (hp_entry _ _ _ _ _ _ Hok r Hin) as E. rewrite E in *. destruct (T !! (r :: w)) as [c|] eqn:Hc.
    + exists (r :: w), c. destruct (entry_child L T (vals T) s HV w r c Hc) as [_ ->]. split_and!; [done|done|cbn; lia].
    + destruct (entry_leaf L T (vals T) s HV w t r Hw Hin Hc) as [E1 E2]. congruence.
Qed.

Lemma vals_node w r : node_or_null s (vals T w r).
Proof.
  unfold vals. destruct (T !! w) as [t|] eqn:Hw; [|by left]. case_decide.
  - destruct (t_routes t !! []) as [n|] eqn:Hn; [|by left]. right.
    destruct (i_routes _ _ _ _ I w t [] n Hw Hn) as (_ & _ & Hx). by eexists.
  - destruct (best_inv (t_routes t) r) as [[-> _]|(p & _ & _ & Hm & _)]; [by left|]. right.
    destruct (i_routes _ _ _ _ I w t p _ Hw Hm) as (_ & _ & Hx). by eexists.
Qed.

Lemma live_typed w t : T !! w = Some t →
  ∃ h x, heaps s !! t_heap t = Some h ∧ heap_typed s (t_heap t) (Z.of_nat (length w)) h x.
Proof.
  intros Hw. pose proof (inv_view I) as HV. destruct (vw_heaps _ _ _ _ HV w t Hw) as (h & Hh & Hok).
  destruct (i_table _ _ _ _ I w t Hw) as (x & Hx & Hx'). pose proof (inv_stride I w t Hw) as Hst.
  exists h, x. split; [done|]. constructor.
  - pose proof (inv_level I w (mk_is_Some _ _ Hw)). rewrite (lv_nlevels _ (i_art _ _ _ _ I)). lia.
  - by rewrite (hp_table _ _ _ _ _ _ Hok).
  - apply (to_heap _ _ _ _ _ _ Hx').
  - apply (to_level _ _ _ _ _ _ Hx').
  - apply (to_bits _ _ _ _ _ _ Hx').
  - rewrite (hp_length _ _ _ _ _ _ Hok), (to_bits _ _ _ _ _ _ Hx'). unfold AT_HEAPSIZE. by rewrite Z.shiftl_1_l.
  - rewrite (to_minfringe _ _ _ _ _ _ Hx'), (to_bits _ _ _ _ _ _ Hx'). by rewrite Z.shiftl_1_l.
  - rewrite (hp_default _ _ _ _ _ _ Hok). destruct w; apply vals_node.
  - intros k Hk He. destruct (index_of w t h k Hw Hok Hk) as (r & -> & Hin). rewrite (hp_entry _ _ _ _ _ _ Hok r Hin) in *.
    unfold entry in *. destruct (T !! (r :: w)) as [c|] eqn:Hc; [|apply vals_node].
    rewrite heap_entry_not_node in He; [done|]. by apply (tr_heap_ptr _ _ (i_tree _ _ _ _ I) (r :: w)).
  - intros k Hk He. destruct (index_of w t h k Hw Hok Hk) as (r & -> & Hin). pose proof (hp_entry _ _ _ _ _ _ Hok r Hin) as E.
    rewrite E in *. destruct (T !! (r :: w)) as [c|] eqn:Hc; [|destruct (entry_leaf L T (vals T) s HV w t r Hw Hin Hc); congruence].
    destruct (entry_child L T (vals T) s HV w r c Hc) as [_ ->].
    pose proof (in_fringe L T (i_tree _ _ _ _ I) w r (mk_is_Some _ _ Hc)) as Hf.
    split; [rewrite (to_minfringe _ _ _ _ _ _ Hx'); lia|].
    destruct (vw_heaps _ _ _ _ HV (r :: w) c Hc) as (h' & Hh' & Hok'). destruct (i_table _ _ _ _ I (r :: w) c Hc) as (y & Hy & Hy').
    exists h', y. rewrite (hp_table _ _ _ _ _ _ Hok'), (hp_table _ _ _ _ _ _ Hok).
    split_and!; [done|done| |apply (to_index _ _ _ _ _ _ Hy')]. rewrite (to_parent _ _ _ _ _ _ Hy'). by rewrite Hw.
Qed.
End typing.

(** C12: Every heap that a lookup can get to is well typed. *)
Theorem art_memory_typed σ M p l :
  reaches σ M → heap_at (mem σ) p l → ∃ h x, heaps (mem σ) !! p = Some h ∧ heap_typed (mem σ) p l h x.
Proof.
  intros HR Hp. destruct (reaches_ok σ M HR) as (T & G & ows & N & O). pose proof (so_inv _ _ _ _ _ _ O) as I.
  destruct (heap_at_live I p l Hp) as (w & t & Hw & <- & ->). by apply (live_typed I).
Qed.

Lemma art_memory_typed_witness :
  ∃ p h x, heap_at (mem demo_sys) p 0 ∧ heaps (mem demo_sys) !! p = Some h ∧ heap_typed (mem demo_sys) p 0 h x.
Proof.
  exists (art_root (the_art (mem demo_sys))).
  assert (heap_at (mem demo_sys) (art_root (the_art (mem demo_sys))) 0) as H by (apply heap_at_root; vm_compute; discriminate).
  destruct (art_memory_typed demo_sys demo_map _ 0 demo_runs H) as (h & x & H').
  exists h, x. by split.
Defined.

(** C25: After the two collectors have run, what is in memory is what is in use:
    the nodes of the clients and of the table, and the tables and heaps that a
    lookup can get to. *)
Theorem art_collected_no_leak σ M :
  reaches σ M →
  ∃ σ1 σ2, exec TableGc σ = Ret (Done, σ1) ∧ exec Gc σ1 = Ret (Done, σ2) ∧
    (∀ n, is_Some (nodes (mem σ2) !! n) ↔ is_Some (held σ2 !! n) ∨ ∃ p, M !! p = Some n) ∧
    (∀ p, is_Some (heaps (mem σ2) !! p) ↔ ∃ l, heap_at (mem σ2) p l) ∧
    (∀ q, is_Some (tables (mem σ2) !! q) ↔
       ∃ p l h, heap_at (mem σ2) p l ∧ heaps (mem σ2) !! p = Some h ∧ zth h 0 = q).
Proof.
  intros HR. destruct (reaches_ok σ M HR) as (T & G & ows & N & O).
  destruct (table_gc_collects O) as (s1 & E1 & _ & O1). destruct (gc_collects O1) as (s2 & E2 & _ & O2).
  eexists _, _. split; [done|]. split; [done|]. cbn [mem held] in *. pose proof (so_inv _ _ _ _ _ _ O2) as I. cbn in I.
  pose proof (i_garbage _ _ _ _ I) as [_ _ _ B4 B5 _ _]. split_and!.
  - intros n. rewrite (no_dom _ _ _ _ (so_nodes _ _ _ _ _ _ O2) n), elem_of_nil. cbn. naive_solver.
  - intros p. rewrite B5. cbn. rewrite elem_of_nil. split.
    + intros [[]|(w & t & Hw & <-)]. eexists. by eapply (live_heap_at I).
    + intros [l Hl]. right. destruct (heap_at_live I p l Hl) as (w & t & Hw & <- & _). by exists w, t.
  - intros q. rewrite B4. cbn. rewrite elem_of_nil. split.
    + intros [[]|(w & t & Hw & <-)]. destruct (vw_heaps _ _ _ _ (inv_view I) w t Hw) as (h & Hh & Hok).
      exists (t_heap t), (Z.of_nat (length w)), h. split; [by apply (live_heap_at I)|]. split; [done|].
      apply (hp_table _ _ _ _ _ _ Hok).
    + intros (p & l & h & Hp & Hh & <-). right. destruct (heap_at_live I p l Hp) as (w & t & Hw & <- & _). exists w, t. split; [done|].
      destruct (vw_heaps _ _ _ _ (inv_view I) w t Hw) as (h' & Hh' & Hok). assert (h' = h) as -> by congruence.
      by rewrite (hp_table _ _ _ _ _ _ Hok).
Qed.

Lemma art_collected_no_leak_witness :
  ∃ σ1 σ2, exec TableGc demo_sys = Ret (Done, σ1) ∧ exec Gc σ1 = Ret (Done, σ2) ∧
    (∀ n, is_Some (nodes (mem σ2) !! n) ↔ is_Some (held σ2 !! n) ∨ ∃ p, demo_map !! p = Some n) ∧
    (∀ p, is_Some (heaps (mem σ2) !! p) ↔ ∃ l, heap_at (mem σ2) p l) ∧
    (∀ q, is_Some (tables (mem σ2) !! q) ↔
       ∃ p l h, heap_at (mem σ2) p l ∧ heaps (mem σ2) !! p = Some h ∧ zth h 0 = q).
Proof. apply art_collected_no_leak, demo_runs. Defined.

(** ** The parts of the code with a definition of their own *)

(** C24: [art_allot] is a recursion.  For every entry above the fringe of every table that
    is in use, the machine of jumps leaves the memory that the recursion through the
    whole subtree leaves which, at a fringe entry where a child hangs, looks at the
    default of the child and else at the entry itself.  The recursion in the comment
    looks at the entry only: it leaves the same memory when no child hangs from the
    table ([allot_comment_differs] has a table with children where it does not). *)
Theorem art_allot_is_recursion σ M p l h x i new :
  reaches σ M → heap_at (mem σ) p l → heaps (mem σ) !! p = Some h → tables (mem σ) !! zth h 0 = Some x →
  2 ≤ i < at_minfringe x → art_heap_entry_is_node new = true →
  ∃ s', art_allot (zth h 0) i (zth h i) new (mem σ) = Ret (tt, s') ∧
    allot_below (visit_code p (zth h i) new) 9 (at_minfringe x) i (mem σ) = Ret (tt, s') ∧
    ((∀ k, at_minfringe x ≤ k < 2 * at_minfringe x → art_heap_entry_is_node (zth h k) = true) →
     allot_below (visit_comment p (zth h i) new) 9 (at_minfringe x) i (mem σ) = Ret (tt, s')).
Proof.
  intros HR Hp Hh Hx Hi Hnew. destruct (reaches_ok σ M HR) as (T & G & ows & N & O). pose proof (so_inv _ _ _ _ _ _ O) as I.
  destruct (heap_at_live I p l Hp) as (w & t & Hw & <- & _). pose proof (inv_view I) as HV.
  destruct (vw_heaps _ _ _ _ HV w t Hw) as (h' & Hh' & Hok). assert (h' = h) as -> by congruence.
  rewrite (hp_table _ _ _ _ _ _ Hok) in *. destruct (i_table _ _ _ _ I w t Hw) as (x' & Hx' & Hxok).
  assert (x' = x) as -> by congruence. rewrite (to_minfringe _ _ _ _ _ _ Hxok) in *.
  pose proof (inv_stride I w t Hw) as Hst. pose proof (vw_tree _ _ _ _ HV) as HT.
  destruct (index_of I w t h i Hw Hok) as (r & -> & Hin).
  { rewrite (hp_length _ _ _ _ _ _ Hok), Z.pow_add_r by lia. lia. }
  assert (Z.of_nat (length r) < stride (art_levels (the_art (mem σ))) w) as Hr.
  { apply (Z.pow_lt_mono_r_iff 2); [lia|lia|]. pose proof (idx_between r). lia. }
  assert (r ≠ []) as Hne by (intros ->; destruct Hin as [Hin _]; cbn in Hin; lia).
  assert (zth h (idx r) = vals T w r) as ->.
  { rewrite (hp_entry _ _ _ _ _ _ Hok r Hin). unfold entry. destruct (T !! (r :: w)) as [c|] eqn:Hc; [|done].
    destruct (tr_up _ _ HT r w (mk_is_Some _ _ Hc)). lia. }
  assert (∀ visit, (∀ r', r `prefix_of` r' → visits (art_levels (the_art (mem σ))) T w (vals T w r) new visit r') →
    ∃ s', art_allot (t_ptr t) (idx r) (vals T w r) new (mem σ) = Ret (tt, s') ∧
      allot_below visit 9 (2 ^ stride (art_levels (the_art (mem σ))) w) (idx r) (mem σ) = Ret (tt, s')) as Hrec.
  { intros visit. apply (allot_is_recursion _ (inv_strides I) T (vals T) (mem σ) w t r x new visit HV Hw Hin Hr Hnew Hx');
      [apply (to_heap _ _ _ _ _ _ Hxok)|apply (to_minfringe _ _ _ _ _ _ Hxok)|by eapply vals_closed]. }
  destruct (Hrec (visit_code (t_heap t) (vals T w r) new)) as (s' & E & Ecode); [intros r' _; by apply (visits_code _ (inv_strides I) T w t)|].
  exists s'. split; [done|]. split; [done|]. intros Hno.
  destruct (Hrec (visit_comment (t_heap t) (vals T w r) new)) as (s2 & E2 & Ecomment).
  - intros r' Hr'. apply (visits_comment _ (inv_strides I) T w t); [done..|]. destruct (T !! (r' :: w)) as [c|] eqn:Hc; [|done]. exfalso.
    destruct (tr_up _ _ HT r' w (mk_is_Some _ _ Hc)) as [_ Hl].
    destruct (entry_child _ T (vals T) (mem σ) HV w r' c Hc) as [Hn _].
    rewrite <-(hp_entry _ _ _ _ _ _ Hok r') in Hn by (split; lia). rewrite Hno in Hn; [done|].
    pose proof (idx_between r') as Hb. rewrite Hl in Hb. rewrite Z.pow_add_r in Hb by lia. lia.
  - rewrite Ecomment. congruence.
Qed.

Lemma art_allot_is_recursion_witness :
  ∃ h x s', heaps (mem demo_sys) !! 48 = Some h ∧ tables (mem demo_sys) !! zth h 0 = Some x ∧
    art_allot (zth h 0) 2 (zth h 2) 16 (mem demo_sys) = Ret (tt, s') ∧
    allot_below (visit_code 48 (zth h 2) 16) 9 (at_minfringe x) 2 (mem demo_sys) = Ret (tt, s').
Proof.
  destruct (heaps (mem demo_sys) !! 48) as [h|] eqn:Eh; [|vm_compute in Eh; discriminate].
  assert (zth h 0 = 32) as E0.
  { assert (zth (default [] (heaps (mem demo_sys) !! 48)) 0 = 32) as E by (vm_compute; reflexivity). by rewrite Eh in E. }
  destruct (tables (mem demo_sys) !! 32) as [x|] eqn:Ex; [|vm_compute in Ex; discriminate].
  assert (at_minfringe x = 256) as Em.
  { assert (at_minfringe <$> tables (mem demo_sys) !! 32 = Some 256) as E by (vm_compute; reflexivity).
    rewrite Ex in E. by injection E. }
  destruct (art_allot_is_recursion demo_sys demo_map 48 0 h x 2 16) as (s' & H1 & H2 & _).
  - apply demo_runs.
  - assert (art_root (the_art (mem demo_sys)) = 48) as Er by (vm_compute; reflexivity).
    rewrite <-Er. apply heap_at_root. by rewrite Er.
  - done.
  - by rewrite E0.
  - by rewrite Em.
  - done.
  - exists h, x, s'. split_and!; [done|by rewrite E0|done|done].
Defined.

(** [art_bindex] is the index of the bits of the address between the offset
    of the table and the prefix length, a 1 and then these bits, wherever they
    lie in the bytes. *)
Theorem art_bindex_spec offset bits addr plen :
  bytes addr → 0 ≤ offset ≤ plen → plen ≤ offset + bits → 0 < bits ≤ 30 →
  bits + offset mod 8 ≤ 32 → offset + bits ≤ 8 * Z.of_nat (length addr) → offset + bits < M32 →
  art_bindex offset bits addr plen =
    Ret (fold_left (λ i b, 2 * i + Z.b2z b) (drop (Z.to_nat offset) (pbits addr plen)) 1).
Proof.
  intros Hb Ho Hp Hbits H32 Hl HM. rewrite art_bindex_rel by done. do 2 f_equal. unfold rel, pbits.
  rewrite skipn_firstn_comm. unfold idx. do 2 f_equal. lia.
Qed.

Lemma art_bindex_spec_witness :
  art_bindex 6 5 [1;2;3] 10 = Ret 20 ∧
  art_bindex 6 5 [1;2;3] 10 =
    Ret (fold_left (λ i b, 2 * i + Z.b2z b) (drop (Z.to_nat 6) (pbits [1;2;3] 10)) 1).
Proof.
  split; [vm_compute; reflexivity|].
  apply (art_bindex_spec 6 5 [1;2;3] 10); try (cbn; lia); [|apply Z.leb_le; vm_compute; reflexivity].
  byte_list.
Defined.

(** [art_node_check], word by word, byte by byte and then the last bits, is
    equality of the prefixes. *)
Theorem art_node_check_spec s n p addr plen x :
  node_is s n p → nodes s !! n = Some x → bytes addr → 0 ≤ plen → plen ≤ 8 * Z.of_nat (length addr) → plen ≤ 128 →
  art_node_check x addr plen = Ret (bool_decide (p = pbits addr plen)).
Proof.
  intros (x' & A & Hx' & HA & HbA & HlA & Hpl & Hp & Hp128) Hx Hb H0 Hl H128. assert (x' = x) as -> by congruence.
  rewrite (art_node_check_pbits A addr HbA Hb x plen HA).
  - f_equal. apply bool_decide_ext. split.
    + intros [<- E]. by rewrite <-Hp, E.
    + intros E. assert (an_plen x = plen) as Epl.
      { rewrite Hpl, E. unfold pbits. rewrite length_take, length_abits. lia. }
      split; [done|]. by rewrite <-E, <-Hp, Epl.
  - unfold fits. rewrite HlA. lia.
Qed.

Lemma art_node_check_spec_witness :
  ∃ x, nodes (mem demo_sys) !! 64 = Some x ∧
    art_node_check x [10;1;2;77] 24 = Ret (bool_decide (pbits [10;1;2;0] 24 = pbits [10;1;2;77] 24)).
Proof.
  destruct (nodes (mem demo_sys) !! 64) as [x|] eqn:E; [|vm_compute in E; discriminate]. exists x. split; [done|].
  apply (art_node_check_spec (mem demo_sys) 64 _ _ _ x); [|done|byte_list|lia|cbn; lia|lia].
  vm_compute in E. injection E as <-. eexists _, _. split; [vm_compute; reflexivity|]. split; [reflexivity|].
  split_and!; [byte_list|done|vm_compute; reflexivity|vm_compute; reflexivity|vm_compute; lia].
Defined.

(** ** Where the code does less *)

Definition short_sys : sys := Eval vm_compute in state_of (demo_state [Get [0;0;0;0] 1; Insert 16] some_addresses).
Definition short_map : rmap := Eval vm_compute in map_of (demo_state [Get [0;0;0;0] 1; Insert 16] some_addresses).
(** Memory for the node and for one table. *)
Definition poor_sys : sys := Eval vm_compute in state_of (demo_state [Get [10;1;2;0] 24] [16; 32; 48; 64]).

(** One route below the root table, so that a child hangs from it. *)
Definition child_sys : sys := Eval vm_compute in state_of (demo_state [Get [10;1;2;0] 24; Insert 16] some_addresses).
Definition child_map : rmap := Eval vm_compute in map_of (demo_state [Get [10;1;2;0] 24; Insert 16] some_addresses).

(** The default of that child after the entry 2 of the root has been gone through. *)
Definition child_default (visit : Z → AM ()) : AM Z :=
  allot_below visit 9 256 2;;
  e ← SMR_PTR_GET (art_root (the_art (mem child_sys))) 266;
  SMR_PTR_GET (art_heap_entry_to_heap e) ART_HEAP_IDX_DEFAULT.

(** The recursion in the comment above [art_allot], taken by its word, does not give the
    new node to the default of a child; the code does. *)
Theorem allot_comment_differs :
  let root := art_root (the_art (mem child_sys)) in
  reaches child_sys child_map ∧
  result (child_default (visit_code root 0 64) (mem child_sys)) = Ret 64 ∧
  result (child_default (visit_comment root 0 64) (mem child_sys)) = Ret 0.
Proof.
  split; [apply (demo_reaches [Get [10;1;2;0] 24; Insert 16] some_addresses)|]; vm_compute; auto.
Qed.

(** [art_delete] does not look whether the node it takes out is the one of
    the prefix: asked for a prefix that is not there, it can take the references
    of a shorter one, which no lookup then finds.  An insertion that finds no
    memory leaves the tables it had got: the routing table, which was empty, is
    not empty then, without a route. *)
Theorem art_amiss :
  (∃ σ M, reaches σ M ∧ M !! pbits [0;0;0;0] 8 = None ∧ result (art_lookup [0;0;0;0] 1 (mem σ)) = Ret 16 ∧
     result ((n ← art_delete [0;0;0;0] 8; m ← art_lookup [0;0;0;0] 1; mret (n, m)) (mem σ)) = Ret (16, 0)) ∧
  (reaches poor_sys ∅ ∧ result (art_is_empty (mem poor_sys)) = Ret true ∧
   match exec (Insert 16) poor_sys with
   | Ret (a, σ) => a = Node 0 ∧ result (art_is_empty (mem σ)) = Ret false
   | Fault _ => False
   end).
Proof.
  split.
  - exists short_sys, short_map. split; [apply (demo_reaches [Get [0;0;0;0] 1; Insert 16] some_addresses)|]; vm_compute; auto.
  - split; [apply (demo_reaches [Get [10;1;2;0] 24] [16; 32; 48; 64])|]; vm_compute; auto.
Qed.
