(* ===== verification/WgAip.v ===== *)
(** The allowed IPs of sys/net/if_wg.c: [wg_aip_add], [wg_aip_lookup],
    [wg_aip_remove] and the loop that drops those of a peer.  A client of the
    routing table of [Art]: the tables sc_aip4 and sc_aip6 have a node for each
    prefix, in a [struct wg_aip] that says which peer the prefix belongs to and
    is on the list of that peer. *)

From stdpp Require Import functions.
From S2P Require Import Prelude StateMonad Art ArtTable ArtMem ArtInv ArtOps ArtSystem ArtProps.

(** ** State *)

Definition AF_INET : Z := 2.
Definition AF_INET6 : Z := 24.
Definition ENOENT : Z := 2.
Definition EXDEV : Z := 18.
Definition EINVAL : Z := 22.
Definition EAFNOSUPPORT : Z := 47.
Definition ENOBUFS : Z := 55.

(** [a_addr] is the union of the addresses, sixteen bytes. *)
Record wg_aip_io : Type := WgAipIo {
  a_af : Z;
  a_cidr : Z;
  a_addr : list Z;
}.

(** [a_node] is in the memory of the routing table. *)
Record wg_aip : Type := WgAip {
  a_peer : Z;
  a_data : wg_aip_io;
}.

(** A [struct wg_aip] is named by the family of its table and the address of its
    node there; [p_aip] has the list of each peer. *)
Abbreviation aip_ptr := (Z * Z)%type.

Record wg_softc : Type := WgSoftc {
  sc_aip4 : rtable;
  sc_aip6 : rtable;
  sc_aip_num : Z;
  aips : gmap aip_ptr wg_aip;
  p_aip : gmap Z (list aip_ptr);
}.

(** The switch on [a_af]. *)
Definition root (sc : wg_softc) (af : Z) : option rtable :=
  if af =? AF_INET then Some (sc_aip4 sc) else if af =? AF_INET6 then Some (sc_aip6 sc) else None.
Definition set_root (af : Z) (s : rtable) (sc : wg_softc) : wg_softc :=
  if af =? AF_INET then WgSoftc s (sc_aip6 sc) (sc_aip_num sc) (aips sc) (p_aip sc)
  else WgSoftc (sc_aip4 sc) s (sc_aip_num sc) (aips sc) (p_aip sc).
Definition set_num (n : Z) (sc : wg_softc) : wg_softc :=
  WgSoftc (sc_aip4 sc) (sc_aip6 sc) n (aips sc) (p_aip sc).
Definition set_aips (m : gmap aip_ptr wg_aip) (sc : wg_softc) : wg_softc :=
  WgSoftc (sc_aip4 sc) (sc_aip6 sc) (sc_aip_num sc) m (p_aip sc).

Definition peer_list (sc : wg_softc) (peer : Z) : list aip_ptr := default [] (p_aip sc !! peer).
Definition set_peer_list (peer : Z) (l : list aip_ptr) (sc : wg_softc) : wg_softc :=
  WgSoftc (sc_aip4 sc) (sc_aip6 sc) (sc_aip_num sc) (aips sc) (<[peer := l]> (p_aip sc)).

Definition LIST_INSERT_HEAD (peer : Z) (k : aip_ptr) (sc : wg_softc) : wg_softc :=
  set_peer_list peer (k :: peer_list sc peer) sc.
(** [LIST_REMOVE] of an element of the list of [peer]: the code need not know the
    list, which is the one of the peer that [a_peer] names. *)
Definition LIST_REMOVE (peer : Z) (k : aip_ptr) (sc : wg_softc) : wg_softc :=
  set_peer_list peer (filter (λ k', k' ≠ k) (peer_list sc peer)) sc.
Fixpoint LIST_NEXT (k : aip_ptr) (l : list aip_ptr) : option aip_ptr :=
  match l with
  | [] => None
  | k' :: l => if decide (k' = k) then head l else LIST_NEXT k l
  end.

(** ** The operations *)

(** [sc_aip_lock] is held for writing around the change.  [a_cidr] is an int that
    is compared with, and passed as, an unsigned int. *)
Definition wg_aip_add (peer : Z) (d : wg_aip_io) (sc : wg_softc) : outcome (Z * wg_softc) :=
  let af := a_af d in
  match root sc af with
  | None => Ret (EAFNOSUPPORT, sc)
  | Some s =>
      if art_alen (the_art s) <? u32 (a_cidr d) then Ret (EINVAL, sc)
      else
        '(aip, s) ← an_pool_get s;
        if aip =? 0 then Ret (ENOBUFS, set_root af s sc)
        else
          '(_, s) ← art_node_init aip (a_addr d) (u32 (a_cidr d)) s;
          '(node, s) ← art_insert aip s;
          if node =? aip then
            let sc := set_root af s sc in
            let sc := set_aips (<[(af, aip) := WgAip peer d]> (aips sc)) sc in
            let sc := LIST_INSERT_HEAD peer (af, aip) sc in
            Ret (0, set_num (u64 (sc_aip_num sc + 1)) sc)
          else
            '(_, s) ← an_pool_put aip s;
            let sc := set_root af s sc in
            if node =? 0 then Fault NullDeref
            else
              aip ← deref (aips sc !! (af, node));
              if negb (a_peer aip =? peer) then
                let sc := LIST_REMOVE (a_peer aip) (af, node) sc in
                let sc := LIST_INSERT_HEAD peer (af, node) sc in
                Ret (0, set_aips (<[(af, node) := WgAip peer (a_data aip)]> (aips sc)) sc)
              else Ret (0, sc)
  end.

Definition wg_aip_lookup (af : Z) (addr : list Z) (sc : wg_softc) : outcome Z :=
  s ← deref (root sc af);
  '(node, _) ← art_match addr s;
  if node =? 0 then Ret 0
  else
    aip ← deref (aips sc !! (af, node));
    Ret (a_peer aip).

Definition wg_aip_remove (peer : Z) (d : wg_aip_io) (sc : wg_softc) : outcome (Z * wg_softc) :=
  let af := a_af d in
  match root sc af with
  | None => Ret (EAFNOSUPPORT, sc)
  | Some s =>
      '(node, s) ← art_lookup (a_addr d) (u32 (a_cidr d)) s;
      let sc := set_root af s sc in
      if node =? 0 then Ret (ENOENT, sc)
      else
        aip ← deref (aips sc !! (af, node));
        if negb (a_peer aip =? peer) then Ret (EXDEV, sc)
        else
          '(r, s) ← art_delete (a_addr d) (u32 (a_cidr d)) s;
          kassert "art_delete failed" (negb (r =? 0));;
          let sc := set_num (u64 (sc_aip_num sc - 1)) sc in
          let sc := LIST_REMOVE peer (af, node) sc in
          '(_, s) ← an_pool_put node s;
          Ret (0, set_aips (delete (af, node) (aips sc)) (set_root af s sc))
  end.

(** [LIST_FOREACH_SAFE(aip, &peer->p_aip, a_entry, taip)
    wg_aip_remove(sc, peer, &aip->a_data)], from [aip]. *)
Fixpoint drop_aips (fuel : nat) (peer : Z) (aip : option aip_ptr) (sc : wg_softc) : outcome wg_softc :=
  match aip, fuel with
  | None, _ => Ret sc
  | Some _, O => Fault OutOfFuel
  | Some k, S fuel =>
      x ← deref (aips sc !! k);
      let taip := LIST_NEXT k (peer_list sc peer) in
      '(_, sc) ← wg_aip_remove peer (a_data x) sc;
      drop_aips fuel peer taip sc
  end.
Definition wg_peer_drop_aips (peer : Z) (sc : wg_softc) : outcome wg_softc :=
  drop_aips (length (peer_list sc peer)) peer (head (peer_list sc peer)) sc.

(** The tables of a new interface, as [wg_clone_create] allocates them, or ENOBUFS;
    [m4] and [m6] are whether malloc finds memory, [l4] and [l6] what the pools
    will give. *)
Definition wg_create (m4 m6 : bool) (l4 l6 : list Z) : outcome (option wg_softc) :=
  a4 ← art_alloc m4 32;
  match a4 with
  | None => Ret None
  | Some a4 =>
      a6 ← art_alloc m6 128;
      match a6 with
      | None => Ret None
      | Some a6 => Ret (Some (WgSoftc (mem (start a4 l4 0)) (mem (start a6 l6 0)) 0 ∅ ∅))
      end
  end.

(** ** The routing table underneath *)

(** A table of the interface in a state that its calls can bring about: [M] are its
    prefixes, [H] the node that a call has in hand. *)
Definition table_at (s : rtable) (H : gmap Z (list bool)) (M : rmap) : Prop :=
  reaches (Sys s H []) M.

(** What the caller passes for an address. *)
Definition fits (len : Z) (addr : list Z) (plen : Z) : Prop :=
  bytes addr ∧ length addr = 16%nat ∧ 0 ≤ plen ≤ len.

Section table.
Context {s : rtable} {M : rmap}.

Lemma table_prefix_ok {H addr plen} :
  table_at s H M → fits (art_alen (the_art s)) addr plen → prefix_ok (Sys s H []) addr plen.
Proof.
  intros HT (Hb & Hl & Hp). destruct (reaches_ok _ _ HT) as (T & G & ows & N & O).
  pose proof (alen_128 O) as Ha. unfold alen in Ha.
  unfold prefix_ok, alen. cbn [mem] in *. split; [done|]. lia.
Qed.

Lemma table_ptr {H p n} : table_at s H M → M !! p = Some n → n ≠ 0.
Proof.
  intros HT Hp. destruct (reaches_ok _ _ HT) as (T & G & ows & N & O).
  destruct (in_map_ptr O p n Hp) as [[? _] _]. lia.
Qed.

(** The node, from the pool and initialised: together they are [art_get]. *)
Lemma table_get addr plen :
  table_at s ∅ M → fits (art_alen (the_art s)) addr plen →
  (∃ s1, an_pool_get s = Ret (0, s1) ∧ table_at s1 ∅ M ∧ art_alen (the_art s1) = art_alen (the_art s)) ∨
  (∃ n s1 s2, an_pool_get s = Ret (n, s1) ∧ n ≠ 0 ∧ art_node_init n addr plen s1 = Ret (tt, s2) ∧
     table_at s2 {[n := pbits addr plen]} M ∧ (∀ p, M !! p ≠ Some n) ∧
     art_alen (the_art s2) = art_alen (the_art s)).
Proof.
  intros HT Hf. pose proof (table_prefix_ok HT Hf) as Hp.
  destruct (step_ok _ _ (Get addr plen) HT Hp) as (a & σ' & Hex & Hans & HR & Hal).
  destruct a as [n| |]; try done. unfold alen in Hal. cbn [exec mem held iters answers] in *.
  unfold art_get, mbind at 2, ST_bind in Hex.
  destruct (an_pool_get s) as [[m s1]|] eqn:Eg; [|done].
  destruct (Z.eqb_spec m 0) as [->|Hm].
  - cbn in Hex. injection Hex as <- <-. left. by exists s1.
  - right. unfold mbind at 2 in Hex. unfold ST_bind in Hex.
    destruct (art_node_init m addr plen s1) as [[[] s2]|] eqn:Ei; [|done]. cbn in Hex.
    injection Hex as <- <-. rewrite (proj2 (Z.eqb_neq m 0) Hm) in HR.
    exists m, s1, s2. split_and!; try done. by destruct Hans as [?|[_ ?]].
Qed.

Lemma table_insert n p :
  table_at s {[n := p]} M → n ≠ 0 → (∀ q, M !! q ≠ Some n) →
  ∃ r s', art_insert n s = Ret (r, s') ∧ art_alen (the_art s') = art_alen (the_art s) ∧
    match M !! p with
    | Some k => r = k ∧ k ≠ n ∧ table_at s' {[n := p]} M
    | None => (r = n ∧ table_at s' ∅ (<[p := n]> M)) ∨ (r = 0 ∧ table_at s' {[n := p]} M)
    end.
Proof.
  intros HT Hn0 Hn. assert (permitted (Insert n) (Sys s {[n := p]} [])) as Hp.
  { exists p. cbn. apply lookup_singleton_eq. }
  destruct (step_ok _ _ (Insert n) HT Hp) as (a & σ' & Hex & Hans & HR & Hal).
  destruct a as [r| |]; try done. unfold alen in Hal. cbn [exec mem held iters] in *.
  destruct (art_insert n s) as [[r' s']|] eqn:Ei; [|done]. cbn in Hex. injection Hex as <- <-.
  exists r', s'. split; [done|]. split; [done|]. destruct Hans as (q & Hq & Hans).
  rewrite lookup_singleton_eq in Hq. injection Hq as <-. cbn [effect held] in HR.
  rewrite lookup_singleton_eq, delete_singleton_eq in HR.
  destruct (M !! p) as [k|] eqn:Ek.
  - subst r'. assert (k ≠ n) as Hne by (intros ->; by apply (Hn p)).
    by rewrite (proj2 (Z.eqb_neq k n) Hne) in HR.
  - destruct Hans as [->| ->].
    + left. rewrite Z.eqb_refl in HR. done.
    + right. rewrite (proj2 (Z.eqb_neq 0 n)) in HR by done. done.
Qed.

Lemma table_drop n p :
  table_at s {[n := p]} M →
  ∃ s', an_pool_put n s = Ret (tt, s') ∧ table_at s' ∅ M ∧ art_alen (the_art s') = art_alen (the_art s).
Proof.
  intros HT. assert (permitted (Drop n) (Sys s {[n := p]} [])) as Hp.
  { exists p. cbn. apply lookup_singleton_eq. }
  destruct (step_ok _ _ (Drop n) HT Hp) as (a & σ' & Hex & Hans & HR & Hal).
  unfold alen in Hal. cbn [exec mem held iters] in *.
  destruct (an_pool_put n s) as [[[] s']|] eqn:Ei; [|done]. cbn in Hex. injection Hex as <- <-.
  exists s'. rewrite delete_singleton_eq in HR. done.
Qed.

Lemma table_lookup addr plen :
  table_at s ∅ M → fits (art_alen (the_art s)) addr plen →
  art_lookup addr plen s = Ret (default 0 (M !! pbits addr plen), s).
Proof. intros HT Hf. exact (lookup_map _ _ _ _ HT (table_prefix_ok HT Hf)). Qed.

Lemma table_delete addr plen n :
  table_at s ∅ M → fits (art_alen (the_art s)) addr plen → M !! pbits addr plen = Some n →
  ∃ s', art_delete addr plen s = Ret (n, s') ∧ table_at s' {[n := pbits addr plen]} (delete (pbits addr plen) M) ∧
    art_alen (the_art s') = art_alen (the_art s).
Proof.
  intros HT Hf Hm. pose proof (table_prefix_ok HT Hf) as Hp. pose proof (table_ptr HT Hm) as Hn.
  destruct (step_ok _ _ (Delete addr plen) HT Hp) as (a & σ' & Hex & Hans & HR & Hal).
  unfold alen in Hal. cbn [exec mem held iters] in *. rewrite (table_lookup _ _ HT Hf), Hm in Hex. cbn in Hex.
  rewrite (proj2 (Z.eqb_neq n 0) Hn) in Hex.
  destruct (art_delete addr plen s) as [[r s']|] eqn:Ed; [|done]. cbn in Hex.
  destruct (Z.eqb_spec r n) as [->|]; [|done]. cbn in Hex. injection Hex as <- <-.
  cbn [effect] in HR. rewrite (proj2 (Z.eqb_neq n 0) Hn) in HR. by exists s'.
Qed.

Lemma table_match addr :
  table_at s ∅ M → fits (art_alen (the_art s)) addr 0 →
  ∃ n, art_match addr s = Ret (n, s) ∧ longest_in M (abits addr) n.
Proof. intros HT Hf. exact (match_map _ _ _ HT (table_prefix_ok HT Hf)). Qed.
End table.

(** ** What the interface promises *)

(** The allowed IPs as a map from prefixes, by family, to peers. *)
Abbreviation ipmap := (gmap (Z * list bool) Z).

Definition alen_of (af : Z) : Z := if af =? AF_INET then 32 else 128.
Definition data_bits (d : wg_aip_io) : list bool := pbits (a_addr d) (a_cidr d).

Record wg_rep (sc : wg_softc) (ips : ipmap) (M : Z → rmap) : Prop := {
  wr_table af s : root sc af = Some s → table_at s ∅ (M af) ∧ art_alen (the_art s) = alen_of af;
  wr_none af : root sc af = None → M af = ∅;
  wr_node af p n : M af !! p = Some n → ∃ x, aips sc !! (af, n) = Some x ∧
    ips !! (af, p) = Some (a_peer x) ∧ a_af (a_data x) = af ∧
    fits (alen_of af) (a_addr (a_data x)) (a_cidr (a_data x)) ∧ data_bits (a_data x) = p;
  wr_aip af n : is_Some (aips sc !! (af, n)) → ∃ p, M af !! p = Some n;
  wr_ip af p : is_Some (ips !! (af, p)) → is_Some (M af !! p);
  wr_nodup peer : NoDup (peer_list sc peer);
  wr_list peer k : k ∈ peer_list sc peer ↔ a_peer <$> aips sc !! k = Some peer;
  wr_num : sc_aip_num sc = u64 (Z.of_nat (size ips));
}.

(** An interface in a state that its calls bring about. *)
Definition wg_ok (sc : wg_softc) (ips : ipmap) : Prop := ∃ M, wg_rep sc ips M.

(** *** Changes of the state *)

Lemma root_af sc af s : root sc af = Some s → af = AF_INET ∨ af = AF_INET6.
Proof. unfold root. destruct (Z.eqb_spec af AF_INET), (Z.eqb_spec af AF_INET6); auto. done. Qed.

Lemma root_set sc af s s' af' :
  root sc af = Some s → root (set_root af s' sc) af' = if decide (af' = af) then Some s' else root sc af'.
Proof.
  intros Hr. destruct (root_af _ _ _ Hr) as [-> | ->]; unfold root, set_root; cbn;
    case_decide as E; subst; try done;
    destruct (Z.eqb_spec af' AF_INET), (Z.eqb_spec af' AF_INET6); subst; done.
Qed.

Lemma peer_list_set sc peer l q :
  peer_list (set_peer_list peer l sc) q = if decide (q = peer) then l else peer_list sc q.
Proof.
  unfold peer_list, set_peer_list. cbn. case_decide as E.
  - subst. by rewrite lookup_insert_eq.
  - by rewrite lookup_insert_ne.
Qed.

Lemma data_fits d af :
  -2147483648 ≤ a_cidr d < 2147483648 → bytes (a_addr d) → length (a_addr d) = 16%nat →
  u32 (a_cidr d) ≤ alen_of af → u32 (a_cidr d) = a_cidr d ∧ fits (alen_of af) (a_addr d) (a_cidr d).
Proof.
  intros Hi Hb Hl Hc. assert (0 ≤ a_cidr d) as H0.
  { unfold u32, alen_of in *. destruct (Z.leb_spec 0 (a_cidr d)); [done|]. exfalso.
    assert (a_cidr d mod M32 = a_cidr d + M32) as E by (symmetry; apply (Z.mod_unique _ _ (-1)); lia).
    rewrite E in Hc. destruct (af =? AF_INET); lia. }
  rewrite u32_small in * by (unfold is_u32; lia). done.
Qed.

Section changes.
Context {sc : wg_softc} {ips : ipmap} {M : Z → rmap} (R : wg_rep sc ips M).

Lemma node_prefix af p q n : M af !! p = Some n → M af !! q = Some n → p = q.
Proof.
  intros Hp Hq. destruct (wr_node _ _ _ R _ _ _ Hp) as (x & Hx & _ & _ & _ & <-).
  destruct (wr_node _ _ _ R _ _ _ Hq) as (y & Hy & _ & _ & _ & <-). by simplify_eq.
Qed.

Lemma ip_none af p : ips !! (af, p) = None ↔ M af !! p = None.
Proof.
  split; intros H.
  - destruct (M af !! p) as [n|] eqn:E; [|done].
    destruct (wr_node _ _ _ R _ _ _ E) as (x & _ & Hx & _). congruence.
  - destruct (ips !! (af, p)) as [q|] eqn:E; [|done].
    destruct (wr_ip _ _ _ R af p (mk_is_Some _ _ E)). congruence.
Qed.

(** A table changes, and not its prefixes. *)
Lemma rep_root af s s' :
  root sc af = Some s → table_at s' ∅ (M af) → art_alen (the_art s') = alen_of af →
  wg_rep (set_root af s' sc) ips M.
Proof.
  intros Hr HT Ha. assert (∀ peer, peer_list (set_root af s' sc) peer = peer_list sc peer) as Hpl.
  { intros peer. unfold set_root, peer_list. by destruct (af =? AF_INET). }
  assert (aips (set_root af s' sc) = aips sc) as Hai by (unfold set_root; by destruct (af =? AF_INET)).
  destruct R. split; rewrite ?Hai; try done.
  - intros af' s1 Hs1. rewrite (root_set _ _ _ _ _ Hr) in Hs1. case_decide; [|by apply wr_table0].
    subst. by injection Hs1 as <-.
  - intros af' Hs1. rewrite (root_set _ _ _ _ _ Hr) in Hs1. case_decide; [done|by apply wr_none0].
  - intros peer. by rewrite Hpl.
  - intros peer k. by rewrite Hpl.
  - unfold set_root. by destruct (af =? AF_INET).
Qed.

(** A new prefix, at the head of the list of its peer. *)
Lemma rep_new af s s' p n peer d :
  root sc af = Some s → table_at s' ∅ (<[p := n]> (M af)) → art_alen (the_art s') = alen_of af →
  M af !! p = None → (∀ q, M af !! q ≠ Some n) →
  a_af d = af → fits (alen_of af) (a_addr d) (a_cidr d) → data_bits d = p →
  let sc := set_root af s' sc in
  let sc := set_aips (<[(af, n) := WgAip peer d]> (aips sc)) sc in
  let sc := LIST_INSERT_HEAD peer (af, n) sc in
  wg_rep (set_num (u64 (sc_aip_num sc + 1)) sc) (<[(af, p) := peer]> ips) (<[af := <[p := n]> (M af)]> M).
Proof.
  intros Hr HT Ha Hno Hn Haf Hfit Hd sc1 sc2 sc3.
  assert (aips sc !! (af, n) = None) as Hnone.
  { apply eq_None_not_Some. intros Hx. destruct (wr_aip _ _ _ R _ _ Hx) as [q Hq]. by apply (Hn q). }
  assert (aips sc1 = aips sc) as Hai by (subst sc1; unfold set_root; by destruct (af =? AF_INET)).
  assert (∀ q, peer_list sc2 q = peer_list sc q) as Hpl.
  { intros q. subst sc1 sc2. unfold set_root, peer_list. by destruct (af =? AF_INET). }
  assert (∀ af', root (set_num (u64 (sc_aip_num sc3 + 1)) sc3) af' = root sc1 af') as Hroot by done.
  assert (aips (set_num (u64 (sc_aip_num sc3 + 1)) sc3) = <[(af, n) := WgAip peer d]> (aips sc)) as Hai3
    by (cbn; by rewrite Hai).
  assert (∀ q, peer_list (set_num (u64 (sc_aip_num sc3 + 1)) sc3) q =
    if decide (q = peer) then (af, n) :: peer_list sc peer else peer_list sc q) as Hpl3.
  { intros q. change (peer_list sc3 q = if decide (q = peer) then (af, n) :: peer_list sc peer else peer_list sc q).
    subst sc3. unfold LIST_INSERT_HEAD. rewrite peer_list_set, !Hpl. done. }
  destruct R. split; rewrite ?Hai3.
  - intros af' s1 Hs1. rewrite Hroot in Hs1. subst sc1. rewrite (root_set _ _ _ _ _ Hr) in Hs1.
    case_decide; subst.
    + injection Hs1 as <-. rewrite fn_lookup_insert. done.
    + rewrite fn_lookup_insert_ne by done. by apply wr_table0.
  - intros af' Hs1. rewrite Hroot in Hs1. subst sc1. rewrite (root_set _ _ _ _ _ Hr) in Hs1.
    case_decide; [done|]. rewrite fn_lookup_insert_ne by done. by apply wr_none0.
  - intros af' q m Hm. destruct (decide (af' = af)) as [->|Hne].
    + rewrite fn_lookup_insert in Hm. apply lookup_insert_Some in Hm as [[<- <-]|[Hne Hm]].
      * exists (WgAip peer d). rewrite !lookup_insert_eq. done.
      * destruct (wr_node0 _ _ _ Hm) as (x & Hx & Hrest). exists x.
        rewrite !lookup_insert_ne; [done| |]; intros [=]; [done|]. subst m. by apply (Hn q).
    + rewrite fn_lookup_insert_ne in Hm by done. destruct (wr_node0 _ _ _ Hm) as (x & Hx & Hrest).
      exists x. rewrite !lookup_insert_ne by (intros [=]; done). done.
  - intros af' m Hm. destruct (decide (af' = af)) as [->|Hne].
    + rewrite fn_lookup_insert. destruct (decide (m = n)) as [->|Hmn]; [exists p; apply lookup_insert_eq|].
      rewrite lookup_insert_ne in Hm by (intros [=]; done). destruct (wr_aip0 _ _ Hm) as [q Hq].
      exists q. rewrite lookup_insert_ne; [done|]. intros ->. congruence.
    + rewrite fn_lookup_insert_ne by done. rewrite lookup_insert_ne in Hm by (intros [=]; done). by apply wr_aip0.
  - intros af' q Hq. destruct (decide (af' = af)) as [->|Hne].
    + rewrite fn_lookup_insert. apply lookup_insert_is_Some. destruct (decide (p = q)); [by left|right].
      split; [done|]. rewrite lookup_insert_ne in Hq by (intros [=]; done). by apply wr_ip0.
    + rewrite fn_lookup_insert_ne by done. rewrite lookup_insert_ne in Hq by (intros [=]; done). by apply wr_ip0.
  - intros q. rewrite Hpl3. case_decide; [|done]. constructor; [|done]. rewrite wr_list0, Hnone. done.
  - intros q k. rewrite Hpl3. destruct (decide (k = (af, n))) as [->|Hk].
    + rewrite lookup_insert_eq. case_decide; subst; cbn.
      * split; [done|]. intros _. apply elem_of_cons. by left.
      * rewrite wr_list0, Hnone. naive_solver.
    + rewrite lookup_insert_ne by done. case_decide; subst; [|by apply wr_list0].
      rewrite elem_of_cons, wr_list0. naive_solver.
  - assert (sc_aip_num sc3 = sc_aip_num sc) as Hnum by (subst sc1; cbn; unfold set_root; by destruct (af =? AF_INET)).
    cbn [sc_aip_num set_num]. rewrite Hnum, wr_num0.
    rewrite map_size_insert_None by (by apply ip_none). rewrite Nat2Z.inj_succ. unfold u64.
    by rewrite Z.add_mod_idemp_l by done.
Qed.

(** A prefix that is there already moves to another peer. *)
Lemma rep_move af p n x peer :
  M af !! p = Some n → aips sc !! (af, n) = Some x → a_peer x ≠ peer →
  let sc := LIST_REMOVE (a_peer x) (af, n) sc in
  let sc := LIST_INSERT_HEAD peer (af, n) sc in
  wg_rep (set_aips (<[(af, n) := WgAip peer (a_data x)]> (aips sc)) sc) (<[(af, p) := peer]> ips) M.
Proof.
  intros Hm Hx Hne sc1 sc2. set (sc3 := set_aips _ sc2).
  assert (∀ q, peer_list sc3 q =
    if decide (q = peer) then (af, n) :: peer_list sc peer
    else if decide (q = a_peer x) then filter (λ k, k ≠ (af, n)) (peer_list sc (a_peer x))
    else peer_list sc q) as Hpl.
  { intros q. change (peer_list sc3 q) with (peer_list sc2 q). subst sc2 sc1.
    unfold LIST_INSERT_HEAD, LIST_REMOVE. rewrite !peer_list_set. repeat case_decide; congruence. }
  assert (aips sc3 = <[(af, n) := WgAip peer (a_data x)]> (aips sc)) as Hai by done.
  assert (∀ af', root sc3 af' = root sc af') as Hroot by done.
  destruct (wr_node _ _ _ R _ _ _ Hm) as (x' & Hx' & Hip & Hrest).
  assert (x' = x) as -> by congruence. clear Hx'.
  pose proof node_prefix as Hinj. destruct R. split; rewrite ?Hai; try done.
  - intros af' q m Hq. destruct (decide ((af', q) = (af, p))) as [[= -> ->]|Hpq].
    + assert (m = n) as -> by congruence. exists (WgAip peer (a_data x)). rewrite !lookup_insert_eq. done.
    + destruct (wr_node0 _ _ _ Hq) as (y & Hy & Hrest'). exists y.
      rewrite !lookup_insert_ne; [done|by intros [= -> ->]|]. intros [= -> ->]. apply Hpq. f_equal. by eapply Hinj.
  - intros af' m Hs. destruct (decide ((af', m) = (af, n))) as [[= -> ->]|Hk]; [by exists p|].
    rewrite lookup_insert_ne in Hs by done. by apply wr_aip0.
  - intros af' q Hs. destruct (decide ((af', q) = (af, p))) as [[= -> ->]|Hk]; [by eexists|].
    rewrite lookup_insert_ne in Hs by done. by apply wr_ip0.
  - intros q. rewrite Hpl. repeat case_decide; subst; [|by apply NoDup_filter|done].
    constructor; [|done]. rewrite wr_list0, Hx. cbn. congruence.
  - intros q k. rewrite Hpl. destruct (decide (k = (af, n))) as [->|Hk].
    + rewrite lookup_insert_eq. cbn. repeat case_decide; subst.
      * rewrite elem_of_cons. naive_solver.
      * rewrite list_elem_of_filter. naive_solver.
      * rewrite wr_list0, Hx. cbn. naive_solver.
    + rewrite lookup_insert_ne by done. repeat case_decide; subst.
      * rewrite elem_of_cons, wr_list0. naive_solver.
      * rewrite list_elem_of_filter, wr_list0. naive_solver.
      * apply wr_list0.
  - change (sc_aip_num sc3) with (sc_aip_num sc). rewrite wr_num0.
    by rewrite map_size_insert_Some by (by eexists).
Qed.

(** A prefix is removed. *)
Lemma rep_remove af s s' p n x :
  root sc af = Some s → table_at s' ∅ (delete p (M af)) → art_alen (the_art s') = alen_of af →
  M af !! p = Some n → aips sc !! (af, n) = Some x →
  let sc := LIST_REMOVE (a_peer x) (af, n) (set_num (u64 (sc_aip_num sc - 1)) sc) in
  wg_rep (set_aips (delete (af, n) (aips sc)) (set_root af s' sc)) (delete (af, p) ips)
    (<[af := delete p (M af)]> M).
Proof.
  intros Hr HT Ha Hm Hx sc1. set (sc2 := set_aips _ _).
  assert (∀ af', root sc2 af' = if decide (af' = af) then Some s' else root sc af') as Hroot.
  { intros af'. change (root sc2 af') with (root (set_root af s' sc1) af').
    by rewrite (root_set _ _ s _ _). }
  assert (aips sc2 = delete (af, n) (aips sc)) as Hai by done.
  assert (∀ q, peer_list sc2 q = if decide (q = a_peer x)
    then filter (λ k, k ≠ (af, n)) (peer_list sc (a_peer x)) else peer_list sc q) as Hpl.
  { intros q. transitivity (peer_list sc1 q).
    - unfold sc2, set_root, peer_list. by destruct (af =? AF_INET).
    - unfold sc1, LIST_REMOVE. by rewrite peer_list_set. }
  assert (sc_aip_num sc2 = u64 (sc_aip_num sc - 1)) as Hnum.
  { unfold sc2, set_root. by destruct (af =? AF_INET). }
  destruct (wr_node _ _ _ R _ _ _ Hm) as (x' & Hx' & Hip & Hrest).
  assert (x' = x) as -> by congruence. clear Hx'.
  pose proof node_prefix as Hinj. destruct R. split; rewrite ?Hai.
  - intros af' s1 Hs1. rewrite Hroot in Hs1. case_decide; subst.
    + injection Hs1 as <-. rewrite fn_lookup_insert. done.
    + rewrite fn_lookup_insert_ne by done. by apply wr_table0.
  - intros af' Hs1. rewrite Hroot in Hs1. case_decide; [done|].
    rewrite fn_lookup_insert_ne by done. by apply wr_none0.
  - intros af' q m Hq. destruct (decide (af' = af)) as [->|Hne].
    + rewrite fn_lookup_insert in Hq. apply lookup_delete_Some in Hq as [Hpq Hq].
      destruct (wr_node0 _ _ _ Hq) as (y & Hy & Hrest'). exists y.
      rewrite !lookup_delete_ne; [done|intros [=]; done|]. intros [= ->]. apply Hpq. by eapply Hinj.
    + rewrite fn_lookup_insert_ne in Hq by done. destruct (wr_node0 _ _ _ Hq) as (y & Hy & Hrest').
      exists y. by rewrite !lookup_delete_ne by (intros [=]; done).
  - intros af' m [Hk Hs]%lookup_delete_is_Some. destruct (wr_aip0 _ _ Hs) as [q Hq].
    destruct (decide (af' = af)) as [->|Hne]; [|rewrite fn_lookup_insert_ne by done; by exists q].
    rewrite fn_lookup_insert. exists q. rewrite lookup_delete_ne; [done|]. intros ->. apply Hk. congruence.
  - intros af' q [Hk Hs]%lookup_delete_is_Some. pose proof (wr_ip0 _ _ Hs) as Hq.
    destruct (decide (af' = af)) as [->|Hne]; [|by rewrite fn_lookup_insert_ne by done].
    rewrite fn_lookup_insert. apply lookup_delete_is_Some. split; [congruence|done].
  - intros q. rewrite Hpl. case_decide; [by apply NoDup_filter|done].
  - intros q k. rewrite Hpl. destruct (decide (k = (af, n))) as [->|Hk].
    + rewrite lookup_delete_eq. case_decide; subst.
      * rewrite list_elem_of_filter. naive_solver.
      * rewrite wr_list0, Hx. cbn. naive_solver.
    + rewrite lookup_delete_ne by done. case_decide; subst; [|apply wr_list0].
      rewrite list_elem_of_filter, wr_list0. naive_solver.
  - rewrite Hnum, wr_num0, map_size_delete_Some by (by eexists).
    assert (0 < size ips)%nat by (apply Nat.neq_0_lt_0; rewrite map_size_non_empty_iff; intros ->; done).
    unfold u64. rewrite Zminus_mod_idemp_l. f_equal. lia.
Qed.
End changes.

(** ** The operations keep the promise *)

(** What a caller passes: the address is the sixteen bytes of the union, the prefix
    length any int. *)
Definition io_ok (d : wg_aip_io) : Prop :=
  bytes (a_addr d) ∧ length (a_addr d) = 16%nat ∧ -2147483648 ≤ a_cidr d < 2147483648.

Definition in_range (d : wg_aip_io) : Prop := u32 (a_cidr d) ≤ alen_of (a_af d).

(** The prefix that is meant. *)
Definition key (d : wg_aip_io) : Z * list bool := (a_af d, data_bits d).

Section operations.
Context {sc : wg_softc} {ips : ipmap} (O : wg_ok sc ips).

Lemma io_fits d : io_ok d → in_range d →
  u32 (a_cidr d) = a_cidr d ∧ fits (alen_of (a_af d)) (a_addr d) (a_cidr d).
Proof. intros (Hb & Hl & Hi) Hr. by apply data_fits. Qed.

Lemma wg_aip_add_ok peer d :
  io_ok d →
  match root sc (a_af d) with
  | None => wg_aip_add peer d sc = Ret (EAFNOSUPPORT, sc)
  | Some _ =>
      if decide (in_range d) then
        (∃ sc', wg_aip_add peer d sc = Ret (0, sc') ∧ wg_ok sc' (<[key d := peer]> ips)) ∨
        (∃ sc', wg_aip_add peer d sc = Ret (ENOBUFS, sc') ∧ wg_ok sc' ips) ∨
        (ips !! key d = None ∧ wg_aip_add peer d sc = Fault NullDeref)
      else wg_aip_add peer d sc = Ret (EINVAL, sc)
  end.
Proof.
  intros Hd. destruct O as [M R]. unfold wg_aip_add, key. set (af := a_af d). set (p := data_bits d).
  destruct (root sc af) as [s|] eqn:Hr; [|done].
  destruct (wr_table _ _ _ R _ _ Hr) as [HT Ha]. rewrite Ha.
  destruct (decide (in_range d)) as [Hin|Hin]; unfold in_range in Hin; fold af in Hin.
  2: { by rewrite (proj2 (Z.ltb_lt (alen_of af) (u32 (a_cidr d)))) by lia. }
  rewrite (proj2 (Z.ltb_ge (alen_of af) (u32 (a_cidr d)))) by lia.
  destruct (io_fits d Hd Hin) as [-> Hfit]. fold af in Hfit. pose proof Hfit as Hfits. rewrite <-Ha in Hfits.
  destruct (table_get _ _ HT Hfits) as [(s1 & -> & HT1 & Ha1)|(n & s1 & s2 & -> & Hn0 & Hi & HT2 & Hn & Ha2)].
  { right; left. cbn. eexists. split; [done|]. exists M. eapply rep_root; [done..|]. congruence. }
  cbn [mbind outcome_bind]. rewrite (proj2 (Z.eqb_neq n 0) Hn0), Hi. cbn [mbind outcome_bind].
  destruct (table_insert n p HT2 Hn0 Hn) as (r & s3 & -> & Ha3 & Hcase). cbn [mbind outcome_bind].
  destruct (M af !! p) as [k|] eqn:Ek.
  - destruct Hcase as (-> & Hk & HT3). rewrite (proj2 (Z.eqb_neq k n) Hk).
    destruct (table_drop n p HT3) as (s4 & -> & HT4 & Ha4). cbn [mbind outcome_bind].
    rewrite (proj2 (Z.eqb_neq k 0) (table_ptr HT Ek)).
    assert (wg_rep (set_root af s4 sc) ips M) as R4 by (eapply rep_root; [done..|congruence]).
    destruct (wr_node _ _ _ R4 _ _ _ Ek) as (x & Hx & Hip & _).
    left. rewrite Hx. cbn [deref mbind outcome_bind].
    destruct (Z.eqb_spec (a_peer x) peer) as [E|E]; cbn [negb]; eexists; (split; [done|]); exists M.
    + by rewrite insert_id by congruence.
    + by apply (rep_move R4).
  - destruct Hcase as [[-> HT3]|[-> HT3]].
    + rewrite Z.eqb_refl. left. eexists. split; [done|]. exists (<[af := <[p := n]> (M af)]> M).
      eapply (rep_new R); try done. congruence.
    + rewrite (proj2 (Z.eqb_neq 0 n)) by done. right; right. split; [by apply (ip_none R)|].
      by destruct (table_drop n p HT3) as (s4 & -> & HT4 & Ha4).
Qed.

Lemma wg_aip_remove_ok peer d :
  io_ok d →
  match root sc (a_af d) with
  | None => wg_aip_remove peer d sc = Ret (EAFNOSUPPORT, sc)
  | Some _ =>
      in_range d →
      match ips !! key d with
      | None => ∃ sc', wg_aip_remove peer d sc = Ret (ENOENT, sc') ∧ wg_ok sc' ips
      | Some q =>
          if q =? peer
          then ∃ sc', wg_aip_remove peer d sc = Ret (0, sc') ∧ wg_ok sc' (delete (key d) ips) ∧
                 ∃ k x, aips sc !! k = Some x ∧ key (a_data x) = key d ∧
                   peer_list sc' peer = filter (λ k', k' ≠ k) (peer_list sc peer)
          else ∃ sc', wg_aip_remove peer d sc = Ret (EXDEV, sc') ∧ wg_ok sc' ips
      end
  end.
Proof.
  intros Hd. destruct O as [M R]. unfold wg_aip_remove, key. set (af := a_af d). set (p := data_bits d).
  destruct (root sc af) as [s|] eqn:Hr; [|done]. intros Hin.
  destruct (wr_table _ _ _ R _ _ Hr) as [HT Ha].
  destruct (io_fits d Hd Hin) as [-> Hfit]. fold af in Hfit. pose proof Hfit as Hfits. rewrite <-Ha in Hfits.
  rewrite (table_lookup _ _ HT Hfits). fold (data_bits d). fold p. cbn [mbind outcome_bind].
  assert (wg_rep (set_root af s sc) ips M) as R1 by (by eapply rep_root).
  destruct (M af !! p) as [n|] eqn:Ek; cbn [from_option id].
  2: { rewrite (proj2 (ip_none R af p) Ek). eexists. split; [done|]. by exists M. }
  rewrite (proj2 (Z.eqb_neq n 0) (table_ptr HT Ek)).
  destruct (wr_node _ _ _ R1 _ _ _ Ek) as (x & Hx & Hip & Haf & Hfx & Hpx).
  assert (ips !! (af, p) = Some (a_peer x)) as -> by done. rewrite Hx. cbn [deref mbind outcome_bind].
  destruct (Z.eqb_spec (a_peer x) peer) as [E|E]; cbn [negb].
  2: { eexists. split; [done|]. by exists M. }
  destruct (table_delete _ _ n HT Hfits Ek) as (s2 & -> & HT2 & Ha2). cbn [mbind outcome_bind].
  unfold kassert. rewrite (proj2 (Z.eqb_neq n 0) (table_ptr HT Ek)). cbn [negb mbind outcome_bind].
  destruct (table_drop n p HT2) as (s3 & -> & HT3 & Ha3). cbn [mbind outcome_bind].
  assert (root (set_root af s sc) af = Some s) as Hr1 by (rewrite (root_set _ _ _ _ _ Hr); by rewrite decide_True).
  pose proof (rep_remove R1 af s s3 p n x Hr1 HT3 ltac:(congruence) Ek Hx) as R3. cbv zeta in R3.
  rewrite E in R3. eexists. split; [done|]. split; [by eexists|].
  assert (aips (set_root af s sc) = aips sc) as Hai by (unfold set_root; by destruct (af =? AF_INET)).
  rewrite Hai in Hx. exists (af, n), x. split; [done|]. split; [unfold key; by rewrite Haf, Hpx|].
  set (sc1 := LIST_REMOVE _ _ _). transitivity (peer_list sc1 peer).
  - unfold set_root, peer_list. by destruct (af =? AF_INET).
  - subst sc1. unfold LIST_REMOVE. rewrite peer_list_set, decide_True by done. f_equal.
    unfold set_root, peer_list. by destruct (af =? AF_INET).
Qed.

Lemma wg_aip_lookup_ok af addr :
  bytes addr → length addr = 16%nat → is_Some (root sc af) →
  ∃ q, wg_aip_lookup af addr sc = Ret q ∧
    ((q = 0 ∧ ∀ p, p `prefix_of` abits addr → ips !! (af, p) = None) ∨
     (∃ p, ips !! (af, p) = Some q ∧ p `prefix_of` abits addr ∧
        ∀ p', p' `prefix_of` abits addr → is_Some (ips !! (af, p')) → (length p' ≤ length p)%nat)).
Proof.
  intros Hb Hl [s Hr]. destruct O as [M R]. destruct (wr_table _ _ _ R _ _ Hr) as [HT Ha].
  assert (fits (art_alen (the_art s)) addr 0) as Hf.
  { split_and!; [done..|lia|]. rewrite Ha. unfold alen_of. destruct (af =? AF_INET); lia. }
  destruct (table_match addr HT Hf) as (n & Em & Hn).
  unfold wg_aip_lookup. rewrite Hr. cbn [deref mbind outcome_bind]. rewrite Em. cbn [mbind outcome_bind].
  destruct Hn as [[-> Hno]|(p & Hp & Hpre & Hmax)].
  - exists 0. split; [done|]. left. split; [done|]. intros p Hp. by apply (ip_none R), Hno.
  - rewrite (proj2 (Z.eqb_neq n 0) (table_ptr HT Hp)).
    destruct (wr_node _ _ _ R _ _ _ Hp) as (x & Hx & Hip & _). rewrite Hx. cbn.
    exists (a_peer x). split; [done|]. right. exists p. split_and!; [done..|].
    intros p' Hp' Hs. apply Hmax; [done|]. by apply (wr_ip _ _ _ R).
Qed.
End operations.

(** *** Dropping those of a peer *)

Section drop.
Context {sc : wg_softc} {ips : ipmap} {M : Z → rmap} (R : wg_rep sc ips M).

(** What is known of a [struct wg_aip] on a list. *)
Lemma aip_facts k x :
  aips sc !! k = Some x →
  io_ok (a_data x) ∧ in_range (a_data x) ∧ is_Some (root sc (a_af (a_data x))) ∧
  ips !! key (a_data x) = Some (a_peer x) ∧ k.1 = a_af (a_data x) ∧
  M (a_af (a_data x)) !! data_bits (a_data x) = Some k.2.
Proof.
  destruct k as [af n]. intros Hx. destruct (wr_aip _ _ _ R af n (mk_is_Some _ _ Hx)) as [p Hp].
  destruct (wr_node _ _ _ R _ _ _ Hp) as (y & Hy & Hip & Haf & (Hb & Hl & Hc) & Hd).
  assert (y = x) as -> by congruence. unfold key, io_ok, in_range. rewrite Haf, Hd. cbn.
  assert (alen_of af ≤ 128) by (unfold alen_of; destruct (af =? AF_INET); lia).
  split_and!; try done; try lia.
  - rewrite u32_small by (unfold is_u32; lia). lia.
  - destruct (root sc af) as [s|] eqn:Hr; [by eexists|]. rewrite (wr_none _ _ _ R _ Hr) in Hp. done.
Qed.

Lemma key_inj k1 k2 x1 x2 :
  aips sc !! k1 = Some x1 → aips sc !! k2 = Some x2 → key (a_data x1) = key (a_data x2) → k1 = k2.
Proof.
  intros H1 H2 [= Ha Hd]. destruct (aip_facts _ _ H1) as (_ & _ & _ & _ & E1 & M1).
  destruct (aip_facts _ _ H2) as (_ & _ & _ & _ & E2 & M2). rewrite Ha, Hd, M2 in M1.
  destruct k1, k2. cbn in *. congruence.
Qed.

(** A peer whose list is empty has no prefix. *)
Lemma empty_list peer k : peer_list sc peer = [] → ips !! k ≠ Some peer.
Proof.
  intros Hl Hk. destruct k as [af p]. destruct (wr_ip _ _ _ R af p (mk_is_Some _ _ Hk)) as [n Hn].
  destruct (wr_node _ _ _ R _ _ _ Hn) as (x & Hx & Hip & _).
  assert ((af, n) ∈ peer_list sc peer) as Hin by (rewrite (wr_list _ _ _ R), Hx; cbn; congruence).
  rewrite Hl in Hin. by apply elem_of_nil in Hin.
Qed.
End drop.

Lemma filter_head {A} `{EqDecision A} (k : A) l : k ∉ l → filter (λ k', k' ≠ k) (k :: l) = l.
Proof.
  intros Hk. rewrite filter_cons_False by (by intros H; apply H).
  induction l as [|k' l IH]; [done|]. apply not_elem_of_cons in Hk as [Hne Hk].
  rewrite filter_cons_True by done. by rewrite IH.
Qed.

Lemma drop_aips_ok peer l : ∀ sc ips,
  wg_ok sc ips → peer_list sc peer = l →
  ∃ sc' ips', drop_aips (length l) peer (head l) sc = Ret sc' ∧ wg_ok sc' ips' ∧
    peer_list sc' peer = [] ∧ ips' ⊆ ips ∧ ∀ k, ips !! k ≠ Some peer → ips' !! k = ips !! k.
Proof.
  induction l as [|k l IH]; intros sc ips O Hl.
  { by exists sc, ips. }
  pose proof O as [M R]. pose proof (wr_nodup _ _ _ R peer) as Hnd. rewrite Hl in Hnd.
  apply NoDup_cons in Hnd as [Hk Hnd].
  assert (k ∈ peer_list sc peer) as Hin by (rewrite Hl; apply elem_of_cons; by left).
  rewrite (wr_list _ _ _ R) in Hin. apply fmap_Some in Hin as (x & Hx & Hpeer).
  destruct (aip_facts R _ _ Hx) as (Hio & Hra & [s Hroot] & Hip & _).
  pose proof (wg_aip_remove_ok O peer (a_data x) Hio) as Hrem. rewrite Hroot in Hrem.
  specialize (Hrem Hra). rewrite Hip, <-Hpeer, Z.eqb_refl in Hrem.
  destruct Hrem as (sc1 & Hrem & O1 & k' & x' & Hx' & Hkey & Hl1).
  rewrite (key_inj R _ _ _ _ Hx' Hx Hkey), Hl, (filter_head k l Hk) in Hl1.
  destruct (IH sc1 _ O1 Hl1) as (sc' & ips' & Hd & O' & He & Hsub & Hsame).
  exists sc', ips'. split_and!; [|done|done| |].
  - cbn [drop_aips head length]. rewrite Hx. cbn [deref mbind outcome_bind]. rewrite Hl.
    cbn [LIST_NEXT]. rewrite decide_True by done. rewrite Hrem. cbn [mbind outcome_bind]. done.
  - etransitivity; [exact Hsub|]. apply delete_subseteq.
  - intros q Hq. assert (q ≠ key (a_data x)) as Hne by (intros ->; congruence).
    rewrite Hsame; rewrite lookup_delete_ne by done; done.
Qed.

(** ** Properties *)

(** C13: The allowed IPs of an interface are a map from prefixes to peers, and the
    counters and lists agree with it.  Adding a prefix gives it to the peer, taking
    it from the peer that had it; it fails with EAFNOSUPPORT when there is no table
    of the family, with EINVAL when the prefix is longer than an address, or with
    ENOBUFS, and then changes nothing of the map; the one other outcome, possible
    only for a prefix that is not in the map, is the NULL dereference when the
    routing table cannot get memory.  Removing a prefix no longer than an address
    takes it away if it is the peer's own, else it fails with ENOENT or EXDEV, or
    EAFNOSUPPORT without a table; looking an address of a family with a table up
    gives the peer of the longest prefix that contains it. *)
Theorem wg_aip_refines_map sc ips peer d :
  wg_ok sc ips → io_ok d →
  match root sc (a_af d) with
  | None =>
      wg_aip_add peer d sc = Ret (EAFNOSUPPORT, sc) ∧ wg_aip_remove peer d sc = Ret (EAFNOSUPPORT, sc)
  | Some _ =>
      (if decide (in_range d) then
         (∃ sc', wg_aip_add peer d sc = Ret (0, sc') ∧ wg_ok sc' (<[key d := peer]> ips)) ∨
         (∃ sc', wg_aip_add peer d sc = Ret (ENOBUFS, sc') ∧ wg_ok sc' ips) ∨
         (ips !! key d = None ∧ wg_aip_add peer d sc = Fault NullDeref)
       else wg_aip_add peer d sc = Ret (EINVAL, sc)) ∧
      (in_range d → ∃ sc', wg_aip_remove peer d sc =
           Ret (match ips !! key d with None => ENOENT | Some q => if q =? peer then 0 else EXDEV end, sc') ∧
         wg_ok sc' (if decide (ips !! key d = Some peer) then delete (key d) ips else ips)) ∧
      (∃ q, wg_aip_lookup (a_af d) (a_addr d) sc = Ret q ∧
         ((q = 0 ∧ ∀ p, p `prefix_of` abits (a_addr d) → ips !! (a_af d, p) = None) ∨
          (∃ p, ips !! (a_af d, p) = Some q ∧ p `prefix_of` abits (a_addr d) ∧
             ∀ p', p' `prefix_of` abits (a_addr d) → is_Some (ips !! (a_af d, p')) →
               (length p' ≤ length p)%nat)))
  end.
Proof.
  intros O Hd. pose proof (wg_aip_add_ok O peer d Hd) as Hadd. pose proof (wg_aip_remove_ok O peer d Hd) as Hrem.
  destruct (root sc (a_af d)) as [s|] eqn:Hr; [|done]. split_and!; [done| |].
  - intros Hin. specialize (Hrem Hin). destruct (ips !! key d) as [q|] eqn:E.
    + destruct (Z.eqb_spec q peer) as [->|Hne].
      * destruct Hrem as (sc' & H & O' & _). exists sc'. by rewrite decide_True.
      * destruct Hrem as (sc' & H & O'). exists sc'. rewrite decide_False by congruence. done.
    + destruct Hrem as (sc' & H & O'). exists sc'. done.
  - destruct Hd as (Hb & Hl & _). apply (wg_aip_lookup_ok O); [done|done|by eexists].
Qed.

(** C14: A peer that is destroyed, or whose allowed IPs are replaced, leaves nothing
    behind: the loop ends, no lookup gives the peer any more, its list is empty, and
    the prefixes of the other peers are as before. *)
Theorem wg_peer_leaves_nothing sc ips peer :
  wg_ok sc ips →
  ∃ sc' ips', wg_peer_drop_aips peer sc = Ret sc' ∧ wg_ok sc' ips' ∧ peer_list sc' peer = [] ∧
    (∀ k q, ips' !! k = Some q ↔ ips !! k = Some q ∧ q ≠ peer) ∧
    (∀ af addr q, bytes addr → length addr = 16%nat → peer ≠ 0 →
       wg_aip_lookup af addr sc' = Ret q → q ≠ peer).
Proof.
  intros O. destruct (drop_aips_ok peer _ sc ips O eq_refl) as (sc' & ips' & Hd & O' & Hl & Hsub & Hsame).
  exists sc', ips'. pose proof O' as [M' R'].
  assert (∀ k, ips' !! k ≠ Some peer) as Hno by (intros k; by apply (empty_list R')).
  split_and!; [done|done|done| |].
  - intros k q. split.
    + intros Hq. split; [by eapply lookup_weaken|]. intros ->. by apply (Hno k).
    + intros [Hq Hne]. rewrite Hsame by congruence. done.
  - intros af addr q Hb Hlen Hp Hq ->. destruct (root sc' af) as [s|] eqn:Hr.
    + destruct (wg_aip_lookup_ok O' af addr Hb Hlen (mk_is_Some _ _ Hr)) as (q & Hq' & Hcase).
      assert (q = peer) as -> by congruence. destruct Hcase as [[-> _]|(p & Hp' & _)]; [done|]. by apply (Hno (af, p)).
    + unfold wg_aip_lookup in Hq. rewrite Hr in Hq. done.
Qed.

(** ** A new interface, and runs *)

Lemma wg_create_ok m4 m6 l4 l6 sc : wg_create m4 m6 l4 l6 = Ret (Some sc) → wg_ok sc ∅.
Proof.
  unfold wg_create, art_alloc. intros Hc. destruct m4; [|done].
  destruct (art_init 32) as [a4|] eqn:H4; [|done]. destruct m6; [|done].
  destruct (art_init 128) as [a6|] eqn:H6; [|done].
  injection Hc as <-. exists (λ _, ∅).
  destruct (art_init_ok _ _ H4) as (_ & _ & Ha4 & _). destruct (art_init_ok _ _ H6) as (_ & _ & Ha6 & _).
  split.
  - intros af s Hr. destruct (root_af _ _ _ Hr) as [-> | ->]; injection Hr as <-; (split; [|done]).
    + by apply (reaches_start 32 a4 l4 0).
    + by apply (reaches_start 128 a6 l6 0).
  - done.
  - done.
  - intros af n [x Hx]. done.
  - intros af p [q Hq]. done.
  - intros peer. constructor.
  - intros peer k. unfold peer_list. cbn. split; [by intros ?%elem_of_nil|done].
  - done.
Qed.

(** Prefixes are added one after the other, each successfully. *)
Fixpoint wg_adds (ops : list (Z * wg_aip_io)) (sc : wg_softc) : option wg_softc :=
  match ops with
  | [] => Some sc
  | (peer, d) :: ops =>
      match wg_aip_add peer d sc with
      | Ret (e, sc) => if e =? 0 then wg_adds ops sc else None
      | Fault _ => None
      end
  end.

Definition io_okb (d : wg_aip_io) : bool :=
  forallb (λ b, (0 <=? b) && (b <? 256)) (a_addr d) && (length (a_addr d) =? 16)%nat &&
  (-2147483648 <=? a_cidr d) && (a_cidr d <? 2147483648).

Lemma io_okb_spec d : io_okb d = true → io_ok d.
Proof.
  unfold io_okb, io_ok. rewrite !andb_true_iff, Nat.eqb_eq, forallb_forall. intros [[[Hb ?] ?] ?].
  split_and!; [|done|lia..]. apply Forall_forall. intros b Hin%list_elem_of_In. apply Hb in Hin. unfold is_u8. lia.
Qed.

Lemma wg_adds_ok ops : ∀ sc ips sc',
  wg_ok sc ips → forallb (λ o, io_okb o.2) ops = true → wg_adds ops sc = Some sc' →
  wg_ok sc' (foldl (λ m o, <[key o.2 := o.1]> m) ips ops).
Proof.
  induction ops as [|[peer d] ops IH]; intros sc ips sc' O Hok Hr; cbn in Hok, Hr.
  - by injection Hr as <-.
  - apply andb_true_iff in Hok as [Hd Hok]. apply io_okb_spec in Hd.
    pose proof (wg_aip_add_ok O peer d Hd) as H.
    destruct (root sc (a_af d)) as [s|]; [|by rewrite H in Hr].
    case_decide; [|by rewrite H in Hr].
    destruct H as [(sc1 & H & O1)|[(sc1 & H & O1)|[_ H]]]; rewrite H in Hr; try done.
    cbn in Hr |- *. by apply (IH sc1).
Qed.

Definition ip4 (a b c d : Z) (cidr : Z) : wg_aip_io := WgAipIo AF_INET cidr ([a; b; c; d] ++ replicate 12 0).

(** Two peers; the prefix 10.1.0.0/16 goes from the first to the second. *)
Definition wg_demo_ops : list (Z * wg_aip_io) :=
  [(0x500, ip4 10 0 0 0 8); (0x500, ip4 10 1 0 0 16); (0x700, ip4 10 1 0 0 16);
   (0x700, WgAipIo AF_INET6 64 ([32; 1; 13; 184] ++ replicate 12 0))].

Definition wg_demo_state : option wg_softc :=
  match wg_create true true some_addresses some_addresses with
  | Ret (Some sc) => wg_adds wg_demo_ops sc
  | _ => None
  end.
Definition wg_of (o : option wg_softc) : wg_softc :=
  match o with
  | Some sc => sc
  | None => WgSoftc (mem (state_of None)) (mem (state_of None)) 0 ∅ ∅
  end.
Definition wg_demo : wg_softc := Eval vm_compute in wg_of wg_demo_state.
Definition wg_demo_ips : ipmap :=
  {[key (ip4 10 0 0 0 8) := 0x500; key (ip4 10 1 0 0 16) := 0x700;
    (AF_INET6, pbits [32; 1; 13; 184; 0; 0; 0; 0] 64) := 0x700]}.

Lemma wg_demo_ok : wg_ok wg_demo wg_demo_ips.
Proof.
  destruct (wg_create true true some_addresses some_addresses) as [[sc|]|] eqn:Hc; [|by vm_compute in Hc..].
  assert (foldl (λ m o, <[key o.2 := o.1]> m) ∅ wg_demo_ops = wg_demo_ips) as <- by (vm_compute; reflexivity).
  apply (wg_adds_ok wg_demo_ops sc ∅); [by apply (wg_create_ok _ _ _ _ _ Hc)|vm_compute; reflexivity|].
  assert (wg_demo_state = Some wg_demo) as Hs by (vm_compute; reflexivity).
  unfold wg_demo_state in Hs. by rewrite Hc in Hs.
Qed.

Lemma wg_aip_refines_map_witness :
  wg_aip_lookup AF_INET ([10; 1; 9; 9] ++ replicate 12 0) wg_demo = Ret 0x700 ∧
  (∃ sc', wg_aip_remove 0x500 (ip4 10 1 0 0 16) wg_demo = Ret (EXDEV, sc') ∧ wg_ok sc' wg_demo_ips) ∧
  wg_aip_add 0x500 (ip4 10 1 0 0 33) wg_demo = Ret (EINVAL, wg_demo).
Proof.
  split; [vm_compute; reflexivity|]. split.
  - assert (io_ok (ip4 10 1 0 0 16)) as Hio by (apply io_okb_spec; vm_compute; reflexivity).
    pose proof (wg_aip_refines_map wg_demo wg_demo_ips 0x500 (ip4 10 1 0 0 16) wg_demo_ok Hio) as H.
    destruct (root wg_demo (a_af (ip4 10 1 0 0 16))) eqn:Hr; [|vm_compute in Hr; discriminate].
    destruct H as (_ & Hrem & _).
    assert (wg_demo_ips !! key (ip4 10 1 0 0 16) = Some 0x700) as E by (vm_compute; reflexivity).
    rewrite E in Hrem. rewrite decide_False in Hrem by done. apply Hrem. by vm_compute.
  - assert (io_ok (ip4 10 1 0 0 33)) as Hio by (apply io_okb_spec; vm_compute; reflexivity).
    pose proof (wg_aip_refines_map wg_demo wg_demo_ips 0x500 (ip4 10 1 0 0 33) wg_demo_ok Hio) as H.
    destruct (root wg_demo (a_af (ip4 10 1 0 0 33))) eqn:Hr; [|vm_compute in Hr; discriminate].
    destruct H as (H & _). rewrite decide_False in H; [exact H|]. intros Hin. by vm_compute in Hin.
Defined.

Lemma wg_peer_leaves_nothing_witness :
  ∃ sc' ips', wg_peer_drop_aips 0x700 wg_demo = Ret sc' ∧ wg_ok sc' ips' ∧
    wg_aip_lookup AF_INET ([10; 1; 9; 9] ++ replicate 12 0) sc' ≠ Ret 0x700.
Proof.
  destruct (wg_peer_leaves_nothing wg_demo wg_demo_ips 0x700 wg_demo_ok) as (sc' & ips' & Hd & O' & _ & _ & Hno).
  exists sc', ips'. split; [exact Hd|]. split; [exact O'|]. intros Hl.
  refine (Hno AF_INET _ 0x700 _ _ _ Hl eq_refl); [|reflexivity|discriminate].
  repeat (apply Forall_cons; split; [unfold is_u8; lia|]). apply Forall_nil. exact Logic.I.
Defined.

(** The pools give one address only: enough for the node, not for a table. *)
Definition wg_poor : wg_softc :=
  Eval vm_compute in match wg_create true true [16] [] with Ret (Some sc) => sc | _ => wg_demo end.

(** Without memory for a table [wg_aip_add] dereferences NULL.  The node of the
    new prefix comes from the pool, [art_insert] cannot get the first table and
    gives NULL, and NULL is taken for the node that is there already. *)
Theorem wg_aip_add_null :
  wg_create true true [16] [] = Ret (Some wg_poor) ∧ wg_ok wg_poor ∅ ∧
  wg_aip_add 0x500 (ip4 10 0 0 0 8) wg_poor = Fault NullDeref.
Proof.
  assert (wg_create true true [16] [] = Ret (Some wg_poor)) as Hc by (vm_compute; reflexivity).
  split; [exact Hc|]. split; [exact (wg_create_ok _ _ _ _ _ Hc)|]. vm_compute. reflexivity.
Qed.
